(* ===== verification/_CoqProject ===== *)
-Q . S2P
Prelude.v
Codec.v
Key.v
Batch.v
Bloom.v
Wal.v
WalRecords.v
Iter.v
Versions.v
Skiplist.v
SkipProofs.v
Memtable.v
SkipConc.v
Heap.v
Merge.v
Block.v
SSTable.v
TableWrite.v
TableRead.v
Db.v
DbIter.v
Tiers.v
Export.v
MemDB.v
Manifest.v
Version.v
Engine.v
EngineLog.v
EngineRead.v
EngineInv.v
EngineCommit.v
EngineInstall.v
EngineCompact.v
EngineOpen.v
EngineRestore.v
EngineRuns.v
EngineTheorems.v
EngineLoops.v
LogStore.v
DiskStore.v
DiskRecover.v
DiskDurable.v
Raft.v
Protocol.v
Safety.v
Preserve.v
Refine.v
Cluster.v
RaftCalls.v
SnapData.v
RaftBounds.v
Node.v
Replica.v
ReplicaInv.v
ReplicaOps.v
ReplicaTheorems.v
NodeReads.v
ReplicaReads.v
NodeHandles.v
NodeTheorems.v
Transport.v
KvNode.v
KeyHash.v
StateMachine.v
KvSpec.v
KvRefine.v
KvReplica.v
KvTheorems.v
KvReplicaExample.v
Server.v
Client.v
ClientTheorems.v
Router.v
RouterRuns.v
MoveInv.v
MoveSafety.v
MoveTheorems.v
MoveFinish.v
MoveFindings.v
Sim.v
