(* ===== verification/Prelude.v ===== *)
(** * Keystone: a verification of the replicated, sharded key-value store

    Keystone keeps keys in shards, shards in groups, and every group on a set
    of nodes that run Raft over an LSM storage engine.  This library models
    the code of each part, from the bytes of a block to a shard that moves
    between groups while clients write to it, and proves what each part
    promises to the next.

    ** How Go is modelled

    A [[]byte] is a list of [Byte.byte]; an unsigned integer is an [N] with
    its width written out where it can matter ([u64], [usub64], [be_put],
    truncating conversions); an [int] is a [Z] or a [nat].  A call has an
    outcome in [go A]: a value, an error, or a panic, and state is passed
    explicitly or by a small state monad ([Raft.M], [Node.NM], the programs of
    [Router]).  Maps are stdpp's [gmap]; pointers that are shared (handles of
    a node, nodes of a skip list) are positions in a heap.  What the operating
    system, the network and other goroutines do is an input: outcomes of
    system calls are lists of booleans, crashes and interleavings are steps of
    a relation.  Interfaces of the code are type classes, with a second class
    for their contract: [Iter], [LogStore]/[LogStoreOK], [Machine]/[MachineOK],
    [DB]/[DBOK].  Clients are proved against the contract, implementations
    discharge it.

    ** The storage engine (src/storage)

    - [Codec], [Key], [Batch], [Bloom]: encodings (encoding/binary, key.go,
      batch.go, bloom.go) with their round trips.
    - [Wal], [WalRecords]: wal.go over a directory of files, each with a synced
      prefix.  [wal_durable]: what was acknowledged under SyncAlways survives
      any history of failing calls, crashes and reopenings.
    - [Iter], [Versions], [Heap], [Merge]: iter.go, versions of a key,
      container/heap and merge.go; merging walks the union in order.
    - [Skiplist], [SkipProofs], [SkipConc], [Memtable]: skiplist.go pointer by
      pointer, also while a reader and the writer interleave; memtable.go.
    - [Block], [SSTable], [TableWrite], [TableRead]: block.go and sstable.go
      down to the bytes; tables written without an I/O error read back.
    - [Db], [DbIter], [Tiers], [Export], [MemDB]: the interface of the engine,
      the iterator over visible values, memdb.go as a refinement of a map.
    - [Manifest], [Version], [Engine]: manifest.go, version.go, compaction.go
      and db.go.  [EngineLog], [EngineRead], [EngineInv] state
      what holds; [EngineCommit], [EngineInstall], [EngineCompact],
      [EngineOpen], [EngineRestore] prove it of every operation;
      [EngineRuns] interleaves writers, flushes, compactions, restores and
      crashes; [EngineTheorems]: the engine is a durable map in every such
      run, and its state well formed; [EngineLoops]: the background loops come to rest.

    ** Replication (src/raft)

    - [LogStore]: types.go, logstore.go and memstore.go; the contract of a log
      store is agreement with the store in memory.  [DiskStore],
      [DiskRecover], [DiskDurable]: diskstore.go with failing calls and
      crashes, and exactly when it opens again.
    - [Raft]: raft.go and snapshot.go, every handler in a state monad that
      records stores and messages in their order.
    - [Protocol], [Safety], [Preserve]: the protocol as small steps of one
      node, with a ghost history; election safety, log matching, leader
      completeness as an invariant.
    - [Refine], [Cluster]: every call of the code, cut anywhere by a crash, is
      a run of the protocol, so its safety is that of the code.
    - [RaftBounds]: messages stay within the limits of the configuration.
    - [Node], [NodeHandles], [NodeTheorems]: node.go; handles are settled once,
      committed entries are applied once and in order, no wake-up is lost.
    - [RaftCalls], [SnapData]: what calls of a [Raft] keep; snapshots travel
      unaltered although chunks may come from several leaders.
    - [Replica], [ReplicaInv], [ReplicaOps], [ReplicaTheorems]:
      nodes, log stores and state machines together, over a network that
      loses, repeats and reorders, with crashes inside any call: the machines
      are states of one log.
    - [NodeReads]: what a [Raft] and its node keep about read rounds and the
      reads waiting on them; [ReplicaReads]: a majority that answers in the
      term of a leader leaves nothing committed beyond what the leader knows,
      so a read that is settled is current, at a node that keeps running and
      whose round numbers are fresh, which they are from its first start on.

    ** The store and its clients (src/kv, src/internal/keyhash)

    - [KeyHash], [StateMachine], [KvSpec], [KvRefine], [KvTheorems]:
      statemachine.go refines a map with sessions and shard states.
    - [KvReplica], [KvReplicaExample]: it meets [MachineOK] over any engine
      whose contents determine its snapshots, which gives
      [kv_replicas_agree]; reads are linearizable where [ReplicaReads]
      applies; a run with a crash, and one with a stale read after a restart.
    - [Server], [Client], [ClientTheorems]: server.go and client.go; a call of
      the client takes effect at most once, whatever is lost and retried.
    - [Transport], [KvNode]: transport.go with its queues and streams, and
      node.go, which opens everything or nothing.

    ** Shards (src/shard)

    - [Router], [RouterRuns]: shard.go and router.go as programs
      of calls that interleave with each other and with clients.
    - [MoveInv], [MoveSafety], [MoveTheorems], [MoveFinish], [MoveFindings]:
      moving a shard loses and repeats nothing while one mover
      is at work, an interrupted move can be finished, and what happens with
      two movers.

    ** The simulator (src/sim)

    - [Sim]: in [SimLog], the log store with a journal (logstore.go) and a
      step of a node that a crash tears (node.go, network.go): it leaves and
      sends what the cluster model lets a crashed call leave.  In [SimCheck],
      the checks of invariants.go, which every run of a cluster passes.  In
      [SimClient], the operations of client.go and the registers a history
      is judged by, which accept what [KvSpec] answers.

    ** Fuel and bounds

    Loops that are not structural take fuel, and run out of it by panicking:
    theorems that say a call returns therefore show that the fuel is enough.
    The bounds are the length of what is walked (entries of a memtable, bytes
    of a table, entries left to apply, proposals queued).  Sizes must fit
    their encodings: a batch and a record fit 32 bits, a table offset 64.

    ** What is assumed

    Durability is that of SyncAlways and of a file system whose synced bytes
    survive.  Protobuf decodes what it encodes, and decoded fields have their
    declared widths; group ids are not zero.  Log indexes, sequence numbers
    and file numbers stay below 2^64.  Snapshots of one log position have the
    same bytes on every replica ([mo_data_fun]): this holds of the engine when
    all nodes use one block size.  Each such assumption is a hypothesis of the
    theorems that need it, with a witness that meets it.

    ** What is not modelled

    - src/bench, src/cmd and src/kv/metrics.go: measurement, flags, printing
      and HTTP; nothing depends on their results.
    - src/sim: the event queue, the clock, the drawing of faults, and when a
      client issues, retries and gives up an operation.  The step relations
      of this library allow every run they could produce.  Its check on the
      order of applied entries and its printing of traces.
    - src/proto/*.pb.go: generated; the messages are records here, and their
      encoding a parameter.
    - Time: tickers, timeouts and backoff delays are choices of the
      environment (raft/clock.go); that an election eventually succeeds is
      not stated.
    - Memory reclamation: reference counts of open tables and versions are in
      the engine as sets of files that are still read; removal of aborted
      files is not.  *)

From Stdlib Require Export NArith ZArith Lia.
From Stdlib Require Export Strings.Byte.
From stdpp Require Export prelude list gmap sorting.

Open Scope nat_scope.

(** ** Bytes

    A Go [byte] is the standard library's [Byte.byte]; a [[]byte] is a list
    of them.  The value of a byte and the truncating conversion [byte(x)]
    are [bval] and [bof]. *)

Abbreviation bytes := (list byte).

Definition bval (b : byte) : N := Byte.to_N b.

Definition bof (n : N) : byte := default x00 (Byte.of_N (n mod 256)).

#[global] Instance byte_eq_decision : EqDecision byte := Byte.byte_eq_dec.

Lemma bval_bound b : (bval b < 256)%N.
Proof. pose proof (Byte.to_N_bounded b). unfold bval. lia. Qed.

Lemma bof_bval b : bof (bval b) = b.
Proof.
  unfold bof. rewrite N.mod_small by apply bval_bound.
  unfold bval. by rewrite Byte.of_to_N.
Qed.

Lemma bval_bof n : bval (bof n) = (n mod 256)%N.
Proof.
  unfold bof, bval.
  assert (n mod 256 < 256)%N as Hlt by (apply N.mod_lt; lia).
  destruct (Byte.of_N (n mod 256)) as [b|] eqn:E; simpl.
  - by apply Byte.to_of_N.
  - apply Byte.of_N_None_iff in E. lia.
Qed.

Lemma bval_bof_small n : (n < 256)%N -> bval (bof n) = n.
Proof. intros. rewrite bval_bof. by apply N.mod_small. Qed.

#[global] Instance bval_inj : Inj (=) (=) bval.
Proof. intros a b H. rewrite <-(bof_bval a), <-(bof_bval b). by f_equal. Qed.

#[global] Program Instance byte_countable : Countable byte :=
  inj_countable bval (fun n => Some (bof n)) _.
Next Obligation. intros b. simpl. by rewrite bof_bval. Qed.

(** ** Machine integers

    [uint64], [uint32] and friends are [N] with the wrap-around written out
    where the code can wrap. *)

Definition w64 : N := 18446744073709551616.
Definition w32 : N := 4294967296.

Definition u64 (n : N) : N := n mod w64.
Definition u32 (n : N) : N := n mod w32.

(** Unsigned subtraction wraps. *)
Definition usub64 (a b : N) : N := if (b <=? a)%N then (a - b)%N else (w64 + a - b)%N.

(** [int(x)] of a [uint64], and the wrap-around of [int] arithmetic. *)
Definition to_int (n : N) : Z :=
  if (n <? 9223372036854775808)%N then Z.of_N n else (Z.of_N n - 18446744073709551616)%Z.
Definition wrap_int (z : Z) : Z :=
  ((z + 9223372036854775808) mod 18446744073709551616 - 9223372036854775808)%Z.

Lemma to_int_small n : (n < 9223372036854775808)%N -> to_int n = Z.of_N n.
Proof. intros. unfold to_int. by rewrite (proj2 (N.ltb_lt _ _)). Qed.

Lemma wrap_int_small z :
  (-9223372036854775808 <= z < 9223372036854775808)%Z -> wrap_int z = z.
Proof. intros. unfold wrap_int. rewrite Z.mod_small; lia. Qed.

Lemma u64_small n : (n < w64)%N -> u64 n = n.
Proof. apply N.mod_small. Qed.

Lemma u64_lt n : (u64 n < w64)%N.
Proof. by apply N.mod_lt. Qed.

Lemma u32_small n : (n < w32)%N -> u32 n = n.
Proof. apply N.mod_small. Qed.

Lemma usub64_le a b : (b <= a)%N -> usub64 a b = (a - b)%N.
Proof. unfold usub64. intros H. destruct (N.leb_spec b a); lia. Qed.

Lemma lor_shiftl_add a b s :
  (a < 2 ^ s)%N -> N.lor a (N.shiftl b s) = (a + b * 2 ^ s)%N.
Proof.
  intros Ha. rewrite N.shiftl_mul_pow2, N.add_comm.
  assert (N.land a (b * 2 ^ s) = 0%N) as Hl.
  { apply N.bits_inj_0. intros i. rewrite N.land_spec.
    destruct (N.lt_ge_cases i s) as [Hi|Hi].
    - rewrite N.mul_pow2_bits_low by done. apply andb_false_r.
    - destruct (N.eq_dec a 0%N) as [->|Hn]; [by rewrite N.bits_0|].
      rewrite (N.bits_above_log2 a) by (pose proof (N.log2_lt_pow2 a s); lia).
      done. }
  rewrite N.add_comm, (N.add_nocarry_lxor _ _ Hl).
  by rewrite N.lxor_lor.
Qed.

(** ** Go results

    A call either returns, returns an error, or panics.  The named errors
    are the sentinel values of the code. *)

Inductive error :=
  | ErrNotFound | ErrClosed | ErrEmptyKey | ErrEmptyRecord | ErrCorrupt
  | ErrBadBatch | ErrBadBlock | ErrBadTable | ErrBadManifest | ErrVersion
  | ErrIO | ErrShortRecord | ErrUnknownRecord | ErrGap | ErrSnapshotBelow
  | ErrCompacted | ErrRange | ErrLogStart | ErrNotLeader | ErrLeaderNotReady
  | ErrMoving | ErrConfig.

#[global] Instance error_eq_decision : EqDecision error.
Proof. solve_decision. Defined.

Inductive go (A : Type) :=
  | Ret (a : A)
  | Fail (e : error)
  | Panic.
Arguments Ret {A} _.
Arguments Fail {A} _.
Arguments Panic {A}.

#[global] Instance go_ret : MRet go := fun A a => Ret a.
#[global] Instance go_bind : MBind go := fun A B f m =>
  match m with Ret a => f a | Fail e => Fail e | Panic => Panic end.
#[global] Instance go_fmap : FMap go := fun A B f m =>
  match m with Ret a => Ret (f a) | Fail e => Fail e | Panic => Panic end.

#[global] Instance go_eq_decision `{EqDecision A} : EqDecision (go A).
Proof. solve_decision. Defined.

(** Go slicing [s[lo:hi]]: out of range is a panic. *)
Definition slice {A} (s : list A) (lo hi : nat) : go (list A) :=
  if (lo <=? hi) && (hi <=? length s) then Ret (take (hi - lo) (drop lo s)) else Panic.

Lemma slice_ok {A} (s : list A) lo hi :
  lo <= hi -> hi <= length s -> slice s lo hi = Ret (take (hi - lo) (drop lo s)).
Proof.
  intros. unfold slice.
  destruct (Nat.leb_spec lo hi), (Nat.leb_spec hi (length s)); simpl; (done || lia).
Qed.

(** Slicing with [int] bounds, which may be negative. *)
Definition slice_z {A} (s : list A) (lo hi : Z) : go (list A) :=
  if (0 <=? lo)%Z && (0 <=? hi)%Z then slice s (Z.to_nat lo) (Z.to_nat hi) else Panic.

Lemma slice_z_ok {A} (s : list A) (lo hi : Z) :
  (0 <= lo <= hi)%Z -> (hi <= Z.of_nat (length s))%Z ->
  slice_z s lo hi = Ret (take (Z.to_nat hi - Z.to_nat lo) (drop (Z.to_nat lo) s)).
Proof.
  intros. unfold slice_z. destruct (Z.leb_spec 0 lo), (Z.leb_spec 0 hi); try lia. simpl.
  apply slice_ok; lia.
Qed.

(** A loop over a list whose body may fail. *)
Fixpoint go_foldl {A S} (f : A -> S -> go S) (l : list A) (s : S) : go S :=
  match l with
  | [] => Ret s
  | x :: l => s ← f x s; go_foldl f l s
  end.

Lemma go_foldl_app {A S} (f : A -> S -> go S) l1 l2 s :
  go_foldl f (l1 ++ l2) s = (s' ← go_foldl f l1 s; go_foldl f l2 s').
Proof.
  revert s. induction l1 as [|x l1 IH]; intros s; simpl; [done|].
  destruct (f x s); simpl; auto.
Qed.

Lemma go_bind_assoc {A B C} (m : go A) (f : A -> go B) (g : B -> go C) :
  ((m ≫= f) ≫= g) = (m ≫= (fun x => f x ≫= g)).
Proof. by destruct m. Qed.

(** ** Lists *)

Lemma filter_all {A} (P : A -> Prop) `{!forall x, Decision (P x)} l : Forall P l -> filter P l = l.
Proof. induction 1 as [|x l Hx _ IH]; [done|]. by rewrite filter_cons_True, IH. Qed.

Lemma elem_of_concat {A} (l : list (list A)) x : x ∈ concat l <-> exists c, x ∈ c /\ c ∈ l.
Proof. induction l as [|c l IH]; simpl; [set_solver|]. rewrite elem_of_app, IH. set_solver. Qed.

(** ** Development tactics and hints *)

Create HintDb keystone.
Create Rewrite HintDb len.
#[export] Hint Resolve bval_bound : keystone.
#[export] Hint Rewrite @length_app @length_take @length_drop @length_reverse
  @length_replicate : len.

(** Case analysis on the head [match]/[if] of the goal or a hypothesis. *)
Ltac break_match :=
  match goal with
  | |- context [match ?x with _ => _ end] => destruct x eqn:?
  | H : context [match ?x with _ => _ end] |- _ => destruct x eqn:?
  end.

(** Turn boolean comparisons into propositions. *)
Ltac bool_to_prop :=
  repeat match goal with
  | H : (_ && _) = true |- _ => apply andb_true_iff in H as [? ?]
  | H : (_ || _) = false |- _ => apply orb_false_iff in H as [? ?]
  | H : negb _ = true |- _ => apply negb_true_iff in H
  | H : negb _ = false |- _ => apply negb_false_iff in H
  | H : (_ <? _)%N = true |- _ => apply N.ltb_lt in H
  | H : (_ <? _)%N = false |- _ => apply N.ltb_ge in H
  | H : (_ <=? _)%N = true |- _ => apply N.leb_le in H
  | H : (_ <=? _)%N = false |- _ => apply N.leb_gt in H
  | H : (_ =? _)%N = true |- _ => apply N.eqb_eq in H
  | H : (_ =? _)%N = false |- _ => apply N.eqb_neq in H
  | H : (_ <? _) = true |- _ => apply Nat.ltb_lt in H
  | H : (_ <? _) = false |- _ => apply Nat.ltb_ge in H
  | H : (_ <=? _) = true |- _ => apply Nat.leb_le in H
  | H : (_ <=? _) = false |- _ => apply Nat.leb_gt in H
  | H : (_ =? _) = true |- _ => apply Nat.eqb_eq in H
  | H : (_ =? _) = false |- _ => apply Nat.eqb_neq in H
  | H : bool_decide _ = true |- _ => apply bool_decide_eq_true in H
  | H : bool_decide _ = false |- _ => apply bool_decide_eq_false in H
  end.
