(* ===== verification/Codec.v ===== *)
(** * encoding/binary: fixed-width and varint integers

    The parts of Go's [encoding/binary] and [hash/crc32] that the storage
    formats use: little- and big-endian [uint32]/[uint64], unsigned varints
    and the Castagnoli CRC, with their round trips. *)

From S2P Require Import Prelude.

(** ** Fixed width *)

Fixpoint le_put (n : nat) (x : N) : bytes :=
  match n with
  | O => []
  | S n => bof (x mod 256) :: le_put n (x / 256)
  end.

Fixpoint le_get (b : bytes) : N :=
  match b with
  | [] => 0
  | c :: b => bval c + 256 * le_get b
  end.

Definition be_put (n : nat) (x : N) : bytes := reverse (le_put n x).
Definition be_get (b : bytes) : N := le_get (reverse b).


(** [binary.LittleEndian.Uint64(b)] reads the first eight bytes and panics
    on a shorter slice; likewise for the other widths. *)
Definition le_uint (n : nat) (b : bytes) : go N :=
  if n <=? length b then Ret (le_get (take n b)) else Panic.

Definition be_uint (n : nat) (b : bytes) : go N :=
  if n <=? length b then Ret (be_get (take n b)) else Panic.

Lemma length_le_put n x : length (le_put n x) = n.
Proof. revert x. induction n; intros; cbn [le_put length]; auto. Qed.

Lemma length_be_put n x : length (be_put n x) = n.
Proof. unfold be_put. by rewrite length_reverse, length_le_put. Qed.
#[export] Hint Rewrite length_le_put length_be_put : len.

Lemma le_get_put n x : le_get (le_put n x) = (x mod 256 ^ N.of_nat n)%N.
Proof.
  revert x. induction n as [|n IH]; intros x.
  - cbn [le_put le_get]. by rewrite N.mod_1_r.
  - cbn [le_put le_get].
    rewrite IH, bval_bof, N.Div0.mod_mod, Nat2N.inj_succ, N.pow_succ_r'.
    rewrite N.Div0.mod_mul_r. lia.
Qed.

Lemma le_get_bound b : (le_get b < 256 ^ N.of_nat (length b))%N.
Proof.
  induction b as [|c b IH]; [simpl; lia|].
  cbn [le_get length]. rewrite Nat2N.inj_succ, N.pow_succ_r'.
  pose proof (bval_bound c). lia.
Qed.

Lemma le_put_get b : le_put (length b) (le_get b) = b.
Proof.
  induction b as [|c b IH]; [done|].
  cbn [length le_put le_get]. pose proof (bval_bound c).
  replace ((bval c + 256 * le_get b) mod 256)%N with (bval c).
  2:{ rewrite N.mul_comm, N.Div0.mod_add. by rewrite N.mod_small. }
  replace ((bval c + 256 * le_get b) / 256)%N with (le_get b).
  2:{ rewrite N.mul_comm, N.div_add by lia. rewrite N.div_small; lia. }
  by rewrite bof_bval, IH.
Qed.

Lemma be_get_put n x : be_get (be_put n x) = (x mod 256 ^ N.of_nat n)%N.
Proof. unfold be_get, be_put. by rewrite reverse_involutive, le_get_put. Qed.

Lemma le_uint_put n x rest :
  (x < 256 ^ N.of_nat n)%N -> le_uint n (le_put n x ++ rest) = Ret x.
Proof.
  intros Hx. unfold le_uint.
  destruct (Nat.leb_spec n (length (le_put n x ++ rest))) as [_|H].
  2:{ autorewrite with len in H. lia. }
  rewrite take_app_length' by (by rewrite length_le_put).
  by rewrite le_get_put, N.mod_small.
Qed.

Lemma be_uint_put n x rest :
  (x < 256 ^ N.of_nat n)%N -> be_uint n (be_put n x ++ rest) = Ret x.
Proof.
  intros Hx. unfold be_uint.
  destruct (Nat.leb_spec n (length (be_put n x ++ rest))) as [_|H].
  2:{ autorewrite with len in H. lia. }
  rewrite take_app_length' by (by rewrite length_be_put).
  by rewrite be_get_put, N.mod_small.
Qed.

(** ** Varints *)

(** [binary.AppendUvarint]: ten bytes hold any [uint64], so ten rounds of
    the loop are enough. *)
Fixpoint uvarint_put (fuel : nat) (x : N) : bytes :=
  match fuel with
  | O => []
  | S fuel =>
      if (x <? 128)%N then [bof x]
      else bof (N.lor (x mod 128) 128) :: uvarint_put fuel (N.shiftr x 7)
  end.

Definition put_uvarint (x : N) : bytes := uvarint_put 10 x.

(** [binary.Uvarint]: the value and the number of bytes read; zero bytes
    means the buffer is too short, a negative count an overflow. *)
Fixpoint uvarint_get (i : nat) (s x : N) (buf : bytes) : N * Z :=
  match buf with
  | [] => (0%N, 0%Z)
  | b :: buf =>
      if i =? 10 then (0%N, (- Z.of_nat (i + 1))%Z)
      else if (bval b <? 128)%N then
        if (i =? 9) && (1 <? bval b)%N then (0%N, (- Z.of_nat (i + 1))%Z)
        else (N.lor x (u64 (N.shiftl (bval b) s)), Z.of_nat (i + 1))
      else uvarint_get (S i) (s + 7) (N.lor x (u64 (N.shiftl (N.land (bval b) 127) s))) buf
  end.

Definition uvarint (buf : bytes) : N * Z := uvarint_get 0 0 0 buf.

Lemma uvarint_put_nonempty fuel x : 0 < fuel -> 0 < length (uvarint_put fuel x).
Proof. destruct fuel; simpl; [lia|]. intros _. case_match; simpl; lia. Qed.

Lemma uvarint_byte x : bval (bof (N.lor (x mod 128) 128)) = (x mod 128 + 128)%N.
Proof.
  assert (x mod 128 < 128)%N as Hx by (apply N.mod_lt; lia).
  pose proof (lor_shiftl_add (x mod 128) 1 7 Hx) as H.
  change (N.shiftl 1 7) with 128%N in H. rewrite H.
  change (1 * 2 ^ 7)%N with 128%N. apply bval_bof_small. lia.
Qed.

Lemma uvarint_byte_lo x : (N.land (bval (bof (N.lor (x mod 128) 128))) 127 = x mod 128)%N.
Proof.
  rewrite uvarint_byte. change 127%N with (N.ones 7). rewrite N.land_ones.
  change (2 ^ 7)%N with 128%N. replace (x mod 128 + 128)%N with (x mod 128 + 1 * 128)%N by lia.
  rewrite N.Div0.mod_add. apply N.Div0.mod_mod.
Qed.

Lemma uvarint_byte_hi x : (128 <= bval (bof (N.lor (x mod 128) 128)))%N.
Proof. rewrite uvarint_byte. apply N.le_add_l. Qed.

Lemma uvarint_get_put fuel x acc i rest :
  i + fuel = 10 -> i < 10 ->
  (acc < 2 ^ (7 * N.of_nat i))%N -> (x * 2 ^ (7 * N.of_nat i) < w64)%N ->
  uvarint_get i (7 * N.of_nat i) acc (uvarint_put fuel x ++ rest) =
    ((acc + x * 2 ^ (7 * N.of_nat i))%N, Z.of_nat (i + length (uvarint_put fuel x))).
Proof.
  revert x acc i. induction fuel as [|fuel IH]; intros x acc i Hi Hi9 Hacc Hx; [lia|].
  cbn [uvarint_put]. destruct (N.ltb_spec x 128) as [Hlt|Hge].
  - cbn [app uvarint_get length]. rewrite bval_bof_small by lia.
    destruct (Nat.eqb_spec i 10); [lia|].
    destruct (N.ltb_spec x 128); [|lia].
    assert ((i =? 9) && (1 <? x)%N = false) as ->.
    { destruct (Nat.eqb_spec i 9) as [->|]; [|done]. simpl.
      change (2 ^ (7 * N.of_nat 9))%N with 9223372036854775808%N in Hx. unfold w64 in Hx.
      apply N.ltb_ge. lia. }
    rewrite u64_small by (by rewrite N.shiftl_mul_pow2).
    by rewrite lor_shiftl_add.
  - cbn [app uvarint_get length].
    destruct (Nat.eqb_spec i 10); [lia|].
    destruct (N.ltb_spec (bval (bof (N.lor (x mod 128) 128))) 128) as [H|_].
    { pose proof (uvarint_byte_hi x). lia. }
    rewrite uvarint_byte_lo.
    assert (2 ^ (7 * N.of_nat (S i)) = 128 * 2 ^ (7 * N.of_nat i))%N as Hpow.
    { replace (7 * N.of_nat (S i))%N with (7 + 7 * N.of_nat i)%N by lia.
      by rewrite N.pow_add_r. }
    assert (i < 9) as Hi8.
    { destruct (decide (i = 9)) as [->|]; [|lia]. exfalso.
      change (2 ^ (7 * N.of_nat 9))%N with 9223372036854775808%N in Hx. unfold w64 in Hx. lia. }
    assert (x mod 128 < 128)%N as Hm by (apply N.mod_lt; lia).
    assert (x = 128 * (x / 128) + x mod 128)%N as Hdm by (apply N.div_mod; lia).
    assert (0 < 2 ^ (7 * N.of_nat i))%N as Hpos by (apply N.neq_0_lt_0, N.pow_nonzero; lia).
    set (P := (2 ^ (7 * N.of_nat i))%N) in *.
    assert ((x mod 128) * P <= 127 * P)%N as HrP by (apply N.mul_le_mono_r; lia).
    assert (x * P = 128 * (x / 128 * P) + (x mod 128) * P)%N as HxP.
    { rewrite Hdm at 1. ring. }
    rewrite u64_small by (rewrite N.shiftl_mul_pow2; fold P; lia).
    rewrite lor_shiftl_add by done.
    replace (7 * N.of_nat i + 7)%N with (7 * N.of_nat (S i))%N by lia.
    rewrite N.shiftr_div_pow2. change (2 ^ 7)%N with 128%N.
    fold P. assert (x / 128 * (128 * P) = 128 * (x / 128 * P))%N as Hq by ring.
    rewrite HxP in Hx |- *. clear HxP Hdm.
    rewrite IH; rewrite ?Hpow, ?Hq; clear Hq Hpow;
      generalize dependent (x / 128 * P)%N; generalize dependent (x mod 128 * P)%N;
      intros; [f_equal|..]; lia.
Qed.

(** A [uint64] written as a varint is read back, with its length, whatever
    follows it. *)
Lemma uvarint_put_uvarint x rest :
  (x < w64)%N ->
  uvarint (put_uvarint x ++ rest) = (x, Z.of_nat (length (put_uvarint x))).
Proof.
  intros Hx. unfold uvarint, put_uvarint.
  pose proof (uvarint_get_put 10 x 0 0 rest) as H.
  change (7 * N.of_nat 0)%N with 0%N in H. rewrite H; [|simpl; lia..].
  f_equal. simpl. lia.
Qed.

(** The bytes a successful read consumed are within the buffer. *)
Lemma uvarint_get_bound i s x buf v n :
  uvarint_get i s x buf = (v, n) -> (n <= Z.of_nat (i + length buf))%Z.
Proof.
  revert i s x. induction buf as [|b buf IH]; intros i s x; simpl.
  - intros [= <- <-]. lia.
  - repeat case_match; intros H'; try (injection H' as <- <-; lia).
    apply IH in H'. lia.
Qed.

Lemma uvarint_bound buf v n : uvarint buf = (v, n) -> (n <= Z.of_nat (length buf))%Z.
Proof. intros H. apply uvarint_get_bound in H. lia. Qed.

(** ** CRC-32C

    [crc32.Checksum(b, castagnoli)]: the reflected Castagnoli polynomial,
    one bit at a time. *)

Definition crc_poly : N := 2197175160.  (* 0x82f63b78 *)

Definition crc_bit (c : N) : N :=
  if N.odd c then N.lxor (N.shiftr c 1) crc_poly else N.shiftr c 1.

Definition crc_byte (c : N) (b : byte) : N :=
  Nat.iter 8 crc_bit (N.lxor c (bval b)).

Definition crc32c (b : bytes) : N :=
  N.lxor (foldl crc_byte 4294967295%N b) 4294967295.

(** The check value of the CRC-32C catalogue: the checksum of the ASCII
    digits [123456789]. *)
Example crc32c_check :
  crc32c (map bof [49;50;51;52;53;54;55;56;57]%N) = 3808858755%N.
Proof. vm_compute. reflexivity. Qed.

Lemma lxor_lt_w32 a b : (a < w32)%N -> (b < w32)%N -> (N.lxor a b < w32)%N.
Proof.
  intros Ha Hb. change w32 with (2 ^ 32)%N in *.
  destruct (N.eq_dec (N.lxor a b) 0%N) as [->|Hn]; [done|].
  apply N.log2_lt_pow2; [lia|].
  eapply N.le_lt_trans; [apply N.log2_lxor|].
  apply N.max_lub_lt;
    (destruct (N.eq_dec a 0%N) as [->|]; destruct (N.eq_dec b 0%N) as [->|];
     try done; apply N.log2_lt_pow2; lia).
Qed.

Lemma crc_bit_bound c : (c < w32)%N -> (crc_bit c < w32)%N.
Proof.
  intros Hc. unfold crc_bit.
  assert (N.shiftr c 1 < w32)%N.
  { rewrite N.shiftr_div_pow2. change (2 ^ 1)%N with 2%N.
    eapply N.le_lt_trans; [apply N.Div0.div_le_upper_bound|exact Hc]. lia. }
  case_match; [|done]. apply lxor_lt_w32; [done|]. unfold crc_poly, w32. lia.
Qed.

Lemma crc_byte_bound c b : (c < w32)%N -> (crc_byte c b < w32)%N.
Proof.
  intros Hc. unfold crc_byte. apply (Nat.iter_invariant 8 _ crc_bit (fun c => (c < w32)%N)).
  - intros. by apply crc_bit_bound.
  - apply lxor_lt_w32; [done|]. pose proof (bval_bound b). unfold w32. lia.
Qed.

(** The checksum fits the four bytes it is stored in. *)
Lemma crc32c_bound b : (crc32c b < w32)%N.
Proof.
  unfold crc32c. apply lxor_lt_w32; [|unfold w32; lia].
  generalize (4294967295%N) (eq_refl : (4294967295 < w32)%N).
  induction b as [|c b IH]; intros s Hs; simpl; [done|].
  apply IH. by apply crc_byte_bound.
Qed.

#[global] Arguments le_put : simpl never.
#[global] Arguments be_put : simpl never.
#[global] Arguments put_uvarint : simpl never.
#[global] Arguments uvarint : simpl never.
#[global] Arguments crc32c : simpl never.
