(* ===== verification/Key.v ===== *)
(** * storage/key.go: internal keys

    An internal key is the user key followed by an eight-byte big-endian
    trailer [sequence << 8 | kind].  The comparator orders user keys
    ascending and, within one user key, trailers descending, so the newest
    version of a key sorts first.  The slicing in the code panics on a key
    shorter than the trailer; every key of the engine is made by
    [makeInternalKey], and [ikey_wf] is the condition the lemmas ask for. *)

From S2P Require Import Prelude Codec.

(** ** Go's bytes.Compare *)

Fixpoint bcmp (a b : bytes) : comparison :=
  match a, b with
  | [], [] => Eq
  | [], _ :: _ => Lt
  | _ :: _, [] => Gt
  | x :: a, y :: b =>
      match N.compare (bval x) (bval y) with
      | Eq => bcmp a b
      | c => c
      end
  end.

Lemma bcmp_refl a : bcmp a a = Eq.
Proof. induction a; simpl; [done|]. by rewrite N.compare_refl. Qed.

Lemma bcmp_eq a b : bcmp a b = Eq <-> a = b.
Proof.
  split; [|intros ->; apply bcmp_refl].
  revert b. induction a as [|x a IH]; intros [|y b]; simpl; try done.
  destruct (N.compare_spec (bval x) (bval y)) as [E| |]; try done.
  intros H. apply (inj bval) in E as ->. by rewrite (IH b H).
Qed.

Lemma bcmp_antisym a b : bcmp b a = CompOpp (bcmp a b).
Proof.
  revert b. induction a as [|x a IH]; intros [|y b]; simpl; try done.
  rewrite (N.compare_antisym (bval x) (bval y)).
  destruct (N.compare (bval x) (bval y)); simpl; auto.
Qed.

Lemma bcmp_lt_trans a b c : bcmp a b = Lt -> bcmp b c = Lt -> bcmp a c = Lt.
Proof.
  revert b c. induction a as [|x a IH]; intros [|y b] [|z c]; simpl; try done.
  destruct (N.compare_spec (bval x) (bval y)), (N.compare_spec (bval y) (bval z)),
    (N.compare_spec (bval x) (bval z)); try done; try lia. apply IH.
Qed.

(** ** Key kinds and internal keys *)

(** [keyKind] is a [uint8]: a byte read from disk need not be one of the
    two named kinds. *)
Abbreviation keyKind := byte.
Definition kindDelete : keyKind := x00.
Definition kindPut : keyKind := x01.

Definition trailerSize : nat := 8.

(** [seq<<8|uint64(kind)], a [uint64]. *)
Definition trailer (seq : N) (kind : keyKind) : N :=
  N.lor (u64 (N.shiftl seq 8)) (bval kind).

Definition makeInternalKey (user : bytes) (seq : N) (kind : keyKind) : bytes :=
  user ++ be_put trailerSize (trailer seq kind).

Definition userKey (ik : bytes) : bytes := take (length ik - trailerSize) ik.

Definition ik_trailer (ik : bytes) : N := be_get (drop (length ik - trailerSize) ik).

Definition splitInternalKey (ik : bytes) : bytes * N * keyKind :=
  let t := ik_trailer ik in
  (userKey ik, N.shiftr t 8, bof (N.land t 255)).

Definition compareInternalKey (a b : bytes) : comparison :=
  match bcmp (userKey a) (userKey b) with
  | Eq =>
      let ta := ik_trailer a in
      let tb := ik_trailer b in
      if (tb <? ta)%N then Lt else if (ta <? tb)%N then Gt else Eq
  | c => c
  end.

Definition ikey_wf (ik : bytes) : Prop := trailerSize <= length ik.

(** ** Sequence numbers

    Sequence numbers live in the upper 56 bits of the trailer. *)
Definition maxSeq : N := 72057594037927936.  (* 2^56 *)

Lemma trailer_eq seq kind :
  (seq < maxSeq)%N -> trailer seq kind = (seq * 256 + bval kind)%N.
Proof.
  intros Hs. unfold trailer.
  rewrite N.shiftl_mul_pow2. change (2 ^ 8)%N with 256%N.
  rewrite u64_small by (unfold maxSeq, w64 in *; lia).
  rewrite N.lor_comm. change 256%N with (2 ^ 8)%N at 1. rewrite <-N.shiftl_mul_pow2.
  rewrite lor_shiftl_add by apply bval_bound. change (2 ^ 8)%N with 256%N. lia.
Qed.

Lemma trailer_bound seq kind : (seq < maxSeq)%N -> (trailer seq kind < w64)%N.
Proof.
  intros Hs. rewrite trailer_eq by done. pose proof (bval_bound kind).
  unfold maxSeq, w64 in *. lia.
Qed.

Lemma userKey_make user seq kind : userKey (makeInternalKey user seq kind) = user.
Proof.
  unfold userKey, makeInternalKey. autorewrite with len.
  rewrite Nat.add_sub. by rewrite take_app_length.
Qed.

Lemma ik_trailer_make user seq kind :
  (seq < maxSeq)%N -> ik_trailer (makeInternalKey user seq kind) = trailer seq kind.
Proof.
  intros Hs. unfold ik_trailer, makeInternalKey. autorewrite with len.
  rewrite Nat.add_sub, drop_app_length, be_get_put.
  apply N.mod_small. exact (trailer_bound seq kind Hs).
Qed.

Lemma makeInternalKey_wf user seq kind : ikey_wf (makeInternalKey user seq kind).
Proof. unfold ikey_wf, makeInternalKey. autorewrite with len. lia. Qed.
#[export] Hint Resolve makeInternalKey_wf : keystone.

Lemma splitInternalKey_make user seq kind :
  (seq < maxSeq)%N ->
  splitInternalKey (makeInternalKey user seq kind) = (user, seq, kind).
Proof.
  intros Hs. unfold splitInternalKey.
  rewrite userKey_make, ik_trailer_make, trailer_eq by done.
  pose proof (bval_bound kind). f_equal; [f_equal|].
  - rewrite N.shiftr_div_pow2. change (2 ^ 8)%N with 256%N.
    rewrite N.div_add_l by lia. rewrite N.div_small; lia.
  - change 255%N with (N.ones 8). rewrite N.land_ones. change (2 ^ 8)%N with 256%N.
    rewrite N.add_comm, N.Div0.mod_add, N.mod_small by done. apply bof_bval.
Qed.

(** A well-formed key is its user key followed by its trailer. *)
Lemma ikey_split ik : ikey_wf ik -> ik = userKey ik ++ be_put trailerSize (ik_trailer ik).
Proof.
  intros Hwf. unfold ikey_wf in Hwf.
  rewrite <-(take_drop (length ik - trailerSize) ik) at 1.
  unfold userKey, ik_trailer. f_equal.
  set (t := drop (length ik - trailerSize) ik).
  assert (length (reverse t) = trailerSize) as Ht.
  { subst t. autorewrite with len. lia. }
  unfold be_put, be_get. rewrite <-Ht, le_put_get. by rewrite reverse_involutive.
Qed.

(** ** The comparator is a strict total order on well-formed keys *)

Lemma compareInternalKey_refl a : compareInternalKey a a = Eq.
Proof. unfold compareInternalKey. by rewrite bcmp_refl, N.ltb_irrefl. Qed.

Lemma compareInternalKey_eq a b :
  ikey_wf a -> ikey_wf b -> compareInternalKey a b = Eq <-> a = b.
Proof.
  intros Ha Hb. split; [|intros ->; apply compareInternalKey_refl].
  unfold compareInternalKey. destruct (bcmp (userKey a) (userKey b)) eqn:E; try done.
  apply bcmp_eq in E.
  destruct (N.ltb_spec (ik_trailer b) (ik_trailer a)), (N.ltb_spec (ik_trailer a) (ik_trailer b));
    try done. intros _.
  rewrite (ikey_split a Ha), (ikey_split b Hb), E. do 2 f_equal. lia.
Qed.

Lemma compareInternalKey_antisym a b :
  compareInternalKey b a = CompOpp (compareInternalKey a b).
Proof.
  unfold compareInternalKey. rewrite (bcmp_antisym (userKey a)).
  destruct (bcmp (userKey a) (userKey b)); simpl; try done.
  destruct (N.ltb_spec (ik_trailer b) (ik_trailer a)), (N.ltb_spec (ik_trailer a) (ik_trailer b));
    simpl; (done || lia).
Qed.

Lemma compareInternalKey_lt_trans a b c :
  compareInternalKey a b = Lt -> compareInternalKey b c = Lt -> compareInternalKey a c = Lt.
Proof.
  unfold compareInternalKey.
  destruct (bcmp (userKey a) (userKey b)) eqn:E1; try done;
    destruct (bcmp (userKey b) (userKey c)) eqn:E2; try done.
  - apply bcmp_eq in E1, E2. rewrite E1, E2, bcmp_refl.
    repeat case_match; bool_to_prop; try done; lia.
  - apply bcmp_eq in E1. by rewrite E1, E2.
  - apply bcmp_eq in E2. by rewrite <-E2, E1.
  - by rewrite (bcmp_lt_trans _ _ _ E1 E2).
Qed.

(** The order in terms of user key and sequence number: what readers of the
    engine rely on. *)
Lemma compareInternalKey_make u1 s1 k1 u2 s2 k2 :
  (s1 < maxSeq)%N -> (s2 < maxSeq)%N ->
  compareInternalKey (makeInternalKey u1 s1 k1) (makeInternalKey u2 s2 k2) =
    match bcmp u1 u2 with
    | Eq => match N.compare s2 s1 with
            | Eq => N.compare (bval k2) (bval k1)
            | c => c
            end
    | c => c
    end.
Proof.
  intros H1 H2. unfold compareInternalKey.
  rewrite !userKey_make, !ik_trailer_make, !trailer_eq by done.
  destruct (bcmp u1 u2); try done.
  pose proof (bval_bound k1). pose proof (bval_bound k2).
  destruct (N.compare_spec s2 s1), (N.compare_spec (bval k2) (bval k1));
    repeat case_match; bool_to_prop; try done; lia.
Qed.
