(* ===== verification/Batch.v ===== *)
(** * storage/batch.go: write batches and their WAL payload

    A batch is an ordered list of puts and deletes.  [encode] is the WAL
    record payload, [decodeBatch] its reader, and the round trip is the
    property recovery rests on. *)

From S2P Require Import Prelude Codec Key.

Record batchOp := BatchOp { op_kind : keyKind; op_key : bytes; op_value : bytes }.

#[global] Instance batchOp_eq_decision : EqDecision batchOp.
Proof. solve_decision. Defined.

Record Batch := mkBatch { b_ops : list batchOp; b_size : nat }.

Definition emptyBatch : Batch := mkBatch [] 0.

Definition Batch_Put (b : Batch) (key value : bytes) : Batch :=
  mkBatch (b_ops b ++ [BatchOp kindPut key value])
          (b_size b + (length key + length value)).

Definition Batch_Delete (b : Batch) (key : bytes) : Batch :=
  mkBatch (b_ops b ++ [BatchOp kindDelete key []]) (b_size b + length key).

Definition Batch_Len (b : Batch) : nat := length (b_ops b).

(** ** Encoding *)

Definition encode_op (op : batchOp) : bytes :=
  [op_kind op]
    ++ put_uvarint (u64 (N.of_nat (length (op_key op)))) ++ op_key op
    ++ put_uvarint (u64 (N.of_nat (length (op_value op)))) ++ op_value op.

Fixpoint encode_ops (ops : list batchOp) : bytes :=
  match ops with
  | [] => []
  | op :: ops => encode_op op ++ encode_ops ops
  end.

Definition encode (b : Batch) (seq : N) : bytes :=
  le_put 8 seq ++ le_put 4 (u32 (N.of_nat (length (b_ops b)))) ++ encode_ops (b_ops b).

(** ** Decoding *)

(** One length-prefixed field: [klen, n := binary.Uvarint(p)], the guard
    [n <= 0 || uint64(len(p)-n) < klen], and the two slices. *)
Definition decode_field (p : bytes) : go (bytes * bytes) :=
  let '(l, n) := uvarint p in
  if (n <=? 0)%Z || (N.of_nat (length p - Z.to_nat n) <? l)%N then Fail ErrBadBatch
  else
    let n := Z.to_nat n in
    let l := N.to_nat l in
    Ret (take l (drop n p), drop (n + l) p).

Fixpoint decode_ops (count : nat) (p : bytes) : go (list batchOp) :=
  match count with
  | O => Ret []
  | S count =>
      match p with
      | [] => Fail ErrBadBatch
      | kind :: p =>
          '(key, p) ← decode_field p;
          '(value, p) ← decode_field p;
          ops ← decode_ops count p;
          Ret (BatchOp kind key value :: ops)
      end
  end.

(** The decoded batch's [size] field is left zero by the code. *)
Definition decodeBatch (p : bytes) : go (N * Batch) :=
  if length p <? 12 then Fail ErrBadBatch
  else
    let seq := le_get (take 8 p) in
    let count := le_get (take 4 (drop 8 p)) in
    ops ← decode_ops (N.to_nat count) (drop 12 p);
    Ret (seq, mkBatch ops 0).

(** ** Round trip *)

Definition field_ok (b : bytes) : Prop := (N.of_nat (length b) < w64)%N.
Definition op_ok (op : batchOp) : Prop := field_ok (op_key op) /\ field_ok (op_value op).
Definition batch_ok (ops : list batchOp) : Prop :=
  Forall op_ok ops /\ (N.of_nat (length ops) < w32)%N.

Lemma decode_field_encode f rest :
  field_ok f ->
  decode_field (put_uvarint (u64 (N.of_nat (length f))) ++ f ++ rest) = Ret (f, rest).
Proof.
  intros Hf. unfold decode_field. rewrite u64_small by done.
  rewrite uvarint_put_uvarint by done.
  set (n := length (put_uvarint _)).
  assert (0 < n) as Hn by apply uvarint_put_nonempty, Nat.lt_0_succ.
  rewrite Nat2Z.id, Nat2N.id. autorewrite with len. fold n.
  destruct (Z.leb_spec (Z.of_nat n) 0); [lia|].
  destruct (N.ltb_spec (N.of_nat (n + (length f + length rest) - n)) (N.of_nat (length f))); [lia|].
  simpl. rewrite drop_app_length' by done.
  rewrite take_app_length, <-drop_drop, drop_app_length' by done.
  by rewrite drop_app_length.
Qed.

Lemma decode_ops_encode ops rest :
  Forall op_ok ops -> decode_ops (length ops) (encode_ops ops ++ rest) = Ret ops.
Proof.
  induction 1 as [|op ops [Hk Hv] _ IH]; [done|].
  cbn [length encode_ops decode_ops]. unfold encode_op.
  rewrite <-!app_assoc. cbn [app].
  rewrite decode_field_encode by done. cbn [mbind go_bind].
  rewrite decode_field_encode by done. cbn [mbind go_bind].
  rewrite IH. by destruct op.
Qed.

Lemma decodeBatch_encode ops size seq :
  batch_ok ops -> (seq < w64)%N ->
  decodeBatch (encode (mkBatch ops size) seq) = Ret (seq, mkBatch ops 0).
Proof.
  intros [Hok Hlen] Hseq. unfold decodeBatch, encode. simpl b_ops.
  destruct (Nat.ltb_spec (length (le_put 8 seq ++ le_put 4 (u32 (N.of_nat (length ops)))
    ++ encode_ops ops)) 12) as [H|_]; [autorewrite with len in H; lia|].
  rewrite take_app_length' by (by rewrite length_le_put).
  rewrite drop_app_length' by (by rewrite length_le_put).
  rewrite take_app_length' by (by rewrite length_le_put).
  rewrite (drop_app_ge _ _ 12) by (rewrite length_le_put; lia).
  rewrite length_le_put, drop_app_length' by (by rewrite length_le_put).
  rewrite !le_get_put, u32_small, !N.mod_small, Nat2N.id by done.
  rewrite <-(app_nil_r (encode_ops ops)), decode_ops_encode by done. done.
Qed.

(** The payload of a batch is never empty, so the WAL accepts it. *)
Lemma encode_nonempty b seq : 12 <= length (encode b seq).
Proof. unfold encode. autorewrite with len. lia. Qed.
