(* ===== verification/Bloom.v ===== *)
(** * storage/bloom.go: the bloom filter of an SSTable

    The filter is one byte holding the probe count and a bit array; probe
    [i] tests bit [(h1 + i*h2) mod nbits] with [h1], [h2] the halves of a
    MurmurHash64A of the user key.  What a table lookup relies on is that
    the filter never denies a key it was built over. *)

From S2P Require Import Prelude Codec.

Definition bloomBitsPerKey : nat := 10.
Definition bloomProbes : N := 7.

(** ** MurmurHash64A *)

Definition murmur_m : N := 14313749767032793493.  (* 0xc6a4a7935bd1e995 *)
Definition murmur_r : N := 47.

Definition murmur_mix (h k : N) : N :=
  let k := u64 (k * murmur_m) in
  let k := N.lxor k (N.shiftr k murmur_r) in
  let k := u64 (k * murmur_m) in
  u64 (N.lxor h k * murmur_m).

(** The loop over eight-byte words; it returns the hash and the tail.  Each
    round consumes eight bytes, so the length of the data is enough fuel. *)
Fixpoint murmur_words (fuel : nat) (data : bytes) (h : N) : N * bytes :=
  match fuel with
  | O => (h, data)
  | S fuel =>
      if 8 <=? length data then
        murmur_words fuel (drop 8 data) (murmur_mix h (le_get (take 8 data)))
      else (h, data)
  end.

Definition hash64 (data : bytes) (seed : N) : N :=
  let h := N.lxor seed (u64 (N.of_nat (length data) * murmur_m)) in
  let '(h, tail) := murmur_words (length data) data h in
  let h :=
    if 0 <? length tail then
      u64 (N.lxor h (le_get (tail ++ replicate (8 - length tail) x00)) * murmur_m)
    else h in
  let h := N.lxor h (N.shiftr h murmur_r) in
  let h := u64 (h * murmur_m) in
  N.lxor h (N.shiftr h murmur_r).

Definition bloomHashes (key : bytes) : N * N :=
  let h := hash64 key 11160318154034397263 in  (* 0x9ae16a3b2f90404f *)
  (u32 h, N.lor (u32 (N.shiftr h 32)) 1).

(** ** The filter *)

(** Bit position of probe [i]; all arithmetic is on [uint32]. *)
Definition probe_pos (h1 h2 nbits i : N) : N := (u32 (h1 + u32 (i * h2)) mod nbits)%N.

(** [bits[pos/8] |= 1 << (pos % 8)] *)
Definition set_bit (bits : bytes) (pos : N) : bytes :=
  alter (fun b => bof (N.lor (bval b) (N.shiftl 1 (pos mod 8)))) (N.to_nat (pos / 8)) bits.

(** [bits[pos/8]&(1<<(pos%8)) != 0]; an index out of range panics. *)
Definition test_bit (bits : bytes) (pos : N) : go bool :=
  match bits !! N.to_nat (pos / 8) with
  | Some b => Ret (negb (N.land (bval b) (N.shiftl 1 (pos mod 8)) =? 0)%N)
  | None => Panic
  end.

Definition probes (n : N) : list N := N.of_nat <$> seq 0 (N.to_nat n).

Definition add_key (nbits : N) (bits : bytes) (key : bytes) : bytes :=
  let '(h1, h2) := bloomHashes key in
  foldl (fun bits i => set_bit bits (probe_pos h1 h2 nbits i)) bits (probes bloomProbes).

Definition bloom_nbytes (nkeys : nat) : nat :=
  let nbits := nkeys * bloomBitsPerKey in
  let nbits := if nbits <? 64 then 64 else nbits in
  (nbits + 7) / 8.

(** A filter whose bit count is a multiple of 2^32 would divide by zero. *)
Definition buildBloom (keys : list bytes) : go bytes :=
  let nbytes := bloom_nbytes (length keys) in
  let nbits := u32 (N.of_nat (nbytes * 8)) in
  if (nbits =? 0)%N && (0 <? length keys) then Panic
  else Ret (bof bloomProbes :: foldl (add_key nbits) (replicate nbytes x00) keys).

Fixpoint all_bits (bits : bytes) (h1 h2 nbits : N) (ps : list N) : go bool :=
  match ps with
  | [] => Ret true
  | i :: ps =>
      b ← test_bit bits (probe_pos h1 h2 nbits i);
      if (b : bool) then all_bits bits h1 h2 nbits ps else Ret false
  end.

Definition mayContain (f : bytes) (key : bytes) : go bool :=
  match f with
  | [] | [_] => Ret true
  | p :: bits =>
      let nbits := u32 (N.of_nat (length bits * 8)) in
      let '(h1, h2) := bloomHashes key in
      if (nbits =? 0)%N && (0 <? bval p)%N then Panic
      else all_bits bits h1 h2 nbits (probes (bval p))
  end.

(** ** No false negatives *)

Lemma length_set_bit bits pos : length (set_bit bits pos) = length bits.
Proof. apply length_alter. Qed.

Lemma length_add_key n bits key : length (add_key n bits key) = length bits.
Proof.
  unfold add_key. destruct (bloomHashes key) as [h1 h2].
  generalize (probes bloomProbes). intros ps. revert bits.
  induction ps as [|i ps IH]; intros bits; simpl; [done|].
  by rewrite IH, length_set_bit.
Qed.

Lemma length_add_keys n keys bits : length (foldl (add_key n) bits keys) = length bits.
Proof.
  revert bits. induction keys as [|k ks IH]; intros; simpl; [done|].
  by rewrite IH, length_add_key.
Qed.

(** [bit_set bits pos] is what [test_bit] finds once the bit is set. *)
Definition bit_set (bits : bytes) (pos : N) : Prop := test_bit bits pos = Ret true.

Lemma land_pow2_testbit a n : (N.land a (N.shiftl 1 n) =? 0)%N = negb (N.testbit a n).
Proof.
  destruct (N.testbit a n) eqn:E; simpl.
  - apply N.eqb_neq. intros H. apply (f_equal (fun x => N.testbit x n)) in H.
    rewrite N.land_spec, E, N.shiftl_spec_high', N.sub_diag, N.bits_0 in H by lia. done.
  - apply N.eqb_eq, N.bits_inj_0. intros i. rewrite N.land_spec.
    destruct (N.eq_dec i n) as [->|Hne]; [by rewrite E|].
    replace (N.testbit (N.shiftl 1 n) i) with false; [apply andb_false_r|].
    rewrite N.shiftl_1_l. symmetry. by apply N.pow2_bits_false.
Qed.

Lemma bit_set_testbit bits pos :
  bit_set bits pos <->
  exists b, bits !! N.to_nat (pos / 8) = Some b /\ N.testbit (bval b) (pos mod 8) = true.
Proof.
  unfold bit_set, test_bit. destruct (bits !! N.to_nat (pos / 8)) as [b|].
  - rewrite land_pow2_testbit, negb_involutive. split.
    + intros [= H]. eauto.
    + intros (b' & [= <-] & ->). done.
  - split; [done|]. by intros (b & ? & _).
Qed.

Lemma testbit_or_byte b i j :
  (i < 8)%N -> (j < 8)%N ->
  N.testbit (bval (bof (N.lor (bval b) (N.shiftl 1 i)))) j = N.testbit (bval b) j || (j =? i)%N.
Proof.
  intros Hi Hj. rewrite bval_bof. change 256%N with (2 ^ 8)%N.
  rewrite N.mod_pow2_bits_low, N.lor_spec by done. f_equal.
  rewrite N.shiftl_1_l, N.eqb_sym. apply N.pow2_bits_eqb.
Qed.

Lemma set_bit_sets bits pos :
  N.to_nat (pos / 8) < length bits -> bit_set (set_bit bits pos) pos.
Proof.
  intros [b Hb]%lookup_lt_is_Some. apply bit_set_testbit. unfold set_bit.
  rewrite list_lookup_alter_eq, Hb. simpl. eexists; split; [done|].
  assert (pos mod 8 < 8)%N by (apply N.mod_lt; lia).
  rewrite testbit_or_byte, N.eqb_refl by done. apply orb_true_r.
Qed.

Lemma set_bit_keeps bits pos q : bit_set bits q -> bit_set (set_bit bits pos) q.
Proof.
  rewrite !bit_set_testbit. intros (b & Hb & Ht). unfold set_bit.
  destruct (decide (N.to_nat (pos / 8) = N.to_nat (q / 8))) as [E|Hne].
  - rewrite E, list_lookup_alter_eq, Hb. simpl. eexists; split; [done|].
    rewrite testbit_or_byte, Ht by (apply N.mod_lt; lia). done.
  - rewrite list_lookup_alter_ne by done. eauto.
Qed.

Lemma foldl_set_bit_keeps bits h1 h2 n ps q :
  bit_set bits q ->
  bit_set (foldl (fun bits i => set_bit bits (probe_pos h1 h2 n i)) bits ps) q.
Proof. revert bits. induction ps; simpl; intros; auto using set_bit_keeps. Qed.

Lemma add_key_keeps n bits key q : bit_set bits q -> bit_set (add_key n bits key) q.
Proof. unfold add_key. destruct (bloomHashes key). apply foldl_set_bit_keeps. Qed.

Lemma add_keys_keeps n keys bits q :
  bit_set bits q -> bit_set (foldl (add_key n) bits keys) q.
Proof. revert bits. induction keys; simpl; intros; auto using add_key_keeps. Qed.

Lemma probe_pos_range h1 h2 n i (bits : bytes) :
  (0 < n)%N -> (n <= N.of_nat (length bits * 8))%N ->
  N.to_nat (probe_pos h1 h2 n i / 8) < length bits.
Proof.
  intros Hn Hle. unfold probe_pos.
  assert (u32 (h1 + u32 (i * h2)) mod n < n)%N as H by (apply N.mod_lt; lia).
  assert (u32 (h1 + u32 (i * h2)) mod n / 8 < N.of_nat (length bits))%N.
  { apply N.Div0.div_lt_upper_bound. lia. }
  lia.
Qed.

Lemma foldl_set_bit_sets h1 h2 n ps i bits :
  (0 < n)%N -> (n <= N.of_nat (length bits * 8))%N -> i ∈ ps ->
  bit_set (foldl (fun bits i => set_bit bits (probe_pos h1 h2 n i)) bits ps)
    (probe_pos h1 h2 n i).
Proof.
  intros Hn. revert bits. induction ps as [|j ps IH]; intros bits Hle Hi; [inversion Hi|].
  simpl. apply elem_of_cons in Hi as [->|Hi].
  - apply foldl_set_bit_keeps, set_bit_sets, probe_pos_range; done.
  - apply IH; [|done]. by rewrite length_set_bit.
Qed.

Lemma all_bits_true bits h1 h2 n ps :
  (forall i, i ∈ ps -> bit_set bits (probe_pos h1 h2 n i)) ->
  all_bits bits h1 h2 n ps = Ret true.
Proof.
  induction ps as [|i ps IH]; intros H; simpl; [done|].
  rewrite (H i) by apply list_elem_of_here. simpl. apply IH.
  intros j Hj. apply H. by apply list_elem_of_further.
Qed.

Lemma bloom_nbytes_pos n : 8 <= bloom_nbytes n.
Proof.
  unfold bloom_nbytes. apply Nat.div_le_lower_bound; [lia|].
  destruct (Nat.ltb_spec (n * bloomBitsPerKey) 64); lia.
Qed.

Lemma add_keys_member n keys key bits i :
  (0 < n)%N -> (n <= N.of_nat (length bits * 8))%N -> key ∈ keys -> i ∈ probes bloomProbes ->
  bit_set (foldl (add_key n) bits keys)
    (probe_pos (bloomHashes key).1 (bloomHashes key).2 n i).
Proof.
  intros Hn Hle Hk Hi. revert bits Hle. induction keys as [|k ks IH]; intros bits Hle.
  { inversion Hk. }
  cbn [foldl]. apply elem_of_cons in Hk as [->|Hk].
  - apply add_keys_keeps. unfold add_key. destruct (bloomHashes k) as [h1 h2]. cbn [fst snd].
    by apply foldl_set_bit_sets.
  - apply IH; [done|]. by rewrite length_add_key.
Qed.

Lemma mayContain_member keys f key :
  buildBloom keys = Ret f -> key ∈ keys -> mayContain f key = Ret true.
Proof.
  unfold buildBloom. intros Hb Hk.
  set (nb := bloom_nbytes (length keys)) in *.
  destruct (_ && _) eqn:Hg in Hb; [done|]. injection Hb as <-.
  assert (0 < length keys) by (destruct keys; [inversion Hk|simpl; lia]).
  assert (u32 (N.of_nat (nb * 8)) <> 0%N) as Hn0.
  { intros E. rewrite E in Hg. destruct (Nat.ltb_spec 0 (length keys)); [done|lia]. }
  set (n := u32 (N.of_nat (nb * 8))) in *.
  assert (length (foldl (add_key n) (replicate nb x00) keys) = nb) as Hlen.
  { by rewrite length_add_keys, length_replicate. }
  pose proof (bloom_nbytes_pos (length keys)).
  unfold mayContain. destruct (foldl (add_key n) _ keys) as [|c bits] eqn:Ef.
  { exfalso. simpl in Hlen. lia. }
  rewrite Hlen. fold n. destruct (bloomHashes key) as [h1 h2] eqn:Eh.
  destruct (N.eqb_spec n 0); [done|]. cbn [andb].
  apply all_bits_true. intros i Hi. rewrite <-Ef.
  replace h1 with (bloomHashes key).1 by (by rewrite Eh).
  replace h2 with (bloomHashes key).2 by (by rewrite Eh).
  apply add_keys_member; [lia| |done|exact Hi].
  rewrite length_replicate. unfold n, u32. apply N.Div0.mod_le.
Qed.

(** A filter that was built can be asked about any key. *)
Lemma all_bits_total bits h1 h2 n ps :
  (0 < n)%N -> (n <= N.of_nat (length bits * 8))%N -> exists b, all_bits bits h1 h2 n ps = Ret b.
Proof.
  intros Hn Hl. induction ps as [|i ps IH]; simpl; [eauto|].
  destruct (lookup_lt_is_Some_2 bits (N.to_nat (probe_pos h1 h2 n i / 8))) as [c Hc]; [by apply probe_pos_range|].
  unfold test_bit. rewrite Hc. simpl. destruct (negb _); eauto.
Qed.

Lemma mayContain_total keys f key :
  buildBloom keys = Ret f -> exists b, mayContain f key = Ret b.
Proof.
  unfold buildBloom. intros Hb. set (nb := bloom_nbytes (length keys)) in *.
  destruct (_ && _) eqn:Hg in Hb; [done|]. injection Hb as <-.
  assert ((u32 (N.of_nat (nb * 8)) =? 0)%N = false) as Hg0.
  { destruct keys; [done|]. by rewrite (proj2 (Nat.ltb_lt _ _)), andb_true_r in Hg by (simpl; lia). }
  clear Hg. rename Hg0 into Hg.
  set (n := u32 (N.of_nat (nb * 8))) in *.
  assert (length (foldl (add_key n) (replicate nb x00) keys) = nb) as Hlen by (by rewrite length_add_keys, length_replicate).
  pose proof (bloom_nbytes_pos (length keys)). unfold mayContain.
  destruct (foldl (add_key n) _ keys) as [|c bits] eqn:Ef; [simpl in Hlen; lia|]. rewrite Hlen. fold n.
  destruct (bloomHashes key) as [h1 h2]. rewrite Hg. cbn [andb]. apply N.eqb_neq in Hg. apply all_bits_total; [lia|].
  rewrite Hlen. unfold n, u32. apply N.Div0.mod_le.
Qed.

Lemma buildBloom_total keys : (N.of_nat (length keys * bloomBitsPerKey + 72) < w32)%N -> exists f, buildBloom keys = Ret f.
Proof.
  intros Hlen. unfold buildBloom. rewrite u32_small.
  - pose proof (bloom_nbytes_pos (length keys)). destruct (N.eqb_spec (N.of_nat (bloom_nbytes (length keys) * 8)) 0); [lia|]. eauto.
  - unfold bloom_nbytes. set (m := length keys * bloomBitsPerKey) in *.
    destruct (Nat.ltb_spec m 64); [done|]. pose proof (Nat.Div0.mul_div_le (m + 7) 8). lia.
Qed.
