(* ===== verification/Wal.v ===== *)
(** * storage/wal.go: the write-ahead log

    The log is a directory of numbered segment files of checksummed,
    length-prefixed records.  A file carries, besides its contents, the
    length that has been fsynced: a process crash keeps the contents, a
    power loss keeps at least the synced prefix.  System calls that can fail
    take their outcome as an argument. *)

From S2P Require Import Prelude Codec.

(** ** Records *)

Definition recordHeader : nat := 8.

(** One record as [Append] lays it out. *)
Definition frame (p : bytes) : bytes :=
  le_put 4 (u32 (N.of_nat (length p))) ++ le_put 4 (crc32c p) ++ p.

#[global] Arguments frame : simpl never.

Fixpoint frames (ps : list bytes) : bytes :=
  match ps with
  | [] => []
  | p :: ps => frame p ++ frames ps
  end.

(** What one round of the loop in [replaySegment] finds at the read
    position: a clean end, something torn or damaged, or a record. *)
Inductive readResult :=
  | ReadEOF
  | ReadTorn
  | ReadRecord (payload rest : bytes).

Definition read_record (d : bytes) : readResult :=
  match d with
  | [] => ReadEOF
  | _ =>
      if length d <? recordHeader then ReadTorn
      else
        let len := N.to_nat (le_get (take 4 d)) in
        let crc := le_get (take 4 (drop 4 d)) in
        let body := drop recordHeader d in
        if len =? 0 then ReadTorn
        else if length body <? len then ReadTorn
        else if (crc32c (take len body) =? crc)%N then
          ReadRecord (take len body) (drop len body)
        else ReadTorn
  end.

Section Replay.
Context {S : Type} (replay : N -> bytes -> S -> go S).

(** The loop of [replaySegment]: the state, the offset reached and whether
    the end was torn.  Every record consumes at least its header, so the
    length of the data is enough fuel. *)
Fixpoint replay_loop (fuel : nat) (seg : N) (off : nat) (d : bytes) (st : S)
  : go (S * nat * bool) :=
  match fuel with
  | O => Ret (st, off, false)
  | Datatypes.S fuel =>
      match read_record d with
      | ReadEOF => Ret (st, off, false)
      | ReadTorn => Ret (st, off, true)
      | ReadRecord p rest =>
          st ← replay seg p st;
          replay_loop fuel seg (off + (recordHeader + length p)) rest st
      end
  end.
End Replay.

(** ** Files and the log *)

Record file := mkFile { f_data : bytes; f_synced : nat }.

Record WALOptions := mkWALOptions {
  SegmentSize : N;
  SyncInterval : bool;   (* Sync.Interval > 0 *)
}.

Record WAL := mkWAL {
  w_opts : WALOptions;
  w_dir : gmap N file;
  w_seg : N;
  w_open : bool;         (* the handle [file] is open *)
  w_size : N;
  w_dirty : bool;
  w_closed : bool;
  w_syncErr : option error;
  w_appendErr : option error;
}.

(** Outcomes of the system calls one operation may make. *)
Inductive openOutcome := OpenOk | OpenFail | OpenDirSyncFail.

Record osCalls := mkOs {
  os_sync : bool;            (* fsync of the segment *)
  os_close : bool;           (* close during a rotation *)
  os_open : openOutcome;     (* create the next segment, sync the directory *)
  os_write : option nat;     (* None: written; Some n: failed after n bytes *)
  os_sync_after : bool;      (* fsync after the write *)
}.

Definition os_good : osCalls := mkOs true true OpenOk None true.

Definition set_file (w : WAL) (f : file) : WAL :=
  mkWAL (w_opts w) (<[w_seg w := f]> (w_dir w)) (w_seg w) (w_open w) (w_size w)
    (w_dirty w) (w_closed w) (w_syncErr w) (w_appendErr w).

Definition cur_file (w : WAL) : file := default (mkFile [] 0) (w_dir w !! w_seg w).

(** [openSegment]: O_EXCL refuses an existing file; a failed directory sync
    leaves the file behind. *)
Definition openSegment (o : openOutcome) (seg : N) (w : WAL) : WAL * go unit :=
  match w_dir w !! seg, o with
  | Some _, _ => (w, Fail ErrIO)
  | None, OpenFail => (w, Fail ErrIO)
  | None, OpenDirSyncFail =>
      (mkWAL (w_opts w) (<[seg := mkFile [] 0]> (w_dir w)) (w_seg w) (w_open w) (w_size w)
         (w_dirty w) (w_closed w) (w_syncErr w) (w_appendErr w), Fail ErrIO)
  | None, OpenOk =>
      (mkWAL (w_opts w) (<[seg := mkFile [] 0]> (w_dir w)) seg true 0
         (w_dirty w) (w_closed w) (w_syncErr w) (w_appendErr w), Ret tt)
  end.

Definition syncLocked (ok : bool) (w : WAL) : WAL * go unit :=
  if negb (w_dirty w) then
    (w, match w_syncErr w with Some e => Fail e | None => Ret tt end)
  else if ok && w_open w then
    let f := cur_file w in
    let w := set_file w (mkFile (f_data f) (length (f_data f))) in
    (mkWAL (w_opts w) (w_dir w) (w_seg w) (w_open w) (w_size w) false (w_closed w)
       (w_syncErr w) (w_appendErr w), Ret tt)
  else
    (mkWAL (w_opts w) (w_dir w) (w_seg w) (w_open w) (w_size w) (w_dirty w) (w_closed w)
       (Some ErrIO) (w_appendErr w), Fail ErrIO).

Definition set_open (w : WAL) (b : bool) : WAL :=
  mkWAL (w_opts w) (w_dir w) (w_seg w) b (w_size w) (w_dirty w) (w_closed w)
    (w_syncErr w) (w_appendErr w).

Definition rotateLocked (os : osCalls) (w : WAL) : WAL * go unit :=
  match w_appendErr w with
  | Some e => (w, Fail e)
  | None =>
      match syncLocked (os_sync os) w with
      | (w, Ret _) =>
          (* Close fails on a handle that is already closed. *)
          if os_close os && w_open w then openSegment (os_open os) (w_seg w + 1) (set_open w false)
          else (set_open w false, Fail ErrIO)
      | r => r
      end
  end.

Definition Rotate (os : osCalls) (w : WAL) : WAL * go N :=
  match rotateLocked os w with
  | (w, Ret _) => (w, Ret (w_seg w))
  | (w, Fail e) => (w, Fail e)
  | (w, Panic) => (w, Panic)
  end.

Definition Sync (ok : bool) (w : WAL) : WAL * go unit := syncLocked ok w.

(** The part of [Append] after the rotation check. *)
Definition append_buf (os : osCalls) (buf : bytes) (w : WAL) : WAL * go N :=
  let f := cur_file w in
  let failed (n : nat) :=
    let w := set_file w (mkFile (f_data f ++ take n buf) (f_synced f)) in
    (mkWAL (w_opts w) (w_dir w) (w_seg w) (w_open w) (w_size w) (w_dirty w) (w_closed w)
       (w_syncErr w) (Some ErrIO), Fail ErrIO) in
  if w_open w then
    match os_write os with
    | Some n => failed (min n (length buf))
    | None =>
        let w := set_file w (mkFile (f_data f ++ buf) (f_synced f)) in
        let w := mkWAL (w_opts w) (w_dir w) (w_seg w) (w_open w) (w_size w + N.of_nat (length buf)) true
                   (w_closed w) (w_syncErr w) (w_appendErr w) in
        if SyncInterval (w_opts w) then (w, Ret (w_seg w))
        else
          match syncLocked (os_sync_after os) w with
          | (w, Ret _) => (w, Ret (w_seg w))
          | (w, Fail e) => (w, Fail e)
          | (w, Panic) => (w, Panic)
          end
    end
  else failed 0.

Definition Append (os : osCalls) (payloads : list bytes) (w : WAL) : WAL * go N :=
  if existsb (fun p => length p =? 0) payloads then (w, Fail ErrEmptyRecord)
  else
    let buf := frames payloads in
    if w_closed w then (w, Fail ErrClosed)
    else
      match w_appendErr w with
      | Some e => (w, Fail e)
      | None =>
          if (SegmentSize (w_opts w) <=? w_size w)%N then
            match rotateLocked os w with
            | (w, Ret _) => append_buf os buf w
            | (w, Fail e) => (w, Fail e)
            | (w, Panic) => (w, Panic)
            end
          else append_buf os buf w
      end.

(** ** Opening *)

Definition listSegments (dir : gmap N file) : list N :=
  merge_sort N.le (elements (dom dir)).

(** [truncateTorn] and [replaySegment]: only the newest segment may end in a
    torn record, which is cut off; the newest segment is synced. *)
Definition replaySegment {S} (replay : N -> bytes -> S -> go S) (seg : N) (last : bool)
    (f : file) (st : S) : go (file * S) :=
  '(st, off, torn) ← replay_loop replay (Datatypes.S (length (f_data f))) seg 0 (f_data f) st;
  if (torn : bool) then
    if last then Ret (mkFile (take off (f_data f)) off, st) else Fail ErrCorrupt
  else if last then Ret (mkFile (f_data f) (length (f_data f)), st)
  else Ret (f, st).

Fixpoint replay_segments {S} (replay : N -> bytes -> S -> go S) (segs : list N)
    (dir : gmap N file) (st : S) : go (gmap N file * S) :=
  match segs with
  | [] => Ret (dir, st)
  | seg :: rest =>
      match dir !! seg with
      | None => Fail ErrIO
      | Some f =>
          '(f, st) ← replaySegment replay seg (bool_decide (rest = [])) f st;
          replay_segments replay rest (<[seg := f]> dir) st
      end
  end.

Definition OpenWAL {S} (opts : WALOptions) (o : openOutcome)
    (replay : N -> bytes -> S -> go S) (dir : gmap N file) (st : S) : go (WAL * S) :=
  let opts := if (SegmentSize opts =? 0)%N then mkWALOptions 67108864 (SyncInterval opts)
              else opts in
  let segs := listSegments dir in
  '(dir, st) ← replay_segments replay segs dir st;
  let next := match list.last segs with Some s => (s + 1)%N | None => 1%N end in
  match openSegment o next (mkWAL opts dir 0 false 0 false false None None) with
  | (w, Ret _) => Ret (w, st)
  | (_, Fail e) => Fail e
  | (_, Panic) => Panic
  end.

Definition DeleteBefore (seg : N) (w : WAL) : WAL :=
  mkWAL (w_opts w) (filter (fun kv => (seg <= kv.1)%N) (w_dir w)) (w_seg w) (w_open w)
    (w_size w) (w_dirty w) (w_closed w) (w_syncErr w) (w_appendErr w).

Definition Close (ok okc : bool) (w : WAL) : WAL * go unit :=
  if w_closed w then (w, Ret tt)
  else
    let w := mkWAL (w_opts w) (w_dir w) (w_seg w) (w_open w) (w_size w) (w_dirty w) true
               (w_syncErr w) (w_appendErr w) in
    match syncLocked ok w with
    | (w, Ret _) => (set_open w false, if okc && w_open w then Ret tt else Fail ErrIO)
    | (w, r) => (set_open w false, r)
    end.

(** ** Reading back what was framed *)

Definition payload_ok (p : bytes) : Prop := 0 < length p /\ (N.of_nat (length p) < w32)%N.

Lemma length_frame p : length (frame p) = recordHeader + length p.
Proof. unfold frame. autorewrite with len. done. Qed.

Lemma frames_app ps qs : frames (ps ++ qs) = frames ps ++ frames qs.
Proof. induction ps as [|p ps IH]; simpl; [done|]. by rewrite IH, app_assoc. Qed.

Lemma read_record_frame p rest :
  payload_ok p -> read_record (frame p ++ rest) = ReadRecord p rest.
Proof.
  intros [Hp Hlt]. unfold read_record.
  destruct (frame p ++ rest) as [|c d] eqn:E.
  { apply (f_equal length) in E. rewrite length_app, length_frame in E. done. }
  rewrite <-E. clear E c d. unfold frame. rewrite <-!app_assoc.
  set (d := _ ++ _ ++ _).
  assert (length d = 8 + (length p + length rest)) as Hd.
  { subst d. autorewrite with len. lia. }
  destruct (Nat.ltb_spec (length d) recordHeader); [unfold recordHeader in *; lia|].
  assert (take 4 d = le_put 4 (u32 (N.of_nat (length p)))) as ->.
  { apply take_app_length'. by rewrite length_le_put. }
  assert (drop 4 d = le_put 4 (crc32c p) ++ p ++ rest) as ->.
  { apply drop_app_length'. by rewrite length_le_put. }
  rewrite take_app_length' by (by rewrite length_le_put).
  assert (drop recordHeader d = p ++ rest) as ->.
  { unfold d. rewrite app_assoc. apply drop_app_length'. by rewrite length_app, !length_le_put. }
  rewrite !le_get_put, u32_small, !N.mod_small, Nat2N.id by (done || apply crc32c_bound).
  destruct (Nat.eqb_spec (length p) 0); [lia|].
  rewrite length_app, take_app_length, drop_app_length.
  destruct (Nat.ltb_spec (length p + length rest) (length p)); [lia|].
  by rewrite N.eqb_refl.
Qed.

(** A whole record with another checksum is torn as well. *)
Lemma read_record_badcrc p c rest :
  0 < length p -> (N.of_nat (length p) < w32)%N -> (c < w32)%N -> c <> crc32c p ->
  read_record ((le_put 4 (u32 (N.of_nat (length p))) ++ le_put 4 c ++ p) ++ rest) = ReadTorn.
Proof.
  intros Hp Hlt Hc Hne. unfold read_record. set (d := _ ++ rest).
  assert (length d = 8 + (length p + length rest)) as Hd.
  { subst d. autorewrite with len. lia. }
  destruct d as [|b d'] eqn:E; [done|]. rewrite <-E in *. clear b d' E.
  destruct (Nat.ltb_spec (length d) recordHeader); [unfold recordHeader in *; lia|].
  assert (take 4 d = le_put 4 (u32 (N.of_nat (length p)))) as ->.
  { unfold d. rewrite <-!app_assoc. apply take_app_length'. by rewrite length_le_put. }
  assert (drop 4 d = le_put 4 c ++ p ++ rest) as ->.
  { unfold d. rewrite <-!app_assoc. apply drop_app_length'. by rewrite length_le_put. }
  rewrite take_app_length' by (by rewrite length_le_put).
  assert (drop recordHeader d = p ++ rest) as ->.
  { unfold d. rewrite (app_assoc (le_put 4 _)), <-app_assoc. apply drop_app_length'.
    by rewrite length_app, !length_le_put. }
  rewrite !le_get_put, u32_small, !N.mod_small, Nat2N.id by done.
  destruct (Nat.eqb_spec (length p) 0); [lia|].
  rewrite length_app, take_app_length, drop_app_length.
  destruct (Nat.ltb_spec (length p + length rest) (length p)); [lia|].
  destruct (N.eqb_spec (crc32c p) c); congruence.
Qed.

(** A strict prefix of a record is recognised as torn. *)
Lemma read_record_cut p n :
  payload_ok p -> 0 < n < length (frame p) -> read_record (take n (frame p)) = ReadTorn.
Proof.
  intros [Hp Hlt] Hn. rewrite length_frame in Hn. unfold read_record.
  destruct (take n (frame p)) as [|c d] eqn:E.
  { apply (f_equal length) in E. rewrite length_take, length_frame in E. simpl in E. lia. }
  rewrite <-E. clear E c d. rewrite length_take, length_frame.
  rewrite Nat.min_l by lia.
  destruct (Nat.ltb_spec n recordHeader) as [|Hge]; [done|].
  rewrite take_take, Nat.min_l by (unfold recordHeader in *; lia).
  assert (N.to_nat (le_get (take 4 (frame p))) = length p) as ->.
  { unfold frame. rewrite take_app_length' by (by rewrite length_le_put).
    by rewrite le_get_put, u32_small, N.mod_small, Nat2N.id by done. }
  destruct (Nat.eqb_spec (length p) 0); [lia|].
  rewrite length_drop, length_take, length_frame, Nat.min_l by lia.
  destruct (Nat.ltb_spec (n - recordHeader) (length p)); [done|lia].
Qed.

(** Where the reader stops: at a clean end or at a torn record. *)
Definition end_of (tail : bytes) : option bool :=
  match read_record tail with
  | ReadEOF => Some false
  | ReadTorn => Some true
  | ReadRecord _ _ => None
  end.

Section ReplayLemmas.
Context {S : Type} (replay : N -> bytes -> S -> go S).

Lemma replay_loop_frames fuel seg off ps tail torn st :
  Forall payload_ok ps -> end_of tail = Some torn -> length ps < fuel ->
  replay_loop replay fuel seg off (frames ps ++ tail) st =
    (st' ← go_foldl (replay seg) ps st; Ret (st', off + length (frames ps), torn)).
Proof.
  intros Hok Hend. revert fuel off st.
  induction Hok as [|p ps Hp _ IH]; intros fuel off st Hf;
    (destruct fuel as [|fuel]; [simpl in Hf; lia|]).
  - simpl. rewrite Nat.add_0_r. unfold end_of in Hend.
    by destruct (read_record tail); simplify_eq.
  - cbn [frames go_foldl replay_loop]. rewrite <-app_assoc, read_record_frame by done.
    rewrite go_bind_assoc. destruct (replay seg p st) as [st'| |]; [|done..].
    cbn [mbind go_bind]. rewrite IH by (simpl in Hf; lia).
    rewrite length_app, length_frame. by rewrite <-!Nat.add_assoc.
Qed.

Lemma length_frames_ge ps : length ps <= length (frames ps).
Proof. induction ps; cbn [frames length]; [lia|]. rewrite length_app, length_frame. unfold recordHeader. lia. Qed.

(** One segment holding whole records and a tail that ends the reading. *)
Lemma replaySegment_frames seg last ps tail torn sy st :
  Forall payload_ok ps -> end_of tail = Some torn ->
  replaySegment replay seg last (mkFile (frames ps ++ tail) sy) st =
    (st' ← go_foldl (replay seg) ps st;
     if torn then if last then Ret (mkFile (frames ps) (length (frames ps)), st') else Fail ErrCorrupt
     else Ret (if last then mkFile (frames ps ++ tail) (length (frames ps ++ tail))
               else mkFile (frames ps ++ tail) sy, st')).
Proof.
  intros Hok Hend. unfold replaySegment. simpl f_data.
  rewrite (replay_loop_frames _ seg 0 ps tail torn st); [|done..|].
  2:{ rewrite length_app. pose proof (length_frames_ge ps). lia. }
  rewrite go_bind_assoc. destruct (go_foldl _ ps st); [|done..]. simpl.
  rewrite take_app_length. by destruct torn, last.
Qed.
End ReplayLemmas.

(** ** Cuts

    A tail is what a partial write or a power loss can leave after the last
    whole record: a strict prefix of some record. *)
Definition tail_ok (tail : bytes) : Prop :=
  exists p n, payload_ok p /\ n < length (frame p) /\ tail = take n (frame p).

Lemma tail_ok_nil : tail_ok [].
Proof.
  exists [x00], 0. split_and!; [|rewrite length_frame; unfold recordHeader; lia|done].
  split; simpl; unfold w32; lia.
Qed.

Lemma tail_ok_end tail : tail_ok tail -> end_of tail = Some (bool_decide (tail <> [])).
Proof.
  intros (p & n & Hp & Hn & ->). unfold end_of. destruct n as [|n]; [done|].
  rewrite read_record_cut by (done || lia). rewrite bool_decide_true; [done|].
  intros E. apply (f_equal length) in E. rewrite length_take in E. simpl in E. lia.
Qed.

Lemma tail_ok_take tail n : tail_ok tail -> tail_ok (take n tail).
Proof.
  intros (p & m & Hp & Hm & ->). exists p, (n `min` m). rewrite take_take.
  split_and!; [done|lia|done].
Qed.

(** Any cut of a run of records is whole records and such a tail, and no
    record that fits below the cut is lost. *)
Lemma frames_cut ps n :
  Forall payload_ok ps -> n <= length (frames ps) ->
  exists k tail, take n (frames ps) = frames (take k ps) ++ tail /\ tail_ok tail /\
    (forall j, j <= length ps -> length (frames (take j ps)) <= n -> j <= k).
Proof.
  intros Hok. revert n. induction Hok as [|p ps Hp Hps IH]; intros n Hn.
  - exists 0, []. simpl in *. replace n with 0 by lia. auto using tail_ok_nil.
  - cbn [frames] in Hn. rewrite length_app in Hn.
    destruct (decide (n < length (frame p))) as [Hlt|Hge].
    + exists 0, (take n (frame p)). cbn [frames take app].
      rewrite take_app_le by lia. split_and!; [done|by exists p, n|].
      intros [|j] Hj Hl; [lia|]. cbn [take frames] in Hl. rewrite length_app in Hl. lia.
    + destruct (IH (n - length (frame p))) as (k & tail & E & Ht & Hmax); [lia|].
      exists (S k), tail. cbn [frames take length]. rewrite <-app_assoc, <-E.
      rewrite take_app_ge by lia. split_and!; [done|done|].
      intros [|j] Hj Hlj; [lia|]. cbn [take frames length] in Hlj, Hj. rewrite length_app in Hlj.
      specialize (Hmax j). lia.
Qed.

(** The same for a run already followed by a tail. *)
Lemma frames_tail_cut ps tail n :
  Forall payload_ok ps -> tail_ok tail -> n <= length (frames ps ++ tail) ->
  exists k tail', take n (frames ps ++ tail) = frames (take k ps) ++ tail' /\ tail_ok tail' /\
    (forall j, j <= length ps -> length (frames (take j ps)) <= n -> j <= k).
Proof.
  intros Hok Ht Hn. rewrite length_app in Hn.
  destruct (decide (n <= length (frames ps))) as [Hle|Hgt].
  - destruct (frames_cut ps n Hok Hle) as (k & tail' & E & ? & ?).
    exists k, tail'. rewrite take_app_le by done. auto.
  - exists (length ps), (take (n - length (frames ps)) tail).
    rewrite take_app_ge, (take_ge ps) by lia. split_and!; auto using tail_ok_take.
Qed.

(** ** Durability

    Under [SyncAlways] the log promises that a record whose [Append]
    returned survives a power loss.  The log runs as a transition system
    over its operations, crashes included, with the list of acknowledged
    records as history. *)

Inductive walOp :=
  | OpAppend (os : osCalls) (payloads : list bytes)
  | OpSync (ok : bool)
  | OpRotate (os : osCalls)
  | OpDeleteBefore (seg : N)
  | OpClose (ok okc : bool).

(** Payloads fit the 32-bit length, and only segments below the current one
    are deleted. *)
Definition op_valid (w : WAL) (op : walOp) : Prop :=
  match op with
  | OpAppend _ ps => Forall (fun p => (N.of_nat (length p) < w32)%N) ps
  | OpDeleteBefore seg => (seg <= w_seg w)%N
  | _ => True
  end.

Definition wal_step (op : walOp) (w : WAL) (acked : list (N * bytes)) : WAL * list (N * bytes) :=
  match op with
  | OpAppend os ps =>
      match Append os ps w with
      | (w, Ret seg) => (w, acked ++ (pair seg <$> ps))
      | (w, _) => (w, acked)
      end
  | OpSync ok => ((Sync ok w).1, acked)
  | OpRotate os => ((Rotate os w).1, acked)
  | OpDeleteBefore seg => (DeleteBefore seg w, acked)
  | OpClose ok okc => ((Close ok okc w).1, acked)
  end.

(** A power loss keeps every file and at least its synced prefix. *)
Definition crash_file (f f' : file) : Prop :=
  exists n, f_synced f <= n <= length (f_data f) /\ f' = mkFile (take n (f_data f)) n.

Definition crash (dir dir' : gmap N file) : Prop :=
  forall s, option_Forall2 crash_file (dir !! s) (dir' !! s).

(** The recovery callback that collects what is replayed. *)
Definition collect (seg : N) (p : bytes) (acc : list (N * bytes)) : go (list (N * bytes)) :=
  Ret (acc ++ [(seg, p)]).

Inductive wal_reach (opts : WALOptions) : WAL -> list (N * bytes) -> Prop :=
  | reach_init w l :
      OpenWAL opts OpenOk collect ∅ [] = Ret (w, l) -> wal_reach opts w []
  | reach_op w acked op :
      wal_reach opts w acked -> op_valid w op ->
      wal_reach opts (wal_step op w acked).1 (wal_step op w acked).2
  | reach_crash w acked dir w' l :
      wal_reach opts w acked -> crash (w_dir w) dir ->
      OpenWAL opts OpenOk collect dir [] = Ret (w', l) ->
      wal_reach opts w' acked.

Definition of_seg (s : N) (l : list (N * bytes)) : list bytes :=
  snd <$> filter (fun kv => kv.1 = s) l.

Lemma of_seg_app s l1 l2 : of_seg s (l1 ++ l2) = of_seg s l1 ++ of_seg s l2.
Proof. unfold of_seg. by rewrite filter_app, fmap_app. Qed.

Lemma of_seg_same s ps : of_seg s (pair s <$> ps) = ps.
Proof.
  unfold of_seg. induction ps as [|p ps IH]; simpl; [done|].
  rewrite filter_cons_True by done. simpl. by f_equal.
Qed.

Lemma of_seg_other s t ps : s <> t -> of_seg s (pair t <$> ps) = [].
Proof.
  intros Hne. unfold of_seg. induction ps as [|p ps IH]; simpl; [done|].
  by rewrite filter_cons_False by (simpl; congruence).
Qed.

(** ** The invariant *)

(** A finished segment: whole records, all synced. *)
Definition seg_ok (f : file) (acked : list bytes) : Prop :=
  exists ps, f_data f = frames ps /\ Forall payload_ok ps /\
    f_synced f = length (f_data f) /\ acked `sublist_of` ps.

(** The segment being written: a torn tail only after a failed write, and
    the acknowledged records within the synced prefix. *)
Definition cur_ok (w : WAL) (f : file) (acked : list bytes) : Prop :=
  exists ps tail k, f_data f = frames ps ++ tail /\ Forall payload_ok ps /\ tail_ok tail /\
    (w_appendErr w = None -> tail = []) /\ f_synced f <= length (f_data f) /\
    k <= length ps /\ length (frames (take k ps)) <= f_synced f /\ acked `sublist_of` take k ps /\
    (w_dirty w = false -> w_appendErr w = None -> f_synced f = length (f_data f)).

Record wal_inv (w : WAL) (acked : list (N * bytes)) : Prop := {
  inv_sync : SyncInterval (w_opts w) = false;
  inv_cur : exists f, w_dir w !! w_seg w = Some f /\ cur_ok w f (of_seg (w_seg w) acked);
  inv_old : forall s f, w_dir w !! s = Some f -> (s < w_seg w)%N -> seg_ok f (of_seg s acked);
  (* a segment created by a rotation whose directory sync failed *)
  inv_next : forall s f, w_dir w !! s = Some f -> (w_seg w < s)%N ->
    s = (w_seg w + 1)%N /\ f = mkFile [] 0 /\ w_open w = false /\ w_dirty w = false /\
    exists g, w_dir w !! w_seg w = Some g /\ seg_ok g (of_seg (w_seg w) acked);
  inv_acked : forall s p, (s, p) ∈ acked -> (s <= w_seg w)%N;
}.

Lemma cur_ok_ext w w' f acked :
  w_appendErr w' = w_appendErr w -> w_dirty w' = w_dirty w ->
  cur_ok w f acked -> cur_ok w' f acked.
Proof. unfold cur_ok. intros -> ->. done. Qed.

(** Fields the invariant does not mention may change freely. *)
Lemma wal_inv_ext w w' acked :
  w_opts w' = w_opts w -> w_dir w' = w_dir w -> w_seg w' = w_seg w ->
  (w_open w' = true -> w_open w = true) -> w_dirty w' = w_dirty w ->
  w_appendErr w' = w_appendErr w ->
  wal_inv w acked -> wal_inv w' acked.
Proof.
  intros Ho Hd Hs Hopen Hdi Ha [H1 (f & Hf & Hc) H3 H4 H5].
  constructor; rewrite ?Ho, ?Hd, ?Hs; auto.
  - eauto using cur_ok_ext.
  - intros s g Hg Hlt. destruct (H4 s g Hg Hlt) as (-> & ? & Hop & Hdirty & ?).
    rewrite Hdi. split_and!; auto.
    destruct (w_open w'); [|done]. rewrite Hopen in Hop; done.
Qed.

Lemma of_seg_nil s l : (forall t p, (t, p) ∈ l -> t <> s) -> of_seg s l = [].
Proof.
  intros H. unfold of_seg. induction l as [|[t p] l IH]; [done|].
  rewrite filter_cons_False by (simpl; apply (H t p), list_elem_of_here).
  apply IH. intros t' p' Hin. apply (H t' p'). by apply list_elem_of_further.
Qed.

Lemma syncLocked_inv ok w acked :
  wal_inv w acked -> wal_inv (syncLocked ok w).1 acked.
Proof.
  intros Hinv. unfold syncLocked. destruct (w_dirty w) eqn:Ed; simpl; [|done].
  destruct (ok && w_open w) eqn:Eok; simpl; [|by eapply wal_inv_ext; [..|exact Hinv]].
  apply andb_true_iff in Eok as [_ Eo].
  destruct Hinv as [H1 (f & Hf & Hc) H3 H4 H5].
  assert (cur_file w = f) as Hcf by (unfold cur_file; by rewrite Hf).
  constructor; simpl; rewrite ?Hcf; auto.
  - rewrite lookup_insert_eq. eexists; split; [done|].
    destruct Hc as (ps & tail & k & Hd & Hok & Ht & Htn & Hsl & Hk & Hkl & Hsub & _).
    exists ps, tail, (length ps). simpl. split_and!; try done.
    + rewrite take_ge by done. rewrite Hd, length_app. lia.
    + rewrite take_ge by done. etrans; [exact Hsub|]. apply sublist_take.
  - intros s g Hg Hlt. rewrite lookup_insert_ne in Hg by lia. eauto.
  - intros s g Hg Hlt. rewrite lookup_insert_ne in Hg by lia.
    destruct (H4 s g Hg Hlt) as (_ & _ & Hop & _). congruence.
Qed.

Lemma syncLocked_same ok w w' r :
  syncLocked ok w = (w', r) ->
  w_opts w' = w_opts w /\ w_seg w' = w_seg w /\ w_open w' = w_open w /\
  w_appendErr w' = w_appendErr w /\ w_closed w' = w_closed w /\
  (r = Ret tt -> w_dirty w' = false).
Proof.
  unfold syncLocked. destruct (w_dirty w) eqn:Ed; simpl.
  - destruct (ok && w_open w); intros [= <- <-]; simpl; split_and!; done.
  - intros [= <- <-]. split_and!; done.
Qed.

(** After a successful sync the current segment is a finished one. *)
Lemma cur_ok_synced w f acked :
  cur_ok w f acked -> w_dirty w = false -> w_appendErr w = None -> seg_ok f acked.
Proof.
  intros (ps & tail & k & Hd & Hok & Ht & Htn & Hsl & Hk & Hkl & Hsub & Hsy) Hdi Ha.
  exists ps. rewrite Hsy by done. rewrite (Htn Ha), app_nil_r in Hd.
  split_and!; try done. etrans; [exact Hsub|apply sublist_take].
Qed.

Lemma openSegment_inv o w acked w' r :
  wal_inv w acked -> w_dirty w = false -> w_appendErr w = None -> w_open w = false ->
  openSegment o (w_seg w + 1) w = (w', r) ->
  wal_inv w' acked /\
  (r = Ret tt -> w_appendErr w' = None /\ w_open w' = true /\ w_dirty w' = false).
Proof.
  intros Hinv Hdi Ha Ho. pose proof Hinv as [H1 (f & Hf & Hc) H3 H4 H5].
  unfold openSegment. destruct (w_dir w !! (w_seg w + 1)%N) eqn:En.
  { intros [= <- <-]. done. }
  assert (seg_ok f (of_seg (w_seg w) acked)) as Hseg by eauto using cur_ok_synced.
  assert (of_seg (w_seg w + 1) acked = []) as Hnil.
  { apply of_seg_nil. intros t p Ht. apply H5 in Ht. lia. }
  destruct o; intros [= <- <-]; (split; [|done]).
  - constructor; simpl; auto.
    + exists (mkFile [] 0). rewrite lookup_insert_eq, Hnil. split; [done|].
      exists [], [], 0. simpl. split_and!; auto using tail_ok_nil.
    + intros s g Hg Hlt. destruct (decide (s = w_seg w)) as [->|].
      * rewrite lookup_insert_ne in Hg by lia. by simplify_eq.
      * rewrite lookup_insert_ne in Hg by lia. apply H3; [done|lia].
    + intros s g Hg Hlt. rewrite lookup_insert_ne in Hg by lia.
      destruct (H4 s g Hg) as [-> _]; lia.
    + intros s p Hp. apply H5 in Hp. lia.
  - done.
  - constructor; simpl; auto.
    + exists f. rewrite lookup_insert_ne by lia. eauto.
    + intros s g Hg Hlt. rewrite lookup_insert_ne in Hg by lia. eauto.
    + intros s g Hg Hlt. destruct (decide (s = w_seg w + 1)%N) as [->|].
      * rewrite lookup_insert_eq in Hg. simplify_eq. split_and!; auto.
        exists f. rewrite lookup_insert_ne by lia. auto.
      * rewrite lookup_insert_ne in Hg by done. destruct (H4 s g Hg) as [-> _]; lia.
Qed.

Lemma rotateLocked_inv os w acked w' r :
  wal_inv w acked -> rotateLocked os w = (w', r) ->
  wal_inv w' acked /\
  (r = Ret tt -> w_appendErr w' = None /\ w_open w' = true).
Proof.
  intros Hinv. unfold rotateLocked. destruct (w_appendErr w) eqn:Ea.
  { intros [= <- <-]. done. }
  destruct (syncLocked (os_sync os) w) as [w1 r1] eqn:Es.
  pose proof (syncLocked_inv (os_sync os) w acked Hinv) as Hinv1. rewrite Es in Hinv1. simpl in Hinv1.
  apply syncLocked_same in Es as (_ & _ & _ & Ha1 & _ & Hd1).
  destruct r1 as [[]|e|]; [|by intros [= <- <-]..].
  assert (wal_inv (set_open w1 false) acked) as Hinv2.
  { eapply wal_inv_ext; [..|exact Hinv1]; done. }
  destruct (os_close os && w_open w1).
  - intros H. change (w_seg w1) with (w_seg (set_open w1 false)) in H.
    destruct (openSegment_inv _ _ acked _ _ Hinv2 (Hd1 eq_refl)
      (eq_trans Ha1 Ea) eq_refl H) as [? Hr]. split; [done|]. intros E. by destruct (Hr E) as (? & ? & _).
  - intros [= <- <-]. done.
Qed.

Lemma acked_of_seg_app s seg acked (ps : list bytes) :
  of_seg s (acked ++ (pair seg <$> ps)) = of_seg s acked ++ (if decide (s = seg) then ps else []).
Proof.
  rewrite of_seg_app. f_equal. case_decide; [subst; apply of_seg_same|by apply of_seg_other].
Qed.

(** A log with no failed write: its current segment is whole records, of
    which the acknowledged ones are synced. *)
Lemma wal_inv_current w acked :
  wal_inv w acked -> w_appendErr w = None ->
  exists f qs k, w_dir w !! w_seg w = Some f /\ cur_file w = f /\ f_data f = frames qs /\
    Forall payload_ok qs /\ f_synced f <= length (f_data f) /\ k <= length qs /\
    length (frames (take k qs)) <= f_synced f /\ of_seg (w_seg w) acked `sublist_of` take k qs.
Proof.
  intros [_ (f & Hf & Hc) _ _ _] Ha.
  destruct Hc as (qs & tail & k & Hd & Hok & Ht & Htn & Hsl & Hk & Hkl & Hsub & Hsy).
  rewrite (Htn Ha), app_nil_r in Hd. exists f, qs, k.
  unfold cur_file. rewrite Hf. split_and!; done.
Qed.

(** A write that fails after [n] bytes leaves whole records and a torn tail,
    and marks the log. *)
Lemma append_failed_inv w acked ps n :
  wal_inv w acked -> w_appendErr w = None -> Forall payload_ok ps ->
  n <= length (frames ps) -> (w_open w = false -> n = 0) ->
  wal_inv (mkWAL (w_opts w)
    (<[w_seg w := mkFile (f_data (cur_file w) ++ take n (frames ps)) (f_synced (cur_file w))]> (w_dir w))
    (w_seg w) (w_open w) (w_size w) (w_dirty w) (w_closed w) (w_syncErr w) (Some ErrIO)) acked.
Proof.
  intros Hinv Ha Hps Hn Hop.
  destruct (wal_inv_current w acked Hinv Ha) as (f & qs & k & Hf & -> & Hd & Hok & Hsl & Hk & Hkl & Hsub).
  destruct Hinv as [H1 _ H3 H4 H5].
  destruct (frames_cut ps n Hps Hn) as (j & tail & Ecut & Htail & _).
  constructor; simpl; auto.
  - rewrite lookup_insert_eq. eexists; split; [done|].
    exists (qs ++ take j ps), tail, k. simpl.
    rewrite Ecut, frames_app, Hd, app_assoc, !length_app.
    rewrite (take_app_le qs) by done. rewrite Hd in Hsl.
    split_and!; auto; try lia; try done.
    apply Forall_app. auto using Forall_take.
  - intros s g Hg Hlt. rewrite lookup_insert_ne in Hg by lia. eauto.
  - intros s g Hg Hlt. rewrite lookup_insert_ne in Hg by lia.
    destruct (H4 s g Hg Hlt) as (-> & -> & Hop' & Hdi & g' & Hg' & Hseg).
    split_and!; auto. rewrite Hop, take_0, app_nil_r by done.
    rewrite lookup_insert_eq. eexists; split; [done|].
    rewrite Hf in Hg'. injection Hg' as <-. by destruct f.
Qed.

(** A write that succeeds extends the current segment; [synced] is the length
    on disk and [acked'] the new history it covers. *)
Lemma append_written_inv w acked acked' ps synced dirty :
  wal_inv w acked -> w_appendErr w = None -> w_open w = true -> Forall payload_ok ps ->
  (forall s, (s < w_seg w)%N -> of_seg s acked' = of_seg s acked) ->
  (forall s p, (s, p) ∈ acked' -> (s <= w_seg w)%N) ->
  (dirty = false /\ synced = length (f_data (cur_file w) ++ frames ps) /\
     (acked' = acked \/ acked' = acked ++ (pair (w_seg w) <$> ps)) \/
   dirty = true /\ synced = f_synced (cur_file w) /\ acked' = acked) ->
  wal_inv (mkWAL (w_opts w)
    (<[w_seg w := mkFile (f_data (cur_file w) ++ frames ps) synced]> (w_dir w))
    (w_seg w) true (w_size w + N.of_nat (length (frames ps))) dirty (w_closed w)
    (w_syncErr w) (w_appendErr w)) acked'.
Proof.
  intros Hinv Ha Ho Hps Hold Hle Hcase.
  destruct (wal_inv_current w acked Hinv Ha) as (f & qs & k & Hf & Hcf & Hd & Hok & Hsl & Hk & Hkl & Hsub).
  rewrite Hcf in *. destruct Hinv as [H1 _ H3 H4 H5].
  constructor; simpl; auto.
  - rewrite lookup_insert_eq. eexists; split; [done|].
    destruct Hcase as [Hcase|Hcase].
    + destruct Hcase as (-> & -> & Hack). exists (qs ++ ps), [], (length (qs ++ ps)). simpl.
      rewrite app_nil_r, Hd, take_ge, frames_app by done.
      split_and!; auto using tail_ok_nil; [by apply Forall_app|].
      assert (of_seg (w_seg w) acked `sublist_of` qs) as Hq.
      { etrans; [exact Hsub|apply sublist_take]. }
      destruct Hack as [-> | ->]; [by apply sublist_inserts_r|].
      rewrite acked_of_seg_app, decide_True by done. by apply sublist_app.
    + destruct Hcase as (-> & -> & ->). exists (qs ++ ps), [], k. simpl.
      rewrite frames_app, app_nil_r, Hd, take_app_le, !length_app by done.
      rewrite Hd in Hsl. split_and!; auto using tail_ok_nil; try lia. by apply Forall_app.
  - intros s g Hg Hlt. rewrite lookup_insert_ne in Hg by lia. rewrite Hold by done. eauto.
  - intros s g Hg Hlt. rewrite lookup_insert_ne in Hg by lia.
    destruct (H4 s g Hg Hlt) as (_ & _ & Hop & _). congruence.
Qed.

Lemma cur_file_insert o s f dir op sz di cl se ae :
  cur_file (mkWAL o (<[s := f]> dir) s op sz di cl se ae) = f.
Proof. unfold cur_file. simpl. by rewrite lookup_insert_eq. Qed.

Lemma append_buf_inv os ps w acked w' r :
  wal_inv w acked -> Forall payload_ok ps -> w_appendErr w = None ->
  append_buf os (frames ps) w = (w', r) ->
  wal_inv w' acked /\ (forall seg, r = Ret seg -> wal_inv w' (acked ++ (pair seg <$> ps))).
Proof.
  intros Hinv Hps Ha. pose proof (inv_sync _ _ Hinv) as Hsync. pose proof (inv_acked _ _ Hinv) as H5.
  unfold append_buf. simpl. destruct (w_open w) eqn:Eo; simpl.
  2:{ intros [= <- <-]. split; [|done]. rewrite <-Eo.
      apply append_failed_inv; auto; lia. }
  destruct (os_write os) as [n|]; simpl.
  { intros [= <- <-]. split; [|done]. rewrite <-Eo.
    apply append_failed_inv; auto; [lia|congruence]. }
  rewrite Hsync. unfold syncLocked. simpl. rewrite andb_true_r.
  rewrite cur_file_insert. simpl.
  destruct (os_sync_after os); intros [= <- <-]; simpl.
  - rewrite insert_insert_eq. split; [|intros seg [= <-]];
      (eapply append_written_inv; [exact Hinv|try done..|]); auto.
    + intros s Hs. rewrite acked_of_seg_app, decide_False by lia. apply app_nil_r.
    + intros s p [Hin|Hin]%elem_of_app; [eauto|].
      apply list_elem_of_fmap in Hin as (q & [= -> ->] & _). lia.
  - split; [|done]. eapply (wal_inv_ext (mkWAL _ _ _ _ _ _ _ _ _)); [..|
      eapply (append_written_inv w acked acked ps _ true); eauto]; done.
Qed.

Lemma Append_inv os ps w acked w' r :
  wal_inv w acked -> Forall (fun p => (N.of_nat (length p) < w32)%N) ps ->
  Append os ps w = (w', r) ->
  wal_inv w' acked /\ (forall seg, r = Ret seg -> wal_inv w' (acked ++ (pair seg <$> ps))).
Proof.
  intros Hinv Hlen. unfold Append.
  destruct (existsb _ ps) eqn:Ee; [by intros [= <- <-]|].
  assert (Forall payload_ok ps) as Hps.
  { apply Forall_forall. intros p Hp. split; [|by eapply Forall_forall in Hlen].
    destruct (decide (length p = 0)) as [E|]; [|lia].
    assert (existsb (fun p => length p =? 0) ps = true); [|congruence].
    apply existsb_exists. exists p. split; [by apply list_elem_of_In|by apply Nat.eqb_eq]. }
  destruct (w_closed w); [by intros [= <- <-]|].
  destruct (w_appendErr w) eqn:Ea; [by intros [= <- <-]|].
  destruct (_ <=? _)%N; [|intros H; by eapply append_buf_inv in H].
  destruct (rotateLocked os w) as [w1 r1] eqn:Er.
  destruct (rotateLocked_inv _ _ _ _ _ Hinv Er) as [Hinv1 Hr1].
  destruct r1 as [[]|e|]; [|by intros [= <- <-]..].
  destruct (Hr1 eq_refl) as [Ha1 _]. intros H. by eapply append_buf_inv in H.
Qed.

Lemma DeleteBefore_inv seg w acked :
  wal_inv w acked -> (seg <= w_seg w)%N -> wal_inv (DeleteBefore seg w) acked.
Proof.
  intros [H1 (f & Hf & Hc) H3 H4 H5] Hle. constructor; simpl; auto.
  - exists f. split; [by apply map_lookup_filter_Some|done].
  - intros s g [Hg _]%map_lookup_filter_Some Hlt. eauto.
  - intros s g [Hg _]%map_lookup_filter_Some Hlt.
    destruct (H4 s g Hg Hlt) as (-> & -> & ? & ? & g' & Hg' & ?). split_and!; auto.
    exists g'. split; [by apply map_lookup_filter_Some|done].
Qed.

Lemma wal_step_inv op w acked :
  wal_inv w acked -> op_valid w op -> wal_inv (wal_step op w acked).1 (wal_step op w acked).2.
Proof.
  intros Hinv Hv. destruct op as [os ps|ok|os|seg|ok okc]; simpl in *.
  - destruct (Append os ps w) as [w' r] eqn:E.
    destruct (Append_inv _ _ _ _ _ _ Hinv Hv E) as [? Hr]. destruct r; simpl; auto.
  - by apply syncLocked_inv.
  - unfold Rotate. destruct (rotateLocked os w) as [w' r] eqn:E.
    destruct (rotateLocked_inv _ _ _ _ _ Hinv E) as [? _]. by destruct r.
  - by apply DeleteBefore_inv.
  - unfold Close. destruct (w_closed w); [done|].
    set (w1 := mkWAL _ _ _ _ _ _ _ _ _).
    assert (wal_inv w1 acked) as Hinv1 by (eapply wal_inv_ext; [..|exact Hinv]; done).
    pose proof (syncLocked_inv ok w1 acked Hinv1) as Hinv2.
    destruct (syncLocked ok w1) as [w2 r]. simpl in Hinv2.
    destruct r; simpl; (eapply wal_inv_ext; [..|exact Hinv2]; done).
Qed.

(** ** Listing and replaying a directory *)

Lemma elem_of_listSegments dir s : s ∈ listSegments dir <-> is_Some (dir !! s).
Proof.
  unfold listSegments. rewrite merge_sort_Permutation, elem_of_elements. apply elem_of_dom.
Qed.

Lemma NoDup_listSegments dir : NoDup (listSegments dir).
Proof. unfold listSegments. rewrite merge_sort_Permutation. apply NoDup_elements. Qed.

Lemma listSegments_last dir m s :
  list.last (listSegments dir) = Some m -> is_Some (dir !! s) -> (s <= m)%N.
Proof.
  intros Hl Hs%elem_of_listSegments.
  assert (StronglySorted N.le (listSegments dir)) as Hsort by (apply StronglySorted_merge_sort; apply _).
  apply last_Some in Hl as [l Hl]. rewrite Hl in *.
  apply elem_of_app in Hs as [Hs|Hs%list_elem_of_singleton]; [|lia].
  apply StronglySorted_app in Hsort as (Hall & _ & _).
  apply Hall; [done|]. apply list_elem_of_singleton. done.
Qed.

(** Segments of whole records, only the newest of which may end in a tail. *)
Definition dir_ok (dir : gmap N file) (R : N -> list bytes) (T : N -> bytes) : Prop :=
  forall s f, dir !! s = Some f ->
    f_data f = frames (R s) ++ T s /\ Forall payload_ok (R s) /\ tail_ok (T s) /\
    (list.last (listSegments dir) <> Some s -> T s = []).

Section ReplayDir.
Context {S : Type} (replay : N -> bytes -> S -> go S).
Context (R : N -> list bytes) (T : N -> bytes).

Definition replay_dir (segs : list N) (st : S) : go S :=
  go_foldl (fun s st => go_foldl (replay s) (R s) st) segs st.

Lemma replay_segments_ok segs dir st :
  NoDup segs ->
  (forall s, s ∈ segs -> exists f, dir !! s = Some f /\ f_data f = frames (R s) ++ T s /\
     Forall payload_ok (R s) /\ tail_ok (T s) /\ (list.last segs <> Some s -> T s = [])) ->
  replay_segments replay segs dir st =
    (st' ← replay_dir segs st;
     Ret (match list.last segs with
          | Some m => <[m := mkFile (frames (R m)) (length (frames (R m)))]> dir
          | None => dir
          end, st')).
Proof.
  revert dir st. induction segs as [|s segs IH]; intros dir st Hnd Hf; [done|].
  destruct (Hf s) as (f & Hs & Hd & Hok & Ht & Hl); [apply list_elem_of_here|].
  apply NoDup_cons in Hnd as [Hnin Hnd].
  cbn [replay_segments]. rewrite Hs. destruct f as [d sy]. simpl in Hd. subst d.
  rewrite (replaySegment_frames replay s _ (R s) (T s) _ sy st Hok (tail_ok_end _ Ht)).
  unfold replay_dir. cbn [go_foldl]. rewrite !go_bind_assoc.
  destruct (go_foldl (replay s) (R s) st) as [st1| |]; [|done..]. cbn [mbind go_bind].
  destruct segs as [|s2 segs'].
  - rewrite (bool_decide_true ([] = [])) by done. cbn [list.last go_foldl].
    destruct (decide (T s = [])) as [->|Hne].
    + rewrite bool_decide_false by (intros H; by apply H). by rewrite app_nil_r.
    + by rewrite bool_decide_true.
  - rewrite Hl, app_nil_r by (rewrite last_cons_cons; intros E; apply last_Some_elem_of in E; done).
    rewrite !bool_decide_false by (done || (intros H; by apply H)).
    cbn [mbind go_bind]. rewrite Hl, app_nil_r in Hs
      by (rewrite last_cons_cons; intros E; apply last_Some_elem_of in E; done).
    rewrite insert_id by done. rewrite IH; [done|done|].
    intros t Ht'. destruct (Hf t) as (f & ? & ? & ? & ? & Hlt); [by apply list_elem_of_further|].
    exists f. split_and!; auto.
Qed.
End ReplayDir.

(** ** Recovery after a power loss *)

(** The records a reader finds in a segment's contents. *)
Definition seg_records (d : bytes) : list bytes :=
  match replay_loop (fun _ p acc => Ret (acc ++ [p])) (S (length d)) 0 0 d [] with
  | Ret (l, _, _) => l
  | _ => []
  end.

Lemma go_foldl_collect {A} (ps acc : list A) :
  go_foldl (fun p acc => Ret (acc ++ [p])) ps acc = Ret (acc ++ ps).
Proof.
  revert acc. induction ps as [|p ps IH]; intros acc; simpl; [by rewrite app_nil_r|].
  by rewrite IH, <-app_assoc.
Qed.

Lemma seg_records_frames ps tail :
  Forall payload_ok ps -> tail_ok tail -> seg_records (frames ps ++ tail) = ps.
Proof.
  intros Hok Ht. unfold seg_records.
  rewrite (replay_loop_frames _ _ 0 0 ps tail _ [] Hok (tail_ok_end _ Ht)).
  - rewrite (go_foldl_collect ps []). done.
  - rewrite length_app. pose proof (length_frames_ge ps). lia.
Qed.

(** What a power loss can leave of one segment. *)
Lemma crash_segment w acked dir s f f' :
  wal_inv w acked -> crash (w_dir w) dir ->
  w_dir w !! s = Some f -> dir !! s = Some f' ->
  exists ps tail, f_data f' = frames ps ++ tail /\ Forall payload_ok ps /\ tail_ok tail /\
    f_synced f' = length (f_data f') /\
    of_seg s acked `sublist_of` ps /\ ps `prefix_of` seg_records (f_data f) /\
    (s <> w_seg w -> tail = []) /\ (is_Some (w_dir w !! (w_seg w + 1)%N) -> tail = []).
Proof.
  intros Hinv Hcr Hf Hf'. pose proof (Hcr s) as Hc. rewrite Hf, Hf' in Hc.
  inversion Hc as [? ? (n & [Hn1 Hn2] & ->)|]; subst; clear Hc. simpl.
  assert (length (take n (f_data f)) = n) as Hlen by (rewrite length_take; lia).
  destruct Hinv as [_ (g & Hg & Hcur) Hold Hnext Hack].
  assert (seg_ok f (of_seg s acked) -> exists ps tail, take n (f_data f) = frames ps ++ tail /\
    Forall payload_ok ps /\ tail_ok tail /\ n = length (take n (f_data f)) /\
    of_seg s acked `sublist_of` ps /\ ps `prefix_of` seg_records (f_data f) /\
    (s <> w_seg w -> tail = []) /\ (is_Some (w_dir w !! (w_seg w + 1)%N) -> tail = [])) as Hdone.
  { intros (ps & Hd & Hok & Hsy & Hsub). exists ps, [].
    rewrite take_ge, app_nil_r by lia. split_and!; auto using tail_ok_nil; [lia|].
    rewrite Hd, <-(app_nil_r (frames ps)), seg_records_frames by auto using tail_ok_nil. done. }
  destruct (N.lt_trichotomy s (w_seg w)) as [Hlt|[-> | Hgt]].
  - apply Hdone. eauto.
  - rewrite Hf in Hg. injection Hg as <-.
    destruct (w_dir w !! (w_seg w + 1)%N) as [h|] eqn:En.
    { apply Hdone. destruct (Hnext _ _ En) as (_ & _ & _ & _ & g' & Hg' & Hs'); [lia|].
      rewrite Hf in Hg'. by injection Hg' as <-. }
    destruct Hcur as (ps & tail & k & Hd & Hok & Ht & _ & Hsl & Hk & Hkl & Hsub & _).
    rewrite Hd in Hn2 |- *.
    destruct (frames_tail_cut ps tail n Hok Ht Hn2) as (j & tail' & Ecut & Ht' & Hmax).
    exists (take j ps), tail'. rewrite <-Hd, Hlen, Hd, Ecut, seg_records_frames by done.
    split_and!; auto using Forall_take; try (by intros [? ?]); try done.
    + assert (k <= j) by (apply Hmax; lia).
      replace (take k ps) with (take k (take j ps)) in Hsub by (rewrite take_take; f_equal; lia).
      etrans; [exact Hsub|apply sublist_take].
    + exists (drop j ps). by rewrite take_drop.
  - destruct (Hnext s f Hf Hgt) as (-> & -> & _). simpl in *.
    assert (n = 0) as -> by lia. exists [], []. simpl. split_and!; auto using tail_ok_nil, prefix_nil.
    rewrite of_seg_nil; [done|]. intros t p Htp. apply Hack in Htp. lia.
Qed.

(** The view of a crashed directory that recovery needs. *)
Definition dir_records (dir : gmap N file) (s : N) : list bytes :=
  match dir !! s with Some f => seg_records (f_data f) | None => [] end.
Definition dir_tail (dir : gmap N file) (s : N) : bytes :=
  match dir !! s with
  | Some f => drop (length (frames (seg_records (f_data f)))) (f_data f)
  | None => []
  end.

Lemma crash_lookup dir dir' s : crash dir dir' -> is_Some (dir !! s) <-> is_Some (dir' !! s).
Proof. intros H. specialize (H s). inversion H; split; intros [? ?]; eauto; done. Qed.

Lemma crash_dir_ok w acked dir :
  wal_inv w acked -> crash (w_dir w) dir ->
  dir_ok dir (dir_records dir) (dir_tail dir) /\
  (forall s f, w_dir w !! s = Some f -> of_seg s acked `sublist_of` dir_records dir s /\
     dir_records dir s `prefix_of` seg_records (f_data f)) /\
  (forall s f, dir !! s = Some f -> f_synced f = length (f_data f)) /\
  (forall m s, list.last (listSegments dir) = Some m -> of_seg s acked <> [] -> (s <= m)%N).
Proof.
  intros Hinv Hcr.
  assert (forall s f', dir !! s = Some f' -> exists f, w_dir w !! s = Some f) as Hback.
  { intros s f' H. apply (crash_lookup _ _ s Hcr); eauto. }
  assert (forall s, list.last (listSegments dir) = Some s -> (w_seg w <= s)%N) as Hlast.
  { intros s Hs. eapply listSegments_last; [done|]. apply (crash_lookup _ _ _ Hcr).
    destruct Hinv as [_ (g & -> & _) _ _ _]. eauto. }
  split_and!.
  - intros s f' Hf'. destruct (Hback s f' Hf') as [f Hf].
    destruct (crash_segment w acked dir s f f' Hinv Hcr Hf Hf')
      as (ps & tail & Hd & Hok & Ht & Hsy & Hsub & Hpre & Hne & Hnx).
    unfold dir_records, dir_tail. rewrite Hf', Hd, seg_records_frames, drop_app_length by done.
    split_and!; auto. intros Hl. destruct (decide (s = w_seg w)) as [->|]; [|auto].
    apply Hnx. apply (crash_lookup _ _ _ Hcr).
    destruct (list.last (listSegments dir)) as [m|] eqn:El.
    + assert (is_Some (dir !! m)) as [g Hg] by (by apply elem_of_listSegments, last_Some_elem_of).
      destruct (Hback m g Hg) as [g0 Hg0]. pose proof (Hlast m eq_refl).
      destruct (inv_next _ _ Hinv m g0 Hg0) as [<- _]; [|by eauto].
      assert (m <> w_seg w) by congruence. lia.
    + apply last_None in El. exfalso. apply (not_elem_of_nil (w_seg w)). rewrite <-El.
      apply elem_of_listSegments. eauto.
  - intros s f Hf. destruct (proj1 (crash_lookup _ _ s Hcr)) as [f' Hf']; [by eauto|].
    destruct (crash_segment w acked dir s f f' Hinv Hcr Hf Hf')
      as (ps & tail & Hd & Hok & Ht & Hsy & Hsub & Hpre & _).
    unfold dir_records. rewrite Hf', Hd, seg_records_frames by done. done.
  - intros s f' Hf'. destruct (Hback s f' Hf') as [f Hf].
    destruct (crash_segment w acked dir s f f' Hinv Hcr Hf Hf') as (? & ? & _ & _ & _ & Hsy & _).
    done.
  - intros m s Hm Hne. etrans; [|apply Hlast, Hm].
    destruct (decide (s <= w_seg w)%N); [done|]. exfalso. apply Hne, of_seg_nil.
    intros t p Htp. apply (inv_acked _ _ Hinv) in Htp. lia.
Qed.

Lemma go_foldl_collect_seg s ps acc :
  go_foldl (collect s) ps acc = Ret (acc ++ (pair s <$> ps)).
Proof.
  revert acc. induction ps as [|p ps IH]; intros acc; simpl; [by rewrite app_nil_r|].
  by rewrite IH, <-app_assoc.
Qed.

Lemma replay_dir_collect R segs acc :
  replay_dir collect R segs acc = Ret (acc ++ (segs ≫= fun s => pair s <$> R s)).
Proof.
  unfold replay_dir. revert acc. induction segs as [|s segs IH]; intros acc; [by rewrite app_nil_r|].
  cbn [go_foldl]. rewrite go_foldl_collect_seg. cbn [mbind go_bind]. rewrite IH. by rewrite <-app_assoc.
Qed.

Lemma of_seg_collected (R : N -> list bytes) segs s :
  NoDup segs -> of_seg s (segs ≫= fun s => pair s <$> R s) = if decide (s ∈ segs) then R s else [].
Proof.
  induction segs as [|t segs IH]; intros Hnd; [done|].
  apply NoDup_cons in Hnd as [Hnin Hnd]. cbn [mbind list_bind]. rewrite of_seg_app, IH by done.
  destruct (decide (s = t)) as [->|Hne].
  - rewrite of_seg_same, decide_False, decide_True by (done || apply list_elem_of_here).
    apply app_nil_r.
  - rewrite of_seg_other by done. destruct (decide (s ∈ segs)).
    + by rewrite decide_True by (by apply list_elem_of_further).
    + rewrite decide_False; [done|]. intros H. apply elem_of_cons in H as [-> | ?]; done.
Qed.

Definition eff_opts (opts : WALOptions) : WALOptions :=
  if (SegmentSize opts =? 0)%N then mkWALOptions 67108864 (SyncInterval opts) else opts.

(** Recovery on a directory of finished segments and one cut segment. *)
Lemma OpenWAL_ok {S} opts (replay : N -> bytes -> S -> go S) dir R T st st' :
  dir_ok dir R T -> replay_dir replay R (listSegments dir) st = Ret st' ->
  OpenWAL opts OpenOk replay dir st =
    let last := list.last (listSegments dir) in
    let dir' := match last with
                | Some m => <[m := mkFile (frames (R m)) (length (frames (R m)))]> dir
                | None => dir
                end in
    let next := match last with Some m => (m + 1)%N | None => 1%N end in
    Ret (mkWAL (eff_opts opts) (<[next := mkFile [] 0]> dir') next true 0 false false None None, st').
Proof.
  intros Hok Hr. unfold OpenWAL. fold (eff_opts opts).
  rewrite (replay_segments_ok replay R T) by
    (apply NoDup_listSegments ||
     (intros s [f Hf]%elem_of_listSegments; exists f; split; [done|by apply Hok])).
  rewrite Hr. cbn [mbind go_bind]. unfold openSegment. cbn [w_dir].
  set (dir' := match list.last (listSegments dir) with Some _ => _ | None => dir end).
  set (next := match list.last (listSegments dir) with Some _ => _ | None => 1%N end).
  assert (dir' !! next = None) as ->; [|done].
  destruct (dir' !! next) as [f|] eqn:E; [exfalso|done]. subst dir' next.
  destruct (list.last (listSegments dir)) as [m|] eqn:El.
  - rewrite lookup_insert_ne in E by lia.
    pose proof (listSegments_last dir m (m + 1) El (mk_is_Some _ _ E)). lia.
  - apply last_None in El. apply (not_elem_of_nil 1%N). rewrite <-El.
    apply elem_of_listSegments. eauto.
Qed.

Lemma seg_ok_records ps sy acked :
  Forall payload_ok ps -> sy = length (frames ps) -> acked `sublist_of` ps ->
  seg_ok (mkFile (frames ps) sy) acked.
Proof. intros H -> H3. by exists ps. Qed.

(** Recovery brings the log back into its invariant. *)
Lemma OpenWAL_inv {S} (replay : N -> bytes -> S -> go S) opts dir R T acked st st' w :
  SyncInterval opts = false ->
  dir_ok dir R T ->
  (forall s f, dir !! s = Some f -> of_seg s acked `sublist_of` R s /\ f_synced f = length (f_data f)) ->
  (forall s p, (s, p) ∈ acked -> exists m, list.last (listSegments dir) = Some m /\ (s <= m)%N) ->
  replay_dir replay R (listSegments dir) st = Ret st' ->
  OpenWAL opts OpenOk replay dir st = Ret (w, st') ->
  wal_inv w acked.
Proof.
  intros Hsync Hok Hsub Hack Hr. rewrite (OpenWAL_ok _ _ _ R T _ _ Hok Hr). intros [= <-].
  assert (forall s p, (s, p) ∈ acked ->
    (s < match list.last (listSegments dir) with Some m => m + 1 | None => 1 end)%N) as Hack'.
  { intros s p (m & -> & ?)%Hack. lia. }
  constructor; cbn [w_opts w_dir w_seg w_open w_dirty].
  - unfold eff_opts. by destruct (SegmentSize opts =? 0)%N.
  - rewrite lookup_insert_eq. eexists. split; [done|].
    rewrite of_seg_nil by (intros t p Htp; apply Hack' in Htp; lia).
    exists [], [], 0. simpl. split_and!; auto using tail_ok_nil.
  - intros s f Hf Hlt. rewrite lookup_insert_ne in Hf by lia.
    destruct (list.last (listSegments dir)) as [m|] eqn:El.
    + destruct (decide (s = m)) as [->|Hne].
      * rewrite lookup_insert_eq in Hf. injection Hf as <-.
        assert (is_Some (dir !! m)) as [g Hg] by (by apply elem_of_listSegments, last_Some_elem_of).
        apply seg_ok_records; [apply (Hok _ _ Hg)|done|apply (Hsub _ _ Hg)].
      * rewrite lookup_insert_ne in Hf by done. destruct (Hok _ _ Hf) as (Hd & Hp & _ & Ht).
        destruct (Hsub _ _ Hf) as [Hs Hsy]. destruct f as [d sy]. simpl in *.
        rewrite Ht, app_nil_r in Hd by congruence. subst. by apply seg_ok_records.
    + apply last_None in El. exfalso. apply (not_elem_of_nil s). rewrite <-El.
      apply elem_of_listSegments. eauto.
  - intros s f Hf Hlt. rewrite lookup_insert_ne in Hf by lia. exfalso.
    destruct (list.last (listSegments dir)) as [m|] eqn:El.
    + rewrite lookup_insert_ne in Hf by lia.
      pose proof (listSegments_last dir m s El (mk_is_Some _ _ Hf)). lia.
    + apply last_None in El. apply (not_elem_of_nil s). rewrite <-El.
      apply elem_of_listSegments. eauto.
  - intros s p Hin. apply Hack' in Hin. lia.
Qed.

Lemma dir_ok_empty R T : dir_ok ∅ R T.
Proof. intros s f H. by rewrite lookup_empty in H. Qed.

(** What recovery needs of [acked] after a crash. *)
Lemma crash_reopen w acked dir opts :
  wal_inv w acked -> crash (w_dir w) dir -> SyncInterval opts = false ->
  exists w' l, OpenWAL opts OpenOk collect dir [] = Ret (w', l) /\ wal_inv w' acked /\
    (forall s f, w_dir w !! s = Some f -> of_seg s acked `sublist_of` of_seg s l /\
       of_seg s l `prefix_of` seg_records (f_data f)).
Proof.
  intros Hinv Hcr Hs. destruct (crash_dir_ok w acked dir Hinv Hcr) as (Hok & Hrec & Hsy & Hlast).
  pose proof (replay_dir_collect (dir_records dir) (listSegments dir) []) as Hr.
  pose proof (OpenWAL_ok opts collect dir _ _ _ _ Hok Hr) as Ho. cbv zeta in Ho.
  eexists _, _. split; [exact Ho|]. split.
  - eapply OpenWAL_inv; [done|exact Hok|..|exact Hr|exact Ho].
    + intros s f Hf. destruct (proj2 (crash_lookup _ _ s Hcr)) as [f0 Hf0]; [by eauto|].
      split; [apply (Hrec _ _ Hf0)|by eapply Hsy].
    + intros s p Hin. destruct (list.last (listSegments dir)) as [m|] eqn:El.
      * exists m. split; [done|]. apply (Hlast m s eq_refl). intros En.
        assert (p ∈ of_seg s acked) as Hp; [|rewrite En in Hp; by apply not_elem_of_nil in Hp].
        unfold of_seg. apply list_elem_of_fmap. exists (s, p). split; [done|].
        by apply list_elem_of_filter.
      * apply last_None in El. exfalso. destruct (inv_cur _ _ Hinv) as (g & Hg & _).
        apply (not_elem_of_nil (w_seg w)). rewrite <-El. apply elem_of_listSegments.
        apply (crash_lookup _ _ _ Hcr). eauto.
  - intros s f Hf. rewrite app_nil_l, of_seg_collected by apply NoDup_listSegments.
    rewrite decide_True by (apply elem_of_listSegments, (crash_lookup _ _ _ Hcr); eauto).
    by apply Hrec.
Qed.

Lemma wal_reach_inv opts w acked :
  SyncInterval opts = false -> wal_reach opts w acked -> wal_inv w acked.
Proof.
  intros Hs. induction 1 as [w l Ho|w acked op _ IH Hv|w acked dir w' l _ IH Hcr Ho].
  - rewrite (OpenWAL_ok opts collect ∅ (fun _ => []) (fun _ => []) [] [] (dir_ok_empty _ _) eq_refl) in Ho.
    injection Ho as <- <-.
    eapply (OpenWAL_inv collect opts ∅ (fun _ => []) (fun _ => []) [] [] [] _ Hs (dir_ok_empty _ _)).
    + intros s f H. by rewrite lookup_empty in H.
    + intros s p Hin. by apply not_elem_of_nil in Hin.
    + done.
    + by rewrite (OpenWAL_ok opts collect ∅ (fun _ => []) (fun _ => []) [] [] (dir_ok_empty _ _) eq_refl).
  - by apply wal_step_inv.
  - destruct (crash_reopen _ _ _ opts IH Hcr Hs) as (w2 & l2 & Ho2 & Hinv2 & _).
    rewrite Ho in Ho2. by injection Ho2 as -> _.
Qed.

(** ** What the log promises *)


Definition ex_opts : WALOptions := mkWALOptions 4 false.
Definition ex_wal0 : WAL :=
  mkWAL ex_opts {[ 1%N := mkFile [] 0 ]} 1 true 0 false false None None.
(** Two appends, the second of which fails after five bytes. *)
Definition ex_ops : list walOp :=
  [OpAppend os_good [[x01]; [x02]]; OpAppend (mkOs true true OpenOk (Some 5) true) [[x03]]].
Definition ex_run : WAL * list (N * bytes) :=
  foldl (fun wa op => wal_step op wa.1 wa.2) (ex_wal0, []) ex_ops.

Lemma crash_refl dir :
  (forall s f, dir !! s = Some f -> f_synced f <= length (f_data f)) ->
  crash dir ((fun f => mkFile (f_data f) (length (f_data f))) <$> dir).
Proof.
  intros H s. rewrite lookup_fmap. destruct (dir !! s) as [f|] eqn:E; simpl; constructor.
  exists (length (f_data f)). split; [split; [by eapply H|lia]|]. by rewrite firstn_all.
Qed.


(** A record whose checksum does not match ends recovery of a segment.
    In the newest segment it is cut off together with every intact record
    behind it and no error is reported; in an older segment it is
    [ErrCorrupt]. *)
Theorem wal_damage_in_newest seg ps1 p c ps2 sy :
  Forall payload_ok ps1 -> payload_ok p -> (c < w32)%N -> c <> crc32c p ->
  let data := frames ps1 ++ (le_put 4 (u32 (N.of_nat (length p))) ++ le_put 4 c ++ p) ++ frames ps2 in
  replaySegment collect seg true (mkFile data sy) [] =
    Ret (mkFile (frames ps1) (length (frames ps1)), pair seg <$> ps1) /\
  replaySegment collect seg false (mkFile data sy) [] = Fail ErrCorrupt.
Proof.
  intros H1 [Hp Hlt] Hc Hne data.
  assert (end_of ((le_put 4 (u32 (N.of_nat (length p))) ++ le_put 4 c ++ p) ++ frames ps2) = Some true) as He.
  { unfold end_of. by rewrite (read_record_badcrc p c (frames ps2)). }
  unfold data. rewrite !(replaySegment_frames collect seg _ ps1 _ true) by done.
  by rewrite (go_foldl_collect_seg seg ps1 []).
Qed.

Lemma wal_damage_in_newest_witness :
  let data := frames [[x01]] ++
    (le_put 4 (u32 (N.of_nat (length [x02]))) ++ le_put 4 0 ++ [x02]) ++ frames [[x03]] in
  replaySegment collect 7 true (mkFile data 0) [] =
    Ret (mkFile (frames [[x01]]) (length (frames [[x01]])), pair 7%N <$> [[x01]]) /\
  replaySegment collect 7 false (mkFile data 0) [] = Fail ErrCorrupt.
Proof.
  apply (wal_damage_in_newest 7 [[x01]] [x02] 0 [[x03]] 0).
  - repeat constructor.
  - repeat constructor.
  - reflexivity.
  - vm_compute. discriminate.
Defined.
