(* ===== verification/WalRecords.v ===== *)
(** * What the files of a log hold, record by record

    [Wal] shows that acknowledged records survive.  A client that recovers
    its state from the log needs more: the replayed records are exactly the
    acknowledged ones, followed by some of those being written when the
    machine stopped.  This holds as long as the client stops at the first
    failed append. *)

From S2P Require Import Prelude Codec Wal.

(** No operation has failed, and everything written is synced. *)
Record wal_clean (w : WAL) : Prop := {
  wc_open : w_open w = true;
  wc_closed : w_closed w = false;
  wc_dirty : w_dirty w = false;
  wc_append : w_appendErr w = None;
  wc_sync : w_syncErr w = None;
}.

(** The files hold the records of [l], and no others. *)
Definition holds (w : WAL) (l : list (N * bytes)) : Prop :=
  forall s f, w_dir w !! s = Some f -> seg_records (f_data f) = of_seg s l.

(** The files hold at most the records of [l] and, behind them in the
    current segment, some first ones of [ps]. *)
Definition at_most (w : WAL) (l : list (N * bytes)) (ps : list bytes) : Prop :=
  forall s f, w_dir w !! s = Some f ->
    seg_records (f_data f) `prefix_of` of_seg s (l ++ (pair (w_seg w) <$> ps)).

(** Segments are only added at the end. *)
Record grows (w w' : WAL) : Prop := {
  gr_keep : forall s, is_Some (w_dir w !! s) -> is_Some (w_dir w' !! s);
  gr_new : forall s, is_Some (w_dir w' !! s) -> is_Some (w_dir w !! s) \/ (w_seg w < s)%N;
  gr_seg : (w_seg w <= w_seg w')%N;
}.

Lemma grows_same w w' : w_dir w' = w_dir w -> w_seg w' = w_seg w -> grows w w'.
Proof. intros E1 E2. split; rewrite ?E1, ?E2; auto. Qed.

Lemma grows_trans w1 w2 w3 : grows w1 w2 -> grows w2 w3 -> grows w1 w3.
Proof.
  intros [K1 N1 S1] [K2 N2 S2]. split; [auto| |lia].
  intros s [Hs|Hs]%N2; [auto|]. right. lia.
Qed.

Lemma grows_insert w w' s f :
  w_dir w' = <[s := f]> (w_dir w) -> (w_seg w <= w_seg w')%N ->
  is_Some (w_dir w !! s) \/ (w_seg w < s)%N -> grows w w'.
Proof.
  intros Hd Hs Hnew. split; [..|done]; intros t; rewrite Hd; destruct (decide (t = s)) as [->|Hne];
    rewrite ?lookup_insert_eq, ?lookup_insert_ne by done; eauto.
Qed.

Lemma holds_at_most w l ps : holds w l -> at_most w l ps.
Proof. intros H s f Hf. rewrite (H s f Hf), of_seg_app. by apply prefix_app_r. Qed.

Lemma holds_new w w' l s :
  holds w l -> wal_inv w l -> (w_seg w < s)%N -> w_dir w' = <[s := mkFile [] 0]> (w_dir w) -> holds w' l.
Proof.
  intros Hh Hinv Hs Hd t f Hf. rewrite Hd in Hf. destruct (decide (t = s)) as [->|Hne].
  - rewrite lookup_insert_eq in Hf. injection Hf as <-. rewrite of_seg_nil; [done|].
    intros u p Hin. apply (inv_acked _ _ Hinv) in Hin. lia.
  - rewrite lookup_insert_ne in Hf by done. eauto.
Qed.

Lemma clean_rotate os w l w' r :
  wal_inv w l -> wal_clean w -> holds w l -> rotateLocked os w = (w', r) ->
  holds w' l /\ grows w w' /\ (r = Ret tt -> wal_clean w').
Proof.
  intros Hinv [Ho Hc Hd Ha Hs] Hh. unfold rotateLocked, syncLocked. rewrite Ha, Hd, Hs. simpl.
  destruct (os_close os && w_open w); [|intros [= <- <-]; by split_and!; [|by apply grows_same|]].
  unfold openSegment. destruct (w_dir (set_open w false) !! (w_seg w + 1)%N) eqn:En;
    [intros [= <- <-]; by split_and!; [|by apply grows_same|]|].
  destruct (os_open os); intros [= <- <-].
  - split_and!; [|by eapply grows_insert; [done|simpl; lia..]|done].
    eapply (holds_new w); [done..| |done]. lia.
  - by split_and!; [|by apply grows_same|].
  - split_and!; [|by eapply grows_insert; [done|simpl; lia..]|done].
    eapply (holds_new w); [done..| |done]. lia.
Qed.

(** The current file of a clean log. *)
Lemma clean_current w l :
  wal_inv w l -> wal_clean w -> holds w l ->
  Forall payload_ok (of_seg (w_seg w) l) /\ f_data (cur_file w) = frames (of_seg (w_seg w) l) /\
  is_Some (w_dir w !! w_seg w).
Proof.
  intros Hinv [_ _ _ Ha _] Hh. destruct (wal_inv_current w l Hinv Ha) as (f & qs & k & Hf & Hcf & Hd & Hok & _).
  assert (qs = of_seg (w_seg w) l) as ->; [|rewrite Hcf; eauto].
  rewrite <-(Hh _ _ Hf), Hd, <-(app_nil_r (frames qs)). symmetry. apply seg_records_frames; auto using tail_ok_nil.
Qed.

Lemma insert_at_most w l ps d sy w' :
  holds w l -> w_seg w' = w_seg w -> w_dir w' = <[w_seg w := mkFile d sy]> (w_dir w) ->
  seg_records d `prefix_of` of_seg (w_seg w) l ++ ps -> at_most w' l ps.
Proof.
  intros Hh Hs Hd Hp s f Hf. rewrite Hs, acked_of_seg_app. rewrite Hd in Hf.
  destruct (decide (s = w_seg w)) as [->|Hne].
  - rewrite lookup_insert_eq in Hf. by injection Hf as <-.
  - rewrite lookup_insert_ne in Hf by done. by rewrite (Hh _ _ Hf), app_nil_r.
Qed.

Lemma seg_records_written qs ps n :
  Forall payload_ok qs -> Forall payload_ok ps -> n <= length (frames ps) ->
  seg_records (frames qs ++ take n (frames ps)) `prefix_of` qs ++ ps.
Proof.
  intros Hq Hp Hn. destruct (frames_cut ps n Hp Hn) as (k & tail & -> & Ht & _).
  rewrite app_assoc, <-frames_app, seg_records_frames by (done || apply Forall_app; auto using Forall_take).
  apply prefix_app. exists (drop k ps). by rewrite take_drop.
Qed.

Lemma clean_append_buf os ps w l w' r :
  wal_inv w l -> wal_clean w -> holds w l -> Forall payload_ok ps ->
  append_buf os (frames ps) w = (w', r) ->
  at_most w' l ps /\ grows w w' /\
  (forall seg, r = Ret seg -> seg = w_seg w' /\ wal_clean w' /\ holds w' (l ++ (pair seg <$> ps))).
Proof.
  intros Hinv Hcl Hh Hps. destruct (clean_current w l Hinv Hcl Hh) as (Hq & Hd & Hcur).
  destruct Hcl as [Ho Hc Hdi Ha Hs]. unfold append_buf. rewrite Ho, Hd. destruct (os_write os) as [n|].
  { intros [= <- <-]. split_and!; [|by eapply grows_insert; [done|simpl; lia|auto]|done].
    eapply insert_at_most; [done|done|done|]. apply seg_records_written; [done..|lia]. }
  simpl. rewrite (inv_sync _ _ Hinv). unfold syncLocked. simpl. rewrite Ho, andb_true_r, cur_file_insert. simpl.
  assert (seg_records (frames (of_seg (w_seg w) l) ++ frames ps) = of_seg (w_seg w) l ++ ps) as Hrec.
  { rewrite <-frames_app, <-(app_nil_r (frames _)). apply seg_records_frames; [by apply Forall_app|apply tail_ok_nil]. }
  destruct (os_sync_after os); intros [= <- <-].
  - split_and!.
    + eapply insert_at_most; [done|done|simpl; apply insert_insert_eq|]. by rewrite Hrec.
    + by eapply grows_insert; [simpl; apply insert_insert_eq|simpl; lia|auto].
    + intros seg [= <-]. split_and!; [done|by constructor|]. simpl. intros s f. simpl.
      rewrite insert_insert_eq, acked_of_seg_app. destruct (decide (s = w_seg w)) as [->|Hne].
      * rewrite lookup_insert_eq. by intros [= <-].
      * rewrite lookup_insert_ne by done. intros Hf. by rewrite app_nil_r, (Hh _ _ Hf).
  - split_and!; [|by eapply grows_insert; [done|simpl; lia|auto]|done].
    eapply insert_at_most; [done|done|done|]. by rewrite Hrec.
Qed.

(** An append on a clean log, whatever becomes of its system calls. *)
Lemma clean_Append os ps w l w' r :
  wal_inv w l -> wal_clean w -> holds w l -> Forall payload_ok ps ->
  Append os ps w = (w', r) ->
  wal_inv w' l /\ at_most w' l ps /\ grows w w' /\
  (forall seg, r = Ret seg -> seg = w_seg w' /\ wal_clean w' /\ holds w' (l ++ (pair seg <$> ps)) /\
     wal_inv w' (l ++ (pair seg <$> ps))).
Proof.
  intros Hinv Hcl Hh Hps H.
  assert (Forall (fun p => (N.of_nat (length p) < w32)%N) ps) as Hlen by (eapply Forall_impl; [exact Hps|by intros ? []]).
  destruct (Append_inv _ _ _ _ _ _ Hinv Hlen H) as [Hinv' Hinvr].
  enough (at_most w' l ps /\ grows w w' /\
    (forall seg, r = Ret seg -> seg = w_seg w' /\ wal_clean w' /\ holds w' (l ++ (pair seg <$> ps))))
    as (H1 & H2 & H3).
  { split_and!; try done. intros seg Hr. destruct (H3 seg Hr) as (? & ? & ?). auto. }
  unfold Append in H. destruct (existsb _ ps) eqn:Ee.
  { injection H as <- <-. split_and!; [by apply holds_at_most|by apply grows_same|done]. }
  rewrite (wc_closed _ Hcl), (wc_append _ Hcl) in H.
  destruct (_ <=? _)%N; [|by eapply clean_append_buf].
  destruct (rotateLocked os w) as [w1 r1] eqn:Er.
  destruct (rotateLocked_inv _ _ _ _ _ Hinv Er) as [Hinv1 _].
  destruct (clean_rotate _ _ _ _ _ Hinv Hcl Hh Er) as (Hh1 & Hg1 & Hc1).
  destruct r1 as [[]|e|]; [|injection H as <- <-; by split_and!; [apply holds_at_most| |]..].
  destruct (clean_append_buf _ _ _ _ _ _ Hinv1 (Hc1 eq_refl) Hh1 Hps H) as (? & ? & ?).
  split_and!; [done|by eapply grows_trans|done].
Qed.

Lemma clean_Rotate os w l w' r :
  wal_inv w l -> wal_clean w -> holds w l -> Rotate os w = (w', r) ->
  wal_inv w' l /\ holds w' l /\ grows w w' /\ (forall seg, r = Ret seg -> wal_clean w').
Proof.
  intros Hinv Hcl Hh. unfold Rotate. destruct (rotateLocked os w) as [w1 r1] eqn:Er.
  destruct (rotateLocked_inv _ _ _ _ _ Hinv Er) as [Hinv1 _].
  destruct (clean_rotate _ _ _ _ _ Hinv Hcl Hh Er) as (Hh1 & Hg1 & Hc1).
  destruct r1 as [[]|e|]; intros [= <- <-]; split_and!; try done. by intros _ _; apply Hc1.
Qed.

Lemma DeleteBefore_holds seg w l : holds w l -> holds (DeleteBefore seg w) l.
Proof. intros Hh s f [Hf _]%map_lookup_filter_Some. eauto. Qed.

Lemma DeleteBefore_clean seg w : wal_clean w -> wal_clean (DeleteBefore seg w).
Proof. by intros []. Qed.

Lemma DeleteBefore_present seg w s :
  is_Some (w_dir (DeleteBefore seg w) !! s) <-> (seg <= s)%N /\ is_Some (w_dir w !! s).
Proof.
  simpl. split.
  - intros [f [Hf Hle]%map_lookup_filter_Some]. eauto.
  - intros [Hle [f Hf]]. exists f. by apply map_lookup_filter_Some.
Qed.

(** ** Recovery *)

(** Of a list between [l] and [l ++ ps] in the order of records only the
    length matters. *)
Lemma between_prefix {A} (l x ps : list A) :
  l `sublist_of` x -> x `prefix_of` l ++ ps -> exists j, j <= length ps /\ x = l ++ take j ps.
Proof.
  intros Hs Hp. pose proof (sublist_length _ _ Hs) as Hl. pose proof (prefix_length _ _ Hp) as Hl2.
  rewrite length_app in Hl2. exists (length x - length l). split; [lia|].
  destruct Hp as [k Hk]. rewrite <-(take_app_length x k) at 1. rewrite <-Hk.
  by rewrite take_app_ge by lia.
Qed.

(** What a power loss leaves. *)
Lemma crash_records w l ps dir :
  wal_inv w l -> at_most w l ps -> crash (w_dir w) dir ->
  exists j, j <= length ps /\
    forall s, is_Some (dir !! s) -> dir_records dir s = of_seg s (l ++ (pair (w_seg w) <$> take j ps)).
Proof.
  intros Hinv Hat Hcr. destruct (crash_dir_ok w l dir Hinv Hcr) as (_ & Hrec & _).
  destruct (inv_cur _ _ Hinv) as (f & Hf & _).
  assert (forall s g, w_dir w !! s = Some g -> exists j, j <= length ps /\
    dir_records dir s = of_seg s (l ++ (pair (w_seg w) <$> take j ps))) as Hall.
  { intros s g Hg. destruct (Hrec s g Hg) as [Hsub Hpre]. pose proof (Hat s g Hg) as Hub.
    rewrite acked_of_seg_app in Hub.
    destruct (between_prefix _ _ _ Hsub (transitivity Hpre Hub)) as (j & Hj & ->).
    destruct (decide (s = w_seg w)) as [->|Hne].
    - exists j. split; [done|]. by rewrite acked_of_seg_app, decide_True.
    - exists 0. split; [lia|]. simpl. by rewrite take_nil, !app_nil_r. }
  destruct (Hall _ _ Hf) as (j & Hj & Hcur). exists j. split; [done|]. intros s Hs.
  apply (crash_lookup _ _ _ Hcr) in Hs as [g Hg]. destruct (decide (s = w_seg w)) as [->|Hne]; [done|].
  destruct (Hall s g Hg) as (j' & _ & ->). by rewrite !acked_of_seg_app, !decide_False.
Qed.

(** The records of sorted segments, put together again. *)
Lemma of_seg_flat segs (l : list (N * bytes)) :
  StronglySorted N.lt segs -> StronglySorted N.le l.*1 -> Forall (fun r => r.1 ∈ segs) l ->
  (segs ≫= fun s => pair s <$> of_seg s l) = l.
Proof.
  intros Hss. revert l. induction Hss as [|s segs Hss IH Hall]; intros l Hsl Hin.
  { destruct l as [|r l]; [done|]. by apply Forall_cons in Hin as [?%not_elem_of_nil _]. }
  cbn [mbind list_bind].
  assert (exists l1 l2, l = (pair s <$> l1) ++ l2 /\ Forall (fun r => r.1 ∈ segs) l2) as (l1 & l2 & -> & H2).
  { clear IH. induction l as [|[t p] l IHl]; [by exists [], []|].
    apply Forall_cons in Hin as [Ht Hin]. cbn [fmap list_fmap] in Hsl.
    apply StronglySorted_inv in Hsl as [Hsl Hle].
    apply elem_of_cons in Ht as [Ht|Ht]; simpl in Ht.
    - subst t. destruct (IHl Hsl Hin) as (l1 & l2 & -> & H2). by exists (p :: l1), l2.
    - exists [], ((t, p) :: l). split; [done|]. constructor; [done|].
      rewrite Forall_forall in Hall. rewrite Forall_forall in Hin. rewrite Forall_forall in Hle.
      apply Forall_forall. intros r Hr. pose proof (Hall t Ht).
      assert (t <= r.1)%N by (apply Hle, list_elem_of_fmap; eauto).
      specialize (Hin r Hr). apply elem_of_cons in Hin as [?|?]; [lia|done]. }
  assert (of_seg s l2 = []) as Hnil.
  { apply of_seg_nil. intros t p Htp. rewrite Forall_forall in H2. rewrite Forall_forall in Hall. apply H2, Hall in Htp. simpl in Htp. lia. }
  rewrite of_seg_app, of_seg_same, Hnil, app_nil_r. f_equal.
  rewrite fmap_app in Hsl. apply StronglySorted_app in Hsl as (_ & _ & Hsl).
  etrans; [|exact (IH l2 Hsl H2)]. rewrite Forall_forall in Hall. clear -Hall.
  induction segs as [|t segs IH]; [done|]. cbn [mbind list_bind]. f_equal.
  - rewrite of_seg_app, of_seg_other; [done|]. intros ->. specialize (Hall s (list_elem_of_here _ _)). lia.
  - apply IH. intros u Hu. by apply Hall, list_elem_of_further.
Qed.

Lemma listSegments_sorted dir : StronglySorted N.lt (listSegments dir).
Proof.
  assert (StronglySorted N.le (listSegments dir)) as Hs by (apply StronglySorted_merge_sort; apply _).
  pose proof (NoDup_listSegments dir) as Hn. induction Hs as [|s l Hs IH Hall]; [constructor|].
  apply NoDup_cons in Hn as [Hnin Hn]. constructor; [auto|]. rewrite Forall_forall in Hall. apply Forall_forall.
  intros t Ht. specialize (Hall t Ht). assert (s <> t) by (by intros ->). lia.
Qed.

Lemma replay_dir_flat {S} (replay : N -> bytes -> S -> go S) R segs st :
  replay_dir replay R segs st =
    go_foldl (fun r => replay r.1 r.2) (segs ≫= fun s => pair s <$> R s) st.
Proof.
  unfold replay_dir. revert st. induction segs as [|s segs IH]; intros st; [done|].
  cbn [go_foldl mbind list_bind]. rewrite go_foldl_app.
  assert (forall ps st, go_foldl (fun r => replay r.1 r.2) (pair s <$> ps) st = go_foldl (replay s) ps st) as ->.
  { induction ps as [|p ps IHp]; intros st'; [done|]. cbn [go_foldl fmap list_fmap fst snd].
    destruct (replay s p st'); [apply IHp|done..]. }
  destruct (go_foldl (replay s) (R s) st); [apply IH|done..].
Qed.

(** The log still has every segment from [k] on, and none before. *)
Record keeps (k : N) (w : WAL) (l : list (N * bytes)) : Prop := {
  kp_all : forall s p, (s, p) ∈ l -> (k <= s)%N -> is_Some (w_dir w !! s);
  kp_low : forall s, is_Some (w_dir w !! s) -> (k <= s)%N;
  kp_sorted : StronglySorted N.le l.*1;
}.

Definition from {A} (k : N) (l : list (N * A)) : list (N * A) := filter (fun r => (k <= r.1)%N) l.

Lemma of_seg_from k s l : (k <= s)%N -> of_seg s (from k l) = of_seg s l.
Proof.
  intros Hk. unfold of_seg, from. f_equal. induction l as [|[t p] l IH]; [done|].
  destruct (decide (t = s)) as [->|Hne].
  - rewrite !(filter_cons_True _ (s, p)) by done. by f_equal.
  - rewrite (filter_cons_False (fun kv => kv.1 = s) (t, p)) by done. rewrite <-IH.
    destruct (decide (k <= t)%N).
    + rewrite (filter_cons_True (fun r => (k <= r.1)%N)) by done. by rewrite filter_cons_False.
    + by rewrite (filter_cons_False (fun r => (k <= r.1)%N)).
Qed.

Lemma sorted_snoc l seg (ps : list bytes) :
  StronglySorted N.le l.*1 -> (forall s p, (s, p) ∈ l -> (s <= seg)%N) ->
  StronglySorted N.le (l ++ (pair seg <$> ps)).*1.
Proof.
  intros Hs Hle. rewrite fmap_app. apply StronglySorted_app. split_and!; [|done|].
  - intros x y ([s p] & -> & Hx)%list_elem_of_fmap ([t q] & -> & Hy)%list_elem_of_fmap.
    apply list_elem_of_fmap in Hy as (? & [= -> ->] & _). apply Hle in Hx. simpl. lia.
  - induction ps as [|p ps IH]; [constructor|]. cbn [fmap list_fmap]. constructor; [done|].
    apply Forall_forall. intros y ([t q] & -> & Hy)%list_elem_of_fmap.
    apply list_elem_of_fmap in Hy as (? & [= -> ->] & _). simpl. lia.
Qed.

Lemma sorted_filter {A} (P : N * A -> Prop) `{!forall x, Decision (P x)} (l : list (N * A)) :
  StronglySorted N.le l.*1 -> StronglySorted N.le (filter P l).*1.
Proof.
  induction l as [|r l IH]; [done|]. cbn [fmap list_fmap]. intros [Hs Hall]%StronglySorted_inv.
  destruct (decide (P r)); [rewrite filter_cons_True by done|by rewrite filter_cons_False; auto].
  cbn [fmap list_fmap]. constructor; [auto|]. rewrite Forall_forall in Hall. apply Forall_forall.
  intros x (y & -> & [_ Hy]%list_elem_of_filter)%list_elem_of_fmap. apply Hall, list_elem_of_fmap. eauto.
Qed.

(** The records on disk after a crash, in the order they are replayed. *)
Definition dir_log (dir : gmap N file) : list (N * bytes) :=
  listSegments dir ≫= fun s => pair s <$> dir_records dir s.

Lemma dir_log_from w l k dir :
  StronglySorted N.le l.*1 -> keeps k w l -> crash (w_dir w) dir ->
  (forall s, is_Some (dir !! s) -> dir_records dir s = of_seg s l) ->
  dir_log dir = from k l.
Proof.
  intros Hs Hk Hcr Hrec. unfold dir_log.
  rewrite <-(of_seg_flat (listSegments dir) (from k l)).
  - assert (forall s, s ∈ listSegments dir -> dir_records dir s = of_seg s (from k l)) as Heq.
    { intros s Hin%elem_of_listSegments. rewrite (Hrec s Hin), of_seg_from; [done|].
      apply (kp_low _ _ _ Hk), (crash_lookup _ _ _ Hcr), Hin. }
    revert Heq. generalize (listSegments dir). induction l0 as [|s l0 IH]; intros Heq; [done|].
    cbn [mbind list_bind]. rewrite (Heq s) by apply list_elem_of_here. f_equal.
    apply IH. intros t Ht. by apply Heq, list_elem_of_further.
  - apply listSegments_sorted.
  - by apply sorted_filter.
  - apply Forall_forall. intros [s p] [Hle Hin]%list_elem_of_filter. simpl in *.
    apply elem_of_listSegments, (crash_lookup _ _ _ Hcr). by eapply (kp_all _ _ _ Hk).
Qed.

Lemma OpenWAL_run {S} opts (replay : N -> bytes -> S -> go S) dir R T st :
  dir_ok dir R T ->
  match replay_dir replay R (listSegments dir) st with
  | Ret _ => True
  | Fail e => OpenWAL opts OpenOk replay dir st = Fail e
  | Panic => OpenWAL opts OpenOk replay dir st = Panic
  end.
Proof.
  intros Hok. unfold OpenWAL.
  rewrite (replay_segments_ok replay R T) by
    (apply NoDup_listSegments ||
     (intros s [f Hf]%elem_of_listSegments; exists f; split; [done|by apply Hok])).
  by destruct (replay_dir replay R (listSegments dir) st).
Qed.

Lemma keeps_snoc k w l ps :
  wal_inv w l -> keeps k w l -> keeps k w (l ++ (pair (w_seg w) <$> ps)).
Proof.
  intros Hinv [Hall Hlow Hs]. split; [|done|apply sorted_snoc; [done|apply (inv_acked _ _ Hinv)]].
  intros s p [Hin|Hin]%elem_of_app Hle; [by eapply Hall|].
  apply list_elem_of_fmap in Hin as (? & [= -> ->] & _).
  destruct (inv_cur _ _ Hinv) as (f & Hf & _). eauto.
Qed.

Lemma keeps_grows k w w' l :
  keeps k w l -> grows w w' -> is_Some (w_dir w !! w_seg w) -> keeps k w' l.
Proof.
  intros [Hall Hlow Hs] [K N _] Hcur. split; [eauto| |done].
  intros s [Hs'|Hlt]%N; [auto|]. specialize (Hlow _ Hcur). lia.
Qed.

(** The directory [OpenWAL] leaves, record by record. *)
Lemma opened_records {S} opts (replay : N -> bytes -> S -> go S) dir l k st st' w' :
  SyncInterval opts = false -> dir_ok dir (dir_records dir) (dir_tail dir) ->
  (forall s f, dir !! s = Some f -> f_synced f = length (f_data f)) ->
  (forall s, is_Some (dir !! s) -> dir_records dir s = of_seg s l) ->
  (forall s p, (s, p) ∈ l -> exists m, list.last (listSegments dir) = Some m /\ (s <= m)%N) ->
  (forall s p, (s, p) ∈ l -> (k <= s)%N -> is_Some (dir !! s)) ->
  (forall s, is_Some (dir !! s) -> (k <= s)%N) ->
  is_Some (list.last (listSegments dir)) ->
  StronglySorted N.le l.*1 ->
  replay_dir replay (dir_records dir) (listSegments dir) st = Ret st' ->
  OpenWAL opts OpenOk replay dir st = Ret (w', st') ->
  wal_inv w' l /\ wal_clean w' /\ holds w' l /\ keeps k w' l.
Proof.
  intros Hsync Hok Hsy Hrec Hlast Hall Hlow [m Hm] Hsort Hr Ho.
  assert (wal_inv w' l) as Hinv.
  { eapply OpenWAL_inv; [done|exact Hok| |exact Hlast|exact Hr|exact Ho].
    intros s f Hf. rewrite Hrec by eauto. split; [done|by eapply Hsy]. }
  split; [done|]. pose proof (OpenWAL_ok opts replay dir _ _ _ _ Hok Hr) as Ho2.
  cbv zeta in Ho2. rewrite Hm in Ho2. rewrite Ho in Ho2. injection Ho2 as ->.
  assert (is_Some (dir !! m)) as Hpm by (by apply elem_of_listSegments, last_Some_elem_of).
  split_and!; [done|..].
  - intros s f Hf. simpl in Hf. destruct (decide (s = m + 1)%N) as [->|Hne].
    + rewrite lookup_insert_eq in Hf. injection Hf as <-. rewrite of_seg_nil; [done|].
      intros t p (m' & Hm' & Hle)%Hlast. rewrite Hm in Hm'. injection Hm' as <-. lia.
    + rewrite lookup_insert_ne in Hf by done. destruct (decide (s = m)) as [->|Hne2].
      * rewrite lookup_insert_eq in Hf. injection Hf as <-. simpl. rewrite <-(Hrec m Hpm).
        destruct Hpm as [g Hg]. destruct (Hok m g Hg) as (_ & Hp & _).
        rewrite <-(app_nil_r (frames _)). apply seg_records_frames; [done|apply tail_ok_nil].
      * rewrite lookup_insert_ne in Hf by done. rewrite <-Hrec by eauto. unfold dir_records. by rewrite Hf.
  - assert (forall s, is_Some (dir !! s) ->
      is_Some (<[(m + 1)%N := mkFile [] 0]> (<[m := mkFile (frames (dir_records dir m)) (length (frames (dir_records dir m)))]> dir) !! s)) as Hup.
    { intros s Hs. destruct (decide (s = m + 1)%N) as [->|]; [rewrite lookup_insert_eq; eauto|].
      rewrite lookup_insert_ne by done. destruct (decide (s = m)) as [->|]; [rewrite lookup_insert_eq; eauto|].
      by rewrite lookup_insert_ne. }
    split; [eauto| |done]. simpl. intros s Hs. destruct (decide (s = m + 1)%N) as [->|Hne].
    + specialize (Hlow m Hpm). lia.
    + rewrite lookup_insert_ne in Hs by done. destruct (decide (s = m)) as [->|]; [auto|].
      rewrite lookup_insert_ne in Hs by done. auto.
Qed.

(** Recovery of a client: the records from segment [k] on, and some first
    ones of those being appended, are replayed in order. *)
Theorem reopen opts w l ps dir k :
  SyncInterval opts = false -> wal_inv w l -> at_most w l ps -> keeps k w l -> crash (w_dir w) dir ->
  exists j, j <= length ps /\
    let l' := l ++ (pair (w_seg w) <$> take j ps) in
    dir_log dir = from k l' /\
    forall (S : Type) (replay : N -> bytes -> S -> go S) (st : S),
      match go_foldl (fun r => replay r.1 r.2) (from k l') st with
      | Ret st' => exists w', OpenWAL opts OpenOk replay dir st = Ret (w', st') /\
          wal_inv w' l' /\ wal_clean w' /\ holds w' l' /\ keeps k w' l'
      | Fail e => OpenWAL opts OpenOk replay dir st = Fail e
      | Panic => OpenWAL opts OpenOk replay dir st = Panic
      end.
Proof.
  intros Hsync Hinv Hat Hk Hcr. destruct (crash_records w l ps dir Hinv Hat Hcr) as (j & Hj & Hrec).
  exists j. split; [done|]. cbv zeta. set (l' := l ++ _) in *.
  assert (keeps k w l') as Hk' by (by apply keeps_snoc).
  pose proof (dir_log_from w l' k dir (kp_sorted _ _ _ Hk') Hk' Hcr Hrec) as Hlog.
  split; [done|]. intros S replay st.
  destruct (crash_dir_ok w l dir Hinv Hcr) as (Hok & _ & Hsy & _).
  rewrite <-Hlog. unfold dir_log. rewrite <-replay_dir_flat.
  pose proof (OpenWAL_run opts replay dir _ _ st Hok) as Hrun.
  destruct (replay_dir replay (dir_records dir) (listSegments dir) st) as [st'|e|] eqn:Er; [|done..].
  pose proof (OpenWAL_ok opts replay dir _ _ _ _ Hok Er) as Ho. cbv zeta in Ho.
  eexists. split; [exact Ho|].
  assert (is_Some (dir !! w_seg w)) as Hcur.
  { apply (crash_lookup _ _ _ Hcr). destruct (inv_cur _ _ Hinv) as (f & Hf & _). eauto. }
  assert (exists m, list.last (listSegments dir) = Some m /\ (w_seg w <= m)%N) as (m & Hm & Hle).
  { destruct (list.last (listSegments dir)) as [m|] eqn:El.
    - exists m. split; [done|]. by eapply listSegments_last.
    - apply last_None in El. apply elem_of_listSegments in Hcur. rewrite El in Hcur. by apply not_elem_of_nil in Hcur. }
  eapply opened_records; [done|done|done|exact Hrec|..|exact Er|exact Ho].
  - intros s p Hin. exists m. split; [done|]. etrans; [|exact Hle].
    apply elem_of_app in Hin as [Hin|Hin]; [by eapply (inv_acked _ _ Hinv)|].
    apply list_elem_of_fmap in Hin as (? & [= -> ->] & _). lia.
  - intros s p Hin Hks. apply (crash_lookup _ _ _ Hcr). by eapply (kp_all _ _ _ Hk').
  - intros s Hs. apply (kp_low _ _ _ Hk), (crash_lookup _ _ _ Hcr), Hs.
  - by rewrite Hm.
  - apply (kp_sorted _ _ _ Hk').
Qed.
