(* ===== verification/Iter.v ===== *)
(** * storage/iter.go: iterators over internal keys

    The interface [internalIter] as a type class, and what an implementation
    promises: it walks a fixed sorted list of entries. *)

From stdpp Require Import base list sorting.
From S2P Require Import Prelude Codec Key.

Abbreviation entry := (bytes * bytes)%type.

(** The order of internal keys. *)
Definition ik_lt (a b : bytes) : Prop := compareInternalKey a b = Lt.
Definition ik_le (a b : bytes) : Prop := compareInternalKey a b <> Gt.

#[global] Instance ik_lt_dec : RelDecision ik_lt.
Proof. intros a b. unfold ik_lt. apply _. Defined.
#[global] Instance ik_le_dec : RelDecision ik_le.
Proof. intros a b. unfold ik_le. apply _. Defined.

#[global] Instance ik_lt_trans : Transitive ik_lt.
Proof. intros a b c. apply compareInternalKey_lt_trans. Qed.
#[global] Instance ik_lt_irrefl : Irreflexive ik_lt.
Proof. intros a. unfold complement, ik_lt. by rewrite compareInternalKey_refl. Qed.

Lemma ik_not_lt a b : ~ ik_lt a b <-> ik_le b a.
Proof.
  unfold ik_lt, ik_le. rewrite (compareInternalKey_antisym a b).
  destruct (compareInternalKey a b); simpl; naive_solver.
Qed.

Lemma ik_lt_le a b : ik_lt a b -> ik_le a b.
Proof. unfold ik_lt, ik_le. by intros ->. Qed.

(** Keys that compare equal compare alike. *)
Lemma compareInternalKey_Eq_l a b c :
  compareInternalKey a b = Eq -> compareInternalKey a c = compareInternalKey b c.
Proof.
  unfold compareInternalKey. destruct (bcmp (userKey a) (userKey b)) eqn:E; try done.
  apply bcmp_eq in E. rewrite E. intros Ht. assert (ik_trailer a = ik_trailer b) as ->; [|done].
  repeat case_match; bool_to_prop; try done; lia.
Qed.

Lemma ik_le_lt_trans a b c : ik_le a b -> ik_lt b c -> ik_lt a c.
Proof.
  unfold ik_le, ik_lt. intros H1 H2. destruct (compareInternalKey a b) eqn:E; [|by eapply compareInternalKey_lt_trans|done].
  by rewrite (compareInternalKey_Eq_l _ _ _ E).
Qed.

Lemma ik_lt_le_trans a b c : ik_lt a b -> ik_le b c -> ik_lt a c.
Proof.
  intros H1 H2. destruct (decide (ik_lt a c)) as [|Hn]; [done|]. apply ik_not_lt in Hn, H2.
  exfalso. apply H2. by eapply ik_le_lt_trans.
Qed.

#[global] Instance ik_le_trans : Transitive ik_le.
Proof.
  intros a b c H1 H2. apply ik_not_lt. intros H3. apply ik_not_lt in H1. apply H1.
  by eapply ik_le_lt_trans.
Qed.

#[global] Instance ik_le_total : Total ik_le.
Proof. intros a b. destruct (decide (ik_lt a b)) as [H|H]; [left; by apply ik_lt_le|right; by apply ik_not_lt]. Qed.

(** [compareInternalKey(a, b) < 0], which panics on a key that is too short. *)
Definition key_lt (a b : bytes) : go bool :=
  if (trailerSize <=? length a) && (trailerSize <=? length b) then Ret (bool_decide (ik_lt a b)) else Panic.

Lemma key_lt_wf a b : ikey_wf a -> ikey_wf b -> key_lt a b = Ret (bool_decide (ik_lt a b)).
Proof. unfold key_lt, ikey_wf. intros. by rewrite !(proj2 (Nat.leb_le _ _)). Qed.

(** Entries in strictly increasing key order. *)
Definition entry_lt (a b : entry) : Prop := ik_lt a.1 b.1.
Definition ik_sorted (es : list entry) : Prop := StronglySorted entry_lt es.
Definition keys_wf (es : list entry) : Prop := Forall (fun e => ikey_wf e.1) es.

(** The position of the first key at or above a target. *)
Fixpoint first_ge (t : bytes) (es : list entry) : nat :=
  match es with
  | [] => 0
  | e :: es => if decide (ik_lt e.1 t) then Datatypes.S (first_ge t es) else 0
  end.

(** ** The interface *)

Class InternalIter (I : Type) := {
  it_seekToFirst : I -> go I;
  it_seek : bytes -> I -> go I;
  it_valid : I -> bool;
  it_next : I -> go I;
  it_key : I -> go bytes;
  it_value : I -> go bytes;
  it_close : I -> I * option error;
}.

(** [it_over it es]: the iterator walks [es], wherever it stands.
    [it_at it es i]: it stands at position [i], at the end if there is no
    entry there. *)
Class InternalIterOK (I : Type) `{InternalIter I} := {
  it_over : I -> list entry -> Prop;
  it_at : I -> list entry -> nat -> Prop;
  it_at_over it es i : it_at it es i -> it_over it es;
  it_over_sorted it es : it_over it es -> ik_sorted es /\ keys_wf es;
  it_seekToFirst_ok it es : it_over it es ->
    exists it', it_seekToFirst it = Ret it' /\ it_at it' es 0;
  it_seek_ok t it es : it_over it es -> ikey_wf t ->
    exists it', it_seek t it = Ret it' /\ it_at it' es (first_ge t es);
  it_valid_ok it es i : it_at it es i -> it_valid it = (i <? length es);
  it_next_ok it es i : it_at it es i -> i < length es ->
    exists it', it_next it = Ret it' /\ it_at it' es (Datatypes.S i);
  it_key_ok it es i e : it_at it es i -> es !! i = Some e -> it_key it = Ret e.1 /\ it_value it = Ret e.2;
  it_close_ok it es : it_over it es -> (it_close it).2 = None;
}.

(** ** Positions in a sorted list *)

Lemma first_ge_le t es : first_ge t es <= length es.
Proof. induction es; simpl; [lia|]. destruct (decide _); simpl; lia. Qed.

Lemma first_ge_below t es i e : es !! i = Some e -> i < first_ge t es -> ik_lt e.1 t.
Proof.
  revert i. induction es as [|x es IH]; intros [|i] Hi Hlt; simpl in *; try done;
    destruct (decide (ik_lt x.1 t)); try lia.
  - by injection Hi as <-.
  - apply (IH i); [done|lia].
Qed.

Lemma first_ge_at t es e : es !! first_ge t es = Some e -> ~ ik_lt e.1 t.
Proof.
  induction es as [|x es IH]; simpl; [done|]. destruct (decide (ik_lt x.1 t)) as [|Hn]; simpl; [done|].
  by intros [= <-].
Qed.

Lemma first_ge_above t es i e :
  ik_sorted es -> es !! i = Some e -> first_ge t es <= i -> ik_le t e.1.
Proof.
  intros Hs. revert i. induction Hs as [|x es Hs IH Hall]; intros [|i] Hi Hle; simpl in *; try done.
  - injection Hi as <-. destruct (decide (ik_lt x.1 t)) as [|Hn]; [lia|]. by apply ik_not_lt.
  - destruct (decide (ik_lt x.1 t)) as [|Hn]; [apply (IH i); [done|lia]|].
    apply ik_not_lt in Hn. etrans; [exact Hn|]. rewrite Forall_forall in Hall.
    apply ik_lt_le, (Hall e). by eapply list_elem_of_lookup_2.
Qed.

(** The position is characterised by what is below and at it. *)
Lemma first_ge_unique t es j :
  ik_sorted es -> j <= length es ->
  (forall i e, es !! i = Some e -> i < j -> ik_lt e.1 t) ->
  (forall e, es !! j = Some e -> ~ ik_lt e.1 t) -> first_ge t es = j.
Proof.
  intros Hs. revert j. induction Hs as [|x es Hs IH Hall]; intros j Hj Hbelow Hat; simpl in *; [lia|].
  destruct j as [|j].
  - by rewrite decide_False by (by apply Hat).
  - rewrite decide_True by (apply (Hbelow 0); [done|lia]). f_equal. apply IH; [lia| |done].
    intros i e Hi Hlt. apply (Hbelow (Datatypes.S i)); [done|lia].
Qed.

Lemma ik_sorted_lookup es i j a b :
  ik_sorted es -> es !! i = Some a -> es !! j = Some b -> i < j -> ik_lt a.1 b.1.
Proof.
  intros Hs. revert i j. induction Hs as [|x es Hs IH Hall]; intros [|i] [|j] Ha Hb Hij; simpl in *; try lia; try done.
  - injection Ha as <-. rewrite Forall_forall in Hall. apply Hall. by eapply list_elem_of_lookup_2.
  - apply (IH i j); [done..|lia].
Qed.

Lemma sorted_sublist l es : sublist l es -> ik_sorted es -> ik_sorted l.
Proof.
  induction 1 as [|e l es Hsub IH|e l es Hsub IH]; intros Hs; [constructor| |];
    apply StronglySorted_cons in Hs as [Hall Hs]; [|by apply IH]. constructor; [by apply IH|].
  apply Forall_forall. intros x Hx. eapply Forall_forall in Hall; [done|]. by eapply elem_of_sublist.
Qed.

Lemma ik_sorted_nodup es : ik_sorted es -> NoDup es.
Proof.
  induction 1 as [|e es _ IH Hall]; constructor; [|done]. intros He. eapply Forall_forall in Hall; [|done].
  exact (irreflexivity ik_lt _ Hall).
Qed.

(** Sorted entries are determined by their elements. *)
Lemma ik_sorted_unique l k : ik_sorted l -> ik_sorted k -> (forall e, e ∈ l <-> e ∈ k) -> l = k.
Proof.
  intros Hl Hk Heq. apply (StronglySorted_unique_strong entry_lt); [|done|done|].
  - intros x y _ _ Hxy Hyx. exfalso. exact (irreflexivity ik_lt _ (transitivity (R:=ik_lt) Hxy Hyx)).
  - apply NoDup_Permutation; [by apply ik_sorted_nodup..|done].
Qed.

(** ** Draining an iterator

    The entries from where it stands to the end. *)
Section Drain.
Context {I : Type} `{InternalIter I}.

Fixpoint drain (fuel : nat) (it : I) : go (list entry) :=
  if it_valid it then
    match fuel with
    | O => Panic
    | Datatypes.S fuel =>
        k ← it_key it;
        v ← it_value it;
        it ← it_next it;
        es ← drain fuel it;
        Ret ((k, v) :: es)
    end
  else Ret [].

Lemma drain_ok `{!InternalIterOK I} fuel it es i :
  it_at it es i -> length es - i <= fuel -> drain fuel it = Ret (drop i es).
Proof.
  revert it i. induction fuel as [|fuel IH]; intros it i Hat Hf; simpl;
    rewrite (it_valid_ok _ _ _ Hat); destruct (Nat.ltb_spec i (length es)) as [Hlt|Hge]; try lia;
    try (by rewrite drop_ge).
  destruct (lookup_lt_is_Some_2 es i Hlt) as [[k v] He].
  destruct (it_key_ok _ _ _ _ Hat He) as [-> ->]. destruct (it_next_ok _ _ _ Hat Hlt) as (it' & -> & Hat').
  cbn [mbind go_bind]. rewrite (IH it' (Datatypes.S i) Hat') by lia. by rewrite (drop_S _ _ _ He).
Qed.

Lemma drain_first `{!InternalIterOK I} it es : it_over it es -> (it ← it_seekToFirst it; drain (length es) it) = Ret es.
Proof. intros Hov. destruct (it_seekToFirst_ok _ _ Hov) as (it' & -> & Hat). apply (drain_ok _ _ _ _ Hat). lia. Qed.

Lemma drain_seek `{!InternalIterOK I} t it es :
  it_over it es -> ikey_wf t -> (it ← it_seek t it; drain (length es) it) = Ret (drop (first_ge t es) es).
Proof. intros Hov Ht. destruct (it_seek_ok t _ _ Hov Ht) as (it' & -> & Hat). apply (drain_ok _ _ _ _ Hat). lia. Qed.
End Drain.
