(* ===== verification/Versions.v ===== *)
(** * Versions of a key

    An internal key is a user key at a sequence number.  A lookup wants the
    newest version at or below a sequence number; every tier of the engine
    finds it by seeking a sorted sequence of entries, and this file says what
    such a seek finds. *)

From stdpp Require Import base list sorting.
From S2P Require Import Prelude Codec Key Iter.

Definition ik_seq (ik : bytes) : N := N.shiftr (ik_trailer ik) 8.
Definition ik_kind (ik : bytes) : keyKind := bof (N.land (ik_trailer ik) 255).

(** Splitting a key that is too short panics. *)
Definition split_key (ik : bytes) : go (bytes * N * keyKind) :=
  if length ik <? trailerSize then Panic else Ret (splitInternalKey ik).

Lemma split_key_wf ik : ikey_wf ik -> split_key ik = Ret (userKey ik, ik_seq ik, ik_kind ik).
Proof. intros Hwf. unfold split_key. by rewrite (proj2 (Nat.ltb_ge _ _)). Qed.

(** Kinds are those the engine writes. *)
Definition kinds_ok (es : list entry) : Prop := Forall (fun e => (bval (ik_kind e.1) <= 1)%N) es.

(** What a lookup tells: a value, a tombstone, or nothing at all. *)
Inductive found := Found (value : bytes) | Deleted | Absent.

#[global] Instance found_eq_decision : EqDecision found.
Proof. solve_decision. Defined.

(** A version of the key the sequence number sees. *)
Definition is_version (key : bytes) (seq : N) (e : entry) : Prop := userKey e.1 = key /\ (ik_seq e.1 <= seq)%N.
#[global] Instance is_version_dec key seq e : Decision (is_version key seq e).
Proof. unfold is_version. apply _. Defined.

Definition entry_found (e : entry) : found := if decide (ik_kind e.1 = kindDelete) then Deleted else Found e.2.

(** The newest such version. *)
Definition newest (key : bytes) (seq : N) (es : list entry) : found :=
  from_option entry_found Absent (head (filter (is_version key seq) es)).

Lemma ik_trailer_eq ik : ik_trailer ik = (ik_seq ik * 256 + bval (ik_kind ik))%N.
Proof.
  unfold ik_seq, ik_kind. rewrite bval_bof. change 255%N with (N.ones 8). rewrite N.land_ones, N.shiftr_div_pow2.
  change (2 ^ 8)%N with 256%N. rewrite N.Div0.mod_mod. rewrite (N.div_mod (ik_trailer ik) 256) at 1 by lia. lia.
Qed.

Lemma ik_seq_make u s k : (s < maxSeq)%N -> ik_seq (makeInternalKey u s k) = s.
Proof. intros Hs. pose proof (splitInternalKey_make u s k Hs) as H. by injection H. Qed.

Lemma ik_kind_make u s k : (s < maxSeq)%N -> ik_kind (makeInternalKey u s k) = k.
Proof. intros Hs. pose proof (splitInternalKey_make u s k Hs) as H. by injection H. Qed.

Lemma ik_trailer_bound ik : (ik_trailer ik < w64)%N.
Proof.
  unfold ik_trailer, be_get. eapply N.lt_le_trans; [apply le_get_bound|]. rewrite length_reverse, length_drop.
  change w64 with (256 ^ 8)%N. apply N.pow_le_mono_r; [done|]. unfold trailerSize. lia.
Qed.

(** A key is put together again from its parts. *)
Lemma makeInternalKey_split ik :
  ikey_wf ik -> makeInternalKey (userKey ik) (ik_seq ik) (ik_kind ik) = ik /\ (ik_seq ik < maxSeq)%N.
Proof.
  intros Hwf. pose proof (ik_trailer_bound ik) as Hb. rewrite ik_trailer_eq in Hb.
  assert (ik_seq ik < maxSeq)%N as Hs by (unfold maxSeq, w64 in *; lia). split; [|done].
  rewrite (ikey_split ik Hwf) at 4. unfold makeInternalKey. do 2 f_equal. by rewrite trailer_eq, <-ik_trailer_eq.
Qed.

(** The head of the filter is a version of the greatest sequence number. *)
Lemma newest_head key seq es e :
  ik_sorted es -> head (filter (is_version key seq) es) = Some e ->
  e ∈ es /\ is_version key seq e /\ forall e', e' ∈ es -> is_version key seq e' -> (ik_seq e'.1 <= ik_seq e.1)%N.
Proof.
  induction 1 as [|x es Hs IH Hall]; [done|]. rewrite filter_cons. destruct (decide (is_version key seq x)) as [Hx|Hx].
  - intros [= <-]. split_and!; [set_solver|done|]. intros e' [->|He']%elem_of_cons Hv'; [done|].
    eapply Forall_forall in Hall; [|exact He']. unfold entry_lt, ik_lt, compareInternalKey in Hall.
    destruct Hx as [Hx _], Hv' as [Hv' _]. rewrite Hx, Hv', bcmp_refl in Hall.
    rewrite !ik_trailer_eq in Hall. pose proof (bval_bound (ik_kind x.1)). pose proof (bval_bound (ik_kind e'.1)).
    repeat case_match; bool_to_prop; try done; lia.
  - intros Hh. destruct (IH Hh) as (He & Hv & Hmax). split_and!; [set_solver|done|].
    intros e' [->|He']%elem_of_cons Hv'; [done|]. by apply Hmax.
Qed.

(** What [newest] promises. *)
Definition newest_spec (key : bytes) (seq : N) (es : list entry) (r : found) : Prop :=
  (r = Absent /\ forall e, e ∈ es -> ~ is_version key seq e) \/
  exists e, e ∈ es /\ is_version key seq e /\ r = entry_found e /\
    forall e', e' ∈ es -> is_version key seq e' -> (ik_seq e'.1 <= ik_seq e.1)%N.

Lemma newest_ok key seq es : ik_sorted es -> newest_spec key seq es (newest key seq es).
Proof.
  intros Hs. unfold newest. destruct (head _) as [e|] eqn:Hh; simpl.
  - right. exists e. destruct (newest_head _ _ _ _ Hs Hh) as (? & ? & ?). done.
  - left. split; [done|]. intros e He Hv. apply head_None in Hh.
    assert (e ∈ filter (is_version key seq) es) as Hf by (by apply list_elem_of_filter). rewrite Hh in Hf. set_solver.
Qed.

(** Only the versions of a key count. *)
Lemma newest_same key seq seq' es es' :
  ik_sorted es -> ik_sorted es' ->
  (forall e, e ∈ es /\ is_version key seq e <-> e ∈ es' /\ is_version key seq' e) -> newest key seq es = newest key seq' es'.
Proof.
  intros Hs Hs' Heq. unfold newest. do 2 f_equal.
  apply ik_sorted_unique; [eapply sorted_sublist; [apply sublist_filter|done]..|].
  intros e. rewrite !list_elem_of_filter. specialize (Heq e). tauto.
Qed.

Lemma newest_top key seq es e :
  ik_sorted es -> e ∈ es -> is_version key seq e ->
  (forall e', e' ∈ es -> is_version key seq e' -> e' <> e -> (ik_seq e'.1 < ik_seq e.1)%N) -> newest key seq es = entry_found e.
Proof.
  intros Hs He Hv Htop. unfold newest. destruct (head _) as [x|] eqn:Hh; simpl.
  - destruct (newest_head _ _ _ _ Hs Hh) as (Hx & Hvx & Hmax). destruct (decide (x = e)) as [->|Hne]; [done|].
    specialize (Htop x Hx Hvx Hne). specialize (Hmax e He Hv). lia.
  - apply head_None in Hh. assert (e ∈ filter (is_version key seq) es) as Hf by (by apply list_elem_of_filter).
    rewrite Hh in Hf. set_solver.
Qed.

(** ** Seeking *)

Definition seek_key (key : bytes) (seq : N) : bytes := makeInternalKey key seq kindPut.

Lemma lt_seek_key (e : entry) key seq :
  (seq < maxSeq)%N -> (bval (ik_kind e.1) <= 1)%N ->
  ik_lt e.1 (seek_key key seq) <-> bcmp (userKey e.1) key = Lt \/ userKey e.1 = key /\ (seq < ik_seq e.1)%N.
Proof.
  intros Hseq Hk. unfold ik_lt, compareInternalKey, seek_key. rewrite userKey_make, ik_trailer_make by done.
  rewrite trailer_eq by done. rewrite ik_trailer_eq. change (bval kindPut) with 1%N.
  destruct (bcmp (userKey e.1) key) eqn:Hb.
  - apply bcmp_eq in Hb. split.
    + intros H. right. split; [done|]. repeat case_match; bool_to_prop; try done; lia.
    + intros [|[_ Hlt]]; [done|]. rewrite (proj2 (N.ltb_lt _ _)); [done|]. lia.
  - split; [by left|done].
  - split; [done|]. intros [|[Hu _]]; [done|]. apply bcmp_eq in Hu. congruence.
Qed.

Lemma newest_seek key seq es :
  ik_sorted es -> kinds_ok es -> (seq < maxSeq)%N ->
  newest key seq es =
    match es !! first_ge (seek_key key seq) es with
    | Some e => if decide (userKey e.1 = key) then entry_found e else Absent
    | None => Absent
    end.
Proof.
  intros Hs Hk Hseq. unfold newest. induction Hs as [|x es Hs IH Hall]; [done|].
  inversion Hk as [|? ? Hkx Hk']; subst. rewrite filter_cons. cbn [first_ge].
  pose proof (lt_seek_key x key seq Hseq Hkx) as Hlt. destruct (decide (ik_lt x.1 _)) as [Hx|Hx].
  - rewrite decide_False; [by apply IH|]. intros [Hu Hv]. apply Hlt in Hx as [Hx|[_ Hx]]; [|lia].
    rewrite Hu, bcmp_refl in Hx. done.
  - cbn [lookup list_lookup]. destruct (decide (userKey x.1 = key)) as [Hu|Hu].
    + rewrite decide_True; [done|]. split; [done|]. destruct (N.le_gt_cases (ik_seq x.1) seq); [done|].
      exfalso. apply Hx, Hlt. by right.
    + rewrite decide_False by (by intros []). replace (filter (is_version key seq) es) with (@nil entry); [done|].
      symmetry. apply elem_of_nil_inv. intros e [[Hue _] He]%list_elem_of_filter.
      eapply Forall_forall in Hall; [|exact He]. unfold entry_lt, ik_lt, compareInternalKey in Hall. rewrite Hue in Hall.
      destruct (bcmp (userKey x.1) key) eqn:Hb; [by apply bcmp_eq in Hb| |done].
      apply Hx, Hlt. by left.
Qed.
