(* ===== verification/Skiplist.v ===== *)
(** * storage/skiplist.go: the list behind a memtable

    A node is a position in the list's store; position 0 is the head.  The
    pointers are atomic, so a reader takes one step per load and an insert
    publishes its node with one step per store; the sequential operations are
    those steps with nothing in between. *)

From stdpp Require Import base list sorting.
From S2P Require Import Prelude Codec Key Iter.

Definition maxHeight : nat := 12.
Definition branching : N := 4.

Record node := mkNode {
  nd_key : bytes;
  nd_value : bytes;
  nd_next : list (option nat);
}.

Record skiplist := mkSkip {
  sl_nodes : list node;
  sl_height : nat;
  sl_seed : N;
}.

Definition newSkiplist (seed : N) : skiplist :=
  mkSkip [mkNode [] [] (replicate maxHeight None)] 1 (if (seed =? 0)%N then 1 else seed).

(** ** Heights *)

Definition xorshift (s : N) : N :=
  let s := N.lxor s (u64 (N.shiftl s 13)) in
  let s := N.lxor s (N.shiftr s 7) in
  N.lxor s (u64 (N.shiftl s 17)).

(** [n] is how far the height may still grow. *)
Fixpoint random_loop (n h : nat) (seed : N) : nat * N :=
  match n with
  | O => (h, seed)
  | S n =>
      let seed := xorshift seed in
      if (seed mod branching =? 0)%N then random_loop n (S h) seed else (h, seed)
  end.

Definition randomHeight (seed : N) : nat * N := random_loop (maxHeight - 1) 1 seed.

(** ** Pointers *)

Definition node_at (s : skiplist) (x : nat) : go node :=
  match sl_nodes s !! x with Some n => Ret n | None => Panic end.

(** [x.next[level].Load()] *)
Definition load (s : skiplist) (x level : nat) : go (option nat) :=
  n ← node_at s x;
  match nd_next n !! level with Some p => Ret p | None => Panic end.

(** [x.next[level].Store(p)] *)
Definition store (x level : nat) (p : option nat) (s : skiplist) : go skiplist :=
  n ← node_at s x;
  if level <? length (nd_next n) then
    Ret (mkSkip (<[x := mkNode (nd_key n) (nd_value n) (<[level := p]> (nd_next n))]> (sl_nodes s)) (sl_height s) (sl_seed s))
  else Panic.

(** ** Searching, a load at a time *)

Inductive seeker :=
  | SeekAt (x level : nat)
  | SeekLast (x : nat)
  | SeekDone (r : option nat).

(** The outer loop goes down a level, or ends below level 0. *)
Definition seek_down (x level : nat) : seeker :=
  match level with O => SeekLast x | S level => SeekAt x level end.

Definition seek_start (s : skiplist) : seeker := seek_down 0 (sl_height s).

Definition seek_step (target : bytes) (s : skiplist) (r : seeker) : go seeker :=
  match r with
  | SeekAt x level =>
      next ← load s x level;
      match next with
      | None => Ret (seek_down x level)
      | Some i =>
          n ← node_at s i;
          lt ← key_lt (nd_key n) target;
          Ret (if (lt : bool) then SeekAt i level else seek_down x level)
      end
  | SeekLast x => r ← load s x 0; Ret (SeekDone r)
  | SeekDone r => Ret (SeekDone r)
  end.

(** Every load at a level moves on a node or goes down. *)
Fixpoint seek_run (fuel : nat) (target : bytes) (s : skiplist) (r : seeker) : go (option nat) :=
  match r, fuel with
  | SeekDone r, _ => Ret r
  | _, O => Panic
  | _, S fuel => r ← seek_step target s r; seek_run fuel target s r
  end.

Definition seek_fuel (s : skiplist) : nat := S (sl_height s * S (length (sl_nodes s))).

(** [seek] returns the first node with key >= target. *)
Definition seek (target : bytes) (s : skiplist) : go (option nat) :=
  seek_run (seek_fuel s) target s (seek_start s).

Definition first (s : skiplist) : go (option nat) := load s 0 0.

(** ** Inserting

    The search of [insert] keeps the node it leaves each level from. *)
Fixpoint walk (fuel : nat) (key : bytes) (s : skiplist) (level x : nat) : go nat :=
  next ← load s x level;
  match next with
  | None => Ret x
  | Some i =>
      n ← node_at s i;
      lt ← key_lt (nd_key n) key;
      if (lt : bool) then match fuel with O => Panic | S fuel => walk fuel key s level i end
      else Ret x
  end.

(** The entries of [prev] below [levels]. *)
Fixpoint find_prev (key : bytes) (s : skiplist) (levels x : nat) : go (list nat) :=
  match levels with
  | O => Ret []
  | S level =>
      x ← walk (length (sl_nodes s)) key s level x;
      prev ← find_prev key s level x;
      Ret (prev ++ [x])
  end.

(** An insert whose node [in_node] is linked below [in_level]. *)
Record inserting := mkInserting {
  in_prev : list nat;
  in_node : nat;
  in_height : nat;
  in_level : nat;
}.

Definition prev_at (prev : list nat) (level : nat) : go nat :=
  match prev !! level with Some x => Ret x | None => Panic end.

(** [n.next[level].Store(prev[level].next[level].Load())] for every level. *)
Fixpoint next_pointers (s : skiplist) (prev : list nat) (levels : nat) : go (list (option nat)) :=
  match levels with
  | O => Ret []
  | S level =>
      nexts ← next_pointers s prev level;
      x ← prev_at prev level;
      p ← load s x level;
      Ret (nexts ++ [p])
  end.

Definition insert_prepare (key value : bytes) (s : skiplist) : go (skiplist * inserting) :=
  prev ← find_prev key s (sl_height s) 0;
  let '(h, seed) := randomHeight (sl_seed s) in
  let prev := prev ++ replicate (h - sl_height s) 0 in
  let s := mkSkip (sl_nodes s) (if sl_height s <? h then h else sl_height s) seed in
  nexts ← next_pointers s prev h;
  let n := length (sl_nodes s) in
  Ret (mkSkip (sl_nodes s ++ [mkNode key value nexts]) (sl_height s) (sl_seed s), mkInserting prev n h 0).

Definition insert_publish (s : skiplist) (w : inserting) : go (skiplist * inserting) :=
  x ← prev_at (in_prev w) (in_level w);
  s ← store x (in_level w) (Some (in_node w)) s;
  Ret (s, mkInserting (in_prev w) (in_node w) (in_height w) (S (in_level w))).

(** [n] stores are left. *)
Fixpoint publish_all (n : nat) (s : skiplist) (w : inserting) : go skiplist :=
  match n with
  | O => Ret s
  | S n => '(s, w) ← insert_publish s w; publish_all n s w
  end.

Definition insert (key value : bytes) (s : skiplist) : go skiplist :=
  '(s, w) ← insert_prepare key value s;
  publish_all (in_height w) s w.

(** ** Iterating *)

Record skiplistIter := mkSkipIter { si_list : skiplist; si_cur : option nat }.

Definition si_node (it : skiplistIter) : go node :=
  match si_cur it with Some x => node_at (si_list it) x | None => Panic end.

#[global] Instance skip_InternalIter : InternalIter skiplistIter := {
  it_seekToFirst it := cur ← first (si_list it); Ret (mkSkipIter (si_list it) cur);
  it_seek key it := cur ← seek key (si_list it); Ret (mkSkipIter (si_list it) cur);
  it_valid it := bool_decide (si_cur it <> None);
  it_next it := match si_cur it with
                | Some x => cur ← load (si_list it) x 0; Ret (mkSkipIter (si_list it) cur)
                | None => Panic
                end;
  it_key it := n ← si_node it; Ret (nd_key n);
  it_value it := n ← si_node it; Ret (nd_value n);
  it_close it := (it, None);
}.
