(* ===== verification/SkipProofs.v ===== *)
(** * The skip list is a sorted list

    Every level is a chain of nodes in key order.  The chains are described by
    the nodes in order, linked or not, and by which of them are on which
    level; the description covers the moments in the middle of an insert too.
    Sequentially, [seek] finds the first key at or above its target and
    [insert] puts an entry in its place. *)

From stdpp Require Import base list sorting.
From S2P Require Import Prelude Codec Key Iter Skiplist.

(** ** Chains *)

Definition nxt (s : skiplist) (level x : nat) : option (option nat) :=
  n ← sl_nodes s !! x; nd_next n !! level.

Definition key_of (s : skiplist) (x : nat) : bytes := from_option nd_key [] (sl_nodes s !! x).
Definition val_of (s : skiplist) (x : nat) : bytes := from_option nd_value [] (sl_nodes s !! x).

Lemma load_nxt s x level p : nxt s level x = Some p -> load s x level = Ret p.
Proof.
  unfold nxt, load, node_at. destruct (sl_nodes s !! x) as [n|]; simpl; [|done]. by intros ->.
Qed.

Inductive path (f : nat -> option (option nat)) : option nat -> list nat -> Prop :=
  | path_nil : path f None []
  | path_cons i o ids : f i = Some o -> path f o ids -> path f (Some i) (i :: ids).

Lemma path_head f o ids : path f o ids -> o = head ids.
Proof. by destruct 1. Qed.

Lemma path_split f o l1 x l2 : path f o (l1 ++ x :: l2) -> f x = Some (head l2) /\ path f (head l2) l2.
Proof.
  revert o. induction l1 as [|y l1 IH]; intros o Hp; inversion Hp as [|? o' ? Hf Hp']; subst.
  - by rewrite <-(path_head _ _ _ Hp').
  - by eapply IH.
Qed.

Lemma path_ext f g o ids : path f o ids -> (forall i, i ∈ ids -> g i = f i) -> path g o ids.
Proof.
  induction 1 as [|i o ids Hf Hp IH]; intros Hg; [constructor|].
  econstructor; [rewrite Hg; [done|set_solver]|apply IH; set_solver].
Qed.

(** Linking [n] behind [l1]. *)
Lemma path_insert f g o x l1 l2 n :
  path f o (l1 ++ l2) -> x = default 0 (last l1) -> 0 ∉ l1 ++ l2 -> NoDup (l1 ++ n :: l2) ->
  f n = Some (head l2) -> g x = Some (Some n) -> (forall i, i <> x -> g i = f i) -> n <> x ->
  path g (if decide (l1 = []) then Some n else o) (l1 ++ n :: l2).
Proof.
  intros Hp Hx H0 Hnd Hn Hgx Hg Hnx.
  assert (forall l, (forall i, i ∈ l -> i <> x) -> forall o, path f o l -> path g o l) as Hsame.
  { intros l Hl o' Hp'. eapply path_ext; [done|]. intros i Hi. by apply Hg, Hl. }
  assert (path f (head l2) l2 -> x ∉ l2 -> path g (Some n) (n :: l2)) as Htail.
  { intros Hp2 Hx2. econstructor; [by rewrite Hg|]. apply Hsame; [|done]. intros i Hi ->. done. }
  destruct l1 as [|y l1 _] using rev_ind; [simpl in *|].
  - subst x. rewrite (path_head _ _ _ Hp) in Hp. by apply Htail.
  - rewrite decide_False by (by destruct l1). rewrite last_snoc in Hx. simpl in Hx. subst y.
    rewrite <-!app_assoc in *. simpl in *. destruct (path_split _ _ _ _ _ Hp) as [Hfx Hp2].
    assert (x ∉ l2) as Hx2 by (apply NoDup_app in Hnd as (_ & _ & Hnd); apply NoDup_cons in Hnd; set_solver).
    assert (x ∉ l1) as Hx1 by (apply NoDup_app in Hnd as (_ & Hd & _); intros Hi; apply (Hd x Hi); set_solver).
    clear -Hp Hgx Hg Htail Hp2 Hx2 Hx1. revert o Hp. induction l1 as [|z l1 IH]; intros o Hp;
      inversion Hp as [|? o' ? Hf Hp']; subst; simpl.
    + econstructor; [done|by apply Htail].
    + econstructor; [rewrite Hg; [done|set_solver]|]. apply IH; [set_solver|done].
Qed.

(** ** The description *)

Abbreviation on_level on l := (fun i => on l i = true).

Record rep (s : skiplist) (on : nat -> nat -> bool) (ids : list nat) : Prop := {
  rp_path l : l < maxHeight -> exists o, nxt s l 0 = Some o /\ path (nxt s l) o (filter (on_level on l) ids);
  rp_nodes i : i ∈ ids -> is_Some (sl_nodes s !! i) /\ ikey_wf (key_of s i);
  rp_sorted : StronglySorted (fun a b => ik_lt (key_of s a) (key_of s b)) ids;
  rp_zero : 0 ∉ ids;
  rp_mono l i : on (S l) i = true -> on l i = true;
  rp_height l i : i ∈ ids -> on l i = true -> l < sl_height s;
  rp_bounds : 1 <= sl_height s <= maxHeight;
}.

Definition entries (s : skiplist) (on : nat -> nat -> bool) (ids : list nat) : list entry :=
  (fun i => (key_of s i, val_of s i)) <$> filter (on_level on 0) ids.

Lemma rep_nodup s on ids : rep s on ids -> NoDup ids.
Proof.
  intros [_ _ Hs _ _ _ _]. induction Hs as [|i ids Hs IH Hall]; constructor; [|done].
  intros Hi. eapply Forall_forall in Hall; [|exact Hi]. exact (irreflexivity ik_lt _ Hall).
Qed.

Lemma rep_length s on ids : rep s on ids -> length ids <= length (sl_nodes s).
Proof.
  intros Hr. rewrite <-(length_seq (length (sl_nodes s)) 0). apply submseteq_length, NoDup_submseteq; [by eapply rep_nodup|].
  intros i Hi. apply elem_of_seq. destruct (rp_nodes _ _ _ Hr i Hi) as [[n Hn] _]. apply lookup_lt_Some in Hn. lia.
Qed.

(** The nodes below a target and the others. *)
Definition low (s : skiplist) (t : bytes) (i : nat) : Prop := ik_lt (key_of s i) t.

#[global] Instance low_dec s t i : Decision (low s t i).
Proof. unfold low. apply _. Defined.

Lemma split_low s on ids t :
  rep s on ids -> exists L R, ids = L ++ R /\ Forall (low s t) L /\ Forall (fun i => ~ low s t i) R.
Proof.
  intros [_ _ Hs _ _ _ _]. induction Hs as [|i ids Hs (L & R & -> & HL & HR) Hall]; [by exists [], []|].
  destruct (decide (ik_lt (key_of s i) t)) as [Hi|Hi].
  - exists (i :: L), R. split_and!; [done|by constructor|done].
  - exists [], (i :: L ++ R). split_and!; [done|constructor|]. constructor; [done|].
    eapply Forall_impl; [exact Hall|]. intros j Hj Hlow. apply Hi. exact (transitivity (R:=ik_lt) Hj Hlow).
Qed.

(** The last node of a level below the target. *)
Definition pred (on : nat -> nat -> bool) (L : list nat) (l : nat) : nat := default 0 (last (filter (on_level on l) L)).

(** [x] stands at the end of [A] on level [l]. *)
Definition stands (on : nat -> nat -> bool) (A : list nat) (l x : nat) : Prop :=
  A = [] /\ x = 0 \/ on l x = true /\ exists A', A = A' ++ [x].

Lemma stands_pred on A B l x : stands on A l x -> filter (on_level on l) B = [] -> x = pred on (A ++ B) l.
Proof.
  intros Hst HB. unfold pred. rewrite filter_app, HB, app_nil_r. destruct Hst as [[-> ->]|[Hx [A' ->]]]; [done|].
  rewrite filter_app, filter_cons_True by done. by rewrite last_app.
Qed.

Lemma filter_nil_or {A} (P : A -> Prop) `{!forall x, Decision (P x)} (l : list A) :
  filter P l = [] \/ exists l1 i l2, l = l1 ++ i :: l2 /\ filter P l1 = [] /\ P i.
Proof.
  induction l as [|x l IH]; [by left|]. destruct (decide (P x)) as [Hx|Hx].
  - right. by exists [], x, l.
  - rewrite filter_cons_False by done. destruct IH as [?|(l1 & i & l2 & -> & H1 & Hi)]; [by left|].
    right. exists (x :: l1), i, l2. by rewrite filter_cons_False.
Qed.

Lemma head_filter_in P `{!forall x, Decision (P x)} (l : list nat) i : head (filter P l) = Some i -> i ∈ l /\ P i.
Proof.
  intros Hh. destruct (filter P l) as [|j k] eqn:E; [done|]. injection Hh as ->.
  assert (i ∈ filter P l) as Hi by (rewrite E; set_solver). apply list_elem_of_filter in Hi. naive_solver.
Qed.

Section Search.
Context {s : skiplist} {on : nat -> nat -> bool} {ids L R : list nat} {t : bytes}.
Context (Hr : rep s on ids) (Hids : ids = L ++ R) (HL : Forall (low s t) L) (HR : Forall (fun i => ~ low s t i) R) (Ht : ikey_wf t).

Lemma stands_nxt A B l x :
  L = A ++ B -> stands on A l x -> l < maxHeight -> nxt s l x = Some (head (filter (on_level on l) (B ++ R))).
Proof.
  intros -> Hst Hl. destruct (rp_path _ _ _ Hr l Hl) as (o & H0 & Hp). rewrite Hids in Hp.
  destruct Hst as [[-> ->]|[Hx [A' ->]]].
  - rewrite H0. by rewrite (path_head _ _ _ Hp).
  - rewrite <-!app_assoc, filter_app in Hp. simpl in Hp. rewrite filter_cons_True in Hp by done.
    by apply path_split in Hp as [? _].
Qed.

Lemma node_of i : i ∈ ids -> exists n, node_at s i = Ret n /\ nd_key n = key_of s i /\ nd_value n = val_of s i /\ ikey_wf (key_of s i).
Proof.
  intros Hi. destruct (rp_nodes _ _ _ Hr i Hi) as [[n Hn] Hwf]. exists n. unfold node_at, key_of, val_of in *. by rewrite Hn in *.
Qed.

(** What the node behind [x] on a level is: the next node below the target,
    or none of them. *)
Lemma look_ahead A B l x :
  L = A ++ B -> stands on A l x -> l < maxHeight ->
  (filter (on_level on l) B = [] /\ nxt s l x = Some (head (filter (on_level on l) R)) /\
    forall i, head (filter (on_level on l) R) = Some i -> i ∈ ids /\ ~ low s t i) \/
  exists B1 i B2, B = B1 ++ i :: B2 /\ nxt s l x = Some (Some i) /\ i ∈ ids /\ low s t i /\
    stands on (A ++ B1 ++ [i]) l i /\ L = (A ++ B1 ++ [i]) ++ B2.
Proof.
  intros HAB Hst Hl. pose proof (stands_nxt _ _ _ _ HAB Hst Hl) as Hn. rewrite filter_app in Hn.
  destruct (filter_nil_or (on_level on l) B) as [HB|(B1 & i & B2 & -> & H1 & Hi)].
  - left. rewrite HB in Hn. split_and!; [done..|]. intros i [Hi _]%head_filter_in.
    split; [rewrite Hids; set_solver|by eapply Forall_forall in HR].
  - right. exists B1, i, B2. rewrite filter_app, H1, filter_cons_True in Hn by done.
    assert (i ∈ L) as HiL by (rewrite HAB; set_solver).
    split_and!; [done|done|rewrite Hids; set_solver|by eapply Forall_forall in HL| |].
    + right. split; [done|]. exists (A ++ B1). by rewrite app_assoc.
    + rewrite HAB, <-!app_assoc. done.
Qed.

Lemma look_key i : i ∈ ids -> exists n, node_at s i = Ret n /\ key_lt (nd_key n) t = Ret (bool_decide (low s t i)).
Proof.
  intros Hi. destruct (node_of i Hi) as (n & -> & Hk & _ & Hwf). exists n. split; [done|]. by rewrite Hk, key_lt_wf.
Qed.

Lemma stands_down A l x : stands on A (S l) x -> stands on A l x.
Proof. intros [?|[Hx HA]]; [by left|right]. split; [by eapply rp_mono|done]. Qed.

Lemma seek_run_ok fuel A B l x :
  L = A ++ B -> stands on A l x -> l < maxHeight -> l * S (length L) + length B + 2 <= fuel ->
  seek_run fuel t s (SeekAt x l) = Ret (head (filter (on_level on 0) R)).
Proof.
  revert A B l x. induction fuel as [|fuel IH]; intros A B l x HAB Hst Hl Hf; [lia|]. cbn [seek_run seek_step].
  assert (length L = length A + length B) as Hlen by (by rewrite HAB, length_app).
  destruct (look_ahead _ _ _ _ HAB Hst Hl) as [(HB & Hn & Hge)|(B1 & i & B2 & -> & Hn & Hi & Hlow & Hst' & HAB')];
    rewrite (load_nxt _ _ _ _ Hn); cbn [mbind go_bind].
  - assert (seek_run fuel t s (seek_down x l) = Ret (head (filter (on_level on 0) R))) as Hdown.
    { destruct l as [|l]; cbn [seek_down].
      - destruct fuel; [lia|]. cbn [seek_run seek_step]. rewrite (load_nxt _ _ _ _ Hn). by destruct fuel.
      - apply (IH A B); [done|by apply stands_down|lia|lia]. }
    destruct (head (filter (on_level on l) R)) as [i|] eqn:Hh; [|done]. destruct (Hge i eq_refl) as [Hi Hnl].
    destruct (look_key i Hi) as (n & -> & Hk). cbn [mbind go_bind]. rewrite Hk, bool_decide_false by done. done.
  - destruct (look_key i Hi) as (n & -> & Hk). cbn [mbind go_bind]. rewrite Hk, bool_decide_true by done. cbn [mbind go_bind].
    apply (IH (A ++ B1 ++ [i]) B2); [done|done|done|]. rewrite !length_app in *. simpl in *. lia.
Qed.

Lemma seek_ok : seek t s = Ret (head (filter (on_level on 0) R)).
Proof.
  pose proof (rp_bounds _ _ _ Hr) as [H1 H2]. pose proof (rep_length _ _ _ Hr) as Hlen. rewrite Hids, length_app in Hlen.
  unfold seek, seek_start, seek_fuel. destruct (sl_height s) as [|h]; [lia|]. cbn [seek_down].
  apply (seek_run_ok _ [] L); [done|by left|lia|]. nia.
Qed.

Lemma walk_ok fuel A B l x :
  L = A ++ B -> stands on A l x -> l < maxHeight -> length B <= fuel ->
  exists A' B', walk fuel t s l x = Ret (pred on L l) /\ L = A' ++ B' /\ stands on A' l (pred on L l).
Proof.
  revert A B x. induction fuel as [|fuel IH]; intros A B x HAB Hst Hl Hf; cbn [walk];
    (destruct (look_ahead _ _ _ _ HAB Hst Hl) as [(HB & Hn & Hge)|(B1 & i & B2 & -> & Hn & Hi & Hlow & Hst' & HAB')];
    rewrite (load_nxt _ _ _ _ Hn); cbn [mbind go_bind]).
  2: rewrite !length_app in *; simpl in *; lia.
  1,2: exists A, B; rewrite HAB, <-(stands_pred _ _ _ _ _ Hst HB); split; [|done];
    destruct (head (filter (on_level on l) R)) as [i|] eqn:Hh; [|done]; destruct (Hge i eq_refl) as [Hi Hnl];
    destruct (look_key i Hi) as (n & -> & Hk); cbn [mbind go_bind]; by rewrite Hk, bool_decide_false by done.
  destruct (look_key i Hi) as (n & -> & Hk). cbn [mbind go_bind]. rewrite Hk, bool_decide_true by done. cbn [mbind go_bind].
  apply (IH (A ++ B1 ++ [i]) B2); [done|done|done|]. rewrite !length_app in *. simpl in *. lia.
Qed.

Lemma find_prev_ok levels A B x :
  L = A ++ B -> (forall l, levels = S l -> stands on A l x) -> levels <= maxHeight ->
  exists prev, find_prev t s levels x = Ret prev /\ length prev = levels /\ forall l, l < levels -> prev !! l = Some (pred on L l).
Proof.
  revert A B x. induction levels as [|l IH]; intros A B x HAB Hst Hl; cbn [find_prev].
  - exists []. split_and!; [done..|]. intros; lia.
  - pose proof (rep_length _ _ _ Hr) as Hlen. rewrite Hids, HAB, !length_app in Hlen.
    destruct (walk_ok (length (sl_nodes s)) A B l x HAB (Hst l eq_refl)) as (A' & B' & -> & HAB' & Hst'); [lia..|].
    cbn [mbind go_bind]. destruct (IH A' B' (pred on L l) HAB') as (prev & -> & Hlp & Hp); [|lia|].
    { intros l' ->. by apply stands_down. }
    cbn [mbind go_bind]. eexists. split; [done|]. rewrite length_app. split; [simpl; lia|].
    intros l' Hl'. destruct (decide (l' = l)) as [->|Hne].
    + by rewrite <-Hlp, list_lookup_middle.
    + rewrite lookup_app_l by lia. apply Hp. lia.
Qed.
End Search.

(** ** Stores and new nodes *)

Lemma store_ok s x l p q :
  nxt s l x = Some q ->
  exists s', store x l p s = Ret s' /\
    (forall l' y, nxt s' l' y = if decide (l' = l /\ y = x) then Some p else nxt s l' y) /\
    (forall y, key_of s' y = key_of s y /\ val_of s' y = val_of s y) /\
    (forall y, is_Some (sl_nodes s' !! y) <-> is_Some (sl_nodes s !! y)) /\
    sl_height s' = sl_height s /\ length (sl_nodes s') = length (sl_nodes s).
Proof.
  unfold nxt, store, node_at, key_of, val_of. destruct (sl_nodes s !! x) as [n|] eqn:Hx; simpl; [|done]. intros Hq.
  pose proof (lookup_lt_Some _ _ _ Hq) as Hlt. pose proof (lookup_lt_Some _ _ _ Hx) as Hxl.
  rewrite (proj2 (Nat.ltb_lt _ _)) by done. eexists. split; [done|]. cbn [sl_nodes sl_height]. rewrite length_insert.
  assert (forall y, <[x:=mkNode (nd_key n) (nd_value n) (<[l:=p]> (nd_next n))]> (sl_nodes s) !! y =
    if decide (y = x) then Some (mkNode (nd_key n) (nd_value n) (<[l:=p]> (nd_next n))) else sl_nodes s !! y) as Hl.
  { intros y. destruct (decide (y = x)) as [->|Hne]; [by apply list_lookup_insert_eq|by apply list_lookup_insert_ne]. }
  split_and!; [| | |done|done].
  - intros l' y. rewrite Hl. destruct (decide (y = x)) as [->|Hne]; [|by rewrite decide_False by naive_solver].
    simpl. destruct (decide (l' = l)) as [->|Hnl].
    + rewrite decide_True by done. by apply list_lookup_insert_eq.
    + rewrite decide_False by naive_solver. rewrite list_lookup_insert_ne by done. by rewrite Hx.
  - intros y. rewrite Hl. destruct (decide (y = x)) as [->|Hne]; [by rewrite Hx|done].
  - intros y. rewrite Hl. destruct (decide (y = x)) as [->|Hne]; [by rewrite Hx|done].
Qed.

Lemma sorted_ext {A} (f g : A -> bytes) (l : list A) :
  (forall i, i ∈ l -> g i = f i) -> StronglySorted (fun a b => ik_lt (f a) (f b)) l ->
  StronglySorted (fun a b => ik_lt (g a) (g b)) l.
Proof.
  intros Hfg Hs. induction Hs as [|i l Hs IH Hall]; constructor; [apply IH; set_solver|].
  apply Forall_forall. intros j Hj. rewrite !Hfg by set_solver. by eapply Forall_forall in Hall.
Qed.

Lemma filter_on_ext (on on' : nat -> nat -> bool) l (ids : list nat) :
  (forall i, i ∈ ids -> on' l i = on l i) -> filter (on_level on' l) ids = filter (on_level on l) ids.
Proof.
  induction ids as [|i ids IH]; intros H; [done|]. rewrite !filter_cons, H by set_solver. rewrite IH by set_solver. done.
Qed.

Lemma pred_zero on (L : list nat) l : 0 ∉ L -> pred on L l = 0 <-> filter (on_level on l) L = [].
Proof.
  intros H0. unfold pred. split; [|by intros ->]. destruct (last _) as [x|] eqn:Hl; [|by rewrite last_None in Hl].
  simpl. intros ->. apply last_Some_elem_of, list_elem_of_filter in Hl. naive_solver.
Qed.

Lemma pred_nxt s on L R l :
  rep s on (L ++ R) -> l < maxHeight -> nxt s l (pred on L l) = Some (head (filter (on_level on l) R)).
Proof.
  intros Hr Hl. destruct (rp_path _ _ _ Hr l Hl) as (o & H0 & Hp). rewrite filter_app in Hp. unfold pred.
  destruct (filter (on_level on l) L) as [|x k _] using rev_ind.
  - simpl in *. by rewrite H0, (path_head _ _ _ Hp).
  - rewrite last_snoc. simpl. rewrite <-app_assoc in Hp. by apply path_split in Hp as [? _].
Qed.

(** ** Publishing a node *)

Record pub (s : skiplist) (on : nat -> nat -> bool) (L R : list nat) (w : inserting) : Prop := {
  pb_rep : rep s on (L ++ in_node w :: R);
  pb_on l : on l (in_node w) = (l <? in_level w);
  pb_prev l : l < in_height w -> in_prev w !! l = Some (pred on L l);
  pb_next l : in_level w <= l -> l < in_height w -> nxt s l (in_node w) = Some (head (filter (on_level on l) R));
  pb_height : in_level w <= in_height w <= sl_height s;
}.

(** The levels once one more is linked. *)
Definition on_more (n k : nat) (on : nat -> nat -> bool) (l i : nat) : bool := on l i || bool_decide (i = n /\ l = k).

Lemma on_more_other n k on l i : i <> n \/ l <> k -> on_more n k on l i = on l i.
Proof. intros H. unfold on_more. rewrite bool_decide_false by naive_solver. by rewrite orb_false_r. Qed.

Lemma filter_more n k on l (ids : list nat) :
  n ∉ ids -> filter (on_level (on_more n k on) l) ids = filter (on_level on l) ids.
Proof. intros Hn. apply filter_on_ext. intros i Hi. apply on_more_other. left. by intros ->. Qed.

Lemma nodup_middle {A} (L R : list A) n : NoDup (L ++ n :: R) -> (n ∉ L) /\ (n ∉ R).
Proof.
  intros Hnd. apply NoDup_app in Hnd as (_ & Hd & Hnd). apply NoDup_cons in Hnd as [Hn _]. split; [|done].
  intros Hi. apply (Hd n Hi). set_solver.
Qed.

Lemma nodup_filter_middle (P : nat -> Prop) `{!forall x, Decision (P x)} L R n :
  NoDup (L ++ n :: R) -> NoDup (filter P L ++ n :: filter P R).
Proof.
  intros Hnd. pose proof (nodup_middle _ _ _ Hnd) as [HnL HnR]. apply NoDup_app in Hnd as (HL & Hd & HR).
  apply NoDup_cons in HR as [_ HR]. apply NoDup_app. split_and!; [by apply NoDup_filter| |].
  - intros x [_ Hx]%list_elem_of_filter [->|[_ Hx']%list_elem_of_filter]%elem_of_cons; [done|]. apply (Hd x Hx). set_solver.
  - apply NoDup_cons. split; [|by apply NoDup_filter]. rewrite list_elem_of_filter. naive_solver.
Qed.

Section Link.
Context {s s' : skiplist} {on : nat -> nat -> bool} {L R : list nat} {n k : nat}.
Context (Hr : rep s on (L ++ n :: R)) (Hon : forall l, on l n = (l <? k)) (Hk : k < sl_height s).
Context (Hnext : nxt s k n = Some (head (filter (on_level on k) R))).
Context (Hnx : forall l y, nxt s' l y = if decide (l = k /\ y = pred on L k) then Some (Some n) else nxt s l y).
Context (Hkv : forall y, key_of s' y = key_of s y /\ val_of s' y = val_of s y).
Context (Hsome : forall y, is_Some (sl_nodes s' !! y) <-> is_Some (sl_nodes s !! y)) (Hsh : sl_height s' = sl_height s).

Lemma link_pred_ne : n <> pred on L k.
Proof.
  pose proof (rp_zero _ _ _ Hr) as H0. destruct (nodup_middle _ _ _ (rep_nodup _ _ _ Hr)) as [HnL _]. unfold pred.
  destruct (last _) as [y|] eqn:Hl; simpl; [|intros ->; set_solver]. intros ->.
  apply last_Some_elem_of, list_elem_of_filter in Hl. naive_solver.
Qed.

Lemma link_path :
  exists o, nxt s' k 0 = Some o /\ path (nxt s' k) o (filter (on_level (on_more n k on) k) (L ++ n :: R)).
Proof.
  pose proof (rp_bounds _ _ _ Hr). destruct (rp_path _ _ _ Hr k) as (o & Ho & Hp); [lia|].
  pose proof (rep_nodup _ _ _ Hr) as Hnd. destruct (nodup_middle _ _ _ Hnd) as [HnL HnR].
  pose proof (rp_zero _ _ _ Hr) as H0. pose proof (pred_zero on L k) as Hpz.
  rewrite filter_app, filter_cons_False in Hp by (rewrite Hon; by rewrite Nat.ltb_irrefl).
  exists (if decide (filter (on_level on k) L = []) then Some n else o). split.
  - rewrite Hnx. destruct (decide (filter (on_level on k) L = [])) as [He|He].
    + rewrite decide_True; [done|]. split; [done|]. symmetry. apply Hpz; [set_solver|done].
    + rewrite decide_False; [done|]. intros [_ Hx0]. apply He, Hpz; [set_solver|done].
  - rewrite filter_app, filter_more, filter_cons_True, filter_more by
      (done || (unfold on_more; rewrite bool_decide_true by done; by rewrite orb_true_r)).
    apply (path_insert (nxt s k) (nxt s' k) o (pred on L k)); [done|done| | |done| | |by apply link_pred_ne].
    + intros Hi. apply H0. apply elem_of_app in Hi as [Hi|Hi]; apply list_elem_of_filter in Hi; set_solver.
    + by apply nodup_filter_middle.
    + rewrite Hnx. by rewrite decide_True.
    + intros i Hi. rewrite Hnx. by rewrite decide_False by naive_solver.
Qed.

Lemma rep_link : rep s' (on_more n k on) (L ++ n :: R).
Proof.
  pose proof (link_path) as Hpath. destruct Hr. constructor; [| | |done| | |by rewrite Hsh].
  - intros l Hl. destruct (decide (l = k)) as [->|Hne]; [done|]. destruct (rp_path0 l Hl) as (o & Ho & Hp).
    exists o. split; [rewrite Hnx; by rewrite decide_False by naive_solver|].
    rewrite (filter_on_ext on) by (intros i _; apply on_more_other; by right).
    eapply path_ext; [done|]. intros i _. rewrite Hnx. by rewrite decide_False by naive_solver.
  - intros i Hi. rewrite Hsome, (proj1 (Hkv i)). by apply rp_nodes0.
  - eapply sorted_ext; [|done]. intros i _. apply Hkv.
  - intros l i. unfold on_more. rewrite !orb_true_iff, !bool_decide_eq_true. intros [Hi|[-> Hl]].
    + left. by apply rp_mono0.
    + left. rewrite Hon. apply Nat.ltb_lt. lia.
  - intros l i Hi. unfold on_more. rewrite orb_true_iff, bool_decide_eq_true, Hsh. intros [Hi'|[-> ->]]; [by eapply rp_height0|done].
Qed.
End Link.

Lemma publish_ok s on L R w :
  pub s on L R w -> in_level w < in_height w ->
  let w' := mkInserting (in_prev w) (in_node w) (in_height w) (S (in_level w)) in
  exists s', insert_publish s w = Ret (s', w') /\ pub s' (on_more (in_node w) (in_level w) on) L R w' /\
    (forall y, key_of s' y = key_of s y /\ val_of s' y = val_of s y).
Proof.
  intros [Hr Hon Hprev Hnext Hh] Hlt w'. pose proof (rp_bounds _ _ _ Hr) as Hb.
  pose proof (pred_nxt s on L _ (in_level w) Hr) as Hpn. rewrite filter_cons_False in Hpn by (rewrite Hon; by rewrite Nat.ltb_irrefl).
  destruct (store_ok s (pred on L (in_level w)) (in_level w) (Some (in_node w)) _ (Hpn ltac:(lia))) as (s' & Hst & Hnx & Hkv & Hsome & Hsh & Hlen).
  unfold insert_publish, prev_at. rewrite (Hprev (in_level w) Hlt). cbn [mbind go_bind]. rewrite Hst. exists s'. split; [done|].
  split; [|done]. destruct (nodup_middle _ _ _ (rep_nodup _ _ _ Hr)) as [HnL HnR].
  assert (nxt s (in_level w) (in_node w) = Some (head (filter (on_level on (in_level w)) R))) as Hn by (apply Hnext; lia).
  constructor; cbn [in_prev in_node in_height in_level w'].
  - apply (rep_link Hr); [done|lia|done..].
  - intros l. unfold on_more. rewrite Hon. destruct (Nat.ltb_spec l (in_level w)), (Nat.ltb_spec l (S (in_level w))); try lia; try done.
    + simpl. apply bool_decide_eq_true. split; [done|lia].
    + simpl. apply bool_decide_eq_false. lia.
  - intros l Hl. rewrite Hprev by done. unfold pred. by rewrite filter_more.
  - intros l Hl1 Hl2. rewrite filter_more by done. rewrite Hnx, decide_False by lia. apply Hnext; lia.
  - rewrite Hsh. lia.
Qed.

Lemma publish_all_ok m s on L R w :
  pub s on L R w -> in_height w = in_level w + m ->
  exists s' on' w', publish_all m s w = Ret s' /\ pub s' on' L R w' /\ in_node w' = in_node w /\ in_level w' = in_height w /\
    (forall l i, i <> in_node w -> on' l i = on l i) /\ (forall y, key_of s' y = key_of s y /\ val_of s' y = val_of s y).
Proof.
  revert s on w. induction m as [|m IH]; intros s on w Hp Hm; cbn [publish_all].
  - exists s, on, w. split_and!; try done. lia.
  - destruct (publish_ok _ _ _ _ _ Hp) as (s1 & -> & Hp1 & Hkv1); [lia|]. cbn [mbind go_bind].
    destruct (IH _ _ _ Hp1) as (s2 & on2 & w2 & -> & Hp2 & Hn & Hl & Hon & Hkv2); [simpl; lia|].
    exists s2, on2, w2. split_and!; try done.
    + intros l i Hi. rewrite Hon by done. by apply on_more_other; left.
    + intros y. destruct (Hkv1 y) as [<- <-]. apply Hkv2.
Qed.

(** ** Preparing an insert *)

Lemma random_loop_bound n h seed : h <= (random_loop n h seed).1 <= h + n.
Proof.
  revert h seed. induction n as [|n IH]; intros h seed; cbn [random_loop]; [simpl; lia|].
  destruct (_ =? _)%N; [|simpl; lia]. specialize (IH (S h) (xorshift seed)). lia.
Qed.

Lemma randomHeight_bound seed : 1 <= (randomHeight seed).1 <= maxHeight.
Proof. unfold randomHeight. pose proof (random_loop_bound (maxHeight - 1) 1 seed). unfold maxHeight in *. lia. Qed.

Lemma next_pointers_ok s on L R prev h :
  rep s on (L ++ R) -> h <= maxHeight -> (forall l, l < h -> prev !! l = Some (pred on L l)) ->
  exists nexts, next_pointers s prev h = Ret nexts /\ length nexts = h /\
    forall l, l < h -> nexts !! l = Some (head (filter (on_level on l) R)).
Proof.
  intros Hr. induction h as [|h IH]; intros Hh Hp; cbn [next_pointers].
  - exists []. split_and!; [done..|]. intros; lia.
  - destruct IH as (nexts & -> & Hl & Hn); [lia|intros; apply Hp; lia|]. cbn [mbind go_bind].
    unfold prev_at. rewrite (Hp h) by lia. cbn [mbind go_bind].
    rewrite (load_nxt _ _ _ _ (pred_nxt _ _ _ _ h Hr ltac:(lia))). cbn [mbind go_bind].
    eexists. split; [done|]. rewrite length_app. split; [simpl; lia|]. intros l Hl'. destruct (decide (l = h)) as [->|Hne].
    + by rewrite <-Hl, list_lookup_middle.
    + rewrite lookup_app_l by lia. apply Hn. lia.
Qed.

Definition with_node (nd : node) (h : nat) (seed : N) (s : skiplist) : skiplist := mkSkip (sl_nodes s ++ [nd]) h seed.

Lemma with_node_old nd h seed s i : i < length (sl_nodes s) ->
  sl_nodes (with_node nd h seed s) !! i = sl_nodes s !! i.
Proof. intros. unfold with_node. simpl. by rewrite lookup_app_l. Qed.

Lemma with_node_new nd h seed s : sl_nodes (with_node nd h seed s) !! length (sl_nodes s) = Some nd.
Proof. unfold with_node. simpl. by rewrite list_lookup_middle. Qed.

(** A node no level leads to yet. *)
Lemma rep_with_node s on L R nd h seed key :
  rep s on (L ++ R) -> Forall (low s key) L -> Forall (fun i => ~ low s key i) R -> (forall i, i ∈ L ++ R -> key_of s i <> key) ->
  ikey_wf key -> nd_key nd = key -> sl_height s <= h <= maxHeight ->
  let n := length (sl_nodes s) in
  rep (with_node nd h seed s) (fun l i => on l i && negb (i =? n)) (L ++ n :: R) /\
  (forall i, i ∈ L ++ R -> key_of (with_node nd h seed s) i = key_of s i /\ val_of (with_node nd h seed s) i = val_of s i).
Proof.
  intros Hr HL HR Hne Hwf Hkey Hh n. set (s1 := with_node nd h seed s).
  assert (sl_nodes s1 !! n = Some nd) as Hnew by apply with_node_new.
  assert (forall i, i ∈ L ++ R -> i < n) as Hlt.
  { intros i Hi. destruct (rp_nodes _ _ _ Hr i Hi) as [[x Hx] _]. by eapply lookup_lt_Some. }
  assert (forall i, i ∈ L ++ R -> key_of s1 i = key_of s i /\ val_of s1 i = val_of s i) as Hkv.
  { intros i Hi. unfold key_of, val_of, s1. by rewrite with_node_old by (by apply Hlt). }
  assert (key_of s1 n = key) as Hkn by (unfold key_of; by rewrite Hnew).
  assert (forall l, filter (on_level (fun l i => on l i && negb (i =? n)) l) (L ++ n :: R) = filter (on_level on l) (L ++ R)) as Hf.
  { intros l. rewrite !filter_app, filter_cons_False by (rewrite Nat.eqb_refl; by rewrite andb_false_r).
    f_equal; apply (filter_on_ext on (fun l i => on l i && negb (i =? n))); intros i Hi; assert (i < n) by (apply Hlt; set_solver);
      rewrite (proj2 (Nat.eqb_neq _ _)) by lia; by rewrite andb_true_r. }
  split; [|done]. constructor.
  - intros l Hl. rewrite Hf. destruct (rp_path _ _ _ Hr l Hl) as (o & Ho & Hp).
    assert (forall y, y < n -> nxt s1 l y = nxt s l y) as Hnx by (intros y Hy; unfold nxt, s1; by rewrite with_node_old).
    exists o. split.
    + rewrite Hnx; [done|]. unfold nxt in Ho. destruct (sl_nodes s !! 0) eqn:E; [|done]. by eapply lookup_lt_Some.
    + eapply path_ext; [done|]. intros i Hi. apply Hnx, Hlt. by apply list_elem_of_filter in Hi as [_ ?].
  - intros i Hi. destruct (decide (i = n)) as [->|Hin].
    + split; [by rewrite Hnew|]. by rewrite Hkn.
    + assert (i ∈ L ++ R) as Hi' by set_solver. rewrite (proj1 (Hkv i Hi')). unfold s1. rewrite with_node_old by (by apply Hlt).
      by apply (rp_nodes _ _ _ Hr).
  - pose proof (rp_sorted _ _ _ Hr) as Hs. apply (sorted_ext _ (key_of s1)) in Hs; [|intros i Hi; by apply Hkv].
    apply StronglySorted_app in Hs as (Hx & HsL & HsR). apply StronglySorted_app. split_and!; [|done|].
    + intros a b Ha [->|Hb]%elem_of_cons; [|by apply Hx]. rewrite Hkn, (proj1 (Hkv a ltac:(set_solver))).
      by eapply Forall_forall in HL.
    + constructor; [done|]. apply Forall_forall. intros b Hb. rewrite Hkn, (proj1 (Hkv b ltac:(set_solver))).
      eapply Forall_forall in HR; [|done]. unfold low in HR. apply ik_not_lt in HR.
      destruct (compareInternalKey key (key_of s b)) eqn:E; [|done|by unfold ik_le in HR].
      apply compareInternalKey_eq in E; [|done|by apply (rp_nodes _ _ _ Hr); set_solver].
      exfalso. apply (Hne b); [set_solver|done].
  - pose proof (rp_zero _ _ _ Hr). destruct (rp_path _ _ _ Hr 0) as (o & Ho & _); [unfold maxHeight; lia|].
    unfold nxt in Ho. destruct (sl_nodes s !! 0) eqn:E; [|done]. apply lookup_lt_Some in E. unfold n. set_unfold. naive_solver lia.
  - intros l i [Ho Hi]%andb_true_iff. apply andb_true_iff. split; [by apply (rp_mono _ _ _ Hr)|done].
  - intros l i Hi [Ho Hin]%andb_true_iff. bool_to_prop. assert (i ∈ L ++ R) as Hi' by set_solver.
    pose proof (rp_height _ _ _ Hr l i Hi' Ho). simpl. lia.
  - pose proof (rp_bounds _ _ _ Hr). simpl. lia.
Qed.

Lemma rep_raise s on ids h seed :
  rep s on ids -> sl_height s <= h <= maxHeight -> rep (mkSkip (sl_nodes s) h seed) on ids.
Proof.
  intros [] Hh. constructor; try done; [|simpl; lia]. intros l i Hi Ho. pose proof (rp_height0 l i Hi Ho). simpl. lia.
Qed.

Lemma pred_above s on L R l : rep s on (L ++ R) -> sl_height s <= l -> pred on L l = 0.
Proof.
  intros Hr Hl. apply pred_zero; [pose proof (rp_zero _ _ _ Hr); set_solver|]. apply elem_of_nil_inv.
  intros i [Ho Hi]%list_elem_of_filter. pose proof (rp_height _ _ _ Hr l i ltac:(set_solver) Ho). lia.
Qed.

Lemma prepare_ok s on L R key value :
  rep s on (L ++ R) -> Forall (low s key) L -> Forall (fun i => ~ low s key i) R ->
  (forall i, i ∈ L ++ R -> key_of s i <> key) -> ikey_wf key ->
  let n := length (sl_nodes s) in
  exists s1 w, insert_prepare key value s = Ret (s1, w) /\ pub s1 (fun l i => on l i && negb (i =? n)) L R w /\
    in_node w = n /\ in_level w = 0 /\ 1 <= in_height w /\ key_of s1 n = key /\ val_of s1 n = value /\
    (forall i, i ∈ L ++ R -> key_of s1 i = key_of s i /\ val_of s1 i = val_of s i).
Proof.
  intros Hr HL HR Hne Hwf n. pose proof (rp_bounds _ _ _ Hr) as Hb. unfold insert_prepare.
  destruct (find_prev_ok Hr eq_refl HL HR Hwf (sl_height s) [] L 0 eq_refl) as (prev & -> & Hlp & Hprev); [by left|lia|].
  cbn [mbind go_bind]. pose proof (randomHeight_bound (sl_seed s)) as Hrh.
  destruct (randomHeight (sl_seed s)) as [h seed]. simpl in Hrh.
  set (h' := if sl_height s <? h then h else sl_height s).
  assert (sl_height s <= h' <= maxHeight /\ h <= h') as [Hh' Hhh] by (unfold h'; destruct (Nat.ltb_spec (sl_height s) h); lia).
  set (prev' := prev ++ replicate (h - sl_height s) 0).
  assert (forall l, l < h -> prev' !! l = Some (pred on L l)) as Hprev'.
  { intros l Hl. unfold prev'. destruct (decide (l < sl_height s)) as [Hlt|Hge].
    - rewrite lookup_app_l by lia. by apply Hprev.
    - rewrite lookup_app_r, lookup_replicate_2 by lia. rewrite (pred_above _ _ _ _ _ Hr); [done|lia]. }
  destruct (next_pointers_ok (mkSkip (sl_nodes s) h' seed) on L R prev' h) as (nexts & -> & Hln & Hnexts);
    [by apply rep_raise|lia|done|]. cbn [mbind go_bind sl_nodes sl_height sl_seed].
  set (nd := mkNode key value nexts). fold (with_node nd h' seed s). fold n.
  destruct (rep_with_node s on L R nd h' seed key Hr HL HR Hne Hwf eq_refl Hh') as [Hr1 Hkv]. fold n in Hr1.
  assert (sl_nodes (with_node nd h' seed s) !! n = Some nd) as Hnew by apply with_node_new.
  destruct (nodup_middle _ _ _ (rep_nodup _ _ _ Hr1)) as [HnL HnR].
  assert (forall l (ids : list nat), n ∉ ids -> filter (on_level (fun l i => on l i && negb (i =? n)) l) ids = filter (on_level on l) ids) as Hf.
  { intros l ids Hn. apply (filter_on_ext on (fun l i => on l i && negb (i =? n))). intros i Hi.
    rewrite (proj2 (Nat.eqb_neq _ _)) by (by intros ->). by rewrite andb_true_r. }
  eexists _, _. split; [done|]. cbn [in_node in_level in_height]. split_and!; [|done|done|lia| | |done].
  2,3: unfold key_of, val_of; by rewrite Hnew.
  constructor; cbn [in_prev in_node in_height in_level]; [done| | | |simpl; lia].
  - intros l. rewrite Nat.eqb_refl. by rewrite andb_false_r.
  - intros l Hl. rewrite Hprev' by done. unfold pred. by rewrite Hf.
  - intros l _ Hl. unfold nxt. rewrite Hnew. simpl. by rewrite Hnexts, Hf.
Qed.

(** ** The sequential list *)

(** Every node is linked, and they hold [es]. *)
Definition holds (s : skiplist) (es : list entry) : Prop :=
  exists on ids, rep s on ids /\ (forall i, i ∈ ids -> on 0 i = true) /\ es = (fun i => (key_of s i, val_of s i)) <$> ids.

Lemma holds_sorted s es : holds s es -> ik_sorted es /\ keys_wf es.
Proof.
  intros (on & ids & Hr & _ & ->). split.
  - pose proof (rp_sorted _ _ _ Hr) as Hs. clear Hr. induction Hs as [|i ids Hs IH Hall]; constructor; [done|].
    apply Forall_forall. intros e (j & -> & Hj)%list_elem_of_fmap. by eapply Forall_forall in Hall.
  - apply Forall_forall. intros e (j & -> & Hj)%list_elem_of_fmap. by apply (rp_nodes _ _ _ Hr).
Qed.

Lemma new_holds seed : holds (newSkiplist seed) [].
Proof.
  exists (fun _ _ => false), []. split_and!; [|set_solver|done]. constructor; try done; try set_solver.
  - intros l Hl. exists None. split; [|constructor]. by apply (lookup_replicate_2 maxHeight).
  - constructor.
  - simpl. unfold maxHeight. lia.
Qed.

(** The entry in its place. *)
Definition insert_entry (e : entry) (es : list entry) : list entry :=
  take (first_ge e.1 es) es ++ e :: drop (first_ge e.1 es) es.

Lemma first_ge_split t (l1 l2 : list entry) :
  Forall (fun e => ik_lt e.1 t) l1 -> Forall (fun e => ~ ik_lt e.1 t) l2 -> first_ge t (l1 ++ l2) = length l1.
Proof.
  induction 1 as [|e l1 He _ IH]; intros H2; simpl.
  - destruct H2 as [|e l2 He _]; simpl; [done|]. by rewrite decide_False.
  - rewrite decide_True by done. by rewrite IH.
Qed.

Lemma insert_holds key value s es :
  holds s es -> ikey_wf key -> (forall e, e ∈ es -> e.1 <> key) ->
  exists s', insert key value s = Ret s' /\ holds s' (insert_entry (key, value) es).
Proof.
  intros (on & ids & Hr & Hall & ->) Hwf Hne. destruct (split_low s on ids key Hr) as (L & R & -> & HL & HR).
  destruct (prepare_ok s on L R key value Hr HL HR) as (s1 & w & Hp & Hpub & Hn & Hl0 & Hh & Hk & Hv & Hkv); [|done|].
  { intros i Hi. apply (Hne (key_of s i, val_of s i)). apply list_elem_of_fmap. by exists i. }
  unfold insert. rewrite Hp. cbn [mbind go_bind].
  destruct (publish_all_ok (in_height w) _ _ _ _ _ Hpub) as (s2 & on2 & w2 & -> & Hpub2 & Hn2 & Hl2 & Hon2 & Hkv2); [lia|].
  exists s2. split; [done|]. destruct Hpub2 as [Hr2 Hon _ _ _]. rewrite Hn2, Hn in Hr2, Hon.
  exists on2, (L ++ length (sl_nodes s) :: R). split; [done|].
  assert (forall i, i ∈ L ++ R -> key_of s2 i = key_of s i /\ val_of s2 i = val_of s i) as Hold.
  { intros i Hi. destruct (Hkv2 i) as [-> ->]. by apply Hkv. }
  assert (forall l, l ⊆ L ++ R -> (fun i => (key_of s2 i, val_of s2 i)) <$> l = (fun i => (key_of s i, val_of s i)) <$> l) as Hmap.
  { intros l Hl. apply list_fmap_ext. intros j i Hi. destruct (Hold i) as [-> ->]; [|done].
    apply Hl. by eapply list_elem_of_lookup_2. }
  split.
  - intros i Hi. destruct (decide (i = length (sl_nodes s))) as [->|Hin].
    + rewrite Hon, Hl2. apply Nat.ltb_lt. lia.
    + rewrite Hon2 by (by rewrite Hn). rewrite Hall by set_solver. by rewrite (proj2 (Nat.eqb_neq _ _)).
  - unfold insert_entry. cbn [fst]. rewrite fmap_app, first_ge_split.
    + rewrite take_app_length, drop_app_length, fmap_app, fmap_cons. rewrite !Hmap by set_solver.
      destruct (Hkv2 (length (sl_nodes s))) as [-> ->]. by rewrite Hk, Hv.
    + apply Forall_fmap. eapply Forall_impl; [exact HL|]. done.
    + apply Forall_fmap. eapply Forall_impl; [exact HR|]. done.
Qed.

(** ** The iterator *)

Definition skip_at (it : skiplistIter) (es : list entry) (p : nat) : Prop :=
  exists on ids, rep (si_list it) on ids /\ (forall i, i ∈ ids -> on 0 i = true) /\
    es = (fun i => (key_of (si_list it) i, val_of (si_list it) i)) <$> ids /\ p <= length ids /\ si_cur it = ids !! p.

Lemma filter_all_on on (ids : list nat) : (forall i, i ∈ ids -> on 0 i = true) -> filter (on_level on 0) ids = ids.
Proof.
  intros H. apply filter_all. by apply Forall_forall.
Qed.

Lemma head_drop {A} (l : list A) p : head (drop p l) = l !! p.
Proof. revert p. induction l as [|x l IH]; intros [|p]; simpl; try done. Qed.

Lemma skip_next_ptr s on ids p x :
  rep s on ids -> (forall i, i ∈ ids -> on 0 i = true) -> ids !! p = Some x -> load s x 0 = Ret (ids !! S p).
Proof.
  intros Hr Hall Hx. apply load_nxt. destruct (rp_path _ _ _ Hr 0) as (o & _ & Hp); [unfold maxHeight; lia|].
  rewrite filter_all_on in Hp by done. rewrite <-(take_drop_middle _ _ _ Hx) in Hp. apply path_split in Hp as [-> _].
  by rewrite head_drop.
Qed.

Lemma skip_seek s on ids t :
  rep s on ids -> (forall i, i ∈ ids -> on 0 i = true) -> ikey_wf t ->
  seek t s = Ret (ids !! first_ge t ((fun i => (key_of s i, val_of s i)) <$> ids)).
Proof.
  intros Hr Hall Ht. destruct (split_low s on ids t Hr) as (L & R & -> & HL & HR).
  rewrite (seek_ok Hr eq_refl HL HR Ht), fmap_app, first_ge_split.
  - rewrite length_fmap, lookup_app_r, Nat.sub_diag by lia. rewrite filter_all_on by set_solver. by destruct R.
  - apply Forall_fmap. eapply Forall_impl; [exact HL|]. done.
  - apply Forall_fmap. eapply Forall_impl; [exact HR|]. done.
Qed.

#[global] Instance skip_InternalIterOK : InternalIterOK skiplistIter.
Proof.
  refine {| it_over it es := holds (si_list it) es; it_at := skip_at |}; simpl.
  - intros it es p (on & ids & Hr & Hall & -> & _). by exists on, ids.
  - intros it es. apply holds_sorted.
  - intros it es (on & ids & Hr & Hall & ->). destruct (rp_path _ _ _ Hr 0) as (o & Ho & Hp); [unfold maxHeight; lia|].
    rewrite filter_all_on in Hp by done. unfold first. rewrite (load_nxt _ _ _ _ Ho). cbn [mbind go_bind].
    eexists. split; [done|]. exists on, ids. split_and!; try done; [simpl; lia|]. simpl. rewrite (path_head _ _ _ Hp). by destruct ids.
  - intros t it es (on & ids & Hr & Hall & ->) Ht. rewrite (skip_seek _ _ _ _ Hr Hall Ht). cbn [mbind go_bind].
    eexists. split; [done|]. exists on, ids. split_and!; try done.
    rewrite <-(length_fmap (fun i => (key_of (si_list it) i, val_of (si_list it) i)) ids). apply first_ge_le.
  - intros it es p (on & ids & Hr & Hall & -> & Hp & ->). rewrite length_fmap. destruct (ids !! p) eqn:Hx.
    + rewrite bool_decide_true by done. symmetry. apply Nat.ltb_lt. by eapply lookup_lt_Some.
    + rewrite bool_decide_false by (intros H; by apply H). symmetry. apply Nat.ltb_ge. by apply lookup_ge_None.
  - intros it es p (on & ids & Hr & Hall & -> & Hp & ->) Hlt. rewrite length_fmap in Hlt.
    destruct (lookup_lt_is_Some_2 ids p Hlt) as [x Hx]. rewrite Hx, (skip_next_ptr _ _ _ _ _ Hr Hall Hx). cbn [mbind go_bind].
    eexists. split; [done|]. exists on, ids. split_and!; try done.
  - intros it es p e (on & ids & Hr & Hall & -> & Hp & Hc) He. rewrite list_lookup_fmap in He.
    destruct (ids !! p) as [x|] eqn:Hx; [|done]. injection He as <-. unfold si_node. rewrite Hc.
    destruct (node_of Hr x) as (n & -> & Hk & Hv & _); [by eapply list_elem_of_lookup_2|]. simpl. by rewrite Hk, Hv.
  - done.
Defined.
