(* ===== verification/Memtable.v ===== *)
(** * storage/memtable.go: the mutable tier

    Writes go to the skip list under internal keys; a lookup finds the newest
    version at or below a sequence number. *)

From stdpp Require Import base list sorting.
From S2P Require Import Prelude Codec Key Iter Versions Skiplist SkipProofs.

Record memtable := mkMem {
  mt_list : skiplist;
  mt_seg : N;
  mt_size : Z;
  mt_maxSeq : N;
}.

Definition newMemtable (seed seg : N) : memtable := mkMem (newSkiplist seed) seg 0 0.

Definition mem_put (seq : N) (kind : keyKind) (key value : bytes) (m : memtable) : go memtable :=
  let ik := makeInternalKey key seq kind in
  let v := if decide (kind = kindPut) then value else [] in
  list ← insert ik v (mt_list m);
  Ret (mkMem list (mt_seg m) (wrap_int (mt_size m + Z.of_nat (length ik + length v + 64)))
         (if (mt_maxSeq m <? seq)%N then seq else mt_maxSeq m)).

(** What [get] makes of the node its seek returned. *)
Definition get_node (key : bytes) (s : skiplist) (r : option nat) : go found :=
  match r with
  | None => Ret Absent
  | Some x =>
      n ← node_at s x;
      '(user, _, kind) ← split_key (nd_key n);
      Ret (if bool_decide (user <> key) then Absent
           else if bool_decide (kind = kindDelete) then Deleted else Found (nd_value n))
  end.

Definition mem_get (key : bytes) (seq : N) (m : memtable) : go found :=
  n ← seek (makeInternalKey key seq kindPut) (mt_list m);
  get_node key (mt_list m) n.

Definition mem_iter (m : memtable) : skiplistIter := mkSkipIter (mt_list m) None.

(** ** What a memtable holds *)

Definition mem_holds (m : memtable) (es : list entry) : Prop :=
  holds (mt_list m) es /\ kinds_ok es /\ forall e, e ∈ es -> (ik_seq e.1 <= mt_maxSeq m)%N.

Lemma elem_insert_entry e es x : x ∈ insert_entry e es <-> x = e \/ x ∈ es.
Proof.
  unfold insert_entry. rewrite elem_of_app, elem_of_cons. pose proof (elem_of_app (take (first_ge e.1 es) es) (drop (first_ge e.1 es) es) x) as H.
  rewrite take_drop in H. tauto.
Qed.

Definition put_entry (seq : N) (kind : keyKind) (key value : bytes) : entry :=
  (makeInternalKey key seq kind, if decide (kind = kindPut) then value else []).

Definition kind_ok (kind : keyKind) : Prop := kind = kindPut \/ kind = kindDelete.

Lemma kind_ok_bval kind : kind_ok kind -> (bval kind <= 1)%N.
Proof. by intros [-> | ->]. Qed.

Lemma new_mem_holds seed seg : mem_holds (newMemtable seed seg) [].
Proof. split_and!; [apply new_holds|constructor|set_solver]. Qed.

Lemma put_holds seq kind key value m es :
  mem_holds m es -> (seq < maxSeq)%N -> kind_ok kind -> (forall e, e ∈ es -> e.1 <> makeInternalKey key seq kind) ->
  exists m', mem_put seq kind key value m = Ret m' /\ mem_holds m' (insert_entry (put_entry seq kind key value) es) /\
    mt_seg m' = mt_seg m.
Proof.
  intros (Hh & Hk & Hmax) Hseq Hkind Hne. unfold mem_put.
  destruct (insert_holds (makeInternalKey key seq kind) (if decide (kind = kindPut) then value else []) _ _ Hh) as (s' & -> & Hh');
    [apply makeInternalKey_wf|done|]. cbn [mbind go_bind]. eexists. split; [done|]. split; [|done]. split_and!; [done| |].
  - apply Forall_forall. intros e [->|He]%elem_insert_entry; [|by eapply Forall_forall in Hk].
    simpl. rewrite ik_kind_make by done. by apply kind_ok_bval.
  - simpl. intros e [->|He]%elem_insert_entry.
    + simpl. rewrite ik_seq_make by done. destruct (N.ltb_spec (mt_maxSeq m) seq); lia.
    + specialize (Hmax e He). destruct (N.ltb_spec (mt_maxSeq m) seq); lia.
Qed.

Lemma get_holds key seq m es :
  mem_holds m es -> (seq < maxSeq)%N -> mem_get key seq m = Ret (newest key seq es).
Proof.
  intros (Hh & Hk & _) Hseq. destruct (holds_sorted _ _ Hh) as [Hs _]. rewrite (newest_seek key seq es Hs Hk Hseq).
  destruct Hh as (on & ids & Hr & Hall & ->). unfold mem_get.
  fold (seek_key key seq). rewrite (skip_seek _ _ _ _ Hr Hall) by apply makeInternalKey_wf. cbn [mbind go_bind].
  rewrite list_lookup_fmap. destruct (ids !! _) as [x|] eqn:Hx; [|done]. cbn [fmap option_fmap option_map get_node].
  destruct (node_of Hr x) as (n & -> & Hkey & Hv & Hwf); [by eapply list_elem_of_lookup_2|]. cbn [mbind go_bind].
  rewrite Hkey, split_key_wf by done. unfold entry_found. cbn [mbind go_bind fst snd].
  rewrite Hv. destruct (decide (userKey (key_of (mt_list m) x) = key)) as [Hu|Hu].
  - rewrite bool_decide_false by (intros Hn; by apply Hn).
    destruct (decide (ik_kind (key_of (mt_list m) x) = kindDelete)); [by rewrite bool_decide_true|by rewrite bool_decide_false].
  - by rewrite bool_decide_true.
Qed.

(** ** A run of writes *)

Record mem_op := mkMemOp { mo_seq : N; mo_kind : keyKind; mo_key : bytes; mo_value : bytes }.

Definition op_entry (o : mem_op) : entry := put_entry (mo_seq o) (mo_kind o) (mo_key o) (mo_value o).

Definition mem_puts (ops : list mem_op) (m : memtable) : go memtable :=
  go_foldl (fun o m => mem_put (mo_seq o) (mo_kind o) (mo_key o) (mo_value o) m) ops m.

Lemma mem_puts_ok ops m es :
  mem_holds m es -> Forall (fun o => (mo_seq o < maxSeq)%N /\ kind_ok (mo_kind o)) ops -> NoDup (mo_seq <$> ops) ->
  (forall o e, o ∈ ops -> e ∈ es -> ik_seq e.1 <> mo_seq o) ->
  exists m' es', mem_puts ops m = Ret m' /\ mem_holds m' es' /\ forall e, e ∈ es' <-> e ∈ es \/ e ∈ op_entry <$> ops.
Proof.
  intros Hm Hops. revert m es Hm. unfold mem_puts. induction Hops as [|o ops [Hseq Hk] Hops IH]; intros m es Hm Hnd Hfresh; cbn [go_foldl].
  - exists m, es. split_and!; [done..|]. intros e. simpl. set_solver.
  - apply NoDup_cons in Hnd as [Ho Hnd].
    destruct (put_holds (mo_seq o) (mo_kind o) (mo_key o) (mo_value o) _ _ Hm Hseq Hk) as (m1 & -> & Hm1 & _).
    { intros e He E. apply (Hfresh o e); [set_solver|done|]. rewrite E. by apply ik_seq_make. }
    cbn [mbind go_bind]. destruct (IH _ _ Hm1 Hnd) as (m' & es' & -> & Hm' & Hes').
    + intros o' e Ho' [->|He]%elem_insert_entry; [|apply Hfresh; [set_solver|done]].
      simpl. rewrite ik_seq_make by done. intros E. apply Ho. rewrite E. apply list_elem_of_fmap. by exists o'.
    + exists m', es'. split_and!; [done..|]. intros e. rewrite Hes', elem_insert_entry. simpl. set_solver.
Qed.

Lemma newest_spec_ext key seq (es es' : list entry) r :
  (forall e, e ∈ es' <-> e ∈ es) -> newest_spec key seq es r -> newest_spec key seq es' r.
Proof. intros H. unfold newest_spec. setoid_rewrite H. done. Qed.

(** Whatever writes a memtable has taken, in any order of keys, a lookup
    at a sequence number finds the newest version at or below it: its value,
    its tombstone, or nothing when there is none. *)
Theorem memtable_get_newest seed seg ops key seq :
  Forall (fun o => (mo_seq o < maxSeq)%N /\ kind_ok (mo_kind o)) ops -> NoDup (mo_seq <$> ops) -> (seq < maxSeq)%N ->
  exists m r, mem_puts ops (newMemtable seed seg) = Ret m /\ mem_get key seq m = Ret r /\
    newest_spec key seq (op_entry <$> ops) r.
Proof.
  intros Hops Hnd Hseq. destruct (mem_puts_ok ops _ _ (new_mem_holds seed seg) Hops Hnd) as (m & es & Hp & Hm & Hes); [set_solver|].
  exists m, (newest key seq es). split; [done|]. split; [by apply get_holds|].
  eapply newest_spec_ext; [|apply newest_ok; apply (holds_sorted (mt_list m)); apply Hm]. intros e. rewrite Hes. set_solver.
Qed.

Lemma memtable_get_newest_witness :
  exists m r, mem_puts [mkMemOp 1 kindPut [x62] [x01]; mkMemOp 2 kindDelete [x61] []; mkMemOp 3 kindPut [x61] [x02]] (newMemtable 7 1) = Ret m /\
    mem_get [x61] 2 m = Ret r /\ newest_spec [x61] 2 (op_entry <$> [mkMemOp 1 kindPut [x62] [x01]; mkMemOp 2 kindDelete [x61] []; mkMemOp 3 kindPut [x61] [x02]]) r.
Proof.
  apply (memtable_get_newest 7 1 [mkMemOp 1 kindPut [x62] [x01]; mkMemOp 2 kindDelete [x61] []; mkMemOp 3 kindPut [x61] [x02]] [x61] 2).
  - repeat constructor; (by left) || by right.
  - apply (bool_decide_unpack _). by vm_compute.
  - done.
Defined.
