(* ===== verification/SkipConc.v ===== *)
(** * Reading a skip list while it is written

    One goroutine inserts, another seeks, and their atomic steps interleave.
    A seek never runs past an entry that was there when it began.  It can
    stop short of its target, though: it loads the pointer it returns a
    second time, after the one it compared. *)

From stdpp Require Import base list relations sorting.
From S2P Require Import Prelude Codec Key Iter Versions Skiplist SkipProofs Memtable.

Record world := mkWorld { wd_list : skiplist; wd_insert : option inserting; wd_seek : seeker }.

(** The writer inserts keys no node has yet: sequence numbers are fresh. *)
Definition fresh_key (s : skiplist) (key : bytes) : Prop :=
  ikey_wf key /\ forall i, i < length (sl_nodes s) -> key_of s i <> key.

Inductive wstep : skiplist * option inserting -> skiplist * option inserting -> Prop :=
  | w_begin s key value s' w :
      fresh_key s key -> insert_prepare key value s = Ret (s', w) -> wstep (s, None) (s', Some w)
  | w_publish s w s' w' :
      in_level w < in_height w -> insert_publish s w = Ret (s', w') -> wstep (s, Some w) (s', Some w')
  | w_end s w : in_level w = in_height w -> wstep (s, Some w) (s, None).

Inductive cstep (target : bytes) : world -> world -> Prop :=
  | c_read s w r r' : seek_step target s r = Ret r' -> cstep target (mkWorld s w r) (mkWorld s w r')
  | c_write s w r s' w' : wstep (s, w) (s', w') -> cstep target (mkWorld s w r) (mkWorld s' w' r).

(** Nodes a walk along level 0 comes to. *)
Inductive linked (s : skiplist) : nat -> Prop :=
  | linked_first i : nxt s 0 0 = Some (Some i) -> linked s i
  | linked_next x i : linked s x -> nxt s 0 x = Some (Some i) -> linked s i.

(** ** The writer keeps the list in shape *)

Definition winv (s : skiplist) (w : option inserting) (on : nat -> nat -> bool) (ids : list nat) : Prop :=
  match w with
  | None => rep s on ids /\ forall i, i ∈ ids -> on 0 i = true
  | Some w => exists L R, ids = L ++ in_node w :: R /\ pub s on L R w /\ 1 <= in_height w /\ forall i, i ∈ L ++ R -> on 0 i = true
  end.

Lemma winv_rep s w on ids : winv s w on ids -> rep s on ids.
Proof. destruct w as [w|]; [|by intros []]. by intros (L & R & -> & [Hr _ _ _ _] & _). Qed.

(** What a reader holds on to. *)
Record kept (s : skiplist) (on : nat -> nat -> bool) (ids : list nat)
  (s' : skiplist) (on' : nat -> nat -> bool) (ids' : list nat) : Prop := {
  kp_ids i : i ∈ ids -> i ∈ ids';
  kp_on l i : i ∈ ids -> on l i = true -> on' l i = true;
  kp_key i : i ∈ ids -> key_of s' i = key_of s i;
  kp_height : sl_height s <= sl_height s';
}.

Lemma wstep_winv s w s' w' on ids :
  wstep (s, w) (s', w') -> winv s w on ids -> exists on' ids', winv s' w' on' ids' /\ kept s on ids s' on' ids'.
Proof.
  intros Hst Hw. inversion Hst as [? key value ? w1 [Hwf Hfr] Hp|? w1 ? w2 Hlt Hp|? w1 Heq]; subst; simpl in Hw.
  - destruct Hw as [Hr Hall]. destruct (split_low s on ids key Hr) as (L & R & -> & HL & HR).
    destruct (prepare_ok s on L R key value Hr HL HR) as (s1 & w2 & Hp' & Hpub & Hn & Hl0 & Hh & Hk & Hv & Hkv); [|done|].
    { intros i Hi. apply Hfr. destruct (rp_nodes _ _ _ Hr i Hi) as [[x Hx] _]. by eapply lookup_lt_Some. }
    rewrite Hp in Hp'. injection Hp' as <- <-.
    assert (forall i, i ∈ L ++ R -> (i =? length (sl_nodes s)) = false) as Hnew.
    { intros i Hi. apply Nat.eqb_neq. destruct (rp_nodes _ _ _ Hr i Hi) as [[x Hx] _]. apply lookup_lt_Some in Hx. lia. }
    eexists _, (L ++ in_node w1 :: R). split.
    + exists L, R. split_and!; [done|done|done|]. intros i Hi. cbn beta. rewrite Hall, Hnew by done. done.
    + constructor; [set_solver| |intros i Hi; by apply Hkv|].
      * intros l i Hi Ho. by rewrite Ho, Hnew.
      * unfold insert_prepare in Hp. destruct (find_prev _ _ _ _) as [prev| |]; cbn [mbind go_bind] in Hp; [|done..].
        destruct (randomHeight _) as [h seed]. destruct (next_pointers _ _ _) as [nexts| |]; cbn [mbind go_bind] in Hp; [|done..].
        injection Hp as <- _. simpl. destruct (Nat.ltb_spec (sl_height s) h); lia.
  - destruct Hw as (L & R & -> & Hpub & Hh & Hall). destruct (publish_ok _ _ _ _ _ Hpub Hlt) as (s1 & Hp' & Hpub' & Hkv).
    rewrite Hp in Hp'. injection Hp' as <- ->. eexists _, (L ++ in_node w1 :: R). split.
    + exists L, R. split_and!; [done|exact Hpub'|done|]. intros i Hi. unfold on_more. by rewrite Hall.
    + constructor; [done| |intros i _; apply Hkv|].
      * intros l i _ Ho. unfold on_more. by rewrite Ho.
      * unfold insert_publish in Hp. destruct (prev_at _ _) as [x| |]; cbn [mbind go_bind] in Hp; [|done..].
        unfold store in Hp. destruct (node_at s x) as [nd| |]; cbn [mbind go_bind] in Hp; [|done..].
        destruct (_ <? _); cbn [mbind go_bind] in Hp; [|done]. injection Hp as <-. done.
  - destruct Hw as (L & R & -> & Hpub & Hh & Hall). exists on, (L ++ in_node w1 :: R). split.
    + destruct Hpub as [Hr Hon _ _ _]. split; [done|]. intros i Hi. destruct (decide (i = in_node w1)) as [->|Hne].
      * rewrite Hon. apply Nat.ltb_lt. lia.
      * apply Hall. set_solver.
    + by constructor.
Qed.

(** ** The reader *)

Definition reading (s : skiplist) (t : bytes) (on : nat -> nat -> bool) (ids : list nat) (l x : nat) : Prop :=
  x = 0 \/ x ∈ ids /\ on l x = true /\ low s t x.

Definition rinv (s : skiplist) (t : bytes) (on : nat -> nat -> bool) (ids : list nat) (i0 : nat) (r : seeker) : Prop :=
  match r with
  | SeekAt x l => l < sl_height s /\ reading s t on ids l x
  | SeekLast x => reading s t on ids 0 x
  | SeekDone r => exists j, r = Some j /\ j ∈ ids /\ on 0 j = true /\ ik_le (key_of s j) (key_of s i0)
  end.

Lemma rinv_kept s t on ids i0 r s' on' ids' :
  kept s on ids s' on' ids' -> i0 ∈ ids -> rinv s t on ids i0 r -> rinv s' t on' ids' i0 r.
Proof.
  intros [Hids Hon Hkey Hh] Hi0. assert (forall l x, reading s t on ids l x -> reading s' t on' ids' l x) as Hrd.
  { intros l x [->|(Hx & Ho & Hlow)]; [by left|right]. split_and!; [by apply Hids|by apply Hon|]. unfold low in *. by rewrite Hkey. }
  destruct r as [x l|x|r]; simpl.
  - intros [Hl Hx]. split; [lia|by apply Hrd].
  - apply Hrd.
  - intros (j & -> & Hj & Ho & Hle). exists j. rewrite !Hkey by done. split_and!; [done|by apply Hids|by apply Hon|done].
Qed.

(** A pointer leads to the next node of its level, past every node that is
    not above. *)
Lemma reading_nxt s on ids t l x :
  rep s on ids -> l < maxHeight -> reading s t on ids l x ->
  exists o, nxt s l x = Some o /\ (forall i, o = Some i -> i ∈ ids /\ on l i = true) /\
    forall i0, i0 ∈ ids -> on l i0 = true -> ~ low s t i0 -> exists j, o = Some j /\ ik_le (key_of s j) (key_of s i0).
Proof.
  intros Hr Hl Hrd. destruct (rp_path _ _ _ Hr l Hl) as (o & Ho & Hp).
  assert (exists B, nxt s l x = Some (head (filter (on_level on l) B)) /\ StronglySorted (fun a b => ik_lt (key_of s a) (key_of s b)) B /\
    (forall i, i ∈ B -> i ∈ ids) /\ forall i0, i0 ∈ ids -> ~ low s t i0 -> i0 ∈ B) as (B & Hn & HsB & HB & Hin).
  { destruct Hrd as [->|(Hx & Hox & Hlow)].
    - exists ids. rewrite Ho, (path_head _ _ _ Hp). split_and!; [done|apply (rp_sorted _ _ _ Hr)|done|done].
    - apply list_elem_of_split in Hx as (A & B & ->). rewrite filter_app, filter_cons_True in Hp by done.
      apply path_split in Hp as [Hp _]. pose proof (rp_sorted _ _ _ Hr) as Hs. exists B. split_and!; [done| |set_solver|].
      + by apply StronglySorted_app_1_r, StronglySorted_cons in Hs as [_ ?].
      + intros i0 [Hi|[->|Hi]%elem_of_cons]%elem_of_app Hnl; [|done|done]. exfalso. apply Hnl.
        exact (transitivity (R:=ik_lt) (StronglySorted_app_1_elem_of _ _ _ _ _ Hs Hi (list_elem_of_here x B)) Hlow). }
  eexists. split; [exact Hn|]. split.
  - intros i [Hi Hoi]%head_filter_in. split; [by apply HB|done].
  - intros i0 Hi0 Ho0 Hnl. specialize (Hin i0 Hi0 Hnl). clear -HsB Hin Ho0.
    induction HsB as [|b B Hs IH Hall]; [set_solver|]. rewrite filter_cons. destruct (decide (on l b = true)) as [Hb|Hb].
    + exists b. split; [done|]. apply elem_of_cons in Hin as [->|Hi]; [by apply ik_not_lt, (irreflexivity ik_lt)|].
      apply ik_lt_le. by eapply Forall_forall in Hall.
    + apply elem_of_cons in Hin as [->|Hi]; [done|]. by apply IH.
Qed.

Lemma read_rinv s t on ids i0 r :
  rep s on ids -> ikey_wf t -> i0 ∈ ids -> on 0 i0 = true -> ~ low s t i0 -> rinv s t on ids i0 r ->
  exists r', seek_step t s r = Ret r' /\ rinv s t on ids i0 r'.
Proof.
  intros Hr Ht Hi0 Ho0 Hnl Hri. pose proof (rp_bounds _ _ _ Hr) as Hb.
  assert (forall l x, l < sl_height s -> reading s t on ids l x -> rinv s t on ids i0 (seek_down x l)) as Hdown.
  { intros [|l] x Hl Hx; simpl; [done|]. split; [lia|]. destruct Hx as [->|(Hx & Ho & Hlow)]; [by left|right].
    split_and!; [done|by apply (rp_mono _ _ _ Hr)|done]. }
  destruct r as [x l|x|r]; simpl in *.
  - destruct Hri as [Hl Hx]. destruct (reading_nxt s on ids t l x Hr ltac:(lia) Hx) as (o & Hn & Hok & _).
    rewrite (load_nxt _ _ _ _ Hn). cbn [mbind go_bind]. destruct o as [i|]; [|eauto].
    destruct (Hok i eq_refl) as [Hi Hoi]. destruct (look_key Hr Ht i Hi) as (n & -> & Hk). cbn [mbind go_bind]. rewrite Hk.
    cbn [mbind go_bind]. eexists. split; [done|]. case_bool_decide; [|by apply Hdown]. simpl. split; [done|]. by right.
  - destruct (reading_nxt s on ids t 0 x Hr ltac:(unfold maxHeight; lia) Hri) as (o & Hn & Hok & Hle).
    rewrite (load_nxt _ _ _ _ Hn). cbn [mbind go_bind]. eexists. split; [done|]. simpl.
    destruct (Hle i0 Hi0 Ho0 Hnl) as (j & -> & Hj). exists j. destruct (Hok j eq_refl). done.
  - eauto.
Qed.

(** ** Linked nodes *)

Lemma linked_elem s on ids i : rep s on ids -> linked s i <-> i ∈ ids /\ on 0 i = true.
Proof.
  intros Hr. destruct (rp_path _ _ _ Hr 0) as (o & Ho & Hp); [unfold maxHeight; lia|].
  assert (i ∈ ids /\ on 0 i = true <-> i ∈ filter (on_level on 0) ids) as -> by (rewrite list_elem_of_filter; tauto).
  split.
  - induction 1 as [i Hi|x i _ IH Hi].
    + rewrite Ho in Hi. injection Hi as ->. inversion Hp; subst. set_solver.
    + apply list_elem_of_split in IH as (l1 & l2 & E). rewrite E in *. apply path_split in Hp as [Hx _].
      rewrite Hi in Hx. injection Hx as Hx. destruct l2; [done|]. simplify_eq/=. set_solver.
  - assert (forall j, o = Some j -> linked s j) as Hfirst by (intros j ->; by apply linked_first).
    clear Ho. revert Hfirst. induction Hp as [|j o l Hj Hp IH]; intros Hfirst Hi; [set_solver|].
    apply elem_of_cons in Hi as [->|Hi]; [by apply Hfirst|]. apply IH; [|done].
    intros k ->. eapply linked_next; [by apply Hfirst|done].
Qed.

Lemma wsteps_winv s w s' w' on ids :
  rtc wstep (s, w) (s', w') -> winv s w on ids -> exists on' ids', winv s' w' on' ids'.
Proof.
  intros Hst. remember (s, w) as a eqn:Ha. remember (s', w') as b eqn:Hb. revert s w on ids Ha.
  induction Hst as [|a [s1 w1] b H1 _ IH]; intros s w on ids Ha Hw; subst; [naive_solver|].
  destruct (wstep_winv _ _ _ _ _ _ H1 Hw) as (on1 & ids1 & Hw1 & _). by eapply IH.
Qed.

Lemma fresh_winv seed : winv (newSkiplist seed) None (fun _ _ => false) [].
Proof.
  split; [|set_solver]. constructor; try done; try set_solver.
  - intros l Hl. exists None. split; [|constructor]. by apply (lookup_replicate_2 maxHeight).
  - constructor.
  - simpl. unfold maxHeight. lia.
Qed.

Lemma csteps_rinv t i0 k c c' on ids :
  rtc (cstep t) c c' -> ikey_wf t -> ~ ik_lt k t ->
  winv (wd_list c) (wd_insert c) on ids -> i0 ∈ ids -> on 0 i0 = true -> key_of (wd_list c) i0 = k ->
  rinv (wd_list c) t on ids i0 (wd_seek c) ->
  exists on' ids', winv (wd_list c') (wd_insert c') on' ids' /\ i0 ∈ ids' /\ on' 0 i0 = true /\
    key_of (wd_list c') i0 = k /\ rinv (wd_list c') t on' ids' i0 (wd_seek c').
Proof.
  intros Hst Ht Hk. revert on ids. induction Hst as [c|c c1 c' H1 _ IH]; intros on ids Hw Hi Ho Hkey Hri; [eauto 8|].
  inversion H1 as [s w r r' Hr|s w r s' w' Hws]; subst; simpl in *.
  - destruct (read_rinv s t on ids i0 r) as (r2 & Hr2 & Hri2); try done; [by eapply winv_rep|].
    rewrite Hr in Hr2. injection Hr2 as <-. by eapply (IH on ids).
  - destruct (wstep_winv _ _ _ _ _ _ Hws Hw) as (on1 & ids1 & Hw1 & Hkp).
    apply (IH on1 ids1); [done|by apply (kp_ids _ _ _ _ _ _ Hkp)|by apply (kp_on _ _ _ _ _ _ Hkp)| |].
    + by rewrite (kp_key _ _ _ _ _ _ Hkp).
    + by eapply rinv_kept.
Qed.

(** C33: However the steps of a seek and of concurrent inserts interleave, the
    seek always has a next step, and if an entry at or above the target was
    linked when it began, it ends with a node of the list at or before that
    entry: it runs past nothing. *)
Theorem seek_never_overshoots seed s w t i0 c :
  rtc wstep (newSkiplist seed, None) (s, w) -> ikey_wf t -> linked s i0 -> ~ ik_lt (key_of s i0) t ->
  rtc (cstep t) (mkWorld s w (seek_start s)) c ->
  (exists r, seek_step t (wd_list c) (wd_seek c) = Ret r) /\
  forall r, wd_seek c = SeekDone r -> exists j, r = Some j /\ linked (wd_list c) j /\
    ik_le (key_of (wd_list c) j) (key_of s i0).
Proof.
  intros Hst Ht Hl Hnl Hc. destruct (wsteps_winv _ _ _ _ _ _ Hst (fresh_winv seed)) as (on & ids & Hw).
  pose proof (winv_rep _ _ _ _ Hw) as Hr. apply (linked_elem _ _ _ _ Hr) in Hl as [Hi Ho].
  destruct (csteps_rinv t i0 (key_of s i0) _ _ on ids Hc Ht Hnl Hw Hi Ho eq_refl) as (on' & ids' & Hw' & Hi' & Ho' & Hk' & Hri').
  { simpl. pose proof (rp_bounds _ _ _ Hr). unfold seek_start. destruct (sl_height s) as [|h] eqn:E; [lia|]. simpl. split; [lia|by left]. }
  pose proof (winv_rep _ _ _ _ Hw') as Hr'. split.
  - assert (~ low (wd_list c) t i0) as Hnl' by (unfold low; by rewrite Hk').
    destruct (read_rinv _ _ _ _ _ _ Hr' Ht Hi' Ho' Hnl' Hri') as (r & -> & _). eauto.
  - intros r E. rewrite E in Hri'. destruct Hri' as (j & -> & Hj & Hoj & Hle). exists j. split; [done|].
    split; [by eapply linked_elem|]. by rewrite <-Hk'.
Qed.

(** ** An example: an insert between the two loads *)

Definition go_get {A} (d : A) (m : go A) : A := match m with Ret a => a | _ => d end.

Definition ex_b : bytes := makeInternalKey [x62] 1 kindPut.
Definition ex_a : bytes := makeInternalKey [x61] 2 kindPut.
Definition ex_target : bytes := seek_key [x62] 5.

Definition ex_world : skiplist := go_get (newSkiplist 3) (insert ex_b [x01] (newSkiplist 3)).
Definition ex_prep : skiplist * inserting := go_get (newSkiplist 3, mkInserting [] 0 0 0) (insert_prepare ex_b [x01] (newSkiplist 3)).
Definition ex_after : skiplist * inserting := go_get ex_prep (insert_prepare ex_a [x02] ex_world).
Definition ex_done : skiplist * inserting := go_get ex_prep (insert_publish ex_after.1 ex_after.2).

Lemma ex_world_reach : rtc wstep (newSkiplist 3, None) (ex_world, None).
Proof.
  eapply rtc_l; [apply (w_begin _ ex_b [x01] ex_prep.1 ex_prep.2)|].
  { split; [apply makeInternalKey_wf|]. intros i Hi. simpl in Hi. assert (i = 0) as -> by lia. done. }
  { by vm_compute. }
  eapply rtc_l; [eapply w_publish; [vm_compute; lia|by vm_compute]|].
  eapply rtc_l; [apply w_end; by vm_compute|].
  replace ex_world with (go_get ex_prep (insert_publish ex_prep.1 ex_prep.2)).1 by (by vm_compute). apply rtc_refl.
Qed.

Lemma ex_linked : linked ex_world 1 /\ key_of ex_world 1 = ex_b /\ val_of ex_world 1 = [x01].
Proof. split; [apply linked_first|split]; by vm_compute. Qed.

(** The seek compares the pointer to the entry, an insert of a smaller key
    changes that pointer, and the seek loads it again. *)
Definition ex_race : world := mkWorld ex_done.1 (Some ex_done.2) (SeekDone (Some 2)).

Lemma ex_race_steps : rtc (cstep ex_target) (mkWorld ex_world None (seek_start ex_world)) ex_race.
Proof.
  eapply rtc_l; [apply (c_read _ _ _ _ (SeekLast 0)); by vm_compute|].
  eapply rtc_l; [apply (c_write _ _ _ _ ex_after.1 (Some ex_after.2)), (w_begin _ ex_a [x02])|].
  { split; [apply makeInternalKey_wf|]. intros i Hi. assert (i = 0 \/ i = 1) as [-> | ->]; [|by vm_compute..].
    assert (length (sl_nodes ex_world) = 2) as E by (by vm_compute). lia. }
  { by vm_compute. }
  eapply rtc_l; [apply (c_write _ _ _ _ ex_done.1 (Some ex_done.2)), w_publish; [vm_compute; lia|by vm_compute]|].
  eapply rtc_l; [apply (c_read _ _ _ _ (SeekDone (Some 2))); by vm_compute|]. apply rtc_refl.
Qed.

Lemma seek_never_overshoots_witness :
  linked ex_world 1 /\ exists j, wd_seek ex_race = SeekDone (Some j) /\ linked (wd_list ex_race) j /\
    ik_le (key_of (wd_list ex_race) j) (key_of ex_world 1).
Proof.
  destruct ex_linked as (Hl & Hk & _). split; [done|].
  destruct (seek_never_overshoots 3 ex_world None ex_target 1 ex_race) as [_ H].
  - exact ex_world_reach.
  - apply makeInternalKey_wf.
  - done.
  - rewrite Hk. by vm_compute.
  - exact ex_race_steps.
  - destruct (H (Some 2) eq_refl) as (j & [= <-] & ? & ?). by exists 2.
Defined.

(** A lookup racing with the insert of another key can miss: with a
    version of "b" linked throughout and nothing above it, an insert of "a"
    between the two loads of [seek] makes the lookup of "b" report that there
    is none. *)
Theorem racing_lookup_misses :
  exists s c r, rtc wstep (newSkiplist 3, None) (s, None) /\ linked s 1 /\ key_of s 1 = makeInternalKey [x62] 1 kindPut /\
    mem_get [x62] 5 (mkMem s 1 0 1) = Ret (Found [x01]) /\
    rtc (cstep (makeInternalKey [x62] 5 kindPut)) (mkWorld s None (seek_start s)) c /\
    wd_seek c = SeekDone r /\ linked (wd_list c) 1 /\ get_node [x62] (wd_list c) r = Ret Absent.
Proof.
  destruct ex_linked as (Hl & Hk & _). exists ex_world, ex_race, (Some 2).
  split_and!; [exact ex_world_reach|done|done|by vm_compute|exact ex_race_steps|done| |by vm_compute].
  eapply linked_next; [apply (linked_first _ 2)|]; by vm_compute.
Qed.
