(* ===== verification/Heap.v ===== *)
(** * container/heap

    The binary heap of Go's standard library, over a slice of items and a
    comparison that may panic.  [heapify] leaves the items in heap order, and
    [heap_fix] and [heap_pop] restore it at the root. *)

From stdpp Require Import base list sorting.
From S2P Require Import Prelude.

Definition parent (j : nat) : nat := (j - 1) / 2.

Section Ops.
Variable less : nat -> nat -> go bool.

Definition item (h : list nat) (i : nat) : go nat := match h !! i with Some x => Ret x | None => Panic end.

(** [h.Less(i, j)] *)
Definition less_at (h : list nat) (i j : nat) : go bool :=
  a ← item h i; b ← item h j; less a b.

(** [h.Swap(i, j)] *)
Definition swap (h : list nat) (i j : nat) : list nat := <[i := h !!! j]> (<[j := h !!! i]> h).

(** [n] bounds the part of the slice that is the heap; every round goes down
    a level. *)
Fixpoint heap_down (fuel : nat) (h : list nat) (i n : nat) : go (list nat * nat) :=
  let j1 := 2 * i + 1 in
  if n <=? j1 then Ret (h, i)
  else
    j ← (if j1 + 1 <? n then r ← less_at h (j1 + 1) j1; Ret (if (r : bool) then j1 + 1 else j1) else Ret j1);
    r ← less_at h j i;
    if negb (r : bool) then Ret (h, i)
    else match fuel with O => Panic | S fuel => heap_down fuel (swap h i j) j n end.

Fixpoint heap_up (fuel : nat) (h : list nat) (j : nat) : go (list nat) :=
  let i := parent j in
  if i =? j then Ret h
  else
    r ← less_at h j i;
    if negb (r : bool) then Ret h
    else match fuel with O => Panic | S fuel => heap_up fuel (swap h i j) i end.

(** [heap.Init]: [k] nodes are left, the last of them next. *)
Fixpoint heapify_from (k : nat) (h : list nat) : go (list nat) :=
  match k with
  | O => Ret h
  | S k => '(h, _) ← heap_down (length h) h k (length h); heapify_from k h
  end.

Definition heapify (h : list nat) : go (list nat) := heapify_from (length h / 2) h.

(** [heap.Fix] *)
Definition heap_fix (h : list nat) (i : nat) : go (list nat) :=
  '(h, i') ← heap_down (length h) h i (length h);
  if i <? i' then Ret h else heap_up (length h) h i.

(** [heap.Pop] on a slice that is not empty; the slice without its last item
    is left. *)
Definition heap_pop (h : list nat) : go (list nat) :=
  match h with
  | [] => Panic
  | _ =>
      let n := length h - 1 in
      '(h, _) ← heap_down (length h) (swap h 0 n) 0 n;
      Ret (take n h)
  end.
End Ops.

(** ** Order *)

Lemma parent_spec k : 0 < k -> 2 * parent k + 1 <= k <= 2 * parent k + 2.
Proof.
  intros Hk. unfold parent. pose proof (Nat.div_mod_eq (k - 1) 2). pose proof (Nat.mod_upper_bound (k - 1) 2). lia.
Qed.

Lemma length_swap h i j : length (swap h i j) = length h.
Proof. unfold swap. by rewrite !length_insert. Qed.

Lemma swap_lookup h i j k :
  i < length h -> j < length h -> swap h i j !!! k = if decide (k = i) then h !!! j else if decide (k = j) then h !!! i else h !!! k.
Proof.
  intros Hi Hj. unfold swap. destruct (decide (k = i)) as [->|Hki].
  - by rewrite list_lookup_total_insert_eq by (by rewrite length_insert).
  - rewrite list_lookup_total_insert_ne by done. destruct (decide (k = j)) as [->|Hkj].
    + by rewrite list_lookup_total_insert_eq.
    + by rewrite list_lookup_total_insert_ne.
Qed.

Lemma swap_Permutation h i j : i < length h -> j < length h -> swap h i j ≡ₚ h.
Proof.
  intros Hi Hj. destruct (lookup_lt_is_Some_2 h i Hi) as [x Hx], (lookup_lt_is_Some_2 h j Hj) as [y Hy]. unfold swap.
  rewrite (list_lookup_total_correct _ _ _ Hx), (list_lookup_total_correct _ _ _ Hy). by apply Permutation_insert_swap.
Qed.

Section Order.
Context {less : nat -> nat -> go bool} {lt : nat -> nat -> bool} {items : list nat}.
Context (Hless : forall a b, a ∈ items -> b ∈ items -> less a b = Ret (lt a b)).
Context (Hirrefl : forall a, lt a a = false) (Htrans : forall a b c, lt a b = true -> lt b c = true -> lt a c = true).
Context (Htotal : forall a b, a ∈ items -> b ∈ items -> a = b \/ lt a b = true \/ lt b a = true).

(** Not above. *)
Definition le (a b : nat) : Prop := lt b a = false.

Lemma lt_le a b : lt a b = true -> le a b.
Proof.
  intros H. unfold le. destruct (lt b a) eqn:E; [|done]. pose proof (Htrans _ _ _ H E) as Hx. by rewrite Hirrefl in Hx.
Qed.

Lemma le_trans a b c : a ∈ items -> b ∈ items -> c ∈ items -> le a b -> le b c -> le a c.
Proof.
  unfold le. intros Ha Hb Hc H1 H2. destruct (lt c a) eqn:E; [|done]. exfalso.
  destruct (Htotal a b Ha Hb) as [->|[H|H]]; [congruence| |congruence].
  pose proof (Htrans _ _ _ E H). congruence.
Qed.

(** Heap order for the nodes whose parent is at [lo] or later. *)
Definition heap_from (lo n : nat) (h : list nat) : Prop :=
  forall j, 0 < j -> j < n -> lo <= parent j -> le (h !!! parent j) (h !!! j).

(** The same but for the children of [i], which are not below the parent of
    [i]. *)
Definition heap_but (lo i n : nat) (h : list nat) : Prop :=
  (forall j, 0 < j -> j < n -> lo <= parent j -> parent j <> i -> le (h !!! parent j) (h !!! j)) /\
  (forall j, 0 < j -> j < n -> parent j = i -> 0 < i -> lo <= parent i -> le (h !!! parent i) (h !!! j)).

Lemma elem_of_total (h : list nat) n i : take n h ≡ₚ items -> i < n -> n <= length h -> h !!! i ∈ items.
Proof.
  intros Hp Hi Hn. destruct (lookup_lt_is_Some_2 h i) as [x Hx]; [lia|]. rewrite (list_lookup_total_correct _ _ _ Hx), <-Hp.
  apply (list_elem_of_lookup_2 _ i). by rewrite lookup_take_lt.
Qed.

Lemma less_at_ok h n i j :
  take n h ≡ₚ items -> n <= length h -> i < n -> j < n -> less_at less h i j = Ret (lt (h !!! i) (h !!! j)).
Proof.
  intros Hp Hn Hi Hj. unfold less_at, item. rewrite (list_lookup_lookup_total_lt h i), (list_lookup_lookup_total_lt h j) by lia.
  cbn [mbind go_bind]. apply Hless; by eapply elem_of_total.
Qed.

Lemma swap_but lo i j n h :
  n <= length h -> lo <= i -> 0 < j -> j < n -> parent j = i -> heap_but lo i n h -> lt (h !!! j) (h !!! i) = true ->
  (forall k, 0 < k -> k < n -> parent k = i -> le (h !!! j) (h !!! k)) -> heap_but lo j n (swap h i j).
Proof.
  intros Hn Hlo Hj0 Hj Hpj [Hb1 Hb2] Hlt Hsib. pose proof (parent_spec j Hj0) as Hps. split.
  - intros k Hk0 Hk Hlok Hpk. rewrite !swap_lookup by lia. pose proof (parent_spec k Hk0).
    rewrite (decide_False (P:=parent k = j)) by done. destruct (decide (parent k = i)) as [Hpi|Hpi].
    + rewrite (decide_False (P:=k = i)) by lia. destruct (decide (k = j)) as [->|Hkj]; [by apply lt_le|by apply Hsib].
    + destruct (decide (k = i)) as [->|Hki].
      * apply Hb2; [lia|lia|done|lia|done].
      * destruct (decide (k = j)) as [->|Hkj]; [done|]. by apply Hb1.
  - intros k Hk0 Hk Hpk _ Hloj. rewrite !swap_lookup by lia. pose proof (parent_spec k Hk0).
    rewrite Hpj, decide_True by done. rewrite (decide_False (P:=k = i)), (decide_False (P:=k = j)) by lia.
    rewrite <-Hpk. apply Hb1; lia.
Qed.

(** The smaller child. *)
Lemma pick_child h i n :
  take n h ≡ₚ items -> n <= length h -> 2 * i + 1 < n ->
  exists j, (if 2 * i + 1 + 1 <? n then r ← less_at less h (2 * i + 1 + 1) (2 * i + 1); Ret (if (r : bool) then 2 * i + 1 + 1 else 2 * i + 1)
    else Ret (2 * i + 1)) = Ret j /\ 0 < j /\ j < n /\ parent j = i /\
    forall k, 0 < k -> k < n -> parent k = i -> le (h !!! j) (h !!! k).
Proof.
  intros Hp Hn H1. pose proof (parent_spec (2 * i + 1)). pose proof (parent_spec (2 * i + 1 + 1)).
  assert (forall a, le a a) as Hrefl by (intros a; apply Hirrefl).
  destruct (Nat.ltb_spec (2 * i + 1 + 1) n) as [H2|H2].
  - rewrite (less_at_ok h n) by (done || lia). cbn [mbind go_bind]. destruct (lt _ _) eqn:E; eexists; (split; [done|]); split_and!; try lia;
      intros k Hk0 Hk Hpk; pose proof (parent_spec k Hk0); assert (k = 2 * i + 1 \/ k = 2 * i + 1 + 1) as [-> | ->] by lia; try done.
    by apply lt_le.
  - eexists. split; [done|]. split_and!; try lia. intros k Hk0 Hk Hpk. pose proof (parent_spec k Hk0).
    assert (k = 2 * i + 1) as -> by lia. done.
Qed.

Lemma take_swap h i j n : i < n -> j < n -> n <= length h -> take n (swap h i j) ≡ₚ take n h.
Proof.
  intros Hi Hj Hn. rewrite <-(swap_Permutation (take n h) i j) by (rewrite length_take; lia).
  unfold swap. rewrite !take_insert_lt by lia. rewrite !lookup_total_take_lt by lia. done.
Qed.

Lemma heap_down_ok fuel lo i n h :
  take n h ≡ₚ items -> n <= length h -> lo <= i -> n <= i + fuel -> heap_but lo i n h ->
  exists h' i', heap_down less fuel h i n = Ret (h', i') /\ take n h' ≡ₚ items /\ heap_from lo n h' /\ length h' = length h.
Proof.
  revert i h. induction fuel as [|fuel IH]; intros i h Hp Hn Hlo Hf Hb; cbn [heap_down].
  - rewrite (proj2 (Nat.leb_le _ _)) by lia. exists h, i. split_and!; try done.
    intros j Hj0 Hj Hloj. apply Hb; [done..|]. pose proof (parent_spec j Hj0). lia.
  - destruct (Nat.leb_spec n (2 * i + 1)) as [Hle|Hlt1].
    { exists h, i. split_and!; try done. intros j Hj0 Hj Hloj. apply Hb; [done..|]. pose proof (parent_spec j Hj0). lia. }
    destruct (pick_child h i n Hp Hn Hlt1) as (j & -> & Hj0 & Hj & Hpj & Hsib).
    cbn [mbind go_bind]. pose proof (parent_spec j Hj0). rewrite (less_at_ok h n) by (done || lia). cbn [mbind go_bind].
    destruct (lt (h !!! j) (h !!! i)) eqn:Hlt; cbn [negb].
    + destruct (IH j (swap h i j)) as (h' & i' & -> & Hp' & Hh' & Hl').
      * rewrite take_swap by lia. done.
      * by rewrite length_swap.
      * lia.
      * lia.
      * by apply swap_but.
      * exists h', i'. by rewrite length_swap in Hl'.
    + exists h, i. split_and!; try done. intros k Hk0 Hk Hlok. destruct (decide (parent k = i)) as [Hpk|Hpk]; [|by apply Hb].
      rewrite Hpk. eapply le_trans; [..|by apply Hsib]; [eapply elem_of_total; [done|lia|done]..|done].
Qed.

Lemma heapify_from_ok k h :
  h ≡ₚ items -> heap_from k (length h) h ->
  exists h', heapify_from less k h = Ret h' /\ h' ≡ₚ items /\ heap_from 0 (length h') h'.
Proof.
  revert h. induction k as [|k IH]; intros h Hp Hh; cbn [heapify_from]; [eauto|].
  destruct (heap_down_ok (length h) k k (length h) h) as (h' & i' & -> & Hp' & Hh' & Hl); [by rewrite firstn_all|done|done|lia| |].
  - split; [intros j Hj0 Hj Hloj Hne; apply Hh; lia|]. intros j _ _ _ Hk0 Hlo. pose proof (parent_spec k Hk0). lia.
  - cbn [mbind go_bind]. rewrite <-Hl, firstn_all in Hp'. apply IH; [done|]. by rewrite Hl.
Qed.

Lemma heapify_ok h : h ≡ₚ items -> exists h', heapify less h = Ret h' /\ h' ≡ₚ items /\ heap_from 0 (length h') h'.
Proof.
  intros Hp. apply heapify_from_ok; [done|]. intros j Hj0 Hj Hlo. pose proof (parent_spec j Hj0).
  pose proof (Nat.div_mod_eq (length h) 2). pose proof (Nat.mod_upper_bound (length h) 2). lia.
Qed.

(** The root is the least. *)
Lemma heap_root h i : h ≡ₚ items -> heap_from 0 (length h) h -> i < length h -> le (h !!! 0) (h !!! i).
Proof.
  intros Hp Hh. rewrite <-(firstn_all h) in Hp. induction i as [i IH] using lt_wf_ind. intros Hi.
  destruct (decide (i = 0)) as [->|Hi0]; [apply Hirrefl|]. pose proof (parent_spec i ltac:(lia)).
  eapply le_trans; [..|apply (Hh i); lia]; [eapply elem_of_total; [done|lia|done]..|]. apply IH; lia.
Qed.

Lemma heap_fix_ok h : h ≡ₚ items -> heap_but 0 0 (length h) h ->
  exists h', heap_fix less h 0 = Ret h' /\ h' ≡ₚ items /\ heap_from 0 (length h') h'.
Proof.
  intros Hp Hb. unfold heap_fix.
  destruct (heap_down_ok (length h) 0 0 (length h) h) as (h' & i' & -> & Hp' & Hh' & Hl); [by rewrite firstn_all|done|done|lia|done|].
  cbn [mbind go_bind]. rewrite <-Hl in *. rewrite firstn_all in Hp'. exists h'.
  split; [|done]. destruct (0 <? i'); [done|]. by destruct (length h').
Qed.

Lemma heap_pop_ok x h : h ≡ₚ items -> heap_but 0 0 (S (length h)) (x :: h) ->
  exists h', heap_pop less (x :: h) = Ret h' /\ h' ≡ₚ items /\ heap_from 0 (length h') h'.
Proof.
  intros Hp [Hb _]. unfold heap_pop. cbn [length]. rewrite Nat.sub_succ, Nat.sub_0_r. set (n := length h).
  assert (length (swap (x :: h) 0 n) = S n) as Hls by (by rewrite length_swap).
  assert (take n (swap (x :: h) 0 n) ≡ₚ items) as Hpt.
  { pose proof (swap_Permutation (x :: h) 0 n ltac:(simpl; lia) ltac:(simpl; lia)) as Hw.
    assert (swap (x :: h) 0 n !!! n = x) as Hlast.
    { rewrite swap_lookup by (simpl; lia). destruct (decide (n = 0)) as [Hn|Hn]; [by rewrite Hn|]. by rewrite decide_True. }
    set (w := swap (x :: h) 0 n) in *. clearbody w. rewrite <-Hp. apply (Permutation_cons_inv (a:=x)). rewrite <-Hw.
    rewrite <-(take_drop n w) at 2. rewrite (drop_S w x n), drop_ge by (rewrite ?Hls; lia || rewrite <-Hlast; apply list_lookup_lookup_total_lt; lia).
    by rewrite Permutation_app_comm. }
  destruct (heap_down_ok (S n) 0 0 n (swap (x :: h) 0 n)) as (h' & i' & -> & Hp' & Hh' & Hl); [done|lia|done|lia| |].
  - split; [|intros; lia]. intros j Hj0 Hj _ Hpj. pose proof (parent_spec j Hj0). rewrite !swap_lookup by (simpl; lia).
    rewrite !decide_False by lia. apply Hb; lia.
  - cbn [mbind go_bind]. exists (take n h'). split; [done|]. split; [done|]. intros j Hj0 Hj _.
    rewrite length_take in Hj. pose proof (parent_spec j Hj0). rewrite !lookup_total_take_lt by lia. apply Hh'; lia.
Qed.
End Order.
