(* ===== verification/Merge.v ===== *)
(** * storage/merge.go: merging iterators

    A [mergeIter] walks the union of its children in key order through a heap
    of the children that have entries left.  It meets the contract of an
    iterator whenever its children do. *)

From stdpp Require Import base list sorting.
From S2P Require Import Prelude Codec Key Iter Skiplist SkipProofs Heap.

(** An item of the heap is a child, named by its position. *)
Record mergeIter (I : Type) := mkMerge {
  mi_children : list I;
  mi_h : list nat;
  mi_err : option error;
}.
Arguments mkMerge {I} _ _ _.
Arguments mi_children {I} _.
Arguments mi_h {I} _.
Arguments mi_err {I} _.

Definition key_cmp (a b : bytes) : go comparison :=
  if (trailerSize <=? length a) && (trailerSize <=? length b) then Ret (compareInternalKey a b) else Panic.

Section Ops.
Context {I : Type} `{InternalIter I}.

Definition child (cs : list I) (i : nat) : go I := match cs !! i with Some c => Ret c | None => Panic end.

(** [mergeHeap.Less], on items. *)
Definition merge_less (cs : list I) (a b : nat) : go bool :=
  ca ← child cs a;
  ka ← it_key ca;
  cb ← child cs b;
  kb ← it_key cb;
  c ← key_cmp ka kb;
  Ret (match c with Eq => a <? b | Lt => true | Gt => false end).

Definition newMergeIter (cs : list I) : mergeIter I := mkMerge cs [] None.

Definition live_children (cs : list I) : list nat :=
  filter (fun i => from_option it_valid false (cs !! i) = true) (seq 0 (length cs)).

Definition rebuild (cs : list I) (m : mergeIter I) : go (mergeIter I) :=
  h ← heapify (merge_less cs) (live_children cs);
  Ret (mkMerge cs h (mi_err m)).

Fixpoint each_child (f : I -> go I) (cs : list I) : go (list I) :=
  match cs with
  | [] => Ret []
  | c :: cs => c ← f c; cs ← each_child f cs; Ret (c :: cs)
  end.

Definition merge_seekToFirst (m : mergeIter I) : go (mergeIter I) :=
  cs ← each_child it_seekToFirst (mi_children m); rebuild cs m.

Definition merge_seek (target : bytes) (m : mergeIter I) : go (mergeIter I) :=
  cs ← each_child (it_seek target) (mi_children m); rebuild cs m.

Definition merge_valid (m : mergeIter I) : bool := (0 <? length (mi_h m)) && bool_decide (mi_err m = None).

Definition merge_next (m : mergeIter I) : go (mergeIter I) :=
  top ← item (mi_h m) 0;
  c ← child (mi_children m) top;
  c ← it_next c;
  let cs := <[top := c]> (mi_children m) in
  h ← (if it_valid c then heap_fix (merge_less cs) (mi_h m) 0 else heap_pop (merge_less cs) (mi_h m));
  Ret (mkMerge cs h (mi_err m)).

Definition merge_top (m : mergeIter I) : go I :=
  top ← item (mi_h m) 0; child (mi_children m) top.

Definition merge_key (m : mergeIter I) : go bytes := c ← merge_top m; it_key c.
Definition merge_value (m : mergeIter I) : go bytes := c ← merge_top m; it_value c.

(** The first error of a child. *)
Definition merge_close (m : mergeIter I) : mergeIter I * option error :=
  let closed := it_close <$> mi_children m in
  let err := foldl (fun err c => match err with None => c.2 | Some e => Some e end) (mi_err m) closed in
  (mkMerge (fst <$> closed) (mi_h m) err, err).

#[global] Instance merge_InternalIter : InternalIter (mergeIter I) := {
  it_seekToFirst := merge_seekToFirst;
  it_seek := merge_seek;
  it_valid := merge_valid;
  it_next := merge_next;
  it_key := merge_key;
  it_value := merge_value;
  it_close := merge_close;
}.
End Ops.

(** ** The order of the heap *)

Definition lt_of (kf : nat -> bytes) (a b : nat) : bool :=
  match compareInternalKey (kf a) (kf b) with Eq => a <? b | Lt => true | Gt => false end.

Lemma compareInternalKey_Eq_r a b c :
  compareInternalKey a b = Eq -> compareInternalKey c a = compareInternalKey c b.
Proof.
  intros E. rewrite (compareInternalKey_antisym a c), (compareInternalKey_antisym b c). f_equal. by apply compareInternalKey_Eq_l.
Qed.

Lemma lt_of_irrefl kf a : lt_of kf a a = false.
Proof. unfold lt_of. by rewrite compareInternalKey_refl, Nat.ltb_irrefl. Qed.

Lemma lt_of_trans kf a b c : lt_of kf a b = true -> lt_of kf b c = true -> lt_of kf a c = true.
Proof.
  unfold lt_of. destruct (compareInternalKey (kf a) (kf b)) eqn:E1; [| |done].
  - rewrite (compareInternalKey_Eq_l _ _ _ E1). destruct (compareInternalKey (kf b) (kf c)); try done.
    intros ?%Nat.ltb_lt ?%Nat.ltb_lt. apply Nat.ltb_lt. lia.
  - destruct (compareInternalKey (kf b) (kf c)) eqn:E2; [| |done]; intros _ _.
    + by rewrite <-(compareInternalKey_Eq_r _ _ _ E2), E1.
    + by rewrite (compareInternalKey_lt_trans _ _ _ E1 E2).
Qed.

Lemma lt_of_total kf a b : a = b \/ lt_of kf a b = true \/ lt_of kf b a = true.
Proof.
  unfold lt_of. rewrite (compareInternalKey_antisym (kf a) (kf b)). destruct (compareInternalKey (kf a) (kf b)); simpl; [|naive_solver..].
  destruct (Nat.lt_trichotomy a b) as [?|[->|?]]; [right; left; by apply Nat.ltb_lt|by left|right; right; by apply Nat.ltb_lt].
Qed.

Lemma lt_of_le kf a b : le (lt:=lt_of kf) a b -> ik_le (kf a) (kf b).
Proof.
  unfold le, lt_of, ik_le. rewrite (compareInternalKey_antisym (kf a) (kf b)).
  by destruct (compareInternalKey (kf a) (kf b)).
Qed.

(** ** Lists of sorted lists *)

Lemma drop_first_ge t es : ik_sorted es -> drop (first_ge t es) es = filter (fun e => ~ ik_lt e.1 t) es.
Proof.
  induction 1 as [|x es Hs IH Hall]; [done|]. cbn [first_ge]. destruct (decide (ik_lt x.1 t)) as [Hx|Hx].
  - rewrite filter_cons_False by tauto. done.
  - symmetry. apply filter_all. constructor; [done|]. eapply Forall_impl; [exact Hall|]. intros y Hy Hlt. apply Hx.
    exact (transitivity (R:=ik_lt) Hy Hlt).
Qed.

Lemma filter_concat {A} (P : A -> Prop) `{!forall x, Decision (P x)} (l : list (list A)) :
  filter P (concat l) = concat (filter P <$> l).
Proof. induction l as [|x l IH]; [done|]. simpl. by rewrite filter_app, IH. Qed.

Lemma concat_insert {A} (l : list (list A)) r x t : l !! r = Some (x :: t) -> concat l ≡ₚ x :: concat (<[r := t]> l).
Proof.
  revert r. induction l as [|y l IH]; intros [|r] Hr; simpl in *; try done.
  - by injection Hr as ->.
  - rewrite (IH r Hr). by rewrite Permutation_middle.
Qed.

(** The least of a sorted list is where the heads of its parts are least. *)
Lemma sorted_head (x : entry) es e : ik_sorted (x :: es) -> e ∈ x :: es -> ik_le e.1 x.1 -> e = x.
Proof.
  intros Hs [->|He]%elem_of_cons Hle; [done|]. apply StronglySorted_cons in Hs as [Hall _].
  eapply Forall_forall in Hall; [|done]. apply ik_not_lt in Hle. by destruct Hle.
Qed.

Section Contract.
Context {I : Type} `{InternalIterOK I}.

Definition kf_of (ess : list (list entry)) (ps : list nat) (a : nat) : bytes := from_option fst [] ((ess !!! a) !! (ps !!! a)).

Definition live (ess : list (list entry)) (ps : list nat) : list nat :=
  filter (fun a => ps !!! a < length (ess !!! a)) (seq 0 (length ess)).

(** Each child at its place in its own list. *)
Record children_at (cs : list I) (ess : list (list entry)) (ps : list nat) : Prop := {
  ca_ess : length ess = length cs;
  ca_ps : length ps = length cs;
  ca_at a c : cs !! a = Some c -> it_at c (ess !!! a) (ps !!! a);
}.

Definition merge_over (m : mergeIter I) (es : list entry) : Prop :=
  mi_err m = None /\ ik_sorted es /\ keys_wf es /\
  exists ess, length ess = length (mi_children m) /\ es ≡ₚ concat ess /\
    forall a c, mi_children m !! a = Some c -> it_over c (ess !!! a).

Definition merge_at (m : mergeIter I) (es : list entry) (p : nat) : Prop :=
  mi_err m = None /\ ik_sorted es /\ keys_wf es /\
  exists ess ps, children_at (mi_children m) ess ps /\ es ≡ₚ concat ess /\ drop p es ≡ₚ concat (zip_with drop ps ess) /\
    mi_h m ≡ₚ live ess ps /\ heap_from (lt:=lt_of (kf_of ess ps)) 0 (length (mi_h m)) (mi_h m).

Lemma elem_live ess ps a : a ∈ live ess ps <-> a < length ess /\ ps !!! a < length (ess !!! a).
Proof. unfold live. rewrite list_elem_of_filter, elem_of_seq. lia. Qed.

Lemma live_entry ess ps a : a ∈ live ess ps -> exists e, (ess !!! a) !! (ps !!! a) = Some e /\ kf_of ess ps a = e.1.
Proof.
  intros [_ Hlt]%elem_live. destruct (lookup_lt_is_Some_2 _ _ Hlt) as [e He]. exists e. unfold kf_of. by rewrite He.
Qed.

Lemma children_wf cs ess ps a e : children_at cs ess ps -> a < length ess -> e ∈ ess !!! a -> ikey_wf e.1.
Proof.
  intros [Hl _ Hat] Ha He. destruct (lookup_lt_is_Some_2 cs a) as [c Hc]; [lia|].
  destruct (it_over_sorted _ _ (it_at_over _ _ _ (Hat a c Hc))) as [_ Hwf]. by eapply Forall_forall in Hwf.
Qed.

Lemma child_key cs ess ps a :
  children_at cs ess ps -> a ∈ live ess ps ->
  exists c e, cs !! a = Some c /\ (ess !!! a) !! (ps !!! a) = Some e /\ it_key c = Ret (kf_of ess ps a) /\ it_value c = Ret e.2 /\
    ikey_wf (kf_of ess ps a) /\ kf_of ess ps a = e.1.
Proof.
  intros Hc Hlive. destruct (live_entry _ _ _ Hlive) as (e & He & Hk). apply elem_live in Hlive as [Ha _].
  destruct (lookup_lt_is_Some_2 cs a) as [c Hca]; [rewrite <-(ca_ess _ _ _ Hc); done|].
  destruct (it_key_ok _ _ _ _ (ca_at _ _ _ Hc a c Hca) He) as [Hik Hiv]. exists c, e. rewrite Hk.
  split_and!; try done. eapply children_wf; [done..|]. by eapply list_elem_of_lookup_2.
Qed.

Lemma merge_less_ok cs ess ps a b :
  children_at cs ess ps -> a ∈ live ess ps -> b ∈ live ess ps -> merge_less cs a b = Ret (lt_of (kf_of ess ps) a b).
Proof.
  intros Hc Ha Hb. destruct (child_key _ _ _ _ Hc Ha) as (ca & ea & Hca & _ & Hka & _ & Hwa & _).
  destruct (child_key _ _ _ _ Hc Hb) as (cb & eb & Hcb & _ & Hkb & _ & Hwb & _).
  unfold merge_less, child. rewrite Hca, Hcb. cbn [mbind go_bind]. rewrite Hka, Hkb. cbn [mbind go_bind].
  unfold key_cmp. unfold ikey_wf in *. by rewrite !(proj2 (Nat.leb_le _ _)).
Qed.

Lemma live_children_ok cs ess ps : children_at cs ess ps -> live_children cs = live ess ps.
Proof.
  intros Hc. unfold live_children, live. rewrite (ca_ess _ _ _ Hc). apply list_filter_iff. intros a.
  destruct (cs !! a) as [c|] eqn:Hca; simpl.
  - rewrite (it_valid_ok _ _ _ (ca_at _ _ _ Hc a c Hca)). apply Nat.ltb_lt.
  - split; [done|]. apply lookup_ge_None in Hca. rewrite (list_lookup_total_alt ess), lookup_ge_None_2 by (rewrite (ca_ess _ _ _ Hc); done). simpl. lia.
Qed.

Lemma rebuild_ok cs m es p ess ps :
  mi_err m = None -> ik_sorted es -> keys_wf es -> children_at cs ess ps -> es ≡ₚ concat ess ->
  drop p es ≡ₚ concat (zip_with drop ps ess) -> exists m', rebuild cs m = Ret m' /\ merge_at m' es p.
Proof.
  intros He Hs Hwf Hc Hes Hd. unfold rebuild. rewrite (live_children_ok _ _ _ Hc).
  destruct (heapify_ok (less:=merge_less cs) (lt:=lt_of (kf_of ess ps)) (items:=live ess ps)) with (h:=live ess ps) as (h & -> & Hp & Hh).
  - intros a b Ha Hb. by apply merge_less_ok.
  - apply lt_of_irrefl.
  - apply lt_of_trans.
  - intros a b _ _. apply lt_of_total.
  - done.
  - cbn [mbind go_bind]. eexists. split; [done|]. split_and!; try done. by exists ess, ps.
Qed.

Lemma each_child_ok f cs ess ps :
  length ess = length cs -> length ps = length cs ->
  (forall a c, cs !! a = Some c -> exists c', f c = Ret c' /\ it_at c' (ess !!! a) (ps !!! a)) ->
  exists cs', each_child f cs = Ret cs' /\ children_at cs' ess ps.
Proof.
  revert ess ps. induction cs as [|c cs IH]; intros [|es ess] [|p ps] Hl1 Hl2 Hf; simplify_eq/=.
  - exists []. split; [done|]. by constructor.
  - destruct (Hf 0 c eq_refl) as (c' & -> & Hat). cbn [mbind go_bind].
    destruct (IH ess ps Hl1 Hl2 (fun a => Hf (S a))) as (cs' & -> & Hc). cbn [mbind go_bind]. eexists. split; [done|].
    constructor; simpl; [by rewrite (ca_ess _ _ _ Hc)|by rewrite (ca_ps _ _ _ Hc)|].
    intros [|a] c2 Hc2; [by injection Hc2 as <-|]. by apply (ca_at _ _ _ Hc).
Qed.

(** The child at the root stands at the least entry left. *)
Lemma root_least m es p x rest ess ps :
  ik_sorted es -> drop p es = x :: rest -> children_at (mi_children m) ess ps -> drop p es ≡ₚ concat (zip_with drop ps ess) ->
  mi_h m ≡ₚ live ess ps -> heap_from (lt:=lt_of (kf_of ess ps)) 0 (length (mi_h m)) (mi_h m) ->
  exists r h, mi_h m = r :: h /\ r ∈ live ess ps /\ (ess !!! r) !! (ps !!! r) = Some x.
Proof.
  intros Hs Hx Hc Hd Hp Hh. assert (ik_sorted (x :: rest)) as Hsx.
  { rewrite <-Hx. rewrite <-(take_drop p es) in Hs. by apply StronglySorted_app_1_r in Hs. }
  assert (forall a, a ∈ live ess ps -> exists e, (ess !!! a) !! (ps !!! a) = Some e /\ e ∈ x :: rest) as Hcur.
  { intros a Ha. destruct (live_entry _ _ _ Ha) as (e & He & _). exists e. split; [done|]. rewrite <-Hx, Hd.
    apply elem_of_concat. exists (drop (ps !!! a) (ess !!! a)). apply elem_live in Ha as [Ha _].
    split; [rewrite (drop_S _ _ _ He); set_solver|].
    apply (list_elem_of_lookup_2 _ a). rewrite lookup_zip_with.
    rewrite (list_lookup_lookup_total_lt ps a) by (rewrite (ca_ps _ _ _ Hc), <-(ca_ess _ _ _ Hc); done).
    by rewrite (list_lookup_lookup_total_lt ess a). }
  assert (exists a, a ∈ live ess ps /\ ik_le (kf_of ess ps a) x.1) as (a & Ha & Hax).
  { assert (x ∈ concat (zip_with drop ps ess)) as Hin by (rewrite <-Hd, Hx; set_solver).
    apply elem_of_concat in Hin as (l & Hin & Hl).
    apply list_elem_of_lookup_1 in Hl as [a Hl]. rewrite lookup_zip_with in Hl.
    destruct (ps !! a) as [pa|] eqn:Hpa; [|done]. destruct (ess !! a) as [ea|] eqn:Hea; [|done]. injection Hl as <-.
    apply list_lookup_total_correct in Hpa as Hpt. apply list_lookup_total_correct in Hea as Het.
    apply list_elem_of_lookup_1 in Hin as [k Hk]. rewrite lookup_drop in Hk. pose proof (lookup_lt_Some _ _ _ Hk) as Hlt.
    assert (a ∈ live ess ps) as Ha by (apply elem_live; rewrite Hpt, Het; split; [by eapply lookup_lt_Some|lia]).
    exists a. split; [done|]. destruct (live_entry _ _ _ Ha) as (e & He & ->). rewrite Het, Hpt in He.
    destruct (decide (k = 0)) as [->|Hk0].
    - rewrite Nat.add_0_r in Hk. rewrite Hk in He. injection He as ->. apply ik_not_lt, (irreflexivity ik_lt).
    - destruct (lookup_lt_is_Some_2 (mi_children m) a) as [c Hca]; [rewrite <-(ca_ess _ _ _ Hc); by eapply lookup_lt_Some|].
      destruct (it_over_sorted _ _ (it_at_over _ _ _ (ca_at _ _ _ Hc a c Hca))) as [Hsa _]. rewrite Het in Hsa.
      apply ik_lt_le. apply (ik_sorted_lookup _ _ _ _ _ Hsa He Hk). lia. }
  destruct (mi_h m) as [|r h] eqn:Eh; [exfalso; rewrite <-Hp in Ha; set_solver|]. exists r, h.
  assert (r ∈ live ess ps) as Hr by (rewrite <-Hp; set_solver). split_and!; [done..|].
  destruct (Hcur r Hr) as (e & He & Hin). rewrite He. f_equal. apply (sorted_head x rest); [done..|].
  rewrite <-Hp in Ha. apply list_elem_of_lookup_1 in Ha as [k Hk].
  pose proof (heap_root (lt:=lt_of (kf_of ess ps)) (items:=live ess ps) (lt_of_irrefl _) (lt_of_trans _)
    (fun a b _ _ => lt_of_total _ a b) (r :: h) k Hp Hh (lookup_lt_Some _ _ _ Hk)) as Hle.
  rewrite (list_lookup_total_correct _ _ _ Hk) in Hle. simpl in Hle. apply lt_of_le in Hle.
  destruct (live_entry _ _ _ Hr) as (e' & He' & Hke). rewrite He in He'. injection He' as <-. rewrite <-Hke. by etrans.
Qed.

(** ** Advancing the root *)

Section Next.
Context {cs : list I} {ess : list (list entry)} {ps : list nat} {r : nat} {c c' : I} {x : entry}.
Context (Hc : children_at cs ess ps) (Hcr : cs !! r = Some c) (Hx : (ess !!! r) !! (ps !!! r) = Some x).
Context (Hc' : it_at c' (ess !!! r) (S (ps !!! r))).

Lemma next_ps a : (<[r := S (ps !!! r)]> ps) !!! a = if decide (a = r) then S (ps !!! r) else ps !!! a.
Proof.
  destruct (decide (a = r)) as [->|Hne]; [|by rewrite list_lookup_total_insert_ne].
  apply list_lookup_total_insert_eq. rewrite (ca_ps _ _ _ Hc). by eapply lookup_lt_Some.
Qed.

Lemma next_children : children_at (<[r := c']> cs) ess (<[r := S (ps !!! r)]> ps).
Proof.
  destruct Hc as [Hl1 Hl2 Hat]. constructor; [by rewrite length_insert|by rewrite !length_insert|].
  intros a d Hd. rewrite next_ps. destruct (decide (a = r)) as [->|Hne].
  - rewrite list_lookup_insert_eq in Hd by (by eapply lookup_lt_Some). by injection Hd as <-.
  - rewrite list_lookup_insert_ne in Hd by done. by apply Hat.
Qed.

Lemma next_left : concat (zip_with drop ps ess) ≡ₚ x :: concat (zip_with drop (<[r := S (ps !!! r)]> ps) ess).
Proof.
  assert (r < length ess) as Hr by (rewrite (ca_ess _ _ _ Hc); by eapply lookup_lt_Some).
  assert (r < length ps) as Hrp by (rewrite (ca_ps _ _ _ Hc), <-(ca_ess _ _ _ Hc); done).
  rewrite (concat_insert _ r x (drop (S (ps !!! r)) (ess !!! r))).
  - apply reflexive_eq. do 2 f_equal. rewrite insert_zip_with. f_equal. apply list_insert_id. by apply list_lookup_lookup_total_lt.
  - rewrite lookup_zip_with, (list_lookup_lookup_total_lt ps r Hrp), (list_lookup_lookup_total_lt ess r Hr). simpl.
    f_equal. by apply drop_S.
Qed.

Lemma next_kf a : a <> r -> kf_of ess (<[r := S (ps !!! r)]> ps) a = kf_of ess ps a.
Proof. intros Hne. unfold kf_of. by rewrite next_ps, decide_False. Qed.

Lemma next_live a : a <> r -> a ∈ live ess (<[r := S (ps !!! r)]> ps) <-> a ∈ live ess ps.
Proof. intros Hne. rewrite !elem_live, next_ps, decide_False by done. done. Qed.

(** Away from the root the order is what it was. *)
Lemma next_but h :
  NoDup (r :: h) -> heap_from (lt:=lt_of (kf_of ess ps)) 0 (length (r :: h)) (r :: h) ->
  heap_but (lt:=lt_of (kf_of ess (<[r := S (ps !!! r)]> ps))) 0 0 (length (r :: h)) (r :: h).
Proof.
  intros Hnd Hh. split; [|intros; lia]. intros j Hj0 Hj _ Hpj. pose proof (parent_spec j Hj0) as Hps.
  assert (forall k, 0 < k -> k < length (r :: h) -> (r :: h) !!! k <> r) as Hne.
  { intros k Hk0 Hk E. destruct k as [|k]; [lia|]. simpl in E, Hk. apply NoDup_cons in Hnd as [Hr _]. apply Hr. rewrite <-E.
    apply (list_elem_of_lookup_2 _ k). apply list_lookup_lookup_total_lt. lia. }
  specialize (Hh j Hj0 Hj ltac:(lia)). unfold le, lt_of in *. rewrite !next_kf by (apply Hne; lia). done.
Qed.
End Next.

Lemma nodup_live ess ps : NoDup (live ess ps).
Proof. unfold live. apply NoDup_filter, NoDup_seq. Qed.

Lemma nodup_perm_ext (l k : list nat) : NoDup l -> NoDup k -> (forall a, a ∈ l <-> a ∈ k) -> l ≡ₚ k.
Proof. intros Hl Hk Hlk. by apply NoDup_Permutation. Qed.

Lemma merge_next_ok m es p : merge_at m es p -> p < length es -> exists m', merge_next m = Ret m' /\ merge_at m' es (S p).
Proof.
  intros (He & Hs & Hwf & ess & ps & Hc & Hes & Hd & Hp & Hh) Hlt. destruct (lookup_lt_is_Some_2 es p Hlt) as [x Hx].
  destruct (root_least m es p x (drop (S p) es) ess ps Hs (drop_S _ _ _ Hx) Hc Hd Hp Hh) as (r & h & Eh & Hr & Hxr).
  destruct (child_key _ _ _ _ Hc Hr) as (c & _ & Hcr & _). unfold merge_next. rewrite Eh. cbn [item lookup list_lookup mbind go_bind].
  unfold child. rewrite Hcr. cbn [mbind go_bind].
  destruct (it_next_ok _ _ _ (ca_at _ _ _ Hc r c Hcr)) as (c' & -> & Hc'); [by eapply lookup_lt_Some|]. cbn [mbind go_bind].
  pose proof (next_children Hc Hcr Hc') as Hch. rewrite Eh in Hp, Hh.
  assert (NoDup (r :: h)) as Hnd by (rewrite Hp; apply nodup_live).
  pose proof (next_but Hc Hcr h Hnd Hh) as Hbut. set (ps' := <[r := S (ps !!! r)]> ps) in *.
  assert (drop (S p) es ≡ₚ concat (zip_with drop ps' ess)) as Hd'.
  { rewrite (drop_S _ _ _ Hx), (next_left Hc Hcr Hxr) in Hd. by apply Permutation_cons_inv in Hd. }
  assert (forall a b, a ∈ live ess ps' -> b ∈ live ess ps' -> merge_less (<[r:=c']> (mi_children m)) a b = Ret (lt_of (kf_of ess ps') a b)) as Hless.
  { intros a b Ha Hb. by apply merge_less_ok. }
  assert (ps' !!! r = S (ps !!! r)) as Hpr by (unfold ps'; rewrite (next_ps Hc Hcr); by rewrite decide_True).
  assert (forall a, a ∈ h <-> a ∈ live ess ps' /\ a <> r) as Hh'.
  { intros a. apply NoDup_cons in Hnd as [Hrh _]. destruct (decide (a = r)) as [->|Hne]; [set_solver|].
    unfold ps'. rewrite (next_live Hc Hcr a Hne), <-Hp. set_solver. }
  pose proof (elem_live ess ps' r) as Hrl. rewrite Hpr in Hrl. apply elem_live in Hr as [Hrl0 _].
  rewrite (it_valid_ok _ _ _ Hc'). destruct (Nat.ltb_spec (S (ps !!! r)) (length (ess !!! r))) as [Hv|Hv].
  - assert (r :: h ≡ₚ live ess ps') as Hp'.
    { apply nodup_perm_ext; [done|apply nodup_live|]. intros a. rewrite elem_of_cons, Hh'. destruct (decide (a = r)) as [->|]; naive_solver. }
    destruct (heap_fix_ok Hless (lt_of_irrefl _) (lt_of_trans _) (fun a b _ _ => lt_of_total _ a b) (r :: h) Hp' Hbut) as (h' & -> & Hph & Hhh).
    cbn [mbind go_bind]. eexists. split; [done|]. split_and!; try done. by exists ess, ps'.
  - assert (h ≡ₚ live ess ps') as Hp'.
    { apply NoDup_cons in Hnd as [_ Hnd]. apply nodup_perm_ext; [done|apply nodup_live|]. intros a. rewrite Hh'.
      split; [naive_solver|]. intros Ha. split; [done|]. intros ->. apply Hrl in Ha. lia. }
    destruct (heap_pop_ok Hless (lt_of_irrefl _) (lt_of_trans _) (fun a b _ _ => lt_of_total _ a b) r h Hp' Hbut) as (h' & -> & Hph & Hhh).
    cbn [mbind go_bind]. eexists. split; [done|]. split_and!; try done. by exists ess, ps'.
Qed.

Lemma merge_at_over m es p : merge_at m es p -> merge_over m es.
Proof.
  intros (He & Hs & Hwf & ess & ps & Hc & Hes & _). split_and!; try done. exists ess.
  split_and!; [apply (ca_ess _ _ _ Hc)|done|]. intros a c Ha. eapply it_at_over. by apply (ca_at _ _ _ Hc).
Qed.

Lemma merge_valid_ok m es p : merge_at m es p -> merge_valid m = (p <? length es).
Proof.
  intros (He & Hs & Hwf & ess & ps & Hc & Hes & Hd & Hp & Hh). unfold merge_valid. rewrite He, bool_decide_true, andb_true_r by done.
  destruct (Nat.ltb_spec p (length es)) as [Hlt|Hge].
  - destruct (lookup_lt_is_Some_2 es p Hlt) as [x Hx].
    destruct (root_least m es p x (drop (S p) es) ess ps Hs (drop_S _ _ _ Hx) Hc Hd Hp Hh) as (r & h & -> & _). done.
  - apply Nat.ltb_ge. rewrite Hp. destruct (live ess ps) as [|a l] eqn:El; [done|]. exfalso.
    assert (a ∈ live ess ps) as Ha by (rewrite El; set_solver). destruct (live_entry _ _ _ Ha) as (e & Hea & _).
    rewrite drop_ge in Hd by done. apply Permutation_nil_l in Hd.
    apply elem_live in Ha as [Ha _]. apply (f_equal (fun l => e ∈ l)) in Hd.
    assert (e ∈ concat (zip_with drop ps ess)) as Hin; [|rewrite <-Hd in Hin; set_solver].
    apply elem_of_concat. exists (drop (ps !!! a) (ess !!! a)). split; [rewrite (drop_S _ _ _ Hea); set_solver|].
    apply (list_elem_of_lookup_2 _ a). rewrite lookup_zip_with.
    rewrite (list_lookup_lookup_total_lt ps a) by (rewrite (ca_ps _ _ _ Hc), <-(ca_ess _ _ _ Hc); done).
    by rewrite (list_lookup_lookup_total_lt ess a).
Qed.

#[global] Instance merge_InternalIterOK : InternalIterOK (mergeIter I).
Proof.
  refine {| it_over := merge_over; it_at := merge_at |}; simpl.
  - apply merge_at_over.
  - intros m es (_ & ? & ? & _). done.
  - intros m es (He & Hs & Hwf & ess & Hl & Hes & Hov). unfold merge_seekToFirst.
    destruct (each_child_ok it_seekToFirst (mi_children m) ess (replicate (length (mi_children m)) 0)) as (cs & -> & Hc); [done|by rewrite length_replicate| |].
    { intros a c Ha. rewrite (list_lookup_total_correct _ a 0) by (apply lookup_replicate_2; by eapply lookup_lt_Some).
      apply it_seekToFirst_ok. by apply Hov. }
    cbn [mbind go_bind]. eapply rebuild_ok; try done. rewrite Hes. apply reflexive_eq. f_equal.
    rewrite <-Hl. clear. induction ess as [|e ess IH]; [done|]. simpl. by rewrite <-IH.
  - intros t m es (He & Hs & Hwf & ess & Hl & Hes & Hov) Ht. unfold merge_seek.
    destruct (each_child_ok (it_seek t) (mi_children m) ess (first_ge t <$> ess)) as (cs & -> & Hc); [done|by rewrite length_fmap| |].
    { intros a c Ha. rewrite (list_lookup_total_correct _ a (first_ge t (ess !!! a))).
      2:{ rewrite list_lookup_fmap, (list_lookup_lookup_total_lt ess a); [done|]. rewrite Hl. by eapply lookup_lt_Some. }
      apply it_seek_ok; [by apply Hov|done]. }
    cbn [mbind go_bind]. eapply rebuild_ok; try done. rewrite drop_first_ge by done. rewrite Hes, filter_concat. apply reflexive_eq. f_equal.
    assert (Forall ik_sorted ess) as Hss.
    { apply Forall_lookup_2. intros a ea Ha. destruct (lookup_lt_is_Some_2 (mi_children m) a) as [c Hca]; [rewrite <-Hl; by eapply lookup_lt_Some|].
      specialize (Hov a c Hca). rewrite (list_lookup_total_correct _ _ _ Ha) in Hov. by apply it_over_sorted in Hov as [? _]. }
    clear -Hss. induction Hss as [|e ess He _ IH]; [done|]. simpl. f_equal; [by rewrite drop_first_ge|exact IH].
  - apply merge_valid_ok.
  - apply merge_next_ok.
  - intros m es p e (He & Hs & Hwf & ess & ps & Hc & Hes & Hd & Hp & Hh) Hx. unfold merge_key, merge_value, merge_top.
    destruct (root_least m es p e (drop (S p) es) ess ps Hs (drop_S _ _ _ Hx) Hc Hd Hp Hh) as (r & h & -> & Hr & Hxr).
    destruct (child_key _ _ _ _ Hc Hr) as (c & e' & Hcr & He' & Hk & Hv & _ & Hke). cbn [item lookup list_lookup mbind go_bind].
    unfold child. rewrite Hcr. cbn [mbind go_bind]. rewrite Hxr in He'. injection He' as <-. by rewrite Hk, Hv, Hke.
  - intros m es (He & Hs & Hwf & ess & Hl & Hes & Hov). rewrite He. clear -Hov. revert ess Hov.
    induction (mi_children m) as [|c cs IH]; intros ess Hov; [done|]. simpl.
    rewrite (it_close_ok c (ess !!! 0)) by (by apply (Hov 0)). apply (IH (drop 1 ess)). intros a d Ha. rewrite lookup_total_drop. by apply (Hov (S a)).
Defined.
End Contract.

(** C34: Merging iterators over disjoint sets of keys walks their union in key
    order, from the start and from any target. *)
Theorem merge_walks_union {I : Type} `{InternalIterOK I} (cs : list I) ess es :
  length ess = length cs -> (forall a c, cs !! a = Some c -> it_over c (ess !!! a)) -> ik_sorted es -> es ≡ₚ concat ess ->
  (m ← merge_seekToFirst (newMergeIter cs); drain (length es) m) = Ret es /\
  forall t, ikey_wf t -> (m ← merge_seek t (newMergeIter cs); drain (length es) m) = Ret (drop (first_ge t es) es).
Proof.
  intros Hl Hov Hs Hes. assert (it_over (newMergeIter cs) es) as Hm.
  { split_and!; [done|done| |by exists ess]. apply Forall_forall. intros e He. rewrite Hes in He.
    apply elem_of_concat in He as (l & He & [a Ha]%list_elem_of_lookup_1).
    destruct (lookup_lt_is_Some_2 cs a) as [c Hc]; [rewrite <-Hl; by eapply lookup_lt_Some|].
    pose proof (Hov a c Hc) as Ho. rewrite (list_lookup_total_correct _ _ _ Ha) in Ho. apply it_over_sorted in Ho as [_ Hwf].
    by eapply Forall_forall in Hwf. }
  split; [exact (drain_first _ _ Hm)|]. intros t Ht. exact (drain_seek t _ _ Hm Ht).
Qed.

Definition ex_key (u : byte) (s : N) : bytes := makeInternalKey [u] s kindPut.

Lemma merge_walks_union_witness :
  exists c1 c2 : skiplistIter,
    (m ← merge_seekToFirst (newMergeIter [c1; c2]); drain 3 m) = Ret [(ex_key x61 2, [x02]); (ex_key x62 1, [x01]); (ex_key x63 3, [x03])].
Proof.
  destruct (insert_holds (ex_key x62 1) [x01] _ _ (new_holds 3)) as (s1 & _ & H1); [apply makeInternalKey_wf|set_solver|].
  destruct (insert_holds (ex_key x61 2) [x02] _ _ (new_holds 4)) as (s2 & _ & H2); [apply makeInternalKey_wf|set_solver|].
  destruct (insert_holds (ex_key x63 3) [x03] _ _ H2) as (s3 & _ & H3);
    [apply makeInternalKey_wf|intros e He; apply list_elem_of_singleton in He as ->; by vm_compute|].
  exists (mkSkipIter s1 None), (mkSkipIter s3 None).
  destruct (merge_walks_union [mkSkipIter s1 None; mkSkipIter s3 None]
    [[(ex_key x62 1, [x01])]; [(ex_key x61 2, [x02]); (ex_key x63 3, [x03])]]
    [(ex_key x61 2, [x02]); (ex_key x62 1, [x01]); (ex_key x63 3, [x03])]) as [H _]; [done| | | |exact H].
  - intros [|[|a]] c Hc; [injection Hc as <-; exact H1|injection Hc as <-|done]. vm_compute in H3. vm_compute. exact H3.
  - repeat constructor; by vm_compute.
  - simpl. apply Permutation_swap.
Defined.
