(* ===== verification/Block.v ===== *)
(** * storage/block.go: blocks of prefix-compressed entries

    The builder and the iterator of a block, down to its bytes.  A block
    written by the builder is read back entry by entry, and [seek] lands on
    the first key at or above its target.  A malformed block can make the
    decoder panic: [decodeAt] slices before it checks. *)

From stdpp Require Import base list sorting.
From S2P Require Import Prelude Codec Key Iter.

Definition restartInterval : nat := 16.

(** ** Building *)

Record blockBuilder := mkBuilder {
  bb_buf : bytes;
  bb_restarts : list N;
  bb_lastKey : bytes;
  bb_count : nat;
}.

Definition emptyBuilder : blockBuilder := mkBuilder [] [] [] 0.

(** The loop that counts the bytes two keys share. *)
Fixpoint common_prefix (a b : bytes) : nat :=
  match a, b with
  | x :: a, y :: b => if decide (x = y) then S (common_prefix a b) else 0
  | _, _ => 0
  end.

Definition encode_entry (shared : nat) (key value : bytes) : bytes :=
  put_uvarint (u64 (N.of_nat shared)) ++ put_uvarint (u64 (N.of_nat (length key - shared)))
    ++ put_uvarint (u64 (N.of_nat (length value))) ++ drop shared key ++ value.

Definition builder_add (key value : bytes) (b : blockBuilder) : blockBuilder :=
  let restart := bb_count b mod restartInterval =? 0 in
  let shared := if restart then 0 else common_prefix key (bb_lastKey b) in
  mkBuilder (bb_buf b ++ encode_entry shared key value)
    (if restart then bb_restarts b ++ [u32 (N.of_nat (length (bb_buf b)))] else bb_restarts b)
    key (S (bb_count b)).

Definition builder_size (b : blockBuilder) : nat := length (bb_buf b) + 4 * length (bb_restarts b) + 4.

Definition builder_empty (b : blockBuilder) : bool := bb_count b =? 0.

(** [finish] appends to the builder's buffer and returns it. *)
Definition builder_finish (b : blockBuilder) : blockBuilder * bytes :=
  let buf := bb_buf b ++ concat (le_put 4 <$> bb_restarts b)
               ++ le_put 4 (u32 (N.of_nat (length (bb_restarts b)))) in
  (mkBuilder buf (bb_restarts b) (bb_lastKey b) (bb_count b), buf).

Definition builder_reset (b : blockBuilder) : blockBuilder := emptyBuilder.

(** ** Iterating *)

Record blockIter := mkBlockIter {
  bi_data : bytes;
  bi_restarts : list N;
  bi_off : Z;
  bi_nextOff : Z;
  bi_k : bytes;
  bi_v : bytes;
  bi_err : option error;
}.

Fixpoint read_restarts (n : nat) (b : bytes) (stop : Z) : go (list N) :=
  match n with
  | O => Ret []
  | S n =>
      r ← le_uint 4 b;
      if (stop <? Z.of_N r)%Z then Fail ErrBadBlock
      else rs ← read_restarts n (drop 4 b) stop; Ret (r :: rs)
  end.

Definition newBlockIter (block : bytes) : go blockIter :=
  if length block <? 4 then Fail ErrBadBlock
  else
    n ← le_uint 4 (drop (length block - 4) block);
    let stop := (Z.of_nat (length block) - 4 - 4 * Z.of_N n)%Z in
    if (stop <? 0)%Z then Fail ErrBadBlock
    else
      restarts ← read_restarts (N.to_nat n) (drop (Z.to_nat stop) block) stop;
      Ret (mkBlockIter (take (Z.to_nat stop) block) restarts (-1) 0 [] [] None).

(** The entry at [off], sharing a prefix with [prev]: its key, its value and
    its length, or nothing if it is malformed.  The varints are read, and the
    data sliced by their lengths, before the lengths are checked. *)
Definition decodeAt (data : bytes) (off : Z) (prev : bytes) : go (option (bytes * bytes * Z)) :=
  let len (b : bytes) := Z.of_nat (length b) in
  d ← slice_z data off (len data);
  let '(shared, n1) := uvarint d in
  d1 ← slice_z d n1 (len d);
  let '(unshared, n2) := uvarint d1 in
  d2 ← slice_z d (n1 + n2) (len d);
  let '(vlen, n3) := uvarint d2 in
  let hdr := (n1 + n2 + n3)%Z in
  if (n1 <=? 0)%Z || (n2 <=? 0)%Z || (n3 <=? 0)%Z || (len prev <? to_int shared)%Z
     || (len d <? wrap_int (wrap_int (hdr + to_int unshared) + to_int vlen))%Z
  then Ret None
  else
    pre ← slice_z prev 0 (Z.of_N shared);
    let ke := wrap_int (hdr + to_int unshared) in
    suf ← slice_z d hdr ke;
    let ve := wrap_int (ke + to_int vlen) in
    value ← slice_z d ke ve;
    Ret (Some (pre ++ suf, value, ve)).

Definition bi_invalid (it : blockIter) (err : option error) : blockIter :=
  mkBlockIter (bi_data it) (bi_restarts it) (-1) (bi_nextOff it) (bi_k it) (bi_v it) err.

Definition block_next (it : blockIter) : go blockIter :=
  if (Z.of_nat (length (bi_data it)) <=? bi_nextOff it)%Z then Ret (bi_invalid it (bi_err it))
  else
    let off := bi_nextOff it in
    r ← decodeAt (bi_data it) off (bi_k it);
    match r with
    | None => Ret (bi_invalid it (Some ErrBadBlock))
    | Some (k, v, n) =>
        Ret (mkBlockIter (bi_data it) (bi_restarts it) off (off + n) k v (bi_err it))
    end.

Definition block_valid (it : blockIter) : bool :=
  (0 <=? bi_off it)%Z && bool_decide (bi_err it = None).

Definition block_rewind (off : Z) (it : blockIter) : blockIter :=
  mkBlockIter (bi_data it) (bi_restarts it) (bi_off it) off [] (bi_v it) (bi_err it).

Definition block_seekToFirst (it : blockIter) : go blockIter := block_next (block_rewind 0 it).

(** [sort.Search]: halving the interval at least once per round. *)
Fixpoint search (fuel : nat) (f : nat -> go bool) (i j : nat) : go nat :=
  if i <? j then
    match fuel with
    | O => Panic
    | S fuel =>
        let h := (i + j) / 2 in
        r ← f h;
        if (r : bool) then search fuel f i h else search fuel f (S h) j
    end
  else Ret i.

(** The search predicate: the restart's key is not below the target. *)
Definition restart_ge (target : bytes) (it : blockIter) (i : nat) : go bool :=
  match bi_restarts it !! i with
  | None => Panic
  | Some off =>
      r ← decodeAt (bi_data it) (Z.of_N off) [];
      match r with
      | None => Ret true
      | Some (k, _, _) => b ← key_lt k target; Ret (negb b)
      end
  end.

(** Every round of the scan moves on in the data, so its length is enough
    fuel. *)
Fixpoint scan_to (fuel : nat) (target : bytes) (it : blockIter) : go blockIter :=
  if block_valid it then
    b ← key_lt (bi_k it) target;
    if (b : bool) then
      match fuel with
      | O => Panic
      | S fuel => it ← block_next it; scan_to fuel target it
      end
    else Ret it
  else Ret it.

Definition block_seek (target : bytes) (it : blockIter) : go blockIter :=
  i ← search (length (bi_restarts it)) (restart_ge target it) 0 (length (bi_restarts it));
  let i := if 0 <? i then i - 1 else i in
  match bi_restarts it !! i with
  | None => Ret (bi_invalid it (bi_err it))
  | Some off =>
      it ← block_next (block_rewind (Z.of_N off) it);
      scan_to (length (bi_data it)) target it
  end.

#[global] Instance block_InternalIter : InternalIter blockIter := {
  it_seekToFirst := block_seekToFirst;
  it_seek := block_seek;
  it_valid := block_valid;
  it_next := block_next;
  it_key it := Ret (bi_k it);
  it_value it := Ret (bi_v it);
  it_close it := (it, bi_err it);
}.

(** ** What the builder wrote *)

Definition build (es : list entry) : blockBuilder :=
  foldl (fun b e => builder_add e.1 e.2 b) emptyBuilder es.

Definition block_data (es : list entry) : bytes := bb_buf (build es).

(** The offset of an entry. *)
Definition entry_off (es : list entry) (i : nat) : nat := length (block_data (take i es)).

Definition shared_at (es : list entry) (i : nat) (key : bytes) : nat :=
  if i mod restartInterval =? 0 then 0 else common_prefix key (bb_lastKey (build (take i es))).

(** Offsets fit in the four bytes of a restart. *)
Definition block_small (es : list entry) : Prop := (N.of_nat (length (block_data es)) < w32)%N.

Lemma build_snoc es e : build (es ++ [e]) = builder_add e.1 e.2 (build es).
Proof. unfold build. by rewrite foldl_app. Qed.

Lemma build_count es : bb_count (build es) = length es.
Proof.
  induction es as [|e es IH] using rev_ind; [done|]. rewrite build_snoc, length_app. simpl. rewrite IH. lia.
Qed.

Lemma build_lastKey es : bb_lastKey (build es) = from_option fst [] (last es).
Proof. destruct es as [|e es _] using rev_ind; [done|]. by rewrite build_snoc, last_snoc. Qed.

Lemma block_data_snoc es i e :
  es !! i = Some e ->
  block_data (take (S i) es) = block_data (take i es) ++ encode_entry (shared_at es i e.1) e.1 e.2.
Proof.
  intros He. unfold block_data. rewrite (take_S_r _ _ _ He), build_snoc. simpl. unfold shared_at.
  rewrite build_count, length_take_le by (apply lookup_lt_Some in He; lia). done.
Qed.

Lemma block_data_app l1 l2 : exists rest, block_data (l1 ++ l2) = block_data l1 ++ rest.
Proof.
  induction l2 as [|e l IH] using rev_ind; [exists []; by rewrite !app_nil_r|].
  destruct IH as [rest Hr]. unfold block_data in *. rewrite app_assoc, build_snoc. simpl. rewrite Hr.
  eexists. by rewrite <-app_assoc.
Qed.

Lemma block_data_prefix es i : exists rest, block_data es = block_data (take i es) ++ rest.
Proof. destruct (block_data_app (take i es) (drop i es)) as [rest Hr]. rewrite take_drop in Hr. eauto. Qed.

Lemma block_data_at es i e :
  es !! i = Some e ->
  exists rest, block_data es = block_data (take i es) ++ encode_entry (shared_at es i e.1) e.1 e.2 ++ rest.
Proof.
  intros He. destruct (block_data_prefix es (S i)) as [rest Hr]. rewrite (block_data_snoc _ _ _ He) in Hr.
  exists rest. by rewrite Hr, <-app_assoc.
Qed.

Lemma encode_entry_length sh k v : 3 <= length (encode_entry sh k v).
Proof.
  unfold encode_entry, put_uvarint. rewrite !length_app.
  pose proof (uvarint_put_nonempty 10 (u64 (N.of_nat sh))).
  pose proof (uvarint_put_nonempty 10 (u64 (N.of_nat (length k - sh)))).
  pose proof (uvarint_put_nonempty 10 (u64 (N.of_nat (length v)))). lia.
Qed.

Lemma entry_off_S es i e :
  es !! i = Some e -> entry_off es (S i) = entry_off es i + length (encode_entry (shared_at es i e.1) e.1 e.2).
Proof. intros He. unfold entry_off. by rewrite (block_data_snoc _ _ _ He), length_app. Qed.

Lemma entry_off_all es i : length es <= i -> entry_off es i = length (block_data es).
Proof. intros. unfold entry_off. by rewrite take_ge. Qed.

Lemma entry_off_lt es i : i < length es -> entry_off es i < length (block_data es).
Proof.
  intros [e He]%lookup_lt_is_Some. destruct (block_data_at _ _ _ He) as [rest ->]. unfold entry_off.
  rewrite !length_app. pose proof (encode_entry_length (shared_at es i e.1) e.1 e.2). lia.
Qed.

Lemma block_data_entries es : 3 * length es <= length (block_data es).
Proof.
  induction es as [|e es IH] using rev_ind; [simpl; lia|]. unfold block_data in *.
  rewrite build_snoc, length_app. simpl. rewrite length_app.
  match goal with |- context [encode_entry ?s ?k ?v] => pose proof (encode_entry_length s k v) end. lia.
Qed.

(** ** Restarts *)

Lemma build_restarts es j :
  bb_restarts (build es) !! j =
    if decide (j * restartInterval < length es) then Some (u32 (N.of_nat (entry_off es (j * restartInterval)))) else None.
Proof.
  revert j. induction es as [|e es IH] using rev_ind; intros j; [by rewrite decide_False by (simpl; lia)|].
  rewrite build_snoc. unfold builder_add. cbn [bb_restarts]. rewrite build_count.
  assert (length (bb_restarts (build es)) * restartInterval < length es + restartInterval /\
          length es <= length (bb_restarts (build es)) * restartInterval) as [Hub Hlb].
  { unfold restartInterval in *. destruct (decide (length (bb_restarts (build es)) = 0)) as [Hz|Hz].
    - specialize (IH 0). rewrite lookup_ge_None_2 in IH by lia. destruct (decide _); [done|]. lia.
    - pose proof (IH (length (bb_restarts (build es)))) as H1. rewrite lookup_ge_None_2 in H1 by lia.
      destruct (decide _); [done|].
      destruct (lookup_lt_is_Some_2 (bb_restarts (build es)) (length (bb_restarts (build es)) - 1)) as [x Hx]; [lia|].
      rewrite (IH _) in Hx. destruct (decide _); [|done]. lia. }
  set (n := length (bb_restarts (build es))) in *.
  assert (entry_off (es ++ [e]) (j * restartInterval) = entry_off es (j * restartInterval) \/ length es < j * restartInterval) as Hoff.
  { destruct (decide (j * restartInterval <= length es)); [left|right; lia]. unfold entry_off. by rewrite take_app_le. }
  rewrite length_app. simpl length.
  destruct (Nat.eqb_spec (length es mod restartInterval) 0) as [Hm|Hm]; cbv iota.
  - assert (n * restartInterval = length es) as Hn.
    { unfold restartInterval in *. apply Nat.Div0.mod_divides in Hm as [c Hc]. lia. }
    destruct (decide (j = n)) as [->|Hne].
    + rewrite lookup_app_r by done. fold n. rewrite Nat.sub_diag. simpl. rewrite decide_True by lia.
      destruct Hoff as [->|?]; [|lia]. by rewrite Hn, entry_off_all.
    + destruct (decide (j < n)) as [Hlt|Hge].
      * rewrite lookup_app_l by done. rewrite IH, !decide_True by (unfold restartInterval in *; lia).
        destruct Hoff as [->|?]; [done|unfold restartInterval in *; lia].
      * rewrite lookup_ge_None_2 by (rewrite length_app; simpl; fold n; lia).
        rewrite decide_False; [done|]. unfold restartInterval in *. lia.
  - rewrite IH. destruct (decide (j * restartInterval < length es)) as [Hlt|Hge].
    + rewrite decide_True by lia. by destruct Hoff as [->|?]; [|lia].
    + rewrite decide_False; [done|]. intros Hlt. assert (length es = j * restartInterval) as Heq by lia.
      rewrite Heq in Hm. unfold restartInterval in *. by rewrite Nat.Div0.mod_mul in Hm.
Qed.

(** ** Reading an entry *)

Lemma common_prefix_take a b : take (common_prefix a b) a = take (common_prefix a b) b.
Proof.
  revert b. induction a as [|x a IH]; intros [|y b]; simpl; try done.
  destruct (decide (x = y)) as [->|]; [|done]. simpl. by rewrite IH.
Qed.

Lemma common_prefix_le a b : common_prefix a b <= length a /\ common_prefix a b <= length b.
Proof.
  revert b. induction a as [|x a IH]; intros [|y b]; simpl; try lia.
  destruct (decide _); simpl; [|lia]. specialize (IH b). lia.
Qed.

Lemma slice_z_app {A} (a b c : list A) (lo hi : Z) :
  lo = Z.of_nat (length a) -> hi = Z.of_nat (length a + length b) ->
  slice_z (a ++ b ++ c) lo hi = Ret b.
Proof.
  intros -> ->. rewrite slice_z_ok by (rewrite ?length_app; lia). rewrite !Nat2Z.id. f_equal.
  rewrite drop_app_length. replace (length a + length b - length a) with (length b) by lia.
  apply take_app_length.
Qed.

Lemma slice_z_tail {A} (a b : list A) (lo hi : Z) :
  lo = Z.of_nat (length a) -> hi = Z.of_nat (length (a ++ b)) -> slice_z (a ++ b) lo hi = Ret b.
Proof.
  intros -> ->. pose proof (slice_z_app a b [] (Z.of_nat (length a)) (Z.of_nat (length a + length b)) eq_refl eq_refl) as Hs.
  rewrite app_nil_r in Hs. by rewrite length_app.
Qed.

Lemma put_uvarint_pos x : 0 < length (put_uvarint x).
Proof. apply uvarint_put_nonempty. lia. Qed.

(** An entry written after [pre] is read back with the key before it. *)
Lemma decodeAt_encode pre rest sh k v prev :
  let data := pre ++ encode_entry sh k v ++ rest in
  (N.of_nat (length data) < 4611686018427387904)%N -> (N.of_nat (length k) < 4611686018427387904)%N ->
  sh <= length k -> sh <= length prev -> take sh prev = take sh k ->
  decodeAt data (Z.of_nat (length pre)) prev =
    Ret (Some (k, v, Z.of_nat (length (encode_entry sh k v)))).
Proof.
  intros data Hdata Hk Hsk Hsp Hpre. unfold decodeAt. unfold data at 1.
  rewrite slice_z_tail by done. unfold data in Hdata. clear data. rewrite !length_app in Hdata.
  cbn [mbind go_bind].
  set (d := encode_entry sh k v ++ rest). unfold d at 1. unfold encode_entry. rewrite <-!app_assoc.
  set (b1 := put_uvarint (u64 (N.of_nat sh))). set (b2 := put_uvarint (u64 (N.of_nat (length k - sh)))).
  set (b3 := put_uvarint (u64 (N.of_nat (length v)))).
  assert (d = b1 ++ b2 ++ b3 ++ drop sh k ++ v ++ rest) as Hd.
  { unfold d, encode_entry. by rewrite <-!app_assoc. }
  assert (length (encode_entry sh k v) = length b1 + length b2 + length b3 + (length k - sh) + length v) as Hlen.
  { unfold encode_entry. rewrite !length_app, length_drop. fold b1 b2 b3. lia. }
  assert (0 < length b1 /\ 0 < length b2 /\ 0 < length b3) as (Hb1 & Hb2 & Hb3) by (split_and!; apply put_uvarint_pos).
  assert (length d = length (encode_entry sh k v) + length rest) as Hld by (unfold d; by rewrite length_app).
  unfold b1 at 1. rewrite uvarint_put_uvarint by apply u64_lt. fold b1.
  rewrite Hd at 1 2. rewrite slice_z_tail by (rewrite <-?Hd; done). cbn [mbind go_bind].
  unfold b2 at 1. rewrite uvarint_put_uvarint by apply u64_lt. fold b2.
  replace d with ((b1 ++ b2) ++ b3 ++ drop sh k ++ v ++ rest) at 1 by (by rewrite Hd, <-!app_assoc).
  rewrite slice_z_tail by (rewrite ?length_app; rewrite <-?Hd, ?length_app; lia || (rewrite Hd, !length_app; lia)).
  cbn [mbind go_bind].
  unfold b3 at 1. rewrite uvarint_put_uvarint by apply u64_lt. fold b3.
  rewrite !u64_small by (unfold w64; lia). rewrite !to_int_small by lia.
  repeat match goal with |- context [wrap_int ?z] =>
    lazymatch z with context [wrap_int _] => fail | _ => rewrite (wrap_int_small z) by lia end end.
  match goal with |- context [if ?c then _ else _] => assert (c = false) as -> end.
  { repeat (apply orb_false_iff; split); first [apply Z.leb_gt|apply Z.ltb_ge]; lia. }
  assert (slice_z prev 0 (Z.of_N (N.of_nat sh)) = Ret (take sh k)) as ->.
  { rewrite slice_z_ok by lia. rewrite <-Hpre. change (Z.to_nat 0) with 0. rewrite drop_0. do 2 f_equal. lia. }
  cbn [mbind go_bind].
  match goal with |- context [slice_z d ?lo ?hi] => assert (slice_z d lo hi = Ret v) as -> end.
  { replace d with ((b1 ++ b2 ++ b3 ++ drop sh k) ++ v ++ rest) by (by rewrite Hd, <-!app_assoc).
    apply slice_z_app; rewrite ?length_app, ?length_drop; lia. }
  match goal with |- context [slice_z d ?lo ?hi] => assert (slice_z d lo hi = Ret (drop sh k)) as -> end.
  { replace d with ((b1 ++ b2 ++ b3) ++ drop sh k ++ v ++ rest) by (by rewrite Hd, <-!app_assoc).
    apply slice_z_app; rewrite ?length_app, ?length_drop; lia. }
  cbn [mbind go_bind]. rewrite take_drop. do 3 f_equal.
  rewrite !length_app, length_drop. lia.
Qed.

(** ** The iterator walks the entries *)

Lemma last_take_S {A} (l : list A) i x : l !! i = Some x -> last (take (S i) l) = Some x.
Proof. intros Hx. by rewrite (take_S_r _ _ _ Hx), last_snoc. Qed.

Lemma key_length_off es i e : es !! i = Some e -> length e.1 <= entry_off es (S i).
Proof.
  revert e. induction i as [|i IH]; intros e He; rewrite (entry_off_S _ _ _ He); unfold encode_entry, shared_at;
    rewrite !length_app, length_drop.
  - change (0 mod restartInterval =? 0) with true. cbv iota. lia.
  - destruct (_ =? 0); [lia|]. destruct (lookup_lt_is_Some_2 es i) as [e0 He0]; [apply lookup_lt_Some in He; lia|].
    specialize (IH e0 He0). rewrite build_lastKey, (last_take_S _ _ _ He0). simpl.
    pose proof (common_prefix_le e.1 e0.1). lia.
Qed.

Lemma entry_off_le es i : entry_off es i <= length (block_data es).
Proof.
  destruct (decide (i < length es)); [apply Nat.lt_le_incl; by apply entry_off_lt|].
  rewrite entry_off_all; lia.
Qed.

(** The key an entry may share a prefix with. *)
Definition prev_ok (es : list entry) (i : nat) (prev : bytes) : Prop :=
  i mod restartInterval = 0 \/ exists j e, i = S j /\ es !! j = Some e /\ prev = e.1.

Lemma decode_entry es i e prev :
  es !! i = Some e -> block_small es -> prev_ok es i prev ->
  decodeAt (block_data es) (Z.of_nat (entry_off es i)) prev =
    Ret (Some (e.1, e.2, Z.of_nat (entry_off es (S i) - entry_off es i))).
Proof.
  intros He Hsmall Hprev. destruct (block_data_at _ _ _ He) as [rest Hdata].
  pose proof (key_length_off _ _ _ He) as Hkl. pose proof (entry_off_le es (S i)) as Hol.
  unfold block_small, w32 in Hsmall. rewrite (entry_off_S _ _ _ He), Nat.add_comm, Nat.add_sub.
  rewrite Hdata. unfold entry_off at 1. apply decodeAt_encode.
  - rewrite <-Hdata. lia.
  - lia.
  - unfold shared_at. destruct (_ =? 0); [lia|]. apply common_prefix_le.
  - unfold shared_at. destruct (Nat.eqb_spec (i mod restartInterval) 0) as [|Hm]; [lia|].
    destruct Hprev as [|(j & e0 & -> & He0 & ->)]; [done|].
    rewrite build_lastKey, (last_take_S _ _ _ He0). apply common_prefix_le.
  - unfold shared_at. destruct (Nat.eqb_spec (i mod restartInterval) 0) as [|Hm]; [done|].
    destruct Hprev as [|(j & e0 & -> & He0 & ->)]; [done|].
    rewrite build_lastKey, (last_take_S _ _ _ He0). symmetry. apply common_prefix_take.
Qed.

Definition block_over (it : blockIter) (es : list entry) : Prop :=
  bi_data it = block_data es /\ bi_restarts it = bb_restarts (build es) /\ bi_err it = None /\
  ik_sorted es /\ keys_wf es /\ block_small es.

Definition block_at (it : blockIter) (es : list entry) (i : nat) : Prop :=
  block_over it es /\ i <= length es /\
  match es !! i with
  | Some e => bi_off it = Z.of_nat (entry_off es i) /\ bi_nextOff it = Z.of_nat (entry_off es (S i)) /\
              bi_k it = e.1 /\ bi_v it = e.2
  | None => bi_off it = (-1)%Z
  end.

(** [next] decodes the entry at [bi_nextOff]. *)
Lemma block_next_at it es i :
  block_over it es -> i <= length es -> bi_nextOff it = Z.of_nat (entry_off es i) -> prev_ok es i (bi_k it) ->
  exists it', block_next it = Ret it' /\ block_at it' es i.
Proof.
  intros Hov Hi Hoff Hprev. pose proof Hov as (Hd & Hr & He & Hs & Hwf & Hsm). unfold block_next. rewrite Hd, Hoff.
  destruct (es !! i) as [e|] eqn:Hei.
  - pose proof (entry_off_lt es i (lookup_lt_Some _ _ _ Hei)) as Hlt.
    destruct (Z.leb_spec (Z.of_nat (length (block_data es))) (Z.of_nat (entry_off es i))); [lia|].
    rewrite (decode_entry _ _ _ _ Hei Hsm Hprev). cbn [mbind go_bind]. eexists. split; [done|].
    split; [by split_and!|]. split; [done|]. rewrite Hei. split_and!; simpl; try done.
    pose proof (entry_off_S _ _ _ Hei). lia.
  - apply lookup_ge_None in Hei. rewrite entry_off_all by lia. rewrite Z.leb_refl.
    eexists. split; [done|]. split; [by split_and!|]. split; [done|].
    by rewrite lookup_ge_None_2.
Qed.

Lemma block_valid_at it es i : block_at it es i -> block_valid it = (i <? length es).
Proof.
  intros ((_ & _ & He & _) & Hi & Hm). unfold block_valid. rewrite He.
  destruct (es !! i) as [e|] eqn:Hei.
  - destruct Hm as (-> & _). rewrite (proj2 (Nat.ltb_lt _ _)) by (by eapply lookup_lt_Some).
    by rewrite (proj2 (Z.leb_le _ _)) by lia.
  - rewrite Hm. apply lookup_ge_None in Hei. by rewrite (proj2 (Nat.ltb_ge _ _)) by lia.
Qed.

Lemma block_next_step it es i :
  block_at it es i -> i < length es -> exists it', block_next it = Ret it' /\ block_at it' es (S i).
Proof.
  intros (Hov & Hi & Hm) Hlt. destruct (es !! i) as [e|] eqn:Hei; [|apply lookup_ge_None in Hei; lia].
  destruct Hm as (_ & Hn & Hk & _). apply block_next_at; [done|lia|done|]. right. eauto.
Qed.

Lemma block_first_at it es : block_over it es -> exists it', block_seekToFirst it = Ret it' /\ block_at it' es 0.
Proof. intros Hov. apply block_next_at; [done|lia|done|by left]. Qed.

(** ** Searching *)

Lemma search_spec fuel f (p : nat -> bool) n i j :
  (forall h, h < n -> f h = Ret (p h)) -> (forall a b, a <= b -> b < n -> p a = true -> p b = true) ->
  i <= j <= n -> j - i <= fuel ->
  exists r, search fuel f i j = Ret r /\ i <= r <= j /\
    (forall h, i <= h < r -> p h = false) /\ (r < j -> p r = true).
Proof.
  intros Hf Hmono. revert i j. induction fuel as [|fuel IH]; intros i j Hij Hfuel; cbn [search].
  - destruct (Nat.ltb_spec i j); [lia|]. exists i. split_and!; [done|lia..].
  - destruct (Nat.ltb_spec i j); [|exists i; split_and!; [done|lia..]].
    set (h := (i + j) / 2). assert (i <= h < j) as Hh.
    { subst h. split; [apply Nat.div_le_lower_bound; lia|apply Nat.Div0.div_lt_upper_bound; lia]. }
    clearbody h. rewrite Hf by lia. cbn [mbind go_bind]. destruct (p h) eqn:Hp.
    + destruct (IH i h) as (r & Hr & Hb & Hlo & Hhi); [lia|lia|]. exists r. split_and!; [done|lia|lia|done|].
      intros ?. destruct (decide (r = h)) as [->|]; [done|]. apply Hhi. lia.
    + destruct (IH (S h) j) as (r & Hr & Hb & Hlo & Hhi); [lia|lia|]. exists r. split_and!; [done|lia|lia| |done].
      intros x Hx. destruct (decide (h < x)); [apply Hlo; lia|]. destruct (p x) eqn:Hpx; [|done].
      rewrite (Hmono x h) in Hp; [done|lia..|done].
Qed.

Lemma restart_lookup it es j :
  block_over it es -> bi_restarts it !! j =
    if decide (j * restartInterval < length es) then Some (N.of_nat (entry_off es (j * restartInterval))) else None.
Proof.
  intros (_ & -> & _ & _ & _ & Hsm). rewrite build_restarts. destruct (decide _); [|done]. rewrite u32_small; [done|].
  unfold block_small in Hsm. pose proof (entry_off_le es (j * restartInterval)). lia.
Qed.

(** The key at a restart is not below the target. *)
Definition restart_p (t : bytes) (es : list entry) (j : nat) : bool :=
  match es !! (j * restartInterval) with Some e => negb (bool_decide (ik_lt e.1 t)) | None => true end.

Lemma restart_ge_ok t it es j :
  block_over it es -> ikey_wf t -> j < length (bi_restarts it) -> restart_ge t it j = Ret (restart_p t es j).
Proof.
  intros Hov Ht Hj. unfold restart_ge. apply lookup_lt_is_Some in Hj as [off Hoff]. rewrite Hoff.
  rewrite (restart_lookup _ _ _ Hov) in Hoff. destruct (decide _) as [Hlt|]; [|done]. injection Hoff as <-.
  destruct Hov as (-> & _ & _ & _ & Hwf & Hsm).
  apply lookup_lt_is_Some in Hlt as [e He]. unfold restart_p. rewrite He.
  replace (Z.of_N (N.of_nat (entry_off es (j * restartInterval)))) with (Z.of_nat (entry_off es (j * restartInterval))) by lia.
  rewrite (decode_entry _ _ e [] He Hsm) by (left; apply Nat.Div0.mod_mul). cbn [mbind go_bind].
  rewrite key_lt_wf; [done| |done]. unfold keys_wf in Hwf. rewrite Forall_forall in Hwf.
  by eapply Hwf, list_elem_of_lookup_2.
Qed.

Lemma restart_p_mono t es a b : ik_sorted es -> a <= b -> b * restartInterval < length es ->
  restart_p t es a = true -> restart_p t es b = true.
Proof.
  intros Hs Hab Hb. unfold restart_p, restartInterval in *.
  destruct (lookup_lt_is_Some_2 es (a * 16)) as [ea Ha]; [lia|].
  destruct (lookup_lt_is_Some_2 es (b * 16)) as [eb Hb']; [lia|]. rewrite Ha, Hb'.
  rewrite !negb_true_iff, !bool_decide_eq_false. intros Hn Hlt. apply Hn.
  destruct (decide (a = b)) as [->|Hne]; [congruence|].
  etrans; [|exact Hlt]. eapply (ik_sorted_lookup es); [done..|lia].
Qed.

Lemma scan_to_ok fuel t it es p :
  block_at it es p -> ikey_wf t -> p <= first_ge t es -> length es - p <= fuel ->
  exists it', scan_to fuel t it = Ret it' /\ block_at it' es (first_ge t es).
Proof.
  intros Hat Ht. revert it p Hat. induction fuel as [|fuel IH]; intros it p Hat Hp Hf; simpl;
    rewrite (block_valid_at _ _ _ Hat); destruct (Nat.ltb_spec p (length es)) as [Hlt|Hge].
  - lia.
  - exists it. split; [done|]. pose proof (first_ge_le t es). by replace (first_ge t es) with p by lia.
  - pose proof Hat as ((_ & _ & _ & Hs & Hwf & _) & _ & Hm).
    destruct (lookup_lt_is_Some_2 es p Hlt) as [e He]. rewrite He in Hm. destruct Hm as (_ & _ & -> & _).
    rewrite key_lt_wf; [|unfold keys_wf in Hwf; rewrite Forall_forall in Hwf; by eapply Hwf, list_elem_of_lookup_2|done].
    cbn [mbind go_bind]. case_bool_decide as Hkt.
    + destruct (block_next_step _ _ _ Hat Hlt) as (it1 & -> & Hat1). cbn [mbind go_bind]. apply (IH it1 (S p)); [done| |lia].
      destruct (decide (p = first_ge t es)) as [->|]; [|lia]. exfalso. by eapply first_ge_at.
    + exists it. split; [done|]. replace (first_ge t es) with p; [done|].
      destruct (decide (p < first_ge t es)) as [Hlt'|]; [|lia]. exfalso. apply Hkt. by eapply first_ge_below.
  - exists it. split; [done|]. pose proof (first_ge_le t es). by replace (first_ge t es) with p by lia.
Qed.

Lemma first_ge_of_below t es i e : ik_sorted es -> es !! i = Some e -> ik_lt e.1 t -> i <= first_ge t es.
Proof.
  intros Hs He Hlt. destruct (decide (i <= first_ge t es)) as [|Hn]; [done|]. exfalso.
  apply (ik_not_lt e.1 t); [|done]. eapply first_ge_above; [done..|lia].
Qed.

Lemma block_seek_at t it es :
  block_over it es -> ikey_wf t -> exists it', block_seek t it = Ret it' /\ block_at it' es (first_ge t es).
Proof.
  intros Hov Ht. pose proof Hov as (Hd & _ & _ & Hs & _).
  unfold block_seek. set (n := length (bi_restarts it)).
  assert (forall j, j < n -> j * restartInterval < length es) as Hn.
  { intros j [x Hx]%lookup_lt_is_Some. rewrite (restart_lookup _ _ _ Hov) in Hx. by destruct (decide _). }
  destruct (search_spec n (restart_ge t it) (restart_p t es) n 0 n) as (r & -> & Hr & Hlo & Hhi).
  - intros h Hh. by apply restart_ge_ok.
  - intros a b Hab Hb. apply restart_p_mono; auto.
  - lia.
  - lia.
  - cbn [mbind go_bind]. set (i := if 0 <? r then r - 1 else r).
    rewrite (restart_lookup _ _ _ Hov). destruct (decide _) as [Hi|Hi].
    + replace (Z.of_N (N.of_nat (entry_off es (i * restartInterval)))) with (Z.of_nat (entry_off es (i * restartInterval))) by lia.
      destruct (block_next_at (block_rewind (Z.of_nat (entry_off es (i * restartInterval))) it) es (i * restartInterval))
        as (it1 & -> & Hat); [done|lia|done|left; apply Nat.Div0.mod_mul|].
      cbn [mbind go_bind]. pose proof (block_data_entries es). apply (scan_to_ok _ _ _ _ (i * restartInterval)); [done|done| |].
      * destruct (Nat.ltb_spec 0 r) as [Hpos|]; subst i; [|lia].
        pose proof (Hlo (r - 1) ltac:(lia)) as Hp. unfold restart_p in Hp.
        apply lookup_lt_is_Some in Hi as [e He]. rewrite He in Hp.
        apply negb_false_iff, bool_decide_eq_true in Hp. by eapply first_ge_of_below.
      * destruct Hat as ((-> & _) & _). lia.
    + assert (length es = 0) as Hz.
      { destruct (decide (length es = 0)) as [|Hne]; [done|]. exfalso. apply Hi.
        destruct (decide (r = 0)) as [->|Hr0]; [simpl; lia|]. subst i. destruct (Nat.ltb_spec 0 r); [|lia].
        apply Hn. lia. }
      apply length_zero_iff_nil in Hz as ->. eexists. split; [done|]. split; [done|]. split; [simpl; lia|done].
Qed.

#[global] Instance block_InternalIterOK : InternalIterOK blockIter.
Proof.
  refine {| it_over := block_over; it_at := block_at |}; simpl.
  - by intros it es i [].
  - intros it es (_ & _ & _ & ? & ? & _). done.
  - apply block_first_at.
  - intros. by apply block_seek_at.
  - apply block_valid_at.
  - apply block_next_step.
  - intros it es i e (_ & _ & Hm) He. rewrite He in Hm. destruct Hm as (_ & _ & -> & ->). done.
  - intros it es (_ & _ & ? & _). done.
Defined.

(** ** Opening a block *)

Lemma read_restarts_ok (rs : list N) rest stop :
  Forall (fun r => (r < w32)%N /\ (Z.of_N r <= stop)%Z) rs ->
  read_restarts (length rs) (concat (le_put 4 <$> rs) ++ rest) stop = Ret rs.
Proof.
  induction 1 as [|r rs [Hr Hs] _ IH]; [done|]. cbn [length read_restarts fmap list_fmap concat].
  rewrite <-app_assoc, le_uint_put by done. cbn [mbind go_bind].
  destruct (Z.ltb_spec stop (Z.of_N r)); [lia|]. rewrite drop_app_length' by (by rewrite length_le_put).
  change (list_fmap N bytes (le_put 4) rs) with (le_put 4 <$> rs). by rewrite IH.
Qed.

Lemma concat_le_put_length (rs : list N) : length (concat (le_put 4 <$> rs)) = 4 * length rs.
Proof. induction rs; [done|]. cbn [fmap list_fmap concat length]. rewrite length_app, length_le_put.
  change (list_fmap N bytes (le_put 4) rs) with (le_put 4 <$> rs). lia.
Qed.

Lemma build_restarts_bound es :
  block_small es ->
  Forall (fun r => (r < w32)%N /\ (Z.of_N r <= Z.of_nat (length (block_data es)))%Z) (bb_restarts (build es)).
Proof.
  intros Hsm. apply Forall_lookup_2. intros j r Hr. rewrite build_restarts in Hr.
  destruct (decide _); [|done]. injection Hr as <-. unfold block_small in Hsm.
  pose proof (entry_off_le es (j * restartInterval)). rewrite u32_small by lia. lia.
Qed.

Lemma build_restarts_length es : length (bb_restarts (build es)) <= length es.
Proof.
  destruct (decide (length (bb_restarts (build es)) = 0)) as [|Hz]; [lia|].
  destruct (lookup_lt_is_Some_2 (bb_restarts (build es)) (length (bb_restarts (build es)) - 1)) as [x Hx]; [lia|].
  rewrite build_restarts in Hx. destruct (decide _) as [Hd|]; [|done]. unfold restartInterval in Hd. lia.
Qed.

Lemma newBlockIter_ok es :
  ik_sorted es -> keys_wf es -> block_small es ->
  exists it, newBlockIter (builder_finish (build es)).2 = Ret it /\ block_over it es.
Proof.
  intros Hs Hwf Hsm. unfold newBlockIter, builder_finish. simpl snd.
  change (bb_buf (build es)) with (block_data es). set (rs := bb_restarts (build es)).
  pose proof (build_restarts_length es) as Hlr. fold rs in Hlr. pose proof (block_data_entries es) as Hde.
  assert (N.of_nat (length rs) < w32)%N as Hrs by (unfold block_small in Hsm; lia).
  set (block := block_data es ++ concat (le_put 4 <$> rs) ++ le_put 4 (u32 (N.of_nat (length rs)))).
  assert (length block = length (block_data es) + 4 * length rs + 4) as Hlen.
  { subst block. rewrite !length_app, concat_le_put_length, length_le_put. lia. }
  destruct (Nat.ltb_spec (length block) 4); [lia|].
  assert (drop (length block - 4) block = le_put 4 (u32 (N.of_nat (length rs)))) as ->.
  { rewrite Hlen. subst block. rewrite app_assoc. apply drop_app_length'.
    rewrite length_app, concat_le_put_length. lia. }
  rewrite <-(app_nil_r (le_put 4 _)), u32_small, le_uint_put by done. cbn [mbind go_bind].
  replace (Z.of_nat (length block) - 4 - 4 * Z.of_N (N.of_nat (length rs)))%Z with (Z.of_nat (length (block_data es))) by lia.
  destruct (Z.ltb_spec (Z.of_nat (length (block_data es))) 0); [lia|]. rewrite Nat2Z.id, Nat2N.id.
  assert (drop (length (block_data es)) block = concat (le_put 4 <$> rs) ++ le_put 4 (N.of_nat (length rs))) as ->.
  { subst block. rewrite drop_app_length, u32_small by done. done. }
  rewrite read_restarts_ok by (by apply build_restarts_bound). cbn [mbind go_bind].
  eexists. split; [done|]. split_and!; simpl; try done. subst block. apply take_app_length.
Qed.

(** ** Claims *)

(** A block of sorted entries is read back: opened and drained from its
    first entry it gives the entries the builder was fed, and [seek] gives
    those from the first key at or above the target on. *)
Theorem block_roundtrip es :
  ik_sorted es -> keys_wf es -> block_small es ->
  exists it, newBlockIter (builder_finish (build es)).2 = Ret it /\
    (it ← block_seekToFirst it; drain (length es) it) = Ret es /\
    (forall t, ikey_wf t -> (it ← block_seek t it; drain (length es) it) = Ret (drop (first_ge t es) es)).
Proof.
  intros Hs Hwf Hsm. destruct (newBlockIter_ok es Hs Hwf Hsm) as (it & Hit & Hov). exists it. split; [done|].
  split.
  - destruct (block_first_at _ _ Hov) as (it' & -> & Hat). cbn [mbind go_bind]. rewrite (drain_ok _ _ es 0); [done|done|lia].
  - intros t Ht. destruct (block_seek_at t _ _ Hov Ht) as (it' & -> & Hat). cbn [mbind go_bind].
    apply drain_ok; [done|lia].
Qed.

Definition ex_entries : list entry :=
  [(makeInternalKey [x61] 7 kindPut, [x01]); (makeInternalKey [x61] 3 kindDelete, []);
   (makeInternalKey [x61; x62] 5 kindPut, [x02; x03])].

Lemma ex_entries_sorted : ik_sorted ex_entries /\ keys_wf ex_entries.
Proof. split; repeat constructor; vm_compute; try done; lia. Qed.

Lemma block_roundtrip_witness :
  exists it, newBlockIter (builder_finish (build ex_entries)).2 = Ret it /\
    (it ← block_seekToFirst it; drain 3 it) = Ret ex_entries.
Proof.
  destruct (block_roundtrip ex_entries) as (it & H1 & H2 & _).
  - exact (proj1 ex_entries_sorted).
  - exact (proj2 ex_entries_sorted).
  - by vm_compute.
  - exists it. split; [exact H1|exact H2].
Defined.

(** A block whose only entry starts with a varint that overflows. *)
Definition bad_block : bytes := replicate 11 xff ++ le_put 4 0 ++ le_put 4 1.

(** A malformed block need not be reported: one that passes the checks
    of [newBlockIter] makes the decoder slice with a negative bound and
    panic. *)
Theorem malformed_block_panics :
  exists it, newBlockIter bad_block = Ret it /\ block_seekToFirst it = Panic /\
    block_seek (makeInternalKey [x61] 1 kindPut) it = Panic.
Proof. eexists. split; [by vm_compute|]. split; by vm_compute. Qed.
