(* ===== verification/SSTable.v ===== *)
(** * storage/sstable.go: table files

    Writing a table, opening it, iterating over it and looking a key up, down
    to its bytes.  The outcome of each I/O call of a writer comes from a list
    ([true] for success, success once it is empty); a read fails at the
    offsets an open table is told to fail at. *)

From stdpp Require Import base list sorting.
From S2P Require Import Prelude Codec Key Bloom Iter Versions Block.

Definition footerSize : nat := 40.
Definition tableMagic : N := 1262835027.  (* 0x4b455953 *)
Definition tableVersion : N := 1.

Record blockHandle := mkHandle { bh_offset : N; bh_size : N }.

Definition encodeHandle (h : blockHandle) : bytes := put_uvarint (bh_offset h) ++ put_uvarint (bh_size h).

(** The second varint is read from [b[n1:]] before [n1] is checked. *)
Definition decodeHandle (b : bytes) : go (option blockHandle) :=
  let '(off, n1) := uvarint b in
  b1 ← slice_z b n1 (Z.of_nat (length b));
  let '(size, n2) := uvarint b1 in
  Ret (if (0 <? n1)%Z && (0 <? n2)%Z then Some (mkHandle off size) else None).

Record tableMeta := mkMeta {
  tm_num : N;
  tm_size : N;
  tm_count : N;
  tm_smallest : bytes;
  tm_largest : bytes;
}.

(** ** Writing *)

(** [tw_file] tells whether a file is behind the writer; [tw_io] are the
    outcomes of its next calls. *)
Record tableWriter := mkWriter {
  tw_file : bool;
  tw_out : bytes;
  tw_off : N;
  tw_blockSize : Z;
  tw_data : blockBuilder;
  tw_index : blockBuilder;
  tw_bloomKeys : list bytes;
  tw_meta : tableMeta;
  tw_pending : bool;
  tw_lastKey : bytes;
  tw_handle : blockHandle;
  tw_io : list bool;
}.

(** One I/O call. *)
Definition io_call (w : tableWriter) : go tableWriter :=
  let next io := mkWriter (tw_file w) (tw_out w) (tw_off w) (tw_blockSize w) (tw_data w) (tw_index w)
                   (tw_bloomKeys w) (tw_meta w) (tw_pending w) (tw_lastKey w) (tw_handle w) io in
  match tw_io w with
  | [] => Ret w
  | true :: io => Ret (next io)
  | false :: _ => Fail ErrIO
  end.

Definition freshWriter (file : bool) (num : N) (blockSize : Z) (io : list bool) : tableWriter :=
  mkWriter file [] 0 blockSize emptyBuilder emptyBuilder [] (mkMeta num 0 0 [] []) false [] (mkHandle 0 0) io.

(** Creating the file is an I/O call too. *)
Definition newTableWriter (num : N) (blockSize : Z) (io : list bool) : go tableWriter :=
  io_call (freshWriter true num blockSize io).

Definition newStreamWriter (blockSize : Z) (io : list bool) : tableWriter := freshWriter false 0 blockSize io.

Definition tw_write (b : bytes) (w : tableWriter) : go tableWriter :=
  w ← io_call w;
  Ret (mkWriter (tw_file w) (tw_out w ++ b) (tw_off w) (tw_blockSize w) (tw_data w) (tw_index w)
         (tw_bloomKeys w) (tw_meta w) (tw_pending w) (tw_lastKey w) (tw_handle w) (tw_io w)).

Definition writeBlock (b : bytes) (w : tableWriter) : go (tableWriter * blockHandle) :=
  let h := mkHandle (tw_off w) (u64 (N.of_nat (length b))) in
  w ← tw_write b w;
  w ← tw_write (le_put 4 (crc32c b)) w;
  Ret (mkWriter (tw_file w) (tw_out w) (u64 (tw_off w + N.of_nat (length b) + 4)) (tw_blockSize w) (tw_data w)
         (tw_index w) (tw_bloomKeys w) (tw_meta w) (tw_pending w) (tw_lastKey w) (tw_handle w) (tw_io w), h).

Definition flushBlock (w : tableWriter) : go tableWriter :=
  if builder_empty (tw_data w) then Ret w
  else
    '(w, h) ← writeBlock (builder_finish (tw_data w)).2 w;
    Ret (mkWriter (tw_file w) (tw_out w) (tw_off w) (tw_blockSize w) (builder_reset (tw_data w)) (tw_index w)
           (tw_bloomKeys w) (tw_meta w) true (tw_lastKey w) h (tw_io w)).

(** The index entry of the block written last. *)
Definition indexPending (w : tableWriter) : tableWriter :=
  if tw_pending w then
    mkWriter (tw_file w) (tw_out w) (tw_off w) (tw_blockSize w) (tw_data w)
      (builder_add (tw_lastKey w) (encodeHandle (tw_handle w)) (tw_index w))
      (tw_bloomKeys w) (tw_meta w) false (tw_lastKey w) (tw_handle w) (tw_io w)
  else w.

Definition tw_add (ik value : bytes) (w : tableWriter) : go tableWriter :=
  if length ik <? trailerSize then Panic
  else
    let w := indexPending w in
    let m := tw_meta w in
    let smallest := if (tm_count m =? 0)%N then ik else tm_smallest m in
    let w := mkWriter (tw_file w) (tw_out w) (tw_off w) (tw_blockSize w) (builder_add ik value (tw_data w))
               (tw_index w) (tw_bloomKeys w ++ [userKey ik])
               (mkMeta (tm_num m) (tm_size m) (tm_count m + 1) smallest (tm_largest m))
               (tw_pending w) ik (tw_handle w) (tw_io w) in
    if (tw_blockSize w <=? Z.of_nat (builder_size (tw_data w)))%Z then flushBlock w else Ret w.

Definition footer (index bloom : blockHandle) : bytes :=
  le_put 8 (bh_offset index) ++ le_put 8 (bh_size index) ++ le_put 8 (bh_offset bloom) ++ le_put 8 (bh_size bloom)
    ++ le_put 4 tableVersion ++ le_put 4 tableMagic.

(** [Sync] and [Close], where there is a file. *)
Definition close_file (w : tableWriter) : go tableWriter :=
  if tw_file w then w ← io_call w; io_call w else Ret w.

Definition tw_finish (w : tableWriter) : go (tableMeta * bytes) :=
  w ← flushBlock w;
  let w := indexPending w in
  '(w, ih) ← writeBlock (builder_finish (tw_index w)).2 w;
  bloom ← buildBloom (tw_bloomKeys w);
  '(w, bh) ← writeBlock bloom w;
  w ← tw_write (footer ih bh) w;
  w ← io_call w;
  w ← close_file w;
  let m := tw_meta w in
  Ret (mkMeta (tm_num m) (u64 (tw_off w + N.of_nat footerSize)) (tm_count m) (tm_smallest m) (tw_lastKey w), tw_out w).

(** ** Opening *)

(** [t_bad] holds the offsets at which a read fails. *)
Record table := mkTable {
  t_meta : tableMeta;
  t_data : bytes;
  t_bad : N -> bool;
  t_index : bytes;
  t_bloom : bytes;
}.

(** [ReadAt]: a read that reaches past the end is [io.EOF]. *)
Definition readBlock (data : bytes) (bad : N -> bool) (h : blockHandle) : go bytes :=
  let size := N.of_nat (length data) in
  if (size <? bh_offset h)%N || (size - bh_offset h <? bh_size h)%N then Fail ErrBadTable
  else if bad (bh_offset h) then Fail ErrIO
  else if (size <? bh_offset h + bh_size h + 4)%N then Fail ErrBadTable
  else
    let buf := take (N.to_nat (bh_size h)) (drop (N.to_nat (bh_offset h)) data) in
    let crc := le_get (take 4 (drop (N.to_nat (bh_offset h + bh_size h)) data)) in
    if (crc32c buf =? crc)%N then Ret buf else Fail ErrCorrupt.

Definition readFooter (meta : tableMeta) (data : bytes) (bad : N -> bool) : go table :=
  if length data <? footerSize then Fail ErrBadTable
  else
    let base := length data - footerSize in
    if bad (N.of_nat base) then Fail ErrIO
    else
      let f := drop base data in
      let field n off := le_get (take n (drop off f)) in
      if negb (N.eqb (field 4 36) tableMagic) then Fail ErrBadTable
      else if negb (N.eqb (field 4 32) tableVersion) then Fail ErrVersion
      else
        index ← readBlock data bad (mkHandle (field 8 0) (field 8 8));
        bloom ← readBlock data bad (mkHandle (field 8 16) (field 8 24));
        Ret (mkTable meta data bad index bloom).

Definition openTable (meta : tableMeta) (data : bytes) (bad : N -> bool) : go table := readFooter meta data bad.

Definition openTableBytes (b : bytes) : go table := readFooter (mkMeta 0 0 0 [] []) b (fun _ => false).

(** ** Iterating *)

(** A block iterator is nil where the code's pointer is. *)
Record tableIter := mkTableIter {
  ti_t : table;
  ti_index : option blockIter;
  ti_block : option blockIter;
  ti_err : option error;
}.

Definition table_iter (t : table) : go tableIter :=
  match newBlockIter (t_index t) with
  | Ret it => Ret (mkTableIter t (Some it) None None)
  | Fail e => Ret (mkTableIter t None None (Some e))
  | Panic => Panic
  end.

Definition ti_failed (e : error) (it : tableIter) : tableIter :=
  mkTableIter (ti_t it) (ti_index it) (ti_block it) (Some e).

(** The block the index stands at; tells whether there is one. *)
Definition loadBlock (it : tableIter) : go (tableIter * bool) :=
  let none := (mkTableIter (ti_t it) (ti_index it) None (ti_err it), false) in
  match ti_err it, ti_index it with
  | Some _, _ => Ret none
  | None, None => Panic
  | None, Some index =>
      if block_valid index then
        h ← decodeHandle (bi_v index);
        match h with
        | None => Ret (ti_failed ErrBadTable it, false)
        | Some h =>
            match readBlock (t_data (ti_t it)) (t_bad (ti_t it)) h with
            | Ret data =>
                match newBlockIter data with
                | Ret b => Ret (mkTableIter (ti_t it) (ti_index it) (Some b) None, true)
                | Fail e => Ret (mkTableIter (ti_t it) (ti_index it) None (Some e), false)
                | Panic => Panic
                end
            | Fail e => Ret (ti_failed e it, false)
            | Panic => Panic
            end
        end
      else Ret none
  end.

Definition ti_with_index (i : blockIter) (it : tableIter) : tableIter :=
  mkTableIter (ti_t it) (Some i) (ti_block it) (ti_err it).
Definition ti_with_block (b : blockIter) (it : tableIter) : tableIter :=
  mkTableIter (ti_t it) (ti_index it) (Some b) (ti_err it).

(** Every round takes an entry of the index, so the length of the index is
    enough fuel. *)
Fixpoint skipExhausted (fuel : nat) (it : tableIter) : go tableIter :=
  match ti_block it, ti_err it with
  | Some b, None =>
      if block_valid b then Ret it
      else
        match bi_err b with
        | Some e => Ret (ti_failed e it)
        | None =>
            match fuel, ti_index it with
            | Datatypes.S fuel, Some index =>
                index ← block_next index;
                '(it, more) ← loadBlock (ti_with_index index it);
                if (more : bool) then
                  match ti_block it with
                  | Some b => b ← block_seekToFirst b; skipExhausted fuel (ti_with_block b it)
                  | None => Panic
                  end
                else Ret it
            | _, _ => Panic
            end
        end
  | _, _ => Ret it
  end.

Definition skip_fuel (it : tableIter) : nat := Datatypes.S (length (t_index (ti_t it))).

(** Positioning: the index first, then the block it stands at. *)
Definition table_position (move : blockIter -> go blockIter) (it : tableIter) : go tableIter :=
  match ti_err it, ti_index it with
  | Some _, _ => Ret it
  | None, None => Panic
  | None, Some index =>
      index ← move index;
      '(it, more) ← loadBlock (ti_with_index index it);
      if (more : bool) then
        match ti_block it with
        | Some b => b ← move b; skipExhausted (skip_fuel it) (ti_with_block b it)
        | None => Panic
        end
      else Ret it
  end.

Definition table_seekToFirst : tableIter -> go tableIter := table_position block_seekToFirst.
Definition table_seek (target : bytes) : tableIter -> go tableIter := table_position (block_seek target).

Definition table_valid (it : tableIter) : bool :=
  match ti_err it, ti_block it with None, Some b => block_valid b | _, _ => false end.

Definition table_next (it : tableIter) : go tableIter :=
  match ti_block it with
  | None => Panic
  | Some b => b ← block_next b; skipExhausted (skip_fuel it) (ti_with_block b it)
  end.

Definition table_key (it : tableIter) : go bytes :=
  match ti_block it with Some b => Ret (bi_k b) | None => Panic end.
Definition table_value (it : tableIter) : go bytes :=
  match ti_block it with Some b => Ret (bi_v b) | None => Panic end.

#[global] Instance table_InternalIter : InternalIter tableIter := {
  it_seekToFirst := table_seekToFirst;
  it_seek := table_seek;
  it_valid := table_valid;
  it_next := table_next;
  it_key := table_key;
  it_value := table_value;
  it_close it := (it, ti_err it);
}.

(** ** Looking a key up *)

Definition table_get (key : bytes) (seq : N) (t : table) : go found :=
  may ← mayContain (t_bloom t) key;
  if negb (may : bool) then Ret Absent
  else
    it ← table_iter t;
    it ← table_seek (makeInternalKey key seq kindPut) it;
    if negb (table_valid it) then
      match ti_err it with Some e => Fail e | None => Ret Absent end
    else
      k ← table_key it;
      '(user, _, kind) ← split_key k;
      if bool_decide (user <> key) then Ret Absent
      else if bool_decide (kind = kindDelete) then Ret Deleted
      else v ← table_value it; Ret (Found v).
