(* ===== verification/TableWrite.v ===== *)
(** * What a table writer leaves in its file

    The entries fed to a [tableWriter] are cut into blocks; the file holds
    the blocks, an index with the last key and the place of each, the bloom
    filter and the footer.  Opening the file finds them again. *)

From stdpp Require Import base list sorting.
From S2P Require Import Prelude Codec Key Bloom Iter Block SSTable.

(** ** The layout *)

Definition blk (es : list entry) : bytes := (builder_finish (build es)).2.

(** A block with its checksum. *)
Definition sealed (b : bytes) : bytes := b ++ le_put 4 (crc32c b).

Definition data_of (chunks : list (list entry)) : bytes := concat ((fun c => sealed (blk c)) <$> chunks).

Definition last_key (es : list entry) : bytes := from_option fst [] (last es).

Definition handle_at (chunks : list (list entry)) (i : nat) (c : list entry) : blockHandle :=
  mkHandle (u64 (N.of_nat (length (data_of (take i chunks))))) (u64 (N.of_nat (length (blk c)))).

Definition index_of (chunks : list (list entry)) : list entry :=
  imap (fun i c => (last_key c, encodeHandle (handle_at chunks i c))) chunks.

Definition file_of (chunks : list (list entry)) (bloom : bytes) : bytes :=
  let data := data_of chunks in
  let index := blk (index_of chunks) in
  let off n := u64 (N.of_nat n) in
  data ++ sealed index ++ sealed bloom ++
    footer (mkHandle (off (length data)) (off (length index)))
      (mkHandle (off (length (data ++ sealed index))) (off (length bloom))).

Lemma data_of_snoc cs c : data_of (cs ++ [c]) = data_of cs ++ sealed (blk c).
Proof. unfold data_of. rewrite fmap_app, concat_app. simpl. by rewrite app_nil_r. Qed.

Lemma index_of_snoc cs c :
  index_of (cs ++ [c]) = index_of cs ++ [(last_key c, encodeHandle (handle_at (cs ++ [c]) (length cs) c))].
Proof.
  unfold index_of. rewrite imap_app. simpl. rewrite Nat.add_0_r. apply (f_equal2 app); [|done].
  apply imap_ext. intros i x Hx. unfold handle_at. rewrite take_app_le; [done|].
  apply lookup_lt_Some in Hx. lia.
Qed.

Lemma index_of_lookup chunks i :
  index_of chunks !! i = (fun c => (last_key c, encodeHandle (handle_at chunks i c))) <$> chunks !! i.
Proof. apply list_lookup_imap. Qed.

Lemma u64_add_l a b : u64 (u64 a + b) = u64 (a + b).
Proof. unfold u64. apply N.Div0.add_mod_idemp_l. Qed.

Lemma length_sealed b : length (sealed b) = length b + 4.
Proof. unfold sealed. rewrite length_app, length_le_put. done. Qed.

Ltac wsimp := cbn [tw_file tw_out tw_off tw_blockSize tw_data tw_index tw_bloomKeys tw_meta tw_pending tw_lastKey tw_handle].

(** ** The writer's invariant

    [chunks] are the blocks in the file, [cur] the entries of the block under
    construction. *)
Section Writer.
Variable num : N.

Record winv (w : tableWriter) (es : list entry) (chunks : list (list entry)) (cur : list entry) : Prop := {
  wi_es : es = concat chunks ++ cur;
  wi_nonempty : Forall (fun c => c <> []) chunks;
  wi_data : tw_data w = build cur;
  wi_out : tw_out w = data_of chunks;
  wi_off : tw_off w = u64 (N.of_nat (length (data_of chunks)));
  wi_bloom : tw_bloomKeys w = (fun e => userKey e.1) <$> es;
  wi_num : tm_num (tw_meta w) = num;
  wi_count : tm_count (tw_meta w) = N.of_nat (length es);
  wi_smallest : tm_smallest (tw_meta w) = from_option fst [] (head es);
  wi_last : tw_lastKey w = last_key es;
  wi_pending : if tw_pending w then
      exists cs c, chunks = cs ++ [c] /\ cur = [] /\ tw_index w = build (index_of cs) /\
        tw_handle w = handle_at chunks (length cs) c
    else tw_index w = build (index_of chunks);
}.

(** Entries of one block, and none pending for an empty one. *)
Lemma io_call_inv w w' :
  io_call w = Ret w' -> exists io, w' = mkWriter (tw_file w) (tw_out w) (tw_off w) (tw_blockSize w) (tw_data w)
    (tw_index w) (tw_bloomKeys w) (tw_meta w) (tw_pending w) (tw_lastKey w) (tw_handle w) io.
Proof.
  unfold io_call. destruct (tw_io w) as [|[] io] eqn:Hio; intros [= <-]; [|eauto]. exists []. destruct w. simpl in *. by subst.
Qed.

Lemma tw_write_inv b w w' :
  tw_write b w = Ret w' -> exists io, w' = mkWriter (tw_file w) (tw_out w ++ b) (tw_off w) (tw_blockSize w) (tw_data w)
    (tw_index w) (tw_bloomKeys w) (tw_meta w) (tw_pending w) (tw_lastKey w) (tw_handle w) io.
Proof.
  unfold tw_write. destruct (io_call w) as [w1|e|] eqn:H1; cbn [mbind go_bind]; [|done..].
  apply io_call_inv in H1 as [io ->]. intros [= <-]. eauto.
Qed.

Lemma close_file_inv w w' :
  close_file w = Ret w' -> exists io, w' = mkWriter (tw_file w) (tw_out w) (tw_off w) (tw_blockSize w) (tw_data w)
    (tw_index w) (tw_bloomKeys w) (tw_meta w) (tw_pending w) (tw_lastKey w) (tw_handle w) io.
Proof.
  unfold close_file. destruct (tw_file w) eqn:Hf.
  - destruct (io_call w) as [w1|e|] eqn:H1; cbn [mbind go_bind]; [|done..].
    apply io_call_inv in H1 as [io1 ->]. intros H. apply io_call_inv in H as [io2 ->]. simpl. rewrite ?Hf. eauto.
  - intros [= <-]. rewrite <-Hf. exists (tw_io w). by destruct w.
Qed.

Lemma writeBlock_inv b w w' h :
  writeBlock b w = Ret (w', h) ->
  h = mkHandle (tw_off w) (u64 (N.of_nat (length b))) /\
  exists io, w' = mkWriter (tw_file w) (tw_out w ++ sealed b) (u64 (tw_off w + N.of_nat (length b) + 4))
    (tw_blockSize w) (tw_data w) (tw_index w) (tw_bloomKeys w) (tw_meta w) (tw_pending w) (tw_lastKey w) (tw_handle w) io.
Proof.
  unfold writeBlock. destruct (tw_write b w) as [w1|e|] eqn:H1; cbn [mbind go_bind]; [|done..].
  apply tw_write_inv in H1 as [io1 ->]. destruct (tw_write _ _) as [w2|e|] eqn:H2; cbn [mbind go_bind]; [|done..].
  apply tw_write_inv in H2 as [io2 ->]. simpl. intros [= <- <-]. split; [done|]. exists io2.
  unfold sealed. by rewrite app_assoc.
Qed.

Lemma build_empty es : builder_empty (build es) = bool_decide (es = []).
Proof. unfold builder_empty. rewrite build_count. destruct es; [done|]. by rewrite bool_decide_false. Qed.

Lemma concat_snoc {A} (l : list (list A)) (x : list A) : concat (l ++ [x]) = concat l ++ x.
Proof. rewrite concat_app. simpl. by rewrite app_nil_r. Qed.

Lemma last_key_app l1 l2 : l2 <> [] -> last_key (l1 ++ l2) = last_key l2.
Proof. intros H. unfold last_key. rewrite last_app. destruct (last l2) eqn:E; [done|]. by apply last_None in E. Qed.

Lemma winv_flush w es chunks cur w' :
  winv w es chunks cur -> (cur <> [] -> tw_pending w = false) -> flushBlock w = Ret w' ->
  winv w' es (if bool_decide (cur = []) then chunks else chunks ++ [cur]) [] /\ tw_bloomKeys w' = tw_bloomKeys w.
Proof.
  intros [] Hpend. unfold flushBlock. rewrite wi_data0, build_empty. case_bool_decide as Hc.
  - intros [= <-]. subst cur. split; [by constructor|done].
  - destruct (writeBlock _ w) as [[w1 h]|e|] eqn:Hw; cbn [mbind go_bind]; [|done..]. intros [= <-].
    apply writeBlock_inv in Hw as [-> [io ->]]. rewrite (Hpend Hc) in wi_pending0. split; [|done].
    change (builder_finish (build cur)).2 with (blk cur).
    constructor; simpl; try done.
    + by rewrite concat_snoc, app_nil_r.
    + apply Forall_app. split; [done|]. by repeat constructor.
    + by rewrite wi_out0, data_of_snoc.
    + rewrite wi_off0, data_of_snoc, length_app, length_sealed. rewrite <-N.add_assoc, u64_add_l. f_equal. lia.
    + exists chunks, cur. split_and!; try done. unfold handle_at. by rewrite take_app_length, wi_off0.
Qed.

Lemma winv_indexPending w es chunks cur :
  winv w es chunks cur -> winv (indexPending w) es chunks cur /\ tw_pending (indexPending w) = false.
Proof.
  intros Hi. unfold indexPending. destruct (tw_pending w) eqn:Hp; [|done]. destruct Hi. rewrite Hp in wi_pending0.
  destruct wi_pending0 as (cs & c & -> & -> & Hidx & Hh). split; [|done]. constructor; simpl; try done.
  rewrite index_of_snoc, build_snoc. simpl. rewrite Hidx, Hh. f_equal.
  rewrite wi_last0, wi_es0, app_nil_r, concat_snoc, last_key_app; [done|].
  apply Forall_app in wi_nonempty0 as [_ Hc]. by inversion Hc.
Qed.

Lemma winv_add w es chunks cur k v w' :
  winv w es chunks cur -> tw_add k v w = Ret w' -> exists chunks' cur', winv w' (es ++ [(k, v)]) chunks' cur'.
Proof.
  intros Hi. unfold tw_add. destruct (_ <? _); [done|].
  apply winv_indexPending in Hi as [Hi Hp]. destruct Hi.
  match goal with |- context [tw_blockSize ?x] => set (w1 := x) end.
  assert (winv w1 (es ++ [(k, v)]) chunks (cur ++ [(k, v)])) as Hi1.
  { constructor; simpl; try done.
    - by rewrite wi_es0, app_assoc.
    - by rewrite build_snoc, wi_data0.
    - by rewrite fmap_app, wi_bloom0.
    - rewrite wi_count0, length_app. simpl. lia.
    - rewrite wi_count0, wi_smallest0. by destruct es.
    - by rewrite last_key_app.
    - rewrite Hp in wi_pending0 |- *. done. }
  destruct (_ <=? _)%Z; [|intros [= <-]; eauto].
  intros Hf. destruct (winv_flush _ _ _ _ _ Hi1 (fun _ => Hp) Hf) as [? _]. eauto.
Qed.

(** ** A finished file *)

Fixpoint write_all (es : list entry) (w : tableWriter) : go tableWriter :=
  match es with
  | [] => Ret w
  | e :: es => w ← tw_add e.1 e.2 w; write_all es w
  end.

Lemma write_all_winv es w es0 chunks cur w' :
  winv w es0 chunks cur -> write_all es w = Ret w' -> exists chunks' cur', winv w' (es0 ++ es) chunks' cur'.
Proof.
  revert w es0 chunks cur. induction es as [|[k v] es IH]; intros w es0 chunks cur Hi; cbn [write_all fst snd].
  - intros [= <-]. rewrite app_nil_r. eauto.
  - destruct (tw_add k v w) as [w1|e|] eqn:Ha; cbn [mbind go_bind]; [|done..].
    destruct (winv_add _ _ _ _ _ _ _ Hi Ha) as (ch & c & Hi1). intros Hw.
    destruct (IH _ _ _ _ Hi1 Hw) as (ch' & c' & Hi2). rewrite <-app_assoc in Hi2. eauto.
Qed.

Lemma winv_pending_cur w es chunks cur : winv w es chunks cur -> cur <> [] -> tw_pending w = false.
Proof. intros [] Hc. destruct (tw_pending w); [|done]. by destruct wi_pending0 as (? & ? & _ & ? & _). Qed.

(** What [finish] says of the table. *)
Definition meta_of (data : bytes) (es : list entry) : tableMeta :=
  mkMeta num (u64 (N.of_nat (length data))) (N.of_nat (length es)) (from_option fst [] (head es)) (last_key es).

Lemma length_footer a b : length (footer a b) = footerSize.
Proof. unfold footer. rewrite !length_app, !length_le_put. done. Qed.

(** The writes of the index, the filter and the footer. *)
Lemma winv_finish w es chunks cur m data :
  winv w es chunks cur -> tw_finish w = Ret (m, data) ->
  exists chunks' bloom, concat chunks' = es /\ Forall (fun c => c <> []) chunks' /\
    buildBloom ((fun e => userKey e.1) <$> es) = Ret bloom /\ data = file_of chunks' bloom /\ m = meta_of data es.
Proof.
  intros Hi. unfold tw_finish. destruct (flushBlock w) as [w1|e|] eqn:Hf; cbn [mbind go_bind]; [|done..].
  pose proof (winv_flush _ _ _ _ _ Hi (winv_pending_cur _ _ _ _ Hi) Hf) as [Hi1 _]. clear Hi Hf.
  set (ch := if bool_decide (cur = []) then chunks else chunks ++ [cur]) in *. clearbody ch.
  apply winv_indexPending in Hi1 as [[] Hp]. set (w2 := indexPending w1) in *. clearbody w2.
  rewrite Hp in wi_pending0. rewrite wi_pending0. change (builder_finish (build (index_of ch))).2 with (blk (index_of ch)).
  destruct (writeBlock _ w2) as [[w3 ih]|e|] eqn:Hw; cbn [mbind go_bind]; [|done..].
  apply writeBlock_inv in Hw as [-> [io ->]]. cbn [tw_bloomKeys]. rewrite wi_bloom0.
  destruct (buildBloom _) as [bloom|e|] eqn:Hb; cbn [mbind go_bind]; [|done..].
  destruct (writeBlock bloom _) as [[w4 bh]|e|] eqn:Hw; cbn [mbind go_bind]; [|done..].
  apply writeBlock_inv in Hw as [-> [io' ->]]. wsimp.
  destruct (tw_write _ _) as [w5|e|] eqn:H5; cbn [mbind go_bind]; [|done..]. apply tw_write_inv in H5 as [io5 ->]. wsimp.
  destruct (io_call _) as [w6|e|] eqn:H6; cbn [mbind go_bind]; [|done..]. apply io_call_inv in H6 as [io6 ->]. wsimp.
  destruct (close_file _) as [w7|e|] eqn:H7; cbn [mbind go_bind]; [|done..]. apply close_file_inv in H7 as [io7 ->].
  wsimp. rewrite wi_out0, wi_off0, wi_num0, wi_count0, wi_smallest0, wi_last0.
  assert ((data_of ch ++ sealed (blk (index_of ch))) ++ sealed bloom = data_of ch ++ sealed (blk (index_of ch)) ++ sealed bloom) as Ha
    by (by rewrite app_assoc).
  rewrite app_nil_r in wi_es0. intros [= <- <-]. exists ch, bloom. split_and!; [done..| |].
  - unfold file_of. rewrite <-!app_assoc. do 4 f_equal. f_equal. rewrite length_app, length_sealed.
    rewrite <-N.add_assoc, u64_add_l. f_equal. lia.
  - unfold meta_of. f_equal. rewrite !length_app, !length_sealed, length_footer.
    repeat rewrite <-?N.add_assoc, u64_add_l. f_equal. lia.
Qed.
End Writer.

Lemma winv_start file num bs io : winv num (freshWriter file num bs io) [] [] [].
Proof. constructor; try done; by constructor. Qed.

(** ** Writing with no I/O error always succeeds *)

(** No error ahead, and the keys for the filter as before. *)
Definition calm (w w' : tableWriter) : Prop := tw_io w' = [] /\ tw_bloomKeys w' = tw_bloomKeys w.

Lemma io_call_total w : tw_io w = [] -> io_call w = Ret w.
Proof. unfold io_call. by intros ->. Qed.

Lemma tw_write_total b w : tw_io w = [] -> exists w', tw_write b w = Ret w' /\ calm w w'.
Proof. intros Hio. unfold tw_write. rewrite io_call_total by done. eexists. split; [done|]. by split. Qed.

Lemma writeBlock_total b w : tw_io w = [] -> exists w' h, writeBlock b w = Ret (w', h) /\ calm w w'.
Proof.
  intros Hio. unfold writeBlock. destruct (tw_write_total b w Hio) as (w1 & -> & H1 & Hk1). cbn [mbind go_bind].
  destruct (tw_write_total (le_put 4 (crc32c b)) w1 H1) as (w2 & -> & H2 & Hk2). cbn [mbind go_bind].
  eexists _, _. split; [done|]. split; [done|]. cbn [tw_bloomKeys]. by rewrite Hk2.
Qed.

Lemma flushBlock_total w : tw_io w = [] -> exists w', flushBlock w = Ret w' /\ calm w w'.
Proof.
  intros Hio. unfold flushBlock. destruct (builder_empty _); [by exists w|].
  destruct (writeBlock_total (builder_finish (tw_data w)).2 w Hio) as (w1 & h & -> & H1). eexists. split; [done|exact H1].
Qed.

Lemma indexPending_calm w : tw_io w = [] -> calm w (indexPending w).
Proof. unfold indexPending. by destruct (tw_pending w). Qed.

Lemma tw_add_total k v w : tw_io w = [] -> ikey_wf k -> exists w', tw_add k v w = Ret w' /\ tw_io w' = [].
Proof.
  intros Hio Hk. unfold tw_add. rewrite (proj2 (Nat.ltb_ge _ _)) by done. destruct (indexPending_calm w Hio) as [H1 _].
  destruct (_ <=? _)%Z; [|eauto].
  match goal with |- context [flushBlock ?x] => destruct (flushBlock_total x H1) as (w' & -> & H2 & _) end. eauto.
Qed.

Lemma write_all_total es w :
  tw_io w = [] -> keys_wf es -> exists w', write_all es w = Ret w' /\ tw_io w' = [].
Proof.
  intros Hio Hwf. revert w Hio. induction Hwf as [|e es Hk _ IH]; intros w Hio; cbn [write_all]; [eauto|].
  destruct (tw_add_total e.1 e.2 w Hio Hk) as (w1 & -> & H1). apply (IH w1 H1).
Qed.

Lemma tw_finish_total w bloom :
  tw_io w = [] -> buildBloom (tw_bloomKeys w) = Ret bloom -> exists r, tw_finish w = Ret r.
Proof.
  intros Hio Hb. unfold tw_finish. destruct (flushBlock_total w Hio) as (w1 & -> & H1 & K1). cbn [mbind go_bind].
  destruct (indexPending_calm w1 H1) as [H2 K2].
  destruct (writeBlock_total (builder_finish (tw_index (indexPending w1))).2 _ H2) as (w3 & ih & -> & H3 & K3). cbn [mbind go_bind].
  rewrite K3, K2, K1, Hb. cbn [mbind go_bind].
  destruct (writeBlock_total bloom w3 H3) as (w4 & bh & -> & H4 & _). cbn [mbind go_bind].
  destruct (tw_write_total (footer ih bh) w4 H4) as (w5 & -> & H5 & _). cbn [mbind go_bind].
  rewrite io_call_total by done. cbn [mbind go_bind]. unfold close_file. rewrite io_call_total by done. cbn [mbind go_bind].
  rewrite io_call_total by done. destruct (tw_file w5); cbn [mbind go_bind]; eauto.
Qed.

(** ** Opening the file *)

Lemma take_len_app {A} n (l k : list A) : n = length l -> take n (l ++ k) = l.
Proof. intros ->. by rewrite take_app_length. Qed.
Lemma drop_len_app {A} n (l k : list A) : n = length l -> drop n (l ++ k) = k.
Proof. intros ->. by rewrite drop_app_length. Qed.

Lemma readBlock_at pre b post bad :
  bad (N.of_nat (length pre)) = false ->
  readBlock (pre ++ sealed b ++ post) bad (mkHandle (N.of_nat (length pre)) (N.of_nat (length b))) = Ret b.
Proof.
  intros Hbad. unfold readBlock. cbn [bh_offset bh_size]. rewrite !length_app, length_sealed, Hbad.
  destruct (N.ltb_spec (N.of_nat (length pre + (length b + 4 + length post))) (N.of_nat (length pre))); [lia|].
  destruct (N.ltb_spec (N.of_nat (length pre + (length b + 4 + length post)) - N.of_nat (length pre)) (N.of_nat (length b))); [lia|].
  cbn [orb]. rewrite (proj2 (N.ltb_ge _ _)) by lia. rewrite !N2Nat.inj_add, !Nat2N.id, drop_app_length.
  unfold sealed. rewrite <-!app_assoc, take_app_length.
  rewrite (app_assoc pre b), (drop_len_app _ (pre ++ b)) by (by rewrite length_app).
  rewrite take_len_app by (by rewrite length_le_put). rewrite le_get_put, N.mod_small by apply crc32c_bound.
  by rewrite N.eqb_refl.
Qed.

(** The fields of the footer. *)
Lemma le_put_field n x : (x < 256 ^ N.of_nat n)%N -> exists f, le_put n x = f /\ length f = n /\ le_get f = x.
Proof. intros Hx. eexists. split; [done|]. by rewrite length_le_put, le_get_put, N.mod_small. Qed.

Lemma field_at {A} (pre f post : list A) off n : off = length pre -> n = length f -> take n (drop off (pre ++ f ++ post)) = f.
Proof. intros -> ->. by rewrite drop_app_length, take_app_length. Qed.

Lemma footer_fields a b :
  (bh_offset a < w64)%N -> (bh_size a < w64)%N -> (bh_offset b < w64)%N -> (bh_size b < w64)%N ->
  let field n off := le_get (take n (drop off (footer a b))) in
  field 8 0 = bh_offset a /\ field 8 8 = bh_size a /\ field 8 16 = bh_offset b /\ field 8 24 = bh_size b /\
  field 4 32 = tableVersion /\ field 4 36 = tableMagic.
Proof.
  intros Ha Hb Hc Hd field. unfold field, footer.
  destruct (le_put_field 8 (bh_offset a) Ha) as (f1 & -> & L1 & <-). destruct (le_put_field 8 (bh_size a) Hb) as (f2 & -> & L2 & <-).
  destruct (le_put_field 8 (bh_offset b) Hc) as (f3 & -> & L3 & <-). destruct (le_put_field 8 (bh_size b) Hd) as (f4 & -> & L4 & <-).
  destruct (le_put_field 4 tableVersion) as (f5 & -> & L5 & <-); [done|].
  destruct (le_put_field 4 tableMagic) as (f6 & -> & L6 & <-); [done|]. clear -L1 L2 L3 L4 L5 L6.
  split_and!; f_equal.
  - by apply (field_at [] f1).
  - apply (field_at f1 f2); lia.
  - rewrite (app_assoc f1). apply field_at; rewrite ?length_app; lia.
  - rewrite !(app_assoc f1), (app_assoc (f1 ++ f2)). apply field_at; rewrite ?length_app; lia.
  - rewrite !(app_assoc f1), !(app_assoc (f1 ++ f2)), (app_assoc ((f1 ++ f2) ++ f3)). apply field_at; rewrite ?length_app; lia.
  - rewrite <-(app_nil_r f6), !(app_assoc f1), !(app_assoc (f1 ++ f2)), !(app_assoc ((f1 ++ f2) ++ f3)), (app_assoc (((f1 ++ f2) ++ f3) ++ f4)).
    rewrite (app_nil_r f6) at 2. apply field_at; rewrite ?length_app; lia.
Qed.

Lemma readFooter_file_of meta chunks bloom bad :
  (N.of_nat (length (file_of chunks bloom)) < w64)%N -> (forall o, bad o = false) ->
  readFooter meta (file_of chunks bloom) bad =
    Ret (mkTable meta (file_of chunks bloom) bad (blk (index_of chunks)) bloom).
Proof.
  intros Hlen Hbad. unfold readFooter, file_of in *.
  set (data := data_of chunks) in *. set (index := blk (index_of chunks)) in *.
  rewrite !length_app, length_footer, !length_sealed in Hlen.
  set (ih := mkHandle _ (u64 (N.of_nat (length index)))) in *. set (bh := mkHandle _ (u64 (N.of_nat (length bloom)))) in *.
  assert (ih = mkHandle (N.of_nat (length data)) (N.of_nat (length index))) as Hih
    by (unfold ih; f_equal; apply u64_small; unfold w64, footerSize in *; lia).
  assert (bh = mkHandle (N.of_nat (length (data ++ sealed index))) (N.of_nat (length bloom))) as Hbh
    by (unfold bh; f_equal; apply u64_small; rewrite ?length_app, ?length_sealed; unfold w64, footerSize in *; lia).
  destruct (footer_fields ih bh) as (F1 & F2 & F3 & F4 & F5 & F6); try apply u64_lt.
  rewrite !length_app, length_footer. rewrite (proj2 (Nat.ltb_ge _ _)) by lia. rewrite !Hbad.
  set (all := data ++ sealed index ++ sealed bloom ++ footer ih bh).
  assert (drop (length data + (length (sealed index) + (length (sealed bloom) + footerSize)) - footerSize) all = footer ih bh) as ->.
  { unfold all. rewrite 2!app_assoc. apply drop_len_app. rewrite !length_app. lia. }
  rewrite F1, F2, F3, F4, F5, F6, !N.eqb_refl. cbn [negb]. rewrite Hih, Hbh. cbn [bh_offset bh_size].
  unfold all. rewrite Hih, Hbh, readBlock_at by done. cbn [mbind go_bind].
  rewrite (app_assoc data (sealed index)), readBlock_at by done. done.
Qed.
