(* ===== verification/TableRead.v ===== *)
(** * Reading a table back

    The iterator of an open table walks the entries the table was written
    with, and a lookup finds the newest version at or below a sequence
    number. *)

From stdpp Require Import base list sorting.
From S2P Require Import Prelude Codec Key Bloom Iter Versions Block SSTable TableWrite.

Lemma decode_encodeHandle h :
  (bh_offset h < w64)%N -> (bh_size h < w64)%N -> decodeHandle (encodeHandle h) = Ret (Some h).
Proof.
  intros Ho Hs. unfold decodeHandle, encodeHandle. rewrite uvarint_put_uvarint by done.
  rewrite slice_z_tail by done. cbn [mbind go_bind]. rewrite <-(app_nil_r (put_uvarint (bh_size h))), uvarint_put_uvarint by done.
  pose proof (put_uvarint_pos (bh_offset h)). pose proof (put_uvarint_pos (bh_size h)).
  rewrite !(proj2 (Z.ltb_lt _ _)) by lia. by destruct h.
Qed.

(** ** The table a list of blocks makes *)

Record trep (t : table) (chunks : list (list entry)) : Prop := {
  tr_data : t_data t = file_of chunks (t_bloom t);
  tr_index : t_index t = blk (index_of chunks);
  tr_bad o : t_bad t o = false;
  tr_nonempty : Forall (fun c => c <> []) chunks;
  tr_sorted : ik_sorted (concat chunks);
  tr_wf : keys_wf (concat chunks);
  tr_small : (N.of_nat (length (t_data t)) < w32)%N;
}.

Lemma concat_at {A} (l : list (list A)) i x :
  l !! i = Some x -> concat l = concat (take i l) ++ x ++ concat (drop (S i) l).
Proof. intros Hx. rewrite <-(take_drop_middle l i x Hx) at 1. by rewrite concat_app. Qed.

Lemma data_of_at chunks i c :
  chunks !! i = Some c -> exists post, data_of chunks = data_of (take i chunks) ++ sealed (blk c) ++ post.
Proof.
  intros Hc. exists (data_of (drop (S i) chunks)). rewrite <-(take_drop_middle chunks i c Hc) at 1. unfold data_of.
  rewrite fmap_app, concat_app. done.
Qed.

Lemma block_data_blk es : length (block_data es) <= length (blk es).
Proof. unfold blk, builder_finish, block_data. simpl. rewrite length_app. lia. Qed.

Lemma last_key_in c : c <> [] -> exists e, e ∈ c /\ last c = Some e /\ last_key c = e.1.
Proof.
  intros Hne. destruct (last c) as [e|] eqn:Hl; [|by apply last_None in Hl]. exists e.
  split_and!; [by apply last_Some_elem_of|done|unfold last_key; by rewrite Hl].
Qed.

Lemma index_of_elem chunks x :
  x ∈ index_of chunks -> Forall (fun c => c <> []) chunks -> exists e, e ∈ concat chunks /\ x.1 = e.1.
Proof.
  intros [i Hi]%list_elem_of_lookup_1 Hne. rewrite index_of_lookup in Hi. destruct (chunks !! i) as [c|] eqn:Hc; [|done].
  injection Hi as <-. destruct (last_key_in c) as (e & He & _ & Hk); [exact (Forall_lookup_1 _ _ _ _ Hne Hc)|].
  exists e. split; [|done]. rewrite (concat_at _ _ _ Hc). set_solver.
Qed.

Lemma index_of_sorted chunks :
  Forall (fun c => c <> []) chunks -> ik_sorted (concat chunks) -> ik_sorted (index_of chunks).
Proof.
  induction chunks as [|c cs IH] using rev_ind; [constructor|]. rewrite concat_snoc, index_of_snoc.
  intros [Hne Hc]%Forall_app Hs. inversion Hc as [|? ? Hcn _]; subst.
  apply StronglySorted_app_2; [|apply IH; [done|by apply StronglySorted_app_1_l in Hs]|by repeat constructor].
  intros x y Hx ->%list_elem_of_singleton. destruct (index_of_elem _ _ Hx Hne) as (e & He & Hxe).
  destruct (last_key_in c Hcn) as (e' & He' & _ & Hk). unfold entry_lt. simpl. rewrite Hxe, Hk. exact (StronglySorted_app_1_elem_of _ _ _ _ _ Hs He He').
Qed.

Lemma index_of_wf chunks : Forall (fun c => c <> []) chunks -> keys_wf (concat chunks) -> keys_wf (index_of chunks).
Proof.
  intros Hne Hwf. apply Forall_forall. intros x Hx. destruct (index_of_elem _ _ Hx Hne) as (e & He & Hxe).
  rewrite Hxe. by eapply Forall_forall in Hwf.
Qed.

Section Rep.
Context {t : table} {chunks : list (list entry)} (Ht : trep t chunks).

Lemma trep_chunk i c :
  chunks !! i = Some c -> ik_sorted c /\ keys_wf c /\ block_small c /\ c <> [] /\
    (N.of_nat (length (data_of (take i chunks)) + length (blk c)) < w32)%N.
Proof.
  intros Hc. destruct Ht. rewrite tr_data0 in tr_small0. destruct (data_of_at _ _ _ Hc) as [post Hd].
  rewrite (concat_at _ _ _ Hc) in tr_sorted0, tr_wf0.
  unfold file_of in tr_small0. rewrite Hd, !length_app, length_sealed in tr_small0.
  unfold block_small. pose proof (block_data_blk c). split_and!; [| |lia|exact (Forall_lookup_1 _ _ _ _ tr_nonempty0 Hc)|lia].
  - by apply StronglySorted_app_1_r, StronglySorted_app_1_l in tr_sorted0.
  - unfold keys_wf in *. rewrite !Forall_app in tr_wf0. naive_solver.
Qed.

Lemma trep_index : exists idx, newBlockIter (t_index t) = Ret idx /\ block_over idx (index_of chunks).
Proof.
  destruct Ht. rewrite tr_index0. apply newBlockIter_ok; [by apply index_of_sorted|by apply index_of_wf|].
  rewrite tr_data0 in tr_small0. unfold file_of in tr_small0. rewrite !length_app, length_sealed in tr_small0.
  unfold block_small. pose proof (block_data_blk (index_of chunks)). lia.
Qed.

(** ** The iterator *)

Definition titer (it : tableIter) : Prop :=
  ti_t it = t /\ ti_err it = None /\ exists idx, ti_index it = Some idx /\ block_over idx (index_of chunks).

(** Entry [j] of block [i]. *)
Definition titer_in (it : tableIter) (i : nat) (c : list entry) (j : nat) : Prop :=
  ti_t it = t /\ ti_err it = None /\ chunks !! i = Some c /\
  (exists idx, ti_index it = Some idx /\ block_at idx (index_of chunks) i) /\
  exists b, ti_block it = Some b /\ block_at b c j.

Definition titer_end (it : tableIter) : Prop := titer it /\ ti_block it = None.

Lemma length_index_of : length (index_of chunks) = length chunks.
Proof. unfold index_of. by rewrite length_imap. Qed.

Lemma loadBlock_some it idx i c :
  ti_t it = t -> ti_err it = None -> ti_index it = Some idx -> block_at idx (index_of chunks) i -> chunks !! i = Some c ->
  exists b, loadBlock it = Ret (mkTableIter t (Some idx) (Some b) None, true) /\ block_over b c.
Proof.
  intros Htt He Hi Hat Hc. unfold loadBlock. rewrite Htt, He, Hi, (block_valid_at _ _ _ Hat).
  rewrite length_index_of, (proj2 (Nat.ltb_lt _ _)) by (by eapply lookup_lt_Some).
  destruct Hat as (_ & _ & Hm). rewrite index_of_lookup, Hc in Hm. cbn [fmap option_fmap option_map] in Hm.
  destruct Hm as (_ & _ & _ & ->). destruct (trep_chunk _ _ Hc) as (Hs & Hwf & Hsm & _ & Hlen).
  cbn [snd]. rewrite decode_encodeHandle by apply u64_lt. cbn [mbind go_bind].
  destruct (data_of_at _ _ _ Hc) as [post Hd]. unfold handle_at. rewrite !u64_small by (unfold w32, w64 in *; lia).
  destruct Ht. rewrite tr_data0. unfold file_of. rewrite Hd, <-!app_assoc, readBlock_at by done.
  destruct (newBlockIter_ok c Hs Hwf Hsm) as (b & Hb & Hov). unfold blk. rewrite Hb. eauto.
Qed.

Lemma loadBlock_none it idx i :
  ti_t it = t -> ti_err it = None -> ti_index it = Some idx -> block_at idx (index_of chunks) i -> chunks !! i = None ->
  loadBlock it = Ret (mkTableIter t (Some idx) None None, false).
Proof.
  intros Htt He Hi Hat Hc. unfold loadBlock. rewrite Htt, He, Hi, (block_valid_at _ _ _ Hat).
  by rewrite length_index_of, (proj2 (Nat.ltb_ge _ _)) by (by apply lookup_ge_None).
Qed.

Lemma skipExhausted_in fuel it i c j : titer_in it i c j -> j < length c -> skipExhausted fuel it = Ret it.
Proof.
  intros (_ & He & _ & _ & b & Hb & Hat) Hj. destruct fuel; simpl; rewrite Hb, He, (block_valid_at _ _ _ Hat);
    by rewrite (proj2 (Nat.ltb_lt _ _)).
Qed.

(** After the last entry of a block comes the first of the next. *)
Lemma skipExhausted_out fuel it i c :
  titer_in it i c (length c) ->
  exists it', skipExhausted (S fuel) it = Ret it' /\
    match chunks !! S i with Some c' => titer_in it' (S i) c' 0 | None => titer_end it' end.
Proof.
  intros (Htt & He & Hc & (idx & Hi & Hiat) & b & Hb & Hat). cbn [skipExhausted].
  rewrite Hb, He, Hi, (block_valid_at _ _ _ Hat), Nat.ltb_irrefl. destruct Hat as ((_ & _ & -> & _) & _).
  destruct (block_next_step _ _ _ Hiat) as (idx' & -> & Hiat'); [rewrite length_index_of; by eapply lookup_lt_Some|].
  cbn [mbind go_bind]. destruct (chunks !! S i) as [c'|] eqn:Hc'.
  - destruct (loadBlock_some (ti_with_index idx' it) idx' (S i) c') as (b' & -> & Hov); [done..|].
    cbn [mbind go_bind ti_block]. destruct (block_first_at _ _ Hov) as (b2 & -> & Hat2). cbn [mbind go_bind].
    destruct (trep_chunk _ _ Hc') as (_ & _ & _ & Hne & _).
    assert (titer_in (ti_with_block b2 (mkTableIter t (Some idx') (Some b') None)) (S i) c' 0) as Hin
      by (split_and!; [done..|by exists idx'|by exists b2]).
    rewrite (skipExhausted_in _ _ _ _ _ Hin) by (by destruct c'; [|simpl; lia]). eauto.
  - rewrite (loadBlock_none (ti_with_index idx' it) idx' (S i)) by done. cbn [mbind go_bind].
    eexists. split; [done|]. split; [|done]. split_and!; [done..|]. exists idx'. split; [done|by destruct Hiat'].
Qed.
End Rep.

(** ** Positions *)

Lemma le_last_key c e : ik_sorted c -> e ∈ c -> ik_le e.1 (last_key c).
Proof.
  destruct c as [|x c _] using rev_ind; [intros _ H; set_solver|]. intros Hs He. unfold last_key. rewrite last_snoc. simpl.
  apply elem_of_app in He as [He| ->%list_elem_of_singleton].
  - apply ik_lt_le. apply (StronglySorted_app_1_elem_of _ _ _ _ _ Hs He). set_solver.
  - apply ik_not_lt. apply irreflexivity. apply _.
Qed.

Section Concat.
Context {chunks : list (list entry)} (Hne : Forall (fun c => c <> []) chunks) (Hs : ik_sorted (concat chunks)).

Lemma chunk_sorted i c : chunks !! i = Some c -> ik_sorted c.
Proof.
  intros Hc. rewrite (concat_at _ _ _ Hc) in Hs. by apply StronglySorted_app_1_r, StronglySorted_app_1_l in Hs.
Qed.

Lemma below_take t i e : i <= first_ge t (index_of chunks) -> e ∈ concat (take i chunks) -> ik_lt e.1 t.
Proof.
  intros Hi (c & He & [k Hk]%list_elem_of_lookup_1)%elem_of_concat. pose proof (lookup_lt_Some _ _ _ Hk) as Hlt.
  rewrite length_take in Hlt. rewrite lookup_take_lt in Hk by lia.
  eapply ik_le_lt_trans; [apply le_last_key; [by eapply chunk_sorted|done]|].
  apply (first_ge_below t (index_of chunks) k (last_key c, encodeHandle (handle_at chunks k c))); [|lia].
  by rewrite index_of_lookup, Hk.
Qed.

Lemma first_ge_concat t c :
  chunks !! first_ge t (index_of chunks) = Some c ->
  first_ge t (concat chunks) = length (concat (take (first_ge t (index_of chunks)) chunks)) + first_ge t c /\
  first_ge t c < length c.
Proof.
  set (i := first_ge t (index_of chunks)). intros Hc. pose proof (chunk_sorted _ _ Hc) as Hcs.
  assert (first_ge t c < length c) as Hlt.
  { destruct (last_key_in c) as (e & He & Hl & Hk); [exact (Forall_lookup_1 _ _ _ _ Hne Hc)|].
    assert (~ ik_lt e.1 t) as Hn.
    { rewrite <-Hk. apply (first_ge_at t (index_of chunks) (last_key c, encodeHandle (handle_at chunks i c))).
      fold i. by rewrite index_of_lookup, Hc. }
    destruct (decide (first_ge t c < length c)) as [|Hge]; [done|]. exfalso. apply Hn.
    apply list_elem_of_lookup_1 in He as [k Hk']. apply (first_ge_below t c k); [done|].
    apply lookup_lt_Some in Hk'. lia. }
  split; [|done]. apply first_ge_unique; [done| | |].
  - rewrite (concat_at _ _ _ Hc), !length_app. lia.
  - intros p e Hp Hpl. rewrite (concat_at _ _ _ Hc) in Hp. apply lookup_app_Some in Hp as [Hp|[Hge Hp]].
    + apply (below_take t i); [done|]. by eapply list_elem_of_lookup_2.
    + rewrite lookup_app_l in Hp by lia. apply (first_ge_below t c _ _ Hp). lia.
  - intros e Hp. rewrite (concat_at _ _ _ Hc), lookup_app_r in Hp by lia. rewrite Nat.add_sub_swap, Nat.sub_diag in Hp by lia.
    rewrite lookup_app_l in Hp by lia. by apply first_ge_at in Hp.
Qed.

Lemma first_ge_concat_end t :
  chunks !! first_ge t (index_of chunks) = None -> first_ge t (concat chunks) = length (concat chunks).
Proof.
  intros Hc%lookup_ge_None. apply first_ge_unique; [done|done| |].
  - intros p e Hp _. apply (below_take t (length chunks)); [lia|]. rewrite firstn_all. by eapply list_elem_of_lookup_2.
  - intros e He. apply lookup_lt_Some in He. lia.
Qed.
End Concat.

(** ** The contract *)

Definition table_over (it : tableIter) (es : list entry) : Prop :=
  exists chunks, trep (ti_t it) chunks /\ concat chunks = es /\ @titer (ti_t it) chunks it.

Definition table_at (it : tableIter) (es : list entry) (p : nat) : Prop :=
  exists chunks, trep (ti_t it) chunks /\ concat chunks = es /\
    ((exists i c j, @titer_in (ti_t it) chunks it i c j /\ j < length c /\ p = length (concat (take i chunks)) + j) \/
     @titer_end (ti_t it) chunks it /\ p = length es).

Lemma table_at_over it es p : table_at it es p -> table_over it es.
Proof.
  intros (chunks & Ht & Hes & [(i & c & j & (_ & He & _ & (idx & Hi & Hov & _) & _) & _)|[[Hit _] _]]); exists chunks.
  - split_and!; [done..|]. split_and!; [done..|]. eauto.
  - done.
Qed.

(** The two moves of [seekToFirst] and [seek], at the index and in a block. *)
Lemma table_position_at move it chunks p i j :
  trep (ti_t it) chunks -> @titer (ti_t it) chunks it ->
  (forall idx, block_over idx (index_of chunks) -> exists idx', move idx = Ret idx' /\ block_at idx' (index_of chunks) i) ->
  (forall b c, chunks !! i = Some c -> block_over b c -> exists b', move b = Ret b' /\ block_at b' c j) ->
  match chunks !! i with
  | Some c => j < length c /\ p = length (concat (take i chunks)) + j
  | None => p = length (concat chunks)
  end ->
  exists it', table_position move it = Ret it' /\ table_at it' (concat chunks) p.
Proof.
  intros Ht (_ & He & idx & Hi & Hov) Hidx Hblk Hp. unfold table_position. rewrite He, Hi.
  destruct (Hidx idx Hov) as (idx' & -> & Hat). cbn [mbind go_bind].
  destruct (chunks !! i) as [c|] eqn:Hc.
  - destruct Hp as [Hj ->].
    destruct (loadBlock_some Ht (ti_with_index idx' it) idx' i c) as (b & -> & Hbov); [done..|].
    cbn [mbind go_bind ti_block]. destruct (Hblk b c eq_refl Hbov) as (b' & -> & Hbat). cbn [mbind go_bind].
    assert (titer_in (t:=ti_t it) (chunks:=chunks) (ti_with_block b' (mkTableIter (ti_t it) (Some idx') (Some b) None)) i c j) as Hin
      by (split_and!; [done..|by exists idx'|by exists b']).
    erewrite skipExhausted_in by done. eexists. split; [done|]. exists chunks. split_and!; [done..|]. left. eauto 6.
  - rewrite (loadBlock_none (ti_with_index idx' it) idx' i) by done. cbn [mbind go_bind]. subst p.
    eexists. split; [done|]. exists chunks. split_and!; [done..|]. right. split; [|done]. split; [|done].
    split_and!; [done..|]. exists idx'. split; [done|by destruct Hat].
Qed.

Lemma table_next_at it es p : table_at it es p -> p < length es -> exists it', table_next it = Ret it' /\ table_at it' es (S p).
Proof.
  intros (chunks & Ht & <- & [(i & c & j & Hin & Hj & ->)|[_ ->]]) Hp; [|lia]. clear Hp.
  destruct Hin as (Htt & He & Hc & Hidx & b & Hb & Hat). unfold table_next. rewrite Hb.
  destruct (block_next_step _ _ _ Hat Hj) as (b' & -> & Hat'). cbn [mbind go_bind].
  assert (titer_in (t:=ti_t it) (chunks:=chunks) (ti_with_block b' it) i c (S j)) as Hin by (split_and!; [done..|by exists b']).
  destruct (decide (S j < length c)) as [Hlt|Hge].
  - erewrite skipExhausted_in by done. eexists. split; [done|]. exists chunks. split_and!; [done..|]. left.
    exists i, c, (S j). split_and!; [done..|lia].
  - assert (S j = length c) as Hjc by lia. rewrite Hjc in Hin. unfold skip_fuel.
    destruct (skipExhausted_out Ht (length (t_index (ti_t it))) _ _ _ Hin) as (it' & -> & Hit').
    exists it'. split; [done|].
    assert (ti_t it' = ti_t it) as Htt' by (destruct (chunks !! S i); [by destruct Hit'|by destruct Hit' as [[] _]]).
    exists chunks. rewrite Htt'. split_and!; [done..|]. destruct (chunks !! S i) as [c'|] eqn:Hc'.
    + left. exists (S i), c', 0. split_and!; [done| |].
      * destruct (trep_chunk Ht _ _ Hc') as (_ & _ & _ & Hne & _). by destruct c'; [|simpl; lia].
      * rewrite (take_S_r _ _ _ Hc), concat_snoc, length_app. lia.
    + right. split; [done|]. rewrite (concat_at _ _ _ Hc), !length_app.
      rewrite drop_ge by (by apply lookup_ge_None). simpl. lia.
Qed.

#[global] Instance table_InternalIterOK : InternalIterOK tableIter.
Proof.
  refine {| it_over := table_over; it_at := table_at |}; simpl.
  - apply table_at_over.
  - intros it es (chunks & Ht & <- & _). by destruct Ht.
  - intros it es (chunks & Ht & <- & Hit). apply (table_position_at _ _ _ _ 0 0 Ht Hit).
    + intros idx Hov. by apply block_first_at.
    + intros b c _ Hov. by apply block_first_at.
    + destruct chunks as [|c cs] eqn:Hch; simpl; [done|]. destruct (trep_chunk Ht 0 c) as (_ & _ & _ & Hne & _); [done|].
      by destruct c; [|simpl; split; [lia|]].
  - intros t it es (chunks & Ht & <- & Hit) Hwf.
    destruct (chunks !! first_ge t (index_of chunks)) as [c|] eqn:Hc.
    + eapply (table_position_at _ _ _ _ (first_ge t (index_of chunks)) (first_ge t c) Ht Hit).
      * intros idx Hov. by apply block_seek_at.
      * intros b c' Hc' Hov. simplify_eq. by apply block_seek_at.
      * rewrite Hc. destruct Ht. apply and_comm. by apply first_ge_concat.
    + eapply (table_position_at _ _ _ _ (first_ge t (index_of chunks)) 0 Ht Hit).
      * intros idx Hov. by apply block_seek_at.
      * congruence.
      * rewrite Hc. destruct Ht. by apply first_ge_concat_end.
  - intros it es p (chunks & Ht & <- & [(i & c & j & Hin & Hj & ->)|[[(_ & He & _) Hb] ->]]).
    + destruct Hin as (_ & He & Hc & _ & b & Hb & Hat). unfold table_valid. rewrite He, Hb, (block_valid_at _ _ _ Hat).
      rewrite (concat_at _ _ _ Hc), !length_app. rewrite !(proj2 (Nat.ltb_lt _ _)) by lia. done.
    + unfold table_valid. by rewrite He, Hb, Nat.ltb_irrefl.
  - apply table_next_at.
  - intros it es p e (chunks & Ht & <- & [(i & c & j & Hin & Hj & ->)|[_ ->]]) Hp; [|by apply lookup_lt_Some in Hp; lia].
    destruct Hin as (_ & He & Hc & _ & b & Hb & Hat). unfold table_key, table_value. rewrite Hb.
    rewrite (concat_at _ _ _ Hc), lookup_app_r, Nat.add_sub_swap, Nat.sub_diag, lookup_app_l in Hp by lia. simpl in Hp.
    destruct Hat as (_ & _ & Hm). rewrite Hp in Hm. by destruct Hm as (_ & _ & -> & ->).
  - intros it es (chunks & Ht & <- & (_ & He & _)). done.
Defined.

(** ** A table that was written and opened *)

Definition writeTable (es : list entry) (w : tableWriter) : go (tableMeta * bytes) :=
  w ← write_all es w; tw_finish w.

Definition table_holds (t : table) (es : list entry) : Prop :=
  (exists chunks, trep t chunks /\ concat chunks = es) /\ buildBloom ((fun e => userKey e.1) <$> es) = Ret (t_bloom t).

Lemma writeTable_inv file num bs io es m data :
  writeTable es (freshWriter file num bs io) = Ret (m, data) ->
  exists chunks bloom, concat chunks = es /\ Forall (fun c => c <> []) chunks /\
    buildBloom ((fun e => userKey e.1) <$> es) = Ret bloom /\ data = file_of chunks bloom /\ m = meta_of num data es.
Proof.
  unfold writeTable. destruct (write_all es _) as [w| |] eqn:Hw; cbn [mbind go_bind]; [|done..].
  destruct (write_all_winv num _ _ [] [] [] _ (winv_start file num bs io) Hw) as (ch & cur & Hi). intros Hf. exact (winv_finish _ _ _ _ _ _ _ Hi Hf).
Qed.

Lemma writeTable_total file num bs es :
  keys_wf es -> (N.of_nat (length es * bloomBitsPerKey + 72) < w32)%N ->
  exists r, writeTable es (freshWriter file num bs []) = Ret r.
Proof.
  intros Hwf Hlen. unfold writeTable.
  destruct (write_all_total es (freshWriter file num bs []) eq_refl Hwf) as (w & Hw & Hio). rewrite Hw. cbn [mbind go_bind].
  destruct (write_all_winv num _ _ [] [] [] _ (winv_start file num bs []) Hw) as (ch & cur & Hi).
  destruct (buildBloom_total (tw_bloomKeys w)) as [bloom Hb].
  - by rewrite (wi_bloom _ _ _ _ _ Hi), length_fmap.
  - by apply (tw_finish_total w bloom).
Qed.

(** Opening succeeds, and gives the table back. *)
Lemma open_holds file num bs io es m data meta bad :
  ik_sorted es -> keys_wf es -> writeTable es (freshWriter file num bs io) = Ret (m, data) ->
  (N.of_nat (length data) < w32)%N -> (forall o, bad o = false) ->
  exists t, readFooter meta data bad = Ret t /\ table_holds t es.
Proof.
  intros Hs Hwf Hw Hlen Hbad. apply writeTable_inv in Hw as (chunks & bloom & <- & Hne & Hb & -> & _).
  rewrite readFooter_file_of; [|unfold w32, w64 in *; lia|done]. eexists. split; [done|]. split; [|done].
  exists chunks. split; [|done]. by constructor.
Qed.

Lemma table_iter_over t es : table_holds t es -> exists it, table_iter t = Ret it /\ it_over it es.
Proof.
  intros [(chunks & Ht & <-) _]. destruct (trep_index Ht) as (idx & Hi & Hov). unfold table_iter. rewrite Hi.
  eexists. split; [done|]. exists chunks. split_and!; [done..|]. split_and!; [done..|]. by exists idx.
Qed.

Lemma table_get_holds t es key seq :
  table_holds t es -> kinds_ok es -> (seq < maxSeq)%N -> table_get key seq t = Ret (newest key seq es).
Proof.
  intros Hh Hk Hseq. destruct (table_iter_over _ _ Hh) as (it0 & Hit0 & Hov). destruct (it_over_sorted _ _ Hov) as [Hs Hwf].
  destruct Hh as [_ Hb]. unfold table_get. destruct (mayContain_total _ _ key Hb) as [may Hmay]. rewrite Hmay. cbn [mbind go_bind].
  destruct may; cbn [negb].
  - rewrite Hit0. cbn [mbind go_bind].
    destruct (it_seek_ok (seek_key key seq) _ _ Hov (makeInternalKey_wf _ _ _)) as (it & Hseek & Hat).
    change (table_seek (makeInternalKey key seq kindPut)) with (it_seek (I:=tableIter) (seek_key key seq)). rewrite Hseek. cbn [mbind go_bind].
    change (table_valid it) with (it_valid it). rewrite (it_valid_ok _ _ _ Hat), (newest_seek key seq es Hs Hk Hseq).
    destruct (es !! first_ge (seek_key key seq) es) as [e|] eqn:He.
    + rewrite (proj2 (Nat.ltb_lt _ _)) by (by eapply lookup_lt_Some). cbn [negb].
      destruct (it_key_ok _ _ _ _ Hat He) as [Hkey Hval]. change (table_key it) with (it_key it). rewrite Hkey. cbn [mbind go_bind].
      change (table_value it) with (it_value it). rewrite Hval, split_key_wf by (by eapply Forall_lookup_1 in Hwf). cbn [mbind go_bind].
      unfold entry_found.
      destruct (decide (userKey e.1 = key)) as [Hu|Hu].
      * rewrite bool_decide_false by (intros Hn; by apply Hn). destruct (decide (ik_kind e.1 = kindDelete)); [by rewrite bool_decide_true|by rewrite bool_decide_false].
      * by rewrite bool_decide_true.
    + rewrite (proj2 (Nat.ltb_ge _ _)) by (by apply lookup_ge_None). cbn [negb].
      apply it_at_over, it_close_ok in Hat. simpl in Hat. by rewrite Hat.
  - f_equal. unfold newest. destruct (head _) as [e|] eqn:Hh; [|done]. exfalso.
    destruct (newest_head _ _ _ _ Hs Hh) as (He & [Hu _] & _).
    rewrite (mayContain_member _ _ key Hb) in Hmay; [done|]. apply list_elem_of_fmap. by exists e.
Qed.

(** C31: A table comes back as it was written: writing entries in order with
    no I/O error succeeds with the right metadata, and the file, opened
    again, is walked by its iterator entry for entry from the start, and from
    the first key at or above any target. *)
Theorem table_roundtrip num bs es :
  ik_sorted es -> keys_wf es -> (N.of_nat (length es * bloomBitsPerKey + 72) < w32)%N ->
  exists m data, (w ← newTableWriter num bs []; writeTable es w) = Ret (m, data) /\ m = meta_of num data es /\
    ((N.of_nat (length data) < w32)%N ->
     exists t it, openTable m data (fun _ => false) = Ret t /\ table_iter t = Ret it /\
       (it ← table_seekToFirst it; drain (length es) it) = Ret es /\
       forall target, ikey_wf target ->
         (it ← table_seek target it; drain (length es) it) = Ret (drop (first_ge target es) es)).
Proof.
  intros Hs Hwf Hlen. destruct (writeTable_total true num bs es Hwf Hlen) as [[m data] Hw]. exists m, data. split; [done|].
  pose proof (writeTable_inv _ _ _ _ _ _ _ Hw) as (_ & _ & _ & _ & _ & _ & Hm). split; [done|]. intros Hd.
  destruct (open_holds _ _ _ _ _ _ _ m (fun _ => false) Hs Hwf Hw Hd) as (t & Ht & Hh); [done|].
  exists t. apply table_iter_over in Hh as (it & Hit & Hh). exists it. split; [done|]. split; [done|]. split.
  - exact (drain_first _ _ Hh).
  - intros target Ht'. exact (drain_seek target _ _ Hh Ht').
Qed.

Lemma table_roundtrip_witness :
  exists m data, (w ← newTableWriter 9 1 []; writeTable ex_entries w) = Ret (m, data) /\ tm_count m = 3%N.
Proof.
  destruct (table_roundtrip 9 1 ex_entries) as (m & data & H & Hm & _); [apply ex_entries_sorted..|done|].
  exists m, data. split; [done|]. by rewrite Hm.
Defined.

(** C32: Looking a key up in a table finds the newest version at or below the
    sequence number, or the tombstone there, or nothing when there is none;
    the bloom filter never hides one. *)
Theorem table_get_newest num bs io es m data meta t key seq :
  ik_sorted es -> keys_wf es -> kinds_ok es -> (w ← newTableWriter num bs io; writeTable es w) = Ret (m, data) ->
  (N.of_nat (length data) < w32)%N -> openTable meta data (fun _ => false) = Ret t -> (seq < maxSeq)%N ->
  exists r, table_get key seq t = Ret r /\ newest_spec key seq es r.
Proof.
  intros Hs Hwf Hk Hw Hd Ho Hseq. unfold newTableWriter in Hw.
  destruct (io_call _) as [w| |] eqn:Hc in Hw; cbn [mbind go_bind] in Hw; [|done..]. apply io_call_inv in Hc as [io' ->].
  destruct (open_holds true num bs io' _ _ _ meta (fun _ => false) Hs Hwf Hw Hd) as (t' & Ht & Hh); [done|].
  unfold openTable in Ho. rewrite Ht in Ho. injection Ho as <-. exists (newest key seq es). split; [by apply table_get_holds|by apply newest_ok].
Qed.

Definition ex_table : tableMeta * bytes :=
  match (w ← newTableWriter 9 1 []; writeTable ex_entries w) with Ret r => r | _ => (mkMeta 0 0 0 [] [], []) end.

Lemma table_get_newest_witness :
  exists t r, openTable ex_table.1 ex_table.2 (fun _ => false) = Ret t /\ table_get [x61] 5 t = Ret r /\ newest_spec [x61] 5 ex_entries r.
Proof.
  destruct (openTable ex_table.1 ex_table.2 (fun _ => false)) as [t|e|] eqn:Ho; [|by vm_compute in Ho..].
  destruct (table_get_newest 9 1 [] ex_entries ex_table.1 ex_table.2 ex_table.1 t [x61] 5) as (r & H & Hr);
    [apply ex_entries_sorted|apply ex_entries_sorted|repeat constructor; by vm_compute|by vm_compute|by vm_compute|done|done|].
  eauto.
Defined.
