(* ===== verification/Db.v ===== *)
(** * storage.DB: the interface of the storage engine

    What the state machine uses of [storage.DB], and what it relies on: on a
    view of the contents as a map, every call has the expected result or
    fails.  A failure leaves the state machine no choice but to panic, so
    nothing is said about the contents after one. *)

From stdpp Require Import base list gmap sorting.
From S2P Require Import Prelude Codec Key Batch.

Class DB (D : Type) := {
  db_Get : bytes -> D -> go bytes;
  db_Write : Batch -> D -> go D;
  (** the pairs an iterator over [start, end) returns; no end is [None] *)
  db_Scan : bytes -> option bytes -> D -> go (list (bytes * bytes));
  db_Sync : D -> go D;
  db_Export : D -> go bytes;
  db_Restore : bytes -> D -> go D;
}.

(** ** Contents *)

Definition apply_op (m : gmap bytes bytes) (op : batchOp) : gmap bytes bytes :=
  if bool_decide (op_kind op = kindDelete) then delete (op_key op) m else <[op_key op := op_value op]> m.

Definition apply_ops (ops : list batchOp) (m : gmap bytes bytes) : gmap bytes bytes := foldl apply_op m ops.

Definition ble (a b : bytes) : Prop := bcmp a b <> Gt.
#[global] Instance ble_dec : RelDecision ble.
Proof. intros a b. unfold ble. apply _. Defined.

Definition in_range (start : bytes) (stop : option bytes) (k : bytes) : Prop :=
  bcmp start k <> Gt /\ match stop with Some e => bcmp k e = Lt | None => True end.
#[global] Instance in_range_dec start stop k : Decision (in_range start stop k).
Proof. unfold in_range. destruct stop; apply _. Defined.

Definition kv_le (a b : bytes * bytes) : Prop := ble a.1 b.1.
#[global] Instance kv_le_dec : RelDecision kv_le.
Proof. intros a b. unfold kv_le. apply _. Defined.

(** The pairs of a range in key order. *)
Definition range (start : bytes) (stop : option bytes) (m : gmap bytes bytes) : list (bytes * bytes) :=
  merge_sort kv_le (map_to_list (filter (fun kv => in_range start stop kv.1) m)).

(** A failed call, other than a key that is not there. *)
Definition fails {A} (r : go A) : Prop :=
  match r with Ret _ => False | Fail e => e <> ErrNotFound | Panic => True end.

(** What the engine promises.  Keys of a batch are not empty. *)
Class DBOK (D : Type) `{DB D} := {
  db_ok : D -> Prop;
  db_view : D -> gmap bytes bytes;
  db_Get_ok k d : db_ok d ->
    db_Get k d = (match db_view d !! k with Some v => Ret v | None => Fail ErrNotFound end) \/ fails (db_Get k d);
  db_Write_ok b d : db_ok d -> Forall (fun op => op_key op <> []) (b_ops b) ->
    (exists d', db_Write b d = Ret d' /\ db_ok d' /\ db_view d' = apply_ops (b_ops b) (db_view d)) \/
    fails (db_Write b d);
  db_Scan_ok start stop d : db_ok d ->
    db_Scan start stop d = Ret (range start stop (db_view d)) \/ fails (db_Scan start stop d);
  db_Sync_ok d : db_ok d ->
    (exists d', db_Sync d = Ret d' /\ db_ok d' /\ db_view d' = db_view d) \/ fails (db_Sync d);
  db_Restore_ok d d' x : db_ok d -> db_ok d' -> db_Export d = Ret x ->
    (exists d'', db_Restore x d' = Ret d'' /\ db_ok d'' /\ db_view d'' = db_view d) \/ fails (db_Restore x d');
}.

(** ** Ranges *)

Lemma ble_total : Total ble.
Proof.
  intros a b. unfold ble. rewrite (bcmp_antisym a b). destruct (bcmp a b); simpl; auto; by left.
Qed.

Lemma elem_of_range start stop m k v :
  (k, v) ∈ range start stop m <-> m !! k = Some v /\ in_range start stop k.
Proof.
  unfold range. rewrite merge_sort_Permutation, elem_of_map_to_list, map_lookup_filter_Some. done.
Qed.

Lemma NoDup_range start stop m : NoDup (range start stop m).*1.
Proof. unfold range. rewrite merge_sort_Permutation. apply NoDup_fst_map_to_list. Qed.

Definition kv_lt (a b : bytes * bytes) : Prop := bcmp a.1 b.1 = Lt.

#[global] Instance ble_trans : Transitive ble.
Proof.
  intros a b c H1 H2 H3. destruct (bcmp a b) eqn:E1; [|destruct (bcmp b c) eqn:E2|by apply H1].
  - apply bcmp_eq in E1 as ->. by apply H2.
  - apply bcmp_eq in E2 as ->. congruence.
  - rewrite (bcmp_lt_trans _ _ _ E1 E2) in H3. done.
  - by apply H2.
Qed.

#[global] Instance kv_le_trans : Transitive kv_le.
Proof. intros a b c. apply ble_trans. Qed.
#[global] Instance kv_le_total : Total kv_le.
Proof. intros a b. apply ble_total. Qed.
#[global] Instance kv_lt_antisymm : AntiSymm (=) kv_lt.
Proof. intros a b H1 H2. unfold kv_lt in *. rewrite bcmp_antisym, H1 in H2. done. Qed.

Lemma range_sorted start stop m : StronglySorted kv_lt (range start stop m).
Proof.
  assert (StronglySorted kv_le (range start stop m)) as Hs by (apply StronglySorted_merge_sort; apply _).
  pose proof (NoDup_range start stop m) as Hnd. induction Hs as [|x l Hs IH Hall]; [constructor|].
  cbn [fmap list_fmap] in Hnd. apply NoDup_cons in Hnd as [Hn Hnd]. constructor; [auto|].
  rewrite Forall_forall in Hall. apply Forall_forall. intros y Hy. specialize (Hall y Hy).
  unfold kv_le, ble, kv_lt in *. destruct (bcmp x.1 y.1) eqn:E; [|done|done].
  apply bcmp_eq in E. exfalso. apply Hn. rewrite E. apply list_elem_of_fmap. eauto.
Qed.

Lemma kv_sorted_NoDup l : StronglySorted kv_lt l -> NoDup l.
Proof.
  induction 1 as [|x l _ IH Hall]; [constructor|]. constructor; [|done]. intros Hin.
  rewrite Forall_forall in Hall. specialize (Hall x Hin). unfold kv_lt in Hall. by rewrite bcmp_refl in Hall.
Qed.

(** Sorted pairs are determined by their elements. *)
Lemma kv_sorted_unique l1 l2 :
  StronglySorted kv_lt l1 -> StronglySorted kv_lt l2 -> (forall x, x ∈ l1 <-> x ∈ l2) -> l1 = l2.
Proof.
  intros H1 H2 Hx. apply (StronglySorted_unique kv_lt); [done|done|].
  apply NoDup_Permutation; auto using kv_sorted_NoDup.
Qed.

(** ** A map as an engine

    The contents only, without failures.  A snapshot is a batch that writes
    them all; one too large to be encoded is refused. *)

Definition put_all (m : gmap bytes bytes) : list batchOp :=
  (fun kv => BatchOp kindPut kv.1 kv.2) <$> map_to_list m.

#[global] Instance batch_ok_dec ops : Decision (batch_ok ops).
Proof. unfold batch_ok, op_ok, field_ok. apply _. Defined.

Definition map_Export (m : gmap bytes bytes) : go bytes :=
  if bool_decide (batch_ok (put_all m)) then Ret (encode (mkBatch (put_all m) 0) 0) else Fail ErrIO.

Definition map_Restore (x : bytes) (_ : gmap bytes bytes) : go (gmap bytes bytes) :=
  '(_, b) ← decodeBatch x; Ret (apply_ops (b_ops b) ∅).

#[global] Instance map_DB : DB (gmap bytes bytes) := {
  db_Get k m := match m !! k with Some v => Ret v | None => Fail ErrNotFound end;
  db_Write b m := Ret (apply_ops (b_ops b) m);
  db_Scan start stop m := Ret (range start stop m);
  db_Sync m := Ret m;
  db_Export := map_Export;
  db_Restore := map_Restore;
}.

Lemma apply_puts (l : list (bytes * bytes)) (m : gmap bytes bytes) k :
  NoDup l.*1 ->
  apply_ops ((fun kv => BatchOp kindPut kv.1 kv.2) <$> l) m !! k =
    match (list_to_map l : gmap bytes bytes) !! k with Some v => Some v | None => m !! k end.
Proof.
  revert m. induction l as [|[a v] l IH]; intros m; [done|]. cbn [fmap list_fmap].
  intros [Hn Hnd]%NoDup_cons. unfold apply_ops. cbn [foldl].
  change (foldl apply_op ?x ?l) with (apply_ops l x). rewrite IH by done. simpl list_to_map.
  destruct (decide (k = a)) as [->|Hne].
  - rewrite lookup_insert_eq. rewrite not_elem_of_list_to_map_1 by done. apply lookup_insert_eq.
  - rewrite (lookup_insert_ne (list_to_map l)) by done. case_match; [done|]. apply lookup_insert_ne. done.
Qed.

Lemma apply_put_all m : apply_ops (put_all m) ∅ = m.
Proof.
  apply map_eq. intros k. unfold put_all. rewrite apply_puts by apply NoDup_fst_map_to_list.
  rewrite list_to_map_to_list. destruct (m !! k); [done|]. apply lookup_empty.
Qed.

#[global] Instance map_DBOK : DBOK (gmap bytes bytes).
Proof.
  refine {| db_ok := fun _ => True; db_view := fun m => m |}; simpl.
  - by left.
  - left. eauto.
  - by left.
  - left. eauto.
  - intros d d' x _ _. unfold map_Export. case_bool_decide as Hok; [|done]. intros [= <-]. left.
    unfold map_Restore. rewrite decodeBatch_encode by done. simpl. rewrite apply_put_all. eauto.
Defined.
