(* ===== verification/DbIter.v ===== *)
(** * storage/db.go: the iterator over visible values

    [dbIter] turns a stream of versions into one value per user key: versions
    newer than the snapshot are skipped, the first that remains wins, and a
    tombstone hides its key.  What it yields is the range of the map of
    visible values. *)

From stdpp Require Import base list gmap sorting.
From S2P Require Import Prelude Codec Key Batch Iter Versions Db.

Record dbIter (M : Type) := mkDbIter {
  di_seq : N;
  di_m : M;
  di_end : option bytes;
  di_k : bytes;
  di_val : bytes;
  di_last : bytes;
}.
Arguments mkDbIter {M} _ _ _ _ _ _.
Arguments di_seq {M} _.
Arguments di_m {M} _.
Arguments di_end {M} _.
Arguments di_k {M} _.
Arguments di_val {M} _.
Arguments di_last {M} _.

(** [it.end != nil && bytes.Compare(user, it.end) >= 0] *)
Definition past_end (stop : option bytes) (user : bytes) : bool :=
  match stop with Some e => bool_decide (bcmp user e <> Lt) | None => false end.

Section Ops.
Context {M : Type} `{InternalIter M}.

(** Every round of the loop takes an entry. *)
Fixpoint dbNext (fuel : nat) (it : dbIter M) : go (dbIter M * bool) :=
  if it_valid (di_m it) then
    match fuel with
    | O => Panic
    | S fuel =>
        ik ← it_key (di_m it);
        '(user, seq, kind) ← split_key ik;
        if past_end (di_end it) user then Ret (it, false)
        else if (di_seq it <? seq)%N || bool_decide (user = di_last it) then
          m ← it_next (di_m it);
          dbNext fuel (mkDbIter (di_seq it) m (di_end it) (di_k it) (di_val it) (di_last it))
        else if bool_decide (kind = kindDelete) then
          m ← it_next (di_m it);
          dbNext fuel (mkDbIter (di_seq it) m (di_end it) (di_k it) (di_val it) user)
        else
          v ← it_value (di_m it);
          m ← it_next (di_m it);
          Ret (mkDbIter (di_seq it) m (di_end it) user v user, true)
    end
  else Ret (it, false).

(** What a caller collects with [for it.Next() { ... }], and the iterator
    it is left with. *)
Fixpoint dbCollect (fuel : nat) (it : dbIter M) : go (list (bytes * bytes) * dbIter M) :=
  '(it, more) ← dbNext fuel it;
  if (more : bool) then
    match fuel with
    | O => Panic
    | S fuel => '(l, last) ← dbCollect fuel it; Ret ((di_k it, di_val it) :: l, last)
    end
  else Ret ([], it).

(** [Scan]: the pairs, or the error [Close] reports. *)
Definition scan_iter (fuel : nat) (start : bytes) (stop : option bytes) (seq : N) (m : M) : go (list (bytes * bytes)) :=
  m ← it_seek (makeInternalKey start seq kindPut) m;
  '(l, it) ← dbCollect fuel (mkDbIter seq m stop [] [] []);
  match (it_close (di_m it)).2 with Some e => Fail e | None => Ret l end.
End Ops.

(** ** What it yields *)

Fixpoint visible (seq : N) (stop : option bytes) (last : bytes) (es : list entry) : list (bytes * bytes) :=
  match es with
  | [] => []
  | e :: es =>
      let user := userKey e.1 in
      if past_end stop user then []
      else if (seq <? ik_seq e.1)%N || bool_decide (user = last) then visible seq stop last es
      else if bool_decide (ik_kind e.1 = kindDelete) then visible seq stop user es
      else (user, e.2) :: visible seq stop user es
  end.

Section Collect.
Context {M : Type} `{InternalIterOK M}.

(** One call to [Next] against the list. *)
Lemma dbNext_ok fuel it es p :
  it_at (di_m it) es p -> length es - p <= fuel ->
  exists it' more q, dbNext fuel it = Ret (it', more) /\ di_seq it' = di_seq it /\ di_end it' = di_end it /\
    it_at (di_m it') es q /\
    visible (di_seq it) (di_end it) (di_last it) (drop p es) =
      (if more : bool then (di_k it', di_val it') :: visible (di_seq it) (di_end it) (di_last it') (drop q es) else []) /\
    (more = true -> p < q).
Proof.
  revert it p. induction fuel as [|fuel IH]; intros it p Hat Hf; cbn [dbNext]; rewrite (it_valid_ok _ _ _ Hat);
    destruct (Nat.ltb_spec p (length es)) as [Hlt|Hge]; try lia;
    try (exists it, false, p; rewrite drop_ge by lia; by split_and!).
  destruct (lookup_lt_is_Some_2 es p Hlt) as [e He]. destruct (it_key_ok _ _ _ _ Hat He) as [-> Hv].
  destruct (it_over_sorted _ _ (it_at_over _ _ _ Hat)) as [_ Hwf]. cbn [mbind go_bind].
  rewrite split_key_wf by (by eapply Forall_lookup_1 in Hwf). cbn [mbind go_bind].
  destruct (it_next_ok _ _ _ Hat Hlt) as (m' & Hn & Hat'). rewrite (drop_S _ _ _ He). cbn [visible].
  destruct (past_end (di_end it) (userKey e.1)); [exists it, false, p; by split_and!|].
  destruct (_ || _); [|destruct (bool_decide (ik_kind e.1 = kindDelete))].
  - rewrite Hn. cbn [mbind go_bind].
    destruct (IH (mkDbIter (di_seq it) m' (di_end it) (di_k it) (di_val it) (di_last it)) (S p) Hat') as (it' & more & q & -> & H1 & H2 & H3 & H4 & H5); [lia|].
    exists it', more, q. split_and!; try done. intros Hm. specialize (H5 Hm). lia.
  - rewrite Hn. cbn [mbind go_bind].
    destruct (IH (mkDbIter (di_seq it) m' (di_end it) (di_k it) (di_val it) (userKey e.1)) (S p) Hat') as (it' & more & q & -> & H1 & H2 & H3 & H4 & H5); [lia|].
    exists it', more, q. split_and!; try done. intros Hm. specialize (H5 Hm). lia.
  - rewrite Hv, Hn. cbn [mbind go_bind]. eexists _, true, (S p). split_and!; try done. intros _. lia.
Qed.

Lemma dbCollect_ok fuel it es p :
  it_at (di_m it) es p -> length es - p <= fuel ->
  exists it', dbCollect fuel it = Ret (visible (di_seq it) (di_end it) (di_last it) (drop p es), it') /\ it_over (di_m it') es.
Proof.
  revert it p. induction fuel as [|fuel IH]; intros it p Hat Hf;
    destruct (dbNext_ok _ it es p Hat Hf) as (it1 & more & q & Hn & Hs & He & Hat1 & -> & Hq); cbn [dbCollect];
    rewrite Hn; cbn [mbind go_bind]; (destruct more; [specialize (Hq eq_refl)|exists it1; split; [done|by eapply it_at_over]]).
  - pose proof (it_valid_ok _ _ _ Hat) as Hv. cbn [dbNext] in Hn. rewrite Hv, (proj2 (Nat.ltb_ge _ _)) in Hn by lia. done.
  - destruct (IH it1 q Hat1) as (it2 & -> & Hov); [lia|]. rewrite Hs, He. exists it2. done.
Qed.

Lemma scan_iter_ok fuel start stop seq m es :
  it_over m es -> length es <= fuel ->
  scan_iter fuel start stop seq m = Ret (visible seq stop [] (drop (first_ge (seek_key start seq) es) es)).
Proof.
  intros Hov Hf. unfold scan_iter. fold (seek_key start seq). destruct (it_seek_ok (seek_key start seq) _ _ Hov (makeInternalKey_wf _ _ _)) as (m' & -> & Hat).
  cbn [mbind go_bind]. destruct (dbCollect_ok fuel (mkDbIter seq m' stop [] [] []) _ _ Hat) as (it' & -> & Hov'); [lia|].
  cbn [mbind go_bind]. by rewrite (it_close_ok _ _ Hov').
Qed.
End Collect.

(** ** The map of visible values *)

Lemma newest_cons key seq e es :
  newest key seq (e :: es) = if decide (is_version key seq e) then entry_found e else newest key seq es.
Proof. unfold newest. rewrite filter_cons. by destruct (decide _). Qed.

(** User keys do not decrease along sorted entries. *)
Lemma sorted_user e es e' : ik_sorted (e :: es) -> e' ∈ es -> bcmp (userKey e.1) (userKey e'.1) <> Gt.
Proof.
  intros [Hall _]%StronglySorted_cons He'. eapply Forall_forall in Hall; [|done].
  unfold entry_lt, ik_lt, compareInternalKey in Hall. by destruct (bcmp _ _).
Qed.

Lemma newest_absent key seq es : (forall e, e ∈ es -> userKey e.1 <> key) -> newest key seq es = Absent.
Proof.
  intros Hne. unfold newest. replace (filter (is_version key seq) es) with (@nil entry); [done|].
  symmetry. apply elem_of_nil_inv. intros e [[Hu _] He]%list_elem_of_filter. by apply (Hne e).
Qed.

Lemma newest_Found_user key seq es v : newest key seq es = Found v -> exists e, e ∈ es /\ userKey e.1 = key /\ (ik_seq e.1 <= seq)%N.
Proof.
  unfold newest. destruct (head _) as [e|] eqn:Hh; [|done]. intros _. exists e.
  destruct (filter (is_version key seq) es) as [|x l] eqn:E; [done|]. injection Hh as ->.
  assert (e ∈ filter (is_version key seq) es) as [[? ?] ?]%list_elem_of_filter by (rewrite E; set_solver). done.
Qed.

(** Entries from the key of the last one on: those not hidden by it. *)
Lemma elem_visible seq stop last es k v :
  ik_sorted es -> (forall e, e ∈ es -> bcmp last (userKey e.1) <> Gt) ->
  (k, v) ∈ visible seq stop last es <-> k <> last /\ newest k seq es = Found v /\ past_end stop k = false.
Proof.
  intros Hs. revert last. induction es as [|e es IH]; intros last Hlast; cbn [visible]; [set_solver|].
  pose proof Hs as [_ Hs']%StronglySorted_cons. specialize (IH Hs').
  assert (forall x, x ∈ es -> bcmp (userKey e.1) (userKey x.1) <> Gt) as Huser by (intros x Hx; by eapply sorted_user).
  destruct (past_end stop (userKey e.1)) eqn:Hpast.
  - split; [set_solver|]. intros (_ & Hn & Hp). exfalso. apply newest_Found_user in Hn as (x & Hx & Hu & _).
    destruct stop as [stop|]; simpl in *; [|done]. apply bool_decide_eq_true in Hpast. apply bool_decide_eq_false in Hp.
    assert (bcmp (userKey e.1) k <> Gt) as Hek.
    { apply elem_of_cons in Hx as [->|Hx]; [rewrite Hu; by rewrite bcmp_refl|]. rewrite <-Hu. by apply Huser. }
    destruct (bcmp k stop) eqn:E1; try (exfalso; by apply Hp). destruct (bcmp (userKey e.1) k) eqn:E2; [|by rewrite (bcmp_lt_trans _ _ _ E2 E1) in Hpast|done].
    apply bcmp_eq in E2. congruence.
  - rewrite newest_cons. destruct ((seq <? ik_seq e.1)%N || bool_decide (userKey e.1 = last)) eqn:Hskip.
    + rewrite IH by set_solver. destruct (decide (is_version k seq e)) as [[Hu Hv]|]; [|done].
      apply orb_true_iff in Hskip as [Hskip|Hskip]; bool_to_prop; [lia|]. subst last. clear -Hu. naive_solver.
    + apply orb_false_iff in Hskip as [Hseq Hne]. bool_to_prop. unfold entry_found.
      destruct (decide (is_version k seq e)) as [[Hu Hv]|Hnv].
      * subst k. destruct (decide (ik_kind e.1 = kindDelete)) as [Hd|Hd];
          [rewrite bool_decide_true by done|rewrite bool_decide_false by done; rewrite elem_of_cons]; rewrite IH by done; clear -Hpast Hne; naive_solver.
      * assert (k <> userKey e.1) as Hku by (intros ->; apply Hnv; split; [done|lia]).
        assert (k = last -> newest k seq es <> Found v) as Hlast'.
        { intros -> (x & Hx & Hu & _)%newest_Found_user. assert (bcmp last (userKey e.1) <> Gt) as H1 by (apply Hlast; set_solver).
          pose proof (Huser x Hx) as H2. rewrite Hu, (bcmp_antisym last) in H2. destruct (bcmp last (userKey e.1)) eqn:E; [|done|done].
          apply bcmp_eq in E. congruence. }
        destruct (bool_decide (ik_kind e.1 = kindDelete)); [|rewrite elem_of_cons]; rewrite IH by done; clear -Hku Hlast'; naive_solver.
Qed.

Lemma visible_sorted seq stop last es :
  ik_sorted es -> (forall e, e ∈ es -> bcmp last (userKey e.1) <> Gt) ->
  StronglySorted kv_lt (visible seq stop last es) /\ Forall (fun kv => bcmp last kv.1 = Lt) (visible seq stop last es).
Proof.
  intros Hs. revert last. induction es as [|e es IH]; intros last Hlast; cbn [visible]; [by repeat constructor|].
  pose proof Hs as [_ Hs']%StronglySorted_cons. specialize (IH Hs').
  assert (forall x, x ∈ es -> bcmp (userKey e.1) (userKey x.1) <> Gt) as Huser by (intros x Hx; by eapply sorted_user).
  destruct (past_end stop (userKey e.1)); [by repeat constructor|].
  destruct (_ || _) eqn:Hskip; [apply IH; set_solver|]. apply orb_false_iff in Hskip as [_ Hne]. bool_to_prop.
  assert (bcmp last (userKey e.1) = Lt) as Hlt.
  { specialize (Hlast e ltac:(set_solver)). destruct (bcmp last (userKey e.1)) eqn:E; [|done|done]. apply bcmp_eq in E. congruence. }
  destruct (IH _ Huser) as [H1 H2].
  assert (Forall (fun kv => bcmp last kv.1 = Lt) (visible seq stop (userKey e.1) es)) as H3.
  { eapply Forall_impl; [exact H2|]. intros kv Hkv. by eapply bcmp_lt_trans. }
  destruct (bool_decide _); [done|]. split; constructor; done.
Qed.

(** The visible value of every key that is not empty. *)
Definition view_of (seq : N) (es : list entry) : gmap bytes bytes := list_to_map (visible seq None [] es).

Lemma bcmp_nil b : bcmp [] b <> Gt.
Proof. by destruct b. Qed.

Lemma view_of_lookup seq es k : ik_sorted es -> k <> [] ->
  view_of seq es !! k = match newest k seq es with Found v => Some v | _ => None end.
Proof.
  intros Hs Hk. unfold view_of.
  assert (NoDup (visible seq None [] es).*1) as Hnd.
  { destruct (visible_sorted seq None [] es Hs) as [Hvs _]; [intros; apply bcmp_nil|].
    induction Hvs as [|x l _ IH Hall]; [constructor|]. simpl. constructor; [|done]. intros (y & Hy & Hin)%list_elem_of_fmap.
    eapply Forall_forall in Hall; [|done]. unfold kv_lt in Hall. by rewrite Hy, bcmp_refl in Hall. }
  apply option_eq. intros v. rewrite <-elem_of_list_to_map by done. rewrite elem_visible by (done || (intros; apply bcmp_nil)).
  simpl. destruct (newest k seq es); clear -Hk; naive_solver.
Qed.

Lemma view_of_lookup_nil seq es : ik_sorted es -> view_of seq es !! [] = None.
Proof.
  intros Hs. unfold view_of. apply not_elem_of_list_to_map_1. intros ([k v] & Hk & Hin)%list_elem_of_fmap. simpl in Hk. subst k.
  apply elem_visible in Hin; [by destruct Hin|done|intros; apply bcmp_nil].
Qed.

(** A scan from a start key is the range of the map. *)
Lemma newest_drop key seq start es :
  ik_sorted es -> kinds_ok es -> (seq < maxSeq)%N ->
  newest key seq (drop (first_ge (seek_key start seq) es) es) =
    if decide (bcmp start key = Gt) then Absent else newest key seq es.
Proof.
  intros Hs Hk Hseq. induction es as [|e es IH]; [by destruct (decide _)|]. cbn [first_ge].
  inversion Hk as [|? ? Hke Hk']; subst. pose proof Hs as [_ Hs']%StronglySorted_cons.
  pose proof (lt_seek_key e start seq Hseq Hke) as Hlt. destruct (decide (ik_lt e.1 _)) as [Hx|Hx].
  - cbn [drop]. rewrite (IH Hs' Hk'). destruct (decide (bcmp start key = Gt)) as [|Hge]; [done|]. rewrite newest_cons, decide_False; [done|].
    intros [Hu Hv]. apply Hlt in Hx as [Hx|[Hx1 Hx2]]; [|lia]. rewrite Hu, (bcmp_antisym start) in Hx. by destruct (bcmp start key).
  - cbn [drop]. destruct (decide (bcmp start key = Gt)) as [Hgt|]; [|done]. apply newest_absent. intros x Hin Hu.
    assert (bcmp (userKey e.1) (userKey x.1) <> Gt) as H1.
    { apply elem_of_cons in Hin as [->|Hin]; [by rewrite bcmp_refl|]. by eapply sorted_user. }
    apply Hx, Hlt. left. rewrite Hu in H1. rewrite bcmp_antisym in Hgt. destruct (bcmp key start) eqn:E; try done.
    destruct (bcmp (userKey e.1) key) eqn:E1; [apply bcmp_eq in E1; congruence|by eapply bcmp_lt_trans|done].
Qed.

Lemma ik_sorted_drop n es : ik_sorted es -> ik_sorted (drop n es).
Proof. intros Hs. rewrite <-(take_drop n es) in Hs. by apply StronglySorted_app_1_r in Hs. Qed.

Lemma visible_range start stop seq es :
  ik_sorted es -> kinds_ok es -> (seq < maxSeq)%N ->
  visible seq stop [] (drop (first_ge (seek_key start seq) es) es) = range start stop (view_of seq es).
Proof.
  intros Hs Hk Hseq. pose proof (ik_sorted_drop (first_ge (seek_key start seq) es) es Hs) as Hsd.
  apply kv_sorted_unique; [apply visible_sorted; [done|intros; apply bcmp_nil]|apply range_sorted|]. intros [k v].
  rewrite elem_of_range, elem_visible by (done || (intros; apply bcmp_nil)). rewrite newest_drop by done. unfold in_range.
  destruct (decide (k = [])) as [->|Hne]; [rewrite view_of_lookup_nil by done; clear; naive_solver|]. rewrite view_of_lookup by done.
  assert (past_end stop k = false <-> match stop with Some e => bcmp k e = Lt | None => True end) as ->.
  { destruct stop as [e|]; simpl; [|done]. rewrite bool_decide_eq_false. destruct (bcmp k e); clear; naive_solver. }
  destruct (decide (bcmp start k = Gt)) as [Hg|Hg]; destruct (newest k seq es); clear -Hne Hg; naive_solver.
Qed.
