(* ===== verification/Tiers.v ===== *)
(** * Tiers of versions

    The engine keeps the versions of its keys in tiers, the newest first: the
    memtable, the frozen memtables and the tables.  What a reader sees is a
    matter of the set of versions alone; this file says which map a set of
    versions shows, that a lookup through the tiers and a scan of their union
    find it, and which versions may be dropped without changing it. *)

From stdpp Require Import base list gmap sorting.
From S2P Require Import Prelude Codec Key Batch Iter Versions Skiplist SkipProofs Memtable Db DbIter.

(** ** Sets of versions *)

Abbreviation eset := (entry -> Prop).

(** The newest version of a key. *)
Definition top (U : eset) (k : bytes) (e : entry) : Prop :=
  U e /\ userKey e.1 = k /\ forall e', U e' -> userKey e'.1 = k -> (ik_seq e'.1 <= ik_seq e.1)%N.

(** A key has one version at a sequence number. *)
Definition uniq (U : eset) : Prop :=
  forall e e', U e -> U e' -> userKey e.1 = userKey e'.1 -> ik_seq e.1 = ik_seq e'.1 -> e = e'.

Definition tombstone (e : entry) : Prop := ik_kind e.1 = kindDelete.

(** The map a set of versions shows. *)
Record sees (U : eset) (V : gmap bytes bytes) : Prop := {
  se_uniq : uniq U;
  se_keys : forall e, U e -> userKey e.1 <> [];
  se_view : forall k v, V !! k = Some v <-> exists e, top U k e /\ ~ tombstone e /\ e.2 = v;
}.

Lemma top_ext (U U' : eset) k e : (forall e, U e <-> U' e) -> top U k e <-> top U' k e.
Proof. intros H. unfold top. rewrite H. by setoid_rewrite H. Qed.

Lemma sees_ext (U U' : eset) V : (forall e, U e <-> U' e) -> sees U V -> sees U' V.
Proof.
  intros H [Hu Hk Hv]. split.
  - intros e e' He%H He'%H. by apply Hu.
  - intros e He%H. by apply Hk.
  - intros k v. rewrite Hv. by setoid_rewrite (top_ext U U' _ _ H).
Qed.

Lemma sees_empty : sees (fun _ => False) ∅.
Proof. split; [by intros ? ?|done|]. intros k v. rewrite lookup_empty. split; [done|]. by intros (e & [[] _] & _). Qed.

Lemma sees_nil U V : sees U V -> V !! [] = None.
Proof.
  intros Hs. destruct (V !! []) as [v|] eqn:E; [|done]. apply (se_view _ _ Hs) in E as (e & (He & Hk & _) & _).
  by apply (se_keys _ _ Hs) in He.
Qed.

(** Dropping versions that nobody sees: those a version that stays overrides,
    and, where every version of the key that stays is newer, those another
    one overrides and tombstones. *)
Definition droppable (U U' : eset) (e : entry) : Prop :=
  (exists e', U' e' /\ userKey e'.1 = userKey e.1 /\ (ik_seq e.1 < ik_seq e'.1)%N) \/
  ((forall e', U' e' -> userKey e'.1 = userKey e.1 -> (ik_seq e.1 < ik_seq e'.1)%N) /\
   (tombstone e \/ exists e', U e' /\ userKey e'.1 = userKey e.1 /\ (ik_seq e.1 < ik_seq e'.1)%N)).

Lemma sees_thin (U U' : eset) V :
  (forall e, U' e -> U e) -> (forall e, U e -> U' e \/ droppable U U' e) -> sees U V -> sees U' V.
Proof.
  intros Hsub Hdrop [Hu Hk Hv]. split.
  - intros e e' He%Hsub He'%Hsub. by apply Hu.
  - intros e He%Hsub. by apply Hk.
  - intros k v. rewrite Hv. split; intros (e & (He & Hek & Hmax) & Hlive & Hval); exists e; (split; [|done]).
    + split; [|split; [done|by intros e' ?%Hsub; apply Hmax]].
      destruct (Hdrop e He) as [|[(e' & He' & Hk' & Hlt)|[_ [?|(e' & He' & Hk' & Hlt)]]]]; [done| |done|].
      * apply Hsub in He'. specialize (Hmax e' He'). rewrite Hk' in Hmax. specialize (Hmax Hek). lia.
      * specialize (Hmax e' He'). rewrite Hk' in Hmax. specialize (Hmax Hek). lia.
    + split; [by apply Hsub|]. split; [done|]. intros e'' He'' Hk''.
      destruct (Hdrop e'' He'') as [?|[(e' & He' & Hk' & Hlt)|[Hall _]]]; [by apply Hmax| |].
      * specialize (Hmax e' He'). rewrite Hk' in Hmax. specialize (Hmax Hk''). lia.
      * specialize (Hall e He). rewrite Hek, Hk'' in Hall. specialize (Hall eq_refl). lia.
Qed.

(** ** Writes *)

(** The entries of a batch whose first operation has sequence number [s]. *)
Fixpoint ops_entries (s : N) (ops : list batchOp) : list entry :=
  match ops with
  | [] => []
  | op :: ops => put_entry s (op_kind op) (op_key op) (op_value op) :: ops_entries (s + 1) ops
  end.

Definition op_fine (op : batchOp) : Prop := kind_ok (op_kind op) /\ op_key op <> [].

Lemma put_entry_parts s kind key value :
  (s < maxSeq)%N -> userKey (put_entry s kind key value).1 = key /\ ik_seq (put_entry s kind key value).1 = s /\
    ik_kind (put_entry s kind key value).1 = kind.
Proof. intros Hs. unfold put_entry. simpl. by rewrite userKey_make, ik_seq_make, ik_kind_make. Qed.

Lemma sees_put (U : eset) V s op :
  sees U V -> (forall e, U e -> (ik_seq e.1 < s)%N) -> (s < maxSeq)%N -> op_fine op ->
  sees (fun e => e = put_entry s (op_kind op) (op_key op) (op_value op) \/ U e) (apply_op V op).
Proof.
  intros [Hu Hk Hv] Hlt Hs [Hkind Hkey]. set (x := put_entry _ _ _ _).
  destruct (put_entry_parts s (op_kind op) (op_key op) (op_value op) Hs) as (Hxk & Hxs & Hxd). fold x in Hxk, Hxs, Hxd. split.
  - intros e e' [->|He] [->|He'] Hkk Hss; [done|apply Hlt in He'; lia|apply Hlt in He; lia|by apply Hu].
  - intros e [->|He]; [by rewrite Hxk|by apply Hk].
  - intros k v. assert (forall e, k <> op_key op -> top (fun e => e = x \/ U e) k e <-> top U k e) as Hother.
    { intros e Hne. unfold top. split.
      - intros ([->|He] & Hek & Hmax); [congruence|]. split_and!; [done..|]. intros e' He'. apply Hmax. by right.
      - intros (He & Hek & Hmax). split_and!; [by right|done|]. intros e' [->|He'] Hk'; [congruence|by apply Hmax]. }
    unfold apply_op. destruct (decide (k = op_key op)) as [->|Hne].
    + assert (forall e, top (fun e => e = x \/ U e) (op_key op) e <-> e = x) as Htop.
      { intros e. split.
        - intros ([->|He] & Hek & Hmax); [done|]. specialize (Hmax x (or_introl eq_refl) Hxk). apply Hlt in He. lia.
        - intros ->. split_and!; [by left|done|]. intros e' [->|He'] _; [done|]. apply Hlt in He'. lia. }
      setoid_rewrite Htop. unfold tombstone. destruct Hkind as [Hp|Hd].
      * rewrite bool_decide_false by (by rewrite Hp). rewrite lookup_insert_eq.
        split; [intros [= <-]|intros (e & -> & _ & Hval)].
        -- exists x. split; [done|]. rewrite Hxd, Hp. split; [done|]. unfold x, put_entry. by rewrite Hp.
        -- unfold x, put_entry in Hval. rewrite Hp in Hval. by rewrite <-Hval.
      * rewrite bool_decide_true by done. rewrite lookup_delete_eq. split; [done|]. intros (e & -> & Hn & _). by rewrite Hxd in Hn.
    + setoid_rewrite (fun e => Hother e Hne). rewrite <-Hv.
      case_bool_decide; [by rewrite lookup_delete_ne by done|by rewrite lookup_insert_ne by done].
Qed.

Lemma sees_ops ops : forall (U : eset) V s,
  sees U V -> (forall e, U e -> (ik_seq e.1 < s)%N) -> (s + N.of_nat (length ops) <= maxSeq)%N -> Forall op_fine ops ->
  sees (fun e => e ∈ ops_entries s ops \/ U e) (apply_ops ops V).
Proof.
  induction ops as [|op ops IH]; intros U V s Hs Hlt Hb Hf; cbn [ops_entries].
  - eapply sees_ext; [|exact Hs]. intros e. set_solver.
  - apply Forall_cons in Hf as [Ho Hf]. cbn [length] in Hb.
    pose proof (sees_put U V s op Hs Hlt ltac:(lia) Ho) as H1.
    apply (IH _ _ (s + 1)%N) in H1; [|intros e [->|He]; [destruct (put_entry_parts s (op_kind op) (op_key op) (op_value op)) as (_ & -> & _); lia|apply Hlt in He; lia]|lia|done].
    eapply sees_ext; [|exact H1]. intros e. rewrite elem_of_cons. tauto.
Qed.

Lemma ops_entries_seq s ops e :
  (s + N.of_nat (length ops) <= maxSeq)%N -> e ∈ ops_entries s ops -> (s <= ik_seq e.1 < s + N.of_nat (length ops))%N.
Proof.
  revert s. induction ops as [|op ops IH]; intros s Hb; cbn [ops_entries length]; [set_solver|].
  cbn [length] in Hb. intros [->|He]%elem_of_cons.
  - destruct (put_entry_parts s (op_kind op) (op_key op) (op_value op)) as (_ & -> & _); lia.
  - apply IH in He; lia.
Qed.

(** ** Reading *)

Definition shown (r : found) : option bytes := match r with Found v => Some v | _ => None end.

(** A reader whose sequence number is at least that of every version finds
    what the set shows. *)
Lemma newest_spec_sees U V (es : list entry) seq k r :
  sees U V -> (forall e, U e <-> e ∈ es) -> (forall e, U e -> (ik_seq e.1 <= seq)%N) ->
  newest_spec k seq es r -> shown r = V !! k.
Proof.
  intros Hs HU Hle Hn. destruct Hn as [[-> Hnone]|(e & He & [Hek Hes] & -> & Hmax)].
  - simpl. destruct (V !! k) as [v|] eqn:E; [|done]. apply (se_view _ _ Hs) in E as (e & (He & Hek & _) & _).
    exfalso. apply (Hnone e); [by apply HU|]. split; [done|by apply Hle].
  - assert (top U k e) as Ht.
    { split_and!; [by apply HU|done|]. intros e' He' Hk'. apply Hmax; [by apply HU|]. split; [done|by apply Hle]. }
    unfold entry_found. destruct (decide _) as [Hd|Hd]; simpl.
    + destruct (V !! k) as [v|] eqn:E; [|done]. apply (se_view _ _ Hs) in E as (e' & Ht' & Hl & _). exfalso. apply Hl.
      destruct Ht as (He1 & Hk1 & Hm1), Ht' as (He2 & Hk2 & Hm2). assert (e = e') as <-; [|done].
      apply (se_uniq _ _ Hs); [done..|congruence|]. specialize (Hm1 _ He2 Hk2). specialize (Hm2 _ He1 Hk1). lia.
    + symmetry. apply (se_view _ _ Hs). by exists e.
Qed.

Lemma view_of_sees V (es : list entry) seq :
  ik_sorted es -> sees (fun e => e ∈ es) V -> (forall e, e ∈ es -> (ik_seq e.1 <= seq)%N) -> view_of seq es = V.
Proof.
  intros Hsort Hs Hle. apply map_eq. intros k. destruct (decide (k = [])) as [->|Hne].
  - by rewrite view_of_lookup_nil, (sees_nil _ _ Hs).
  - rewrite view_of_lookup by done. fold (shown (newest k seq es)).
    apply (newest_spec_sees (fun e => e ∈ es) V es seq); [done|done|done|by apply newest_ok].
Qed.

(** A lookup goes through the tiers and stops at the first that has a version. *)
Fixpoint tiers_get (key : bytes) (seq : N) (ts : list (list entry)) : found :=
  match ts with
  | [] => Absent
  | t :: ts => match newest key seq t with Absent => tiers_get key seq ts | r => r end
  end.

Definition older (t1 t2 : list entry) : Prop := forall e1 e2, e1 ∈ t1 -> e2 ∈ t2 -> (ik_seq e2.1 < ik_seq e1.1)%N.
Definition aged (ts : list (list entry)) : Prop := StronglySorted older ts.

Lemma tiers_get_ok key seq ts :
  Forall ik_sorted ts -> aged ts -> newest_spec key seq (concat ts) (tiers_get key seq ts).
Proof.
  intros Hs. induction Hs as [|t ts Ht Hs IH]; intros Ha; cbn [tiers_get].
  - left. split; [done|]. set_solver.
  - apply StronglySorted_inv in Ha as [Ha Hall]. rewrite Forall_forall in Hall. specialize (IH Ha).
    pose proof (newest_ok key seq t Ht) as Hn. destruct Hn as [[-> Hnone]|(e & He & Hv & Heq & Hmax)].
    + destruct IH as [[-> Hn2]|(e & He & Hv & -> & Hmax)].
      * left. split; [done|]. intros e [He|He]%elem_of_app; auto.
      * right. exists e. split_and!; [apply elem_of_app; by right|done|done|].
        intros e' [He'|He']%elem_of_app Hv'; [by apply Hnone in Hv'|by apply Hmax].
    + rewrite Heq. right. exists e. split_and!; [apply elem_of_app; by left|done|unfold entry_found; by case_decide|].
      intros e' [He'|He']%elem_of_app Hv'; [by apply Hmax|]. apply elem_of_concat in He' as (t' & He' & Ht').
      specialize (Hall t' Ht' e e' He He'). lia.
Qed.

Lemma tiers_get_sees key seq ts V :
  Forall ik_sorted ts -> aged ts -> sees (fun e => e ∈ concat ts) V -> (forall e, e ∈ concat ts -> (ik_seq e.1 <= seq)%N) ->
  shown (tiers_get key seq ts) = V !! key.
Proof.
  intros Hs Ha Hsee Hle. by apply (newest_spec_sees _ V (concat ts) seq key _ Hsee (fun e => iff_refl _) Hle), tiers_get_ok.
Qed.

Lemma aged_app ts1 ts2 : aged (ts1 ++ ts2) <-> aged ts1 /\ aged ts2 /\ (forall t1 t2, t1 ∈ ts1 -> t2 ∈ ts2 -> older t1 t2).
Proof. unfold aged. rewrite StronglySorted_app. naive_solver. Qed.

(** ** The union of tiers, in order *)

Lemma ik_seq_trailer a b : ik_trailer a = ik_trailer b -> ik_seq a = ik_seq b.
Proof. unfold ik_seq. by intros ->. Qed.

Lemma compare_Eq_parts a b : compareInternalKey a b = Eq -> userKey a = userKey b /\ ik_seq a = ik_seq b.
Proof.
  unfold compareInternalKey. destruct (bcmp (userKey a) (userKey b)) eqn:E; try done. apply bcmp_eq in E.
  intros Ht. split; [done|]. apply ik_seq_trailer. repeat case_match; bool_to_prop; try done; lia.
Qed.

Definition entry_le (a b : entry) : Prop := ik_le a.1 b.1.
#[global] Instance entry_le_dec : RelDecision entry_le.
Proof. intros a b. unfold entry_le. apply _. Defined.
#[global] Instance entry_le_trans : Transitive entry_le.
Proof. intros a b c. unfold entry_le. apply ik_le_trans. Qed.
#[global] Instance entry_le_total : Total entry_le.
Proof. intros a b. unfold entry_le. apply ik_le_total. Qed.

Definition union (ts : list (list entry)) : list entry := merge_sort entry_le (concat ts).

Lemma union_perm ts : union ts ≡ₚ concat ts.
Proof. apply merge_sort_Permutation. Qed.

Lemma ik_sorted_NoDup es : ik_sorted es -> NoDup es.
Proof.
  induction 1 as [|e es _ IH Hall]; [constructor|]. constructor; [|done]. intros Hin.
  rewrite Forall_forall in Hall. specialize (Hall e Hin). by apply (irreflexivity ik_lt e.1).
Qed.

Lemma concat_NoDup ts : Forall ik_sorted ts -> aged ts -> NoDup (concat ts).
Proof.
  intros Hs. induction Hs as [|t ts Ht _ IH]; intros Ha; [constructor|].
  apply StronglySorted_inv in Ha as [Ha Hall]. rewrite Forall_forall in Hall. simpl. apply NoDup_app.
  split_and!; [by apply ik_sorted_NoDup| |auto]. intros e He (t' & He' & Ht')%elem_of_concat.
  specialize (Hall t' Ht' e e He He'). lia.
Qed.

Lemma union_sorted ts : Forall ik_sorted ts -> aged ts -> uniq (fun e => e ∈ concat ts) -> ik_sorted (union ts).
Proof.
  intros Hs Ha Hu. assert (StronglySorted entry_le (union ts)) as Hle by (apply StronglySorted_merge_sort; apply _).
  assert (NoDup (union ts)) as Hnd by (rewrite union_perm; by apply concat_NoDup).
  assert (forall e, e ∈ union ts -> e ∈ concat ts) as Hin by (intros e; by rewrite union_perm).
  unfold ik_sorted. revert Hnd Hin. induction Hle as [|e es _ IH Hall]; intros Hnd Hin; [constructor|].
  apply NoDup_cons in Hnd as [Hn Hnd]. constructor; [apply IH; [done|set_solver]|].
  rewrite Forall_forall in Hall. apply Forall_forall. intros e' He'. specialize (Hall e' He'). unfold entry_le, ik_le, entry_lt, ik_lt in *.
  destruct (compareInternalKey e.1 e'.1) eqn:E; [|done|done]. exfalso. apply Hn.
  apply compare_Eq_parts in E as [Hk Hq]. by rewrite (Hu e e') by (done || (apply Hin; set_solver)).
Qed.

(** ** What survives a rewrite *)

(** The newest version of every key, tombstones left out if [drop]. *)
Fixpoint kept (drop : bool) (last : bytes) (es : list entry) : list entry :=
  match es with
  | [] => []
  | e :: es =>
      if bool_decide (userKey e.1 = last) then kept drop last es
      else if drop && bool_decide (ik_kind e.1 = kindDelete) then kept drop (userKey e.1) es
      else e :: kept drop (userKey e.1) es
  end.

Lemma kept_sublist drop last es : sublist (kept drop last es) es.
Proof. revert last. induction es as [|e es IH]; intros last; cbn [kept]; [constructor|]. repeat case_match; by constructor. Qed.

Lemma kept_elem drop last es e : e ∈ kept drop last es -> e ∈ es.
Proof. revert last. induction es as [|x es IH]; intros last; cbn [kept]; [done|]. repeat case_match; set_solver. Qed.

Lemma kept_not_last drop last es e :
  ik_sorted es -> (forall e, e ∈ es -> ble last (userKey e.1)) -> e ∈ kept drop last es -> userKey e.1 <> last.
Proof.
  intros Hs. revert last. induction es as [|x es IH]; intros last Hlast; cbn [kept]; [set_solver|].
  pose proof Hs as [_ Hs']%StronglySorted_cons. specialize (IH Hs').
  assert (forall y, y ∈ es -> ble (userKey x.1) (userKey y.1)) as Huser by (intros y Hy; by eapply sorted_user).
  assert (ble last (userKey x.1)) as Hx by (apply Hlast; set_solver).
  case_bool_decide as Hl; [apply IH; set_solver|].
  assert (forall y, y ∈ kept drop (userKey x.1) es -> userKey y.1 <> last) as Hrest.
  { intros y Hy Hyl. pose proof (Huser y (kept_elem _ _ _ _ Hy)) as Hle. rewrite Hyl in Hle. unfold ble in *.
    rewrite (bcmp_antisym last) in Hle. destruct (bcmp last (userKey x.1)) eqn:E; try done. apply bcmp_eq in E. congruence. }
  destruct (drop && _); [apply Hrest|]. intros [->|He]%elem_of_cons; [congruence|by apply Hrest].
Qed.

(** Every version is kept, or a kept one overrides it, or its key is gone
    because the newest version was a tombstone. *)
Lemma kept_drops drop last es e :
  ik_sorted es -> uniq (fun e => e ∈ es) -> (forall e, e ∈ es -> ble last (userKey e.1)) -> e ∈ es -> userKey e.1 <> last ->
  e ∈ kept drop last es \/
  (exists e', e' ∈ kept drop last es /\ userKey e'.1 = userKey e.1 /\ (ik_seq e.1 < ik_seq e'.1)%N) \/
  (drop = true /\ (forall e', e' ∈ kept drop last es -> userKey e'.1 <> userKey e.1) /\
   (tombstone e \/ exists e', e' ∈ es /\ userKey e'.1 = userKey e.1 /\ (ik_seq e.1 < ik_seq e'.1)%N)).
Proof.
  intros Hs. revert last. induction es as [|x es IH]; intros last Hu Hlast; cbn [kept]; [set_solver|].
  pose proof Hs as [Hall Hs']%StronglySorted_cons. rewrite Forall_forall in Hall. specialize (IH Hs').
  assert (uniq (fun e => e ∈ es)) as Hu' by (intros y z Hy Hz; apply Hu; set_solver).
  assert (forall y, y ∈ es -> ble (userKey x.1) (userKey y.1)) as Huser by (intros y Hy; by eapply sorted_user).
  assert (ble last (userKey x.1)) as Hx by (apply Hlast; set_solver).
  assert (forall y, y ∈ es -> userKey y.1 = userKey x.1 -> (ik_seq y.1 < ik_seq x.1)%N) as Hdesc.
  { intros y Hy Hyx. specialize (Hall y Hy). destruct (decide (ik_seq y.1 = ik_seq x.1)) as [E|E].
    - exfalso. assert (y = x) as -> by (apply Hu; [set_solver|set_solver|done..]). by apply (irreflexivity ik_lt x.1).
    - unfold entry_lt, ik_lt, compareInternalKey in Hall. rewrite Hyx, bcmp_refl, !ik_trailer_eq in Hall.
      pose proof (bval_bound (ik_kind x.1)). pose proof (bval_bound (ik_kind y.1)). repeat case_match; bool_to_prop; try done; lia. }
  case_bool_decide as Hl.
  - intros [->|He]%elem_of_cons Hne; [done|]. destruct (IH last Hu' ltac:(set_solver) He Hne) as [?|[?|(-> & H1 & H2)]]; [by left|by right; left|].
    right. right. split_and!; [done|done|]. destruct H2 as [?|(e' & ? & ?)]; [by left|right; exists e'; split; [set_solver|done]].
  - intros [->|He]%elem_of_cons Hne; destruct (drop && _) eqn:Ed.
    + apply andb_true_iff in Ed as [-> Ed]. apply bool_decide_eq_true in Ed. right. right. split_and!; [done| |by left].
      intros e' He'. by eapply kept_not_last.
    + left. set_solver.
    + apply andb_true_iff in Ed as [-> Ed]. apply bool_decide_eq_true in Ed. destruct (decide (userKey e.1 = userKey x.1)) as [Hex|Hex].
      * right. right. split_and!; [done|intros e' He'; rewrite Hex; by eapply kept_not_last|].
        right. exists x. split_and!; [set_solver|done|by apply Hdesc].
      * destruct (IH (userKey x.1) Hu' Huser He Hex) as [?|[?|(_ & H1 & H2)]]; [by left|by right; left|].
        right. right. split_and!; [done|done|]. destruct H2 as [?|(e' & ? & ?)]; [by left|right; exists e'; split; [set_solver|done]].
    + destruct (decide (userKey e.1 = userKey x.1)) as [Hex|Hex].
      * right. left. exists x. split_and!; [set_solver|done|by apply Hdesc].
      * destruct (IH (userKey x.1) Hu' Huser He Hex) as [?|[(e' & ? & ?)|(-> & H1 & H2)]]; [left; set_solver|right; left; exists e'; split; [set_solver|done]|].
        right. right. split_and!; [done| |].
        -- intros e' [->|He']%elem_of_cons; [congruence|by apply H1].
        -- destruct H2 as [?|(e' & ? & ?)]; [by left|right; exists e'; split; [set_solver|done]].
Qed.

(** A run of adjacent tiers may be replaced by what survives of its union;
    tombstones may go if no tier is older. *)
Section Rewrite.
Context {A run B : list (list entry)} {es : list entry} {V : gmap bytes bytes} (drop : bool).
Context (Hs : Forall ik_sorted (A ++ run ++ B)) (Ha : aged (A ++ run ++ B)) (Hv : sees (fun e => e ∈ concat (A ++ run ++ B)) V).
Context (Hes : ik_sorted es) (Hrun : es ≡ₚ concat run) (Hdrop : drop = true -> B = []).

Lemma rewrite_elem e : e ∈ concat (A ++ run ++ B) <-> e ∈ concat A \/ e ∈ es \/ e ∈ concat B.
Proof. rewrite !concat_app, !elem_of_app. by rewrite Hrun. Qed.

Lemma rewrite_sees : sees (fun e => e ∈ concat (A ++ [kept drop [] es] ++ B)) V.
Proof.
  assert (forall e, e ∈ concat (A ++ [kept drop [] es] ++ B) <-> e ∈ concat A \/ e ∈ kept drop [] es \/ e ∈ concat B) as Hin.
  { intros e. rewrite !concat_app, !elem_of_app. simpl. by rewrite app_nil_r. }
  eapply sees_thin; [| |exact Hv].
  - intros e. rewrite Hin, rewrite_elem. intros [?|[?%kept_elem|?]]; tauto.
  - intros e [He|[He|He]]%rewrite_elem; [left; apply Hin; tauto| |left; apply Hin; tauto].
    assert (uniq (fun e => e ∈ es)) as Hu.
    { intros x y Hx Hy. apply (se_uniq _ _ Hv); apply rewrite_elem; tauto. }
    destruct (kept_drops drop [] es e Hes Hu) as [?|[(e' & He' & ?)|(Hd & Hnone & Hold)]];
      [intros; apply bcmp_nil|done|apply (se_keys _ _ Hv), rewrite_elem; tauto|left; apply Hin; tauto|right; left; exists e'; rewrite Hin; tauto|].
    right. right. split.
    + intros e' He' Hk. apply Hin in He' as [He'|[He'|He']]; [|by apply Hnone in He'|].
      * apply elem_of_concat in He' as (t & He' & Ht). rewrite Hrun in He. apply elem_of_concat in He as (t2 & He & Ht2).
        apply aged_app in Ha as (_ & _ & Ho). apply (Ho t t2); [done|set_solver|done|done].
      * rewrite (Hdrop Hd) in He'. set_solver.
    + destruct Hold as [?|(e' & He' & ?)]; [by left|]. right. exists e'. rewrite rewrite_elem. tauto.
Qed.

Lemma rewrite_aged : aged (A ++ [kept drop [] es] ++ B).
Proof.
  apply aged_app in Ha as (HA & HrB & H1). apply aged_app in HrB as (_ & HB & H2).
  assert (forall e, e ∈ kept drop [] es -> exists t, t ∈ run /\ e ∈ t) as Hk.
  { intros e He%kept_elem. rewrite Hrun in He. apply elem_of_concat in He as (t & ? & ?). by exists t. }
  assert (forall t, t ∈ B -> older (kept drop [] es) t) as H3.
  { intros t Ht e1 e2 (t1 & Ht1 & He1)%Hk He2. by apply (H2 t1 t). }
  apply aged_app. split_and!; [done| |].
  - apply aged_app. split_and!; [repeat constructor|done|]. intros t1 t2 ->%list_elem_of_singleton. apply H3.
  - intros t1 t2 Ht1 [->%list_elem_of_singleton|Ht2]%elem_of_app; [|apply H1; set_solver].
    intros e1 e2 He1 (t & Ht & He2)%Hk. by apply (H1 t1 t); [|set_solver|..].
Qed.

Lemma rewrite_sorted : Forall ik_sorted (A ++ [kept drop [] es] ++ B).
Proof.
  apply Forall_app in Hs as [H1 H2]. apply Forall_app in H2 as [_ H2].
  apply Forall_app. split; [done|]. constructor; [|done]. eapply sorted_sublist; [apply kept_sublist|done].
Qed.
End Rewrite.

(** An empty tier is no tier. *)
Lemma drop_empty_tier A B : aged (A ++ [[]] ++ B) -> aged (A ++ B) /\ concat (A ++ [[]] ++ B) = concat (A ++ B).
Proof.
  intros (HA & HB & H)%aged_app. apply aged_app in HB as (_ & HB & _). split; [|by rewrite !concat_app].
  apply aged_app. split_and!; [done..|]. intros t1 t2 Ht1 Ht2. apply H; set_solver.
Qed.
