(* ===== verification/Export.v ===== *)
(** * storage/db.go: exporting the visible contents

    [exportIter] writes the versions visible at a sequence number as one
    table: the newest of each key, tombstones dropped. *)

From stdpp Require Import base list gmap sorting.
From S2P Require Import Prelude Codec Key Batch Bloom Iter Versions Block SSTable TableWrite TableRead Db DbIter.

Section Ops.
Context {M : Type} `{InternalIter M}.

Fixpoint export_loop (fuel : nat) (seq : N) (last : bytes) (m : M) (tw : tableWriter) : go (M * tableWriter) :=
  if it_valid m then
    match fuel with
    | O => Panic
    | S fuel =>
        ik ← it_key m;
        '(user, s, kind) ← split_key ik;
        if (seq <? s)%N || bool_decide (user = last) then
          m ← it_next m; export_loop fuel seq last m tw
        else if bool_decide (kind = kindDelete) then
          m ← it_next m; export_loop fuel seq user m tw
        else
          v ← it_value m;
          tw ← tw_add ik v tw;
          m ← it_next m;
          export_loop fuel seq user m tw
    end
  else Ret (m, tw).

Definition exportIter (fuel : nat) (m : M) (seq : N) (blockSize : Z) (io : list bool) : go bytes :=
  m ← it_seekToFirst m;
  '(m, tw) ← export_loop fuel seq [] m (newStreamWriter blockSize io);
  match (it_close m).2 with
  | Some e => Fail e
  | None => '(_, data) ← tw_finish tw; Ret data
  end.
End Ops.

(** ** What is exported *)

Fixpoint exported (seq : N) (last : bytes) (es : list entry) : list entry :=
  match es with
  | [] => []
  | e :: es =>
      if (seq <? ik_seq e.1)%N || bool_decide (userKey e.1 = last) then exported seq last es
      else if bool_decide (ik_kind e.1 = kindDelete) then exported seq (userKey e.1) es
      else e :: exported seq (userKey e.1) es
  end.

Lemma write_all_app l1 l2 w : write_all (l1 ++ l2) w = (w' ← write_all l1 w; write_all l2 w').
Proof.
  revert w. induction l1 as [|e l1 IH]; intros w; [done|]. cbn [app write_all]. destruct (tw_add e.1 e.2 w); cbn [mbind go_bind]; auto.
Qed.

Section Loop.
Context {M : Type} `{InternalIterOK M}.

(** The loop writes them in order, and stops where writing fails. *)
Lemma export_loop_ok fuel seq last m tw es p :
  it_at m es p -> length es - p <= fuel ->
  match write_all (exported seq last (drop p es)) tw with
  | Ret tw' => exists m', export_loop fuel seq last m tw = Ret (m', tw') /\ it_over m' es
  | Fail e => export_loop fuel seq last m tw = Fail e
  | Panic => export_loop fuel seq last m tw = Panic
  end.
Proof.
  revert last m tw p. induction fuel as [|fuel IH]; intros last m tw p Hat Hf; cbn [export_loop]; rewrite (it_valid_ok _ _ _ Hat);
    destruct (Nat.ltb_spec p (length es)) as [Hlt|Hge]; try lia;
    try (rewrite drop_ge by lia; exists m; split; [done|by eapply it_at_over]).
  destruct (lookup_lt_is_Some_2 es p Hlt) as [e He]. destruct (it_key_ok _ _ _ _ Hat He) as [-> Hv].
  destruct (it_over_sorted _ _ (it_at_over _ _ _ Hat)) as [_ Hwf]. cbn [mbind go_bind].
  rewrite split_key_wf by (by eapply Forall_lookup_1 in Hwf). cbn [mbind go_bind].
  destruct (it_next_ok _ _ _ Hat Hlt) as (m' & Hn & Hat'). rewrite (drop_S _ _ _ He). cbn [exported].
  destruct (_ || _); [|destruct (bool_decide (ik_kind e.1 = kindDelete))].
  - rewrite Hn. cbn [mbind go_bind]. apply IH; [done|lia].
  - rewrite Hn. cbn [mbind go_bind]. apply IH; [done|lia].
  - cbn [write_all]. rewrite Hv. cbn [mbind go_bind]. destruct (tw_add e.1 e.2 tw) as [tw'| |]; cbn [mbind go_bind]; [|done..].
    rewrite Hn. cbn [mbind go_bind]. apply IH; [done|lia].
Qed.

Lemma exportIter_ok fuel m seq bs io es :
  it_over m es -> length es <= fuel ->
  exportIter fuel m seq bs io = ('(_, data) ← writeTable (exported seq [] es) (newStreamWriter bs io); Ret data).
Proof.
  intros Hov Hf. unfold exportIter, writeTable. destruct (it_seekToFirst_ok _ _ Hov) as (m1 & -> & Hat). cbn [mbind go_bind].
  pose proof (export_loop_ok fuel seq [] m1 (newStreamWriter bs io) es 0 Hat) as Hl. rewrite drop_0 in Hl.
  destruct (write_all _ _) as [tw| |]; cbn [mbind go_bind].
  - destruct Hl as (m' & -> & Hov'); [lia|]. cbn [mbind go_bind]. by rewrite (it_close_ok _ _ Hov').
  - rewrite Hl by lia. done.
  - rewrite Hl by lia. done.
Qed.
End Loop.

Lemma exported_sublist seq last es : sublist (exported seq last es) es.
Proof.
  revert last. induction es as [|e es IH]; intros last; cbn [exported]; [constructor|].
  repeat case_match; by constructor.
Qed.

Lemma exported_sorted seq last es : ik_sorted es -> ik_sorted (exported seq last es).
Proof. apply sorted_sublist, exported_sublist. Qed.

Lemma exported_elem seq last es e : e ∈ exported seq last es -> e ∈ es /\ (ik_seq e.1 <= seq)%N /\ ik_kind e.1 <> kindDelete.
Proof.
  revert last. induction es as [|x es IH]; intros last; cbn [exported]; [set_solver|].
  destruct ((seq <? ik_seq x.1)%N || _) eqn:E1; [intros Hin; destruct (IH _ Hin) as (? & ? & ?); split_and!; [set_solver|done..]|].
  apply orb_false_iff in E1 as [E1 _]. bool_to_prop.
  destruct (bool_decide (ik_kind x.1 = kindDelete)) eqn:E2; [intros Hin; destruct (IH _ Hin) as (? & ? & ?); split_and!; [set_solver|done..]|].
  apply bool_decide_eq_false in E2.
  intros [->|Hin]%elem_of_cons; [split_and!; [set_solver|lia|done]|]. destruct (IH _ Hin) as (? & ? & ?). split_and!; [set_solver|done..].
Qed.

(** Reading the exported entries at any later sequence number gives the same
    values. *)
Lemma visible_exported_from seq seq' last0 last es :
  (forall e, e ∈ exported seq last es -> (ik_seq e.1 <= seq')%N) ->
  ik_sorted es -> ble last0 last -> (forall e, e ∈ es -> ble last (userKey e.1)) ->
  visible seq' None last0 (exported seq last es) = visible seq None last es.
Proof.
  intros Hle Hs. revert last0 last Hle. induction es as [|e es IH]; intros last0 last Hle H0 Hlast; cbn [exported visible past_end] in *; [done|].
  pose proof Hs as [_ Hs']%StronglySorted_cons. specialize (IH Hs').
  assert (forall x, x ∈ es -> ble (userKey e.1) (userKey x.1)) as Huser by (intros x Hx; by eapply sorted_user).
  assert (ble last (userKey e.1)) as Hle' by (apply Hlast; set_solver).
  destruct ((seq <? ik_seq e.1)%N || _) eqn:E1; [apply IH; [done|done|set_solver]|]. apply orb_false_iff in E1 as [E1 E2]. bool_to_prop.
  destruct (bool_decide (ik_kind e.1 = kindDelete)) eqn:E3; [apply IH; [done|by etrans|done]|].
  assert (ik_seq e.1 <= seq')%N as Hes by (apply Hle; set_solver).
  cbn [visible past_end]. rewrite E3, (proj2 (N.ltb_ge _ _)) by lia. rewrite bool_decide_false.
  - cbn [orb]. f_equal. apply IH; [set_solver| |done]. unfold ble. by rewrite bcmp_refl.
  - intros E0. apply E2. rewrite <-E0 in H0. unfold ble in *. rewrite (bcmp_antisym last) in H0.
    destruct (bcmp last (userKey e.1)) eqn:E; try done. by apply bcmp_eq in E.
Qed.

Lemma view_exported seq seq' es : (forall e, e ∈ exported seq [] es -> (ik_seq e.1 <= seq')%N) -> ik_sorted es -> view_of seq' (exported seq [] es) = view_of seq es.
Proof.
  intros Hle Hs. unfold view_of. f_equal. apply visible_exported_from; try done.
  intros e _. apply bcmp_nil.
Qed.
