(* ===== verification/MemDB.v ===== *)
(** * storage/memdb.go: the engine in one memtable

    Reads see the last write of every key, scans are ranges of that map, and
    an exported snapshot restored into another engine carries the contents
    over. *)

From stdpp Require Import base list gmap sorting.
From S2P Require Import Prelude Codec Key Batch Bloom Iter Versions Skiplist SkipProofs Memtable Heap Merge Block SSTable TableWrite TableRead Db DbIter Export.

Record memDB := mkMemDB { md_mem : memtable; md_seq : N; md_seed : N; md_closed : bool }.

Definition NewMemory (seed : N) : memDB := mkMemDB (newMemtable seed 0) 0 seed false.

(** [result], and nothing found. *)
Definition found_result (r : found) : go bytes := match r with Found v => Ret v | _ => Fail ErrNotFound end.

Definition md_Get (key : bytes) (d : memDB) : go bytes :=
  if md_closed d then Fail ErrClosed
  else r ← mem_get key (md_seq d) (md_mem d); found_result r.

Definition md_Write (b : Batch) (d : memDB) : go memDB :=
  if md_closed d then Fail ErrClosed
  else
    go_foldl (fun op d =>
      let seq := u64 (md_seq d + 1) in
      mem ← mem_put seq (op_kind op) (op_key op) (op_value op) (md_mem d);
      Ret (mkMemDB mem seq (md_seed d) (md_closed d))) (b_ops b) d.

Definition md_Put (key value : bytes) (d : memDB) : go memDB := md_Write (Batch_Put (mkBatch [] 0) key value) d.
Definition md_Delete (key : bytes) (d : memDB) : go memDB := md_Write (Batch_Delete (mkBatch [] 0) key) d.

(** Enough fuel to walk the memtable. *)
Definition mem_fuel (m : memtable) : nat := length (sl_nodes (mt_list m)).

Definition md_Scan (start : bytes) (stop : option bytes) (d : memDB) : go (list (bytes * bytes)) :=
  if md_closed d then Fail ErrClosed
  else scan_iter (mem_fuel (md_mem d)) start stop (md_seq d) (newMergeIter [mem_iter (md_mem d)]).

(** [io] are the outcomes of the writes. *)
Definition md_Export (io : list bool) (d : memDB) : go bytes :=
  exportIter (mem_fuel (md_mem d)) (mem_iter (md_mem d)) (md_seq d) 4096 io.

Fixpoint restore_loop (fuel : nat) (it : tableIter) (mem : memtable) (maxSeq : N) : go (tableIter * memtable * N) :=
  if table_valid it then
    match fuel with
    | O => Panic
    | S fuel =>
        ik ← table_key it;
        '(user, seq, kind) ← split_key ik;
        v ← table_value it;
        mem ← mem_put seq kind user v mem;
        it ← table_next it;
        restore_loop fuel it mem (if (maxSeq <? seq)%N then seq else maxSeq)
    end
  else Ret (it, mem, maxSeq).

(** A table has no more entries than bytes. *)
Definition md_Restore (data : bytes) (d : memDB) : go memDB :=
  t ← openTableBytes data;
  it ← table_iter t;
  it ← table_seekToFirst it;
  '(it, mem, maxSeq) ← restore_loop (length data) it (newMemtable (md_seed d) 0) 0;
  match ti_err it with
  | Some e => Fail e
  | None => Ret (mkMemDB mem (if (md_seq d <? maxSeq)%N then maxSeq else md_seq d) (md_seed d) (md_closed d))
  end.

Definition md_Close (d : memDB) : memDB := mkMemDB (md_mem d) (md_seq d) (md_seed d) true.

(** ** The contents *)

Definition mrep (d : memDB) (es : list entry) : Prop :=
  md_closed d = false /\ mem_holds (md_mem d) es /\ (md_seq d < maxSeq)%N /\
  forall e, e ∈ es -> userKey e.1 <> [] /\ (ik_seq e.1 <= md_seq d)%N.

Definition mview (d : memDB) (es : list entry) : gmap bytes bytes := view_of (md_seq d) es.

Lemma mrep_sorted d es : mrep d es -> ik_sorted es.
Proof. intros (_ & [Hh _] & _). by apply holds_sorted in Hh as [? _]. Qed.

(** An operation at the next sequence number. *)
Lemma mview_put op d es es' :
  mrep d es -> (md_seq d + 1 < maxSeq)%N -> kind_ok (op_kind op) -> op_key op <> [] ->
  ik_sorted es' -> (forall e, e ∈ es' <-> e = put_entry (md_seq d + 1) (op_kind op) (op_key op) (op_value op) \/ e ∈ es) ->
  view_of (md_seq d + 1) es' = apply_op (view_of (md_seq d) es) op.
Proof.
  intros Hr Hseq Hkind Hkey Hs' Hes'. pose proof (mrep_sorted _ _ Hr) as Hs. destruct Hr as (_ & _ & _ & Hall).
  set (new := put_entry _ _ _ _) in *.
  assert (userKey new.1 = op_key op /\ ik_seq new.1 = (md_seq d + 1)%N /\ ik_kind new.1 = op_kind op) as (Hu & Hsq & Hk).
  { unfold new, put_entry. simpl. by rewrite userKey_make, ik_seq_make, ik_kind_make. }
  apply map_eq. intros k. unfold apply_op. destruct (decide (k = [])) as [->|Hne].
  { rewrite view_of_lookup_nil by done. case_bool_decide; [rewrite lookup_delete_ne by done|rewrite lookup_insert_ne by done]; by rewrite view_of_lookup_nil. }
  rewrite view_of_lookup by done. destruct (decide (k = op_key op)) as [->|Hnk].
  - rewrite (newest_top _ _ _ new Hs').
    + unfold entry_found. rewrite Hk. destruct Hkind as [Hp|Hd].
      * rewrite Hp. rewrite bool_decide_false by done. rewrite lookup_insert_eq. unfold new, put_entry. by rewrite Hp.
      * rewrite Hd. rewrite bool_decide_true by done. by rewrite lookup_delete_eq.
    + apply Hes'. by left.
    + split; [done|lia].
    + intros e He _ Hnew. apply Hes' in He as [->|He]; [done|]. destruct (Hall e He) as [_ ?]. lia.
  - assert (newest k (md_seq d + 1) es' = newest k (md_seq d) es) as ->.
    { apply newest_same; [done..|]. intros e. unfold is_version. rewrite Hes'. split.
      - intros [[->|He] [Hue ?]]; [congruence|]. destruct (Hall e He). done.
      - intros [He [Hue ?]]. split; [by right|]. split; [done|lia]. }
    case_bool_decide; [rewrite lookup_delete_ne by done|rewrite lookup_insert_ne by done]; by rewrite view_of_lookup.
Qed.

Definition op_valid (op : batchOp) : Prop := kind_ok (op_kind op) /\ op_key op <> [].

Lemma md_Write_ok b d es :
  mrep d es -> Forall op_valid (b_ops b) -> (md_seq d + N.of_nat (length (b_ops b)) < maxSeq)%N ->
  exists d' es', md_Write b d = Ret d' /\ mrep d' es' /\ mview d' es' = apply_ops (b_ops b) (mview d es) /\
    md_seq d' = (md_seq d + N.of_nat (length (b_ops b)))%N.
Proof.
  intros Hr Hops Hseq. unfold md_Write. destruct Hr as (Hc & Hr0). rewrite Hc. assert (mrep d es) as Hr by (by split). clear Hr0.
  revert d es Hr Hc Hseq. induction Hops as [|op ops [Hk Hkey] _ IH]; intros d es Hr Hc Hseq; cbn [go_foldl].
  { exists d, es. split_and!; try done. simpl. lia. }
  cbn [length] in Hseq. pose proof Hr as (_ & Hm & Hsq & Hall). rewrite u64_small by (unfold maxSeq, w64 in *; lia).
  destruct (put_holds (md_seq d + 1) (op_kind op) (op_key op) (op_value op) _ _ Hm) as (m' & -> & Hm' & _); [lia|done| |].
  { intros e He E. destruct (Hall e He) as [_ Hle]. rewrite E, ik_seq_make in Hle; lia. }
  cbn [mbind go_bind]. set (new := put_entry _ _ _ _) in *.
  assert (ik_sorted (insert_entry new es)) as Hs' by (destruct Hm' as [Hh _]; by apply holds_sorted in Hh as [? _]).
  assert (mrep (mkMemDB m' (md_seq d + 1) (md_seed d) (md_closed d)) (insert_entry new es)) as Hr'.
  { split_and!; [done|done|simpl; lia|]. simpl. intros e [->|He]%elem_insert_entry.
    - unfold new, put_entry. simpl. rewrite userKey_make, ik_seq_make by lia. split; [done|lia].
    - destruct (Hall e He). split; [done|lia]. }
  destruct (IH _ _ Hr') as (d' & es' & -> & Hr2 & Hv2 & Hsq2); [done|simpl; lia|]. exists d', es'.
  split_and!; [done..| |rewrite Hsq2; simpl; lia]. rewrite Hv2. unfold apply_ops at 2. cbn [foldl]. unfold apply_ops. f_equal. unfold mview. simpl.
  apply (mview_put op d es); [done|lia|done|done|done|]. intros e. apply elem_insert_entry.
Qed.

Lemma md_Get_ok key d es :
  mrep d es -> md_Get key d = match mview d es !! key with Some v => Ret v | None => Fail ErrNotFound end.
Proof.
  intros Hr. pose proof (mrep_sorted _ _ Hr) as Hs. destruct Hr as (Hc & Hm & Hseq & Hall). unfold md_Get, mview. rewrite Hc.
  rewrite (get_holds _ _ _ _ Hm Hseq). cbn [mbind go_bind]. destruct (decide (key = [])) as [->|Hne].
  - rewrite view_of_lookup_nil by done. rewrite newest_absent; [done|]. intros e He. by apply Hall.
  - rewrite view_of_lookup by done. by destruct (newest key (md_seq d) es).
Qed.

Lemma mem_fuel_ok m es : mem_holds m es -> length es <= mem_fuel m.
Proof. intros ((on & ids & Hr & _ & ->) & _). rewrite length_fmap. by eapply rep_length. Qed.

Lemma mem_iter_over m es : mem_holds m es -> it_over (mem_iter m) es.
Proof. by intros (Hh & _). Qed.

Lemma md_Scan_ok start stop d es :
  mrep d es -> md_Scan start stop d = Ret (range start stop (mview d es)).
Proof.
  intros Hr. pose proof (mrep_sorted _ _ Hr) as Hs. destruct Hr as (Hc & Hm & Hseq & Hall). unfold md_Scan. rewrite Hc.
  destruct (holds_sorted _ _ (proj1 Hm)) as [_ Hwf].
  rewrite (scan_iter_ok _ start stop _ _ es).
  - f_equal. apply visible_range; [done| |done]. apply Hm.
  - split_and!; [done..|]. exists [es]. split_and!; [done|simpl; by rewrite app_nil_r|]. intros [|a] c Hc'; [|done]. injection Hc' as <-.
    by apply mem_iter_over.
  - by apply mem_fuel_ok.
Qed.

(** ** Restoring *)

Lemma ik_kind_put e : (bval (ik_kind e) <= 1)%N -> ik_kind e <> kindDelete -> ik_kind e = kindPut.
Proof.
  intros Hle Hne. apply (inj bval). destruct (decide (bval (ik_kind e) = 0%N)) as [E|]; [|change (bval kindPut) with 1%N; lia].
  exfalso. apply Hne, (inj bval). done.
Qed.

Lemma restore_loop_ok fuel it mem maxS tes p es :
  it_at it tes p -> length tes - p <= fuel -> (forall e, e ∈ tes -> ik_kind e.1 = kindPut) ->
  mem_holds mem es -> (forall e, e ∈ es <-> e ∈ take p tes) -> (forall e, e ∈ es -> (ik_seq e.1 <= maxS)%N) -> (maxS < maxSeq)%N ->
  exists it' mem' maxS', restore_loop fuel it mem maxS = Ret (it', mem', maxS') /\ ti_err it' = None /\
    mem_holds mem' tes /\ (forall e, e ∈ tes -> (ik_seq e.1 <= maxS')%N) /\ (maxS' < maxSeq)%N.
Proof.
  revert it mem maxS p es. induction fuel as [|fuel IH]; intros it mem maxS p es Hat Hf Hkinds Hm Hes Hmax Hms;
    pose proof (it_at_over _ _ _ Hat) as Hov; destruct (it_over_sorted _ _ Hov) as [Hs Hwf];
    cbn [restore_loop]; change (table_valid it) with (it_valid it); rewrite (it_valid_ok _ _ _ Hat);
    destruct (Nat.ltb_spec p (length tes)) as [Hlt|Hge]; try lia;
    try (assert (tes = es) as <- by (apply ik_sorted_unique; [done|by apply (holds_sorted (mt_list mem)); apply Hm|];
           intros e; rewrite Hes, take_ge by lia; done);
         exists it, mem, maxS; split_and!; try done; exact (it_close_ok _ _ Hov)).
  destruct (lookup_lt_is_Some_2 tes p Hlt) as [e He]. destruct (it_key_ok _ _ _ _ Hat He) as [Hk Hv].
  assert (e ∈ tes) as Hin by (by eapply list_elem_of_lookup_2).
  assert (ikey_wf e.1) as Hwe by (by eapply Forall_lookup_1 in Hwf).
  change (table_key it) with (it_key it). change (table_value it) with (it_value it). rewrite Hk. cbn [mbind go_bind].
  rewrite split_key_wf by done. cbn [mbind go_bind]. rewrite Hv. cbn [mbind go_bind].
  destruct (makeInternalKey_split e.1 Hwe) as [Hmk Hsq].
  assert (put_entry (ik_seq e.1) (ik_kind e.1) (userKey e.1) e.2 = e) as Hpe.
  { unfold put_entry. rewrite Hmk, decide_True by (by apply Hkinds). by destruct e. }
  destruct (put_holds (ik_seq e.1) (ik_kind e.1) (userKey e.1) e.2 _ _ Hm Hsq) as (m' & -> & Hm' & _).
  { left. by apply Hkinds. }
  { rewrite Hmk. intros x Hx E. apply Hes in Hx. apply list_elem_of_lookup_1 in Hx as [i Hi].
    pose proof (lookup_lt_Some _ _ _ Hi) as Hil. rewrite length_take in Hil. rewrite lookup_take_lt in Hi by lia.
    pose proof (ik_sorted_lookup _ _ _ _ _ Hs Hi He ltac:(lia)) as Hlt'. rewrite E in Hlt'. exact (irreflexivity ik_lt _ Hlt'). }
  rewrite Hpe in Hm'. cbn [mbind go_bind]. destruct (it_next_ok _ _ _ Hat Hlt) as (it' & Hn & Hat').
  change (table_next it) with (it_next it). rewrite Hn. cbn [mbind go_bind].
  apply (IH _ _ _ (S p) (insert_entry e es)); [done|lia|done|done| | |].
  - intros x. rewrite elem_insert_entry, Hes, (take_S_r _ _ _ He), elem_of_app, list_elem_of_singleton. tauto.
  - intros x [->|Hx]%elem_insert_entry; [|specialize (Hmax x Hx)]; destruct (N.ltb_spec maxS (ik_seq e.1)); lia.
  - destruct (N.ltb_spec maxS (ik_seq e.1)); lia.
Qed.

(** What a snapshot is: the table of the exported entries. *)
Definition snapshot_of (seq : N) (es : list entry) (data : bytes) : Prop :=
  exists bs io m, writeTable (exported seq [] es) (newStreamWriter bs io) = Ret (m, data).

Lemma chunk_entries chunks bloom : length (concat chunks) <= length (file_of chunks bloom).
Proof.
  unfold file_of. rewrite length_app. transitivity (length (data_of chunks)); [|lia].
  unfold data_of. induction chunks as [|c cs IH]; [done|]. cbn [concat fmap list_fmap]. rewrite !length_app, length_sealed.
  pose proof (block_data_blk c). pose proof (block_data_entries c).
  change (list_fmap (list entry) bytes (fun c => sealed (blk c)) cs) with ((fun c => sealed (blk c)) <$> cs). lia.
Qed.

Lemma md_Restore_ok data d seq es des :
  mrep d des -> ik_sorted es -> keys_wf es -> kinds_ok es -> (forall e, e ∈ es -> userKey e.1 <> []) ->
  snapshot_of seq es data -> (N.of_nat (length data) < w32)%N -> (seq < maxSeq)%N ->
  exists d', md_Restore data d = Ret d' /\ mrep d' (exported seq [] es) /\ mview d' (exported seq [] es) = view_of seq es.
Proof.
  intros Hr Hs Hwf Hk Hne (bs & io & m & Hw) Hlen Hseq. set (tes := exported seq [] es) in *.
  assert (ik_sorted tes) as Hts by (by apply exported_sorted).
  assert (forall e, e ∈ tes -> e ∈ es /\ ik_kind e.1 = kindPut) as Hte.
  { intros e (He & _ & Hd)%exported_elem. split; [done|]. apply ik_kind_put; [|done]. by eapply Forall_forall in Hk. }
  assert (keys_wf tes) as Htw by (apply Forall_forall; intros e [He _]%Hte; by eapply Forall_forall in Hwf).
  unfold md_Restore, openTableBytes.
  destruct (open_holds false 0 bs io tes m data (mkMeta 0 0 0 [] []) (fun _ => false) Hts Htw Hw Hlen) as (t & -> & Hh); [done|].
  cbn [mbind go_bind]. destruct (table_iter_over _ _ Hh) as (it & -> & Hov). cbn [mbind go_bind].
  destruct (it_seekToFirst_ok _ _ Hov) as (it1 & Hi1 & Hat). change (table_seekToFirst it) with (it_seekToFirst it). rewrite Hi1. cbn [mbind go_bind].
  assert (length tes <= length data) as Hle.
  { apply writeTable_inv in Hw as (chunks & bloom & <- & _ & _ & -> & _). apply chunk_entries. }
  destruct (restore_loop_ok (length data) it1 (newMemtable (md_seed d) 0) 0 tes 0 [] Hat) as (it2 & mem & maxS & -> & Herr & Hm & Hmax & Hms);
    [lia|by intros e [_ ?]%Hte|apply new_mem_holds|set_solver|set_solver|done|].
  cbn [mbind go_bind]. rewrite Herr. eexists. split; [done|]. destruct Hr as (Hc & _ & Hsd & _).
  assert (forall e, e ∈ tes -> (ik_seq e.1 <= (if (md_seq d <? maxS)%N then maxS else md_seq d))%N) as Hmax'.
  { intros e He. specialize (Hmax e He). destruct (N.ltb_spec (md_seq d) maxS); lia. }
  split; [|by apply view_exported].
  split_and!; [done|done| |]; simpl; [destruct (N.ltb_spec (md_seq d) maxS); lia|].
  intros e He. split; [apply Hne; by apply Hte|by apply Hmax'].
Qed.

Lemma md_Export_ok io d es data :
  mrep d es -> md_Export io d = Ret data -> snapshot_of (md_seq d) es data.
Proof.
  intros (_ & Hm & _) He. unfold md_Export in He.
  rewrite (exportIter_ok _ _ _ _ _ es) in He; [|by apply mem_iter_over|by apply mem_fuel_ok].
  destruct (writeTable _ _) as [[m x]| |] eqn:Hw; cbn [mbind go_bind] in He; [|done..]. injection He as <-. by exists 4096%Z, io, m.
Qed.

(** ** Theorems *)

Definition md_writes (bs : list Batch) (d : memDB) : go memDB := go_foldl md_Write bs d.

Definition batches_ops (bs : list Batch) : list batchOp := concat (b_ops <$> bs).

Lemma NewMemory_rep seed : mrep (NewMemory seed) [].
Proof. split_and!; [done|apply new_mem_holds|done|set_solver]. Qed.

Lemma md_writes_ok bs d es :
  mrep d es -> Forall (fun b => Forall op_valid (b_ops b)) bs -> (md_seq d + N.of_nat (length (batches_ops bs)) < maxSeq)%N ->
  exists d' es', md_writes bs d = Ret d' /\ mrep d' es' /\ mview d' es' = apply_ops (batches_ops bs) (mview d es).
Proof.
  intros Hr Hb. revert d es Hr. unfold md_writes. induction Hb as [|b bs Hv _ IH]; intros d es Hr Hseq; cbn [go_foldl]; [eauto|].
  unfold batches_ops in *. cbn [fmap list_fmap concat] in *. rewrite length_app in Hseq.
  destruct (md_Write_ok b d es Hr Hv) as (d1 & es1 & -> & Hr1 & Hv1 & Hs1); [lia|]. cbn [mbind go_bind].
  destruct (IH _ _ Hr1) as (d' & es' & -> & Hr' & Hv'); [rewrite Hs1; lia|]. exists d', es'. split_and!; [done..|].
  rewrite Hv', Hv1. unfold apply_ops. by rewrite foldl_app.
Qed.

Lemma mview_new seed : mview (NewMemory seed) [] = ∅.
Proof. done. Qed.


Definition ex_batches : list Batch :=
  [mkBatch [BatchOp kindPut [x62] [x01]; BatchOp kindPut [x61] [x02]] 0; mkBatch [BatchOp kindDelete [x62] []] 0].

Lemma ex_batches_valid : Forall (fun b => Forall op_valid (b_ops b)) ex_batches.
Proof. repeat constructor; done || by left || by right. Qed.


(** A snapshot carries the contents over: what one engine exports,
    restored into another whatever that held, makes the other answer every
    read and scan like the first. *)
Theorem snapshot_moves seed1 bs1 d1 seed2 bs2 d2 io data :
  Forall (fun b => Forall op_valid (b_ops b)) bs1 -> Forall (fun b => Forall op_valid (b_ops b)) bs2 ->
  (N.of_nat (length (batches_ops bs1)) < maxSeq)%N -> (N.of_nat (length (batches_ops bs2)) < maxSeq)%N ->
  md_writes bs1 (NewMemory seed1) = Ret d1 -> md_writes bs2 (NewMemory seed2) = Ret d2 ->
  md_Export io d1 = Ret data -> (N.of_nat (length data) < w32)%N ->
  exists d3, md_Restore data d2 = Ret d3 /\ (forall k, md_Get k d3 = md_Get k d1) /\
    forall start stop, md_Scan start stop d3 = md_Scan start stop d1.
Proof.
  intros Hb1 Hb2 Hl1 Hl2 Hw1 Hw2 He Hd.
  destruct (md_writes_ok bs1 _ _ (NewMemory_rep seed1) Hb1) as (d1' & es1 & Hw1' & Hr1 & _); [done|].
  destruct (md_writes_ok bs2 _ _ (NewMemory_rep seed2) Hb2) as (d2' & es2 & Hw2' & Hr2 & _); [done|].
  rewrite Hw1 in Hw1'. injection Hw1' as <-. rewrite Hw2 in Hw2'. injection Hw2' as <-.
  pose proof (md_Export_ok _ _ _ _ Hr1 He) as Hsnap. pose proof (mrep_sorted _ _ Hr1) as Hs1.
  destruct Hr1 as (Hc1 & Hm1 & Hq1 & Ha1). assert (mrep d1 es1) as Hr1 by done.
  destruct (md_Restore_ok data d2 (md_seq d1) es1 es2 Hr2 Hs1) as (d3 & H3 & Hr3 & Hv3);
    [apply (holds_sorted (mt_list (md_mem d1))); apply Hm1|apply Hm1|intros e He'; by apply Ha1|done|done|done|].
  exists d3. split; [done|]. fold (mview d1 es1) in Hv3.
  split; intros; [rewrite (md_Get_ok _ _ _ Hr3), (md_Get_ok _ _ _ Hr1), Hv3|rewrite (md_Scan_ok _ _ _ _ Hr3), (md_Scan_ok _ _ _ _ Hr1), Hv3]; done.
Qed.

Definition ex_mem : memDB := match md_writes ex_batches (NewMemory 3) with Ret d => d | _ => NewMemory 3 end.
Definition ex_snapshot : bytes := match md_Export [] ex_mem with Ret x => x | _ => [] end.

Lemma snapshot_moves_witness :
  exists d3, md_Restore ex_snapshot (NewMemory 5) = Ret d3 /\ md_Get [x61] d3 = md_Get [x61] ex_mem.
Proof.
  destruct (snapshot_moves 3 ex_batches ex_mem 5 [] (NewMemory 5) [] ex_snapshot) as (d3 & H3 & Hg & _);
    [exact ex_batches_valid|constructor|done|done|by vm_compute|done|by vm_compute|by vm_compute|].
  exists d3. split; [done|apply Hg].
Defined.
