(* ===== verification/Manifest.v ===== *)
(** * storage/manifest.go: the live state of the engine

    The manifest names the live tables and where recovery starts.  It is
    rewritten whole and swapped in by a rename, so a crash leaves the old one
    or the new one. *)

From stdpp Require Import base list.
From S2P Require Import Prelude Codec Key Iter Versions Block SSTable TableWrite.

Definition manifestVersion : N := 1.

Record manifest := mkManifest {
  mf_nextNum : N;
  mf_lastSeq : N;
  mf_logNum : N;
  mf_tables : list tableMeta;
}.

Definition encode_field (b : bytes) : bytes := put_uvarint (u64 (N.of_nat (length b))) ++ b.

Definition encode_table (t : tableMeta) : bytes :=
  le_put 8 (tm_num t) ++ le_put 8 (tm_size t) ++ le_put 8 (tm_count t) ++ encode_field (tm_smallest t) ++ encode_field (tm_largest t).

Definition manifest_body (m : manifest) : bytes :=
  le_put 4 manifestVersion ++ le_put 8 (mf_nextNum m) ++ le_put 8 (mf_lastSeq m) ++ le_put 8 (mf_logNum m)
    ++ le_put 4 (u32 (N.of_nat (length (mf_tables m)))) ++ concat (encode_table <$> mf_tables m).

Definition manifest_encode (m : manifest) : bytes := manifest_body m ++ le_put 4 (crc32c (manifest_body m)).

(** [readBytes]: a length and that many bytes of [p]. *)
Definition readBytes (p : bytes) : go (option (bytes * bytes)) :=
  let '(l, k) := uvarint p in
  if (k <=? 0)%Z || (Z.to_N (Z.of_nat (length p) - k) <? l)%N then Ret None
  else
    let stop := wrap_int (k + to_int l) in
    out ← slice_z p k stop;
    rest ← slice_z p stop (Z.of_nat (length p));
    Ret (Some (out, rest)).

Definition decode_table (p : bytes) : go (tableMeta * bytes) :=
  if length p <? 24 then Fail ErrBadManifest
  else
    num ← le_uint 8 p;
    size ← le_uint 8 (drop 8 p);
    count ← le_uint 8 (drop 16 p);
    r ← readBytes (drop 24 p);
    match r with
    | None => Fail ErrBadManifest
    | Some (smallest, p) =>
        r ← readBytes p;
        match r with
        | None => Fail ErrBadManifest
        | Some (largest, p) => Ret (mkMeta num size count smallest largest, p)
        end
    end.

Fixpoint decode_tables (n : nat) (p : bytes) : go (list tableMeta) :=
  match n with
  | O => Ret []
  | S n => '(t, p) ← decode_table p; ts ← decode_tables n p; Ret (t :: ts)
  end.

Definition decodeManifest (b : bytes) : go manifest :=
  if length b <? 36 then Fail ErrBadManifest
  else
    let body := take (length b - 4) b in
    sum ← le_uint 4 (drop (length b - 4) b);
    if negb (crc32c body =? sum)%N then Fail ErrCorrupt
    else
      v ← le_uint 4 body;
      if negb (v =? manifestVersion)%N then Fail ErrVersion
      else
        nextNum ← le_uint 8 (drop 4 body);
        lastSeq ← le_uint 8 (drop 12 body);
        logNum ← le_uint 8 (drop 20 body);
        n ← le_uint 4 (drop 28 body);
        tables ← decode_tables (N.to_nat n) (drop 32 body);
        Ret (mkManifest nextNum lastSeq logNum tables).

(** ** The file

    The manifest file, the temporary one beside it, and for each what a crash
    can leave: nothing is known of a file that was not synced.  The directory
    entry of a rename is durable once the directory is synced. *)

Record man_dir := mkManDir {
  md_file : option bytes;   (** MANIFEST, as a reader sees it *)
  md_durable : option bytes; (** MANIFEST, as a crash leaves it *)
}.

(** The calls of [writeManifest] in order: open, write, sync, close, rename
    and the sync of the directory; [n] of them succeed.  Until the rename the
    manifest is the old one; between the rename and the last sync a crash may
    leave either. *)
Definition writeManifest (n : nat) (m : manifest) (d : man_dir) : man_dir * option error :=
  if n <=? 4 then (d, Some ErrIO)
  else if n =? 5 then (mkManDir (Some (manifest_encode m)) (md_durable d), Some ErrIO)
  else (mkManDir (Some (manifest_encode m)) (Some (manifest_encode m)), None).

Definition readManifest (file : option bytes) : go manifest :=
  match file with
  | None => Ret (mkManifest 1 0 1 [])
  | Some b => decodeManifest b
  end.

(** What a crash leaves of the directory. *)
Definition man_crash (d d' : man_dir) : Prop :=
  (md_file d' = md_durable d \/ md_file d' = md_file d) /\ md_durable d' = md_file d'.

(** ** Round trip *)

Definition meta_fits (t : tableMeta) : Prop :=
  (tm_num t < w64)%N /\ (tm_size t < w64)%N /\ (tm_count t < w64)%N /\
  (N.of_nat (length (tm_smallest t)) < 4611686018427387904)%N /\ (N.of_nat (length (tm_largest t)) < 4611686018427387904)%N.

Definition manifest_fits (m : manifest) : Prop :=
  (mf_nextNum m < w64)%N /\ (mf_lastSeq m < w64)%N /\ (mf_logNum m < w64)%N /\
  (N.of_nat (length (mf_tables m)) < w32)%N /\ Forall meta_fits (mf_tables m) /\
  (N.of_nat (length (manifest_encode m)) < 4611686018427387904)%N.

Lemma readBytes_encode b rest :
  (N.of_nat (length (encode_field b ++ rest)) < 4611686018427387904)%N ->
  readBytes (encode_field b ++ rest) = Ret (Some (b, rest)).
Proof.
  unfold encode_field. rewrite !length_app. intros Hlen. assert (N.of_nat (length b) < w64)%N as Hb by (unfold w64; lia).
  rewrite u64_small in Hlen |- * by done. unfold readBytes. rewrite <-app_assoc, uvarint_put_uvarint by done.
  set (pre := put_uvarint (N.of_nat (length b))) in *. pose proof (put_uvarint_pos (N.of_nat (length b))) as Hpos. fold pre in Hpos.
  destruct (Z.leb_spec (Z.of_nat (length pre)) 0); [lia|]. rewrite !length_app.
  destruct (N.ltb_spec (Z.to_N (Z.of_nat (length pre + (length b + length rest)) - Z.of_nat (length pre))) (N.of_nat (length b))); [lia|].
  cbn [orb]. rewrite to_int_small by lia. rewrite wrap_int_small by lia.
  rewrite (slice_z_app pre b rest (Z.of_nat (length pre))) by lia. cbn [mbind go_bind]. rewrite app_assoc, slice_z_tail by (rewrite ?length_app; lia). done.
Qed.

Lemma le_uint_field n x pre post : (x < 256 ^ N.of_nat n)%N -> forall off, off = length pre -> le_uint n (drop off (pre ++ le_put n x ++ post)) = Ret x.
Proof. intros Hx off ->. rewrite drop_app_length. by apply le_uint_put. Qed.

Lemma decode_table_encode t rest :
  meta_fits t -> (N.of_nat (length (encode_table t ++ rest)) < 4611686018427387904)%N ->
  decode_table (encode_table t ++ rest) = Ret (t, rest).
Proof.
  intros (H1 & H2 & H3 & H4 & H5). unfold encode_table. rewrite !length_app, !length_le_put. intros Hlen.
  unfold decode_table. rewrite !length_app, !length_le_put.
  destruct (Nat.ltb_spec (8 + (8 + (8 + (length (encode_field (tm_smallest t)) + length (encode_field (tm_largest t))))) + length rest) 24); [lia|].
  destruct (le_put_field 8 (tm_num t) H1) as (f1 & -> & L1 & G1). destruct (le_put_field 8 (tm_size t) H2) as (f2 & -> & L2 & G2).
  destruct (le_put_field 8 (tm_count t) H3) as (f3 & -> & L3 & G3). rewrite <-!app_assoc.
  assert (forall (pre f post : bytes) off, off = length pre -> length f = 8 -> le_uint 8 (drop off (pre ++ f ++ post)) = Ret (le_get f)) as Hf.
  { intros pre f post off -> Hl. unfold le_uint. rewrite drop_app_length, length_app, (proj2 (Nat.leb_le _ _)) by lia.
    by rewrite take_len_app by lia. }
  rewrite (Hf [] f1 _ 0 eq_refl L1 : le_uint 8 (f1 ++ _) = _). cbn [mbind go_bind]. rewrite (Hf f1 f2 _ 8) by lia. cbn [mbind go_bind].
  rewrite (app_assoc f1), (Hf (f1 ++ f2) f3 _ 16) by (rewrite ?length_app; lia). cbn [mbind go_bind].
  rewrite (app_assoc (f1 ++ f2)), drop_len_app by (rewrite !length_app; lia).
  rewrite readBytes_encode by (rewrite !length_app; lia). cbn [mbind go_bind].
  rewrite readBytes_encode by (rewrite !length_app; lia). cbn [mbind go_bind]. rewrite G1, G2, G3. by destruct t.
Qed.

Lemma decode_tables_encode ts :
  Forall meta_fits ts -> (N.of_nat (length (concat (encode_table <$> ts))) < 4611686018427387904)%N ->
  decode_tables (length ts) (concat (encode_table <$> ts)) = Ret ts.
Proof.
  induction 1 as [|t ts Ht _ IH]; intros Hlen; [done|]. cbn [length decode_tables fmap list_fmap concat] in *.
  rewrite decode_table_encode by done. cbn [mbind go_bind].
  change (list_fmap tableMeta bytes encode_table ts) with (encode_table <$> ts) in *. rewrite IH; [done|]. rewrite length_app in Hlen. lia.
Qed.

Lemma decode_encode_manifest m : manifest_fits m -> decodeManifest (manifest_encode m) = Ret m.
Proof.
  intros (H1 & H2 & H3 & H4 & H5 & Hlen). unfold decodeManifest. unfold manifest_encode in *. set (body := manifest_body m) in *.
  rewrite length_app, length_le_put in *. assert (32 <= length body) as Hb by (unfold body, manifest_body; rewrite !length_app, !length_le_put; lia).
  destruct (Nat.ltb_spec (length body + 4) 36); [lia|]. rewrite Nat.add_sub, take_app_length, drop_app_length.
  rewrite <-(app_nil_r (le_put 4 (crc32c body))), le_uint_put by apply crc32c_bound. cbn [mbind go_bind].
  rewrite N.eqb_refl. cbn [negb]. unfold body, manifest_body in *. clear body.
  rewrite u32_small in * by done. rewrite le_uint_put by done. cbn [mbind go_bind]. rewrite N.eqb_refl. cbn [negb].
  set (tabs := concat (encode_table <$> mf_tables m)) in *.
  destruct (le_put_field 4 manifestVersion) as (f0 & -> & L0 & _); [done|].
  rewrite (le_uint_field 8 _ f0 _ H1 _ (eq_sym L0)). cbn [mbind go_bind].
  destruct (le_put_field 8 (mf_nextNum m) H1) as (f1 & Ef1 & L1 & _). rewrite Ef1 in *. rewrite (app_assoc f0).
  rewrite (le_uint_field 8 _ (f0 ++ f1) _ H2 12) by (rewrite ?length_app; lia). cbn [mbind go_bind].
  destruct (le_put_field 8 (mf_lastSeq m) H2) as (f2 & Ef2 & L2 & _). rewrite Ef2 in *. rewrite (app_assoc (f0 ++ f1)).
  rewrite (le_uint_field 8 _ ((f0 ++ f1) ++ f2) _ H3 20) by (rewrite ?length_app; lia). cbn [mbind go_bind].
  destruct (le_put_field 8 (mf_logNum m) H3) as (f3 & Ef3 & L3 & _). rewrite Ef3 in *. rewrite (app_assoc ((f0 ++ f1) ++ f2)).
  rewrite (le_uint_field 4 _ (((f0 ++ f1) ++ f2) ++ f3) _ H4 28) by (rewrite ?length_app; lia). cbn [mbind go_bind].
  rewrite Nat2N.id, (app_assoc (((f0 ++ f1) ++ f2) ++ f3)), drop_len_app by (rewrite !length_app, length_le_put; lia).
  unfold tabs in *. rewrite decode_tables_encode; [|done|rewrite !length_app in Hlen; lia]. by destruct m.
Qed.


Definition ex_manifest : manifest := mkManifest 5 9 2 [mkMeta 4 100 3 [x61; x62] [x63]].

