(* ===== verification/Version.v ===== *)
(** * storage/version.go, storage/compaction.go: the tiers and their runs

    A version is the immutable set of tiers a reader consults, and the
    operations that make the next one.  The compaction policy picks a window
    of tables that are adjacent in age. *)

From stdpp Require Import base list.
From S2P Require Import Prelude Codec Key Versions Skiplist Memtable Block SSTable.

(** A memtable is known by its segment and a table by its number; the engine
    never has two of either. *)
Record version := mkVersion {
  v_mem : memtable;
  v_imm : list memtable;   (** oldest first *)
  v_tables : list table;   (** newest first *)
}.

Definition newVersion (mem : memtable) (imm : list memtable) (tables : list table) : version := mkVersion mem imm tables.

Definition withMemtable (mem : memtable) (v : version) : version := newVersion mem (v_imm v ++ [v_mem v]) (v_tables v).

Definition withFlushed (flushed : memtable) (t : option table) (v : version) : version :=
  newVersion (v_mem v) (filter (fun m => mt_seg m <> mt_seg flushed) (v_imm v)) (option_list t ++ v_tables v).

Definition t_num (t : table) : N := tm_num (t_meta t).
Definition t_fsize (t : table) : N := tm_size (t_meta t).

Definition isInput (t : table) (inputs : list table) : bool := existsb (fun i => t_num i =? t_num t)%N inputs.

Fixpoint replace_inputs (inputs : list table) (out : option table) (replaced : bool) (ts : list table) : list table :=
  match ts with
  | [] => []
  | t :: ts =>
      if isInput t inputs then (if replaced then [] else option_list out) ++ replace_inputs inputs out true ts
      else t :: replace_inputs inputs out replaced ts
  end.

Definition withCompacted (inputs : list table) (out : option table) (v : version) : version :=
  newVersion (v_mem v) (v_imm v) (replace_inputs inputs out false (v_tables v)).

(** ** Picking a compaction *)

Definition minRun : nat := 4.
Definition maxTables : nat := 10.

Definition similarSize (a b : N) : bool := (b <=? u64 (2 * a))%N && (a <=? u64 (2 * b))%N.

(** How many tables from the front are similar to one of size [a]. *)
Fixpoint similar_run (a : N) (ts : list table) : nat :=
  match ts with
  | t :: ts => if similarSize a (t_fsize t) then S (similar_run a ts) else 0
  | [] => 0
  end.

Definition run_len (best : option (list table)) : nat := from_option length 0 best.

(** The loop over runs, from [tables[i:]] on; [fuel] bounds the tables left. *)
Fixpoint best_run (fuel : nat) (ts : list table) (best : option (list table)) : option (list table) :=
  match fuel, ts with
  | S fuel, t :: rest =>
      let n := S (similar_run (t_fsize t) rest) in
      best_run fuel (drop n ts) (if (minRun <=? n) && (run_len best <=? n) then Some (take n ts) else best)
  | _, _ => best
  end.

Definition size_sum (ts : list table) : N := foldl (fun s t => u64 (s + t_fsize t)) 0%N ts.

(** The loop over windows of [minRun] tables. *)
Fixpoint cheapest (ts : list table) (best : option (list table * N)) : option (list table * N) :=
  match ts with
  | [] => best
  | _ :: rest =>
      if minRun <=? length ts then
        let w := take minRun ts in
        let sum := size_sum w in
        cheapest rest (match best with
                       | Some (_, bestSum) => if (sum <? bestSum)%N then Some (w, sum) else best
                       | None => Some (w, sum)
                       end)
      else best
  end.

Definition pickCompaction (tables : list table) : option (list table) :=
  match best_run (length tables) tables None with
  | Some best => Some best
  | None => if length tables <=? maxTables then None else fst <$> cheapest tables None
  end.

(** A window of adjacent tables. *)
Definition window (ts r : list table) : Prop := minRun <= length r /\ exists pre post, ts = pre ++ r ++ post.

Lemma window_take n ts : minRun <= n <= length ts -> window ts (take n ts).
Proof. intros Hn. split; [rewrite length_take; lia|]. exists [], (drop n ts). simpl. by rewrite take_drop. Qed.

Lemma window_suffix pre ts r : window ts r -> window (pre ++ ts) r.
Proof. intros [Hl (a & b & ->)]. split; [done|]. exists (pre ++ a), b. by rewrite <-app_assoc. Qed.

Lemma similar_run_le a ts : similar_run a ts <= length ts.
Proof. induction ts; simpl; [lia|]. destruct (similarSize _ _); lia. Qed.

Lemma best_run_window fuel pre ts best r :
  (forall b, best = Some b -> window (pre ++ ts) b) -> best_run fuel ts best = Some r -> window (pre ++ ts) r.
Proof.
  revert pre ts best. induction fuel as [|fuel IH]; intros pre ts best Hb; [by apply Hb|]. destruct ts as [|t rest]; [by apply Hb|].
  cbn [best_run]. set (n := S (similar_run (t_fsize t) rest)).
  assert (n <= length (t :: rest)) as Hn by (pose proof (similar_run_le (t_fsize t) rest); simpl; lia).
  intros Hr. rewrite <-(take_drop n (t :: rest)), app_assoc. eapply IH; [|exact Hr].
  rewrite <-app_assoc, take_drop. intros b Hb'. destruct (_ && _) eqn:E; [|by apply Hb].
  injection Hb' as <-. apply andb_true_iff in E as [E _]. apply Nat.leb_le in E. apply window_suffix, (window_take n). lia.
Qed.

Lemma cheapest_window pre ts best w s :
  (forall b s, best = Some (b, s) -> window (pre ++ ts) b) -> cheapest ts best = Some (w, s) -> window (pre ++ ts) w.
Proof.
  revert pre best. induction ts as [|t rest IH]; intros pre best Hb; cbn [cheapest]; [by apply Hb|].
  destruct (Nat.leb_spec minRun (length (t :: rest))) as [Hl|Hl]; [|by apply Hb].
  rewrite (cons_middle t pre rest). rewrite app_assoc. apply IH. rewrite <-app_assoc. simpl.
  assert (window (pre ++ t :: rest) (take minRun (t :: rest))) as Hw by (apply window_suffix, window_take; lia).
  intros b s'. destruct best as [[b0 s0]|]; [destruct (_ <? _)%N|]; intros [= <- <-]; (done || by eapply Hb).
Qed.

Lemma cheapest_some ts best : (is_Some best \/ minRun <= length ts) -> is_Some (cheapest ts best).
Proof.
  revert best. induction ts as [|t rest IH]; intros best H; cbn [cheapest]; [destruct H as [?|H]; [done|simpl in H; unfold minRun in H; lia]|].
  destruct (Nat.leb_spec minRun (length (t :: rest))); [|destruct H; [done|lia]].
  apply IH. left. destruct best as [[? ?]|]; [destruct (_ <? _)%N|]; eauto.
Qed.

Lemma pick_window tables r : pickCompaction tables = Some r -> window tables r.
Proof.
  unfold pickCompaction. destruct (best_run (length tables) tables None) as [b|] eqn:Eb.
  - intros [= <-]. exact (best_run_window _ [] tables None b ltac:(done) Eb).
  - destruct (_ <=? _); [done|]. destruct (cheapest tables None) as [[w s]|] eqn:Hw; [|done]. intros [= <-]. exact (cheapest_window [] tables None w s ltac:(done) Hw).
Qed.

Lemma pick_none tables : pickCompaction tables = None -> length tables <= maxTables.
Proof.
  unfold pickCompaction. destruct (best_run _ _ _); [done|]. destruct (Nat.leb_spec (length tables) maxTables) as [Hl|Hl]; [done|].
  destruct (cheapest_some tables None) as [[w s] Hw]; [right; unfold minRun, maxTables in *; lia|]. by rewrite Hw.
Qed.

(** A compaction merges at least [minRun] tables that are adjacent in age,
    and there is one to do whenever there are more than [maxTables]. *)
Lemma compaction_adjacent tables :
  match pickCompaction tables with
  | Some r => minRun <= length r /\ exists pre post, tables = pre ++ r ++ post
  | None => length tables <= maxTables
  end.
Proof.
  destruct (pickCompaction tables) as [r|] eqn:Er; [by apply pick_window|by apply pick_none].
Qed.

(** ** Replacing a window *)

Definition nums_distinct (ts : list table) : Prop := NoDup (t_num <$> ts).

Lemma isInput_elem t inputs : isInput t inputs = true <-> t_num t ∈ t_num <$> inputs.
Proof.
  unfold isInput. rewrite existsb_exists, list_elem_of_fmap. split.
  - intros (i & Hi & He%N.eqb_eq). exists i. by rewrite list_elem_of_In.
  - intros (i & He & Hi). exists i. split; [by apply list_elem_of_In|]. by apply N.eqb_eq.
Qed.

Lemma replace_none inputs out r ts : (forall t, t ∈ ts -> t_num t ∉ t_num <$> inputs) -> replace_inputs inputs out r ts = ts.
Proof.
  induction ts as [|t ts IH]; intros H; [done|]. cbn [replace_inputs].
  destruct (isInput t inputs) eqn:E; [apply isInput_elem in E; exfalso; apply (H t); [set_solver|done]|]. rewrite IH; [done|set_solver].
Qed.

Lemma replace_all inputs out ts : (forall t, t ∈ ts -> t_num t ∈ t_num <$> inputs) -> replace_inputs inputs out true ts = [].
Proof.
  induction ts as [|t ts IH]; intros H; [done|]. cbn [replace_inputs]. rewrite (proj2 (isInput_elem t inputs)) by (apply H; set_solver).
  simpl. apply IH. set_solver.
Qed.

Lemma replace_app inputs out r ts1 ts2 : (forall t, t ∈ ts1 -> t_num t ∉ t_num <$> inputs) ->
  replace_inputs inputs out r (ts1 ++ ts2) = ts1 ++ replace_inputs inputs out r ts2.
Proof.
  induction ts1 as [|t ts IH]; intros H; [done|]. cbn [replace_inputs app].
  destruct (isInput t inputs) eqn:E; [apply isInput_elem in E; exfalso; apply (H t); [set_solver|done]|]. rewrite IH; [done|set_solver].
Qed.

Lemma replace_true_app inputs out ts1 ts2 : (forall t, t ∈ ts1 -> t_num t ∈ t_num <$> inputs) ->
  replace_inputs inputs out true (ts1 ++ ts2) = replace_inputs inputs out true ts2.
Proof.
  induction ts1 as [|t ts IH]; intros H; [done|]. cbn [replace_inputs app].
  rewrite (proj2 (isInput_elem t inputs)) by (apply H; set_solver). apply IH. set_solver.
Qed.

(** A window is replaced in its place. *)
Lemma replace_window pre inputs post out :
  nums_distinct (pre ++ inputs ++ post) -> inputs <> [] ->
  replace_inputs inputs out false (pre ++ inputs ++ post) = pre ++ option_list out ++ post.
Proof.
  unfold nums_distinct. rewrite !fmap_app. intros Hnd Hne. apply NoDup_app in Hnd as (_ & Hd1 & Hnd). apply NoDup_app in Hnd as (_ & Hd2 & _).
  rewrite replace_app.
  2:{ intros t Ht Hin. apply (Hd1 (t_num t)); [by apply list_elem_of_fmap_2|]. apply elem_of_app. by left. }
  f_equal. destruct inputs as [|t ts]; [done|]. set (inputs := t :: ts) in *. change (inputs ++ post) with (t :: ts ++ post).
  cbn [replace_inputs]. rewrite (proj2 (isInput_elem t inputs)) by (subst inputs; set_solver). f_equal.
  rewrite replace_true_app; [|subst inputs; intros x Hx; apply list_elem_of_fmap_2; set_solver].
  apply replace_none. intros x Hx Hin. apply (Hd2 (t_num x)); [done|by apply list_elem_of_fmap_2].
Qed.
