(* ===== verification/Engine.v ===== *)
(** * storage/db.go, storage/compaction.go: the engine

    The state of the engine on disk is its log, its table files and its
    manifest; in memory it is a version and the counters.  An operation is a
    function of the state that also takes the outcomes of the system calls it
    makes; it returns the state it leaves, also when it fails.  Reads of a
    table that has been opened succeed here; [SSTable] says what happens
    when they do not. *)

From stdpp Require Import base list gmap.
From S2P Require Import Prelude Codec Key Batch Bloom Wal Iter Versions Skiplist SkipProofs Memtable Heap Merge Block SSTable TableWrite TableRead Db DbIter Tiers Export MemDB Manifest Version.

(** ** Options and state *)

Record Options := mkOptions {
  o_MemtableSize : Z;
  o_BlockSize : Z;
  o_SyncInterval : bool;
}.

Definition withDefaults (o : Options) : Options :=
  mkOptions (if (o_MemtableSize o <=? 0)%Z then 4194304 else o_MemtableSize o)
    (if (o_BlockSize o <=? 0)%Z then 4096 else o_BlockSize o) (o_SyncInterval o).

Definition maxImmutables : nat := 2.

Record db := mkDb {
  d_opts : Options;
  d_wal : WAL;
  d_cur : version;
  d_nextNum : N;
  d_closed : bool;
  d_bgErr : option error;
  d_seq : N;
  d_flushedSeq : N;
  d_flushes : N;
  d_compactions : N;
  d_files : gmap N bytes;   (** the table files, by number *)
  d_gone : list N;          (** tables marked gone, to be unlinked when the last reader lets go *)
  d_man : man_dir;
}.

Definition set_wal (w : WAL) (d : db) : db :=
  mkDb (d_opts d) w (d_cur d) (d_nextNum d) (d_closed d) (d_bgErr d) (d_seq d) (d_flushedSeq d) (d_flushes d) (d_compactions d) (d_files d) (d_gone d) (d_man d).
Definition set_cur (v : version) (d : db) : db :=
  mkDb (d_opts d) (d_wal d) v (d_nextNum d) (d_closed d) (d_bgErr d) (d_seq d) (d_flushedSeq d) (d_flushes d) (d_compactions d) (d_files d) (d_gone d) (d_man d).
Definition set_nextNum (n : N) (d : db) : db :=
  mkDb (d_opts d) (d_wal d) (d_cur d) n (d_closed d) (d_bgErr d) (d_seq d) (d_flushedSeq d) (d_flushes d) (d_compactions d) (d_files d) (d_gone d) (d_man d).
Definition set_seq (s : N) (d : db) : db :=
  mkDb (d_opts d) (d_wal d) (d_cur d) (d_nextNum d) (d_closed d) (d_bgErr d) s (d_flushedSeq d) (d_flushes d) (d_compactions d) (d_files d) (d_gone d) (d_man d).
Definition set_flushedSeq (s : N) (d : db) : db :=
  mkDb (d_opts d) (d_wal d) (d_cur d) (d_nextNum d) (d_closed d) (d_bgErr d) (d_seq d) s (d_flushes d) (d_compactions d) (d_files d) (d_gone d) (d_man d).
Definition set_files (f : gmap N bytes) (d : db) : db :=
  mkDb (d_opts d) (d_wal d) (d_cur d) (d_nextNum d) (d_closed d) (d_bgErr d) (d_seq d) (d_flushedSeq d) (d_flushes d) (d_compactions d) f (d_gone d) (d_man d).
Definition set_gone (g : list N) (d : db) : db :=
  mkDb (d_opts d) (d_wal d) (d_cur d) (d_nextNum d) (d_closed d) (d_bgErr d) (d_seq d) (d_flushedSeq d) (d_flushes d) (d_compactions d) (d_files d) g (d_man d).
Definition set_man (m : man_dir) (d : db) : db :=
  mkDb (d_opts d) (d_wal d) (d_cur d) (d_nextNum d) (d_closed d) (d_bgErr d) (d_seq d) (d_flushedSeq d) (d_flushes d) (d_compactions d) (d_files d) (d_gone d) m.
Definition set_closed (d : db) : db :=
  mkDb (d_opts d) (d_wal d) (d_cur d) (d_nextNum d) true (d_bgErr d) (d_seq d) (d_flushedSeq d) (d_flushes d) (d_compactions d) (d_files d) (d_gone d) (d_man d).
Definition count_flush (d : db) : db :=
  mkDb (d_opts d) (d_wal d) (d_cur d) (d_nextNum d) (d_closed d) (d_bgErr d) (d_seq d) (d_flushedSeq d) (u64 (d_flushes d + 1)) (d_compactions d) (d_files d) (d_gone d) (d_man d).
Definition count_compaction (d : db) : db :=
  mkDb (d_opts d) (d_wal d) (d_cur d) (d_nextNum d) (d_closed d) (d_bgErr d) (d_seq d) (d_flushedSeq d) (d_flushes d) (u64 (d_compactions d + 1)) (d_files d) (d_gone d) (d_man d).

(** The first background error stays. *)
Definition fail (e : error) (d : db) : db :=
  mkDb (d_opts d) (d_wal d) (d_cur d) (d_nextNum d) (d_closed d) (match d_bgErr d with None => Some e | Some e0 => Some e0 end)
    (d_seq d) (d_flushedSeq d) (d_flushes d) (d_compactions d) (d_files d) (d_gone d) (d_man d).

(** ** Iterators of a version *)

(** The dynamic types behind [internalIter] in a version. *)
Inductive tierIter := MemI (it : skiplistIter) | TabI (it : tableIter).

#[global] Instance tier_InternalIter : InternalIter tierIter := {
  it_seekToFirst it := match it with MemI i => MemI <$> it_seekToFirst i | TabI i => TabI <$> it_seekToFirst i end;
  it_seek t it := match it with MemI i => MemI <$> it_seek t i | TabI i => TabI <$> it_seek t i end;
  it_valid it := match it with MemI i => it_valid i | TabI i => it_valid i end;
  it_next it := match it with MemI i => MemI <$> it_next i | TabI i => TabI <$> it_next i end;
  it_key it := match it with MemI i => it_key i | TabI i => it_key i end;
  it_value it := match it with MemI i => it_value i | TabI i => it_value i end;
  it_close it := match it with
                 | MemI i => let '(i, e) := it_close i in (MemI i, e)
                 | TabI i => let '(i, e) := it_close i in (TabI i, e)
                 end;
}.

Fixpoint table_iters (ts : list table) : go (list tierIter) :=
  match ts with
  | [] => Ret []
  | t :: ts => it ← table_iter t; its ← table_iters ts; Ret (TabI it :: its)
  end.

Definition version_iters (v : version) : go (list tierIter) :=
  ts ← table_iters (v_tables v);
  Ret (MemI (mem_iter (v_mem v)) :: ((fun m => MemI (mem_iter m)) <$> reverse (v_imm v)) ++ ts).

(** A memtable has no more entries than nodes, a table no more than bytes. *)
Definition tables_fuel (ts : list table) : nat := sum_list ((fun t => length (t_data t)) <$> ts).
Definition version_fuel (v : version) : nat :=
  mem_fuel (v_mem v) + sum_list (mem_fuel <$> v_imm v) + tables_fuel (v_tables v).

(** ** Reads *)

Fixpoint imm_get (key : bytes) (seq : N) (ms : list memtable) : go found :=
  match ms with
  | [] => Ret Absent
  | m :: ms => r ← mem_get key seq m; match r with Absent => imm_get key seq ms | _ => Ret r end
  end.

Fixpoint tables_get (key : bytes) (seq : N) (ts : list table) : go found :=
  match ts with
  | [] => Ret Absent
  | t :: ts => r ← table_get key seq t; match r with Absent => tables_get key seq ts | _ => Ret r end
  end.

Definition db_Get (key : bytes) (d : db) : go bytes :=
  if d_closed d then Fail ErrClosed
  else
    let v := d_cur d in
    r ← mem_get key (d_seq d) (v_mem v);
    r ← (match r with Absent => imm_get key (d_seq d) (reverse (v_imm v)) | _ => Ret r end);
    r ← (match r with Absent => tables_get key (d_seq d) (v_tables v) | _ => Ret r end);
    found_result r.

Definition db_Scan (start : bytes) (stop : option bytes) (d : db) : go (list (bytes * bytes)) :=
  if d_closed d then Fail ErrClosed
  else
    children ← version_iters (d_cur d);
    scan_iter (version_fuel (d_cur d)) start stop (d_seq d) (newMergeIter children).

Definition db_Export (io : list bool) (d : db) : go bytes :=
  if d_closed d then Fail ErrClosed
  else
    children ← version_iters (d_cur d);
    exportIter (version_fuel (d_cur d)) (newMergeIter children) (d_seq d) (o_BlockSize (d_opts d)) io.

(** ** Writes *)

Record commitIO := mkCommitIO { ci_rotate : osCalls; ci_append : osCalls; ci_seed : N }.

(** [None]: the writer waits for the flusher. *)
Definition makeRoom (os : osCalls) (d : db) : option (db * go unit) :=
  if d_closed d then Some (d, Fail ErrClosed)
  else
    match d_bgErr d with
    | Some e => Some (d, Fail e)
    | None =>
        if (mt_size (v_mem (d_cur d)) <? o_MemtableSize (d_opts d))%Z then Some (d, Ret tt)
        else if maxImmutables <=? length (v_imm (d_cur d)) then None
        else let '(w, r) := Rotate os (d_wal d) in Some (set_wal w d, _ ← r; Ret tt)
    end.

(** The payloads of a group, and the last sequence number. *)
Fixpoint encode_group (seq : N) (group : list Batch) : list bytes * N :=
  match group with
  | [] => ([], seq)
  | b :: group =>
      let '(ps, last) := encode_group (u64 (seq + N.of_nat (length (b_ops b)))) group in
      (encode b (u64 (seq + 1)) :: ps, last)
  end.

Fixpoint put_ops (s : N) (ops : list batchOp) (m : memtable) : go memtable :=
  match ops with
  | [] => Ret m
  | op :: ops => m ← mem_put s (op_kind op) (op_key op) (op_value op) m; put_ops (u64 (s + 1)) ops m
  end.

Definition set_mem (m : memtable) (d : db) : db := set_cur (newVersion m (v_imm (d_cur d)) (v_tables (d_cur d))) d.

Definition commit (io : commitIO) (group : list Batch) (d : db) : option (db * go unit) :=
  let '(payloads, seq) := encode_group (d_seq d) group in
  let first := u64 (d_seq d + 1) in
  match makeRoom (ci_rotate io) d with
  | None => None
  | Some (d, Ret _) =>
      Some (let '(w, r) := Append (ci_append io) payloads (d_wal d) in
            let d := set_wal w d in
            match r with
            | Ret seg =>
                let d := if (seg =? mt_seg (v_mem (d_cur d)))%N then d
                         else set_cur (withMemtable (newMemtable (ci_seed io) seg) (d_cur d)) d in
                match put_ops first (concat (b_ops <$> group)) (v_mem (d_cur d)) with
                | Ret m => (set_seq seq (set_mem m d), Ret tt)
                | Fail e => (d, Fail e)
                | Panic => (d, Panic)
                end
            | Fail e => (d, Fail e)
            | Panic => (d, Panic)
            end)
  | r => r
  end.

(** What [Write] checks before it queues a batch: [None] is queued. *)
Definition write_check (b : Batch) : option (go unit) :=
  if Batch_Len b =? 0 then Some (Ret tt)
  else if existsb (fun op => length (op_key op) =? 0) (b_ops b) then Some (Fail ErrEmptyKey)
  else None.

(** [Write] with nobody else in the queue; a leader that finds others there
    commits them in one group. *)
Definition db_Write (io : commitIO) (b : Batch) (d : db) : option (db * go unit) :=
  match write_check b with
  | Some r => Some (d, r)
  | None => commit io [b] d
  end.

Definition db_Put (io : commitIO) (key value : bytes) (d : db) : option (db * go unit) := db_Write io (Batch_Put emptyBatch key value) d.
Definition db_Delete (io : commitIO) (key : bytes) (d : db) : option (db * go unit) := db_Write io (Batch_Delete emptyBatch key) d.

Definition db_Sync (ok : bool) (d : db) : db * go unit := let '(w, r) := Sync ok (d_wal d) in (set_wal w d, r).

Record Stats := mkStats { Flushes : N; Compactions : N; Tables : nat }.

Definition db_Stats (d : db) : Stats := mkStats (d_flushes d) (d_compactions d) (length (v_tables (d_cur d))).

(** ** Tables *)

Section TableLoop.
Context {I : Type} `{InternalIter I}.

(** The loop of [writeTableFiltered]. *)
Fixpoint table_loop (fuel : nat) (drop : bool) (last : bytes) (it : I) (w : tableWriter) : go (I * tableWriter) :=
  if it_valid it then
    match fuel with
    | O => Panic
    | S fuel =>
        ik ← it_key it;
        '(user, _, kind) ← split_key ik;
        if bool_decide (user = last) then it ← it_next it; table_loop fuel drop last it w
        else if drop && bool_decide (kind = kindDelete) then it ← it_next it; table_loop fuel drop user it w
        else
          v ← it_value it;
          w ← tw_add ik v w;
          it ← it_next it;
          table_loop fuel drop user it w
    end
  else Ret (it, w).

Definition fill_table (fuel : nat) (drop : bool) (it : I) (num : N) (bs : Z) (io : list bool) : go (tableMeta * bytes) :=
  w ← newTableWriter num bs io;
  it ← it_seekToFirst it;
  '(it, w) ← table_loop fuel drop [] it w;
  match (it_close it).2 with
  | Some e => Fail e
  | None => tw_finish w
  end.

Record tableIO := mkTableIO { tio_calls : list bool; tio_open : bool }.

(** The file of a table that fails half way is removed again; one that fails
    to open stays. *)
Definition writeTableFiltered (fuel : nat) (io : tableIO) (it : I) (drop : bool) (d : db) : db * go (option table) :=
  let num := d_nextNum d in
  let d := set_nextNum (u64 (num + 1)) d in
  match d_files d !! num with
  | Some _ => (d, Fail ErrIO)
  | None =>
      match fill_table fuel drop it num (o_BlockSize (d_opts d)) (tio_calls io) with
      | Ret (meta, data) =>
          if (tm_count meta =? 0)%N then (d, Ret None)
          else
            let d := set_files (<[num := data]> (d_files d)) d in
            if tio_open io then (d, Some <$> openTable meta data (fun _ => false)) else (d, Fail ErrIO)
      | Fail e => (d, Fail e)
      | Panic => (d, Panic)
      end
  end.
End TableLoop.

(** ** Flush *)

(** [DeleteBefore] goes up the segments and may fail on one; [upto] is where. *)
Definition delete_before (upto : option N) (seg : N) (d : db) : db * go unit :=
  match upto with
  | None => (set_wal (DeleteBefore seg (d_wal d)) d, Ret tt)
  | Some s => (set_wal (DeleteBefore (N.min s seg) (d_wal d)) d, Fail ErrIO)
  end.

(** The memtable picked by [flushLoop], unless a restore discarded it, as a
    table. *)
Definition flush_table (io : tableIO) (m : memtable) (d : db) : db * go (option (option table)) :=
  match v_imm (d_cur d) with
  | m' :: _ =>
      if (mt_seg m' =? mt_seg m)%N then
        let '(d, r) := writeTableFiltered (mem_fuel m) io (mem_iter m) false d in (d, Some <$> r)
      else (d, Ret None)
  | [] => (d, Ret None)
  end.

Definition flush_manifest (m : memtable) (t : option table) (d : db) : db * manifest :=
  let d := if (d_flushedSeq d <? mt_maxSeq m)%N then set_flushedSeq (mt_maxSeq m) d else d in
  (d, mkManifest (d_nextNum d) (d_flushedSeq d) (u64 (mt_seg m + 1)) (t_meta <$> option_list t ++ v_tables (d_cur d))).

Definition write_man (n : nat) (man : manifest) (d : db) : db * option error :=
  let '(md, err) := writeManifest n man (d_man d) in (set_man md d, err).

(** Up to the manifest; [Some] is what is to be installed. *)
Definition flush_prepare (io : tableIO) (n : nat) (m : memtable) (d : db) : db * go (option (option table)) :=
  match flush_table io m d with
  | (d, Ret (Some t)) =>
      let '(d, man) := flush_manifest m t d in
      match write_man n man d with
      | (d, None) => (d, Ret (Some t))
      | (d, Some e) => (d, Fail e)
      end
  | r => r
  end.

Definition flush_install (upto : option N) (m : memtable) (t : option table) (d : db) : db * go unit :=
  let d := set_cur (withFlushed m t (d_cur d)) d in
  delete_before upto (u64 (mt_seg m + 1)) (count_flush d).

Definition flush (io : tableIO) (n : nat) (upto : option N) (m : memtable) (d : db) : db * go unit :=
  match flush_prepare io n m d with
  | (d, Ret (Some t)) => flush_install upto m t d
  | (d, Ret None) => (d, Ret tt)
  | (d, Fail e) => (d, Fail e)
  | (d, Panic) => (d, Panic)
  end.

(** ** Compaction *)

Definition oldestSegment (d : db) : N :=
  match v_imm (d_cur d) with m :: _ => mt_seg m | [] => mt_seg (v_mem (d_cur d)) end.

Fixpoint compact_metas (inputs : list table) (out : option table) (ts : list table) : list tableMeta :=
  match ts with
  | [] => []
  | t :: ts =>
      if isInput t inputs then
        (if bool_decide (t_num <$> head inputs = Some (t_num t)) then t_meta <$> option_list out else []) ++ compact_metas inputs out ts
      else t_meta t :: compact_metas inputs out ts
  end.

Definition compact_manifest (inputs : list table) (out : option table) (d : db) : manifest :=
  mkManifest (d_nextNum d) (d_flushedSeq d) (oldestSegment d) (compact_metas inputs out (v_tables (d_cur d))).

Definition is_bottom (inputs tables : list table) : bool := bool_decide (t_num <$> last inputs = t_num <$> last tables).

Definition compact_prepare (io : tableIO) (n : nat) (inputs : list table) (d : db) : db * go (option table) :=
  let tables := v_tables (d_cur d) in
  match table_iters inputs with
  | Ret children =>
      match writeTableFiltered (tables_fuel inputs) io (newMergeIter children) (is_bottom inputs tables) d with
      | (d, Ret out) =>
          match write_man n (compact_manifest inputs out d) d with
          | (d, None) => (d, Ret out)
          | (d, Some e) => (d, Fail e)
          end
      | r => r
      end
  | Fail e => (d, Fail e)
  | Panic => (d, Panic)
  end.

(** Marking tables gone; those no reader holds are unlinked. *)
Definition drop_tables (held : list N) (nums : list N) (d : db) : db :=
  let d := set_gone (filter (fun n => n ∈ held) nums ++ d_gone d) d in
  set_files (filter (fun kv => kv.1 ∈ held \/ kv.1 ∉ nums) (d_files d)) d.

Definition compact_install (held : list N) (inputs : list table) (out : option table) (d : db) : db :=
  let d := set_cur (withCompacted inputs out (d_cur d)) d in
  count_compaction (drop_tables held (t_num <$> inputs) d).

Definition compactLocked (io : tableIO) (n : nat) (held : list N) (inputs : list table) (d : db) : db * go unit :=
  match compact_prepare io n inputs d with
  | (d, Ret out) => (compact_install held inputs out d, Ret tt)
  | (d, Fail e) => (d, Fail e)
  | (d, Panic) => (d, Panic)
  end.

(** The inputs were picked before the lock was taken. *)
Definition compact_stale (inputs : list table) (d : db) : go bool :=
  match inputs with
  | [] => Panic
  | t :: _ => Ret (negb (isInput t (v_tables (d_cur d))))
  end.

Definition compact (io : tableIO) (n : nat) (held : list N) (inputs : list table) (d : db) : db * go unit :=
  match compact_stale inputs d with
  | Ret true => (d, Ret tt)
  | Ret false => compactLocked io n held inputs d
  | Fail e => (d, Fail e)
  | Panic => (d, Panic)
  end.

(** The last reader of a table that is gone lets go. *)
Definition release (num : N) (d : db) : db :=
  if bool_decide (num ∈ d_gone d) then
    set_files (delete num (d_files d)) (set_gone (filter (fun n => n <> num) (d_gone d)) d)
  else d.

(** ** Restore *)

(** The loop that fills in the metadata of a restored table. *)
Fixpoint restore_meta (fuel : nat) (it : tableIter) (meta : tableMeta) (maxSeq : N) : go (tableIter * tableMeta * N) :=
  if table_valid it then
    match fuel with
    | O => Panic
    | S fuel =>
        ik ← table_key it;
        '(_, s, _) ← split_key ik;
        it ← table_next it;
        restore_meta fuel it
          (mkMeta (tm_num meta) (tm_size meta) (u64 (tm_count meta + 1))
             (if (tm_count meta =? 0)%N then ik else tm_smallest meta) ik)
          (if (maxSeq <? s)%N then s else maxSeq)
    end
  else Ret (it, meta, maxSeq).

(** Opening the copy and going through it. *)
Definition read_restored (num : N) (data : bytes) : go (table * N) :=
  let meta := mkMeta num (u64 (N.of_nat (length data))) 0 [] [] in
  t ← openTable meta data (fun _ => false);
  it ← table_iter t;
  it ← table_seekToFirst it;
  '(it, meta, maxSeq) ← restore_meta (length data) it meta 0;
  match ti_err it with
  | Some e => Fail e
  | None => Ret (mkTable meta (t_data t) (t_bad t) (t_index t) (t_bloom t), maxSeq)
  end.

Record restoreIO := mkRestoreIO {
  ri_copy : bool;          (** create, copy, sync and close the file *)
  ri_open : bool;
  ri_rotate : osCalls;
  ri_man : nat;
  ri_seed : N;
  ri_held : list N;
  ri_upto : option N;
}.

Definition db_Restore (io : restoreIO) (data : bytes) (d : db) : db * go unit :=
  let num := d_nextNum d in
  let d := set_nextNum (u64 (num + 1)) d in
  match d_files d !! num with
  | Some _ => (d, Fail ErrIO)
  | None =>
      if negb (ri_copy io && ri_open io) then (d, Fail ErrIO)
      else
        match read_restored num data with
        | Fail e => (d, Fail e)
        | Panic => (d, Panic)
        | Ret (t, maxSeq) =>
            let d := set_files (<[num := data]> (d_files d)) d in
            let '(w, r) := Rotate (ri_rotate io) (d_wal d) in
            let d := set_wal w d in
            match r with
            | Fail e => (d, Fail e)
            | Panic => (d, Panic)
            | Ret seg =>
                let d := if (d_seq d <? maxSeq)%N then set_seq maxSeq d else d in
                let d := set_flushedSeq maxSeq d in
                let tables := if (0 <? tm_count (t_meta t))%N then [t] else [] in
                match write_man (ri_man io) (mkManifest (d_nextNum d) maxSeq seg (t_meta <$> tables)) d with
                | (d, Some e) => (d, Fail e)
                | (d, None) =>
                    let old := t_num <$> v_tables (d_cur d) in
                    let d := set_cur (newVersion (newMemtable (ri_seed io) seg) [] tables) d in
                    let d := drop_tables (ri_held io) old d in
                    let d := match tables with [] => set_files (delete num (d_files d)) d | _ => d end in
                    delete_before (ri_upto io) seg d
                end
            end
        end
  end.

(** ** Close and open *)

Definition db_Close (ok okc : bool) (d : db) : db * go unit :=
  if d_closed d then (d, Ret tt)
  else let '(w, r) := Close ok okc (d_wal d) in (set_wal w (set_closed d), r).

(** What the directory holds when the engine is opened. *)
Record disk := mkDisk { k_wal : gmap N file; k_files : gmap N bytes; k_man : option bytes }.

(** The memtables of the replay, the last one [cur], the sequence number, and
    how many seeds have been drawn. *)
Record rstate := mkRs { rs_mems : list memtable; rs_seq : N; rs_draws : nat }.

Section Open.
Context (seeds : nat -> N).

Definition replay (logNum : N) (seg : N) (payload : bytes) (st : rstate) : go rstate :=
  if (seg <? logNum)%N then Ret st
  else
    '(seq, b) ← decodeBatch payload;
    let fresh := (rs_mems st, newMemtable (seeds (rs_draws st)) seg, S (rs_draws st)) in
    let '(before, cur, draws) :=
      match last (rs_mems st) with
      | Some cur => if (mt_seg cur =? seg)%N then (removelast (rs_mems st), cur, rs_draws st) else fresh
      | None => fresh
      end in
    cur ← put_ops seq (b_ops b) cur;
    let final := u64 (seq + N.of_nat (length (b_ops b)) + (w64 - 1)) in
    Ret (mkRs (before ++ [cur]) (if (rs_seq st <? final)%N then final else rs_seq st) draws).

Fixpoint open_tables (files : gmap N bytes) (metas : list tableMeta) : go (list table) :=
  match metas with
  | [] => Ret []
  | meta :: metas =>
      match files !! tm_num meta with
      | None => Fail ErrIO
      | Some data =>
          t ← openTable meta data (fun _ => false);
          ts ← open_tables files metas;
          Ret (t :: ts)
      end
  end.

Definition removeStrayTables (man : manifest) (files : gmap N bytes) : gmap N bytes :=
  filter (fun kv => kv.1 ∈ tm_num <$> mf_tables man) files.

(** [opened] is the outcome of creating the new segment; the other calls
    succeed. *)
Definition Open (opts : Options) (opened : openOutcome) (k : disk) : go db :=
  let opts := withDefaults opts in
  man ← readManifest (k_man k);
  let files := removeStrayTables man (k_files k) in
  tables ← open_tables files (mf_tables man);
  '(w, st) ← OpenWAL (mkWALOptions (Z.to_N (wrap_int (o_MemtableSize opts * 4))) (o_SyncInterval opts)) opened
               (replay (mf_logNum man)) (k_wal k) (mkRs [] (mf_lastSeq man) 0);
  let w := DeleteBefore (mf_logNum man) w in
  let active := newMemtable (seeds (rs_draws st)) (w_seg w) in
  Ret (mkDb opts w (newVersion active (rs_mems st) tables) (mf_nextNum man) false None (rs_seq st) (mf_lastSeq man) 0 0
         files [] (mkManDir (k_man k) (k_man k))).
End Open.
