(* ===== verification/EngineLog.v ===== *)
(** * The log of the engine

    Every record of the log is a batch with its first sequence number.  The
    entries a memtable holds are those of the records of its segment; replay
    builds them again. *)

From stdpp Require Import base list gmap sorting.
From S2P Require Import Prelude Codec Key Batch Bloom Wal WalRecords Iter Versions Skiplist SkipProofs Memtable Heap Merge Block SSTable TableWrite TableRead Db DbIter Tiers Export MemDB Manifest Version Engine.

(** ** Putting a batch *)

Lemma mem_put_maxSeq s kind key value m m' :
  mem_put s kind key value m = Ret m' -> mt_maxSeq m' = (if (mt_maxSeq m <? s)%N then s else mt_maxSeq m).
Proof. unfold mem_put. destruct (insert _ _ _); cbn [mbind go_bind]; [|done..]. by intros [= <-]. Qed.

Lemma put_ops_ok ops : forall s m es B,
  mem_holds m es -> (forall e, e ∈ es -> (ik_seq e.1 < s)%N) -> (s + N.of_nat (length ops) <= maxSeq)%N -> Forall op_fine ops ->
  (mt_maxSeq m <= B)%N -> (s + N.of_nat (length ops) <= B + 1)%N ->
  exists m' es', put_ops s ops m = Ret m' /\ mem_holds m' es' /\ (forall e, e ∈ es' <-> e ∈ ops_entries s ops \/ e ∈ es) /\
    mt_seg m' = mt_seg m /\ (mt_maxSeq m' <= B)%N.
Proof.
  induction ops as [|op ops IH]; intros s m es B Hm Hlt Hs Hf HB HBs; cbn [put_ops ops_entries].
  - exists m, es. split_and!; try done. set_solver.
  - apply Forall_cons in Hf as [[Hk Hkey] Hf]. cbn [length] in Hs, HBs.
    destruct (put_holds s (op_kind op) (op_key op) (op_value op) m es Hm) as (m1 & Hp & Hm1 & Hseg); [lia|done| |].
    { intros e He E. specialize (Hlt e He). rewrite E, ik_seq_make in Hlt; lia. }
    pose proof (mem_put_maxSeq _ _ _ _ _ _ Hp) as Hmax. rewrite Hp. cbn [mbind go_bind].
    rewrite u64_small by (unfold maxSeq, w64 in *; lia).
    destruct (IH (s + 1)%N m1 _ B Hm1) as (m' & es' & -> & Hm' & Hes' & Hseg' & HB'); [|lia|done| |lia|].
    + intros e [->|He]%elem_insert_entry; [|specialize (Hlt e He); lia].
      destruct (put_entry_parts s (op_kind op) (op_key op) (op_value op)) as (_ & -> & _); lia.
    + rewrite Hmax. destruct (N.ltb_spec (mt_maxSeq m) s); lia.
    + exists m', es'. split_and!; try done; [|congruence]. intros e. rewrite Hes', elem_insert_entry, elem_of_cons. tauto.
Qed.

Lemma ops_entries_app s ops1 ops2 :
  ops_entries s (ops1 ++ ops2) = ops_entries s ops1 ++ ops_entries (s + N.of_nat (length ops1)) ops2.
Proof.
  revert s. induction ops1 as [|op ops IH]; intros s; cbn [ops_entries app length]; [by rewrite N.add_0_r|].
  rewrite IH. do 3 f_equal. lia.
Qed.

(** ** Records *)

(** A record: its segment, its first sequence number and its operations. *)
Abbreviation record := (N * (N * list batchOp))%type.

Definition rec_bytes (r : record) : N * bytes := (r.1, encode (mkBatch r.2.2 0) r.2.1).
Definition log_bytes (G : list record) : list (N * bytes) := rec_bytes <$> G.

Definition rec_entries (r : record) : list entry := ops_entries r.2.1 r.2.2.
Definition log_entries (G : list record) : list entry := concat (rec_entries <$> G).

Definition rec_end (r : record) : N := (r.2.1 + N.of_nat (length r.2.2))%N.

Record rec_ok (r : record) : Prop := {
  ro_ops : Forall op_fine r.2.2;
  ro_batch : batch_ok r.2.2;
  ro_some : r.2.2 <> [];
  ro_size : (N.of_nat (length (encode (mkBatch r.2.2 0) r.2.1)) < w32)%N;
  ro_seq : (rec_end r <= maxSeq)%N;
}.

(** Sequence numbers go up. *)
Definition rec_before (r1 r2 : record) : Prop := (rec_end r1 <= r2.2.1)%N.

Record glog (G : list record) : Prop := {
  gl_ok : Forall rec_ok G;
  gl_seq : StronglySorted rec_before G;
  gl_seg : StronglySorted N.le G.*1;
}.

Lemma elem_log_entries G e : e ∈ log_entries G <-> exists r, r ∈ G /\ e ∈ rec_entries r.
Proof.
  unfold log_entries. rewrite elem_of_concat. split.
  - intros (l & He & (r & -> & Hr)%list_elem_of_fmap). eauto.
  - intros (r & Hr & He). exists (rec_entries r). split; [done|]. by apply list_elem_of_fmap_2.
Qed.

Lemma rec_entries_seq r e : rec_ok r -> e ∈ rec_entries r -> (r.2.1 <= ik_seq e.1 < rec_end r)%N.
Proof. intros [_ _ _ _ Hs] He. by apply ops_entries_seq in He. Qed.

Lemma ops_entries_kind s ops e :
  (s + N.of_nat (length ops) <= maxSeq)%N -> Forall op_fine ops -> e ∈ ops_entries s ops -> (bval (ik_kind e.1) <= 1)%N.
Proof.
  revert s. induction ops as [|op ops IH]; intros s Hs Hf; cbn [ops_entries]; [set_solver|]. cbn [length] in Hs.
  apply Forall_cons in Hf as [[Hk _] Hf]. intros [->|He]%elem_of_cons; [|apply (IH (s + 1)%N); [lia|done..]].
  destruct (put_entry_parts s (op_kind op) (op_key op) (op_value op)) as (_ & _ & ->); [lia|]. by apply kind_ok_bval.
Qed.

Lemma log_bytes_app G1 G2 : log_bytes (G1 ++ G2) = log_bytes G1 ++ log_bytes G2.
Proof. apply fmap_app. Qed.

Lemma log_entries_app G1 G2 : log_entries (G1 ++ G2) = log_entries G1 ++ log_entries G2.
Proof. unfold log_entries. by rewrite fmap_app, concat_app. Qed.

Lemma from_log_bytes k G : from k (log_bytes G) = log_bytes (from k G).
Proof.
  unfold from, log_bytes. induction G as [|r G IH]; [done|]. cbn [fmap list_fmap]. rewrite !filter_cons. simpl.
  destruct (decide (k <= r.1)%N); [cbn [fmap list_fmap]; by f_equal|done].
Qed.

(** ** A group *)

(** The records of a group written to a segment. *)
Fixpoint group_records (seg first : N) (group : list Batch) : list record :=
  match group with
  | [] => []
  | b :: group => (seg, (first, b_ops b)) :: group_records seg (first + N.of_nat (length (b_ops b))) group
  end.

Definition group_ops (group : list Batch) : list batchOp := concat (b_ops <$> group).

Lemma group_records_entries seg first group :
  log_entries (group_records seg first group) = ops_entries first (group_ops group).
Proof.
  revert first. induction group as [|b group IH]; intros first; [done|]. unfold log_entries in *. cbn [group_records fmap list_fmap concat].
  unfold group_ops. cbn [fmap list_fmap concat]. rewrite ops_entries_app. f_equal. apply IH.
Qed.

Lemma encode_group_ok seq group :
  (seq + N.of_nat (length (group_ops group)) < maxSeq)%N ->
  encode_group seq group = ((log_bytes (group_records 0 (seq + 1) group)).*2, (seq + N.of_nat (length (group_ops group)))%N).
Proof.
  revert seq. induction group as [|b group IH]; intros seq Hs; cbn [encode_group group_records].
  - by rewrite N.add_0_r.
  - unfold group_ops in *. cbn [fmap list_fmap concat] in *. rewrite length_app in *.
    rewrite !u64_small by (unfold maxSeq, w64 in *; lia). rewrite IH by lia.
    replace (seq + N.of_nat (length (b_ops b)) + 1)%N with (seq + 1 + N.of_nat (length (b_ops b)))%N by lia.
    apply f_equal2; [done|]. lia.
Qed.

Lemma group_records_bytes seg first group :
  log_bytes (group_records seg first group) = pair seg <$> (log_bytes (group_records 0 first group)).*2.
Proof.
  revert first. induction group as [|b group IH]; intros first; [done|]. cbn [group_records log_bytes fmap list_fmap].
  f_equal. apply IH.
Qed.

Lemma group_records_seg seg seg' first group : Forall rec_ok (group_records seg first group) -> Forall rec_ok (group_records seg' first group).
Proof.
  revert first. induction group as [|b group IH]; intros first; cbn [group_records]; [done|].
  rewrite !Forall_cons. intros [[] ?]. split; [by constructor|by apply IH].
Qed.

Lemma group_records_from seg first group r : r ∈ group_records seg first group -> r.1 = seg /\ (first <= r.2.1)%N.
Proof.
  revert first. induction group as [|b group IH]; intros first; cbn [group_records]; [set_solver|].
  intros [->|[? ?]%IH]%elem_of_cons; [simpl; split; [done|lia]|]. split; [done|lia].
Qed.

Lemma group_records_sorted seg first group : StronglySorted rec_before (group_records seg first group).
Proof.
  revert first. induction group as [|b group IH]; intros first; cbn [group_records]; constructor; [done|].
  apply Forall_forall. intros r [_ Hr]%group_records_from. unfold rec_before, rec_end. simpl. lia.
Qed.

Lemma group_records_end seg first group r :
  r ∈ group_records seg first group -> (rec_end r <= first + N.of_nat (length (group_ops group)))%N.
Proof.
  revert first. induction group as [|b group IH]; intros first; cbn [group_records]; [set_solver|].
  unfold group_ops in *. cbn [fmap list_fmap concat]. rewrite length_app. intros [->|Hr%IH]%elem_of_cons; [unfold rec_end; simpl; lia|]. lia.
Qed.
