(* ===== verification/EngineRead.v ===== *)
(** * Reading the engine

    While the tiers of the current version hold the versions they should, a
    lookup, a scan and an export show the map of the newest ones. *)

From stdpp Require Import base list gmap sorting.
From S2P Require Import Prelude Codec Key Batch Bloom Wal Iter Versions Skiplist SkipProofs Memtable Heap Merge Block SSTable TableWrite TableRead Db DbIter Tiers Export MemDB Manifest Version Engine.

(** ** Iterators behind the interface *)

Definition tier_over (it : tierIter) (es : list entry) : Prop :=
  match it with MemI i => it_over i es | TabI i => it_over i es end.

Definition tier_at (it : tierIter) (es : list entry) (p : nat) : Prop :=
  match it with MemI i => it_at i es p | TabI i => it_at i es p end.

#[global] Instance tier_InternalIterOK : InternalIterOK tierIter.
Proof.
  refine {| it_over := tier_over; it_at := tier_at |}.
  - intros [i|i] es p; apply it_at_over.
  - intros [i|i] es; apply it_over_sorted.
  - intros [i|i] es Hov; destruct (it_seekToFirst_ok _ _ Hov) as (i' & Hi & Hat); cbn [it_seekToFirst tier_InternalIter]; rewrite Hi; eexists; (split; [done|exact Hat]).
  - intros t [i|i] es Hov Ht; destruct (it_seek_ok t _ _ Hov Ht) as (i' & Hi & Hat); cbn [it_seek tier_InternalIter]; rewrite Hi; eexists; (split; [done|exact Hat]).
  - intros [i|i] es p Hat; exact (it_valid_ok _ _ _ Hat).
  - intros [i|i] es p Hat Hlt; destruct (it_next_ok _ _ _ Hat Hlt) as (i' & Hi & Hat'); cbn [it_next tier_InternalIter]; rewrite Hi; eexists; (split; [done|exact Hat']).
  - intros [i|i] es p e Hat He; exact (it_key_ok _ _ _ _ Hat He).
  - intros [i|i] es Hov; pose proof (it_close_ok _ _ Hov) as Hc; cbn [it_close tier_InternalIter]; by destruct (it_close i).
Defined.

(** ** The tiers of a version *)

Definition table_fine (t : table) (es : list entry) : Prop := table_holds t es /\ kinds_ok es.

Definition tiers (mem : list entry) (imms tabs : list (list entry)) : list (list entry) := mem :: reverse imms ++ tabs.

Lemma elem_tiers e mem imms tabs : e ∈ concat (tiers mem imms tabs) <-> e ∈ mem \/ e ∈ concat imms \/ e ∈ concat tabs.
Proof. unfold tiers. cbn [concat]. rewrite concat_app, !elem_of_app. by rewrite reverse_Permutation. Qed.

Record shows (d : db) (mem : list entry) (imms tabs : list (list entry)) (V : gmap bytes bytes) : Prop := {
  sh_mem : mem_holds (v_mem (d_cur d)) mem;
  sh_imm : Forall2 mem_holds (v_imm (d_cur d)) imms;
  sh_tab : Forall2 table_fine (v_tables (d_cur d)) tabs;
  sh_aged : aged (tiers mem imms tabs);
  sh_sees : sees (fun e => e ∈ concat (tiers mem imms tabs)) V;
  sh_seq : forall e, e ∈ concat (tiers mem imms tabs) -> (ik_seq e.1 <= d_seq d)%N;
  sh_max : (d_seq d < maxSeq)%N;
}.

Lemma table_fine_sorted t es : table_fine t es -> ik_sorted es /\ keys_wf es.
Proof. intros [Hh _]. apply table_iter_over in Hh as (it & _ & Hov). exact (it_over_sorted _ _ Hov). Qed.

Lemma mem_holds_sorted m es : mem_holds m es -> ik_sorted es /\ keys_wf es.
Proof. intros [Hh _]. exact (holds_sorted _ _ Hh). Qed.

Lemma table_fuel_ok t es : table_holds t es -> length es <= length (t_data t).
Proof.
  intros [(chunks & Ht & <-) _]. rewrite (tr_data _ _ Ht). apply chunk_entries.
Qed.

(** A table file opens again, under any metadata. *)
Lemma table_reopen t es meta :
  table_holds t es -> exists t', openTable meta (t_data t) (fun _ => false) = Ret t' /\ table_holds t' es /\ t_meta t' = meta /\ t_data t' = t_data t.
Proof.
  intros [(chunks & Ht & <-) Hb]. unfold openTable. pose proof (tr_data _ _ Ht) as Hd. pose proof (tr_small _ _ Ht) as Hsm.
  rewrite Hd, readFooter_file_of; [|rewrite <-Hd; unfold w32, w64 in *; lia|done].
  eexists. split; [done|]. split_and!; [|done|done]. split; [|done]. exists chunks. split; [|done]. destruct Ht. constructor; try done. simpl. congruence.
Qed.

Lemma table_iters_ok ts tabs :
  Forall2 table_fine ts tabs -> exists its, table_iters ts = Ret its /\ Forall2 tier_over its tabs.
Proof.
  induction 1 as [|t es ts tabs [Ht _] _ (its & IH & Hall)]; [by exists []|]. cbn [table_iters].
  destruct (table_iter_over _ _ Ht) as (it & -> & Hov). cbn [mbind go_bind]. rewrite IH. cbn [mbind go_bind].
  eexists. split; [done|]. by constructor.
Qed.

Lemma merge_union its ts :
  Forall2 tier_over its ts -> aged ts -> uniq (fun e => e ∈ concat ts) -> it_over (newMergeIter its) (union ts).
Proof.
  intros Hall Ha Hu. assert (Forall ik_sorted ts /\ Forall keys_wf ts) as [Hs Hwf].
  { split; (eapply Forall2_Forall_r; [exact Hall|]; apply Forall_forall; intros it _ es Hov); by apply (it_over_sorted it). }
  split_and!; [done|by apply union_sorted| |].
  - apply Forall_forall. intros e He. rewrite union_perm in He. apply elem_of_concat in He as (t & He & Ht).
    rewrite Forall_forall in Hwf. specialize (Hwf t Ht). by eapply Forall_forall in Hwf.
  - exists ts. split_and!; [symmetry; exact (Forall2_length _ _ _ Hall)|apply union_perm|].
    intros a c Hc. destruct (Forall2_lookup_l _ _ _ _ _ Hall Hc) as (es & Hes & Hov). by rewrite (list_lookup_total_correct _ _ _ Hes).
Qed.

Lemma sum_fuel {A} (f : A -> nat) (R : A -> list entry -> Prop) ts tabs :
  (forall t es, R t es -> length es <= f t) -> Forall2 R ts tabs -> length (concat tabs) <= sum_list (f <$> ts).
Proof.
  intros HR. induction 1 as [|t es ts tabs Ht _ IH]; [done|]. rewrite fmap_cons. cbn [concat]. rewrite length_app.
  specialize (HR _ _ Ht). change (sum_list (f t :: (f <$> ts))) with (f t + sum_list (f <$> ts)). lia.
Qed.

Section Shows.
Context {d : db} {mem : list entry} {imms tabs : list (list entry)} {V : gmap bytes bytes} (Hd : shows d mem imms tabs V).

Lemma shows_sorted : Forall ik_sorted (tiers mem imms tabs).
Proof.
  destruct Hd as [Hm Hi Ht _ _ _ _]. unfold tiers. constructor; [by eapply mem_holds_sorted|]. apply Forall_app. split.
  - apply Forall_reverse. eapply Forall2_Forall_r; [exact Hi|]. apply Forall_forall. intros m _ es. apply mem_holds_sorted.
  - eapply Forall2_Forall_r; [exact Ht|]. apply Forall_forall. intros t _ es. apply table_fine_sorted.
Qed.

Lemma shows_kinds : Forall kinds_ok (tiers mem imms tabs).
Proof.
  destruct Hd as [Hm Hi Ht _ _ _ _]. unfold tiers. constructor; [by apply Hm|]. apply Forall_app. split.
  - apply Forall_reverse. eapply Forall2_Forall_r; [exact Hi|]. apply Forall_forall. by intros m _ es (_ & ? & _).
  - eapply Forall2_Forall_r; [exact Ht|]. apply Forall_forall. by intros t _ es [_ ?].
Qed.

Lemma imm_get_ok key ms es :
  Forall2 mem_holds ms es -> imm_get key (d_seq d) ms = Ret (tiers_get key (d_seq d) es).
Proof.
  induction 1 as [|m e ms es Hm _ IH]; [done|]. cbn [imm_get tiers_get]. rewrite (get_holds _ _ _ _ Hm (sh_max _ _ _ _ _ Hd)). cbn [mbind go_bind].
  by destruct (newest key (d_seq d) e).
Qed.

Lemma tables_get_ok key ts es :
  Forall2 table_fine ts es -> tables_get key (d_seq d) ts = Ret (tiers_get key (d_seq d) es).
Proof.
  induction 1 as [|t e ts es [Ht Hk] _ IH]; [done|]. cbn [tables_get tiers_get]. rewrite (table_get_holds _ _ _ _ Ht Hk (sh_max _ _ _ _ _ Hd)). cbn [mbind go_bind].
  by destruct (newest key (d_seq d) e).
Qed.

Lemma tiers_get_app key seq ts1 ts2 :
  tiers_get key seq (ts1 ++ ts2) = match tiers_get key seq ts1 with Absent => tiers_get key seq ts2 | r => r end.
Proof. induction ts1 as [|t ts IH]; [done|]. cbn [tiers_get app]. by destruct (newest key seq t). Qed.

Lemma db_Get_ok key :
  d_closed d = false -> db_Get key d = match V !! key with Some v => Ret v | None => Fail ErrNotFound end.
Proof.
  intros Hc. unfold db_Get. rewrite Hc. pose proof Hd as [Hm Hi Ht Ha Hs Hle Hmax].
  rewrite (get_holds _ _ _ _ Hm Hmax). cbn [mbind go_bind].
  rewrite <-(tiers_get_sees key (d_seq d) _ V shows_sorted Ha Hs Hle). unfold tiers. cbn [tiers_get]. rewrite tiers_get_app.
  rewrite (imm_get_ok key _ (reverse imms)) by (by apply Forall2_reverse). rewrite (tables_get_ok _ _ _ Ht).
  destruct (newest key (d_seq d) mem); cbn [mbind go_bind]; [done..|].
  destruct (tiers_get key (d_seq d) (reverse imms)); cbn [mbind go_bind]; [done..|].
  by destruct (tiers_get key (d_seq d) tabs).
Qed.

Lemma version_iters_ok :
  exists its, version_iters (d_cur d) = Ret its /\ it_over (newMergeIter its) (union (tiers mem imms tabs)).
Proof.
  pose proof Hd as [Hm Hi Ht Ha Hs Hle Hmax]. unfold version_iters. destruct (table_iters_ok _ _ Ht) as (its & -> & Hits). cbn [mbind go_bind].
  eexists. split; [done|]. apply merge_union; [|done|by apply (se_uniq _ _ Hs)].
  constructor; [by apply mem_iter_over|]. apply Forall2_app; [|done].
  apply Forall2_fmap_l. eapply Forall2_impl; [by apply Forall2_reverse|]. intros m es. apply mem_iter_over.
Qed.

Lemma union_kinds : kinds_ok (union (tiers mem imms tabs)).
Proof.
  apply Forall_forall. intros e He. rewrite union_perm in He. apply elem_of_concat in He as (t & He & Ht).
  pose proof shows_kinds as Hk. rewrite Forall_forall in Hk. specialize (Hk t Ht). by eapply Forall_forall in Hk.
Qed.

Lemma union_view : view_of (d_seq d) (union (tiers mem imms tabs)) = V.
Proof.
  pose proof Hd as [Hm Hi Ht Ha Hs Hle Hmax]. apply view_of_sees.
  - apply union_sorted; [apply shows_sorted|done|apply (se_uniq _ _ Hs)].
  - eapply sees_ext; [|exact Hs]. intros e. by rewrite union_perm.
  - intros e. rewrite union_perm. apply Hle.
Qed.

Lemma version_fuel_ok : length (union (tiers mem imms tabs)) <= version_fuel (d_cur d).
Proof.
  pose proof Hd as [Hm Hi Ht _ _ _ _]. rewrite (Permutation_length (union_perm _)). unfold tiers, version_fuel, tables_fuel. simpl.
  rewrite concat_app, !length_app. pose proof (mem_fuel_ok _ _ Hm).
  pose proof (sum_fuel mem_fuel mem_holds _ _ mem_fuel_ok Hi).
  assert (length (concat tabs) <= sum_list ((fun t => length (t_data t)) <$> v_tables (d_cur d))) as H3.
  { apply (sum_fuel _ table_fine); [|done]. intros t es [Hh _]. by apply table_fuel_ok. }
  assert (length (concat (reverse imms)) = length (concat imms)) as ->; [|lia].
  apply Permutation_length. by rewrite reverse_Permutation.
Qed.

Lemma db_Scan_ok start stop : d_closed d = false -> db_Scan start stop d = Ret (range start stop V).
Proof.
  intros Hc. unfold db_Scan. rewrite Hc. destruct version_iters_ok as (its & -> & Hov). cbn [mbind go_bind].
  rewrite (scan_iter_ok _ start stop _ _ _ Hov version_fuel_ok). f_equal. destruct (it_over_sorted _ _ Hov) as [Hs _].
  rewrite visible_range; [by rewrite union_view|done|apply union_kinds|apply (sh_max _ _ _ _ _ Hd)].
Qed.

(** An export is the table of the visible versions. *)
Lemma db_Export_ok io data :
  db_Export io d = Ret data -> snapshot_of (d_seq d) (union (tiers mem imms tabs)) data.
Proof.
  unfold db_Export. destruct (d_closed d); [done|]. destruct version_iters_ok as (its & -> & Hov). cbn [mbind go_bind].
  rewrite (exportIter_ok _ _ _ _ _ _ Hov version_fuel_ok). destruct (writeTable _ _) as [[m x]| |] eqn:Hw; cbn [mbind go_bind]; [|done..].
  intros [= <-]. by eexists _, _, _.
Qed.
End Shows.
