(* ===== verification/EngineInv.v ===== *)
(** * What holds of the engine

    The tiers in memory show a map; the memtables hold the records of their
    segments; and each manifest a crash may leave, with the log from where it
    says on, shows the same map. *)

From stdpp Require Import base list gmap sorting.
From S2P Require Import Prelude Codec Key Batch Bloom Wal WalRecords Iter Versions Skiplist SkipProofs Memtable Heap Merge Block SSTable TableWrite TableRead Db DbIter Tiers Export MemDB Manifest Version Engine EngineLog EngineRead.

(** * Writing the tables of the engine

    A rewrite puts what is [kept] of its entries into a new file. *)

Lemma readFooter_inv meta data bad t : readFooter meta data bad = Ret t -> t_meta t = meta /\ t_data t = data.
Proof.
  unfold readFooter. destruct (length data <? footerSize); [done|]. destruct (bad _); [done|]. destruct (negb _); [done|]. destruct (negb _); [done|].
  do 2 (match goal with |- (?x ≫= _) = _ -> _ => destruct x end; cbn [mbind go_bind]; [|done..]). by intros [= <-].
Qed.

Section Loop.
Context {I : Type} `{InternalIterOK I}.

Lemma table_loop_ok fuel drop last it w es p :
  it_at it es p -> length es - p <= fuel ->
  match write_all (kept drop last (list.drop p es)) w with
  | Ret w' => exists it', table_loop fuel drop last it w = Ret (it', w') /\ it_over it' es
  | Fail e => table_loop fuel drop last it w = Fail e
  | Panic => table_loop fuel drop last it w = Panic
  end.
Proof.
  revert last it w p. induction fuel as [|fuel IH]; intros last it w p Hat Hf; cbn [table_loop]; rewrite (it_valid_ok _ _ _ Hat);
    destruct (Nat.ltb_spec p (length es)) as [Hlt|Hge]; try lia;
    try (rewrite drop_ge by lia; exists it; split; [done|by eapply it_at_over]).
  destruct (lookup_lt_is_Some_2 es p Hlt) as [e He]. destruct (it_key_ok _ _ _ _ Hat He) as [-> Hv].
  destruct (it_over_sorted _ _ (it_at_over _ _ _ Hat)) as [_ Hwf]. cbn [mbind go_bind].
  rewrite split_key_wf by (by eapply Forall_lookup_1 in Hwf). cbn [mbind go_bind].
  destruct (it_next_ok _ _ _ Hat Hlt) as (m' & Hn & Hat'). rewrite (drop_S _ _ _ He). cbn [kept].
  destruct (bool_decide (userKey e.1 = last)); [|destruct (drop && _)].
  - rewrite Hn. cbn [mbind go_bind]. apply IH; [done|lia].
  - rewrite Hn. cbn [mbind go_bind]. apply IH; [done|lia].
  - cbn [write_all]. rewrite Hv. cbn [mbind go_bind]. destruct (tw_add e.1 e.2 w) as [w'| |]; cbn [mbind go_bind]; [|done..].
    rewrite Hn. cbn [mbind go_bind]. apply IH; [done|lia].
Qed.

Lemma fill_table_ok fuel drop it num bs io es :
  it_over it es -> length es <= fuel ->
  fill_table fuel drop it num bs io = (w ← newTableWriter num bs io; writeTable (kept drop [] es) w).
Proof.
  intros Hov Hf. unfold fill_table, writeTable. destruct (newTableWriter num bs io) as [w| |]; cbn [mbind go_bind]; [|done..].
  destruct (it_seekToFirst_ok _ _ Hov) as (it1 & -> & Hat). cbn [mbind go_bind].
  pose proof (table_loop_ok fuel drop [] it1 w es 0 Hat) as Hl. rewrite drop_0 in Hl.
  destruct (write_all _ _) as [w'| |]; cbn [mbind go_bind].
  - destruct Hl as (it' & -> & Hov'); [lia|]. cbn [mbind go_bind]. by rewrite (it_close_ok _ _ Hov').
  - rewrite Hl by lia. done.
  - rewrite Hl by lia. done.
Qed.

Definition files_small (files : gmap N bytes) : Prop := forall n data, files !! n = Some data -> (N.of_nat (length data) < w32)%N.

Lemma newTableWriter_inv num bs io w : newTableWriter num bs io = Ret w -> exists io', w = freshWriter true num bs io'.
Proof. unfold newTableWriter. intros Hc. apply io_call_inv in Hc as [io' ->]. by exists io'. Qed.

(** The outcome of a rewrite: nothing but the counter and at most the new file
    change, and a table that comes back holds what is kept. *)
Record wrote (d : db) (out : list entry) (r : go (option table)) (d' : db) (files : gmap N bytes) : Prop := {
  wr_state : d' = set_files files (set_nextNum (u64 (d_nextNum d + 1)) d);
  wr_files : d_files d ⊆ files;
  wr_new : forall n, is_Some (files !! n) -> is_Some (d_files d !! n) \/ n = d_nextNum d;
  wr_none : r = Ret None -> out = [];
  wr_some : forall t, r = Ret (Some t) ->
    table_holds t out /\ out <> [] /\ t_num t = d_nextNum d /\ files !! t_num t = Some (t_data t) /\ d_files d !! t_num t = None;
}.

Lemma writeTableFiltered_ok fuel io it drop d es d' r :
  it_over it es -> length es <= fuel -> writeTableFiltered fuel io it drop d = (d', r) -> files_small (d_files d') ->
  wrote d (kept drop [] es) r d' (d_files d').
Proof.
  intros Hov Hf. unfold writeTableFiltered. cbn [d_files set_nextNum d_opts]. destruct (d_files d !! d_nextNum d) as [data0|] eqn:E0.
  { intros [= <- <-] _. split; try done. by left. }
  rewrite (fill_table_ok _ _ _ _ _ _ _ Hov Hf). set (out := kept drop [] es).
  destruct (newTableWriter _ _ _) as [w| |] eqn:Ew; cbn [mbind go_bind]; [|intros [= <- <-] _; (split; try done; by left)..].
  apply newTableWriter_inv in Ew as [io' ->].
  destruct (writeTable out _) as [[meta data]| |] eqn:Ew; [|intros [= <- <-] _; (split; try done; by left)..].
  pose proof (writeTable_inv _ _ _ _ _ _ _ Ew) as (chunks & bloom & Hch & _ & _ & _ & Hm).
  assert (ik_sorted out /\ keys_wf out) as [Hs Hwf].
  { destruct (it_over_sorted _ _ Hov) as [Hs Hwf]. split; [eapply sorted_sublist; [apply kept_sublist|done]|].
    apply Forall_forall. intros e He%kept_elem. by eapply Forall_forall in Hwf. }
  destruct (N.eqb_spec (tm_count meta) 0) as [Hc|Hc].
  { intros [= <- <-] _. split; try done; [by left|]. intros _. rewrite Hm in Hc. simpl in Hc. destruct out; [done|]. exfalso. simpl in Hc. lia. }
  assert (d_files d ⊆ <[d_nextNum d := data]> (d_files d)) as Hsub by (by apply insert_subseteq).
  assert (forall n, is_Some (<[d_nextNum d := data]> (d_files d) !! n) -> is_Some (d_files d !! n) \/ n = d_nextNum d) as Hnew.
  { intros n. destruct (decide (n = d_nextNum d)) as [->|Hne]; [by right|]. rewrite lookup_insert_ne by done. by left. }
  destruct (tio_open io).
  - intros [= <- <-] Hsm. assert (N.of_nat (length data) < w32)%N as Hlen by (apply (Hsm (d_nextNum d)); simpl; apply lookup_insert_eq).
    destruct (open_holds _ _ _ _ _ _ _ meta (fun _ => false) Hs Hwf Ew Hlen) as (t & Ht & Hh); [done|]. unfold openTable. rewrite Ht.
    split; [done|done|exact Hnew|done|]. intros t' [= <-]. apply readFooter_inv in Ht as [Htm Htd].
    assert (t_num t = d_nextNum d) as Hn by (unfold t_num; by rewrite Htm, Hm).
    rewrite Hn, Htd. split_and!; [done| |done|simpl; apply lookup_insert_eq|done].
    intros E. rewrite E in Hm. rewrite Hm in Hc. done.
  - intros [= <- <-] _. by split.
Qed.
End Loop.

(** ** The log *)

Record logged (w : WAL) (k : N) (G : list record) (ps : list bytes) : Prop := {
  lg_glog : glog G;
  lg_inv : wal_inv w (log_bytes G);
  lg_most : at_most w (log_bytes G) ps;
  lg_keeps : keeps k w (log_bytes G);
}.

(** No append has failed. *)
Record healthy (w : WAL) (G : list record) : Prop := {
  hl_clean : wal_clean w;
  hl_holds : WalRecords.holds w (log_bytes G);
}.

Definition in_seg (s : N) (G : list record) : list record := filter (fun r => r.1 = s) G.

Definition mem_segs (v : version) : list N := (mt_seg <$> v_imm v) ++ [mt_seg (v_mem v)].

Definition seg_entries (m : memtable) (es : list entry) (G : list record) : Prop :=
  forall e, e ∈ es <-> e ∈ log_entries (in_seg (mt_seg m) G).

Record segmented (d : db) (k : N) (mem : list entry) (imms : list (list entry)) (G : list record) : Prop := {
  sg_sorted : StronglySorted N.lt (mem_segs (d_cur d));
  sg_cur : (mt_seg (v_mem (d_cur d)) <= w_seg (d_wal d))%N;
  sg_low : (k <= oldestSegment d)%N;
  sg_mem : seg_entries (v_mem (d_cur d)) mem G;
  sg_imm : Forall2 (fun m es => seg_entries m es G) (v_imm (d_cur d)) imms;
  sg_cover : forall r, r ∈ G -> (oldestSegment d <= r.1)%N -> r.1 ∈ mem_segs (d_cur d);
  sg_ends : forall r, r ∈ G -> (rec_end r <= d_seq d + 1)%N;
}.

(** ** A manifest on disk *)

Definition on_disk (files : gmap N bytes) (meta : tableMeta) (es : list entry) : Prop :=
  exists t, files !! tm_num meta = Some (t_data t) /\ table_fine t es.

Definition disk_tiers (M : manifest) (G : list record) (mtabs : list (list entry)) : list (list entry) :=
  log_entries (from (mf_logNum M) G) :: mtabs.

Record durable (d : db) (k : N) (G : list record) (V : gmap bytes bytes) (M : manifest) (mtabs : list (list entry)) : Prop := {
  du_tabs : Forall2 (on_disk (d_files d)) (mf_tables M) mtabs;
  du_aged : aged (disk_tiers M G mtabs);
  du_sees : sees (fun e => e ∈ concat (disk_tiers M G mtabs)) V;
  du_last : forall e, e ∈ concat mtabs -> (ik_seq e.1 <= mf_lastSeq M)%N;
  du_seq : (mf_lastSeq M <= d_seq d)%N;
  du_low : (k <= mf_logNum M)%N;
  du_high : (mf_logNum M <= mt_seg (v_mem (d_cur d)))%N;
  du_nums : Forall (fun meta => tm_num meta < mf_nextNum M)%N (mf_tables M);
  du_next : (mf_nextNum M <= d_nextNum d)%N;
  du_nodup : NoDup (tm_num <$> mf_tables M);
  du_gone : forall n, n ∈ d_gone d -> n ∉ tm_num <$> mf_tables M;
}.

(** The manifest a crash may leave. *)
Definition may_read (d : db) (b : option bytes) : Prop := b = md_file (d_man d) \/ b = md_durable (d_man d).

(** ** The whole *)

Record stored (d : db) (tabs : list (list entry)) : Prop := {
  st_files : Forall (fun t => d_files d !! t_num t = Some (t_data t)) (v_tables (d_cur d));
  st_nodup : nums_distinct (v_tables (d_cur d));
  st_next : forall n, is_Some (d_files d !! n) -> (n < d_nextNum d)%N;
  st_gone : forall n, n ∈ d_gone d -> (n ∉ t_num <$> v_tables (d_cur d)) /\ (n < d_nextNum d)%N;
  st_wide : (d_nextNum d < w64)%N;
  st_flushed : forall e, e ∈ concat tabs -> (ik_seq e.1 <= d_flushedSeq d)%N;
  st_seq : (d_flushedSeq d <= d_seq d)%N;
  st_max : Forall (fun m => mt_maxSeq m <= d_seq d)%N (v_mem (d_cur d) :: v_imm (d_cur d));
}.

Record ecore (d : db) (k : N) (mem : list entry) (imms tabs : list (list entry)) (G : list record) (V : gmap bytes bytes) : Prop := {
  ec_shows : shows d mem imms tabs V;
  ec_segs : segmented d k mem imms G;
  ec_stored : stored d tabs;
  ec_man : forall b, may_read d b -> exists M mtabs, readManifest b = Ret M /\ durable d k G V M mtabs;
}.

Record einv (d : db) (k : N) (mem : list entry) (imms tabs : list (list entry)) (G : list record) (ps : list bytes) (V : gmap bytes bytes) : Prop := {
  ei_core : ecore d k mem imms tabs G V;
  ei_logged : logged (d_wal d) k G ps;
}.

(** ** Log and memtables *)

Lemma Forall2_impl_elem {A B} (P Q : A -> B -> Prop) l l' :
  Forall2 P l l' -> (forall x y, x ∈ l -> P x y -> Q x y) -> Forall2 Q l l'.
Proof. induction 1 as [|x y l l' Hxy _ IH]; intros H; constructor; [apply H; [set_solver|done]|]. apply IH. intros. apply H; [set_solver|done]. Qed.

Lemma elem_in_seg s G r : r ∈ in_seg s G <-> r ∈ G /\ r.1 = s.
Proof. unfold in_seg. rewrite list_elem_of_filter. tauto. Qed.

Lemma elem_from k (G : list record) r : r ∈ from k G <-> r ∈ G /\ (k <= r.1)%N.
Proof. unfold from. rewrite list_elem_of_filter. tauto. Qed.

Lemma mem_segs_le v s : StronglySorted N.lt (mem_segs v) -> s ∈ mem_segs v -> (s <= mt_seg (v_mem v))%N.
Proof.
  unfold mem_segs. intros (H & _ & _)%StronglySorted_app [Hs|Hs%list_elem_of_singleton]%elem_of_app; [|by rewrite Hs].
  specialize (H s (mt_seg (v_mem v)) Hs ltac:(set_solver)). lia.
Qed.

Lemma oldest_le d s : StronglySorted N.lt (mem_segs (d_cur d)) -> s ∈ mem_segs (d_cur d) -> (oldestSegment d <= s)%N.
Proof.
  unfold oldestSegment, mem_segs. destruct (v_imm (d_cur d)) as [|m ms]; simpl.
  - intros _ ->%list_elem_of_singleton. done.
  - intros [_ Hall]%StronglySorted_inv [->|Hs]%elem_of_cons; [done|]. rewrite Forall_forall in Hall. specialize (Hall s Hs). lia.
Qed.

(** The log from the oldest segment on is what the memtables hold. *)
Lemma log_from_oldest d k mem imms G e :
  segmented d k mem imms G -> e ∈ log_entries (from (oldestSegment d) G) <-> e ∈ mem \/ e ∈ concat imms.
Proof.
  intros [Hs Hc Hl Hm Hi Hcov Hends]. rewrite elem_log_entries, elem_of_concat. split.
  - intros (r & [Hr Hle]%elem_from & He). specialize (Hcov r Hr Hle) as Hin. unfold mem_segs in Hin.
    apply elem_of_app in Hin as [(m & Hm1 & Hin)%list_elem_of_fmap|Hin%list_elem_of_singleton].
    + right. apply list_elem_of_lookup_1 in Hin as [i Hin]. destruct (Forall2_lookup_l _ _ _ _ _ Hi Hin) as (es & Hes & Hse).
      exists es. split; [|by eapply list_elem_of_lookup_2]. apply Hse, elem_log_entries. exists r. by rewrite elem_in_seg.
    + left. apply Hm, elem_log_entries. exists r. by rewrite elem_in_seg.
  - intros [He|(es & He & Hes)].
    + apply Hm, elem_log_entries in He as (r & [Hr Hseg]%elem_in_seg & He). exists r. split; [|done]. apply elem_from. split; [done|].
      rewrite Hseg. apply oldest_le; [done|]. unfold mem_segs. set_solver.
    + apply list_elem_of_lookup_1 in Hes as [i Hes]. destruct (Forall2_lookup_r _ _ _ _ _ Hi Hes) as (m & Hm1 & Hse).
      apply Hse, elem_log_entries in He as (r & [Hr Hseg]%elem_in_seg & He). exists r. split; [|done]. apply elem_from. split; [done|].
      rewrite Hseg. apply oldest_le; [done|]. unfold mem_segs. apply elem_of_app. left. apply list_elem_of_fmap_2. by eapply list_elem_of_lookup_2.
Qed.

(** Without the oldest frozen memtable. *)
Lemma log_after_oldest d k mem m ms es imms G e :
  segmented d k mem (es :: imms) G -> v_imm (d_cur d) = m :: ms ->
  e ∈ log_entries (from (mt_seg m + 1) G) <-> e ∈ mem \/ e ∈ concat imms.
Proof.
  intros Hsg Hv. set (d' := set_cur (newVersion (v_mem (d_cur d)) ms (v_tables (d_cur d))) d).
  assert (segmented d' k mem imms G /\ oldestSegment d' ∈ mem_segs (d_cur d')) as [Hsg' Hold].
  { destruct Hsg as [Hs Hc Hl Hm Hi Hcov Hends]. rewrite Hv in *. unfold mem_segs in Hs. rewrite Hv in Hs. cbn [fmap list_fmap app] in Hs.
    apply StronglySorted_inv in Hs as [Hs Hall]. rewrite Forall_forall in Hall.
    assert (oldestSegment d' ∈ mem_segs (d_cur d')) as Hin.
    { unfold oldestSegment, mem_segs. simpl. destruct ms; set_solver. }
    assert (mt_seg m < oldestSegment d')%N as Hlt by (apply Hall; exact Hin).
    assert (oldestSegment d = mt_seg m) as Ho by (unfold oldestSegment; by rewrite Hv).
    split; [|done]. inversion Hi; subst. split; try done; [lia|].
    intros r Hr Hle. specialize (Hcov r Hr). rewrite Ho in Hcov. specialize (Hcov ltac:(lia)). unfold mem_segs in Hcov. rewrite Hv in Hcov.
    cbn [fmap list_fmap app] in Hcov. apply elem_of_cons in Hcov as [E|?]; [|done]. lia. }
  rewrite <-(log_from_oldest d' k mem imms G e Hsg'). rewrite !elem_log_entries. split; intros (r & [Hr Hle]%elem_from & He); exists r; (split; [|done]); apply elem_from; (split; [done|]).
  - destruct Hsg as [Hs _ _ _ _ Hcov _]. specialize (Hcov r Hr). unfold oldestSegment in Hcov. rewrite Hv in Hcov. specialize (Hcov ltac:(lia)).
    unfold mem_segs in Hcov. rewrite Hv in Hcov. cbn [fmap list_fmap app] in Hcov. apply elem_of_cons in Hcov as [E|Hin]; [lia|].
    apply oldest_le; [apply (sg_sorted _ _ _ _ _ Hsg')|exact Hin].
  - pose proof (sg_sorted _ _ _ _ _ Hsg) as Hs. unfold mem_segs in Hs. rewrite Hv in Hs. cbn [fmap list_fmap app] in Hs.
    apply StronglySorted_inv in Hs as [_ Hall]. rewrite Forall_forall in Hall. specialize (Hall _ Hold). lia.
Qed.

(** Records are no newer than the memtable in use. *)
Lemma records_below d k mem imms G r :
  segmented d k mem imms G -> r ∈ G -> (r.1 <= mt_seg (v_mem (d_cur d)))%N.
Proof.
  intros [Hs _ _ _ _ Hcov _] Hr. destruct (N.le_gt_cases (oldestSegment d) r.1) as [Hle|Hlt].
  - by apply mem_segs_le; [|apply Hcov].
  - assert (oldestSegment d <= mt_seg (v_mem (d_cur d)))%N; [|lia]. apply oldest_le; [done|]. unfold mem_segs. set_solver.
Qed.

(** A change of the log alone. *)
Lemma ecore_wal d k mem imms tabs G V w :
  ecore d k mem imms tabs G V -> (w_seg (d_wal d) <= w_seg w)%N -> ecore (set_wal w d) k mem imms tabs G V.
Proof.
  intros [Hsh Hsg Hst Hman] Hle. split.
  - by destruct Hsh.
  - destruct Hsg. split; try done. simpl. lia.
  - by destruct Hst.
  - intros b Hb. destruct (Hman b Hb) as (M & mtabs & HM & []). exists M, mtabs. split; [done|]. by split.
Qed.
