(* ===== verification/EngineCommit.v ===== *)
(** * Commits preserve the invariant *)

From stdpp Require Import base list gmap sorting.
From S2P Require Import Prelude Codec Key Batch Bloom Wal WalRecords Iter Versions Skiplist SkipProofs Memtable Heap Merge Block SSTable TableWrite TableRead Db DbIter Tiers Export MemDB Manifest Version Engine EngineLog EngineRead EngineInv.

(** A fresh memtable for a new segment. *)
Lemma fresh_mem_core d k mem imms tabs G V seed seg :
  ecore d k mem imms tabs G V -> (mt_seg (v_mem (d_cur d)) < seg)%N -> (seg <= w_seg (d_wal d))%N ->
  ecore (set_cur (withMemtable (newMemtable seed seg) (d_cur d)) d) k [] (imms ++ [mem]) tabs G V.
Proof.
  intros [Hsh Hsg Hst Hman] Hlt Hle. assert (tiers [] (imms ++ [mem]) tabs = [] :: tiers mem imms tabs) as Ht.
  { unfold tiers. by rewrite reverse_snoc. }
  assert (oldestSegment (set_cur (withMemtable (newMemtable seed seg) (d_cur d)) d) = oldestSegment d) as Ho.
  { unfold oldestSegment. simpl. by destruct (v_imm (d_cur d)). }
  assert (mem_segs (withMemtable (newMemtable seed seg) (d_cur d)) = mem_segs (d_cur d) ++ [seg]) as Hms.
  { unfold mem_segs. simpl. by rewrite fmap_app. }
  split.
  - destruct Hsh as [Hm Hi Htab Ha Hs Hq Hmax]. split; rewrite ?Ht; try done.
    + apply new_mem_holds.
    + simpl. apply Forall2_app; [done|]. by constructor.
    + constructor; [done|]. apply Forall_forall. intros t _ e1 e2 He1. set_solver.
  - pose proof Hsg as [Hs Hc Hl Hm Hi Hcov Hends]. split; rewrite ?Ho; try done; simpl.
    + rewrite Hms. apply StronglySorted_app. split_and!; [|done|by repeat constructor].
      intros s s' Hs1 ->%list_elem_of_singleton. pose proof (mem_segs_le _ _ Hs Hs1). lia.
    + intros e. split; [set_solver|]. intros (r & [Hr Hrs]%elem_in_seg & _)%elem_log_entries. exfalso. simpl in Hrs.
      pose proof (records_below _ _ _ _ _ _ Hsg Hr). lia.
    + apply Forall2_app; [done|]. by constructor.
    + intros r Hr Hle'. rewrite Hms. apply elem_of_app. left. by apply Hcov.
  - destruct Hst as [? ? ? ? ? ? ? Hmx]. split; try done. simpl. constructor; [simpl; lia|]. inversion Hmx; subst. apply Forall_app. split; [done|]. by constructor.
  - intros b Hb. destruct (Hman b Hb) as (M & mtabs & HM & []). exists M, mtabs. split; [done|]. split; try done. simpl. lia.
Qed.

Lemma in_seg_app s G1 G2 : in_seg s (G1 ++ G2) = in_seg s G1 ++ in_seg s G2.
Proof. apply filter_app. Qed.

Lemma in_seg_group seg first group : in_seg seg (group_records seg first group) = group_records seg first group.
Proof. apply filter_all, Forall_forall. intros r [Hr _]%group_records_from. done. Qed.

Lemma in_seg_group_ne s seg first group : s <> seg -> in_seg s (group_records seg first group) = [].
Proof.
  intros Hne. apply elem_of_nil_inv. intros r [Hr Hs]%elem_in_seg. apply group_records_from in Hr as [? _]. congruence.
Qed.

Lemma from_group (k seg first : N) group : (k <= seg)%N -> from k (group_records seg first group) = group_records seg first group.
Proof. intros Hle. apply filter_all, Forall_forall. intros r [Hr _]%group_records_from. by rewrite Hr. Qed.

(** The entries of a group go to the tier in front. *)
Lemma grow_front ops s mem mem' ts V :
  sees (fun e => e ∈ concat (mem :: ts)) V -> aged (mem :: ts) -> (forall e, e ∈ mem' <-> e ∈ ops_entries s ops \/ e ∈ mem) ->
  (forall e, e ∈ concat (mem :: ts) -> (ik_seq e.1 < s)%N) -> (s + N.of_nat (length ops) <= maxSeq)%N -> Forall op_fine ops ->
  sees (fun e => e ∈ concat (mem' :: ts)) (apply_ops ops V) /\ aged (mem' :: ts).
Proof.
  intros Hs Ha Hmem Hlt Hb Hf. split.
  - pose proof (sees_ops ops _ V s Hs Hlt Hb Hf) as H. eapply sees_ext; [|exact H]. intros e. cbn [concat]. rewrite !elem_of_app, Hmem. tauto.
  - apply StronglySorted_inv in Ha as [Ha Hall]. constructor; [done|]. rewrite Forall_forall in *. intros t Ht e1 e2 He1 He2.
    apply Hmem in He1 as [He1|He1]; [|by apply (Hall t Ht)]. apply ops_entries_seq in He1; [|done].
    assert (ik_seq e2.1 < s)%N; [|lia]. apply Hlt. cbn [concat]. apply elem_of_app. right. apply elem_of_concat. eauto.
Qed.

(** The same on disk: the records of a group go to the log. *)
Lemma disk_grow M mtabs G V seg first group :
  aged (disk_tiers M G mtabs) -> sees (fun e => e ∈ concat (disk_tiers M G mtabs)) V ->
  (forall e, e ∈ concat (disk_tiers M G mtabs) -> (ik_seq e.1 < first)%N) -> (mf_logNum M <= seg)%N ->
  (first + N.of_nat (length (group_ops group)) <= maxSeq)%N -> Forall op_fine (group_ops group) ->
  let G' := G ++ group_records seg first group in
  sees (fun e => e ∈ concat (disk_tiers M G' mtabs)) (apply_ops (group_ops group) V) /\ aged (disk_tiers M G' mtabs).
Proof.
  intros Ha Hs Hlt Hle Hb Hf. cbv zeta.
  assert (disk_tiers M (G ++ group_records seg first group) mtabs = (log_entries (from (mf_logNum M) G) ++ ops_entries first (group_ops group)) :: mtabs) as ->.
  { unfold disk_tiers, from. rewrite filter_app. fold (from (mf_logNum M) (group_records seg first group)). rewrite (from_group _ _ _ _ Hle).
    by rewrite log_entries_app, group_records_entries. }
  apply (grow_front (group_ops group) first (log_entries (from (mf_logNum M) G))); try done. intros e. rewrite elem_of_app. tauto.
Qed.

Lemma disk_seq d k mem imms G V M mtabs e :
  segmented d k mem imms G -> Forall rec_ok G -> durable d k G V M mtabs -> e ∈ concat (disk_tiers M G mtabs) -> (ik_seq e.1 < d_seq d + 1)%N.
Proof.
  intros Hsg Hok Hdu [He|He]%elem_of_app.
  - apply elem_log_entries in He as (r & [Hr _]%elem_from & He). apply rec_entries_seq in He; [|by eapply Forall_forall in Hok].
    pose proof (sg_ends _ _ _ _ _ Hsg r Hr). lia.
  - pose proof (du_last _ _ _ _ _ _ Hdu e He). pose proof (du_seq _ _ _ _ _ _ Hdu). lia.
Qed.

Lemma group_fine (first : N) group : Forall rec_ok (group_records 0 first group) -> Forall op_fine (group_ops group).
Proof.
  revert first. unfold group_ops. induction group as [|b bs IH]; intros s; cbn [group_records fmap list_fmap concat]; [constructor|].
  intros [[Ho _ _ _ _] H]%Forall_cons. apply Forall_app. split; [exact Ho|]. by eapply IH.
Qed.

Section Put.
Context {d : db} {k : N} {mem : list entry} {imms tabs : list (list entry)} {G : list record} {V : gmap bytes bytes}.
Context (Hc : ecore d k mem imms tabs G V) (Hok : Forall rec_ok G).
Context {group : list Batch} {seg : N}.
Context (Hseg : mt_seg (v_mem (d_cur d)) = seg) (Hrecs : Forall rec_ok (group_records 0 (d_seq d + 1) group)).
Context (Hfit : (d_seq d + N.of_nat (length (group_ops group)) < maxSeq)%N).

Definition committed (m : memtable) : db := set_seq (d_seq d + N.of_nat (length (group_ops group))) (set_mem m d).

Lemma put_group_core :
  exists m' mem', put_ops (d_seq d + 1) (group_ops group) (v_mem (d_cur d)) = Ret m' /\
    ecore (committed m') k mem' imms tabs (G ++ group_records seg (d_seq d + 1) group) (apply_ops (group_ops group) V) /\
    mt_seg m' = mt_seg (v_mem (d_cur d)).
Proof.
  destruct Hc as [Hsh Hsg Hst Hman]. pose proof Hsh as [Hm Hi Ht Ha Hs Hq Hmax].
  assert (forall e, e ∈ concat (tiers mem imms tabs) -> (ik_seq e.1 < d_seq d + 1)%N) as Hlt by (intros e He; specialize (Hq e He); lia).
  destruct (put_ops_ok (group_ops group) (d_seq d + 1) (v_mem (d_cur d)) mem (d_seq d + N.of_nat (length (group_ops group))) Hm) as (m' & mem' & Hp & Hm' & Hmem' & Hseg' & Hmx);
    [intros e He; apply Hlt; unfold tiers; set_solver|lia|by eapply group_fine|pose proof (st_max _ _ Hst) as Hx; apply Forall_cons in Hx as [Hx _]; lia|lia|].
  exists m', mem'. split; [done|]. split; [|done]. split.
  - destruct (grow_front (group_ops group) (d_seq d + 1) mem mem' (reverse imms ++ tabs) V Hs Ha Hmem' Hlt) as [Hs' Ha']; [lia|by eapply group_fine|].
    split; try done. simpl. intros e. unfold tiers in *. cbn [concat] in *. rewrite elem_of_app, Hmem'.
    assert (e ∈ mem \/ e ∈ concat (reverse imms ++ tabs) -> (ik_seq e.1 <= d_seq d + N.of_nat (length (group_ops group)))%N) as Hold.
    { intros He. etrans; [apply Hq; by apply elem_of_app|lia]. }
    intros [[He|He]|He]; [apply ops_entries_seq in He; lia|apply Hold; tauto..].
  - pose proof Hsg as [Hss Hcu Hl Hsm Hsi Hcov Hends]. unfold mem_segs in Hss.
    assert (mem_segs (d_cur (committed m')) = mem_segs (d_cur d)) as Hms by (unfold mem_segs; simpl; by rewrite Hseg').
    assert (oldestSegment (committed m') = oldestSegment d) as Ho by (unfold oldestSegment; simpl; by rewrite Hseg').
    split; rewrite ?Hms, ?Ho; try done; simpl.
    + by rewrite Hseg'.
    + intros e. rewrite Hseg', Hseg, in_seg_app, in_seg_group, log_entries_app, elem_of_app, group_records_entries, Hmem', (Hsm e), Hseg. tauto.
    + eapply Forall2_impl_elem; [exact Hsi|]. intros m es Hin He e. rewrite (He e), in_seg_app, in_seg_group_ne, app_nil_r; [done|].
      apply StronglySorted_app in Hss as (Hss & _ & _). specialize (Hss (mt_seg m) (mt_seg (v_mem (d_cur d)))). rewrite <-Hseg.
      enough (mt_seg m < mt_seg (v_mem (d_cur d)))%N by lia. apply Hss; [by apply list_elem_of_fmap_2|set_solver].
    + intros r [Hr|Hr]%elem_of_app Hle; [by apply Hcov|]. apply group_records_from in Hr as [-> _]. rewrite <-Hseg. unfold mem_segs. set_solver.
    + intros r [Hr|Hr]%elem_of_app; [specialize (Hends r Hr); lia|]. apply group_records_end in Hr. lia.
  - destruct Hst as [H1 H2 H3 H4 H5 H6 H7 H8]. split; try done; simpl; [lia|]. apply Forall_cons in H8 as [_ H8]. constructor; [lia|].
    eapply Forall_impl; [exact H8|]. simpl. intros. lia.
  - intros b Hb. destruct (Hman b Hb) as (M & mtabs & HM & Hdu). exists M, mtabs. split; [done|].
    destruct (disk_grow M mtabs G V seg (d_seq d + 1) group) as [Hs' Ha'];
      [apply Hdu|apply Hdu|intros e; by eapply disk_seq|rewrite <-Hseg; apply Hdu|lia|by eapply group_fine|].
    destruct Hdu. split; try done; simpl; [lia|by rewrite Hseg'].
Qed.
End Put.

(** ** The whole commit *)

Definition group_fits (d : db) (group : list Batch) : Prop :=
  Forall rec_ok (group_records 0 (d_seq d + 1) group) /\ (d_seq d + N.of_nat (length (group_ops group)) < maxSeq)%N.

Definition payloads (d : db) (group : list Batch) : list bytes := (log_bytes (group_records 0 (d_seq d + 1) group)).*2.

Lemma glog_group G seg first group :
  glog G -> (forall r, r ∈ G -> (rec_end r <= first)%N) -> (forall r, r ∈ G -> (r.1 <= seg)%N) ->
  Forall rec_ok (group_records 0 first group) -> glog (G ++ group_records seg first group).
Proof.
  intros [Hok Hseq Hseg] Hend Hle Hrecs. split.
  - apply Forall_app. split; [done|]. by eapply group_records_seg.
  - apply StronglySorted_app. split_and!; [|done|apply group_records_sorted].
    intros r1 r2 Hr1 [_ Hr2]%group_records_from. specialize (Hend r1 Hr1). unfold rec_before. lia.
  - rewrite fmap_app. apply StronglySorted_app. split_and!; [|done|].
    + intros s1 s2 (r1 & -> & Hr1)%list_elem_of_fmap (r2 & -> & [-> _]%group_records_from)%list_elem_of_fmap. by apply Hle.
    + assert (forall first, StronglySorted N.le (group_records seg first group).*1) as H; [|apply H].
      clear. induction group as [|b bs IH]; intros first; cbn [group_records fmap list_fmap]; constructor; [apply IH|].
      apply Forall_forall. intros s (r & -> & [-> _]%group_records_from)%list_elem_of_fmap. simpl. lia.
Qed.

Lemma payloads_ok d group : group_fits d group -> Forall payload_ok (payloads d group).
Proof.
  intros [Hr _]. unfold payloads, log_bytes. apply Forall_fmap, Forall_fmap. eapply Forall_impl; [exact Hr|].
  intros r [_ _ _ Hs _]. split; [|exact Hs]. simpl. pose proof (encode_nonempty (mkBatch r.2.2 0) r.2.1). lia.
Qed.

(** Every segment in use is there. *)
Lemma keeps_cur k w G ps : logged w k G ps -> is_Some (w_dir w !! w_seg w).
Proof. intros [_ Hinv _ _]. destruct (inv_cur _ _ Hinv) as (f & Hf & _). eauto. Qed.

Lemma rotate_logged os w k G w' r :
  logged w k G [] -> healthy w G -> Rotate os w = (w', r) ->
  (forall ps, logged w' k G ps) /\ (w_seg w <= w_seg w')%N /\ (forall s, r = Ret s -> healthy w' G).
Proof.
  intros Hl [Hcl Hh] Hr. pose proof Hl as [Hg Hinv Hat Hk].
  destruct (clean_Rotate _ _ _ _ _ Hinv Hcl Hh Hr) as (Hinv' & Hh' & Hgr & Hc'). split_and!.
  - intros ps. split; [done|done|by apply holds_at_most|]. eapply keeps_grows; [done..|]. by eapply keeps_cur.
  - apply Hgr.
  - intros s E. split; [by eapply Hc'|done].
Qed.

(** What a commit leaves alone. *)
Record commit_frame (d d' : db) (imms imms' : list (list entry)) : Prop := {
  cf_man : d_man d' = d_man d;
  cf_files : d_files d' = d_files d;
  cf_gone : d_gone d' = d_gone d;
  cf_next : d_nextNum d' = d_nextNum d;
  cf_tables : v_tables (d_cur d') = v_tables (d_cur d);
  cf_imm : exists ms ess, v_imm (d_cur d') = v_imm (d_cur d) ++ ms /\ imms' = imms ++ ess;
  cf_closed : d_closed d' = d_closed d;
  cf_flushed : d_flushedSeq d' = d_flushedSeq d;
  cf_oldest : oldestSegment d' = oldestSegment d;
}.

Lemma commit_frame_refl d w imms : commit_frame d (set_wal w d) imms imms.
Proof. split; try done. exists [], []. simpl. by rewrite !app_nil_r. Qed.

Definition commit_post (d : db) (k : N) (mem : list entry) (imms tabs : list (list entry)) (G : list record) (V : gmap bytes bytes)
    (group : list Batch) (d' : db) (r : go unit) : Prop :=
  (r = Ret tt /\ exists mem' imms' seg, let G' := G ++ group_records seg (d_seq d + 1) group in
    einv d' k mem' imms' tabs G' [] (apply_ops (group_ops group) V) /\ healthy (d_wal d') G' /\ commit_frame d d' imms imms') \/
  (r <> Ret tt /\ einv d' k mem imms tabs G (payloads d group) V /\ commit_frame d d' imms imms /\ d_seq d' = d_seq d).

Section Commit.
Context {d : db} {k : N} {mem : list entry} {imms tabs : list (list entry)} {G : list record} {V : gmap bytes bytes}.
Context (He : einv d k mem imms tabs G [] V) (Hh : healthy (d_wal d) G) {group : list Batch} (Hfit : group_fits d group).

Lemma failed_post w r :
  r <> Ret tt -> logged w k G (payloads d group) -> (w_seg (d_wal d) <= w_seg w)%N -> commit_post d k mem imms tabs G V group (set_wal w d) r.
Proof.
  intros Hr Hl Hle. right. split; [done|]. split; [|split; [apply commit_frame_refl|done]]. split; [|done]. apply ecore_wal; [apply He|done].
Qed.

Lemma logged_weaken w ps : logged w k G [] -> healthy w G -> logged w k G ps.
Proof. intros [? ? ? ?] [_ Hho]. split; try done. by apply holds_at_most. Qed.

(** After the append. *)
Lemma append_post io w1 w2 r :
  logged w1 k G [] -> healthy w1 G -> (w_seg (d_wal d) <= w_seg w1)%N -> Append (ci_append io) (payloads d group) w1 = (w2, r) ->
  match r with
  | Ret seg => exists G', G' = G ++ group_records seg (d_seq d + 1) group /\ seg = w_seg w2 /\
      logged w2 k G' [] /\ healthy w2 G' /\ (w_seg w1 <= w_seg w2)%N
  | _ => logged w2 k G (payloads d group) /\ (w_seg w1 <= w_seg w2)%N
  end.
Proof.
  intros Hl [Hcl Hho] Hle HA. pose proof Hl as [Hg Hinv Hat Hk].
  destruct (clean_Append _ _ _ _ _ _ Hinv Hcl Hho (payloads_ok _ _ Hfit) HA) as (Hinv' & Hat' & Hgr & Hret).
  assert (keeps k w2 (log_bytes G)) as Hk2 by (eapply keeps_grows; [done..|by eapply keeps_cur]).
  destruct r as [seg|e|].
  - destruct (Hret seg eq_refl) as (-> & Hc2 & Hh2 & Hi2). exists (G ++ group_records (w_seg w2) (d_seq d + 1) group). split; [done|]. split; [done|].
    assert (log_bytes (G ++ group_records (w_seg w2) (d_seq d + 1) group) = log_bytes G ++ (pair (w_seg w2) <$> payloads d group)) as HG.
    { rewrite log_bytes_app. f_equal. apply group_records_bytes. }
    split_and!; [|by split; rewrite ?HG|apply Hgr]. split; rewrite ?HG.
    + apply glog_group; [done|apply (ec_segs _ _ _ _ _ _ _ (ei_core _ _ _ _ _ _ _ _ He))| |apply Hfit].
      intros r Hr. apply (inv_acked _ _ Hinv' r.1 (rec_bytes r).2). by apply (list_elem_of_fmap_2 rec_bytes).
    + done.
    + by apply holds_at_most.
    + by apply keeps_snoc.
  - split; [by split|apply Hgr].
  - split; [by split|apply Hgr].
Qed.

Lemma commit_after_append d1 io w2 r :
  d1 = d \/ (exists w1, d1 = set_wal w1 d) -> logged (d_wal d1) k G [] -> healthy (d_wal d1) G -> (w_seg (d_wal d) <= w_seg (d_wal d1))%N ->
  Append (ci_append io) (payloads d group) (d_wal d1) = (w2, r) ->
  forall res, res =
    (let d := set_wal w2 d1 in
     match r with
     | Ret seg =>
         let d := if (seg =? mt_seg (v_mem (d_cur d)))%N then d else set_cur (withMemtable (newMemtable (ci_seed io) seg) (d_cur d)) d in
         match put_ops (d_seq d1 + 1) (group_ops group) (v_mem (d_cur d)) with
         | Ret m => (set_seq (d_seq d1 + N.of_nat (length (group_ops group))) (set_mem m d), Ret tt)
         | Fail e => (d, Fail e)
         | Panic => (d, Panic)
         end
     | Fail e => (d, Fail e)
     | Panic => (d, Panic)
     end) -> commit_post d k mem imms tabs G V group res.1 res.2.
Proof.
  intros Hd1 Hl Hhl Hle HA res ->. assert (set_wal w2 d1 = set_wal w2 d) as -> by (by destruct Hd1 as [->|[w1 ->]]).
  assert (d_seq d1 = d_seq d) as -> by (by destruct Hd1 as [->|[w1 ->]]).
  pose proof (append_post io _ _ _ Hl Hhl Hle HA) as Hp. destruct r as [seg|e|].
  - destruct Hp as (G' & -> & Hseg & Hl' & Hh' & Hle2). cbv zeta.
    assert (ecore (set_wal w2 d) k mem imms tabs G V) as Hc by (apply ecore_wal; [apply He|lia]).
    assert (exists mem1 imms1 d2, d2 = (if (seg =? mt_seg (v_mem (d_cur (set_wal w2 d))))%N then set_wal w2 d
        else set_cur (withMemtable (newMemtable (ci_seed io) seg) (d_cur (set_wal w2 d))) (set_wal w2 d)) /\
      ecore d2 k mem1 imms1 tabs G V /\ mt_seg (v_mem (d_cur d2)) = seg /\ d_wal d2 = w2 /\ d_seq d2 = d_seq d /\ commit_frame d d2 imms imms1) as (mem1 & imms1 & d2 & <- & Hc2 & Hs2 & Hw2 & Hq2 & Hfr).
    { destruct (N.eqb_spec seg (mt_seg (v_mem (d_cur (set_wal w2 d))))) as [E|E].
      - exists mem, imms, (set_wal w2 d). split_and!; try done. apply commit_frame_refl.
      - eexists [], (imms ++ [mem]), _. split; [done|]. split_and!; try done.
        + apply fresh_mem_core; [done| |simpl; lia]. pose proof (sg_cur _ _ _ _ _ (ec_segs _ _ _ _ _ _ _ Hc)). simpl in *. lia.
        + split; try done; [exists [v_mem (d_cur d)], [mem]; done|]. unfold oldestSegment. simpl. by destruct (v_imm (d_cur d)). }
    destruct (put_group_core Hc2 (gl_ok _ (lg_glog _ _ _ _ (ei_logged _ _ _ _ _ _ _ _ He))) Hs2 (group:=group)) as (m' & mem' & Hput & Hc3 & Hsg3);
      [rewrite Hq2; apply Hfit..|]. rewrite Hq2 in Hput. rewrite Hput. left. split; [done|]. exists mem', imms1, seg. cbv zeta.
    unfold committed in Hc3. rewrite Hq2 in Hc3. split_and!; [split; [exact Hc3|simpl; by rewrite Hw2]|simpl; by rewrite Hw2|].
    destruct Hfr as [? ? ? ? ? ? ? ? Ho]. split; try done. rewrite <-Ho. unfold oldestSegment. simpl. by rewrite Hsg3.
  - destruct Hp as [Hl' Hle2]. apply failed_post; [done|done|lia].
  - destruct Hp as [Hl' Hle2]. apply failed_post; [done|done|lia].
Qed.

Lemma commit_ok io d' r : commit io group d = Some (d', r) -> commit_post d k mem imms tabs G V group d' r.
Proof.
  unfold commit. rewrite encode_group_ok by apply Hfit. fold (payloads d group).
  rewrite u64_small by (destruct Hfit as [_ ?]; unfold maxSeq, w64 in *; lia). fold (group_ops group).
  pose proof (ei_logged _ _ _ _ _ _ _ _ He) as Hl. pose proof (logged_weaken _ (payloads d group) Hl Hh) as Hlw.
  assert (set_wal (d_wal d) d = d) as Hsd by (by destruct d).
  assert (forall e, commit_post d k mem imms tabs G V group d (Fail e)) as Hfail.
  { intros e. rewrite <-Hsd at 2. by apply failed_post. }
  unfold makeRoom. destruct (d_closed d) eqn:Ec; [intros [= <- <-]; apply Hfail|]. destruct (d_bgErr d); [intros [= <- <-]; apply Hfail|].
  destruct (_ <? _)%Z.
  - destruct (Append _ _ (d_wal d)) as [w2 ra] eqn:HA. intros E. injection E as E.
    pose proof (commit_after_append d io w2 ra (or_introl eq_refl) Hl Hh ltac:(lia) HA (d', r) ltac:(symmetry; exact E)) as H. exact H.
  - destruct (_ <=? _); [done|]. destruct (Rotate _ _) as [w1 rr] eqn:HR. destruct (rotate_logged _ _ _ _ _ _ Hl Hh HR) as (Hl1 & Hle1 & Hh1).
    destruct rr as [s|e|]; cbn [mbind go_bind].
    + specialize (Hh1 s eq_refl). cbn [d_wal set_wal]. destruct (Append _ _ w1) as [w2 ra] eqn:HA. intros E. injection E as E.
      exact (commit_after_append (set_wal w1 d) io w2 ra (or_intror (ex_intro _ w1 eq_refl)) (Hl1 []) Hh1 Hle1 HA (d', r) ltac:(symmetry; exact E)).
    + intros [= <- <-]. by apply failed_post.
    + intros [= <- <-]. by apply failed_post.
Qed.
End Commit.

Lemma group_records_take seg first group j : group_records seg first (take j group) = take j (group_records seg first group).
Proof. revert first j. induction group as [|b bs IH]; intros first [|j]; cbn [take group_records]; [done..|]. by rewrite IH. Qed.
