(* ===== verification/EngineInstall.v ===== *)
(** * Flushes and compactions preserve the invariant *)

From stdpp Require Import base list gmap sorting.
From S2P Require Import Prelude Codec Key Batch Bloom Wal WalRecords Iter Versions Skiplist SkipProofs Memtable Heap Merge Block SSTable TableWrite TableRead Db DbIter Tiers Export MemDB Manifest Version Engine EngineLog EngineRead EngineInv EngineCommit.

(** ** Steps that change one part *)

Lemma on_disk_mono files files' meta es : files ⊆ files' -> on_disk files meta es -> on_disk files' meta es.
Proof. intros Hsub (t & Hf & Ht). exists t. split; [by eapply lookup_weaken|done]. Qed.

(** A new file under the next number. *)
Lemma wrote_core d k mem imms tabs G V out r d' files :
  ecore d k mem imms tabs G V -> wrote d out r d' files -> (d_nextNum d + 1 < w64)%N -> ecore d' k mem imms tabs G V.
Proof.
  intros [Hsh Hsg Hst Hman] [-> Hsub Hnew _ _] Hw. rewrite u64_small by done. split.
  - by destruct Hsh.
  - by destruct Hsg.
  - destruct Hst as [H1 H2 H3 H4 H5 H6 H7 H8]. split; try done; simpl.
    + eapply Forall_impl; [exact H1|]. simpl. intros t Ht. exact (lookup_weaken _ _ _ _ Ht Hsub).
    + intros n [Hn|Hn]%Hnew; [specialize (H3 n Hn); lia|]. lia.
    + intros n Hn. destruct (H4 n Hn). split; [done|lia].
  - intros b Hb. destruct (Hman b Hb) as (M & mtabs & HM & []). exists M, mtabs. split; [done|]. split; try done; simpl; [|lia].
    eapply Forall2_impl; [done|]. intros meta es. by apply on_disk_mono.
Qed.

(** A higher mark of what is in tables. *)
Lemma flushedSeq_core d k mem imms tabs G V s :
  ecore d k mem imms tabs G V -> (d_flushedSeq d <= s <= d_seq d)%N -> ecore (set_flushedSeq s d) k mem imms tabs G V.
Proof.
  intros [Hsh Hsg Hst Hman] Hle. split; [by destruct Hsh|by destruct Hsg| |].
  - destruct Hst as [H1 H2 H3 H4 H5 H6 H7 H8]. split; try done; simpl; [|lia]. intros e He. specialize (H6 e He). lia.
  - intros b Hb. destruct (Hman b Hb) as (M & mtabs & HM & []). exists M, mtabs. split; [done|]. by split.
Qed.

(** Both manifests are [man]. *)
Definition man_is (d : db) (man : manifest) : Prop := forall b, may_read d b -> readManifest b = Ret man.

Lemma write_man_core d k mem imms tabs G V n man mtabs d' err :
  ecore d k mem imms tabs G V -> manifest_fits man -> durable d k G V man mtabs -> write_man n man d = (d', err) ->
  ecore d' k mem imms tabs G V /\ (err = None -> man_is d' man) /\ exists md, d' = set_man md d.
Proof.
  intros [Hsh Hsg Hst Hman] Hfit Hdur. unfold write_man. destruct (writeManifest n man (d_man d)) as [md e] eqn:Hw. intros [= <- <-].
  assert (forall b, may_read (set_man md d) b -> may_read d b \/ readManifest b = Ret man) as Hb.
  { intros b. unfold may_read. simpl. unfold writeManifest in Hw. pose proof (decode_encode_manifest man Hfit) as Hdec.
    destruct (n <=? 4); [|destruct (n =? 5)]; injection Hw as <- <-; simpl; intros [->| ->]; auto. }
  split_and!; [|intros ->|by exists md].
  - split; [by destruct Hsh|by destruct Hsg|by destruct Hst|]. intros b [Hb1|Hb1]%Hb.
    + destruct (Hman b Hb1) as (M & mt & HM & []). exists M, mt. split; [done|]. by split.
    + exists man, mtabs. split; [done|]. by destruct Hdur.
  - intros b. unfold may_read. simpl. unfold writeManifest in Hw. pose proof (decode_encode_manifest man Hfit) as Hdec.
    destruct (n <=? 4); [done|]. destruct (n =? 5); [done|]. injection Hw as <-. simpl. by intros [->| ->].
Qed.

(** Deleting segments nobody needs. *)
Lemma DeleteBefore_logged w k G ps s :
  logged w k G ps -> (s <= w_seg w)%N -> logged (DeleteBefore s w) (N.max k s) G ps.
Proof.
  intros [Hg Hinv Hat [K1 K2 K3]] Hle. split; [done|by apply DeleteBefore_inv| |].
  - intros t f [Hf _]%map_lookup_filter_Some. by apply Hat.
  - split; [| |done].
    + intros t p Hin Hle'. apply DeleteBefore_present. split; [lia|]. apply (K1 t p Hin). lia.
    + intros t [Ht1 Ht2]%DeleteBefore_present. specialize (K2 t Ht2). lia.
Qed.

Lemma DeleteBefore_healthy w G s : healthy w G -> healthy (DeleteBefore s w) G.
Proof. intros [Hc Hh]. split; [by apply DeleteBefore_clean|by apply DeleteBefore_holds]. Qed.

Lemma raise_k d k k' mem imms tabs G V :
  ecore d k mem imms tabs G V -> (k' <= oldestSegment d)%N ->
  (forall b M, may_read d b -> readManifest b = Ret M -> (k' <= mf_logNum M)%N) -> ecore d k' mem imms tabs G V.
Proof.
  intros [Hsh Hsg Hst Hman] Ho Hm. split; [done|by destruct Hsg|done|].
  intros b Hb. destruct (Hman b Hb) as (M & mtabs & HM & []). exists M, mtabs. split; [done|]. split; try done. by apply (Hm b).
Qed.

(** ** Tiers on disk *)

Lemma collapse_front A B L : aged (A ++ B) -> (forall e, e ∈ L <-> e ∈ concat A) -> aged (L :: B).
Proof.
  intros (_ & HB & H)%aged_app HL. constructor; [done|]. apply Forall_forall. intros t Ht e1 e2 He1 He2.
  apply HL, elem_of_concat in He1 as (t1 & He1 & Ht1). by apply (H t1 t).
Qed.

(** What stands for a rewritten tier. *)
Definition out_tier (out : list entry) : list (list entry) := match out with [] => [] | _ => [out] end.

Lemma out_tier_concat A out B : concat (A ++ out_tier out ++ B) = concat (A ++ [out] ++ B).
Proof. rewrite !concat_app. by destruct out. Qed.

Lemma out_tier_aged A out B : aged (A ++ [out] ++ B) -> aged (A ++ out_tier out ++ B).
Proof. destruct out; [|done]. intros H. by apply drop_empty_tier in H as [? _]. Qed.

(** The table of a rewrite, to be installed. *)
Record to_install (d : db) (t : table) (out : list entry) : Prop := {
  ti_fine : table_fine t out;
  ti_some : out <> [];
  ti_file : d_files d !! t_num t = Some (t_data t);
  ti_new : t_num t ∉ t_num <$> v_tables (d_cur d);
  ti_next : (t_num t < d_nextNum d)%N;
  ti_gone : t_num t ∉ d_gone d;
}.

Definition installs (d : db) (ot : option table) (out : list entry) : Prop :=
  match ot with None => out = [] | Some t => to_install d t out end.

Lemma installs_tier d ot out : installs d ot out -> out_tier out = (fun _ => out) <$> option_list ot.
Proof. destruct ot as [t|]; simpl; [|by intros ->]. intros [_ Hs _ _ _ _]. by destruct out. Qed.

Lemma wrote_installs d k mem imms tabs G V out r d' files ot :
  ecore d k mem imms tabs G V -> wrote d out r d' files -> (d_nextNum d + 1 < w64)%N -> kinds_ok out -> r = Ret ot -> installs d' ot out.
Proof.
  intros [_ _ Hst _] [Hd' _ _ Hnone Hsome] Hw Hk ->. destruct ot as [t|]; simpl; [|by apply Hnone].
  destruct (Hsome t eq_refl) as (Hh & Hne & Hnum & Hf & Hfree).
  assert (v_tables (d_cur d') = v_tables (d_cur d) /\ d_gone d' = d_gone d /\ d_nextNum d' = (d_nextNum d + 1)%N /\ d_files d' = files) as (Hv & Hg & Hn & Hfl).
  { rewrite Hd'. split_and!; [done|done| |done]. simpl. by apply u64_small. }
  split; rewrite ?Hv, ?Hg, ?Hn, ?Hfl; try done.
  - intros (t' & Ht' & Hin)%list_elem_of_fmap. pose proof (st_files _ _ Hst) as Hfs. rewrite Forall_forall in Hfs.
    specialize (Hfs t' Hin). rewrite <-Ht', Hfree in Hfs. done.
  - lia.
  - intros Hin%(st_gone _ _ Hst). lia.
Qed.

Lemma kinds_kept drop last es : kinds_ok es -> kinds_ok (kept drop last es).
Proof. intros Hk. apply Forall_forall. intros e He%kept_elem. by eapply Forall_forall in Hk. Qed.

(** ** Flush *)

(** The numbers and sizes stay within their fields. *)
Definition fits (d : db) : Prop := files_small (d_files d) /\ (d_nextNum d + 1 < w64)%N /\ (w_seg (d_wal d) + 1 < w64)%N.

Definition flush_fits (io : tableIO) (m : memtable) (d : db) : Prop :=
  fits d /\ files_small (d_files (flush_table io m d).1) /\
  match flush_table io m d with
  | (d1, Ret (Some t)) => manifest_fits (flush_manifest m t d1).2
  | _ => True
  end.

Lemma metas_on_disk d tabs mem imms V : shows d mem imms tabs V -> stored d tabs -> Forall2 (on_disk (d_files d)) (t_meta <$> v_tables (d_cur d)) tabs.
Proof.
  intros Hsh Hst. apply Forall2_fmap_l. eapply Forall2_impl_elem; [apply (sh_tab _ _ _ _ _ Hsh)|]. intros t es Hin Ht.
  exists t. split; [|done]. pose proof (st_files _ _ Hst) as Hf. rewrite Forall_forall in Hf. by apply Hf.
Qed.

Section Flush.
Context {d : db} {k : N} {mem : list entry} {es : list entry} {irest tabs : list (list entry)} {G : list record} {V : gmap bytes bytes}.
Context {m : memtable} {ms : list memtable}.
Context (Hc : ecore d k mem (es :: irest) tabs G V) (Hv : v_imm (d_cur d) = m :: ms).

Lemma flush_m : mem_holds m es /\ Forall2 mem_holds ms irest.
Proof. pose proof (sh_imm _ _ _ _ _ (ec_shows _ _ _ _ _ _ _ Hc)) as H. rewrite Hv in H. by inversion H. Qed.

Lemma flush_segs : (mt_seg m < mt_seg (v_mem (d_cur d)))%N /\ oldestSegment d = mt_seg m.
Proof.
  pose proof (sg_sorted _ _ _ _ _ (ec_segs _ _ _ _ _ _ _ Hc)) as Hs. unfold mem_segs, oldestSegment in *. rewrite Hv in *. split; [|done].
  cbn [fmap list_fmap app] in Hs. apply StronglySorted_inv in Hs as [_ Hall]. rewrite Forall_forall in Hall. apply Hall. set_solver.
Qed.

Let out := kept false [] es.

(** The tiers with the memtable replaced. *)
Lemma flush_tiers :
  sees (fun e => e ∈ concat (tiers mem irest (out_tier out ++ tabs))) V /\ aged (tiers mem irest (out_tier out ++ tabs)).
Proof.
  pose proof (ec_shows _ _ _ _ _ _ _ Hc) as Hsh.
  assert (tiers mem (es :: irest) tabs = (mem :: reverse irest) ++ [es] ++ tabs) as Ht.
  { unfold tiers. by rewrite reverse_cons, <-app_assoc. }
  assert (tiers mem irest (out_tier out ++ tabs) = (mem :: reverse irest) ++ out_tier out ++ tabs) as Ht' by done.
  pose proof (shows_sorted Hsh) as Hs. pose proof (sh_aged _ _ _ _ _ Hsh) as Ha. pose proof (sh_sees _ _ _ _ _ Hsh) as Hse.
  rewrite Ht in Hs, Ha, Hse. destruct flush_m as [Hm _]. destruct (mem_holds_sorted _ _ Hm) as [Hes _].
  assert (es ≡ₚ concat [es]) as Hrun by (simpl; by rewrite app_nil_r).
  rewrite Ht'. split.
  - eapply sees_ext; [|exact (rewrite_sees false Hs Ha Hse Hes Hrun ltac:(done))]. intros e. by rewrite out_tier_concat.
  - apply out_tier_aged. exact (rewrite_aged false Hs Ha Hse Hes Hrun ltac:(done)).
Qed.

Lemma flush_durable t :
  installs d t out -> (mt_seg m + 1 < w64)%N -> (mt_maxSeq m <= d_flushedSeq d)%N ->
  durable d k G V (mkManifest (d_nextNum d) (d_flushedSeq d) (u64 (mt_seg m + 1)) (t_meta <$> option_list t ++ v_tables (d_cur d))) (out_tier out ++ tabs).
Proof.
  intros Hi Hw Hmax. destruct Hc as [Hsh Hsg Hst Hman]. destruct flush_tiers as [Hse Ha]. destruct flush_segs as [Hlt Ho].
  assert (forall e, e ∈ log_entries (from (mt_seg m + 1) G) <-> e ∈ concat (mem :: reverse irest)) as Hlog.
  { intros e. rewrite (log_after_oldest _ _ _ _ _ _ _ _ _ Hsg Hv). cbn [concat]. rewrite elem_of_app. by rewrite reverse_Permutation. }
  assert (NoDup (t_num <$> option_list t ++ v_tables (d_cur d))) as Hnd.
  { rewrite fmap_app. apply NoDup_app. split_and!; [destruct t; [apply NoDup_singleton|constructor]| |apply Hst].
    destruct t as [t|]; simpl; [|set_solver]. intros n ->%list_elem_of_singleton. apply Hi. }
  rewrite (u64_small (mt_seg m + 1)) by done. split; cbn [mf_tables mf_logNum mf_lastSeq mf_nextNum].
  - rewrite fmap_app, (installs_tier _ _ _ Hi). apply Forall2_app; [|by eapply metas_on_disk].
    destruct t as [t|]; simpl; [|constructor]. constructor; [|constructor]. exists t. split; apply Hi.
  - by apply (collapse_front (mem :: reverse irest)).
  - eapply sees_ext; [|exact Hse]. intros e. unfold disk_tiers, tiers. cbn [mf_logNum].
    rewrite app_comm_cons, concat_app, elem_of_app. cbn [concat]. rewrite (elem_of_app (log_entries _)). by rewrite <-Hlog.
  - intros e He. rewrite concat_app in He. apply elem_of_app in He as [He|He]; [|by apply Hst].
    assert (e ∈ es) as Hin by (apply (kept_elem false []); by destruct out eqn:E; fold out; rewrite ?E in *; simpl in He; rewrite ?app_nil_r in He).
    destruct flush_m as [(_ & _ & Hle) _]. specialize (Hle e Hin). lia.
  - apply Hst.
  - pose proof (sg_low _ _ _ _ _ Hsg). rewrite Ho in *. lia.
  - lia.
  - apply Forall_fmap, Forall_app. split.
    + destruct t as [t|]; simpl; [|constructor]. constructor; [apply Hi|constructor].
    + apply Forall_forall. intros t' Ht'. simpl. apply (st_next _ _ Hst). pose proof (st_files _ _ Hst) as Hf. rewrite Forall_forall in Hf. exists (t_data t'). exact (Hf t' Ht').
  - done.
  - by rewrite <-list_fmap_compose.
  - intros n Hn. rewrite <-list_fmap_compose. change (tm_num ∘ t_meta) with t_num. rewrite fmap_app, elem_of_app.
    intros [H|H]; [|by apply (st_gone _ _ Hst) in Hn as [? _]]. destruct t as [t|]; simpl in H; [|set_solver].
    apply list_elem_of_singleton in H. subst n. by apply Hi in Hn.
Qed.
End Flush.

(** A flush that waits to be installed. *)
Definition flush_job (d : db) (imms : list (list entry)) (m : memtable) (t : option table) : Prop :=
  exists ms es irest man, v_imm (d_cur d) = m :: ms /\ imms = es :: irest /\ installs d t (kept false [] es) /\
    man_is d man /\ mf_logNum man = (mt_seg m + 1)%N /\ (mt_seg m + 1 < w64)%N /\ (mt_maxSeq m <= d_flushedSeq d)%N.

Lemma installs_frame d d' t out :
  d_files d' = d_files d -> v_tables (d_cur d') = v_tables (d_cur d) -> d_nextNum d' = d_nextNum d -> d_gone d' = d_gone d ->
  installs d t out -> installs d' t out.
Proof. intros Hf Hv Hn Hg. destruct t as [t|]; simpl; [|done]. intros []. split; by rewrite ?Hf, ?Hv, ?Hn, ?Hg. Qed.

Lemma flush_prepare_ok d k mem imms tabs G V io n m d' r :
  ecore d k mem imms tabs G V -> flush_fits io m d -> head (v_imm (d_cur d)) = Some m -> flush_prepare io n m d = (d', r) ->
  ecore d' k mem imms tabs G V /\ d_wal d' = d_wal d /\ d_cur d' = d_cur d /\ d_closed d' = d_closed d /\ d_seq d' = d_seq d /\ (d_nextNum d <= d_nextNum d')%N /\
  (forall t, r = Ret (Some t) -> flush_job d' imms m t /\ forall x, t = Some x -> t_num x = d_nextNum d).
Proof.
  intros Hc (Hfit & Hsm & Hman) Hhd. pose proof (proj2 (proj2 Hfit)) as Hseg. unfold flush_prepare. destruct (v_imm (d_cur d)) as [|m' ms] eqn:Hv; [done|]. injection Hhd as ->.
  destruct imms as [|es irest]; [by pose proof (sh_imm _ _ _ _ _ (ec_shows _ _ _ _ _ _ _ Hc)) as H; rewrite Hv in H; inversion H|].
  destruct (flush_m Hc Hv) as [Hm _]. destruct (flush_table io m d) as [d1 r1] eqn:Hft.
  assert (exists rt files, wrote d (kept false [] es) rt d1 files /\ r1 = Some <$> rt) as (rt & files & Hwr & Hr1).
  { unfold flush_table in Hft. rewrite Hv, N.eqb_refl in Hft. destruct (writeTableFiltered _ _ _ _ d) as [d2 r2] eqn:Hw.
    injection Hft as <- <-. exists r2, (d_files d2). split; [|done].
    eapply (writeTableFiltered_ok (I:=skiplistIter)); [by apply mem_iter_over|by apply mem_fuel_ok|exact Hw|exact Hsm]. }
  pose proof (wrote_core _ _ _ _ _ _ _ _ _ _ _ Hc Hwr ltac:(apply Hfit)) as Hc1.
  pose proof (wr_state _ _ _ _ _ Hwr) as Hd1.
  assert (d_wal d1 = d_wal d /\ d_cur d1 = d_cur d /\ d_closed d1 = d_closed d /\ d_seq d1 = d_seq d /\ (d_nextNum d <= d_nextNum d1)%N) as (Hw1 & Hcur1 & Hcl1 & Hsq1 & Hnn1).
  { rewrite Hd1. split_and!; try done. simpl. rewrite u64_small by apply Hfit. lia. }
  destruct rt as [t|e|]; subst r1; cbn [fmap go_fmap]; [|intros [= <- <-]; by split_and!..].
  assert (installs d1 t (kept false [] es)) as Hi.
  { eapply wrote_installs; [exact Hc|exact Hwr|apply Hfit|apply kinds_kept, Hm|done]. }
  unfold flush_manifest in *. set (d2 := if (d_flushedSeq d1 <? mt_maxSeq m)%N then set_flushedSeq (mt_maxSeq m) d1 else d1) in *.
  rewrite <-Hcur1 in Hv. destruct (flush_segs Hc1 Hv) as [Hlt _].
  assert (mt_maxSeq m <= d_seq d1)%N as Hmq.
  { pose proof (st_max _ _ (ec_stored _ _ _ _ _ _ _ Hc1)) as Hx. rewrite Hv in Hx. apply Forall_cons in Hx as [_ Hx]. by apply Forall_cons in Hx as [Hx _]. }
  assert (ecore d2 k mem (es :: irest) tabs G V /\ (mt_maxSeq m <= d_flushedSeq d2)%N) as [Hc2 Hmx].
  { unfold d2. destruct (N.ltb_spec (d_flushedSeq d1) (mt_maxSeq m)); [|done]. split; [|done]. apply flushedSeq_core; [done|lia]. }
  assert (d_files d2 = d_files d1 /\ d_cur d2 = d_cur d1 /\ d_nextNum d2 = d_nextNum d1 /\ d_gone d2 = d_gone d1 /\ d_wal d2 = d_wal d1 /\ d_closed d2 = d_closed d1 /\ d_seq d2 = d_seq d1) as (F1 & F2 & F3 & F4 & F5 & F6 & F7).
  { unfold d2. by destruct (_ <? _)%N. }
  assert (installs d2 t (kept false [] es)) as Hi2 by (eapply installs_frame; [exact F1|by rewrite F2|exact F3|exact F4|exact Hi]).
  assert (mt_seg m + 1 < w64)%N as Hw64.
  { pose proof (sg_cur _ _ _ _ _ (ec_segs _ _ _ _ _ _ _ Hc1)) as Hx. rewrite Hw1 in Hx. lia. }
  rewrite <-F2 in Hv. pose proof (flush_durable Hc2 Hv t Hi2 Hw64 Hmx) as Hdur. destruct (write_man n _ d2) as [d3 err] eqn:Hwm.
  destruct (write_man_core _ _ _ _ _ _ _ _ _ _ _ _ Hc2 Hman Hdur Hwm) as (Hc3 & Hmi & (md & ->)).
  destruct err as [e|]; intros [= <- <-]; (split_and!; [done|simpl; congruence..|simpl; lia|]); [done|].
  intros t' [= <-]. split; [|intros x ->; by apply (wr_some _ _ _ _ _ Hwr)]. eexists ms, es, irest, _. split_and!; [exact Hv|done|by eapply (installs_frame d2)|by apply Hmi|simpl; by rewrite u64_small|done|done].
Qed.

(** ** Installing a flush *)

Lemma withFlushed_imm d k mem imms G m ms :
  segmented d k mem imms G -> v_imm (d_cur d) = m :: ms -> filter (fun x => mt_seg x <> mt_seg m) (m :: ms) = ms.
Proof.
  intros Hsg Hv. rewrite filter_cons_False by (intros H; by apply H). apply filter_all. apply Forall_forall. intros x Hx.
  pose proof (sg_sorted _ _ _ _ _ Hsg) as Hs. unfold mem_segs in Hs. rewrite Hv in Hs. cbn [fmap list_fmap app] in Hs.
  apply StronglySorted_inv in Hs as [_ Hall]. rewrite Forall_forall in Hall.
  assert (mt_seg m < mt_seg x)%N; [|lia]. apply Hall, elem_of_app. left. by apply list_elem_of_fmap_2.
Qed.

Lemma flush_version_core d k mem imms tabs G V m t :
  ecore d k mem imms tabs G V -> flush_job d imms m t ->
  exists imms' tabs', ecore (set_cur (withFlushed m t (d_cur d)) d) k mem imms' tabs' G V /\
    (mt_seg m + 1 <= oldestSegment (set_cur (withFlushed m t (d_cur d)) d))%N.
Proof.
  intros Hc (ms & es & irest & man & Hv & -> & Hi & Hman & _ & _ & Hmx). destruct (flush_tiers Hc Hv) as [Hse Ha]. destruct (flush_m Hc Hv) as [Hm Hms].
  destruct (flush_segs Hc Hv) as [Hlt Ho]. pose proof Hc as [Hsh Hsg Hst Hmn].
  exists irest, (out_tier (kept false [] es) ++ tabs). set (d' := set_cur _ d).
  assert (v_imm (d_cur d') = ms) as Hv' by (simpl; rewrite Hv; by eapply withFlushed_imm).
  assert (v_tables (d_cur d') = option_list t ++ v_tables (d_cur d)) as Ht' by done.
  assert (mem_segs (d_cur d) = mt_seg m :: mem_segs (d_cur d')) as Hms'.
  { unfold mem_segs. rewrite Hv, Hv'. done. }
  assert (StronglySorted N.lt (mem_segs (d_cur d')) /\ Forall (N.lt (mt_seg m)) (mem_segs (d_cur d'))) as [Hs' Hall].
  { pose proof (sg_sorted _ _ _ _ _ Hsg) as Hs. rewrite Hms' in Hs. by apply StronglySorted_inv in Hs. }
  assert (mt_seg m + 1 <= oldestSegment d')%N as Hold.
  { rewrite Forall_forall in Hall. specialize (Hall (oldestSegment d')). enough (mt_seg m < oldestSegment d')%N by lia. apply Hall.
    unfold oldestSegment, mem_segs. rewrite Hv'. destruct ms; set_solver. }
  assert (forall e, e ∈ concat (out_tier (kept false [] es)) -> e ∈ es) as Hout.
  { intros e. destruct (kept false [] es) eqn:E; simpl; [set_solver|]. rewrite app_nil_r, <-E. apply kept_elem. }
  split; [|done]. split.
  - destruct Hsh as [S1 S2 S3 S4 S5 S6 S7]. split; try done; rewrite ?Hv', ?Ht'; try done.
    + rewrite (installs_tier _ _ _ Hi). apply Forall2_app; [|done]. destruct t as [t|]; simpl; [|constructor]. constructor; [apply Hi|constructor].
    + intros e He. apply S6. rewrite elem_tiers in *. cbn [concat]. rewrite concat_app, elem_of_app in He. rewrite elem_of_app.
      destruct He as [?|[?|[He%Hout|?]]]; tauto.
  - destruct Hsg as [G1 G2 G3 G4 G5 G6 G7]. rewrite Hv in G5. inversion G5; subst. split; try done; rewrite ?Hv'; try done; [lia|].
    intros r Hr Hle. specialize (G6 r Hr ltac:(lia)). rewrite Hms' in G6. apply elem_of_cons in G6 as [E|?]; [lia|done].
  - destruct Hst as [H1 H2 H3 H4 H5 H6 H7 H8]. split; try done; rewrite ?Hv', ?Ht'.
    + apply Forall_app. split; [|done]. destruct t as [t|]; simpl; [|constructor]. constructor; [apply Hi|constructor].
    + unfold nums_distinct. rewrite fmap_app. apply NoDup_app. split_and!; [destruct t; [apply NoDup_singleton|constructor]| |done].
      destruct t as [t|]; simpl; [|set_solver]. intros n ->%list_elem_of_singleton. apply Hi.
    + intros n Hn. destruct (H4 n Hn) as [Hn1 Hn2]. split; [|done]. rewrite fmap_app, elem_of_app. intros [H|H]; [|done].
      destruct t as [t|]; simpl in H; [|set_solver]. apply list_elem_of_singleton in H. subst n. by apply Hi in Hn.
    + intros e. rewrite concat_app, elem_of_app. intros [He%Hout|He]; [|by apply H6]. destruct Hm as (_ & _ & Hle). specialize (Hle e He). simpl. lia.
    + rewrite Hv in H8. apply Forall_cons in H8 as [H8 H9]. apply Forall_cons in H9 as [_ H9]. by constructor.
  - intros b Hb. destruct (Hmn b Hb) as (M & mtabs & HM & []). exists M, mtabs. split; [done|]. by split.
Qed.

Lemma flush_install_ok d k mem imms tabs G ps V upto m t d' r :
  einv d k mem imms tabs G ps V -> flush_job d imms m t -> flush_install upto m t d = (d', r) ->
  exists k' imms' tabs', einv d' k' mem imms' tabs' G ps V /\ (healthy (d_wal d) G -> healthy (d_wal d') G) /\
    v_tables (d_cur d') = option_list t ++ v_tables (d_cur d) /\ d_nextNum d' = d_nextNum d /\ d_closed d' = d_closed d /\ d_seq d' = d_seq d.
Proof.
  intros [Hc Hl] Hj. destruct (flush_version_core _ _ _ _ _ _ _ _ _ Hc Hj) as (imms' & tabs' & Hc' & Ho).
  destruct Hj as (ms & es & irest & man & Hv & -> & Hi & Hman & Hlog & Hw & Hmx).
  unfold flush_install. set (d1 := count_flush (set_cur (withFlushed m t (d_cur d)) d)).
  assert (ecore d1 k mem imms' tabs' G V) as Hc1.
  { destruct Hc' as [[] [] [] Hmn]. split; [by split..|]. intros b Hb. destruct (Hmn b Hb) as (M & mtabs & HM & []). exists M, mtabs. split; [done|by split]. }
  rewrite u64_small by done.
  assert (exists s, (s <= mt_seg m + 1)%N /\ forall d2 r2, delete_before upto (mt_seg m + 1) d1 = (d2, r2) -> d2 = set_wal (DeleteBefore s (d_wal d1)) d1) as (s & Hs & Hdel).
  { unfold delete_before. destruct upto as [u|]; [exists (N.min u (mt_seg m + 1))|exists (mt_seg m + 1)%N]; (split; [lia|]); by intros d2 r2 [= <- _]. }
  intros Hd. specialize (Hdel _ _ Hd). subst d'. exists (N.max k s), imms', tabs'.
  assert (s <= w_seg (d_wal d1))%N as Hsw.
  { destruct (flush_segs Hc Hv) as [Hlt _]. pose proof (sg_cur _ _ _ _ _ (ec_segs _ _ _ _ _ _ _ Hc)). simpl. lia. }
  split_and!; [|intros Hh; by apply DeleteBefore_healthy|done..]. split.
  - apply ecore_wal; [|done]. eapply raise_k; [exact Hc1| |].
    + pose proof (sg_low _ _ _ _ _ (ec_segs _ _ _ _ _ _ _ Hc1)). change (oldestSegment d1) with (oldestSegment (set_cur (withFlushed m t (d_cur d)) d)) in *. lia.
    + intros b M Hb HM. rewrite (Hman b Hb) in HM. injection HM as <-. destruct (ec_man _ _ _ _ _ _ _ Hc b Hb) as (M & mt & HM & Hdu).
      rewrite (Hman b Hb) in HM. injection HM as <-. pose proof (du_low _ _ _ _ _ _ Hdu). lia.
  - by apply DeleteBefore_logged.
Qed.
