(* ===== verification/EngineCompact.v ===== *)
(** * Compactions preserve the invariant *)

From stdpp Require Import base list gmap sorting.
From S2P Require Import Prelude Codec Key Batch Bloom Wal WalRecords Iter Versions Skiplist SkipProofs Memtable Heap Merge Block SSTable TableWrite TableRead Db DbIter Tiers Export MemDB Manifest Version Engine EngineLog EngineRead EngineInv EngineCommit EngineInstall.

(** ** The manifest of a compaction *)

Lemma compact_metas_none inputs out ts : (forall t, t ∈ ts -> t_num t ∉ t_num <$> inputs) -> compact_metas inputs out ts = t_meta <$> ts.
Proof.
  induction ts as [|t ts IH]; intros H; [done|]. cbn [compact_metas fmap list_fmap].
  destruct (isInput t inputs) eqn:E; [apply isInput_elem in E; exfalso; apply (H t); [set_solver|done]|]. f_equal. apply IH. set_solver.
Qed.

Lemma compact_metas_app inputs out ts1 ts2 :
  (forall t, t ∈ ts1 -> t_num t ∉ t_num <$> inputs) -> compact_metas inputs out (ts1 ++ ts2) = (t_meta <$> ts1) ++ compact_metas inputs out ts2.
Proof.
  induction ts1 as [|t ts IH]; intros H; [done|]. cbn [compact_metas fmap list_fmap app].
  destruct (isInput t inputs) eqn:E; [apply isInput_elem in E; exfalso; apply (H t); [set_solver|done]|]. f_equal. apply IH. set_solver.
Qed.

Lemma compact_metas_rest t0 inputs out ts1 ts2 :
  (forall t, t ∈ ts1 -> t_num t ∈ t_num <$> t0 :: inputs /\ t_num t <> t_num t0) ->
  compact_metas (t0 :: inputs) out (ts1 ++ ts2) = compact_metas (t0 :: inputs) out ts2.
Proof.
  induction ts1 as [|t ts IH]; intros H; [done|]. cbn [compact_metas app]. destruct (H t ltac:(set_solver)) as [Hin Hne].
  rewrite (proj2 (isInput_elem t (t0 :: inputs)) Hin). rewrite bool_decide_false by (simpl; congruence). apply IH. set_solver.
Qed.

(** As [replace_window] for the version. *)
Lemma compact_metas_window pre inputs post out :
  nums_distinct (pre ++ inputs ++ post) -> inputs <> [] ->
  compact_metas inputs out (pre ++ inputs ++ post) = t_meta <$> pre ++ option_list out ++ post.
Proof.
  unfold nums_distinct. rewrite !fmap_app. intros Hnd Hne. apply NoDup_app in Hnd as (_ & Hd1 & Hnd). apply NoDup_app in Hnd as (Hni & Hd2 & _).
  rewrite compact_metas_app.
  2:{ intros t Ht Hin. apply (Hd1 (t_num t)); [by apply list_elem_of_fmap_2|]. apply elem_of_app. by left. }
  f_equal. destruct inputs as [|t ts]; [done|]. change ((t :: ts) ++ post) with (t :: ts ++ post).
  cbn [compact_metas]. rewrite (proj2 (isInput_elem t (t :: ts))) by set_solver. rewrite bool_decide_true by done.
  rewrite compact_metas_rest, compact_metas_none; [done| |].
  - intros x Hx Hin. apply (Hd2 (t_num x)); [done|by apply list_elem_of_fmap_2].
  - intros x Hx. cbn [fmap list_fmap] in Hni. apply NoDup_cons in Hni as [Hni _]. split; [apply list_elem_of_fmap_2; set_solver|].
    intros E. apply Hni. rewrite <-E. by apply list_elem_of_fmap_2.
Qed.

(** Tombstones are dropped at the bottom only. *)
Lemma bottom_last pre inputs post : nums_distinct (pre ++ inputs ++ post) -> inputs <> [] -> is_bottom inputs (pre ++ inputs ++ post) = true -> post = [].
Proof.
  unfold nums_distinct, is_bottom. intros Hnd Hne Hb%bool_decide_eq_true. destruct (last post) as [x|] eqn:Hx; [|by apply last_None in Hx]. apply last_Some in Hx as [p ->]. exfalso.
  rewrite !app_assoc, last_snoc in Hb. destruct (last inputs) as [y|] eqn:Hy; [|done]. injection Hb as Hb.
  apply last_Some_elem_of in Hy. rewrite !fmap_app in Hnd. apply NoDup_app in Hnd as (_ & _ & Hnd). apply NoDup_app in Hnd as (_ & Hd & _).
  apply (Hd (t_num y)); [by apply list_elem_of_fmap_2|]. rewrite Hb. set_solver.
Qed.

Section Compact.
Context {d : db} {k : N} {mem : list entry} {imms tp ti tq : list (list entry)} {G : list record} {V : gmap bytes bytes}.
Context {pre inputs post : list table}.
Context (Hc : ecore d k mem imms (tp ++ ti ++ tq) G V) (Hv : v_tables (d_cur d) = pre ++ inputs ++ post) (Hne : inputs <> []).
Context (Hpre : Forall2 table_fine pre tp) (Hin : Forall2 table_fine inputs ti) (Hpost : Forall2 table_fine post tq).

Let bottom := is_bottom inputs (v_tables (d_cur d)).
Let out := kept bottom [] (union ti).

Lemma compact_bottom : bottom = true -> tq = [].
Proof.
  unfold bottom. rewrite Hv. intros Hb. assert (post = []) as ->; [|by inversion Hpost]. eapply bottom_last; [|done|exact Hb].
  rewrite <-Hv. apply (ec_stored _ _ _ _ _ _ _ Hc).
Qed.

Lemma compact_split : tiers mem imms (tp ++ ti ++ tq) = (mem :: reverse imms ++ tp) ++ ti ++ tq.
Proof. unfold tiers. by rewrite app_assoc. Qed.

Lemma run_sorted : Forall ik_sorted ti /\ aged ti /\ uniq (fun e => e ∈ concat ti).
Proof.
  pose proof (ec_shows _ _ _ _ _ _ _ Hc) as Hsh. pose proof (shows_sorted Hsh) as Hs. pose proof (sh_aged _ _ _ _ _ Hsh) as Ha.
  pose proof (se_uniq _ _ (sh_sees _ _ _ _ _ Hsh)) as Hu. rewrite compact_split in Hs, Ha, Hu.
  apply Forall_app in Hs as [_ Hs]. apply Forall_app in Hs as [Hs _]. apply aged_app in Ha as (_ & Ha & _). apply aged_app in Ha as (Ha & _ & _).
  split_and!; [done|done|]. intros e e' He He'. apply Hu; rewrite !concat_app, !elem_of_app; tauto.
Qed.

Lemma compact_tiers :
  sees (fun e => e ∈ concat (tiers mem imms (tp ++ out_tier out ++ tq))) V /\ aged (tiers mem imms (tp ++ out_tier out ++ tq)).
Proof.
  pose proof (ec_shows _ _ _ _ _ _ _ Hc) as Hsh. pose proof (shows_sorted Hsh) as Hs. pose proof (sh_aged _ _ _ _ _ Hsh) as Ha.
  pose proof (sh_sees _ _ _ _ _ Hsh) as Hse. rewrite compact_split in Hs, Ha, Hse. destruct run_sorted as (Hrs & Hra & Hru).
  pose proof (union_sorted _ Hrs Hra Hru) as Hes.
  assert (tiers mem imms (tp ++ out_tier out ++ tq) = (mem :: reverse imms ++ tp) ++ out_tier out ++ tq) as -> by (unfold tiers; by rewrite app_assoc).
  split.
  - eapply sees_ext; [|exact (rewrite_sees bottom Hs Ha Hse Hes (union_perm ti) compact_bottom)]. intros e. by rewrite out_tier_concat.
  - apply out_tier_aged. exact (rewrite_aged bottom Hs Ha Hse Hes (union_perm ti) compact_bottom).
Qed.

Lemma out_elem e : e ∈ concat (out_tier out) -> e ∈ concat ti.
Proof.
  intros He. rewrite <-union_perm. apply (kept_elem bottom []). fold out. destruct out; [done|]. simpl in He. by rewrite app_nil_r in He.
Qed.

Lemma compact_installed ot : installs d ot out -> Forall2 table_fine (pre ++ option_list ot ++ post) (tp ++ out_tier out ++ tq).
Proof.
  intros Hi. apply Forall2_app; [done|]. apply Forall2_app; [|done]. rewrite (installs_tier _ _ _ Hi).
  destruct ot as [t|]; simpl; [|constructor]. constructor; [apply Hi|constructor].
Qed.

(** The tables after the compaction: their files, numbers and marks. *)
Lemma compact_tables ot : installs d ot out ->
  Forall (fun t => d_files d !! t_num t = Some (t_data t)) (pre ++ option_list ot ++ post) /\ nums_distinct (pre ++ option_list ot ++ post) /\
  (forall n, n ∈ d_gone d -> n ∉ t_num <$> pre ++ option_list ot ++ post) /\
  (forall n, n ∈ t_num <$> inputs -> n ∉ t_num <$> pre ++ option_list ot ++ post).
Proof.
  intros Hi. destruct (ec_stored _ _ _ _ _ _ _ Hc) as [H1 H2 H3 H4 _ _ _ _]. rewrite Hv in *.
  assert (forall t, ot = Some t -> t_num t ∉ t_num <$> pre ++ inputs ++ post) as Hnew.
  { intros t ->. rewrite <-Hv. apply Hi. }
  unfold nums_distinct in *. rewrite !fmap_app in *. rewrite !Forall_app in H1. destruct H1 as (F1 & F2 & F3).
  apply NoDup_app in H2 as (N1 & N2 & N3). apply NoDup_app in N3 as (N3 & N4 & N5).
  split_and!.
  - rewrite !Forall_app. split_and!; [done| |done]. destruct ot as [t|]; simpl; [|constructor]. constructor; [apply Hi|constructor].
  - apply NoDup_app. split_and!; [done| |].
    + intros n Hn. rewrite elem_of_app. intros [H|H]; [|by apply (N2 n Hn), elem_of_app; right].
      destruct ot as [t|]; simpl in H; [|set_solver]. apply list_elem_of_singleton in H. subst n. apply (Hnew t eq_refl). set_solver.
    + apply NoDup_app. split_and!; [destruct ot; [apply NoDup_singleton|constructor]| |done].
      intros n H Hn. destruct ot as [t|]; simpl in H; [|set_solver]. apply list_elem_of_singleton in H. subst n. apply (Hnew t eq_refl). set_solver.
  - intros n Hn. destruct (H4 n Hn) as [Hg _]. rewrite !elem_of_app in *. intros [?|[H|?]]; [tauto| |tauto].
    destruct ot as [t|]; simpl in H; [|set_solver]. apply list_elem_of_singleton in H. subst n. by apply Hi in Hn.
  - intros n Hn. rewrite !elem_of_app. intros [H|[H|H]]; [apply (N2 n H), elem_of_app; by left| |by apply (N4 n Hn)].
    destruct ot as [t|]; simpl in H; [|set_solver]. apply list_elem_of_singleton in H. subst n. apply (Hnew t eq_refl). set_solver.
Qed.

Lemma compact_durable ot : installs d ot out -> durable d k G V (compact_manifest inputs ot d) (tp ++ out_tier out ++ tq).
Proof.
  intros Hi. pose proof Hc as [Hsh Hsg Hst Hman]. destruct compact_tiers as [Hse Ha].
  destruct (compact_tables ot Hi) as (Hf & Hnd & Hg & _). unfold compact_manifest. rewrite Hv, compact_metas_window; [|rewrite <-Hv; apply Hst|done].
  assert (forall e, e ∈ log_entries (from (oldestSegment d) G) <-> e ∈ concat (mem :: reverse imms)) as Hlog.
  { intros e. rewrite (log_from_oldest _ _ _ _ _ _ Hsg). cbn [concat]. rewrite elem_of_app. by rewrite reverse_Permutation. }
  split; cbn [mf_tables mf_logNum mf_lastSeq mf_nextNum].
  - apply Forall2_fmap_l. eapply Forall2_impl_elem; [by apply compact_installed|]. intros t es Ht Hte. exists t. split; [|done].
    rewrite Forall_forall in Hf. by apply Hf.
  - by apply (collapse_front (mem :: reverse imms)).
  - eapply sees_ext; [|exact Hse]. intros e. unfold disk_tiers, tiers. cbn [mf_logNum].
    rewrite app_comm_cons, concat_app, elem_of_app. cbn [concat]. rewrite (elem_of_app (log_entries _)). by rewrite <-Hlog.
  - intros e He. apply (st_flushed _ _ Hst). rewrite !concat_app, !elem_of_app in *. destruct He as [?|[He|?]]; [tauto|apply out_elem in He; tauto|tauto].
  - apply Hst.
  - apply Hsg.
  - apply oldest_le; [apply Hsg|]. unfold mem_segs. set_solver.
  - apply Forall_fmap. eapply Forall_impl; [exact Hf|]. simpl. intros t Ht. apply (st_next _ _ Hst). exists (t_data t). exact Ht.
  - done.
  - by rewrite <-list_fmap_compose.
  - intros n Hn. rewrite <-list_fmap_compose. by apply Hg.
Qed.
End Compact.

(** ** Preparing *)

Definition compact_fits (io : tableIO) (inputs : list table) (d : db) : Prop :=
  fits d /\
  match table_iters inputs with
  | Ret children =>
      let '(d1, r) := writeTableFiltered (tables_fuel inputs) io (newMergeIter children) (is_bottom inputs (v_tables (d_cur d))) d in
      files_small (d_files d1) /\ match r with Ret out => manifest_fits (compact_manifest inputs out d1) | _ => True end
  | _ => True
  end.

(** A compaction that waits to be installed. *)
Definition compact_job (d : db) (tabs : list (list entry)) (inputs : list table) (ot : option table) : Prop :=
  exists pre post tp ti tq man, v_tables (d_cur d) = pre ++ inputs ++ post /\ tabs = tp ++ ti ++ tq /\ inputs <> [] /\
    Forall2 table_fine pre tp /\ Forall2 table_fine inputs ti /\ Forall2 table_fine post tq /\
    installs d ot (kept (is_bottom inputs (v_tables (d_cur d))) [] (union ti)) /\
    man_is d man /\ forall n, n ∈ t_num <$> inputs -> n ∉ tm_num <$> mf_tables man.

Lemma split_tables d mem imms tabs V pre inputs post :
  shows d mem imms tabs V -> v_tables (d_cur d) = pre ++ inputs ++ post ->
  exists tp ti tq, tabs = tp ++ ti ++ tq /\ Forall2 table_fine pre tp /\ Forall2 table_fine inputs ti /\ Forall2 table_fine post tq.
Proof.
  intros Hsh Hv. pose proof (sh_tab _ _ _ _ _ Hsh) as Ht. rewrite Hv in Ht.
  apply Forall2_app_inv_l in Ht as (tp & tr & Hp & Ht & ->). apply Forall2_app_inv_l in Ht as (ti & tq & Hi & Hq & ->). eauto 10.
Qed.

Lemma compact_prepare_ok d k mem imms tabs G V io n inputs d' r :
  ecore d k mem imms tabs G V -> compact_fits io inputs d -> window (v_tables (d_cur d)) inputs -> compact_prepare io n inputs d = (d', r) ->
  ecore d' k mem imms tabs G V /\ d_wal d' = d_wal d /\ d_cur d' = d_cur d /\ d_closed d' = d_closed d /\ d_seq d' = d_seq d /\
  (forall ot, r = Ret ot -> compact_job d' tabs inputs ot).
Proof.
  intros Hc [Hfit Hf] [Hlen (pre & post & Hv)] Hp. assert (inputs <> []) as Hne by (intros ->; simpl in Hlen; unfold minRun in Hlen; lia).
  destruct (split_tables _ _ _ _ _ _ _ _ (ec_shows _ _ _ _ _ _ _ Hc) Hv) as (tp & ti & tq & -> & Fp & Fi & Fq).
  unfold compact_prepare in Hp. destruct (table_iters_ok _ _ Fi) as (its & Hits & Hov). rewrite Hits in Hf, Hp.
  destruct (run_sorted Hc) as (Rs & Ra & Ru).
  destruct (writeTableFiltered _ _ _ _ d) as [d1 r1] eqn:Hw. destruct Hf as [Hsm Hman].
  assert (wrote d (kept (is_bottom inputs (v_tables (d_cur d))) [] (union ti)) r1 d1 (d_files d1)) as Hwr.
  { eapply (writeTableFiltered_ok (I:=mergeIter tierIter)); [by apply merge_union| |exact Hw|exact Hsm].
    rewrite (Permutation_length (union_perm ti)). apply (sum_fuel _ table_fine); [|done]. intros t es [Hh _]. by apply table_fuel_ok. }
  pose proof (wrote_core _ _ _ _ _ _ _ _ _ _ _ Hc Hwr ltac:(apply Hfit)) as Hc1. pose proof (wr_state _ _ _ _ _ Hwr) as Hd1.
  assert (d_wal d1 = d_wal d /\ d_cur d1 = d_cur d /\ d_closed d1 = d_closed d /\ d_seq d1 = d_seq d) as (Hw1 & Hcur1 & Hcl1 & Hsq1) by (by rewrite Hd1).
  destruct r1 as [ot|e|]; [|injection Hp as <- <-; by split_and!..].
  assert (installs d1 ot (kept (is_bottom inputs (v_tables (d_cur d))) [] (union ti))) as Hi.
  { eapply wrote_installs; [exact Hc|exact Hwr|apply Hfit| |done]. apply kinds_kept. apply Forall_forall. intros e He. rewrite union_perm in He.
    apply elem_of_concat in He as (t & He & Ht). apply list_elem_of_lookup_1 in Ht as [i Ht]. destruct (Forall2_lookup_r _ _ _ _ _ Fi Ht) as (x & _ & [_ Hk]).
    by eapply Forall_forall in Hk. }
  rewrite <-Hcur1 in Hv, Hi. pose proof (compact_durable Hc1 Hv Hne Fp Fi Fq ot Hi) as Hdur.
  destruct (write_man n _ d1) as [d2 err] eqn:Hwm. destruct (write_man_core _ _ _ _ _ _ _ _ _ _ _ _ Hc1 Hman Hdur Hwm) as (Hc2 & Hmi & (md & ->)).
  destruct err as [e|]; injection Hp as <- <-; (split_and!; [done|simpl; congruence..|]); [done|].
  intros ot' [= <-]. exists pre, post, tp, ti, tq, (compact_manifest inputs ot d1). split_and!; try done; [by eapply (installs_frame d1)|by apply Hmi|].
  destruct (compact_tables Hc1 Hv Hne Fp Fi Fq ot Hi) as (_ & _ & _ & Hx). intros n' Hn'. unfold compact_manifest. cbn [mf_tables].
  rewrite Hv, compact_metas_window; [|rewrite <-Hv; apply (ec_stored _ _ _ _ _ _ _ Hc1)|done]. rewrite <-list_fmap_compose. by apply Hx.
Qed.

(** ** Installing *)

Lemma drop_tables_files held nums d n :
  n ∉ nums -> d_files (drop_tables held nums d) !! n = d_files d !! n.
Proof.
  intros Hn. simpl. apply option_eq. intros x. rewrite map_lookup_filter_Some. simpl. tauto.
Qed.

(** Unlinking tables that neither the version nor a manifest names. *)
Lemma drop_tables_core d k mem imms tabs G V held nums :
  ecore d k mem imms tabs G V -> (forall n, n ∈ nums -> n ∉ t_num <$> v_tables (d_cur d)) -> (forall n, n ∈ nums -> (n < d_nextNum d)%N) ->
  (forall b M, may_read d b -> readManifest b = Ret M -> forall n, n ∈ nums -> n ∉ tm_num <$> mf_tables M) ->
  ecore (drop_tables held nums d) k mem imms tabs G V.
Proof.
  intros [Hsh Hsg Hst Hman] Hv Hlt Hm. split; [by destruct Hsh|by destruct Hsg| |].
  - destruct Hst as [H1 H2 H3 H4 H5 H6 H7 H8]. split; try done.
    + rewrite Forall_forall in *. intros t Ht. rewrite drop_tables_files; [by apply H1|]. intros Hn. apply (Hv _ Hn). by apply list_elem_of_fmap_2.
    + intros n [x [Hx _]%map_lookup_filter_Some]. apply H3. eauto.
    + simpl. intros n [[_ Hn]%list_elem_of_filter|Hn]%elem_of_app; [|by apply H4]. split; [by apply Hv|by apply Hlt].
  - intros b Hb. destruct (Hman b Hb) as (M & mtabs & HM & []). exists M, mtabs. split; [done|]. specialize (Hm b M Hb HM). split; try done.
    + eapply Forall2_impl_elem; [done|]. intros meta es Hin (t & Hf & Ht). exists t. split; [|done]. rewrite drop_tables_files; [done|].
      intros Hn. apply (Hm _ Hn). by apply list_elem_of_fmap_2.
    + simpl. intros n [[_ Hn]%list_elem_of_filter|Hn]%elem_of_app; auto.
Qed.

Lemma compact_version_core d k mem imms tabs G V inputs ot :
  ecore d k mem imms tabs G V -> compact_job d tabs inputs ot ->
  exists tabs', ecore (set_cur (withCompacted inputs ot (d_cur d)) d) k mem imms tabs' G V /\
    (forall n, n ∈ t_num <$> inputs -> n ∉ t_num <$> v_tables (withCompacted inputs ot (d_cur d))).
Proof.
  intros Hc (pre & post & tp & ti & tq & man & Hv & -> & Hne & Fp & Fi & Fq & Hi & Hman & Hnot).
  destruct (compact_tiers Hc Hv Hne Fq) as [Hse Ha]. destruct (compact_tables Hc Hv Hne Fp Fi Fq ot Hi) as (T1 & T2 & T3 & T4). pose proof Hc as [Hsh Hsg Hst Hmn].
  set (out := kept _ [] (union ti)) in *. exists (tp ++ out_tier out ++ tq). set (d' := set_cur _ d).
  assert (v_tables (withCompacted inputs ot (d_cur d)) = pre ++ option_list ot ++ post) as Ht'.
  { simpl. rewrite Hv. apply replace_window; [rewrite <-Hv; apply Hst|done]. }
  assert (forall e, e ∈ concat (tp ++ out_tier out ++ tq) -> e ∈ concat (tp ++ ti ++ tq)) as Hsub.
  { intros e. rewrite !concat_app, !elem_of_app. intros [?|[He|?]]; [tauto| |tauto]. unfold out in He. apply out_elem in He. tauto. }
  split; [|by rewrite Ht']. split.
  - destruct Hsh as [S1 S2 S3 S4 S5 S6 S7]. split; try done.
    + change (v_tables (d_cur d')) with (v_tables (withCompacted inputs ot (d_cur d))). rewrite Ht'. by apply (compact_installed (d:=d)).
    + intros e He. apply S6. rewrite elem_tiers in *. destruct He as [?|[?|He%Hsub]]; tauto.
  - by destruct Hsg.
  - destruct Hst as [H1 H2 H3 H4 H5 H6 H7 H8]. split; try done; change (v_tables (d_cur d')) with (v_tables (withCompacted inputs ot (d_cur d))); rewrite ?Ht'; try done.
    + intros n Hn. split; [by apply T3|by apply H4].
    + intros e He%Hsub. by apply H6.
  - intros b Hb. destruct (Hmn b Hb) as (M & mtabs & HM & []). exists M, mtabs. split; [done|]. by split.
Qed.

Lemma compact_install_ok d k mem imms tabs G ps V held inputs ot :
  einv d k mem imms tabs G ps V -> compact_job d tabs inputs ot ->
  exists tabs', einv (compact_install held inputs ot d) k mem imms tabs' G ps V.
Proof.
  intros [Hc Hl] Hj. destruct (compact_version_core _ _ _ _ _ _ _ _ _ Hc Hj) as (tabs' & Hc' & Hin). exists tabs'. split; [|done].
  destruct Hj as (pre & post & tp & ti & tq & man & Hv & _ & _ & _ & _ & _ & _ & Hman & Hnot).
  assert (ecore (drop_tables held (t_num <$> inputs) (set_cur (withCompacted inputs ot (d_cur d)) d)) k mem imms tabs' G V) as Hc2.
  { apply drop_tables_core; [done|done| |].
    - intros n (t & -> & Ht)%list_elem_of_fmap. simpl. apply (st_next _ _ (ec_stored _ _ _ _ _ _ _ Hc)).
      pose proof (st_files _ _ (ec_stored _ _ _ _ _ _ _ Hc)) as Hf. rewrite Forall_forall in Hf. exists (t_data t). apply Hf. rewrite Hv. set_solver.
    - intros b M Hb HM. rewrite (Hman b Hb) in HM. injection HM as <-. exact Hnot. }
  unfold compact_install. destruct Hc2 as [[] [] [] Hmn]. split; [by split..|]. intros b Hb. destruct (Hmn b Hb) as (M & mtabs & HM & []). exists M, mtabs. split; [done|by split].
Qed.

(** ** A reader lets go of a table that is gone *)

Lemma release_core d k mem imms tabs G V num :
  ecore d k mem imms tabs G V -> ecore (release num d) k mem imms tabs G V.
Proof.
  intros [Hsh Hsg Hst Hman]. unfold release. case_bool_decide as Hg; [|done]. split; [by destruct Hsh|by destruct Hsg| |].
  - destruct Hst as [H1 H2 H3 H4 H5 H6 H7 H8]. split; try done; simpl.
    + rewrite Forall_forall in *. intros t Ht. rewrite lookup_delete_ne; [by apply H1|]. intros ->. apply (H4 _ Hg). by apply list_elem_of_fmap_2.
    + intros n [x [_ Hx]%lookup_delete_Some]. apply H3. eauto.
    + intros n [_ Hn]%list_elem_of_filter. by apply H4.
  - intros b Hb. destruct (Hman b Hb) as (M & mtabs & HM & []). exists M, mtabs. split; [done|]. split; try done; simpl.
    + eapply Forall2_impl_elem; [done|]. intros meta es Hin (t & Hf & Ht). exists t. split; [|done]. rewrite lookup_delete_ne; [done|].
      intros ->. apply (du_gone _ Hg). by apply list_elem_of_fmap_2.
    + intros n [_ Hn]%list_elem_of_filter. auto.
Qed.
