(* ===== verification/EngineOpen.v ===== *)
(** * Opening the engine after a crash

    Replay puts the records back into memtables, segment by segment; with the
    tables of the manifest they show what the engine showed, and whole batches
    of the group in flight. *)

From stdpp Require Import base list gmap sorting.
From S2P Require Import Prelude Codec Key Batch Bloom Wal WalRecords Iter Versions Skiplist SkipProofs Memtable Heap Merge Block SSTable TableWrite TableRead Db DbIter Tiers Export MemDB Manifest Version Engine EngineLog EngineRead EngineInv EngineCommit EngineInstall EngineCompact.

(** ** Replay *)

(** After the records [P], from segment [L] on. *)
Record replayed (L s0 : N) (P : list record) (st : rstate) (ess : list (list entry)) : Prop := {
  rp_mems : Forall2 mem_holds (rs_mems st) ess;
  rp_segs : Forall2 (fun m es => seg_entries m es P) (rs_mems st) ess;
  rp_sorted : StronglySorted N.lt (mt_seg <$> rs_mems st);
  rp_from : forall s, s ∈ mt_seg <$> rs_mems st -> (L <= s)%N /\ exists r, r ∈ P /\ r.1 = s;
  rp_cover : forall r, r ∈ P -> (L <= r.1)%N -> r.1 ∈ mt_seg <$> rs_mems st;
  rp_max : Forall (fun m => mt_maxSeq m <= rs_seq st)%N (rs_mems st);
  rp_start : (s0 <= rs_seq st)%N;
  rp_ends : forall r, r ∈ P -> (L <= r.1)%N -> (rec_end r <= rs_seq st + 1)%N;
  rp_top : (rs_seq st < maxSeq)%N;
}.

Lemma glog_seg_before G r1 r2 : glog G -> r1 ∈ G -> r2 ∈ G -> (r1.1 < r2.1)%N -> (rec_end r1 <= r2.2.1)%N.
Proof.
  intros [_ Hs Hg] H1 H2 Hlt. induction G as [|r G IH]; [by apply not_elem_of_nil in H1|].
  apply StronglySorted_inv in Hs as [Hs Hall]. cbn [fmap list_fmap] in Hg. apply StronglySorted_inv in Hg as [Hg Hall2].
  rewrite Forall_forall in Hall. rewrite Forall_forall in Hall2. apply elem_of_cons in H1 as [->|H1], H2 as [->|H2]; [lia|by apply Hall| |auto].
  assert (r.1 <= r1.1)%N; [|lia]. apply Hall2. by apply list_elem_of_fmap_2.
Qed.

Lemma glog_snoc P r : glog (P ++ [r]) -> glog P /\ rec_ok r /\ forall x, x ∈ P -> (rec_end x <= r.2.1)%N /\ (x.1 <= r.1)%N.
Proof.
  intros [Hok Hs Hg]. apply Forall_app in Hok as [Hok Hr]. rewrite Forall_singleton in Hr. rewrite fmap_app in Hg.
  apply StronglySorted_app in Hs as (Hs1 & Hs & _). apply StronglySorted_app in Hg as (Hg1 & Hg & _).
  split_and!; [by split|done|]. intros x Hx. split; [apply Hs1; [done|set_solver]|]. apply Hg1; [by apply list_elem_of_fmap_2|set_solver].
Qed.

Lemma decode_rec r : rec_ok r -> decodeBatch (rec_bytes r).2 = Ret (r.2.1, mkBatch r.2.2 0).
Proof.
  intros [_ Hb _ _ Hs]. unfold rec_bytes. apply decodeBatch_encode; [done|]. unfold rec_end, maxSeq, w64 in *. lia.
Qed.

Section Replay.
Context (seeds : nat -> N) (L s0 : N).

Lemma in_seg_snoc s P r : in_seg s (P ++ [r]) = in_seg s P ++ (if decide (r.1 = s) then [r] else []).
Proof. unfold in_seg. rewrite filter_app, (filter_cons _ r). by destruct (decide (r.1 = s)). Qed.

Lemma rec_last r : rec_ok r -> u64 (r.2.1 + N.of_nat (length r.2.2) + (w64 - 1)) = (rec_end r - 1)%N /\ (r.2.1 < rec_end r)%N.
Proof.
  intros [_ _ Hne _ Hs]. unfold rec_end, u64, maxSeq, w64 in *. destruct r.2.2 as [|o os]; [done|]. cbn [length] in *. split; [|lia].
  replace (r.2.1 + N.of_nat (S (length os)) + (18446744073709551616 - 1))%N with (r.2.1 + N.of_nat (length os) + 1 * 18446744073709551616)%N by lia.
  rewrite N.Div0.mod_add, N.mod_small; lia.
Qed.

Lemma replay_ok P r st ess :
  replayed L s0 P st ess -> glog (P ++ [r]) -> (rec_end r <= maxSeq)%N ->
  exists st' ess', replay seeds L r.1 (rec_bytes r).2 st = Ret st' /\ replayed L s0 (P ++ [r]) st' ess'.
Proof.
  intros Hrp Hg _. destruct (glog_snoc _ _ Hg) as (HgP & Hr & Hbefore). unfold replay.
  destruct (N.ltb_spec r.1 L) as [Hlt|HL].
  { exists st, ess. split; [done|]. destruct Hrp as [R1 R2 R3 R4 R5 R6 R7 R8 R9]. split; try done.
    - eapply Forall2_impl_elem; [exact R2|]. intros m es Hin Hse e. rewrite (Hse e), in_seg_snoc, decide_False, app_nil_r; [done|].
      destruct (R4 (mt_seg m)) as [Hle _]; [by apply list_elem_of_fmap_2|]. lia.
    - intros s Hs. destruct (R4 s Hs) as (Hle & x & Hx & Hxs). split; [done|]. exists x. split; [set_solver|done].
    - intros x [Hx|Hx%list_elem_of_singleton]%elem_of_app Hle; [by apply R5|subst; lia].
    - intros x [Hx|Hx%list_elem_of_singleton]%elem_of_app Hle; [by apply R8|subst; lia]. }
  rewrite (decode_rec r Hr). cbn [mbind go_bind b_ops]. destruct (rec_last r Hr) as [-> Hlast].
  destruct Hrp as [R1 R2 R3 R4 R5 R6 R7 R8 R9].
  set (B := (if rs_seq st <? rec_end r - 1 then rec_end r - 1 else rs_seq st)%N).
  assert (rs_seq st <= B /\ rec_end r <= B + 1 /\ B < maxSeq)%N as (HB1 & HB2 & HB3).
  { unfold B. pose proof (ro_seq _ Hr). destruct (N.ltb_spec (rs_seq st) (rec_end r - 1)); lia. }
  (* the memtable the record goes to *)
  assert (exists before cur draws bess ces,
    match last (rs_mems st) with
    | Some cur => if (mt_seg cur =? r.1)%N then (removelast (rs_mems st), cur, rs_draws st)
                  else (rs_mems st, newMemtable (seeds (rs_draws st)) r.1, S (rs_draws st))
    | None => (rs_mems st, newMemtable (seeds (rs_draws st)) r.1, S (rs_draws st))
    end = (before, cur, draws) /\
    Forall2 mem_holds before bess /\ Forall2 (fun m es => seg_entries m es P) before bess /\ mem_holds cur ces /\ mt_seg cur = r.1 /\ seg_entries cur ces P /\
    StronglySorted N.lt (mt_seg <$> before ++ [cur]) /\ (forall s, s ∈ mt_seg <$> rs_mems st -> s ∈ mt_seg <$> before ++ [cur]) /\
    (forall s, s ∈ mt_seg <$> before -> s ∈ mt_seg <$> rs_mems st) /\ Forall (fun m => mt_maxSeq m <= rs_seq st)%N (before ++ [cur]))
    as (before & cur & draws & bess & ces & -> & B1 & B2 & C1 & C2 & C3 & S1 & S2 & S3 & M1).
  { assert (forall s, s ∈ mt_seg <$> rs_mems st -> (s <= r.1)%N) as Hle.
    { intros s Hs. destruct (R4 s Hs) as (_ & x & Hx & <-). by apply Hbefore. }
    assert ((exists cur, last (rs_mems st) = Some cur /\ mt_seg cur = r.1) \/ ~ (exists cur, last (rs_mems st) = Some cur /\ mt_seg cur = r.1)) as [(cur & Hcur & Hseg)|Hno].
    { destruct (last (rs_mems st)) as [c|]; [|right; by intros (? & ? & _)]. destruct (decide (mt_seg c = r.1)); [left; eauto|right]. by intros (? & [= <-] & ?). }
    - rewrite Hcur, Hseg, N.eqb_refl. apply last_Some in Hcur as [before Hb]. rewrite Hb in *. rewrite removelast_last.
      apply Forall2_app_inv_l in R1 as (bess & ces' & B1 & C1 & ->). apply Forall2_app_inv_l in R2 as (b2 & c2 & B2 & C2 & E).
      pose proof (Forall2_length _ _ _ B1) as L1. pose proof (Forall2_length _ _ _ B2) as L2.
      apply app_inj_1 in E as [<- <-]; [|congruence]. inversion C1 as [|? ces ? ? C1' C1'']; subst. inversion C1''; subst. inversion C2 as [|? ? ? ? C2' _]; subst.
      exists before, cur, (rs_draws st), bess, ces. split_and!; try done. intros s. rewrite fmap_app. set_solver.
    - assert (forall s, s ∈ mt_seg <$> rs_mems st -> (s < r.1)%N) as Hlt.
      { intros s Hs. specialize (Hle s Hs) as H1. destruct (decide (s = r.1)) as [->|]; [|lia]. exfalso. apply Hno.
        destruct (last (rs_mems st)) as [c|] eqn:Hc; [|apply last_None in Hc; rewrite Hc in Hs; set_solver]. exists c. split; [done|].
        apply last_Some in Hc as [l Hc]. rewrite Hc, fmap_app in *. specialize (Hle (mt_seg c) ltac:(set_solver)).
        apply elem_of_app in Hs as [Hs|Hs]; [|simpl in Hs; by apply list_elem_of_singleton in Hs].
        apply StronglySorted_app in R3 as (R3 & _ & _). specialize (R3 r.1 (mt_seg c) Hs ltac:(set_solver)). lia. }
      exists (rs_mems st), (newMemtable (seeds (rs_draws st)) r.1), (S (rs_draws st)), ess, []. split_and!; try done.
      + destruct (last (rs_mems st)) as [c|] eqn:Hc; [|done]. destruct (N.eqb_spec (mt_seg c) r.1) as [E|E]; [|done]. exfalso. apply Hno. by exists c.
      + apply new_mem_holds.
      + intros e. split; [set_solver|]. intros (x & [Hx Hxs]%elem_in_seg & _)%elem_log_entries. exfalso. simpl in Hxs.
        specialize (Hlt r.1). rewrite <-Hxs in Hlt at 1. specialize (Hlt ltac:(apply R5; [done|lia])). lia.
      + rewrite fmap_app. apply StronglySorted_app. split_and!; [|done|by repeat constructor]. simpl. intros s s' Hs ->%list_elem_of_singleton. by apply Hlt.
      + intros s. rewrite fmap_app. set_solver.
      + apply Forall_app. split; [done|]. constructor; [simpl; lia|constructor]. }
  assert (forall e, e ∈ ces -> (ik_seq e.1 < r.2.1)%N) as Hold.
  { intros e He. apply C3, elem_log_entries in He as (x & [Hx _]%elem_in_seg & He). destruct (Hbefore x Hx) as [Hx1 _].
    apply rec_entries_seq in He; [lia|]. pose proof (gl_ok _ HgP) as Hok. by eapply Forall_forall in Hok. }
  apply Forall_app in M1 as [M1 M2]. rewrite Forall_singleton in M2.
  destruct (put_ops_ok r.2.2 r.2.1 cur ces B C1 Hold) as (cur' & ces' & -> & C1' & Hces & Cseg & Cmax); [apply Hr|apply Hr|lia|unfold rec_end in *; lia|].
  cbn [mbind go_bind]. eexists _, (bess ++ [ces']). split; [done|].
  assert (mt_seg <$> before ++ [cur'] = mt_seg <$> before ++ [cur]) as Hsame by (rewrite !fmap_app; simpl; by rewrite Cseg).
  split; cbn [rs_mems rs_seq]; fold B.
  - apply Forall2_app; [done|]. by constructor.
  - apply Forall2_app.
    + eapply Forall2_impl_elem; [exact B2|]. intros m es Hin Hse e. rewrite (Hse e), in_seg_snoc, decide_False, app_nil_r; [done|].
      rewrite fmap_app in S1. apply StronglySorted_app in S1 as (S1 & _ & _). specialize (S1 (mt_seg m) (mt_seg cur) ltac:(by apply list_elem_of_fmap_2) ltac:(set_solver)).
      rewrite C2 in S1. intros E. rewrite E in S1. lia.
    + constructor; [|constructor]. intros e. rewrite Hces, Cseg, C2, in_seg_snoc, decide_True, log_entries_app, elem_of_app by done.
      rewrite (C3 e), C2. unfold log_entries at 3. simpl. rewrite app_nil_r. unfold rec_entries. tauto.
  - by rewrite Hsame.
  - rewrite Hsame. intros s. rewrite fmap_app, elem_of_app. intros [Hs|Hs].
    + destruct (R4 s (S3 s Hs)) as (Hle & x & Hx & Hxs). split; [done|]. exists x. split; [set_solver|done].
    + simpl in Hs. apply list_elem_of_singleton in Hs. subst s. rewrite C2. split; [done|]. exists r. split; [set_solver|done].
  - rewrite Hsame. intros x [Hx|Hx%list_elem_of_singleton]%elem_of_app Hle; [by apply S2, R5|]. subst x. rewrite fmap_app. rewrite <-C2. set_solver.
  - apply Forall_app. split; [|constructor; [done|constructor]]. eapply Forall_impl; [exact M1|]. simpl. intros. lia.
  - lia.
  - intros x [Hx|Hx%list_elem_of_singleton]%elem_of_app Hle; [specialize (R8 x Hx Hle); lia|]. subst x. lia.
  - done.
Qed.

Lemma replay_all Q : forall P st ess,
  replayed L s0 P st ess -> glog (P ++ Q) ->
  exists st' ess', go_foldl (fun r => replay seeds L r.1 r.2) (log_bytes Q) st = Ret st' /\ replayed L s0 (P ++ Q) st' ess'.
Proof.
  induction Q as [|r Q IH]; intros P st ess Hrp Hg; cbn [log_bytes fmap list_fmap go_foldl].
  - exists st, ess. by rewrite app_nil_r.
  - rewrite (cons_middle r P Q), app_assoc in Hg |- *.
    assert (glog (P ++ [r])) as Hgr.
    { destruct Hg as [Hok Hs Hseg]. rewrite fmap_app in Hseg. apply Forall_app in Hok as [? _]. apply StronglySorted_app in Hs as (_ & ? & _). apply StronglySorted_app in Hseg as (_ & ? & _). by split. }
    destruct (replay_ok P r st ess Hrp Hgr) as (st1 & ess1 & Hr1 & Hrp1); [apply glog_snoc in Hgr as (_ & Hr & _); apply Hr|].
    change (replay seeds L (rec_bytes r).1 (rec_bytes r).2 st) with (replay seeds L r.1 (rec_bytes r).2 st). rewrite Hr1. by apply (IH _ _ ess1).
Qed.
End Replay.

(** ** The log after opening *)

Lemma wal_inv_from w l L : wal_inv w l -> (forall s, is_Some (w_dir w !! s) -> (L <= s)%N) -> wal_inv w (from L l).
Proof.
  intros [H1 (f & Hf & Hc) H3 H4 H5] Hlow.
  assert (forall s f, w_dir w !! s = Some f -> of_seg s (from L l) = of_seg s l) as Hof by (intros s g Hg; apply of_seg_from; eauto).
  constructor; [done| | | |].
  - exists f. split; [done|]. by rewrite (Hof _ _ Hf).
  - intros s g Hg Hlt. rewrite (Hof _ _ Hg). by apply H3.
  - intros s g Hg Hlt. destruct (H4 s g Hg Hlt) as (? & ? & ? & ? & g' & Hg' & ?). split_and!; try done. exists g'. split; [done|]. by rewrite (Hof _ _ Hg').
  - intros s p [_ Hin]%list_elem_of_filter. eauto.
Qed.

Lemma StronglySorted_keep {A} (R : A -> A -> Prop) (P : A -> Prop) `{!forall x, Decision (P x)} (l : list A) :
  StronglySorted R l -> StronglySorted R (filter P l).
Proof.
  induction 1 as [|x l _ IH Hall]; [constructor|]. rewrite filter_cons. destruct (decide (P x)); [|done]. constructor; [done|].
  rewrite Forall_forall in Hall. apply Forall_forall. intros y [_ Hy]%list_elem_of_filter. by apply Hall.
Qed.

Lemma glog_from L G : glog G -> glog (from L G).
Proof.
  intros [H1 H2 H3]. split.
  - apply Forall_forall. intros r [Hr _]%elem_from. by eapply Forall_forall in H1.
  - by apply StronglySorted_keep.
  - by apply sorted_filter.
Qed.

(** Forgetting the segments that are gone. *)
Lemma opened_logged w k G L :
  glog G -> wal_inv w (log_bytes G) -> wal_clean w -> WalRecords.holds w (log_bytes G) -> keeps k w (log_bytes G) -> (k <= L)%N -> (L <= w_seg w)%N ->
  logged (DeleteBefore L w) L (from L G) [] /\ healthy (DeleteBefore L w) (from L G).
Proof.
  intros Hg Hinv Hcl Hh [K1 K2 K3] HkL HLw.
  assert (forall s, is_Some (w_dir (DeleteBefore L w) !! s) -> (L <= s)%N) as Hlow by (by intros s [? _]%DeleteBefore_present).
  assert (WalRecords.holds (DeleteBefore L w) (log_bytes (from L G))) as Hh'.
  { intros s f Hf. rewrite <-from_log_bytes, of_seg_from by (by eauto). by apply (DeleteBefore_holds L _ _ Hh). }
  split; [|split; [by apply DeleteBefore_clean|done]]. split; [by apply glog_from| |by apply holds_at_most|].
  - rewrite <-from_log_bytes. apply wal_inv_from; [by apply DeleteBefore_inv|done].
  - rewrite <-from_log_bytes. split; [|done|by apply sorted_filter].
    intros s p [_ Hin]%list_elem_of_filter Hle. apply DeleteBefore_present. split; [done|]. apply (K1 s p Hin). lia.
Qed.

Lemma OpenWAL_seg {S} opts (replay : N -> bytes -> S -> go S) dir st w st' s :
  OpenWAL opts OpenOk replay dir st = Ret (w, st') -> is_Some (dir !! s) -> (s < w_seg w)%N.
Proof.
  unfold OpenWAL. destruct (replay_segments _ _ _ _) as [[dir' st1]| |]; cbn [mbind go_bind]; [|done..].
  intros Ho Hs. assert (exists m, list.last (listSegments dir) = Some m /\ (s <= m)%N) as (m & Hm & Hle).
  { destruct (list.last (listSegments dir)) as [m|] eqn:El; [exists m; split; [done|by eapply listSegments_last]|].
    apply last_None in El. apply elem_of_listSegments in Hs. rewrite El in Hs. by apply not_elem_of_nil in Hs. }
  rewrite Hm in Ho. unfold openSegment in Ho. cbn [w_dir] in Ho. destruct (dir' !! (m + 1)%N); [done|]. injection Ho as <- _. simpl. lia.
Qed.

Lemma OpenWAL_first opts {S} (replay : N -> bytes -> S -> go S) st :
  SyncInterval opts = false ->
  exists w, OpenWAL opts OpenOk replay ∅ st = Ret (w, st) /\ w_seg w = 1%N /\ logged w 1 [] [] /\ healthy w [].
Proof.
  intros Hsync. pose proof (OpenWAL_ok opts replay ∅ (fun _ => []) (fun _ => []) st st (dir_ok_empty _ _) eq_refl) as Ho. cbv zeta in Ho.
  assert (list.last (listSegments ∅) = None) as Hl by reflexivity. rewrite Hl in Ho. eexists. split; [exact Ho|]. split; [done|].
  assert (wal_inv (mkWAL (eff_opts opts) (<[1%N := mkFile [] 0]> ∅) 1 true 0 false false None None) []) as Hinv.
  { eapply (OpenWAL_inv replay opts ∅ (fun _ => []) (fun _ => []) [] st st); [done|apply dir_ok_empty|by intros ? ? ?|by intros ? ? ?%not_elem_of_nil|done|exact Ho]. }
  assert (WalRecords.holds (mkWAL (eff_opts opts) (<[1%N := mkFile [] 0]> ∅) 1 true 0 false false None None) []) as Hh.
  { intros s f Hf. simpl in Hf. apply lookup_insert_Some in Hf as [[<- <-]|[_ ?]]; done. }
  split; [|split; [by constructor|done]]. split; [by repeat constructor|done|by apply holds_at_most|].
  split; [by intros ? ? ?%not_elem_of_nil| |constructor]. simpl. intros s [f [[<- _]|[_ ?]]%lookup_insert_Some]; done.
Qed.

(** ** The tables *)

Lemma open_tables_ok files metas mtabs :
  Forall2 (on_disk files) metas mtabs ->
  exists ts, open_tables files metas = Ret ts /\ Forall2 table_fine ts mtabs /\ t_meta <$> ts = metas /\
    Forall (fun t => files !! t_num t = Some (t_data t)) ts.
Proof.
  induction 1 as [|meta es metas mtabs (t & Hf & Ht & Hk) _ (ts & IH & H1 & H2 & H3)]; [by exists []|]. cbn [open_tables]. rewrite Hf.
  destruct (table_reopen t es meta Ht) as (t' & Ho & Ht' & Hm & Hd). rewrite Ho. cbn [mbind go_bind]. rewrite IH. cbn [mbind go_bind].
  eexists. split; [done|]. split_and!; [by constructor|cbn [fmap list_fmap]; by f_equal|]. constructor; [|done]. unfold t_num. by rewrite Hm, Hd.
Qed.

(** ** Opening *)

(** What a crash leaves: files that were synced, others anything. *)
Definition crashed (d : db) (kd : disk) : Prop :=
  crash (w_dir (d_wal d)) (k_wal kd) /\ d_files d ⊆ k_files kd /\ may_read d (k_man kd).

(** The engine put together from a durable manifest and a replayed log. *)
Record recovered (M : manifest) (mtabs : list (list entry)) (G : list record) (V : gmap bytes bytes) (files : gmap N bytes) : Prop := {
  rc_tabs : Forall2 (on_disk files) (mf_tables M) mtabs;
  rc_aged : aged (disk_tiers M G mtabs);
  rc_sees : sees (fun e => e ∈ concat (disk_tiers M G mtabs)) V;
  rc_last : forall e, e ∈ concat mtabs -> (ik_seq e.1 <= mf_lastSeq M)%N;
  rc_nums : Forall (fun meta => tm_num meta < mf_nextNum M)%N (mf_tables M);
  rc_nodup : NoDup (tm_num <$> mf_tables M);
  rc_wide : (mf_nextNum M < w64)%N;
}.

Lemma on_disk_live M files meta es : meta ∈ mf_tables M -> on_disk files meta es -> on_disk (removeStrayTables M files) meta es.
Proof.
  intros Hin (t & Hf & Ht). exists t. split; [|done]. apply map_lookup_filter_Some. split; [done|]. simpl. by apply (list_elem_of_fmap_2 tm_num).
Qed.

Section Assemble.
Context {opts : Options} {seeds : nat -> N} {M : manifest} {mtabs : list (list entry)} {G : list record} {V : gmap bytes bytes} {files : gmap N bytes}.
Context {kman : option bytes} {w : WAL} {st : rstate} {ess : list (list entry)} {ts : list table}.
Context (Hrc : recovered M mtabs G V files) (Hg : glog G) (Hman : readManifest kman = Ret M).
Context (Hrp : replayed (mf_logNum M) (mf_lastSeq M) G st ess).
Context (Hlog : logged (DeleteBefore (mf_logNum M) w) (mf_logNum M) (from (mf_logNum M) G) []).
Context (HLw : (mf_logNum M <= w_seg w)%N) (Hnew : forall r, r ∈ G -> (r.1 < w_seg w)%N).
Context (Hts : Forall2 table_fine ts mtabs) (Hmeta : t_meta <$> ts = mf_tables M).
Context (Hfiles : Forall (fun t => removeStrayTables M files !! t_num t = Some (t_data t)) ts).

Definition assembled : db :=
  mkDb opts (DeleteBefore (mf_logNum M) w) (newVersion (newMemtable (seeds (rs_draws st)) (w_seg w)) (rs_mems st) ts) (mf_nextNum M) false None
    (rs_seq st) (mf_lastSeq M) 0 0 (removeStrayTables M files) [] (mkManDir kman kman).

Lemma assembled_log e : e ∈ log_entries (from (mf_logNum M) G) <-> e ∈ concat ess.
Proof.
  destruct Hrp as [R1 R2 R3 R4 R5 R6 R7 R8 R9]. rewrite elem_log_entries, elem_of_concat. split.
  - intros (r & [Hr Hle]%elem_from & He). specialize (R5 r Hr Hle). apply list_elem_of_fmap in R5 as (m & Hm & Hin).
    apply list_elem_of_lookup_1 in Hin as [i Hin]. destruct (Forall2_lookup_l _ _ _ _ _ R2 Hin) as (es & Hes & Hse).
    exists es. split; [|by eapply list_elem_of_lookup_2]. apply Hse, elem_log_entries. exists r. by rewrite elem_in_seg.
  - intros (es & He & Hes). apply list_elem_of_lookup_1 in Hes as [i Hes]. destruct (Forall2_lookup_r _ _ _ _ _ R2 Hes) as (m & Hm & Hse).
    apply Hse, elem_log_entries in He as (r & [Hr Hseg]%elem_in_seg & He). exists r. split; [|done]. apply elem_from. split; [done|].
    rewrite Hseg. apply R4. apply list_elem_of_fmap_2. by eapply list_elem_of_lookup_2.
Qed.

(** Later segments have higher sequence numbers. *)
Lemma assembled_aged_log : aged (reverse ess).
Proof.
  destruct Hrp as [_ R2 R3 _ _ _ _ _ _]. clear - R2 R3 Hg. revert R3. induction R2 as [|m es ms ess Hse H2 IH]; intros R3; [constructor|].
  cbn [fmap list_fmap] in R3. apply StronglySorted_inv in R3 as [R3 Hall]. rewrite reverse_cons. apply aged_app. split_and!; [by apply IH|by repeat constructor|].
  intros t1 t2 Ht1 ->%list_elem_of_singleton e1 e2 He1 He2. rewrite elem_of_reverse in Ht1. apply list_elem_of_lookup_1 in Ht1 as [i Ht1].
  destruct (Forall2_lookup_r _ _ _ _ _ H2 Ht1) as (m1 & Hm1 & Hse1). apply Hse1, elem_log_entries in He1 as (r1 & [Hr1 Hs1]%elem_in_seg & He1).
  apply Hse, elem_log_entries in He2 as (r2 & [Hr2 Hs2]%elem_in_seg & He2). rewrite Forall_forall in Hall.
  assert (mt_seg m < mt_seg m1)%N as Hlt by (apply Hall, list_elem_of_fmap_2; by eapply list_elem_of_lookup_2).
  pose proof (glog_seg_before G r2 r1 Hg Hr2 Hr1 ltac:(lia)) as Hb. pose proof (gl_ok _ Hg) as Hok. rewrite Forall_forall in Hok.
  apply rec_entries_seq in He1; [|by apply Hok]. apply rec_entries_seq in He2; [|by apply Hok]. lia.
Qed.

Lemma assembled_seq e : e ∈ concat (disk_tiers M G mtabs) -> (ik_seq e.1 <= rs_seq st)%N.
Proof.
  intros [He|He]%elem_of_app.
  - apply elem_log_entries in He as (r & [Hr Hle]%elem_from & He). pose proof (rp_ends _ _ _ _ _ Hrp r Hr Hle).
    apply rec_entries_seq in He; [lia|]. pose proof (gl_ok _ Hg) as Hok. by eapply Forall_forall in Hok.
  - pose proof (rc_last _ _ _ _ _ Hrc e He). pose proof (rp_start _ _ _ _ _ Hrp). lia.
Qed.

Lemma from_idem : from (mf_logNum M) (from (mf_logNum M) G) = from (mf_logNum M) G.
Proof. apply filter_all, Forall_forall. by intros r [_ ?]%elem_from. Qed.

Lemma assembled_durable : durable assembled (mf_logNum M) (from (mf_logNum M) G) V M mtabs.
Proof.
  destruct Hrc as [C1 C2 C3 C4 C5 C6 C7]. split; try done.
  - eapply Forall2_impl_elem; [exact C1|]. intros meta es Hin. by apply on_disk_live.
  - unfold disk_tiers. by rewrite from_idem.
  - unfold disk_tiers. by rewrite from_idem.
  - simpl. apply (rp_start _ _ _ _ _ Hrp).
  - simpl. intros n. set_solver.
Qed.

Lemma assembled_einv : einv assembled (mf_logNum M) [] ess mtabs (from (mf_logNum M) G) [] V.
Proof.
  destruct Hrp as [R1 R2 R3 R4 R5 R6 R7 R8 R9]. pose proof Hrc as [C1 C2 C3 C4 C5 C6 C7].
  assert (forall e, e ∈ concat (tiers [] ess mtabs) <-> e ∈ concat (disk_tiers M G mtabs)) as Hsame.
  { intros e. rewrite elem_tiers. unfold disk_tiers. cbn [concat]. rewrite elem_of_app, assembled_log. set_solver. }
  assert (forall s, s ∈ mt_seg <$> rs_mems st -> (s < w_seg w)%N) as Hbelow.
  { intros s Hs. destruct (R4 s Hs) as (_ & r & Hr & <-). by apply Hnew. }
  assert (mem_segs (d_cur assembled) = (mt_seg <$> rs_mems st) ++ [w_seg w]) as Hms by done.
  assert (mf_logNum M <= oldestSegment assembled)%N as Hold.
  { unfold oldestSegment. simpl. destruct (rs_mems st) as [|m ms] eqn:E; [done|]. apply R4. set_solver. }
  split; [|done]. split; [| | |intros b [->| ->]; (exists M, mtabs; split; [done|apply assembled_durable])].
  - split; try done.
    + apply new_mem_holds.
    + constructor; [|apply Forall_forall; intros t _ e1 e2 He1; set_solver]. apply aged_app. split_and!; [apply assembled_aged_log| |].
      * by apply StronglySorted_inv in C2 as [? _].
      * intros t1 t2 Ht1 Ht2 e1 e2 He1 He2. apply StronglySorted_inv in C2 as [_ C2]. rewrite Forall_forall in C2. apply (C2 t2 Ht2); [|done].
        apply assembled_log, elem_of_concat. exists t1. split; [done|]. by apply elem_of_reverse.
    + eapply sees_ext; [|exact C3]. intros e. by rewrite Hsame.
    + intros e He%Hsame. by apply assembled_seq.
  - split; rewrite ?Hms; simpl; try done.
    + apply StronglySorted_app. split_and!; [|done|by repeat constructor]. intros s s' Hs ->%list_elem_of_singleton. by apply Hbelow.
    + intros e. split; [set_solver|]. intros (r & [[Hr _]%elem_from Hs]%elem_in_seg & _)%elem_log_entries. simpl in Hs. specialize (Hnew r Hr). lia.
    + eapply Forall2_impl_elem; [exact R2|]. intros m es Hin Hse e. rewrite (Hse e), !elem_log_entries.
      destruct (R4 (mt_seg m)) as [Hle _]; [by apply list_elem_of_fmap_2|]. setoid_rewrite elem_in_seg. setoid_rewrite elem_from.
      split; intros (r & Hr & He); exists r; split; try done; [|tauto]. destruct Hr as [Hr Hs]. split_and!; [done|lia|done].
    + intros r [Hr Hle]%elem_from _. apply elem_of_app. left. by apply R5.
    + intros r [Hr Hle]%elem_from. by apply R8.
  - split; simpl; try done.
    + unfold nums_distinct. replace (t_num <$> ts) with (tm_num <$> (t_meta <$> ts)) by (by rewrite <-list_fmap_compose). by rewrite Hmeta.
    + intros n [x [_ Hx]%map_lookup_filter_Some]. simpl in Hx. apply list_elem_of_fmap in Hx as (meta & -> & Hin). rewrite Forall_forall in C5. by apply C5.
    + set_solver.
    + constructor; [simpl; lia|done].
Qed.
End Assemble.

Lemma replayed_nil L s : (s < maxSeq)%N -> replayed L s [] (mkRs [] s 0) [].
Proof. intros Hs. split; simpl; try done; try constructor; set_solver. Qed.

Lemma log_bytes_skip seeds L k G st :
  (k <= L)%N -> go_foldl (fun r => replay seeds L r.1 r.2) (from k (log_bytes G)) st = go_foldl (fun r => replay seeds L r.1 r.2) (log_bytes G) st.
Proof.
  intros Hk. rewrite from_log_bytes. unfold from. revert st. induction G as [|r G IH]; intros st; [done|]. rewrite filter_cons.
  destruct (decide (k <= r.1)%N) as [Hle|Hlt]; cbn [log_bytes fmap list_fmap go_foldl].
  - destruct (replay seeds L _ _ st); cbn [mbind go_bind]; [apply IH|done..].
  - etrans; [apply IH|]. assert (replay seeds L (rec_bytes r).1 (rec_bytes r).2 st = Ret st) as ->; [|done].
    unfold replay. simpl. by rewrite (proj2 (N.ltb_lt r.1 L)) by lia.
Qed.

(** A crash at any point, and the next start. *)
Lemma Open_ok d k mem imms tabs G ps V group opts seeds kd :
  einv d k mem imms tabs G ps V -> group_fits d group -> ps = payloads d group -> crashed d kd -> o_SyncInterval opts = false ->
  exists j d' k' imms' tabs' G', Open seeds opts OpenOk kd = Ret d' /\ d_closed d' = false /\
    einv d' k' [] imms' tabs' G' [] (apply_ops (group_ops (take j group)) V) /\ healthy (d_wal d') G'.
Proof.
  intros [Hc Hl] Hfit -> (Hcr & Hfs & Hmr) Hsync. destruct (ec_man _ _ _ _ _ _ _ Hc _ Hmr) as (M & mtabs & HM & Hdu).
  pose proof Hl as [Hg Hinv Hat Hk]. unfold Open. rewrite HM. cbn [mbind go_bind].
  destruct (reopen (mkWALOptions (Z.to_N (wrap_int (o_MemtableSize (withDefaults opts) * 4))) (o_SyncInterval (withDefaults opts))) _ _ _ _ _ Hsync Hinv Hat Hk Hcr) as (j & Hj & _ & Hopen).
  set (wo := mkWALOptions _ _) in *. exists j.
  set (G' := G ++ group_records (w_seg (d_wal d)) (d_seq d + 1) (take j group)).
  assert (Forall rec_ok (group_records 0 (d_seq d + 1) (take j group))) as Hrecs.
  { rewrite group_records_take. apply Forall_take, Hfit. }
  assert (log_bytes G ++ (pair (w_seg (d_wal d)) <$> take j (payloads d group)) = log_bytes G') as HG.
  { unfold G', payloads. rewrite log_bytes_app, (group_records_bytes (w_seg (d_wal d))), group_records_take. unfold log_bytes. by rewrite !fmap_take. }
  rewrite HG in Hopen.
  assert (length (group_ops (take j group)) <= length (group_ops group)) as Hlen.
  { unfold group_ops. rewrite <-(take_drop j group) at 2. rewrite fmap_app, concat_app, length_app. lia. }
  assert (glog G') as Hg'.
  { apply glog_group; [done|apply (ec_segs _ _ _ _ _ _ _ Hc)| |done]. intros r Hr. apply (inv_acked _ _ Hinv r.1 (rec_bytes r).2). by apply (list_elem_of_fmap_2 rec_bytes). }
  assert (mf_logNum M <= w_seg (d_wal d))%N as HLd.
  { etrans; [apply Hdu|apply (ec_segs _ _ _ _ _ _ _ Hc)]. }
  destruct (disk_grow M mtabs G V (w_seg (d_wal d)) (d_seq d + 1) (take j group)) as [Hs' Ha'];
    [apply Hdu|apply Hdu|intros e; eapply disk_seq; [apply Hc|apply Hg|exact Hdu]|done|destruct Hfit; lia|by eapply group_fine|]. fold G' in Hs', Ha'.
  assert (recovered M mtabs G' (apply_ops (group_ops (take j group)) V) (k_files kd)) as Hrc.
  { destruct Hdu. split; try done; [eapply Forall2_impl; [done|]; intros meta es; by apply on_disk_mono|].
    pose proof (st_wide _ _ (ec_stored _ _ _ _ _ _ _ Hc)). lia. }
  destruct (open_tables_ok (removeStrayTables M (k_files kd)) (mf_tables M) mtabs) as (ts & -> & Hts & Hmeta & Hfl).
  { eapply Forall2_impl_elem; [apply Hrc|]. intros meta es Hin. by apply on_disk_live. }
  cbn [mbind go_bind].
  destruct (replay_all seeds (mf_logNum M) (mf_lastSeq M) G' [] (mkRs [] (mf_lastSeq M) 0) []) as (st & ess & Hrun & Hrp);
    [apply replayed_nil; pose proof (du_seq _ _ _ _ _ _ Hdu); pose proof (sh_max _ _ _ _ _ (ec_shows _ _ _ _ _ _ _ Hc)); lia|done|].
  specialize (Hopen _ (replay seeds (mf_logNum M)) (mkRs [] (mf_lastSeq M) 0)).
  rewrite (log_bytes_skip seeds _ k G' _ (du_low _ _ _ _ _ _ Hdu)), Hrun in Hopen. destruct Hopen as (w & Hw & Hinv' & Hcl' & Hh' & Hk').
  rewrite Hw. cbn [mbind go_bind].
  assert (w_seg (d_wal d) < w_seg w)%N as Hseg.
  { eapply OpenWAL_seg; [exact Hw|]. apply (crash_lookup _ _ _ Hcr). by eapply keeps_cur. }
  destruct (opened_logged w k G' (mf_logNum M) Hg' Hinv' Hcl' Hh' Hk' (du_low _ _ _ _ _ _ Hdu) ltac:(lia)) as [Hlg Hhl].
  eexists _, (mf_logNum M), ess, mtabs, (from (mf_logNum M) G'). split; [done|]. split; [done|]. split; [|exact Hhl].
  apply (assembled_einv (opts:=withDefaults opts) (seeds:=seeds) Hrc Hg' HM Hrp Hlg ltac:(lia)); try done.
  intros r [Hr|[-> _]%group_records_from]%elem_of_app; [|done].
  eapply N.le_lt_trans; [|exact Hseg]. apply (inv_acked _ _ Hinv r.1 (rec_bytes r).2). by apply (list_elem_of_fmap_2 rec_bytes).
Qed.

(** The first start. *)
Lemma Open_first opts seeds :
  o_SyncInterval opts = false ->
  exists d, Open seeds opts OpenOk (mkDisk ∅ ∅ None) = Ret d /\ d_closed d = false /\ einv d 1 [] [] [] [] [] ∅ /\ healthy (d_wal d) [].
Proof.
  intros Hsync. unfold Open. cbn [k_man k_files k_wal readManifest mbind go_bind mf_tables open_tables mf_logNum mf_lastSeq].
  destruct (OpenWAL_first (mkWALOptions (Z.to_N (wrap_int (o_MemtableSize (withDefaults opts) * 4))) (o_SyncInterval (withDefaults opts)))
    (replay seeds 1) (mkRs [] 0 0) Hsync) as (w & -> & Hseg & [Hg Hinv Hat Hk] & [Hcl Hh]). cbn [mbind go_bind].
  set (M := mkManifest 1 0 1 []).
  assert (recovered M [] [] ∅ ∅) as Hrc.
  { split.
    - constructor.
    - by repeat constructor.
    - eapply sees_ext; [|exact sees_empty]. intros e. split; [done|]. by intros ?%not_elem_of_nil.
    - by intros e ?%not_elem_of_nil.
    - constructor.
    - apply NoDup_nil_2.
    - done. }
  destruct (opened_logged w 1 [] 1 Hg Hinv Hcl Hh Hk ltac:(done) ltac:(lia)) as [Hlg Hhl].
  eexists. split; [done|]. split; [done|]. split; [|exact Hhl].
  apply (assembled_einv (M:=M) (mtabs:=[]) (G:=[]) (V:=∅) (files:=∅) (kman:=None) (w:=w) (st:=mkRs [] 0 0) (ess:=[]) (ts:=[]) (opts:=withDefaults opts) (seeds:=seeds) Hrc Hg); try done.
  - by apply replayed_nil.
  - by rewrite Hseg.
  - by intros r ?%not_elem_of_nil.
Qed.
