(* ===== verification/EngineRestore.v ===== *)
(** * Restoring a snapshot

    The table of a snapshot becomes the only tier. *)

From stdpp Require Import base list gmap sorting.
From S2P Require Import Prelude Codec Key Batch Bloom Wal WalRecords Iter Versions Skiplist SkipProofs Memtable Heap Merge Block SSTable TableWrite TableRead Db DbIter Tiers Export MemDB Manifest Version Engine EngineLog EngineRead EngineInv EngineCommit EngineInstall EngineCompact.

(** ** Snapshots *)

(** A snapshot of the map [V]. *)
Definition snapshot_shows (data : bytes) (V : gmap bytes bytes) : Prop :=
  exists seq es, snapshot_of seq es data /\ ik_sorted es /\ keys_wf es /\ kinds_ok es /\ sees (fun e => e ∈ es) V /\
    (forall e, e ∈ es -> (ik_seq e.1 <= seq)%N) /\ (seq < maxSeq)%N.

Lemma export_snapshot d mem imms tabs V io data :
  shows d mem imms tabs V -> db_Export io d = Ret data -> snapshot_shows data V.
Proof.
  intros Hd He. exists (d_seq d), (union (tiers mem imms tabs)). pose proof (db_Export_ok Hd io data He) as Hs.
  destruct (version_iters_ok Hd) as (its & _ & Hov). destruct (it_over_sorted _ _ Hov) as [Hsort Hwf].
  split_and!; [done|done|done|apply (union_kinds Hd)| | |apply Hd].
  - eapply sees_ext; [|apply Hd]. intros e. by rewrite union_perm.
  - intros e. rewrite union_perm. apply Hd.
Qed.

(** Below the sequence number an export is a rewrite. *)
Lemma exported_kept seq last es : (forall e, e ∈ es -> (ik_seq e.1 <= seq)%N) -> exported seq last es = kept true last es.
Proof.
  revert last. induction es as [|e es IH]; intros last Hle; [done|]. cbn [exported kept].
  rewrite (proj2 (N.ltb_ge _ _)) by (apply Hle; set_solver). cbn [orb andb]. rewrite !IH by set_solver. done.
Qed.

(** ** Reading the copy *)

Lemma restore_meta_ok fuel it meta maxS tes p bound :
  it_at it tes p -> length tes - p <= fuel -> (forall e, e ∈ tes -> (ik_seq e.1 <= bound)%N) -> (maxS <= bound)%N ->
  (tm_count meta + N.of_nat (length tes - p) < w64)%N ->
  exists it' meta' maxS', restore_meta fuel it meta maxS = Ret (it', meta', maxS') /\ ti_err it' = None /\ tm_num meta' = tm_num meta /\
    tm_count meta' = (tm_count meta + N.of_nat (length tes - p))%N /\ (forall e, e ∈ drop p tes -> (ik_seq e.1 <= maxS')%N) /\ (maxS <= maxS' <= bound)%N.
Proof.
  revert it meta maxS p. induction fuel as [|fuel IH]; intros it meta maxS p Hat Hf Hb Hm Hc;
    pose proof (it_at_over _ _ _ Hat) as Hov; destruct (it_over_sorted _ _ Hov) as [Hs Hwf];
    cbn [restore_meta]; change (table_valid it) with (it_valid it); rewrite (it_valid_ok _ _ _ Hat);
    destruct (Nat.ltb_spec p (length tes)) as [Hlt|Hge]; try lia;
    try (exists it, meta, maxS; rewrite drop_ge by lia; split_and!; [done|exact (it_close_ok _ _ Hov)|done|lia|set_solver|lia|lia]).
  destruct (lookup_lt_is_Some_2 tes p Hlt) as [e He]. destruct (it_key_ok _ _ _ _ Hat He) as [Hk _].
  assert (e ∈ tes) as Hin by (by eapply list_elem_of_lookup_2).
  change (table_key it) with (it_key it). rewrite Hk. cbn [mbind go_bind]. rewrite split_key_wf by (by eapply Forall_lookup_1 in Hwf). cbn [mbind go_bind].
  destruct (it_next_ok _ _ _ Hat Hlt) as (it' & Hn & Hat'). change (table_next it) with (it_next it). rewrite Hn. cbn [mbind go_bind].
  rewrite u64_small by lia.
  set (meta1 := mkMeta _ _ _ _ _). set (m1 := (if maxS <? ik_seq e.1 then ik_seq e.1 else maxS)%N).
  assert (maxS <= m1 /\ ik_seq e.1 <= m1 /\ m1 <= bound)%N as (M1 & M2 & M3).
  { unfold m1. specialize (Hb e Hin). destruct (N.ltb_spec maxS (ik_seq e.1)); lia. }
  destruct (IH it' meta1 m1 (S p) Hat' ltac:(lia) Hb M3) as (it2 & meta2 & m2 & -> & E1 & E2 & E3 & E4 & E5); [unfold meta1; simpl; lia|].
  exists it2, meta2, m2. split_and!; [done|done|done|rewrite E3; unfold meta1; simpl; lia| |lia|lia].
  intros x Hx. rewrite (drop_S _ _ _ He) in Hx. apply elem_of_cons in Hx as [->|Hx]; [lia|by apply E4].
Qed.

Lemma read_restored_ok num bs io tes m data bound :
  ik_sorted tes -> keys_wf tes -> writeTable tes (newStreamWriter bs io) = Ret (m, data) -> (N.of_nat (length data) < w32)%N ->
  (forall e, e ∈ tes -> (ik_seq e.1 <= bound)%N) ->
  exists t maxS, read_restored num data = Ret (t, maxS) /\ table_holds t tes /\ t_num t = num /\ t_data t = data /\
    tm_count (t_meta t) = N.of_nat (length tes) /\ (forall e, e ∈ tes -> (ik_seq e.1 <= maxS)%N) /\ (maxS <= bound)%N.
Proof.
  intros Hs Hwf Hw Hlen Hb. unfold read_restored, openTable. set (meta := mkMeta num _ 0 [] []).
  destruct (open_holds false 0 bs io tes m data meta (fun _ => false) Hs Hwf Hw Hlen) as (t & Ht & Hh); [done|]. rewrite Ht. cbn [mbind go_bind].
  apply readFooter_inv in Ht as [Htm Htd]. destruct (table_iter_over _ _ Hh) as (it & -> & Hov). cbn [mbind go_bind].
  destruct (it_seekToFirst_ok _ _ Hov) as (it1 & Hi1 & Hat). change (table_seekToFirst it) with (it_seekToFirst it). rewrite Hi1. cbn [mbind go_bind].
  assert (length tes <= length data) as Hle.
  { rewrite <-Htd. by apply table_fuel_ok. }
  destruct (restore_meta_ok (length data) it1 meta 0 tes 0 bound Hat) as (it2 & meta2 & maxS & -> & Herr & Hn & Hc & Hall & Hmx);
    [lia|done|lia|simpl; unfold w32, w64 in *; lia|]. cbn [mbind go_bind]. rewrite Herr. rewrite drop_0 in Hall.
  eexists _, maxS. split; [done|]. split_and!; [|by unfold t_num; simpl; rewrite Hn|done|simpl; rewrite Hc; simpl; f_equal; lia|done|lia].
  destruct Hh as [(chunks & Hr & Hch) Hbl]. split; [|done]. exists chunks. split; [|done]. by destruct Hr.
Qed.

(** ** The engine with nothing but tables *)

Section Fresh.
Context {d : db} {k : N} {G : list record} {V : gmap bytes bytes} {tabs : list (list entry)} {ts : list table} {seed seg : N} {M : manifest}.
Context (Hcur : d_cur d = newVersion (newMemtable seed seg) [] ts) (Hts : Forall2 table_fine ts tabs) (Ha : aged tabs).
Context (Hsees : sees (fun e => e ∈ concat tabs) V) (Hfl : forall e, e ∈ concat tabs -> (ik_seq e.1 <= d_flushedSeq d)%N).
Context (Hfs : (d_flushedSeq d <= d_seq d)%N) (Hmax : (d_seq d < maxSeq)%N).
Context (HG : forall r, r ∈ G -> (r.1 < seg)%N /\ (rec_end r <= d_seq d + 1)%N) (Hseg : (seg <= w_seg (d_wal d))%N) (Hk : (k <= seg)%N).
Context (Hfiles : Forall (fun t => d_files d !! t_num t = Some (t_data t)) ts) (Hnd : nums_distinct ts).
Context (Hnext : forall n, is_Some (d_files d !! n) -> (n < d_nextNum d)%N) (Hwide : (d_nextNum d < w64)%N).
Context (Hgone : forall n, n ∈ d_gone d -> (n ∉ t_num <$> ts) /\ (n < d_nextNum d)%N).
Context (Hman : man_is d M) (HM : M = mkManifest (d_nextNum d) (d_flushedSeq d) seg (t_meta <$> ts)).

Lemma fresh_log : log_entries (from seg G) = [].
Proof.
  replace (from seg G) with (@nil record); [done|]. symmetry. apply elem_of_nil_inv. intros r [Hr Hle]%elem_from. destruct (HG r Hr). lia.
Qed.

Lemma fresh_core : ecore d k [] [] tabs G V.
Proof.
  assert (forall e, e ∈ concat (tiers [] [] tabs) <-> e ∈ concat tabs) as Ht by done.
  split.
  - split; rewrite ?Hcur; simpl; try done.
    + apply new_mem_holds.
    + constructor; [done|]. apply Forall_forall. intros t _ e1 e2 He1. set_solver.
    + intros e He%Ht. specialize (Hfl e He). lia.
  - split; unfold mem_segs, oldestSegment; rewrite ?Hcur; simpl; try done.
    + by repeat constructor.
    + intros e. split; [set_solver|]. intros (r & [Hr Hs]%elem_in_seg & _)%elem_log_entries. destruct (HG r Hr). simpl in Hs. lia.
    + intros r Hr Hle. destruct (HG r Hr). lia.
    + intros r Hr. apply HG, Hr.
  - split; rewrite ?Hcur; simpl; try done. constructor; [simpl; lia|constructor].
  - intros b Hb. exists M, tabs. split; [by apply Hman|]. assert (disk_tiers M G tabs = [] :: tabs) as Hdt.
    { unfold disk_tiers. rewrite HM. cbn [mf_logNum]. by rewrite fresh_log. }
    split; rewrite ?Hdt, ?HM; cbn [mf_tables mf_logNum mf_lastSeq mf_nextNum]; try done.
    + apply Forall2_fmap_l. eapply Forall2_impl_elem; [exact Hts|]. intros t es Hin Hte. exists t. split; [|done].
      rewrite Forall_forall in Hfiles. by apply Hfiles.
    + constructor; [done|]. apply Forall_forall. intros t _ e1 e2 He1. set_solver.
    + by rewrite Hcur.
    + apply Forall_fmap. eapply Forall_impl; [exact Hfiles|]. simpl. intros t Hf. apply Hnext. exists (t_data t). exact Hf.
    + by rewrite <-list_fmap_compose.
    + intros n Hn. rewrite <-list_fmap_compose. by apply Hgone.
Qed.
End Fresh.

(** ** Restore *)

Lemma snapshot_table num data V :
  snapshot_shows data V -> (N.of_nat (length data) < w32)%N ->
  exists t maxS tes, read_restored num data = Ret (t, maxS) /\ table_fine t tes /\ t_num t = num /\ t_data t = data /\
    tm_count (t_meta t) = N.of_nat (length tes) /\ (forall e, e ∈ tes -> (ik_seq e.1 <= maxS)%N) /\ (maxS < maxSeq)%N /\ sees (fun e => e ∈ tes) V.
Proof.
  intros (seq & es & (bs & io & m & Hw) & Hs & Hwf & Hk & Hv & Hle & Hmax) Hlen. rewrite exported_kept in Hw by done.
  set (tes := kept true [] es) in *. assert (sublist tes es) as Hsub by apply kept_sublist.
  assert (forall e, e ∈ tes -> e ∈ es) as Hel by (intros e; apply kept_elem).
  destruct (read_restored_ok num bs io tes m data seq) as (t & maxS & Hr & Hh & Hn & Hd & Hc & Hall & Hb); [by eapply sorted_sublist| |done|done|by auto|].
  { apply Forall_forall. intros e He. unfold keys_wf in Hwf. rewrite Forall_forall in Hwf. auto. }
  exists t, maxS, tes. split_and!; [done| |done|done|done|done|lia|].
  - split; [done|]. by apply kinds_kept.
  - eapply sees_ext; [|apply (rewrite_sees (A:=[]) (run:=[es]) (B:=[]) (es:=es) (V:=V) true)]; simpl.
    + intros e. by rewrite app_nil_r.
    + by repeat constructor.
    + by repeat constructor.
    + eapply sees_ext; [|exact Hv]. intros e. by rewrite app_nil_r.
    + done.
    + by rewrite app_nil_r.
    + done.
Qed.

Lemma Rotate_seg os w w' s : Rotate os w = (w', Ret s) -> s = (w_seg w + 1)%N /\ w_seg w' = (w_seg w + 1)%N.
Proof.
  unfold Rotate, rotateLocked, syncLocked, openSegment. intros H. repeat case_match; simplify_eq; done.
Qed.

Definition restore_fits (data : bytes) (d : db) : Prop :=
  fits d /\ (N.of_nat (length data) < w32)%N /\
  forall t maxS, read_restored (d_nextNum d) data = Ret (t, maxS) ->
    manifest_fits (mkManifest (d_nextNum d + 1) maxS (w_seg (d_wal d) + 1) (t_meta <$> if (0 <? tm_count (t_meta t))%N then [t] else [])).

(** The files and the tables to be unlinked after the swap. *)
Lemma restore_files d tabs held num data t ts d' :
  stored d tabs -> num = d_nextNum d -> d_files d' = <[num := data]> (d_files d) -> d_gone d' = d_gone d ->
  t_num t = num -> t_data t = data -> ts = [t] \/ ts = [] ->
  let d1 := drop_tables held (t_num <$> v_tables (d_cur d)) d' in
  let d2 := match ts with [] => set_files (delete num (d_files d1)) d1 | _ => d1 end in
  Forall (fun x => d_files d2 !! t_num x = Some (t_data x)) ts /\ (forall n, is_Some (d_files d2 !! n) -> (n < num + 1)%N) /\
  (forall n, n ∈ d_gone d2 -> (n ∉ t_num <$> ts) /\ (n < num + 1)%N) /\ d2 = set_files (d_files d2) (set_gone (d_gone d2) d').
Proof.
  intros Hst -> Hf Hg Hn Hd Hts d1 d2.
  assert (forall n, n ∈ t_num <$> v_tables (d_cur d) -> (n < d_nextNum d)%N) as Hold.
  { intros n (x & -> & Hx)%list_elem_of_fmap. apply (st_next _ _ Hst). pose proof (st_files _ _ Hst) as Hall. rewrite Forall_forall in Hall. rewrite (Hall x Hx). eauto. }
  assert (forall n, n ∈ d_gone d1 -> (n < d_nextNum d)%N) as Hgone.
  { simpl. intros n [[_ Hx]%list_elem_of_filter|Hx]%elem_of_app; [by apply Hold|]. rewrite Hg in Hx. by apply (st_gone _ _ Hst). }
  assert (forall n, is_Some (d_files d1 !! n) -> (n < d_nextNum d + 1)%N) as Hnx.
  { simpl. intros n [x [Hx _]%map_lookup_filter_Some]. rewrite Hf in Hx. destruct (decide (n = d_nextNum d)) as [->|]; [lia|].
    rewrite lookup_insert_ne in Hx by done. pose proof (st_next _ _ Hst n ltac:(eauto)). lia. }
  destruct Hts as [-> | ->]; unfold d2; split_and!; try done.
  - constructor; [|constructor]. rewrite Hn, Hd. simpl. apply map_lookup_filter_Some_2; [rewrite Hf; by rewrite lookup_insert_eq|]. right. simpl. intros Hx%Hold. lia.
  - intros n Hx%Hgone. simpl. rewrite Hn, list_elem_of_singleton. lia.
  - simpl. intros n [x [_ Hx]%lookup_delete_Some]. apply Hnx. eauto.
  - simpl. intros n Hx%Hgone. split; [set_solver|lia].
Qed.

Lemma write_man_done n man d d' :
  manifest_fits man -> write_man n man d = (d', None) -> man_is d' man /\ d' = set_man (d_man d') d.
Proof.
  intros Hfit. unfold write_man, writeManifest. pose proof (decode_encode_manifest man Hfit) as Hdec.
  destruct (n <=? 4); [done|]. destruct (n =? 5); [done|]. intros [= <-]. split; [|done]. intros b. unfold may_read. simpl. by intros [->| ->].
Qed.

Record restoring (d d2 : db) (w : WAL) (num maxS : N) (data : bytes) : Prop := {
  rg_cur : d_cur d2 = d_cur d;
  rg_files : d_files d2 = <[num := data]> (d_files d);
  rg_next : d_nextNum d2 = (num + 1)%N;
  rg_gone : d_gone d2 = d_gone d;
  rg_wal : d_wal d2 = w;
  rg_seq : d_seq d2 = N.max (d_seq d) maxS;
  rg_flushed : d_flushedSeq d2 = maxS;
  rg_closed : d_closed d2 = d_closed d;
}.

(** The new version in place of the old one. *)
Lemma restore_core d k mem imms tabs G V Vx w t tes maxS data d2 seed held :
  ecore d k mem imms tabs G V -> restoring d d2 w (d_nextNum d) maxS data -> w_seg w = (w_seg (d_wal d) + 1)%N -> (d_nextNum d + 1 < w64)%N ->
  table_fine t tes -> t_num t = d_nextNum d -> t_data t = data -> tm_count (t_meta t) = N.of_nat (length tes) ->
  (forall e, e ∈ tes -> (ik_seq e.1 <= maxS)%N) -> (maxS < maxSeq)%N -> sees (fun e => e ∈ tes) Vx ->
  let ts := if (0 <? tm_count (t_meta t))%N then [t] else [] in
  man_is d2 (mkManifest (d_nextNum d + 1) maxS (w_seg w) (t_meta <$> ts)) ->
  let d3 := drop_tables held (t_num <$> v_tables (d_cur d)) (set_cur (newVersion (newMemtable seed (w_seg w)) [] ts) d2) in
  let d4 := match ts with [] => set_files (delete (d_nextNum d) (d_files d3)) d3 | _ => d3 end in
  exists tabs', ecore d4 k [] [] tabs' G Vx /\ d_wal d4 = w /\ d_closed d4 = d_closed d /\ oldestSegment d4 = w_seg w /\ d_man d4 = d_man d2 /\
    d_nextNum d4 = (d_nextNum d + 1)%N /\ (forall x, x ∈ v_tables (d_cur d4) -> t_num x = d_nextNum d).
Proof.
  intros Hc [R1 R2 R3 R4 R5 R6 R7 R8] Hsg Hn64 Hfine Hnum Hdat Hcnt Hle Hmax Hsees ts Hman d3 d4.
  set (tabs' := if (0 <? tm_count (t_meta t))%N then [tes] else []). exists tabs'.
  assert (Forall2 table_fine ts tabs') as Hts by (unfold ts, tabs'; destruct (_ <? _)%N; repeat constructor; apply Hfine).
  assert (concat tabs' = tes) as Hcat.
  { unfold tabs'. destruct (N.ltb_spec 0 (tm_count (t_meta t))); simpl; [by rewrite app_nil_r|]. destruct tes; [done|simpl in Hcnt; lia]. }
  assert (ts = [t] \/ ts = []) as Hts2 by (unfold ts; destruct (_ <? _)%N; auto).
  pose proof Hc as [Hsh Hse Hst _].
  destruct (restore_files d tabs held _ data t ts (set_cur (newVersion (newMemtable seed (w_seg w)) [] ts) d2) Hst eq_refl R2 R4 Hnum Hdat Hts2) as (F1 & F2 & F3 & F4).
  fold d3 in F1, F2, F3, F4. fold d4 in F1, F2, F3, F4.
  assert (d_nextNum d4 = d_nextNum d2 /\ d_flushedSeq d4 = d_flushedSeq d2 /\ d_seq d4 = d_seq d2 /\ d_wal d4 = d_wal d2 /\ d_man d4 = d_man d2 /\
    d_closed d4 = d_closed d2 /\ d_cur d4 = newVersion (newMemtable seed (w_seg w)) [] ts) as (E1 & E2 & E3 & E4 & E5 & E6 & E7) by (by rewrite F4).
  split_and!; [|congruence|congruence|unfold oldestSegment; by rewrite E7|done|congruence|].
  2: { intros x. rewrite E7. simpl. destruct Hts2 as [-> | ->]; [|set_solver]. by intros ->%list_elem_of_singleton. }
  pose proof (sh_max _ _ _ _ _ Hsh) as Hm1. rewrite <-E1 in R3. rewrite <-E2 in R7. rewrite <-E3 in R6. rewrite <-E4 in R5.
  eapply (fresh_core (ts:=ts) (tabs:=tabs') E7 Hts); rewrite ?Hcat, ?R3, ?R5, ?R6, ?R7; try done; try lia.
  - unfold tabs'. destruct (_ <? _)%N; by repeat constructor.
  - intros r Hr. pose proof (records_below _ _ _ _ _ _ Hse Hr). pose proof (sg_cur _ _ _ _ _ Hse). pose proof (sg_ends _ _ _ _ _ Hse r Hr). lia.
  - pose proof (sg_low _ _ _ _ _ Hse). pose proof (sg_cur _ _ _ _ _ Hse). pose proof (oldest_le d (mt_seg (v_mem (d_cur d))) (sg_sorted _ _ _ _ _ Hse) ltac:(unfold mem_segs; set_solver)). lia.
  - unfold ts. destruct (_ <? _)%N; by repeat constructor; set_solver.
  - intros b Hb. apply Hman. unfold may_read in *. by rewrite <-E5.
Qed.

Lemma restore_ok d k mem imms tabs G V io data Vx d' :
  einv d k mem imms tabs G [] V -> healthy (d_wal d) G -> snapshot_shows data Vx -> restore_fits data d ->
  db_Restore io data d = (d', Ret tt) ->
  exists k' tabs', einv d' k' [] [] tabs' G [] Vx /\ healthy (d_wal d') G /\ d_closed d' = d_closed d /\
    oldestSegment d' = (w_seg (d_wal d) + 1)%N /\ d_nextNum d' = (d_nextNum d + 1)%N /\ (forall t, t ∈ v_tables (d_cur d') -> t_num t = d_nextNum d).
Proof.
  intros [Hc Hl] Hh Hsn (Hfit & Hlen & Hmf). destruct Hfit as (Hsm & Hn64 & Hs64).
  destruct (snapshot_table (d_nextNum d) data Vx Hsn Hlen) as (t & maxS & tes & Hr & Hfine & Hnum & Hdat & Hcnt & Hle & Hmax & Hsees).
  specialize (Hmf _ _ Hr). unfold db_Restore. cbn [set_nextNum d_files d_nextNum]. rewrite u64_small by done.
  destruct (d_files d !! d_nextNum d) eqn:Hfn; [done|]. destruct (negb _); [done|]. rewrite Hr. cbn [set_files d_wal].
  destruct (Rotate _ _) as [w1 r1] eqn:HR. destruct r1 as [seg| |]; [|done..].
  destruct (rotate_logged _ _ _ _ _ _ Hl Hh HR) as (Hl1 & _ & Hh1). specialize (Hh1 _ eq_refl). specialize (Hl1 []).
  apply Rotate_seg in HR as [-> Hsg]. set (ts := if (0 <? tm_count (t_meta t))%N then [t] else []) in *.
  match goal with |- context [write_man _ ?man ?x] => set (M := man); set (d1 := x) end.
  assert (restoring d d1 w1 (d_nextNum d) maxS data) as Hrg.
  { unfold d1. simpl. destruct (N.ltb_spec (d_seq d) maxS); split; simpl; try done; lia. }
  assert (M = mkManifest (d_nextNum d + 1) maxS (w_seg w1) (t_meta <$> ts)) as HM.
  { unfold M. rewrite Hsg. f_equal. exact (rg_next _ _ _ _ _ _ Hrg). }
  destruct (write_man _ _ _) as [d2 err] eqn:Hwm. destruct err; [done|]. cbn [set_nextNum d_wal] in Hsg. rewrite <-Hsg, <-HM in Hmf.
  destruct (write_man_done _ _ _ _ Hmf Hwm) as [Hman Hd2]. rewrite HM in Hman. clearbody d1 M.
  assert (restoring d d2 w1 (d_nextNum d) maxS data) as Hrg2 by (rewrite Hd2; by destruct Hrg).
  destruct (restore_core _ _ _ _ _ _ _ Vx w1 t tes maxS data d2 (ri_seed io) (ri_held io) Hc Hrg2 Hsg Hn64 Hfine Hnum Hdat Hcnt Hle Hmax Hsees Hman)
    as (tabs' & Hc4 & Hw4 & Hcl4 & Ho4 & Hm4 & Hn4 & Ht4).
  rewrite (rg_cur _ _ _ _ _ _ Hrg2). change (w_seg (d_wal (set_nextNum (d_nextNum d + 1) d)) + 1)%N with (w_seg (d_wal d) + 1)%N. rewrite <-Hsg.
  match goal with |- context [delete_before _ _ ?x] => set (d4 := x) end. fold ts d4 in Hc4, Hw4, Hcl4, Ho4, Hm4, Hn4, Ht4. clearbody d4.
  destruct (ri_upto io); [done|]. intros [= <-]. exists (N.max k (w_seg w1)), tabs'. cbn [set_wal d_wal d_closed]. split_and!; [|rewrite Hw4; by apply DeleteBefore_healthy|done|by rewrite <-Ho4|done|done].
  split; [|simpl; rewrite Hw4; by apply DeleteBefore_logged]. apply (ecore_wal d4); [|done].
  eapply raise_k; [exact Hc4| |].
  - rewrite Ho4. pose proof (sg_low _ _ _ _ _ (ec_segs _ _ _ _ _ _ _ Hc4)). lia.
  - intros b M' Hb HM'. rewrite (Hman b) in HM' by (unfold may_read in *; by rewrite <-Hm4). injection HM' as <-. simpl.
    pose proof (sg_low _ _ _ _ _ (ec_segs _ _ _ _ _ _ _ Hc4)). lia.
Qed.
