(* ===== verification/EngineRuns.v ===== *)
(** * Runs of the engine

    The writers, the two background loops, snapshots, shutdown and crashes as
    rules.  A flush and a compaction are two steps each, up to the manifest
    and the swap of the version, with [installMu] in [e_work]; what the loops
    picked before they take the lock is part of the state. *)

From stdpp Require Import base list gmap sorting.
From S2P Require Import Prelude Codec Key Batch Bloom Wal WalRecords Iter Versions Skiplist SkipProofs Memtable Heap Merge Block SSTable TableWrite TableRead Db DbIter Tiers Export MemDB Manifest Version Engine EngineLog EngineRead EngineInv EngineCommit EngineInstall EngineCompact EngineOpen EngineRestore.

(** ** States and rules *)

Inductive work := Idle | Flushing (m : memtable) (t : option table) | Compacting (inputs : list table) (out : option table).

Record engine := mkEngine {
  e_db : db;
  e_flush : option memtable;           (** picked by [flushLoop] *)
  e_compact : option (list table);     (** picked by [compactLoop] *)
  e_work : work;                       (** who holds [installMu] *)
}.

Definition idle (d : db) : engine := mkEngine d None None Idle.
Definition with_db (d : db) (e : engine) : engine := mkEngine d (e_flush e) (e_compact e) (e_work e).

(** What [Get] answers for a map. *)
Definition lookup_result (V : gmap bytes bytes) (key : bytes) : go bytes :=
  match V !! key with Some v => Ret v | None => Fail ErrNotFound end.

(** The copy or the reading of the snapshot fails. *)
Definition refused (io : restoreIO) (data : bytes) (num : N) : Prop :=
  ri_copy io && ri_open io = false \/ exists e, read_restored num data = Fail e.

(** [runs e V ps live]: the engine [e] holds the map [V]; [ps] are the batches
    of a write that failed, [live] says that no write has failed since the
    engine was opened. *)
Inductive runs : engine -> gmap bytes bytes -> list Batch -> bool -> Prop :=
  | run_open seeds opts d :
      o_SyncInterval opts = false -> Open seeds opts OpenOk (mkDisk ∅ ∅ None) = Ret d -> runs (idle d) ∅ [] true
  | run_commit e V io group d :
      runs e V [] true -> group_fits (e_db e) group -> commit io group (e_db e) = Some (d, Ret tt) ->
      runs (with_db d e) (apply_ops (group_ops group) V) [] true
  | run_commit_failed e V io group d r :
      runs e V [] true -> group_fits (e_db e) group -> commit io group (e_db e) = Some (d, r) -> r <> Ret tt ->
      runs (with_db d e) V group false
  | run_pick_flush e V ps l m :
      runs e V ps l -> e_flush e = None -> (forall m' t, e_work e <> Flushing m' t) -> head (v_imm (d_cur (e_db e))) = Some m ->
      runs (mkEngine (e_db e) (Some m) (e_compact e) (e_work e)) V ps l
  | run_flush e V ps l io n m d r :
      runs e V ps l -> e_flush e = Some m -> e_work e = Idle -> flush_fits io m (e_db e) -> flush_prepare io n m (e_db e) = (d, r) ->
      runs (match r with
            | Ret (Some t) => mkEngine d None (e_compact e) (Flushing m t)
            | Ret None | Panic => mkEngine d None (e_compact e) Idle
            | Fail err => mkEngine (fail err d) None (e_compact e) Idle
            end) V ps l
  | run_flush_install e V ps l m t upto d r :
      runs e V ps l -> e_work e = Flushing m t -> flush_install upto m t (e_db e) = (d, r) ->
      runs (mkEngine (match r with Fail err => fail err d | _ => d end) (e_flush e) (e_compact e) Idle) V ps l
  | run_pick_compact e V ps l inputs :
      runs e V ps l -> e_compact e = None -> (forall i t, e_work e <> Compacting i t) -> pickCompaction (v_tables (d_cur (e_db e))) = Some inputs ->
      runs (mkEngine (e_db e) (e_flush e) (Some inputs) (e_work e)) V ps l
  | run_compact_stale e V ps l inputs :
      runs e V ps l -> e_compact e = Some inputs -> e_work e = Idle -> compact_stale inputs (e_db e) = Ret true ->
      runs (mkEngine (e_db e) (e_flush e) None Idle) V ps l
  | run_compact e V ps l io n inputs d r :
      runs e V ps l -> e_compact e = Some inputs -> e_work e = Idle -> compact_stale inputs (e_db e) = Ret false ->
      compact_fits io inputs (e_db e) -> compact_prepare io n inputs (e_db e) = (d, r) ->
      runs (match r with
            | Ret out => mkEngine d (e_flush e) None (Compacting inputs out)
            | Fail err => mkEngine (fail err d) (e_flush e) None Idle
            | Panic => mkEngine d (e_flush e) None Idle
            end) V ps l
  | run_compact_install e V ps l inputs out held :
      runs e V ps l -> e_work e = Compacting inputs out ->
      runs (mkEngine (compact_install held inputs out (e_db e)) (e_flush e) (e_compact e) Idle) V ps l
  | run_release e V ps l num : runs e V ps l -> runs (with_db (release num (e_db e)) e) V ps l
  | run_sync e V ps l ok : runs e V ps l -> runs (with_db (db_Sync ok (e_db e)).1 e) V ps l
  | run_restore e V src V' ps' l' io io' data d :
      runs e V [] true -> e_work e = Idle -> runs src V' ps' l' -> db_Export io' (e_db src) = Ret data ->
      restore_fits data (e_db e) -> db_Restore io data (e_db e) = (d, Ret tt) -> runs (with_db d e) V' [] true
  | run_restore_refused e V ps l io data :
      runs e V ps l -> e_work e = Idle -> (d_nextNum (e_db e) + 1 < w64)%N -> refused io data (d_nextNum (e_db e)) ->
      runs (with_db (db_Restore io data (e_db e)).1 e) V ps l
  | run_close e V ps l ok okc :
      runs e V ps l -> e_work e = Idle -> runs (with_db (db_Close ok okc (e_db e)).1 e) V ps false
  | run_reopen e V ps l kd seeds opts d n :
      runs e V ps l -> crashed (e_db e) kd -> o_SyncInterval opts = false -> Open seeds opts OpenOk kd = Ret d ->
      (forall key, db_Get key d = lookup_result (apply_ops (group_ops (take n ps)) V) key) ->
      runs (idle d) (apply_ops (group_ops (take n ps)) V) [] true.

(** ** The invariant *)

(** A pick is current, or a restore has discarded it. *)
Definition flush_pick (d : db) (m : memtable) : Prop :=
  head (v_imm (d_cur d)) = Some m \/ (mt_seg m < oldestSegment d)%N.

Definition compact_pick (d : db) (inputs : list table) : Prop :=
  window (v_tables (d_cur d)) inputs \/
  (inputs <> [] /\ forall t, t ∈ inputs -> (t_num t < d_nextNum d)%N /\ t_num t ∉ t_num <$> v_tables (d_cur d)).

(** The table a flush is about to install is none of the picked ones. *)
Definition apart (w : work) (inputs : list table) : Prop :=
  match w with Flushing _ (Some t) => t_num t ∉ t_num <$> inputs | Flushing _ None | Idle => True | Compacting _ _ => False end.

Definition work_ok (d : db) (imms tabs : list (list entry)) (w : work) : Prop :=
  match w with
  | Idle => True
  | Flushing m t => flush_job d imms m t
  | Compacting inputs out => compact_job d tabs inputs out
  end.

Record picks (e : engine) : Prop := {
  pk_flush : forall m, e_flush e = Some m -> flush_pick (e_db e) m /\ (forall m' t, e_work e <> Flushing m' t);
  pk_compact : forall inputs, e_compact e = Some inputs -> compact_pick (e_db e) inputs /\ apart (e_work e) inputs;
}.

Definition rinv (e : engine) (V : gmap bytes bytes) (ps : list Batch) (live : bool) : Prop :=
  exists k mem imms tabs G, einv (e_db e) k mem imms tabs G (payloads (e_db e) ps) V /\ group_fits (e_db e) ps /\
    (live = true -> ps = [] /\ healthy (d_wal (e_db e)) G) /\ picks e /\ work_ok (e_db e) imms tabs (e_work e).

(** ** Fields the invariant does not read *)

Record same_state (d d' : db) : Prop := {
  ss_cur : d_cur d' = d_cur d;
  ss_wal : d_wal d' = d_wal d;
  ss_next : d_nextNum d' = d_nextNum d;
  ss_seq : d_seq d' = d_seq d;
  ss_flushed : d_flushedSeq d' = d_flushedSeq d;
  ss_files : d_files d' = d_files d;
  ss_gone : d_gone d' = d_gone d;
  ss_man : d_man d' = d_man d;
}.

Lemma ecore_same d d' k mem imms tabs G V : same_state d d' -> ecore d k mem imms tabs G V -> ecore d' k mem imms tabs G V.
Proof.
  intros [E1 E2 E3 E4 E5 E6 E7 E8] [Hsh Hsg Hst Hman].
  assert (oldestSegment d' = oldestSegment d) as Ho by (unfold oldestSegment; by rewrite E1). split.
  - destruct Hsh. split; by rewrite ?E1, ?E4.
  - destruct Hsg. split; by rewrite ?E1, ?E2, ?E4, ?Ho.
  - destruct Hst. split; by rewrite ?E1, ?E3, ?E4, ?E5, ?E6, ?E7.
  - intros b Hb. destruct (Hman b) as (M & mtabs & HM & []); [unfold may_read in *; by rewrite <-E8|]. exists M, mtabs. split; [done|].
    split; by rewrite ?E1, ?E3, ?E4, ?E6, ?E7.
Qed.

Lemma fail_same err d : same_state d (fail err d).
Proof. done. Qed.

Lemma einv_same d d' k mem imms tabs G ps V : same_state d d' -> einv d k mem imms tabs G ps V -> einv d' k mem imms tabs G ps V.
Proof. intros Hs [Hc Hl]. split; [by eapply ecore_same|]. by rewrite (ss_wal _ _ Hs). Qed.

Lemma payloads_seq d d' ps : d_seq d' = d_seq d -> payloads d' ps = payloads d ps.
Proof. intros E. unfold payloads. by rewrite E. Qed.

Lemma group_fits_seq d d' ps : d_seq d' = d_seq d -> group_fits d ps -> group_fits d' ps.
Proof. intros E. unfold group_fits. by rewrite E. Qed.

(** ** Picks and pending installations *)

Lemma picks_db e d :
  picks e -> (forall m, flush_pick (e_db e) m -> flush_pick d m) -> (forall i, compact_pick (e_db e) i -> compact_pick d i) -> picks (with_db d e).
Proof. intros [Hf Hc] H1 H2. split; simpl; [intros m Hm%Hf; naive_solver|intros i Hi%Hc; naive_solver]. Qed.

Lemma flush_pick_same d d' m : d_cur d' = d_cur d -> flush_pick d m -> flush_pick d' m.
Proof. intros E. unfold flush_pick, oldestSegment. by rewrite E. Qed.

Lemma compact_pick_grows d d' i : d_cur d' = d_cur d -> (d_nextNum d <= d_nextNum d')%N -> compact_pick d i -> compact_pick d' i.
Proof. intros E Hn. unfold compact_pick. rewrite E. intros [?|[? Hi]]; [by left|right]. split; [done|]. intros t Ht%Hi. split; [lia|apply Ht]. Qed.

Lemma flush_pick_commit d d' imms imms' m : commit_frame d d' imms imms' -> flush_pick d m -> flush_pick d' m.
Proof.
  intros [_ _ _ _ _ (ms & ess & Hi & _) _ _ Ho] [Hm|Hm]; [left|right; by rewrite Ho]. rewrite Hi. by destruct (v_imm (d_cur d)).
Qed.

Lemma compact_pick_commit d d' imms imms' i : commit_frame d d' imms imms' -> compact_pick d i -> compact_pick d' i.
Proof. intros [_ _ _ Hn Ht _ _ _ _]. unfold compact_pick. by rewrite Hn, Ht. Qed.

Lemma man_is_same d d' M : d_man d' = d_man d -> man_is d M -> man_is d' M.
Proof. intros E Hm b Hb. apply Hm. unfold may_read in *. by rewrite <-E. Qed.

Lemma work_commit d d' imms imms' tabs w : commit_frame d d' imms imms' -> work_ok d imms tabs w -> work_ok d' imms' tabs w.
Proof.
  intros [E1 E2 E3 E4 E5 (ms & ess & E6 & ->) E7 E8 E9]. destruct w as [|m t|inputs out]; simpl; [done|..].
  - intros (ms' & es & irest & man & Hv & -> & Hi & Hm & Hlog & Hw & Hmx). exists (ms' ++ ms), es, (irest ++ ess), man.
    split_and!; [by rewrite E6, Hv|done|by eapply installs_frame|by eapply man_is_same|done|done|by rewrite E8].
  - intros (pre & post & tp & ti & tq & man & Hv & -> & Hne & Fp & Fi & Fq & Hi & Hm & Hnot). exists pre, post, tp, ti, tq, man.
    split_and!; [by rewrite E5|done..| |by eapply man_is_same|done]. rewrite E5. by eapply installs_frame.
Qed.

Lemma installs_weaken d d' t out :
  (forall n data, n ∉ d_gone d -> d_files d !! n = Some data -> d_files d' !! n = Some data) -> v_tables (d_cur d') = v_tables (d_cur d) ->
  (d_nextNum d <= d_nextNum d')%N -> (forall n, n ∈ d_gone d' -> n ∈ d_gone d) -> installs d t out -> installs d' t out.
Proof.
  intros Hf Hv Hn Hg. destruct t as [t|]; simpl; [|done]. intros []. split; rewrite ?Hv; auto. lia.
Qed.

(** The version and the manifest stay, files that are not gone stay. *)
Lemma work_weaken d d' imms tabs w :
  (forall n data, n ∉ d_gone d -> d_files d !! n = Some data -> d_files d' !! n = Some data) -> d_cur d' = d_cur d ->
  (d_nextNum d <= d_nextNum d')%N -> (forall n, n ∈ d_gone d' -> n ∈ d_gone d) -> d_man d' = d_man d -> d_flushedSeq d' = d_flushedSeq d ->
  work_ok d imms tabs w -> work_ok d' imms tabs w.
Proof.
  intros Hf Hc Hn Hg Hm Hs. destruct w as [|m t|inputs out]; simpl; [done|..].
  - intros (ms & es & irest & man & Hv & -> & Hi & Hmn & Hlog & Hw & Hmx). exists ms, es, irest, man.
    split_and!; [by rewrite Hc|done|eapply installs_weaken; [done|by rewrite Hc|done..]|by eapply man_is_same|done|done|by rewrite Hs].
  - intros (pre & post & tp & ti & tq & man & Hv & -> & Hne & Fp & Fi & Fq & Hi & Hmn & Hnot). exists pre, post, tp, ti, tq, man.
    split_and!; [by rewrite Hc|done..| |by eapply man_is_same|done]. rewrite Hc. eapply installs_weaken; [done|by rewrite Hc|done..].
Qed.

(** ** Syncing and closing the log *)

(** A sync changes no byte of a segment. *)
Lemma sync_data ok w l s : wal_inv w l -> f_data <$> w_dir (syncLocked ok w).1 !! s = f_data <$> w_dir w !! s.
Proof.
  intros [_ (f & Hf & _) _ _ _]. unfold syncLocked. destruct (negb _); [done|]. destruct (ok && _); [|done]. simpl.
  unfold cur_file. rewrite Hf. simpl. destruct (decide (s = w_seg w)) as [->|Hne]; [|by rewrite lookup_insert_ne].
  by rewrite lookup_insert_eq, Hf.
Qed.

Lemma logged_data w w' k G ps :
  logged w k G ps -> wal_inv w' (log_bytes G) -> w_seg w' = w_seg w -> (forall s, f_data <$> w_dir w' !! s = f_data <$> w_dir w !! s) ->
  logged w' k G ps.
Proof.
  intros [Hg Hinv Hat [K1 K2 K3]] Hinv' Hseg Hd.
  assert (forall s, is_Some (w_dir w' !! s) <-> is_Some (w_dir w !! s)) as Hdom.
  { intros s. rewrite <-(fmap_is_Some f_data (w_dir w' !! s)), Hd. apply fmap_is_Some. }
  split; [done|done| |split; [|by intros s ?%Hdom; apply K2|done]].
  - intros s f Hf. specialize (Hd s). rewrite Hf in Hd. destruct (w_dir w !! s) as [f0|] eqn:Hf0; [|done]. injection Hd as Hd. rewrite Hd, Hseg. by apply Hat.
  - intros s p Hin Hle. apply Hdom. by eapply K1.
Qed.

Lemma sync_seg ok w : w_seg (Sync ok w).1 = w_seg w.
Proof. unfold Sync. destruct (syncLocked ok w) as [w' r] eqn:E. apply syncLocked_same in E as (_ & Hs & _); exact Hs. Qed.

Lemma sync_logged ok w k G ps : logged w k G ps -> logged (Sync ok w).1 k G ps.
Proof.
  intros Hl. pose proof (lg_inv _ _ _ _ Hl) as Hinv. eapply logged_data; [exact Hl|by apply syncLocked_inv|apply sync_seg|]. intros s. by eapply sync_data.
Qed.

Lemma sync_healthy ok w G : healthy w G -> Sync ok w = (w, Ret tt).
Proof. intros [[_ _ Hd _ Hs] _]. unfold Sync, syncLocked. by rewrite Hd, Hs. Qed.

Lemma close_logged ok okc w k G ps : logged w k G ps -> logged (Close ok okc w).1 k G ps /\ w_seg (Close ok okc w).1 = w_seg w.
Proof.
  intros Hl. pose proof (wal_step_inv (OpClose ok okc) w _ (lg_inv _ _ _ _ Hl) I) as Hinv. simpl in Hinv.
  unfold Close in *. destruct (w_closed w); [done|]. set (w1 := mkWAL _ _ _ _ _ _ _ _ _) in *.
  assert (wal_inv w1 (log_bytes G)) as Hi1 by (eapply wal_inv_ext; [..|apply Hl]; done).
  assert (logged w1 k G ps) as Hl1 by (eapply logged_data; [exact Hl|done..]).
  pose proof (sync_logged ok _ _ _ _ Hl1) as Hl2. pose proof (sync_seg ok w1) as Hs2. unfold Sync in Hl2, Hs2.
  destruct (syncLocked ok w1) as [w2 r]. simpl in Hl2, Hs2. destruct r; (split; [eapply logged_data; [exact Hl2|done..]|done]).
Qed.

(** ** Each rule keeps the invariant *)

Section Rules.
Context {e : engine} {V : gmap bytes bytes} {ps : list Batch} {l : bool} (Hr : rinv e V ps l).

Lemma rinv_same d : same_state (e_db e) d -> rinv (with_db d e) V ps l.
Proof.
  intros Hs. destruct Hr as (k & mem & imms & tabs & G & He & Hf & Hl & Hp & Hw). exists k, mem, imms, tabs, G. simpl.
  rewrite (payloads_seq (e_db e) d) by apply Hs. split_and!.
  - by eapply einv_same.
  - eapply group_fits_seq; [apply Hs|done].
  - rewrite (ss_wal _ _ Hs). done.
  - apply picks_db; [done|intros m; apply flush_pick_same; apply Hs|intros i; apply compact_pick_grows; [apply Hs|]]. rewrite (ss_next _ _ Hs). lia.
  - eapply work_weaken; [..|exact Hw]; destruct Hs as [E1 E2 E3 E4 E5 E6 E7 E8]; rewrite ?E3, ?E6, ?E7; try done.
Qed.

Lemma rinv_wal w :
  (forall k G ps, logged (d_wal (e_db e)) k G ps -> logged w k G ps) -> w_seg w = w_seg (d_wal (e_db e)) ->
  (l = true -> w = d_wal (e_db e)) -> rinv (with_db (set_wal w (e_db e)) e) V ps l.
Proof.
  intros Hw Hs Hl'. destruct Hr as (k & mem & imms & tabs & G & [Hc Hlg] & Hf & Hl & Hp & Hwk). exists k, mem, imms, tabs, G. split_and!.
  - split; [apply ecore_wal; [done|lia]|by apply Hw].
  - done.
  - intros E. simpl. rewrite (Hl' E). by apply Hl.
  - by apply picks_db.
  - simpl. eapply work_weaken; [..|exact Hwk]; done.
Qed.

Lemma rinv_dead : rinv e V ps false.
Proof. destruct Hr as (k & mem & imms & tabs & G & ? & ? & ? & ? & ?). by exists k, mem, imms, tabs, G. Qed.
End Rules.

Lemma rinv_sync e V ps l ok : rinv e V ps l -> rinv (with_db (db_Sync ok (e_db e)).1 e) V ps l.
Proof.
  intros Hr. unfold db_Sync. destruct (Sync ok _) as [w r] eqn:E. assert (w = (Sync ok (d_wal (e_db e))).1) as -> by (by rewrite E).
  apply (rinv_wal Hr); [intros k G ps'; apply sync_logged|apply sync_seg|].
  intros ->. destruct Hr as (k & mem & imms & tabs & G & _ & _ & Hl & _). destruct (Hl eq_refl) as [_ Hh]. by erewrite sync_healthy.
Qed.

Lemma rinv_close e V ps l ok okc : rinv e V ps l -> rinv (with_db (db_Close ok okc (e_db e)).1 e) V ps false.
Proof.
  intros Hr. unfold db_Close. destruct (d_closed _); [by destruct e; eapply rinv_dead|].
  destruct (Close ok okc _) as [w r] eqn:E. assert (w = (Close ok okc (d_wal (e_db e))).1) as -> by (by rewrite E). simpl.
  pose proof (rinv_wal (rinv_dead Hr) (Close ok okc (d_wal (e_db e))).1) as H. specialize (H ltac:(intros; by apply close_logged)).
  assert (w_seg (Close ok okc (d_wal (e_db e))).1 = w_seg (d_wal (e_db e))) as Hs.
  { destruct Hr as (k & mem & imms & tabs & G & [_ Hl] & _). eapply close_logged, Hl. }
  exact (rinv_same (H Hs ltac:(done)) (set_wal (Close ok okc (d_wal (e_db e))).1 (set_closed (e_db e))) ltac:(done)).
Qed.

Lemma payloads_nil d : payloads d [] = [].
Proof. done. Qed.

Lemma group_fits_nil d : (d_seq d < maxSeq)%N -> group_fits d [].
Proof. intros H. split; [constructor|simpl; lia]. Qed.

Lemma einv_max d k mem imms tabs G ps V : einv d k mem imms tabs G ps V -> (d_seq d < maxSeq)%N.
Proof. intros [[Hsh _ _ _] _]. apply Hsh. Qed.

Lemma rinv_commit e V io group d r :
  rinv e V [] true -> group_fits (e_db e) group -> commit io group (e_db e) = Some (d, r) ->
  (r = Ret tt -> rinv (with_db d e) (apply_ops (group_ops group) V) [] true) /\ (r <> Ret tt -> rinv (with_db d e) V group false).
Proof.
  intros (k & mem & imms & tabs & G & He & _ & Hl & Hp & Hw) Hfit Hc. destruct (Hl eq_refl) as [_ Hh].
  destruct (commit_ok He Hh Hfit io d r Hc) as [(-> & mem' & imms' & seg & He' & Hh' & Hfr)|(Hne & He' & Hfr & Hseq)]; (split; intros Hr; [try done|try done]).
  - exists k, mem', imms', tabs, (G ++ group_records seg (d_seq (e_db e) + 1) group). split_and!; [done|eapply group_fits_nil, einv_max, He'|done| |].
    + apply picks_db; [done|intros m; by eapply flush_pick_commit|intros i; by eapply compact_pick_commit].
    + by eapply work_commit.
  - exists k, mem, imms, tabs, G. split_and!; [simpl; by rewrite (payloads_seq (e_db e) d)|by eapply group_fits_seq|done| |].
    + apply picks_db; [done|intros m; by eapply flush_pick_commit|intros i; by eapply compact_pick_commit].
    + by eapply work_commit.
Qed.

(** A picked memtable that is no longer the oldest was discarded. *)
Lemma flush_stale io n m d : (mt_seg m < oldestSegment d)%N -> flush_prepare io n m d = (d, Ret None).
Proof.
  unfold oldestSegment, flush_prepare, flush_table. intros Hlt. destruct (v_imm (d_cur d)) as [|m' ms]; [done|].
  destruct (N.eqb_spec (mt_seg m') (mt_seg m)); [lia|done].
Qed.

Lemma rinv_flush e V ps l io n m d r :
  rinv e V ps l -> e_flush e = Some m -> e_work e = Idle -> flush_fits io m (e_db e) -> flush_prepare io n m (e_db e) = (d, r) ->
  rinv (match r with
        | Ret (Some t) => mkEngine d None (e_compact e) (Flushing m t)
        | Ret None | Panic => mkEngine d None (e_compact e) Idle
        | Fail err => mkEngine (fail err d) None (e_compact e) Idle
        end) V ps l.
Proof.
  intros Hr Hm Hi Hfit Hp. pose proof Hr as (k & mem & imms & tabs & G & He & Hf & Hl & Hpk & _).
  assert (forall x w, compact_pick (e_db e) x -> d_cur w = d_cur (e_db e) -> (d_nextNum (e_db e) <= d_nextNum w)%N -> compact_pick w x) as Hcp.
  { intros x w Hx E Hn. by eapply compact_pick_grows. }
  destruct (pk_flush _ Hpk m Hm) as [[Hh|Hh] _].
  2: { rewrite (flush_stale _ _ _ _ Hh) in Hp. injection Hp as <- <-.
       exists k, mem, imms, tabs, G. split_and!; try done. split; [done|]. intros x Hx. destruct (pk_compact _ Hpk x Hx). by split. }
  destruct He as [Hc Hlg]. destruct (flush_prepare_ok _ _ _ _ _ _ _ _ _ _ _ _ Hc Hfit Hh Hp) as (Hc' & Hw & Hcur & Hcl & Hsq & Hnn & Hjob).
  assert (einv d k mem imms tabs G (payloads d ps) V) as He'.
  { split; [done|]. by rewrite Hw, (payloads_seq (e_db e) d). }
  assert (group_fits d ps) as Hf' by (by eapply group_fits_seq).
  assert (picks (mkEngine d None (e_compact e) Idle)) as Hpi.
  { split; [done|]. intros x Hx. destruct (pk_compact _ Hpk x Hx). split; [|done]. by apply Hcp. }
  assert (rinv (mkEngine d None (e_compact e) Idle) V ps l) as Hidle.
  { exists k, mem, imms, tabs, G. split_and!; try done. simpl. by rewrite Hw. }
  destruct r as [[t|]|err|]; [|done|exact (rinv_same Hidle (fail err d) (fail_same err d))|done].
  destruct (Hjob t eq_refl) as [Hj Hnum]. exists k, mem, imms, tabs, G. split_and!; try done; [simpl; by rewrite Hw|].
  split; [done|]. intros x Hx. destruct (pk_compact _ Hpk x Hx) as [Hx1 _]. split; [by apply Hcp|]. simpl. destruct t as [t|]; [|done].
  rewrite (Hnum t eq_refl). destruct Hx1 as [[_ (pre & post & Hts)]|[_ Hx1]].
  - intros (y & Hy & Hin)%list_elem_of_fmap. pose proof (ec_stored _ _ _ _ _ _ _ Hc) as Hst. pose proof (st_files _ _ Hst) as Hall. rewrite Forall_forall in Hall.
    assert (y ∈ v_tables (d_cur (e_db e))) as Hyt by (rewrite Hts; set_solver). specialize (Hall y Hyt). pose proof (st_next _ _ Hst (t_num y) ltac:(eauto)). lia.
  - intros (y & Hy & Hin)%list_elem_of_fmap. destruct (Hx1 y Hin). lia.
Qed.

Lemma rinv_flush_install e V ps l m t upto d r :
  rinv e V ps l -> e_work e = Flushing m t -> flush_install upto m t (e_db e) = (d, r) ->
  rinv (mkEngine (match r with Fail err => fail err d | _ => d end) (e_flush e) (e_compact e) Idle) V ps l.
Proof.
  intros (k & mem & imms & tabs & G & He & Hf & Hl & Hpk & Hw) Hwk Hi. rewrite Hwk in Hw. simpl in Hw.
  destruct (flush_install_ok _ _ _ _ _ _ _ _ _ _ _ _ _ He Hw Hi) as (k' & imms' & tabs' & He' & Hh & Hts & Hnn & Hcl & Hsq).
  assert (e_flush e = None) as Hnf.
  { destruct (e_flush e) as [x|] eqn:E; [|done]. destruct (pk_flush _ Hpk x E) as [_ Hno]. by destruct (Hno m t). }
  assert (rinv (mkEngine d None (e_compact e) Idle) V ps l) as Hidle.
  { exists k', mem, imms', tabs', G. split_and!; simpl; [by rewrite (payloads_seq (e_db e) d)|by eapply group_fits_seq|naive_solver| |done].
    split; [done|]. intros x Hx. destruct (pk_compact _ Hpk x Hx) as [Hx1 Hx2]. split; [|done]. rewrite Hwk in Hx2. simpl in Hx2.
    unfold compact_pick. simpl. rewrite Hts, Hnn. destruct Hx1 as [Hx1|[Hne Hx1]]; [left; by apply window_suffix|right].
    split; [done|]. intros y Hy. destruct (Hx1 y Hy) as [? Hn]. split; [done|]. rewrite fmap_app, not_elem_of_app. split; [|done].
    destruct t as [t|]; simpl; [|set_solver]. rewrite list_elem_of_singleton. intros E. apply Hx2. rewrite <-E. by apply list_elem_of_fmap_2. }
  rewrite Hnf. destruct r as [u|err|]; [done|exact (rinv_same Hidle (fail err d) (fail_same err d))|done].
Qed.

Lemma pick_current inputs d : compact_pick d inputs -> compact_stale inputs d = Ret false -> window (v_tables (d_cur d)) inputs.
Proof.
  intros [?|[Hne Hst]]; [done|]. destruct inputs as [|t ts]; [done|]. simpl. intros [= Hin%negb_false_iff]. apply isInput_elem in Hin.
  destruct (Hst t) as [_ Hn]; [set_solver|]. done.
Qed.

Lemma rinv_compact e V ps l io n inputs d r :
  rinv e V ps l -> e_compact e = Some inputs -> e_work e = Idle -> compact_stale inputs (e_db e) = Ret false ->
  compact_fits io inputs (e_db e) -> compact_prepare io n inputs (e_db e) = (d, r) ->
  rinv (match r with
        | Ret out => mkEngine d (e_flush e) None (Compacting inputs out)
        | Fail err => mkEngine (fail err d) (e_flush e) None Idle
        | Panic => mkEngine d (e_flush e) None Idle
        end) V ps l.
Proof.
  intros Hr Hi Hw Hs Hfit Hp. pose proof Hr as (k & mem & imms & tabs & G & [Hc Hlg] & Hf & Hl & Hpk & _).
  destruct (pk_compact _ Hpk _ Hi) as [Hpick _]. pose proof (pick_current _ _ Hpick Hs) as Hwin.
  destruct (compact_prepare_ok _ _ _ _ _ _ _ _ _ _ _ _ Hc Hfit Hwin Hp) as (Hc' & Hwal & Hcur & Hcl & Hsq & Hjob).
  assert (einv d k mem imms tabs G (payloads d ps) V) as He'.
  { split; [done|]. by rewrite Hwal, (payloads_seq (e_db e) d). }
  assert (group_fits d ps) as Hf' by (by eapply group_fits_seq).
  assert (forall w, (forall m t, w <> Flushing m t) -> picks (mkEngine d (e_flush e) None w)) as Hpi.
  { intros w Hwf. split; [|done]. simpl. intros m Hm. destruct (pk_flush _ Hpk m Hm). split; [|done]. by eapply flush_pick_same. }
  assert (rinv (mkEngine d (e_flush e) None Idle) V ps l) as Hidle.
  { exists k, mem, imms, tabs, G. split_and!; try done; [simpl; by rewrite Hwal|by apply Hpi]. }
  destruct r as [out|err|]; [|exact (rinv_same Hidle (fail err d) (fail_same err d))|done].
  exists k, mem, imms, tabs, G. split_and!; try done; [simpl; by rewrite Hwal|by apply Hpi|]. simpl. by apply Hjob.
Qed.

Lemma rinv_compact_install e V ps l inputs out held :
  rinv e V ps l -> e_work e = Compacting inputs out ->
  rinv (mkEngine (compact_install held inputs out (e_db e)) (e_flush e) (e_compact e) Idle) V ps l.
Proof.
  intros (k & mem & imms & tabs & G & He & Hf & Hl & Hpk & Hw) Hwk. rewrite Hwk in Hw. simpl in Hw.
  destruct (compact_install_ok _ _ _ _ _ _ _ _ held _ _ He Hw) as (tabs' & He').
  assert (e_compact e = None) as Hnc.
  { destruct (e_compact e) as [x|] eqn:E; [|done]. destruct (pk_compact _ Hpk x E) as [_ Ha]. by rewrite Hwk in Ha. }
  rewrite Hnc. exists k, mem, imms, tabs', G. split_and!; try done. split; [|done]. simpl. intros m Hm. by destruct (pk_flush _ Hpk m Hm).
Qed.

Lemma rinv_release e V ps l num : rinv e V ps l -> rinv (with_db (release num (e_db e)) e) V ps l.
Proof.
  intros (k & mem & imms & tabs & G & [Hc Hlg] & Hf & Hl & Hpk & Hw). pose proof (release_core _ _ _ _ _ _ _ num Hc) as Hc'.
  assert (forall n data, n ∉ d_gone (e_db e) -> d_files (e_db e) !! n = Some data -> d_files (release num (e_db e)) !! n = Some data) as Hfiles.
  { intros n data Hn Hd. unfold release. case_bool_decide as Hg; [|done]. simpl. rewrite lookup_delete_ne; [done|]. by intros ->. }
  assert (forall n, n ∈ d_gone (release num (e_db e)) -> n ∈ d_gone (e_db e)) as Hgone.
  { intros n. unfold release. case_bool_decide as Hg; [|done]. simpl. by intros [_ ?]%list_elem_of_filter. }
  assert (forall {A} (f : db -> A), (forall g x y, f (set_files x (set_gone y g)) = f g) -> f (release num (e_db e)) = f (e_db e)) as Hsame.
  { intros A f Hfr. unfold release. case_bool_decide; [apply Hfr|done]. }
  exists k, mem, imms, tabs, G. simpl. split_and!.
  - split; [done|]. rewrite (payloads_seq (e_db e)) by (by apply Hsame). by rewrite (Hsame _ d_wal).
  - eapply group_fits_seq; [|exact Hf]. by apply Hsame.
  - by rewrite (Hsame _ d_wal).
  - apply picks_db; [done|intros m; apply flush_pick_same; by apply Hsame|intros i; apply compact_pick_grows; [by apply Hsame|]]. by rewrite (Hsame _ d_nextNum).
  - eapply work_weaken; [exact Hfiles|by apply Hsame| |exact Hgone|by apply Hsame|by apply Hsame|exact Hw]. by rewrite (Hsame _ d_nextNum).
Qed.

Lemma pick_below d k mem imms tabs G V m : ecore d k mem imms tabs G V -> flush_pick d m -> (mt_seg m <= w_seg (d_wal d))%N.
Proof.
  intros [_ Hsg _ _] Hp. pose proof (sg_cur _ _ _ _ _ Hsg).
  assert (forall s, s ∈ mem_segs (d_cur d) -> (s <= mt_seg (v_mem (d_cur d)))%N) as Hle by (intros s Hs; apply mem_segs_le; [apply Hsg|done]).
  destruct Hp as [Hh|Hlt].
  - assert (mt_seg m <= mt_seg (v_mem (d_cur d)))%N; [|lia]. apply Hle. unfold mem_segs. destruct (v_imm (d_cur d)); [done|]. injection Hh as ->. set_solver.
  - assert (oldestSegment d <= mt_seg (v_mem (d_cur d)))%N; [|lia]. apply oldest_le; [apply Hsg|]. unfold mem_segs. set_solver.
Qed.

Lemma pick_numbers d k mem imms tabs G V inputs : ecore d k mem imms tabs G V -> compact_pick d inputs -> inputs <> [] /\ forall t, t ∈ inputs -> (t_num t < d_nextNum d)%N.
Proof.
  intros [_ _ Hst _] [[Hlen (pre & post & Hts)]|[Hne Hx]]; [|split; [done|]; by intros t [? _]%Hx].
  split; [intros ->; simpl in Hlen; unfold minRun in Hlen; lia|]. intros t Ht. apply (st_next _ _ Hst). pose proof (st_files _ _ Hst) as Hall. rewrite Forall_forall in Hall.
  exists (t_data t). apply Hall. rewrite Hts. set_solver.
Qed.

Lemma rinv_restore e V io data V' d :
  rinv e V [] true -> e_work e = Idle -> snapshot_shows data V' -> restore_fits data (e_db e) -> db_Restore io data (e_db e) = (d, Ret tt) ->
  rinv (with_db d e) V' [] true.
Proof.
  intros (k & mem & imms & tabs & G & He & _ & Hl & Hpk & _) Hw Hsn Hfit Hr. destruct (Hl eq_refl) as [_ Hh].
  destruct (restore_ok _ _ _ _ _ _ _ _ _ _ _ He Hh Hsn Hfit Hr) as (k' & tabs' & He' & Hh' & Hcl & Ho & Hn & Hts).
  exists k', [], [], tabs', G. split_and!; [done|eapply group_fits_nil, einv_max, He'|done| |simpl; by rewrite Hw].
  apply picks_db; [done|..].
  - intros m Hm. right. rewrite Ho. pose proof (pick_below _ _ _ _ _ _ _ _ (ei_core _ _ _ _ _ _ _ _ He) Hm). lia.
  - intros i Hi. right. destruct (pick_numbers _ _ _ _ _ _ _ _ (ei_core _ _ _ _ _ _ _ _ He) Hi) as [Hne Hlt]. split; [done|].
    intros t Ht. specialize (Hlt t Ht). split; [lia|]. intros (y & Hy & Hin)%list_elem_of_fmap. specialize (Hts y Hin). lia.
Qed.

Lemma refused_state io data d : refused io data (d_nextNum d) -> (db_Restore io data d).1 = set_nextNum (u64 (d_nextNum d + 1)) d.
Proof.
  intros Hr. unfold db_Restore. cbn [set_nextNum d_files]. destruct (d_files d !! d_nextNum d); [done|].
  destruct Hr as [-> |[e He]]; [done|]. destruct (negb _); [done|]. by rewrite He.
Qed.

Lemma nextNum_core d k mem imms tabs G V n : ecore d k mem imms tabs G V -> (d_nextNum d <= n < w64)%N -> ecore (set_nextNum n d) k mem imms tabs G V.
Proof.
  intros [Hsh Hsg Hst Hman] Hn. split; [by destruct Hsh|by destruct Hsg| |].
  - destruct Hst as [H1 H2 H3 H4 H5 H6 H7 H8]. split; try done; simpl.
    + intros x Hx%H3. lia.
    + intros x Hx%H4. split; [apply Hx|]. lia.
    + lia.
  - intros b Hb. destruct (Hman b Hb) as (M & mtabs & HM & []). exists M, mtabs. split; [done|]. split; try done. simpl. lia.
Qed.

Lemma rinv_refused e V ps l io data :
  rinv e V ps l -> (d_nextNum (e_db e) + 1 < w64)%N -> refused io data (d_nextNum (e_db e)) ->
  rinv (with_db (db_Restore io data (e_db e)).1 e) V ps l.
Proof.
  intros (k & mem & imms & tabs & G & [Hc Hlg] & Hf & Hl & Hpk & Hw) Hn Hr. rewrite (refused_state _ _ _ Hr), u64_small by done.
  exists k, mem, imms, tabs, G. simpl. split_and!; try done.
  - split; [|done]. apply nextNum_core; [done|lia].
  - apply picks_db; [done|done|intros i; apply compact_pick_grows; [done|simpl; lia]].
  - eapply work_weaken; [..|exact Hw]; try done. simpl. lia.
Qed.

Lemma rinv_idle d k mem imms tabs G V : einv d k mem imms tabs G [] V -> healthy (d_wal d) G -> rinv (idle d) V [] true.
Proof. intros He Hh. exists k, mem, imms, tabs, G. split_and!; try done. eapply group_fits_nil, einv_max, He. Qed.

(** A map is what its lookups say. *)
Lemma lookup_result_inj V V' : (forall key, lookup_result V key = lookup_result V' key) -> V = V'.
Proof. intros H. apply map_eq. intros key. specialize (H key). unfold lookup_result in H. by destruct (V !! key), (V' !! key); simplify_eq. Qed.

Lemma runs_inv e V ps l : runs e V ps l -> rinv e V ps l.
Proof.
  induction 1 as [seeds opts d Hs Ho|e V io group d _ IH Hfit Hc|e V io group d r _ IH Hfit Hc Hr|e V ps l m _ IH Hn Hw Hm|e V ps l io n m d r _ IH Hm Hw Hfit Hp
    |e V ps l m t upto d r _ IH Hw Hi|e V ps l inputs _ IH Hn Hw Hp|e V ps l inputs _ IH Hi Hw Hs|e V ps l io n inputs d r _ IH Hi Hw Hs Hfit Hp
    |e V ps l inputs out held _ IH Hw|e V ps l num _ IH|e V ps l ok _ IH|e V src V' ps' l' io io' data d _ IH Hw _ IH' Hx Hfit Hr
    |e V ps l io data _ IH Hw Hn Hr|e V ps l ok okc _ IH Hw|e V ps l kd seeds opts d n _ IH Hcr Hs Ho Hg].
  - destruct (Open_first opts seeds Hs) as (d' & Hd & _ & He & Hh). rewrite Ho in Hd. injection Hd as <-. by eapply rinv_idle.
  - by apply (rinv_commit _ _ _ _ _ _ IH Hfit Hc).
  - by apply (rinv_commit _ _ _ _ _ _ IH Hfit Hc).
  - destruct IH as (k & mem & imms & tabs & G & He & Hf & Hl & [_ Hpc] & Hwk). exists k, mem, imms, tabs, G. split_and!; try done.
    split; [|done]. simpl. intros m' [= <-]. split; [by left|done].
  - by eapply rinv_flush.
  - by eapply rinv_flush_install.
  - destruct IH as (k & mem & imms & tabs & G & He & Hf & Hl & [Hpf _] & Hwk). exists k, mem, imms, tabs, G. split_and!; try done.
    split; [done|]. simpl. intros x [= <-]. pose proof (pick_window _ _ Hp) as Hwin. split; [by left|].
    destruct (e_work e) as [|m [t|]|i t] eqn:Ew; try done; [|by destruct (Hw i t)]. simpl in *.
    destruct Hwk as (ms & es & irest & man & _ & _ & Hi & _). destruct Hi as [_ _ _ Hnot _ _].
    destruct Hwin as [_ (pre & post & Hts)]. intros Hx. apply Hnot. rewrite Hts, !fmap_app. set_solver.
  - destruct IH as (k & mem & imms & tabs & G & He & Hf & Hl & [Hpf _] & Hwk). exists k, mem, imms, tabs, G. split_and!; try done.
    split; [|done]. simpl. intros m Hm. by destruct (Hpf m Hm).
  - by eapply rinv_compact.
  - by eapply rinv_compact_install.
  - by apply rinv_release.
  - by apply rinv_sync.
  - destruct IH' as (k & mem & imms & tabs & G & [[Hsh _ _ _] _] & _). eapply rinv_restore; [done|done| |done|done]. by eapply export_snapshot.
  - by apply rinv_refused.
  - by apply (rinv_close _ _ _ l).
  - destruct IH as (k & mem & imms & tabs & G & He & Hf & _).
    destruct (Open_ok _ _ _ _ _ _ _ _ _ opts seeds kd He Hf eq_refl Hcr Hs) as (j & d' & k' & imms' & tabs' & G' & Hd & Hcl & He' & Hh').
    rewrite Ho in Hd. injection Hd as <-. assert (apply_ops (group_ops (take n ps)) V = apply_ops (group_ops (take j ps)) V) as ->; [|by eapply rinv_idle].
    apply lookup_result_inj. intros key. rewrite <-Hg. apply (db_Get_ok (ec_shows _ _ _ _ _ _ _ (ei_core _ _ _ _ _ _ _ _ He'))), Hcl.
Qed.
