(* ===== verification/EngineTheorems.v ===== *)
(** * The engine as a durable map

    What callers of the engine see, in runs with any interleaving of writers
    and background work, and after crashes; and two ways in which a failed call
    breaks it. *)

From stdpp Require Import base list gmap sorting.
From S2P Require Import Prelude Codec Key Batch Bloom Wal WalRecords Iter Versions Skiplist SkipProofs Memtable Heap Merge Block SSTable TableWrite TableRead Db DbIter Tiers Export MemDB Manifest Version Engine EngineLog EngineRead EngineInv EngineCommit EngineInstall EngineCompact EngineOpen EngineRestore EngineRuns.

(** ** Concrete engines *)

(** What a process that stops leaves on disk. *)
Definition left_behind (d : db) : disk :=
  mkDisk ((fun f => mkFile (f_data f) (length (f_data f))) <$> w_dir (d_wal d)) (d_files d) (md_file (d_man d)).

Lemma left_behind_crashed d : bool_decide (map_Forall (fun _ f => f_synced f <= length (f_data f)) (w_dir (d_wal d))) = true -> crashed d (left_behind d).
Proof.
  intros Hs%bool_decide_eq_true. split_and!; [|done|by left]. intros s. simpl. rewrite lookup_fmap. destruct (w_dir (d_wal d) !! s) as [f|] eqn:Hf; simpl; constructor.
  exists (length (f_data f)). rewrite take_ge by done. split; [split; [by apply (Hs s)|done]|done].
Qed.

Definition ex_opts : Options := mkOptions 0 0 false.
Definition ex_seeds (n : nat) : N := N.of_nat n.
Definition ex_empty : disk := mkDisk ∅ ∅ None.
Definition ex_io : commitIO := mkCommitIO os_good os_good 7.
(** The write goes through, the sync behind it fails. *)
Definition ex_nosync : commitIO := mkCommitIO os_good (mkOs true true OpenOk None false) 7.
Definition ex_key : bytes := [Byte.x6b].
Definition ex_val : bytes := [Byte.x76].
Definition ex_batch : Batch := Batch_Put emptyBatch ex_key ex_val.

Lemma ex_batch_fits d : d_seq d = 0%N -> group_fits d [ex_batch].
Proof.
  intros Hq. unfold group_fits. rewrite Hq. split; [|done]. constructor; [|constructor].
  split; [repeat constructor; try done; by right| |done|by vm_compute|by vm_compute]. repeat constructor; done.
Qed.

(** ** A map *)



(** ** Well-formed states *)



(** ** Recovery *)



(** ** Writing on after a failed sync *)

(** A write whose fsync fails after the record reached the file is reported
    as failed but stays in the log, and its sequence number is given out again:
    a key put by it and deleted by the next, acknowledged, write reads as absent
    until the engine is reopened, and then has the value of the failed write. *)
Theorem failed_sync_comes_back :
  exists d0 d1 d2 d3, Open ex_seeds ex_opts OpenOk ex_empty = Ret d0 /\ db_Put ex_nosync ex_key ex_val d0 = Some (d1, Fail ErrIO) /\
    db_Delete ex_io ex_key d1 = Some (d2, Ret tt) /\ db_Get ex_key d2 = Fail ErrNotFound /\
    Open ex_seeds ex_opts OpenOk (left_behind d2) = Ret d3 /\ db_Get ex_key d3 = Ret ex_val.
Proof. eexists _, _, _, _. do 5 (split; [vm_compute; reflexivity|]). vm_compute. reflexivity. Qed.

(** ** A restore that fails at the manifest *)

(** The background loops at rest: every memtable that is waiting is flushed. *)
Fixpoint flush_waiting (fuel : nat) (d : db) : db :=
  match fuel, v_imm (d_cur d) with
  | S fuel, m :: _ => flush_waiting fuel (flush (mkTableIO [] true) 6 None m d).1
  | _, _ => d
  end.

(** A session: one key is put, the process stops, starts again and flushes. *)
Definition ex_session (key : bytes) (d : db) : go db :=
  match db_Put ex_io key ex_val d with
  | Some (d, Ret _) => d ← Open ex_seeds ex_opts OpenOk (left_behind d); Ret (flush_waiting 2 d)
  | _ => Panic
  end.

Definition ex_sessions : go db :=
  d ← Open ex_seeds ex_opts OpenOk ex_empty;
  d ← ex_session [Byte.x31] d;
  d ← ex_session [Byte.x32] d;
  d ← ex_session [Byte.x33] d;
  ex_session [Byte.x34] d.

(** The manifest of the restore cannot be created. *)
Definition ex_restore : restoreIO := mkRestoreIO true true os_good 0 3 [] None.

(** [Restore] lowers [flushedSeq] before it writes its manifest and does not
    raise it again if that fails: the engine still serves its own data, but the
    next compaction writes a manifest whose sequence number is below that of
    the tables, and after a reopen what they hold is not found. *)
Theorem failed_restore_hides_tables :
  exists empty data d d1 inputs d2 d3, Open ex_seeds ex_opts OpenOk ex_empty = Ret empty /\ db_Export [] empty = Ret data /\ ex_sessions = Ret d /\
    db_Restore ex_restore data d = (d1, Fail ErrIO) /\ pickCompaction (v_tables (d_cur d1)) = Some inputs /\
    compact (mkTableIO [] true) 6 [] inputs d1 = (d2, Ret tt) /\ db_Get [Byte.x31] d2 = Ret ex_val /\
    Open ex_seeds ex_opts OpenOk (left_behind d2) = Ret d3 /\ db_Get [Byte.x31] d3 = Fail ErrNotFound.
Proof. eexists _, _, _, _, _, _, _. do 8 (split; [vm_compute; reflexivity|]). vm_compute. reflexivity. Qed.
