(* ===== verification/EngineLoops.v ===== *)
(** * The background loops come to rest

    [flushLoop] and [compactLoop] as loops over the operations of the engine.
    Left to themselves they wait, or stop with an error, after at most as many
    rounds as there are memtables or tables. *)

From stdpp Require Import base list gmap.
From S2P Require Import Prelude Codec Key Batch Bloom Wal Iter Versions Skiplist SkipProofs Memtable Heap Merge Block SSTable TableWrite TableRead Db DbIter Tiers Export MemDB Manifest Version Engine EngineRead EngineInv EngineTheorems.

(** How a loop ends: it waits for a signal, an error stops it, it panics, or
    the rounds were not enough. *)
Inductive loopEnd := Waits | Stops | Dies | Unfinished.

(** The outcomes of the system calls of a round. *)
Record roundIO := mkRoundIO { ro_table : tableIO; ro_man : nat; ro_upto : option N; ro_held : list N }.

Section Loops.
Context (io : nat -> roundIO).

Fixpoint flushLoop (fuel : nat) (d : db) : db * loopEnd :=
  if d_closed d then (d, Stops)
  else
    match v_imm (d_cur d) with
    | [] => (d, Waits)
    | m :: _ =>
        match fuel with
        | O => (d, Unfinished)
        | S fuel' =>
            match flush (ro_table (io fuel)) (ro_man (io fuel)) (ro_upto (io fuel)) m d with
            | (d, Ret _) => flushLoop fuel' d
            | (d, Fail e) => (fail e d, Stops)
            | (d, Panic) => (d, Dies)
            end
        end
    end.

Fixpoint compactLoop (fuel : nat) (d : db) : db * loopEnd :=
  if d_closed d then (d, Stops)
  else
    match pickCompaction (v_tables (d_cur d)) with
    | None => (d, Waits)
    | Some inputs =>
        match fuel with
        | O => (d, Unfinished)
        | S fuel' =>
            match compact (ro_table (io fuel)) (ro_man (io fuel)) (ro_held (io fuel)) inputs d with
            | (d, Ret _) => compactLoop fuel' d
            | (d, Fail e) => (fail e d, Stops)
            | (d, Panic) => (d, Dies)
            end
        end
    end.
End Loops.

(** ** The number of a table that was written *)

Lemma bind_inv {A B} (x : go A) (f : A -> go B) b : (x ≫= f) = Ret b -> exists a, x = Ret a /\ f a = Ret b.
Proof. destruct x as [a| |]; [|done..]. by exists a. Qed.

Lemma flushBlock_num w w' : flushBlock w = Ret w' -> tm_num (tw_meta w') = tm_num (tw_meta w).
Proof.
  unfold flushBlock. destruct (builder_empty _); [by intros [= <-]|]. intros ([w1 h] & H1 & [= <-])%bind_inv.
  apply writeBlock_inv in H1 as [_ [io ->]]. done.
Qed.

Lemma indexPending_num w : tm_num (tw_meta (indexPending w)) = tm_num (tw_meta w).
Proof. unfold indexPending. by destruct (tw_pending w). Qed.

Lemma tw_add_num k v w w' : tw_add k v w = Ret w' -> tm_num (tw_meta w') = tm_num (tw_meta w).
Proof.
  unfold tw_add. destruct (_ <? _); [done|]. cbv zeta. destruct (_ <=? _)%Z.
  - intros ->%flushBlock_num. simpl. apply indexPending_num.
  - intros [= <-]. simpl. apply indexPending_num.
Qed.

Lemma writeBlock_num b w w' h : writeBlock b w = Ret (w', h) -> tm_num (tw_meta w') = tm_num (tw_meta w).
Proof. by intros [_ [io ->]]%writeBlock_inv. Qed.

Lemma tw_write_num b w w' : tw_write b w = Ret w' -> tm_num (tw_meta w') = tm_num (tw_meta w).
Proof. by intros [io ->]%tw_write_inv. Qed.

Lemma io_call_num w w' : io_call w = Ret w' -> tm_num (tw_meta w') = tm_num (tw_meta w).
Proof. by intros [io ->]%io_call_inv. Qed.

Lemma close_file_num w w' : close_file w = Ret w' -> tm_num (tw_meta w') = tm_num (tw_meta w).
Proof. by intros [io ->]%close_file_inv. Qed.

Lemma tw_finish_num w meta data : tw_finish w = Ret (meta, data) -> tm_num meta = tm_num (tw_meta w).
Proof.
  unfold tw_finish. intros (w1 & H1%flushBlock_num & ([w2 ih] & H2%writeBlock_num & H)%bind_inv)%bind_inv. rewrite indexPending_num, H1 in H2.
  apply bind_inv in H as (bloom & _ & H). apply bind_inv in H as ([w3 bh] & H3%writeBlock_num & H).
  apply bind_inv in H as (w4 & H4%tw_write_num & H). apply bind_inv in H as (w5 & H5%io_call_num & H).
  apply bind_inv in H as (w6 & H6%close_file_num & H). injection H as <- _. simpl. congruence.
Qed.

Section Number.
Context {I : Type} `{InternalIter I}.

Lemma table_loop_num fuel drop last (it it' : I) w w' : table_loop fuel drop last it w = Ret (it', w') -> tm_num (tw_meta w') = tm_num (tw_meta w).
Proof.
  revert last it w. induction fuel as [|fuel IH]; intros last it w; cbn [table_loop]; destruct (it_valid it); try done; try (by intros [= _ <-]).
  intros (ik & _ & ([[user s] kind] & _ & Hl)%bind_inv)%bind_inv. revert Hl. case_bool_decide; [|destruct (drop && _)].
  - intros (it1 & _ & Hl)%bind_inv. by eapply IH.
  - intros (it1 & _ & Hl)%bind_inv. by eapply IH.
  - intros (v & _ & (w1 & H1%tw_add_num & (it1 & _ & Hl)%bind_inv)%bind_inv)%bind_inv. rewrite (IH _ _ _ Hl). done.
Qed.

Lemma fill_table_num fuel drop (it : I) num bs io meta data : fill_table fuel drop it num bs io = Ret (meta, data) -> tm_num meta = num.
Proof.
  unfold fill_table. intros (w & [io' ->]%newTableWriter_inv & (it1 & _ & ([it2 w2] & Hl%table_loop_num & Hf)%bind_inv)%bind_inv)%bind_inv.
  destruct (it_close it2).2; [done|]. apply tw_finish_num in Hf. by rewrite Hf, Hl.
Qed.

Lemma writeTableFiltered_num fuel io (it : I) drop d d' r :
  writeTableFiltered fuel io it drop d = (d', r) ->
  d_cur d' = d_cur d /\ d_nextNum d' = u64 (d_nextNum d + 1) /\ d_closed d' = d_closed d /\ forall t, r = Ret (Some t) -> t_num t = d_nextNum d.
Proof.
  unfold writeTableFiltered. cbn [d_files set_nextNum]. destruct (d_files d !! d_nextNum d); [by intros [= <- <-]|].
  destruct (fill_table _ _ _ _ _ _) as [[meta data]| |] eqn:Hf; [|by intros [= <- <-]..]. apply fill_table_num in Hf.
  destruct (_ =? _)%N; [by intros [= <- <-]|]. destruct (tio_open io); intros [= <- <-]; split_and!; try done.
  intros t. unfold openTable. destruct (readFooter _ _ _) as [t'| |] eqn:Ht; [|done..]. intros [= <-]. apply readFooter_inv in Ht as [Hm _]. unfold t_num. by rewrite Hm.
Qed.
End Number.

(** ** Progress of a round *)

Lemma write_man_frame n man d d' err : write_man n man d = (d', err) -> d_cur d' = d_cur d /\ d_nextNum d' = d_nextNum d /\ d_closed d' = d_closed d.
Proof. unfold write_man. destruct (writeManifest n man (d_man d)) as [md e]. by intros [= <- <-]. Qed.

(** A flush takes its memtable out. *)
Lemma flush_shrinks io n upto m d d' u ms :
  v_imm (d_cur d) = m :: ms -> flush io n upto m d = (d', Ret u) -> length (v_imm (d_cur d')) < length (v_imm (d_cur d)).
Proof.
  intros Hv. unfold flush, flush_prepare, flush_table. rewrite Hv, N.eqb_refl.
  destruct (writeTableFiltered _ _ _ _ d) as [d1 r] eqn:Hw. apply writeTableFiltered_num in Hw as (Hc & _ & _ & _).
  destruct r as [t| |]; cbn [fmap go_fmap]; [|done..]. unfold flush_manifest. match goal with |- context [write_man _ _ ?x] => set (d2 := x) end.
  assert (d_cur d2 = d_cur d) as Hc2 by (unfold d2; destruct (_ <? _)%N; exact Hc).
  destruct (write_man _ _ d2) as [d3 err] eqn:Hm. apply write_man_frame in Hm as (Hc3 & _ & _). destruct err; [done|].
  unfold flush_install, delete_before. destruct upto; [done|]. intros [= <- _]. simpl. rewrite Hc3, Hc2, Hv.
  rewrite filter_cons_False by (intros H; by apply H). simpl. pose proof (length_filter (fun x => mt_seg x <> mt_seg m) ms). lia.
Qed.

(** The numbers of the tables are distinct and below the next one. *)
Definition tables_numbered (d : db) : Prop :=
  nums_distinct (v_tables (d_cur d)) /\ Forall (fun t => t_num t < d_nextNum d)%N (v_tables (d_cur d)).

(** A compaction leaves fewer tables. *)
Lemma compact_shrinks io n held inputs d d' u :
  tables_numbered d -> (d_nextNum d + 1 < w64)%N -> pickCompaction (v_tables (d_cur d)) = Some inputs -> compact io n held inputs d = (d', Ret u) ->
  length (v_tables (d_cur d')) < length (v_tables (d_cur d)) /\ tables_numbered d' /\ d_nextNum d' = (d_nextNum d + 1)%N.
Proof.
  intros [Hnd Hlt] Hw (Hlen & pre & post & Hts)%pick_window. unfold compact.
  assert (inputs <> []) as Hne by (intros ->; simpl in Hlen; unfold minRun in Hlen; lia).
  assert (compact_stale inputs d = Ret false) as ->.
  { destruct inputs as [|t ts]; [done|]. simpl. rewrite (proj2 (isInput_elem t _)); [done|]. rewrite Hts, !fmap_app. set_solver. }
  unfold compactLocked, compact_prepare. destruct (table_iters inputs) as [children| |]; [|done..].
  destruct (writeTableFiltered _ _ _ _ d) as [d1 r] eqn:Hwr. apply writeTableFiltered_num in Hwr as (Hc & Hn & _ & Ht). destruct r as [out| |]; [|done..].
  destruct (write_man _ _ d1) as [d2 err] eqn:Hm. apply write_man_frame in Hm as (Hc2 & Hn2 & _). destruct err; [done|]. intros [= <- _].
  rewrite u64_small in Hn by done.
  assert (v_tables (d_cur (compact_install held inputs out d2)) = pre ++ option_list out ++ post) as Hv.
  { simpl. rewrite Hc2, Hc, Hts. apply replace_window; [by rewrite <-Hts|done]. }
  assert (d_nextNum (compact_install held inputs out d2) = (d_nextNum d + 1)%N) as Hn' by (simpl; congruence).
  unfold tables_numbered, nums_distinct in *. rewrite Hv, Hn'. rewrite Hts in Hnd, Hlt. rewrite !Forall_app in Hlt. destruct Hlt as (L1 & _ & L3).
  rewrite !fmap_app, !NoDup_app in Hnd. destruct Hnd as (N1 & N2 & _ & N4 & N5). rewrite Hts, !length_app.
  assert (length (option_list out) <= 1) by (destruct out; simpl; lia).
  assert (forall ts, Forall (fun t => t_num t < d_nextNum d)%N ts -> forall t, out = Some t -> t_num t ∉ t_num <$> ts) as Hfresh.
  { intros ts Hl t -> (y & Hy & Hin)%list_elem_of_fmap. rewrite Forall_forall in Hl. specialize (Hl y Hin). rewrite (Ht t eq_refl) in Hy. lia. }
  split_and!; [unfold minRun in Hlen; lia| | |done].
  - rewrite !fmap_app, !NoDup_app. split_and!; [done| |destruct out; repeat constructor; set_solver| |done].
    + intros x Hx. rewrite not_elem_of_app. split; [|set_solver]. destruct out as [t|]; simpl; [|set_solver].
      rewrite list_elem_of_singleton. intros ->. by eapply (Hfresh pre).
    + intros x Hx. destruct out as [t|]; simpl in Hx; [|set_solver]. apply list_elem_of_singleton in Hx as ->. by apply (Hfresh post).
  - rewrite !Forall_app. split_and!; [by eapply Forall_impl; [exact L1|simpl; lia]| |by eapply Forall_impl; [exact L3|simpl; lia]].
    destruct out as [t|]; simpl; [|constructor]. constructor; [|constructor]. rewrite (Ht t eq_refl). lia.
Qed.

Lemma flushLoop_ends io fuel d : length (v_imm (d_cur d)) <= fuel -> (flushLoop io fuel d).2 <> Unfinished.
Proof.
  revert d. induction fuel as [|fuel IH]; intros d Hf; cbn [flushLoop]; (destruct (d_closed d); [done|]); destruct (v_imm (d_cur d)) as [|m ms] eqn:Hv; try done.
  - simpl in Hf. lia.
  - destruct (flush _ _ _ m d) as [d1 r] eqn:Hfl. destruct r as [u|e|]; [|done..]. apply IH.
    pose proof (flush_shrinks _ _ _ _ _ _ _ _ Hv Hfl) as Hs. rewrite Hv in Hs. simpl in *. lia.
Qed.

Lemma compactLoop_ends io fuel d :
  tables_numbered d -> (d_nextNum d + N.of_nat fuel < w64)%N -> length (v_tables (d_cur d)) <= fuel ->
  (compactLoop io fuel d).2 <> Unfinished /\
  ((compactLoop io fuel d).2 = Waits -> pickCompaction (v_tables (d_cur (compactLoop io fuel d).1)) = None).
Proof.
  revert d. induction fuel as [|fuel IH]; intros d Hn Hw Hf; cbn [compactLoop]; (destruct (d_closed d); [done|]);
    destruct (pickCompaction (v_tables (d_cur d))) as [inputs|] eqn:Hp; try done.
  - exfalso. destruct (pick_window _ _ Hp) as [Hl (pre & post & Hts)]. rewrite Hts, !length_app in Hf. unfold minRun in Hl. lia.
  - destruct (compact _ _ _ inputs d) as [d1 r] eqn:Hc. destruct r as [u|e|]; [|done..].
    destruct (compact_shrinks _ _ _ _ _ _ _ Hn ltac:(lia) Hp Hc) as (Hs & Hn1 & Hnn). apply IH; [done|lia|lia].
Qed.


Definition ex_rounds (n : nat) : roundIO := mkRoundIO (mkTableIO [] true) 6 None [].

Lemma ex_sessions_numbered :
  exists d, ex_sessions = Ret d /\ length (v_tables (d_cur d)) = 4 /\ tables_numbered d /\ (d_nextNum d + 4 < w64)%N.
Proof.
  eexists. split; [vm_compute; reflexivity|]. split; [vm_compute; reflexivity|]. split; [|vm_compute; reflexivity].
  split; [apply (bool_decide_eq_true_1 (NoDup _)); vm_compute; reflexivity|repeat constructor].
Qed.

