(* ===== verification/LogStore.v ===== *)
(** * Raft's data and its durable log (raft/types.go, raft/logstore.go, raft/memstore.go)

    Entries and messages, the [LogStore] interface as a type class, the
    in-memory store, and the contract an implementation promises: every
    operation agrees with the in-memory store on an abstract view.

    Terms, indexes and node ids are [uint64] in the code.  They are [N]
    here: a term grows by one per election and an index by one per entry,
    so they do not reach 2^64. *)

From stdpp Require Import base list gmap.
From S2P Require Import Prelude.

Abbreviation NodeID := N (only parsing).
Definition None_id : NodeID := 0%N.

Abbreviation EntryType := byte (only parsing).
Definition EntryNormal : EntryType := x00.
Definition EntryNoop : EntryType := x01.

Record Entry := mkEntry {
  e_Index : N;
  e_Term : N;
  e_Type : EntryType;
  e_Data : bytes;
}.

(** [MsgOther] is any other value of the wire's [uint8]. *)
Inductive MsgType :=
  | MsgVote | MsgVoteResp | MsgApp | MsgAppResp | MsgSnap | MsgSnapResp
  | MsgOther (code : byte).

Record Message := mkMessage {
  m_Type : MsgType;
  m_From : NodeID;
  m_To : NodeID;
  m_Term : N;
  m_Index : N;
  m_LogTerm : N;
  m_Entries : list Entry;
  m_Commit : N;
  m_Reject : bool;
  m_ConflictTerm : N;
  m_ConflictIndex : N;
  m_ReadID : N;
  m_Data : bytes;
  m_Offset : N;
  m_Done : bool;
}.

#[global] Instance Entry_eq_dec : EqDecision Entry.
Proof. solve_decision. Defined.
#[global] Instance MsgType_eq_dec : EqDecision MsgType.
Proof. solve_decision. Defined.
#[global] Instance Message_eq_dec : EqDecision Message.
Proof. solve_decision. Defined.

(** ** The interface *)

Class LogStore (S : Type) := {
  ls_Append : list Entry -> S -> go S;
  ls_Entries : N -> N -> S -> go (list Entry);
  ls_Term : N -> S -> go N;
  ls_FirstIndex : S -> N;
  ls_LastIndex : S -> N;
  ls_SetState : N -> NodeID -> S -> go S;
  ls_State : S -> go (N * NodeID);
  ls_Compact : N -> N -> bytes -> S -> go S;
  ls_Snapshot : S -> go (N * N * bytes);
}.

(** ** MemStore *)

Record MemStore := mkMem {
  ms_term : N;
  ms_vote : NodeID;
  ms_entries : list Entry;
  ms_snapIdx : N;
  ms_snapTerm : N;
  ms_snap : bytes;
}.

Definition NewMemStore : MemStore := mkMem 0 0 [] 0 0 [].

Definition lastLocked (s : MemStore) : N := (ms_snapIdx s + N.of_nat (length (ms_entries s)))%N.

Definition set_entries (es : list Entry) (s : MemStore) : MemStore :=
  mkMem (ms_term s) (ms_vote s) es (ms_snapIdx s) (ms_snapTerm s) (ms_snap s).

Definition appendLocked (entries : list Entry) (s : MemStore) : go MemStore :=
  match entries with
  | [] => Ret s
  | e :: _ =>
      let first := e_Index e in
      let last := lastLocked s in
      if (last + 1 <? first)%N || (first <=? ms_snapIdx s)%N then Fail ErrRange
      else
        keep ← slice (ms_entries s) 0 (N.to_nat (first - ms_snapIdx s - 1));
        Ret (set_entries (keep ++ entries) s)
  end.

Definition mem_Entries (lo hi : N) (s : MemStore) : go (list Entry) :=
  if (lo <=? ms_snapIdx s)%N then Fail ErrCompacted
  else if (lastLocked s + 1 <? hi)%N then Fail ErrRange
  else if (hi <? lo)%N then Panic
  else slice (ms_entries s) (N.to_nat (lo - ms_snapIdx s - 1)) (N.to_nat (hi - ms_snapIdx s - 1)).

Definition mem_Term (index : N) (s : MemStore) : go N :=
  if (index =? ms_snapIdx s)%N then Ret (ms_snapTerm s)
  else if (index <? ms_snapIdx s)%N then Fail ErrCompacted
  else if (lastLocked s <? index)%N then Fail ErrRange
  else match ms_entries s !! N.to_nat (index - ms_snapIdx s - 1) with
       | Some e => Ret (e_Term e)
       | None => Panic
       end.

Definition mem_FirstIndex (s : MemStore) : N := (ms_snapIdx s + 1)%N.

Definition mem_SetState (term : N) (vote : NodeID) (s : MemStore) : go MemStore :=
  Ret (mkMem term vote (ms_entries s) (ms_snapIdx s) (ms_snapTerm s) (ms_snap s)).

Definition mem_State (s : MemStore) : go (N * NodeID) := Ret (ms_term s, ms_vote s).

Definition mem_Compact (index term : N) (snapshot : bytes) (s : MemStore) : go MemStore :=
  if (index <=? ms_snapIdx s)%N then Ret s
  else
    es ← (if (index <=? lastLocked s)%N
          then slice (ms_entries s) (N.to_nat (index - ms_snapIdx s)) (length (ms_entries s))
          else Ret []);
    Ret (mkMem (ms_term s) (ms_vote s) es index term snapshot).

Definition mem_Snapshot (s : MemStore) : go (N * N * bytes) :=
  Ret (ms_snapIdx s, ms_snapTerm s, ms_snap s).

#[global] Instance MemStore_LogStore : LogStore MemStore := {
  ls_Append := appendLocked;
  ls_Entries := mem_Entries;
  ls_Term := mem_Term;
  ls_FirstIndex := mem_FirstIndex;
  ls_LastIndex := lastLocked;
  ls_SetState := mem_SetState;
  ls_State := mem_State;
  ls_Compact := mem_Compact;
  ls_Snapshot := mem_Snapshot;
}.

(** ** What an append stores *)

(** Storing what follows the last entry. *)
Lemma append_at_end s es s' :
  (forall i e, es !! i = Some e -> e_Index e = (lastLocked s + 1 + N.of_nat i)%N) ->
  appendLocked es s = Ret s' -> s' = set_entries (ms_entries s ++ es) s.
Proof.
  intros Hidx. destruct es as [|e es]; simpl.
  - intros [= <-]. unfold set_entries. rewrite app_nil_r. by destruct s.
  - specialize (Hidx 0 e eq_refl). destruct (_ || _); [done|].
    rewrite slice_ok; [|lia|unfold lastLocked in *; lia]. cbn [mbind go_bind]. intros [= <-].
    do 2 f_equal. rewrite drop_0, take_ge; [done|]. unfold lastLocked in *. lia.
Qed.

(** Storing entries at or before the end. *)
Lemma append_ok s e es :
  (ms_snapIdx s < e_Index e <= lastLocked s + 1)%N ->
  appendLocked (e :: es) s =
    Ret (set_entries (take (N.to_nat (e_Index e - ms_snapIdx s - 1)) (ms_entries s) ++ e :: es) s).
Proof.
  intros Hi. unfold appendLocked.
  destruct (N.ltb_spec (lastLocked s + 1) (e_Index e)); [lia|].
  destruct (N.leb_spec (e_Index e) (ms_snapIdx s)); [lia|]. simpl.
  rewrite slice_ok; [|lia|unfold lastLocked in *; lia]. by rewrite drop_0, Nat.sub_0_r.
Qed.

(** Storing what follows the last entry succeeds. *)
Lemma append_end_ok s es :
  (forall i e, es !! i = Some e -> e_Index e = (lastLocked s + 1 + N.of_nat i)%N) ->
  appendLocked es s = Ret (set_entries (ms_entries s ++ es) s).
Proof.
  intros Hidx. destruct es as [|e es]; simpl; [unfold set_entries; rewrite app_nil_r; by destruct s|].
  specialize (Hidx 0 e eq_refl). fold (appendLocked (e :: es) s).
  rewrite append_ok by (unfold lastLocked in *; lia). do 3 f_equal.
  rewrite take_ge; [done|]. unfold lastLocked in *. lia.
Qed.

(** ** The contract

    An implementation agrees with [MemStore] on its view, except that a
    call may also fail with an I/O error. *)

Definition res_sim {A B} (R : A -> B -> Prop) (x : go A) (y : go B) : Prop :=
  match x with
  | Ret a => exists b, y = Ret b /\ R a b
  | Fail e => y = Fail e \/ e = ErrIO
  | Panic => y = Panic
  end.

Class LogStoreOK (S : Type) `{LogStore S} := {
  ls_ok : S -> Prop;
  ls_view : S -> MemStore;
  ls_Append_ok es s : ls_ok s ->
    res_sim (fun s' v => ls_ok s' /\ ls_view s' = v) (ls_Append es s) (appendLocked es (ls_view s));
  ls_Entries_ok lo hi s : ls_ok s -> ls_Entries lo hi s = mem_Entries lo hi (ls_view s);
  ls_Term_ok i s : ls_ok s -> ls_Term i s = mem_Term i (ls_view s);
  ls_FirstIndex_ok s : ls_ok s -> ls_FirstIndex s = mem_FirstIndex (ls_view s);
  ls_LastIndex_ok s : ls_ok s -> ls_LastIndex s = lastLocked (ls_view s);
  ls_SetState_ok t v s : ls_ok s ->
    res_sim (fun s' w => ls_ok s' /\ ls_view s' = w) (ls_SetState t v s) (mem_SetState t v (ls_view s));
  ls_State_ok s : ls_ok s -> ls_State s = mem_State (ls_view s);
  ls_Compact_ok i t d s : ls_ok s ->
    res_sim (fun s' v => ls_ok s' /\ ls_view s' = v) (ls_Compact i t d s) (mem_Compact i t d (ls_view s));
  ls_Snapshot_ok s : ls_ok s -> res_sim eq (ls_Snapshot s) (mem_Snapshot (ls_view s));
}.

#[global] Instance MemStore_LogStoreOK : LogStoreOK MemStore.
Proof.
  refine {| ls_ok := fun _ => True; ls_view := fun s => s |}; intros; cbn; try done;
    try (destruct (appendLocked _ _)); try (destruct (mem_Compact _ _ _ _)); simpl; eauto.
Defined.
