(* ===== verification/DiskStore.v ===== *)
(** * raft/diskstore.go: the log store on disk

    Records of entries, of the term and vote, and of snapshots live in a
    [WAL]; a snapshot lives in a file of its own.  Between opens the store
    answers from memory.  This file has the operations, and the proof that
    an open store behaves as the [LogStore] interface promises. *)

From stdpp Require Import base list gmap.
From S2P Require Import Prelude Codec Wal LogStore.

Definition recEntry : byte := x01.
Definition recState : byte := x02.
Definition recSnapshot : byte := x03.

(** The part of [DiskStore] kept in memory. *)
Record DiskStore := mkDS {
  ds_term : N;
  ds_vote : NodeID;
  ds_base : N;
  ds_entries : list Entry;
  ds_snapIdx : N;
  ds_snapTerm : N;
  ds_segMax : gmap N N;
}.

Definition ds_empty : DiskStore := mkDS 0 0 0 [] 0 0 ∅.

Definition ds_lastLocked (s : DiskStore) : N := (ds_base s + N.of_nat (length (ds_entries s)))%N.

(** [s[:hi]] and [s[lo:]] for [uint64] bounds, which may have wrapped. *)
Definition slice_to {A} (s : list A) (hi : N) : go (list A) :=
  if (hi <=? N.of_nat (length s))%N then Ret (take (N.to_nat hi) s) else Panic.
Definition slice_from {A} (s : list A) (lo : N) : go (list A) :=
  if (lo <=? N.of_nat (length s))%N then Ret (drop (N.to_nat lo) s) else Panic.

(** ** Replay *)

Definition replay_entry (seg : N) (e : Entry) (s : DiskStore) : go DiskStore :=
  if (e_Index e <=? ds_snapIdx s)%N then Ret s
  else
    let last := ds_lastLocked s in
    '(base, entries) ←
      (if (length (ds_entries s) =? 0) && (last + 1 <? e_Index e)%N then
         Ret ((e_Index e - 1)%N, ds_entries s)
       else if (e_Index e <=? last)%N then
         es ← slice_to (ds_entries s) (usub64 (usub64 (e_Index e) (ds_base s)) 1);
         Ret (ds_base s, es)
       else if (last + 1 <? e_Index e)%N then Fail ErrGap
       else Ret (ds_base s, ds_entries s));
    Ret (mkDS (ds_term s) (ds_vote s) base (entries ++ [e]) (ds_snapIdx s) (ds_snapTerm s)
           (<[seg := e_Index e]> (ds_segMax s))).

Definition dropThrough (idx : N) (s : DiskStore) : go DiskStore :=
  es ← (if (ds_lastLocked s <=? idx)%N then Ret []
        else slice_from (ds_entries s) (usub64 idx (ds_base s)));
  Ret (mkDS (ds_term s) (ds_vote s) idx es (ds_snapIdx s) (ds_snapTerm s) (ds_segMax s)).

Definition set_snap (idx term : N) (s : DiskStore) : DiskStore :=
  mkDS (ds_term s) (ds_vote s) (ds_base s) (ds_entries s) idx term (ds_segMax s).

Definition replay_snapshot (idx term : N) (s : DiskStore) : go DiskStore :=
  if (idx <? ds_base s)%N then Fail ErrSnapshotBelow
  else s ← dropThrough idx s; Ret (set_snap idx term s).

Definition replay_state (term : N) (vote : NodeID) (s : DiskStore) : DiskStore :=
  mkDS term vote (ds_base s) (ds_entries s) (ds_snapIdx s) (ds_snapTerm s) (ds_segMax s).

Definition replay (seg : N) (p : bytes) (s : DiskStore) : go DiskStore :=
  match p with
  | [] => Fail ErrEmptyRecord
  | c :: _ =>
      if bool_decide (c = recEntry) then
        if length p <? 18 then Fail ErrShortRecord
        else
          index ← le_uint 8 (drop 1 p);
          term ← le_uint 8 (drop 9 p);
          type ← match p !! 17 with Some t => Ret t | None => Panic end;
          replay_entry seg (mkEntry index term type (drop 18 p)) s
      else if bool_decide (c = recState) then
        if length p <? 17 then Fail ErrShortRecord
        else
          term ← le_uint 8 (drop 1 p);
          vote ← le_uint 8 (drop 9 p);
          Ret (replay_state term vote s)
      else if bool_decide (c = recSnapshot) then
        if length p <? 17 then Fail ErrShortRecord
        else
          idx ← le_uint 8 (drop 1 p);
          term ← le_uint 8 (drop 9 p);
          replay_snapshot idx term s
      else Fail ErrUnknownRecord
  end.

(** ** Record payloads *)

Definition entry_payload (e : Entry) : bytes :=
  recEntry :: le_put 8 (e_Index e) ++ le_put 8 (e_Term e) ++ [e_Type e] ++ e_Data e.
Definition state_payload (term : N) (vote : NodeID) : bytes :=
  recState :: le_put 8 term ++ le_put 8 vote.
Definition snapshot_payload (index term : N) : bytes :=
  recSnapshot :: le_put 8 index ++ le_put 8 term.

(** ** The store on its files

    A snapshot file is named by its index, a temporary one has the same
    name with a suffix; the flag says that the file and its name have
    reached the disk. *)

Abbreviation snapFiles := (gmap (N * bool) (bytes * bool)).

(** Outcome of [writeFileAtomic]: done; failed before the rename, possibly
    leaving a temporary file; or failed to sync the directory. *)
Inductive fileOutcome := FileOk | FileFail (part : option bytes) | FileUnsynced.

(** Outcomes of the system calls of one operation. *)
Record dsCalls := mkDsCalls {
  dc_file : fileOutcome;
  dc_rotate : osCalls;
  dc_append : osCalls;
  dc_remove : bool;        (* the old snapshot file could be removed *)
  dc_delete : option N;    (* the segment whose removal failed *)
  dc_read : bool;          (* the snapshot file could be read *)
}.

Definition dc_good : dsCalls := mkDsCalls FileOk os_good os_good true None true.

(** An open store: memory, log, snapshot files, and the outcomes of the
    system calls of the operations to come. *)
Record disk := mkDisk {
  d_store : DiskStore;
  d_wal : WAL;
  d_files : snapFiles;
  d_calls : list dsCalls;
}.

Definition with_wal (w : WAL) (d : disk) : disk := mkDisk (d_store d) w (d_files d) (d_calls d).
Definition with_store (s : DiskStore) (d : disk) : disk := mkDisk s (d_wal d) (d_files d) (d_calls d).
Definition with_files (f : snapFiles) (d : disk) : disk := mkDisk (d_store d) (d_wal d) f (d_calls d).

Definition writeFileAtomic (o : fileOutcome) (index : N) (data : bytes) (fs : snapFiles)
  : snapFiles * go unit :=
  match o with
  | FileOk => (<[(index, false) := (data, true)]> (delete (index, true) fs), Ret tt)
  | FileFail None => (fs, Fail ErrIO)
  | FileFail (Some part) => (<[(index, true) := (part, false)]> fs, Fail ErrIO)
  | FileUnsynced => (<[(index, false) := (data, false)]> (delete (index, true) fs), Fail ErrIO)
  end.

Definition last_index (e : Entry) (es : list Entry) : N := e_Index (default e (list.last es)).

Definition disk_Append (o : dsCalls) (entries : list Entry) (d : disk) : disk * go unit :=
  match entries with
  | [] => (d, Ret tt)
  | e :: _ =>
      let s := d_store d in
      let first := e_Index e in
      let last := ds_lastLocked s in
      if (last + 1 <? first)%N || (first <=? ds_snapIdx s)%N then (d, Fail ErrRange)
      else
        match Append (dc_append o) (entry_payload <$> entries) (d_wal d) with
        | (w, Ret seg) =>
            match slice_to (ds_entries s) (usub64 (usub64 first (ds_base s)) 1) with
            | Ret keep =>
                (with_store (mkDS (ds_term s) (ds_vote s) (ds_base s) (keep ++ entries)
                   (ds_snapIdx s) (ds_snapTerm s) (<[seg := last_index e entries]> (ds_segMax s)))
                   (with_wal w d), Ret tt)
            | Fail err => (with_wal w d, Fail err)
            | Panic => (with_wal w d, Panic)
            end
        | (w, Fail err) => (with_wal w d, Fail err)
        | (w, Panic) => (with_wal w d, Panic)
        end
  end.

Definition disk_Entries (lo hi : N) (d : disk) : go (list Entry) :=
  let s := d_store d in
  if (lo <=? ds_snapIdx s)%N then Fail ErrCompacted
  else if (ds_lastLocked s + 1 <? hi)%N then Fail ErrRange
  else if (hi <? lo)%N then Panic
  else slice (ds_entries s) (N.to_nat (lo - ds_base s - 1)) (N.to_nat (hi - ds_base s - 1)).

Definition disk_Term (index : N) (d : disk) : go N :=
  let s := d_store d in
  if (index =? ds_snapIdx s)%N then Ret (ds_snapTerm s)
  else if (index <? ds_snapIdx s)%N then Fail ErrCompacted
  else if (ds_lastLocked s <? index)%N then Fail ErrRange
  else match ds_entries s !! N.to_nat (index - ds_base s - 1) with
       | Some e => Ret (e_Term e)
       | None => Panic
       end.

Definition disk_FirstIndex (d : disk) : N := (ds_snapIdx (d_store d) + 1)%N.
Definition disk_LastIndex (d : disk) : N := ds_lastLocked (d_store d).

Definition writeState (o : dsCalls) (term : N) (vote : NodeID) (d : disk) : disk * go unit :=
  match Append (dc_append o) [state_payload term vote] (d_wal d) with
  | (w, Ret _) => (with_wal w d, Ret tt)
  | (w, Fail err) => (with_wal w d, Fail err)
  | (w, Panic) => (with_wal w d, Panic)
  end.

Definition disk_SetState (o : dsCalls) (term : N) (vote : NodeID) (d : disk) : disk * go unit :=
  match writeState o term vote d with
  | (d, Ret _) => (with_store (replay_state term vote (d_store d)) d, Ret tt)
  | r => r
  end.

Definition disk_State (d : disk) : go (N * NodeID) := Ret (ds_term (d_store d), ds_vote (d_store d)).

(** The oldest segment below [cur] with an entry behind the snapshot; the
    map is visited in some order, [0] means none yet. *)
Definition keep_step (cur snapIdx : N) (kv : N * N) (keep : N) : N :=
  if (cur <=? kv.1)%N then keep
  else if (snapIdx <? kv.2)%N then if (keep =? 0)%N || (kv.1 <? keep)%N then kv.1 else keep
  else keep.

Definition keep_from (cur snapIdx : N) (segMax : gmap N N) : N :=
  let keep := foldr (keep_step cur snapIdx) 0%N (map_to_list segMax) in
  if (keep =? 0)%N then cur else keep.

Definition deleteObsoleteSegments (o : dsCalls) (d : disk) : disk * go unit :=
  let s := d_store d in
  let keep := keep_from (w_seg (d_wal d)) (ds_snapIdx s) (ds_segMax s) in
  let s' := mkDS (ds_term s) (ds_vote s) (ds_base s) (ds_entries s) (ds_snapIdx s) (ds_snapTerm s)
              (filter (fun kv => (keep <= kv.1)%N) (ds_segMax s)) in
  match dc_delete o with
  | Some k =>
      (* segments go in ascending order, up to the one that failed *)
      if (k <? keep)%N then (with_wal (DeleteBefore k (d_wal d)) (with_store s' d), Fail ErrIO)
      else (with_wal (DeleteBefore keep (d_wal d)) (with_store s' d), Ret tt)
  | None => (with_wal (DeleteBefore keep (d_wal d)) (with_store s' d), Ret tt)
  end.

(** The part of [Compact] after the snapshot record is durable. *)
Definition compact_finish (o : dsCalls) (index term : N) (d : disk) : disk * go unit :=
  let old := ds_snapIdx (d_store d) in
  match dropThrough index (d_store d) with
  | Ret s =>
      let d := with_store (set_snap index term s) d in
      let d := if (0 <? old)%N && dc_remove o then with_files (delete (old, false) (d_files d)) d else d in
      deleteObsoleteSegments o d
  | Fail err => (d, Fail err)
  | Panic => (d, Panic)
  end.

Definition disk_Compact (o : dsCalls) (index term : N) (snapshot : bytes) (d : disk) : disk * go unit :=
  if (index <=? ds_snapIdx (d_store d))%N then (d, Ret tt)
  else
    match writeFileAtomic (dc_file o) index snapshot (d_files d) with
    | (fs, Ret _) =>
        let d := with_files fs d in
        match Rotate (dc_rotate o) (d_wal d) with
        | (w, Ret _) =>
            let s := d_store d in
            match Append (dc_append o) [snapshot_payload index term; state_payload (ds_term s) (ds_vote s)] w with
            | (w, Ret _) => compact_finish o index term (with_wal w d)
            | (w, Fail err) => (with_wal w d, Fail err)
            | (w, Panic) => (with_wal w d, Panic)
            end
        | (w, Fail err) => (with_wal w d, Fail err)
        | (w, Panic) => (with_wal w d, Panic)
        end
    | (fs, Fail err) => (with_files fs d, Fail err)
    | (fs, Panic) => (with_files fs d, Panic)
    end.

Definition disk_Snapshot (o : dsCalls) (d : disk) : go (N * N * bytes) :=
  let s := d_store d in
  if (ds_snapIdx s =? 0)%N then Ret (0%N, 0%N, [])
  else
    match d_files d !! (ds_snapIdx s, false) with
    | Some (data, _) => if dc_read o then Ret (ds_snapIdx s, ds_snapTerm s, data) else Fail ErrIO
    | None => Fail ErrIO
    end.

Definition disk_Close (ok okc : bool) (d : disk) : disk * go unit :=
  let '(w, r) := Close ok okc (d_wal d) in (with_wal w d, r).

(** ** Opening *)

Definition removeStaleSnapshots (remove : bool) (snapIdx : N) (fs : snapFiles) : go snapFiles :=
  let fs' := filter (fun kv => kv.1 = (snapIdx, false)) fs in
  if negb remove && negb (bool_decide (fs' = fs)) then Fail ErrIO
  else if (0 <? snapIdx)%N && bool_decide (fs' !! (snapIdx, false) = None) then Fail ErrIO
  else Ret fs'.

Definition disk_opts : WALOptions := mkWALOptions 16777216 false.

Definition OpenDiskStore (o : openOutcome) (remove : bool) (dir : gmap N file) (fs : snapFiles)
    (calls : list dsCalls) : go disk :=
  '(w, s) ← OpenWAL disk_opts o replay dir ds_empty;
  if negb (ds_base s =? ds_snapIdx s)%N then Fail ErrLogStart
  else
    fs ← removeStaleSnapshots remove (ds_snapIdx s) fs;
    Ret (mkDisk s w fs calls).

(** ** The interface *)

Definition next_calls (d : disk) : dsCalls * disk :=
  match d_calls d with
  | [] => (dc_good, d)
  | o :: l => (o, mkDisk (d_store d) (d_wal d) (d_files d) l)
  end.

(** A call that fails leaves nothing the caller goes on with. *)
Definition run_op (op : dsCalls -> disk -> disk * go unit) (d : disk) : go disk :=
  let '(o, d) := next_calls d in
  match op o d with
  | (d, Ret _) => Ret d
  | (_, Fail e) => Fail e
  | (_, Panic) => Panic
  end.

#[global] Instance disk_LogStore : LogStore disk := {
  ls_Append es := run_op (fun o => disk_Append o es);
  ls_Entries := disk_Entries;
  ls_Term := disk_Term;
  ls_FirstIndex := disk_FirstIndex;
  ls_LastIndex := disk_LastIndex;
  ls_SetState t v := run_op (fun o => disk_SetState o t v);
  ls_State := disk_State;
  ls_Compact i t snap := run_op (fun o => disk_Compact o i t snap);
  ls_Snapshot d := disk_Snapshot (next_calls d).1 d;
}.

(** What a reader of the store sees. *)
Definition snap_data (fs : snapFiles) (idx : N) : bytes :=
  if (idx =? 0)%N then [] else match fs !! (idx, false) with Some (d, _) => d | None => [] end.

Definition disk_view (d : disk) : MemStore :=
  let s := d_store d in
  mkMem (ds_term s) (ds_vote s) (ds_entries s) (ds_snapIdx s) (ds_snapTerm s)
    (snap_data (d_files d) (ds_snapIdx s)).

(** The log is open, and what it remembers of failures are I/O errors. *)
Definition wal_fine (w : WAL) : Prop :=
  w_closed w = false /\ w_appendErr w ∈ [None; Some ErrIO] /\ w_syncErr w ∈ [None; Some ErrIO].

Record disk_ok (d : disk) : Prop := {
  do_base : ds_base (d_store d) = ds_snapIdx (d_store d);
  do_term : ds_snapIdx (d_store d) = 0%N -> ds_snapTerm (d_store d) = 0%N;
  do_file : ds_snapIdx (d_store d) <> 0%N -> is_Some (d_files d !! (ds_snapIdx (d_store d), false));
  do_wal : wal_fine (d_wal d);
}.

Lemma opt_err_cases (o : option error) : o ∈ [None; Some ErrIO] <-> o = None \/ o = Some ErrIO.
Proof. rewrite !elem_of_cons, elem_of_nil. tauto. Qed.

Lemma openSegment_fine o seg w w' r :
  openSegment o seg w = (w', r) -> wal_fine w -> wal_fine w' /\ r ∈ [Ret tt; Fail ErrIO].
Proof.
  unfold openSegment. intros H Hw.
  destruct (w_dir w !! seg), o; injection H as <- <-; split; (set_solver || exact Hw).
Qed.

Lemma syncLocked_fine ok w w' r :
  syncLocked ok w = (w', r) -> wal_fine w -> wal_fine w' /\ r ∈ [Ret tt; Fail ErrIO].
Proof.
  unfold syncLocked. intros H (Hc & Ha & Hs).
  destruct (w_dirty w); simpl in H; [destruct (ok && w_open w)|]; injection H as <- <-.
  - split; [done|set_solver].
  - split; [|set_solver]. split_and!; simpl; set_solver.
  - split; [done|]. apply opt_err_cases in Hs as [-> | ->]; set_solver.
Qed.

Lemma rotateLocked_fine os w w' r :
  rotateLocked os w = (w', r) -> wal_fine w -> wal_fine w' /\ r ∈ [Ret tt; Fail ErrIO].
Proof.
  unfold rotateLocked. intros H Hw. destruct (w_appendErr w) as [e|] eqn:Ea.
  - injection H as <- <-. split; [done|]. destruct Hw as (_ & Ha & _). rewrite Ea in Ha.
    apply opt_err_cases in Ha as [?|[= ->]]; set_solver.
  - destruct (syncLocked (os_sync os) w) as [w1 r1] eqn:Es. apply syncLocked_fine in Es as [Hw1 Hr1]; [|done].
    destruct r1; [|injection H as <- <-; by split..].
    destruct (os_close os && w_open w1); [by apply openSegment_fine in H|].
    injection H as <- <-. split; [exact Hw1|set_solver].
Qed.

Lemma append_buf_fine os buf w w' r :
  append_buf os buf w = (w', r) -> wal_fine w -> wal_fine w' /\ (r = Fail ErrIO \/ exists s, r = Ret s).
Proof.
  unfold append_buf. intros H (Hc & Ha & Hs).
  assert (forall n w2 r2, (let w2 := set_file w (mkFile (f_data (cur_file w) ++ take n buf) (f_synced (cur_file w))) in
    (mkWAL (w_opts w2) (w_dir w2) (w_seg w2) (w_open w2) (w_size w2) (w_dirty w2) (w_closed w2)
       (w_syncErr w2) (Some ErrIO), @Fail N ErrIO)) = (w2, r2) ->
    wal_fine w2 /\ (r2 = Fail ErrIO \/ exists s, r2 = Ret s)) as Hfail.
  { intros n w2 r2 [= <- <-]. split; [|eauto]. split_and!; simpl; set_solver. }
  destruct (w_open w); [|by eapply Hfail]. destruct (os_write os); [by eapply Hfail|].
  destruct (SyncInterval _); [injection H as <- <-; by split; [|eauto]|].
  destruct (syncLocked _ _) as [w1 r1] eqn:Es. apply syncLocked_fine in Es as [Hw1 Hr1]; [|done].
  destruct r1 as [|e|]; injection H as <- <-; split; try exact Hw1; [eauto| |]; set_solver.
Qed.

Lemma Append_fine os ps w w' r :
  Append os ps w = (w', r) -> wal_fine w -> Forall (fun p => length p <> 0) ps ->
  wal_fine w' /\ (r = Fail ErrIO \/ exists s, r = Ret s).
Proof.
  unfold Append. intros H Hw Hp. destruct (existsb _ ps) eqn:Ee.
  { apply existsb_exists in Ee as (p & Hin & Hl). apply Nat.eqb_eq in Hl.
    rewrite Forall_forall in Hp. exfalso. apply (Hp p); [by apply list_elem_of_In|done]. }
  destruct Hw as (Hc & Ha & Hs). rewrite Hc in H. apply opt_err_cases in Ha as [Ha|Ha]; rewrite Ha in H.
  - assert (wal_fine w) as Hw by (split_and!; [done|rewrite Ha; set_solver|done]).
    destruct (_ <=? _)%N; [|by apply append_buf_fine in H].
    destruct (rotateLocked os w) as [w1 r1] eqn:Er. apply rotateLocked_fine in Er as [Hw1 Hr1]; [|done].
    destruct r1; [by apply append_buf_fine in H|..]; injection H as <- <-; (split; [exact Hw1|set_solver]).
  - injection H as <- <-. split; [|by left]. split_and!; [done|rewrite Ha; set_solver|done].
Qed.

Lemma Rotate_fine os w w' r :
  Rotate os w = (w', r) -> wal_fine w -> wal_fine w' /\ (r = Fail ErrIO \/ exists s, r = Ret s).
Proof.
  unfold Rotate. intros H Hw. destruct (rotateLocked os w) as [w1 r1] eqn:Er.
  apply rotateLocked_fine in Er as [Hw1 Hr1]; [|done].
  destruct r1; injection H as <- <-; split; try done; [eauto|set_solver|set_solver].
Qed.

Lemma payloads_nonempty (es : list Entry) : Forall (fun p => length p <> 0) (entry_payload <$> es).
Proof. apply Forall_fmap, Forall_forall. intros e _. unfold entry_payload. simpl. lia. Qed.

Lemma slice_to_index {A} (s : list A) i b :
  (b < i <= b + N.of_nat (length s) + 1)%N ->
  slice_to s (usub64 (usub64 i b) 1) = Ret (take (N.to_nat (i - b - 1)) s).
Proof.
  intros H. rewrite !usub64_le by (rewrite ?usub64_le; lia). unfold slice_to.
  destruct (N.leb_spec (i - b - 1) (N.of_nat (length s))); [done|lia].
Qed.

Lemma slice_from_index {A} (s : list A) i b :
  (b <= i <= b + N.of_nat (length s))%N ->
  slice_from s (usub64 i b) = Ret (drop (N.to_nat (i - b)) s).
Proof.
  intros H. rewrite usub64_le by lia. unfold slice_from.
  destruct (N.leb_spec (i - b) (N.of_nat (length s))); [done|lia].
Qed.

(** Entries at or below [idx] go, whatever the log still holds. *)
Lemma dropThrough_ok idx s :
  (ds_base s <= idx)%N ->
  dropThrough idx s =
    Ret (mkDS (ds_term s) (ds_vote s) idx (drop (N.to_nat (idx - ds_base s)) (ds_entries s))
           (ds_snapIdx s) (ds_snapTerm s) (ds_segMax s)).
Proof.
  intros H. unfold dropThrough, ds_lastLocked.
  destruct (N.leb_spec (ds_base s + N.of_nat (length (ds_entries s))) idx).
  - simpl. by rewrite drop_ge by lia.
  - by rewrite slice_from_index by lia.
Qed.

(** ** The open store keeps the interface's promises *)

Lemma disk_ok_calls d o d' : next_calls d = (o, d') -> disk_ok d -> disk_ok d' /\ disk_view d' = disk_view d.
Proof.
  unfold next_calls. destruct (d_calls d); intros [= <- <-] []; (split; [by constructor|done]).
Qed.

(** [run_op] meets the contract when the operation does. *)
Lemma run_op_ok (op : dsCalls -> disk -> disk * go unit) (spec : MemStore -> go MemStore) d :
  (forall o d d' r, disk_ok d -> op o d = (d', r) ->
     match r with
     | Ret _ => disk_ok d' /\ spec (disk_view d) = Ret (disk_view d')
     | Fail e => spec (disk_view d) = Fail e \/ e = ErrIO
     | Panic => spec (disk_view d) = Panic
     end) ->
  disk_ok d ->
  res_sim (fun d' v => disk_ok d' /\ disk_view d' = v) (run_op op d) (spec (disk_view d)).
Proof.
  intros Hop Hd. unfold run_op. destruct (next_calls d) as [o d1] eqn:En.
  destruct (disk_ok_calls _ _ _ En Hd) as [Hd1 <-].
  destruct (op o d1) as [d2 r] eqn:Eo. specialize (Hop o d1 d2 r Hd1 Eo).
  destruct r; simpl; [|done..]. destruct Hop as [? Heq]. eexists. split; [exact Heq|done].
Qed.

Lemma disk_Append_ok es o d d' r :
  disk_ok d -> disk_Append o es d = (d', r) ->
  match r with
  | Ret _ => disk_ok d' /\ appendLocked es (disk_view d) = Ret (disk_view d')
  | Fail e => appendLocked es (disk_view d) = Fail e \/ e = ErrIO
  | Panic => appendLocked es (disk_view d) = Panic
  end.
Proof.
  intros [Hb Ht Hf Hw] H. destruct es as [|e es]; [injection H as <- <-; done|].
  unfold disk_Append, ds_lastLocked in H. simpl. unfold lastLocked. simpl. rewrite Hb in H.
  destruct (_ || _) eqn:Ec; [injection H as <- <-; by left|]. bool_to_prop.
  destruct (Append _ _ (d_wal d)) as [w1 r1] eqn:Ea.
  apply Append_fine in Ea as [Hw1 Hr1]; [|done|apply (payloads_nonempty (e :: es))].
  rewrite slice_ok by lia. rewrite slice_to_index in H by lia. cbn [mbind go_bind].
  destruct Hr1 as [-> |[seg ->]]; injection H as <- <-; [by right|].
  split; [by constructor|]. rewrite drop_0, Nat.sub_0_r. done.
Qed.

Lemma disk_SetState_ok t v o d d' r :
  disk_ok d -> disk_SetState o t v d = (d', r) ->
  match r with
  | Ret _ => disk_ok d' /\ mem_SetState t v (disk_view d) = Ret (disk_view d')
  | Fail e => mem_SetState t v (disk_view d) = Fail e \/ e = ErrIO
  | Panic => mem_SetState t v (disk_view d) = Panic
  end.
Proof.
  intros [Hb Ht Hf Hw] H. unfold disk_SetState, writeState in H.
  destruct (Append _ _ (d_wal d)) as [w1 r1] eqn:Ea.
  apply Append_fine in Ea as [Hw1 Hr1]; [|done|by repeat constructor].
  destruct Hr1 as [-> |[seg ->]]; injection H as <- <-; [by right|]. split; [by constructor|done].
Qed.

Lemma deleteObsolete_ok o d d' r :
  disk_ok d -> deleteObsoleteSegments o d = (d', r) ->
  disk_ok d' /\ disk_view d' = disk_view d /\ r ∈ [Ret tt; Fail ErrIO].
Proof.
  intros [Hb Ht Hf Hw] H. unfold deleteObsoleteSegments in H.
  destruct (dc_delete o) as [k|]; [destruct (k <? _)%N|]; injection H as <- <-;
    (split; [by constructor|split; [done|rewrite !elem_of_cons; tauto]]).
Qed.

Lemma disk_Compact_ok i t snap o d d' r :
  disk_ok d -> disk_Compact o i t snap d = (d', r) ->
  match r with
  | Ret _ => disk_ok d' /\ mem_Compact i t snap (disk_view d) = Ret (disk_view d')
  | Fail e => mem_Compact i t snap (disk_view d) = Fail e \/ e = ErrIO
  | Panic => mem_Compact i t snap (disk_view d) = Panic
  end.
Proof.
  intros Hok H. pose proof Hok as [Hb Ht Hf Hw]. unfold disk_Compact in H.
  assert (mem_Compact i t snap (disk_view d) = if (i <=? ds_snapIdx (d_store d))%N then Ret (disk_view d) else
    Ret (mkMem (ds_term (d_store d)) (ds_vote (d_store d))
           (drop (N.to_nat (i - ds_snapIdx (d_store d))) (ds_entries (d_store d))) i t snap)) as ->.
  { unfold mem_Compact, lastLocked. simpl. destruct (N.leb_spec i (ds_snapIdx (d_store d))); [done|].
    destruct (N.leb_spec i (ds_snapIdx (d_store d) + N.of_nat (length (ds_entries (d_store d))))).
    - rewrite slice_ok by lia. cbn [mbind go_bind]. do 2 f_equal. by rewrite take_ge by (rewrite length_drop; lia).
    - by rewrite drop_ge by lia. }
  destruct (N.leb_spec i (ds_snapIdx (d_store d))) as [|Hi]; [injection H as <- <-; done|].
  destruct (dc_file o) as [|[part|]|]; simpl in H; try (injection H as <- <-; by right).
  destruct (Rotate _ _) as [w1 r1] eqn:Er. apply Rotate_fine in Er as [Hw1 Hr1]; [|done].
  destruct Hr1 as [-> |[? ->]]; [injection H as <- <-; by right|].
  destruct (Append _ _ w1) as [w2 r2] eqn:Ea. apply Append_fine in Ea as [Hw2 Hr2]; [|done|by repeat constructor].
  destruct Hr2 as [-> |[? ->]]; [injection H as <- <-; by right|].
  unfold compact_finish in H. rewrite dropThrough_ok in H by (simpl; lia). cbv zeta in H.
  match type of H with deleteObsoleteSegments o ?x = _ => set (d1 := x) in H end.
  assert (d_files d1 !! (i, false) = Some (snap, true)) as Hfile.
  { unfold d1. destruct (_ && _); cbn [d_files with_files with_store with_wal];
      rewrite ?lookup_delete_ne by (intros [= E]; simpl in *; lia); apply lookup_insert_eq. }
  assert (d_store d1 = set_snap i t (mkDS (ds_term (d_store d)) (ds_vote (d_store d)) i
    (drop (N.to_nat (i - ds_base (d_store d))) (ds_entries (d_store d))) (ds_snapIdx (d_store d))
    (ds_snapTerm (d_store d)) (ds_segMax (d_store d)))) as Hst by (unfold d1; by destruct (_ && _)).
  assert (disk_ok d1) as Hd1.
  { constructor; rewrite ?Hst; simpl; [done|lia|intros _; eauto|]. unfold d1. by destruct (_ && _). }
  apply deleteObsolete_ok in H as (Hd' & Hv & Hr); [|done].
  apply elem_of_cons in Hr as [-> |Hr%list_elem_of_singleton]; [|subst r; by right].
  split; [done|]. rewrite Hv. unfold disk_view. rewrite Hst. simpl. unfold snap_data.
  destruct (N.eqb_spec i 0); [lia|]. by rewrite Hfile, Hb.
Qed.

#[global] Instance disk_LogStoreOK : LogStoreOK disk.
Proof.
  refine {| ls_ok := disk_ok; ls_view := disk_view |}; simpl.
  - intros es d Hd. apply (run_op_ok (fun o => disk_Append o es) (appendLocked es)); [|done].
    intros; by eapply disk_Append_ok.
  - intros lo hi d [Hb _ _ _]. unfold disk_Entries, mem_Entries, ds_lastLocked, lastLocked. simpl. by rewrite Hb.
  - intros i d [Hb _ _ _]. unfold disk_Term, mem_Term, ds_lastLocked, lastLocked. simpl. by rewrite Hb.
  - done.
  - intros d [Hb _ _ _]. unfold disk_LastIndex, ds_lastLocked, lastLocked. simpl. by rewrite Hb.
  - intros t v d Hd. apply (run_op_ok (fun o => disk_SetState o t v) (mem_SetState t v)); [|done].
    intros; by eapply disk_SetState_ok.
  - done.
  - intros i t snap d Hd. apply (run_op_ok (fun o => disk_Compact o i t snap) (mem_Compact i t snap)); [|done].
    intros; by eapply disk_Compact_ok.
  - intros d [Hb Ht Hf _]. unfold disk_Snapshot, mem_Snapshot. simpl. unfold snap_data.
    destruct (N.eqb_spec (ds_snapIdx (d_store d)) 0) as [E|E].
    + simpl. eexists. split; [done|]. by rewrite E, (Ht E).
    + destruct (Hf E) as [[data b] Hd]. rewrite Hd. destruct (dc_read _); simpl; [eauto|by right].
Defined.
