(* ===== verification/DiskRecover.v ===== *)
(** * Recovery of the log store on disk

    [OpenDiskStore] replays the records left in the log.  The store's
    history is a list of records with their segments; its meaning is the
    state after applying all of them.  Compaction deletes old segments, so
    recovery replays a suffix of the history.  The suffix yields the same
    state exactly when no record in it reaches back below its first entry;
    a history in which one does cannot be reopened. *)

From stdpp Require Import base list gmap sorting.
From S2P Require Import Prelude Codec Wal WalRecords LogStore DiskStore.

(** ** Records *)

Inductive rec :=
  | REntry (e : Entry)
  | RState (term : N) (vote : NodeID)
  | RSnap (index term : N).

Definition payload (r : rec) : bytes :=
  match r with
  | REntry e => entry_payload e
  | RState t v => state_payload t v
  | RSnap i t => snapshot_payload i t
  end.

Definition replay_rec (seg : N) (r : rec) (s : DiskStore) : go DiskStore :=
  match r with
  | REntry e => replay_entry seg e s
  | RState t v => Ret (replay_state t v s)
  | RSnap i t => replay_snapshot i t s
  end.

(** Every number fits its width. *)
Definition rec_ok (r : rec) : Prop :=
  match r with
  | REntry e => (e_Index e < w64)%N /\ (e_Term e < w64)%N /\ (18 + N.of_nat (length (e_Data e)) < w32)%N
  | RState t v => (t < w64)%N /\ (v < w64)%N
  | RSnap i t => (i < w64)%N /\ (t < w64)%N
  end.

Lemma payload_fits r : rec_ok r -> payload_ok (payload r).
Proof.
  destruct r as [e|t v|i t]; simpl; unfold payload_ok, entry_payload, state_payload, snapshot_payload;
    cbn [length]; autorewrite with len; cbn [length]; intros; unfold w32 in *; split; lia.
Qed.

Lemma le_uint_put8 x rest : (x < w64)%N -> le_uint 8 (le_put 8 x ++ rest) = Ret x.
Proof. intros. by apply le_uint_put. Qed.

(** What was written is what is replayed. *)
Lemma replay_payload seg r s : rec_ok r -> replay seg (payload r) s = replay_rec seg r s.
Proof.
  assert (forall A (x : N) (rest : list byte) (f : list byte -> A), f (drop 8 (le_put 8 x ++ rest)) = f rest) as Hd.
  { intros. by rewrite drop_app_length' by (by rewrite length_le_put). }
  destruct r as [[i t ty d]|t v|i t]; cbn [payload rec_ok replay_rec]; intros Hok; unfold replay,
    entry_payload, state_payload, snapshot_payload; cbn [e_Index e_Term e_Type e_Data] in *.
  - rewrite bool_decide_true by done.
    set (p := recEntry :: _). assert (length p = 18 + length d) as Hl.
    { unfold p. cbn [length]. autorewrite with len. cbn [length]. lia. }
    destruct (Nat.ltb_spec (length p) 18); [lia|]. unfold p.
    change (drop 1 (recEntry :: ?l)) with l. rewrite le_uint_put8 by apply Hok. cbn [mbind go_bind].
    change (drop 9 (recEntry :: ?l)) with (drop 8 l). rewrite (Hd _ i), le_uint_put8 by apply Hok. cbn [mbind go_bind].
    change ((recEntry :: ?l) !! 17) with (l !! 16).
    rewrite lookup_app_r, length_le_put by (rewrite length_le_put; lia).
    rewrite lookup_app_r, length_le_put by (rewrite length_le_put; lia). simpl ([ty] ++ d).
    change (drop 18 (recEntry :: ?l)) with (drop 9 (drop 8 l)). rewrite (Hd _ i).
    change (drop 9 ?l) with (drop (8 + 1) l). rewrite <-drop_drop, (Hd _ t). done.
  - rewrite bool_decide_false, bool_decide_true by done.
    assert (length (recState :: le_put 8 t ++ le_put 8 v) = 17) as ->.
    { cbn [length]. by autorewrite with len. }
    change (drop 1 (recState :: ?l)) with l. rewrite le_uint_put8 by apply Hok. cbn [mbind go_bind].
    change (drop 9 (recState :: ?l)) with (drop 8 l). rewrite (Hd _ t).
    rewrite <-(app_nil_r (le_put 8 v)), le_uint_put8 by apply Hok. done.
  - rewrite !bool_decide_false, bool_decide_true by done.
    assert (length (recSnapshot :: le_put 8 i ++ le_put 8 t) = 17) as ->.
    { cbn [length]. by autorewrite with len. }
    change (drop 1 (recSnapshot :: ?l)) with l. rewrite le_uint_put8 by apply Hok. cbn [mbind go_bind].
    change (drop 9 (recSnapshot :: ?l)) with (drop 8 l). rewrite (Hd _ i).
    rewrite <-(app_nil_r (le_put 8 t)), le_uint_put8 by apply Hok. done.
Qed.

(** ** Histories

    The state after a whole history, with the segment of every entry still
    in the log ([h_tags]) and of those there when the last snapshot record
    was written ([h_stags]). *)

Record hist := mkHist { h_ds : DiskStore; h_tags : list N; h_stags : list N }.

Definition hist0 : hist := mkHist ds_empty [] [].

Definition hstep (F : hist) (r : N * rec) : hist :=
  let s := h_ds F in
  match r.2 with
  | REntry e =>
      let n := N.to_nat (e_Index e - ds_base s - 1) in
      mkHist (mkDS (ds_term s) (ds_vote s) (ds_base s) (take n (ds_entries s) ++ [e])
                (ds_snapIdx s) (ds_snapTerm s) (<[r.1 := e_Index e]> (ds_segMax s)))
        (take n (h_tags F) ++ [r.1]) (h_stags F)
  | RState t v => mkHist (replay_state t v s) (h_tags F) (h_stags F)
  | RSnap i t =>
      let n := N.to_nat (i - ds_base s) in
      mkHist (mkDS (ds_term s) (ds_vote s) i (drop n (ds_entries s)) i t (ds_segMax s))
        (drop n (h_tags F)) (drop n (h_tags F))
  end.

Definition hrun (F : hist) (h : list (N * rec)) : hist := foldl hstep F h.

(** Entries continue or cut the log behind the snapshot, snapshots advance. *)
Definition hvalid1 (F : hist) (r : rec) : Prop :=
  match r with
  | REntry e => (ds_base (h_ds F) < e_Index e <= ds_lastLocked (h_ds F) + 1)%N
  | RState _ _ => True
  | RSnap i _ => (ds_base (h_ds F) < i)%N
  end.

Fixpoint hvalid (F : hist) (h : list (N * rec)) : Prop :=
  match h with
  | [] => True
  | r :: h => (hvalid1 F r.2 /\ rec_ok r.2) /\ hvalid (hstep F r) h
  end.

Lemma hvalid_app F h1 h2 : hvalid F (h1 ++ h2) <-> hvalid F h1 /\ hvalid (hrun F h1) h2.
Proof.
  revert F. induction h1 as [|r h1 IH]; intros F; simpl; [tauto|]. rewrite IH. unfold hrun. simpl. tauto.
Qed.

Lemma hrun_app F h1 h2 : hrun F (h1 ++ h2) = hrun (hrun F h1) h2.
Proof. apply foldl_app. Qed.

Record hwf (F : hist) : Prop := {
  hw_base : ds_base (h_ds F) = ds_snapIdx (h_ds F);
  hw_tags : length (h_tags F) = length (ds_entries (h_ds F));
  hw_index : forall n e, ds_entries (h_ds F) !! n = Some e -> e_Index e = (ds_base (h_ds F) + 1 + N.of_nat n)%N;
  hw_last : (ds_lastLocked (h_ds F) < w64)%N;
  hw_max : forall n g, h_tags F !! n = Some g -> exists m, ds_segMax (h_ds F) !! g = Some m /\
    (ds_base (h_ds F) + 1 + N.of_nat n <= m)%N;
  hw_snap : ds_snapIdx (h_ds F) = 0%N -> ds_snapTerm (h_ds F) = 0%N;
}.

Lemma hwf0 : hwf hist0.
Proof. by split. Qed.

Lemma hstep_wf F r : hwf F -> hvalid1 F r.2 -> rec_ok r.2 -> hwf (hstep F r).
Proof.
  intros [Hb Ht Hi Hl Hm Hs] Hv Hok. destruct r as [g [e|t v|i t]]; unfold hstep; simpl in *.
  - set (n := N.to_nat (e_Index e - ds_base (h_ds F) - 1)). unfold ds_lastLocked in *.
    assert (n <= length (ds_entries (h_ds F))) as Hn by lia.
    constructor; simpl; try done.
    + autorewrite with len. simpl. lia.
    + intros m e' [He'|[Hge He']]%lookup_app_Some.
      * apply lookup_take_Some in He' as [He' _]. by apply Hi.
      * rewrite length_take in Hge, He'. apply list_lookup_singleton_Some in He' as [Hz <-]. lia.
    + unfold ds_lastLocked. simpl. autorewrite with len. simpl. lia.
    + intros m g' [Hg|[Hge Hg]]%lookup_app_Some.
      * apply lookup_take_Some in Hg as [Hg Hlt]. destruct (Hm m g' Hg) as (x & Hx & Hle).
        destruct (decide (g' = g)) as [->|Hne]; [rewrite lookup_insert_eq|rewrite lookup_insert_ne by done]; eauto.
        eexists. split; [done|lia].
      * rewrite length_take in Hge, Hg. apply list_lookup_singleton_Some in Hg as [Hz <-].
        rewrite lookup_insert_eq. eexists. split; [done|lia].
  - by constructor.
  - unfold ds_lastLocked in *. constructor; simpl; try done.
    + rewrite !length_drop. lia.
    + intros n e'. rewrite lookup_drop. intros He'. apply Hi in He'. lia.
    + unfold ds_lastLocked. simpl. rewrite length_drop. lia.
    + intros n g'. rewrite lookup_drop. intros (x & Hx & Hle)%Hm. exists x. split; [done|lia].
    + lia.
Qed.

Lemma hrun_wf F h : hwf F -> hvalid F h -> hwf (hrun F h).
Proof.
  revert F. induction h as [|r h IH]; intros F Hw Hv; [done|]. destruct Hv as [[? ?] ?].
  apply IH; [by apply hstep_wf|done].
Qed.

(** ** Replaying a suffix *)

Definition above (b : N) (r : rec) : bool :=
  match r with
  | REntry e => (b <? e_Index e)%N
  | RState _ _ => true
  | RSnap i _ => (b <=? i)%N
  end.

(** No record behind the first entry reaches below it. *)
Fixpoint no_reach_back (l : list rec) : bool :=
  match l with
  | [] => true
  | REntry e :: l => forallb (above (e_Index e - 1)) l
  | _ :: l => no_reach_back l
  end.

Definition is_snap (r : rec) : bool := match r with RSnap _ _ => true | _ => false end.
Definition is_state (r : rec) : bool := match r with RState _ _ => true | _ => false end.

Section Suffix.
Context (k : N).

(** The state [G] of a replay that starts with segment [k], against the
    state [F] of the whole history: before the first entry ([b = None]), and
    after it ([b] the index before it).  [seen] says that a snapshot record
    has been replayed. *)
Record phase (seen : bool) (b : option N) (F : hist) (G : DiskStore) : Prop := {
  ph_snap : ds_snapIdx G = (if seen then ds_snapIdx (h_ds F) else 0%N) /\
    ds_snapTerm G = (if seen then ds_snapTerm (h_ds F) else 0%N);
  ph_max : ds_segMax G = filter (fun kv => (k <= kv.1)%N) (ds_segMax (h_ds F));
  ph_log : match b with
    | None => ds_entries G = [] /\ ds_base G = ds_snapIdx G /\
        Forall (fun g => (g < k)%N) (h_tags F) /\ (seen = true -> h_tags F = h_stags F)
    | Some b => (ds_base (h_ds F) <= ds_base G <= ds_lastLocked (h_ds F))%N /\ (b <= ds_base G)%N /\
        (ds_base G = b \/ ds_base G = ds_base (h_ds F)) /\
        ds_entries G = drop (N.to_nat (ds_base G - ds_base (h_ds F))) (ds_entries (h_ds F)) /\
        (seen = true -> ds_base G = ds_base (h_ds F) \/ Exists (fun g => (g < k)%N) (h_stags F))
    end;
}.

Lemma phase_snap_le seen b F G : phase seen b F G -> (ds_snapIdx G <= ds_snapIdx (h_ds F))%N.
Proof. intros [[-> _] _ _]. destruct seen; lia. Qed.

(** An entry behind the start of the replayed log. *)
Lemma replay_entry_above seg e s :
  (ds_snapIdx s < e_Index e)%N -> (ds_base s < e_Index e <= ds_lastLocked s + 1)%N ->
  replay_entry seg e s =
    Ret (mkDS (ds_term s) (ds_vote s) (ds_base s) (take (N.to_nat (e_Index e - ds_base s - 1)) (ds_entries s) ++ [e])
           (ds_snapIdx s) (ds_snapTerm s) (<[seg := e_Index e]> (ds_segMax s))).
Proof.
  intros Hs He. unfold replay_entry, ds_lastLocked in *.
  destruct (N.leb_spec (e_Index e) (ds_snapIdx s)); [lia|].
  destruct (N.ltb_spec (ds_base s + N.of_nat (length (ds_entries s)) + 1) (e_Index e)); [lia|].
  rewrite andb_false_r. destruct (N.leb_spec (e_Index e) (ds_base s + N.of_nat (length (ds_entries s)))).
  - by rewrite slice_to_index by lia.
  - simpl. by rewrite take_ge by lia.
Qed.

(** One at or before it: the slice bound wraps around. *)
Lemma replay_entry_below seg e s :
  (ds_snapIdx s < e_Index e <= ds_base s)%N -> (ds_lastLocked s < w64)%N ->
  replay_entry seg e s = Panic.
Proof.
  intros He Hl. unfold replay_entry, ds_lastLocked in *.
  destruct (N.leb_spec (e_Index e) (ds_snapIdx s)); [lia|].
  destruct (N.ltb_spec (ds_base s + N.of_nat (length (ds_entries s)) + 1) (e_Index e)); [lia|].
  rewrite andb_false_r.
  destruct (N.leb_spec (e_Index e) (ds_base s + N.of_nat (length (ds_entries s)))); [|lia].
  assert (N.of_nat (length (ds_entries s)) < usub64 (usub64 (e_Index e) (ds_base s)) 1)%N as Hbig.
  { unfold usub64. destruct (N.leb_spec (ds_base s) (e_Index e)).
    - replace (e_Index e - ds_base s)%N with 0%N by lia. simpl. unfold w64 in *. lia.
    - destruct (N.leb_spec 1 (w64 + e_Index e - ds_base s)); lia. }
  unfold slice_to. by destruct (N.leb_spec (usub64 (usub64 (e_Index e) (ds_base s)) 1) (N.of_nat (length (ds_entries s)))); [lia|].
Qed.

(** The first entry of a replay, wherever it is. *)
Lemma replay_entry_first seg e s :
  ds_entries s = [] -> ds_base s = ds_snapIdx s -> (ds_snapIdx s < e_Index e)%N ->
  replay_entry seg e s =
    Ret (mkDS (ds_term s) (ds_vote s) (e_Index e - 1) [e] (ds_snapIdx s) (ds_snapTerm s)
           (<[seg := e_Index e]> (ds_segMax s))).
Proof.
  intros Hn Hb He. unfold replay_entry, ds_lastLocked. rewrite Hn. simpl.
  destruct (N.leb_spec (e_Index e) (ds_snapIdx s)); [lia|].
  destruct (N.ltb_spec (ds_base s + N.of_nat 0 + 1) (e_Index e)); [done|].
  destruct (N.leb_spec (e_Index e) (ds_base s + N.of_nat 0)); [lia|]. simpl. by replace (e_Index e - 1)%N with (ds_base s) by lia.
Qed.

Lemma filter_insert_seg (m : gmap N N) seg i :
  (k <= seg)%N -> <[seg := i]> (filter (fun kv => (k <= kv.1)%N) m) = filter (fun kv => (k <= kv.1)%N) (<[seg := i]> m).
Proof. intros Hk. symmetry. by apply map_filter_insert_True. Qed.

Lemma phase_entry seen b F G g e :
  hwf F -> phase seen (Some b) F G -> hvalid1 F (REntry e) -> (k <= g)%N ->
  if above b (REntry e)
  then exists G', replay_entry g e G = Ret G' /\ phase seen (Some b) (hstep F (g, REntry e)) G'
  else replay_entry g e G = Panic.
Proof.
  intros Hw Hp Hv Hk. pose proof (phase_snap_le _ _ _ _ Hp) as Hle. pose proof (hw_last _ Hw) as Hlast.
  destruct Hp as [[Hs1 Hs2] Hmx (Hb1 & Hb2 & Hb3 & He & Hst)]. pose proof (hw_base _ Hw) as Hfb. simpl in Hv.
  assert (ds_lastLocked G = ds_lastLocked (h_ds F)) as Hll.
  { unfold ds_lastLocked in *. rewrite He, length_drop. lia. }
  simpl. destruct (N.ltb_spec b (e_Index e)) as [Hgt|Hge].
  - rewrite replay_entry_above by lia. eexists. split; [done|]. unfold ds_lastLocked in *.
    constructor; simpl; [done|rewrite Hmx; by apply filter_insert_seg|]. split_and!; try done.
    + lia.
    + unfold ds_lastLocked. simpl. autorewrite with len. simpl. lia.
    + rewrite He, drop_app_le, take_drop_commute by (autorewrite with len; lia).
      do 2 f_equal. f_equal. lia.
  - apply replay_entry_below; [|lia]. lia.
Qed.

Lemma phase_snapshot seen b F G g i t :
  hwf F -> phase seen (Some b) F G -> hvalid1 F (RSnap i t) ->
  if above b (RSnap i t)
  then exists G', replay_snapshot i t G = Ret G' /\ phase true (Some b) (hstep F (g, RSnap i t)) G'
  else replay_snapshot i t G = Fail ErrSnapshotBelow.
Proof.
  intros Hw Hp Hv. pose proof (phase_snap_le _ _ _ _ Hp) as Hle.
  destruct Hp as [[Hs1 Hs2] Hmx (Hb1 & Hb2 & Hb3 & He & Hst)]. pose proof (hw_base _ Hw) as Hfb. simpl in Hv.
  unfold replay_snapshot. simpl. destruct (N.leb_spec b i) as [Hbi|Hbi].
  - destruct (N.ltb_spec i (ds_base G)); [lia|]. rewrite dropThrough_ok by done. eexists. split; [done|].
    constructor; simpl; [done|done|]. unfold ds_lastLocked. simpl.
    split_and!; try done; try lia; try (by right); try (by left).
    rewrite N.sub_diag, drop_0, He, drop_drop. f_equal. lia.
  - by destruct (N.ltb_spec i (ds_base G)); [|lia].
Qed.

Lemma phase_first_entry seen F G g e :
  hwf F -> phase seen None F G -> hvalid1 F (REntry e) -> (k <= g)%N ->
  exists G', replay_entry g e G = Ret G' /\ phase seen (Some (e_Index e - 1)%N) (hstep F (g, REntry e)) G'.
Proof.
  intros Hw Hp Hv Hk. pose proof (phase_snap_le _ _ _ _ Hp) as Hle.
  destruct Hp as [[Hs1 Hs2] Hmx (He & Hb & Ht & Hst)]. pose proof (hw_base _ Hw) as Hfb. simpl in Hv.
  rewrite replay_entry_first by (done || lia). eexists. split; [done|]. unfold ds_lastLocked in *.
  constructor; simpl; [done|rewrite Hmx; by apply filter_insert_seg|]. split_and!; try lia; try (by left).
  - unfold ds_lastLocked. simpl. autorewrite with len. simpl. lia.
  - rewrite drop_app_le by (rewrite length_take; lia). rewrite drop_ge; [done|]. rewrite length_take. lia.
  - intros Hseen. rewrite (Hst Hseen) in Ht. destruct (h_stags F) as [|x l] eqn:Es.
    + left. pose proof (hw_tags _ Hw) as Hl. rewrite (Hst Hseen), ?Es in Hl. simpl in Hl. lia.
    + right. apply Exists_cons. left. by apply Forall_cons in Ht as [? _].
Qed.

Lemma phase_first_snapshot seen F G g i t :
  hwf F -> phase seen None F G -> hvalid1 F (RSnap i t) ->
  exists G', replay_snapshot i t G = Ret G' /\ phase true None (hstep F (g, RSnap i t)) G'.
Proof.
  intros Hw Hp Hv. pose proof (phase_snap_le _ _ _ _ Hp) as Hle.
  destruct Hp as [[Hs1 Hs2] Hmx (He & Hb & Ht & Hst)]. pose proof (hw_base _ Hw) as Hfb. simpl in Hv.
  unfold replay_snapshot. destruct (N.ltb_spec i (ds_base G)); [lia|]. rewrite dropThrough_ok by lia.
  eexists. split; [done|]. constructor; simpl; [done|done|]. rewrite He, drop_nil. split_and!; try done.
  by apply Forall_drop.
Qed.

Lemma phase_state seen b F G g t v :
  phase seen b F G -> phase seen b (hstep F (g, RState t v)) (replay_state t v G).
Proof. intros [? ? ?]. by constructor. Qed.

Definition replay_run (h : list (N * rec)) (G : DiskStore) : go DiskStore :=
  go_foldl (fun r => replay_rec r.1 r.2) h G.

(** After the first entry. *)
Lemma suffix_run_after h seen b F G :
  hwf F -> phase seen (Some b) F G -> hvalid F h -> Forall (fun r => (k <= r.1)%N) h ->
  if forallb (above b) h.*2
  then exists G', replay_run h G = Ret G' /\ phase (seen || existsb is_snap h.*2) (Some b) (hrun F h) G'
  else forall G', replay_run h G <> Ret G'.
Proof.
  revert seen F G. induction h as [|[g r] h IH]; intros seen F G Hw Hp Hv Hk.
  { exists G. by rewrite orb_false_r. }
  apply Forall_cons in Hk as [Hg Hk]. destruct Hv as [[Hv Hok] Hvs]. simpl in Hg, Hv, Hok.
  assert (hwf (hstep F (g, r))) as Hw' by (by apply hstep_wf).
  unfold replay_run. cbn [fmap list_fmap forallb existsb go_foldl fst snd hrun foldl].
  destruct r as [e|t v|i t]; cbn [replay_rec is_snap].
  - pose proof (phase_entry seen b F G g e Hw Hp Hv Hg) as Hstep.
    destruct (above b (REntry e)); [|by rewrite Hstep]. destruct Hstep as (G1 & -> & Hp1). by apply IH.
  - apply (IH seen); [done| |done|done]. by apply phase_state.
  - pose proof (phase_snapshot seen b F G g i t Hw Hp Hv) as Hstep.
    destruct (above b (RSnap i t)); [|by rewrite Hstep]. destruct Hstep as (G1 & -> & Hp1).
    rewrite orb_true_r. by apply (IH true).
Qed.

Lemma suffix_run h seen F G :
  hwf F -> phase seen None F G -> hvalid F h -> Forall (fun r => (k <= r.1)%N) h ->
  if no_reach_back h.*2
  then exists G' b, replay_run h G = Ret G' /\ phase (seen || existsb is_snap h.*2) b (hrun F h) G'
  else forall G', replay_run h G <> Ret G'.
Proof.
  revert seen F G. induction h as [|[g r] h IH]; intros seen F G Hw Hp Hv Hk.
  { exists G, None. by rewrite orb_false_r. }
  apply Forall_cons in Hk as [Hg Hk]. destruct Hv as [[Hv Hok] Hvs]. simpl in Hg, Hv, Hok.
  assert (hwf (hstep F (g, r))) as Hw' by (by apply hstep_wf).
  unfold replay_run. cbn [fmap list_fmap no_reach_back existsb go_foldl fst snd hrun foldl].
  destruct r as [e|t v|i t]; cbn [replay_rec is_snap].
  - destruct (phase_first_entry seen F G g e Hw Hp Hv Hg) as (G1 & -> & Hp1). cbn [mbind go_bind orb].
    pose proof (suffix_run_after h seen _ _ _ Hw' Hp1 Hvs Hk) as Hrun.
    destruct (forallb _ _); [|done]. destruct Hrun as (G' & ? & ?). eauto.
  - apply (IH seen); [done| |done|done]. by apply phase_state.
  - destruct (phase_first_snapshot seen F G g i t Hw Hp Hv) as (G1 & -> & Hp1).
    rewrite orb_true_r. by apply (IH true).
Qed.
End Suffix.

(** Only state records set the term and the vote. *)
Lemma replay_rec_state seg r G G' F :
  replay_rec seg r G = Ret G' ->
  (is_state r = true \/ ds_term G = ds_term (h_ds F) /\ ds_vote G = ds_vote (h_ds F)) ->
  ds_term G' = ds_term (h_ds (hstep F (seg, r))) /\ ds_vote G' = ds_vote (h_ds (hstep F (seg, r))).
Proof.
  destruct r as [e|t v|i t]; simpl; [|by intros [= <-]|].
  - unfold replay_entry, mbind, go_bind. intros H Hst. repeat case_match; simplify_eq/=; destruct Hst; done.
  - unfold replay_snapshot, dropThrough, mbind, go_bind. intros H Hst.
    repeat case_match; simplify_eq/=; destruct Hst; done.
Qed.

Lemma replay_run_state h G G' F :
  replay_run h G = Ret G' ->
  (existsb is_state h.*2 = true \/ ds_term G = ds_term (h_ds F) /\ ds_vote G = ds_vote (h_ds F)) ->
  ds_term G' = ds_term (h_ds (hrun F h)) /\ ds_vote G' = ds_vote (h_ds (hrun F h)).
Proof.
  revert G F. induction h as [|[g r] h IH]; intros G F; unfold replay_run; cbn [go_foldl fmap list_fmap existsb fst snd].
  { intros [= <-] [?|?]; done. }
  destruct (replay_rec g r G) as [G1| |] eqn:Er; [|done..]. cbn [mbind go_bind]. intros Hrun Hst.
  apply (IH G1 (hstep F (g, r))); [done|]. destruct (existsb is_state h.*2); [by left|]. right.
  apply (replay_rec_state g r G G1 F Er). rewrite orb_false_r in Hst. done.
Qed.

(** A history with nothing deleted can be replayed. *)
Lemma hstep_base F r : hvalid1 F r.2 -> (ds_base (h_ds F) <= ds_base (h_ds (hstep F r)))%N.
Proof. destruct r as [g [e|t v|i t]]; simpl; lia. Qed.

Lemma valid_above b F h :
  (b <= ds_base (h_ds F))%N -> hvalid F h -> forallb (above b) h.*2 = true.
Proof.
  revert F. induction h as [|[g r] h IH]; intros F Hb Hv; [done|]. destruct Hv as [[Hv _] Hvs]. simpl in Hv.
  cbn [fmap list_fmap forallb snd]. apply andb_true_iff. split.
  - destruct r as [e|t v|i t]; simpl in *; [apply N.ltb_lt; lia|done|apply N.leb_le; lia].
  - apply (IH (hstep F (g, r))); [|done]. pose proof (hstep_base F (g, r) Hv). lia.
Qed.

Lemma valid_no_reach_back F h :
  ds_entries (h_ds F) = [] -> hvalid F h -> no_reach_back h.*2 = true.
Proof.
  revert F. induction h as [|[g r] h IH]; intros F Hn Hv; [done|]. destruct Hv as [[Hv _] Hvs]. simpl in Hv.
  cbn [fmap list_fmap no_reach_back snd]. destruct r as [e|t v|i t].
  - apply (valid_above _ (hstep F (g, REntry e))); [|done]. simpl in *. unfold ds_lastLocked in Hv.
    rewrite Hn in Hv. simpl in Hv. lia.
  - by apply (IH (hstep F (g, RState t v))).
  - apply (IH (hstep F (g, RSnap i t))); [|done]. simpl. by rewrite Hn, drop_nil.
Qed.

(** Segments of the entries come from the history. *)
Lemma hrun_tags (P : N -> Prop) F h :
  Forall P (h_tags F) -> Forall (fun r => P r.1) h -> Forall P (h_tags (hrun F h)).
Proof.
  revert F. induction h as [|[g r] h IH]; intros F Ht Hh; [done|]. apply Forall_cons in Hh as [Hg Hh].
  apply IH; [|done]. destruct r; simpl; [|done|by apply Forall_drop].
  apply Forall_app. split; [by apply Forall_take|by constructor].
Qed.

Lemma hrun_stags (P : N -> Prop) F h :
  Forall P (h_tags F) -> Forall P (h_stags F) -> Forall (fun r => P r.1) h -> Forall P (h_stags (hrun F h)).
Proof.
  revert F. induction h as [|[g r] h IH]; intros F Ht Hst Hh; [done|]. apply Forall_cons in Hh as [Hg Hh].
  apply IH; [..|done]; destruct r; simpl; try done; try (by apply Forall_drop).
  apply Forall_app. split; [by apply Forall_take|by constructor].
Qed.

Lemma hrun_segMax (P : N -> Prop) F h :
  (forall g, is_Some (ds_segMax (h_ds F) !! g) -> P g) -> Forall (fun r => P r.1) h ->
  forall g, is_Some (ds_segMax (h_ds (hrun F h)) !! g) -> P g.
Proof.
  revert F. induction h as [|[g r] h IH]; intros F Hm Hh; [done|]. apply Forall_cons in Hh as [Hg Hh].
  apply IH; [|done]. destruct r; simpl; try done. intros g' Hs.
  destruct (decide (g' = g)) as [->|Hne]; [done|]. rewrite lookup_insert_ne in Hs by done. auto.
Qed.

Lemma split_from {A} k (h : list (N * A)) :
  StronglySorted N.le h.*1 -> h = filter (fun r => (r.1 < k)%N) h ++ from k h.
Proof.
  unfold from. induction h as [|[g r] h IH]; [done|]. cbn [fmap list_fmap].
  intros [Hs Hall]%StronglySorted_inv. destruct (decide (g < k)%N) as [Hlt|Hge].
  - rewrite (filter_cons_True (fun r => (r.1 < k)%N)) by done.
    rewrite (filter_cons_False (fun r => (k <= r.1)%N)) by (simpl; lia). simpl. f_equal. auto.
  - assert (forall l : list (N * A), Forall (fun r => (k <= r.1)%N) l -> filter (fun r => (r.1 < k)%N) l = [] /\ filter (fun r => (k <= r.1)%N) l = l) as Hf.
    { induction 1 as [|x l Hx _ [IH1 IH2]]; [done|]. rewrite filter_cons_False, filter_cons_True by (lia || done).
      split; [done|by f_equal]. }
    destruct (Hf ((g, r) :: h)) as [-> ->]; [|done]. constructor; [simpl; lia|]. apply Forall_forall. intros x Hx.
    rewrite Forall_forall in Hall. assert (g <= x.1)%N by (apply Hall, list_elem_of_fmap; eauto). lia.
Qed.

(** What compaction leaves of a history: every entry still in the log, also
    at the last snapshot, and the last snapshot and state records. *)
Record retained (k : N) (h : list (N * rec)) : Prop := {
  rt_pos : (0 < k)%N /\ Forall (fun r => (0 < r.1)%N) h;
  rt_valid : hvalid hist0 h;
  rt_sorted : StronglySorted N.le h.*1;
  rt_tags : Forall (fun g => (k <= g)%N) (h_tags (hrun hist0 h));
  rt_stags : Forall (fun g => (k <= g)%N) (h_stags (hrun hist0 h));
  rt_marks : from k h = h \/
    existsb is_snap (from k h).*2 = true /\ existsb is_state (from k h).*2 = true;
}.

(** The state of the whole history, with the segments that remain. *)
Definition recovered (k : N) (h : list (N * rec)) : DiskStore :=
  let s := h_ds (hrun hist0 h) in
  mkDS (ds_term s) (ds_vote s) (ds_base s) (ds_entries s) (ds_snapIdx s) (ds_snapTerm s)
    (filter (fun kv => (k <= kv.1)%N) (ds_segMax s)).

Lemma from_all {A} k (h : list (N * A)) : Forall (fun r => (k <= r.1)%N) (from k h).
Proof. apply Forall_forall. by intros r [? _]%list_elem_of_filter. Qed.

(** At the end nothing is missing. *)
Lemma phase_end k b F G :
  hwf F -> phase k true b F G -> Forall (fun g => (k <= g)%N) (h_stags F) ->
  ds_term G = ds_term (h_ds F) -> ds_vote G = ds_vote (h_ds F) ->
  G = mkDS (ds_term (h_ds F)) (ds_vote (h_ds F)) (ds_base (h_ds F)) (ds_entries (h_ds F))
        (ds_snapIdx (h_ds F)) (ds_snapTerm (h_ds F)) (filter (fun kv => (k <= kv.1)%N) (ds_segMax (h_ds F))).
Proof.
  intros Hw [[H1 H2] H3 H4] Hst Ht Hv. pose proof (hw_base _ Hw) as Hb.
  assert (ds_base G = ds_base (h_ds F) /\ ds_entries G = ds_entries (h_ds F)) as [Hgb Hge].
  { destruct b as [b|].
    - destruct H4 as (_ & _ & _ & He & [Heq|Hex]); [done|by rewrite He, Heq, N.sub_diag, drop_0|].
      exfalso. apply Exists_exists in Hex as (g & Hin & Hlt). rewrite Forall_forall in Hst. apply Hst in Hin. lia.
    - destruct H4 as (He & Hgb & Htg & Heq). split; [congruence|]. rewrite He.
      destruct (h_tags F) as [|g l] eqn:Et.
      + pose proof (hw_tags _ Hw) as Hl. rewrite Et in Hl. by destruct (ds_entries (h_ds F)).
      + exfalso. rewrite <-(Heq eq_refl) in Hst. apply Forall_cons in Hst as [? _]. apply Forall_cons in Htg as [? _]. lia. }
  destruct G. simpl in *. congruence.
Qed.

Lemma recover_history k h :
  retained k h ->
  if no_reach_back (from k h).*2 then replay_run (from k h) ds_empty = Ret (recovered k h)
  else forall G, replay_run (from k h) ds_empty <> Ret G.
Proof.
  intros [_ Hv Hs Ht Hst Hm].
  pose proof (split_from k h Hs) as Hh. set (h1 := filter _ h) in Hh.
  assert (Forall (fun r => (r.1 < k)%N) h1) as H1 by (apply Forall_forall; by intros r [? _]%list_elem_of_filter).
  pose proof Hv as Hv'. rewrite Hh in Hv'. apply hvalid_app in Hv' as [Hv1 Hv2].
  assert (hwf (hrun hist0 h1)) as Hw1 by (apply hrun_wf; [apply hwf0|done]).
  assert (hwf (hrun hist0 h)) as Hw by (apply hrun_wf; [apply hwf0|done]).
  assert (hrun (hrun hist0 h1) (from k h) = hrun hist0 h) as Hrun by (by rewrite <-hrun_app, <-Hh).
  destruct Hm as [Hall|[Hsn Hstt]].
  - rewrite Hall, (valid_no_reach_back hist0 h) by done.
    assert (phase k true (Some 0%N) hist0 ds_empty) as Hp0.
    { constructor; [done|done|]. simpl. split_and!; auto. }
    pose proof (suffix_run_after k h true 0%N hist0 ds_empty hwf0 Hp0 Hv) as Hsf.
    rewrite (valid_above 0 hist0 h) in Hsf by done.
    destruct Hsf as (G & Hr & Hp); [rewrite <-Hall; apply from_all|].
    rewrite Hr. f_equal. destruct (replay_run_state h ds_empty G hist0 Hr) as [? ?]; [by right|].
    by eapply phase_end.
  - assert (phase k false None (hrun hist0 h1) ds_empty) as Hp0.
    { constructor; [done| |simpl; split_and!; [done|done| |done]].
      - symmetry. apply map_empty_filter_2. intros g m Hgm Hle. simpl in Hle.
        assert (g < k)%N; [|lia].
        apply (hrun_segMax (fun g => (g < k)%N) hist0 h1); [|done|by rewrite Hgm].
        intros ? [? Hx]. done.
      - by apply hrun_tags. }
    pose proof (suffix_run k (from k h) false _ ds_empty Hw1 Hp0 Hv2 (from_all k h)) as Hsf.
    destruct (no_reach_back _); [|done]. destruct Hsf as (G & b & Hr & Hp).
    rewrite Hrun, Hsn in Hp. rewrite Hr. f_equal.
    destruct (replay_run_state (from k h) ds_empty G (hrun hist0 h1) Hr) as [Htm Hvt]; [by left|].
    rewrite Hrun in Htm, Hvt. by eapply phase_end.
Qed.

(** ** The history on disk *)

Definition enc (h : list (N * rec)) : list (N * bytes) := (fun r => (r.1, payload r.2)) <$> h.

(** The record a payload holds. *)
Definition rec_of (p : bytes) : option rec :=
  match p with
  | [] => None
  | c :: b =>
      let x := le_get (take 8 b) in
      let y := le_get (take 8 (drop 8 b)) in
      if bool_decide (c = recEntry) then
        t ← b !! 16; Some (REntry (mkEntry x y t (drop 17 b)))
      else if bool_decide (c = recState) then Some (RState x y)
      else if bool_decide (c = recSnapshot) then Some (RSnap x y)
      else None
  end.

Definition disk_log (dir : gmap N file) : list rec := omap rec_of (dir_log dir).*2.

Lemma rec_of_payload r : rec_ok r -> rec_of (payload r) = Some r.
Proof.
  assert (forall x rest, (x < w64)%N -> le_get (take 8 (le_put 8 x ++ rest)) = x) as Ht.
  { intros x rest Hx. rewrite take_app_length' by (by rewrite length_le_put). by rewrite le_get_put, N.mod_small. }
  assert (forall x rest, drop 8 (le_put 8 x ++ rest) = rest) as Hd.
  { intros. by rewrite drop_app_length' by (by rewrite length_le_put). }
  destruct r as [[i t ty d]|t v|i t]; cbn [payload rec_ok]; intros Hok; unfold rec_of,
    entry_payload, state_payload, snapshot_payload; cbn [e_Index e_Term e_Type e_Data] in *.
  - rewrite bool_decide_true by done. rewrite Hd, !Ht by apply Hok.
    rewrite lookup_app_r, length_le_put by (rewrite length_le_put; lia).
    rewrite lookup_app_r, length_le_put by (rewrite length_le_put; lia).
    change (drop 17 ?l) with (drop (8 + 9) l). rewrite <-drop_drop, Hd.
    change (drop 9 ?l) with (drop (8 + 1) l). rewrite <-drop_drop, Hd. done.
  - rewrite bool_decide_false, bool_decide_true, Hd by done. rewrite Ht by apply Hok.
    rewrite <-(app_nil_r (le_put 8 v)), Ht by apply Hok. done.
  - rewrite !bool_decide_false, bool_decide_true, Hd by done. rewrite Ht by apply Hok.
    rewrite <-(app_nil_r (le_put 8 t)), Ht by apply Hok. done.
Qed.

Lemma enc_app h seg rs : enc (h ++ (pair seg <$> rs)) = enc h ++ (pair seg <$> (payload <$> rs)).
Proof. unfold enc. rewrite fmap_app. f_equal. by rewrite <-!list_fmap_compose. Qed.

Lemma enc_fst h : (enc h).*1 = h.*1.
Proof. unfold enc. by rewrite <-list_fmap_compose. Qed.

Lemma from_enc k h : from k (enc h) = enc (from k h).
Proof.
  unfold from, enc. induction h as [|[g r] h IH]; [done|]. cbn [fmap list_fmap].
  destruct (decide (k <= g)%N).
  - rewrite !filter_cons_True by done. cbn [fmap list_fmap]. by f_equal.
  - by rewrite !filter_cons_False.
Qed.

Lemma hvalid_ok F h : hvalid F h -> Forall (fun r => rec_ok r.2) h.
Proof. revert F. induction h as [|r h IH]; intros F; [done|]. intros [[_ ?] ?]. constructor; eauto. Qed.

Lemma replay_enc h s :
  Forall (fun r => rec_ok r.2) h -> go_foldl (fun r => replay r.1 r.2) (enc h) s = replay_run h s.
Proof.
  intros Hok. revert s. induction Hok as [|[g r] h Hr _ IH]; intros s; [done|].
  unfold replay_run. cbn [enc fmap list_fmap go_foldl fst snd]. rewrite replay_payload by done.
  destruct (replay_rec g r s); [apply IH|done..].
Qed.

Lemma disk_log_enc dir h : Forall (fun r => rec_ok r.2) h -> dir_log dir = enc h -> disk_log dir = h.*2.
Proof.
  intros Hok Hd. unfold disk_log. rewrite Hd. clear Hd.
  induction Hok as [|[g r] h Hr _ IH]; [done|]. cbn [enc fmap list_fmap omap list_omap snd].
  rewrite rec_of_payload by done. by f_equal.
Qed.

Lemma from_ok k h : Forall (fun r => rec_ok r.2) h -> Forall (fun r => rec_ok r.2) (from k h).
Proof. intros H. rewrite Forall_forall in H. apply Forall_forall. intros r [_ Hr]%list_elem_of_filter. auto. Qed.

Lemma from_snoc k h seg (rs : list rec) :
  (k <= seg)%N -> from k (h ++ (pair seg <$> rs)) = from k h ++ (pair seg <$> rs).
Proof.
  intros Hk. unfold from. rewrite filter_app. f_equal. induction rs as [|r rs IH]; [done|].
  cbn [fmap list_fmap]. rewrite filter_cons_True by done. by f_equal.
Qed.

(** More records in the current segment. *)
Lemma retained_snoc k h seg rs :
  retained k h -> (k <= seg)%N -> Forall (fun r => (r.1 <= seg)%N) h ->
  hvalid (hrun hist0 h) (pair seg <$> rs) -> retained k (h ++ (pair seg <$> rs)).
Proof.
  intros [[Hp0 Hp] Hv Hs Ht Hst Hm] Hk Hle Hrs.
  assert (Forall (fun r : N * rec => (k <= r.1)%N) (pair seg <$> rs)) as Hkr.
  { apply Forall_fmap, Forall_forall. by intros r _. }
  constructor.
  - split; [done|]. apply Forall_app. split; [done|]. apply Forall_fmap, Forall_forall. intros r _. simpl. lia.
  - apply hvalid_app. done.
  - rewrite <-enc_fst, enc_app. apply sorted_snoc; [by rewrite enc_fst|].
    intros s p (r & [= -> ->] & Hr)%list_elem_of_fmap. rewrite Forall_forall in Hle. auto.
  - rewrite hrun_app. by apply hrun_tags.
  - rewrite hrun_app. by apply hrun_stags.
  - rewrite from_snoc by done. rewrite fmap_app, !existsb_app. destruct Hm as [-> |[-> ->]]; [by left|by right].
Qed.

Lemma inv_acked_enc w h : wal_inv w (enc h) -> Forall (fun r => (r.1 <= w_seg w)%N) h.
Proof.
  intros Hw. apply Forall_forall. intros [g r] Hr. apply (inv_acked _ _ Hw g (payload r)).
  apply list_elem_of_fmap. by exists (g, r).
Qed.
