(* ===== verification/DiskDurable.v ===== *)
(** * Durability of the log store on disk

    The store runs as a transition system: its operations, with any outcome
    of their system calls, power losses, also in the middle of an operation,
    and reopening.  Reopening restores exactly what the interface promises
    whenever the segments left can be replayed, and otherwise fails: a
    compaction can leave the log in a state that no longer opens. *)

From stdpp Require Import base list gmap sorting.
From S2P Require Import Prelude Codec Wal WalRecords LogStore DiskStore DiskRecover.

(** ** Operations and crashes *)

Inductive diskOp :=
  | DAppend (es : list Entry)
  | DSetState (term : N) (vote : NodeID)
  | DCompact (index term : N) (snapshot : bytes).

Definition disk_op (o : dsCalls) (op : diskOp) (d : disk) : disk * go unit :=
  match op with
  | DAppend es => disk_Append o es d
  | DSetState t v => disk_SetState o t v d
  | DCompact i t snap => disk_Compact o i t snap d
  end.

(** Consecutive entries, and numbers within their widths. *)
Definition op_ok (op : diskOp) : Prop :=
  match op with
  | DAppend es =>
      Forall (fun e => rec_ok (REntry e)) es /\
      forall i e e', es !! 0 = Some e -> es !! i = Some e' -> e_Index e' = (e_Index e + N.of_nat i)%N
  | DSetState t v => rec_ok (RState t v)
  | DCompact i t _ => rec_ok (RSnap i t)
  end.

(** What the interface says a crash during an operation may leave: some
    first entries of an append, all or nothing of the others. *)
Definition op_survives (op : diskOp) (v v' : MemStore) : Prop :=
  match op with
  | DAppend es => exists j, appendLocked (take j es) v = Ret v'
  | DSetState t vote => v' = v \/ mem_SetState t vote v = Ret v'
  | DCompact i t snap => v' = v \/ mem_Compact i t snap v = Ret v'
  end.

Definition op_spec (op : diskOp) (v : MemStore) : go MemStore :=
  match op with
  | DAppend es => appendLocked es v
  | DSetState t vote => mem_SetState t vote v
  | DCompact i t snap => mem_Compact i t snap v
  end.

(** A power loss keeps the snapshot files whose names are on disk, and may
    leave anything else. *)
Definition crash_files (fs fs' : snapFiles) : Prop :=
  forall i data, fs !! (i, false) = Some (data, true) -> fs' !! (i, false) = Some (data, true).

Inductive disk_reach : disk -> Prop :=
  | disk_fresh calls d :
      OpenDiskStore OpenOk true ∅ ∅ calls = Ret d -> disk_reach d
  | disk_did d o op d' :
      disk_reach d -> op_ok op -> disk_op o op d = (d', Ret tt) -> disk_reach d'
  | disk_crashed d o op d1 r dir fs calls d2 :
      disk_reach d -> op_ok op -> disk_op o op d = (d1, r) ->
      crash (w_dir (d_wal d1)) dir -> crash_files (d_files d1) fs ->
      OpenDiskStore OpenOk true dir fs calls = Ret d2 -> disk_reach d2.

(** ** The invariant *)

Definition durable (fs : snapFiles) (idx : N) : Prop :=
  idx <> 0%N -> exists data, fs !! (idx, false) = Some (data, true).

Record dinv (d : disk) (h : list (N * rec)) (k : N) : Prop := {
  di_ret : retained k h;
  di_store : d_store d = recovered k h;
  di_wal : wal_inv (d_wal d) (enc h);
  di_clean : wal_clean (d_wal d);
  di_holds : holds (d_wal d) (enc h);
  di_keeps : keeps k (d_wal d) (enc h);
  di_pos : (0 < k)%N;
  di_snap : durable (d_files d) (ds_snapIdx (d_store d));
}.

(** Some of [rs] may have been written. *)
Record dmid (d : disk) (h : list (N * rec)) (k : N) (rs : list rec) : Prop := {
  dm_ret : retained k h;
  dm_valid : hvalid (hrun hist0 h) (pair (w_seg (d_wal d)) <$> rs);
  dm_wal : wal_inv (d_wal d) (enc h);
  dm_most : at_most (d_wal d) (enc h) (payload <$> rs);
  dm_keeps : keeps k (d_wal d) (enc h);
  dm_pos : (0 < k)%N;
  dm_snap : forall j, durable (d_files d)
    (ds_snapIdx (recovered k (h ++ (pair (w_seg (d_wal d)) <$> take j rs))));
}.

(** The view of a history, with snapshots from [fs]. *)
Definition hview (fs : snapFiles) (k : N) (h : list (N * rec)) : MemStore :=
  let s := recovered k h in
  mkMem (ds_term s) (ds_vote s) (ds_entries s) (ds_snapIdx s) (ds_snapTerm s) (snap_data fs (ds_snapIdx s)).

Lemma dinv_dmid d h k : dinv d h k -> dmid d h k [].
Proof.
  intros [? Hs ? ? ? ? ? ?]. constructor; try done; [by apply holds_at_most|].
  intros j. rewrite take_nil, app_nil_r. by rewrite <-Hs.
Qed.

Lemma dinv_view d h k : dinv d h k -> disk_view d = hview (d_files d) k h.
Proof. intros H. unfold disk_view, hview. by rewrite (di_store _ _ _ H). Qed.

Lemma keeps_seg k w h : wal_inv w (enc h) -> keeps k w (enc h) -> (k <= w_seg w)%N.
Proof. intros Hw Hk. apply (kp_low _ _ _ Hk). destruct (inv_cur _ _ Hw) as (f & -> & _). eauto. Qed.

Lemma hwf_retained k h : retained k h -> hwf (hrun hist0 h).
Proof. intros H. apply hrun_wf; [apply hwf0|apply H]. Qed.

Lemma removeStale_ok idx fs :
  (idx <> 0%N -> is_Some (fs !! (idx, false))) ->
  removeStaleSnapshots true idx fs = Ret (filter (fun kv => kv.1 = (idx, false)) fs).
Proof.
  intros H. unfold removeStaleSnapshots. simpl. destruct (N.ltb_spec 0 idx); [|done]. simpl.
  rewrite bool_decide_false; [done|]. destruct H as [x Hx]; [lia|].
  intros Hn. apply map_lookup_filter_None in Hn as [Hn|Hn]; [congruence|]. by apply (Hn x).
Qed.

(** ** Reopening *)

Lemma reopen_disk d h k rs dir fs calls :
  dmid d h k rs -> crash (w_dir (d_wal d)) dir -> crash_files (d_files d) fs ->
  exists j, j <= length rs /\
    let h' := h ++ (pair (w_seg (d_wal d)) <$> take j rs) in
    if no_reach_back (disk_log dir) then
      exists d2, OpenDiskStore OpenOk true dir fs calls = Ret d2 /\ dinv d2 h' k /\
        disk_view d2 = hview (d_files d) k h'
    else forall d2, OpenDiskStore OpenOk true dir fs calls <> Ret d2.
Proof.
  intros [Hret Hval Hw Hat Hk Hpos Hsn] Hcr Hfs.
  destruct (reopen disk_opts _ _ _ _ k eq_refl Hw Hat Hk Hcr) as (j & Hj & Hlog & Hopen).
  rewrite length_fmap in Hj. exists j. split; [done|]. cbv zeta. set (h' := h ++ _).
  assert (enc h ++ (pair (w_seg (d_wal d)) <$> take j (payload <$> rs)) = enc h') as He.
  { unfold h'. by rewrite enc_app, (fmap_take payload). }
  cbv zeta in Hlog, Hopen. rewrite He in Hlog, Hopen. rewrite from_enc in Hlog, Hopen.
  assert (retained k h') as Hret'.
  { apply retained_snoc; [done|by eapply keeps_seg|by apply inv_acked_enc|].
    rewrite <-(take_drop j rs), fmap_app in Hval. by apply hvalid_app in Hval as [? _]. }
  pose proof (hvalid_ok _ _ (rt_valid _ _ Hret')) as Hok.
  rewrite (disk_log_enc dir _ (from_ok k _ Hok) Hlog).
  specialize (Hopen _ replay ds_empty). rewrite replay_enc in Hopen by (by apply from_ok).
  pose proof (recover_history k h' Hret') as Hrec. unfold OpenDiskStore.
  destruct (no_reach_back _).
  - rewrite Hrec in Hopen. destruct Hopen as (w' & -> & Hw' & Hc' & Hh' & Hk'). cbn [mbind go_bind].
    pose proof (hw_base _ (hwf_retained _ _ Hret')) as Hb.
    replace (ds_base (recovered k h') =? ds_snapIdx (recovered k h'))%N with true by (symmetry; by apply N.eqb_eq).
    cbn [negb]. rewrite removeStale_ok by (intros Hne; destruct (Hsn j Hne) as [data Hd]; apply Hfs in Hd; eauto).
    cbn [mbind go_bind]. eexists. split; [done|]. split.
    + constructor; try done. simpl. intros Hne. destruct (Hsn j Hne) as [data Hd]. apply Hfs in Hd.
      exists data. by apply map_lookup_filter_Some.
    + unfold disk_view, hview, snap_data. cbn [d_store d_files]. f_equal.
      destruct (N.eqb_spec (ds_snapIdx (recovered k h')) 0) as [|Hne]; [done|].
      destruct (Hsn j Hne) as [data Hd]. fold h' in Hd. rewrite Hd. apply Hfs in Hd.
      by erewrite (proj2 (map_lookup_filter_Some _ _ _ _)) by (by split; [exact Hd|]).
  - intros d2. destruct (replay_run (from k h') ds_empty) as [G|e|] eqn:Er; [by destruct (Hrec G)| |].
    + by rewrite Hopen.
    + by rewrite Hopen.
Qed.

(** ** Appending entries *)

Definition contig (es : list Entry) : Prop :=
  forall i e e', es !! 0 = Some e -> es !! i = Some e' -> e_Index e' = (e_Index e + N.of_nat i)%N.

Lemma contig_app es1 es2 : contig (es1 ++ es2) -> contig es1.
Proof. intros H i e e' H0 Hi. by apply (H i); apply lookup_app_l_Some. Qed.

(** A run of consecutive entries replaces the end of the log at once. *)
Lemma hrun_entries F seg e es :
  hwf F -> contig (e :: es) -> (ds_base (h_ds F) < e_Index e <= ds_lastLocked (h_ds F) + 1)%N ->
  Forall (fun e => rec_ok (REntry e)) (e :: es) ->
  let n := N.to_nat (e_Index e - ds_base (h_ds F) - 1) in
  let F' := hrun F (pair seg <$> (REntry <$> e :: es)) in
  hvalid F (pair seg <$> (REntry <$> e :: es)) /\
  h_ds F' = mkDS (ds_term (h_ds F)) (ds_vote (h_ds F)) (ds_base (h_ds F)) (take n (ds_entries (h_ds F)) ++ e :: es)
    (ds_snapIdx (h_ds F)) (ds_snapTerm (h_ds F)) (<[seg := last_index e (e :: es)]> (ds_segMax (h_ds F))).
Proof.
  intros Hw Hc He Hok n. revert Hc Hok. induction es as [|e' es IH] using rev_ind; intros Hc Hok.
  { simpl. apply Forall_cons in Hok as [Hok _]. done. }
  rewrite app_comm_cons in Hc, Hok |- *. apply Forall_app in Hok as [Hok Hok']. apply Forall_cons in Hok' as [Hok' _].
  specialize (IH (contig_app _ _ Hc) Hok). cbv zeta in IH |- *. destruct IH as [Hv Hds].
  rewrite !fmap_app, hrun_app, hvalid_app. set (F1 := hrun F _) in *.
  assert (e_Index e' = (e_Index e + N.of_nat (length (e :: es)))%N) as Hi.
  { apply (Hc _ e e'); [done|]. by rewrite lookup_app_r, Nat.sub_diag by done. }
  assert (ds_lastLocked (h_ds F1) = (e_Index e + N.of_nat (length es))%N) as Hl.
  { unfold ds_lastLocked in *. rewrite Hds. simpl. rewrite length_app, length_take. simpl. lia. }
  split.
  - split; [done|]. simpl. split; [|done]. split; [|done]. rewrite Hl, Hds. simpl in *. lia.
  - simpl. rewrite Hds. simpl. rewrite insert_insert_eq, take_ge.
    + rewrite <-app_assoc. f_equal. unfold last_index. by rewrite app_comm_cons, last_snoc.
    + autorewrite with len. simpl in *. unfold ds_lastLocked in *. lia.
Qed.

Lemma take_cons_S {A} j (x : A) l : take (S j) (x :: l) = x :: take j l.
Proof. done. Qed.

(** The view after an append of which the first entries survived. *)
Lemma hview_append fs k h seg es j :
  retained k h -> (k <= seg)%N -> contig es -> Forall (fun e => rec_ok (REntry e)) es ->
  (forall e, es !! 0 = Some e -> (ds_base (recovered k h) < e_Index e <= ds_lastLocked (recovered k h) + 1)%N) ->
  appendLocked (take j es) (hview fs k h) =
    Ret (hview fs k (h ++ (pair seg <$> take j (REntry <$> es)))).
Proof.
  intros Hret Hk Hc Hok Hfirst. destruct es as [|e es]; [simpl; by rewrite !take_nil, app_nil_r|].
  destruct j as [|j]; [by rewrite app_nil_r|].
  pose proof (hwf_retained _ _ Hret) as Hw. specialize (Hfirst e eq_refl).
  rewrite <-(fmap_take REntry), take_cons_S.
  assert (Forall (fun e => rec_ok (REntry e)) (e :: take j es)) as Hok'.
  { apply Forall_cons in Hok as [? ?]. constructor; [done|by apply Forall_take]. }
  assert (contig (e :: take j es)) as Hc'.
  { apply (contig_app _ (drop j es)). simpl. by rewrite take_drop. }
  destruct (hrun_entries (hrun hist0 h) seg e (take j es) Hw Hc' Hfirst Hok') as [_ Hds].
  rewrite append_ok.
  - unfold hview, recovered. rewrite hrun_app, Hds. unfold set_entries. simpl.
    by rewrite <-(hw_base _ Hw).
  - unfold lastLocked, ds_lastLocked in *. simpl in *. rewrite <-(hw_base _ Hw). lia.
Qed.

Lemma recovered_snapIdx_entries k h seg es :
  ds_snapIdx (recovered k (h ++ (pair seg <$> (REntry <$> es)))) = ds_snapIdx (recovered k h).
Proof.
  unfold recovered. simpl. rewrite hrun_app. generalize (hrun hist0 h).
  induction es as [|e es IH]; intros F; [done|]. simpl. by rewrite IH.
Qed.

(** A clean append of records. *)
Lemma dinv_append d h k os rs w' r :
  dinv d h k -> Forall rec_ok rs -> (forall seg, hvalid (hrun hist0 h) (pair seg <$> rs)) ->
  Append os (payload <$> rs) (d_wal d) = (w', r) ->
  wal_inv w' (enc h) /\ at_most w' (enc h) (payload <$> rs) /\ keeps k w' (enc h) /\
  (forall seg, r = Ret seg -> seg = w_seg w' /\ let h' := h ++ (pair seg <$> rs) in
     retained k h' /\ wal_inv w' (enc h') /\ wal_clean w' /\ holds w' (enc h') /\ keeps k w' (enc h')).
Proof.
  intros [Hret Hst Hw Hcl Hh Hk Hpos Hsn] Hok Hval Ha.
  destruct (clean_Append os (payload <$> rs) _ _ w' r Hw Hcl Hh) as (Hw1 & Hat & Hg & Hr); [|done|].
  { apply Forall_fmap. eapply Forall_impl; [exact Hok|]. apply payload_fits. }
  assert (keeps k w' (enc h)) as Hk1.
  { eapply keeps_grows; [done..|]. destruct (inv_cur _ _ Hw) as (f & -> & _). eauto. }
  split_and!; try done. intros seg Hs. destruct (Hr seg Hs) as (Hseg & Hcl' & Hh' & Hw').
  split; [done|]. cbv zeta. rewrite enc_app. split_and!; try done.
  - apply retained_snoc; [done| |subst seg; by apply inv_acked_enc|done]. subst seg. by eapply keeps_seg.
  - subst seg. by apply keeps_snoc.
Qed.

Lemma Append_step d h k o es d1 r :
  dinv d h k -> op_ok (DAppend es) -> disk_Append o es d = (d1, r) ->
  dmid d1 h k (match r with Fail ErrRange => [] | _ => REntry <$> es end) /\ d_files d1 = d_files d /\
  (r = Ret tt -> exists seg, (k <= seg)%N /\ dinv d1 (h ++ (pair seg <$> (REntry <$> es))) k).
Proof.
  intros Hd [Hok Hc] H. pose proof Hd as [Hret Hst Hw Hcl Hh Hk Hpos Hsn].
  pose proof (hwf_retained _ _ Hret) as Hwf.
  destruct es as [|e es].
  { injection H as <- <-. split_and!; [by apply dinv_dmid|done|]. intros _. exists k. split; [done|].
    simpl. by rewrite app_nil_r. }
  unfold disk_Append in H. destruct (_ || _) eqn:Ec.
  { injection H as <- <-. split_and!; [by apply dinv_dmid|done|done]. }
  bool_to_prop. destruct (Append _ _ (d_wal d)) as [w1 r1] eqn:Ea.
  assert (ds_base (hrun hist0 h).(h_ds) < e_Index e <= ds_lastLocked (hrun hist0 h).(h_ds) + 1)%N as He.
  { rewrite Hst in *. unfold ds_lastLocked in *. simpl in *. rewrite (hw_base _ Hwf) in *. lia. }
  pose proof (fun seg => hrun_entries (hrun hist0 h) seg e es Hwf Hc He Hok) as Hent. cbv zeta in Hent.
  change (entry_payload <$> e :: es) with (payload ∘ REntry <$> e :: es) in Ea. rewrite list_fmap_compose in Ea.
  destruct (dinv_append d h k (dc_append o) (REntry <$> e :: es) w1 r1 Hd) as (Hw1 & Hat & Hk1 & Hr);
    [by apply Forall_fmap|intros seg; apply Hent|done|].
  assert (forall s cs, dmid (mkDisk s w1 (d_files d) cs) h k (REntry <$> e :: es)) as Hmid.
  { intros s cs. constructor; try done; [apply Hent|]. intros j. simpl d_files. simpl d_wal.
    rewrite <-(fmap_take REntry), recovered_snapIdx_entries, <-Hst. done. }
  destruct r1 as [seg|err|].
  - destruct (Hr seg eq_refl) as (-> & Hret' & Hw' & Hcl' & Hh' & Hk'). rewrite Hst in H.
    rewrite slice_to_index in H by (unfold ds_lastLocked in *; simpl; lia). injection H as <- <-.
    split_and!; [apply Hmid|done|]. intros _. exists (w_seg w1). split; [by eapply keeps_seg|].
    constructor; try done.
    + cbn [with_store with_wal d_store]. unfold recovered. rewrite hrun_app. destruct (Hent (w_seg w1)) as [_ ->]. simpl. f_equal.
      apply filter_insert_seg. by eapply keeps_seg.
    + simpl. by rewrite Hst in Hsn.
  - injection H as <- <-. assert (err = ErrIO) as ->.
    { apply Append_fine in Ea as [_ [[= ->]|[? ?]]]; [done|done| |].
      - split_and!; [apply Hcl|rewrite (wc_append _ Hcl)|rewrite (wc_sync _ Hcl)]; apply list_elem_of_here.
      - apply Forall_fmap, Forall_fmap, Forall_forall. intros x _. simpl. lia. }
    split_and!; [apply Hmid|done|done].
  - injection H as <- <-. split_and!; [apply Hmid|done|done].
Qed.

(** ** Term and vote *)

Lemma SetState_step d h k o t v d1 r :
  dinv d h k -> op_ok (DSetState t v) -> disk_SetState o t v d = (d1, r) ->
  dmid d1 h k [RState t v] /\ d_files d1 = d_files d /\
  (r = Ret tt -> exists seg, dinv d1 (h ++ [(seg, RState t v)]) k).
Proof.
  intros Hd Hok H. pose proof Hd as [Hret Hst Hw Hcl Hh Hk Hpos Hsn]. unfold disk_SetState, writeState in H.
  destruct (Append _ _ (d_wal d)) as [w1 r1] eqn:Ea.
  destruct (dinv_append d h k (dc_append o) [RState t v] w1 r1 Hd) as (Hw1 & Hat & Hk1 & Hr);
    [by constructor|done|done|].
  assert (forall s cs, dmid (mkDisk s w1 (d_files d) cs) h k [RState t v]) as Hmid.
  { intros s cs. constructor; try done. intros [|j]; simpl d_files; simpl d_wal.
    - by rewrite app_nil_r, <-Hst.
    - unfold recovered. rewrite hrun_app, take_cons_S, take_nil. simpl. by rewrite Hst in Hsn. }
  destruct r1 as [seg|err|]; injection H as <- <-; split_and!; try done; try apply Hmid.
  intros _. destruct (Hr seg eq_refl) as (-> & Hret' & Hw' & Hcl' & Hh' & Hk'). exists (w_seg w1).
  constructor; try done. simpl. rewrite Hst.
  unfold recovered. by rewrite hrun_app.
Qed.

Lemma hview_state fs k h seg t v :
  mem_SetState t v (hview fs k h) = Ret (hview fs k (h ++ [(seg, RState t v)])).
Proof. unfold hview, recovered. by rewrite hrun_app. Qed.

(** ** Compaction *)

Lemma keep_fold cur idx (l : list (N * N)) :
  (forall g x, (g, x) ∈ l -> 0 < g)%N ->
  let kp := foldr (keep_step cur idx) 0%N l in
  (forall g x, (g, x) ∈ l -> (g < cur)%N -> (idx < x)%N -> kp <> 0%N /\ (kp <= g)%N) /\
  (kp = 0%N \/ (kp < cur)%N /\ exists x, (kp, x) ∈ l).
Proof.
  induction l as [|[g x] l IH]; intros Hpos; simpl.
  { split; [|by left]. by intros ? ? ?%not_elem_of_nil. }
  destruct IH as [IH1 IH2]; [intros; by eapply Hpos, list_elem_of_further|].
  specialize (Hpos g x (list_elem_of_here _ _)). set (kp := foldr _ _ l) in *.
  assert ((keep_step cur idx (g, x) kp = kp \/
      keep_step cur idx (g, x) kp = g /\ (g < cur)%N /\ (kp = 0%N \/ (g < kp)%N)) /\
    ((g < cur)%N -> (idx < x)%N -> keep_step cur idx (g, x) kp <> 0%N /\ (keep_step cur idx (g, x) kp <= g)%N))
    as [Hcase Hg].
  { unfold keep_step. simpl. destruct (N.leb_spec cur g), (N.ltb_spec idx x), (N.eqb_spec kp 0), (N.ltb_spec g kp);
      simpl; lia. }
  set (kp' := keep_step _ _ _ kp) in *. split.
  - intros g0 x0 [[= -> ->]|Hin]%elem_of_cons Hlt Hx; [by apply Hg|].
    destruct (IH1 g0 x0 Hin Hlt Hx). lia.
  - destruct Hcase as [-> |(-> & ? & _)].
    + destruct IH2 as [?|[? [y Hy]]]; [by left|]. right. split; [done|]. exists y. by apply list_elem_of_further.
    + right. split; [done|]. exists x. apply list_elem_of_here.
Qed.

(** The segment kept is the oldest with an entry behind the snapshot. *)
Lemma keep_from_spec cur idx (m : gmap N N) :
  (0 < cur)%N -> (forall g, is_Some (m !! g) -> 0 < g)%N ->
  let kp := keep_from cur idx m in
  (0 < kp <= cur)%N /\ (kp = cur \/ is_Some (m !! kp)) /\
  forall g x, m !! g = Some x -> (g < cur)%N -> (idx < x)%N -> (kp <= g)%N.
Proof.
  intros Hc Hpos. destruct (keep_fold cur idx (map_to_list m)) as [H1 H2].
  { intros g x Hin%elem_of_map_to_list. eauto. }
  cbv zeta in *. unfold keep_from. set (kp := foldr _ _ _) in *.
  destruct (N.eqb_spec kp 0) as [E|E].
  - split_and!; [lia|lia|by left|]. intros g x Hm Hlt Hx.
    destruct (H1 g x) as [? _]; [by apply elem_of_map_to_list|done..].
  - destruct H2 as [?|[Hlt [y Hy%elem_of_map_to_list]]]; [done|]. split_and!; [lia|lia|right; eauto|].
    intros g x Hm Hlt' Hx. by apply (H1 g x); [apply elem_of_map_to_list|..].
Qed.

Lemma compact_history k h seg i t :
  retained k h -> (ds_snapIdx (recovered k h) < i)%N ->
  let s := recovered k h in
  let rs := [RSnap i t; RState (ds_term s) (ds_vote s)] in
  recovered k (h ++ (pair seg <$> rs)) =
    mkDS (ds_term s) (ds_vote s) i (drop (N.to_nat (i - ds_base s)) (ds_entries s)) i t (ds_segMax s) /\
  (forall seg', rec_ok (RSnap i t) -> rec_ok (RState (ds_term s) (ds_vote s)) ->
     hvalid (hrun hist0 h) (pair seg' <$> rs)).
Proof.
  intros Hret Hi. pose proof (hw_base _ (hwf_retained _ _ Hret)) as Hb. cbv zeta. split.
  - unfold recovered. by rewrite hrun_app.
  - intros seg' H1 H2. simpl in *. split_and!; try done; try apply H1; try apply H2. lia.
Qed.

(** What a crash may leave of a compaction. *)
Lemma hview_compact fs fs' k k' h seg i t snap j :
  retained k h -> (ds_snapIdx (recovered k h) < i)%N ->
  snap_data fs' i = snap -> snap_data fs' (ds_snapIdx (recovered k h)) = snap_data fs (ds_snapIdx (recovered k h)) ->
  let s := recovered k h in
  op_survives (DCompact i t snap) (hview fs k h)
    (hview fs' k' (h ++ (pair seg <$> take j [RSnap i t; RState (ds_term s) (ds_vote s)]))).
Proof.
  intros Hret Hi Hd Hold s. pose proof (hw_base _ (hwf_retained _ _ Hret)) as Hb. simpl.
  destruct j as [|j]; [left; rewrite take_0; simpl; rewrite app_nil_r; unfold hview; simpl in *; by rewrite Hold|].
  right. assert (forall rs, rs = [] \/ rs = [RState (ds_term s) (ds_vote s)] ->
    mem_Compact i t snap (hview fs k h) = Ret (hview fs' k' (h ++ (pair seg <$> RSnap i t :: rs)))) as Hrs.
  { intros rs Hrs. unfold hview, mem_Compact, recovered, lastLocked. rewrite hrun_app. simpl in *.
    destruct (N.leb_spec i (ds_snapIdx (h_ds (hrun hist0 h)))); [lia|].
    assert ((if (i <=? ds_snapIdx (h_ds (hrun hist0 h)) + N.of_nat (length (ds_entries (h_ds (hrun hist0 h)))))%N
      then slice (ds_entries (h_ds (hrun hist0 h))) (N.to_nat (i - ds_snapIdx (h_ds (hrun hist0 h)))) (length (ds_entries (h_ds (hrun hist0 h))))
      else Ret []) = Ret (drop (N.to_nat (i - ds_base (h_ds (hrun hist0 h)))) (ds_entries (h_ds (hrun hist0 h))))) as ->.
    { rewrite Hb. destruct (N.leb_spec i (ds_snapIdx (h_ds (hrun hist0 h)) + N.of_nat (length (ds_entries (h_ds (hrun hist0 h)))))).
      - rewrite slice_ok by lia. by rewrite take_ge by (rewrite length_drop; lia).
      - by rewrite drop_ge by lia. }
    simpl. destruct Hrs as [-> | ->]; simpl; by rewrite Hd. }
  apply Hrs. destruct j as [|j]; [by left|right]. by destruct j.
Qed.

(** After the snapshot record is durable. *)
Lemma finish_step d h k o i t d1 r w fs rs :
  dinv d h k -> (ds_snapIdx (d_store d) < i)%N ->
  rs = [RSnap i t; RState (ds_term (d_store d)) (ds_vote (d_store d))] ->
  let h' := h ++ (pair (w_seg w) <$> rs) in
  retained k h' -> wal_inv w (enc h') -> wal_clean w -> holds w (enc h') -> keeps k w (enc h') ->
  (exists data, fs !! (i, false) = Some (data, true)) ->
  compact_finish o i t (mkDisk (d_store d) w fs (d_calls d)) = (d1, r) ->
  exists k', dmid d1 h' k' [] /\ (r = Ret tt -> dinv d1 h' k') /\
    d_files d1 !! (i, false) = fs !! (i, false).
Proof.
  intros Hd Hi Hrs h' Hret Hw Hcl Hh Hk Hfile H. pose proof Hd as [Hret0 Hst _ _ _ _ Hpos _].
  rewrite Hst in Hi, Hrs, H. destruct (compact_history k h (w_seg w) i t Hret0 Hi) as [Hrec _]. cbv zeta in Hrec.
  rewrite <-Hrs in Hrec. fold h' in Hrec.
  pose proof (hw_base _ (hwf_retained _ _ Hret0)) as Hb.
  unfold compact_finish in H. rewrite dropThrough_ok in H by (simpl in *; lia). cbv zeta in H.
  match type of H with deleteObsoleteSegments o ?x = _ => set (dd := x) in H end.
  assert (d_store dd = recovered k h') as Hds by (rewrite Hrec; unfold dd; by destruct (_ && _)).
  assert (d_wal dd = w) as Hdw by (unfold dd; by destruct (_ && _)).
  assert (d_files dd !! (i, false) = fs !! (i, false)) as Hdf.
  { unfold dd. destruct (_ && _); [|done]. apply lookup_delete_ne. intros [= E]. simpl in *. lia. }
  clearbody dd. clear Hrec.
  assert (ds_snapIdx (recovered k h') = i) as Hidx by (unfold recovered, h'; rewrite hrun_app, Hrs; done).
  assert (h_stags (hrun hist0 h') = h_tags (hrun hist0 h')) as Hsame by (unfold h'; rewrite hrun_app, Hrs; done).
  pose proof (keeps_seg _ _ _ Hw Hk) as Hkw. pose proof (hwf_retained _ _ Hret) as Hwf.
  unfold deleteObsoleteSegments in H. rewrite Hds, Hdw in H.
  set (kp := keep_from (w_seg w) (ds_snapIdx (recovered k h')) (ds_segMax (recovered k h'))) in H.
  destruct (keep_from_spec (w_seg w) (ds_snapIdx (recovered k h')) (ds_segMax (recovered k h')))
    as ([Hkp0 Hkp1] & Hkp2 & Hkp3); [lia| |fold kp in Hkp0, Hkp1, Hkp2, Hkp3].
  { intros g [x [_ Hx]%map_lookup_filter_Some]. simpl in Hx. lia. }
  assert (k <= kp)%N as Hkk.
  { destruct Hkp2 as [-> |[x [_ Hx]%map_lookup_filter_Some]]; [done|done]. }
  assert (forall k', (k <= k' <= kp)%N -> retained k' h') as Hretk.
  { intros k' Hk'. assert (Forall (fun g => (k' <= g)%N) (h_tags (hrun hist0 h'))) as Htags.
    { apply Forall_lookup. intros n g Hg. destruct (N.le_gt_cases (w_seg w) g); [lia|].
      destruct (hw_max _ Hwf n g Hg) as (x & Hx & Hle). etrans; [apply Hk'|].
      apply (Hkp3 g x); [|done|simpl in *; rewrite <-(hw_base _ Hwf); lia].
      apply map_lookup_filter_Some. split; [done|]. simpl.
      pose proof (rt_tags _ _ Hret) as Hta. rewrite Forall_lookup in Hta. by apply (Hta n). }
    constructor; try apply Hret; [split; [lia|apply Hret]|done|by rewrite Hsame|]. right. unfold h'. rewrite from_snoc by lia.
    rewrite fmap_app, !existsb_app, Hrs. simpl. by rewrite !orb_true_r. }
  assert (forall kd, (kd <= kp)%N -> keeps (N.max k kd) (DeleteBefore kd w) (enc h')) as Hkeep.
  { intros kd Hkd. constructor; [..|apply (kp_sorted _ _ _ Hk)].
    - intros s p Hin Hle. apply DeleteBefore_present. split; [lia|]. apply (kp_all _ _ _ Hk s p); [done|lia].
    - intros s [Hs Hp]%DeleteBefore_present. pose proof (kp_low _ _ _ Hk s Hp). lia. }
  assert (forall st kd fs', (kd <= kp)%N -> d_files fs' !! (i, false) = fs !! (i, false) ->
    dmid (mkDisk st (DeleteBefore kd w) (d_files fs') (d_calls fs')) h' (N.max k kd) []) as Hmid.
  { intros st kd fs' Hkd Hf. constructor; [apply Hretk; lia|done|apply DeleteBefore_inv; [done|lia]| |by apply Hkeep|lia|].
    - by apply holds_at_most, DeleteBefore_holds.
    - intros j _. rewrite take_nil, app_nil_r. exists (match fs !! (i, false) with Some (x, _) => x | None => [] end).
      destruct Hfile as [data Hdata]. change (ds_snapIdx (recovered (N.max k kd) h')) with (ds_snapIdx (recovered k h')).
      rewrite Hidx. simpl. by rewrite Hf, Hdata. }
  assert (forall st, (with_wal (DeleteBefore kp w) (with_store st dd), Ret tt) = (d1, r) ->
    st = recovered kp h' -> exists k', dmid d1 h' k' [] /\ (r = Ret tt -> dinv d1 h' k') /\
      d_files d1 !! (i, false) = fs !! (i, false)) as Hdone.
  { intros st [= <- <-] ->. exists (N.max k kp). split_and!; [by apply Hmid|intros _|done].
    replace (N.max k kp) with kp by lia. constructor; simpl; try done; [apply Hretk; lia|apply DeleteBefore_inv; [done|lia]| | | |].
    - by apply DeleteBefore_clean.
    - by apply DeleteBefore_holds.
    - pose proof (Hkeep kp) as Hke. replace (N.max k kp) with kp in Hke by lia. apply Hke. lia.
    - intros _. change (ds_snapIdx (h_ds (hrun hist0 h'))) with (ds_snapIdx (recovered k h')). rewrite Hidx, Hdf. done. }
  assert (mkDS (ds_term (recovered k h')) (ds_vote (recovered k h')) (ds_base (recovered k h')) (ds_entries (recovered k h'))
    (ds_snapIdx (recovered k h')) (ds_snapTerm (recovered k h'))
    (filter (fun kv => (kp <= kv.1)%N) (ds_segMax (recovered k h'))) = recovered kp h') as Heq.
  { unfold recovered. simpl. f_equal. rewrite map_filter_filter. apply map_filter_ext. intros g x _. simpl. lia. }
  rewrite Heq in H. destruct (dc_delete o) as [kd|]; [destruct (N.ltb_spec kd kp)|]; [|by eapply Hdone..].
  injection H as <- <-. exists (N.max k kd). split_and!; [apply Hmid; [lia|done]|done|done].
Qed.

Lemma hrun_state_ok F h :
  hvalid F h -> rec_ok (RState (ds_term (h_ds F)) (ds_vote (h_ds F))) ->
  rec_ok (RState (ds_term (h_ds (hrun F h))) (ds_vote (h_ds (hrun F h)))).
Proof.
  revert F. induction h as [|[g r] h IH]; intros F Hv Hok; [done|]. destruct Hv as [[_ Hr] Hv].
  apply IH; [done|]. by destruct r.
Qed.

(** The outcome of one operation, for a crash after it: the history it may
    have written, and what that means. *)
Definition op_outcome (op : diskOp) (d d1 : disk) (r : go unit) : Prop :=
  exists h1 k1 rs, dmid d1 h1 k1 rs /\
    (forall j, op_survives op (disk_view d)
       (hview (d_files d1) k1 (h1 ++ (pair (w_seg (d_wal d1)) <$> take j rs)))) /\
    (r = Ret tt -> rs = [] /\ dinv d1 h1 k1).

Lemma dinv_ok d h k : dinv d h k -> disk_ok d.
Proof.
  intros [Hret Hst Hw Hcl Hh Hk Hpos Hsn]. pose proof (hwf_retained _ _ Hret) as Hwf. constructor.
  - rewrite Hst. apply Hwf.
  - rewrite Hst. apply Hwf.
  - intros Hne. destruct (Hsn Hne) as [? ->]. eauto.
  - split_and!; [apply Hcl|rewrite (wc_append _ Hcl)|rewrite (wc_sync _ Hcl)]; apply list_elem_of_here.
Qed.

Lemma Compact_step d h k o i t snap d1 r :
  dinv d h k -> op_ok (DCompact i t snap) -> disk_Compact o i t snap d = (d1, r) ->
  op_outcome (DCompact i t snap) d d1 r.
Proof.
  intros Hd Hok H. pose proof Hd as [Hret Hst Hw Hcl Hh Hk Hpos Hsn].
  unfold disk_Compact in H. destruct (N.leb_spec i (ds_snapIdx (d_store d))) as [Hle|Hi].
  { injection H as <- <-. exists h, k, []. split_and!; [by apply dinv_dmid| |done].
    intros j. rewrite take_nil, app_nil_r. left. symmetry. by apply dinv_view. }
  set (rs := [RSnap i t; RState (ds_term (d_store d)) (ds_vote (d_store d))]).
  assert (forall w fs, at_most w (enc h) [] -> wal_inv w (enc h) -> keeps k w (enc h) ->
    fs !! (ds_snapIdx (recovered k h), false) = d_files d !! (ds_snapIdx (recovered k h), false) ->
    forall e, op_outcome (DCompact i t snap) d (mkDisk (d_store d) w fs (d_calls d)) (Fail e)) as Hnone.
  { intros w fs Hat Hw' Hk' Hfs e. exists h, k, []. split_and!; [constructor; try done|..|done].
    - intros j. rewrite take_nil, app_nil_r. intros Hne. rewrite Hst in Hsn. destruct (Hsn Hne) as [data Hdata].
      exists data. cbn [d_files]. by rewrite Hfs.
    - intros j. rewrite take_nil, app_nil_r, (dinv_view d h k Hd). left. unfold hview, snap_data. cbn [d_files].
      by rewrite Hfs. }
  assert (forall b x, <[(i, b) := x]> (d_files d) !! (ds_snapIdx (recovered k h), false) =
    d_files d !! (ds_snapIdx (recovered k h), false)) as Hne1.
  { intros b x. apply lookup_insert_ne. intros [= -> _]. rewrite Hst in Hi. simpl in *. lia. }
  assert (forall b x, <[(i, b) := x]> (delete (i, true) (d_files d)) !! (ds_snapIdx (recovered k h), false) =
    d_files d !! (ds_snapIdx (recovered k h), false)) as Hne2.
  { intros b x. rewrite lookup_insert_ne, lookup_delete_ne; [done|..]; intros [= E]; rewrite Hst in Hi; simpl in *; lia. }
  assert (at_most (d_wal d) (enc h) []) as Hat0 by (by apply holds_at_most).
  destruct (dc_file o) as [|[part|]|]; simpl in H; try (injection H as <- <-; by apply Hnone).
  destruct (Rotate _ _) as [w1 r1] eqn:Er.
  destruct (clean_Rotate _ _ _ _ _ Hw Hcl Hh Er) as (Hw1 & Hh1 & Hg1 & Hcl1).
  assert (keeps k w1 (enc h)) as Hk1.
  { eapply keeps_grows; [done..|]. destruct (inv_cur _ _ Hw) as (f & -> & _). eauto. }
  destruct (Rotate_fine _ _ _ _ Er) as [_ [-> |[seg1 ->]]]; [apply (dinv_ok _ _ _ Hd)|..].
  { injection H as <- <-. apply Hnone; [by apply holds_at_most|done|done|apply Hne2]. }
  set (fs := <[(i, false) := (snap, true)]> (delete (i, true) (d_files d))) in *.
  assert (dinv (mkDisk (d_store d) w1 fs (d_calls d)) h k) as Hd1.
  { constructor; try done; [by eapply Hcl1|]. simpl. intros Hne. destruct (Hsn Hne) as [data Hdata].
    exists data. unfold fs. rewrite Hst in *. by rewrite Hne2. }
  destruct (compact_history k h 0 i t Hret) as [_ Hval]; [by rewrite <-Hst|]. cbv zeta in Hval.
  rewrite <-Hst in Hval.
  assert (rec_ok (RState (ds_term (d_store d)) (ds_vote (d_store d)))) as Hsok.
  { rewrite Hst. apply (hrun_state_ok hist0 h); [apply Hret|done]. }
  destruct (Append _ _ w1) as [w2 r2] eqn:Ea. change [snapshot_payload i t; _] with (payload <$> rs) in Ea.
  destruct (dinv_append _ h k (dc_append o) rs w2 r2 Hd1) as (Hw2 & Hat2 & Hk2 & Hr2);
    [by constructor; [|constructor; [|constructor]]|intros seg; by apply Hval|done|].
  assert (snap_data fs i = snap) as Hsd.
  { unfold snap_data, fs. destruct (N.eqb_spec i 0); [lia|]. by rewrite lookup_insert_eq. }
  assert (snap_data fs (ds_snapIdx (recovered k h)) = snap_data (d_files d) (ds_snapIdx (recovered k h))) as Hsold.
  { unfold snap_data, fs. by rewrite Hne2. }
  destruct r2 as [seg|e|].
  - destruct (Hr2 seg eq_refl) as (-> & Hret' & Hw' & Hcl' & Hh' & Hk').
    destruct (finish_step d h k o i t d1 r w2 fs rs Hd Hi eq_refl Hret' Hw' Hcl' Hh' Hk') as (k' & Hmid & Hinv & Hf);
      [exists snap; apply lookup_insert_eq|exact H|].
    exists (h ++ (pair (w_seg w2) <$> rs)), k', []. split_and!; [done| |by intros; split; [|apply Hinv]].
    intros j. rewrite take_nil, app_nil_r, (dinv_view d h k Hd).
    pose proof (hview_compact (d_files d) fs k k' h (w_seg w2) i t snap 2 Hret) as Hv. cbv zeta in Hv.
    rewrite <-Hst in Hv. specialize (Hv Hi Hsd). rewrite Hst in Hv. specialize (Hv Hsold). rewrite <-Hst in Hv.
    change (take 2 _) with rs in Hv. destruct Hv as [Hv|Hv].
    + exfalso. apply (f_equal ms_snapIdx) in Hv. unfold hview, recovered in Hv. rewrite hrun_app in Hv. simpl in Hv.
      rewrite Hst in Hi. simpl in Hi. lia.
    + right. rewrite Hv. f_equal. unfold hview. f_equal. unfold recovered, snap_data. rewrite hrun_app. simpl. by rewrite Hf.
  - injection H as <- <-. exists h, k, rs. split_and!; [|intros j|done].
    + constructor; try done; [by apply Hval|]. intros [|j].
      * rewrite take_0, fmap_nil, app_nil_r. cbn [d_files with_wal with_files]. intros Hne. rewrite <-Hst in Hne. destruct (Hsn Hne) as [data Hdata].
        exists data. unfold fs. rewrite Hst in Hdata. by rewrite Hne2.
      * intros _. exists snap. simpl d_files. replace (ds_snapIdx _) with i; [apply lookup_insert_eq|].
        unfold recovered. rewrite hrun_app. by destruct j as [|[|j]].
    + rewrite (dinv_view d h k Hd). simpl d_files. simpl d_wal. unfold rs. rewrite Hst. apply hview_compact; try done.
      by rewrite <-Hst.
  - apply Append_fine in Ea as [_ [?|[? ?]]]; [done|done|apply (dinv_ok _ _ _ Hd1)|]. by repeat constructor.
Qed.

Lemma op_step d h k o op d1 r :
  dinv d h k -> op_ok op -> disk_op o op d = (d1, r) -> op_outcome op d d1 r.
Proof.
  intros Hd Hok H. pose proof (di_ret _ _ _ Hd) as Hret. destruct op as [es|t v|i t snap]; simpl in H.
  - destruct (Append_step _ _ _ _ _ _ _ Hd Hok H) as (Hmid & Hf & Hret').
    pose proof Hok as [Hes Hcon]. unfold op_outcome. rewrite (dinv_view d h k Hd). destruct r as [[]|e|].
    + destruct (Hret' eq_refl) as (seg & Hseg & Hd1).
      exists (h ++ (pair seg <$> (REntry <$> es))), k, []. split_and!; [by apply dinv_dmid| |done].
      intros j. rewrite take_nil, app_nil_r. exists (length (REntry <$> es)).
      rewrite Hf. rewrite <-(take_ge (REntry <$> es) (length (REntry <$> es))) at 2 by done.
      apply hview_append; try done. intros e He.
      pose proof (dm_valid _ _ _ _ Hmid) as Hv. destruct es; [done|]. injection He as ->. apply Hv.
    + exists h, k. eexists. split_and!; [exact Hmid| |done]. intros j. rewrite Hf.
      destruct (decide (e = ErrRange)) as [->|Hne].
      * rewrite take_nil, app_nil_r. by exists 0.
      * assert (exists rs, rs = REntry <$> es /\ dmid d1 h k rs /\
          (match e with ErrRange => [] | _ => REntry <$> es end) = rs) as (rs & -> & Hmid' & ->).
        { exists (REntry <$> es). by destruct e. }
        exists j. apply hview_append; try done; [by eapply keeps_seg; apply Hmid'|].
        intros x Hx. pose proof (dm_valid _ _ _ _ Hmid') as Hv. destruct es; [done|]. injection Hx as ->. apply Hv.
    + exists h, k, (REntry <$> es). split_and!; [exact Hmid| |done]. intros j. rewrite Hf. exists j.
      apply hview_append; try done; [by eapply keeps_seg; apply Hmid|].
      intros x Hx. pose proof (dm_valid _ _ _ _ Hmid) as Hv. destruct es; [done|]. injection Hx as ->. apply Hv.
  - destruct (SetState_step _ _ _ _ _ _ _ _ Hd Hok H) as (Hmid & Hf & Hret').
    unfold op_outcome. rewrite (dinv_view d h k Hd).
    assert (forall j, op_survives (DSetState t v) (hview (d_files d) k h)
      (hview (d_files d1) k (h ++ (pair (w_seg (d_wal d1)) <$> take j [RState t v])))) as Hv.
    { intros [|j]; rewrite Hf; [left; by rewrite app_nil_r|right]. rewrite take_cons_S, take_nil. apply hview_state. }
    destruct r as [[]|e|]; [|by exists h, k, [RState t v]..].
    destruct (Hret' eq_refl) as (seg & Hd1). exists (h ++ [(seg, RState t v)]), k, []. split_and!; [by apply dinv_dmid| |done].
    intros j. rewrite take_nil, app_nil_r, Hf. right. apply hview_state.
  - by eapply Compact_step.
Qed.

Lemma fresh_dinv calls d : OpenDiskStore OpenOk true ∅ ∅ calls = Ret d -> dinv d [] 1.
Proof.
  assert (OpenWAL disk_opts OpenOk replay ∅ ds_empty =
    Ret (mkWAL disk_opts {[1%N := mkFile [] 0]} 1 true 0 false false None None, ds_empty)) as Ho by reflexivity.
  assert (removeStaleSnapshots true 0 ∅ = Ret ∅) as Hr by reflexivity.
  unfold OpenDiskStore. rewrite Ho. cbn [mbind go_bind ds_base ds_snapIdx ds_empty N.eqb negb]. rewrite Hr.
  cbn [mbind go_bind]. intros [= <-].
  assert (retained 1 []) as Hret by (constructor; try (by constructor); by left).
  constructor; try done; simpl.
  - constructor; simpl; try done.
    + exists (mkFile [] 0). split; [done|]. exists [], [], 0. simpl. split_and!; auto using tail_ok_nil; done.
    + intros s f. rewrite lookup_singleton_Some. intros [<- _]. lia.
    + intros s f. rewrite lookup_singleton_Some. intros [<- _]. lia.
    + intros s p Hin. by apply not_elem_of_nil in Hin.
  - intros s f. simpl. rewrite lookup_singleton_Some. by intros [<- <-].
  - constructor; [|..|constructor].
    + intros s p Hin. by apply not_elem_of_nil in Hin.
    + intros s [f Hf]. simpl in Hf. rewrite lookup_singleton_Some in Hf. destruct Hf as [<- _]. lia.
  - by intros ?.
Qed.

Lemma disk_reach_inv d : disk_reach d -> exists h k, dinv d h k.
Proof.
  induction 1 as [calls d Ho|d o op d' _ (h & k & IH) Hok Hop|d o op d1 r dir fs calls d2 _ (h & k & IH) Hok Hop Hcr Hfs Ho].
  - exists [], 1%N. by eapply fresh_dinv.
  - destruct (op_step _ _ _ _ _ _ _ IH Hok Hop) as (h1 & k1 & rs & _ & _ & Hd). destruct (Hd eq_refl). eauto.
  - destruct (op_step _ _ _ _ _ _ _ IH Hok Hop) as (h1 & k1 & rs & Hmid & _).
    destruct (reopen_disk _ _ _ _ _ _ calls Hmid Hcr Hfs) as (j & _ & Hj). cbv zeta in Hj.
    destruct (no_reach_back _); [|by destruct (Hj d2)].
    destruct Hj as (d3 & Ho3 & Hd3 & _). rewrite Ho in Ho3. injection Ho3 as <-. eauto.
Qed.

(** While no segment has been deleted nothing reaches back. *)
Lemma first_segment_kept d h k rs dir :
  dmid d h k rs -> crash (w_dir (d_wal d)) dir -> is_Some (dir !! 1%N) -> no_reach_back (disk_log dir) = true.
Proof.
  intros [Hret Hval Hw Hat Hk Hpos Hsn] Hcr H1.
  destruct (reopen disk_opts _ _ _ _ k eq_refl Hw Hat Hk Hcr) as (j & Hj & Hlog & _). cbv zeta in Hlog.
  rewrite <-(fmap_take payload), <-enc_app, from_enc in Hlog.
  assert (retained k (h ++ (pair (w_seg (d_wal d)) <$> take j rs))) as Hret'.
  { apply retained_snoc; [done|by eapply keeps_seg|by apply inv_acked_enc|].
    rewrite <-(take_drop j rs), fmap_app in Hval. by apply hvalid_app in Hval as [? _]. }
  pose proof (hvalid_ok _ _ (rt_valid _ _ Hret')) as Hok. set (h' := h ++ _) in *.
  rewrite (disk_log_enc dir _ (from_ok k _ Hok) Hlog).
  assert (from k h' = h') as ->.
  { assert (k <= 1)%N by (apply (kp_low _ _ _ Hk), (crash_lookup _ _ _ Hcr), H1).
    destruct (rt_pos _ _ Hret') as [_ Hp]. clear -Hp H. unfold from. induction Hp as [|r l Hr _ IH]; [done|].
    rewrite filter_cons_True by lia. by f_equal. }
  by apply (valid_no_reach_back hist0), Hret'.
Qed.

(** ** What the store promises *)

(** C7: After any sequence of operations, power losses and reopens, a power
    loss during or after one more operation leaves files from which
    [OpenDiskStore] restores exactly what the [LogStore] interface promises:
    the result of the operation if it had returned, and otherwise the old
    state, some first entries of the append, or the new state.  The
    condition is that no segment has been deleted, or that no record in the
    segments left reaches back below their first entry. *)
Theorem disk_recovers d o op d1 r dir fs calls :
  disk_reach d -> op_ok op -> disk_op o op d = (d1, r) ->
  crash (w_dir (d_wal d1)) dir -> crash_files (d_files d1) fs ->
  is_Some (dir !! 1%N) \/ no_reach_back (disk_log dir) = true ->
  exists d2, OpenDiskStore OpenOk true dir fs calls = Ret d2 /\ disk_ok d2 /\
    op_survives op (disk_view d) (disk_view d2) /\
    (r = Ret tt -> op_spec op (disk_view d) = Ret (disk_view d2)).
Proof.
  intros Hr Hok Hop Hcr Hfs Hnb. destruct (disk_reach_inv d Hr) as (h & k & Hd).
  destruct (op_step _ _ _ _ _ _ _ Hd Hok Hop) as (h1 & k1 & rs & Hmid & Hsv & Hret).
  destruct (reopen_disk _ _ _ _ _ _ calls Hmid Hcr Hfs) as (j & _ & Hj). cbv zeta in Hj.
  assert (no_reach_back (disk_log dir) = true) as Htrue.
  { destruct Hnb as [H1|]; [by eapply first_segment_kept|done]. }
  rewrite Htrue in Hj. destruct Hj as (d2 & Ho & Hd2 & Hv). exists d2.
  split_and!; [done|by eapply dinv_ok|rewrite Hv; apply Hsv|].
  intros Hrr. destruct (Hret Hrr) as [-> Hd1]. rewrite Hv, take_nil, app_nil_r.
  pose proof (dinv_ok _ _ _ Hd) as Hdo. rewrite <-(dinv_view d1 h1 k1 Hd1). subst r.
  destruct op; simpl in Hop |- *;
    [pose proof (disk_Append_ok _ _ _ _ _ Hdo Hop) as [_ ?]|pose proof (disk_SetState_ok _ _ _ _ _ _ Hdo Hop) as [_ ?]
    |pose proof (disk_Compact_ok _ _ _ _ _ _ _ Hdo Hop) as [_ ?]]; done.
Qed.

Definition e_ (i t : N) : Entry := mkEntry i t EntryNormal [].

(** The operations of [ops], every system call succeeding. *)
Fixpoint disk_run (ops : list diskOp) (d : disk) : go disk :=
  match ops with
  | [] => Ret d
  | op :: ops =>
      match disk_op dc_good op d with
      | (d, Ret _) => disk_run ops d
      | (_, Fail e) => Fail e
      | (_, Panic) => Panic
      end
  end.

Definition fresh_disk : disk :=
  mkDisk ds_empty (mkWAL disk_opts {[1%N := mkFile [] 0]} 1 true 0 false false None None) ∅ [].

Lemma fresh_disk_reach : disk_reach fresh_disk.
Proof. apply (disk_fresh []). vm_compute. reflexivity. Qed.

Lemma disk_run_reach ops d d' :
  disk_reach d -> Forall op_ok ops -> disk_run ops d = Ret d' -> disk_reach d'.
Proof.
  intros Hd Hok. revert d Hd. induction Hok as [|op ops Hop _ IH]; intros d Hd; simpl.
  { by intros [= <-]. }
  destruct (disk_op dc_good op d) as [d1 [[]|e|]] eqn:E; [|done..]. apply IH. by eapply disk_did.
Qed.

(** What a clean shutdown, or a crash that loses nothing, leaves. *)
Definition settled (dir : gmap N file) : gmap N file :=
  (fun f => mkFile (f_data f) (length (f_data f))) <$> dir.

(** Entries 1 to 3, a snapshot of the first, one more entry, and then an
    append that stops in the middle of a record. *)
Definition ex_calls : dsCalls := mkDsCalls FileOk os_good (mkOs true true OpenOk (Some 31) true) true None true.
Definition ex_before : list diskOp :=
  [DSetState 1 2; DAppend [e_ 1 1; e_ 2 1; e_ 3 1]; DCompact 1 1 [x07]; DAppend [e_ 4 1]].
Definition ex_disk : disk := match disk_run ex_before fresh_disk with Ret d => d | _ => fresh_disk end.
Definition ex_torn : disk := (disk_op ex_calls (DAppend [e_ 4 2; e_ 5 2]) ex_disk).1.

(** Checking [op_ok] by evaluation. *)
Definition op_okb (op : diskOp) : bool :=
  match op with
  | DAppend es =>
      forallb (fun e => (e_Index e <? w64)%N && (e_Term e <? w64)%N && (18 + N.of_nat (length (e_Data e)) <? w32)%N) es &&
      forallb (fun ie => (e_Index ie.2 =? e_Index (default ie.2 (head es)) + N.of_nat ie.1)%N) (imap pair es)
  | DSetState t v => (t <? w64)%N && (v <? w64)%N
  | DCompact i t _ => (i <? w64)%N && (t <? w64)%N
  end.

Lemma op_okb_ok op : op_okb op = true -> op_ok op.
Proof.
  destruct op as [es|t v|i t snap]; simpl; [|intros; bool_to_prop; done..].
  intros [H1 H2]%andb_true_iff. rewrite forallb_forall in H1, H2. split.
  - apply Forall_forall. intros e He%list_elem_of_In. specialize (H1 e He). bool_to_prop. done.
  - intros i e e' H0 Hi. assert ((i, e') ∈ imap pair es) as Hin%list_elem_of_In.
    { apply (list_elem_of_lookup_2 _ i). by rewrite list_lookup_imap, Hi. }
    specialize (H2 _ Hin). simpl in H2. apply N.eqb_eq in H2. rewrite H2. destruct es; [done|]. by injection H0 as ->.
Qed.

Lemma ops_okb_ok ops : forallb op_okb ops = true -> Forall op_ok ops.
Proof.
  intros H. rewrite forallb_forall in H. apply Forall_forall. intros op Hin%list_elem_of_In. by apply op_okb_ok, H.
Qed.

Lemma disk_recovers_witness :
  exists d2, OpenDiskStore OpenOk true (settled (w_dir (d_wal ex_torn))) (d_files ex_torn) [] = Ret d2 /\
    disk_ok d2 /\ op_survives (DAppend [e_ 4 2; e_ 5 2]) (disk_view ex_disk) (disk_view d2) /\
    ((disk_op ex_calls (DAppend [e_ 4 2; e_ 5 2]) ex_disk).2 = Ret tt ->
     op_spec (DAppend [e_ 4 2; e_ 5 2]) (disk_view ex_disk) = Ret (disk_view d2)).
Proof.
  apply (disk_recovers ex_disk ex_calls (DAppend [e_ 4 2; e_ 5 2]) ex_torn).
  - apply (disk_run_reach ex_before fresh_disk); [apply fresh_disk_reach| |vm_compute; reflexivity].
    apply ops_okb_ok. vm_compute. reflexivity.
  - apply op_okb_ok. vm_compute. reflexivity.
  - vm_compute. reflexivity.
  - apply crash_refl. apply map_Forall_lookup. apply (bool_decide_eq_true_1 _). vm_compute. reflexivity.
  - intros i data H. exact H.
  - left. vm_compute. eexists. reflexivity.
Defined.

(** C18: The condition of [OpenDiskStore] is exact: after any run and power
    loss it succeeds if and only if no record in the segments left reaches
    back below their first entry.  It fails otherwise however often it is
    tried, because it changes nothing that it replays. *)
Theorem disk_opens_iff d o op d1 r dir fs calls :
  disk_reach d -> op_ok op -> disk_op o op d = (d1, r) ->
  crash (w_dir (d_wal d1)) dir -> crash_files (d_files d1) fs ->
  (exists d2, OpenDiskStore OpenOk true dir fs calls = Ret d2) <-> no_reach_back (disk_log dir) = true.
Proof.
  intros Hr Hok Hop Hcr Hfs. destruct (disk_reach_inv d Hr) as (h & k & Hd).
  destruct (op_step _ _ _ _ _ _ _ Hd Hok Hop) as (h1 & k1 & rs & Hmid & _).
  destruct (reopen_disk _ _ _ _ _ _ calls Hmid Hcr Hfs) as (j & _ & Hj). cbv zeta in Hj.
  destruct (no_reach_back (disk_log dir)).
  - destruct Hj as (d2 & Ho & _). split; [done|eauto].
  - split; [|done]. intros [d2 Ho]. by destruct (Hj d2).
Qed.

(** Two compactions while the first segment still has entries behind the
    snapshot, and a third that deletes it. *)
Definition ex_compactions : list diskOp :=
  [DAppend [e_ 1 1; e_ 2 1; e_ 3 1]; DCompact 1 1 []; DAppend [e_ 4 1]; DCompact 2 1 []; DCompact 3 1 []].
(** Entries behind a snapshot that a new leader overwrites, and a second
    snapshot. *)
Definition ex_overwrite : list diskOp :=
  [DAppend [e_ 1 1; e_ 2 1; e_ 3 1]; DCompact 1 1 []; DAppend [e_ 4 1];
   DAppend [e_ 2 2; e_ 3 2; e_ 4 2]; DCompact 3 2 []].
Definition after_run (ops : list diskOp) : disk := match disk_run ops fresh_disk with Ret d => d | _ => fresh_disk end.

Lemma disk_opens_iff_witness :
  no_reach_back (disk_log (settled (w_dir (d_wal (after_run ex_compactions))))) = false /\
  ((exists d2, OpenDiskStore OpenOk true (settled (w_dir (d_wal (after_run ex_compactions))))
      (d_files (after_run ex_compactions)) [] = Ret d2) <->
   no_reach_back (disk_log (settled (w_dir (d_wal (after_run ex_compactions))))) = true).
Proof.
  split; [vm_compute; reflexivity|].
  apply (disk_opens_iff (after_run ex_compactions) dc_good (DAppend []) (after_run ex_compactions) (Ret tt)).
  - apply (disk_run_reach ex_compactions fresh_disk); [apply fresh_disk_reach| |vm_compute; reflexivity].
    apply ops_okb_ok. vm_compute. reflexivity.
  - apply op_okb_ok. vm_compute. reflexivity.
  - reflexivity.
  - apply crash_refl. apply map_Forall_lookup. apply (bool_decide_eq_true_1 _). vm_compute. reflexivity.
  - intros i data H. exact H.
Defined.

(** C21: Compaction can leave a log that no longer opens, without any failed
    system call and without a crash.  After entries 1 to 3, a snapshot at 1,
    entry 4 and snapshots at 2 and 3, reopening reports a snapshot below the
    start of the log.  After entries 1 to 3, a snapshot at 1, entry 4,
    entries 2 to 4 overwritten and a snapshot at 3, it panics. *)
Theorem compaction_can_lock_out :
  (disk_run ex_compactions fresh_disk = Ret (after_run ex_compactions) /\
   disk_reach (after_run ex_compactions) /\
   OpenDiskStore OpenOk true (settled (w_dir (d_wal (after_run ex_compactions))))
     (d_files (after_run ex_compactions)) [] = Fail ErrSnapshotBelow) /\
  (disk_run ex_overwrite fresh_disk = Ret (after_run ex_overwrite) /\
   disk_reach (after_run ex_overwrite) /\
   OpenDiskStore OpenOk true (settled (w_dir (d_wal (after_run ex_overwrite))))
     (d_files (after_run ex_overwrite)) [] = Panic).
Proof.
  assert (forall ops, forallb op_okb ops = true -> disk_run ops fresh_disk = Ret (after_run ops) ->
    disk_reach (after_run ops)) as Hr.
  { intros ops Hok Hrun. eapply disk_run_reach; [apply fresh_disk_reach|by apply ops_okb_ok|exact Hrun]. }
  split_and!; try (vm_compute; reflexivity); apply Hr; vm_compute; reflexivity.
Qed.
