(* ===== verification/Raft.v ===== *)
(** * The Raft state machine (raft/raft.go, raft/snapshot.go)

    [Raft] consumes one message, tick or proposal at a time.  Every effect
    leaves through the store and the transport: the model keeps both, and
    records the order of the effects of one call in [r_trace], because a
    crash may fall between any two of them.  A store error panics.

    A nil map is [None]: reading it gives the zero value, writing it
    panics.  The random generator is the list of its future draws. *)

From stdpp Require Import base list gmap sorting.
From S2P Require Import Prelude LogStore.

Inductive State := Follower | Candidate | Leader.

#[global] Instance State_eq_dec : EqDecision State.
Proof. solve_decision. Defined.

Record readRound := mkRound { rd_index : N; rd_acks : gset NodeID }.
Record ReadReady := mkReady { rr_ID : N; rr_Index : N }.
Record snapTransfer := mkTransfer {
  x_index : N;
  x_term : N;
  x_data : bytes;
  x_offset : N;
}.

Record Config := mkConfig {
  c_ID : NodeID;
  c_Peers : list NodeID;
  c_ElectionTick : nat;
  c_HeartbeatTick : nat;
  c_MaxBatch : nat;
  c_MaxBatchBytes : N;
  c_SnapshotChunk : N;
}.

(** The effects of a call, in order. *)
Inductive effect :=
  | ESend (m : Message)
  | EState (term : N) (vote : NodeID)
  | EAppend (es : list Entry)
  | ECompact (index term : N) (snap : bytes).

Section Raft.
Context {S : Type} `{LogStore S}.

Record Raft := mkRaft {
  r_cfg : Config;
  r_store : S;
  r_rng : list nat;
  r_term : N;
  r_vote : NodeID;
  r_state : State;
  r_lead : NodeID;
  r_commit : N;
  r_votes : option (gmap NodeID bool);
  r_next : option (gmap NodeID N);
  r_match : option (gmap NodeID N);
  r_elapsed : nat;
  r_timeout : nat;
  r_reads : option (gmap N readRound);
  r_nextReadID : N;
  r_ready : list ReadReady;
  r_snapOut : option (gmap NodeID snapTransfer);
  r_snapIn : option snapTransfer;
  r_restored : option snapTransfer;
  r_trace : list effect;
}.

Definition set_store (x : S) (r : Raft) : Raft :=
  mkRaft (r_cfg r) x (r_rng r) (r_term r) (r_vote r) (r_state r) (r_lead r) (r_commit r)
    (r_votes r) (r_next r) (r_match r) (r_elapsed r) (r_timeout r) (r_reads r) (r_nextReadID r)
    (r_ready r) (r_snapOut r) (r_snapIn r) (r_restored r) (r_trace r).
Definition set_rng (x : list nat) (r : Raft) : Raft :=
  mkRaft (r_cfg r) (r_store r) x (r_term r) (r_vote r) (r_state r) (r_lead r) (r_commit r)
    (r_votes r) (r_next r) (r_match r) (r_elapsed r) (r_timeout r) (r_reads r) (r_nextReadID r)
    (r_ready r) (r_snapOut r) (r_snapIn r) (r_restored r) (r_trace r).
Definition set_term (x : N) (r : Raft) : Raft :=
  mkRaft (r_cfg r) (r_store r) (r_rng r) x (r_vote r) (r_state r) (r_lead r) (r_commit r)
    (r_votes r) (r_next r) (r_match r) (r_elapsed r) (r_timeout r) (r_reads r) (r_nextReadID r)
    (r_ready r) (r_snapOut r) (r_snapIn r) (r_restored r) (r_trace r).
Definition set_vote (x : NodeID) (r : Raft) : Raft :=
  mkRaft (r_cfg r) (r_store r) (r_rng r) (r_term r) x (r_state r) (r_lead r) (r_commit r)
    (r_votes r) (r_next r) (r_match r) (r_elapsed r) (r_timeout r) (r_reads r) (r_nextReadID r)
    (r_ready r) (r_snapOut r) (r_snapIn r) (r_restored r) (r_trace r).
Definition set_state (x : State) (r : Raft) : Raft :=
  mkRaft (r_cfg r) (r_store r) (r_rng r) (r_term r) (r_vote r) x (r_lead r) (r_commit r)
    (r_votes r) (r_next r) (r_match r) (r_elapsed r) (r_timeout r) (r_reads r) (r_nextReadID r)
    (r_ready r) (r_snapOut r) (r_snapIn r) (r_restored r) (r_trace r).
Definition set_lead (x : NodeID) (r : Raft) : Raft :=
  mkRaft (r_cfg r) (r_store r) (r_rng r) (r_term r) (r_vote r) (r_state r) x (r_commit r)
    (r_votes r) (r_next r) (r_match r) (r_elapsed r) (r_timeout r) (r_reads r) (r_nextReadID r)
    (r_ready r) (r_snapOut r) (r_snapIn r) (r_restored r) (r_trace r).
Definition set_commit (x : N) (r : Raft) : Raft :=
  mkRaft (r_cfg r) (r_store r) (r_rng r) (r_term r) (r_vote r) (r_state r) (r_lead r) x (r_votes
    r) (r_next r) (r_match r) (r_elapsed r) (r_timeout r) (r_reads r) (r_nextReadID r) (r_ready
    r) (r_snapOut r) (r_snapIn r) (r_restored r) (r_trace r).
Definition set_votes (x : option (gmap NodeID bool)) (r : Raft) : Raft :=
  mkRaft (r_cfg r) (r_store r) (r_rng r) (r_term r) (r_vote r) (r_state r) (r_lead r) (r_commit
    r) x (r_next r) (r_match r) (r_elapsed r) (r_timeout r) (r_reads r) (r_nextReadID r)
    (r_ready r) (r_snapOut r) (r_snapIn r) (r_restored r) (r_trace r).
Definition set_next (x : option (gmap NodeID N)) (r : Raft) : Raft :=
  mkRaft (r_cfg r) (r_store r) (r_rng r) (r_term r) (r_vote r) (r_state r) (r_lead r) (r_commit
    r) (r_votes r) x (r_match r) (r_elapsed r) (r_timeout r) (r_reads r) (r_nextReadID r)
    (r_ready r) (r_snapOut r) (r_snapIn r) (r_restored r) (r_trace r).
Definition set_match (x : option (gmap NodeID N)) (r : Raft) : Raft :=
  mkRaft (r_cfg r) (r_store r) (r_rng r) (r_term r) (r_vote r) (r_state r) (r_lead r) (r_commit
    r) (r_votes r) (r_next r) x (r_elapsed r) (r_timeout r) (r_reads r) (r_nextReadID r)
    (r_ready r) (r_snapOut r) (r_snapIn r) (r_restored r) (r_trace r).
Definition set_elapsed (x : nat) (r : Raft) : Raft :=
  mkRaft (r_cfg r) (r_store r) (r_rng r) (r_term r) (r_vote r) (r_state r) (r_lead r) (r_commit
    r) (r_votes r) (r_next r) (r_match r) x (r_timeout r) (r_reads r) (r_nextReadID r) (r_ready
    r) (r_snapOut r) (r_snapIn r) (r_restored r) (r_trace r).
Definition set_timeout (x : nat) (r : Raft) : Raft :=
  mkRaft (r_cfg r) (r_store r) (r_rng r) (r_term r) (r_vote r) (r_state r) (r_lead r) (r_commit
    r) (r_votes r) (r_next r) (r_match r) (r_elapsed r) x (r_reads r) (r_nextReadID r) (r_ready
    r) (r_snapOut r) (r_snapIn r) (r_restored r) (r_trace r).
Definition set_reads (x : option (gmap N readRound)) (r : Raft) : Raft :=
  mkRaft (r_cfg r) (r_store r) (r_rng r) (r_term r) (r_vote r) (r_state r) (r_lead r) (r_commit
    r) (r_votes r) (r_next r) (r_match r) (r_elapsed r) (r_timeout r) x (r_nextReadID r)
    (r_ready r) (r_snapOut r) (r_snapIn r) (r_restored r) (r_trace r).
Definition set_nextReadID (x : N) (r : Raft) : Raft :=
  mkRaft (r_cfg r) (r_store r) (r_rng r) (r_term r) (r_vote r) (r_state r) (r_lead r) (r_commit
    r) (r_votes r) (r_next r) (r_match r) (r_elapsed r) (r_timeout r) (r_reads r) x (r_ready r)
    (r_snapOut r) (r_snapIn r) (r_restored r) (r_trace r).
Definition set_ready (x : list ReadReady) (r : Raft) : Raft :=
  mkRaft (r_cfg r) (r_store r) (r_rng r) (r_term r) (r_vote r) (r_state r) (r_lead r) (r_commit
    r) (r_votes r) (r_next r) (r_match r) (r_elapsed r) (r_timeout r) (r_reads r) (r_nextReadID
    r) x (r_snapOut r) (r_snapIn r) (r_restored r) (r_trace r).
Definition set_snapOut (x : option (gmap NodeID snapTransfer)) (r : Raft) : Raft :=
  mkRaft (r_cfg r) (r_store r) (r_rng r) (r_term r) (r_vote r) (r_state r) (r_lead r) (r_commit
    r) (r_votes r) (r_next r) (r_match r) (r_elapsed r) (r_timeout r) (r_reads r) (r_nextReadID
    r) (r_ready r) x (r_snapIn r) (r_restored r) (r_trace r).
Definition set_snapIn (x : option snapTransfer) (r : Raft) : Raft :=
  mkRaft (r_cfg r) (r_store r) (r_rng r) (r_term r) (r_vote r) (r_state r) (r_lead r) (r_commit
    r) (r_votes r) (r_next r) (r_match r) (r_elapsed r) (r_timeout r) (r_reads r) (r_nextReadID
    r) (r_ready r) (r_snapOut r) x (r_restored r) (r_trace r).
Definition set_restored (x : option snapTransfer) (r : Raft) : Raft :=
  mkRaft (r_cfg r) (r_store r) (r_rng r) (r_term r) (r_vote r) (r_state r) (r_lead r) (r_commit
    r) (r_votes r) (r_next r) (r_match r) (r_elapsed r) (r_timeout r) (r_reads r) (r_nextReadID
    r) (r_ready r) (r_snapOut r) (r_snapIn r) x (r_trace r).
Definition set_trace (x : list effect) (r : Raft) : Raft :=
  mkRaft (r_cfg r) (r_store r) (r_rng r) (r_term r) (r_vote r) (r_state r) (r_lead r) (r_commit
    r) (r_votes r) (r_next r) (r_match r) (r_elapsed r) (r_timeout r) (r_reads r) (r_nextReadID
    r) (r_ready r) (r_snapOut r) (r_snapIn r) (r_restored r) x.

(** ** The monad of a call: the state, and a result or a panic *)

Definition M (A : Type) : Type := Raft -> Raft * go A.

#[global] Instance M_ret : MRet M := fun A a r => (r, Ret a).
#[global] Instance M_bind : MBind M := fun A B f m r =>
  match m r with
  | (r, Ret a) => f a r
  | (r, Fail e) => (r, Fail e)
  | (r, Panic) => (r, Panic)
  end.

Definition get {A} (f : Raft -> A) : M A := fun r => (r, Ret (f r)).
Definition modify (f : Raft -> Raft) : M unit := fun r => (f r, Ret tt).
Definition panic {A} : M A := fun r => (r, Panic).
Definition raise {A} (e : error) : M A := fun r => (r, Fail e).

Fixpoint for_each {A} (l : list A) (f : A -> M unit) : M unit :=
  match l with
  | [] => mret tt
  | x :: l => f x ;; for_each l f
  end.

(** A read of the store whose error panics. *)
Definition must {A} (f : S -> go A) : M A := fun r =>
  match f (r_store r) with Ret a => (r, Ret a) | _ => (r, Panic) end.

(** A write to the store whose error panics.  After an I/O error the write
    may have happened or not: it stays in the trace. *)
Definition write (eff : effect) (f : S -> go S) : M unit := fun r =>
  match f (r_store r) with
  | Ret s => (set_trace (r_trace r ++ [eff]) (set_store s r), Ret tt)
  | Fail ErrIO => (set_trace (r_trace r ++ [eff]) r, Panic)
  | _ => (r, Panic)
  end.

(** Go maps that may be nil. *)
Definition mget {V} (d : V) (m : option (gmap N V)) (k : N) : V :=
  default d (m ≫= lookup k).

Definition mput {V} (set : option (gmap N V) -> Raft -> Raft) (m : option (gmap N V)) (k : N) (v : V) : M unit :=
  match m with
  | Some m => modify (set (Some (<[k := v]> m)))
  | None => panic
  end.

Definition next_of (r : Raft) (p : NodeID) : N := mget 0%N (r_next r) p.
Definition match_of (r : Raft) (p : NodeID) : N := mget 0%N (r_match r) p.

Definition put_next (p : NodeID) (i : N) : M unit := m ← get r_next; mput set_next m p i.
Definition put_match (p : NodeID) (i : N) : M unit := m ← get r_match; mput set_match m p i.

(** ** raft.go: helpers *)

Definition r_id (r : Raft) : NodeID := c_ID (r_cfg r).
Definition r_peers (r : Raft) : list NodeID := c_Peers (r_cfg r).

Definition quorum (r : Raft) : nat := length (r_peers r) / 2 + 1.

(** [rng.Intn(n)] draws from [0, n). *)
Definition resetTimeout : M unit := fun r =>
  let e := c_ElectionTick (r_cfg r) in
  match r_rng r with
  | [] => (set_timeout e (set_elapsed 0 r), Ret tt)
  | d :: rng => (set_rng rng (set_timeout (e + d mod e) (set_elapsed 0 r)), Ret tt)
  end.

Definition blank (t : MsgType) (to : NodeID) : Message :=
  mkMessage t 0 to 0 0 0 [] 0 false 0 0 0 [] 0 false.

Definition send (m : Message) : M unit := fun r =>
  let m := mkMessage (m_Type m) (r_id r) (m_To m) (r_term r) (m_Index m) (m_LogTerm m) (m_Entries m)
             (m_Commit m) (m_Reject m) (m_ConflictTerm m) (m_ConflictIndex m) (m_ReadID m)
             (m_Data m) (m_Offset m) (m_Done m) in
  (set_trace (r_trace r ++ [ESend m]) r, Ret tt).

Definition LastIndex : M N := get (fun r => ls_LastIndex (r_store r)).
Definition FirstIndex : M N := get (fun r => ls_FirstIndex (r_store r)).
Definition termAt (index : N) : M N := must (ls_Term index).

Definition lastIndexAndTerm : M (N * N) :=
  last ← LastIndex;
  t ← termAt last;
  mret (last, t).

Definition persistState : M unit := fun r =>
  write (EState (r_term r) (r_vote r)) (ls_SetState (r_term r) (r_vote r)) r.

(** Messages of each type. *)
Definition msg_Vote (to : NodeID) (index logTerm : N) : Message :=
  mkMessage MsgVote 0 to 0 index logTerm [] 0 false 0 0 0 [] 0 false.
Definition msg_VoteResp (to : NodeID) (reject : bool) : Message :=
  mkMessage MsgVoteResp 0 to 0 0 0 [] 0 reject 0 0 0 [] 0 false.
Definition msg_App (to : NodeID) (index logTerm : N) (entries : list Entry) (commit readID : N) : Message :=
  mkMessage MsgApp 0 to 0 index logTerm entries commit false 0 0 readID [] 0 false.
Definition msg_AppResp (to : NodeID) (index readID : N) : Message :=
  mkMessage MsgAppResp 0 to 0 index 0 [] 0 false 0 0 readID [] 0 false.
Definition msg_AppReject (to : NodeID) (conflictTerm conflictIndex readID : N) : Message :=
  mkMessage MsgAppResp 0 to 0 0 0 [] 0 true conflictTerm conflictIndex readID [] 0 false.
Definition msg_Snap (to : NodeID) (index logTerm : N) (data : bytes) (offset : N) (done : bool) : Message :=
  mkMessage MsgSnap 0 to 0 index logTerm [] 0 false 0 0 0 data offset done.
Definition msg_SnapResp (to : NodeID) (index offset : N) (reject done : bool) : Message :=
  mkMessage MsgSnapResp 0 to 0 index 0 [] 0 reject 0 0 0 [] offset done.

(** The peers other than this node, in order. *)
Definition others (r : Raft) : list NodeID := filter (fun p => p <> r_id r) (r_peers r).

Definition granted (r : Raft) : nat :=
  size (filter (fun kv : NodeID * bool => kv.2 = true) (default ∅ (r_votes r))).
Definition rejected (r : Raft) : nat :=
  size (filter (fun kv : NodeID * bool => kv.2 = false) (default ∅ (r_votes r))).

Definition countVotes (r : Raft) : bool := quorum r <=? granted r.

(** [fitBatch]: the prefix of entries one message may carry. *)
Fixpoint fit_loop (maxBytes : N) (i : nat) (size : N) (entries : list Entry) : list Entry :=
  match entries with
  | [] => []
  | e :: rest =>
      let size := (size + N.of_nat (length (e_Data e)))%N in
      if (maxBytes <? size)%N && (0 <? i) then []
      else e :: fit_loop maxBytes (Datatypes.S i) size rest
  end.

Definition fitBatch (r : Raft) (entries : list Entry) : list Entry :=
  fit_loop (c_MaxBatchBytes (r_cfg r)) 0 0 (take (c_MaxBatch (r_cfg r)) entries).

(** ** snapshot.go: sending *)

Definition put_snapOut (to : NodeID) (x : snapTransfer) : M unit :=
  m ← get r_snapOut; mput set_snapOut m to x.

Definition sendChunk (to : NodeID) (x : snapTransfer) : M unit :=
  chunk ← get (fun r => c_SnapshotChunk (r_cfg r));
  let len := N.of_nat (length (x_data x)) in
  let fin := N.min (x_offset x + chunk) len in
  match slice (x_data x) (N.to_nat (x_offset x)) (N.to_nat fin) with
  | Ret data => send (msg_Snap to (x_index x) (x_term x) data (x_offset x) (fin =? len)%N)
  | _ => panic
  end.

Definition sendSnapshot (to : NodeID) : M unit :=
  '(idx, term, data) ← must ls_Snapshot;
  out ← get (fun r => r_snapOut r ≫= lookup to);
  x ← (match out with
       | Some x => if (x_index x =? idx)%N then mret x
                   else let x := mkTransfer idx term data 0 in put_snapOut to x;; mret x
       | None => let x := mkTransfer idx term data 0 in put_snapOut to x;; mret x
       end);
  sendChunk to x.

(** ** raft.go: replication *)

Definition sendAppend (to : NodeID) (readID : N) : M unit :=
  next ← get (fun r => next_of r to);
  first ← FirstIndex;
  commit ← get r_commit;
  if (next <? first)%N then
    if (readID =? 0)%N then sendSnapshot to
    else
      t ← termAt (first - 1);
      send (msg_App to (first - 1) t [] commit readID)
  else
    prevTerm ← termAt (next - 1);
    last ← LastIndex;
    entries ← (if (next <=? last)%N then
                 maxBatch ← get (fun r => c_MaxBatch (r_cfg r));
                 let hi := N.min (next + N.of_nat maxBatch) (last + 1) in
                 es ← must (ls_Entries next hi);
                 es ← get (fun r => fitBatch r es);
                 put_next to (next + N.of_nat (length es));;
                 mret es
               else mret []);
    send (msg_App to (next - 1) prevTerm entries commit readID).

Definition broadcastAppend : M unit :=
  peers ← get others;
  for_each peers (fun p => sendAppend p 0).

(** The highest index replicated on a majority. *)
Definition matches (r : Raft) : list N := merge_sort (flip N.le) (match_of r <$> r_peers r).

Definition maybeCommit : M bool :=
  ms ← get matches;
  q ← get quorum;
  match ms !! (q - 1) with
  | None => panic
  | Some n =>
      commit ← get r_commit;
      if (n <=? commit)%N then mret false
      else
        t ← termAt n;
        term ← get r_term;
        if (t =? term)%N then modify (set_commit n);; mret true else mret false
  end.

(** [appendEntries] numbers the entries from [last + 1] in the current term. *)
Definition assign (last term : N) (entries : list Entry) : list Entry :=
  imap (fun i e => mkEntry (last + 1 + N.of_nat i) term (e_Type e) (e_Data e)) entries.

(** Followers that are caught up get the batch before the local write. *)
Fixpoint send_early (last prevTerm : N) (entries : list Entry) (oneBatch : bool)
    (peers : list NodeID) : M (gset NodeID) :=
  match peers with
  | [] => mret ∅
  | p :: peers =>
      self ← get r_id;
      next ← get (fun r => next_of r p);
      if (p =? self)%N || negb (next =? last + 1)%N || negb oneBatch then
        send_early last prevTerm entries oneBatch peers
      else
        put_next p (last + 1 + N.of_nat (length entries));;
        commit ← get r_commit;
        send (msg_App p last prevTerm entries commit 0);;
        early ← send_early last prevTerm entries oneBatch peers;
        mret ({[ p ]} ∪ early)
  end.

Definition appendEntries (entries : list Entry) : M N :=
  last ← LastIndex;
  term ← get r_term;
  let entries := assign last term entries in
  prevTerm ← termAt last;
  oneBatch ← get (fun r => length (fitBatch r entries) =? length entries);
  peers ← get r_peers;
  early ← send_early last prevTerm entries oneBatch peers;
  write (EAppend entries) (ls_Append entries);;
  self ← get r_id;
  put_match self (last + N.of_nat (length entries));;
  for_each peers (fun p => if bool_decide (p <> self /\ p ∉ early) then sendAppend p 0 else mret tt);;
  maybeCommit;;
  mret (last + 1)%N.

(** ** raft.go: roles *)

Definition becomeFollower (term : N) (lead : NodeID) : M unit :=
  cur ← get r_term;
  (if (cur <? term)%N then
     modify (fun r => set_vote 0%N (set_term term r));;
     persistState
   else mret tt);;
  st ← get r_state;
  modify (fun r => set_snapOut None (set_reads None (set_match None (set_next None (set_votes None
                     (set_lead lead (set_state Follower r)))))));;
  if bool_decide (lead <> 0%N \/ st <> Follower) then resetTimeout else mret tt.

Definition becomeLeader : M unit :=
  modify (fun r => set_elapsed 0 (set_lead (r_id r) (set_state Leader r)));;
  last ← LastIndex;
  modify (fun r => set_next (Some (list_to_map ((fun p => (p, last + 1)%N) <$> r_peers r))) r);;
  modify (fun r => set_snapOut (Some ∅) (set_reads (Some ∅) (set_match (Some ∅) r)));;
  appendEntries [mkEntry 0 0 EntryNoop []];;
  mret tt.

Definition becomeCandidate : M unit :=
  modify (fun r => set_vote (r_id r) (set_term (r_term r + 1)%N r));;
  persistState;;
  modify (fun r => set_votes (Some {[ r_id r := true ]}) (set_lead 0%N (set_state Candidate r)));;
  resetTimeout;;
  won ← get countVotes;
  if (won : bool) then becomeLeader
  else
    '(last, lastTerm) ← lastIndexAndTerm;
    peers ← get others;
    for_each peers (fun p => send (msg_Vote p last lastTerm)).

Definition Tick : M unit :=
  modify (fun r => set_elapsed (Datatypes.S (r_elapsed r)) r);;
  r ← get id;
  match r_state r with
  | Leader =>
      if c_HeartbeatTick (r_cfg r) <=? r_elapsed r then
        modify (set_elapsed 0);; broadcastAppend
      else mret tt
  | _ => if r_timeout r <=? r_elapsed r then becomeCandidate else mret tt
  end.

Definition Propose (payloads : list bytes) : M N :=
  st ← get r_state;
  if decide (st = Leader) then appendEntries ((fun p => mkEntry 0 0 EntryNormal p) <$> payloads)
  else raise ErrNotLeader.

(** ** raft.go: reads *)

Definition completeRead (id : N) : M unit :=
  reads ← get r_reads;
  match reads ≫= lookup id with
  | None => panic
  | Some round =>
      modify (fun r => set_reads (delete id <$> reads) (set_ready (r_ready r ++ [mkReady id (rd_index round)]) r))
  end.

Definition ReadIndex : M N :=
  st ← get r_state;
  if decide (st = Leader) then
    commit ← get r_commit;
    t ← termAt commit;
    term ← get r_term;
    if negb (t =? term)%N then raise ErrLeaderNotReady
    else
      modify (fun r => set_nextReadID (r_nextReadID r + 1)%N r);;
      id ← get r_nextReadID;
      reads ← get r_reads;
      self ← get r_id;
      mput set_reads reads id (mkRound commit {[ self ]});;
      q ← get quorum;
      if q =? 1 then completeRead id;; mret id
      else
        peers ← get others;
        for_each peers (fun p => sendAppend p id);;
        mret id
  else raise ErrNotLeader.

Definition ackRead (id : N) (from : NodeID) : M unit :=
  reads ← get r_reads;
  match reads ≫= lookup id with
  | None => mret tt
  | Some round =>
      let acks := {[ from ]} ∪ rd_acks round in
      mput set_reads reads id (mkRound (rd_index round) acks);;
      q ← get quorum;
      if q <=? size acks then completeRead id else mret tt
  end.

Definition TakeReady : M (list ReadReady) :=
  out ← get r_ready;
  modify (set_ready []);;
  mret out.

(** ** raft.go: handlers *)

Definition rejectStale (m : Message) : M unit :=
  match m_Type m with
  | MsgVote => send (msg_VoteResp (m_From m) true)
  | MsgApp => send (msg_AppReject (m_From m) 0 0 (m_ReadID m))
  | MsgSnap => send (msg_SnapResp (m_From m) 0 0 true false)
  | _ => mret tt
  end.

Definition handleVote (m : Message) : M unit :=
  r ← get id;
  let canVote := (r_vote r =? m_From m)%N || ((r_vote r =? 0)%N && (r_lead r =? 0)%N) in
  '(last, lastTerm) ← lastIndexAndTerm;
  let upToDate := (lastTerm <? m_LogTerm m)%N
                  || ((m_LogTerm m =? lastTerm)%N && (last <=? m_Index m)%N) in
  if negb canVote || negb upToDate then send (msg_VoteResp (m_From m) true)
  else
    modify (set_vote (m_From m));;
    persistState;;
    modify (set_elapsed 0);;
    send (msg_VoteResp (m_From m) false).

Definition handleVoteResp (m : Message) : M unit :=
  st ← get r_state;
  if decide (st = Candidate) then
    votes ← get r_votes;
    mput set_votes votes (m_From m) (negb (m_Reject m));;
    won ← get countVotes;
    if (won : bool) then becomeLeader
    else
      lost ← get (fun r => quorum r <=? rejected r);
      if (lost : bool) then term ← get r_term; becomeFollower term 0 else mret tt
  else mret tt.

(** [firstIndexOfTerm]: at most [index] steps back. *)
Fixpoint first_of_term (fuel : nat) (first index term : N) : M N :=
  match fuel with
  | O => mret index
  | Datatypes.S fuel =>
      if (first <? index)%N then
        t ← termAt (index - 1);
        if (t =? term)%N then first_of_term fuel first (index - 1) term else mret index
      else mret index
  end.

Definition firstIndexOfTerm (index term : N) : M N :=
  first ← FirstIndex;
  first_of_term (N.to_nat index) first index term.

(** The loop of [handleAppend]: everything from the first entry that is
    missing or conflicts is appended. *)
Fixpoint append_from (last : N) (entries : list Entry) : M unit :=
  match entries with
  | [] => mret tt
  | e :: rest =>
      if (last <? e_Index e)%N then write (EAppend entries) (ls_Append entries)
      else
        t ← termAt (e_Index e);
        if negb (t =? e_Term e)%N then write (EAppend entries) (ls_Append entries)
        else append_from last rest
  end.

(** What both [handleAppend] and [handleSnapshot] start with. *)
Definition follow (m : Message) : M unit :=
  st ← get r_state;
  (if decide (st = Follower) then mret tt else becomeFollower (m_Term m) (m_From m));;
  modify (fun r => set_elapsed 0 (set_lead (m_From m) r)).

Definition handleAppend (m : Message) : M unit :=
  follow m;;
  commit ← get r_commit;
  if (m_Index m <? commit)%N then send (msg_AppResp (m_From m) commit (m_ReadID m))
  else
    last ← LastIndex;
    if (last <? m_Index m)%N then send (msg_AppReject (m_From m) 0 (last + 1) (m_ReadID m))
    else
      t ← termAt (m_Index m);
      if negb (t =? m_LogTerm m)%N then
        ci ← firstIndexOfTerm (m_Index m) t;
        send (msg_AppReject (m_From m) t ci (m_ReadID m))
      else
        append_from last (m_Entries m);;
        let lastNew := (m_Index m + N.of_nat (length (m_Entries m)))%N in
        (if (commit <? m_Commit m)%N then modify (set_commit (N.min (m_Commit m) lastNew)) else mret tt);;
        send (msg_AppResp (m_From m) lastNew (m_ReadID m)).

(** [lastIndexOfTerm]: walks down from the last index. *)
Fixpoint last_of_term (fuel : nat) (first i term : N) : M (option N) :=
  match fuel with
  | O => mret None
  | Datatypes.S fuel =>
      if (first <=? i)%N then
        t ← termAt i;
        if (t =? term)%N then mret (Some i)
        else if (t <? term)%N then mret None
        else last_of_term fuel first (i - 1) term
      else mret None
  end.

Definition lastIndexOfTerm (term : N) : M (option N) :=
  first ← FirstIndex;
  last ← LastIndex;
  last_of_term (N.to_nat (last + 1)) first last term.

(** A follower now holds the log up to [index]. *)
Definition advance_match (from : NodeID) (index : N) : M unit :=
  mt ← get (fun r => match_of r from);
  (if (mt <? index)%N then put_match from index else mret tt);;
  nx ← get (fun r => next_of r from);
  (if (nx <? index + 1)%N then put_next from (index + 1) else mret tt).

(** Where to retry after a rejection: past the leader's last entry of the
    conflicting term, if it has one, and never below what is matched. *)
Definition retry_from (m : Message) (found : option N) : M unit :=
  let next := match found with Some last => (last + 1)%N | None => m_ConflictIndex m end in
  mt ← get (fun r => match_of r (m_From m));
  let next := if (next <=? mt)%N then (mt + 1)%N else next in
  let next := if (next <? 1)%N then 1%N else next in
  put_next (m_From m) next;;
  sendAppend (m_From m) 0.

Definition append_accepted (m : Message) : M unit :=
  advance_match (m_From m) (m_Index m);;
  committed ← maybeCommit;
  if (committed : bool) then broadcastAppend
  else
    nx ← get (fun r => next_of r (m_From m));
    last ← LastIndex;
    if (nx <=? last)%N then sendAppend (m_From m) 0 else mret tt.

Definition append_answered (m : Message) : M unit :=
  out ← get (fun r => r_snapOut r ≫= lookup (m_From m));
  match out with
  | Some _ => mret tt
  | None =>
      if m_Reject m then
        found ← (if (0 <? m_ConflictTerm m)%N then lastIndexOfTerm (m_ConflictTerm m) else mret None);
        retry_from m found
      else append_accepted m
  end.

Definition handleAppendResp (m : Message) : M unit :=
  (if negb (m_ReadID m =? 0)%N then ackRead (m_ReadID m) (m_From m) else mret tt);;
  append_answered m.

(** ** snapshot.go: receiving *)

(** The chunk meets the transfer in progress. *)
Definition receive_chunk (m : Message) : M unit :=
  inn ← get r_snapIn;
  match inn with
  | None => send (msg_SnapResp (m_From m) (m_Index m) 0 true false)
  | Some x =>
      let len := N.of_nat (length (x_data x)) in
      if negb (x_index x =? m_Index m)%N then
        send (msg_SnapResp (m_From m) (m_Index m) 0 true false)
      else if negb (m_Offset m =? len)%N then
        send (msg_SnapResp (m_From m) (m_Index m) len (len <? m_Offset m)%N false)
      else
        let x := mkTransfer (x_index x) (x_term x) (x_data x ++ m_Data m) (x_offset x) in
        if negb (m_Done m) then
          modify (set_snapIn (Some x));;
          send (msg_SnapResp (m_From m) (m_Index m) (N.of_nat (length (x_data x))) false false)
        else
          modify (set_snapIn None);;
          write (ECompact (x_index x) (x_term x) (x_data x)) (ls_Compact (x_index x) (x_term x) (x_data x));;
          modify (fun r => set_restored (Some x) (set_commit (x_index x) r));;
          send (msg_SnapResp (m_From m) (x_index x) 0 false true)
  end.

Definition handleSnapshot (m : Message) : M unit :=
  follow m;;
  commit ← get r_commit;
  if (m_Index m <=? commit)%N then send (msg_SnapResp (m_From m) commit 0 false true)
  else
    (if (m_Offset m =? 0)%N then
       modify (set_snapIn (Some (mkTransfer (m_Index m) (m_LogTerm m) [] 0)))
     else mret tt);;
    receive_chunk m.

Definition TakeRestored : M (option (N * bytes)) :=
  x ← get r_restored;
  match x with
  | None => mret None
  | Some x => modify (set_restored None);; mret (Some (x_index x, x_data x))
  end.

Definition handleSnapshotResp (m : Message) : M unit :=
  out ← get (fun r => r_snapOut r ≫= lookup (m_From m));
  if m_Done m then
    modify (fun r => set_snapOut (delete (m_From m) <$> r_snapOut r) r);;
    advance_match (m_From m) (m_Index m);;
    committed ← maybeCommit;
    if (committed : bool) then broadcastAppend else sendAppend (m_From m) 0
  else
    match out with
    | None => mret tt
    | Some x =>
        if negb (x_index x =? m_Index m)%N then mret tt
        else
          let off := if m_Reject m then 0%N
                     else if (x_offset x <? m_Offset m)%N then m_Offset m else x_offset x in
          let x := mkTransfer (x_index x) (x_term x) (x_data x) off in
          put_snapOut (m_From m) x;;
          sendChunk (m_From m) x
    end.

Definition dispatch (m : Message) : M unit :=
  st ← get r_state;
  match m_Type m with
  | MsgVote => handleVote m
  | MsgVoteResp => handleVoteResp m
  | MsgApp => handleAppend m
  | MsgAppResp => if decide (st = Leader) then handleAppendResp m else mret tt
  | MsgSnap => handleSnapshot m
  | MsgSnapResp => if decide (st = Leader) then handleSnapshotResp m else mret tt
  | MsgOther _ => mret tt
  end.

Definition Step (m : Message) : M unit :=
  term ← get r_term;
  if (m_Term m <? term)%N then rejectStale m
  else
    (if (term <? m_Term m)%N then
       becomeFollower (m_Term m)
         (match m_Type m with MsgApp | MsgSnap => m_From m | _ => 0%N end)
     else mret tt);;
    dispatch m.

(** ** Construction *)

Definition New (cfg : Config) (store : S) (rng : list nat) : go Raft :=
  if (c_ID cfg =? 0)%N then Fail ErrConfig
  else if (length (c_Peers cfg) =? 0) || (c_ElectionTick cfg =? 0) || (c_HeartbeatTick cfg =? 0)
  then Fail ErrConfig
  else
    let dflt (n d : N) := if (n =? 0)%N then d else n in
    let cfg := mkConfig (c_ID cfg) (c_Peers cfg) (c_ElectionTick cfg) (c_HeartbeatTick cfg)
                 (if c_MaxBatch cfg =? 0 then 256 else c_MaxBatch cfg)
                 (dflt (c_MaxBatchBytes cfg) 1048576%N) (dflt (c_SnapshotChunk cfg) 524288%N) in
    '(term, vote) ← ls_State store;
    let commit := match ls_Snapshot store with Ret (i, _, _) => i | _ => 0%N end in
    let r := mkRaft cfg store rng term vote Follower 0 commit None None None 0 0 None 0 [] None None None [] in
    Ret (resetTimeout r).1.
End Raft.

Arguments Raft : clear implicits.
