(* ===== verification/Protocol.v ===== *)
(** * The replication protocol as small steps

    The abstract specification that [Raft] implements.  A node is its
    durable store and the few volatile facts that matter for safety; one
    step changes it by at most one effect (a message sent, or one write to
    the store), so a run of the code that stops between two effects is a run
    of steps that stops there.  The network keeps every message ever sent:
    a message may be delivered late, often, or never. *)

From stdpp Require Import base list gmap functions.
From S2P Require Import Prelude LogStore Raft.

Record anode := mkAN {
  a_mem : MemStore;           (* durable: term, vote, entries, snapshot *)
  a_role : State;
  a_votes : gset NodeID;      (* granted votes, as a candidate *)
  a_pend : list Entry;        (* a leader's entries sent but not yet stored *)
  a_commit : N;
  a_cmax : N;                 (* the highest commit index this node ever had *)
  a_match : NodeID -> N;
  a_out : list (N * N);       (* snapshots (index, term) a leader transfers *)
}.

Definition a_term (a : anode) : N := ms_term (a_mem a).
Definition a_vote (a : anode) : NodeID := ms_vote (a_mem a).
Definition a_snapIdx (a : anode) : N := ms_snapIdx (a_mem a).
Definition a_last (a : anode) : N := lastLocked (a_mem a).

Definition a_init : anode := mkAN NewMemStore Follower ∅ [] 0 0 (fun _ => 0%N) [].

(** The durable part of an effect. *)
Definition apply_eff (e : effect) (s : MemStore) : MemStore :=
  let get (x : go MemStore) := match x with Ret s => s | _ => s end in
  match e with
  | ESend _ => s
  | EState t v => get (mem_SetState t v s)
  | EAppend es => get (appendLocked es s)
  | ECompact i t d => get (mem_Compact i t d s)
  end.

Definition set_st (t : N) (v : NodeID) (s : MemStore) : MemStore :=
  mkMem t v (ms_entries s) (ms_snapIdx s) (ms_snapTerm s) (ms_snap s).

(** Losing a role forgets the leader's and candidate's books. *)
Definition follower (s : MemStore) (a : anode) : anode :=
  mkAN s Follower ∅ [] (a_commit a) (a_cmax a) (fun _ => 0%N) [].

Definition with_mem (s : MemStore) (a : anode) : anode :=
  mkAN s (a_role a) (a_votes a) (a_pend a) (a_commit a) (a_cmax a) (a_match a) (a_out a).
Definition with_pend (es : list Entry) (a : anode) : anode :=
  mkAN (a_mem a) (a_role a) (a_votes a) es (a_commit a) (a_cmax a) (a_match a) (a_out a).
Definition with_commit (c : N) (a : anode) : anode :=
  mkAN (a_mem a) (a_role a) (a_votes a) (a_pend a) c (N.max (a_cmax a) c) (a_match a) (a_out a).

(** Index [i] of the log, counting what a leader has announced. *)
Definition announced (a : anode) : MemStore := set_entries (ms_entries (a_mem a) ++ a_pend a) (a_mem a).

(** The candidate's log is at least as up to date as the voter's. *)
Definition up_to_date (s : MemStore) (m : Message) : Prop :=
  exists t, mem_Term (lastLocked s) s = Ret t /\
    ((t < m_LogTerm m)%N \/ (m_LogTerm m = t /\ (lastLocked s <= m_Index m)%N)).

(** The log agrees with an append of this term, through its last entry. *)
Definition accepted (a : anode) (n : NodeID) (m : Message) : Prop :=
  m_Type m = MsgApp /\ m_To m = n /\ m_Term m = a_term a /\
  mem_Term (m_Index m) (a_mem a) = Ret (m_LogTerm m) /\
  Forall (fun e => mem_Term (e_Index e) (a_mem a) = Ret (e_Term e)) (m_Entries m).

Section Protocol.
Context (peers : list NodeID).

Definition is_quorum (Q : gset NodeID) : Prop :=
  Q ⊆ list_to_set peers /\ length peers / 2 + 1 <= size Q.

(** What a node may send. *)
Definition can_send (M : list Message) (n : NodeID) (a : anode) (m : Message) : Prop :=
  match m_Type m with
  | MsgVote => a_role a = Candidate /\ m_Index m = a_last a /\
               mem_Term (a_last a) (a_mem a) = Ret (m_LogTerm m)
  | MsgVoteResp => m_Reject m = false -> a_vote a = m_To m /\ m_To m <> 0%N
  | MsgApp => a_role a = Leader /\ mem_Term (m_Index m) (announced a) = Ret (m_LogTerm m) /\
              m_Entries m `prefix_of` drop (N.to_nat (m_Index m - a_snapIdx a)) (ms_entries (announced a)) /\
              (m_Commit m <= a_commit a)%N
  | MsgAppResp => m_Reject m = false ->
      (m_Index m <= a_commit a)%N \/
      exists m0, m0 ∈ M /\ accepted a n m0 /\ m_Index m = (m_Index m0 + N.of_nat (length (m_Entries m0)))%N
  | MsgSnap => a_role a = Leader /\ (m_Index m, m_LogTerm m) ∈ a_out a
  | MsgSnapResp => m_Done m = true -> (m_Index m <= a_commit a)%N
  | MsgOther _ => False
  end.

Inductive astep (M : list Message) (n : NodeID) (a : anode) : option effect -> anode -> Prop :=
  | AS_term t :
      (a_term a < t)%N ->
      astep M n a (Some (EState t 0)) (follower (set_st t 0 (a_mem a)) a)
  | AS_stepdown : astep M n a None (follower (a_mem a) a)
  | AS_cand :
      a_role a <> Leader ->
      astep M n a (Some (EState (a_term a + 1) n))
        (mkAN (set_st (a_term a + 1) n (a_mem a)) Candidate {[ n ]} [] (a_commit a) (a_cmax a)
           (fun _ => 0%N) [])
  | AS_vote m :
      m ∈ M -> m_Type m = MsgVote -> m_To m = n -> m_Term m = a_term a ->
      a_vote a = 0%N \/ a_vote a = m_From m -> up_to_date (a_mem a) m ->
      astep M n a (Some (EState (a_term a) (m_From m))) (with_mem (set_st (a_term a) (m_From m) (a_mem a)) a)
  | AS_send m :
      m_From m = n -> m_Term m = a_term a -> can_send M n a m ->
      astep M n a (Some (ESend m)) a
  | AS_recvvote m :
      a_role a = Candidate -> m ∈ M -> m_Type m = MsgVoteResp -> m_To m = n -> m_Term m = a_term a ->
      astep M n a None
        (mkAN (a_mem a) (a_role a)
           (if m_Reject m then a_votes a ∖ {[ m_From m ]} else a_votes a ∪ {[ m_From m ]})
           (a_pend a) (a_commit a) (a_cmax a) (a_match a) (a_out a))
  | AS_lead :
      a_role a = Candidate -> length peers / 2 + 1 <= size (a_votes a) ->
      astep M n a None (mkAN (a_mem a) Leader ∅ [] (a_commit a) (a_cmax a) (fun _ => 0%N) [])
  | AS_announce es :
      a_role a = Leader -> a_pend a = [] ->
      (forall i e, es !! i = Some e -> e_Index e = (a_last a + 1 + N.of_nat i)%N /\ e_Term e = a_term a) ->
      astep M n a None (with_pend es a)
  | AS_flush k s :
      a_role a = Leader -> appendLocked (take k (a_pend a)) (a_mem a) = Ret s ->
      astep M n a (Some (EAppend (take k (a_pend a)))) (with_mem s (with_pend (drop k (a_pend a)) a))
  | AS_accept m j k e s :
      a_role a = Follower -> m ∈ M -> m_Type m = MsgApp -> m_To m = n -> m_Term m = a_term a ->
      (a_commit a <= m_Index m)%N -> mem_Term (m_Index m) (a_mem a) = Ret (m_LogTerm m) ->
      Forall (fun e => mem_Term (e_Index e) (a_mem a) = Ret (e_Term e)) (take j (m_Entries m)) ->
      m_Entries m !! j = Some e -> mem_Term (e_Index e) (a_mem a) <> Ret (e_Term e) ->
      0 < k -> appendLocked (take k (drop j (m_Entries m))) (a_mem a) = Ret s ->
      astep M n a (Some (EAppend (take k (drop j (m_Entries m))))) (with_mem s a)
  | AS_commit_follower m c :
      a_role a = Follower -> m ∈ M -> accepted a n m ->
      (a_commit a <= c)%N -> (c <= m_Commit m)%N -> (c <= m_Index m + N.of_nat (length (m_Entries m)))%N ->
      astep M n a None (with_commit c a)
  | AS_match v i :
      a_role a = Leader ->
      (v = n /\ (i <= a_last a)%N) \/
      (exists m, m ∈ M /\ m_From m = v /\ m_To m = n /\ m_Term m = a_term a /\ m_Index m = i /\
         ((m_Type m = MsgAppResp /\ m_Reject m = false) \/ (m_Type m = MsgSnapResp /\ m_Done m = true))) ->
      astep M n a None
        (mkAN (a_mem a) (a_role a) (a_votes a) (a_pend a) (a_commit a) (a_cmax a)
           (<[v := i]> (a_match a)) (a_out a))
  | AS_commit_leader i Q :
      a_role a = Leader -> (a_commit a <= i)%N -> mem_Term i (a_mem a) = Ret (a_term a) ->
      is_quorum Q -> (forall v, v ∈ Q -> (i <= a_match a v)%N) ->
      astep M n a None (with_commit i a)
  | AS_open_snapshot :
      a_role a = Leader ->
      astep M n a None
        (mkAN (a_mem a) (a_role a) (a_votes a) (a_pend a) (a_commit a) (a_cmax a) (a_match a)
           ((ms_snapIdx (a_mem a), ms_snapTerm (a_mem a)) :: a_out a))
  | AS_install m m0 d s :
      a_role a = Follower -> m ∈ M -> m0 ∈ M -> m_Type m = MsgSnap -> m_Type m0 = MsgSnap ->
      m_To m = n -> m_Term m = a_term a -> m_Index m0 = m_Index m -> (a_commit a < m_Index m)%N ->
      mem_Compact (m_Index m) (m_LogTerm m0) d (a_mem a) = Ret s ->
      astep M n a (Some (ECompact (m_Index m) (m_LogTerm m0) d)) (with_commit (m_Index m) (with_mem s a))
  | AS_compact i t d s :
      (a_snapIdx a < i <= a_commit a)%N -> mem_Term i (a_mem a) = Ret t -> a_pend a = [] ->
      mem_Compact i t d (a_mem a) = Ret s ->
      astep M n a (Some (ECompact i t d)) (with_mem s a)
  | AS_restart c :
      (a_snapIdx a <= c <= a_cmax a)%N ->
      astep M n a None (mkAN (a_mem a) Follower ∅ [] c (a_cmax a) (fun _ => 0%N) []).

(** ** The system *)

Record world := mkWorld {
  w_node : NodeID -> anode;
  w_msgs : list Message;
}.

Definition w_init : world := mkWorld (fun _ => a_init) [].

Definition sent (lab : option effect) : list Message :=
  match lab with Some (ESend m) => [m] | _ => [] end.

Inductive wstep (w : world) : world -> Prop :=
  | W_node n lab a :
      n ∈ peers -> n <> 0%N -> astep (w_msgs w) n (w_node w n) lab a ->
      wstep w (mkWorld (<[n := a]> (w_node w)) (sent lab ++ w_msgs w)).

Inductive reachable : world -> Prop :=
  | reach_start : reachable w_init
  | reach_wstep w w' : reachable w -> wstep w w' -> reachable w'.
End Protocol.
