(* ===== verification/Safety.v ===== *)
(** * Safety of the replication protocol

    The invariant of [Protocol] and what follows from it: one leader per
    term, logs that agree, leaders that hold every committed entry, and
    nodes that never disagree on a committed entry.

    The invariant is about ghost history: the log every leader had, who
    voted for whom with which log, and how far each node acknowledged each
    leader.  A log is compared through two ghost lists, because a node that
    installs a snapshot keeps the entries behind it even when they belong
    to another history: [g_G n] is the node's log with its compacted prefix
    restored, [g_H n] a consistent log with the same stored entries. *)

From stdpp Require Import base list gmap functions.
From S2P Require Import Prelude LogStore Raft Protocol.

(** ** Logs *)

Definition len (l : list Entry) : N := N.of_nat (length l).
Definition pre (i : N) (l : list Entry) : list Entry := take (N.to_nat i) l.

(** The term at a 1-based index; index 0 has term 0. *)
Definition tm (l : list Entry) (i : N) : option N :=
  if (i =? 0)%N then Some 0%N else e_Term <$> l !! N.to_nat (i - 1).

Lemma tm_len l i t : tm l i = Some t -> (i <= len l)%N.
Proof.
  unfold tm, len. destruct (N.eqb_spec i 0); [lia|].
  intros (e & H%lookup_lt_Some & _)%fmap_Some. lia.
Qed.

Lemma tm_is_Some l i : (i <= len l)%N -> is_Some (tm l i).
Proof.
  unfold tm, len. intros H. destruct (N.eqb_spec i 0); [eauto|].
  destruct (lookup_lt_is_Some_2 l (N.to_nat (i - 1))) as [e ->]; [lia|]. simpl. eauto.
Qed.

Lemma tm_prefix l1 l2 i t : l1 `prefix_of` l2 -> tm l1 i = Some t -> tm l2 i = Some t.
Proof.
  unfold tm. intros Hp. destruct (N.eqb_spec i 0); [done|].
  intros (e & He & ->)%fmap_Some. by rewrite (prefix_lookup_Some _ _ _ _ He Hp).
Qed.

Lemma tm_pre l i j : (j <= i)%N -> tm (pre i l) j = tm l j.
Proof.
  unfold tm, pre. intros H. destruct (N.eqb_spec j 0); [done|].
  rewrite lookup_take_lt by lia. done.
Qed.

Lemma len_pre i l : (i <= len l)%N -> len (pre i l) = i.
Proof. unfold len, pre. rewrite length_take. lia. Qed.

Lemma pre_prefix i l : pre i l `prefix_of` l.
Proof. exists (drop (N.to_nat i) l). unfold pre. by rewrite take_drop. Qed.

Lemma pre_of_prefix i l1 l2 : l1 `prefix_of` l2 -> (i <= len l1)%N -> pre i l2 = pre i l1.
Proof. intros [k ->]. unfold pre, len. intros. rewrite take_app_le by lia. done. Qed.

Lemma pre_pre i j l : (i <= j)%N -> pre i (pre j l) = pre i l.
Proof. unfold pre. intros. rewrite take_take. f_equal. lia. Qed.

Lemma pre_len l i : (len l <= i)%N -> pre i l = l.
Proof. unfold pre, len. intros. apply take_ge. lia. Qed.

(** A list starts with another one exactly when it agrees that far. *)
Lemma prefix_pre l1 l2 : l1 `prefix_of` l2 <-> pre (len l1) l2 = l1.
Proof.
  unfold pre, len. rewrite Nat2N.id. split.
  - intros [k ->]. apply take_app_length.
  - intros <-. apply prefix_take.
Qed.

Lemma pre_prefix_le i l1 l2 : pre i l1 `prefix_of` l2 -> (i <= len l1)%N -> pre i l2 = pre i l1.
Proof. intros Hp Hi. apply prefix_pre in Hp. by rewrite len_pre in Hp. Qed.

(** The term of the last entry. *)
Definition last_term (l : list Entry) : N := from_option e_Term 0%N (list.last l).

Lemma last_term_tm l : tm l (len l) = Some (last_term l).
Proof.
  unfold tm, len, last_term. destruct l as [|x l] using rev_ind; [done|].
  rewrite length_app, last_snoc. simpl. destruct (N.eqb_spec (N.of_nat (length l + 1)) 0); [lia|].
  rewrite lookup_app_r by lia.
  replace (N.to_nat (N.of_nat (length l + 1) - 1) - length l) with 0 by lia. done.
Qed.

(** ** Stores and full logs *)

(** [G] is the store's log with its compacted prefix restored. *)
Definition mem_rel (s : MemStore) (G : list Entry) : Prop :=
  (ms_snapIdx s <= len G)%N /\ ms_entries s = drop (N.to_nat (ms_snapIdx s)) G /\
  tm G (ms_snapIdx s) = Some (ms_snapTerm s).

Lemma rel_last s G : mem_rel s G -> lastLocked s = len G.
Proof. intros (H1 & H2 & _). unfold lastLocked, len in *. rewrite H2, length_drop. lia. Qed.

Lemma rel_Term s G i t : mem_rel s G -> mem_Term i s = Ret t <-> (ms_snapIdx s <= i)%N /\ tm G i = Some t.
Proof.
  intros Hr. pose proof (rel_last s G Hr) as Hl. destruct Hr as (H1 & H2 & H3).
  unfold mem_Term. rewrite Hl.
  destruct (N.eqb_spec i (ms_snapIdx s)) as [->|Hne].
  { rewrite H3. split; [intros [= ->]|intros [_ [= ->]]]; auto with lia. }
  destruct (N.ltb_spec i (ms_snapIdx s)); [split; [done|lia]|].
  destruct (N.ltb_spec (len G) i) as [Hlt|Hge].
  { split; [done|]. intros [_ Ht%tm_len]. lia. }
  rewrite H2, lookup_drop. unfold tm. destruct (N.eqb_spec i 0); [lia|].
  replace (N.to_nat (ms_snapIdx s) + N.to_nat (i - ms_snapIdx s - 1)) with (N.to_nat (i - 1)) by lia.
  destruct (G !! N.to_nat (i - 1)) as [e|]; simpl; [|split; [done|by intros [_ ?]]].
  split; [intros [= <-]|intros [_ [= <-]]]; done.
Qed.

Lemma rel_Term_lookup s G i : mem_rel s G -> (ms_snapIdx s <= i)%N -> (i <= len G)%N ->
  exists t, mem_Term i s = Ret t /\ tm G i = Some t.
Proof.
  intros Hr H1 H2. destruct (tm_is_Some G i H2) as [t Ht]. exists t.
  split; [|done]. by apply (rel_Term s G).
Qed.

Lemma rel_state s G t v : mem_rel s G -> mem_rel (set_st t v s) G.
Proof. done. Qed.

(** An append keeps what is below the first new entry. *)
Lemma rel_append s G e es s' :
  mem_rel s G -> appendLocked (e :: es) s = Ret s' ->
  (ms_snapIdx s < e_Index e <= len G + 1)%N /\
  mem_rel s' (pre (e_Index e - 1) G ++ e :: es) /\
  ms_term s' = ms_term s /\ ms_vote s' = ms_vote s /\ ms_snapIdx s' = ms_snapIdx s.
Proof.
  intros Hr. pose proof (rel_last s G Hr) as Hl. destruct Hr as (H1 & H2 & H3).
  unfold appendLocked. rewrite Hl.
  destruct (N.ltb_spec (len G + 1) (e_Index e)); [done|].
  destruct (N.leb_spec (e_Index e) (ms_snapIdx s)); [done|]. cbn [orb].
  rewrite slice_ok; [|lia|rewrite H2, length_drop; unfold len in *; lia].
  cbn [mbind go_bind]. intros [= <-]. simpl. split; [lia|]. split; [|done].
  unfold mem_rel. simpl. rewrite drop_0, Nat.sub_0_r.
  assert (len (pre (e_Index e - 1) G ++ e :: es) = (e_Index e - 1 + 1 + len es)%N) as Hlen.
  { unfold len, pre in *. rewrite length_app, length_take. simpl. lia. }
  split_and!.
  - rewrite Hlen. lia.
  - rewrite H2. unfold pre. rewrite drop_app_le by (rewrite length_take; unfold len in *; lia).
    f_equal. rewrite take_drop_commute. do 2 f_equal. lia.
  - rewrite <-(tm_pre G (e_Index e - 1)) in H3 by lia.
    eapply tm_prefix; [|exact H3]. by eexists.
Qed.

(** A compaction under [P], a log that ends with the snapshot's entry. *)
Lemma rel_compact s G i t d s' P :
  mem_rel s G -> (ms_snapIdx s < i)%N -> len P = i -> tm P i = Some t ->
  mem_Compact i t d s = Ret s' ->
  mem_rel s' (P ++ drop (N.to_nat i) G) /\
  ms_term s' = ms_term s /\ ms_vote s' = ms_vote s /\ ms_snapIdx s' = i /\
  ms_entries s' = drop (N.to_nat i) G.
Proof.
  intros Hr Hi HP Ht. pose proof (rel_last s G Hr) as Hl. destruct Hr as (H1 & H2 & H3).
  unfold mem_Compact. rewrite Hl. destruct (N.leb_spec i (ms_snapIdx s)); [lia|].
  assert ((if (i <=? len G)%N
           then slice (ms_entries s) (N.to_nat (i - ms_snapIdx s)) (length (ms_entries s))
           else Ret []) = Ret (drop (N.to_nat i) G)) as ->.
  { destruct (N.leb_spec i (len G)).
    - rewrite slice_ok; [|rewrite H2, length_drop; unfold len in *; lia|lia].
      rewrite H2, drop_drop. f_equal. rewrite firstn_all2; [f_equal; lia|].
      rewrite !length_drop. lia.
    - by rewrite drop_ge by (unfold len in *; lia). }
  cbn [mbind go_bind]. intros [= <-]. simpl. split; [|done].
  unfold mem_rel. simpl. unfold len in *. rewrite length_app. split_and!.
  - lia.
  - by rewrite drop_app_length' by lia.
  - eapply tm_prefix; [|exact Ht]. by eexists.
Qed.

(** ** Ghost history *)

Record ghost := mkGhost {
  g_ll : N -> list Entry;          (* the log of each term's leader *)
  g_init : N -> list Entry;        (* the same at its election *)
  g_led : N -> option NodeID;      (* who led each term *)
  g_vq : N -> gset NodeID;         (* the votes that elected it *)
  g_G : NodeID -> list Entry;      (* each node's full log *)
  g_H : NodeID -> list Entry;      (* a consistent log with the same stored entries *)
  g_cand : NodeID -> N -> option (list Entry);            (* log at candidacy *)
  g_vrec : NodeID -> N -> option (NodeID * list Entry);   (* votes, and the voter's log *)
  g_ack : NodeID -> N -> N;        (* how far each node acknowledged each leader *)
}.

(** Every entry comes with the history of the leader that created it. *)
Definition honest (ll : N -> list Entry) (L : list Entry) : Prop :=
  forall i e, L !! i = Some e -> take (S i) L `prefix_of` ll (e_Term e).

(** Raft's order on logs: by last term, then by length. *)
Definition last_le (L1 L2 : list Entry) : Prop :=
  (last_term L1 < last_term L2)%N \/ (last_term L1 = last_term L2 /\ (len L1 <= len L2)%N).

Section Invariant.
Context (peers : list NodeID).
#[local] Abbreviation is_quorum := (is_quorum peers).

(** A quorum stored index [ic] of term [T]'s log, an entry of that term. *)
Definition cquorum (g : ghost) (T ic : N) : Prop :=
  (0 < ic)%N /\ tm (g_ll g T) ic = Some T /\
  exists Q, is_quorum Q /\ forall v, v ∈ Q -> (ic <= g_ack g v T)%N.

Definition cmtd (g : ghost) (T i : N) : Prop := exists ic, (i <= ic)%N /\ cquorum g T ic.

(** Index [i] is committed by some leader up to term [T]. *)
Definition ccom (g : ghost) (T i : N) : Prop := i = 0%N \/ exists Tc, (Tc <= T)%N /\ cmtd g Tc i.

(** ... and [L] holds the committed entries up to there. *)
Definition cpre (g : ghost) (T i : N) (L : list Entry) : Prop :=
  (i <= len L)%N /\
  (i = 0%N \/ exists Tc, (Tc <= T)%N /\ cmtd g Tc i /\ pre i L = pre i (g_ll g Tc)).

(** An acknowledgement of index [i] in term [T]. *)
Definition respok (g : ghost) (v : NodeID) (T i : N) : Prop := ccom g T i \/ (i <= g_ack g v T)%N.

(** A snapshot of the leader of [T]. *)
Definition snap_ok (g : ghost) (T i t : N) : Prop :=
  g_led g T <> None /\ tm (g_ll g T) i = Some t /\ cpre g T i (g_ll g T).

Record ghost_ok (g : ghost) : Prop := {
  gh_honest : forall T, honest (g_ll g) (g_ll g T);
  gh_terms : forall T, Forall (fun e => (1 <= e_Term e <= T)%N) (g_ll g T);
  gh_index : forall T i e, g_ll g T !! i = Some e -> e_Index e = (N.of_nat i + 1)%N;
  gh_none : forall T, g_led g T = None -> g_ll g T = [];
  gh_init : forall T c, g_led g T = Some c ->
    (exists ext, g_ll g T = g_init g T ++ ext /\ Forall (fun e => e_Term e = T) ext) /\
    Forall (fun e => (e_Term e < T)%N) (g_init g T);
  gh_led : forall T c, g_led g T = Some c ->
    (1 <= T)%N /\ is_quorum (g_vq g T) /\
    forall v, v ∈ g_vq g T -> exists Hv, g_vrec g v T = Some (c, Hv) /\ last_le Hv (g_init g T);
  gh_ack : forall v T, (0 < g_ack g v T)%N -> g_led g T <> None /\ (g_ack g v T <= len (g_ll g T))%N;
}.

(** The node's store [s] and commit index [c], [cm] the highest so far. *)
Record base_ok (g : ghost) (n : NodeID) (s : MemStore) (c cm : N) : Prop := {
  n_rel : mem_rel s (g_G g n);
  n_len : length (g_H g n) = length (g_G g n);
  n_tail : drop (N.to_nat (ms_snapIdx s)) (g_H g n) = drop (N.to_nat (ms_snapIdx s)) (g_G g n);
  n_clean : ms_snapIdx s = len (g_G g n) -> g_H g n = g_G g n;
  n_honest : honest (g_ll g) (g_H g n);
  n_terms : Forall (fun e => (1 <= e_Term e <= ms_term s)%N) (g_H g n);
  n_led : forall T, g_led g T = Some n -> (T <= ms_term s)%N;
  n_candT : forall T L, g_cand g n T = Some L -> (1 <= T <= ms_term s)%N;
  n_vrec : forall T v Hv, g_vrec g n T = Some (v, Hv) ->
    (T <= ms_term s)%N /\ (T = ms_term s -> ms_vote s = v) /\ v <> 0%N /\ honest (g_ll g) Hv /\
    exists L, g_cand g v T = Some L /\ last_le Hv L;
  n_vote : ms_vote s <> 0%N -> exists Hv, g_vrec g n (ms_term s) = Some (ms_vote s, Hv);
  n_ack : forall T i, (0 < i <= g_ack g n T)%N -> tm (g_ll g T) i = Some T ->
    (T <= ms_term s)%N /\
    (pre i (g_ll g T) `prefix_of` g_H g n \/
     exists T', (T < T' <= ms_term s)%N /\ g_led g T' <> None /\ ~ pre i (g_ll g T) `prefix_of` g_init g T');
  n_ackvote : forall T i T1 v Hv, (0 < i <= g_ack g n T)%N -> tm (g_ll g T) i = Some T ->
    g_vrec g n T1 = Some (v, Hv) -> (T < T1)%N ->
    pre i (g_ll g T) `prefix_of` Hv \/
    (exists T', (T < T' < T1)%N /\ g_led g T' <> None /\ ~ pre i (g_ll g T) `prefix_of` g_init g T') \/
    ((n ∉ g_vq g T1) /\ g_led g T1 <> None);
  n_commit : (ms_snapIdx s <= c <= cm)%N;
  n_cpre : cpre g (ms_term s) cm (g_G g n);
}.

Definition lead_ok (g : ghost) (n : NodeID) (a : anode) : Prop :=
  a_role a = Leader ->
  g_led g (a_term a) = Some n /\ g_ll g (a_term a) = g_G g n ++ a_pend a /\ g_H g n = g_G g n /\
  (forall v, respok g v (a_term a) (a_match a v)) /\
  (forall i t, (i, t) ∈ a_out a -> snap_ok g (a_term a) i t).

Definition cand_ok (g : ghost) (n : NodeID) (a : anode) : Prop :=
  a_role a = Candidate ->
  a_vote a = n /\ g_led g (a_term a) <> Some n /\ g_cand g n (a_term a) = Some (g_H g n) /\
  Forall (fun e => (e_Term e < a_term a)%N) (g_H g n) /\
  (forall v, v ∈ a_votes a -> v ∈ peers /\ exists Hv, g_vrec g v (a_term a) = Some (n, Hv)).

Record node_ok (g : ghost) (n : NodeID) (a : anode) : Prop := {
  n_base : base_ok g n (a_mem a) (a_commit a) (a_cmax a);
  n_lead : lead_ok g n a;
  n_cand : cand_ok g n a;
}.

Definition msg_ok (g : ghost) (m : Message) : Prop :=
  m_From m ∈ peers /\ m_From m <> 0%N /\
  match m_Type m with
  | MsgVote => exists L, g_cand g (m_From m) (m_Term m) = Some L /\ m_Index m = len L /\
                 m_LogTerm m = last_term L
  | MsgVoteResp => m_Reject m = false -> exists Hv, g_vrec g (m_From m) (m_Term m) = Some (m_To m, Hv)
  | MsgApp => g_led g (m_Term m) <> None /\ tm (g_ll g (m_Term m)) (m_Index m) = Some (m_LogTerm m) /\
      m_Entries m `prefix_of` drop (N.to_nat (m_Index m)) (g_ll g (m_Term m)) /\
      ccom g (m_Term m) (m_Commit m)
  | MsgAppResp => m_Reject m = false -> respok g (m_From m) (m_Term m) (m_Index m)
  | MsgSnap => snap_ok g (m_Term m) (m_Index m) (m_LogTerm m)
  | MsgSnapResp => m_Done m = true -> respok g (m_From m) (m_Term m) (m_Index m)
  | MsgOther _ => True
  end.

Record inv (g : ghost) (w : world) : Prop := {
  i_ghost : ghost_ok g;
  i_node : forall n, node_ok g n (w_node w n);
  i_msgs : forall m, m ∈ w_msgs w -> msg_ok g m;
}.

(** ** History only grows *)

Record gle (g g' : ghost) : Prop := {
  gle_ll : forall T, g_ll g T `prefix_of` g_ll g' T;
  gle_led : forall T c, g_led g T = Some c ->
    g_led g' T = Some c /\ g_init g' T = g_init g T /\ g_vq g' T = g_vq g T;
  gle_cand : forall c T L, g_cand g c T = Some L -> g_cand g' c T = Some L;
  gle_vrec : forall v T x, g_vrec g v T = Some x -> g_vrec g' v T = Some x;
  gle_ack : forall v T, (g_ack g v T <= g_ack g' v T)%N;
}.

Lemma gle_refl g : gle g g.
Proof. constructor; done. Qed.

Lemma gle_trans g1 g2 g3 : gle g1 g2 -> gle g2 g3 -> gle g1 g3.
Proof.
  intros H1 H2. constructor.
  - intros T. etrans; [apply H1|apply H2].
  - intros T c Hc. destruct (gle_led _ _ H1 T c Hc) as (Hc' & <- & <-). by apply H2.
  - intros c T L HL. by apply H2, H1.
  - intros v T x Hx. by apply H2, H1.
  - intros v T. etrans; [apply H1|apply H2].
Qed.

Lemma gle_some g g' T : gle g g' -> g_led g T <> None -> g_led g' T <> None.
Proof.
  intros Hle H. destruct (g_led g T) as [c|] eqn:E; [|done].
  destruct (gle_led _ _ Hle T c E) as (-> & _). done.
Qed.

Lemma gle_tm g g' T i t : gle g g' -> tm (g_ll g T) i = Some t -> tm (g_ll g' T) i = Some t.
Proof. intros Hle. apply tm_prefix, Hle. Qed.

Lemma gle_pre g g' T i : gle g g' -> (i <= len (g_ll g T))%N -> pre i (g_ll g' T) = pre i (g_ll g T).
Proof. intros Hle. apply pre_of_prefix, Hle. Qed.

Lemma gle_honest g g' L : gle g g' -> honest (g_ll g) L -> honest (g_ll g') L.
Proof. intros Hle H i e He. etrans; [by apply H|apply Hle]. Qed.

Lemma gle_cquorum g g' T i : gle g g' -> cquorum g T i -> cquorum g' T i.
Proof.
  intros Hle (H1 & H2 & Q & HQ & Hv). split; [done|]. split; [by eapply gle_tm|].
  exists Q. split; [done|]. intros v Hin. etrans; [by apply Hv|apply Hle].
Qed.

Lemma gle_cmtd g g' T i : gle g g' -> cmtd g T i -> cmtd g' T i.
Proof. intros Hle (ic & ? & ?). exists ic. eauto using gle_cquorum. Qed.

Lemma gle_ccom g g' T i : gle g g' -> ccom g T i -> ccom g' T i.
Proof. intros Hle [?|(Tc & ? & ?)]; [by left|right; eauto using gle_cmtd]. Qed.

Lemma cmtd_len g T i : cmtd g T i -> (i <= len (g_ll g T))%N.
Proof. intros (ic & ? & _ & ?%tm_len & _). lia. Qed.

Lemma gle_cpre g g' T i L : gle g g' -> cpre g T i L -> cpre g' T i L.
Proof.
  intros Hle [Hi [?|(Tc & H1 & H2 & H3)]]; (split; [done|]); [by left|right].
  exists Tc. split_and!; eauto using gle_cmtd. by rewrite (gle_pre g g') by eauto using cmtd_len.
Qed.

Lemma gle_respok g g' v T i : gle g g' -> respok g v T i -> respok g' v T i.
Proof. intros Hle [?|?]; [left; eauto using gle_ccom|right]. etrans; [done|apply Hle]. Qed.

Lemma cpre_prefix g T i L L' : cpre g T i L -> L `prefix_of` L' -> cpre g T i L'.
Proof.
  intros [Hi Hc] Hp. split.
  - apply prefix_length in Hp. unfold len in *. lia.
  - destruct Hc as [?|(Tc & ? & ? & ?)]; [by left|right]. exists Tc. split_and!; try done.
    by rewrite (pre_of_prefix i L L').
Qed.

Lemma cpre_term g T T' i L : (T <= T')%N -> cpre g T i L -> cpre g T' i L.
Proof. intros HT [Hi [?|(Tc & ? & ?)]]; (split; [done|]); [by left|right]. exists Tc. split; [lia|done]. Qed.

Lemma gle_snap_ok g g' T i t : gle g g' -> snap_ok g T i t -> snap_ok g' T i t.
Proof.
  intros Hle (H1 & H2 & H3). split_and!; eauto using gle_some, gle_tm.
  eapply cpre_prefix; [by eapply gle_cpre|apply Hle].
Qed.

Lemma gle_msg_ok g g' m : gle g g' -> msg_ok g m -> msg_ok g' m.
Proof.
  intros Hle (H1 & H0 & H2). split; [done|]. split; [done|]. destruct (m_Type m).
  - destruct H2 as (L & ? & ?). exists L. split; [|done]. by eapply gle_cand.
  - intros Hr. destruct (H2 Hr) as (Hv & ?). exists Hv. by eapply gle_vrec.
  - destruct H2 as (? & ? & He & ?). split_and!; eauto using gle_some, gle_tm, gle_ccom.
    destruct (gle_ll _ _ Hle (m_Term m)) as [k ->]. etrans; [exact He|].
    rewrite drop_app. by eexists.
  - eauto using gle_respok.
  - eauto using gle_snap_ok.
  - eauto using gle_respok.
  - done.
Qed.

(** ** Consistent logs *)

Lemma honest_nil ll : honest ll [].
Proof. intros i e H. by rewrite lookup_nil in H. Qed.

Lemma honest_last ll L : honest ll L -> L <> [] -> L `prefix_of` ll (last_term L).
Proof.
  intros HL Hne. unfold last_term. destruct L as [|x L _] using rev_ind; [done|].
  rewrite last_snoc. simpl. specialize (HL (length L) x).
  rewrite lookup_app_r, Nat.sub_diag in HL by lia. specialize (HL eq_refl).
  rewrite firstn_all2 in HL by (rewrite length_app; simpl; lia). done.
Qed.

Lemma honest_prefix ll L L' : honest ll L -> L' `prefix_of` L -> honest ll L'.
Proof.
  intros HL Hp i e He. pose proof (prefix_lookup_Some _ _ _ _ He Hp) as He'.
  specialize (HL i e He'). etrans; [|exact HL].
  destruct Hp as [k ->]. rewrite take_app_le by (apply lookup_lt_Some in He; lia). done.
Qed.

Lemma tm_lookup L i t : (0 < i)%N -> tm L i = Some t ->
  exists e, L !! N.to_nat (i - 1) = Some e /\ e_Term e = t.
Proof.
  unfold tm. intros Hi. destruct (N.eqb_spec i 0); [lia|].
  intros (e & He & ->)%fmap_Some. eauto.
Qed.

Lemma honest_pre ll L i t : honest ll L -> (0 < i)%N -> tm L i = Some t -> pre i L `prefix_of` ll t.
Proof.
  intros HL Hi Ht. destruct (tm_lookup L i t Hi Ht) as (e & He & <-). apply HL in He.
  unfold pre. replace (N.to_nat i) with (S (N.to_nat (i - 1))) by lia. done.
Qed.

(** Log matching: two consistent logs with the same term at an index agree
    up to there. *)
Lemma honest_match ll L1 L2 i t :
  honest ll L1 -> honest ll L2 -> tm L1 i = Some t -> tm L2 i = Some t -> pre i L1 = pre i L2.
Proof.
  intros H1 H2 Ht1 Ht2. destruct (decide (i = 0%N)) as [->|Hi]; [done|].
  pose proof (tm_len _ _ _ Ht1). pose proof (tm_len _ _ _ Ht2).
  apply (honest_pre ll _ i) in Ht1; [|done|lia]. apply (honest_pre ll _ i) in Ht2; [|done|lia].
  apply pre_prefix_le in Ht1; [|done]. apply pre_prefix_le in Ht2; [|done]. congruence.
Qed.

Lemma honest_term_ge g L T i :
  ghost_ok g -> honest (g_ll g) L -> pre i (g_ll g T) `prefix_of` L -> (0 < i)%N ->
  tm (g_ll g T) i = Some T -> (T <= last_term L)%N /\ (i <= len L)%N.
Proof.
  intros Hg HL Hp Hi Ht.
  assert (tm L i = Some T) as HtL.
  { eapply tm_prefix; [exact Hp|]. rewrite tm_pre by lia. done. }
  split; [|by eapply tm_len].
  destruct (tm_lookup L i T Hi HtL) as (e & He & <-).
  assert (L <> []) as Hne by (intros ->; by rewrite lookup_nil in He).
  pose proof (prefix_lookup_Some _ _ _ _ He (honest_last _ _ HL Hne)) as He'.
  pose proof (gh_terms g Hg (last_term L)) as Hf. rewrite Forall_lookup in Hf. apply Hf in He'. lia.
Qed.

Lemma prefix_both_le (l1 l2 l : list Entry) :
  l1 `prefix_of` l -> l2 `prefix_of` l -> (len l1 <= len l2)%N -> l1 `prefix_of` l2.
Proof.
  intros H1 H2 Hl. destruct (prefix_weak_total _ _ _ H1 H2) as [|H]; [done|].
  rewrite (prefix_length_eq _ _ H); [done|]. unfold len in Hl. lia.
Qed.

Lemma quorum_inter Q1 Q2 : NoDup peers -> is_quorum Q1 -> is_quorum Q2 -> exists v, v ∈ Q1 /\ v ∈ Q2.
Proof.
  intros Hnd [H1 Hs1] [H2 Hs2].
  destruct (decide (Q1 ∩ Q2 = ∅)) as [He|Hne].
  - exfalso. pose proof (size_union_alt Q1 Q2) as Hu.
    assert (size (Q1 ∪ Q2) <= length peers) as Hle.
    { rewrite <-(size_list_to_set (C:=gset N) peers Hnd). apply subseteq_size. set_solver. }
    assert (Q2 ∖ Q1 = Q2) as Hd by set_solver. rewrite Hd in Hu.
    pose proof (Nat.div_mod_eq (length peers) 2). pose proof (Nat.mod_upper_bound (length peers) 2). lia.
  - apply set_choose_L in Hne as [v Hv]. exists v. set_solver.
Qed.

(** ** Leader completeness *)

(** A log that wins an election holds everything committed before: it is at
    least as up to date as a voter that stored the entry. *)
Lemma winner g T ic T1 L V c :
  ghost_ok g -> NoDup peers -> cquorum g T ic -> (T < T1)%N ->
  (forall T', (T < T' < T1)%N -> g_led g T' <> None -> pre ic (g_ll g T) `prefix_of` g_init g T') ->
  is_quorum V -> honest (g_ll g) L -> Forall (fun e => (e_Term e < T1)%N) L ->
  (forall v, v ∈ V -> exists s c' cm Hv, base_ok g v s c' cm /\ g_vrec g v T1 = Some (c, Hv) /\ last_le Hv L /\
     ~ ((v ∉ g_vq g T1) /\ g_led g T1 <> None)) ->
  pre ic (g_ll g T) `prefix_of` L.
Proof.
  intros Hg Hnd (Hic & Htm & Q & HQ & Hack) HT IH HV HL Hlt Hvs.
  destruct (quorum_inter Q V Hnd HQ HV) as (v & HvQ & HvV).
  destruct (Hvs v HvV) as (s & c' & cm & Hv & Hok & Hrec & Hle & Hnot).
  destruct (n_ackvote _ _ _ _ _ Hok T ic T1 c Hv (conj Hic (Hack v HvQ)) Htm Hrec HT)
    as [Hpre|[(T' & HT' & Hled & Hno)|?]]; [|by destruct Hno; apply IH|done].
  destruct (n_vrec _ _ _ _ _ Hok _ _ _ Hrec) as (_ & _ & _ & HhonV & _).
  destruct (honest_term_ge g Hv T ic Hg HhonV Hpre Hic Htm) as [HgeV HlenV].
  assert (L <> []) as Hne.
  { intros ->. destruct Hle as [Hl|[Hl Hl']]; [unfold last_term in Hl; simpl in Hl; lia|].
    unfold len in Hl', HlenV. simpl in Hl'. lia. }
  pose proof (honest_last _ _ HL Hne) as HLpre.
  assert (len (pre ic (g_ll g T)) = ic) as Hlenpre by (apply len_pre; by eapply tm_len).
  destruct (N.eq_dec (last_term L) T) as [Heq|Hneq].
  - (* both end in term T, where logs are prefixes of one another *)
    destruct Hle as [Hl|[_ Hlen]]; [lia|]. rewrite Heq in HLpre.
    apply (prefix_both_le _ _ (g_ll g T)); [apply pre_prefix|done|]. lia.
  - assert (T < last_term L)%N as HTL by (destruct Hle as [|[? _]]; lia).
    assert (last_term L < T1)%N as HLT1.
    { destruct L as [|x L' _] using rev_ind; [done|]. unfold last_term. rewrite last_snoc. simpl.
      rewrite Forall_app, Forall_singleton in Hlt. apply Hlt. }
    destruct (g_led g (last_term L)) as [c2|] eqn:Eled.
    2:{ rewrite (gh_none g Hg _ Eled) in HLpre. by apply prefix_nil_inv in HLpre. }
    assert (pre ic (g_ll g T) `prefix_of` g_init g (last_term L)) as Hinit
      by (apply IH; [lia|by rewrite Eled]).
    destruct (gh_init g Hg _ _ Eled) as [(ext & Hext & _) Hold].
    assert (g_init g (last_term L) `prefix_of` g_ll g (last_term L)) as Hil by (rewrite Hext; by eexists).
    etrans; [exact Hinit|]. apply (prefix_both_le _ _ (g_ll g (last_term L))); [done|done|].
    destruct (N.le_gt_cases (len (g_init g (last_term L))) (len L)) as [|Hgt]; [done|].
    (* otherwise the last entry of L, of that very term, is in the initial log *)
    exfalso. assert (L `prefix_of` g_init g (last_term L)) as HLi
      by (apply (prefix_both_le _ _ (g_ll g (last_term L))); [done|done|lia]).
    destruct L as [|x L' _] using rev_ind; [done|]. unfold last_term in *. rewrite last_snoc in *. simpl in *.
    rewrite Forall_lookup in Hold. eapply N.lt_irrefl, (Hold (length L')).
    eapply prefix_lookup_Some; [|exact HLi]. by rewrite lookup_app_r, Nat.sub_diag by lia.
Qed.

Context (Hnodup : NoDup peers).

Lemma leader_complete g w T i T1 :
  inv g w -> cmtd g T i -> (T < T1)%N -> g_led g T1 <> None -> pre i (g_ll g T) `prefix_of` g_init g T1.
Proof.
  intros [Hg Hn _] (ic & Hi & Hc).
  assert (pre i (g_ll g T) `prefix_of` pre ic (g_ll g T)) as Hii
    by (rewrite <-(pre_pre i ic) by done; apply pre_prefix).
  intros HT Hled. etrans; [exact Hii|]. clear Hii. revert HT Hled.
  induction T1 as [T1 IH] using (well_founded_induction N.lt_wf_0). intros HT Hled.
  destruct (g_led g T1) as [c|] eqn:Eled; [|done].
  destruct (gh_led g Hg T1 c Eled) as (_ & HV & Hvs).
  destruct (gh_init g Hg T1 c Eled) as [(ext & Hext & _) Hlt].
  eapply (winner g T ic T1 (g_init g T1) (g_vq g T1) c); eauto.
  - intros T' HT' Hled'. apply IH; [lia|lia|done].
  - eapply honest_prefix; [apply (gh_honest g Hg T1)|]. rewrite Hext. by eexists.
  - intros v Hv. destruct (Hvs v Hv) as (Hv' & Hrec & Hle).
    eexists _, _, _, Hv'. split_and!; [apply (Hn v)|done|done|by intros [? _]].
Qed.

Lemma init_prefix g T : ghost_ok g -> g_led g T <> None -> g_init g T `prefix_of` g_ll g T.
Proof.
  intros Hg H. destruct (g_led g T) as [c|] eqn:E; [|done].
  destruct (gh_init g Hg T c E) as [(ext & -> & _) _]. by eexists.
Qed.

(** A later leader's log agrees with everything committed so far. *)
Lemma cpre_leader g w T i L T1 :
  inv g w -> cpre g T i L -> (T <= T1)%N -> g_led g T1 <> None ->
  (i <= len (g_ll g T1))%N /\ pre i L = pre i (g_ll g T1).
Proof.
  intros Hinv [Hi [->|(Tc & HTc & Hc & Heq)]] HT Hled; [split; [lia|done]|].
  destruct (N.eq_dec Tc T1) as [->|Hne]; [split; [by apply (cmtd_len g)|done]|].
  assert (pre i (g_ll g Tc) `prefix_of` g_ll g T1) as Hp.
  { etrans; [eapply leader_complete; eauto; lia|]. apply init_prefix; [apply Hinv|done]. }
  pose proof (cmtd_len _ _ _ Hc) as Hl.
  split.
  - apply prefix_length in Hp. pose proof (len_pre i (g_ll g Tc) Hl). unfold len in *. lia.
  - rewrite Heq. symmetry. by apply pre_prefix_le.
Qed.

Lemma ccom_cpre g T i : ghost_ok g -> ccom g T i -> i = 0%N \/
  exists Tc, (Tc <= T)%N /\ cmtd g Tc i /\ cpre g T i (g_ll g Tc).
Proof.
  intros Hg [->|(Tc & HT & Hc)]; [by left|right]. exists Tc. split_and!; try done.
  split; [by apply cmtd_len|]. right. eauto.
Qed.

Lemma ccom_leader g w T i T1 :
  inv g w -> ccom g T i -> (T <= T1)%N -> g_led g T1 <> None -> cpre g T1 i (g_ll g T1).
Proof.
  intros Hinv Hc HT Hled. destruct (ccom_cpre g T i (i_ghost _ _ Hinv) Hc) as [->|(Tc & ? & ? & Hp)].
  - split; [lia|by left].
  - destruct (cpre_leader g w T i _ T1 Hinv Hp HT Hled) as [Hl Heq]. split; [done|].
    right. exists Tc. split_and!; [lia|done|done].
Qed.

(** ** Nodes that do not move *)

(** The part of the history that belongs to a node. *)
Record same_node (g g' : ghost) (n : NodeID) : Prop := {
  sn_G : g_G g' n = g_G g n;
  sn_H : g_H g' n = g_H g n;
  sn_cand : forall T, g_cand g' n T = g_cand g n T;
  sn_vrec : forall T, g_vrec g' n T = g_vrec g n T;
  sn_ack : forall T, g_ack g' n T = g_ack g n T;
  sn_led : forall T, g_led g' T = Some n -> g_led g T = Some n;
  sn_ll : forall T, g_led g T = Some n -> g_ll g' T = g_ll g T;
}.

Lemma same_node_refl g n : same_node g g n.
Proof. constructor; done. Qed.

Lemma ack_len g n T i : ghost_ok g -> (0 < i <= g_ack g n T)%N -> (i <= len (g_ll g T))%N.
Proof. intros Hg Hi. destruct (gh_ack g Hg n T); lia. Qed.

Lemma tm_stable g g' T i : gle g g' -> (i <= len (g_ll g T))%N -> tm (g_ll g' T) i = tm (g_ll g T) i.
Proof.
  intros Hle Hi. destruct (tm_is_Some _ _ Hi) as [t Ht]. rewrite Ht. by eapply gle_tm.
Qed.

(** What an acknowledgement promises survives the growth of the history. *)
Lemma n_ack_grow g g' n (T i T2 : N) L :
  gle g g' -> ghost_ok g -> (0 < i <= g_ack g n T)%N ->
  (pre i (g_ll g T) `prefix_of` L \/
   exists T', (T < T' <= T2)%N /\ g_led g T' <> None /\ ~ pre i (g_ll g T) `prefix_of` g_init g T') ->
  (pre i (g_ll g' T) `prefix_of` L \/
   exists T', (T < T' <= T2)%N /\ g_led g' T' <> None /\ ~ pre i (g_ll g' T) `prefix_of` g_init g' T').
Proof.
  intros Hle Hg Hi. rewrite (gle_pre g g') by (done || by eapply ack_len).
  intros [?|(T' & ? & Hled & ?)]; [by left|right]. exists T'.
  destruct (g_led g T') as [c|] eqn:E; [|done].
  destruct (gle_led _ _ Hle T' c E) as (-> & -> & _). done.
Qed.

Lemma n_ackvote_grow g g' n (T i T1 : N) Hv :
  gle g g' -> ghost_ok g -> (0 < i <= g_ack g n T)%N ->
  (pre i (g_ll g T) `prefix_of` Hv \/
   (exists T', (T < T' < T1)%N /\ g_led g T' <> None /\ ~ pre i (g_ll g T) `prefix_of` g_init g T') \/
   ((n ∉ g_vq g T1) /\ g_led g T1 <> None)) ->
  (pre i (g_ll g' T) `prefix_of` Hv \/
   (exists T', (T < T' < T1)%N /\ g_led g' T' <> None /\ ~ pre i (g_ll g' T) `prefix_of` g_init g' T') \/
   ((n ∉ g_vq g' T1) /\ g_led g' T1 <> None)).
Proof.
  intros Hle Hg Hi. rewrite (gle_pre g g') by (done || by eapply ack_len).
  intros [?|[(T' & ? & Hled & ?)|[? Hled]]]; [by left|right; left|right; right].
  - exists T'. destruct (g_led g T') as [c|] eqn:E; [|done].
    destruct (gle_led _ _ Hle T' c E) as (-> & -> & _). done.
  - destruct (g_led g T1) as [c|] eqn:E; [|done].
    destruct (gle_led _ _ Hle T1 c E) as (-> & _ & ->). done.
Qed.

Lemma base_ok_grow g g' n s c cm :
  gle g g' -> ghost_ok g ->
  g_G g' n = g_G g n -> g_H g' n = g_H g n ->
  (forall T, g_cand g' n T = g_cand g n T) -> (forall T, g_vrec g' n T = g_vrec g n T) ->
  (forall T, g_ack g' n T = g_ack g n T) -> (forall T, g_led g' T = Some n -> (T <= ms_term s)%N) ->
  base_ok g n s c cm -> base_ok g' n s c cm.
Proof.
  intros Hle Hg HG HH Hca Hvr Hak Hld Hok.
  constructor; rewrite ?HG, ?HH; try apply Hok; [..|done| | | | | |].
  - eapply gle_honest, Hok. done.
  - intros T L. rewrite Hca. by apply Hok.
  - intros T v Hv. rewrite Hvr. intros Hr.
    destruct (n_vrec _ _ _ _ _ Hok _ _ _ Hr) as (? & ? & ? & ? & L & ? & ?).
    split_and!; eauto using gle_honest. exists L. split; [|done]. by eapply gle_cand.
  - rewrite Hvr. apply Hok.
  - intros T i. rewrite Hak. intros Hi Ht.
    rewrite (tm_stable g g') in Ht by (done || by eapply ack_len).
    destruct (n_ack _ _ _ _ _ Hok T i Hi Ht) as [? Hd]. split; [done|].
    by eapply n_ack_grow.
  - intros T i T1 v Hv. rewrite Hak, Hvr. intros Hi Ht Hr HT.
    rewrite (tm_stable g g') in Ht by (done || by eapply ack_len).
    eapply n_ackvote_grow, n_ackvote; eauto.
  - eapply gle_cpre, Hok. done.
Qed.

Lemma node_ok_other g g' n a :
  gle g g' -> ghost_ok g -> same_node g g' n -> node_ok g n a -> node_ok g' n a.
Proof.
  intros Hle Hg [HG HH Hca Hvr Hak Hld Hll] [Hb Hl Hc]. constructor.
  - eapply base_ok_grow; eauto. intros T HT. eapply n_led; [exact Hb|]. by apply Hld.
  - intros Hr. destruct (Hl Hr) as (Hl' & Hlog & HHG & Hm & Ho).
    rewrite (Hll _ Hl'), HG, HH. split_and!; try done.
    + by eapply gle_led.
    + intros v. eapply gle_respok; eauto.
    + intros i t Hit. eapply gle_snap_ok; eauto.
  - intros Hr. destruct (Hc Hr) as (Hv & Hl' & Hc' & Hlt & Hvs).
    rewrite Hca, HH. split_and!; try done.
    + intros Hl2. by apply Hl', Hld.
    + intros v Hin. destruct (Hvs v Hin) as (? & Hv' & ?). split; [done|]. exists Hv'. by eapply gle_vrec.
Qed.

(** One node moves: everything else follows. *)
Lemma inv_move g g' w n a' msgs :
  inv g w -> gle g g' -> ghost_ok g' -> node_ok g' n a' ->
  (forall n', n' <> n -> same_node g g' n') -> (forall m, m ∈ msgs -> msg_ok g' m) ->
  inv g' (mkWorld (<[n := a']> (w_node w)) (msgs ++ w_msgs w)).
Proof.
  intros Hinv Hle Hg' Hn Hsame Hm. constructor; simpl; [done|..].
  - intros n'. destruct (decide (n' = n)) as [->|Hne].
    + by rewrite fn_lookup_insert.
    + rewrite fn_lookup_insert_ne by done.
      eapply node_ok_other; [exact Hle|apply Hinv|by apply Hsame|apply Hinv].
  - intros m [?|Hin]%elem_of_app; [by apply Hm|]. eapply gle_msg_ok; [done|]. by apply Hinv.
Qed.
End Invariant.
