(* ===== verification/Preserve.v ===== *)
(** * The protocol's invariant is preserved

    One lemma per kind of step; [step_inv] puts them together. *)

From stdpp Require Import base list gmap functions.
From S2P Require Import Prelude LogStore Raft Protocol Safety.

Lemma Forall_pre {A} (P : A -> Prop) L1 L2 : L1 `prefix_of` L2 -> Forall P L2 -> Forall P L1.
Proof. intros [k ->] [H _]%Forall_app. done. Qed.

(** ** Updating the history *)

Definition upd2 {V} (f : NodeID -> N -> V) (n : NodeID) (T : N) (x : V) : NodeID -> N -> V :=
  fun n' T' => if decide (n' = n /\ T' = T) then x else f n' T'.

Lemma upd2_eq {V} (f : NodeID -> N -> V) n T x : upd2 f n T x n T = x.
Proof. unfold upd2. by rewrite decide_True. Qed.
Lemma upd2_ne {V} (f : NodeID -> N -> V) n T x n' T' : n' <> n \/ T' <> T -> upd2 f n T x n' T' = f n' T'.
Proof. intros H. unfold upd2. rewrite decide_False; [done|]. intros [-> ->]. by destruct H. Qed.

Definition g_set_vrec (g : ghost) (n : NodeID) (T : N) (x : NodeID * list Entry) : ghost :=
  mkGhost (g_ll g) (g_init g) (g_led g) (g_vq g) (g_G g) (g_H g) (g_cand g)
    (upd2 (g_vrec g) n T (Some x)) (g_ack g).
Definition g_set_cand (g : ghost) (n : NodeID) (T : N) (L : list Entry) : ghost :=
  mkGhost (g_ll g) (g_init g) (g_led g) (g_vq g) (g_G g) (g_H g)
    (upd2 (g_cand g) n T (Some L)) (g_vrec g) (g_ack g).
Definition g_set_ack (g : ghost) (n : NodeID) (T i : N) : ghost :=
  mkGhost (g_ll g) (g_init g) (g_led g) (g_vq g) (g_G g) (g_H g) (g_cand g) (g_vrec g)
    (upd2 (g_ack g) n T (N.max (g_ack g n T) i)).
Definition g_set_log (g : ghost) (n : NodeID) (G H : list Entry) : ghost :=
  mkGhost (g_ll g) (g_init g) (g_led g) (g_vq g) (<[n := G]> (g_G g)) (<[n := H]> (g_H g))
    (g_cand g) (g_vrec g) (g_ack g).
Definition g_set_ll (g : ghost) (T : N) (L : list Entry) : ghost :=
  mkGhost (<[T := L]> (g_ll g)) (g_init g) (g_led g) (g_vq g) (g_G g) (g_H g)
    (g_cand g) (g_vrec g) (g_ack g).
Definition g_elect (g : ghost) (T : N) (n : NodeID) (V : gset NodeID) (L : list Entry) : ghost :=
  mkGhost (<[T := L]> (g_ll g)) (<[T := L]> (g_init g)) (<[T := Some n]> (g_led g)) (<[T := V]> (g_vq g))
    (g_G g) (g_H g) (g_cand g) (g_vrec g) (g_ack g).

Lemma gle_set_vrec g n T x : g_vrec g n T = None -> gle g (g_set_vrec g n T x).
Proof.
  intros H. constructor; simpl; try done. intros v T' y Hy. rewrite upd2_ne; [done|].
  destruct (decide (v = n)) as [->|]; [|by left]. right. congruence.
Qed.

Lemma gle_set_cand g n T L : g_cand g n T = None -> gle g (g_set_cand g n T L).
Proof.
  intros H. constructor; simpl; try done. intros v T' y Hy. rewrite upd2_ne; [done|].
  destruct (decide (v = n)) as [->|]; [|by left]. right. congruence.
Qed.

Lemma gle_set_ack g n T i : gle g (g_set_ack g n T i).
Proof.
  constructor; simpl; try done. intros v T'. unfold upd2. case_decide as Hd; [|done].
  destruct Hd as [-> ->]. lia.
Qed.

Section Preserve.
Context (peers : list NodeID) (Hnodup : NoDup peers).

#[local] Abbreviation inv := (inv peers).
#[local] Abbreviation ghost_ok := (ghost_ok peers).
#[local] Abbreviation node_ok := (node_ok peers).
#[local] Abbreviation base_ok := (base_ok peers).
#[local] Abbreviation msg_ok := (msg_ok peers).
#[local] Abbreviation cpre := (cpre peers).
#[local] Abbreviation cmtd := (cmtd peers).
#[local] Abbreviation ccom := (ccom peers).
#[local] Abbreviation snap_ok := (snap_ok peers).
#[local] Abbreviation respok := (respok peers).

(** The state after node [n] moved to [a] and sent [msgs]. *)
Definition moved (w : world) (n : NodeID) (a : anode) (msgs : list Message) : world :=
  mkWorld (<[n := a]> (w_node w)) (msgs ++ w_msgs w).

(** The invariant holds again, with a history that extends the old one. *)
Definition preserved (g : ghost) (w : world) : Prop := exists g', gle g g' /\ inv g' w.

(** A step that adds nothing to the history. *)
Lemma preserved_same g w n a msgs :
  inv g w -> node_ok g n a -> (forall m, m ∈ msgs -> msg_ok g m) -> preserved g (moved w n a msgs).
Proof.
  intros Hinv Hn Hm. exists g. split; [apply gle_refl|].
  eapply inv_move; eauto using gle_refl, same_node_refl. apply Hinv.
Qed.

Lemma no_msgs g : forall m, m ∈ [] -> msg_ok g m.
Proof. intros m H. by apply not_elem_of_nil in H. Qed.
#[local] Hint Resolve no_msgs : core.

(** ** Facts about one node *)

Lemma cpre_le g T i j L : cpre g T j L -> (i <= j)%N -> cpre g T i L.
Proof.
  intros [Hj Hc] Hij. split; [lia|]. destruct Hc as [->|(Tc & HT & (ic & ? & Hq) & Heq)]; [left; lia|].
  right. exists Tc. split_and!; [done|exists ic; split; [lia|done]|].
  by rewrite <-(pre_pre i j L), <-(pre_pre i j (g_ll g Tc)), Heq by done.
Qed.

Lemma cpre_ccom g T i L : cpre g T i L -> ccom g T i.
Proof. intros [_ [->|(Tc & ? & ? & _)]]; [by left|right]. eauto. Qed.

(** The base facts of a node survive a higher term without a vote. *)
Lemma base_ok_term g n s c cm t :
  base_ok g n s c cm -> (ms_term s < t)%N -> base_ok g n (set_st t 0 s) c cm.
Proof.
  intros [] Ht. constructor; simpl; auto.
  - eapply Forall_impl; [done|]. simpl. lia.
  - intros T HT. apply n_led in HT. lia.
  - intros T L HT. apply n_candT in HT. lia.
  - intros T v Hv Hr. destruct (n_vrec _ _ _ Hr) as (? & ? & ? & ? & ?).
    split_and!; auto; lia.
  - intros ?. done.
  - intros T i Hi Htm. destruct (n_ack T i Hi Htm) as [? [?|(T' & ? & ?)]]; (split; [lia|]); [by left|right].
    exists T'. split; [lia|done].
  - eapply cpre_term; [|done]. lia.
Qed.

Lemma base_ok_commit g n s c cm c' :
  base_ok g n s c cm -> (ms_snapIdx s <= c' <= cm)%N -> base_ok g n s c' cm.
Proof. intros [] Hc. constructor; auto. Qed.

(** Below the snapshot both ghost logs may differ, above it they agree. *)
Lemma tm_H g n s c cm i :
  base_ok g n s c cm -> (ms_snapIdx s < i)%N -> tm (g_H g n) i = tm (g_G g n) i.
Proof.
  intros Hb Hi. unfold tm. destruct (N.eqb_spec i 0); [lia|]. f_equal.
  pose proof (n_tail _ _ _ _ _ _ Hb) as Ht.
  apply (f_equal (.!! N.to_nat (i - 1 - ms_snapIdx s))) in Ht. rewrite !lookup_drop in Ht.
  replace (N.to_nat (ms_snapIdx s) + N.to_nat (i - 1 - ms_snapIdx s)) with (N.to_nat (i - 1)) in Ht by lia.
  done.
Qed.

Lemma len_H g n s c cm : base_ok g n s c cm -> len (g_H g n) = len (g_G g n).
Proof. intros Hb. unfold len. by rewrite (n_len _ _ _ _ _ _ Hb). Qed.

Lemma last_H g n s c cm : base_ok g n s c cm -> last_term (g_H g n) = last_term (g_G g n).
Proof.
  intros Hb. pose proof (n_rel _ _ _ _ _ _ Hb) as [Hle _].
  destruct (N.eq_dec (ms_snapIdx s) (len (g_G g n))) as [He|Hne].
  - by rewrite (n_clean _ _ _ _ _ _ Hb He).
  - pose proof (last_term_tm (g_H g n)) as H1. pose proof (last_term_tm (g_G g n)) as H2.
    rewrite (len_H _ _ _ _ _ Hb), (tm_H g n s c cm) in H1 by (done || lia). congruence.
Qed.

(** A log that shares the committed prefix and the entries above it. *)
Lemma G_from_H g n s c cm L i :
  base_ok g n s c cm -> (ms_snapIdx s <= i)%N -> pre (ms_snapIdx s) (g_G g n) = pre (ms_snapIdx s) L ->
  pre i (g_H g n) = pre i L -> pre i (g_G g n) = pre i L.
Proof.
  intros Hb Hi Hp HH. unfold pre in *.
  rewrite <-(take_drop (N.to_nat (ms_snapIdx s)) (take (N.to_nat i) (g_G g n))).
  rewrite <-(take_drop (N.to_nat (ms_snapIdx s)) (take (N.to_nat i) L)).
  rewrite !take_take, Nat.min_l, Hp, <-HH by lia. f_equal.
  rewrite !skipn_firstn_comm. by rewrite (n_tail _ _ _ _ _ _ Hb).
Qed.

(** Matching the leader's term at an index means matching its log up to there. *)
Lemma agree g w n s c cm i t :
  inv g w -> base_ok g n s c cm -> g_led g (ms_term s) <> None ->
  mem_Term i s = Ret t -> tm (g_ll g (ms_term s)) i = Some t ->
  (i <= len (g_G g n))%N /\
  pre i (g_G g n) = pre i (g_ll g (ms_term s)) /\
  ((ms_snapIdx s < i)%N -> pre i (g_H g n) = pre i (g_ll g (ms_term s))).
Proof.
  intros Hinv Hb Hled Hm Ht. apply (rel_Term s _ _ _ (n_rel _ _ _ _ _ _ Hb)) in Hm as [Hi HtG].
  pose proof (tm_len _ _ _ HtG). split; [done|].
  assert (pre (ms_snapIdx s) (g_G g n) = pre (ms_snapIdx s) (g_ll g (ms_term s))) as Hsi.
  { eapply (cpre_leader peers Hnodup g w (ms_term s)); [done| |done|done].
    eapply cpre_le; [apply (n_cpre _ _ _ _ _ _ Hb)|]. pose proof (n_commit _ _ _ _ _ _ Hb). lia. }
  assert ((ms_snapIdx s < i)%N -> pre i (g_H g n) = pre i (g_ll g (ms_term s))) as HH.
  { intros Hlt. eapply honest_match; [apply (n_honest _ _ _ _ _ _ Hb)|apply (gh_honest _ _ (i_ghost _ _ _ Hinv))| |done].
    by rewrite (tm_H g n s c cm). }
  split; [|done]. destruct (N.eq_dec (ms_snapIdx s) i) as [<-|Hne]; [done|].
  eapply G_from_H; [done|lia|done|]. apply HH. lia.
Qed.

(** ** Steps that keep the history *)

Lemma pres_follower g w n s :
  inv g w -> base_ok g n s (a_commit (w_node w n)) (a_cmax (w_node w n)) ->
  preserved g (moved w n (follower s (w_node w n)) []).
Proof. intros Hinv Hb. apply preserved_same; [done| |auto]. by constructor. Qed.

Lemma pres_restart g w n c :
  inv g w -> (a_snapIdx (w_node w n) <= c <= a_cmax (w_node w n))%N ->
  preserved g (moved w n (mkAN (a_mem (w_node w n)) Follower ∅ [] c (a_cmax (w_node w n)) (fun _ => 0%N) []) []).
Proof.
  intros Hinv Hc. apply preserved_same; [done| |auto]. constructor; [|done..]. simpl.
  eapply base_ok_commit; [apply (i_node _ _ _ Hinv n)|done].
Qed.

Lemma pres_recvvote g w n m :
  inv g w -> a_role (w_node w n) = Candidate -> m ∈ w_msgs w -> m_Type m = MsgVoteResp ->
  m_To m = n -> m_Term m = a_term (w_node w n) ->
  let a := w_node w n in
  preserved g (moved w n (mkAN (a_mem a) (a_role a)
     (if m_Reject m then a_votes a ∖ {[ m_From m ]} else a_votes a ∪ {[ m_From m ]})
     (a_pend a) (a_commit a) (a_cmax a) (a_match a) (a_out a)) []).
Proof.
  intros Hinv Hr Hm Hty Hto Hterm a. apply preserved_same; [done| |auto].
  destruct (i_node _ _ _ Hinv n) as [Hb _ Hc]. constructor; [done|by intros ?; subst a; simpl in *; congruence|].
  intros _. destruct (Hc Hr) as (H1 & H2 & H3 & H4 & Hvs). split_and!; try done.
  intros v Hin. cbn [a_votes] in Hin.
  destruct (i_msgs _ _ _ Hinv m Hm) as (Hp & _ & Hok). rewrite Hty in Hok.
  destruct (m_Reject m).
  - apply Hvs. set_solver.
  - apply elem_of_union in Hin as [Hin|Hin%elem_of_singleton]; [by apply Hvs|subst v].
    split; [done|]. destruct (Hok eq_refl) as [Hv Hrec]. exists Hv.
    rewrite Hto, Hterm in Hrec. done.
Qed.

(** A step of the leader or a follower that only raises its commit index. *)
Lemma node_ok_commit g n a c :
  node_ok g n a -> (a_commit a <= c)%N -> cpre g (a_term a) c (g_G g n) -> node_ok g n (with_commit c a).
Proof.
  intros [Hb Hl Hc] Hle Hp. constructor; [|done|done]. simpl.
  destruct Hb. constructor; auto; [lia|].
  destruct (N.max_spec (a_cmax a) c) as [[_ ->]|[_ ->]]; done.
Qed.

(** ** Appends *)

Lemma app_entry g m j e :
  ghost_ok g -> msg_ok g m -> m_Type m = MsgApp -> m_Entries m !! j = Some e ->
  e_Index e = (m_Index m + N.of_nat j + 1)%N /\
  g_ll g (m_Term m) !! N.to_nat (m_Index m + N.of_nat j) = Some e /\
  tm (g_ll g (m_Term m)) (e_Index e) = Some (e_Term e).
Proof.
  intros Hg (_ & _ & Hok) Hty He. rewrite Hty in Hok. destruct Hok as (_ & _ & Hpre & _).
  pose proof (prefix_lookup_Some _ _ _ _ He Hpre) as Hl. rewrite lookup_drop in Hl.
  replace (N.to_nat (m_Index m) + j) with (N.to_nat (m_Index m + N.of_nat j)) in Hl by lia.
  pose proof (gh_index _ _ Hg _ _ _ Hl) as Hi.
  split_and!; [lia|done|]. unfold tm. rewrite Hi.
  destruct (N.eqb_spec (N.of_nat (N.to_nat (m_Index m + N.of_nat j)) + 1) 0); [lia|].
  replace (N.to_nat (N.of_nat (N.to_nat (m_Index m + N.of_nat j)) + 1 - 1))
    with (N.to_nat (m_Index m + N.of_nat j)) by lia. by rewrite Hl.
Qed.

(** The store matches the leader through the first [j] entries. *)
Lemma app_matched g m j s :
  ghost_ok g -> msg_ok g m -> m_Type m = MsgApp -> m_Term m = ms_term s ->
  mem_Term (m_Index m) s = Ret (m_LogTerm m) -> j <= length (m_Entries m) ->
  Forall (fun e => mem_Term (e_Index e) s = Ret (e_Term e)) (take j (m_Entries m)) ->
  exists t, mem_Term (m_Index m + N.of_nat j) s = Ret t /\
    tm (g_ll g (ms_term s)) (m_Index m + N.of_nat j) = Some t.
Proof.
  intros Hg Hok Hty Hterm Hp Hj Hf. rewrite <-Hterm. destruct j as [|j].
  - exists (m_LogTerm m). rewrite N.add_0_r. split; [done|].
    destruct Hok as (_ & _ & Hok). rewrite Hty in Hok. apply Hok.
  - destruct (lookup_lt_is_Some_2 (m_Entries m) j) as [e He]; [lia|].
    destruct (app_entry g m j e Hg Hok Hty He) as (Hi & _ & Ht). exists (e_Term e).
    rewrite Forall_lookup in Hf. specialize (Hf j e).
    rewrite lookup_take_lt in Hf by lia. specialize (Hf He).
    replace (m_Index m + N.of_nat (S j))%N with (e_Index e) by lia. done.
Qed.

Lemma app_led g m : msg_ok g m -> m_Type m = MsgApp -> g_led g (m_Term m) <> None.
Proof. intros (_ & _ & Hok) Hty. rewrite Hty in Hok. apply Hok. Qed.

(** An accepted append: the log agrees with the leader's through its end. *)
Lemma accepted_agree g w n a m :
  inv g w -> msg_ok g m -> base_ok g n (a_mem a) (a_commit a) (a_cmax a) -> accepted a n m ->
  let q := (m_Index m + N.of_nat (length (m_Entries m)))%N in
  g_led g (a_term a) <> None /\ (q <= len (g_G g n))%N /\ (ms_snapIdx (a_mem a) <= q)%N /\
  pre q (g_G g n) = pre q (g_ll g (a_term a)) /\
  ((ms_snapIdx (a_mem a) < q)%N -> pre q (g_H g n) = pre q (g_ll g (a_term a))).
Proof.
  intros Hinv Hok Hb (Hty & Hto & Hterm & Hp & Hf) q.
  assert (g_led g (a_term a) <> None) as Hled by (rewrite <-Hterm; by apply app_led).
  destruct (app_matched g m (length (m_Entries m)) (a_mem a)) as (t & Hm & Ht); eauto.
  { apply Hinv. } { by rewrite firstn_all. }
  destruct (agree g w n _ _ _ _ t Hinv Hb Hled Hm Ht) as (? & ? & ?). split_and!; try done.
  by apply (rel_Term _ _ _ _ (n_rel _ _ _ _ _ _ Hb)) in Hm as [? _].
Qed.

Lemma pres_commit_follower g w n m c :
  inv g w -> m ∈ w_msgs w -> accepted (w_node w n) n m ->
  (a_commit (w_node w n) <= c)%N -> (c <= m_Commit m)%N ->
  (c <= m_Index m + N.of_nat (length (m_Entries m)))%N ->
  preserved g (moved w n (with_commit c (w_node w n)) []).
Proof.
  intros Hinv Hm Hacc H1 H2 H3. apply preserved_same; [done| |auto].
  pose proof (i_node _ _ _ Hinv n) as Hn. apply node_ok_commit; [done|done|].
  pose proof (i_msgs _ _ _ Hinv m Hm) as Hok.
  destruct (accepted_agree g w n _ m Hinv Hok (n_base _ _ _ _ Hn) Hacc) as (Hled & Hq & _ & HG & _).
  destruct Hacc as (Hty & _ & Hterm & _).
  pose proof Hok as (_ & _ & Hok'). rewrite Hty in Hok'. destruct Hok' as (_ & _ & _ & Hc).
  rewrite Hterm in Hc.
  pose proof (ccom_leader peers Hnodup g w _ _ _ Hinv Hc (N.le_refl _) Hled) as Hcp.
  apply (cpre_le _ _ c) in Hcp; [|done]. destruct Hcp as [Hcl Hcc]. split; [lia|].
  destruct Hcc as [?|(Tc & ? & ? & Heq)]; [by left|right]. exists Tc. split_and!; try done.
  rewrite <-Heq, <-(pre_pre c _ (g_G g n) H3), HG. by apply pre_pre.
Qed.

(** ** Leaders *)

Lemma lead_facts g w n :
  inv g w -> a_role (w_node w n) = Leader ->
  let a := w_node w n in
  g_led g (a_term a) = Some n /\ g_ll g (a_term a) = g_G g n ++ a_pend a /\ g_H g n = g_G g n /\
  g_G g n `prefix_of` g_ll g (a_term a) /\ (1 <= a_term a)%N.
Proof.
  intros Hinv Hr a. destruct (n_lead _ _ _ _ (i_node _ _ _ Hinv n) Hr) as (Hl & Hll & HH & _). subst a.
  split_and!; try done; [rewrite Hll; by eexists|].
  apply (gh_led _ _ (i_ghost _ _ _ Hinv) _ _ Hl).
Qed.

(** An index acknowledged by a quorum, of the leader's own term, is committed. *)
Lemma quorum_commits g w T i Q c :
  inv g w -> g_led g T = Some c -> tm (g_ll g T) i = Some T -> (1 <= T)%N -> is_quorum peers Q ->
  (forall v, v ∈ Q -> exists j, (i <= j)%N /\ respok g v T j) -> cmtd g T i.
Proof.
  intros Hinv Hled Htm HT HQ Hresp.
  assert (0 < i)%N as Hi0.
  { destruct (N.eq_dec i 0%N) as [->|]; [|lia]. unfold tm in Htm. simpl in Htm. injection Htm. lia. }
  destruct (decide (set_Forall (fun v => (i <= g_ack g v T)%N) Q)) as [Hall|Hex].
  { exists i. split; [lia|]. split_and!; eauto. }
  apply not_set_Forall_Exists in Hex as (v & Hv & Hno); [|apply _].
  destruct (Hresp v Hv) as (j & Hij & [Hc|Hack]); [|simpl in Hno; lia].
  destruct Hc as [->|(Tc & HTc & ic & Hic & Hcq)]; [lia|].
  destruct (N.eq_dec Tc T) as [->|Hne]; [exists ic; split; [lia|done]|]. exfalso.
  (* an earlier leader's entry has an earlier term *)
  assert (pre ic (g_ll g Tc) `prefix_of` g_init g T) as Hp.
  { eapply leader_complete; [done|done| |lia|by rewrite Hled]. exists ic. split; [lia|done]. }
  assert (tm (g_ll g Tc) i = Some T) as Ht2.
  { destruct (tm_is_Some (g_ll g Tc) i) as [t Ht].
    { pose proof (cmtd_len peers g Tc i). apply H. exists ic. split; [lia|done]. }
    assert (tm (g_ll g T) i = Some t); [|congruence].
    eapply tm_prefix; [apply (init_prefix peers g T); [apply Hinv|by rewrite Hled]|].
    eapply tm_prefix; [exact Hp|]. rewrite tm_pre by lia. done. }
  destruct (tm_lookup _ _ _ Hi0 Ht2) as (e & He & HeT).
  pose proof (gh_terms _ _ (i_ghost _ _ _ Hinv) Tc) as Hf. rewrite Forall_lookup in Hf.
  apply Hf in He. lia.
Qed.

Lemma pres_commit_leader g w n i Q :
  inv g w -> let a := w_node w n in
  a_role a = Leader -> (a_commit a <= i)%N -> mem_Term i (a_mem a) = Ret (a_term a) ->
  is_quorum peers Q -> (forall v, v ∈ Q -> (i <= a_match a v)%N) ->
  preserved g (moved w n (with_commit i a) []).
Proof.
  intros Hinv a Hr Hle Ht HQ Hm. apply preserved_same; [done| |auto].
  pose proof (i_node _ _ _ Hinv n) as Hn. apply node_ok_commit; [done|done|].
  destruct (lead_facts g w n Hinv Hr) as (Hl & Hll & HH & Hpre & HT). fold a in Hl, Hll, Hpre, HT |- *.
  apply (rel_Term _ _ _ _ (n_rel _ _ _ _ _ _ (n_base _ _ _ _ Hn))) in Ht as [_ Ht].
  pose proof (tm_len _ _ _ Ht). split; [done|right].
  exists (a_term a). split_and!; [lia| |by rewrite (pre_of_prefix i (g_G g n) (g_ll g (a_term a)))].
  eapply quorum_commits; eauto using tm_prefix.
  intros v Hv. exists (a_match a v). split; [by apply Hm|]. by apply (n_lead _ _ _ _ Hn Hr).
Qed.

Lemma pres_open_snapshot g w n :
  inv g w -> let a := w_node w n in
  a_role a = Leader ->
  preserved g (moved w n (mkAN (a_mem a) (a_role a) (a_votes a) (a_pend a) (a_commit a) (a_cmax a)
    (a_match a) ((ms_snapIdx (a_mem a), ms_snapTerm (a_mem a)) :: a_out a)) []).
Proof.
  intros Hinv a Hr. apply preserved_same; [done| |auto].
  pose proof (i_node _ _ _ Hinv n) as [Hb Hl Hc]. fold a in Hb, Hl, Hc.
  constructor; [done| |by intros ?; simpl in *; congruence].
  intros _. destruct (Hl Hr) as (H1 & H2 & H3 & H4 & H5). split_and!; try done.
  intros i t [[= -> ->]|Hin]%elem_of_cons; [|by apply H5].
  destruct (lead_facts g w n Hinv Hr) as (_ & _ & _ & Hpre & _). fold a in Hpre.
  pose proof (n_rel _ _ _ _ _ _ Hb) as (_ & _ & Ht). split_and!.
  - change (g_led g (a_term a) <> None). by rewrite H1.
  - by eapply tm_prefix.
  - eapply cpre_prefix; [|exact Hpre]. eapply cpre_le; [apply (n_cpre _ _ _ _ _ _ Hb)|].
    pose proof (n_commit _ _ _ _ _ _ Hb). lia.
Qed.

(** ** Votes *)

(** The history of a vote: a fresh term, or the first vote of this one. *)
Lemma ghost_ok_vrec g n T x : ghost_ok g -> g_vrec g n T = None -> ghost_ok (g_set_vrec g n T x).
Proof.
  intros Hg Hnone. pose proof (gle_set_vrec g n T x Hnone) as Hle. destruct Hg. constructor; simpl; auto.
  intros T' c Hl. destruct (gh_led T' c Hl) as (? & ? & Hvs). split_and!; try done.
  intros v Hv. destruct (Hvs v Hv) as (Hv' & Hr & ?). exists Hv'. split; [|done]. by apply Hle in Hr.
Qed.

Lemma same_node_vrec g n T x n' : n' <> n -> same_node g (g_set_vrec g n T x) n'.
Proof. intros Hne. constructor; simpl; try done. intros T'. apply upd2_ne. by left. Qed.

(** Recording a vote at the voter. *)
Lemma base_ok_vote g n s c cm v L :
  ghost_ok g -> base_ok g n s c cm -> g_vrec g n (ms_term s) = None ->
  v <> 0%N -> g_cand g v (ms_term s) = Some L -> last_le (g_H g n) L ->
  base_ok (g_set_vrec g n (ms_term s) (v, g_H g n)) n (set_st (ms_term s) v s) c cm.
Proof.
  intros Hg Hb Hnone Hv HL Hle.
  pose proof Hb as [? ? ? ? ? ? ? ? Hvr ? Hak Hav ? Hcp]. constructor; simpl; auto.
  - intros T v' Hv'. destruct (decide (T = ms_term s)) as [->|Hne].
    + rewrite upd2_eq. intros [= <- <-]. split_and!; try done. eauto.
    + rewrite upd2_ne by (by right). intros Hr. destruct (Hvr _ _ _ Hr) as (? & ? & ? & ? & ?).
      split_and!; try done; lia.
  - rewrite upd2_eq. eauto.
  - intros T i T1 v' Hv' Hi Ht. destruct (decide (T1 = ms_term s)) as [->|Hne].
    + rewrite upd2_eq. intros [= <- <-] HT. destruct (Hak T i Hi Ht) as [_ [?|(T' & HT' & Hled & Hno)]]; [by left|].
      destruct (N.eq_dec T' (ms_term s)) as [->|]; [|right; left; exists T'; split; [lia|done]].
      right; right. split; [|done]. intros Hin.
      destruct (g_led g (ms_term s)) as [c'|] eqn:E; [|done].
      destruct (gh_led _ _ Hg _ _ E) as (_ & _ & Hvs). destruct (Hvs n Hin) as (? & ? & _). congruence.
    + rewrite upd2_ne by (by right). apply (Hav T i T1); done.
Qed.

Lemma pres_vote g w n m :
  inv g w -> let a := w_node w n in
  n <> 0%N -> m ∈ w_msgs w -> m_Type m = MsgVote -> m_Term m = a_term a ->
  a_vote a = 0%N \/ a_vote a = m_From m -> up_to_date (a_mem a) m ->
  preserved g (moved w n (with_mem (set_st (a_term a) (m_From m) (a_mem a)) a) []).
Proof.
  intros Hinv a Hn0 Hm Hty Hterm Hvote (t & Hlt & Hup).
  pose proof (i_node _ _ _ Hinv n) as [Hb Hl Hc]. fold a in Hb, Hl, Hc.
  destruct (i_msgs _ _ _ Hinv m Hm) as (_ & Hf0 & Hok). rewrite Hty in Hok.
  destruct Hok as (L & HL & HLi & HLt). rewrite Hterm in HL.
  assert (last_le (g_H g n) L) as Hle.
  { unfold last_le. rewrite (last_H g n _ _ _ Hb), (len_H g n _ _ _ Hb).
    apply (rel_Term _ _ _ _ (n_rel _ _ _ _ _ _ Hb)) in Hlt as [_ Hlt].
    rewrite (rel_last _ _ (n_rel _ _ _ _ _ _ Hb)) in Hlt, Hup.
    rewrite last_term_tm in Hlt. injection Hlt as <-. rewrite HLi, HLt in Hup. intuition. }
  assert (a_role a = Candidate -> m_From m = n) as Hfn.
  { intros Hr. destruct (Hc Hr) as (Hv & _). destruct Hvote; congruence. }
  destruct (g_vrec g n (a_term a)) as [[c Hv]|] eqn:Erec.
  - (* a repeated vote *)
    destruct (n_vrec _ _ _ _ _ _ Hb _ _ _ Erec) as (_ & Hvc & Hc0 & _). specialize (Hvc eq_refl).
    assert (m_From m = a_vote a) as Hfrom by (unfold a_vote in *; destruct Hvote; congruence).
    apply preserved_same; [done| |auto].
    assert (set_st (a_term a) (m_From m) (a_mem a) = a_mem a) as ->.
    { rewrite Hfrom. unfold set_st, a_term, a_vote. by destruct (a_mem a). }
    by constructor.
  - exists (g_set_vrec g n (a_term a) (m_From m, g_H g n)).
    pose proof (gle_set_vrec g n _ (m_From m, g_H g n) Erec) as Hgle. split; [done|].
    apply (inv_move peers g); [done|done|apply ghost_ok_vrec; [apply Hinv|done]| |by intros; apply same_node_vrec|auto using no_msgs].
    constructor; simpl.
    + apply (base_ok_vote g n (a_mem a) _ _ _ L); [apply Hinv|done..].
    + exact Hl.
    + intros Hr. destruct (Hc Hr) as (_ & ? & ? & ? & Hvs). split_and!; try done; [by apply Hfn|].
      intros v Hin. destruct (Hvs v Hin) as (? & Hv' & ?). split; [done|]. exists Hv'. by eapply gle_vrec.
Qed.

(** Standing for election: a fresh term, and a vote for oneself. *)
Lemma pres_cand g w n :
  inv g w -> let a := w_node w n in
  n ∈ peers -> n <> 0%N ->
  preserved g (moved w n (mkAN (set_st (a_term a + 1) n (a_mem a)) Candidate {[ n ]} [] (a_commit a)
    (a_cmax a) (fun _ => 0%N) []) []).
Proof.
  intros Hinv a Hp Hn0. pose proof (i_node _ _ _ Hinv n) as [Hb _ _]. fold a in Hb.
  set (T := (a_term a + 1)%N). set (s1 := set_st T 0 (a_mem a)).
  assert (base_ok g n s1 (a_commit a) (a_cmax a)) as Hb1.
  { apply base_ok_term; [done|]. unfold a_term in T. lia. }
  assert (g_cand g n T = None) as Hcn.
  { destruct (g_cand g n T) eqn:E; [|done]. apply (n_candT _ _ _ _ _ _ Hb) in E.
    unfold T, a_term in E. lia. }
  assert (g_vrec g n T = None) as Hvn.
  { destruct (g_vrec g n T) as [[c Hv]|] eqn:E; [|done].
    apply (n_vrec _ _ _ _ _ _ Hb) in E as [E _]. unfold T, a_term in E. lia. }
  set (g1 := g_set_cand g n T (g_H g n)).
  assert (gle g g1) as Hle1 by (by apply gle_set_cand).
  assert (base_ok g1 n s1 (a_commit a) (a_cmax a)) as Hb2.
  { pose proof Hb1 as []. constructor; simpl; auto.
    - intros T' L. destruct (decide (T' = T)) as [->|]; [|rewrite upd2_ne by (by right); apply n_candT].
      intros _. unfold T. lia.
    - intros T' v Hv Hr. destruct (n_vrec _ _ _ Hr) as (? & ? & ? & ? & L & HL & ?).
      split_and!; try done. exists L. split; [|done]. by apply (gle_cand _ _ Hle1) in HL. }
  assert (ghost_ok g1) as Hg1 by (destruct (i_ghost _ _ _ Hinv); constructor; auto).
  set (g2 := g_set_vrec g1 n T (n, g_H g n)).
  assert (gle g1 g2) as Hle2 by (by apply gle_set_vrec).
  assert (gle g g2) as Hle by (constructor; simpl; try done; [apply Hle1|intros ? ? ? Hx; by apply Hle2]).
  exists g2. split; [done|].
  apply (inv_move peers g); [done|done|by apply ghost_ok_vrec| |intros; constructor; simpl; try done;
    intros; apply upd2_ne; by left|auto using no_msgs].
  constructor; [|by intros ?|].
  - apply (base_ok_vote g1 n s1 _ _ n (g_H g n)); try done; [apply upd2_eq|right; split; reflexivity].
  - intros _. split_and!; simpl; try done.
    + intros E. apply (n_led _ _ _ _ _ _ Hb) in E. change (T <= a_term a)%N in E. unfold T in E. lia.
    + apply upd2_eq.
    + eapply Forall_impl; [apply (n_terms _ _ _ _ _ _ Hb)|]. unfold T, a_term. simpl. lia.
    + intros v Hv%elem_of_singleton. subst v. split; [done|]. rewrite upd2_eq. eauto.
Qed.

(** ** Acknowledgements *)

Lemma ghost_ok_ack g n T i :
  ghost_ok g -> g_led g T <> None -> (i <= len (g_ll g T))%N -> ghost_ok (g_set_ack g n T i).
Proof.
  intros Hg Hled Hi. pose proof Hg as []. constructor; simpl; auto.
  intros v T'. unfold upd2. case_decide as Hd; [|by apply gh_ack]. destruct Hd as [-> ->].
  intros _. split; [done|]. destruct (N.eq_dec (g_ack g n T) 0%N); [lia|].
  destruct (gh_ack n T); lia.
Qed.

Lemma base_ok_ack g n s c cm i :
  base_ok g n s c cm -> pre i (g_ll g (ms_term s)) `prefix_of` g_H g n ->
  base_ok (g_set_ack g n (ms_term s) i) n s c cm.
Proof.
  intros Hb Hpre. pose proof (gle_set_ack g n (ms_term s) i) as Hgle.
  pose proof Hb as []. constructor; simpl; auto.
  - intros T j. unfold upd2. case_decide as Hd; [|by apply n_ack]. destruct Hd as [_ ->].
    intros Hj Ht. destruct (N.le_gt_cases j (g_ack g n (ms_term s))) as [Hle|Hgt]; [apply n_ack; [lia|done]|].
    split; [done|left]. etrans; [|exact Hpre]. rewrite <-(pre_pre j i) by lia. apply pre_prefix.
  - intros T j T1 v Hv. unfold upd2. case_decide as Hd; [|by apply n_ackvote]. destruct Hd as [_ ->].
    intros _ _ Hr HT. apply n_vrec in Hr as [? _]. lia.
  - by eapply gle_cpre.
Qed.

Lemma node_ok_ack g n a i :
  node_ok g n a -> pre i (g_ll g (a_term a)) `prefix_of` g_H g n ->
  node_ok (g_set_ack g n (a_term a) i) n a.
Proof.
  intros [Hb Hl Hc] Hp. pose proof (gle_set_ack g n (a_term a) i) as Hgle.
  constructor; [by apply base_ok_ack| |done].
  intros Hr. destruct (Hl Hr) as (? & ? & ? & Hr' & Ho). split_and!; try done.
  - intros v. eapply gle_respok; [done|apply Hr'].
  - intros j t' Hit. eapply gle_snap_ok; [done|by apply Ho].
Qed.

Lemma same_node_ack g n T i n' : n' <> n -> same_node g (g_set_ack g n T i) n'.
Proof. intros Hne. constructor; simpl; try done. intros T'. apply upd2_ne. by left. Qed.

(** ** Messages *)

Lemma rel_announced a G : mem_rel (a_mem a) G -> mem_rel (announced a) (G ++ a_pend a).
Proof.
  intros (H1 & H2 & H3). unfold mem_rel, announced. simpl. unfold len in *. rewrite length_app.
  split_and!; [lia|by rewrite H2, drop_app_le by lia|]. eapply tm_prefix; [|exact H3]. by eexists.
Qed.

(** What the leader sends is part of its log. *)
Lemma send_app_ok g w n m :
  inv g w -> let a := w_node w n in
  a_role a = Leader -> mem_Term (m_Index m) (announced a) = Ret (m_LogTerm m) ->
  m_Entries m `prefix_of` drop (N.to_nat (m_Index m - a_snapIdx a)) (ms_entries (announced a)) ->
  tm (g_ll g (a_term a)) (m_Index m) = Some (m_LogTerm m) /\
  m_Entries m `prefix_of` drop (N.to_nat (m_Index m)) (g_ll g (a_term a)).
Proof.
  intros Hinv a Hr Ht He. destruct (lead_facts g w n Hinv Hr) as (_ & Hll & _). fold a in Hll. rewrite Hll.
  pose proof (rel_announced a _ (n_rel _ _ _ _ _ _ (n_base _ _ _ _ (i_node _ _ _ Hinv n)))) as Hrel.
  apply (rel_Term _ _ _ _ Hrel) in Ht as [Hi Ht]. split; [done|].
  destruct Hrel as (_ & Hent & _). rewrite Hent, drop_drop in He.
  replace (N.to_nat (ms_snapIdx (announced a)) + N.to_nat (m_Index m - a_snapIdx a))
    with (N.to_nat (m_Index m)) in He; [done|].
  unfold a_snapIdx, announced in *. simpl in *. lia.
Qed.

(** A follower's acknowledgement, and the history that justifies it. *)
Lemma ack_history g w n m0 :
  inv g w -> let a := w_node w n in
  m0 ∈ w_msgs w -> accepted a n m0 ->
  let q := (m_Index m0 + N.of_nat (length (m_Entries m0)))%N in
  ccom g (a_term a) q \/
  (g_led g (a_term a) <> None /\ (q <= len (g_ll g (a_term a)))%N /\
   pre q (g_ll g (a_term a)) `prefix_of` g_H g n).
Proof.
  intros Hinv a Hm Hacc q. pose proof (n_base _ _ _ _ (i_node _ _ _ Hinv n)) as Hb. fold a in Hb.
  destruct (accepted_agree g w n a m0 Hinv (i_msgs _ _ _ Hinv m0 Hm) Hb Hacc) as (Hled & Hq & Hsi & HG & HH).
  fold q in Hq, Hsi, HG, HH.
  destruct (N.eq_dec (ms_snapIdx (a_mem a)) q) as [Heq|Hne].
  - left. rewrite <-Heq. eapply cpre_ccom, cpre_le; [apply (n_cpre _ _ _ _ _ _ Hb)|].
    pose proof (n_commit _ _ _ _ _ _ Hb). lia.
  - right. assert (q <= len (g_ll g (a_term a)))%N as Hql.
    { apply (f_equal len) in HG. rewrite len_pre in HG by done. unfold len, pre in *.
      rewrite length_take in HG. lia. }
    split_and!; [done|done|]. rewrite <-HH by lia. apply pre_prefix.
Qed.

Lemma commit_ccom g w n i : inv g w -> (i <= a_commit (w_node w n))%N -> ccom g (a_term (w_node w n)) i.
Proof.
  intros Hinv Hi. pose proof (n_base _ _ _ _ (i_node _ _ _ Hinv n)) as Hb.
  eapply cpre_ccom, cpre_le; [apply (n_cpre _ _ _ _ _ _ Hb)|]. pose proof (n_commit _ _ _ _ _ _ Hb). lia.
Qed.

Lemma pres_send_same g w n m :
  inv g w -> msg_ok g m -> preserved g (moved w n (w_node w n) [m]).
Proof.
  intros Hinv Hm. apply preserved_same; [done|apply Hinv|].
  intros m' ->%list_elem_of_singleton. done.
Qed.

Lemma pres_ack g w n m :
  inv g w -> let a := w_node w n in
  n ∈ peers -> n <> 0%N -> m_From m = n -> m_Term m = a_term a -> m_Type m = MsgAppResp ->
  g_led g (a_term a) <> None -> (m_Index m <= len (g_ll g (a_term a)))%N ->
  pre (m_Index m) (g_ll g (a_term a)) `prefix_of` g_H g n ->
  preserved g (moved w n a [m]).
Proof.
  intros Hinv a Hp Hn0 Hf Ht Hty Hled Hl Hpre.
  exists (g_set_ack g n (a_term a) (m_Index m)). pose proof (gle_set_ack g n (a_term a) (m_Index m)) as Hle.
  split; [done|]. apply (inv_move peers g); [done|done| | |by intros; apply same_node_ack|].
  - apply ghost_ok_ack; [apply Hinv|done|done].
  - apply node_ok_ack; [apply Hinv|done].
  - intros m' ->%list_elem_of_singleton. unfold Safety.msg_ok. rewrite Hf, Hty, Ht. split_and!; try done.
    intros _. right. simpl. rewrite upd2_eq. lia.
Qed.

Lemma pres_send g w n m :
  inv g w -> let a := w_node w n in
  n ∈ peers -> n <> 0%N -> m_From m = n -> m_Term m = a_term a -> can_send (w_msgs w) n a m ->
  preserved g (moved w n a [m]).
Proof.
  intros Hinv a Hp Hn0 Hf Ht Hcan. pose proof (i_node _ _ _ Hinv n) as [Hb Hl Hc]. fold a in Hb, Hl, Hc.
  unfold can_send in Hcan. destruct (m_Type m) eqn:Hty.
  7:{ done. }
  4:{ destruct (m_Reject m) eqn:Hrej.
      { apply pres_send_same; [done|]. unfold Safety.msg_ok. by rewrite Hf, Hty, Hrej. }
      destruct (Hcan eq_refl) as [Hi|(m0 & Hm0 & Hacc & Hi)].
      { apply pres_send_same; [done|]. unfold Safety.msg_ok. rewrite Hf, Hty, Ht. split_and!; try done.
        intros _. left. by apply commit_ccom. }
      destruct (ack_history g w n m0 Hinv Hm0 Hacc) as [Hcc|(? & ? & ?)]; rewrite <-Hi in *.
      { apply pres_send_same; [done|]. unfold Safety.msg_ok. rewrite Hf, Hty, Ht. split_and!; try done.
        intros _. by left. }
      by apply pres_ack. }
  all: apply pres_send_same; [done|]; unfold Safety.msg_ok; rewrite Hf, Hty, Ht; (split; [done|]; split; [done|]).
  - destruct Hcan as (Hr & Hi & Hlt). destruct (Hc Hr) as (_ & _ & HL & _).
    exists (g_H g n). rewrite (len_H g n _ _ _ Hb), (last_H g n _ _ _ Hb). split; [done|].
    pose proof (n_rel _ _ _ _ _ _ Hb) as Hrel. apply (rel_Term _ _ _ _ Hrel) in Hlt as [_ Hlt].
    unfold a_last in *. rewrite (rel_last _ _ Hrel) in Hlt, Hi. rewrite last_term_tm in Hlt.
    by injection Hlt as ->.
  - intros Hrej. destruct (Hcan Hrej) as [Hv H0].
    destruct (n_vote _ _ _ _ _ _ Hb) as [Hv' Hrec]; [unfold a_vote in Hv; congruence|].
    exists Hv'. unfold a_vote, a_term in *. congruence.
  - destruct Hcan as (Hr & Hlt & He & Hcm). destruct (Hl Hr) as (Hled & _).
    destruct (send_app_ok g w n m Hinv Hr Hlt He) as [? ?]. split_and!; try done.
    + by rewrite Hled.
    + by apply commit_ccom.
  - destruct Hcan as (Hr & Hin). by apply (Hl Hr).
  - intros Hd. left. by apply commit_ccom, Hcan.
Qed.

Lemma pres_match g w n v i :
  inv g w -> let a := w_node w n in
  a_role a = Leader ->
  (v = n /\ (i <= a_last a)%N) \/
  (exists m, m ∈ w_msgs w /\ m_From m = v /\ m_To m = n /\ m_Term m = a_term a /\ m_Index m = i /\
     ((m_Type m = MsgAppResp /\ m_Reject m = false) \/ (m_Type m = MsgSnapResp /\ m_Done m = true))) ->
  preserved g (moved w n (mkAN (a_mem a) (a_role a) (a_votes a) (a_pend a) (a_commit a) (a_cmax a)
           (<[v := i]> (a_match a)) (a_out a)) []).
Proof.
  intros Hinv a Hr Hor. pose proof (i_node _ _ _ Hinv n) as Hn. fold a in Hn.
  (* either way there is a history in which [v] acknowledged [i] *)
  assert (exists g', gle g g' /\ ghost_ok g' /\ node_ok g' n a /\
    (forall n', n' <> n -> same_node g g' n') /\ respok g' v (a_term a) i) as (g' & Hle & Hg' & Hn' & Hs & Hresp).
  { destruct Hor as [[-> Hi]|(m & Hm & <- & Hto & Ht & <- & Hty)].
    - destruct (lead_facts g w n Hinv Hr) as (Hled & Hll & HH & Hpre & _). fold a in Hled, Hll, Hpre.
      unfold a_last in Hi. rewrite (rel_last _ _ (n_rel _ _ _ _ _ _ (n_base _ _ _ _ Hn))) in Hi.
      exists (g_set_ack g n (a_term a) i). split_and!.
      + apply gle_set_ack.
      + apply ghost_ok_ack; [apply Hinv|by rewrite Hled|]. apply prefix_length in Hpre. unfold len in *. lia.
      + apply node_ok_ack; [done|]. rewrite HH, (pre_of_prefix i _ _ Hpre Hi). apply pre_prefix.
      + by intros; apply same_node_ack.
      + right. simpl. rewrite upd2_eq. lia.
    - exists g. split_and!; [apply gle_refl|apply Hinv|done|intros; apply same_node_refl|].
      destruct (i_msgs _ _ _ Hinv m Hm) as (_ & _ & Hok). rewrite <-Ht.
      destruct Hty as [[Hty Hrej]|[Hty Hd]]; rewrite Hty in Hok; by apply Hok. }
  exists g'. split; [done|]. apply (inv_move peers g); [done|done|done| |done|auto using no_msgs].
  destruct Hn' as [Hb Hl Hc]. constructor; [done| |by intros E; simpl in E; congruence].
  intros _. destruct (Hl Hr) as (? & ? & ? & Hm & ?). split_and!; try done.
  intros v'. simpl. destruct (decide (v' = v)) as [->|Hne].
  - by rewrite fn_lookup_insert.
  - rewrite fn_lookup_insert_ne by done. apply Hm.
Qed.

(** ** Elections *)

(** What a candidate with a quorum of votes knows. *)
Lemma cand_quorum g w n :
  inv g w -> let a := w_node w n in
  a_role a = Candidate -> length peers / 2 + 1 <= size (a_votes a) ->
  is_quorum peers (a_votes a) /\ g_led g (a_term a) = None /\
  (forall v, v ∈ a_votes a -> exists Hv, g_vrec g v (a_term a) = Some (n, Hv) /\ last_le Hv (g_H g n)).
Proof.
  intros Hinv a Hr Hsz. destruct (n_cand _ _ _ _ (i_node _ _ _ Hinv n) Hr) as (_ & Hnl & HL & _ & Hvs).
  fold a in Hnl, HL, Hvs.
  assert (is_quorum peers (a_votes a)) as HQ.
  { split; [|done]. intros v Hv. apply elem_of_list_to_set, Hvs, Hv. }
  split_and!; [done| |].
  - destruct (g_led g (a_term a)) as [c|] eqn:E; [|done]. exfalso. apply Hnl. f_equal.
    destruct (gh_led _ _ (i_ghost _ _ _ Hinv) _ _ E) as (_ & HV & Hrec).
    destruct (quorum_inter peers _ _ Hnodup HQ HV) as (v & Hv1 & Hv2).
    destruct (Hrec v Hv2) as (H1 & Hr1 & _). destruct (Hvs v Hv1) as (_ & H2 & Hr2). congruence.
  - intros v Hv. destruct (Hvs v Hv) as (_ & Hv' & Hrec). exists Hv'. split; [done|].
    destruct (n_vrec _ _ _ _ _ _ (n_base _ _ _ _ (i_node _ _ _ Hinv v)) _ _ _ Hrec)
      as (_ & _ & _ & _ & L & HL' & Hle). congruence.
Qed.

(** Its log is consistent: a snapshot over a foreign tail cannot win. *)
Lemma cand_clean g w n :
  inv g w -> let a := w_node w n in
  a_role a = Candidate -> length peers / 2 + 1 <= size (a_votes a) -> g_H g n = g_G g n.
Proof.
  intros Hinv a Hr Hsz. destruct (cand_quorum g w n Hinv Hr Hsz) as (HQ & Hnone & Hvs). fold a in HQ, Hnone, Hvs.
  pose proof (i_node _ _ _ Hinv n) as [Hb _ Hc]. fold a in Hb, Hc.
  destruct (Hc Hr) as (_ & _ & _ & Hlt & _).
  pose proof (n_rel _ _ _ _ _ _ Hb) as [Hsi _].
  assert (pre (ms_snapIdx (a_mem a)) (g_H g n) = pre (ms_snapIdx (a_mem a)) (g_G g n)) as Hp.
  2:{ unfold pre in Hp. rewrite <-(take_drop (N.to_nat (ms_snapIdx (a_mem a))) (g_H g n)), Hp,
        (n_tail _ _ _ _ _ _ Hb). apply take_drop. }
  assert (cpre g (a_term a) (ms_snapIdx (a_mem a)) (g_G g n)) as [_ Hcp].
  { eapply cpre_le; [apply (n_cpre _ _ _ _ _ _ Hb)|]. pose proof (n_commit _ _ _ _ _ _ Hb). lia. }
  destruct Hcp as [->|(Tc & HTc & (ic & Hic & Hcq) & Heq)]; [done|].
  assert (Tc < a_term a)%N as HT.
  { destruct (N.eq_dec Tc (a_term a)) as [->|]; [|lia]. destruct Hcq as (Hi0 & Htm & _).
    rewrite (gh_none _ _ (i_ghost _ _ _ Hinv) _ Hnone) in Htm. apply tm_len in Htm. unfold len in Htm. simpl in Htm. lia. }
  assert (pre ic (g_ll g Tc) `prefix_of` g_H g n) as Hw.
  { eapply (winner peers g Tc ic (a_term a) _ (a_votes a) n); [apply Hinv|done|done|done| |done| |done|].
    - intros T' HT' Hled. eapply leader_complete; [done|done| |lia|done]. exists ic. split; [lia|done].
    - apply (n_honest _ _ _ _ _ _ Hb).
    - intros v Hv. destruct (Hvs v Hv) as (Hv' & Hrec & Hle).
      eexists _, _, _, Hv'. split_and!; [apply (i_node _ _ _ Hinv v)|done|done|by intros [_ ?]]. }
  assert (ic <= len (g_ll g Tc))%N as Hl by (apply (cmtd_len peers); exists ic; split; [lia|done]).
  apply pre_prefix_le in Hw; [|done]. rewrite Heq, <-(pre_pre _ ic), Hw by done. by apply pre_pre.
Qed.

Lemma honest_index g L i e : ghost_ok g -> honest (g_ll g) L -> L !! i = Some e -> e_Index e = (N.of_nat i + 1)%N.
Proof.
  intros Hg HL He. eapply (gh_index _ _ Hg (e_Term e)).
  eapply prefix_lookup_Some; [|by apply HL]. by rewrite lookup_take_lt by lia.
Qed.

Lemma gle_elect g T n V L : ghost_ok g -> g_led g T = None -> gle g (g_elect g T n V L).
Proof.
  intros Hg Hnone. constructor; simpl; try done.
  - intros T'. destruct (decide (T' = T)) as [->|].
    + rewrite (gh_none _ _ Hg _ Hnone). apply prefix_nil.
    + by rewrite fn_lookup_insert_ne.
  - intros T' c Hc. destruct (decide (T' = T)) as [->|]; [congruence|].
    by rewrite !fn_lookup_insert_ne.
Qed.

Lemma ghost_ok_elect g T n V L :
  ghost_ok g -> g_led g T = None -> (1 <= T)%N -> honest (g_ll g) L ->
  Forall (fun e => (1 <= e_Term e <= T)%N) L -> Forall (fun e => (e_Term e < T)%N) L ->
  is_quorum peers V ->
  (forall v, v ∈ V -> exists Hv, g_vrec g v T = Some (n, Hv) /\ last_le Hv L) ->
  ghost_ok (g_elect g T n V L).
Proof.
  intros Hg Hnone HT HL Hterms Hlt HV Hvs. pose proof (gle_elect g T n V L Hg Hnone) as Hle.
  assert (forall T' {V'} (f : N -> V') x, <[T := x]> f T' = if decide (T' = T) then x else f T') as Hins.
  { intros T' V' f x. case_decide; subst; [apply fn_lookup_insert|by apply fn_lookup_insert_ne]. }
  pose proof Hg as []. constructor; simpl.
  - intros T'. apply (gle_honest g (g_elect g T n V L)); [done|]. rewrite Hins. by case_decide.
  - intros T'. rewrite Hins. by case_decide; subst.
  - intros T' i e. rewrite Hins. case_decide; subst; [by apply (honest_index g)|by apply gh_index].
  - intros T'. rewrite !Hins. by case_decide; subst; auto.
  - intros T' c. rewrite !Hins. case_decide; subst; [|by apply gh_init].
    intros _. split; [|done]. exists []. split; [by rewrite app_nil_r|done].
  - intros T' c. rewrite !Hins. case_decide; subst; [|by apply gh_led].
    intros [= <-]. split_and!; auto.
  - intros v T'. rewrite !Hins. case_decide; subst; [|by apply gh_ack].
    intros H. destruct (gh_ack v T H); congruence.
Qed.

Lemma pres_lead g w n :
  inv g w -> let a := w_node w n in
  a_role a = Candidate -> length peers / 2 + 1 <= size (a_votes a) ->
  preserved g (moved w n (mkAN (a_mem a) Leader ∅ [] (a_commit a) (a_cmax a) (fun _ => 0%N) []) []).
Proof.
  intros Hinv a Hr Hsz. destruct (cand_quorum g w n Hinv Hr Hsz) as (HQ & Hnone & Hvs). fold a in HQ, Hnone, Hvs.
  pose proof (cand_clean g w n Hinv Hr Hsz) as HHG.
  pose proof (i_node _ _ _ Hinv n) as [Hb _ Hc]. fold a in Hb, Hc.
  destruct (Hc Hr) as (_ & _ & Hcand & Hlt & _).
  pose proof (gle_elect g (a_term a) n (a_votes a) (g_H g n) (i_ghost _ _ _ Hinv) Hnone) as Hle.
  exists (g_elect g (a_term a) n (a_votes a) (g_H g n)). split; [done|].
  apply (inv_move peers g); [done|done| | | |auto using no_msgs].
  - apply ghost_ok_elect; try done; [apply Hinv| |apply (n_honest _ _ _ _ _ _ Hb)|apply (n_terms _ _ _ _ _ _ Hb)].
    by apply (n_candT _ _ _ _ _ _ Hb) in Hcand as [? _].
  - constructor; [|intros _|done].
    + apply (base_ok_grow peers g); try done; [apply Hinv|]. intros T. simpl.
      destruct (decide (T = a_term a)) as [->|]; rewrite ?fn_lookup_insert, ?fn_lookup_insert_ne by done; [done|].
      apply (n_led _ _ _ _ _ _ Hb).
    + unfold a_term at 1 2. simpl. fold (a_term a). rewrite !fn_lookup_insert, app_nil_r.
      split_and!; try done; [by left; left|]. intros i t Hin. by apply not_elem_of_nil in Hin.
  - intros n' Hn'. constructor; simpl; try done; intros T;
      (destruct (decide (T = a_term a)) as [->|]; rewrite ?fn_lookup_insert, ?fn_lookup_insert_ne by done;
       congruence).
Qed.

(** ** Leaders' entries *)

Lemma gle_set_ll g T es : gle g (g_set_ll g T (g_ll g T ++ es)).
Proof.
  constructor; simpl; try done. intros T'. destruct (decide (T' = T)) as [->|].
  - rewrite fn_lookup_insert. by eexists.
  - by rewrite fn_lookup_insert_ne.
Qed.

Lemma ghost_ok_ll g T c es :
  ghost_ok g -> g_led g T = Some c ->
  (forall i e, es !! i = Some e -> e_Index e = (len (g_ll g T) + 1 + N.of_nat i)%N /\ e_Term e = T) ->
  ghost_ok (g_set_ll g T (g_ll g T ++ es)).
Proof.
  intros Hg Hled Hes. pose proof (gle_set_ll g T es) as Hle. set (g' := g_set_ll g T (g_ll g T ++ es)) in *.
  assert (g_ll g' T = g_ll g T ++ es) as HT by apply fn_lookup_insert.
  assert (forall T', T' <> T -> g_ll g' T' = g_ll g T') as Hne by (intros; by apply fn_lookup_insert_ne).
  assert (Forall (fun e => e_Term e = T) es) as HesT.
  { apply Forall_lookup. intros i e He. by apply Hes in He as [_ ?]. }
  assert (1 <= T)%N as H1 by apply (gh_led _ _ Hg _ _ Hled).
  constructor; try (intros T'; destruct (decide (T' = T)) as [->|HT']; rewrite ?HT, ?(Hne T') by done).
  - (* consistency: a new entry's history is this very log *)
    intros i e He. apply lookup_app_Some in He as [He|[Hge He]].
    + rewrite take_app_le by (apply lookup_lt_Some in He; lia).
      etrans; [by apply (gh_honest _ _ Hg)|apply Hle].
    + apply Hes in He as [_ ->]. rewrite HT. apply prefix_take.
  - apply (gle_honest g); [done|]. apply (gh_honest _ _ Hg).
  - apply Forall_app. split; [apply (gh_terms _ _ Hg)|]. eapply Forall_impl; [done|]. simpl. lia.
  - apply (gh_terms _ _ Hg).
  - intros i e [He|[Hge He]]%lookup_app_Some; [by apply (gh_index _ _ Hg) in He|].
    apply Hes in He as [-> _]. unfold len. lia.
  - apply (gh_index _ _ Hg).
  - intros E. change (g_led g T = None) in E. congruence.
  - apply (gh_none _ _ Hg).
  - intros c' Hc'. destruct (gh_init _ _ Hg T c' Hc') as [(ext & Hext & Hf) Hlt]. split; [|done].
    exists (ext ++ es). split; [by rewrite Hext, app_assoc|]. by apply Forall_app.
  - apply (gh_init _ _ Hg).
  - apply (gh_led _ _ Hg).
  - apply (gh_led _ _ Hg).
  - intros T' H. destruct (gh_ack _ _ Hg T T' H) as [? Hl]. split; [done|].
    etrans; [exact Hl|]. pose proof (prefix_length _ _ (gle_ll _ _ Hle T')). unfold len. lia.
  - intros T1 H. destruct (gh_ack _ _ Hg T' T1 H) as [? Hl]. split; [done|].
    etrans; [exact Hl|]. pose proof (prefix_length _ _ (gle_ll _ _ Hle T1)). unfold len. lia.
Qed.

Lemma pres_announce g w n es :
  inv g w -> let a := w_node w n in
  a_role a = Leader -> a_pend a = [] ->
  (forall i e, es !! i = Some e -> e_Index e = (a_last a + 1 + N.of_nat i)%N /\ e_Term e = a_term a) ->
  preserved g (moved w n (with_pend es a) []).
Proof.
  intros Hinv a Hr Hp Hes. pose proof (i_node _ _ _ Hinv n) as [Hb Hl Hc]. fold a in Hb, Hl, Hc.
  destruct (Hl Hr) as (Hled & Hll & HH & Hm & Ho). rewrite Hp, app_nil_r in Hll.
  unfold a_last in Hes. rewrite (rel_last _ _ (n_rel _ _ _ _ _ _ Hb)), <-Hll in Hes.
  pose proof (gle_set_ll g (a_term a) es) as Hle.
  pose proof (ghost_ok_ll g _ _ es (i_ghost _ _ _ Hinv) Hled Hes) as Hg'. rewrite Hll in Hle, Hg'.
  exists (g_set_ll g (a_term a) (g_G g n ++ es)). split; [done|].
  apply (inv_move peers g); [done|done|done| | |auto using no_msgs].
  - constructor; [|intros _|by intros E; simpl in E; congruence].
    + apply (base_ok_grow peers g); try done; [apply Hinv|]. apply (n_led _ _ _ _ _ _ Hb).
    + unfold a_term at 2. simpl. fold (a_term a). rewrite fn_lookup_insert. split_and!; try done.
      * intros v. apply (gle_respok peers g); [done|]. apply Hm.
      * intros i t Hit. apply (gle_snap_ok peers g); [done|]. by apply Ho.
  - intros n' Hn'. constructor; simpl; try done. intros T HT.
    rewrite fn_lookup_insert_ne; [done|]. intros <-. congruence.
Qed.

Lemma gle_set_log g n G H : gle g (g_set_log g n G H).
Proof. by constructor. Qed.

Lemma ghost_ok_log g n G H : ghost_ok g -> ghost_ok (g_set_log g n G H).
Proof. intros []. by constructor. Qed.

Lemma same_node_log g n G H n' : n' <> n -> same_node g (g_set_log g n G H) n'.
Proof. intros Hne. constructor; simpl; try done; by apply fn_lookup_insert_ne. Qed.

(** A change of the log proper. *)
Lemma base_ok_log g n s c cm s' c' cm' G H :
  base_ok g n s c cm ->
  ms_term s' = ms_term s -> ms_vote s' = ms_vote s ->
  mem_rel s' G -> length H = length G ->
  drop (N.to_nat (ms_snapIdx s')) H = drop (N.to_nat (ms_snapIdx s')) G ->
  (ms_snapIdx s' = len G -> H = G) -> honest (g_ll g) H ->
  Forall (fun e => (1 <= e_Term e <= ms_term s)%N) H ->
  (forall T i, (0 < i <= g_ack g n T)%N -> tm (g_ll g T) i = Some T -> (T <= ms_term s)%N ->
     pre i (g_ll g T) `prefix_of` g_H g n ->
     pre i (g_ll g T) `prefix_of` H \/
     exists T', (T < T' <= ms_term s)%N /\ g_led g T' <> None /\ ~ pre i (g_ll g T) `prefix_of` g_init g T') ->
  (ms_snapIdx s' <= c' <= cm')%N -> cpre g (ms_term s) cm' G ->
  base_ok (g_set_log g n G H) n s' c' cm'.
Proof.
  intros Hb Ht Hv Hrel Hlen Htail Hclean Hhon Hterms Hack Hc Hcp. pose proof Hb as [].
  constructor; simpl; rewrite ?fn_lookup_insert, ?Ht, ?Hv; auto.
  intros T i Hi Htm. destruct (n_ack T i Hi Htm) as [HT [Hp|Hex]]; (split; [done|]); [by apply Hack|by right].
Qed.

Lemma pres_flush g w n k s :
  inv g w -> let a := w_node w n in
  a_role a = Leader -> appendLocked (take k (a_pend a)) (a_mem a) = Ret s ->
  preserved g (moved w n (with_mem s (with_pend (drop k (a_pend a)) a)) []).
Proof.
  intros Hinv a Hr Happ. pose proof (i_node _ _ _ Hinv n) as [Hb Hl Hc]. fold a in Hb, Hl, Hc.
  destruct (Hl Hr) as (Hled & Hll & HH & Hm & Ho).
  apply append_at_end in Happ; [subst s|].
  2:{ intros i e He. apply lookup_take_Some in He as [He _].
      rewrite (rel_last _ _ (n_rel _ _ _ _ _ _ Hb)).
      assert (g_ll g (a_term a) !! (length (g_G g n) + i) = Some e) as Hx.
      { rewrite Hll, lookup_app_r by lia. by replace (length (g_G g n) + i - length (g_G g n)) with i by lia. }
      apply (gh_index _ _ (i_ghost _ _ _ Hinv)) in Hx. unfold len. lia. }
  set (G' := g_G g n ++ take k (a_pend a)).
  assert (G' `prefix_of` g_ll g (a_term a)) as Hpre.
  { rewrite Hll, <-(take_drop k (a_pend a)), app_assoc. by eexists. }
  exists (g_set_log g n G' G'). split; [apply gle_set_log|].
  apply (inv_move peers g); [done|apply gle_set_log|by apply ghost_ok_log, Hinv| |by intros; apply same_node_log|auto using no_msgs].
  constructor; [|intros _|by intros E; simpl in E; congruence].
  - eapply base_ok_log; try done; simpl.
    + pose proof (rel_announced (mkAN (a_mem a) Leader ∅ (take k (a_pend a)) 0 0 (fun _ => 0%N) []) _
        (n_rel _ _ _ _ _ _ Hb)) as Hrel. exact Hrel.
    + eapply honest_prefix; [apply (gh_honest _ _ (i_ghost _ _ _ Hinv) (a_term a))|done].
    + eapply Forall_pre; [exact Hpre|]. apply (gh_terms _ _ (i_ghost _ _ _ Hinv)).
    + intros T i _ _ _ Hp. left. etrans; [exact Hp|]. rewrite HH. by eexists.
    + apply (n_commit _ _ _ _ _ _ Hb).
    + eapply cpre_prefix; [apply (n_cpre _ _ _ _ _ _ Hb)|]. by eexists.
  - unfold a_term at 1 2. simpl. fold (a_term a). rewrite !fn_lookup_insert. split_and!; try done.
    rewrite Hll. unfold G'. by rewrite <-app_assoc, take_drop.
Qed.

(** ** Followers' entries *)

Lemma pre_agree_le i j L1 L2 : (i <= j)%N -> pre j L1 = pre j L2 -> pre i L1 = pre i L2.
Proof. intros Hij H. by rewrite <-(pre_pre i j L1), <-(pre_pre i j L2), H. Qed.

(** The new log of a follower that stores entries of its leader: nothing it
    acknowledged or learned to be committed sits behind the conflict. *)
Section Accept.
Context (g : ghost) (w : world) (n : NodeID) (s : MemStore) (c cm q : N) (e : Entry).
Context (Hinv : inv g w) (Hb : base_ok g n s c cm).
Let T := ms_term s.
Context (Hled : g_led g T <> None).
Context (Hq : (ms_snapIdx s <= q)%N) (Hqlen : (q <= len (g_G g n))%N).
Context (HqG : pre q (g_G g n) = pre q (g_ll g T)).
Context (Hnext : g_ll g T !! N.to_nat q = Some e) (Hconf : mem_Term (q + 1) s <> Ret (e_Term e)).

Lemma conflict_tm L i : pre i L = pre i (g_ll g T) -> (q < i)%N -> tm L (q + 1) = Some (e_Term e).
Proof.
  intros Hp Hi. rewrite <-(tm_pre L i), Hp, tm_pre by lia. unfold tm.
  destruct (N.eqb_spec (q + 1) 0); [lia|]. replace (N.to_nat (q + 1 - 1)) with (N.to_nat q) by lia.
  by rewrite Hnext.
Qed.

Lemma conflict_above L i :
  pre i L = pre i (g_ll g T) -> tm L (q + 1) = tm (g_G g n) (q + 1) -> (i <= q)%N.
Proof.
  intros Hp Ht. destruct (N.le_gt_cases i q) as [|Hgt]; [done|]. exfalso. apply Hconf.
  apply (rel_Term _ _ _ _ (n_rel _ _ _ _ _ _ Hb)). split; [lia|].
  rewrite <-Ht. by eapply conflict_tm.
Qed.

Lemma conflict_commit : (cm <= q)%N.
Proof.
  apply (conflict_above (g_G g n)); [|done].
  by apply (cpre_leader peers Hnodup g w T cm _ T Hinv (n_cpre _ _ _ _ _ _ Hb)).
Qed.

Lemma conflict_ack T1 i G' :
  (0 < i <= g_ack g n T1)%N -> tm (g_ll g T1) i = Some T1 -> (T1 <= T)%N ->
  pre i (g_ll g T1) `prefix_of` g_H g n -> G' `prefix_of` g_ll g T -> (q <= len G')%N ->
  pre i (g_ll g T1) `prefix_of` G' \/
  exists T', (T1 < T' <= T)%N /\ g_led g T' <> None /\ ~ pre i (g_ll g T1) `prefix_of` g_init g T'.
Proof.
  intros Hi Htm HT Hp HG' Hql. pose proof (i_ghost _ _ _ Hinv) as Hg.
  pose proof (ack_len peers g n T1 i Hg Hi) as Hil.
  assert (pre i (g_ll g T1) `prefix_of` g_ll g T \/
          ((T1 < T)%N /\ ~ pre i (g_ll g T1) `prefix_of` g_init g T)) as [HT1|[? ?]].
  { destruct (N.eq_dec T1 T) as [->|]; [left; apply pre_prefix|].
    destruct (decide (pre i (g_ll g T1) `prefix_of` g_init g T)) as [Hin|]; [left|right; split; [lia|done]].
    etrans; [exact Hin|]. by apply (init_prefix peers). }
  2:{ right. exists T. split_and!; try done; lia. }
  left. apply (prefix_both_le _ _ (g_ll g T)); [done|done|]. rewrite len_pre by done.
  etrans; [|exact Hql]. apply (conflict_above (g_H g n)).
  - apply pre_prefix_le in HT1; [|done]. apply pre_prefix_le in Hp; [|done]. congruence.
  - eapply tm_H; [exact Hb|lia].
Qed.
End Accept.

Lemma pres_accept g w n m j k e s :
  inv g w -> let a := w_node w n in
  a_role a = Follower -> m ∈ w_msgs w -> m_Type m = MsgApp -> m_Term m = a_term a ->
  (a_commit a <= m_Index m)%N -> mem_Term (m_Index m) (a_mem a) = Ret (m_LogTerm m) ->
  Forall (fun e => mem_Term (e_Index e) (a_mem a) = Ret (e_Term e)) (take j (m_Entries m)) ->
  m_Entries m !! j = Some e -> mem_Term (e_Index e) (a_mem a) <> Ret (e_Term e) ->
  0 < k -> appendLocked (take k (drop j (m_Entries m))) (a_mem a) = Ret s ->
  preserved g (moved w n (with_mem s a) []).
Proof.
  intros Hinv a Hr Hm Hty Hterm Hcom Hprev Hf He Hconf Hk Happ.
  pose proof (i_node _ _ _ Hinv n) as [Hb _ _]. fold a in Hb.
  pose proof (i_msgs _ _ _ Hinv m Hm) as Hok. pose proof (i_ghost _ _ _ Hinv) as Hg.
  assert (g_led g (a_term a) <> None) as Hled by (rewrite <-Hterm; by apply app_led).
  set (q := (m_Index m + N.of_nat j)%N).
  destruct (app_matched g m j (a_mem a) Hg Hok Hty Hterm Hprev) as (t & Hmt & Htt); [|done|].
  { apply lookup_lt_Some in He. lia. }
  destruct (agree g w n _ _ _ _ t Hinv Hb Hled Hmt Htt) as (Hql & HqG & _). fold q in Hmt, Htt, Hql, HqG.
  apply (rel_Term _ _ _ _ (n_rel _ _ _ _ _ _ Hb)) in Hmt as [Hqs _].
  destruct (app_entry g m j e Hg Hok Hty He) as (Hei & Hnext & _). rewrite Hterm in Hnext. fold q in Hnext.
  assert (e_Index e = q + 1)%N as Heq by (subst q; lia).
  rewrite (drop_S _ _ _ He) in Happ. destruct k as [|k]; [lia|]. cbn [take] in Happ.
  destruct (rel_append _ _ _ _ _ (n_rel _ _ _ _ _ _ Hb) Happ) as (_ & Hrel & Hst & Hsv & Hsi).
  set (G' := pre (e_Index e - 1) (g_G g n) ++ e :: take k (drop (S j) (m_Entries m))) in Hrel.
  assert (pre (e_Index e - 1) (g_G g n) = pre q (g_ll g (a_term a))) as Hpq
    by (rewrite Heq; replace (q + 1 - 1)%N with q by lia; done).
  assert (G' `prefix_of` g_ll g (a_term a)) as HG'.
  { unfold G'. rewrite Hpq. unfold pre.
    rewrite <-(take_drop (N.to_nat q) (g_ll g (a_term a))) at 2. apply prefix_app.
    pose proof Hok as (_ & _ & Hok'). rewrite Hty, Hterm in Hok'. destruct Hok' as (_ & _ & [x Hx] & _).
    replace (N.to_nat q) with (N.to_nat (m_Index m) + j) by (subst q; lia).
    rewrite <-drop_drop, Hx, drop_app_le by (apply lookup_lt_Some in He; lia).
    rewrite (drop_S _ _ _ He). simpl. apply prefix_cons. etrans; [apply prefix_take|by eexists]. }
  assert (q <= len G')%N as HlenG'.
  { unfold G'. rewrite Hpq. unfold len. rewrite length_app. unfold pre. rewrite length_take.
    apply tm_len in Htt. unfold len, a_term in *. lia. }
  assert (mem_Term (q + 1) (a_mem a) <> Ret (e_Term e)) as Hconf' by (by rewrite <-Heq).
  assert (a_cmax a <= q)%N as Hcmq by (by eapply (conflict_commit g w n (a_mem a) _ _ q e)).
  exists (g_set_log g n G' G'). split; [apply gle_set_log|].
  apply (inv_move peers g); [done|apply gle_set_log|by apply ghost_ok_log| |by intros; apply same_node_log|auto using no_msgs].
  constructor; [|by intros E; simpl in E; congruence..].
  eapply base_ok_log; try done.
  - eapply honest_prefix; [apply (gh_honest _ _ Hg (a_term a))|done].
  - eapply Forall_pre; [exact HG'|]. apply (gh_terms _ _ Hg).
  - intros T1 i Hi Htm HT Hp. by eapply (conflict_ack g w n (a_mem a) _ _ q e).
  - simpl. rewrite Hsi. apply (n_commit _ _ _ _ _ _ Hb).
  - pose proof (n_cpre _ _ _ _ _ _ Hb) as [_ Hc]. split; [simpl; lia|].
    destruct Hc as [?|(Tc & ? & ? & Heqc)]; [by left|right]. exists Tc. split_and!; try done.
    simpl. rewrite <-Heqc. rewrite <-(pre_of_prefix _ G' _ HG') by lia.
    symmetry. by eapply pre_agree_le.
Qed.

(** ** Snapshots *)

(** Two leaders' snapshots at the same index cover the same entries. *)
Lemma snap_agree g w T1 T2 i t1 t2 :
  inv g w -> snap_ok g T1 i t1 -> snap_ok g T2 i t2 -> t1 = t2.
Proof.
  intros Hinv (Hl1 & Ht1 & Hc1) (Hl2 & Ht2 & Hc2).
  assert (forall Ta Tb, g_led g Tb <> None -> cpre g Ta i (g_ll g Ta) -> (Ta <= Tb)%N ->
    tm (g_ll g Ta) i = tm (g_ll g Tb) i) as Hgen.
  { intros Ta Tb Hl Hc HT. destruct (cpre_leader peers Hnodup g w Ta i _ Tb Hinv Hc HT Hl) as [_ Heq].
    by rewrite <-(tm_pre _ i), Heq, tm_pre. }
  destruct (N.le_gt_cases T1 T2).
  - rewrite (Hgen T1 T2) in Ht1 by done. congruence.
  - rewrite (Hgen T2 T1) in Ht2 by (done || lia). congruence.
Qed.

Lemma pres_install g w n m m0 d s :
  inv g w -> let a := w_node w n in
  a_role a = Follower -> m ∈ w_msgs w -> m0 ∈ w_msgs w -> m_Type m = MsgSnap -> m_Type m0 = MsgSnap ->
  m_Term m = a_term a -> m_Index m0 = m_Index m -> (a_commit a < m_Index m)%N ->
  mem_Compact (m_Index m) (m_LogTerm m0) d (a_mem a) = Ret s ->
  preserved g (moved w n (with_commit (m_Index m) (with_mem s a)) []).
Proof.
  intros Hinv a Hr Hm Hm0 Hty Hty0 Hterm Hidx Hlt Hcomp.
  pose proof (i_node _ _ _ Hinv n) as [Hb _ _]. fold a in Hb. pose proof (i_ghost _ _ _ Hinv) as Hg.
  destruct (i_msgs _ _ _ Hinv m Hm) as (_ & _ & Hs). rewrite Hty, Hterm in Hs.
  destruct (i_msgs _ _ _ Hinv m0 Hm0) as (_ & _ & Hs0). rewrite Hty0, Hidx in Hs0.
  pose proof (snap_agree g w _ _ _ _ _ Hinv Hs Hs0) as Htt. destruct Hs as (Hled & Htm & Hcp).
  set (i := m_Index m) in *. set (T := a_term a) in *.
  pose proof (n_commit _ _ _ _ _ _ Hb) as Hcm. pose proof (tm_len _ _ _ Htm) as Hil.
  destruct (rel_compact (a_mem a) (g_G g n) i (m_LogTerm m0) d s (pre i (g_ll g T)))
    as (Hrel & Hst & Hsv & Hsi & _); [apply Hb|lia|by apply len_pre|rewrite tm_pre by lia; congruence|done|].
  set (G' := pre i (g_ll g T) ++ drop (N.to_nat i) (g_G g n)) in Hrel.
  set (H' := if decide (i < len (g_G g n))%N then g_H g n else G').
  assert (length G' = N.to_nat (N.max i (len (g_G g n)))) as HlG.
  { unfold G', len, pre in *. rewrite length_app, length_take, length_drop. lia. }
  assert (~ (i < len (g_G g n))%N -> G' = pre i (g_ll g T)) as Hge.
  { intros H. unfold G'. rewrite drop_ge, app_nil_r; [done|]. unfold len in H. lia. }
  exists (g_set_log g n G' H'). split; [apply gle_set_log|].
  apply (inv_move peers g); [done|apply gle_set_log|by apply ghost_ok_log| |by intros; apply same_node_log|auto using no_msgs].
  constructor; [|by intros E; simpl in E; congruence..].
  pose proof (n_len _ _ _ _ _ _ Hb) as HHl.
  eapply base_ok_log; try done; simpl; rewrite ?Hsi.
  - unfold H'. case_decide; [|done]. unfold len in *. lia.
  - unfold H'. case_decide; [|done]. unfold G'. rewrite drop_app_length' by (unfold pre, len in *; rewrite length_take; lia).
    pose proof (n_tail _ _ _ _ _ _ Hb) as Ht. apply (f_equal (drop (N.to_nat (i - ms_snapIdx (a_mem a))))) in Ht.
    rewrite !drop_drop in Ht.
    replace (N.to_nat (ms_snapIdx (a_mem a)) + N.to_nat (i - ms_snapIdx (a_mem a))) with (N.to_nat i) in Ht by lia.
    done.
  - unfold H'. case_decide; [|done]. unfold len in *. rewrite HlG. lia.
  - unfold H'. case_decide as Hd; [apply Hb|]. rewrite Hge by done.
    eapply honest_prefix; [apply (gh_honest _ _ Hg T)|apply pre_prefix].
  - unfold H'. case_decide as Hd; [apply Hb|]. rewrite Hge by done.
    eapply Forall_pre; [apply pre_prefix|apply (gh_terms _ _ Hg T)].
  - intros T1 j Hj Htj HT1 Hp. unfold H'. case_decide as Hd; [by left|]. rewrite Hge by done.
    pose proof (ack_len peers g n T1 j Hg Hj) as Hjl.
    assert (j <= i)%N as Hji.
    { apply prefix_length in Hp. pose proof (len_pre j _ Hjl). unfold len in *. lia. }
    destruct (N.eq_dec T1 T) as [->|Hne]; [left; rewrite <-(pre_pre j i) by done; apply pre_prefix|].
    destruct (decide (pre j (g_ll g T1) `prefix_of` g_init g T)) as [Hin|Hno].
    + left. apply (prefix_both_le _ _ (g_ll g T)); [|apply pre_prefix|by rewrite !len_pre by lia].
      etrans; [exact Hin|]. by apply (init_prefix peers).
    + right. exists T. split_and!; try done. change (T1 <= T)%N in HT1. lia.
  - lia.
  - destruct (N.max_spec (a_cmax a) i) as [[_ ->]|[Hle ->]].
    + eapply cpre_prefix; [|by eexists]. destruct Hcp as [_ Hcp]. split; [by rewrite len_pre by lia|].
      destruct Hcp as [?|(Tc & ? & ? & ?)]; [by left|right]. exists Tc. split_and!; try done. by rewrite pre_pre.
    + (* everything known to be committed is beyond the snapshot: nothing changes *)
      assert (G' = g_G g n) as ->; [|apply Hb].
      destruct (cpre_leader peers Hnodup g w T _ _ T Hinv (n_cpre _ _ _ _ _ _ Hb) (N.le_refl _) Hled) as [_ Heq].
      unfold G'. rewrite <-(pre_agree_le i _ _ _ Hle Heq). apply take_drop.
Qed.

Lemma pres_compact g w n i t d s :
  inv g w -> let a := w_node w n in
  (a_snapIdx a < i <= a_commit a)%N -> mem_Term i (a_mem a) = Ret t ->
  mem_Compact i t d (a_mem a) = Ret s ->
  preserved g (moved w n (with_mem s a) []).
Proof.
  intros Hinv a Hi Ht Hcomp. pose proof (i_node _ _ _ Hinv n) as [Hb Hl Hc]. fold a in Hb, Hl, Hc.
  pose proof (n_rel _ _ _ _ _ _ Hb) as Hrel0. unfold a_snapIdx in Hi.
  apply (rel_Term _ _ _ _ Hrel0) in Ht as [_ Ht]. pose proof (tm_len _ _ _ Ht) as Hil.
  destruct (rel_compact (a_mem a) (g_G g n) i t d s (pre i (g_G g n)))
    as (Hrel & Hst & Hsv & Hsi & _); [done|lia|by apply len_pre|by rewrite tm_pre by lia|done|].
  unfold pre in Hrel. rewrite take_drop in Hrel.
  apply preserved_same; [done| |auto]. constructor.
  2:{ unfold lead_ok, a_term. simpl. rewrite Hst. exact Hl. }
  2:{ unfold cand_ok, a_term, a_vote. simpl. rewrite Hst, Hsv. exact Hc. }
  pose proof Hb as []. constructor; simpl; rewrite ?Hst, ?Hsv; auto.
  - rewrite Hsi. replace (N.to_nat i) with (N.to_nat (ms_snapIdx (a_mem a)) + N.to_nat (i - ms_snapIdx (a_mem a))) by lia.
    by rewrite <-!drop_drop, n_tail.
  - (* the whole log is committed, so it is consistent *)
    rewrite Hsi. intros ->. pose proof (n_cpre) as [_ [H0|(Tc & _ & Hcm & Heq)]]; [lia|].
    assert (pre (len (g_G g n)) (g_H g n) = pre (len (g_G g n)) (g_G g n)) as Hp.
    { eapply honest_match; [apply n_honest| |erewrite tm_H; [exact Ht|exact Hb|lia]|done].
      eapply honest_prefix; [apply (gh_honest _ _ (i_ghost _ _ _ Hinv) Tc)|].
      apply prefix_pre. symmetry. rewrite <-(pre_len (g_G g n) (len (g_G g n))) at 1 by lia.
      eapply pre_agree_le; [|exact Heq]. lia. }
    rewrite !pre_len in Hp; [done|lia|]. unfold len in *. lia.
  - rewrite Hsi. lia.
Qed.

(** ** The invariant holds in every reachable state *)

Lemma step_inv g w w' : inv g w -> wstep peers w w' -> preserved g w'.
Proof.
  intros Hinv Hs. destruct Hs as [n lab a Hp Hn0 Hst].
  pose proof (i_node _ _ _ Hinv n) as [Hb _ _].
  destruct Hst; cbn [sent].
  - apply pres_follower; [done|]. by apply base_ok_term.
  - by apply pres_follower.
  - by apply pres_cand.
  - by apply (pres_vote g w n m).
  - by apply (pres_send g w n m).
  - by apply (pres_recvvote g w n m).
  - by apply (pres_lead g w n).
  - by apply (pres_announce g w n).
  - by apply (pres_flush g w n).
  - by eapply (pres_accept g w n).
  - by apply (pres_commit_follower g w n m).
  - by apply (pres_match g w n).
  - by apply (pres_commit_leader g w n i Q).
  - by apply (pres_open_snapshot g w n).
  - by eapply (pres_install g w n m m0).
  - by eapply (pres_compact g w n i t d).
  - by apply (pres_restart g w n c).
Qed.

Definition g_start : ghost :=
  mkGhost (fun _ => []) (fun _ => []) (fun _ => None) (fun _ => ∅) (fun _ => []) (fun _ => [])
    (fun _ _ => None) (fun _ _ => None) (fun _ _ => 0%N).

Lemma inv_start : inv g_start w_init.
Proof.
  constructor.
  - constructor; simpl; try done; try (intros; apply honest_nil); intros; lia.
  - intros n. constructor; [|done|done]. constructor; simpl; try done; try (intros; lia).
    + split; [done|by left].
  - intros m Hm. by apply not_elem_of_nil in Hm.
Qed.

Lemma reachable_inv w : reachable peers w -> exists g, inv g w.
Proof.
  induction 1 as [|w w' _ [g Hinv] Hs]; [exists g_start; apply inv_start|].
  destruct (step_inv g w w' Hinv Hs) as (g' & _ & ?). eauto.
Qed.

Lemma steps_inv g w w' : inv g w -> rtc (wstep peers) w w' -> exists g', gle g g' /\ inv g' w'.
Proof.
  intros Hinv Hs. revert g Hinv. induction Hs as [w|w w1 w2 Hs _ IH]; intros g Hinv; [eauto using gle_refl|].
  destruct (step_inv g w w1 Hinv Hs) as (g1 & Hle1 & Hinv1).
  destruct (IH g1 Hinv1) as (g2 & Hle2 & Hinv2). exists g2. split; [|done]. by eapply gle_trans.
Qed.
End Preserve.
