(* ===== verification/Refine.v ===== *)
(** * [Raft] implements the protocol

    Every call of the code is a run of protocol steps with the same effects
    in the same order.  The proof is a weakest precondition calculus over
    the monad of [Raft]: [wp] says that a call, started in a state related
    to a protocol node, performs steps of the protocol as it goes; because
    each effect is one step, that also covers a crash between two effects
    and a panic. *)

From stdpp Require Import base list gmap functions sorting.
From S2P Require Import Prelude LogStore Raft Protocol.

Section Refine.
Context {S : Type} `{LS : LogStore S} `{OK : !LogStoreOK S}.
Context (peers : list NodeID) (n : NodeID).

Implicit Types (r : Raft S) (a : anode) (Ms : list Message).

#[local] Abbreviation astep := (astep peers).

(** ** Runs of protocol steps *)

Definition eff_list (lab : option effect) : list effect := match lab with Some e => [e] | None => [] end.

Inductive asteps : list Message -> anode -> list effect -> anode -> Prop :=
  | asteps_nil Ms a : asteps Ms a [] a
  | asteps_cons Ms a lab a1 tr a2 :
      astep Ms n a lab a1 -> asteps (sent lab ++ Ms) a1 tr a2 -> asteps Ms a (eff_list lab ++ tr) a2.

(** The messages after a trace. *)
Fixpoint after (tr : list effect) (Ms : list Message) : list Message :=
  match tr with
  | [] => Ms
  | e :: tr => after tr (sent (Some e) ++ Ms)
  end.

Lemma after_app tr1 tr2 Ms : after (tr1 ++ tr2) Ms = after tr2 (after tr1 Ms).
Proof. revert Ms. induction tr1 as [|e tr1 IH]; intros Ms; simpl; [done|]. apply IH. Qed.

Lemma after_incl tr Ms m : m ∈ Ms -> m ∈ after tr Ms.
Proof.
  revert Ms. induction tr as [|e tr IH]; intros Ms Hm; simpl; [done|].
  apply IH, elem_of_app. by right.
Qed.

Lemma after_lab lab tr Ms : after (eff_list lab ++ tr) Ms = after tr (sent lab ++ Ms).
Proof. by destruct lab. Qed.

Lemma asteps_trans Ms a tr1 a1 tr2 a2 :
  asteps Ms a tr1 a1 -> asteps (after tr1 Ms) a1 tr2 a2 -> asteps Ms a (tr1 ++ tr2) a2.
Proof.
  induction 1 as [|Ms a lab a0 tr a1 Hs _ IH]; intros H2; [done|].
  rewrite <-app_assoc. econstructor; [done|]. apply IH. by rewrite after_lab in H2.
Qed.

Lemma asteps_one Ms a lab a1 : astep Ms n a lab a1 -> asteps Ms a (eff_list lab) a1.
Proof. intros Hs. rewrite <-(app_nil_r (eff_list lab)). econstructor; [done|constructor]. Qed.

(** ** Weakest preconditions *)

(** Everything [r'] did since [r] was protocol steps. *)
Definition ran Ms r r' a a' : Prop := exists tr, r_trace r' = r_trace r ++ tr /\ asteps Ms a tr a'.

Definition wp {A} (H : @M S A) (Q : A -> list Message -> Raft S -> anode -> Prop)
    (E : list Message -> Raft S -> anode -> Prop) Ms r a : Prop :=
  exists tr a', r_trace (H r).1 = r_trace r ++ tr /\ asteps Ms a tr a' /\
    match (H r).2 with
    | Ret x => Q x (after tr Ms) (H r).1 a'
    | Fail _ => E (after tr Ms) (H r).1 a'
    | Panic => True
    end.

Lemma wp_ret {A} (x : A) Q E Ms r a : Q x Ms r a -> wp (mret x) Q E Ms r a.
Proof. intros HQ. exists [], a. rewrite app_nil_r. split_and!; [done|constructor|done]. Qed.

Lemma wp_bind {A B} (H1 : @M S A) (f : A -> @M S B) Q E Ms r a :
  wp H1 (fun x Ms r a => wp (f x) Q E Ms r a) E Ms r a -> wp (H1 ≫= f) Q E Ms r a.
Proof.
  intros (tr & a1 & Htr & Hst & HQ). unfold wp, mbind, M_bind.
  destruct (H1 r) as [r1 res]. simpl in *. destruct res as [x|e|]; simpl.
  - destruct HQ as (tr2 & a2 & Htr2 & Hst2 & HQ2). exists (tr ++ tr2), a2.
    rewrite after_app, app_assoc, <-Htr. split_and!; [done|by eapply asteps_trans|done].
  - by exists tr, a1.
  - by exists tr, a1.
Qed.

Lemma wp_mono {A} (H : @M S A) (Q Q' : A -> _ -> _ -> _ -> Prop) E Ms r a :
  wp H Q E Ms r a -> (forall x Ms' r' a', Q x Ms' r' a' -> Q' x Ms' r' a') -> wp H Q' E Ms r a.
Proof.
  intros (tr & a' & H1 & H2 & H3) HQ. exists tr, a'. split_and!; [done..|].
  destruct (H r).2; auto.
Qed.

(** The protocol may take a step of its own at any time. *)
Lemma wp_step {A} (H : @M S A) Q E Ms r a a1 :
  astep Ms n a None a1 -> wp H Q E Ms r a1 -> wp H Q E Ms r a.
Proof.
  intros Hs (tr & a2 & H1 & H2 & H3). exists tr, a2. split_and!; [done| |done].
  by apply (asteps_cons Ms a None a1 tr a2).
Qed.

Lemma wp_get {A} (f : Raft S -> A) Q E Ms r a : Q (f r) Ms r a -> wp (get f) Q E Ms r a.
Proof. intros HQ. exists [], a. rewrite app_nil_r. split_and!; [done|constructor|done]. Qed.

Lemma wp_modify (f : Raft S -> Raft S) Q E Ms r a :
  r_trace (f r) = r_trace r -> Q tt Ms (f r) a -> wp (modify f) Q E Ms r a.
Proof. intros Ht HQ. exists [], a. rewrite app_nil_r. split_and!; [done|constructor|done]. Qed.

Lemma wp_panic {A} Q E Ms r a : wp (@panic S A) Q E Ms r a.
Proof. exists [], a. rewrite app_nil_r. split_and!; [done|constructor|done]. Qed.

Lemma wp_raise {A} e Q (E : _ -> _ -> _ -> Prop) Ms r a : E Ms r a -> wp (@raise S A e) Q E Ms r a.
Proof. intros HE. exists [], a. rewrite app_nil_r. split_and!; [done|constructor|done]. Qed.

Lemma wp_must {A} (f : S -> go A) Q E Ms r a :
  (forall x, f (r_store r) = Ret x -> Q x Ms r a) -> wp (must f) Q E Ms r a.
Proof.
  intros HQ. exists [], a. rewrite app_nil_r. unfold must.
  destruct (f (r_store r)) eqn:Ef; simpl; (split_and!; [done|constructor|auto]).
Qed.

(** A write of the store is a step that has this effect. *)
Lemma wp_write eff f Q E Ms r a a1 :
  (forall s, f (r_store r) = Ret s \/ f (r_store r) = Fail ErrIO -> astep Ms n a (Some eff) a1) ->
  (forall s, f (r_store r) = Ret s ->
     Q tt (after [eff] Ms) (set_trace (r_trace r ++ [eff]) (set_store s r)) a1) ->
  wp (write eff f) Q E Ms r a.
Proof.
  intros Hs HQ. unfold wp, write. destruct (f (r_store r)) as [s|e|] eqn:Ef; simpl.
  - exists [eff], a1. split_and!; [done| |by apply HQ].
    apply (asteps_one _ _ (Some eff)). eapply (Hs s). by left.
  - destruct (decide (e = ErrIO)) as [->|Hne].
    + exists [eff], a1. split_and!; [done| |done].
      apply (asteps_one _ _ (Some eff)). eapply (Hs (r_store r)). by right.
    + assert (match e with ErrIO => (set_trace (r_trace r ++ [eff]) r, @Panic unit) | _ => (r, Panic) end = (r, Panic)) as ->
        by (by destruct e).
      exists [], a. rewrite app_nil_r. split_and!; [done|constructor|done].
  - exists [], a. rewrite app_nil_r. split_and!; [done|constructor|done].
Qed.

Lemma wp_for_each {A} (l : list A) (f : A -> @M S unit) (I : list Message -> Raft S -> anode -> Prop) E Ms r a :
  I Ms r a -> (forall x Ms r a, x ∈ l -> I Ms r a -> wp (f x) (fun _ => I) E Ms r a) ->
  wp (for_each l f) (fun _ => I) E Ms r a.
Proof.
  revert Ms r a. induction l as [|x l IH]; intros Ms r a HI Hf; simpl; [by apply wp_ret|].
  apply wp_bind. eapply wp_mono; [apply Hf; [apply list_elem_of_here|done]|].
  intros ? Ms' r' a' HI'. apply IH; [done|]. intros y Ms2 r2 a2 Hy. apply Hf. by apply list_elem_of_further.
Qed.

(** ** The relation between a node of the code and one of the protocol *)

Definition granted_set (vm : gmap NodeID bool) : gset NodeID :=
  dom (filter (fun kv : NodeID * bool => kv.2 = true) vm).

(** The store the node wrote is the one the protocol has. *)
Definition store_rel r a : Prop := ls_ok (r_store r) /\ ls_view (r_store r) = a_mem a.

(** [pd] are the entries a leader announced and has not stored yet. *)
Record simP (pd : list Entry) Ms r a : Prop := {
  sim_store : store_rel r a;
  sim_id : r_id r = n;
  sim_peers : r_peers r = peers;
  sim_term : r_term r = a_term a;
  sim_vote : r_vote r = a_vote a;
  sim_role : r_state r = a_role a;
  sim_commit : r_commit r = a_commit a;
  sim_pend : a_pend a = pd;
  sim_snap : (a_snapIdx a <= a_commit a)%N;
  sim_votes : a_role a = Candidate -> exists vm, r_votes r = Some vm /\ a_votes a = granted_set vm;
  sim_match : a_role a = Leader -> forall p, match_of r p = a_match a p;
  sim_out : a_role a = Leader -> forall p x, r_snapOut r ≫= lookup p = Some x -> (x_index x, x_term x) ∈ a_out a;
  sim_in : forall x, r_snapIn r = Some x ->
    exists m0, m0 ∈ Ms /\ m_Type m0 = MsgSnap /\ m_Index m0 = x_index x /\ m_LogTerm m0 = x_term x;
}.

Definition sim : list Message -> Raft S -> anode -> Prop := simP [].
Definition leading Ms r a : Prop := sim Ms r a /\ a_role a = Leader.

(** Calls that may fail leave the relation intact. *)
#[local] Abbreviation wpS H Q := (wp H Q sim).

Lemma sim_more pd Ms Ms' r a : simP pd Ms r a -> (forall m, m ∈ Ms -> m ∈ Ms') -> simP pd Ms' r a.
Proof.
  intros [] Hm. constructor; auto. intros x Hx. destruct (sim_in0 x Hx) as (m0 & ? & ?). eauto.
Qed.

(** Fields the protocol does not see. *)
Lemma sim_ext pd Ms r r' a :
  r_cfg r' = r_cfg r -> r_store r' = r_store r -> r_term r' = r_term r -> r_vote r' = r_vote r ->
  r_state r' = r_state r -> r_commit r' = r_commit r -> r_votes r' = r_votes r ->
  r_match r' = r_match r -> r_snapOut r' = r_snapOut r -> r_snapIn r' = r_snapIn r ->
  simP pd Ms r a -> simP pd Ms r' a.
Proof.
  intros H1 H2 H3 H4 H5 H6 H7 H8 H9 H10 []. constructor; unfold r_id, r_peers, match_of, store_rel in *;
    rewrite ?H1, ?H2, ?H3, ?H4, ?H5, ?H6, ?H7, ?H8, ?H9, ?H10; auto.
Qed.

Lemma sim_sent pd Ms r a m t : simP pd Ms r a -> simP pd (m :: Ms) (set_trace t r) a.
Proof.
  intros Hs. apply (sim_more pd Ms); [by eapply sim_ext; [..|exact Hs]|].
  intros m' ?. by apply list_elem_of_further.
Qed.

Definition stamp r (m : Message) : Message :=
  mkMessage (m_Type m) (r_id r) (m_To m) (r_term r) (m_Index m) (m_LogTerm m) (m_Entries m)
    (m_Commit m) (m_Reject m) (m_ConflictTerm m) (m_ConflictIndex m) (m_ReadID m)
    (m_Data m) (m_Offset m) (m_Done m).

Lemma wp_send pd m Q E Ms r a :
  simP pd Ms r a -> can_send Ms n a m ->
  Q tt (stamp r m :: Ms) (set_trace (r_trace r ++ [ESend (stamp r m)]) r) a ->
  wp (send m) Q E Ms r a.
Proof.
  intros Hs Hc HQ. exists [ESend (stamp r m)], a. split_and!; [done| |done].
  apply (asteps_one _ _ (Some (ESend (stamp r m)))). apply AS_send; simpl.
  - apply Hs.
  - apply Hs.
  - exact Hc.
Qed.

(** The last thing a handler does is often to answer. *)
Lemma wp_send_sim m Ms r a :
  sim Ms r a -> can_send Ms n a m -> wpS (send m) (fun _ => sim) Ms r a.
Proof. intros Hs Hc. eapply wp_send; [done|done|]. by apply sim_sent. Qed.

Lemma wp_send_leading m Ms r a :
  leading Ms r a -> can_send Ms n a m -> wpS (send m) (fun _ => leading) Ms r a.
Proof. intros [Hs Hr] Hc. eapply wp_send; [done|done|]. split; [by apply sim_sent|done]. Qed.

Lemma wp_termAt i Q E Ms r a :
  store_rel r a -> (forall t, mem_Term i (a_mem a) = Ret t -> Q t Ms r a) -> wp (termAt i) Q E Ms r a.
Proof.
  intros [Hok Hv] HQ. apply wp_must. intros t Ht. apply HQ. by rewrite <-Hv, <-(ls_Term_ok i).
Qed.

Lemma wp_LastIndex Q E Ms r a : store_rel r a -> Q (a_last a) Ms r a -> wp LastIndex Q E Ms r a.
Proof. intros [Hok Hv] HQ. apply wp_get. by rewrite ls_LastIndex_ok, Hv. Qed.

Lemma wp_FirstIndex Q E Ms r a : store_rel r a -> Q (a_snapIdx a + 1)%N Ms r a -> wp FirstIndex Q E Ms r a.
Proof. intros [Hok Hv] HQ. apply wp_get. by rewrite ls_FirstIndex_ok, Hv. Qed.

Lemma wp_lastIndexAndTerm Q E Ms r a :
  store_rel r a -> (forall t, mem_Term (a_last a) (a_mem a) = Ret t -> Q (a_last a, t) Ms r a) ->
  wp lastIndexAndTerm Q E Ms r a.
Proof.
  intros Hs HQ. apply wp_bind, wp_LastIndex; [done|]. apply wp_bind, wp_termAt; [done|].
  intros t Ht. by apply wp_ret, HQ.
Qed.

Lemma wp_resetTimeout pd Q E Ms r a :
  simP pd Ms r a -> (forall r', simP pd Ms r' a -> Q tt Ms r' a) -> wp resetTimeout Q E Ms r a.
Proof.
  intros Hs HQ. exists [], a. unfold resetTimeout. rewrite app_nil_r.
  destruct (r_rng r); (split_and!; [done|constructor|]); apply HQ; by eapply sim_ext; [..|exact Hs].
Qed.

(** ** Changing role *)

Lemma wp_persist Q E Ms r a a1 :
  store_rel r a -> a_mem a1 = set_st (r_term r) (r_vote r) (a_mem a) ->
  astep Ms n a (Some (EState (r_term r) (r_vote r))) a1 ->
  (forall s t, store_rel (set_store s r) a1 -> Q tt Ms (set_trace t (set_store s r)) a1) ->
  wp persistState Q E Ms r a.
Proof.
  intros [Hok Hv] Ha1 Hst HQ. unfold persistState. apply (wp_write _ _ _ _ _ _ _ a1); [done|].
  intros s Hs. apply (HQ s). pose proof (ls_SetState_ok (r_term r) (r_vote r) _ Hok) as H.
  rewrite Hs, Hv in H. destruct H as (b & Hb & ? & ?). injection Hb as <-. split; [done|]. etrans; [eassumption|]. by rewrite Ha1.
Qed.

(** A follower's relation does not mention the books it forgot. *)
Lemma sim_follower Ms r r' s a :
  simP (a_pend a) Ms r a -> store_rel r' (follower s a) -> r_cfg r' = r_cfg r -> r_snapIn r' = r_snapIn r ->
  r_commit r' = r_commit r -> r_state r' = Follower -> r_term r' = ms_term s -> r_vote r' = ms_vote s ->
  ms_snapIdx s = ms_snapIdx (a_mem a) -> sim Ms r' (follower s a).
Proof.
  intros [] Hst Hcfg Hin Hc Hrole Ht Hv Hsi.
  constructor; unfold r_id, r_peers, a_snapIdx in *; simpl; rewrite ?Hcfg, ?Hin, ?Hc, ?Hsi; try done.
Qed.

Lemma wp_becomeFollower t lead Q Ms r a :
  sim Ms r a ->
  (forall r' a', sim Ms r' a' -> a_role a' = Follower -> a_term a' = N.max (a_term a) t ->
     a_commit a' = a_commit a -> Q tt Ms r' a') ->
  wpS (becomeFollower t lead) Q Ms r a.
Proof.
  intros Hs HQ. apply wp_bind, wp_get. rewrite (sim_term _ _ _ _ Hs).
  assert (forall r1 s, simP (a_pend a) Ms r a -> store_rel r1 (follower s a) -> r_cfg r1 = r_cfg r ->
    r_snapIn r1 = r_snapIn r -> r_commit r1 = r_commit r -> r_term r1 = ms_term s -> r_vote r1 = ms_vote s ->
    ms_snapIdx s = ms_snapIdx (a_mem a) -> ms_term s = N.max (a_term a) t ->
    wpS (st ← get r_state;
         modify (fun r => set_snapOut None (set_reads None (set_match None (set_next None (set_votes None
                     (set_lead lead (set_state Follower r)))))));;
         if bool_decide (lead <> 0%N \/ st <> Follower) then resetTimeout else mret tt) Q Ms r1 (follower s a)) as Hrest.
  { intros r1 s H1 H2 H3 H4 H5 H6 H7 H8 H9. apply wp_bind, wp_get, wp_bind, wp_modify; [done|].
    set (r2 := set_snapOut _ _). assert (sim Ms r2 (follower s a)) as Hs2 by (by eapply sim_follower).
    case_bool_decide; [eapply wp_resetTimeout; [exact Hs2|]; intros r3 Hs3|apply wp_ret]; by apply HQ. }
  assert (simP (a_pend a) Ms r a) as Hs' by (by rewrite (sim_pend _ _ _ _ Hs)).
  destruct (N.ltb_spec (a_term a) t) as [Hlt|Hge].
  - apply wp_bind, wp_bind, wp_modify; [done|].
    apply (wp_persist _ _ _ _ _ (follower (set_st t 0 (a_mem a)) a)); [apply Hs|done|by apply AS_term|].
    intros s tr Hst. apply Hrest; try done. simpl. lia.
  - apply wp_bind, wp_ret. apply (wp_step _ _ _ _ _ _ (follower (a_mem a) a)); [apply AS_stepdown|].
    apply Hrest; try done; [apply Hs|apply Hs|apply Hs|]. unfold a_term in *. lia.
Qed.

(** ** Maps *)

(** A write to a map either panics on nil or changes just this map. *)
Lemma wp_mput {V} set (m : option (gmap N V)) k (v : V) Q E Ms r a :
  (forall m', m = Some m' -> r_trace (set (Some (<[k := v]> m')) r) = r_trace r /\
     Q tt Ms (set (Some (<[k := v]> m')) r) a) ->
  wp (mput set m k v) Q E Ms r a.
Proof.
  intros HQ. unfold mput. destruct m as [m|]; [|apply wp_panic].
  destruct (HQ m eq_refl). by apply wp_modify.
Qed.

Lemma wp_put_next pd p i Q E Ms r a :
  simP pd Ms r a -> (forall r', simP pd Ms r' a -> Q tt Ms r' a) -> wp (put_next p i) Q E Ms r a.
Proof.
  intros Hs HQ. apply wp_bind, wp_get, wp_mput. intros m' _. split; [done|].
  apply HQ. by eapply sim_ext; [..|exact Hs].
Qed.

(** Raising a follower's match index. *)
Lemma wp_put_match v i Q E Ms r a :
  leading Ms r a ->
  (v = n /\ (i <= a_last a)%N) \/
  (exists m, m ∈ Ms /\ m_From m = v /\ m_To m = n /\ m_Term m = a_term a /\ m_Index m = i /\
     ((m_Type m = MsgAppResp /\ m_Reject m = false) \/ (m_Type m = MsgSnapResp /\ m_Done m = true))) ->
  (forall r' a', leading Ms r' a' -> a_mem a' = a_mem a -> Q tt Ms r' a') ->
  wp (put_match v i) Q E Ms r a.
Proof.
  intros [Hs Hr] Hor HQ. eapply wp_step; [by apply (AS_match _ _ _ _ v i)|].
  apply wp_bind, wp_get, wp_mput. intros m' Hm'. split; [done|]. apply HQ; [|done]. split; [|done].
  destruct Hs. constructor; try done.
  intros _ p. unfold match_of, mget. simpl.
  destruct (decide (p = v)) as [->|Hne].
  - by rewrite lookup_insert_eq, fn_lookup_insert.
  - rewrite lookup_insert_ne, fn_lookup_insert_ne, <-sim_match0 by done.
    unfold match_of, mget. by rewrite Hm'.
Qed.

(** ** Sending *)

Lemma wp_sendChunk to x Ms r a :
  leading Ms r a -> (x_index x, x_term x) ∈ a_out a -> wpS (sendChunk to x) (fun _ => leading) Ms r a.
Proof.
  intros Hl Hx. apply wp_bind, wp_get. cbv zeta; destruct (slice (x_data x) _ _); [|apply wp_panic..].
  apply wp_send_leading; [done|]. split; [apply Hl|done].
Qed.

Lemma wp_put_snapOut to x Q E Ms r a :
  leading Ms r a -> (x_index x, x_term x) ∈ a_out a ->
  (forall r', leading Ms r' a -> Q tt Ms r' a) -> wp (put_snapOut to x) Q E Ms r a.
Proof.
  intros [Hs Hr] Hx HQ. apply wp_bind, wp_get, wp_mput. intros m' Hm'. split; [done|]. apply HQ. split; [|done].
  destruct Hs. constructor; try done.
  intros _ p y. simpl. destruct (decide (p = to)) as [->|Hne].
  - rewrite lookup_insert_eq. by intros [= <-].
  - rewrite lookup_insert_ne by done. intros Hy. apply (sim_out0 Hr p). by rewrite Hm'.
Qed.

Lemma wp_sendSnapshot to Ms r a : leading Ms r a -> wpS (sendSnapshot to) (fun _ => leading) Ms r a.
Proof.
  intros [Hs Hr]. apply wp_bind, wp_must. intros [[idx t] data] Hsnap.
  destruct (sim_store _ _ _ _ Hs) as [Hok Hv].
  pose proof (ls_Snapshot_ok (r_store r) Hok) as Hsim. rewrite Hsnap, Hv in Hsim.
  destruct Hsim as (b & [= <-] & [= -> -> ->]).
  assert (forall r1 Q, leading Ms r1 a ->
    (forall a' r' x, leading Ms r' a' -> (x_index x, x_term x) ∈ a_out a' -> Q x Ms r' a') ->
    wpS (let x := mkTransfer (ms_snapIdx (a_mem a)) (ms_snapTerm (a_mem a)) (ms_snap (a_mem a)) 0 in
         put_snapOut to x;; mret x) Q Ms r1 a) as Hfresh.
  { intros r1 Q [Hs1 Hr1] HQ. cbv zeta. eapply wp_step; [by apply AS_open_snapshot|].
    apply wp_bind, wp_put_snapOut.
    - split; [|done]. destruct Hs1. constructor; try done.
      intros _ p x Hx. apply list_elem_of_further. by eapply sim_out0.
    - simpl. apply list_elem_of_here.
    - intros r' Hl'. apply wp_ret, HQ; [done|]. simpl. apply list_elem_of_here. }
  apply wp_bind, wp_get. apply wp_bind. destruct (r_snapOut r ≫= lookup to) as [x|] eqn:Ex.
  - destruct (N.eqb_spec (x_index x) (ms_snapIdx (a_mem a))).
    + apply wp_ret. apply wp_sendChunk; [done|]. by eapply sim_out; [exact Hs|..].
    + apply Hfresh; [done|]. intros. by apply wp_sendChunk.
  - apply Hfresh; [done|]. intros. by apply wp_sendChunk.
Qed.

Lemma fit_loop_prefix mb i sz es : fit_loop mb i sz es `prefix_of` es.
Proof.
  revert i sz. induction es as [|e es IH]; intros i sz; cbn [fit_loop]; [done|].
  destruct ((mb <? sz + N.of_nat (length (e_Data e)))%N && (0 <? i)); [apply prefix_nil|].
  apply prefix_cons, IH.
Qed.

Lemma fitBatch_prefix r es : fitBatch r es `prefix_of` es.
Proof. etrans; [apply fit_loop_prefix|apply prefix_take]. Qed.

Lemma announced_nil a : a_pend a = [] -> announced a = a_mem a.
Proof. unfold announced, set_entries. intros ->. rewrite app_nil_r. by destruct (a_mem a). Qed.

(** What [Entries] reads is part of the log. *)
Lemma mem_Entries_prefix lo hi s es :
  mem_Entries lo hi s = Ret es -> (ms_snapIdx s < lo)%N /\ es `prefix_of` drop (N.to_nat (lo - 1 - ms_snapIdx s)) (ms_entries s).
Proof.
  unfold mem_Entries. destruct (N.leb_spec lo (ms_snapIdx s)); [done|].
  destruct (lastLocked s + 1 <? hi)%N; [done|]. destruct (hi <? lo)%N; [done|].
  unfold slice. destruct (_ && _); [|done]. intros [= <-]. split; [done|].
  replace (lo - 1 - ms_snapIdx s)%N with (lo - ms_snapIdx s - 1)%N by lia. apply prefix_take.
Qed.

Lemma wp_sendAppend to id Ms r a : leading Ms r a -> wpS (sendAppend to id) (fun _ => leading) Ms r a.
Proof.
  intros Hl. pose proof Hl as [Hs Hr]. pose proof (sim_store _ _ _ _ Hs) as Hst.
  apply wp_bind, wp_get. apply wp_bind, wp_FirstIndex; [done|]. apply wp_bind, wp_get.
  rewrite (sim_commit _ _ _ _ Hs). set (next := next_of r to).
  destruct (N.ltb_spec next (a_snapIdx a + 1)) as [Hlt|Hge].
  { destruct (N.eqb_spec id 0); [by apply wp_sendSnapshot|].
    apply wp_bind, wp_termAt; [done|]. intros t Ht. apply wp_send_leading; [done|].
    unfold can_send. simpl. rewrite announced_nil by apply Hs. split_and!; try done. apply prefix_nil. }
  apply wp_bind, wp_termAt; [done|]. intros t Ht. apply wp_bind, wp_LastIndex; [done|].
  apply wp_bind.
  assert (forall es Ms' r', leading Ms' r' a ->
    es `prefix_of` drop (N.to_nat (next - 1 - a_snapIdx a)) (ms_entries (a_mem a)) ->
    wpS (send (msg_App to (next - 1) t es (a_commit a) id)) (fun _ => leading) Ms' r' a) as Hsend.
  { intros es Ms' r' Hl' Hes. apply wp_send_leading; [done|].
    unfold can_send. rewrite announced_nil by apply Hs. by split_and!. }
  destruct (next <=? a_last a)%N; [|apply wp_ret, Hsend; [done|apply prefix_nil]].
  apply wp_bind, wp_get. apply wp_bind, wp_must. intros es Hes.
  destruct Hst as [Hok Hv]. rewrite ls_Entries_ok, Hv in Hes by done.
  destruct (mem_Entries_prefix _ _ _ _ Hes) as [_ Hpre].
  apply wp_bind, wp_get. apply wp_bind. eapply wp_put_next; [exact Hs|]. intros r' Hs'.
  apply wp_ret, Hsend; [done|]. etrans; [apply fitBatch_prefix|done].
Qed.

Lemma wp_broadcastAppend Ms r a : leading Ms r a -> wpS broadcastAppend (fun _ => leading) Ms r a.
Proof.
  intros Hl. apply wp_bind, wp_get. apply wp_for_each; [done|].
  intros p Ms' r' a' _ Hl'. by apply wp_sendAppend.
Qed.

(** ** Committing *)

Lemma sorted_take (l : list N) j i :
  StronglySorted (flip N.le) l -> l !! j = Some i -> Forall (fun x => (i <= x)%N) (take (j + 1) l).
Proof.
  intros Hs. revert j. induction Hs as [|x l Hs IH Hx]; intros j Hj; [done|].
  destruct j as [|j]; simpl in *.
  - injection Hj as ->. by repeat constructor.
  - constructor; [|by apply IH]. rewrite Forall_lookup in Hx. by apply Hx in Hj.
Qed.

Lemma length_filter_fmap {A B} (f : A -> B) (P : B -> Prop) `{!forall x, Decision (P x)} l :
  length (filter P (f <$> l)) = length (filter (fun x => P (f x)) l).
Proof.
  induction l as [|x l IH]; [done|]. cbn [fmap list_fmap]. rewrite !filter_cons.
  case_decide; simpl; by rewrite ?IH.
Qed.

(** The index [maybeCommit] picks is matched by a quorum. *)
Lemma matches_quorum r i :
  NoDup peers -> r_peers r = peers -> matches r !! (quorum r - 1) = Some i ->
  exists Q, is_quorum peers Q /\ forall v, v ∈ Q -> (i <= match_of r v)%N.
Proof.
  intros Hnd Hp Hi. set (P := fun x : N => (i <= x)%N).
  assert (Total (flip N.le)) by (intros x y; unfold flip; lia).
  assert (Transitive (flip N.le)) by (intros x y z; unfold flip; lia).
  assert (quorum r <= length (filter P (match_of r <$> peers))) as Hlen.
  { unfold matches in Hi. rewrite Hp in Hi.
    set (l := match_of r <$> peers) in *. set (l' := merge_sort (flip N.le) l) in *.
    assert (l' ≡ₚ l) as Hperm by apply merge_sort_Permutation.
    assert (StronglySorted (flip N.le) l') as Hsort by (apply StronglySorted_merge_sort; apply _).
    rewrite <-Hperm. pose proof (sorted_take l' _ i Hsort Hi) as Hf.
    assert (quorum r - 1 + 1 = quorum r) as Hq by (unfold quorum; lia). rewrite Hq in Hf.
    rewrite <-(take_drop (quorum r) l'), filter_app, length_app.
    rewrite filter_all by done. rewrite length_take.
    apply lookup_lt_Some in Hi. lia. }
  rewrite length_filter_fmap in Hlen.
  exists (list_to_set (filter (fun p => P (match_of r p)) peers)). split; [split|].
  - intros v Hv. apply elem_of_list_to_set, list_elem_of_filter in Hv as [_ Hv]. by apply elem_of_list_to_set.
  - rewrite size_list_to_set by (by apply NoDup_filter). unfold quorum in Hlen. by rewrite Hp in Hlen.
  - intros v Hv. by apply elem_of_list_to_set, list_elem_of_filter in Hv as [Hv _].
Qed.

Context (Hnodup : NoDup peers).

Lemma sim_with_commit pd Ms r a i :
  simP pd Ms r a -> (a_commit a <= i)%N -> simP pd Ms (set_commit i r) (with_commit i a).
Proof. intros [] Hi. constructor; try done. unfold a_snapIdx in *. simpl. lia. Qed.

Lemma wp_maybeCommit Ms r a : leading Ms r a -> wpS maybeCommit (fun _ => leading) Ms r a.
Proof.
  intros [Hs Hr]. apply wp_bind, wp_get, wp_bind, wp_get.
  destruct (matches r !! (quorum r - 1)) as [i|] eqn:Hi; [|apply wp_panic].
  apply wp_bind, wp_get. destruct (N.leb_spec i (r_commit r)) as [|Hgt]; [by apply wp_ret|].
  apply wp_bind, wp_termAt; [apply Hs|]. intros t Ht. apply wp_bind, wp_get.
  destruct (N.eqb_spec t (r_term r)) as [->|]; [|by apply wp_ret].
  rewrite (sim_commit _ _ _ _ Hs) in Hgt. rewrite (sim_term _ _ _ _ Hs) in Ht.
  destruct (matches_quorum r i Hnodup (sim_peers _ _ _ _ Hs) Hi) as (Q & HQ & Hm).
  eapply wp_step.
  { apply (AS_commit_leader _ _ _ _ i Q); try done; [lia|].
    intros v Hv. rewrite <-(sim_match _ _ _ _ Hs Hr). by apply Hm. }
  apply wp_bind, wp_modify; [done|]. apply wp_ret. split; [|done]. apply sim_with_commit; [done|lia].
Qed.

(** ** Appending *)

Lemma assign_lookup last t es i e :
  assign last t es !! i = Some e -> e_Index e = (last + 1 + N.of_nat i)%N /\ e_Term e = t.
Proof.
  unfold assign. rewrite list_lookup_imap. intros (x & _ & ->)%fmap_Some. done.
Qed.

Lemma wp_send_early last prevTerm es one ps Ms r a Q E :
  simP es Ms r a -> a_role a = Leader -> last = a_last a -> mem_Term last (a_mem a) = Ret prevTerm ->
  (forall early Ms' r', simP es Ms' r' a -> Q early Ms' r' a) ->
  wp (send_early last prevTerm es one ps) Q E Ms r a.
Proof.
  intros Hs Hr -> Ht. revert Ms r Hs Q. induction ps as [|p ps IH]; intros Ms r Hs Q HQ; simpl.
  { by apply wp_ret, HQ. }
  apply wp_bind, wp_get, wp_bind, wp_get. destruct (_ || _ || _); [by apply IH|].
  apply wp_bind. eapply wp_put_next; [done|]. intros r1 Hs1.
  apply wp_bind, wp_get. apply wp_bind. eapply wp_send; [done| |].
  { unfold can_send. simpl. rewrite (sim_commit _ _ _ _ Hs1). split_and!; try done.
    - unfold announced, mem_Term. simpl. unfold mem_Term in Ht.
      destruct (_ =? _)%N; [done|]. destruct (_ <? _)%N; [done|].
      destruct (N.ltb_spec (lastLocked (a_mem a)) (a_last a)); [unfold a_last in *; lia|].
      destruct (N.ltb_spec (lastLocked (set_entries (ms_entries (a_mem a) ++ a_pend a) (a_mem a))) (a_last a)).
      { unfold a_last, lastLocked, set_entries in *. simpl in *. rewrite length_app in *. lia. }
      destruct (ms_entries (a_mem a) !! _) as [e|] eqn:El; [|done].
      by rewrite (lookup_app_l_Some _ _ _ _ El).
    - rewrite (sim_pend _ _ _ _ Hs1). rewrite drop_app_ge by (unfold a_last, a_snapIdx, lastLocked; lia).
      match goal with |- context [drop ?k es] => replace k with 0 by (unfold a_last, a_snapIdx, lastLocked; lia) end.
      by rewrite drop_0. }
  apply wp_bind. apply IH; [by apply sim_sent|]. intros early Ms' r' Hs'. by apply wp_ret, HQ.
Qed.

Lemma wp_appendEntries es Ms r a : leading Ms r a -> wpS (appendEntries es) (fun _ => leading) Ms r a.
Proof.
  intros [Hs Hr]. pose proof (sim_store _ _ _ _ Hs) as Hst.
  apply wp_bind, wp_LastIndex; [done|]. apply wp_bind, wp_get. rewrite (sim_term _ _ _ _ Hs). cbv zeta.
  set (es' := assign (a_last a) (a_term a) es).
  assert (forall i e, es' !! i = Some e -> e_Index e = (a_last a + 1 + N.of_nat i)%N /\ e_Term e = a_term a) as Hes
    by (intros; by eapply assign_lookup).
  apply wp_bind, wp_termAt; [done|]. intros t Ht. apply wp_bind, wp_get, wp_bind, wp_get.
  eapply wp_step; [by apply (AS_announce _ _ _ _ es'); [|apply Hs|]|].
  assert (simP es' Ms r (with_pend es' a)) as Hs1 by (destruct Hs; by constructor).
  apply wp_bind. eapply wp_send_early; [exact Hs1|done|done|done|]. intros early Ms1 r1 Hs2.
  (* the entries reach the store *)
  set (a1 := with_mem (set_entries (ms_entries (a_mem a) ++ es') (a_mem a)) (with_pend [] (with_pend es' a))).
  apply wp_bind. apply (wp_write _ _ _ _ _ _ _ a1).
  { intros _ _. pose proof (AS_flush peers Ms1 n (with_pend es' a) (length es') (a_mem a1) Hr) as Hf. simpl in Hf.
    rewrite firstn_all, drop_all in Hf. apply Hf, append_end_ok. intros. by eapply Hes. }
  intros s Happ. destruct (sim_store _ _ _ _ Hs2) as [Hok2 Hv2].
  pose proof (ls_Append_ok es' _ Hok2) as Hsim. rewrite Happ, Hv2 in Hsim.
  destruct Hsim as (b & Hb & Hok3 & Hv3). apply append_at_end in Hb; [|intros; by eapply Hes]. subst b. simpl in Hv3.
  simpl after. set (r2 := set_trace _ _).
  assert (leading Ms1 r2 a1) as Hl2.
  { split; [|done]. destruct Hs2. constructor; try done. }
  apply wp_bind, wp_get. apply wp_bind. apply (wp_put_match _ _ _ _ _ _ a1); [done| |].
  { left. split; [apply Hl2|]. unfold a1, a_last, lastLocked. simpl. rewrite length_app. lia. }
  intros r3 a3 Hl3 _. apply wp_bind. eapply wp_mono.
  { apply (wp_for_each _ _ leading); [done|]. intros p Ms' r' a' _ Hl'.
    case_bool_decide; [by apply wp_sendAppend|by apply wp_ret]. }
  intros ? Ms4 r4 a4 Hl4. apply wp_bind. eapply wp_mono; [by apply wp_maybeCommit|].
  intros ? Ms5 r5 a5 Hl5. by apply wp_ret.
Qed.

Lemma granted_size r vm : r_votes r = Some vm -> granted r = size (granted_set vm).
Proof. intros Hv. unfold granted, granted_set. rewrite Hv. simpl. by rewrite size_dom. Qed.

Lemma wp_becomeLeader Ms r a :
  sim Ms r a -> a_role a = Candidate -> countVotes r = true -> wpS becomeLeader (fun _ => sim) Ms r a.
Proof.
  intros Hs Hr Hc. destruct (sim_votes _ _ _ _ Hs Hr) as (vm & Hvm & Hav).
  eapply wp_step.
  { apply AS_lead; [done|]. rewrite Hav, <-(granted_size r) by done. unfold countVotes in Hc.
    apply Nat.leb_le in Hc. unfold quorum in Hc. by rewrite (sim_peers _ _ _ _ Hs) in Hc. }
  set (a1 := mkAN _ _ _ _ _ _ _ _).
  apply wp_bind, wp_modify; [done|]. apply wp_bind.
  assert (store_rel r a1) as Hst by apply Hs.
  apply wp_LastIndex; [exact Hst|]. apply wp_bind, wp_modify; [done|]. apply wp_bind, wp_modify; [done|].
  apply wp_bind. eapply wp_mono.
  - apply wp_appendEntries. split; [|done]. destruct Hs. constructor; try done.
  - intros ? Ms' r' a' [Hs' _]. by apply wp_ret.
Qed.

Lemma sim_leading_weaken {A} (H : @M S A) Ms r a :
  wpS H (fun _ => leading) Ms r a -> wpS H (fun _ => sim) Ms r a.
Proof. intros Hw. eapply wp_mono; [exact Hw|]. by intros ? ? ? ? [? _]. Qed.

Lemma wp_becomeCandidate Ms r a :
  sim Ms r a -> a_role a <> Leader -> wpS becomeCandidate (fun _ => sim) Ms r a.
Proof.
  intros Hs Hr. apply wp_bind, wp_modify; [done|].
  set (a1 := mkAN (set_st (a_term a + 1) n (a_mem a)) Candidate {[ n ]} [] (a_commit a) (a_cmax a) (fun _ => 0%N) []).
  apply wp_bind. apply (wp_persist _ _ _ _ _ a1); simpl;
    rewrite ?(sim_id _ _ _ _ Hs), ?(sim_term _ _ _ _ Hs); [apply Hs|done|by apply AS_cand|].
  intros s t Hst. apply wp_bind, wp_modify; [done|].
  apply wp_bind. eapply (wp_resetTimeout []).
  - destruct Hs. constructor; try done. intros _. eexists. split; [done|].
    unfold granted_set. change (r_id _) with (r_id r).
    rewrite sim_id0, map_filter_singleton_True by done. by rewrite dom_singleton_L.
  - intros r1 Hs1. apply wp_bind, wp_get. destruct (countVotes r1) eqn:Hc; [by apply wp_becomeLeader|].
    apply wp_bind, wp_lastIndexAndTerm; [apply Hs1|]. intros lt Hlt. apply wp_bind, wp_get.
    eapply wp_mono; [apply (wp_for_each _ _ (fun Ms r a => sim Ms r a /\ a = a1)); [done|]|by intros ? ? ? ? [? _]].
    intros p Ms' r' a' _ [Hs' ->]. eapply wp_send; [done| |split; [by apply sim_sent|done]].
    done.
Qed.

Lemma wp_Tick Ms r a : sim Ms r a -> wpS Tick (fun _ => sim) Ms r a.
Proof.
  intros Hs. apply wp_bind, wp_modify; [done|]. apply wp_bind, wp_get. set (r1 := set_elapsed _ r).
  assert (sim Ms r1 a) as Hs1 by (by eapply sim_ext; [..|exact Hs]). unfold id.
  destruct (r_state r1) eqn:Est.
  1,2: (destruct (_ <=? _); [|by apply wp_ret]; apply wp_becomeCandidate; [done|];
        rewrite <-(sim_role _ _ _ _ Hs1); congruence).
  destruct (_ <=? _); [|by apply wp_ret]. apply wp_bind, wp_modify; [done|].
  apply sim_leading_weaken, wp_broadcastAppend. split; [by eapply sim_ext; [..|exact Hs1]|].
  by rewrite <-(sim_role _ _ _ _ Hs1).
Qed.

Lemma wp_Propose ps Ms r a : sim Ms r a -> wpS (Propose ps) (fun _ => sim) Ms r a.
Proof.
  intros Hs. apply wp_bind, wp_get. case_decide as Hr; [|by apply wp_raise].
  apply sim_leading_weaken, wp_appendEntries. split; [done|]. by rewrite <-(sim_role _ _ _ _ Hs).
Qed.

(** ** Reads *)

Lemma wp_completeRead id Ms r a : sim Ms r a -> wpS (completeRead id) (fun _ => sim) Ms r a.
Proof.
  intros Hs. apply wp_bind, wp_get. destruct (r_reads r ≫= lookup id); [|apply wp_panic].
  apply wp_modify; [done|]. by eapply sim_ext; [..|exact Hs].
Qed.

Lemma wp_ReadIndex Ms r a : sim Ms r a -> wpS ReadIndex (fun _ => sim) Ms r a.
Proof.
  intros Hs. apply wp_bind, wp_get. case_decide as Hr; [|by apply wp_raise].
  rewrite (sim_role _ _ _ _ Hs) in Hr. apply wp_bind, wp_get. apply wp_bind, wp_termAt; [apply Hs|]. intros t _.
  apply wp_bind, wp_get. destruct (t =? r_term r)%N; simpl; [|by apply wp_raise].
  apply wp_bind, wp_modify; [done|]. do 3 (apply wp_bind, wp_get). apply wp_bind, wp_mput.
  intros rd _. split; [done|]. apply wp_bind, wp_get. set (r1 := set_reads _ _).
  assert (sim Ms r1 a) as Hs1 by (by eapply sim_ext; [..|exact Hs]).
  destruct (_ =? 1).
  - apply wp_bind. eapply wp_mono; [by apply wp_completeRead|]. intros. by apply wp_ret.
  - apply wp_bind, wp_get. apply wp_bind. eapply wp_mono.
    + apply (wp_for_each _ _ leading); [done|]. intros. by apply wp_sendAppend.
    + intros ? ? ? ? [? _]. by apply wp_ret.
Qed.

Lemma wp_ackRead id from Ms r a : sim Ms r a -> wpS (ackRead id from) (fun _ Ms' r' a' => sim Ms' r' a' /\ Ms' = Ms /\ a' = a) Ms r a.
Proof.
  intros Hs. apply wp_bind, wp_get. destruct (r_reads r ≫= lookup id) as [rd|]; [|by apply wp_ret].
  apply wp_bind, wp_mput. intros m' _. split; [done|]. set (r1 := set_reads _ _).
  assert (sim Ms r1 a) as Hs1 by (by eapply sim_ext; [..|exact Hs]).
  apply wp_bind, wp_get. destruct (_ <=? _); [|by apply wp_ret].
  apply wp_bind, wp_get. destruct (r_reads r1 ≫= lookup id); [|apply wp_panic].
  apply wp_modify; [done|]. split; [|done]. by eapply sim_ext; [..|exact Hs1].
Qed.

(** ** Handlers: votes *)

Lemma wp_rejectStale m Ms r a : sim Ms r a -> wpS (rejectStale m) (fun _ => sim) Ms r a.
Proof.
  intros Hs. unfold rejectStale. destruct (m_Type m); try (by apply wp_ret); by apply wp_send_sim.
Qed.

Lemma wp_handleVote m Ms r a :
  sim Ms r a -> m ∈ Ms -> m_Type m = MsgVote -> m_To m = n -> m_Term m = a_term a -> m_From m <> 0%N ->
  wpS (handleVote m) (fun _ => sim) Ms r a.
Proof.
  intros Hs Hm Hty Hto Ht Hf0. apply wp_bind, wp_get. unfold id. cbv zeta.
  apply wp_bind, wp_lastIndexAndTerm; [apply Hs|]. intros lt Hlt.
  destruct (negb _ || negb _) eqn:Eg; [by apply wp_send_sim|].
  apply orb_false_iff in Eg as [Ev%negb_false_iff Eu%negb_false_iff].
  assert (a_vote a = 0%N \/ a_vote a = m_From m) as Hv.
  { rewrite <-(sim_vote _ _ _ _ Hs). apply orb_true_iff in Ev as [Ev|Ev].
    - right. by apply N.eqb_eq.
    - left. apply andb_true_iff in Ev as [Ev _]. by apply N.eqb_eq. }
  assert (up_to_date (a_mem a) m) as Hup.
  { exists lt. split; [exact Hlt|]. apply orb_true_iff in Eu as [Eu|Eu].
    - left. by apply N.ltb_lt.
    - right. apply andb_true_iff in Eu as [E1%N.eqb_eq E2%N.leb_le]. done. }
  apply wp_bind, wp_modify; [done|].
  set (a1 := with_mem (set_st (a_term a) (m_From m) (a_mem a)) a).
  apply wp_bind. apply (wp_persist _ _ _ _ _ a1); simpl; rewrite ?(sim_term _ _ _ _ Hs);
    [apply Hs|done|by apply AS_vote|].
  intros s t Hst. apply wp_bind, wp_modify; [done|]. apply wp_send_sim.
  - destruct Hs. constructor; try done.
  - done.
Qed.

Lemma granted_set_insert (vm : gmap NodeID bool) (v : NodeID) (b : bool) :
  granted_set (<[v := b]> vm) = if b then granted_set vm ∪ {[ v ]} else granted_set vm ∖ {[ v ]}.
Proof.
  unfold granted_set. destruct b.
  - rewrite map_filter_insert_True by done. rewrite dom_insert_L. by rewrite (union_comm_L {[ v ]}).
  - rewrite map_filter_insert_False by done. rewrite map_filter_delete. by rewrite dom_delete_L.
Qed.

Lemma wp_handleVoteResp m Ms r a :
  sim Ms r a -> m ∈ Ms -> m_Type m = MsgVoteResp -> m_To m = n -> m_Term m = a_term a ->
  wpS (handleVoteResp m) (fun _ => sim) Ms r a.
Proof.
  intros Hs Hm Hty Hto Ht. apply wp_bind, wp_get. case_decide as Hr; [|by apply wp_ret].
  rewrite (sim_role _ _ _ _ Hs) in Hr. destruct (sim_votes _ _ _ _ Hs Hr) as (vm & Hvm & Hav).
  eapply wp_step; [by apply (AS_recvvote _ _ _ _ m)|]. set (a1 := mkAN _ _ _ _ _ _ _ _).
  apply wp_bind, wp_get. apply wp_bind, wp_mput. intros vm' Hvm'. split; [done|].
  rewrite Hvm in Hvm'. injection Hvm' as <-. set (r1 := set_votes _ r).
  assert (sim Ms r1 a1) as Hs1.
  { destruct Hs. constructor; try done. intros _. eexists. split; [done|]. simpl.
    rewrite granted_set_insert, Hav. by destruct (m_Reject m). }
  apply wp_bind, wp_get. destruct (countVotes r1) eqn:Ec; [by apply wp_becomeLeader|].
  apply wp_bind, wp_get. destruct (quorum r1 <=? rejected r1); [|by apply wp_ret].
  apply wp_bind, wp_get. by apply wp_becomeFollower.
Qed.

(** ** Handlers: appends *)

Lemma wp_follow m Q Ms r a :
  sim Ms r a -> m_Term m = a_term a ->
  (forall r' a', sim Ms r' a' -> a_role a' = Follower -> a_term a' = a_term a -> a_commit a' = a_commit a ->
     Q tt Ms r' a') ->
  wpS (follow m) Q Ms r a.
Proof.
  intros Hs Ht HQ. apply wp_bind, wp_get.
  assert (forall r' a', sim Ms r' a' -> a_role a' = Follower -> a_term a' = a_term a -> a_commit a' = a_commit a ->
    wpS (modify (fun r => set_elapsed 0 (set_lead (m_From m) r))) Q Ms r' a') as Hfin.
  { intros r' a' Hs' ? ? ?. apply wp_modify; [done|]. apply HQ; try done. by eapply sim_ext; [..|exact Hs']. }
  case_decide as Hr.
  - apply wp_bind, wp_ret, Hfin; try done. by rewrite <-(sim_role _ _ _ _ Hs).
  - apply wp_bind, wp_becomeFollower; [done|]. intros r' a' Hs' ? Hmax ?. apply Hfin; try done. lia.
Qed.

Lemma wp_first_of_term fuel first i t Q E Ms r a :
  store_rel r a -> (forall j, Q j Ms r a) -> wp (first_of_term fuel first i t) Q E Ms r a.
Proof.
  intros Hs HQ. revert i. induction fuel as [|fuel IH]; intros i; simpl; [by apply wp_ret|].
  destruct (first <? i)%N; [|by apply wp_ret]. apply wp_bind, wp_termAt; [done|]. intros t' _.
  destruct (t' =? t)%N; [apply IH|by apply wp_ret].
Qed.

Lemma wp_last_of_term fuel first i t Q E Ms r a :
  store_rel r a -> (forall j, Q j Ms r a) -> wp (last_of_term fuel first i t) Q E Ms r a.
Proof.
  intros Hs HQ. revert i. induction fuel as [|fuel IH]; intros i; simpl; [by apply wp_ret|].
  destruct (first <=? i)%N; [|by apply wp_ret]. apply wp_bind, wp_termAt; [done|]. intros t' _.
  destruct (t' =? t)%N; [by apply wp_ret|]. destruct (t' <? t)%N; [by apply wp_ret|apply IH].
Qed.

Lemma mem_Term_lt i s t : mem_Term i s = Ret t -> (ms_snapIdx s <= i <= lastLocked s)%N.
Proof.
  unfold mem_Term. destruct (N.eqb_spec i (ms_snapIdx s)); [unfold lastLocked; lia|].
  destruct (N.ltb_spec i (ms_snapIdx s)); [done|].
  destruct (N.ltb_spec (lastLocked s) i); [done|]. lia.
Qed.

Lemma append_Term_old s e es i t :
  (ms_snapIdx s < e_Index e <= lastLocked s + 1)%N -> (i < e_Index e)%N -> mem_Term i s = Ret t ->
  mem_Term i (set_entries (take (N.to_nat (e_Index e - ms_snapIdx s - 1)) (ms_entries s) ++ e :: es) s) = Ret t.
Proof.
  intros He Hi Ht. pose proof (mem_Term_lt _ _ _ Ht) as Hr. revert Ht. unfold mem_Term. simpl.
  destruct (N.eqb_spec i (ms_snapIdx s)); [done|]. destruct (N.ltb_spec i (ms_snapIdx s)); [done|].
  destruct (N.ltb_spec (lastLocked s) i); [done|].
  unfold lastLocked in *. simpl. rewrite length_app, length_take. simpl.
  match goal with |- _ -> (if ?b then _ else _) = _ => assert (b = false) as -> by (apply N.ltb_ge; lia) end.
  rewrite lookup_app_l by (rewrite length_take; lia). by rewrite lookup_take_lt by lia.
Qed.

Lemma append_Term_new s e es k x :
  (ms_snapIdx s < e_Index e <= lastLocked s + 1)%N -> (e :: es) !! k = Some x ->
  e_Index x = (e_Index e + N.of_nat k)%N ->
  mem_Term (e_Index x) (set_entries (take (N.to_nat (e_Index e - ms_snapIdx s - 1)) (ms_entries s) ++ e :: es) s)
    = Ret (e_Term x).
Proof.
  intros He Hx Hix. pose proof (lookup_lt_Some _ _ _ Hx) as Hk. unfold mem_Term. simpl.
  destruct (N.eqb_spec (e_Index x) (ms_snapIdx s)); [lia|]. destruct (N.ltb_spec (e_Index x) (ms_snapIdx s)); [lia|].
  unfold lastLocked in *. simpl. rewrite length_app, length_take.
  match goal with |- (if ?b then _ else _) = _ => assert (b = false) as -> by (apply N.ltb_ge; simpl in *; lia) end.
  rewrite lookup_app_r by (rewrite length_take; lia). rewrite length_take, Nat.min_l by lia.
  replace (N.to_nat (e_Index x - ms_snapIdx s - 1) - N.to_nat (e_Index e - ms_snapIdx s - 1)) with k by lia.
  by rewrite Hx.
Qed.

(** Entries of a message follow its index. *)
Definition contig (m : Message) : Prop :=
  forall j e, m_Entries m !! j = Some e -> e_Index e = (m_Index m + 1 + N.of_nat j)%N.

Lemma wp_append_from m j Q E Ms r a :
  sim Ms r a -> a_role a = Follower -> m ∈ Ms -> m_Type m = MsgApp -> m_To m = n -> m_Term m = a_term a ->
  contig m -> (a_commit a <= m_Index m)%N -> mem_Term (m_Index m) (a_mem a) = Ret (m_LogTerm m) ->
  Forall (fun e => mem_Term (e_Index e) (a_mem a) = Ret (e_Term e)) (take j (m_Entries m)) ->
  (forall Ms' r' a', sim Ms' r' a' -> m ∈ Ms' -> a_role a' = Follower -> accepted a' n m -> a_commit a' = a_commit a ->
     Q tt Ms' r' a') ->
  wp (append_from (a_last a) (drop j (m_Entries m))) Q E Ms r a.
Proof.
  intros Hs Hr Hm Hty Hto Ht Hcg Hc Hprev Hf HQ.
  (* storing from position [i] on *)
  assert (forall i e, m_Entries m !! i = Some e -> mem_Term (e_Index e) (a_mem a) <> Ret (e_Term e) ->
    Forall (fun e => mem_Term (e_Index e) (a_mem a) = Ret (e_Term e)) (take i (m_Entries m)) ->
    wp (write (EAppend (drop i (m_Entries m))) (ls_Append (drop i (m_Entries m)))) Q E Ms r a) as Hwrite.
  { intros i e He Hne Hfi. rewrite (drop_S _ _ _ He). set (rest := drop (Datatypes.S i) (m_Entries m)).
    pose proof (Hcg i e He) as Hei.
    assert (ms_snapIdx (a_mem a) < e_Index e <= lastLocked (a_mem a) + 1)%N as Hrange.
    { pose proof (sim_snap _ _ _ _ Hs) as Hsn. unfold a_snapIdx in Hsn. split; [lia|].
      destruct i as [|i]; [apply mem_Term_lt in Hprev; lia|].
      destruct (lookup_lt_is_Some_2 (m_Entries m) i) as [e' He']; [apply lookup_lt_Some in He; lia|].
      rewrite Forall_lookup in Hfi. specialize (Hfi i e'). rewrite lookup_take_lt in Hfi by lia.
      pose proof (mem_Term_lt _ _ _ (Hfi He')). apply Hcg in He'. lia. }
    pose proof (append_ok (a_mem a) e rest Hrange) as Happ.
    set (s1 := set_entries _ _) in Happ.
    apply (wp_write _ _ _ _ _ _ _ (with_mem s1 a)).
    { intros _ _. pose proof (AS_accept peers Ms n a m i (length (m_Entries m)) e s1 Hr Hm Hty Hto Ht Hc Hprev Hfi He Hne) as Hst.
      rewrite (drop_S _ _ _ He) in Hst. rewrite take_ge in Hst.
      - apply Hst; [apply lookup_lt_Some in He; lia|done].
      - simpl. rewrite length_drop. apply lookup_lt_Some in He. lia. }
    intros s Hls. destruct (sim_store _ _ _ _ Hs) as [Hok Hv].
    pose proof (ls_Append_ok (e :: rest) _ Hok) as Hsim. rewrite Hls, Hv, Happ in Hsim.
    destruct Hsim as (b & [= <-] & Hok' & Hv'). simpl after. apply HQ; try done.
    - destruct Hs. constructor; try done.
    - split_and!; try done; simpl.
      + apply append_Term_old; [done|lia|done].
      + apply Forall_lookup. intros k x Hx. destruct (decide (k < i)) as [Hki|Hki].
        * apply append_Term_old; [done|apply Hcg in Hx; lia|].
          rewrite Forall_lookup in Hfi. apply (Hfi k). by rewrite lookup_take_lt.
        * apply (append_Term_new _ _ _ (k - i)); [done| |apply Hcg in Hx; lia].
          subst rest. rewrite <-(drop_S _ _ _ He), lookup_drop. rewrite <-Hx. f_equal. lia. }
  remember (drop j (m_Entries m)) as es eqn:Hes. revert j Hf Hes.
  induction es as [|e es IH]; intros j Hf Hes; cbn [append_from].
  - apply wp_ret, HQ; try done. split_and!; try done.
    by rewrite take_ge in Hf by (apply (f_equal length) in Hes; rewrite length_drop in Hes; simpl in Hes; lia).
  - assert (m_Entries m !! j = Some e) as He.
    { rewrite <-(Nat.add_0_r j), <-lookup_drop, <-Hes. done. }
    destruct (N.ltb_spec (a_last a) (e_Index e)) as [Hlt|Hge].
    + rewrite Hes. apply (Hwrite j e); [done| |done]. intros Hx%mem_Term_lt. unfold a_last in Hlt. lia.
    + apply wp_bind, wp_termAt; [apply Hs|]. intros t Htm. destruct (N.eqb_spec t (e_Term e)) as [->|Hne]; simpl.
      * apply (IH (Datatypes.S j)).
        -- rewrite (take_S_r _ _ _ He). apply Forall_app. split; [done|]. by constructor.
        -- rewrite (drop_S _ _ _ He) in Hes. by injection Hes.
      * rewrite Hes. apply (Hwrite j e); [done| |done]. congruence.
Qed.

Lemma wp_handleAppend m Ms r a :
  sim Ms r a -> m ∈ Ms -> m_Type m = MsgApp -> m_To m = n -> m_Term m = a_term a -> contig m ->
  wpS (handleAppend m) (fun _ => sim) Ms r a.
Proof.
  intros Hs0 Hm Hty Hto Ht0 Hcg. apply wp_bind, wp_follow; [done|done|].
  intros r1 a1 Hs Hr Htm _. rewrite <-Htm in Ht0. pose proof (sim_store _ _ _ _ Hs) as Hst.
  apply wp_bind, wp_get. rewrite (sim_commit _ _ _ _ Hs).
  destruct (N.ltb_spec (m_Index m) (a_commit a1)) as [|Hge].
  { apply wp_send_sim; [done|]. intros _. by left. }
  apply wp_bind, wp_LastIndex; [done|].
  destruct (a_last a1 <? m_Index m)%N; [by apply wp_send_sim|].
  apply wp_bind, wp_termAt; [done|]. intros t Ht. destruct (N.eqb_spec t (m_LogTerm m)) as [->|]; simpl.
  2:{ apply wp_bind, wp_bind, wp_FirstIndex; [done|]. apply wp_first_of_term; [done|]. intros ci. by apply wp_send_sim. }
  apply wp_bind. rewrite <-(drop_0 (m_Entries m)) at 1. apply wp_append_from with (m := m); try done.
  intros Ms2 r2 a2 Hs2 Hm2 Hr2 Hacc Hc2.
  set (lastNew := (m_Index m + N.of_nat (length (m_Entries m)))%N).
  apply wp_bind.
  assert (forall r3 a3, sim Ms2 r3 a3 -> accepted a3 n m ->
    wpS (send (msg_AppResp (m_From m) lastNew (m_ReadID m))) (fun _ => sim) Ms2 r3 a3) as Hsend.
  { intros r3 a3 Hs3 Hacc3. apply wp_send_sim; [done|]. intros _. right. exists m. done. }
  destruct (N.ltb_spec (a_commit a1) (m_Commit m)) as [Hlt|]; [|by apply wp_ret, Hsend].
  eapply wp_step.
  { apply (AS_commit_follower _ _ _ _ m (N.min (m_Commit m) lastNew)); try done; subst lastNew; lia. }
  apply wp_modify; [done|]. apply Hsend; [|done]. apply sim_with_commit; [done|]. subst lastNew. lia.
Qed.

Lemma wp_advance_match m Q E Ms r a :
  leading Ms r a -> m ∈ Ms -> m_To m = n -> m_Term m = a_term a ->
  (m_Type m = MsgAppResp /\ m_Reject m = false) \/ (m_Type m = MsgSnapResp /\ m_Done m = true) ->
  (forall r' a', leading Ms r' a' -> a_mem a' = a_mem a -> Q tt Ms r' a') ->
  wp (advance_match (m_From m) (m_Index m)) Q E Ms r a.
Proof.
  intros Hl Hm Hto Ht Hty HQ. apply wp_bind, wp_get. apply wp_bind.
  assert (forall r1 a1, leading Ms r1 a1 -> a_mem a1 = a_mem a ->
    wp (nx ← get (fun r => next_of r (m_From m));
        if (nx <? m_Index m + 1)%N then put_next (m_From m) (m_Index m + 1) else mret tt) Q E Ms r1 a1) as Hnext.
  { intros r1 a1 [Hs1 Hr1] Hmem. apply wp_bind, wp_get. destruct (_ <? _)%N; [|by apply wp_ret, HQ].
    eapply wp_put_next; [exact Hs1|]. intros r2 Hs2. by apply HQ. }
  destruct (_ <? _)%N; [|by apply wp_ret, Hnext].
  eapply wp_put_match; [done| |intros; by apply Hnext]. right. exists m. done.
Qed.

Lemma wp_retry_from m found Ms r a :
  leading Ms r a -> wpS (retry_from m found) (fun _ => leading) Ms r a.
Proof.
  intros [Hs Hr]. apply wp_bind, wp_get. apply wp_bind. eapply wp_put_next; [exact Hs|].
  intros r2 Hs2. by apply wp_sendAppend.
Qed.

Lemma wp_append_accepted m Ms r a :
  leading Ms r a -> m ∈ Ms -> m_Type m = MsgAppResp -> m_Reject m = false -> m_To m = n ->
  m_Term m = a_term a -> wpS (append_accepted m) (fun _ => leading) Ms r a.
Proof.
  intros Hl Hm Hty Hrej Hto Ht. apply wp_bind, wp_advance_match; try done; [by left|]. intros r2 a2 Hl2 _.
  apply wp_bind. eapply wp_mono; [by apply wp_maybeCommit|]. intros com Ms3 r3 a3 Hl3. cbv beta in Hl3.
  destruct com; [by apply wp_broadcastAppend|]. apply wp_bind, wp_get. apply wp_bind, wp_LastIndex; [apply Hl3|].
  destruct (_ <=? _)%N; [by apply wp_sendAppend|by apply wp_ret].
Qed.

Lemma wp_handleAppendResp m Ms r a :
  leading Ms r a -> m ∈ Ms -> m_Type m = MsgAppResp -> m_To m = n -> m_Term m = a_term a ->
  wpS (handleAppendResp m) (fun _ => sim) Ms r a.
Proof.
  intros [Hs Hr] Hm Hty Hto Ht. apply wp_bind.
  assert (forall r1, sim Ms r1 a -> wpS (append_answered m) (fun _ => sim) Ms r1 a) as Hrest.
  { intros r1 Hs1. apply wp_bind, wp_get. destruct (_ ≫= _); [by apply wp_ret|]. apply sim_leading_weaken.
    destruct (m_Reject m) eqn:Hrej; [|by apply wp_append_accepted].
    apply wp_bind. destruct (0 <? m_ConflictTerm m)%N; [|by apply wp_ret, wp_retry_from].
    apply wp_bind, wp_FirstIndex; [apply Hs1|]. apply wp_bind, wp_LastIndex; [apply Hs1|].
    apply wp_last_of_term; [apply Hs1|]. intros found. by apply wp_retry_from. }
  destruct (negb (m_ReadID m =? 0)%N); [|by apply wp_ret, Hrest].
  eapply wp_mono; [by apply wp_ackRead|]. intros ? Ms1 r1 a1 (Hs1 & -> & ->). by apply Hrest.
Qed.

(** ** Handlers: snapshots *)

Lemma compact_ok s i t d : (ms_snapIdx s < i)%N ->
  exists es, mem_Compact i t d s = Ret (mkMem (ms_term s) (ms_vote s) es i t d).
Proof.
  intros Hi. unfold mem_Compact. destruct (N.leb_spec i (ms_snapIdx s)); [lia|].
  destruct (N.leb_spec i (lastLocked s)); [|by eexists].
  rewrite slice_ok; [|unfold lastLocked in *; lia|lia]. by eexists.
Qed.

Lemma wp_receive_chunk m Ms r a :
  sim Ms r a -> a_role a = Follower -> m ∈ Ms -> m_Type m = MsgSnap -> m_To m = n -> m_Term m = a_term a ->
  (a_commit a < m_Index m)%N -> wpS (receive_chunk m) (fun _ => sim) Ms r a.
Proof.
  intros Hs Hr Hm Hty Hto Ht Hgt. apply wp_bind, wp_get.
  destruct (r_snapIn r) as [x|] eqn:Ex; [|by apply wp_send_sim]. cbv zeta.
  destruct (sim_in _ _ _ _ Hs x Ex) as (m0 & Hm0 & Hty0 & Hi0 & Ht1).
  destruct (N.eqb_spec (x_index x) (m_Index m)) as [Hxi|]; simpl; [|by apply wp_send_sim].
  destruct (m_Offset m =? _)%N; simpl; [|by apply wp_send_sim].
  destruct (m_Done m); simpl.
  - apply wp_bind, wp_modify; [done|].
    assert (ms_snapIdx (a_mem a) < x_index x)%N as Hlt.
    { pose proof (sim_snap _ _ _ _ Hs) as Hsn. unfold a_snapIdx in Hsn. lia. }
    destruct (compact_ok (a_mem a) (x_index x) (x_term x) (x_data x ++ m_Data m) Hlt) as [es Hcomp].
    set (s1 := mkMem _ _ _ _ _ _) in Hcomp.
    apply wp_bind, (wp_write _ _ _ _ _ _ _ (with_commit (x_index x) (with_mem s1 a))).
    { intros _ _. rewrite Hxi, <-Ht1 in *. by apply (AS_install _ _ _ _ m m0); try done; congruence. }
    intros s Hls. destruct (sim_store _ _ _ _ Hs) as [Hok Hv].
    pose proof (ls_Compact_ok (x_index x) (x_term x) (x_data x ++ m_Data m) _ Hok) as Hsim.
    change (r_store (set_snapIn None r)) with (r_store r) in Hls.
    rewrite Hls, Hv, Hcomp in Hsim. destruct Hsim as (b & [= <-] & Hok' & Hv').
    apply wp_bind, wp_modify; [done|]. apply wp_send_sim; [|by intros _].
    destruct Hs. constructor; try done.
  - apply wp_bind, wp_modify; [done|]. apply wp_send_sim; [|done].
    destruct Hs. constructor; try done. intros y [= <-]. by exists m0.
Qed.

Lemma wp_handleSnapshot m Ms r a :
  sim Ms r a -> m ∈ Ms -> m_Type m = MsgSnap -> m_To m = n -> m_Term m = a_term a ->
  wpS (handleSnapshot m) (fun _ => sim) Ms r a.
Proof.
  intros Hs0 Hm Hty Hto Ht0. apply wp_bind, wp_follow; [done|done|].
  intros r1 a1 Hs Hr Htm _. rewrite <-Htm in Ht0.
  apply wp_bind, wp_get. rewrite (sim_commit _ _ _ _ Hs).
  destruct (N.leb_spec (m_Index m) (a_commit a1)) as [|Hgt]; [apply wp_send_sim; [done|by intros _]|].
  apply wp_bind. destruct (m_Offset m =? 0)%N; [|by apply wp_ret, wp_receive_chunk].
  apply wp_modify; [done|]. apply wp_receive_chunk; try done.
  destruct Hs. constructor; try done. intros x [= <-]. by exists m.
Qed.

Lemma wp_handleSnapshotResp m Ms r a :
  leading Ms r a -> m ∈ Ms -> m_Type m = MsgSnapResp -> m_To m = n -> m_Term m = a_term a ->
  wpS (handleSnapshotResp m) (fun _ => sim) Ms r a.
Proof.
  intros Hl Hm Hty Hto Ht. apply sim_leading_weaken. apply wp_bind, wp_get.
  destruct (m_Done m) eqn:Hd.
  - apply wp_bind, wp_modify; [done|]. apply wp_bind, wp_advance_match; try done.
    + destruct Hl as [[] Hr]. split; [|done]. constructor; try done.
      intros _ p x. simpl. destruct (r_snapOut r) as [out|]; simpl; [|done].
      intros [_ Hx]%lookup_delete_Some. by apply (sim_out0 Hr p).
    + by right.
    + intros r2 a2 Hl2 _. apply wp_bind. eapply wp_mono; [by apply wp_maybeCommit|].
      intros com Ms3 r3 a3 Hl3. destruct com; [by apply wp_broadcastAppend|by apply wp_sendAppend].
  - destruct (r_snapOut r ≫= lookup (m_From m)) as [x|] eqn:Ex; [|by apply wp_ret].
    destruct (negb _); [by apply wp_ret|]. cbv zeta.
    assert ((x_index x, x_term x) ∈ a_out a) as Hx by (destruct Hl as [Hs Hr]; by eapply sim_out; [exact Hs|..]).
    apply wp_bind, wp_put_snapOut; [done|done|]. intros r1 Hl1. by apply wp_sendChunk.
Qed.

(** ** [Step] *)

Lemma wp_Step m Ms r a :
  sim Ms r a -> m ∈ Ms -> m_To m = n -> m_From m <> 0%N -> (m_Type m = MsgApp -> contig m) ->
  wpS (Step m) (fun _ => sim) Ms r a.
Proof.
  intros Hs Hm Hto Hf0 Hcg. apply wp_bind, wp_get. rewrite (sim_term _ _ _ _ Hs).
  destruct (N.ltb_spec (m_Term m) (a_term a)) as [|Hge]; [by apply wp_rejectStale|].
  assert (forall r1 a1, sim Ms r1 a1 -> m_Term m = a_term a1 -> wpS (dispatch m) (fun _ => sim) Ms r1 a1) as Hdisp.
  { intros r1 a1 Hs1 Ht. apply wp_bind, wp_get. rewrite (sim_role _ _ _ _ Hs1).
    destruct (m_Type m) eqn:Hty.
    - by apply wp_handleVote.
    - by apply wp_handleVoteResp.
    - apply wp_handleAppend; auto.
    - case_decide; [by apply wp_handleAppendResp|by apply wp_ret].
    - by apply wp_handleSnapshot.
    - case_decide; [by apply wp_handleSnapshotResp|by apply wp_ret].
    - by apply wp_ret. }
  apply wp_bind. destruct (N.ltb_spec (a_term a) (m_Term m)) as [Hlt|].
  - apply wp_becomeFollower; [done|]. intros r1 a1 Hs1 _ Hmax _. apply Hdisp; [done|]. lia.
  - apply wp_ret, Hdisp; [done|]. lia.
Qed.
End Refine.
