(* ===== verification/Cluster.v ===== *)
(** * A cluster of [Raft] nodes

    The whole system: every node runs the code of [Raft] over some
    implementation of [LogStore]; the network may lose, repeat, delay and
    reorder messages; a node may crash at any time, also between two effects
    of one call and inside a write of several entries, and restart from its
    store.  Every run is a run of [Protocol], so its safety carries over. *)

From stdpp Require Import base list gmap functions relations.
From S2P Require Import Prelude LogStore Raft Protocol Safety Preserve Refine.

Section Cluster.
Context {S : Type} `{LS : LogStore S} `{OK : !LogStoreOK S}.
Context (peers : list NodeID).

(** A node is up, or down with its store; [applied] is the index its state
    machine has durably applied. *)
Inductive cnode :=
  | Up (r : Raft S) (applied : N)
  | Down (s : S) (applied : N).

Record cluster := mkCluster { c_node : NodeID -> cnode; c_msgs : list Message }.

(** The calls of the driver.  [CCompact] is its snapshot of an applied
    prefix (raft/node.go, [maybeSnapshot]). *)
Inductive call :=
  | CStep (m : Message)
  | CTick
  | CPropose (payloads : list bytes)
  | CReadIndex
  | CCompact (i : N) (d : bytes).

Definition run_call (c : call) : @M S unit :=
  match c with
  | CStep m => Step m
  | CTick => Tick
  | CPropose ps => Propose ps;; mret tt
  | CReadIndex => ReadIndex;; mret tt
  | CCompact i d => t ← termAt i; write (ECompact i t d) (ls_Compact i t d)
  end.

(** Messages are delivered to their addressee, once sent; snapshots are of
    committed entries the log still holds. *)
Definition call_ok (c : call) (n : NodeID) (msgs : list Message) (r : Raft S) : Prop :=
  match c with
  | CStep m => m ∈ msgs /\ m_To m = n
  | CCompact i _ => (ls_FirstIndex (r_store r) <= i <= r_commit r)%N
  | _ => True
  end.

(** What a crash leaves of a trace: its first [k] effects, and part of the
    entries being written. *)
Definition survives (tr : list effect) (k j : nat) : list effect :=
  take k tr ++ match tr !! k with
               | Some (EAppend es) => [EAppend (take j es)]
               | _ => []
               end.

Definition start_trace (r : Raft S) : Raft S := set_trace [] r.

(** What [NewNode] does with [New]: the state machine is restored from the
    snapshot if it is behind, and the commit index raised to what it has
    applied. *)
Definition boot (cfg : Config) (s : S) (rng : list nat) (lastApplied : N) : go (Raft S) :=
  r ← New cfg s rng;
  '(snapIdx, _, _) ← ls_Snapshot s;
  let applied := if (lastApplied <? snapIdx)%N then snapIdx else lastApplied in
  Ret (if (r_commit r <? applied)%N then set_commit applied r else r).

Inductive cstep (c : cluster) : cluster -> Prop :=
  | C_call n cl r ap r' res :
      n ∈ peers -> c_node c n = Up r ap -> call_ok cl n (c_msgs c) r ->
      run_call cl (start_trace r) = (r', res) -> res <> Panic ->
      cstep c (mkCluster (<[n := Up r' ap]> (c_node c)) (after (r_trace r') (c_msgs c)))
  | C_apply n r ap ap' :
      n ∈ peers -> c_node c n = Up r ap -> (ap' <= r_commit r)%N ->
      cstep c (mkCluster (<[n := Up r ap']> (c_node c)) (c_msgs c))
  | C_crash n cl r ap r' res k j s ap' :
      n ∈ peers -> c_node c n = Up r ap -> call_ok cl n (c_msgs c) r ->
      run_call cl (start_trace r) = (r', res) -> (ap' <= ap)%N ->
      ls_ok s -> ls_view s = foldl (fun v e => apply_eff e v) (ls_view (r_store r)) (survives (r_trace r') k j) ->
      cstep c (mkCluster (<[n := Down s ap']> (c_node c)) (after (take k (r_trace r')) (c_msgs c)))
  | C_restart n cfg s rng ap r :
      n ∈ peers -> c_node c n = Down s ap -> c_ID cfg = n -> c_Peers cfg = peers ->
      boot cfg s rng ap = Ret r ->
      cstep c (mkCluster (<[n := Up r ap]> (c_node c)) (c_msgs c)).

(** Every node starts down, with an empty store. *)
Definition c_start (c : cluster) : Prop :=
  c_msgs c = [] /\ forall n, exists s, c_node c n = Down s 0 /\ ls_ok s /\ ls_view s = NewMemStore.

Inductive creach : cluster -> Prop :=
  | creach_start c : c_start c -> creach c
  | creach_step c c' : creach c -> cstep c c' -> creach c'.

(** ** Traces and the store *)

#[local] Abbreviation astep := (Protocol.astep peers).

Lemma astep_mem Ms n a lab a1 :
  astep Ms n a lab a1 -> a_mem a1 = foldl (fun v e => apply_eff e v) (a_mem a) (eff_list lab).
Proof.
  destruct 1; simpl; try done;
    match goal with H : _ = Ret _ |- _ => by rewrite H end.
Qed.

Lemma asteps_mem Ms n a tr a1 :
  asteps peers n Ms a tr a1 -> a_mem a1 = foldl (fun v e => apply_eff e v) (a_mem a) tr.
Proof.
  induction 1 as [|Ms a lab a1 tr a2 Hs _ IH]; [done|].
  by rewrite foldl_app, <-(astep_mem _ _ _ _ _ Hs).
Qed.

Lemma asteps_split Ms n a tr a2 k :
  asteps peers n Ms a tr a2 ->
  exists a1, asteps peers n Ms a (take k tr) a1 /\ asteps peers n (after (take k tr) Ms) a1 (drop k tr) a2.
Proof.
  intros H. revert k. induction H as [Ms a|Ms a lab a0 tr a2 Hs H IH]; intros k.
  - exists a. rewrite take_nil, drop_nil. split; constructor.
  - destruct lab as [e|]; simpl.
    + destruct k as [|k]; simpl.
      * exists a. split; [constructor|]. by apply (asteps_cons peers n Ms a (Some e)  a0).
      * destruct (IH k) as (a1 & H1 & H2). exists a1. split; [|done].
        by apply (asteps_cons peers n Ms a (Some e) a0).
    + destruct (IH k) as (a1 & H1 & H2). exists a1. split; [|done].
      by apply (asteps_cons peers n Ms a None a0).
Qed.

(** A write of several entries may stop after any of them. *)
Lemma append_partial es s s' j :
  appendLocked es s = Ret s' -> exists s'', appendLocked (take j es) s = Ret s''.
Proof.
  destruct es as [|e es]; [intros; rewrite take_nil; simpl; eauto|].
  destruct j as [|j]; simpl; [eauto|].
  destruct (_ || _); [done|]. destruct (slice _ _ _); [|done..]. simpl. eauto.
Qed.

Lemma asteps_partial Ms n a es tr a2 j :
  asteps peers n Ms a (EAppend es :: tr) a2 ->
  exists a1, asteps peers n Ms a [EAppend (take j es)] a1 \/ (j = 0 /\ asteps peers n Ms a [] a1).
Proof.
  remember (EAppend es :: tr) as t eqn:Ht. intros H. revert Ht.
  induction H as [Ms a|Ms a lab a0 tr' a2 Hs H IH]; intros Ht; [done|].
  destruct lab as [e|]; simpl in Ht.
  - injection Ht as -> ->.
    destruct (decide (j = 0)) as [->|Hj]; [exists a; right; split; [done|constructor]|].
    inversion Hs; subst;
      match goal with Ha : appendLocked _ _ = Ret _ |- _ => destruct (append_partial _ _ _ j Ha) as [s'' Hs''] end;
      rewrite take_take in *; eexists; left; apply (asteps_one peers _ _ _ (Some _)).
    + by eapply AS_flush.
    + eapply AS_accept; eauto. lia.
  - destruct (IH Ht) as (a1 & [H1|[? H1]]); exists a1; [left|right; split; [done|]].
    + by apply (asteps_cons peers n Ms a None a0).
    + by apply (asteps_cons peers n Ms a None a0).
Qed.

(** ** The cluster implements the protocol *)

Context (Hnodup : NoDup peers) (Hzero : 0%N ∉ peers).

Definition node_rel (Ms : list Message) (n : NodeID) (cn : cnode) (a : anode) : Prop :=
  match cn with
  | Up r ap => sim peers n Ms r a /\ (ap <= a_cmax a)%N
  | Down s ap => ls_ok s /\ ls_view s = a_mem a /\ (ap <= a_cmax a)%N
  end.

Definition crel (c : cluster) (w : world) : Prop :=
  w_msgs w = c_msgs c /\ forall n, n ∈ peers -> node_rel (c_msgs c) n (c_node c n) (w_node w n).

Lemma node_rel_more Ms Ms' n cn a :
  node_rel Ms n cn a -> (forall m, m ∈ Ms -> m ∈ Ms') -> node_rel Ms' n cn a.
Proof. destruct cn; simpl; [|done]. intros [Hs ?] Hm. split; [|done]. by eapply sim_more. Qed.

Lemma astep_cmax Ms n a lab a1 : astep Ms n a lab a1 -> (a_cmax a <= a_cmax a1)%N.
Proof. destruct 1; simpl; lia. Qed.

Lemma asteps_cmax Ms n a tr a1 : asteps peers n Ms a tr a1 -> (a_cmax a <= a_cmax a1)%N.
Proof. induction 1 as [|Ms a lab a1 tr a2 Hs _ IH]; [lia|]. apply astep_cmax in Hs. lia. Qed.

(** Steps of one node are steps of the system. *)
Lemma asteps_wsteps n Ms a tr a1 w :
  n ∈ peers -> asteps peers n Ms a tr a1 -> w_msgs w = Ms -> w_node w n = a ->
  exists w', rtc (wstep peers) w w' /\ w_msgs w' = after tr Ms /\ w_node w' n = a1 /\
    forall n', n' <> n -> w_node w' n' = w_node w n'.
Proof.
  intros Hn H. revert w. induction H as [Ms a|Ms a lab a0 tr a2 Hs H IH]; intros w Hm Hw.
  { exists w. by split_and!. }
  destruct (IH (mkWorld (<[n := a0]> (w_node w)) (sent lab ++ w_msgs w))) as (w' & Hst & Hm' & Hw' & Ho).
  { simpl. by rewrite Hm. } { simpl. by rewrite fn_lookup_insert. }
  exists w'. split_and!; try done.
  - eapply rtc_l; [|exact Hst]. apply W_node; [done|by intros ->|by rewrite Hm, Hw].
  - by rewrite after_lab.
  - intros n' Hne. rewrite Ho by done. simpl. by rewrite fn_lookup_insert_ne.
Qed.

(** A crash loses everything but the store. *)
Lemma asteps_restart n Ms a tr a1 c :
  asteps peers n Ms a tr a1 -> (a_snapIdx a1 <= c <= a_cmax a1)%N ->
  asteps peers n Ms a tr (mkAN (a_mem a1) Follower ∅ [] c (a_cmax a1) (fun _ => 0%N) []).
Proof.
  intros H Hc. rewrite <-(app_nil_r tr). eapply asteps_trans; [exact H|].
  by apply (asteps_one peers n _ _ None), AS_restart.
Qed.

(** One node moved, by the steps [tr]. *)
Lemma crel_move c w n a tr a1 cn :
  crel c w -> n ∈ peers -> asteps peers n (c_msgs c) a tr a1 -> w_node w n = a ->
  node_rel (after tr (c_msgs c)) n cn a1 ->
  exists w', rtc (wstep peers) w w' /\
    crel (mkCluster (<[n := cn]> (c_node c)) (after tr (c_msgs c))) w'.
Proof.
  intros [Hm Hr] Hn Hst Ha Hrel.
  destruct (asteps_wsteps n _ _ _ _ w Hn Hst Hm Ha) as (w' & Hsteps & Hm' & Hw' & Ho).
  exists w'. split; [done|]. split; [done|]. intros n' Hn'. simpl.
  destruct (decide (n' = n)) as [->|Hne].
  - by rewrite fn_lookup_insert, Hw'.
  - rewrite fn_lookup_insert_ne, Ho by done. eapply node_rel_more; [by apply Hr|].
    intros m. apply after_incl.
Qed.

(** What the invariant says about delivered messages. *)
Lemma inv_delivered g w m : inv peers g w -> m ∈ w_msgs w ->
  m_From m <> 0%N /\ (m_Type m = MsgApp -> contig m).
Proof.
  intros Hinv Hm. pose proof (i_msgs _ _ _ Hinv m Hm) as Hok. split; [apply Hok|].
  intros Hty j e He. destruct (app_entry peers g m j e (i_ghost _ _ _ Hinv) Hok Hty He) as (-> & _). lia.
Qed.

Lemma delivered w m : reachable peers w -> m ∈ w_msgs w ->
  m_From m <> 0%N /\ (m_Type m = MsgApp -> contig m).
Proof. intros Hw. destruct (reachable_inv peers Hnodup w Hw) as [g Hinv]. by apply (inv_delivered g). Qed.

(** Dropping a committed prefix that the log still holds. *)
Lemma wp_compact n Ms r a i d E :
  sim peers n Ms r a -> (a_snapIdx a < i <= a_commit a)%N ->
  wp peers n (t ← termAt i; write (ECompact i t d) (ls_Compact i t d)) (fun _ => sim peers n) E Ms r a.
Proof.
  intros Hs Hi. destruct (sim_store _ _ _ _ _ _ Hs) as [Hlo Hlv]. apply wp_bind, wp_termAt; [done|]. intros t Ht.
  unfold a_snapIdx in Hi. destruct (compact_ok (a_mem a) i t d) as [es Hcomp]; [lia|].
  apply (wp_write _ _ _ _ _ _ _ _ _ (with_mem (mkMem (ms_term (a_mem a)) (ms_vote (a_mem a)) es i t d) a)).
  - intros _ _. eapply AS_compact; [unfold a_snapIdx; lia|done|apply Hs|done].
  - intros s Hls. pose proof (ls_Compact_ok i t d _ Hlo) as Hsim. rewrite Hls, Hlv, Hcomp in Hsim.
    destruct Hsim as (b & [= <-] & ? & ?). destruct Hs. constructor; try done. unfold a_snapIdx. simpl. lia.
Qed.

Lemma wp_run_call cl n c w r :
  reachable peers w -> w_msgs w = c_msgs c -> sim peers n (c_msgs c) r (w_node w n) ->
  call_ok cl n (c_msgs c) r ->
  wp peers n (run_call cl) (fun _ => sim peers n) (sim peers n) (c_msgs c) r (w_node w n).
Proof.
  intros Hw Hm Hs Hok. destruct cl as [m| |ps| |i d]; simpl in *.
  - destruct Hok as [Hin Hto]. rewrite <-Hm in Hin. destruct (delivered w m Hw Hin) as [Hf Hc].
    rewrite Hm in Hin. by apply wp_Step.
  - by apply wp_Tick.
  - apply wp_bind. eapply wp_mono; [by apply wp_Propose|]. intros. by apply wp_ret.
  - apply wp_bind. eapply wp_mono; [by apply wp_ReadIndex|]. intros. by apply wp_ret.
  - destruct (sim_store _ _ _ _ _ _ Hs) as [Hlo Hlv].
    rewrite ls_FirstIndex_ok, Hlv, (sim_commit _ _ _ _ _ _ Hs) in Hok by done. unfold mem_FirstIndex in Hok.
    apply wp_compact; [done|]. unfold a_snapIdx. lia.
Qed.

(** The trace of a call. *)
Lemma call_run cl n c w r ap r' res :
  reachable peers w -> crel c w -> n ∈ peers -> c_node c n = Up r ap -> call_ok cl n (c_msgs c) r ->
  run_call cl (start_trace r) = (r', res) ->
  exists a1, asteps peers n (c_msgs c) (w_node w n) (r_trace r') a1 /\ (ap <= a_cmax (w_node w n))%N /\
    (res <> Panic -> sim peers n (after (r_trace r') (c_msgs c)) r' a1).
Proof.
  intros Hw [Hm Hr] Hn Hc Hok Hrun. specialize (Hr n Hn). rewrite Hc in Hr. destruct Hr as [Hs Hap].
  assert (sim peers n (c_msgs c) (start_trace r) (w_node w n)) as Hs' by (by eapply sim_ext; [..|exact Hs]).
  destruct (wp_run_call cl n c w (start_trace r) Hw Hm Hs') as (tr & a1 & Htr & Hst & Hpost).
  { by destruct cl. }
  rewrite Hrun in Htr, Hpost. simpl in Htr, Hpost. subst tr. exists a1. split_and!; [done|done|].
  intros Hp. by destruct res.
Qed.

(** A booted node is a follower that has committed what it had applied. *)
Lemma boot_sim cfg s rng ap r n Ms a :
  boot cfg s rng ap = Ret r -> c_ID cfg = n -> c_Peers cfg = peers -> ls_ok s -> ls_view s = a_mem a ->
  sim peers n Ms r (mkAN (a_mem a) Follower ∅ [] (N.max (a_snapIdx a) ap) (a_cmax a) (fun _ => 0%N) []).
Proof.
  intros Hb Hid Hp Hlo Hlv. unfold boot, New in Hb.
  destruct (_ =? _)%N; [done|]. destruct (_ || _ || _); [done|].
  rewrite ls_State_ok in Hb by done. unfold mem_State in Hb. rewrite Hlv in Hb. cbn [mbind go_bind] in Hb.
  pose proof (ls_Snapshot_ok s Hlo) as Hsnap. destruct (ls_Snapshot s) as [[[i t] d]| |]; [|done..].
  destruct Hsnap as (b & [= <-] & [= -> -> ->]). rewrite Hlv in Hb. cbn [mbind go_bind] in Hb.
  unfold resetTimeout in Hb. cbn [r_rng] in Hb.
  assert (forall r0, r_cfg r0 = mkConfig (c_ID cfg) (c_Peers cfg) (c_ElectionTick cfg) (c_HeartbeatTick cfg)
      (if c_MaxBatch cfg =? 0 then 256 else c_MaxBatch cfg)
      (if (c_MaxBatchBytes cfg =? 0)%N then 1048576%N else c_MaxBatchBytes cfg)
      (if (c_SnapshotChunk cfg =? 0)%N then 524288%N else c_SnapshotChunk cfg) ->
    r_store r0 = s -> r_term r0 = ms_term (a_mem a) -> r_vote r0 = ms_vote (a_mem a) -> r_state r0 = Follower ->
    r_snapIn r0 = None -> r_commit r0 = N.max (a_snapIdx a) ap ->
    sim peers n Ms r0 (mkAN (a_mem a) Follower ∅ [] (N.max (a_snapIdx a) ap) (a_cmax a) (fun _ => 0%N) [])) as Hmk.
  { intros r0 H1 H2 H3 H4 H5 H6 H7.
    constructor; unfold store_rel, r_id, r_peers; simpl; rewrite ?H1, ?H2, ?H3, ?H4, ?H5, ?H6, ?H7; try done.
    unfold a_snapIdx. simpl. lia. }
  destruct rng; injection Hb as <-; apply Hmk; simpl; unfold a_snapIdx;
    destruct (N.ltb_spec ap (ms_snapIdx (a_mem a)));
    match goal with |- context [if ?b then _ else _] => destruct b eqn:Eb end; bool_to_prop; simpl in *; try done; lia.
Qed.

Lemma survives_steps n Ms a tr a2 k j :
  asteps peers n Ms a tr a2 ->
  exists a1 tr1, asteps peers n Ms a tr1 a1 /\ after tr1 Ms = after (take k tr) Ms /\
    a_mem a1 = foldl (fun v e => apply_eff e v) (a_mem a) (survives tr k j).
Proof.
  intros H. destruct (asteps_split _ _ _ _ _ k H) as (a1 & H1 & H2).
  unfold survives. rewrite foldl_app, <-(asteps_mem _ _ _ _ _ H1).
  destruct (tr !! k) as [e|] eqn:Ek; [|by exists a1, (take k tr)].
  destruct e as [|?|es|]; try (by exists a1, (take k tr)).
  rewrite (drop_S _ _ _ Ek) in H2. destruct (asteps_partial _ _ _ _ _ _ j H2) as (a3 & [H3|[-> H3]]).
  - exists a3, (take k tr ++ [EAppend (take j es)]). split_and!.
    + by eapply asteps_trans.
    + by rewrite after_app.
    + by rewrite (asteps_mem _ _ _ _ _ H3).
  - exists a3, (take k tr ++ []). split_and!.
    + by eapply asteps_trans.
    + by rewrite app_nil_r.
    + by rewrite (asteps_mem _ _ _ _ _ H3).
Qed.

Lemma commit_bounds w n : reachable peers w ->
  (a_snapIdx (w_node w n) <= a_commit (w_node w n) <= a_cmax (w_node w n))%N.
Proof.
  intros Hw. destruct (reachable_inv peers Hnodup w Hw) as [g Hinv].
  apply (n_commit _ _ _ _ _ _ (n_base _ _ _ _ (i_node _ _ _ Hinv n))).
Qed.

Lemma csim c w c' :
  reachable peers w -> crel c w -> cstep c c' ->
  exists w', rtc (wstep peers) w w' /\ crel c' w'.
Proof.
  intros Hw Hrel Hst. destruct Hst as [n cl r ap r' res Hn Hc Hok Hrun Hres|n r ap ap' Hn Hc Hap
    |n cl r ap r' res k j s ap' Hn Hc Hok Hrun Hap Hlo Hlv|n cfg s rng ap r Hn Hc Hid Hp Hb].
  - destruct (call_run _ _ _ _ _ _ _ _ Hw Hrel Hn Hc Hok Hrun) as (a1 & Ha & Hap & Hs).
    eapply crel_move; try done. split; [by apply Hs|]. apply asteps_cmax in Ha. lia.
  - eapply (crel_move _ _ _ _ []); try done; [constructor|].
    pose proof (proj2 Hrel n Hn) as Hr. rewrite Hc in Hr. destruct Hr as [Hs _]. split; [done|].
    pose proof (commit_bounds w n Hw). rewrite (sim_commit _ _ _ _ _ _ Hs) in Hap. lia.
  - destruct (call_run _ _ _ _ _ _ _ _ Hw Hrel Hn Hc Hok Hrun) as (a2 & Ha & Hap2 & _).
    destruct (survives_steps _ _ _ _ _ k j Ha) as (a1 & tr1 & Ha1 & Haft & Hmem). rewrite <-Haft.
    eapply crel_move; try done. pose proof (proj2 Hrel n Hn) as Hr. rewrite Hc in Hr. destruct Hr as [Hs _].
    destruct (sim_store _ _ _ _ _ _ Hs) as [_ Hv]. rewrite Hv, <-Hmem in Hlv.
    split_and!; try done. apply asteps_cmax in Ha1. lia.
  - pose proof (proj2 Hrel n Hn) as Hr. rewrite Hc in Hr. destruct Hr as (Hlo & Hlv & Hap).
    eapply (crel_move _ _ _ _ [] (mkAN (a_mem (w_node w n)) Follower ∅ [] (N.max (a_snapIdx (w_node w n)) ap)
      (a_cmax (w_node w n)) (fun _ => 0%N) [])); try done.
    + apply (asteps_restart n _ _ [] (w_node w n)); [constructor|].
      pose proof (commit_bounds w n Hw). lia.
    + split; [|done]. by eapply boot_sim.
Qed.

Lemma reachable_rtc w w' : reachable peers w -> rtc (wstep peers) w w' -> reachable peers w'.
Proof. intros Hw Hs. induction Hs; [done|]. apply IHHs. by econstructor. Qed.

Lemma creach_rel c : creach c -> exists w, reachable peers w /\ crel c w.
Proof.
  induction 1 as [c [Hm Hn]|c c' _ (w & Hw & Hrel) Hst].
  - exists w_init. split; [constructor|]. split; [done|]. intros n _.
    destruct (Hn n) as (s & -> & Hlo & Hlv). done.
  - destruct (csim c w c' Hw Hrel Hst) as (w' & Hs & Hrel'). exists w'. split; [|done]. by eapply reachable_rtc.
Qed.

Lemma csteps_rel c c' w :
  reachable peers w -> crel c w -> rtc cstep c c' -> exists w', rtc (wstep peers) w w' /\ crel c' w'.
Proof.
  intros Hw Hrel Hs. revert w Hw Hrel. induction Hs as [c|c c1 c2 Hst _ IH]; intros w Hw Hrel.
  - exists w. by split.
  - destruct (csim c w c1 Hw Hrel Hst) as (w1 & Hs1 & Hrel1).
    destruct (IH w1 (reachable_rtc _ _ Hw Hs1) Hrel1) as (w2 & Hs2 & Hrel2).
    exists w2. split; [by etrans|done].
Qed.

(** Two moments of a run, with their histories. *)
Lemma two_moments c c' :
  creach c -> rtc cstep c c' ->
  exists w w' g g', inv peers g w /\ inv peers g' w' /\ gle g g' /\ crel c w /\ crel c' w'.
Proof.
  intros Hc Hs. destruct (creach_rel c Hc) as (w & Hw & Hrel).
  destruct (csteps_rel c c' w Hw Hrel Hs) as (w' & Hsw & Hrel').
  destruct (reachable_inv peers Hnodup w Hw) as [g Hinv].
  destruct (steps_inv peers Hnodup g w w' Hinv Hsw) as (g' & Hle & Hinv'). by exists w, w', g, g'.
Qed.

(** ** Safety *)

(** The entry a node stores at an index. *)
Definition entry_at (r : Raft S) (i : N) : option Entry :=
  let v := ls_view (r_store r) in
  if (ms_snapIdx v <? i)%N then ms_entries v !! N.to_nat (i - ms_snapIdx v - 1) else None.

Definition is_up (c : cluster) (n : NodeID) (r : Raft S) : Prop :=
  n ∈ peers /\ exists ap, c_node c n = Up r ap.

Lemma up_sim c w n r : crel c w -> is_up c n r -> sim peers n (c_msgs c) r (w_node w n).
Proof. intros [_ Hr] [Hn [ap Hap]]. specialize (Hr n Hn). rewrite Hap in Hr. apply Hr. Qed.

(** What a node stores, in terms of its full log. *)
Lemma entry_at_G g w c n r i e :
  inv peers g w -> crel c w -> is_up c n r -> entry_at r i = Some e ->
  (ms_snapIdx (ls_view (r_store r)) < i)%N /\
  g_G g n !! N.to_nat (i - 1) = Some e /\ g_H g n !! N.to_nat (i - 1) = Some e.
Proof.
  intros Hinv Hrel Hup He. pose proof (up_sim c w n r Hrel Hup) as Hs.
  destruct (sim_store _ _ _ _ _ _ Hs) as [_ Hv]. unfold entry_at in He. rewrite Hv in *.
  destruct (N.ltb_spec (ms_snapIdx (a_mem (w_node w n))) i) as [Hlt|]; [|done].
  pose proof (n_base _ _ _ _ (i_node _ _ _ Hinv n)) as Hb. destruct (n_rel _ _ _ _ _ _ Hb) as (_ & Hent & _).
  rewrite Hent in He. pose proof (n_tail _ _ _ _ _ _ Hb) as Ht.
  assert (N.to_nat (ms_snapIdx (a_mem (w_node w n))) + N.to_nat (i - ms_snapIdx (a_mem (w_node w n)) - 1)
    = N.to_nat (i - 1)) as Harith by lia.
  split_and!; [done| |].
  - by rewrite lookup_drop, Harith in He.
  - rewrite <-Ht in He. by rewrite lookup_drop, Harith in He.
Qed.

(** C8: Every reachable state of a cluster that runs the code over any
    correct store is a state of the protocol: each call, crash and restart is
    a run of protocol steps with the same effects in the same order. *)
Theorem cluster_implements_protocol c :
  creach c -> exists w, reachable peers w /\ crel c w.
Proof. apply creach_rel. Qed.

(** C5: Election safety.  Two nodes that lead the same term, at the same or
    at different moments of a run, are the same node. *)
Theorem election_safety c c' n1 n2 r1 r2 :
  creach c -> rtc cstep c c' -> is_up c n1 r1 -> is_up c' n2 r2 ->
  r_state r1 = Leader -> r_state r2 = Leader -> r_term r1 = r_term r2 -> n1 = n2.
Proof.
  intros Hc Hs Hu1 Hu2 Hl1 Hl2 Ht.
  destruct (two_moments c c' Hc Hs) as (w & w' & g & g' & Hinv & Hinv' & Hle & Hrel & Hrel').
  pose proof (up_sim _ _ _ _ Hrel Hu1) as Hs1. pose proof (up_sim _ _ _ _ Hrel' Hu2) as Hs2.
  rewrite (sim_role _ _ _ _ _ _ Hs1) in Hl1. rewrite (sim_role _ _ _ _ _ _ Hs2) in Hl2.
  destruct (lead_facts peers g w n1 Hinv Hl1) as (H1 & _). destruct (lead_facts peers g' w' n2 Hinv' Hl2) as (H2 & _).
  apply (gle_led _ _ Hle) in H1 as (H1 & _).
  rewrite <-(sim_term _ _ _ _ _ _ Hs1), Ht, (sim_term _ _ _ _ _ _ Hs2) in H1. congruence.
Qed.

(** The committed prefix of a node, at a later moment. *)
Lemma commit_later g g' w c n r i :
  inv peers g w -> gle g g' -> crel c w -> is_up c n r -> (i <= r_commit r)%N ->
  cpre peers g' (r_term r) i (g_G g n).
Proof.
  intros Hinv Hle Hrel Hup Hi. pose proof (up_sim _ _ _ _ Hrel Hup) as Hs.
  pose proof (n_base _ _ _ _ (i_node _ _ _ Hinv n)) as Hb.
  eapply gle_cpre; [done|]. rewrite (sim_term _ _ _ _ _ _ Hs).
  eapply cpre_le; [apply (n_cpre _ _ _ _ _ _ Hb)|].
  pose proof (n_commit _ _ _ _ _ _ Hb). rewrite (sim_commit _ _ _ _ _ _ Hs) in Hi. lia.
Qed.

(** Committed prefixes agree. *)
Lemma cpre_agree g w T1 T2 i L1 L2 :
  inv peers g w -> cpre peers g T1 i L1 -> cpre peers g T2 i L2 -> pre i L1 = pre i L2.
Proof.
  intros Hinv [_ [->|(Ta & _ & Ha & Ea)]] [_ [?|(Tb & _ & Hb & Eb)]]; [done|done|by subst|].
  assert (forall T T', (T < T')%N -> cmtd peers g T i -> cmtd peers g T' i -> pre i (g_ll g T) = pre i (g_ll g T')) as Hgen.
  { intros T T' HT H1 H2. symmetry. apply pre_prefix_le; [|by apply (cmtd_len peers)].
    assert (g_led g T' <> None) as Hled.
    { intros Hn. destruct H2 as (ic & ? & ? & Htm & _).
      rewrite (gh_none _ _ (i_ghost _ _ _ Hinv) _ Hn) in Htm. apply tm_len in Htm. unfold len in Htm. simpl in Htm. lia. }
    etrans; [by eapply (leader_complete peers Hnodup g w T i T')|].
    apply (init_prefix peers); [apply Hinv|done]. }
  rewrite Ea, Eb. destruct (N.lt_trichotomy Ta Tb) as [?|[->|?]]; [by apply Hgen|done|symmetry; by apply Hgen].
Qed.

(** C4: State machine safety.  If one node has committed index [i] and
    another node commits it at the same or a later moment, the entries they
    store there are equal, whatever crashes, elections and snapshots happen
    in between. *)
Theorem state_machine_safety c c' n1 n2 r1 r2 i e1 e2 :
  creach c -> rtc cstep c c' -> is_up c n1 r1 -> is_up c' n2 r2 ->
  (i <= r_commit r1)%N -> (i <= r_commit r2)%N ->
  entry_at r1 i = Some e1 -> entry_at r2 i = Some e2 -> e1 = e2.
Proof.
  intros Hc Hs Hu1 Hu2 Hi1 Hi2 He1 He2.
  destruct (two_moments c c' Hc Hs) as (w & w' & g & g' & Hinv & Hinv' & Hle & Hrel & Hrel').
  pose proof (commit_later g g' w c n1 r1 i Hinv Hle Hrel Hu1 Hi1) as Hp1.
  pose proof (commit_later g' g' w' c' n2 r2 i Hinv' (gle_refl g') Hrel' Hu2 Hi2) as Hp2.
  pose proof (cpre_agree g' w' _ _ _ _ _ Hinv' Hp1 Hp2) as Heq.
  destruct (entry_at_G g w c n1 r1 i e1 Hinv Hrel Hu1 He1) as (Hlt & HG1 & _).
  destruct (entry_at_G g' w' c' n2 r2 i e2 Hinv' Hrel' Hu2 He2) as (_ & HG2 & _).
  apply (f_equal (.!! N.to_nat (i - 1))) in Heq. unfold pre in Heq.
  rewrite !lookup_take_lt in Heq by lia. congruence.
Qed.

(** C6: Leader completeness.  An entry that a node has committed is in the
    log of every later leader: below its snapshot, or stored as the same
    entry. *)
Theorem leader_completeness c c' n1 n2 r1 r2 i e :
  creach c -> rtc cstep c c' -> is_up c n1 r1 -> is_up c' n2 r2 ->
  (i <= r_commit r1)%N -> entry_at r1 i = Some e -> r_state r2 = Leader -> (r_term r1 <= r_term r2)%N ->
  (i <= ms_snapIdx (ls_view (r_store r2)))%N \/ entry_at r2 i = Some e.
Proof.
  intros Hc Hs Hu1 Hu2 Hi He Hl Ht.
  destruct (two_moments c c' Hc Hs) as (w & w' & g & g' & Hinv & Hinv' & Hle & Hrel & Hrel').
  pose proof (commit_later g g' w c n1 r1 i Hinv Hle Hrel Hu1 Hi) as Hp.
  pose proof (up_sim _ _ _ _ Hrel' Hu2) as Hs2. rewrite (sim_role _ _ _ _ _ _ Hs2) in Hl.
  destruct (lead_facts peers g' w' n2 Hinv' Hl) as (Hled & Hll & _).
  rewrite (sim_pend _ _ _ _ _ _ Hs2), app_nil_r in Hll.
  rewrite (sim_term _ _ _ _ _ _ Hs2) in Ht.
  destruct (cpre_leader peers Hnodup g' w' _ _ _ _ Hinv' Hp Ht) as [Hlen Heq]; [by rewrite Hled|].
  rewrite Hll in Heq. destruct (entry_at_G g w c n1 r1 i e Hinv Hrel Hu1 He) as (Hlt & HG1 & _).
  apply (f_equal (.!! N.to_nat (i - 1))) in Heq. unfold pre in Heq. rewrite !lookup_take_lt, HG1 in Heq by lia.
  destruct (sim_store _ _ _ _ _ _ Hs2) as [_ Hv]. unfold entry_at. rewrite Hv.
  destruct (N.ltb_spec (ms_snapIdx (a_mem (w_node w' n2))) i); [right|by left].
  destruct (n_rel _ _ _ _ _ _ (n_base _ _ _ _ (i_node _ _ _ Hinv' n2))) as (_ & -> & _).
  rewrite lookup_drop. rewrite Heq. f_equal. lia.
Qed.

(** C10: Log matching.  If two nodes store an entry of the same term at the
    same index, every index at or below it that both store holds the same
    entry, also after a snapshot was installed over a diverging log. *)
Theorem log_matching c n1 n2 r1 r2 i j e1 e2 d1 d2 :
  creach c -> is_up c n1 r1 -> is_up c n2 r2 ->
  entry_at r1 i = Some e1 -> entry_at r2 i = Some e2 -> e_Term e1 = e_Term e2 ->
  (j <= i)%N -> entry_at r1 j = Some d1 -> entry_at r2 j = Some d2 -> d1 = d2.
Proof.
  intros Hc Hu1 Hu2 He1 He2 Ht Hj Hd1 Hd2. destruct (creach_rel c Hc) as (w & Hw & Hrel).
  destruct (reachable_inv peers Hnodup w Hw) as [g Hinv].
  destruct (entry_at_G g w c n1 r1 i e1 Hinv Hrel Hu1 He1) as (Hi1 & _ & HH1).
  destruct (entry_at_G g w c n2 r2 i e2 Hinv Hrel Hu2 He2) as (Hi2 & _ & HH2).
  destruct (entry_at_G g w c n1 r1 j d1 Hinv Hrel Hu1 Hd1) as (Hj1 & _ & HJ1).
  destruct (entry_at_G g w c n2 r2 j d2 Hinv Hrel Hu2 Hd2) as (_ & _ & HJ2).
  assert (forall n L e, L = g_H g n -> L !! N.to_nat (i - 1) = Some e -> tm L i = Some (e_Term e)) as Htm.
  { intros n L e _ HL. unfold tm. destruct (N.eqb_spec i 0); [lia|]. by rewrite HL. }
  pose proof (honest_match (g_ll g) (g_H g n1) (g_H g n2) i (e_Term e1)) as Heq.
  assert (pre i (g_H g n1) = pre i (g_H g n2)) as Hp.
  { apply Heq; [apply (n_base _ _ _ _ (i_node _ _ _ Hinv n1))|apply (n_base _ _ _ _ (i_node _ _ _ Hinv n2))|by eapply (Htm n1)|].
    rewrite Ht. by eapply (Htm n2). }
  apply (f_equal (.!! N.to_nat (j - 1))) in Hp. unfold pre in Hp.
  rewrite !lookup_take_lt in Hp by lia. congruence.
Qed.

(** C12: A node grants at most one vote per term, also across crashes and
    restarts: two granted votes it ever sent in a term name the same
    candidate. *)
Theorem one_vote_per_term c m1 m2 :
  creach c -> m1 ∈ c_msgs c -> m2 ∈ c_msgs c ->
  m_Type m1 = MsgVoteResp -> m_Type m2 = MsgVoteResp -> m_Reject m1 = false -> m_Reject m2 = false ->
  m_From m1 = m_From m2 -> m_Term m1 = m_Term m2 -> m_To m1 = m_To m2.
Proof.
  intros Hc Hm1 Hm2 Ht1 Ht2 Hr1 Hr2 Hf Ht. destruct (creach_rel c Hc) as (w & Hw & [Hm _]).
  destruct (reachable_inv peers Hnodup w Hw) as [g Hinv]. rewrite <-Hm in Hm1, Hm2.
  destruct (i_msgs _ _ _ Hinv m1 Hm1) as (_ & _ & H1). destruct (i_msgs _ _ _ Hinv m2 Hm2) as (_ & _ & H2).
  rewrite Ht1 in H1. rewrite Ht2 in H2. destruct (H1 Hr1) as [L1 HL1]. destruct (H2 Hr2) as [L2 HL2]. congruence.
Qed.

(** C15: A leader never removes or overwrites an entry of its own log: as long
    as it leads the same term, an entry it stored is still stored, or below
    its snapshot. *)
Theorem leader_append_only c c' n r r' i e :
  creach c -> rtc cstep c c' -> is_up c n r -> is_up c' n r' ->
  r_state r = Leader -> r_state r' = Leader -> r_term r = r_term r' -> entry_at r i = Some e ->
  (i <= ms_snapIdx (ls_view (r_store r')))%N \/ entry_at r' i = Some e.
Proof.
  intros Hc Hs Hu Hu' Hl Hl' Ht He.
  destruct (two_moments c c' Hc Hs) as (w & w' & g & g' & Hinv & Hinv' & Hle & Hrel & Hrel').
  pose proof (up_sim _ _ _ _ Hrel Hu) as Hs1. pose proof (up_sim _ _ _ _ Hrel' Hu') as Hs2.
  rewrite (sim_role _ _ _ _ _ _ Hs1) in Hl. rewrite (sim_role _ _ _ _ _ _ Hs2) in Hl'.
  destruct (lead_facts peers g w n Hinv Hl) as (_ & _ & _ & Hpre & _).
  destruct (lead_facts peers g' w' n Hinv' Hl') as (_ & Hll & _).
  rewrite (sim_pend _ _ _ _ _ _ Hs2), app_nil_r in Hll.
  destruct (entry_at_G g w c n r i e Hinv Hrel Hu He) as (Hlt & HG & _).
  assert (g_G g' n !! N.to_nat (i - 1) = Some e) as HG'.
  { rewrite <-Hll. eapply prefix_lookup_Some; [|apply (gle_ll _ _ Hle)].
    rewrite <-(sim_term _ _ _ _ _ _ Hs2), <-Ht, (sim_term _ _ _ _ _ _ Hs1).
    by eapply prefix_lookup_Some. }
  destruct (sim_store _ _ _ _ _ _ Hs2) as [_ Hv]. unfold entry_at. rewrite Hv.
  destruct (N.ltb_spec (ms_snapIdx (a_mem (w_node w' n))) i); [right|by left].
  destruct (n_rel _ _ _ _ _ _ (n_base _ _ _ _ (i_node _ _ _ Hinv' n))) as (_ & -> & _).
  rewrite lookup_drop. rewrite <-HG'. f_equal. lia.
Qed.
End Cluster.

(** ** A run of three nodes

    Node 1 times out, is elected by node 2, and commits the no-op of its
    term on both. *)

Inductive act :=
  | ADeliver (k : nat)                 (* the k-th newest message *)
  | ATick (n : NodeID)
  | ABoot (n : NodeID).

Section Example.
Let peers : list NodeID := [1; 2; 3]%N.

Definition ex_cfg (n : NodeID) : Config := mkConfig n [1; 2; 3]%N 1 1 0 0 0.

Definition ex_call (c : cluster (S:=MemStore)) (n : NodeID) (cl : call) : option (cluster (S:=MemStore)) :=
  match c_node c n with
  | Up r ap =>
      match run_call cl (start_trace r) with
      | (r', Ret _) => Some (mkCluster (<[n := Up r' ap]> (c_node c)) (after (r_trace r') (c_msgs c)))
      | _ => None
      end
  | Down _ _ => None
  end.

Definition exec1 (c : cluster (S:=MemStore)) (a : act) : option (cluster (S:=MemStore)) :=
  match a with
  | ADeliver k =>
      match c_msgs c !! k with
      | Some m => if bool_decide (m_To m ∈ peers) then ex_call c (m_To m) (CStep m) else None
      | None => None
      end
  | ATick n => if bool_decide (n ∈ peers) then ex_call c n CTick else None
  | ABoot n =>
      if bool_decide (n ∈ peers) then
        match c_node c n with
        | Down s ap =>
            match boot (ex_cfg n) s [] ap with
            | Ret r => Some (mkCluster (<[n := Up r ap]> (c_node c)) (c_msgs c))
            | _ => None
            end
        | Up _ _ => None
        end
      else None
  end.

Fixpoint exec (c : cluster (S:=MemStore)) (l : list act) : option (cluster (S:=MemStore)) :=
  match l with
  | [] => Some c
  | a :: l => match exec1 c a with Some c => exec c l | None => None end
  end.

Lemma ex_call_step c n cl c' :
  n ∈ peers -> (forall r, call_ok (S:=MemStore) cl n (c_msgs c) r) -> ex_call c n cl = Some c' ->
  cstep peers c c'.
Proof.
  intros Hn Hok. unfold ex_call. destruct (c_node c n) as [r ap|] eqn:En; [|done].
  destruct (run_call cl (start_trace r)) as [r' [x| |]] eqn:Er; [|done..]. intros [= <-].
  by eapply C_call; eauto.
Qed.

Lemma exec1_step c a c' : exec1 c a = Some c' -> cstep peers c c'.
Proof.
  destruct a as [k|n|n]; simpl.
  - destruct (c_msgs c !! k) as [m|] eqn:Em; [|done]. case_bool_decide as Hn; [|done].
    apply ex_call_step; [done|]. intros r. split; [by eapply list_elem_of_lookup_2|done].
  - case_bool_decide; [|done]. by apply ex_call_step.
  - case_bool_decide; [|done]. destruct (c_node c n) as [|s ap] eqn:En; [done|].
    destruct (boot (ex_cfg n) s [] ap) eqn:Eb; [|done..]. intros [= <-]. eapply (C_restart _ _ _ (ex_cfg n) s []); done.
Qed.

Lemma exec_steps c l c' : exec c l = Some c' -> rtc (cstep peers) c c'.
Proof.
  revert c. induction l as [|a l IH]; intros c; simpl; [intros [= ->]; constructor|].
  destruct (exec1 c a) as [c1|] eqn:E; [|done]. intros H. eapply rtc_l; [by eapply exec1_step|by apply IH].
Qed.

Definition ex_start : cluster (S:=MemStore) := mkCluster (fun _ => Down NewMemStore 0) [].

(** Node 1 leads, nothing is committed yet. *)
Definition ex_elect : list act := [ABoot 1; ABoot 2; ABoot 3; ATick 1; ADeliver 1; ADeliver 0]%N.
(** The no-op reaches node 2, is committed, and node 2 learns it. *)
Definition ex_commit : list act := [ADeliver 1; ADeliver 0; ADeliver 1].

Definition ex_get (c : option (cluster (S:=MemStore))) : cluster := default ex_start c.
Definition ex_c1 : cluster := ex_get (exec ex_start ex_elect).
Definition ex_c2 : cluster := ex_get (exec ex_c1 ex_commit).
Definition ex_node (c : cluster (S:=MemStore)) (n : NodeID) : Raft MemStore :=
  match c_node c n with
  | Up r _ => r
  | Down s _ => mkRaft (ex_cfg n) s [] 0 0 Follower 0 0 None None None 0 0 None 0 [] None None None []
  end.

Lemma creach_rtc c c' : creach peers c -> rtc (cstep peers) c c' -> creach (S:=MemStore) peers c'.
Proof. intros Hc Hs. induction Hs; [done|]. apply IHHs. by econstructor. Qed.

Lemma ex_c1_reach : creach peers ex_c1.
Proof.
  apply (creach_rtc ex_start); [|apply (exec_steps _ ex_elect); vm_compute; reflexivity].
  constructor. split; [done|]. intros n. exists NewMemStore. done.
Qed.

Lemma ex_c1_c2 : rtc (cstep peers) ex_c1 ex_c2.
Proof. apply (exec_steps _ ex_commit). vm_compute. reflexivity. Qed.

Lemma ex_c2_reach : creach peers ex_c2.
Proof. eapply creach_rtc; [apply ex_c1_reach|apply ex_c1_c2]. Qed.

Lemma ex_up c n : bool_decide (n ∈ peers) = true ->
  match c_node c n with Up _ _ => true | _ => false end = true -> is_up peers c n (ex_node c n).
Proof.
  intros Hn%bool_decide_eq_true Hu. split; [done|]. unfold ex_node. destruct (c_node c n); [eauto|done].
Qed.
End Example.

(** ** The theorems at this run *)

Lemma ex_nodup : NoDup [1; 2; 3]%N.
Proof. apply (bool_decide_eq_true_1 _). vm_compute. reflexivity. Qed.
Lemma ex_zero : 0%N ∉ [1; 2; 3]%N.
Proof. apply (bool_decide_eq_true_1 _). vm_compute. reflexivity. Qed.

Lemma cluster_implements_protocol_witness :
  exists w, reachable [1; 2; 3]%N w /\ crel [1; 2; 3]%N ex_c1 w.
Proof. apply (cluster_implements_protocol _ ex_nodup ex_zero), ex_c1_reach. Defined.

Lemma election_safety_witness :
  r_state (ex_node ex_c1 1) = Leader /\ r_term (ex_node ex_c1 1) = 1%N /\ 1%N = 1%N.
Proof.
  split; [vm_compute; reflexivity|]. split; [vm_compute; reflexivity|].
  apply (election_safety _ ex_nodup ex_zero ex_c1 ex_c2 1 1 (ex_node ex_c1 1) (ex_node ex_c2 1));
    try (apply ex_c1_reach || apply ex_c1_c2 || (apply ex_up; vm_compute; reflexivity)); vm_compute; reflexivity.
Defined.

Definition ex_noop : Entry := mkEntry 1 1 EntryNoop [].

Lemma state_machine_safety_witness :
  r_commit (ex_node ex_c2 1) = 1%N /\ r_commit (ex_node ex_c2 2) = 1%N /\ ex_noop = ex_noop.
Proof.
  split; [vm_compute; reflexivity|]. split; [vm_compute; reflexivity|].
  pose proof ex_c2_reach as Hc2.
  apply (state_machine_safety _ ex_nodup ex_zero ex_c2 ex_c2 1 2 (ex_node ex_c2 1) (ex_node ex_c2 2) 1 ex_noop ex_noop);
    try (done || (apply ex_up; vm_compute; reflexivity)); vm_compute; (reflexivity || discriminate).
Defined.

Lemma leader_completeness_witness :
  (1 <= ms_snapIdx (ls_view (r_store (ex_node ex_c2 1))))%N \/ entry_at (ex_node ex_c2 1) 1 = Some ex_noop.
Proof.
  pose proof ex_c2_reach as Hc2.
  apply (leader_completeness _ ex_nodup ex_zero ex_c2 ex_c2 2 1 (ex_node ex_c2 2) (ex_node ex_c2 1) 1 ex_noop);
    try (done || (apply ex_up; vm_compute; reflexivity)); vm_compute; (reflexivity || discriminate).
Defined.

Lemma log_matching_witness : entry_at (ex_node ex_c2 2) 1 = Some ex_noop /\ ex_noop = ex_noop.
Proof.
  split; [vm_compute; reflexivity|].
  pose proof ex_c2_reach as Hc2.
  apply (log_matching _ ex_nodup ex_zero ex_c2 1 2 (ex_node ex_c2 1) (ex_node ex_c2 2) 1 1 ex_noop ex_noop ex_noop ex_noop);
    try (done || (apply ex_up; vm_compute; reflexivity)); vm_compute; (reflexivity || discriminate).
Defined.

(** The vote node 2 granted to node 1. *)
Definition ex_vote : Message := mkMessage MsgVoteResp 2 1 1 0 0 [] 0 false 0 0 0 [] 0 false.

Lemma one_vote_per_term_witness : ex_vote ∈ c_msgs ex_c1 /\ m_To ex_vote = m_To ex_vote.
Proof.
  assert (ex_vote ∈ c_msgs ex_c1) as Hin by (apply (bool_decide_eq_true_1 _); vm_compute; reflexivity).
  split; [done|]. apply (one_vote_per_term _ ex_nodup ex_zero ex_c1 ex_vote ex_vote); try done. apply ex_c1_reach.
Defined.

Lemma leader_append_only_witness :
  (1 <= ms_snapIdx (ls_view (r_store (ex_node ex_c2 1))))%N \/ entry_at (ex_node ex_c2 1) 1 = Some ex_noop.
Proof.
  apply (leader_append_only _ ex_nodup ex_zero ex_c1 ex_c2 1 (ex_node ex_c1 1) (ex_node ex_c2 1) 1 ex_noop);
    try (apply ex_c1_reach || apply ex_c1_c2 || (apply ex_up; vm_compute; reflexivity)); vm_compute; reflexivity.
Defined.
