(* ===== verification/RaftCalls.v ===== *)
(** * What calls of a [Raft] keep

    Facts about the concrete code of [Raft] that its driver relies on, next
    to those that [Refine] gets from the protocol: a leader that is still
    leader when the call returns has lost no entry, read ids only grow, and
    the store stays well-formed. *)

From stdpp Require Import base list gmap.
From S2P Require Import Prelude LogStore Raft.

Section RaftCalls.
Context {S : Type} `{LS : LogStore S} `{OK : !LogStoreOK S}.

(** ** A logic of partial correctness

    [Q] holds where the call returns, [E] where it returns an error. *)
Definition rwp {A} (m : @M S A) (Q : A -> Raft S -> Prop) (E : Raft S -> Prop) (r : Raft S) : Prop :=
  match (m r).2 with Ret x => Q x (m r).1 | Fail _ => E (m r).1 | Panic => True end.

Lemma rwp_ret {A} (x : A) (Q : A -> Raft S -> Prop) E r : Q x r -> rwp (mret x) Q E r.
Proof. done. Qed.

Lemma rwp_bind {A B} (m : @M S A) (f : A -> @M S B) Q E r :
  rwp m (fun x => rwp (f x) Q E) E r -> rwp (m ≫= f) Q E r.
Proof. unfold rwp, mbind, M_bind. by destruct (m r) as [r1 [x|e|]]. Qed.

Lemma rwp_mono {A} (m : @M S A) (Q Q' : A -> Raft S -> Prop) E r :
  rwp m Q E r -> (forall x r', Q x r' -> Q' x r') -> rwp m Q' E r.
Proof. unfold rwp. destruct (m r) as [r1 [x|e|]]; simpl; auto. Qed.

Lemma rwp_get {A} (f : Raft S -> A) (Q : A -> Raft S -> Prop) E r : Q (f r) r -> rwp (get f) Q E r.
Proof. done. Qed.

Lemma rwp_modify f (Q : unit -> Raft S -> Prop) E r : Q tt (f r) -> rwp (modify f) Q E r.
Proof. done. Qed.

Lemma rwp_panic {A} Q E r : rwp (@panic S A) Q E r.
Proof. done. Qed.

Lemma rwp_raise {A} e Q (E : Raft S -> Prop) r : E r -> rwp (@raise S A e) Q E r.
Proof. done. Qed.

Lemma rwp_must {A} (f : S -> go A) (Q : A -> Raft S -> Prop) E r :
  (forall x, f (r_store r) = Ret x -> Q x r) -> rwp (must f) Q E r.
Proof. unfold rwp, must. intros HQ. destruct (f (r_store r)) eqn:Hf; simpl; auto. Qed.

Lemma rwp_write eff f (Q : unit -> Raft S -> Prop) E r :
  (forall s, f (r_store r) = Ret s -> Q tt (set_trace (r_trace r ++ [eff]) (set_store s r))) ->
  rwp (write eff f) Q E r.
Proof.
  unfold rwp, write. intros HQ. destruct (f (r_store r)) as [s|e|] eqn:Hf; simpl; [by apply HQ| |done].
  by destruct e.
Qed.

Lemma rwp_for_each {A} (l : list A) (f : A -> @M S unit) (I : Raft S -> Prop) E r :
  I r -> (forall x r, I r -> rwp (f x) (fun _ => I) E r) -> rwp (for_each l f) (fun _ => I) E r.
Proof.
  intros HI Hf. revert r HI. induction l as [|y ys IH]; intros r HI; simpl; [done|].
  apply rwp_bind. eapply rwp_mono; [by apply Hf|]. intros ? r'. apply IH.
Qed.

(** ** The invariant of a call

    [k] bounds the read ids from below; [G] is what is known of the role and
    the last index, stable while the log grows. *)
Context (k : N) (G : State -> N -> Prop).
Context (HG : forall st a b, G st a -> (a <= b)%N -> G st b).
Context (E : Raft S -> Prop).

Definition J (r : Raft S) : Prop :=
  ls_ok (r_store r) /\ (k <= r_nextReadID r)%N /\ G (r_state r) (lastLocked (ls_view (r_store r))).

Lemma J_ext r r' :
  r_store r' = r_store r -> r_state r' = r_state r -> r_nextReadID r' = r_nextReadID r -> J r -> J r'.
Proof. unfold J. by intros -> -> ->. Qed.

Lemma J_store s r :
  ls_ok s -> (lastLocked (ls_view (r_store r)) <= lastLocked (ls_view s))%N -> J r -> J (set_store s r).
Proof. unfold J. cbn. intros ?? (?&?&?). split_and!; eauto. Qed.

#[local] Abbreviation keep m := (rwp m (fun _ => J) E).

(** One step of a call, and whole calls made of steps that keep [J]. *)
Ltac rkeep := match goal with |- J _ => eapply J_ext; [..|eassumption]; reflexivity end.
Ltac rstep :=
  match goal with
  | |- rwp (_ ≫= _) _ _ _ => apply rwp_bind
  | |- rwp (mret _) _ _ _ => apply rwp_ret
  | |- rwp (get _) _ _ _ => apply rwp_get
  | |- rwp (modify _) _ _ _ => apply rwp_modify
  | |- rwp panic _ _ _ => apply rwp_panic
  | |- rwp (raise _) _ _ _ => apply rwp_raise
  | |- rwp LastIndex _ _ _ => apply rwp_get
  | |- rwp FirstIndex _ _ _ => apply rwp_get
  | |- rwp (must _) _ _ _ => apply rwp_must; intros ? ?
  | |- rwp (termAt _) _ _ _ => apply rwp_must; intros ? ?
  | |- rwp (if ?b then _ else _) _ _ _ => destruct b eqn:?
  | |- rwp (match ?b with _ => _ end) _ _ _ => destruct b eqn:?
  | |- rwp (let '(_, _) := ?b in _) _ _ _ => destruct b eqn:?
  end.
Ltac rcall H := eapply rwp_mono; [apply H; try rkeep; try done|intros ? ? ?].
Ltac rgo := repeat (rstep; cbv beta); try done; try rkeep.

Lemma send_J m r : J r -> keep (send m) r.
Proof. intros HJ. unfold rwp, send. cbn. rkeep. Qed.

Lemma put_next_J p i r : J r -> keep (put_next p i) r.
Proof. intros HJ. unfold put_next, mput. rgo. Qed.
Lemma put_match_J p i r : J r -> keep (put_match p i) r.
Proof. intros HJ. unfold put_match, mput. rgo. Qed.
Lemma put_snapOut_J p x r : J r -> keep (put_snapOut p x) r.
Proof. intros HJ. unfold put_snapOut, mput. rgo. Qed.

Lemma resetTimeout_J r : J r -> keep resetTimeout r.
Proof. intros HJ. unfold rwp, resetTimeout. destruct (r_rng r); cbn; rkeep. Qed.

Lemma persistState_J r : J r -> keep persistState r.
Proof.
  intros HJ. change (rwp (write (EState (r_term r) (r_vote r)) (ls_SetState (r_term r) (r_vote r))) (fun _ => J) E r).
  apply rwp_write. intros s Hs. destruct HJ as (Hok & HJ').
  pose proof (ls_SetState_ok (r_term r) (r_vote r) _ Hok) as Hsim. rewrite Hs in Hsim.
  destruct Hsim as (v & [= <-] & Hs' & Hv). apply (J_ext (set_store s r)); [done..|].
  apply J_store; [done| |done]. rewrite Hv. unfold lastLocked. simpl. lia.
Qed.

Lemma sendChunk_J to x r : J r -> keep (sendChunk to x) r.
Proof. intros HJ. unfold sendChunk. rgo. Qed.

Lemma sendSnapshot_J to r : J r -> keep (sendSnapshot to) r.
Proof.
  intros HJ. unfold sendSnapshot. rgo.
  all: try (rcall put_snapOut_J; rgo). all: by apply sendChunk_J.
Qed.

Lemma sendAppend_J to id r : J r -> keep (sendAppend to id) r.
Proof.
  intros HJ. unfold sendAppend. rgo; try (by apply sendSnapshot_J).
  rcall put_next_J. rgo.
Qed.

Lemma broadcastAppend_J r : J r -> keep broadcastAppend r.
Proof. intros HJ. unfold broadcastAppend. rgo. apply rwp_for_each; [done|]. intros p r' HJ'. by apply sendAppend_J. Qed.

Lemma maybeCommit_J r : J r -> keep maybeCommit r.
Proof. intros HJ. unfold maybeCommit. rgo. Qed.

Lemma first_of_term_J fuel first i t r : J r -> keep (first_of_term fuel first i t) r.
Proof. intros HJ. revert i. induction fuel as [|fuel IH]; intros i; simpl; rgo; apply IH. Qed.

Lemma last_of_term_J fuel first i t r : J r -> keep (last_of_term fuel first i t) r.
Proof. intros HJ. revert i. induction fuel as [|fuel IH]; intros i; simpl; rgo; apply IH. Qed.

Lemma completeRead_J id r : J r -> keep (completeRead id) r.
Proof. intros HJ. unfold completeRead. rgo. Qed.

Lemma ackRead_J id from r : J r -> keep (ackRead id from) r.
Proof.
  intros HJ. unfold ackRead, mput. rgo. eapply rwp_mono; [apply completeRead_J; rkeep|done].
Qed.

Lemma rejectStale_J m r : J r -> keep (rejectStale m) r.
Proof. intros HJ. unfold rejectStale. rgo. Qed.

Lemma handleVote_J m r : J r -> keep (handleVote m) r.
Proof.
  intros HJ. unfold handleVote, lastIndexAndTerm. rgo.
  rcall persistState_J. rgo.
Qed.

Lemma advance_match_J p i r : J r -> keep (advance_match p i) r.
Proof.
  intros HJ. unfold advance_match. rgo; try (rcall put_match_J; rgo); by apply put_next_J.
Qed.

Lemma handleAppendResp_J m r : J r -> keep (handleAppendResp m) r.
Proof.
  intros HJ. unfold handleAppendResp. apply rwp_bind.
  apply (rwp_mono _ (fun _ => J)); [rgo; by apply ackRead_J|]. intros ? r1 HJ1.
  unfold append_answered, lastIndexOfTerm. rgo.
  - rcall last_of_term_J. unfold retry_from. rgo. all: rcall put_next_J; by apply sendAppend_J.
  - unfold retry_from. rgo. all: rcall put_next_J; by apply sendAppend_J.
  - unfold append_accepted. rgo. rcall advance_match_J. rgo. rcall maybeCommit_J. rgo;
      [by apply broadcastAppend_J|by apply sendAppend_J].
Qed.

Lemma handleSnapshotResp_J m r : J r -> keep (handleSnapshotResp m) r.
Proof.
  intros HJ. unfold handleSnapshotResp. rgo.
  - rcall advance_match_J. rgo. rcall maybeCommit_J. rgo; [by apply broadcastAppend_J|by apply sendAppend_J].
  - rcall put_snapOut_J. by apply sendChunk_J.
Qed.

(** ** Stepping down *)

Context (HF : forall a, G Follower a).

Lemma J_follower r r' :
  ls_ok (r_store r') -> r_nextReadID r' = r_nextReadID r -> r_state r' = Follower -> J r -> J r'.
Proof. unfold J. intros ? -> -> (?&?&?). split_and!; auto. Qed.

Lemma becomeFollower_J t p r :
  J r -> rwp (becomeFollower t p) (fun _ r' => J r' /\ r_state r' = Follower) E r.
Proof.
  intros HJ. unfold becomeFollower. apply rwp_bind, rwp_get. apply rwp_bind.
  apply (rwp_mono _ (fun _ => J)); [rgo; apply persistState_J; rkeep|]. intros ? r1 HJ1.
  rgo.
  - unfold resetTimeout, rwp.
    match goal with |- context [r_rng ?x] => destruct (r_rng x) end; cbn; (split; [|done]);
      (apply (J_follower r1); [apply HJ1|done..]).
  - split; [|done]. (apply (J_follower r1); [apply HJ1|done..]).
Qed.

Lemma follow_J m r : J r -> rwp (follow m) (fun _ r' => J r' /\ r_state r' = Follower) E r.
Proof.
  intros HJ. unfold follow. rgo.
  eapply rwp_mono; [by apply becomeFollower_J|]. intros ? r' [HJ' Hf]. rgo.
Qed.

Lemma append_from_J last es r :
  J r -> r_state r = Follower -> keep (append_from last es) r.
Proof.
  intros HJ Hst. assert (forall es, keep (write (EAppend es) (ls_Append es)) r) as Hw.
  { intros es0. apply rwp_write. intros s Hs. pose proof (ls_Append_ok es0 _ (proj1 HJ)) as Hsim.
    rewrite Hs in Hsim. destruct Hsim as (v & _ & Hok & _). by apply (J_follower r). }
  revert last. induction es as [|e es IH]; intros last; simpl; rgo; auto.
Qed.

Lemma handleAppend_J m r : J r -> keep (handleAppend m) r.
Proof.
  intros HJ. unfold handleAppend, firstIndexOfTerm. apply rwp_bind.
  eapply rwp_mono; [by apply follow_J|]. intros ? r1 [HJ1 Hf1]. rgo.
  - rcall first_of_term_J. by apply send_J.
  - rcall append_from_J. rgo.
Qed.

Lemma handleSnapshot_J m r : J r -> keep (handleSnapshot m) r.
Proof.
  intros HJ. unfold handleSnapshot. apply rwp_bind.
  eapply rwp_mono; [by apply follow_J|]. intros ? r1 [HJ1 Hf1].
  assert (forall r2, J r2 -> r_state r2 = Follower -> keep (receive_chunk m) r2) as Hchunk.
  { intros r2 HJ2 Hf2. unfold receive_chunk. rgo. apply rwp_write. intros s' Hs.
    rgo. apply (J_follower r2); [|done..].
    cbn in Hs. match type of Hs with ls_Compact ?i ?t ?d _ = _ =>
      pose proof (ls_Compact_ok i t d _ (proj1 HJ2)) as Hsim end.
    rewrite Hs in Hsim. by destruct Hsim as (v & _ & Hok & _). }
  rgo; (apply Hchunk; [rkeep|done]).
Qed.
End RaftCalls.

(** ** Writes and the last index *)

Lemma append_last es s s' last :
  (forall i e, es !! i = Some e -> e_Index e = (last + 1 + N.of_nat i)%N) ->
  appendLocked es s = Ret s' -> (last <= lastLocked s)%N ->
  (last + N.of_nat (length es) <= lastLocked s')%N.
Proof.
  intros Hidx Happ Hl. destruct es as [|e es]; [simpl in *; injection Happ as <-; lia|].
  specialize (Hidx 0 e eq_refl).
  assert (ms_snapIdx s < e_Index e <= lastLocked s + 1)%N as Hr.
  { unfold appendLocked in Happ. destruct (_ || _) eqn:E; [done|]. bool_to_prop. lia. }
  rewrite append_ok in Happ by done. injection Happ as <-. unfold lastLocked in *.
  simpl ms_snapIdx. simpl ms_entries. rewrite length_app, length_take. lia.
Qed.

Lemma compact_last i t d s s' : mem_Compact i t d s = Ret s' -> (lastLocked s <= lastLocked s')%N.
Proof.
  unfold mem_Compact. destruct (N.leb_spec i (ms_snapIdx s)); [by intros [= <-]|].
  destruct (N.leb_spec i (lastLocked s)); unfold lastLocked in *.
  - rewrite slice_ok by lia. intros [= <-]. simpl. rewrite length_take, length_drop. lia.
  - intros [= <-]. simpl. lia.
Qed.

Section Calls.
Context {S : Type} `{LS : LogStore S} `{OK : !LogStoreOK S}.

#[local] Abbreviation last_of r := (lastLocked (ls_view (r_store r))).
Implicit Types r : Raft S.

(** What is known of a call: nothing, that it keeps the role and extends the
    log, or that it does so unless it steps down. *)
Definition unknown (st : State) (a : N) : Prop := True.
Definition stays (st0 : State) (l : N) (st : State) (a : N) : Prop := st = st0 /\ (l <= a)%N.
Definition leads_or_follows (l : N) (st : State) (a : N) : Prop := st = Follower \/ stays Leader l st a.

Lemma stays_mono st0 l st a b : stays st0 l st a -> (a <= b)%N -> stays st0 l st b.
Proof. unfold stays. intros []. split; [done|lia]. Qed.
Lemma leads_mono l st a b : leads_or_follows l st a -> (a <= b)%N -> leads_or_follows l st b.
Proof. unfold leads_or_follows. intros [|?] ?; [by left|right]. by eapply stays_mono. Qed.

Lemma J_weaken k G G' r : J k G r -> (forall a, G (r_state r) a -> G' (r_state r) a) -> J k G' r.
Proof. intros (?&?&?) ?. split_and!; auto. Qed.

Lemma send_early_J k G E last pt es one ps r :
  J k G r -> rwp (send_early last pt es one ps) (fun _ => J k G) E r.
Proof.
  revert r. induction ps as [|p ps IH]; intros r HJ; simpl; [done|].
  apply rwp_bind, rwp_get, rwp_bind, rwp_get. destruct (_ || _); [by apply IH|].
  apply rwp_bind. eapply rwp_mono; [by apply put_next_J|]. intros ? r1 HJ1. apply rwp_bind, rwp_get, rwp_bind.
  eapply rwp_mono; [exact (send_J _ _ _ _ _ HJ1)|]. intros ? r2 HJ2. apply rwp_bind.
  eapply rwp_mono; [by apply IH|]. done.
Qed.

Lemma write_Append_J k E st last es r :
  (forall i e, es !! i = Some e -> e_Index e = (last + 1 + N.of_nat i)%N) ->
  J k (stays st last) r ->
  rwp (write (EAppend es) (ls_Append es)) (fun _ => J k (stays st (last + N.of_nat (length es)))) E r.
Proof.
  intros Hidx (Hok & Hk & Hst & Hl). apply rwp_write. intros s Hs.
  pose proof (ls_Append_ok es _ Hok) as Hsim. rewrite Hs in Hsim. destruct Hsim as (v & Hv & Hs' & Hvw).
  split_and!; [done..|]. split; [done|]. cbn. rewrite Hvw. by eapply append_last.
Qed.

(** New entries go to the end of the log, and the role stays. *)
Lemma appendEntries_J k E es r :
  J k unknown r ->
  rwp (appendEntries es)
    (fun first r' => first = (last_of r + 1)%N /\ J k (stays (r_state r) (last_of r + N.of_nat (length es))) r')
    E r.
Proof.
  intros HJ. unfold appendEntries. apply rwp_bind, rwp_get, rwp_bind, rwp_get.
  rewrite (ls_LastIndex_ok _ (proj1 HJ)). set (st := r_state r). set (l := last_of r).
  assert (J k (stays st l) r) as HJ1 by (destruct HJ as (?&?&_); split_and!; [done..|split; [done|lia]]).
  assert (length (assign l (r_term r) es) = length es) as Hlen by apply length_imap.
  rewrite <-Hlen. apply rwp_bind, rwp_must. intros pt _. apply rwp_bind, rwp_get, rwp_bind, rwp_get, rwp_bind.
  eapply rwp_mono; [by apply send_early_J|]. intros early r1 HJ2. apply rwp_bind.
  eapply rwp_mono; [apply write_Append_J; [|exact HJ2]|].
  { intros i e Hi. unfold assign in Hi. rewrite list_lookup_imap in Hi.
    apply fmap_Some in Hi as (e0 & _ & ->). done. }
  intros ? r2 HJ3. apply rwp_bind, rwp_get, rwp_bind. eapply rwp_mono; [exact (put_match_J _ _ _ _ _ _ HJ3)|].
  intros ? r3 HJ4. apply rwp_bind. eapply rwp_mono.
  { apply rwp_for_each; [exact HJ4|]. intros p r4 HJ5. destruct (bool_decide _); [|done].
    by apply sendAppend_J. }
  intros ? r4 HJ5. apply rwp_bind. eapply rwp_mono; [exact (maybeCommit_J _ _ _ _ HJ5)|].
  intros ? r5 HJ6. by apply rwp_ret.
Qed.

(** ** Elections *)

Lemma becomeLeader_J k E r : J k unknown r -> rwp becomeLeader (fun _ => J k unknown) E r.
Proof.
  intros (Hok & Hk & _). unfold becomeLeader.
  apply rwp_bind, rwp_modify, rwp_bind, rwp_get, rwp_bind, rwp_modify, rwp_bind, rwp_modify, rwp_bind.
  eapply rwp_mono; [apply appendEntries_J; done|]. intros first r' (_ & ? & ? & _). done.
Qed.

Lemma becomeCandidate_J k E r : J k unknown r -> rwp becomeCandidate (fun _ => J k unknown) E r.
Proof.
  intros HJ. unfold becomeCandidate. apply rwp_bind, rwp_modify, rwp_bind.
  eapply rwp_mono; [apply (persistState_J k unknown); done|]. intros ? r1 (Hok1 & Hk1 & _).
  apply rwp_bind, rwp_modify, rwp_bind.
  eapply rwp_mono; [apply (resetTimeout_J k unknown); done|]. intros ? r2 HJ2.
  apply rwp_bind, rwp_get. destruct (countVotes r2); [by apply becomeLeader_J|].
  apply rwp_bind. unfold lastIndexAndTerm. apply rwp_bind, rwp_get, rwp_bind, rwp_must. intros t _.
  apply rwp_ret, rwp_bind, rwp_get, rwp_for_each; [done|]. intros p r3 HJ3. by apply send_J.
Qed.

Lemma Tick_J k E r : J k unknown r -> rwp Tick (fun _ => J k unknown) E r.
Proof.
  intros HJ. unfold Tick. apply rwp_bind, rwp_modify, rwp_bind, rwp_get.
  destruct (r_state _); simpl; (destruct (_ <=? _); [|done]); try by apply becomeCandidate_J.
  apply rwp_bind, rwp_modify. by apply broadcastAppend_J.
Qed.

Lemma Tick_leader_J k E r : r_state r = Leader -> J k unknown r ->
  rwp Tick (fun _ => J k (stays Leader (last_of r))) E r.
Proof.
  intros Hl (Hok & Hk & _). unfold Tick. apply rwp_bind, rwp_modify, rwp_bind, rwp_get. cbn. rewrite Hl.
  assert (J k (stays Leader (last_of r)) r) by (split_and!; [done..|split; [done|lia]]).
  destruct (_ <=? _); [|done]. apply rwp_bind, rwp_modify.
  by apply (broadcastAppend_J k (stays Leader (last_of r))).
Qed.

Section Step.
Context (k : N) (G : State -> N -> Prop) (E : Raft S -> Prop).
Context (HG : forall st a b, G st a -> (a <= b)%N -> G st b).
Context (HF : forall a, G Follower a) (HC : forall a st b, G Candidate a -> G st b).

(** Only a candidate can win. *)
Lemma handleVoteResp_J m r : J k G r -> rwp (handleVoteResp m) (fun _ => J k G) E r.
Proof.
  intros HJ. unfold handleVoteResp. apply rwp_bind, rwp_get. destruct (decide _) as [Hc|]; [|done].
  assert (forall st b, G st b) as Hall.
  { destruct HJ as (_ & _ & HGr). rewrite Hc in HGr. intros. by eapply HC. }
  apply rwp_bind, rwp_get, rwp_bind. unfold mput. destruct (r_votes r); [|done].
  apply rwp_modify, rwp_bind, rwp_get. destruct (countVotes _).
  - eapply rwp_mono; [apply (becomeLeader_J k); destruct HJ as (?&?&_); done|].
    intros ? r' (?&?&_). done.
  - apply rwp_bind, rwp_get. destruct (_ <=? _); [|done]. apply rwp_bind, rwp_get.
    eapply rwp_mono; [by apply (becomeFollower_J k G)|]. by intros ? r' [].
Qed.

Lemma dispatch_J m r : J k G r -> rwp (dispatch m) (fun _ => J k G) E r.
Proof.
  intros HJ. unfold dispatch. apply rwp_bind, rwp_get.
  destruct (m_Type m); try destruct (decide _); try done.
  - by apply handleVote_J.
  - by apply handleVoteResp_J.
  - by apply handleAppend_J.
  - by apply handleAppendResp_J.
  - by apply handleSnapshot_J.
  - by apply handleSnapshotResp_J.
Qed.

Lemma Step_J m r : J k G r -> rwp (Step m) (fun _ => J k G) E r.
Proof.
  intros HJ. unfold Step. apply rwp_bind, rwp_get. destruct (_ <? _)%N; [by apply rejectStale_J|].
  apply rwp_bind. destruct (_ <? _)%N; [|by apply dispatch_J].
  eapply rwp_mono; [by apply (becomeFollower_J k G)|]. intros ? r' [HJ' _]. by apply dispatch_J.
Qed.
End Step.

(** ** The calls of the driver *)

(** A leader that is still one has lost no entry. *)
Definition kept r r' : Prop := r_state r = Leader -> r_state r' = Leader -> (last_of r <= last_of r')%N.

Lemma Step_call k E m r : J k unknown r -> rwp (Step m) (fun _ r' => J k unknown r' /\ kept r r') E r.
Proof.
  intros HJ. destruct (decide (r_state r = Leader)) as [Hl|Hl].
  - eapply rwp_mono; [apply (Step_J k (leads_or_follows (last_of r)))|].
    + apply leads_mono. + by left. + by intros ??? [|[]].
    + destruct HJ as (?&?&_). split_and!; [done..|]. right. split; [done|lia].
    + intros ? r' (?&?&[Hf|[_ Hl']]); (split; [done|]); intros _ ?; [congruence|done].
  - eapply rwp_mono; [by apply (Step_J k unknown)|]. intros ? r' HJ'. split; [done|]. by intros ?.
Qed.

Lemma Tick_call k E r : J k unknown r -> rwp Tick (fun _ r' => J k unknown r' /\ kept r r') E r.
Proof.
  intros HJ. destruct (decide (r_state r = Leader)) as [Hl|Hl].
  - eapply rwp_mono; [by apply (Tick_leader_J k)|]. intros ? r' (?&?&?&?). split; [done|]. by intros ? ?.
  - eapply rwp_mono; [by apply Tick_J|]. intros ? r' HJ'. split; [done|]. by intros ?.
Qed.

Lemma Propose_call k E ps r :
  J k unknown r -> r_state r = Leader ->
  rwp (Propose ps) (fun first r' => first = (last_of r + 1)%N /\
    J k (stays Leader (last_of r + N.of_nat (length ps))) r') E r.
Proof.
  intros HJ Hl. unfold Propose. apply rwp_bind, rwp_get. rewrite decide_True by done.
  eapply rwp_mono; [by apply (appendEntries_J k)|]. rewrite length_fmap, Hl. done.
Qed.

(** A read gets a new id. *)
Lemma ReadIndex_call k G r :
  J k G r -> rwp ReadIndex (fun id r' => (k < id)%N /\ J id G r') (J k G) r.
Proof.
  intros HJ. unfold ReadIndex. apply rwp_bind, rwp_get. destruct (decide _); [|done].
  apply rwp_bind, rwp_get, rwp_bind, rwp_must. intros t _. apply rwp_bind, rwp_get.
  destruct (negb _); [done|]. apply rwp_bind, rwp_modify, rwp_bind, rwp_get, rwp_bind, rwp_get, rwp_bind, rwp_get.
  set (r1 := set_nextReadID _ r). assert (k < r_nextReadID r1)%N by (destruct HJ as (_&?&_); simpl; lia).
  assert (J (r_nextReadID r1) G r1) as HJ1 by (destruct HJ as (?&?&?); split_and!; [done|lia|done]).
  clearbody r1. apply rwp_bind. unfold mput. destruct (r_reads r1); [|done].
  apply rwp_modify, rwp_bind, rwp_get. destruct (_ =? 1).
  - apply rwp_bind. eapply rwp_mono; [by apply (completeRead_J (r_nextReadID r1) G)|]. done.
  - apply rwp_bind, rwp_get, rwp_bind. apply (rwp_mono _ (fun _ => J (r_nextReadID r1) G)); [|done].
    apply rwp_for_each; [done|]. intros p r2 HJ2. by apply sendAppend_J.
Qed.

Lemma Compact_call k G E i d r :
  (forall st a b, G st a -> (a <= b)%N -> G st b) ->
  J k G r -> rwp (t ← termAt i; write (ECompact i t d) (ls_Compact i t d)) (fun _ => J k G) E r.
Proof.
  intros HG HJ. apply rwp_bind, rwp_must. intros t _. apply rwp_write. intros s Hs.
  pose proof (ls_Compact_ok i t d _ (proj1 HJ)) as Hsim. rewrite Hs in Hsim.
  destruct Hsim as (v & Hv & Hok & <-). apply compact_last in Hv.
  by apply (J_ext k G (set_store s r)), J_store.
Qed.

Lemma TakeReady_call k G E r : J k G r -> rwp TakeReady (fun _ => J k G) E r.
Proof. done. Qed.
Lemma TakeRestored_call k G E r : J k G r -> rwp TakeRestored (fun _ => J k G) E r.
Proof. intros. unfold TakeRestored. apply rwp_bind, rwp_get. by destruct (r_restored r). Qed.
End Calls.

(** ** What an append leaves of the log

    Sending and counting replicas leave the store, the term and the role. *)

Section Frame.
Context {S : Type} `{LS : LogStore S} `{OK : !LogStoreOK S}.
Context (s : S) (t : N) (st : State) (E : Raft S -> Prop).

Definition framed (r : Raft S) : Prop := r_store r = s /\ r_term r = t /\ r_state r = st.

#[local] Abbreviation frame m := (rwp m (fun _ => framed) E).

Ltac fstep :=
  match goal with
  | |- rwp (_ ≫= _) _ _ _ => apply rwp_bind
  | |- rwp (mret _) _ _ _ => apply rwp_ret
  | |- rwp (get _) _ _ _ => apply rwp_get
  | |- rwp (modify _) _ _ _ => apply rwp_modify
  | |- rwp panic _ _ _ => apply rwp_panic
  | |- rwp LastIndex _ _ _ => apply rwp_get
  | |- rwp FirstIndex _ _ _ => apply rwp_get
  | |- rwp (must _) _ _ _ => apply rwp_must; intros ? ?
  | |- rwp (termAt _) _ _ _ => apply rwp_must; intros ? ?
  | |- rwp (if ?b then _ else _) _ _ _ => destruct b eqn:?
  | |- rwp (match ?b with _ => _ end) _ _ _ => destruct b eqn:?
  | |- rwp (let '(_, _) := ?b in _) _ _ _ => destruct b eqn:?
  end.
Ltac fgo := repeat (fstep; cbv beta); try done.
Ltac fcall H := eapply rwp_mono; [apply H; done|intros ? ? ?].

Lemma send_framed m r : framed r -> frame (send m) r.
Proof. done. Qed.
Lemma put_next_framed p i r : framed r -> frame (put_next p i) r.
Proof. intros HF. unfold put_next, mput. fgo. Qed.
Lemma put_match_framed p i r : framed r -> frame (put_match p i) r.
Proof. intros HF. unfold put_match, mput. fgo. Qed.
Lemma put_snapOut_framed p x r : framed r -> frame (put_snapOut p x) r.
Proof. intros HF. unfold put_snapOut, mput. fgo. Qed.
Lemma sendSnapshot_framed to r : framed r -> frame (sendSnapshot to) r.
Proof. intros HF. unfold sendSnapshot, sendChunk. fgo. all: fcall put_snapOut_framed; fgo. Qed.
Lemma sendAppend_framed to id r : framed r -> frame (sendAppend to id) r.
Proof. intros HF. unfold sendAppend. fgo; try (by apply sendSnapshot_framed). fcall put_next_framed. fgo. Qed.
Lemma maybeCommit_framed r : framed r -> frame maybeCommit r.
Proof. intros HF. unfold maybeCommit. fgo. Qed.

Lemma send_early_framed last pt es one ps r : framed r -> frame (send_early last pt es one ps) r.
Proof.
  revert r. induction ps as [|p ps IH]; intros r HF; simpl; [done|]. fgo; [by apply IH|].
  fcall put_next_framed. fgo. eapply rwp_mono; [by apply send_framed|]. intros ? ? ?. fgo. fcall IH. fgo.
Qed.
End Frame.

Section AppendLog.
Context {S : Type} `{LS : LogStore S} `{OK : !LogStoreOK S}.

Lemma ReadIndex_framed s t st (r : Raft S) :
  framed s t st r -> rwp ReadIndex (fun _ => framed s t st) (framed s t st) r.
Proof.
  intros HF. unfold ReadIndex. apply rwp_bind, rwp_get. destruct (decide _); [|by apply rwp_raise].
  apply rwp_bind, rwp_get, rwp_bind, rwp_must. intros u _. apply rwp_bind, rwp_get.
  destruct (negb _); [by apply rwp_raise|]. apply rwp_bind, rwp_modify. do 3 (apply rwp_bind, rwp_get).
  apply rwp_bind. unfold mput. destruct (r_reads _); [|apply rwp_panic]. apply rwp_modify, rwp_bind, rwp_get.
  set (r1 := set_reads _ _). assert (framed s t st r1) as HF1 by done. clearbody r1. destruct (_ =? 1).
  - apply rwp_bind. unfold completeRead. apply rwp_bind, rwp_get. destruct (_ ≫= _); [|apply rwp_panic].
    apply rwp_modify, rwp_ret. done.
  - apply rwp_bind, rwp_get, rwp_bind. eapply rwp_mono; [apply (rwp_for_each _ _ (framed s t st))|].
    + done.
    + intros p r2 HF2. by apply sendAppend_framed.
    + done.
Qed.
Lemma appendEntries_log E es (r : Raft S) :
  ls_ok (r_store r) ->
  let v := ls_view (r_store r) in
  rwp (appendEntries es)
    (fun first r' => first = (lastLocked v + 1)%N /\ r_term r' = r_term r /\ r_state r' = r_state r /\
       ls_view (r_store r') = set_entries (ms_entries v ++ assign (lastLocked v) (r_term r) es) v) E r.
Proof.
  intros Hok v. unfold appendEntries. apply rwp_bind, rwp_get, rwp_bind, rwp_get.
  rewrite (ls_LastIndex_ok _ Hok). fold v. set (es' := assign _ _ es).
  apply rwp_bind, rwp_must. intros pt _. apply rwp_bind, rwp_get, rwp_bind, rwp_get, rwp_bind.
  eapply rwp_mono; [by apply (send_early_framed (r_store r) (r_term r) (r_state r))|].
  intros early r1 (Hs1 & Ht1 & Hst1). cbv beta. apply rwp_bind, rwp_write. intros s Hs. rewrite Hs1 in Hs.
  pose proof (ls_Append_ok es' _ Hok) as Hsim. rewrite Hs in Hsim. destruct Hsim as (b & Hb & _ & Hv).
  apply append_at_end in Hb; [|intros i e Hi; unfold es', assign in Hi; rewrite list_lookup_imap in Hi;
    apply fmap_Some in Hi as (e0 & _ & ->); done].
  set (r2 := set_trace _ _). assert (framed s (r_term r) (r_state r) r2) as HF2 by done. clearbody r2.
  apply rwp_bind, rwp_get, rwp_bind. eapply rwp_mono; [exact (put_match_framed s (r_term r) (r_state r) E _ _ _ HF2)|]. intros ? r3 HF3. apply rwp_bind.
  eapply rwp_mono; [apply (rwp_for_each _ _ (framed s (r_term r) (r_state r)))|].
  - exact HF3.
  - intros p r4 HF4. destruct (bool_decide _); [|done]. by apply sendAppend_framed.
  - intros ? r4 HF4. cbv beta. apply rwp_bind. eapply rwp_mono; [exact (maybeCommit_framed s (r_term r) (r_state r) E _ HF4)|].
    intros ? r5 (H1 & H2 & H3). apply rwp_ret. rewrite H1, H2, H3, Hv, Hb. done.
Qed.

(** The commands of [Propose] are at the end of a leader's log. *)
Lemma Propose_log ps (r : Raft S) :
  ls_ok (r_store r) ->
  let v := ls_view (r_store r) in
  rwp (Propose ps)
    (fun first r' => first = (lastLocked v + 1)%N /\ r_term r' = r_term r /\ r_state r' = Leader /\
       ls_view (r_store r') = set_entries (ms_entries v ++ imap (fun i p => mkEntry (first + N.of_nat i) (r_term r) EntryNormal p) ps) v)
    (fun _ => True) r.
Proof.
  intros Hok v. unfold Propose. apply rwp_bind, rwp_get. destruct (decide _) as [Hl|]; [|by apply rwp_raise].
  eapply rwp_mono; [by apply appendEntries_log|]. cbv beta zeta. intros first r' (Hf & Ht & Hst & Hv).
  split_and!; [done|done|by rewrite Hst|]. rewrite Hv. fold v. subst first. do 2 f_equal.
  unfold assign. rewrite imap_fmap. done.
Qed.
End AppendLog.
