(* ===== verification/SnapData.v ===== *)
(** * Snapshots travel unaltered

    A snapshot is cut into chunks by whichever leader sends it, and put
    together by a follower that may hear from several leaders.  Nothing in a
    chunk says whose snapshot it is part of but its index, so this works
    because all snapshots at an index have the same bytes.  [G i d] says that
    [d] is the snapshot at index [i]; every call of [Raft] keeps the snapshots
    a node stores, sends and receives within [G], at every point where a crash
    may stop it. *)

From stdpp Require Import base list gmap.
From S2P Require Import Prelude LogStore Raft RaftCalls.

Section SnapData.
Context {S : Type} `{LS : LogStore S} `{OK : !LogStoreOK S}.
Context (G : N -> bytes -> Prop) (c0 : N).

Implicit Types r : Raft S.

(** Index 0 is no snapshot. *)
Definition snap_at (i : N) (d : bytes) : Prop := i = 0%N \/ G i d.
Definition part_at (i : N) (d : bytes) : Prop := i = 0%N \/ exists full, G i full /\ d `prefix_of` full.

Definition chunk_ok (m : Message) : Prop :=
  m_Type m = MsgSnap -> m_Index m = 0%N \/
  exists before behind, G (m_Index m) (before ++ m_Data m ++ behind) /\
    length before = N.to_nat (m_Offset m) /\ (m_Done m = true -> behind = []).

Definition eff_ok (e : effect) : Prop :=
  match e with
  | ESend m => chunk_ok m
  | ECompact i _ d => snap_at i d
  | _ => True
  end.

Definition mem_snap (s : MemStore) : Prop := snap_at (ms_snapIdx s) (ms_snap s).

(** The snapshots of a node, and its commit index, which does not go back. *)
Record K r : Prop := {
  k_ok : ls_ok (r_store r);
  k_store : mem_snap (ls_view (r_store r));
  k_out : forall p x, r_snapOut r ≫= lookup p = Some x -> snap_at (x_index x) (x_data x);
  k_in : forall x, r_snapIn r = Some x -> part_at (x_index x) (x_data x);
  k_restored : forall x, r_restored r = Some x -> snap_at (x_index x) (x_data x) /\ (x_index x <= r_commit r)%N;
  k_trace : Forall eff_ok (r_trace r);
  k_commit : (c0 <= r_commit r)%N;
}.

Lemma K_ext r r' :
  r_store r' = r_store r -> r_snapOut r' = r_snapOut r -> r_snapIn r' = r_snapIn r ->
  r_restored r' = r_restored r -> r_trace r' = r_trace r -> r_commit r' = r_commit r -> K r -> K r'.
Proof. intros H1 H2 H3 H4 H5 H6 []. constructor; rewrite ?H1, ?H2, ?H3, ?H4, ?H5, ?H6; done. Qed.

(** Forgetting what is being sent. *)
Lemma K_fresh r r' :
  r_store r' = r_store r -> r_snapOut r' = None \/ r_snapOut r' = Some ∅ -> r_snapIn r' = r_snapIn r ->
  r_restored r' = r_restored r -> r_trace r' = r_trace r -> r_commit r' = r_commit r -> K r -> K r'.
Proof.
  intros H1 H2 H3 H4 H5 H6 []. constructor; rewrite ?H1, ?H3, ?H4, ?H5, ?H6; try done.
  intros p x. destruct H2 as [-> | ->]; [done|]. simpl. by rewrite lookup_empty.
Qed.

Lemma K_write eff s r :
  ls_ok s -> mem_snap (ls_view s) -> eff_ok eff -> K r -> K (set_trace (r_trace r ++ [eff]) (set_store s r)).
Proof.
  intros Hs Hm He []. constructor; try done. cbn. apply Forall_app. split; [done|]. by constructor.
Qed.

Lemma append_snap es s s' : appendLocked es s = Ret s' -> mem_snap s -> mem_snap s'.
Proof.
  destruct es as [|e es]; simpl; [by intros [= <-]|]. destruct (_ || _); [done|].
  destruct (slice _ _ _); [|done..]. by intros [= <-].
Qed.

Lemma compact_snap i t d s s' : mem_Compact i t d s = Ret s' -> snap_at i d -> mem_snap s -> mem_snap s'.
Proof.
  unfold mem_Compact. destruct (i <=? ms_snapIdx s)%N; [by intros [= <-]|].
  destruct (if (i <=? lastLocked s)%N then _ else _); [|done..]. by intros [= <-].
Qed.

(** ** A logic that also follows the effects of a call that panics *)

Definition twp {A} (m : @M S A) (Q : A -> Raft S -> Prop) r : Prop :=
  match (m r).2 with
  | Ret x => Q x (m r).1
  | Fail _ => K (m r).1
  | Panic => Forall eff_ok (r_trace (m r).1)
  end.

Lemma twp_ret {A} (x : A) (Q : A -> Raft S -> Prop) r : Q x r -> twp (mret x) Q r.
Proof. done. Qed.

Lemma twp_bind {A B} (m : @M S A) (f : A -> @M S B) Q r :
  twp m (fun x => twp (f x) Q) r -> twp (m ≫= f) Q r.
Proof. unfold twp, mbind, M_bind. by destruct (m r) as [r1 [x|e|]]. Qed.

Lemma twp_mono {A} (m : @M S A) (Q Q' : A -> Raft S -> Prop) r :
  twp m Q r -> (forall x r', Q x r' -> Q' x r') -> twp m Q' r.
Proof. unfold twp. destruct (m r) as [r1 [x|e|]]; simpl; auto. Qed.

Lemma twp_get {A} (f : Raft S -> A) (Q : A -> Raft S -> Prop) r : Q (f r) r -> twp (get f) Q r.
Proof. done. Qed.

Lemma twp_modify f (Q : unit -> Raft S -> Prop) r : Q tt (f r) -> twp (modify f) Q r.
Proof. done. Qed.

Lemma twp_panic {A} Q r : K r -> twp (@panic S A) Q r.
Proof. intros []. done. Qed.

Lemma twp_raise {A} e Q r : K r -> twp (@raise S A e) Q r.
Proof. done. Qed.

Lemma twp_must {A} (f : S -> go A) (Q : A -> Raft S -> Prop) r :
  K r -> (forall x, f (r_store r) = Ret x -> Q x r) -> twp (must f) Q r.
Proof. unfold twp, must. intros [] HQ. destruct (f (r_store r)) eqn:Hf; simpl; auto. Qed.

Lemma twp_write eff f (Q : unit -> Raft S -> Prop) r :
  K r -> eff_ok eff ->
  (forall s, f (r_store r) = Ret s -> Q tt (set_trace (r_trace r ++ [eff]) (set_store s r))) ->
  twp (write eff f) Q r.
Proof.
  unfold twp, write. intros [] He HQ. destruct (f (r_store r)) as [s|e|] eqn:Hf; simpl; [by apply HQ| |done].
  assert (Forall eff_ok (r_trace r ++ [eff])) by (apply Forall_app; split; [done|by constructor]). by destruct e.
Qed.

Lemma twp_for_each {A} (l : list A) (f : A -> @M S unit) (I : Raft S -> Prop) r :
  I r -> (forall x r, I r -> twp (f x) (fun _ => I) r) -> twp (for_each l f) (fun _ => I) r.
Proof.
  intros HI Hf. revert r HI. induction l as [|y ys IH]; intros r HI; simpl; [done|].
  apply twp_bind. eapply twp_mono; [by apply Hf|]. intros ? r'. apply IH.
Qed.

#[local] Abbreviation keep m := (twp m (fun _ => K)).

Ltac tkeep := match goal with |- K _ => first [eassumption | eapply K_ext; [..|eassumption]; reflexivity] end.
Ltac tstep :=
  match goal with
  | |- twp (_ ≫= _) _ _ => apply twp_bind
  | |- twp (mret _) _ _ => apply twp_ret
  | |- twp (get _) _ _ => apply twp_get
  | |- twp (modify _) _ _ => apply twp_modify
  | |- twp panic _ _ => apply twp_panic
  | |- twp (raise _) _ _ => apply twp_raise
  | |- twp LastIndex _ _ => apply twp_get
  | |- twp FirstIndex _ _ => apply twp_get
  | |- twp (must _) _ _ => apply twp_must; [try tkeep|intros ? ?]
  | |- twp (termAt _) _ _ => apply twp_must; [try tkeep|intros ? ?]
  | |- twp (if ?b then _ else _) _ _ => destruct b eqn:?
  | |- twp (match ?b with _ => _ end) _ _ => destruct b eqn:?
  | |- twp (let '(_, _) := ?b in _) _ _ => destruct b eqn:?
  end.
Ltac tcall H := eapply twp_mono; [apply H; try tkeep; try done|let HK' := fresh "HKc" in intros ? ? HK'; cbv beta in HK'].
Ltac tgo := repeat (tstep; cbv beta); try done; try tkeep.

(** ** Sending *)

Lemma send_K m r : chunk_ok m -> K r -> keep (send m) r.
Proof.
  intros Hm [? ? ? ? ? Ht ?]. unfold twp, send. constructor; try done. cbn. apply Forall_app. split; [done|]. by constructor.
Qed.

(** A message that is no chunk. *)
Lemma send_other_K m r : m_Type m <> MsgSnap -> K r -> keep (send m) r.
Proof. intros Hm. apply send_K. by intros E. Qed.

Ltac tsend := apply send_other_K; [done|try tkeep].

Lemma put_next_K p i r : K r -> keep (put_next p i) r.
Proof. intros HK. unfold put_next, mput. tgo. Qed.
Lemma put_match_K p i r : K r -> keep (put_match p i) r.
Proof. intros HK. unfold put_match, mput. tgo. Qed.

Lemma put_snapOut_K p x r : snap_at (x_index x) (x_data x) -> K r -> keep (put_snapOut p x) r.
Proof.
  intros Hx HK. unfold put_snapOut, mput. tgo. destruct HK as [? ? Ho ? ? ? ?]. constructor; try done.
  intros q y. cbn. destruct (decide (q = p)) as [->|Hne]; [rewrite lookup_insert_eq; by intros [= <-]|].
  rewrite lookup_insert_ne by done. intros Hy. apply (Ho q). by rewrite Heqo.
Qed.

Lemma resetTimeout_K r : K r -> keep resetTimeout r.
Proof. intros HK. unfold twp, resetTimeout. destruct (r_rng r); cbn; tkeep. Qed.

Lemma persistState_K r : K r -> keep persistState r.
Proof.
  intros HK. change (twp (write (EState (r_term r) (r_vote r)) (ls_SetState (r_term r) (r_vote r))) (fun _ => K) r).
  apply twp_write; [done|done|]. intros s Hs. pose proof (ls_SetState_ok (r_term r) (r_vote r) _ (k_ok _ HK)) as Hsim.
  rewrite Hs in Hsim. destruct Hsim as (v & [= <-] & Hs' & Hv). apply K_write; [done| |done|done].
  rewrite Hv. apply (k_store _ HK).
Qed.

Lemma sendChunk_K to x r : snap_at (x_index x) (x_data x) -> K r -> keep (sendChunk to x) r.
Proof.
  intros Hx HK. unfold sendChunk. tgo. apply send_K; [|done]. intros _. cbn. destruct Hx as [Hx|Hx]; [by left|right].
  unfold slice in Heqg. destruct (_ && _) eqn:Hb; [|done]. injection Heqg as <-. bool_to_prop.
  set (a := N.to_nat (x_offset x)) in *. set (b := N.to_nat (N.min _ _)) in *.
  exists (take a (x_data x)), (drop b (x_data x)). split_and!.
  - replace (take a (x_data x) ++ take (b - a) (drop a (x_data x)) ++ drop b (x_data x)) with (x_data x); [done|].
    replace (drop b (x_data x)) with (drop (b - a) (drop a (x_data x))) by (rewrite drop_drop; f_equal; lia).
    by rewrite !take_drop.
  - rewrite length_take. lia.
  - intros Hd. bool_to_prop. apply drop_ge. lia.
Qed.

Lemma Snapshot_read r idx t d : K r -> ls_Snapshot (r_store r) = Ret (idx, t, d) -> snap_at idx d.
Proof.
  intros HK Hs. pose proof (ls_Snapshot_ok _ (k_ok _ HK)) as Hsim. rewrite Hs in Hsim.
  destruct Hsim as (b & [= <-] & [= -> -> ->]). apply (k_store _ HK).
Qed.

Lemma sendSnapshot_K to r : K r -> keep (sendSnapshot to) r.
Proof.
  intros HK. unfold sendSnapshot. tgo; match goal with H : ls_Snapshot _ = Ret _ |- _ => apply (Snapshot_read _ _ _ _ HK) in H end.
  - apply sendChunk_K; [|done]. by eapply k_out.
  - tcall put_snapOut_K. tgo. by apply sendChunk_K.
  - tcall put_snapOut_K. tgo. by apply sendChunk_K.
Qed.

Lemma sendAppend_K to id r : K r -> keep (sendAppend to id) r.
Proof.
  intros HK. unfold sendAppend. tgo; try (by apply sendSnapshot_K); try tsend.
  tcall put_next_K. tgo. tsend.
Qed.

Lemma broadcastAppend_K r : K r -> keep broadcastAppend r.
Proof. intros HK. unfold broadcastAppend. tgo. apply twp_for_each; [done|]. intros p rp HKp. by apply sendAppend_K. Qed.

Lemma K_commit c r : (r_commit r <= c)%N -> K r -> K (set_commit c r).
Proof.
  intros Hc [? ? ? ? Hr ? ?]. constructor; try done; cbn; [|lia]. intros x Hx. destruct (Hr x Hx). split; [done|lia].
Qed.

Lemma maybeCommit_K r : K r -> keep maybeCommit r.
Proof. intros HK. unfold maybeCommit. tgo. bool_to_prop. apply K_commit; [lia|done]. Qed.

Lemma first_of_term_K fuel first i t r : K r -> keep (first_of_term fuel first i t) r.
Proof. intros HK. revert i. induction fuel as [|fuel IH]; intros i; simpl; tgo; apply IH. Qed.

Lemma last_of_term_K fuel first i t r : K r -> keep (last_of_term fuel first i t) r.
Proof. intros HK. revert i. induction fuel as [|fuel IH]; intros i; simpl; tgo; apply IH. Qed.

Lemma completeRead_K id r : K r -> keep (completeRead id) r.
Proof. intros HK. unfold completeRead. tgo. Qed.

Lemma ackRead_K id from r : K r -> keep (ackRead id from) r.
Proof. intros HK. unfold ackRead, mput. tgo. eapply twp_mono; [apply completeRead_K; tkeep|done]. Qed.

Lemma rejectStale_K m r : K r -> keep (rejectStale m) r.
Proof. intros HK. unfold rejectStale. tgo; tsend. Qed.

Lemma handleVote_K m r : K r -> keep (handleVote m) r.
Proof. intros HK. unfold handleVote, lastIndexAndTerm. tgo; try tsend. tcall persistState_K. tgo; tsend. Qed.

Lemma advance_match_K p i r : K r -> keep (advance_match p i) r.
Proof. intros HK. unfold advance_match. tgo; try (tcall put_match_K; tgo); by apply put_next_K. Qed.

(** ** Roles *)

Lemma becomeFollower_K t p r : K r -> keep (becomeFollower t p) r.
Proof.
  intros HK. unfold becomeFollower. apply twp_bind, twp_get, twp_bind.
  apply (twp_mono _ (fun _ => K)); [tgo; apply persistState_K; tkeep|]. intros ? r1 HK1. tgo.
  - apply resetTimeout_K. apply (K_fresh r1); [done|by left|done..].
  - apply (K_fresh r1); [done|by left|done..].
Qed.

Lemma write_Append_K es r :
  K r -> twp (write (EAppend es) (ls_Append es)) (fun _ r' => K r' /\ r_commit r' = r_commit r) r.
Proof.
  intros HK. apply twp_write; [done|done|]. intros s Hs. split; [|done]. pose proof (ls_Append_ok es _ (k_ok _ HK)) as Hsim.
  rewrite Hs in Hsim. destruct Hsim as (v & Hv & Hs' & <-). apply K_write; [done| |done|done].
  by eapply append_snap; [|apply (k_store _ HK)].
Qed.

Lemma write_Compact_K i t d r : snap_at i d -> K r -> keep (write (ECompact i t d) (ls_Compact i t d)) r.
Proof.
  intros Hd HK. apply twp_write; [done|done|]. intros s Hs. pose proof (ls_Compact_ok i t d _ (k_ok _ HK)) as Hsim.
  rewrite Hs in Hsim. destruct Hsim as (v & Hv & Hs' & <-). apply K_write; [done| |done|done].
  eapply compact_snap; [done|done|apply (k_store _ HK)].
Qed.

Lemma send_early_K last pt es one ps r : K r -> keep (send_early last pt es one ps) r.
Proof.
  revert r. induction ps as [|p ps IH]; intros r HK; simpl; [done|]. tgo; [by apply IH|].
  tcall put_next_K. tgo. eapply twp_mono; [tsend|]. intros ? r2 HK2. tgo. tcall IH. tgo.
Qed.

Lemma appendEntries_K es r : K r -> keep (appendEntries es) r.
Proof.
  intros HK. unfold appendEntries. tgo. tcall send_early_K. tgo.
  eapply twp_mono; [by apply write_Append_K|]. intros ? r1 [HK1 _]. tgo. tcall put_match_K. tgo.
  eapply twp_mono; [apply (twp_for_each _ _ K)|].
  - done.
  - intros p rp HKp. tgo. by apply sendAppend_K.
  - intros ? r3 HK3. cbv beta. tgo. tcall maybeCommit_K. tgo.
Qed.

Lemma becomeLeader_K r : K r -> keep becomeLeader r.
Proof.
  intros HK. unfold becomeLeader. tgo.
  eapply twp_mono; [apply appendEntries_K; apply (K_fresh r); [done|by right|done..]|]. intros ? r1 HK1. tgo.
Qed.

Lemma becomeCandidate_K r : K r -> keep becomeCandidate r.
Proof.
  intros HK. unfold becomeCandidate, lastIndexAndTerm. tgo. tcall persistState_K. tgo. tcall resetTimeout_K. tgo.
  - by apply becomeLeader_K.
  - apply twp_for_each; [done|]. intros p rp HKp. tsend.
Qed.

Lemma Tick_K r : K r -> keep Tick r.
Proof.
  intros HK. unfold Tick. tgo; try (apply becomeCandidate_K; tkeep). apply broadcastAppend_K. tkeep.
Qed.

Lemma Propose_K ps r : K r -> keep (Propose ps) r.
Proof. intros HK. unfold Propose. tgo. by apply appendEntries_K. Qed.

Lemma ReadIndex_K r : K r -> keep ReadIndex r.
Proof.
  intros HK. unfold ReadIndex, mput. tgo.
  - tcall completeRead_K. tgo.
  - eapply twp_mono; [apply (twp_for_each _ _ K)|].
    + tkeep.
    + intros p rp HKp. by apply sendAppend_K.
    + intros ? r1 HK1. cbv beta. tgo.
Qed.

Lemma Compact_K i d r : snap_at i d -> K r -> keep (t ← termAt i; write (ECompact i t d) (ls_Compact i t d)) r.
Proof. intros Hd HK. tgo. by apply write_Compact_K. Qed.

Lemma TakeReady_K r : K r -> keep TakeReady r.
Proof. intros HK. unfold TakeReady. tgo. Qed.

Lemma TakeRestored_K r :
  K r -> twp TakeRestored (fun x r' => K r' /\ forall i d, x = Some (i, d) -> snap_at i d /\ (i <= r_commit r')%N) r.
Proof.
  intros HK. unfold TakeRestored. tgo.
  split; [|intros i d [= <- <-]; by apply (k_restored _ HK)]. destruct HK. by constructor.
Qed.

(** ** Messages *)

Lemma follow_K m r : K r -> keep (follow m) r.
Proof. intros HK. unfold follow. tgo. tcall becomeFollower_K. tgo. Qed.

Lemma append_from_K last es r : K r -> twp (append_from last es) (fun _ r' => K r' /\ r_commit r' = r_commit r) r.
Proof. intros HK. revert last. induction es as [|e es IH]; intros last; simpl; tgo; auto; by apply write_Append_K. Qed.

Lemma handleAppend_K m r : K r -> keep (handleAppend m) r.
Proof.
  intros HK. unfold handleAppend, firstIndexOfTerm. tgo. tcall follow_K. tgo; try tsend.
  - tcall first_of_term_K. tsend.
  - eapply twp_mono; [by apply append_from_K|]. intros ? r2 [HK2 Hc2]. tgo; tsend. bool_to_prop. apply K_commit; [lia|done].
Qed.

Lemma handleVoteResp_K m r : K r -> keep (handleVoteResp m) r.
Proof. intros HK. unfold handleVoteResp, mput. tgo; [apply becomeLeader_K; tkeep|apply becomeFollower_K; tkeep]. Qed.

Lemma handleAppendResp_K m r : K r -> keep (handleAppendResp m) r.
Proof.
  intros HK. unfold handleAppendResp. apply twp_bind. apply (twp_mono _ (fun _ => K)); [tgo; by apply ackRead_K|].
  intros ? r1 HK1. unfold append_answered, lastIndexOfTerm. tgo.
  - tcall last_of_term_K. unfold retry_from. tgo. all: tcall put_next_K; by apply sendAppend_K.
  - unfold retry_from. tgo. all: tcall put_next_K; by apply sendAppend_K.
  - unfold append_accepted. tgo. tcall advance_match_K. tgo. tcall maybeCommit_K. tgo; [by apply broadcastAppend_K|by apply sendAppend_K].
Qed.

Lemma handleSnapshotResp_K m r : K r -> keep (handleSnapshotResp m) r.
Proof.
  intros HK. unfold handleSnapshotResp. tgo.
  - assert (K (set_snapOut (delete (m_From m) <$> r_snapOut r) r)) as HK1.
    { destruct HK as [? ? Ho ? ? ? ?]. constructor; try done. intros p x. cbn. destruct (r_snapOut r) as [o|] eqn:Eo; [|done].
      simpl. rewrite lookup_delete_Some. intros [_ Hx]. by apply (Ho p). }
    tcall advance_match_K. tgo. tcall maybeCommit_K. tgo; [by apply broadcastAppend_K|by apply sendAppend_K].
  - assert (snap_at (x_index s) (x_data s)) by (by eapply k_out). tcall put_snapOut_K. by apply sendChunk_K.
Qed.

Context (Huniq : forall i d d', G i d -> G i d' -> d = d').

(** The next chunk of whichever leader continues the same bytes. *)
Lemma chunk_next x m :
  part_at (x_index x) (x_data x) -> chunk_ok m -> m_Type m = MsgSnap -> m_Index m <> 0%N ->
  x_index x = m_Index m -> m_Offset m = N.of_nat (length (x_data x)) ->
  part_at (x_index x) (x_data x ++ m_Data m) /\ (m_Done m = true -> snap_at (x_index x) (x_data x ++ m_Data m)).
Proof.
  intros Hx Hm Ht Hi Hxi Hoff. destruct (Hm Ht) as [?|(before & behind & Hfull & Hlen & Hdone)]; [done|].
  rewrite Hxi in *. destruct Hx as [?|(full & HG & Hpre)]; [done|]. rewrite (Huniq _ _ _ HG Hfull) in Hpre.
  assert (x_data x = before) as ->.
  { destruct Hpre as [k Hk]. symmetry. refine (proj1 (app_inj_1 _ _ _ _ _ Hk)). lia. }
  split.
  - right. eexists. split; [exact Hfull|]. exists behind. by rewrite app_assoc.
  - intros Hd. right. rewrite (Hdone Hd), app_nil_r in Hfull. done.
Qed.

Lemma receive_K m r : chunk_ok m -> m_Type m = MsgSnap -> (r_commit r < m_Index m)%N -> K r -> keep (receive_chunk m) r.
Proof.
  intros Hm Ht Hi HK. unfold receive_chunk. apply twp_bind, twp_get. destruct (r_snapIn r) as [x|] eqn:Hin; [|tsend].
  cbv zeta. destruct (N.eqb_spec (x_index x) (m_Index m)) as [Hx|]; [|tsend].
  destruct (N.eqb_spec (m_Offset m) (N.of_nat (length (x_data x)))) as [Hoff|]; [|tsend]. cbn [negb].
  destruct (chunk_next x m (k_in _ HK x Hin) Hm Ht ltac:(lia) Hx Hoff) as [Hpart Hall].
  destruct (m_Done m); cbn [negb]; apply twp_bind, twp_modify.
  - assert (K (set_snapIn None r)) as HK1 by (by destruct HK; constructor).
    apply twp_bind. eapply twp_mono; [apply write_Compact_K; [by apply Hall|done]|]. intros ? r1 HK2. tgo. tsend.
    destruct HK2. constructor; try done; cbn; [intros y [= <-]; split; [by apply Hall|done]|]. pose proof (k_commit _ HK). lia.
  - tsend. destruct HK. constructor; try done. cbn. by intros y [= <-].
Qed.

Lemma handleSnapshot_K m r : chunk_ok m -> m_Type m = MsgSnap -> K r -> keep (handleSnapshot m) r.
Proof.
  intros Hm Ht HK. unfold handleSnapshot. tgo. tcall follow_K. tgo; try tsend.
  all: bool_to_prop; apply receive_K; [done|done|done|try done].
  destruct HKc. constructor; try done.
  cbn. intros y [= <-]. cbn. destruct (Hm Ht) as [?|(before & behind & Hfull & _)]; [by left|right].
  eexists. split; [exact Hfull|apply prefix_nil].
Qed.

Lemma Step_K m r : chunk_ok m -> K r -> keep (Step m) r.
Proof.
  intros Hm HK. unfold Step. tgo; [by apply rejectStale_K|..].
  all: try (tcall becomeFollower_K). all: unfold dispatch; tgo.
  all: auto using handleVote_K, handleVoteResp_K, handleAppend_K, handleAppendResp_K, handleSnapshot_K, handleSnapshotResp_K.
Qed.
End SnapData.

(** ** More snapshots *)

Section Mono.
Context {S : Type} `{LS : LogStore S} `{OK : !LogStoreOK S}.
Context (G G' : N -> bytes -> Prop) (Hle : forall i d, G i d -> G' i d).

Lemma snap_at_mono i d : snap_at G i d -> snap_at G' i d.
Proof. intros [|]; [by left|right; auto]. Qed.

Lemma chunk_ok_mono m : chunk_ok G m -> chunk_ok G' m.
Proof. intros Hm Ht. destruct (Hm Ht) as [|(b & a & ? & ? & ?)]; [by left|right]. exists b, a. auto. Qed.

Lemma eff_ok_mono e : eff_ok G e -> eff_ok G' e.
Proof. destruct e; simpl; auto using chunk_ok_mono, snap_at_mono. Qed.

Lemma K_mono c c' (r : Raft S) : (c' <= r_commit r)%N -> K G c r -> K G' c' r.
Proof.
  intros Hc [? ? ? Hin Hr Ht ?]. constructor; eauto using snap_at_mono.
  - by apply snap_at_mono.
  - intros x Hx. destruct (Hin x Hx) as [|(f & ? & ?)]; [by left|right; eauto].
  - intros x Hx. destruct (Hr x Hx). split; [by apply snap_at_mono|done].
  - eapply Forall_impl; [exact Ht|]. intros e. apply eff_ok_mono.
Qed.
End Mono.
