(* ===== verification/RaftBounds.v ===== *)
(** * The size of messages

    Whatever a call of [Raft] does, the messages it sends hold no more than
    the configuration allows: a bounded number of entries, a bounded payload
    unless a single entry exceeds it, and one chunk of a snapshot. *)

From stdpp Require Import base list gmap.
From S2P Require Import Prelude LogStore Raft Refine Cluster.

Create HintDb bounds.

Definition payload (es : list Entry) : N := foldr (fun e n => (N.of_nat (length (e_Data e)) + n)%N) 0%N es.

Definition batch_ok (cfg : Config) (es : list Entry) : Prop :=
  length es <= c_MaxBatch cfg /\ (length es <= 1 \/ (payload es <= c_MaxBatchBytes cfg)%N).

Definition size_ok (cfg : Config) (m : Message) : Prop :=
  match m_Type m with
  | MsgApp => batch_ok cfg (m_Entries m) /\ m_Data m = []
  | MsgSnap => m_Entries m = [] /\ (N.of_nat (length (m_Data m)) <= c_SnapshotChunk cfg)%N
  | _ => m_Entries m = [] /\ m_Data m = []
  end.

(** ** Batches *)

(** After the first entry, the sum stays within the bound. *)
Lemma fit_loop_payload b i sz es : (0 < i) -> (sz <= b)%N -> (sz + payload (fit_loop b i sz es) <= b)%N.
Proof.
  revert i sz. induction es as [|e es IH]; intros i sz Hi Hsz; simpl; [lia|].
  destruct (N.ltb_spec b (sz + N.of_nat (length (e_Data e)))), (Nat.ltb_spec 0 i); simpl; try lia.
  specialize (IH (Datatypes.S i) (sz + N.of_nat (length (e_Data e)))%N ltac:(lia) ltac:(lia)). lia.
Qed.

Lemma fit_loop_full b i sz es : (0 < i) -> (b < sz)%N -> fit_loop b i sz es = [].
Proof.
  intros Hi Hsz. destruct es as [|e es]; [done|]. simpl.
  destruct (N.ltb_spec b (sz + N.of_nat (length (e_Data e)))), (Nat.ltb_spec 0 i); simpl; try done; lia.
Qed.

Lemma fitBatch_ok {S} (r : Raft S) es : batch_ok (r_cfg r) (fitBatch r es).
Proof.
  unfold fitBatch. set (b := c_MaxBatchBytes (r_cfg r)). split.
  - eapply Nat.le_trans; [apply prefix_length, fit_loop_prefix|]. rewrite length_take. lia.
  - destruct (take (c_MaxBatch (r_cfg r)) es) as [|e rest]; [left; simpl; lia|].
    cbn [fit_loop]. rewrite N.add_0_l, andb_false_r.
    destruct (N.le_gt_cases (N.of_nat (length (e_Data e))) b) as [Hle|Hgt].
    + right. pose proof (fit_loop_payload b 1 (N.of_nat (length (e_Data e))) rest ltac:(lia) Hle). exact H.
    + left. rewrite fit_loop_full by lia. done.
Qed.

(** A batch that fits whole. *)
Lemma fitBatch_whole {S} (r : Raft S) es : (length (fitBatch r es) =? length es) = true -> batch_ok (r_cfg r) es.
Proof.
  intros Hl%Nat.eqb_eq. pose proof (fitBatch_ok r es) as H. assert (fitBatch r es = es) as <-; [|done].
  apply prefix_length_eq; [|lia]. etrans; [apply fit_loop_prefix|]. exists (drop (c_MaxBatch (r_cfg r)) es). by rewrite take_drop.
Qed.

Lemma chunk_size (data : bytes) off fin chunk c :
  fin = N.min (off + chunk) (N.of_nat (length data)) -> slice data (N.to_nat off) (N.to_nat fin) = Ret c ->
  (N.of_nat (length c) <= chunk)%N.
Proof.
  intros -> . unfold slice. case_match; [|done]. intros [= <-]. rewrite length_take. lia.
Qed.

(** ** Calls *)

Section Bounds.
Context {S : Type} `{LS : LogStore S} (cfg : Config).
Implicit Types r : Raft S.

Definition eff_size (e : effect) : Prop := match e with ESend m => size_ok cfg m | _ => True end.
Definition small r : Prop := r_cfg r = cfg /\ Forall eff_size (r_trace r).

Definition stays_small {A} (m : @M S A) : Prop := forall r, small r -> small (m r).1.

Lemma small_ret {A} (x : A) : stays_small (mret x).
Proof. by intros r. Qed.
Lemma small_get {A} (f : Raft S -> A) : stays_small (get f).
Proof. by intros r. Qed.
Lemma small_panic {A} : stays_small (@panic S A).
Proof. by intros r. Qed.
Lemma small_raise {A} e : stays_small (@raise S A e).
Proof. by intros r. Qed.
Lemma small_modify f : (forall r, r_cfg (f r) = r_cfg r /\ r_trace (f r) = r_trace r) -> stays_small (modify f).
Proof. intros Hf r [Hc Ht]. destruct (Hf r) as [H1 H2]. split; simpl; [by rewrite H1|by rewrite H2]. Qed.

Lemma small_bind {A B} (m : @M S A) (f : A -> @M S B) : stays_small m -> (forall x, stays_small (f x)) -> stays_small (m ≫= f).
Proof. intros Hm Hf r Hr. specialize (Hm r Hr). unfold mbind, M_bind. destruct (m r) as [r' [x|e|]]; [by apply Hf|done..]. Qed.

(** What is read depends on the configuration. *)
Lemma small_get_bind {A B} (g : Raft S -> A) (f : A -> @M S B) :
  (forall r, r_cfg r = cfg -> stays_small (f (g r))) -> stays_small (get g ≫= f).
Proof. intros H r Hr. apply (H r); [apply Hr|done]. Qed.

Lemma small_for_each {A} (l : list A) (f : A -> @M S unit) : (forall x, stays_small (f x)) -> stays_small (for_each l f).
Proof. intros Hf. induction l; simpl; [apply small_ret|]. by apply small_bind. Qed.

Lemma small_must {A} (f : S -> go A) : stays_small (must f).
Proof. intros r Hr. unfold must. by destruct (f (r_store r)). Qed.

Lemma small_write eff f : eff_size eff -> stays_small (write eff f).
Proof.
  intros He r [Hc Ht]. assert (Forall eff_size (r_trace r ++ [eff])) by (apply Forall_app; split; [done|by constructor]).
  unfold write. destruct (f (r_store r)) as [s|e|]; simpl; [done| |done]. by destruct e.
Qed.

Lemma small_persist : stays_small (@persistState S _).
Proof. intros r Hr. by apply small_write. Qed.

Lemma small_send m : size_ok cfg m -> stays_small (@send S m).
Proof. intros Hm r [Hc Ht]. split; [done|]. simpl. apply Forall_app. split; [done|]. by repeat constructor. Qed.

Lemma small_timeout : stays_small (@resetTimeout S).
Proof. intros r Hr. unfold resetTimeout. by destruct (r_rng r). Qed.

#[local] Hint Resolve small_ret small_get small_panic small_raise small_must small_persist small_timeout : bounds.

Ltac sgo := repeat
  match goal with
  | |- stays_small (_ ≫= _) => apply small_bind; [|intros ?]
  | |- stays_small (modify _) => apply small_modify; done
  | |- stays_small (for_each _ _) => apply small_for_each; intros ?
  | |- stays_small (send _) => apply small_send; try done
  | |- stays_small (write _ _) => apply small_write; done
  | |- stays_small (match ?b with _ => _ end) => destruct b
  | |- stays_small _ => progress eauto 2 with bounds
  end.

Lemma mput_small {V} (set : option (gmap N V) -> Raft S -> Raft S) m k v :
  (forall x r, r_cfg (set x r) = r_cfg r /\ r_trace (set x r) = r_trace r) -> stays_small (mput set m k v).
Proof. intros Hs. unfold mput. destruct m; [by apply small_modify|apply small_panic]. Qed.

Lemma put_next_small p i : stays_small (put_next p i).
Proof. unfold put_next. sgo. by apply mput_small. Qed.
Lemma put_match_small p i : stays_small (put_match p i).
Proof. unfold put_match. sgo. by apply mput_small. Qed.
Lemma put_snapOut_small p x : stays_small (put_snapOut p x).
Proof. unfold put_snapOut. sgo. by apply mput_small. Qed.
#[local] Hint Resolve put_next_small put_match_small put_snapOut_small : bounds.

Lemma sendChunk_small to x : stays_small (sendChunk to x).
Proof.
  apply small_get_bind. intros r Hr. cbv zeta.
  match goal with |- context [slice ?a ?b ?c] => destruct (slice a b c) as [data| |] eqn:Hd end; [|apply small_panic..]. apply small_send. split; [done|]. simpl.
  rewrite Hr in Hd. by eapply chunk_size.
Qed.
#[local] Hint Resolve sendChunk_small : bounds.

Lemma sendSnapshot_small to : stays_small (sendSnapshot to).
Proof. unfold sendSnapshot. sgo. Qed.
#[local] Hint Resolve sendSnapshot_small : bounds.

Lemma no_entries : batch_ok cfg [].
Proof. split; simpl; [lia|left; lia]. Qed.

(** What a part returns. *)
Lemma small_bind_post {A B} (P : A -> Prop) (m : @M S A) (f : A -> @M S B) :
  stays_small m -> (forall r r' x, r_cfg r = cfg -> m r = (r', Ret x) -> P x) -> (forall x, P x -> stays_small (f x)) ->
  stays_small (m ≫= f).
Proof.
  intros Hm HP Hf r Hr. specialize (Hm r Hr). unfold mbind, M_bind. destruct (m r) as [r' [x|e|]] eqn:E; [|done..].
  apply Hf; [|done]. by eapply HP; [apply Hr|].
Qed.

Lemma sendAppend_small to id : stays_small (sendAppend to id).
Proof.
  unfold sendAppend, FirstIndex, LastIndex, termAt. do 3 (apply small_bind; [sgo|intros ?]).
  case_match; [sgo; split; [apply no_entries|done]|]. do 2 (apply small_bind; [sgo|intros ?]).
  apply (small_bind_post (batch_ok cfg)); [sgo| |intros es Hes; by apply small_send].
  intros r r' es Hr. case_match; [|intros [= _ <-]; apply no_entries]. unfold mbind, M_bind, get, must.
  destruct (ls_Entries _ _ _) as [es0| |]; [|done..]. destruct (put_next _ _ r) as [r1 [[]| |]]; [|done..].
  intros [= _ <-]. rewrite <-Hr. apply fitBatch_ok.
Qed.
#[local] Hint Resolve sendAppend_small : bounds.

Lemma broadcastAppend_small : stays_small broadcastAppend.
Proof. unfold broadcastAppend. sgo. Qed.
Lemma maybeCommit_small : stays_small maybeCommit.
Proof. unfold maybeCommit, termAt. sgo. Qed.
#[local] Hint Resolve broadcastAppend_small maybeCommit_small : bounds.

Lemma send_early_small last pt es one ps : (one = true -> batch_ok cfg es) -> stays_small (send_early last pt es one ps).
Proof.
  intros Hes. induction ps as [|p ps IH]; simpl; [apply small_ret|]. apply small_bind; [sgo|intros self].
  apply small_bind; [sgo|intros nx]. destruct one; simpl; rewrite ?orb_true_r; [|done]. rewrite orb_false_r. case_match; [done|].
  sgo. split; [by apply Hes|done].
Qed.

Lemma appendEntries_small es : stays_small (appendEntries es).
Proof.
  unfold appendEntries, LastIndex, termAt. apply small_bind; [sgo|intros last]. apply small_bind; [sgo|intros t]. cbv zeta.
  apply small_bind; [sgo|intros pt]. apply small_get_bind. intros r Hr. apply small_bind; [sgo|intros ps].
  apply small_bind; [|intros early; sgo]. apply send_early_small. intros H. rewrite <-Hr. by apply fitBatch_whole.
Qed.
#[local] Hint Resolve appendEntries_small : bounds.

(** ** Handlers *)

Lemma becomeFollower_small t p : stays_small (becomeFollower t p).
Proof. unfold becomeFollower. sgo. Qed.
Lemma becomeLeader_small : stays_small becomeLeader.
Proof. unfold becomeLeader, LastIndex. sgo. Qed.
#[local] Hint Resolve becomeFollower_small becomeLeader_small : bounds.

Lemma becomeCandidate_small : stays_small becomeCandidate.
Proof. unfold becomeCandidate, lastIndexAndTerm, LastIndex, termAt. sgo. Qed.
Lemma completeRead_small id : stays_small (completeRead id).
Proof. unfold completeRead. sgo. Qed.
#[local] Hint Resolve becomeCandidate_small completeRead_small : bounds.

Lemma ackRead_small id p : stays_small (ackRead id p).
Proof. unfold ackRead. sgo. by apply mput_small. Qed.
Lemma advance_match_small p i : stays_small (advance_match p i).
Proof. unfold advance_match. sgo. Qed.
Lemma first_of_term_small fuel first i t : stays_small (first_of_term fuel first i t).
Proof. revert i. induction fuel; intros i; simpl; unfold termAt; sgo. Qed.
Lemma last_of_term_small fuel first i t : stays_small (last_of_term fuel first i t).
Proof. revert i. induction fuel; intros i; simpl; unfold termAt; sgo. Qed.
Lemma append_from_small last es : stays_small (append_from last es).
Proof. induction es; simpl; unfold termAt; sgo. Qed.
Lemma follow_small m : stays_small (follow m).
Proof. unfold follow. sgo. Qed.
#[local] Hint Resolve ackRead_small advance_match_small first_of_term_small last_of_term_small append_from_small follow_small : bounds.

Lemma handleAppend_small m : stays_small (handleAppend m).
Proof. unfold handleAppend, LastIndex, termAt, firstIndexOfTerm, FirstIndex. sgo. Qed.
Lemma handleAppendResp_small m : stays_small (handleAppendResp m).
Proof.
  unfold handleAppendResp, append_answered, lastIndexOfTerm, LastIndex, FirstIndex, retry_from, append_accepted. sgo.
Qed.
Lemma handleSnapshot_small m : stays_small (handleSnapshot m).
Proof. unfold handleSnapshot, receive_chunk. sgo. Qed.
Lemma handleSnapshotResp_small m : stays_small (handleSnapshotResp m).
Proof. unfold handleSnapshotResp. sgo. Qed.
Lemma handleVote_small m : stays_small (handleVote m).
Proof. unfold handleVote, lastIndexAndTerm, LastIndex, termAt. sgo. Qed.
Lemma handleVoteResp_small m : stays_small (handleVoteResp m).
Proof. unfold handleVoteResp. sgo. by apply mput_small. Qed.
#[local] Hint Resolve handleAppend_small handleAppendResp_small handleSnapshot_small handleSnapshotResp_small handleVote_small handleVoteResp_small : bounds.

Lemma Step_small m : stays_small (Step m).
Proof. unfold Step, rejectStale, dispatch. sgo. Qed.
Lemma Tick_small : stays_small Tick.
Proof. unfold Tick. sgo. Qed.
Lemma Propose_small ps : stays_small (Propose ps).
Proof. unfold Propose. sgo. Qed.
Lemma ReadIndex_small : stays_small ReadIndex.
Proof. unfold ReadIndex, termAt. sgo. by apply mput_small. Qed.
#[local] Hint Resolve Step_small Tick_small Propose_small ReadIndex_small : bounds.

Lemma run_call_small cl : stays_small (run_call cl).
Proof. destruct cl; simpl; unfold termAt; sgo. Qed.
End Bounds.

(** ** Limits *)

Lemma limits_kept {S} `{LogStore S} cl (r r' : Raft S) res :
  run_call cl (start_trace r) = (r', res) -> small (r_cfg r) r'.
Proof.
  intros Hr. pose proof (run_call_small (r_cfg r) cl (start_trace r)) as Hs. rewrite Hr in Hs. apply Hs. by split; [|constructor].
Qed.

(** C27: Messages stay within the limits of the configuration.  Whatever state
    a [Raft] is in and however a call ends, every append it sends holds at most
    [MaxBatch] entries, and no more than [MaxBatchBytes] bytes of payload
    unless it holds one entry only; every piece of a snapshot has at most
    [SnapshotChunk] bytes; no other message carries any payload; and a [Raft]
    that was opened has no limit of zero. *)
Theorem messages_bounded {S} `{LogStore S} cl (r r' : Raft S) res cfg s rng r0 :
  run_call cl (start_trace r) = (r', res) -> New cfg s rng = Ret r0 ->
  r_cfg r' = r_cfg r /\
  (forall m, ESend m ∈ r_trace r' ->
     match m_Type m with
     | MsgApp => (length (m_Entries m) <= c_MaxBatch (r_cfg r) /\
                  (length (m_Entries m) <= 1 \/ (payload (m_Entries m) <= c_MaxBatchBytes (r_cfg r))%N)) /\ m_Data m = []
     | MsgSnap => m_Entries m = [] /\ (N.of_nat (length (m_Data m)) <= c_SnapshotChunk (r_cfg r))%N
     | _ => m_Entries m = [] /\ m_Data m = []
     end) /\
  0 < c_MaxBatch (r_cfg r0) /\ (0 < c_MaxBatchBytes (r_cfg r0))%N /\ (0 < c_SnapshotChunk (r_cfg r0))%N.
Proof.
  intros Hr Hn. destruct (limits_kept _ _ _ _ Hr) as [Hc Ht]. rewrite Forall_forall in Ht. split_and!; [done|exact (fun m => Ht (ESend m))|..].
  all: unfold New in Hn; destruct (_ =? _)%N; [done|]; destruct (_ || _ || _); [done|];
    destruct (ls_State s) as [[t v]| |]; [|done..]; simpl in Hn; unfold resetTimeout in Hn; simpl in Hn;
    destruct rng; injection Hn as <-; simpl; case_match; rewrite ?Nat.eqb_neq, ?N.eqb_neq in *; lia.
Qed.

Lemma messages_bounded_witness :
  exists r' r0, run_call (CPropose [[x01]; [x02]]) (start_trace (ex_node ex_c1 1)) = (r', Ret tt) /\
    New (ex_cfg 1) NewMemStore [] = Ret r0 /\ length (r_trace r') = 3 /\
    forall m, ESend m ∈ r_trace r' -> m_Type m = MsgApp -> length (m_Entries m) <= 256.
Proof.
  destruct (run_call (CPropose [[x01]; [x02]]) (start_trace (ex_node ex_c1 1))) as [r' res] eqn:Hr.
  destruct (New (ex_cfg 1) NewMemStore []) as [r0| |] eqn:Hn; [|vm_compute in Hn; discriminate Hn..].
  destruct (messages_bounded _ _ _ _ _ _ _ _ Hr Hn) as (_ & Hb & _).
  exists r', r0. vm_compute in Hr. injection Hr as Hr1 Hr2. split; [by rewrite Hr2|]. split; [reflexivity|].
  split; [by rewrite <-Hr1|]. intros m Hm Ht. specialize (Hb m Hm). rewrite Ht in Hb. exact (proj1 (proj1 Hb)).
Defined.
