(* ===== verification/Node.v ===== *)
(** * raft/node.go: the driver of a [Raft] and its state machine

    The node queues proposals and reads, feeds messages and ticks to its
    [Raft], applies what is committed to the state machine and settles the
    handles its callers wait on.  A handle is a pointer in the code, shared
    between the caller and the node; here it is a position in a heap of
    handles, and closing its channel twice panics as in Go. *)

From stdpp Require Import base list gmap.
From S2P Require Import Prelude LogStore Raft.

(** ** raft/statemachine.go: the interface the node drives

    [Snapshot] includes reading the returned reader to its end. *)
Class Machine (X : Type) := {
  mc_Apply : Entry -> X -> go (X * bytes);
  mc_LastApplied : X -> N;
  mc_Snapshot : X -> go (X * bytes);
  mc_Restore : bytes -> X -> go X;
}.

(** ** Handles *)

Record Proposal := mkProposal {
  p_data : bytes;
  p_term : N;
  p_Index : N;
  p_Result : bytes;
  p_Err : option error;
  p_done : bool;
}.

Record Read := mkRead {
  h_Index : N;
  h_Err : option error;
  h_done : bool;
}.

Definition applyBatch : N := 256.

Section Node.
Context {S : Type} `{LogStore S} {X : Type} `{Machine X}.

(** [n_maxBatch] is an [int]; [n_wake] tells whether the wake channel, of
    capacity one, holds a token. *)
Record Node := mkNode {
  n_r : Raft S;
  n_sm : X;
  n_snapGap : N;
  n_maxBatch : Z;
  n_applied : N;
  n_queue : list nat;
  n_pending : gmap N nat;
  n_readQueue : list nat;
  n_reads : gmap N (list nat);
  n_waiting : list nat;
  n_wake : bool;
  n_props : list Proposal;
  n_rds : list Read;
}.

Definition with_r (x : Raft S) (n : Node) : Node :=
  mkNode x (n_sm n) (n_snapGap n) (n_maxBatch n) (n_applied n) (n_queue n) (n_pending n)
    (n_readQueue n) (n_reads n) (n_waiting n) (n_wake n) (n_props n) (n_rds n).
Definition with_sm (x : X) (n : Node) : Node :=
  mkNode (n_r n) x (n_snapGap n) (n_maxBatch n) (n_applied n) (n_queue n) (n_pending n)
    (n_readQueue n) (n_reads n) (n_waiting n) (n_wake n) (n_props n) (n_rds n).
Definition with_applied (x : N) (n : Node) : Node :=
  mkNode (n_r n) (n_sm n) (n_snapGap n) (n_maxBatch n) x (n_queue n) (n_pending n)
    (n_readQueue n) (n_reads n) (n_waiting n) (n_wake n) (n_props n) (n_rds n).
Definition with_queue (x : list nat) (n : Node) : Node :=
  mkNode (n_r n) (n_sm n) (n_snapGap n) (n_maxBatch n) (n_applied n) x (n_pending n)
    (n_readQueue n) (n_reads n) (n_waiting n) (n_wake n) (n_props n) (n_rds n).
Definition with_pending (x : gmap N nat) (n : Node) : Node :=
  mkNode (n_r n) (n_sm n) (n_snapGap n) (n_maxBatch n) (n_applied n) (n_queue n) x
    (n_readQueue n) (n_reads n) (n_waiting n) (n_wake n) (n_props n) (n_rds n).
Definition with_readQueue (x : list nat) (n : Node) : Node :=
  mkNode (n_r n) (n_sm n) (n_snapGap n) (n_maxBatch n) (n_applied n) (n_queue n) (n_pending n)
    x (n_reads n) (n_waiting n) (n_wake n) (n_props n) (n_rds n).
Definition with_reads (x : gmap N (list nat)) (n : Node) : Node :=
  mkNode (n_r n) (n_sm n) (n_snapGap n) (n_maxBatch n) (n_applied n) (n_queue n) (n_pending n)
    (n_readQueue n) x (n_waiting n) (n_wake n) (n_props n) (n_rds n).
Definition with_waiting (x : list nat) (n : Node) : Node :=
  mkNode (n_r n) (n_sm n) (n_snapGap n) (n_maxBatch n) (n_applied n) (n_queue n) (n_pending n)
    (n_readQueue n) (n_reads n) x (n_wake n) (n_props n) (n_rds n).
Definition with_wake (x : bool) (n : Node) : Node :=
  mkNode (n_r n) (n_sm n) (n_snapGap n) (n_maxBatch n) (n_applied n) (n_queue n) (n_pending n)
    (n_readQueue n) (n_reads n) (n_waiting n) x (n_props n) (n_rds n).
Definition with_props (x : list Proposal) (n : Node) : Node :=
  mkNode (n_r n) (n_sm n) (n_snapGap n) (n_maxBatch n) (n_applied n) (n_queue n) (n_pending n)
    (n_readQueue n) (n_reads n) (n_waiting n) (n_wake n) x (n_rds n).
Definition with_rds (x : list Read) (n : Node) : Node :=
  mkNode (n_r n) (n_sm n) (n_snapGap n) (n_maxBatch n) (n_applied n) (n_queue n) (n_pending n)
    (n_readQueue n) (n_reads n) (n_waiting n) (n_wake n) (n_props n) x.

(** ** The monad of a call *)

Definition NM (A : Type) : Type := Node -> Node * go A.

#[global] Instance NM_ret : MRet NM := fun A a n => (n, Ret a).
#[global] Instance NM_bind : MBind NM := fun A B f m n =>
  match m n with
  | (n, Ret a) => f a n
  | (n, Fail e) => (n, Fail e)
  | (n, Panic) => (n, Panic)
  end.

Definition nget {A} (f : Node -> A) : NM A := fun n => (n, Ret (f n)).
Definition nmodify (f : Node -> Node) : NM unit := fun n => (f n, Ret tt).
Definition npanic {A} : NM A := fun n => (n, Panic).

(** An outcome that must not be an error: the code panics on one. *)
Definition nmust {A} (x : go A) : NM A := fun n =>
  (n, match x with Ret a => Ret a | _ => Panic end).

(** A call of the [Raft], returning its error as a value. *)
Definition raft_call {A} (m : @M S A) : NM (A + error) := fun n =>
  let '(r, x) := m (n_r n) in
  (with_r r n, match x with Ret a => Ret (inl a) | Fail e => Ret (inr e) | Panic => Panic end).

(** A call of the [Raft] without an error. *)
Definition raft_do {A} (m : @M S A) : NM A := fun n =>
  let '(r, x) := m (n_r n) in (with_r r n, x).

Fixpoint nfor_each {A} (l : list A) (f : A -> NM unit) : NM unit :=
  match l with
  | [] => mret tt
  | x :: l => f x;; nfor_each l f
  end.

(** ** Settling handles *)

Definition finish (h : nat) (result : bytes) (err : option error) : NM unit :=
  props ← nget n_props;
  match props !! h with
  | Some p =>
      if p_done p then npanic
      else nmodify (with_props (<[h := mkProposal (p_data p) (p_term p) (p_Index p) result err true]> props))
  | None => npanic
  end.

Definition finish_read (h : nat) (err : option error) : NM unit :=
  rds ← nget n_rds;
  match rds !! h with
  | Some rd =>
      if h_done rd then npanic
      else nmodify (with_rds (<[h := mkRead (h_Index rd) err true]> rds))
  | None => npanic
  end.

Definition failAll (err : error) : NM unit :=
  queue ← nget n_queue;
  nfor_each queue (fun h => finish h [] (Some err));;
  nmodify (with_queue []);;
  pending ← nget n_pending;
  nfor_each (map_to_list pending) (fun ih =>
    nmodify (fun n => with_pending (delete ih.1 (n_pending n)) n);;
    finish ih.2 [] (Some err));;
  readQueue ← nget n_readQueue;
  nfor_each readQueue (fun h => finish_read h (Some err));;
  nmodify (with_readQueue []);;
  reads ← nget n_reads;
  nfor_each (map_to_list reads) (fun ih =>
    nmodify (fun n => with_reads (delete ih.1 (n_reads n)) n);;
    nfor_each ih.2 (fun h => finish_read h (Some err))).

(** ** Queueing *)

(** [Propose] and [ReadIndex] append under the lock, then leave a token in
    the wake channel without blocking. *)
Definition enqueue (data : bytes) : NM nat :=
  props ← nget n_props;
  nmodify (with_props (props ++ [mkProposal data 0 0 [] None false]));;
  nmodify (fun n => with_queue (n_queue n ++ [length props]) n);;
  mret (length props).

Definition enqueue_read : NM nat :=
  rds ← nget n_rds;
  nmodify (with_rds (rds ++ [mkRead 0 None false]));;
  nmodify (fun n => with_readQueue (n_readQueue n ++ [length rds]) n);;
  mret (length rds).

Definition signal : NM unit := nmodify (with_wake true).

Definition Node_Propose (data : bytes) : NM nat := h ← enqueue data; signal;; mret h.
Definition Node_ReadIndex : NM nat := h ← enqueue_read; signal;; mret h.

(** ** Flushing *)

(** The proposal takes its place in the log. *)
Definition assign_pending (h : nat) (index : N) : NM unit :=
  props ← nget n_props;
  term ← nget (fun n => r_term (n_r n));
  match props !! h with
  | Some p =>
      nmodify (with_props (<[h := mkProposal (p_data p) term index (p_Result p) (p_Err p) (p_done p)]> props));;
      nmodify (fun n => with_pending (<[index := h]> (n_pending n)) n)
  | None => npanic
  end.

Fixpoint assign_all (queue : list nat) (index : N) : NM unit :=
  match queue with
  | [] => mret tt
  | h :: queue => assign_pending h index;; assign_all queue (index + 1)%N
  end.

Definition prop_data (n : Node) (h : nat) : bytes := from_option p_data [] (n_props n !! h).

Definition flushBatch : NM unit :=
  all ← nget n_queue;
  maxBatch ← nget n_maxBatch;
  let queue := if (0 <? maxBatch)%Z && (maxBatch <? Z.of_nat (length all))%Z
               then take (Z.to_nat maxBatch) all else all in
  nmodify (with_queue (drop (length queue) all));;
  st ← nget (fun n => r_state (n_r n));
  if decide (st = Leader) then
    payloads ← nget (fun n => prop_data n <$> queue);
    res ← raft_call (Propose payloads);
    match res with
    | inr err => nfor_each queue (fun h => finish h [] (Some err))
    | inl first => assign_all queue first
    end
  else nfor_each queue (fun h => finish h [] (Some ErrNotLeader)).

(** Every batch takes at least one proposal, so the queue's length is
    enough fuel. *)
Fixpoint flush_loop (fuel : nat) : NM unit :=
  queue ← nget n_queue;
  match queue, fuel with
  | [], _ => mret tt
  | _, O => npanic
  | _, Datatypes.S fuel => flushBatch;; flush_loop fuel
  end.

Definition flushProposals : NM unit :=
  queue ← nget n_queue; flush_loop (length queue).

Definition startReads : NM unit :=
  queue ← nget n_readQueue;
  match queue with
  | [] => mret tt
  | _ =>
      res ← raft_call ReadIndex;
      match res with
      | inr err =>
          if decide (err = ErrLeaderNotReady) then mret tt
          else
            nmodify (with_readQueue []);;
            nfor_each queue (fun h => finish_read h (Some err))
      | inl id =>
          nmodify (with_readQueue []);;
          nmodify (fun n => with_reads (<[id := queue]> (n_reads n)) n)
      end
  end.

(** ** Applying *)

Definition apply_entry (e : Entry) : NM unit :=
  result ← (if decide (e_Type e = EntryNormal) then
              sm ← nget n_sm;
              '(sm, result) ← nmust (mc_Apply e sm);
              nmodify (with_sm sm);;
              mret result
            else mret []);
  nmodify (with_applied (e_Index e));;
  pending ← nget n_pending;
  match pending !! e_Index e with
  | None => mret tt
  | Some h =>
      nmodify (with_pending (delete (e_Index e) pending));;
      term ← nget (fun n => from_option p_term 0%N (n_props n !! h));
      if (term =? e_Term e)%N then finish h result None
      else finish h [] (Some ErrNotLeader)
  end.

(** Every pass reads at least one entry, so the number of entries left to
    apply is enough fuel. *)
Fixpoint apply_loop (fuel : nat) : NM unit :=
  n ← nget id;
  let commit := r_commit (n_r n) in
  if (commit <=? n_applied n)%N then mret tt
  else
    match fuel with
    | O => npanic
    | Datatypes.S fuel =>
        let hi := N.min commit (n_applied n + applyBatch)%N in
        entries ← nmust (ls_Entries (n_applied n + 1)%N (hi + 1)%N (r_store (n_r n)));
        nfor_each entries apply_entry;;
        apply_loop fuel
    end.

Definition take_restored : NM unit :=
  res ← raft_do TakeRestored;
  applied ← nget n_applied;
  match res with
  | Some (idx, data) =>
      if (applied <? idx)%N then
        sm ← nget n_sm;
        sm ← nmust (mc_Restore data sm);
        nmodify (with_sm sm);;
        nmodify (with_applied idx)
      else mret tt
  | None => mret tt
  end.

Definition set_read_index (i : N) (h : nat) : NM unit :=
  nmodify (fun n => with_rds (alter (fun rd => mkRead i (h_Err rd) (h_done rd)) h (n_rds n)) n);;
  nmodify (fun n => with_waiting (n_waiting n ++ [h]) n).

Definition take_ready : NM unit :=
  ready ← raft_do TakeReady;
  nfor_each ready (fun rr =>
    reads ← nget n_reads;
    nfor_each (default [] (reads !! rr_ID rr)) (set_read_index (rr_Index rr));;
    nmodify (fun n => with_reads (delete (rr_ID rr) (n_reads n)) n)).

Fixpoint settle_reads (l : list nat) : NM (list nat) :=
  match l with
  | [] => mret []
  | h :: l =>
      n ← nget id;
      if (from_option h_Index 0 (n_rds n !! h) <=? n_applied n)%N then
        finish_read h None;; settle_reads l
      else kept ← settle_reads l; mret (h :: kept)
  end.

Definition settle_waiting : NM unit :=
  waiting ← nget n_waiting;
  kept ← settle_reads waiting;
  nmodify (with_waiting kept).

(** The subtraction is unsigned. *)
Definition maybeSnapshot : NM unit :=
  n ← nget id;
  let first := ls_FirstIndex (r_store (n_r n)) in
  if (n_snapGap n =? 0)%N || (usub64 (n_applied n + 1) first <? n_snapGap n)%N then mret tt
  else
    '(sm, data) ← nmust (mc_Snapshot (n_sm n));
    nmodify (with_sm sm);;
    raft_do (t ← termAt (n_applied n);
             write (ECompact (n_applied n) t data) (ls_Compact (n_applied n) t data)).

Definition advance : NM unit :=
  st ← nget (fun n => r_state (n_r n));
  (if decide (st = Leader) then mret tt else failAll ErrNotLeader);;
  take_restored;;
  todo ← nget (fun n => N.to_nat (r_commit (n_r n) - n_applied n));
  apply_loop todo;;
  startReads;;
  take_ready;;
  settle_waiting;;
  maybeSnapshot.

(** ** Entry points *)

Definition Node_Step (m : Message) : NM unit := raft_do (Step m);; advance.
Definition Node_Tick : NM unit := raft_do Tick;; advance.
Definition Flush : NM unit := flushProposals;; advance.

(** What [Stop] does once [Run] has returned. *)
Definition Stop : NM unit := failAll ErrNotLeader.

Record Status := mkStatus {
  s_ID : NodeID;
  s_Term : N;
  s_State : State;
  s_Leader : NodeID;
  s_Commit : N;
  s_Applied : N;
  s_FirstIndex : N;
  s_LastIndex : N;
}.

Definition Node_Status (n : Node) : Status :=
  mkStatus (r_id (n_r n)) (r_term (n_r n)) (r_state (n_r n)) (r_lead (n_r n)) (r_commit (n_r n))
    (n_applied n) (ls_FirstIndex (r_store (n_r n))) (ls_LastIndex (r_store (n_r n))).

Definition NewNode (cfg : Config) (store : S) (rng : list nat) (sm : X) (snapGap : N) (maxBatch : Z) : go Node :=
  r ← New cfg store rng;
  '(snapIdx, _, data) ← ls_Snapshot store;
  '(sm, applied) ← (if (mc_LastApplied sm <? snapIdx)%N
                    then sm ← mc_Restore data sm; Ret (sm, snapIdx)
                    else Ret (sm, mc_LastApplied sm));
  let r := if (r_commit r <? applied)%N then set_commit applied r else r in
  Ret (mkNode r sm snapGap maxBatch applied [] ∅ [] ∅ [] false [] []).
End Node.

Arguments Node : clear implicits.
