(* ===== verification/Replica.v ===== *)
(** * A cluster of nodes with their state machines

    The whole of raft/node.go over raft/raft.go: every node queues proposals,
    steps its [Raft], applies what is committed to its state machine and
    settles the proposals; machines are snapshotted and restored; a node may
    crash inside any call and is opened again with what its store and its
    machine kept.  The machine is any that keeps the contract [MachineOK]. *)

From stdpp Require Import base list gmap functions relations.
From S2P Require Import Prelude LogStore Raft Protocol Safety Preserve Refine Cluster RaftCalls SnapData Node.

(** ** What a state machine promises

    [mo_holds x a]: the machine is in the abstract state [a].  A crash may
    bring back an earlier state: [mo_past x b] says that [b] is one of those,
    and [mo_survives x y] that [y] is what is opened after a crash.  A
    snapshot is a function of the abstract state. *)
Class MachineOK (X A : Type) `{Machine X} := {
  mo_init : A;
  mo_step : Entry -> A -> A * bytes;
  mo_at : A -> N;
  mo_data : A -> bytes -> Prop;
  mo_holds : X -> A -> Prop;
  mo_past : X -> A -> Prop;
  mo_survives : X -> X -> Prop;
  mo_at_init : mo_at mo_init = 0%N;
  mo_at_step e a : mo_at (mo_step e a).1 = e_Index e;
  mo_data_fun a d d' : mo_data a d -> mo_data a d' -> d = d';
  mo_Last_ok x a : mo_holds x a -> mc_LastApplied x = mo_at a;
  mo_Apply_ok e x a x' res : mo_holds x a -> mc_Apply e x = Ret (x', res) ->
    mo_holds x' (mo_step e a).1 /\ res = (mo_step e a).2 /\
    forall b, mo_past x' b -> mo_past x b \/ b = (mo_step e a).1;
  mo_Snapshot_ok x a x' d : mo_holds x a -> mc_Snapshot x = Ret (x', d) ->
    mo_holds x' a /\ mo_data a d /\ forall b, mo_past x' b -> mo_past x b;
  mo_Restore_ok d x a b x' : mo_holds x a -> mo_data b d -> mc_Restore d x = Ret x' ->
    mo_holds x' b /\ forall c, mo_past x' c -> mo_past x c \/ c = b;
  mo_survives_ok x y a : mo_holds x a -> mo_survives x y ->
    exists b, mo_past x b /\ mo_holds y b /\ forall c, mo_past y c -> mo_past x c;
}.

(** ** Playing a log *)

Section Play.
Context {X A : Type} `{HM : Machine X} `{HOK : !MachineOK X A}.

Definition play1 (a : A) (e : Entry) : A := if decide (e_Type e = EntryNormal) then (mo_step e a).1 else a.
Definition play (L : list Entry) : A := foldl play1 mo_init L.

Lemma play_snoc L e : play (L ++ [e]) = play1 (play L) e.
Proof. unfold play. by rewrite foldl_app. Qed.

Definition numbered (L : list Entry) : Prop := forall i e, L !! i = Some e -> e_Index e = (N.of_nat i + 1)%N.

(** What a machine says it has applied is enough to go on from. *)
Lemma play_at L : numbered L -> (mo_at (play L) <= len L)%N /\ play (pre (mo_at (play L)) L) = play L.
Proof.
  induction L as [|e L IH] using rev_ind; intros Hn.
  { change (play []) with mo_init. rewrite mo_at_init. split; [unfold len; simpl; lia|done]. }
  destruct IH as [H1 H2].
  { intros i e' He. apply Hn. by apply lookup_app_l_Some. }
  rewrite play_snoc. unfold play1. unfold len in *. rewrite length_app. simpl. case_decide as Ht.
  - rewrite mo_at_step, (Hn (length L) e) by (by apply list_lookup_middle). split; [lia|].
    rewrite pre_len by (unfold len; rewrite length_app; simpl; lia). rewrite play_snoc. unfold play1. by rewrite decide_True.
  - split; [lia|]. rewrite (pre_of_prefix _ L); [done|by eexists|unfold len; lia].
Qed.
End Play.

(** ** The system *)

Section Replica.
Context {S : Type} `{LS : LogStore S} `{OK : !LogStoreOK S}.
Context {X A : Type} `{HM : Machine X} `{HOK : !MachineOK X A}.
Context (peers : list NodeID).

#[local] Abbreviation node := (Node S X).
Implicit Types (nd : node) (g : ghost) (w : world).

(** A node is up, or down with its store and its machine. *)
Inductive rnode := RUp (nd : node) | RDown (s : S) (x : X).

Record replicas := mkReplicas { rc_node : NodeID -> rnode; rc_msgs : list Message }.

Inductive rop := OStep (m : Message) | OTick | OFlush.

Definition node_op (op : rop) : @NM S X unit :=
  match op with OStep m => Node_Step m | OTick => Node_Tick | OFlush => Flush end.

(** Every such call is in three parts, and only the middle one changes the
    state of the machine. *)
Definition first_part (op : rop) : @NM S X unit :=
  match op with OStep m => raft_do (Step m) | OTick => raft_do Tick | OFlush => flushProposals end.

Definition machine_part : @NM S X unit :=
  st ← nget (fun n => r_state (n_r n));
  (if decide (st = Leader) then mret tt else failAll ErrNotLeader);;
  take_restored;;
  todo ← nget (fun n => N.to_nat (r_commit (n_r n) - n_applied n));
  apply_loop todo.

(** The middle part up to a crash, once the entry at index [k] is applied. *)
Definition machine_cut (k : N) : @NM S X unit :=
  st ← nget (fun n => r_state (n_r n));
  (if decide (st = Leader) then mret tt else failAll ErrNotLeader);;
  take_restored;;
  n ← nget id;
  let hi := N.min k (r_commit (n_r n)) in
  if (hi <=? n_applied n)%N then mret tt
  else
    entries ← nmust (ls_Entries (n_applied n + 1)%N (hi + 1)%N (r_store (n_r n)));
    nfor_each entries apply_entry.

Definition last_part : @NM S X unit := startReads;; take_ready;; settle_waiting;; maybeSnapshot.

Definition with_trace (tr : list effect) nd : node := with_r (set_trace tr (n_r nd)) nd.
Definition trace_of nd : list effect := r_trace (n_r nd).

Definition op_ok (op : rop) (n : NodeID) (msgs : list Message) : Prop :=
  match op with OStep m => m ∈ msgs /\ m_To m = n | _ => True end.

(** What a crash in a part with effects leaves in the store: its first [k]
    effects, and the first [j] entries of the one being written. *)
Definition cut_store nd nd' (k j : nat) (s : S) : Prop :=
  ls_ok s /\ ls_view s = foldl (fun v e => apply_eff e v) (ls_view (r_store (n_r nd))) (survives (trace_of nd') k j).

Inductive rstep (c : replicas) : replicas -> Prop :=
  | R_op n nd op nd' :
      n ∈ peers -> rc_node c n = RUp nd -> op_ok op n (rc_msgs c) ->
      node_op op (with_trace [] nd) = (nd', Ret tt) ->
      rstep c (mkReplicas (<[n := RUp nd']> (rc_node c)) (after (trace_of nd') (rc_msgs c)))
  | R_propose n nd data :
      n ∈ peers -> rc_node c n = RUp nd ->
      rstep c (mkReplicas (<[n := RUp (Node_Propose data nd).1]> (rc_node c)) (rc_msgs c))
  | R_read n nd :
      n ∈ peers -> rc_node c n = RUp nd ->
      rstep c (mkReplicas (<[n := RUp (Node_ReadIndex nd).1]> (rc_node c)) (rc_msgs c))
  | R_wake n nd :
      n ∈ peers -> rc_node c n = RUp nd ->
      rstep c (mkReplicas (<[n := RUp (with_wake false nd)]> (rc_node c)) (rc_msgs c))
  | R_crash_first n nd op nd1 res k j s y :
      n ∈ peers -> rc_node c n = RUp nd -> op_ok op n (rc_msgs c) ->
      first_part op (with_trace [] nd) = (nd1, res) -> cut_store nd nd1 k j s -> mo_survives (n_sm nd) y ->
      rstep c (mkReplicas (<[n := RDown s y]> (rc_node c)) (after (take k (trace_of nd1)) (rc_msgs c)))
  | R_crash_machine n nd op nd1 k nd2 res s y :
      n ∈ peers -> rc_node c n = RUp nd -> op_ok op n (rc_msgs c) ->
      first_part op (with_trace [] nd) = (nd1, Ret tt) -> machine_cut k nd1 = (nd2, res) ->
      ls_ok s -> ls_view s = ls_view (r_store (n_r nd1)) -> mo_survives (n_sm nd2) y ->
      rstep c (mkReplicas (<[n := RDown s y]> (rc_node c)) (after (trace_of nd1) (rc_msgs c)))
  | R_crash_last n nd op nd1 nd2 nd3 res k j s y :
      n ∈ peers -> rc_node c n = RUp nd -> op_ok op n (rc_msgs c) ->
      first_part op (with_trace [] nd) = (nd1, Ret tt) -> machine_part nd1 = (nd2, Ret tt) ->
      last_part (with_trace [] nd2) = (nd3, res) -> cut_store nd2 nd3 k j s -> mo_survives (n_sm nd2) y ->
      rstep c (mkReplicas (<[n := RDown s y]> (rc_node c))
                (after (take k (trace_of nd3)) (after (trace_of nd1) (rc_msgs c))))
  | R_restart n cfg s y rng gap mb nd :
      n ∈ peers -> rc_node c n = RDown s y -> c_ID cfg = n -> c_Peers cfg = peers ->
      NewNode cfg s rng y gap mb = Ret nd ->
      rstep c (mkReplicas (<[n := RUp nd]> (rc_node c)) (rc_msgs c)).

(** Every node starts down, with an empty store and an empty machine. *)
Definition r_start (c : replicas) : Prop :=
  rc_msgs c = [] /\ forall n, exists s x, rc_node c n = RDown s x /\ ls_ok s /\ ls_view s = NewMemStore /\
    mo_holds x mo_init /\ forall b, mo_past x b -> b = mo_init.

Inductive rreach : replicas -> Prop :=
  | rreach_start c : r_start c -> rreach c
  | rreach_step c c' : rreach c -> rstep c c' -> rreach c'.

Lemma node_op_parts op nd : node_op op nd = (first_part op;; machine_part;; last_part) nd.
Proof.
  assert (forall (B C D : Type) (m : @NM S X B) (f : B -> @NM S X C) (h : C -> @NM S X D) nd0,
    ((m ≫= f) ≫= h) nd0 = (m ≫= (fun x => f x ≫= h)) nd0) as Hassoc.
  { intros B C D m f h nd0. unfold mbind, NM_bind. by destruct (m nd0) as [nd1 [x|e|]]. }
  assert (forall nd0, advance nd0 = (machine_part;; last_part) nd0) as Hadv.
  { intros nd0. unfold machine_part, last_part. rewrite Hassoc. unfold advance, mbind, NM_bind, nget.
    destruct (if decide (r_state (n_r nd0) = Leader) then _ else _) as [nd1 [x|e|]]; try done.
    by destruct (take_restored nd1) as [nd2 [y|e|]]. }
  destruct op; simpl; unfold Node_Step, Node_Tick, Flush, mbind, NM_bind.
  - destruct (raft_do (Step m) nd) as [nd1 [x|e|]]; [apply Hadv|done..].
  - destruct (raft_do Tick nd) as [nd1 [x|e|]]; [apply Hadv|done..].
  - destruct (flushProposals nd) as [nd1 [x|e|]]; [apply Hadv|done..].
Qed.

(** ** Committed logs *)

(** [L] is the committed log up to index [i]. *)
Definition com g (i : N) (L : list Entry) : Prop := len L = i /\ exists T, cpre peers g T i L.

(** [d] is the snapshot at index [i]. *)
Definition good g (i : N) (d : bytes) : Prop := exists L, com g i L /\ mo_data (play L) d.

Context (Hnodup : NoDup peers) (Hzero : 0%N ∉ peers).

Lemma com_gle g g' i L : gle g g' -> com g i L -> com g' i L.
Proof. intros Hle [Hl [T HT]]. split; [done|]. exists T. by eapply gle_cpre. Qed.

Lemma good_gle g g' i d : gle g g' -> good g i d -> good g' i d.
Proof. intros Hle (L & HL & Hd). exists L. split; [by eapply com_gle|done]. Qed.

Lemma com_nil g : com g 0 [].
Proof. split; [done|]. exists 0%N. split; [unfold len; simpl; lia|by left]. Qed.

Lemma com_pre g i j L : com g i L -> (j <= i)%N -> com g j (pre j L).
Proof.
  intros [Hl [T HT]] Hj. split; [rewrite len_pre; lia|]. exists T.
  pose proof (cpre_le peers g T _ _ _ HT Hj) as [H1 H2]. split; [rewrite len_pre; lia|].
  destruct H2 as [|(Tc & ? & ? & Hp)]; [by left|right]. exists Tc. rewrite pre_pre by lia. done.
Qed.

Lemma com_agree g w i j L L' : inv peers g w -> com g i L -> com g j L' -> (i <= j)%N -> L = pre i L'.
Proof.
  intros Hinv [Hl [T HT]] [Hl' [T' HT']] Hij.
  pose proof (cpre_agree peers Hnodup g w _ _ _ _ _ Hinv HT (cpre_le peers g _ _ _ _ HT' Hij)) as Heq.
  rewrite <-Heq. symmetry. apply pre_len. lia.
Qed.

Lemma com_fun g w i L L' : inv peers g w -> com g i L -> com g i L' -> L = L'.
Proof.
  intros Hinv H1 H2. rewrite (com_agree g w i i L L' Hinv H1 H2) by lia. apply pre_len. destruct H2. lia.
Qed.

Lemma good_fun g w i d d' : inv peers g w -> good g i d -> good g i d' -> d = d'.
Proof.
  intros Hinv (L & HL & Hd) (L' & HL' & Hd'). rewrite (com_fun g w i L L' Hinv HL HL') in Hd. by eapply mo_data_fun.
Qed.

Lemma com_numbered g w i L : inv peers g w -> com g i L -> numbered L.
Proof.
  intros Hinv [Hl [T [_ [->|(Tc & _ & _ & Hp)]]]] k e He.
  - unfold len in Hl. destruct L; [done|simpl in Hl; lia].
  - rewrite pre_len in Hp by lia. rewrite Hp in He. unfold pre in He. apply lookup_take_Some in He as [He _].
    by apply (gh_index _ _ (i_ghost _ _ _ Hinv) Tc).
Qed.

Lemma com_node g w n i : inv peers g w -> (i <= a_cmax (w_node w n))%N -> com g i (pre i (g_G g n)).
Proof.
  intros Hinv Hi. pose proof (n_cpre _ _ _ _ _ _ (n_base _ _ _ _ (i_node _ _ _ Hinv n))) as Hc.
  pose proof (cpre_le peers g _ _ _ _ Hc Hi) as [H1 H2]. split; [by apply len_pre|]. eexists. split; [by rewrite len_pre|].
  rewrite pre_pre by lia. exact H2.
Qed.
End Replica.
