(* ===== verification/ReplicaInv.v ===== *)
(** * What every node of a cluster keeps

    The invariant of a node and its machine, relative to a state of the
    protocol and its history, and a program logic for the calls of a node: a
    call is a run of protocol steps, cut into segments whose effects carry
    snapshots that were right when the segment began. *)

From stdpp Require Import base list gmap functions relations.
From S2P Require Import Prelude LogStore Raft Protocol Safety Preserve Refine Cluster RaftCalls SnapData Node Replica.

Section Inv.
Context {S : Type} `{LS : LogStore S} `{OK : !LogStoreOK S}.
Context {X A : Type} `{HM : Machine X} `{HOK : !MachineOK X A}.
Context (peers : list NodeID) (Hnodup : NoDup peers) (Hzero : 0%N ∉ peers).

#[local] Abbreviation node := (Node S X).
#[local] Abbreviation inv := (inv peers).
#[local] Abbreviation com := (com peers).
#[local] Abbreviation good := (good peers).
Implicit Types (nd : node) (g : ghost) (w : world).

(** ** Moves of one node *)

Definition moved (n : NodeID) w (tr : list effect) w' : Prop :=
  asteps peers n (w_msgs w) (w_node w n) tr (w_node w' n) /\ w_msgs w' = after tr (w_msgs w) /\
  (forall n', n' <> n -> w_node w' n' = w_node w n') /\ rtc (wstep peers) w w'.

Lemma asteps_moved g w n tr a1 :
  inv g w -> n ∈ peers -> asteps peers n (w_msgs w) (w_node w n) tr a1 ->
  exists w' g', moved n w tr w' /\ w_node w' n = a1 /\ gle g g' /\ inv g' w'.
Proof.
  intros Hinv Hn Hst. destruct (asteps_wsteps peers Hzero n _ _ _ _ w Hn Hst eq_refl eq_refl) as (w' & Hs & Hm & Hw & Ho).
  destruct (steps_inv peers Hnodup g w w' Hinv Hs) as (g' & Hle & Hinv'). exists w', g'. split; [|done].
  split_and!; [by rewrite Hw|done..].
Qed.

Inductive runs (n : NodeID) : world -> ghost -> list effect -> world -> ghost -> Prop :=
  | runs_nil w g : runs n w g [] w g
  | runs_seg w g tr1 w1 g1 tr2 w2 g2 :
      moved n w tr1 w1 -> gle g g1 -> inv g1 w1 -> Forall (eff_ok (good g)) tr1 ->
      runs n w1 g1 tr2 w2 g2 -> runs n w g (tr1 ++ tr2) w2 g2.

Lemma runs_one n w g tr w1 g1 :
  moved n w tr w1 -> gle g g1 -> inv g1 w1 -> Forall (eff_ok (good g)) tr -> runs n w g tr w1 g1.
Proof. intros. rewrite <-(app_nil_r tr). eapply runs_seg; eauto. constructor. Qed.

Lemma runs_trans n w g tr1 w1 g1 tr2 w2 g2 :
  runs n w g tr1 w1 g1 -> runs n w1 g1 tr2 w2 g2 -> runs n w g (tr1 ++ tr2) w2 g2.
Proof.
  intros H1 H2. induction H1; [done|]. rewrite <-app_assoc. eapply runs_seg; eauto.
Qed.

Lemma runs_gle n w g tr w' g' : runs n w g tr w' g' -> gle g g'.
Proof. induction 1; [apply gle_refl|]. by eapply gle_trans. Qed.

Lemma runs_keep n w g tr w' g' : runs n w g tr w' g' -> inv g w -> inv g' w'.
Proof. induction 1; auto. Qed.

Lemma runs_moved n w g tr w' g' : runs n w g tr w' g' -> moved n w tr w'.
Proof.
  induction 1 as [|w g tr1 w1 g1 tr2 w2 g2 (H1 & H2 & H3 & H7) _ _ _ _ (H4 & H5 & H6 & H8)]; [split_and!; [constructor|done..|constructor]|].
  split_and!.
  - eapply asteps_trans; [exact H1|]. by rewrite <-H2.
  - by rewrite H5, H2, after_app.
  - intros n' Hn. by rewrite H6, H3.
  - by etrans.
Qed.

Lemma effs_gle g g' tr : gle g g' -> Forall (eff_ok (good g)) tr -> Forall (eff_ok (good g')) tr.
Proof. intros Hle Ht. eapply Forall_impl; [exact Ht|]. intros e. apply eff_ok_mono. intros i d. by apply good_gle. Qed.

Lemma runs_effs n w g tr w' g' : runs n w g tr w' g' -> Forall (eff_ok (good g')) tr.
Proof.
  induction 1 as [|w g tr1 w1 g1 tr2 w2 g2 _ Hle _ Ht Hr IH]; [constructor|]. apply Forall_app. split; [|done].
  eapply effs_gle; [|exact Ht]. eapply gle_trans; [exact Hle|]. by eapply runs_gle.
Qed.

(** ** The invariant of a node *)

(** A state that some log committed at node [n] gives. *)
Definition played n w g (b : A) : Prop :=
  exists L, com g (len L) L /\ (len L <= a_cmax (w_node w n))%N /\ b = play L.

(** So are all states of a machine that a crash may bring back. *)
Definition past_ok n w g (x : X) : Prop := forall b, mo_past x b -> played n w g b.

(** A pending proposal is in the log of the leader that took it. *)
Definition pending_ok g nd : Prop :=
  forall i h, n_pending nd !! i = Some h -> exists p e,
    n_props nd !! h = Some p /\ p_Index p = i /\ (0 < i)%N /\
    g_ll g (p_term p) !! N.to_nat (i - 1) = Some e /\ e_Data e = p_data p /\ e_Type e = EntryNormal.

(** An acknowledged proposal is committed, and its result is what the log
    before it gives. *)
Definition acked g (p : Proposal) : Prop :=
  exists L e, com g (p_Index p) (L ++ [e]) /\ e_Data e = p_data p /\ e_Type e = EntryNormal /\
    p_Result p = (mo_step e (play L)).2.

Definition props_ok g nd : Prop := forall p, p ∈ n_props nd -> p_done p = true -> p_Err p = None ->
  acked g p /\ (p_Index p <= n_applied nd)%N.

(** A queued proposal has not been taken, and not been acknowledged. *)
Definition untaken nd (h : nat) : Prop :=
  (exists p, n_props nd !! h = Some p /\ (p_done p = true -> p_Err p <> None)) /\ forall i, n_pending nd !! i <> Some h.

Definition queue_ok nd : Prop := NoDup (n_queue nd) /\ forall h, h ∈ n_queue nd -> untaken nd h.

Definition chunks_ok g w : Prop := forall m, m ∈ w_msgs w -> chunk_ok (good g) m.

Record NI (n : NodeID) w g nd : Prop := {
  ni_inv : inv g w;
  ni_msgs : chunks_ok g w;
  ni_sim : sim peers n (w_msgs w) (n_r nd) (w_node w n);
  ni_data : K (good g) 0 (n_r nd);
  ni_applied : (n_applied nd <= r_commit (n_r nd))%N;
  ni_mach : exists L, com g (n_applied nd) L /\ mo_holds (n_sm nd) (play L);
  ni_past : past_ok n w g (n_sm nd);
  ni_pending : pending_ok g nd;
  ni_props : props_ok g nd;
  ni_queue : queue_ok nd;
}.

Lemma NI_ext n w g nd nd' :
  n_r nd' = n_r nd -> n_sm nd' = n_sm nd -> n_applied nd' = n_applied nd -> n_pending nd' = n_pending nd ->
  n_props nd' = n_props nd -> n_queue nd' = n_queue nd -> NI n w g nd -> NI n w g nd'.
Proof.
  intros H1 H2 H3 H4 H5 H6 []. constructor; unfold pending_ok, props_ok, queue_ok, untaken in *; rewrite ?H1, ?H2, ?H3, ?H4, ?H5, ?H6; done.
Qed.

(** ** Machines of nodes that are down *)

Definition settled_at n w g (x : X) : Prop := (exists b, mo_holds x b /\ played n w g b) /\ past_ok n w g x.

Lemma played_later n w g w' g' b :
  played n w g b -> gle g g' -> (a_cmax (w_node w n) <= a_cmax (w_node w' n))%N -> played n w' g' b.
Proof. intros (L & H1 & H2 & H3) Hle Hc. exists L. split_and!; [by eapply com_gle|lia|done]. Qed.

Lemma past_later n w g w' g' x :
  past_ok n w g x -> gle g g' -> (a_cmax (w_node w n) <= a_cmax (w_node w' n))%N -> past_ok n w' g' x.
Proof. intros Hp Hle Hc b Hb. eapply played_later; eauto. Qed.

Lemma settled_later n w g w' g' x :
  settled_at n w g x -> gle g g' -> (a_cmax (w_node w n) <= a_cmax (w_node w' n))%N -> settled_at n w' g' x.
Proof. intros [(b & H1 & H2) H3] Hle Hc. split; [|by eapply past_later]. exists b. split; [done|]. by eapply played_later. Qed.

Lemma applied_cmax n w g nd : NI n w g nd -> (n_applied nd <= a_cmax (w_node w n))%N.
Proof.
  intros []. pose proof (n_commit _ _ _ _ _ _ (n_base _ _ _ _ (i_node _ _ _ ni_inv0 n))).
  rewrite (sim_commit _ _ _ _ _ _ ni_sim0) in ni_applied0. lia.
Qed.

Lemma NI_settled n w g nd : NI n w g nd -> settled_at n w g (n_sm nd).
Proof.
  intros HN. split; [|apply HN]. destruct (ni_mach _ _ _ _ HN) as (L & HL & Hm). exists (play L). split; [done|].
  exists L. pose proof (applied_cmax _ _ _ _ HN) as Hc. pose proof HL as [Hl _]. rewrite Hl. done.
Qed.

(** A crash leaves a state of the machine that some committed log gives. *)
Lemma settled_survives n w g x y : settled_at n w g x -> mo_survives x y -> settled_at n w g y.
Proof.
  intros [(a & Ha & _) Hp] Hs. destruct (mo_survives_ok x y _ Ha Hs) as (b & Hb & Hy & Hpy).
  split; [exists b; auto|]. intros c Hc. auto.
Qed.

(** ** Calls *)

Definition mwp {B} n (m : @NM S X B) (Q : B -> world -> ghost -> node -> Prop) w g nd : Prop :=
  exists tr w' g', trace_of (m nd).1 = trace_of nd ++ tr /\ runs n w g tr w' g' /\
    match (m nd).2 with Ret x => Q x w' g' (m nd).1 | _ => True end.

Lemma mwp_ret {B} n (x : B) (Q : B -> _ -> _ -> _ -> Prop) w g nd : Q x w g nd -> mwp n (mret x) Q w g nd.
Proof. intros HQ. exists [], w, g. rewrite app_nil_r. split_and!; [done|constructor|done]. Qed.

Lemma mwp_bind {B C} n (m : @NM S X B) (f : B -> @NM S X C) Q w g nd :
  mwp n m (fun x => mwp n (f x) Q) w g nd -> mwp n (m ≫= f) Q w g nd.
Proof.
  intros (tr & w1 & g1 & Htr & Hr & HQ). unfold mwp, mbind, NM_bind. destruct (m nd) as [nd1 res]. simpl in *.
  destruct res as [x|e|]; [|by exists tr, w1, g1..]. destruct HQ as (tr2 & w2 & g2 & Htr2 & Hr2 & HQ2).
  exists (tr ++ tr2), w2, g2. rewrite app_assoc, <-Htr. split_and!; [done|by eapply runs_trans|done].
Qed.

Lemma mwp_mono {B} n (m : @NM S X B) (Q Q' : B -> _ -> _ -> _ -> Prop) w g nd :
  mwp n m Q w g nd -> (forall x w' g' nd', Q x w' g' nd' -> Q' x w' g' nd') -> mwp n m Q' w g nd.
Proof.
  intros (tr & w1 & g1 & Htr & Hr & HQ) Hi. exists tr, w1, g1. split_and!; [done|done|]. destruct (m nd).2; auto.
Qed.

Lemma mwp_get {B} n (f : node -> B) (Q : B -> _ -> _ -> _ -> Prop) w g nd : Q (f nd) w g nd -> mwp n (nget f) Q w g nd.
Proof. intros HQ. exists [], w, g. rewrite app_nil_r. split_and!; [done|constructor|done]. Qed.

Lemma mwp_modify n f (Q : unit -> _ -> _ -> _ -> Prop) w g nd :
  n_r (f nd) = n_r nd -> Q tt w g (f nd) -> mwp n (nmodify f) Q w g nd.
Proof.
  intros Hr HQ. exists [], w, g. rewrite app_nil_r. split_and!; [|constructor|done]. unfold trace_of. simpl. by rewrite Hr.
Qed.

Lemma mwp_panic {B} n (Q : B -> _ -> _ -> _ -> Prop) w g nd : mwp n npanic Q w g nd.
Proof. exists [], w, g. rewrite app_nil_r. split_and!; [done|constructor|done]. Qed.

Lemma mwp_must {B} n (x : go B) (Q : B -> _ -> _ -> _ -> Prop) w g nd :
  (forall a, x = Ret a -> Q a w g nd) -> mwp n (nmust x) Q w g nd.
Proof.
  intros HQ. exists [], w, g. rewrite app_nil_r. split_and!; [done|constructor|]. destruct x; simpl; auto.
Qed.

Lemma mwp_for_each {B} n (l : list B) (f : B -> @NM S X unit) (I : world -> ghost -> node -> Prop) w g nd :
  I w g nd -> (forall x w g nd, x ∈ l -> I w g nd -> mwp n (f x) (fun _ => I) w g nd) ->
  mwp n (nfor_each l f) (fun _ => I) w g nd.
Proof.
  intros HI Hf. revert w g nd HI. induction l as [|y ys IH]; intros w g nd HI; simpl; [by apply mwp_ret|].
  apply mwp_bind. eapply mwp_mono; [apply Hf; [by left|done]|]. intros ? w' g' nd' HI'. apply IH; [|done].
  intros z w2 g2 nd2 Hz. apply Hf. by right.
Qed.

(** ** Calls of the [Raft] *)

Lemma pending_gle g g' nd : gle g g' -> pending_ok g nd -> pending_ok g' nd.
Proof.
  intros Hle Hp i h Hih. destruct (Hp i h Hih) as (p & e & ? & ? & ? & He & ? & ?). exists p, e. split_and!; try done.
  eapply prefix_lookup_Some; [exact He|apply Hle].
Qed.

Lemma props_gle g g' nd : gle g g' -> props_ok g nd -> props_ok g' nd.
Proof.
  intros Hle Hp p H1 H2 H3. destruct (Hp p H1 H2 H3) as [(L & e & HL & ?) ?]. split; [|done]. exists L, e. split; [by eapply com_gle|done].
Qed.

Lemma after_elem tr Ms m : m ∈ after tr Ms <-> m ∈ Ms \/ ESend m ∈ tr.
Proof.
  assert (forall e, m ∈ sent (Some e) <-> ESend m = e) as Hs.
  { intros [m'| | |]; simpl; [rewrite list_elem_of_singleton; split; congruence|split; [intros []%not_elem_of_nil|done]..]. }
  revert Ms. induction tr as [|e tr IH]; intros Ms; cbn [after]; [split; [by left|intros [|[]%not_elem_of_nil]; done]|].
  rewrite IH, elem_of_app, elem_of_cons, Hs. tauto.
Qed.

Lemma chunks_moved n w g tr w' g' :
  moved n w tr w' -> gle g g' -> Forall (eff_ok (good g)) tr -> chunks_ok g w -> chunks_ok g' w'.
Proof.
  intros (_ & Hm & _) Hle Ht Hc m. rewrite Hm, after_elem. intros Hin. apply (chunk_ok_mono (good g)); [intros; by eapply good_gle|].
  destruct Hin as [|Hin]; [by apply Hc|]. rewrite Forall_forall in Ht. apply (Ht _ Hin).
Qed.

(** A call that implements the protocol and keeps the snapshots is a segment,
    and keeps the node. *)
Lemma mwp_raft {B} n (m : @M S B) w g nd :
  NI n w g nd -> n ∈ peers ->
  wp peers n m (fun _ => sim peers n) (sim peers n) (w_msgs w) (n_r nd) (w_node w n) ->
  twp (good g) (r_commit (n_r nd)) m (fun _ => K (good g) (r_commit (n_r nd))) (n_r nd) ->
  let r' := (m (n_r nd)).1 in
  exists tr w' g', r_trace r' = r_trace (n_r nd) ++ tr /\ runs n w g tr w' g' /\
    ((m (n_r nd)).2 <> Panic -> NI n w' g' (with_r r' nd)).
Proof.
  intros HN Hn (tr & a' & Htr & Hst & Hsim) Hd r'. destruct HN as [Hinv Hms Hs HK Hap Hma Hpa Hpe Hpr Hqu].
  destruct (asteps_moved g w n tr a' Hinv Hn Hst) as (w' & g' & Hmv & Hw' & Hle & Hinv').
  unfold twp in Hd. fold r' in Hd, Htr, Hsim.
  assert (Forall (eff_ok (good g)) tr) as Het.
  { assert (Forall (eff_ok (good g)) (r_trace r')) as Heffs by (destruct (m (n_r nd)).2; [apply Hd|apply Hd|done]).
    rewrite Htr in Heffs. by apply Forall_app in Heffs as [_ ?]. }
  exists tr, w', g'. split_and!; [done|by apply runs_one|]. intros Hres.
  assert (K (good g) (r_commit (n_r nd)) r') as HK' by (by destruct (m (n_r nd)).2).
  assert (sim peers n (after tr (w_msgs w)) r' a') as Hs' by (by destruct (m (n_r nd)).2).
  pose proof (asteps_cmax peers _ _ _ _ _ Hst) as Hc. rewrite <-Hw' in Hc. pose proof Hmv as (_ & Hmsgs & _).
  constructor; try done.
  - by eapply chunks_moved.
  - simpl. rewrite Hmsgs, Hw'. done.
  - simpl. eapply K_mono; [|lia|exact HK']. intros; by eapply good_gle.
  - simpl. pose proof (k_commit _ _ _ HK'). lia.
  - simpl. destruct Hma as (L & HL & HhL). exists L. split; [by eapply com_gle|done].
  - by eapply past_later.
  - by eapply (pending_gle g).
  - by eapply (props_gle g).
Qed.

Lemma mwp_raft_do {B} n (m : @M S B) (Q : B -> _ -> _ -> _ -> Prop) w g nd :
  NI n w g nd -> n ∈ peers ->
  wp peers n m (fun _ => sim peers n) (sim peers n) (w_msgs w) (n_r nd) (w_node w n) ->
  twp (good g) (r_commit (n_r nd)) m (fun _ => K (good g) (r_commit (n_r nd))) (n_r nd) ->
  (forall x w' g' r', m (n_r nd) = (r', Ret x) -> NI n w' g' (with_r r' nd) -> Q x w' g' (with_r r' nd)) ->
  mwp n (raft_do m) Q w g nd.
Proof.
  intros HN Hn Hwp Ht HQ. destruct (mwp_raft n m w g nd HN Hn Hwp Ht) as (tr & w' & g' & Htr & Hr & Hres).
  exists tr, w', g'. unfold raft_do, trace_of in *. destruct (m (n_r nd)) as [r' res]. simpl in *.
  split_and!; [done|done|]. destruct res; [|done..]. by apply HQ; [|apply Hres].
Qed.

Lemma mwp_raft_call {B} n (m : @M S B) (Q : B + error -> _ -> _ -> _ -> Prop) w g nd :
  NI n w g nd -> n ∈ peers ->
  wp peers n m (fun _ => sim peers n) (sim peers n) (w_msgs w) (n_r nd) (w_node w n) ->
  twp (good g) (r_commit (n_r nd)) m (fun _ => K (good g) (r_commit (n_r nd))) (n_r nd) ->
  (forall x w' g' r', m (n_r nd) = (r', Ret x) -> NI n w' g' (with_r r' nd) -> Q (inl x) w' g' (with_r r' nd)) ->
  (forall e w' g' r', m (n_r nd) = (r', Fail e) -> NI n w' g' (with_r r' nd) -> Q (inr e) w' g' (with_r r' nd)) ->
  mwp n (raft_call m) Q w g nd.
Proof.
  intros HN Hn Hwp Ht HQ HE. destruct (mwp_raft n m w g nd HN Hn Hwp Ht) as (tr & w' & g' & Htr & Hr & Hres).
  exists tr, w', g'. unfold raft_call, trace_of in *. destruct (m (n_r nd)) as [r' res]. simpl in *.
  split_and!; [done|done|]. destruct res; [by apply HQ; [|apply Hres]|by apply HE; [|apply Hres]|done].
Qed.
End Inv.
