(* ===== verification/ReplicaOps.v ===== *)
(** * The operations of a node keep its invariant *)

From stdpp Require Import base list gmap functions relations.
From S2P Require Import Prelude LogStore Raft Protocol Safety Preserve Refine Cluster RaftCalls SnapData Node Replica ReplicaInv.

Section Ops.
Context {S : Type} `{LS : LogStore S} `{OK : !LogStoreOK S}.
Context {X A : Type} `{HM : Machine X} `{HOK : !MachineOK X A}.
Context (peers : list NodeID) (Hnodup : NoDup peers) (Hzero : 0%N ∉ peers).
Context (n : NodeID) (Hn : n ∈ peers).

#[local] Abbreviation node := (Node S X).
#[local] Abbreviation inv := (inv peers).
#[local] Abbreviation com := (com peers).
#[local] Abbreviation good := (good peers).
#[local] Abbreviation NI := (NI peers n).
#[local] Abbreviation mwp m := (mwp peers n m).
Implicit Types (nd : node) (g : ghost) (w : world).

(** ** A logic for what does not move the protocol

    Wherever such a call stops, the machine is at a committed index. *)

Section Local.
Context (w : world) (g : ghost).

Definition pwp {B} (m : @NM S X B) (Q : B -> node -> Prop) nd : Prop :=
  trace_of (m nd).1 = trace_of nd /\
  match (m nd).2 with Ret x => Q x (m nd).1 | _ => settled_at peers n w g (n_sm (m nd).1) end.

Lemma pwp_ret {B} (x : B) (Q : B -> node -> Prop) nd : Q x nd -> pwp (mret x) Q nd.
Proof. done. Qed.

Lemma pwp_bind {B C} (m : @NM S X B) (f : B -> @NM S X C) Q nd :
  pwp m (fun x => pwp (f x) Q) nd -> pwp (m ≫= f) Q nd.
Proof.
  unfold pwp, mbind, NM_bind. destruct (m nd) as [nd1 [x|e|]]; simpl; [|done..]. intros [H1 [H2 H3]].
  split; [by rewrite H2|done].
Qed.

Lemma pwp_mono {B} (m : @NM S X B) (Q Q' : B -> node -> Prop) nd :
  pwp m Q nd -> (forall x nd', Q x nd' -> Q' x nd') -> pwp m Q' nd.
Proof. unfold pwp. intros [? HQ] Hi. split; [done|]. destruct (m nd).2; auto. Qed.

Lemma pwp_eq {B} (m : @NM S X B) (Q : B -> node -> Prop) nd nd' x :
  m nd = (nd', Ret x) -> trace_of nd' = trace_of nd -> Q x nd' -> pwp m Q nd.
Proof. unfold pwp. by intros ->. Qed.

Lemma pwp_get {B} (f : node -> B) (Q : B -> node -> Prop) nd : Q (f nd) nd -> pwp (nget f) Q nd.
Proof. done. Qed.

Lemma pwp_modify f (Q : unit -> node -> Prop) nd : n_r (f nd) = n_r nd -> Q tt (f nd) -> pwp (nmodify f) Q nd.
Proof. intros Hr HQ. split; [|done]. unfold trace_of. simpl. by rewrite Hr. Qed.

Lemma pwp_panic {B} (Q : B -> node -> Prop) nd : NI w g nd -> pwp npanic Q nd.
Proof. intros HN. split; [done|]. by eapply NI_settled. Qed.

Lemma pwp_must {B} (x : go B) (Q : B -> node -> Prop) nd :
  NI w g nd -> (forall a, x = Ret a -> Q a nd) -> pwp (nmust x) Q nd.
Proof. intros HN HQ. split; [done|]. destruct x; simpl; [auto|by eapply NI_settled..]. Qed.

Lemma pwp_for_each {B} (l : list B) (f : B -> @NM S X unit) (I : node -> Prop) nd :
  I nd -> (forall x nd, x ∈ l -> I nd -> pwp (f x) (fun _ => I) nd) -> pwp (nfor_each l f) (fun _ => I) nd.
Proof.
  intros HI Hf. revert nd HI. induction l as [|y ys IH]; intros nd HI; simpl; [done|].
  apply pwp_bind. eapply pwp_mono; [apply Hf; [by left|done]|]. intros ? nd' HI'. apply IH; [|done].
  intros z nd2 Hz. apply Hf. by right.
Qed.

Lemma pwp_mwp {B} (m : @NM S X B) (Q : B -> _ -> _ -> node -> Prop) nd :
  pwp m (fun x => Q x w g) nd -> mwp m Q w g nd.
Proof.
  intros [Ht HQ]. exists [], w, g. rewrite app_nil_r. split_and!; [done|constructor|]. by destruct (m nd).2.
Qed.

(** ** Handles *)

Definition settle_with (result : bytes) (err : option error) (p : Proposal) : Proposal :=
  mkProposal (p_data p) (p_term p) (p_Index p) result err true.

Lemma NI_finish nd h p result err :
  NI w g nd -> n_props nd !! h = Some p ->
  (err = None -> acked peers g (settle_with result None p) /\ (p_Index p <= n_applied nd)%N /\ h ∉ n_queue nd) ->
  NI w g (with_props (<[h := settle_with result err p]> (n_props nd)) nd).
Proof.
  intros [] Hp Ha. constructor; try done.
  - intros i h' Hih. destruct (ni_pending i h' Hih) as (q & e & Hq & Hi & ? & Hll & ? & ?). simpl.
    destruct (decide (h' = h)) as [->|Hne].
    + exists (settle_with result err p), e. rewrite list_lookup_insert_eq by (by eapply lookup_lt_Some). simpl.
      assert (q = p) as -> by congruence. by split_and!.
    + exists q, e. rewrite list_lookup_insert_ne by done. by split_and!.
  - intros q Hq Hd He. simpl in Hq. apply list_elem_of_lookup_1 in Hq as [h' Hh']. destruct (decide (h' = h)) as [->|Hne].
    + rewrite list_lookup_insert_eq in Hh' by (by eapply lookup_lt_Some). injection Hh' as <-. simpl in He. subst err. by destruct (Ha eq_refl) as (? & ? & _).
    + rewrite list_lookup_insert_ne in Hh' by done. apply ni_props; [by eapply list_elem_of_lookup_2|done|done].
  - destruct ni_queue as [H1 H2]. split; [done|]. intros h' Hh'. destruct (H2 h' Hh') as [(q & Hq & Hqd) Hnp]. split; [|done].
    simpl. destruct (decide (h' = h)) as [->|Hne]; [|exists q; by rewrite list_lookup_insert_ne].
    exists (settle_with result err p). rewrite list_lookup_insert_eq by (by eapply lookup_lt_Some). split; [done|].
    intros _ He. simpl in He. by destruct (Ha He) as (_ & _ & ?).
Qed.

Lemma pwp_finish nd h result err (Q : unit -> node -> Prop) :
  NI w g nd ->
  (forall p, n_props nd !! h = Some p -> Q tt (with_props (<[h := settle_with result err p]> (n_props nd)) nd)) ->
  pwp (finish h result err) Q nd.
Proof.
  intros HN HQ. unfold finish. apply pwp_bind, pwp_get. destruct (n_props nd !! h) as [p|] eqn:Hp; [|by apply pwp_panic].
  destruct (p_done p); [by apply pwp_panic|]. apply pwp_modify; [done|]. by apply HQ.
Qed.

(** Failing a proposal. *)
Lemma pwp_fail nd h err : NI w g nd -> pwp (finish h [] (Some err)) (fun _ => NI w g) nd.
Proof. intros HN. apply pwp_finish; [done|]. intros p Hp. by apply NI_finish. Qed.

Lemma pwp_finish_read nd h err (Q : unit -> node -> Prop) :
  NI w g nd -> (forall rds, Q tt (with_rds rds nd)) -> pwp (finish_read h err) Q nd.
Proof.
  intros HN HQ. unfold finish_read. apply pwp_bind, pwp_get. destruct (n_rds nd !! h) as [rd|]; [|by apply pwp_panic].
  destruct (h_done rd); [by apply pwp_panic|]. by apply pwp_modify.
Qed.

Lemma NI_queue q nd : NI w g nd -> q `sublist_of` n_queue nd -> NI w g (with_queue q nd).
Proof.
  intros [] Hq. constructor; try done. destruct ni_queue as [H1 H2]. split; [by eapply sublist_NoDup|].
  intros h Hh. apply H2. by eapply elem_of_submseteq, sublist_submseteq.
Qed.

Lemma NI_unpend i nd : NI w g nd -> NI w g (with_pending (delete i (n_pending nd)) nd).
Proof.
  intros []. constructor; try done.
  - intros i' h. simpl. rewrite lookup_delete_Some. intros [_ Hh]. by apply ni_pending.
  - destruct ni_queue as [H1 H2]. split; [done|]. intros h Hh. destruct (H2 h Hh) as [H3 H4]. split; [done|].
    intros i'. simpl. rewrite lookup_delete_Some. intros [_ ?]. by eapply H4.
Qed.

(** Settling handles does not apply anything. *)
Definition stays (ap : N) nd : Prop := NI w g nd /\ n_applied nd = ap.

Lemma stays_fail ap nd h err : stays ap nd -> pwp (finish h [] (Some err)) (fun _ => stays ap) nd.
Proof. intros [HN Ha]. apply pwp_finish; [done|]. intros p Hp. split; [by apply NI_finish|done]. Qed.

Lemma stays_read ap nd h err : stays ap nd -> pwp (finish_read h err) (fun _ => stays ap) nd.
Proof. intros [HN Ha]. apply pwp_finish_read; [done|]. intros rds. split; [by eapply NI_ext; [..|exact HN]|done]. Qed.

Lemma failAll_ok ap err nd : stays ap nd -> pwp (failAll err) (fun _ => stays ap) nd.
Proof.
  intros HN. unfold failAll. apply pwp_bind, pwp_get, pwp_bind.
  eapply pwp_mono; [apply (pwp_for_each _ _ (stays ap)); [done|intros; by apply stays_fail]|]. intros ? nd1 [H1 A1]. cbv beta.
  apply pwp_bind, pwp_modify; [done|]. apply pwp_bind, pwp_get.
  apply pwp_bind. eapply pwp_mono; [apply (pwp_for_each _ _ (stays ap))|].
  - split; [|done]. apply NI_queue; [done|apply sublist_nil_l].
  - intros ih nd2 _ [H2 A2]. apply pwp_bind, pwp_modify; [done|]. apply stays_fail. split; [by apply NI_unpend|done].
  - intros ? nd2 H2. cbv beta. apply pwp_bind, pwp_get, pwp_bind.
    eapply pwp_mono; [apply (pwp_for_each _ _ (stays ap)); [done|intros; by apply stays_read]|]. intros ? nd3 [H3 A3]. cbv beta.
    apply pwp_bind, pwp_modify; [done|]. apply pwp_bind, pwp_get, (pwp_for_each _ _ (stays ap)).
    + split; [by eapply NI_ext; [..|exact H3]|done].
    + intros ih nd4 _ [H4 A4]. apply pwp_bind, pwp_modify; [done|].
      apply (pwp_for_each _ _ (stays ap)); [split; [by eapply NI_ext; [..|exact H4]|done]|]. intros. by apply stays_read.
Qed.

(** ** The machine *)

Lemma play_played L : com g (len L) L -> (len L <= a_cmax (w_node w n))%N -> played peers n w g (play L).
Proof. intros H1 H2. by exists L. Qed.

(** Restoring the snapshot the [Raft] has installed. *)
Lemma take_restored_ok nd : NI w g nd -> pwp take_restored (fun _ nd' => NI w g nd' /\ (n_applied nd <= n_applied nd')%N) nd.
Proof.
  intros HN. unfold take_restored.
  assert (raft_do TakeRestored nd = match r_restored (n_r nd) with
    | Some x => (with_r (set_restored None (n_r nd)) nd, Ret (Some (x_index x, x_data x)))
    | None => (with_r (n_r nd) nd, Ret None) end) as Heq.
  { unfold raft_do, TakeRestored, mbind, M_bind, get. by destruct (r_restored (n_r nd)). }
  destruct (r_restored (n_r nd)) as [x|] eqn:Er.
  2: { apply pwp_bind. eapply pwp_eq; [exact Heq|done|]. apply pwp_bind, pwp_get, pwp_ret.
       split; [by eapply NI_ext; [..|exact HN]|done]. }
  destruct (k_restored _ _ _ (ni_data _ _ _ _ _ HN) x Er) as [Hsnap Hc].
  apply pwp_bind. eapply pwp_eq; [exact Heq|done|]. apply pwp_bind, pwp_get.
  set (nd1 := with_r _ nd). assert (NI w g nd1) as HN1.
  { destruct HN. constructor; try done; [eapply sim_ext; [..|exact ni_sim]; done|]. destruct ni_data. by constructor. }
  change (n_applied nd1) with (n_applied nd).
  destruct (N.ltb_spec (n_applied nd) (x_index x)) as [Hlt|]; [|by apply pwp_ret].
  destruct Hsnap as [?|(L & HL & Hd)]; [lia|].
  destruct (ni_mach _ _ _ _ _ HN) as (L0 & _ & Hh0).
  apply pwp_bind, pwp_get, pwp_bind, pwp_must; [done|]. intros sm' Hsm.
  destruct (mo_Restore_ok _ _ _ _ _ Hh0 Hd Hsm) as [Hh Hp].
  apply pwp_bind, pwp_modify; [done|]. apply pwp_modify; [done|]. split; [|simpl; lia].
  assert (x_index x <= a_cmax (w_node w n))%N as Hcm.
  { pose proof (n_commit _ _ _ _ _ _ (n_base _ _ _ _ (i_node _ _ _ (ni_inv _ _ _ _ _ HN) n))).
    pose proof (sim_commit _ _ _ _ _ _ (ni_sim _ _ _ _ _ HN1)). simpl in *. lia. }
  destruct HN1. constructor; try done.
  - exists L. done.
  - intros b Hb. destruct (Hp b Hb) as [Hb'| ->]; [by apply ni_past|]. pose proof HL as [Hl _].
    apply play_played; by rewrite Hl.
  - intros q Hq Hqd Hqe. simpl in Hq. destruct (ni_props q Hq Hqd Hqe). split; [done|]. simpl in *. lia.
Qed.

(** What is read from the store is in the node's full log. *)
Lemma read_entries nd lo hi es :
  NI w g nd -> ls_Entries lo hi (r_store (n_r nd)) = Ret es -> (0 < lo)%N ->
  (ms_snapIdx (ls_view (r_store (n_r nd))) < lo)%N /\ (lo + len es = hi)%N /\
  forall j e, es !! j = Some e -> g_G g n !! (N.to_nat (lo - 1) + j) = Some e /\ g_H g n !! (N.to_nat (lo - 1) + j) = Some e.
Proof.
  intros HN Hr Hlo. destruct (sim_store _ _ _ _ _ _ (ni_sim _ _ _ _ _ HN)) as [Hok Hv].
  rewrite ls_Entries_ok, Hv in Hr by done. rewrite Hv. set (s := a_mem (w_node w n)) in *.
  pose proof (n_base _ _ _ _ (i_node _ _ _ (ni_inv _ _ _ _ _ HN) n)) as Hb. destruct (n_rel _ _ _ _ _ _ Hb) as (H1 & H2 & _).
  pose proof (n_tail _ _ _ _ _ _ Hb) as Htl. fold s in H1, H2, Htl. unfold mem_Entries in Hr.
  destruct (N.leb_spec lo (ms_snapIdx s)); [done|]. destruct (N.ltb_spec (lastLocked s + 1) hi); [done|].
  destruct (N.ltb_spec hi lo); [done|]. unfold slice in Hr. destruct (_ && _) eqn:Hbnd; [|done]. injection Hr as <-. bool_to_prop.
  split_and!; [done| |].
  - unfold len. rewrite length_take, length_drop. lia.
  - intros j e He. apply lookup_take_Some in He as [He _]. rewrite lookup_drop in He.
    replace (N.to_nat (lo - 1) + j) with (N.to_nat (ms_snapIdx s) + (N.to_nat (lo - ms_snapIdx s - 1) + j)) by lia.
    rewrite <-(lookup_drop (g_G g n)), <-(lookup_drop (g_H g n)), Htl, <-H2. done.
Qed.

(** The next committed entry. *)
Definition next_entry nd (e : Entry) : Prop :=
  (n_applied nd < r_commit (n_r nd))%N /\
  g_G g n !! N.to_nat (n_applied nd) = Some e /\ g_H g n !! N.to_nat (n_applied nd) = Some e.

Lemma next_com nd e L :
  NI w g nd -> next_entry nd e -> com g (n_applied nd) L ->
  com g (n_applied nd + 1) (L ++ [e]) /\ e_Index e = (n_applied nd + 1)%N /\ (n_applied nd + 1 <= a_cmax (w_node w n))%N.
Proof.
  intros HN (Hlt & HG & _) HL. pose proof (ni_inv _ _ _ _ _ HN) as Hinv.
  assert (n_applied nd + 1 <= a_cmax (w_node w n))%N as Hcm.
  { pose proof (n_commit _ _ _ _ _ _ (n_base _ _ _ _ (i_node _ _ _ Hinv n))).
    rewrite (sim_commit _ _ _ _ _ _ (ni_sim _ _ _ _ _ HN)) in Hlt. lia. }
  pose proof (com_node peers g w n _ Hinv Hcm) as Hc. pose proof (com_node peers g w n (n_applied nd) Hinv ltac:(lia)) as Hc0.
  assert (pre (n_applied nd + 1) (g_G g n) = L ++ [e]) as HLe.
  { rewrite (com_fun peers Hnodup g w _ _ _ Hinv HL Hc0). unfold pre.
    replace (N.to_nat (n_applied nd + 1)) with (Datatypes.S (N.to_nat (n_applied nd))) by lia. by apply take_S_r. }
  rewrite HLe in Hc. split_and!; [done| |done].
  rewrite (com_numbered peers g w _ _ Hinv Hc (length L) e) by (by apply list_lookup_middle).
  destruct HL as [Hl _]. unfold len in Hl. lia.
Qed.

(** A pending proposal at this index and of this term is this entry. *)
Lemma next_pending nd e h :
  NI w g nd -> next_entry nd e -> n_pending nd !! (n_applied nd + 1)%N = Some h ->
  from_option p_term 0%N (n_props nd !! h) = e_Term e ->
  exists p, n_props nd !! h = Some p /\ p_Index p = (n_applied nd + 1)%N /\ e_Data e = p_data p /\ e_Type e = EntryNormal.
Proof.
  intros HN (_ & _ & HH) Hp Ht. destruct (ni_pending _ _ _ _ _ HN _ _ Hp) as (p & e' & Hh & Hi & _ & Hll & Hd & Hty).
  rewrite Hh in Ht. simpl in Ht. exists p.
  pose proof (n_honest _ _ _ _ _ _ (n_base _ _ _ _ (i_node _ _ _ (ni_inv _ _ _ _ _ HN) n)) _ _ HH) as Hpre.
  assert (g_ll g (e_Term e) !! N.to_nat (n_applied nd) = Some e) as He.
  { eapply prefix_lookup_Some; [|exact Hpre]. rewrite lookup_take_lt by lia. done. }
  rewrite <-Ht in He. replace (N.to_nat (n_applied nd + 1 - 1)) with (N.to_nat (n_applied nd)) in Hll by lia.
  assert (e' = e) as -> by congruence. by split_and!.
Qed.

Lemma NI_applied nd e L x :
  NI w g nd -> next_entry nd e -> com g (n_applied nd) L -> mo_holds x (play (L ++ [e])) -> past_ok peers n w g x ->
  NI w g (with_applied (e_Index e) (with_sm x nd)).
Proof.
  intros HN He HL Hx Hp. destruct (next_com nd e L HN He HL) as (Hc & Hi & Hcm). destruct He as (Hlt & _).
  destruct HN. constructor; try done; simpl; rewrite Hi; [lia|by exists (L ++ [e])|].
  intros q Hq Hd He. simpl in Hq. destruct (ni_props q Hq Hd He). split; [done|]. simpl. lia.
Qed.

Lemma apply_entry_ok e nd :
  NI w g nd -> next_entry nd e ->
  pwp (apply_entry e) (fun _ nd' => NI w g nd' /\ n_r nd' = n_r nd /\ n_applied nd' = (n_applied nd + 1)%N) nd.
Proof.
  intros HN He. destruct (ni_mach _ _ _ _ _ HN) as (L & HL & Hh). destruct (next_com nd e L HN He HL) as (Hc & Hi & Hcm).
  unfold apply_entry. apply pwp_bind.
  apply (pwp_mono _ (fun result nd1 => exists x, nd1 = with_sm x nd /\ mo_holds x (play (L ++ [e])) /\ past_ok peers n w g x /\
    (e_Type e = EntryNormal -> result = (mo_step e (play L)).2))).
  { rewrite play_snoc. unfold play1. case_decide as Ht.
    - apply pwp_bind, pwp_get, pwp_bind, pwp_must; [done|]. intros [x res] Ha.
      destruct (mo_Apply_ok _ _ _ _ _ Hh Ha) as (Hx & Hres & Hpx). apply pwp_bind, pwp_modify; [done|]. apply pwp_ret.
      exists x. split_and!; [done|done| |done]. intros b Hb. destruct (Hpx b Hb) as [| ->]; [by apply (ni_past _ _ _ _ _ HN)|].
      exists (L ++ [e]). pose proof Hc as [-> _]. split_and!; [done|done|]. rewrite play_snoc. unfold play1. by rewrite decide_True.
    - apply pwp_ret. exists (n_sm nd). split_and!; [by destruct nd|done|apply HN|done]. }
  intros result nd1 (x & -> & Hx & Hpx & Hres). apply pwp_bind, pwp_modify; [done|].
  pose proof (NI_applied nd e L x HN He HL Hx Hpx) as HN1. set (nd1 := with_applied _ _) in *.
  assert (n_r nd1 = n_r nd /\ n_applied nd1 = (n_applied nd + 1)%N) as [Hr1 Ha1] by done.
  apply pwp_bind, pwp_get. destruct (n_pending nd1 !! e_Index e) as [h|] eqn:Hpend; [|by apply pwp_ret].
  apply pwp_bind, pwp_modify; [done|]. pose proof (NI_unpend (e_Index e) nd1 HN1) as HN2.
  apply pwp_bind, pwp_get.
  match goal with |- context [(?a =? e_Term e)%N] => destruct (N.eqb_spec a (e_Term e)) as [Ht|] end.
  - apply pwp_finish; [done|]. intros p Hp. split; [|done]. apply NI_finish; [done|done|]. intros _.
    rewrite Hi in Hpend. destruct (next_pending nd e h HN He Hpend Ht) as (p' & Hp' & Hpi & Hpd & Hty).
    assert (p' = p) as -> by (simpl in Hp; congruence). split_and!; [exists L, e; unfold settle_with; simpl; rewrite Hpi; by auto|simpl; lia|].
    intros Hq. destruct (ni_queue _ _ _ _ _ HN) as [_ Hu]. destruct (Hu h Hq) as [_ Hnp]. by apply Hnp in Hpend.
  - apply pwp_finish; [done|]. intros p Hp. split; [|done]. by apply NI_finish.
Qed.

Lemma apply_entries_ok es nd :
  NI w g nd -> (n_applied nd + len es <= r_commit (n_r nd))%N ->
  (forall j e, es !! j = Some e -> g_G g n !! (N.to_nat (n_applied nd) + j) = Some e /\ g_H g n !! (N.to_nat (n_applied nd) + j) = Some e) ->
  pwp (nfor_each es apply_entry) (fun _ nd' => NI w g nd' /\ n_r nd' = n_r nd /\ n_applied nd' = (n_applied nd + len es)%N) nd.
Proof.
  revert nd. induction es as [|e es IH]; intros nd HN Hle Hes; simpl.
  { apply pwp_ret. split_and!; [done|done|]. unfold len. simpl. lia. }
  unfold len in *. simpl length in *. apply pwp_bind. eapply pwp_mono; [apply apply_entry_ok; [done|]|].
  { destruct (Hes 0 e eq_refl). rewrite Nat.add_0_r in *. split; [lia|done]. }
  intros _ nd1 (HN1 & Hr & Ha). cbv beta. eapply pwp_mono; [apply IH; [done|rewrite Hr, Ha; lia|]|].
  - intros j e' He'. rewrite Ha. destruct (Hes (Datatypes.S j) e' He').
    replace (N.to_nat (n_applied nd + 1) + j) with (N.to_nat (n_applied nd) + Datatypes.S j) by lia. done.
  - intros _ nd2 (HN2 & Hr2 & Ha2). split_and!; [done|by rewrite Hr2|lia].
Qed.

Lemma apply_loop_ok fuel nd :
  NI w g nd -> pwp (apply_loop fuel) (fun _ nd' => NI w g nd' /\ n_r nd' = n_r nd /\ (r_commit (n_r nd') <= n_applied nd')%N /\ (n_applied nd <= n_applied nd')%N) nd.
Proof.
  revert nd. induction fuel as [|fuel IH]; intros nd HN; simpl; apply pwp_bind, pwp_get; unfold id;
    (destruct (N.leb_spec (r_commit (n_r nd)) (n_applied nd)); [by apply pwp_ret|]); [by apply pwp_panic|].
  apply pwp_bind, pwp_must; [done|]. intros es Hes.
  destruct (read_entries nd _ _ _ HN Hes) as (_ & Hlen & Hlk); [lia|]. apply pwp_bind.
  replace (n_applied nd + 1 - 1)%N with (n_applied nd) in Hlk by lia.
  eapply pwp_mono; [apply apply_entries_ok; [done| |exact Hlk]|].
  - lia.
  - intros _ nd1 (HN1 & Hr & Ha). cbv beta. eapply pwp_mono; [by apply IH|]. intros _ nd2 (? & Hr2 & ? & ?). rewrite Hr2 in *. split_and!; try done. lia.
Qed.

Lemma machine_part_ok nd :
  NI w g nd -> pwp machine_part (fun _ nd' => NI w g nd' /\ (r_commit (n_r nd') <= n_applied nd')%N /\ (n_applied nd <= n_applied nd')%N) nd.
Proof.
  intros HN. unfold machine_part. apply pwp_bind, pwp_get, pwp_bind.
  apply (pwp_mono _ (fun _ => stays (n_applied nd))); [case_decide; [by apply pwp_ret|by apply failAll_ok]|]. intros ? nd1 [HN1 A1].
  apply pwp_bind. eapply pwp_mono; [by apply take_restored_ok|]. intros ? nd2 [HN2 A2]. cbv beta. apply pwp_bind, pwp_get.
  eapply pwp_mono; [by apply apply_loop_ok|]. intros ? nd3 (? & _ & ? & ?). split_and!; [done|done|lia].
Qed.

Lemma machine_cut_ok k nd : NI w g nd -> pwp (machine_cut k) (fun _ => NI w g) nd.
Proof.
  intros HN. unfold machine_cut. apply pwp_bind, pwp_get, pwp_bind.
  apply (pwp_mono _ (fun _ => stays (n_applied nd))); [case_decide; [by apply pwp_ret|by apply failAll_ok]|]. intros ? nd1 [HN1 A1].
  apply pwp_bind. eapply pwp_mono; [by apply take_restored_ok|]. intros ? nd2 [HN2 A2]. cbv beta. apply pwp_bind, pwp_get.
  unfold id. cbv zeta. destruct (N.leb_spec (N.min k (r_commit (n_r nd2))) (n_applied nd2)); [by apply pwp_ret|].
  apply pwp_bind, pwp_must; [done|]. intros es Hes. destruct (read_entries nd2 _ _ _ HN2 Hes) as (_ & Hlen & Hlk); [lia|].
  replace (n_applied nd2 + 1 - 1)%N with (n_applied nd2) in Hlk by lia.
  eapply pwp_mono; [apply apply_entries_ok; [done|lia|exact Hlk]|]. by intros _ nd3 (? & _).
Qed.
End Local.

(** ** Calls of the [Raft] *)

Lemma data_now w g nd : NI w g nd -> K (good g) (r_commit (n_r nd)) (n_r nd).
Proof. intros HN. eapply K_mono; [|reflexivity|apply HN]. done. Qed.

Lemma Step_ok m w g nd :
  NI w g nd -> m ∈ w_msgs w -> m_To m = n -> mwp (raft_do (Step m)) (fun _ => NI) w g nd.
Proof.
  intros HN Hm Hto. destruct (inv_delivered peers g w m (ni_inv _ _ _ _ _ HN) Hm) as [Hf Hc].
  apply mwp_raft_do; try done.
  - apply wp_Step; try done. apply HN.
  - apply Step_K; [|by apply (ni_msgs _ _ _ _ _ HN)|by apply (data_now w)].
    intros i d d' H1 H2. exact (good_fun peers Hnodup g w i d d' (ni_inv _ _ _ _ _ HN) H1 H2).
Qed.

Lemma Tick_ok w g nd : NI w g nd -> mwp (raft_do Tick) (fun _ => NI) w g nd.
Proof.
  intros HN. apply mwp_raft_do; try done.
  - apply wp_Tick; try done. apply HN.
  - apply Tick_K. by apply (data_now w).
Qed.

(** ** Taking proposals *)

Lemma NI_assign w g nd h index p e :
  NI w g nd -> h ∉ n_queue nd -> untaken nd h -> n_props nd !! h = Some p -> (0 < index)%N ->
  g_ll g (r_term (n_r nd)) !! N.to_nat (index - 1) = Some e -> e_Data e = p_data p -> e_Type e = EntryNormal ->
  NI w g (with_pending (<[index := h]> (n_pending nd))
    (with_props (<[h := mkProposal (p_data p) (r_term (n_r nd)) index (p_Result p) (p_Err p) (p_done p)]> (n_props nd)) nd)).
Proof.
  intros [] Hq [(p' & Hp' & Hnot) Hnp] Hp Hi He Hd Hty. assert (p' = p) as -> by congruence.
  assert (h < length (n_props nd)) by (by eapply lookup_lt_Some).
  constructor; try done.
  - intros i h'. simpl. destruct (decide (i = index)) as [->|Hne].
    + rewrite lookup_insert_eq. intros [= <-]. eexists _, e. rewrite list_lookup_insert_eq by done. by split_and!.
    + rewrite lookup_insert_ne by done. intros Hih. destruct (ni_pending i h' Hih) as (q & e' & Hq' & ?).
      assert (h' <> h) by (intros ->; by apply Hnp in Hih). exists q, e'. by rewrite list_lookup_insert_ne.
  - intros q Hq' Hqd Hqe. simpl in Hq'. apply list_elem_of_lookup_1 in Hq' as [h' Hh'].
    destruct (decide (h' = h)) as [->|Hne].
    + rewrite list_lookup_insert_eq in Hh' by done. injection Hh' as <-. simpl in *. by apply Hnot in Hqd.
    + rewrite list_lookup_insert_ne in Hh' by done. apply ni_props; [by eapply list_elem_of_lookup_2|done|done].
  - destruct ni_queue as [H1 H2]. split; [done|]. intros h' Hh'. simpl in Hh'. assert (h' <> h) by (by intros ->).
    destruct (H2 h' Hh') as [(q & Hq' & ?) Hnp']. split; [exists q; simpl; by rewrite list_lookup_insert_ne|].
    intros i. simpl. destruct (decide (i = index)) as [->|Hne]; [rewrite lookup_insert_eq; by intros [= ->]|].
    by rewrite lookup_insert_ne.
Qed.

Lemma assign_all_ok w g queue index nd :
  NI w g nd -> NoDup queue -> (0 < index)%N ->
  (forall h, h ∈ queue -> h ∉ n_queue nd /\ untaken nd h) ->
  (forall j h, queue !! j = Some h -> exists e, g_ll g (r_term (n_r nd)) !! N.to_nat (index + N.of_nat j - 1) = Some e /\
     e_Data e = prop_data nd h /\ e_Type e = EntryNormal) ->
  pwp w g (assign_all queue index) (fun _ => NI w g) nd.
Proof.
  revert index nd. induction queue as [|h queue IH]; intros index nd HN Hnd Hi Hq Hl; simpl; [by apply pwp_ret|].
  apply NoDup_cons in Hnd as [Hh Hnd]. destruct (Hq h ltac:(by left)) as [Hhq Hu]. destruct Hu as [(p & Hp & Hnot) Hnp].
  destruct (Hl 0 h eq_refl) as (e & He & Hd & Hty). rewrite N.add_0_r in He.
  assert (prop_data nd h = p_data p) as Hpd by (unfold prop_data; by rewrite Hp). rewrite Hpd in Hd.
  apply pwp_bind. unfold assign_pending. apply pwp_bind, pwp_get, pwp_bind, pwp_get. rewrite Hp.
  apply pwp_bind, pwp_modify; [done|]. apply pwp_modify; [done|].
  assert (untaken nd h) as Hu by (split; [by exists p|done]).
  pose proof (NI_assign w g nd h index p e HN Hhq Hu Hp Hi He Hd Hty) as HN1. apply IH; [exact HN1|done|lia| |].
  - intros h' Hh'. assert (h' <> h) by (by intros ->). destruct (Hq h' ltac:(by right)) as [H1 [(q & H2 & H3) H4]].
    split; [done|]. split; [exists q; simpl; by rewrite list_lookup_insert_ne|]. intros i. simpl.
    destruct (decide (i = index)) as [->|Hne]; [rewrite lookup_insert_eq; by intros [= ->]|]. by rewrite lookup_insert_ne.
  - intros j h' Hj. destruct (Hl (Datatypes.S j) h' Hj) as (e' & He' & Hd' & Hty'). exists e'. simpl.
    replace (N.to_nat (index + 1 + N.of_nat j - 1)) with (N.to_nat (index + N.of_nat (Datatypes.S j) - 1)) by lia.
    split_and!; [done| |done]. rewrite Hd'. unfold prop_data. simpl.
    assert (h' <> h) by (intros ->; apply Hh; by eapply list_elem_of_lookup_2). by rewrite list_lookup_insert_ne.
Qed.

(** What a leader stores is in the log of its term. *)
Lemma leader_log w g nd i e :
  NI w g nd -> r_state (n_r nd) = Leader -> ms_entries (ls_view (r_store (n_r nd))) !! i = Some e ->
  g_ll g (r_term (n_r nd)) !! (N.to_nat (ms_snapIdx (ls_view (r_store (n_r nd)))) + i) = Some e.
Proof.
  intros HN Hl He. pose proof (ni_sim _ _ _ _ _ HN) as Hs. destruct (sim_store _ _ _ _ _ _ Hs) as [_ Hv]. rewrite Hv in *.
  rewrite (sim_role _ _ _ _ _ _ Hs) in Hl. rewrite (sim_term _ _ _ _ _ _ Hs).
  destruct (n_lead _ _ _ _ (i_node _ _ _ (ni_inv _ _ _ _ _ HN) n) Hl) as (_ & -> & _).
  rewrite (sim_pend _ _ _ _ _ _ Hs), app_nil_r.
  destruct (n_rel _ _ _ _ _ _ (n_base _ _ _ _ (i_node _ _ _ (ni_inv _ _ _ _ _ HN) n))) as (_ & Hd & _).
  rewrite Hd, lookup_drop in He. done.
Qed.

Lemma fail_list w g (l : list nat) err nd :
  NI w g nd -> mwp (nfor_each l (fun h => finish h [] (Some err))) (fun _ => NI) w g nd.
Proof.
  intros HN. apply (mwp_for_each peers n _ _ NI); [done|]. intros h w1 g1 nd1 _ HN1. apply pwp_mwp. by apply pwp_fail.
Qed.

Lemma queue_split nd k h :
  queue_ok nd -> h ∈ take k (n_queue nd) -> h ∉ drop k (n_queue nd) /\ untaken nd h.
Proof.
  intros [Hnd Hu] Hh. rewrite <-(take_drop k (n_queue nd)) in Hnd, Hu. apply NoDup_app in Hnd as (_ & Hdis & _).
  split; [by apply Hdis|]. apply Hu, elem_of_app. by left.
Qed.

Lemma flushBatch_ok w g nd : NI w g nd -> mwp flushBatch (fun _ => NI) w g nd.
Proof.
  intros HN. unfold flushBatch. apply mwp_bind, mwp_get, mwp_bind, mwp_get. cbv zeta.
  match goal with |- context [if ?b then take ?k ?l else n_queue nd] => set (queue := if b then take k l else n_queue nd) end.
  assert (exists k, queue = take k (n_queue nd)) as [k Hk].
  { unfold queue. destruct (_ && _); [by eexists|]. exists (length (n_queue nd)). by rewrite take_ge. }
  assert (drop (length queue) (n_queue nd) = drop k (n_queue nd)) as ->.
  { rewrite Hk, length_take. destruct (Nat.le_ge_cases k (length (n_queue nd))); [f_equal; lia|]. rewrite !drop_ge by lia. done. }
  apply mwp_bind, mwp_modify; [done|]. pose proof (NI_queue w g (drop k (n_queue nd)) nd HN (sublist_drop _ _)) as HN0.
  set (nd0 := with_queue _ nd) in *. apply mwp_bind, mwp_get. case_decide as Hl; [|by apply fail_list].
  apply mwp_bind, mwp_get, mwp_bind.
  pose proof (Propose_log (prop_data nd0 <$> queue) (n_r nd0) (k_ok _ _ _ (ni_data _ _ _ _ _ HN0))) as Hlog. cbv zeta in Hlog.
  unfold rwp in Hlog. apply mwp_raft_call; try done.
  - apply wp_Propose; try done. apply HN0.
  - apply Propose_K. by apply (data_now w).
  - intros first w1 g1 r1 Heq HN1. rewrite Heq in Hlog. destruct Hlog as (Hf & Ht & Hst & Hv). cbn [fst] in *. apply pwp_mwp.
    pose proof (ni_queue _ _ _ _ _ HN) as Hq. apply assign_all_ok; [done| |lia| |].
    + rewrite Hk. destruct Hq as [Hnd _]. rewrite <-(take_drop k (n_queue nd)) in Hnd. by apply NoDup_app in Hnd as (? & _).
    + intros h Hh. rewrite Hk in Hh. apply (queue_split nd k h Hq Hh).
    + intros j h Hj. exists (mkEntry (first + N.of_nat j) (r_term (n_r nd0)) EntryNormal (prop_data nd0 h)).
      split; [|done].
      replace (N.to_nat (first + N.of_nat j - 1)) with
          (N.to_nat (ms_snapIdx (ls_view (r_store r1))) + (length (ms_entries (ls_view (r_store (n_r nd0)))) + j)).
        { apply (leader_log w1 g1 (with_r r1 nd0)); [done|done|]. simpl. rewrite Hv. simpl.
          rewrite lookup_app_r by lia. replace (_ + j - _) with j by lia.
          by rewrite list_lookup_imap, list_lookup_fmap, Hj. }
        rewrite Hv, Hf. unfold lastLocked. simpl. lia.
  - intros err w1 g1 r1 _ HN1. by apply fail_list.
Qed.

Lemma flush_ok w g nd : NI w g nd -> mwp flushProposals (fun _ => NI) w g nd.
Proof.
  intros HN. unfold flushProposals. apply mwp_bind, mwp_get. generalize (length (n_queue nd)). intros fuel.
  revert w g nd HN. induction fuel as [|fuel IH]; intros w g nd HN; simpl; apply mwp_bind, mwp_get;
    destruct (n_queue nd); try (by apply mwp_ret); try apply mwp_panic.
  apply mwp_bind. eapply mwp_mono; [by apply flushBatch_ok|]. intros ? w1 g1 nd1 HN1. by apply IH.
Qed.

Lemma first_part_ok op w g nd :
  NI w g nd -> op_ok op n (w_msgs w) -> mwp (first_part op) (fun _ => NI) w g nd.
Proof. intros HN Hop. destruct op; simpl in *; [destruct Hop; by apply Step_ok|by apply Tick_ok|by apply flush_ok]. Qed.

(** ** Reads and snapshots *)

(** The machine is at or past the snapshot of the store. *)
Definition caught_up nd : Prop := (ms_snapIdx (ls_view (r_store (n_r nd))) <= n_applied nd)%N.

Definition J w g nd : Prop := NI w g nd /\ caught_up nd.

Lemma J_same w g nd nd' :
  n_r nd' = n_r nd -> n_sm nd' = n_sm nd -> n_applied nd' = n_applied nd -> n_pending nd' = n_pending nd ->
  n_props nd' = n_props nd -> n_queue nd' = n_queue nd -> J w g nd -> J w g nd'.
Proof. intros H1 H2 H3 H4 H5 H6 [HN Hc]. split; [by eapply NI_ext; [..|exact HN]|]. unfold caught_up. by rewrite H1, H3. Qed.

Lemma finish_read_J w g h err nd : J w g nd -> mwp (finish_read h err) (fun _ => J) w g nd.
Proof. intros HJ. apply pwp_mwp, pwp_finish_read; [apply HJ|]. intros rds. by eapply J_same; [..|exact HJ]. Qed.

Lemma startReads_ok w g nd : J w g nd -> mwp startReads (fun _ => J) w g nd.
Proof.
  intros HJ. unfold startReads. apply mwp_bind, mwp_get. destruct (n_readQueue nd) as [|h0 hs] eqn:Hq; [by apply mwp_ret|].
  assert (rwp ReadIndex (fun _ => framed (r_store (n_r nd)) (r_term (n_r nd)) (r_state (n_r nd)))
    (framed (r_store (n_r nd)) (r_term (n_r nd)) (r_state (n_r nd))) (n_r nd)) as Hf by (by apply ReadIndex_framed).
  unfold rwp in Hf. destruct HJ as [HN Hc]. apply mwp_bind. apply mwp_raft_call; try done.
  - apply wp_ReadIndex; try done. apply HN.
  - apply ReadIndex_K. by apply (data_now w).
  - intros id w1 g1 r1 Heq HN1. rewrite Heq in Hf. destruct Hf as [Hst _]. simpl in Hst.
    assert (J w1 g1 (with_r r1 nd)) as HJ1 by (split; [done|]; unfold caught_up; simpl; by rewrite Hst).
    apply mwp_bind, mwp_modify; [done|]. apply mwp_modify; [done|]. by eapply J_same; [..|exact HJ1].
  - intros err w1 g1 r1 Heq HN1. rewrite Heq in Hf. destruct Hf as [Hst _]. simpl in Hst.
    assert (J w1 g1 (with_r r1 nd)) as HJ1 by (split; [done|]; unfold caught_up; simpl; by rewrite Hst).
    case_decide; [by apply mwp_ret|]. apply mwp_bind, mwp_modify; [done|].
    apply (mwp_for_each peers n _ _ J); [by eapply J_same; [..|exact HJ1]|]. intros h w2 g2 nd2 _ HJ2. by apply finish_read_J.
Qed.

Lemma take_ready_ok w g nd : J w g nd -> mwp take_ready (fun _ => J) w g nd.
Proof.
  intros [HN Hc]. unfold take_ready. apply mwp_bind. apply mwp_raft_do; try done.
  - unfold TakeReady. apply wp_bind, wp_get, wp_bind, wp_modify; [done|]. apply wp_ret.
    eapply sim_ext; [..|apply HN]; done.
  - apply TakeReady_K. by apply (data_now w).
  - intros ready w1 g1 r1 Heq HN1. unfold TakeReady in Heq. injection Heq as <- _.
    apply (mwp_for_each peers n _ _ J); [by split|]. intros rr w2 g2 nd2 _ HJ2. apply mwp_bind, mwp_get, mwp_bind.
    eapply mwp_mono; [apply (mwp_for_each peers n _ _ J); [done|]|].
    + intros h w3 g3 nd3 _ HJ3. unfold set_read_index. apply mwp_bind, mwp_modify; [done|]. apply mwp_modify; [done|].
      by eapply J_same; [..|exact HJ3].
    + intros ? w3 g3 nd3 HJ3. apply mwp_modify; [done|]. by eapply J_same; [..|exact HJ3].
Qed.

Lemma settle_waiting_ok w g nd : J w g nd -> mwp settle_waiting (fun _ => J) w g nd.
Proof.
  intros HJ. unfold settle_waiting. apply mwp_bind, mwp_get, mwp_bind. apply (mwp_mono peers n _ (fun _ => J)).
  - generalize (n_waiting nd). intros l. revert w g nd HJ. induction l as [|h l IH]; intros w g nd HJ; [by apply mwp_ret|].
    simpl. apply mwp_bind, mwp_get. destruct (_ <=? _)%N.
    + apply mwp_bind. eapply mwp_mono; [by apply finish_read_J|]. intros ? w1 g1 nd1. apply IH.
    + apply mwp_bind. eapply mwp_mono; [by apply IH|]. intros kept w1 g1 nd1 HJ1. by apply mwp_ret.
  - intros kept w1 g1 nd1 HJ1. apply mwp_modify; [done|]. by eapply J_same; [..|exact HJ1].
Qed.

(** A snapshot of the machine is the one the log it has applied gives. *)
Lemma maybeSnapshot_ok w g nd : J w g nd -> mwp maybeSnapshot (fun _ => NI) w g nd.
Proof.
  intros [HN Hc]. unfold maybeSnapshot. apply mwp_bind, mwp_get. unfold id. cbv zeta.
  pose proof (sim_store _ _ _ _ _ _ (ni_sim _ _ _ _ _ HN)) as [Hok Hv]. rewrite ls_FirstIndex_ok by done.
  unfold caught_up in Hc. rewrite usub64_le by (unfold mem_FirstIndex; lia). unfold mem_FirstIndex.
  destruct (N.eqb_spec (n_snapGap nd) 0) as [|Hgap]; simpl; [by apply mwp_ret|].
  destruct (N.ltb_spec (n_applied nd + 1 - (ms_snapIdx (ls_view (r_store (n_r nd))) + 1)) (n_snapGap nd)); [by apply mwp_ret|].
  apply mwp_bind, mwp_must. intros [x d] Hx. destruct (ni_mach _ _ _ _ _ HN) as (L & HL & Hh).
  destruct (mo_Snapshot_ok _ _ _ _ Hh Hx) as (Hh' & Hd & Hp). apply mwp_bind, mwp_modify; [done|].
  assert (NI w g (with_sm x nd)) as HN1.
  { destruct HN. constructor; try done; [by exists L|]. intros b Hb. by apply ni_past, Hp. }
  apply mwp_raft_do; try done.
  - apply wp_compact; [apply HN1|]. rewrite <-(sim_commit _ _ _ _ _ _ (ni_sim _ _ _ _ _ HN)).
    pose proof (ni_applied _ _ _ _ _ HN). unfold a_snapIdx. rewrite <-Hv. lia.
  - apply Compact_K; [|by apply (data_now w)]. right. by exists L.
Qed.

Lemma last_part_ok w g nd : NI w g nd -> (r_commit (n_r nd) <= n_applied nd)%N -> mwp last_part (fun _ => NI) w g nd.
Proof.
  intros HN Hc. assert (caught_up nd) as Hcu.
  { unfold caught_up. pose proof (ni_sim _ _ _ _ _ HN) as Hs. destruct (sim_store _ _ _ _ _ _ Hs) as [_ ->].
    pose proof (sim_snap _ _ _ _ _ _ Hs) as Hsn. unfold a_snapIdx in Hsn. rewrite <-(sim_commit _ _ _ _ _ _ Hs) in Hsn. lia. }
  unfold last_part. apply mwp_bind. eapply mwp_mono; [by apply startReads_ok|]. intros ? w1 g1 nd1 HJ1.
  apply mwp_bind. eapply mwp_mono; [by apply take_ready_ok|]. intros ? w2 g2 nd2 HJ2.
  apply mwp_bind. eapply mwp_mono; [by apply settle_waiting_ok|]. intros ? w3 g3 nd3 HJ3. by apply maybeSnapshot_ok.
Qed.
End Ops.
