(* ===== verification/ReplicaTheorems.v ===== *)
(** * Replicated state machines

    Whatever is lost, repeated, reordered or crashed, the machines of a
    cluster are all states of one log, and what a client was told about its
    proposal stays true of that log. *)

From stdpp Require Import base list gmap functions relations.
From S2P Require Import Prelude LogStore Raft Protocol Safety Preserve Refine Cluster RaftCalls SnapData Node Replica ReplicaInv ReplicaOps.

(** * Runs of a cluster keep the invariant of every node

    A crash stops a run of a node between two effects, or inside a write of
    several entries; what is left is a shorter run.  A node that is opened
    again starts from the log its machine had applied. *)

Section Sim.
Context {S : Type} `{LS : LogStore S} `{OK : !LogStoreOK S}.
Context {X A : Type} `{HM : Machine X} `{HOK : !MachineOK X A}.
Context (peers : list NodeID) (Hnodup : NoDup peers) (Hzero : 0%N ∉ peers).

#[local] Abbreviation node := (Node S X).
#[local] Abbreviation inv := (inv peers).
#[local] Abbreviation com := (com peers).
#[local] Abbreviation good := (good peers).
#[local] Abbreviation chunks_ok := (chunks_ok peers).
#[local] Abbreviation settled_at := (settled_at peers).
#[local] Abbreviation applied_effs s tr := (foldl (fun v e => apply_eff e v) s tr).
Implicit Types (nd : node) (g : ghost) (w : world).

(** ** Crashes *)

Lemma mem_snap_eff (G : N -> bytes -> Prop) e s : eff_ok G e -> mem_snap G s -> mem_snap G (apply_eff e s).
Proof.
  intros He Hs. destruct e as [m|t v|es|i t d]; simpl in *; [done|done| |].
  - destruct (appendLocked es s) eqn:Ea; [|done..]. by eapply append_snap.
  - destruct (mem_Compact i t d s) eqn:Ec; [|done..]. by eapply compact_snap.
Qed.

Lemma mem_snap_effs (G : N -> bytes -> Prop) tr s :
  Forall (eff_ok G) tr -> mem_snap G s -> mem_snap G (applied_effs s tr).
Proof. intros Ht. revert s. induction Ht; intros s Hs; simpl; [done|]. auto using mem_snap_eff. Qed.

Lemma survives_ok (G : N -> bytes -> Prop) tr k j : Forall (eff_ok G) tr -> Forall (eff_ok G) (survives tr k j).
Proof.
  intros Ht. unfold survives. apply Forall_app. split; [by apply Forall_take|].
  destruct (tr !! k) as [[]|]; repeat constructor.
Qed.

Lemma survives_app_l tr1 tr2 k j : k < length tr1 -> survives (tr1 ++ tr2) k j = survives tr1 k j.
Proof. intros Hk. unfold survives. by rewrite take_app_le, lookup_app_l by lia. Qed.

Lemma survives_app_r tr1 tr2 k j : length tr1 <= k -> survives (tr1 ++ tr2) k j = tr1 ++ survives tr2 (k - length tr1) j.
Proof. intros Hk. unfold survives. by rewrite take_app_ge, lookup_app_r, app_assoc by lia. Qed.

(** What is left of a run. *)
Definition left_by n w g (k j : nat) (tr : list effect) w' g' : Prop :=
  gle g g' /\ inv g' w' /\ chunks_ok g' w' /\ w_msgs w' = after (take k tr) (w_msgs w) /\
  (forall n', n' <> n -> w_node w' n' = w_node w n') /\ rtc (wstep peers) w w' /\ (a_cmax (w_node w n) <= a_cmax (w_node w' n))%N /\
  a_mem (w_node w' n) = applied_effs (a_mem (w_node w n)) (survives tr k j) /\
  mem_snap (good g') (a_mem (w_node w' n)).

Lemma segment_cut n w g tr w1 k j :
  moved peers n w tr w1 -> Forall (eff_ok (good g)) tr -> inv g w -> n ∈ peers -> chunks_ok g w ->
  mem_snap (good g) (a_mem (w_node w n)) -> exists w' g', left_by n w g k j tr w' g'.
Proof.
  intros (Hst & _) Ht Hinv Hn Hc Hsn. destruct (survives_steps peers n _ _ _ _ k j Hst) as (a1 & tr1 & Ha1 & Haft & Hmem).
  destruct (asteps_moved peers Hnodup Hzero g w n tr1 a1 Hinv Hn Ha1) as (w' & g' & (_ & Hm' & Ho & Hrt) & <- & Hle & Hinv').
  exists w', g'. split_and!; try done.
  - intros m. rewrite Hm', Haft, after_elem. intros Hin. apply (chunk_ok_mono (good g)); [intros; by eapply good_gle|].
    destruct Hin as [|Hin]; [by apply Hc|]. rewrite Forall_forall in Ht.
    apply (Ht (ESend m)). by eapply elem_of_submseteq, sublist_submseteq, sublist_take.
  - by rewrite Hm', Haft.
  - by eapply asteps_cmax.
  - rewrite Hmem. apply (mem_snap_effs _ _ _) .
    + eapply survives_ok, effs_gle; [exact Hle|done].
    + eapply snap_at_mono; [|exact Hsn]. intros i d. by apply good_gle.
Qed.

Lemma runs_cut n w g tr w1 g1 k j :
  runs peers n w g tr w1 g1 -> inv g w -> n ∈ peers -> chunks_ok g w ->
  mem_snap (good g) (a_mem (w_node w n)) -> exists w' g', left_by n w g k j tr w' g'.
Proof.
  intros Hr. revert k. induction Hr as [w g|w g tr1 w1 g1 tr2 w2 g2 Hmv Hle Hinv1 Het Hr IH]; intros k Hinv Hn Hc Hsn.
  { exists w, g. unfold left_by, survives. rewrite take_nil, lookup_nil. by split_and!. }
  destruct (Nat.lt_ge_cases k (length tr1)) as [Hk|Hk].
  - destruct (segment_cut n w g tr1 w1 k j Hmv Het Hinv Hn Hc Hsn) as (w' & g' & Hl). exists w', g'.
    unfold left_by in *. by rewrite survives_app_l, take_app_le by lia.
  - pose proof Hmv as (Hst & Hm1 & Ho1 & Hrt1).
    destruct (IH (k - length tr1) Hinv1 Hn) as (w' & g' & Hle' & ? & ? & Hm' & Ho' & Hrt' & Hcm & Hmem & ?).
    + by eapply chunks_moved.
    + rewrite (asteps_mem _ _ _ _ _ _ Hst). apply mem_snap_effs; [by eapply effs_gle|].
      eapply snap_at_mono; [|exact Hsn]. intros i d. by apply good_gle.
    + exists w', g'. split_and!; try done.
      * by eapply gle_trans.
      * by rewrite Hm', Hm1, take_app_ge, after_app by lia.
      * intros n' Hne. by rewrite Ho', Ho1.
      * by etrans.
      * apply asteps_cmax in Hst. lia.
      * rewrite Hmem, survives_app_r by lia. rewrite foldl_app. by rewrite (asteps_mem _ _ _ _ _ _ Hst).
Qed.

(** ** Restarts *)

(** The [Raft] of an opened node is the one that was modelled on its own. *)
Lemma NewNode_boot cfg s rng x gap mb nd :
  NewNode cfg s rng x gap mb = Ret nd -> boot cfg s rng (mc_LastApplied x) = Ret (n_r nd).
Proof.
  unfold NewNode, boot. destruct (New cfg s rng) as [r| |]; [|done..]. simpl. destruct (ls_Snapshot s) as [[[i t] d]| |]; [|done..].
  simpl. destruct (mc_LastApplied x <? i)%N; simpl.
  - destruct (mc_Restore d x); [|done..]. simpl. by intros [= <-].
  - by intros [= <-].
Qed.

Lemma boot_K (G : N -> bytes -> Prop) cfg s rng ap r :
  boot cfg s rng ap = Ret r -> ls_ok s -> mem_snap G (ls_view s) -> K G 0 r.
Proof.
  intros Hb Hlo Hsn. unfold boot, New in Hb. destruct (_ =? _)%N; [done|]. destruct (_ || _ || _); [done|].
  rewrite ls_State_ok in Hb by done. unfold mem_State in Hb. cbn [mbind go_bind] in Hb.
  destruct (ls_Snapshot s) as [[[i t] d]| |]; [|done..]. cbn [mbind go_bind] in Hb. unfold resetTimeout in Hb. cbn [r_rng] in Hb.
  assert (forall r0 : Raft S, r_store r0 = s -> r_snapOut r0 = None -> r_snapIn r0 = None -> r_restored r0 = None ->
    r_trace r0 = [] -> K G 0 r0) as Hmk.
  { intros r0 H1 H2 H3 H4 H5. constructor; rewrite ?H1, ?H2, ?H3, ?H4, ?H5; try done. lia. }
  destruct rng; injection Hb as <-; apply Hmk;
    match goal with |- context [if ?b then _ else _] => destruct b end; done.
Qed.

(** What the machine of an opened node holds. *)
Lemma NewNode_machine cfg s rng x gap mb nd n w g :
  NewNode cfg s rng x gap mb = Ret nd -> inv g w -> ls_ok s -> ls_view s = a_mem (w_node w n) ->
  mem_snap (good g) (ls_view s) -> settled_at n w g x ->
  let a := n_applied nd in
  a = N.max (a_snapIdx (w_node w n)) (mc_LastApplied x) /\ (a <= a_cmax (w_node w n))%N /\
  (exists L, com g a L /\ mo_holds (n_sm nd) (play L)) /\ past_ok peers n w g (n_sm nd).
Proof.
  intros Hnew Hinv Hlo Hlv Hsn [(b & Hb & L & HL & HLc & ->) Hpast] a.
  assert (mc_LastApplied x = mo_at (play L)) as Hla by (by apply mo_Last_ok).
  destruct (play_at L (com_numbered peers g w _ L Hinv HL)) as [Hat Hplay].
  pose proof (n_commit _ _ _ _ _ _ (n_base _ _ _ _ (i_node _ _ _ Hinv n))) as Hcm. unfold a_snapIdx in *.
  unfold NewNode in Hnew. destruct (New cfg s rng) as [r| |]; [|done..]. simpl in Hnew.
  pose proof (ls_Snapshot_ok s Hlo) as Hs. destruct (ls_Snapshot s) as [[[i t] d]| |]; [|done..].
  destruct Hs as (v & [= <-] & [= -> -> ->]). rewrite Hlv in *. simpl in Hnew.
  destruct (N.ltb_spec (mc_LastApplied x) (ms_snapIdx (a_mem (w_node w n)))) as [Hlt|Hge].
  - destruct Hsn as [?|(L' & HL' & Hd)]; [lia|].
    destruct (mc_Restore _ x) as [x'| |] eqn:Hr; [|done..]. injection Hnew as <-. simpl in *. unfold a. clear a.
    destruct (mo_Restore_ok _ _ _ _ _ Hb Hd Hr) as [Hx' Hp']. split_and!; [lia|lia|by exists L'|].
    intros c Hc. destruct (Hp' c Hc) as [| ->]; [by apply Hpast|]. exists L'. pose proof HL' as [-> _]. split_and!; [done|lia|done].
  - injection Hnew as <-. simpl in *. unfold a. clear a. split_and!; [lia|lia| |done].
    exists (pre (mc_LastApplied x) L). rewrite Hla in *. split; [by eapply com_pre|]. by rewrite Hplay.
Qed.

Lemma restart_ok n cfg s rng x gap mb nd w g :
  n ∈ peers -> NewNode cfg s rng x gap mb = Ret nd -> c_ID cfg = n -> c_Peers cfg = peers -> inv g w -> chunks_ok g w ->
  ls_ok s -> ls_view s = a_mem (w_node w n) -> mem_snap (good g) (ls_view s) -> settled_at n w g x ->
  exists w' g', moved peers n w [] w' /\ gle g g' /\ NI peers n w' g' nd.
Proof.
  intros Hn Hnew Hid Hp Hinv Hch Hlo Hlv Hsn Hset.
  destruct (NewNode_machine _ _ _ _ _ _ _ n w g Hnew Hinv Hlo Hlv Hsn Hset) as (Ha & Hac & (L & HL & Hh) & Hpast).
  pose proof (NewNode_boot _ _ _ _ _ _ _ Hnew) as Hboot.
  pose proof (boot_sim peers cfg s rng _ _ n (w_msgs w) (w_node w n) Hboot Hid Hp Hlo Hlv) as Hs. rewrite <-Ha in Hs.
  pose proof (n_commit _ _ _ _ _ _ (n_base _ _ _ _ (i_node _ _ _ Hinv n))) as Hcm.
  assert (asteps peers n (w_msgs w) (w_node w n) [] (mkAN (a_mem (w_node w n)) Follower ∅ [] (n_applied nd)
    (a_cmax (w_node w n)) (fun _ => 0%N) [])) as Hst.
  { apply (asteps_restart peers n _ _ [] (w_node w n)); [constructor|]. lia. }
  destruct (asteps_moved peers Hnodup Hzero g w n _ _ Hinv Hn Hst) as (w' & g' & Hmv & Hw' & Hle & Hinv').
  pose proof Hmv as (_ & Hm & _). simpl in Hm. exists w', g'. split_and!; [done|done|].
  assert (n_pending nd = ∅ /\ n_props nd = [] /\ n_queue nd = []) as (Hpe & Hpr & Hqu).
  { unfold NewNode in Hnew. destruct (New cfg s rng); [|done..]. simpl in Hnew. destruct (ls_Snapshot s) as [[[? ?] ?]| |]; [|done..].
    simpl in Hnew. destruct (if (_ <? _)%N then _ else _) as [[? ?]| |]; [|done..]. by injection Hnew as <-. }
  assert (a_cmax (w_node w n) <= a_cmax (w_node w' n))%N as Hle' by (by rewrite Hw').
  constructor; try done.
  - intros m. rewrite Hm. intros Hin. eapply chunk_ok_mono; [|by apply Hch]. intros; by eapply good_gle.
  - by rewrite Hm, Hw'.
  - eapply boot_K; [exact Hboot|done|]. eapply snap_at_mono; [|exact Hsn]. intros i d. by apply good_gle.
  - by rewrite (sim_commit _ _ _ _ _ _ Hs).
  - exists L. split; [by eapply com_gle|done].
  - by eapply past_later.
  - intros i h. rewrite Hpe. by rewrite lookup_empty.
  - intros p. rewrite Hpr. by intros []%not_elem_of_nil.
  - split; rewrite Hqu; [constructor|]. by intros h []%not_elem_of_nil.
Qed.

(** ** Queueing *)

Lemma NI_enqueue n w g nd p q rq rd wk :
  NI peers n w g nd -> p_done p = false ->
  NI peers n w g (mkNode (n_r nd) (n_sm nd) (n_snapGap nd) (n_maxBatch nd) (n_applied nd) (n_queue nd ++ [length (n_props nd)])
    (n_pending nd) rq q rd wk (n_props nd ++ [p]) (n_rds nd)).
Proof.
  intros [] Hp. assert (forall h, h ∈ n_queue nd -> h < length (n_props nd)) as Hlt.
  { intros h Hh. destruct (proj2 ni_queue h Hh) as [(p' & ? & _) _]. by eapply lookup_lt_Some. }
  constructor; try done; simpl.
  - intros i h Hih. destruct (ni_pending i h Hih) as (p' & e & H1 & H2). exists p', e. simpl. by rewrite (lookup_app_l_Some _ _ _ _ H1).
  - intros p' Hin Hd He. simpl in Hin. apply elem_of_app in Hin as [Hin|Hin%list_elem_of_singleton]; [by apply ni_props|by subst; rewrite Hp in Hd].
  - destruct ni_queue as [Hnd Hu]. split; simpl.
    + apply NoDup_app. split_and!; [done| |apply NoDup_singleton]. intros h Hh ->%list_elem_of_singleton. apply Hlt in Hh. lia.
    + intros h [Hh|Hh%list_elem_of_singleton]%elem_of_app.
      * destruct (Hu h Hh) as [(p' & H1 & H2) H3]. split; [|done]. exists p'. simpl. by rewrite (lookup_app_l_Some _ _ _ _ H1).
      * subst h. split; [exists p; simpl; rewrite list_lookup_middle by done; split; [done|by rewrite Hp]|].
        intros i Hi. simpl in Hi. destruct (ni_pending i _ Hi) as (p' & e & Hl & _). apply lookup_lt_Some in Hl. lia.
Qed.
End Sim.

Section Theorems.
Context {S : Type} `{LS : LogStore S} `{OK : !LogStoreOK S}.
Context {X A : Type} `{HM : Machine X} `{HOK : !MachineOK X A}.
Context (peers : list NodeID) (Hnodup : NoDup peers) (Hzero : 0%N ∉ peers).

#[local] Abbreviation node := (Node S X).
#[local] Abbreviation inv := (inv peers).
#[local] Abbreviation com := (com peers).
#[local] Abbreviation good := (good peers).
#[local] Abbreviation chunks_ok := (chunks_ok peers).
#[local] Abbreviation settled_at := (settled_at peers).
#[local] Abbreviation rstep := (rstep peers).
#[local] Abbreviation rreach := (rreach peers).
Implicit Types (nd : node) (g : ghost) (w : world).

(** ** The invariant of a cluster *)

Definition node_inv n w g (rn : rnode (S:=S) (X:=X)) : Prop :=
  match rn with
  | RUp nd => NI peers n w g nd
  | RDown s x =>
      ls_ok s /\ ls_view s = a_mem (w_node w n) /\ mem_snap (good g) (ls_view s) /\ settled_at n w g x
  end.

Record RI (c : replicas (S:=S) (X:=X)) w g : Prop := {
  ri_inv : inv g w;
  ri_msgs : w_msgs w = rc_msgs c;
  ri_chunks : chunks_ok g w;
  ri_node n : n ∈ peers -> node_inv n w g (rc_node c n);
}.

(** A node is not affected by the moves of the others. *)
Lemma node_inv_other n w g w' g' rn :
  node_inv n w g rn -> inv g' w' -> chunks_ok g' w' -> gle g g' -> w_node w' n = w_node w n ->
  (forall m, m ∈ w_msgs w -> m ∈ w_msgs w') -> node_inv n w' g' rn.
Proof.
  intros Hn Hinv Hc Hle Hw Hm.
  assert (a_cmax (w_node w n) <= a_cmax (w_node w' n))%N as Hcm by (by rewrite Hw).
  assert (forall i d, good g i d -> good g' i d) as Hg by (intros i d; by apply good_gle).
  destruct rn as [nd|s x]; simpl in *.
  - destruct Hn. constructor; try done.
    + rewrite Hw. eapply sim_more; [exact ni_sim|done].
    + eapply K_mono; [exact Hg|lia|done].
    + destruct ni_mach as (L & HL & ?). exists L. split; [by eapply com_gle|done].
    + by eapply past_later.
    + by eapply (pending_gle g).
    + by eapply (props_gle peers g).
  - destruct Hn as (? & ? & ? & ?). rewrite Hw. split_and!; [done|done|by eapply snap_at_mono|by eapply settled_later].
Qed.

Lemma RI_move c w g n rn w' g' Ms :
  RI c w g -> inv g' w' -> chunks_ok g' w' -> gle g g' -> w_msgs w' = Ms ->
  (forall m, m ∈ w_msgs w -> m ∈ w_msgs w') -> (forall n', n' <> n -> w_node w' n' = w_node w n') ->
  node_inv n w' g' rn -> RI (mkReplicas (<[n := rn]> (rc_node c)) Ms) w' g'.
Proof.
  intros [] Hinv Hc Hle Hm Hin Ho Hn. constructor; try done. intros n' Hn'. simpl.
  destruct (decide (n' = n)) as [->|Hne]; [by rewrite fn_lookup_insert|]. rewrite fn_lookup_insert_ne by done.
  eapply node_inv_other; [by apply ri_node0|done|done|done|by apply Ho|done].
Qed.

Lemma RI_up c w g n nd : RI c w g -> n ∈ peers -> rc_node c n = RUp nd -> NI peers n w g nd.
Proof. intros HR Hn Hnd. pose proof (ri_node _ _ _ HR n Hn) as Hi. by rewrite Hnd in Hi. Qed.

(** A node that only changed its own state. *)
Lemma RI_local c w g n nd : RI c w g -> NI peers n w g nd -> RI (mkReplicas (<[n := RUp nd]> (rc_node c)) (rc_msgs c)) w g.
Proof. intros HR HN. pose proof HR as []. eapply RI_move; try done. Qed.

Lemma NI_trace n w g nd : NI peers n w g nd -> NI peers n w g (with_trace [] nd).
Proof.
  intros []. constructor; try done; simpl; [eapply sim_ext; [..|exact ni_sim]; done|]. destruct ni_data. constructor; try done.
Qed.

(** What a crash leaves of a node whose calls were a run. *)
Lemma RI_crash c w g n tr w1 g1 k j s y x w0 g0 :
  RI c w g -> n ∈ peers -> runs peers n w0 g0 tr w1 g1 -> inv g0 w0 -> chunks_ok g0 w0 -> gle g g0 ->
  (forall m, m ∈ w_msgs w -> m ∈ w_msgs w0) -> (forall n', n' <> n -> w_node w0 n' = w_node w n') ->
  mem_snap (good g0) (a_mem (w_node w0 n)) -> settled_at n w0 g0 x -> mo_survives x y -> ls_ok s ->
  ls_view s = foldl (fun v e => apply_eff e v) (a_mem (w_node w0 n)) (survives tr k j) ->
  exists w' g', gle g g' /\ rtc (wstep peers) w0 w' /\ RI (mkReplicas (<[n := RDown s y]> (rc_node c)) (after (take k tr) (w_msgs w0))) w' g'.
Proof.
  intros HR Hn Hr Hinv Hc Hle Hm Ho Hsn Hset Hy Hlo Hlv.
  destruct (runs_cut peers Hnodup Hzero n w0 g0 tr w1 g1 k j Hr Hinv Hn Hc Hsn) as (w' & g' & Hle' & ? & ? & Hm' & Ho' & Hrt & Hcm & Hmem & ?).
  exists w', g'. split; [by eapply gle_trans|]. split; [done|]. eapply RI_move; try done.
  - by eapply gle_trans.
  - intros m Hin. rewrite Hm'. by apply after_incl, Hm.
  - intros n' Hne. by rewrite Ho', Ho.
  - simpl. rewrite Hlv, <-Hmem. split_and!; try done. eapply settled_later; [by eapply settled_survives|done|done].
Qed.

Lemma runs_incl n w g tr w' g' m : runs peers n w g tr w' g' -> m ∈ w_msgs w -> m ∈ w_msgs w'.
Proof. intros Hr Hm. destruct (runs_moved _ _ _ _ _ _ _ Hr) as (_ & -> & _). by apply after_incl. Qed.

(** A completed first part. *)
Lemma first_done c w g n nd op nd1 res :
  RI c w g -> n ∈ peers -> rc_node c n = RUp nd -> op_ok op n (rc_msgs c) -> first_part op (with_trace [] nd) = (nd1, res) ->
  exists w1 g1, runs peers n w g (trace_of nd1) w1 g1 /\ (res = Ret tt -> NI peers n w1 g1 nd1).
Proof.
  intros HR Hn Hnd Hop Hf. pose proof (RI_up _ _ _ _ _ HR Hn Hnd) as HN. rewrite <-(ri_msgs _ _ _ HR) in Hop.
  destruct (first_part_ok peers Hnodup Hzero n Hn op w g _ (NI_trace _ _ _ _ HN) Hop) as (tr & w1 & g1 & Htr & Hr & Hres).
  rewrite Hf in *. simpl in *. exists w1, g1. split; [by rewrite Htr|]. by intros ->.
Qed.

Lemma store_snap n w g nd :
  NI peers n w g nd -> ls_view (r_store (n_r nd)) = a_mem (w_node w n) /\ mem_snap (good g) (a_mem (w_node w n)).
Proof.
  intros HN. destruct (sim_store _ _ _ _ _ _ (ni_sim _ _ _ _ _ HN)) as [_ Hv]. split; [done|]. rewrite <-Hv. apply (ni_data _ _ _ _ _ HN).
Qed.

(** A completed call: the protocol has moved before the machine did, and moves
    again when reads are started and the log is compacted. *)
Lemma op_parts c w g n nd op nd' :
  RI c w g -> n ∈ peers -> rc_node c n = RUp nd -> op_ok op n (rc_msgs c) ->
  node_op op (with_trace [] nd) = (nd', Ret tt) ->
  exists nd1 nd2 w1 g1 w' g',
    (first_part op (with_trace [] nd) = (nd1, Ret tt) /\ machine_part nd1 = (nd2, Ret tt) /\ last_part nd2 = (nd', Ret tt)) /\
    (NI peers n w1 g1 nd2 /\ (n_applied nd1 <= n_applied nd2)%N /\ w_msgs w1 = after (trace_of nd2) (rc_msgs c)) /\
    rtc (wstep peers) w w1 /\ rtc (wstep peers) w1 w' /\
    gle g g' /\ RI (mkReplicas (<[n := RUp nd']> (rc_node c)) (after (trace_of nd') (rc_msgs c))) w' g'.
Proof.
  intros HR Hn Hnd Hop Hrun. rewrite node_op_parts in Hrun. unfold mbind, NM_bind in Hrun.
  destruct (first_part op (with_trace [] nd)) as [nd1 [[]|e|]] eqn:Hf; [|done..].
  destruct (machine_part nd1) as [nd2 [[]|e|]] eqn:Hmc; [|done..]. pose proof (ri_msgs _ _ _ HR) as Hms.
  destruct (first_done _ _ _ _ _ _ _ _ HR Hn Hnd Hop Hf) as (w1 & g1 & Hr1 & HN1). specialize (HN1 eq_refl).
  destruct (machine_part_ok peers Hnodup n w1 g1 nd1 HN1) as [Htr2 Hmid]. rewrite Hmc in Htr2, Hmid. destruct Hmid as (HN2 & Hc2 & Ha2).
  destruct (last_part_ok peers Hnodup Hzero n Hn w1 g1 nd2 HN2 Hc2) as (tr & w' & g' & Htr & Hr2 & HN'). rewrite Hrun in Htr, HN'.
  destruct (runs_moved _ _ _ _ _ _ _ Hr1) as (_ & Hm1 & Ho1 & Hs1). destruct (runs_moved _ _ _ _ _ _ _ Hr2) as (_ & Hm2 & Ho2 & Hs2).
  pose proof (runs_gle _ _ _ _ _ _ _ Hr1) as Hle1. pose proof (runs_gle _ _ _ _ _ _ _ Hr2) as Hle2. simpl in *.
  exists nd1, nd2, w1, g1, w', g'. rewrite <-Hms. split_and!; try done; [by rewrite Htr2|by eapply gle_trans|].
  assert (after (trace_of nd') (w_msgs w) = w_msgs w') as -> by (by rewrite Htr, Htr2, after_app, <-Hm1).
  eapply RI_move; try done; [apply HN'|apply HN'|by eapply gle_trans| |].
  - intros m Hin. eapply runs_incl; [exact Hr2|]. by eapply runs_incl.
  - intros n' Hne. by rewrite Ho2, Ho1.
Qed.

Lemma rsim c w g c' : RI c w g -> rstep c c' -> exists w' g', gle g g' /\ rtc (wstep peers) w w' /\ RI c' w' g'.
Proof.
  intros HR Hst. destruct Hst as [n nd op nd' Hn Hnd Hop Hrun|n nd data Hn Hnd|n nd Hn Hnd|n nd Hn Hnd
    |n nd op nd1 res k j s y Hn Hnd Hop Hf [Hlo Hlv] Hy|n nd op nd1 k nd2 res s y Hn Hnd Hop Hf Hmc Hlo Hlv Hy
    |n nd op nd1 nd2 nd3 res k j s y Hn Hnd Hop Hf Hmc Hl [Hlo Hlv] Hy|n cfg s y rng gap mb nd Hn Hnd Hid Hp Hnew].
  - destruct (op_parts _ _ _ _ _ _ _ HR Hn Hnd Hop Hrun) as (_ & _ & w1 & _ & w' & g' & _ & _ & H1 & H2 & ? & ?).
    exists w', g'. split_and!; [done|by etrans|done].
  - exists w, g. split; [apply gle_refl|]. split; [done|]. apply RI_local; [done|]. exact (NI_enqueue peers n w g nd (mkProposal data 0 0 [] None false) _ _ _ true (RI_up _ _ _ _ _ HR Hn Hnd) eq_refl).
  - exists w, g. split; [apply gle_refl|]. split; [done|]. apply RI_local; [done|]. eapply NI_ext; [..|by eapply RI_up]; done.
  - exists w, g. split; [apply gle_refl|]. split; [done|]. apply RI_local; [done|]. eapply NI_ext; [..|by eapply RI_up]; done.
  - pose proof (RI_up _ _ _ _ _ HR Hn Hnd) as HN. destruct (first_done _ _ _ _ _ _ _ _ HR Hn Hnd Hop Hf) as (w1 & g1 & Hr & _).
    destruct (store_snap _ _ _ _ HN) as [Hv Hsn]. rewrite <-(ri_msgs _ _ _ HR). rewrite Hv in Hlv.
    eapply (RI_crash c w g n _ w1 g1 k j s y (n_sm nd) w g); try done; [apply HR|apply HR|by apply NI_settled].
  - destruct (first_done _ _ _ _ _ _ _ _ HR Hn Hnd Hop Hf) as (w1 & g1 & Hr & HN1). specialize (HN1 eq_refl).
    destruct (machine_cut_ok peers Hnodup n w1 g1 k nd1 HN1) as [_ Hmid]. rewrite Hmc in Hmid. simpl in Hmid.
    assert (settled_at n w1 g1 (n_sm nd2)) as Hset by (destruct res; [by apply NI_settled|done..]).
    destruct (store_snap _ _ _ _ HN1) as [Hv Hsn]. destruct (runs_moved _ _ _ _ _ _ _ Hr) as (_ & Hm & Ho & Hs).
    rewrite <-(ri_msgs _ _ _ HR), <-Hm. rewrite Hv in Hlv.
    edestruct (RI_crash c w g n [] w1 g1 0 0 s y (n_sm nd2) w1 g1) as (w' & g' & ? & ? & ?); try done; [constructor|apply HN1|apply HN1|by eapply runs_gle| |].
    { intros m. by eapply runs_incl. }
    exists w', g'. split_and!; [done|by etrans|done].
  - destruct (first_done _ _ _ _ _ _ _ _ HR Hn Hnd Hop Hf) as (w1 & g1 & Hr & HN1). specialize (HN1 eq_refl).
    destruct (machine_part_ok peers Hnodup n w1 g1 nd1 HN1) as [_ Hmid]. rewrite Hmc in Hmid. simpl in Hmid. destruct Hmid as (HN2 & Hc2 & _).
    destruct (last_part_ok peers Hnodup Hzero n Hn w1 g1 _ (NI_trace _ _ _ _ HN2) Hc2) as (tr & w2 & g2 & Htr & Hr2 & _).
    rewrite Hl in Htr. simpl in Htr. rewrite Htr in *. unfold trace_of in *. simpl in *.
    destruct (store_snap _ _ _ _ HN2) as [Hv Hsn]. destruct (runs_moved _ _ _ _ _ _ _ Hr) as (_ & Hm & Ho & Hs).
    rewrite <-(ri_msgs _ _ _ HR), <-Hm. rewrite Hv in Hlv.
    edestruct (RI_crash c w g n tr w2 g2 k j s y (n_sm nd2) w1 g1) as (w' & g' & ? & ? & ?); try done;
      [apply HN2|apply HN2|by eapply runs_gle| |by apply NI_settled|].
    { intros m. by eapply runs_incl. }
    exists w', g'. split_and!; [done|by etrans|done].
  - pose proof (ri_node _ _ _ HR n Hn) as Hi. rewrite Hnd in Hi. destruct Hi as (Hlo & Hlv & Hsn & Hset).
    destruct (restart_ok peers Hnodup Hzero n cfg s rng y gap mb nd w g Hn Hnew Hid Hp (ri_inv _ _ _ HR) (ri_chunks _ _ _ HR) Hlo Hlv Hsn Hset)
      as (w' & g' & (_ & Hm & Ho & Hs) & Hle & HN'). simpl in Hm. exists w', g'. split; [done|]. split; [done|].
    rewrite <-(ri_msgs _ _ _ HR). eapply RI_move; try done; [apply HN'|apply HN'|]. intros m. by rewrite Hm.
Qed.

Lemma rreach_RI c : rreach c -> exists w g, reachable peers w /\ RI c w g.
Proof.
  induction 1 as [c [Hm Hc]|c c' _ (w & g & Hw & HR) Hst].
  - destruct (reachable_inv peers Hnodup w_init (reach_start peers)) as [g Hinv]. exists w_init, g. split; [apply reach_start|]. constructor; try done.
    + intros m. by intros []%not_elem_of_nil.
    + intros n _. destruct (Hc n) as (s & x & -> & Hlo & Hlv & Hx & Hp). simpl.
      assert (played peers n w_init g mo_init) as Hpl.
      { exists []. split_and!; [apply com_nil|unfold len; simpl; lia|done]. }
      split_and!; [done|done|left; by rewrite Hlv|]. split; [by exists mo_init|]. intros b Hb. by rewrite (Hp b Hb).
  - destruct (rsim c w g c' HR Hst) as (w' & g' & _ & Hs & HR'). exists w', g'. split; [by eapply reachable_rtc|done].
Qed.

Lemma rsteps_RI c c' w g : RI c w g -> rtc rstep c c' -> exists w' g', gle g g' /\ rtc (wstep peers) w w' /\ RI c' w' g'.
Proof.
  intros HR Hs. revert w g HR. induction Hs as [c|c c1 c2 Hst _ IH]; intros w g HR.
  - exists w, g. split; [apply gle_refl|by split].
  - destruct (rsim c w g c1 HR Hst) as (w1 & g1 & Hle & Hs1 & HR1). destruct (IH w1 g1 HR1) as (w2 & g2 & Hle2 & Hs2 & HR2).
    exists w2, g2. split_and!; [by eapply gle_trans|by etrans|done].
Qed.

(** ** One log *)

(** The indexes a node speaks of. *)
Definition acked_ok (p : Proposal) : bool := p_done p && bool_decide (p_Err p = None).

Definition indexes (rn : rnode (S:=S) (X:=X)) : list N :=
  match rn with
  | RUp nd => n_applied nd :: (p_Index <$> filter acked_ok (n_props nd))
  | RDown _ _ => []
  end.

Lemma indexes_com c w g n i :
  RI c w g -> n ∈ peers -> i ∈ indexes (rc_node c n) -> exists L, com g i L.
Proof.
  intros HR Hn Hi. pose proof (ri_node _ _ _ HR n Hn) as HN. destruct (rc_node c n) as [nd|s x]; simpl in *; [|by apply not_elem_of_nil in Hi].
  apply elem_of_cons in Hi as [->|Hi]; [destruct (ni_mach _ _ _ _ _ HN) as (L & ? & _); by exists L|].
  apply list_elem_of_fmap in Hi as (p & -> & [Hp Hin]%list_elem_of_filter). apply Is_true_true in Hp. unfold acked_ok in Hp. bool_to_prop.
  destruct (ni_props _ _ _ _ _ HN p Hin) as [(L & e & HL & _) _]; [done|done|]. by exists (L ++ [e]).
Qed.

Lemma com_longest g w idx : Forall (fun i => exists L, com g i L) idx -> exists L, com g (len L) L /\ Forall (fun i => (i <= len L)%N) idx.
Proof.
  induction 1 as [|i idx (Li & HLi) _ (L & HL & Hle)]; [exists []; split; [apply com_nil|constructor]|].
  pose proof HLi as [Hi _]. destruct (N.le_ge_cases i (len L)) as [Hc|Hc].
  - exists L. split; [done|]. by constructor.
  - exists Li. rewrite Hi. split; [done|]. constructor; [done|]. eapply Forall_impl; [exact Hle|]. simpl. lia.
Qed.

Definition up (c : replicas (S:=S) (X:=X)) (n : NodeID) nd : Prop := n ∈ peers /\ rc_node c n = RUp nd.

(** What one log says about a node. *)
Definition follows (L : list Entry) nd : Prop :=
  (n_applied nd <= len L)%N /\ mo_holds (n_sm nd) (play (pre (n_applied nd) L)) /\
  forall p, p ∈ n_props nd -> p_done p = true -> p_Err p = None ->
    (0 < p_Index p <= n_applied nd)%N /\ exists e, L !! N.to_nat (p_Index p - 1) = Some e /\ e_Type e = EntryNormal /\ e_Data e = p_data p /\
      p_Result p = (mo_step e (play (pre (p_Index p - 1) L))).2.

Lemma NI_follows n w g w0 g0 nd L :
  NI peers n w0 g0 nd -> gle g0 g -> inv g w -> com g (len L) L -> Forall (fun i => (i <= len L)%N) (indexes (RUp nd)) -> follows L nd.
Proof.
  intros HN Hle Hinv HL Hi. inversion Hi as [|? ? Ha Hps]; subst. split; [done|].
  destruct (ni_mach _ _ _ _ _ HN) as (L0 & HL0 & Hh). apply (com_gle peers g0 g _ _ Hle) in HL0.
  rewrite <-(com_agree peers Hnodup g w _ _ _ _ Hinv HL0 HL Ha). split; [done|]. intros p Hin Hd He.
  assert (p_Index p <= len L)%N as Hpi.
  { rewrite Forall_forall in Hps. apply Hps, list_elem_of_fmap. exists p. split; [done|]. apply list_elem_of_filter. split; [|done].
    unfold acked_ok. by rewrite Hd, bool_decide_true. }
  destruct (ni_props _ _ _ _ _ HN p Hin Hd He) as [(Lp & e & HLp & H1 & H2 & H3) Hia]. pose proof HLp as [Hlen _].
  apply (com_gle peers g0 g _ _ Hle) in HLp. pose proof (com_agree peers Hnodup g w _ _ _ _ Hinv HLp HL Hpi) as Heq.
  unfold len in Hlen. rewrite length_app in Hlen. simpl in Hlen. split; [lia|].
  assert (N.to_nat (p_Index p - 1) = length Lp) as Hk by lia. exists e. rewrite Hk. split_and!; [|done|done|].
  - assert ((Lp ++ [e]) !! length Lp = Some e) as Hl by (by apply list_lookup_middle). rewrite Heq in Hl. unfold pre in Hl.
    by apply lookup_take_Some in Hl as [? _].
  - rewrite H3. assert (pre (p_Index p - 1) L = Lp) as ->; [|done].
    assert (pre (p_Index p - 1) (pre (p_Index p) L) = Lp) as <-.
    { rewrite <-Heq. unfold pre. rewrite Hk. by rewrite take_app_length. }
    symmetry. apply pre_pre. lia.
Qed.

(** State machine replication.  At any two moments of a run, with any
    messages lost, repeated or reordered and any nodes crashing inside any
    call and restarting, there is one log such that the machine of every
    running node, at either moment, holds what the first [n_applied] entries
    of that log give, and every proposal that a node has acknowledged is in
    that log at the index it was told, with the data that was proposed and
    the result that the log up to it gives. *)
Theorem one_log c c' :
  rreach c -> rtc rstep c c' ->
  exists L, numbered L /\ forall n nd, up c n nd \/ up c' n nd -> follows L nd.
Proof.
  intros Hc Hs. destruct (rreach_RI c Hc) as (w & g & _ & HR). destruct (rsteps_RI c c' w g HR Hs) as (w' & g' & Hle & _ & HR').
  destruct (com_longest g' w' (concat ((fun n => indexes (rc_node c n)) <$> peers) ++ concat ((fun n => indexes (rc_node c' n)) <$> peers)))
    as (L & HL & Hi).
  { apply Forall_app. split; apply Forall_concat, Forall_fmap, Forall_forall; intros n Hn; apply Forall_forall; intros i Hi.
    - destruct (indexes_com c w g n i HR Hn Hi) as (L & HL). exists L. by eapply com_gle.
    - by eapply indexes_com. }
  pose proof (ri_inv _ _ _ HR') as Hinv. exists L. split; [by eapply com_numbered|]. apply Forall_app in Hi as [Hi1 Hi2].
  rewrite !Forall_concat, !Forall_fmap, !Forall_forall in *. intros n nd [[Hn Hnd]|[Hn Hnd]].
  - apply (NI_follows n w' g' w g); [by apply (RI_up c)|done|done|done|]. specialize (Hi1 n Hn). simpl in Hi1. by rewrite Hnd in Hi1.
  - apply (NI_follows n w' g' w' g'); [by apply (RI_up c')|apply gle_refl|done|done|]. specialize (Hi2 n Hn). simpl in Hi2. by rewrite Hnd in Hi2.
Qed.
End Theorems.
