(* ===== verification/NodeReads.v ===== *)
(** * Reads of a node

    What a node keeps about the reads its callers wait on: a read that it
    has settled without an error was given an index that a majority
    confirmed, and the node has applied that index.  The facts hold through
    every part of every call, and the messages of a call that a crash cuts
    short carry only numbers that they may carry. *)

From stdpp Require Import base list gmap.
From S2P Require Import Prelude LogStore Raft Refine RaftCalls SnapData Node Replica.

(** * Read rounds

    A read round is a number, a commit index and the nodes that have answered
    since it was started.  Every call of [Raft] keeps the rounds of a leader
    as they were started, only counts answers it was sent, and puts a round
    into the ready list when a majority has answered; and every message
    carries no number, the number of the message it answers, or the number of
    a round of this node. *)

Section Reads.
Context {S : Type} `{LS : LogStore S}.

(** Round [id] of term [T] was started at commit index [i]; node [p] has
    answered it; round [id] is confirmed at index [i]. *)
Context (started : N -> N -> N -> Prop) (ackd : N -> N -> NodeID -> Prop) (confirmed : N -> N -> Prop).

(** The numbers of messages this node answers, and its last own number. *)
Context (echo : NodeID -> N -> Prop).
Context (cfg : Config) (nx : N).
Context (Hconf : forall T id i (Q : gset NodeID), started T id i -> (forall p, p ∈ Q -> ackd T id p) ->
  length (c_Peers cfg) / 2 + 1 <= size Q -> confirmed id i).

Implicit Types r : Raft S.

Definition rid_ok (e : effect) : Prop :=
  match e with
  | ESend m =>
      m_From m = c_ID cfg /\ (m_Type m = MsgApp -> (m_ReadID m <= nx)%N) /\
      (m_Type m = MsgAppResp -> m_ReadID m = 0%N \/ echo (m_To m) (m_ReadID m))
  | _ => True
  end.

Definition round_ok (T id : N) (rd : readRound) : Prop :=
  started T id (rd_index rd) /\ forall p, p ∈ rd_acks rd -> ackd T id p.

Definition rounds_ok r : Prop :=
  (r_state r <> Leader -> r_reads r = None) /\
  forall reads id rd, r_reads r = Some reads -> reads !! id = Some rd -> round_ok (r_term r) id rd.

Record V r : Prop := {
  v_cfg : r_cfg r = cfg;
  v_next : r_nextReadID r = nx;
  v_ready : forall rr, rr ∈ r_ready r -> confirmed (rr_ID rr) (rr_Index rr);
  v_trace : Forall rid_ok (r_trace r);
  v_rounds : rounds_ok r;
}.

Lemma V_ext r r' :
  r_cfg r' = r_cfg r -> r_nextReadID r' = r_nextReadID r -> r_ready r' = r_ready r -> r_trace r' = r_trace r ->
  r_state r' = r_state r -> r_reads r' = r_reads r -> r_term r' = r_term r -> V r -> V r'.
Proof. intros H1 H2 H3 H4 H5 H6 H7 []. constructor; unfold rounds_ok in *; rewrite ?H1, ?H2, ?H3, ?H4, ?H5, ?H6, ?H7; done. Qed.

(** No rounds at all. *)
Lemma V_none r r' :
  r_cfg r' = r_cfg r -> r_nextReadID r' = r_nextReadID r -> r_ready r' = r_ready r -> r_trace r' = r_trace r ->
  r_reads r' = None \/ (r_reads r' = Some ∅ /\ r_state r' = Leader) -> V r -> V r'.
Proof.
  intros H1 H2 H3 H4 H5 []. constructor; rewrite ?H1, ?H2, ?H3, ?H4; try done. unfold rounds_ok.
  destruct H5 as [-> |[-> ->]]; split; try done. intros reads id rd [= <-]. by rewrite lookup_empty.
Qed.

Definition vwp {A} (m : @M S A) (Q : A -> Raft S -> Prop) r : Prop :=
  match (m r).2 with
  | Ret x => Q x (m r).1
  | Fail _ => V (m r).1
  | Panic => Forall rid_ok (r_trace (m r).1)
  end.

Lemma vwp_ret {A} (x : A) (Q : A -> Raft S -> Prop) r : Q x r -> vwp (mret x) Q r.
Proof. done. Qed.

Lemma vwp_bind {A B} (m : @M S A) (f : A -> @M S B) Q r :
  vwp m (fun x => vwp (f x) Q) r -> vwp (m ≫= f) Q r.
Proof. unfold vwp, mbind, M_bind. by destruct (m r) as [r1 [x|e|]]. Qed.

Lemma vwp_mono {A} (m : @M S A) (Q Q' : A -> Raft S -> Prop) r :
  vwp m Q r -> (forall x r', Q x r' -> Q' x r') -> vwp m Q' r.
Proof. unfold vwp. destruct (m r) as [r1 [x|e|]]; simpl; auto. Qed.

Lemma vwp_get {A} (f : Raft S -> A) (Q : A -> Raft S -> Prop) r : Q (f r) r -> vwp (get f) Q r.
Proof. done. Qed.

Lemma vwp_modify f (Q : unit -> Raft S -> Prop) r : Q tt (f r) -> vwp (modify f) Q r.
Proof. done. Qed.

Lemma vwp_panic {A} Q r : V r -> vwp (@panic S A) Q r.
Proof. intros []. done. Qed.

Lemma vwp_raise {A} e Q r : V r -> vwp (@raise S A e) Q r.
Proof. done. Qed.

Lemma vwp_must {A} (f : S -> go A) (Q : A -> Raft S -> Prop) r :
  V r -> (forall x, f (r_store r) = Ret x -> Q x r) -> vwp (must f) Q r.
Proof. unfold vwp, must. intros [] HQ. destruct (f (r_store r)) eqn:Hf; simpl; auto. Qed.

(** Writes are no messages. *)
Lemma vwp_write eff f (Q : unit -> Raft S -> Prop) r :
  Forall rid_ok (r_trace r) -> rid_ok eff ->
  (forall s, Forall rid_ok (r_trace r ++ [eff]) -> Q tt (set_trace (r_trace r ++ [eff]) (set_store s r))) ->
  vwp (write eff f) Q r.
Proof.
  unfold vwp, write. intros Ht He HQ.
  assert (Forall rid_ok (r_trace r ++ [eff])) by (apply Forall_app; split; [done|by constructor]).
  destruct (f (r_store r)) as [s|e|] eqn:Hf; simpl; [by apply HQ| |done]. by destruct e.
Qed.

Lemma vwp_persist (Q : unit -> Raft S -> Prop) r :
  Forall rid_ok (r_trace r) ->
  (forall s, let tr := r_trace r ++ [EState (r_term r) (r_vote r)] in Forall rid_ok tr -> Q tt (set_trace tr (set_store s r))) ->
  vwp persistState Q r.
Proof. intros Ht HQ. exact (vwp_write (EState (r_term r) (r_vote r)) (ls_SetState (r_term r) (r_vote r)) Q r Ht I HQ). Qed.

Lemma vwp_for_each {A} (l : list A) (f : A -> @M S unit) (I : Raft S -> Prop) r :
  I r -> (forall x r, I r -> vwp (f x) (fun _ => I) r) -> vwp (for_each l f) (fun _ => I) r.
Proof.
  intros HI Hf. revert r HI. induction l as [|y ys IH]; intros r HI; simpl; [done|].
  apply vwp_bind. eapply vwp_mono; [by apply Hf|]. intros ? r'. apply IH.
Qed.

#[local] Abbreviation keep m := (vwp m (fun _ => V)).

Ltac vkeep := match goal with |- V _ => first [eassumption | eapply V_ext; [..|eassumption]; reflexivity] end.
Ltac vstep :=
  match goal with
  | |- vwp (_ ≫= _) _ _ => apply vwp_bind
  | |- vwp (mret _) _ _ => apply vwp_ret
  | |- vwp (get _) _ _ => apply vwp_get
  | |- vwp (modify _) _ _ => apply vwp_modify
  | |- vwp panic _ _ => apply vwp_panic
  | |- vwp (raise _) _ _ => apply vwp_raise
  | |- vwp LastIndex _ _ => apply vwp_get
  | |- vwp FirstIndex _ _ => apply vwp_get
  | |- vwp (must _) _ _ => apply vwp_must; [try vkeep|intros ? ?]
  | |- vwp (termAt _) _ _ => apply vwp_must; [try vkeep|intros ? ?]
  | |- vwp (if ?b then _ else _) _ _ => destruct b eqn:?
  | |- vwp (match ?b with _ => _ end) _ _ => destruct b eqn:?
  | |- vwp (let '(_, _) := ?b in _) _ _ => destruct b eqn:?
  end.
Ltac vcall H := eapply vwp_mono; [apply H; try vkeep; try done|let HV' := fresh "HVc" in intros ? ? HV'; cbv beta in HV'].
Ltac vgo := repeat (vstep; cbv beta); try done; try vkeep.

(** ** Sending *)

Lemma send_V m r :
  (m_Type m = MsgApp -> (m_ReadID m <= nx)%N) ->
  (m_Type m = MsgAppResp -> m_ReadID m = 0%N \/ echo (m_To m) (m_ReadID m)) -> V r -> keep (send m) r.
Proof.
  intros H1 H2 []. unfold vwp, send. constructor; try done. cbn. apply Forall_app. split; [done|]. constructor; [|done].
  split_and!; [|done..]. simpl. unfold r_id. by rewrite v_cfg0.
Qed.

(** A message without a number. *)
Lemma send_plain_V m r : m_ReadID m = 0%N -> V r -> keep (send m) r.
Proof. intros Hm. apply send_V; intros _; rewrite Hm; [lia|by left]. Qed.

Ltac vsend := apply send_plain_V; [done|try vkeep].

Lemma put_next_V p i r : V r -> keep (put_next p i) r.
Proof. intros HV. unfold put_next, mput. vgo. Qed.
Lemma put_match_V p i r : V r -> keep (put_match p i) r.
Proof. intros HV. unfold put_match, mput. vgo. Qed.
Lemma put_snapOut_V p x r : V r -> keep (put_snapOut p x) r.
Proof. intros HV. unfold put_snapOut, mput. vgo. Qed.
Lemma resetTimeout_V r : V r -> keep resetTimeout r.
Proof. intros HV. unfold vwp, resetTimeout. destruct (r_rng r); cbn; vkeep. Qed.

Lemma write_V eff f r : rid_ok eff -> V r -> keep (write eff f) r.
Proof. intros He HV. apply vwp_write; [apply HV|done|]. intros s Ht. destruct HV. by constructor. Qed.

Lemma persistState_V r : V r -> keep persistState r.
Proof.
  intros HV. apply vwp_persist; [apply HV|]. intros s tr Ht. destruct HV. by constructor.
Qed.

Lemma sendChunk_V to x r : V r -> keep (sendChunk to x) r.
Proof. intros HV. unfold sendChunk. vgo. vsend. Qed.

Lemma sendSnapshot_V to r : V r -> keep (sendSnapshot to) r.
Proof. intros HV. unfold sendSnapshot. vgo; try (vcall put_snapOut_V; vgo); by apply sendChunk_V. Qed.

Lemma sendAppend_V to id r : (id <= nx)%N -> V r -> keep (sendAppend to id) r.
Proof.
  intros Hid HV. unfold sendAppend. vgo; try (by apply sendSnapshot_V); try (by apply send_V).
  vcall put_next_V. vgo. by apply send_V.
Qed.

Lemma broadcastAppend_V r : V r -> keep broadcastAppend r.
Proof. intros HV. unfold broadcastAppend. vgo. apply vwp_for_each; [done|]. intros p rp HVp. apply sendAppend_V; [lia|done]. Qed.

Lemma maybeCommit_V r : V r -> keep maybeCommit r.
Proof. intros HV. unfold maybeCommit. vgo. Qed.

Lemma first_of_term_V fuel first i t r : V r -> keep (first_of_term fuel first i t) r.
Proof. intros HV. revert i. induction fuel as [|fuel IH]; intros i; simpl; vgo; apply IH. Qed.

Lemma last_of_term_V fuel first i t r : V r -> keep (last_of_term fuel first i t) r.
Proof. intros HV. revert i. induction fuel as [|fuel IH]; intros i; simpl; vgo; apply IH. Qed.

Lemma handleVote_V m r : V r -> keep (handleVote m) r.
Proof. intros HV. unfold handleVote, lastIndexAndTerm. vgo; try vsend. vcall persistState_V. vgo; vsend. Qed.

Lemma advance_match_V p i r : V r -> keep (advance_match p i) r.
Proof. intros HV. unfold advance_match. vgo; try (vcall put_match_V; vgo); by apply put_next_V. Qed.

(** ** Rounds *)

Lemma lookup_round r id rd : V r -> r_reads r ≫= lookup id = Some rd -> round_ok (r_term r) id rd /\ r_state r = Leader.
Proof.
  intros [_ _ _ _ [Hn Hr]] Hl. destruct (r_reads r) as [reads|] eqn:Er; [|done]. split; [by apply (Hr reads)|].
  destruct (decide (r_state r = Leader)); [done|]. by specialize (Hn n).
Qed.

(** A round with enough answers. *)
Lemma completeRead_V id r rd :
  V r -> r_reads r ≫= lookup id = Some rd -> length (c_Peers cfg) / 2 + 1 <= size (rd_acks rd) -> keep (completeRead id) r.
Proof.
  intros HV Hl Hq. destruct (lookup_round r id rd HV Hl) as [[Hs Ha] Hlead]. unfold completeRead. apply vwp_bind, vwp_get. rewrite Hl.
  apply vwp_modify. destruct HV as [H1 H2 H3 H4 [H5 H6]]. constructor; try done.
  - intros rr [Hin|Hin%list_elem_of_singleton]%elem_of_app; [by apply H3|]. subst rr. simpl. by eapply Hconf.
  - split; [done|]. simpl. intros reads id' rd'. destruct (r_reads r) as [rds|] eqn:Er; [|done]. simpl. intros [= <-].
    rewrite lookup_delete_Some. intros [_ Hx]. by apply (H6 rds).
Qed.

Lemma put_round r reads id rd : V r -> r_reads r = Some reads -> round_ok (r_term r) id rd -> V (set_reads (Some (<[id := rd]> reads)) r).
Proof.
  intros [H1 H2 H3 H4 [H5 H6]] Hr Hrd. constructor; try done. split.
  - simpl. intros Hl. rewrite Hr in H5. by specialize (H5 Hl).
  - simpl. intros reads' id' rd' [= <-]. destruct (decide (id' = id)) as [->|Hne].
    + rewrite lookup_insert_eq. by intros [= <-].
    + rewrite lookup_insert_ne by done. by apply H6.
Qed.

Lemma ackRead_V id from r : ackd (r_term r) id from -> V r -> keep (ackRead id from) r.
Proof.
  intros Ha HV. unfold ackRead. apply vwp_bind, vwp_get. destruct (r_reads r ≫= lookup id) as [rd|] eqn:El; [|by apply vwp_ret].
  destruct (lookup_round r id rd HV El) as [[Hs Hacks] _]. destruct (r_reads r) as [reads|] eqn:Er; [|done].
  unfold mput. apply vwp_bind, vwp_modify. set (rd' := mkRound (rd_index rd) ({[from]} ∪ rd_acks rd)).
  assert (V (set_reads (Some (<[id := rd']> reads)) r)) as HV'.
  { apply put_round; [done|done|]. split; [done|]. simpl. intros p [->%elem_of_singleton|]%elem_of_union; auto. }
  apply vwp_bind, vwp_get. match goal with |- vwp (if ?b then _ else _) _ _ => destruct b eqn:Eb end; [|by apply vwp_ret].
  apply (completeRead_V id _ rd'); [done|simpl; apply lookup_insert_eq|]. simpl. bool_to_prop.
  unfold quorum, r_peers in Eb. simpl in Eb. by rewrite (v_cfg _ HV) in Eb.
Qed.

(** ** Roles *)

(** A follower has no rounds. *)
Lemma stepped_down p r r1 :
  V r -> r_cfg r1 = r_cfg r -> r_nextReadID r1 = r_nextReadID r -> r_ready r1 = r_ready r -> Forall rid_ok (r_trace r1) ->
  V (set_snapOut None (set_reads None (set_match None (set_next None (set_votes None (set_lead p (set_state Follower r1))))))).
Proof.
  intros [H1 H2 H3 _ _] E1 E2 E3 Ht. constructor; cbn.
  - by rewrite E1.
  - by rewrite E2.
  - by rewrite E3.
  - done.
  - split; [done|]. intros reads id rd. cbn. by intros [=].
Qed.

Lemma resetTimeout_state r : V r -> vwp resetTimeout (fun _ r' => V r' /\ r_state r' = r_state r) r.
Proof. intros HV. unfold vwp, resetTimeout. destruct (r_rng r); cbn; (split; [vkeep|done]). Qed.

Lemma becomeFollower_V t p r : V r -> vwp (becomeFollower t p) (fun _ r' => V r' /\ r_state r' = Follower) r.
Proof.
  intros HV. unfold becomeFollower. apply vwp_bind, vwp_get, vwp_bind.
  apply (vwp_mono _ (fun _ r1 => r_cfg r1 = r_cfg r /\ r_nextReadID r1 = r_nextReadID r /\ r_ready r1 = r_ready r /\ Forall rid_ok (r_trace r1))).
  { destruct (_ <? _)%N; [|apply vwp_ret; split_and!; try done; apply HV]. apply vwp_bind, vwp_modify, vwp_persist; [apply HV|].
    intros s tr Ht. by split_and!. }
  intros ? r1 (E1 & E2 & E3 & Ht). apply vwp_bind, vwp_get, vwp_bind, vwp_modify.
  pose proof (stepped_down p r r1 HV E1 E2 E3 Ht) as HV2. destruct (bool_decide _); [|apply vwp_ret; by split].
  eapply vwp_mono; [by apply resetTimeout_state|]. intros ? r3 [HV3 Hs]. split; [done|]. by rewrite Hs.
Qed.

Lemma send_early_V last pt es one ps r : V r -> keep (send_early last pt es one ps) r.
Proof.
  revert r. induction ps as [|p ps IH]; intros r HV; simpl; [done|]. vgo; [by apply IH|].
  vcall put_next_V. vgo. eapply vwp_mono; [vsend|]. intros ? r2 HV2. vgo. vcall IH. vgo.
Qed.

Lemma appendEntries_V es r : V r -> keep (appendEntries es) r.
Proof.
  intros HV. unfold appendEntries. vgo. vcall send_early_V. vgo. vcall write_V. vgo. vcall put_match_V. vgo.
  eapply vwp_mono; [apply (vwp_for_each _ _ V); [done|]|].
  - intros p rp HVp. vgo. apply sendAppend_V; [lia|done].
  - intros ? r3 HV3. cbv beta. vgo. vcall maybeCommit_V. vgo.
Qed.

Lemma becomeLeader_V r : V r -> keep becomeLeader r.
Proof.
  intros HV. unfold becomeLeader. vgo.
  eapply vwp_mono; [apply appendEntries_V; apply (V_none r); [done..|by right|done]|]. intros ? r1 HV1. vgo.
Qed.

(** A node that is not the leader has no rounds. *)
Lemma becomeCandidate_V r : r_state r <> Leader -> V r -> keep becomeCandidate r.
Proof.
  intros Hst HV. assert (r_reads r = None) as Hr by (by apply (v_rounds _ HV)).
  unfold becomeCandidate, lastIndexAndTerm. do 2 vstep. vstep.
  apply (vwp_mono _ (fun _ r1 => V r1 /\ r_reads r1 = None)).
  { apply vwp_persist; [apply HV|]. intros s tr Ht. split; [|done]. apply (V_none (set_trace tr r));
      try done; [by left|]. destruct HV. by constructor. }
  intros ? r1 [HV1 Hr1]. vstep. vstep. cbv beta. vstep.
  eapply vwp_mono; [apply resetTimeout_V; apply (V_none r1); try done; by left|]. intros ? r2 HV2. vgo.
  - by apply becomeLeader_V.
  - apply vwp_for_each; [done|]. intros p rp HVp. vsend.
Qed.

(** ** Calls *)

Lemma Tick_V r : V r -> keep Tick r.
Proof.
  intros HV. unfold Tick. vgo; try (apply broadcastAppend_V; vkeep).
  all: apply becomeCandidate_V; [unfold id in *; simpl in *; congruence|vkeep].
Qed.

Lemma Propose_V ps r : V r -> keep (Propose ps) r.
Proof. intros HV. unfold Propose. vgo. by apply appendEntries_V. Qed.

Lemma TakeReady_V r : V r ->
  vwp TakeReady (fun out r' => V r' /\ forall rr, rr ∈ out -> confirmed (rr_ID rr) (rr_Index rr)) r.
Proof.
  intros HV. unfold TakeReady. vgo. destruct HV. split; [|done]. constructor; try done. by intros rr Hx%not_elem_of_nil.
Qed.

Lemma TakeRestored_V r : V r -> keep TakeRestored r.
Proof. intros HV. unfold TakeRestored. vgo. Qed.

Lemma Compact_V i d r : V r -> keep (t ← termAt i; write (ECompact i t d) (ls_Compact i t d)) r.
Proof. intros HV. vgo. by apply write_V. Qed.

(** ** Messages *)

Section Message.
Context (m : Message).
Context (Hecho : m_Type m = MsgApp -> echo (m_From m) (m_ReadID m)).
Context (Hack : m_Type m = MsgAppResp -> m_ReadID m <> 0%N -> ackd (m_Term m) (m_ReadID m) (m_From m)).

Lemma rejectStale_V r : V r -> keep (rejectStale m) r.
Proof. intros HV. unfold rejectStale. vgo; try vsend. apply send_V; [done| |done]. intros _. right. by apply Hecho. Qed.

Lemma handleVoteResp_V r : V r -> keep (handleVoteResp m) r.
Proof.
  intros HV. unfold handleVoteResp, mput. vgo; [apply becomeLeader_V; vkeep|].
  eapply vwp_mono; [apply becomeFollower_V; vkeep|]. by intros ? ? [? _].
Qed.

Lemma follow_V r : V r -> keep (follow m) r.
Proof.
  intros HV. unfold follow. vgo. eapply vwp_mono; [by apply becomeFollower_V|]. intros ? r1 [HV1 _]. vgo.
Qed.

Lemma append_from_V last es r : V r -> keep (append_from last es) r.
Proof. intros HV. revert last. induction es as [|e es IH]; intros last; simpl; vgo; auto; by apply write_V. Qed.

Lemma handleAppend_V r : m_Type m = MsgApp -> V r -> keep (handleAppend m) r.
Proof.
  intros Hm HV. unfold handleAppend, firstIndexOfTerm. vstep. eapply vwp_mono; [by apply follow_V|]. intros ? r1 HV1.
  vgo; try (apply send_V; [done|by right; apply Hecho|vkeep]).
  - vcall first_of_term_V. apply send_V; [done|by right; apply Hecho|vkeep].
  - eapply vwp_mono; [by apply append_from_V|]. intros ? r2 HV2. vgo; (apply send_V; [done|by right; apply Hecho|vkeep]).
Qed.

Lemma handleAppendResp_V r : m_Type m = MsgAppResp -> r_term r = m_Term m -> V r -> keep (handleAppendResp m) r.
Proof.
  intros Hm Ht HV. unfold handleAppendResp. apply vwp_bind. apply (vwp_mono _ (fun _ => V)).
  { destruct (N.eqb_spec (m_ReadID m) 0); simpl; [by apply vwp_ret|]. apply ackRead_V; [|done]. rewrite Ht. by apply Hack. }
  intros ? r1 HV1. unfold append_answered, lastIndexOfTerm. vgo.
  - vcall last_of_term_V. unfold retry_from. vgo. all: vcall put_next_V; apply sendAppend_V; [lia|done].
  - unfold retry_from. vgo. all: vcall put_next_V; apply sendAppend_V; [lia|done].
  - unfold append_accepted. vgo. vcall advance_match_V. vgo. vcall maybeCommit_V. vgo; [by apply broadcastAppend_V|apply sendAppend_V; [lia|done]].
Qed.

Lemma receive_V r : V r -> keep (receive_chunk m) r.
Proof. intros HV. unfold receive_chunk. vgo; try vsend. vcall write_V. vgo. vsend. Qed.

Lemma handleSnapshot_V r : V r -> keep (handleSnapshot m) r.
Proof.
  intros HV. unfold handleSnapshot. vstep. eapply vwp_mono; [by apply follow_V|]. intros ? r1 HV1.
  vgo; try vsend; apply receive_V; vkeep.
Qed.

Lemma handleSnapshotResp_V r : V r -> keep (handleSnapshotResp m) r.
Proof.
  intros HV. unfold handleSnapshotResp. vgo.
  - vcall advance_match_V. vgo. vcall maybeCommit_V. vgo; [by apply broadcastAppend_V|apply sendAppend_V; [lia|done]].
  - vcall put_snapOut_V. by apply sendChunk_V.
Qed.

Lemma Step_V r : V r -> keep (Step m) r.
Proof.
  intros HV. unfold Step. apply vwp_bind, vwp_get. destruct (N.ltb_spec (m_Term m) (r_term r)); [by apply rejectStale_V|].
  apply vwp_bind. apply (vwp_mono _ (fun _ r1 => V r1 /\ (r_state r1 = Leader -> r_term r1 = m_Term m))).
  { destruct (N.ltb_spec (r_term r) (m_Term m)).
    - eapply vwp_mono; [by apply becomeFollower_V|]. intros ? r1 [HV1 Hf]. split; [done|]. by rewrite Hf.
    - apply vwp_ret. split; [done|]. intros _. lia. }
  intros ? r1 [HV1 Ht]. unfold dispatch. apply vwp_bind, vwp_get.
  pose proof (fun H => handleAppend_V r1 H HV1) as H1. pose proof (fun H Hl => handleAppendResp_V r1 H (Ht Hl) HV1) as H2.
  pose proof (handleVoteResp_V r1 HV1) as H3. pose proof (handleSnapshot_V r1 HV1) as H4. pose proof (handleSnapshotResp_V r1 HV1) as H5.
  pose proof (handleVote_V m r1 HV1) as H6. destruct (m_Type m); vgo; [by apply H1|by apply H2].
Qed.
End Message.
End Reads.

(** ** Starting a round *)

Lemma rid_ok_mono (echo echo' : NodeID -> N -> Prop) cfg nx nx' e :
  (forall p i, echo p i -> echo' p i) -> (nx <= nx')%N -> rid_ok echo cfg nx e -> rid_ok echo' cfg nx' e.
Proof.
  intros He Hn. destruct e as [m| | |]; simpl; try done. intros (H0 & H1 & H2). split_and!; [done|intros Ht; specialize (H1 Ht); lia|].
  intros Ht. destruct (H2 Ht); auto.
Qed.

(** More rounds, more answers. *)
Lemma V_mono {S : Type} (started started' : N -> N -> N -> Prop) (ackd ackd' : N -> N -> NodeID -> Prop)
    (confirmed confirmed' : N -> N -> Prop) (echo echo' : NodeID -> N -> Prop) cfg nx (r : Raft S) :
  (forall T id i, started T id i -> started' T id i) -> (forall T id p, ackd T id p -> ackd' T id p) ->
  (forall id i, confirmed id i -> confirmed' id i) -> (forall p id, echo p id -> echo' p id) ->
  V started ackd confirmed echo cfg nx r -> V started' ackd' confirmed' echo' cfg nx r.
Proof.
  intros H1 H2 H3 H4 [? ? Hr Ht [Hn Hrd]]. constructor; try done; [auto| |].
  - eapply Forall_impl; [exact Ht|]. intros e. by apply rid_ok_mono.
  - split; [done|]. intros reads id rd E1 E2. destruct (Hrd reads id rd E1 E2). split; auto.
Qed.

Section Start.
Context {S : Type} `{LS : LogStore S}.
Context (started : N -> N -> N -> Prop) (ackd : N -> N -> NodeID -> Prop) (confirmed : N -> N -> Prop).
Context (echo : NodeID -> N -> Prop) (cfg : Config) (nx : N).
Context (Hconf : forall T id i (Q : gset NodeID), started T id i -> (forall p, p ∈ Q -> ackd T id p) ->
  length (c_Peers cfg) / 2 + 1 <= size Q -> confirmed id i).

#[local] Abbreviation V := (V started ackd confirmed echo cfg).

(** A leader that has committed an entry of its term takes the next number. *)
Lemma ReadIndex_V (r : Raft S) :
  V nx r ->
  (r_state r = Leader -> ls_Term (r_commit r) (r_store r) = Ret (r_term r) ->
   started (r_term r) (nx + 1) (r_commit r) /\ ackd (r_term r) (nx + 1) (c_ID cfg)) ->
  match (ReadIndex r).2 with
  | Ret id => id = (nx + 1)%N /\ V (nx + 1) (ReadIndex r).1
  | Fail _ => (ReadIndex r).1 = r \/ V (nx + 1) (ReadIndex r).1
  | Panic => Forall (rid_ok echo cfg (nx + 1)) (r_trace (ReadIndex r).1)
  end.
Proof.
  intros HV Hst.
  assert (Forall (rid_ok echo cfg (nx + 1)) (r_trace r)) as Htr.
  { eapply Forall_impl; [apply (v_trace _ _ _ _ _ _ _ HV)|]. intros e. by apply rid_ok_mono; [|lia]. }
  unfold ReadIndex, mbind, M_bind, get, raise, modify. destruct (decide (r_state r = Leader)) as [Hl|]; [|by left].
  unfold termAt, must. destruct (ls_Term (r_commit r) (r_store r)) as [t| |] eqn:Et; [|done..]. cbv beta iota.
  destruct (N.eqb_spec t (r_term r)) as [->|]; [|by left]. cbn [negb]. destruct (Hst Hl eq_refl) as [Hs Ha]. simpl.
  destruct (r_reads r) as [reads|] eqn:Er; [|done]. unfold mput, modify. cbv beta iota.
  pose proof (v_next _ _ _ _ _ _ _ HV) as Hnx. rewrite Hnx in *.
  set (r1 := set_reads _ (set_nextReadID _ r)). set (rd := mkRound _ _) in r1.
  assert (V (nx + 1) r1) as HV1.
  { apply put_round; [|done|].
    - destruct HV. by constructor.
    - split; [done|]. simpl. intros p ->%elem_of_singleton. unfold r_id. cbn [r_cfg set_nextReadID]. by rewrite (v_cfg _ _ _ _ _ _ _ HV). }
  assert (vwp started ackd confirmed echo cfg (nx + 1)
    (q ← get quorum; if q =? 1 then completeRead (nx + 1);; mret (nx + 1)%N
     else peers ← get others; for_each peers (fun p => sendAppend p (nx + 1));; mret (nx + 1)%N)
    (fun id r' => id = (nx + 1)%N /\ V (nx + 1) r') r1) as Hwp.
  { apply vwp_bind, vwp_get. destruct (Nat.eqb_spec (quorum r1) 1) as [Hq|].
    - apply vwp_bind. eapply vwp_mono; [apply (completeRead_V _ _ _ _ _ _ Hconf _ _ rd); [done| |]|].
      + simpl. apply lookup_insert_eq.
      + unfold rd; cbn [rd_acks]; rewrite size_singleton. unfold quorum, r_peers in Hq. rewrite (v_cfg _ _ _ _ _ _ _ HV1) in Hq. lia.
      + intros ? r2 HV2. by apply vwp_ret.
    - apply vwp_bind, vwp_get, vwp_bind. eapply vwp_mono; [apply (vwp_for_each _ _ _ _ _ _ _ _ (V (nx + 1))); [done|]|].
      + intros p rp HVp. apply sendAppend_V; [lia|done].
      + intros ? r2 HV2. by apply vwp_ret. }
  unfold vwp, mbind, M_bind, get in Hwp.
  match type of Hwp with match ?x.2 with _ => _ end => match goal with |- match ?y.2 with _ => _ end => change y with x end end.
  match type of Hwp with match ?x.2 with _ => _ end => destruct x.2 end; [done|by right|done].
Qed.
End Start.

Section NodeReads.
Context {S : Type} `{LS : LogStore S} {X : Type} `{HM : Machine X}.
Context (started : N -> N -> N -> Prop) (ackd : N -> N -> NodeID -> Prop) (echo : NodeID -> N -> Prop) (cfg : Config).

(** A read asked since [h0] has a round that is [new], and its index is one
    that is [safe] to read at; [ap] is what has been applied, and [lo] a
    bound of the numbers in use. *)
Context (new : N -> Prop) (safe : N -> Prop) (h0 : nat) (lo ap : N).

#[local] Abbreviation node := (Node S X).
Implicit Types (nd : node) (r : Raft S).

Definition in_use (nx T id i : N) : Prop := (id <= nx)%N /\ started T id i.
Definition sure (nx id i : N) : Prop := (id <= nx)%N /\ (new id -> safe i).

(** The rounds of the [Raft], all with numbers up to its last one. *)
Definition W (nx : N) r : Prop := V (in_use nx) ackd (sure nx) echo cfg nx r.

Record RN nd : Prop := {
  rn_raft : exists nx, (lo <= nx)%N /\ W nx (n_r nd);
  rn_queue : forall h, h ∈ n_readQueue nd -> h < length (n_rds nd);
  rn_reads : forall id hs h, n_reads nd !! id = Some hs -> h ∈ hs -> h < length (n_rds nd) /\ (h0 <= h -> new id);
  rn_waiting : forall h, h ∈ n_waiting nd -> exists rd, n_rds nd !! h = Some rd /\ (h0 <= h -> safe (h_Index rd));
  rn_done : forall h rd, n_rds nd !! h = Some rd -> h0 <= h -> h_done rd = true -> h_Err rd = None -> safe ap;
}.

Lemma RN_ext nd nd' :
  n_r nd' = n_r nd -> n_readQueue nd' = n_readQueue nd -> n_reads nd' = n_reads nd -> n_waiting nd' = n_waiting nd ->
  n_rds nd' = n_rds nd -> RN nd -> RN nd'.
Proof. intros H1 H2 H3 H4 H5 []. constructor; rewrite ?H1, ?H2, ?H3, ?H4, ?H5; done. Qed.

Lemma RN_r r' nd : RN nd -> (exists nx, (lo <= nx)%N /\ W nx r') -> RN (with_r r' nd).
Proof. intros []. by constructor. Qed.

(** ** Calls *)

Definition qwp {B} (m : @NM S X B) (Q : B -> node -> Prop) nd : Prop :=
  match (m nd).2 with
  | Ret x => Q x (m nd).1
  | _ => exists k, Forall (rid_ok echo cfg k) (trace_of (m nd).1)
  end.

Lemma RN_sent nd : RN nd -> exists k, Forall (rid_ok echo cfg k) (trace_of nd).
Proof. intros [(nx & _ & [])]. by exists nx. Qed.

Lemma qwp_ret {B} (x : B) (Q : B -> node -> Prop) nd : Q x nd -> qwp (mret x) Q nd.
Proof. done. Qed.

Lemma qwp_bind {B C} (m : @NM S X B) (f : B -> @NM S X C) Q nd : qwp m (fun x => qwp (f x) Q) nd -> qwp (m ≫= f) Q nd.
Proof. unfold qwp, mbind, NM_bind. by destruct (m nd) as [nd1 [x|e|]]. Qed.

Lemma qwp_mono {B} (m : @NM S X B) (Q Q' : B -> node -> Prop) nd :
  qwp m Q nd -> (forall x nd', Q x nd' -> Q' x nd') -> qwp m Q' nd.
Proof. unfold qwp. destruct (m nd) as [nd1 [x|e|]]; simpl; auto. Qed.

Lemma qwp_get {B} (f : node -> B) (Q : B -> node -> Prop) nd : Q (f nd) nd -> qwp (nget f) Q nd.
Proof. done. Qed.

Lemma qwp_modify f (Q : unit -> node -> Prop) nd : Q tt (f nd) -> qwp (nmodify f) Q nd.
Proof. done. Qed.

Lemma qwp_panic {B} (Q : B -> node -> Prop) nd : RN nd -> qwp npanic Q nd.
Proof. apply RN_sent. Qed.

Lemma qwp_must {B} (x : go B) (Q : B -> node -> Prop) nd :
  RN nd -> (forall a, x = Ret a -> Q a nd) -> qwp (nmust x) Q nd.
Proof. intros HR HQ. unfold qwp, nmust. destruct x; simpl; [by apply HQ|by apply RN_sent..]. Qed.

Lemma qwp_for_each {B} (l : list B) (f : B -> @NM S X unit) (I : node -> Prop) nd :
  I nd -> (forall x nd, x ∈ l -> I nd -> qwp (f x) (fun _ => I) nd) -> qwp (nfor_each l f) (fun _ => I) nd.
Proof.
  intros HI Hf. revert nd HI. induction l as [|y ys IH]; intros nd HI; simpl; [done|].
  apply qwp_bind. eapply qwp_mono; [apply Hf; [by left|done]|]. intros ? nd' HI'. apply IH; [|done].
  intros z nd2 Hz. apply Hf. by right.
Qed.

#[local] Abbreviation wwp nx := (vwp (in_use nx) ackd (sure nx) echo cfg nx).

Lemma qwp_raft_do {B} (m : @M S B) (P : B -> Prop) (Q : B -> node -> Prop) nd :
  RN nd -> (forall nx, W nx (n_r nd) -> wwp nx m (fun x r' => W nx r' /\ P x) (n_r nd)) ->
  (forall x r', P x -> RN (with_r r' nd) -> Q x (with_r r' nd)) -> qwp (raft_do m) Q nd.
Proof.
  intros HR Hm HQ. destruct (rn_raft _ HR) as (nx & Hnx & HW). specialize (Hm nx HW). unfold qwp, raft_do, vwp in *.
  destruct (m (n_r nd)) as [r' [x|e|]]; simpl in *.
  - destruct Hm as [HW' HP]. apply HQ; [done|]. apply RN_r; eauto.
  - exists nx. apply Hm.
  - by exists nx.
Qed.

Lemma qwp_raft_keep {B} (m : @M S B) (Q : B -> node -> Prop) nd :
  RN nd -> (forall nx, W nx (n_r nd) -> wwp nx m (fun _ => W nx) (n_r nd)) ->
  (forall x r', RN (with_r r' nd) -> Q x (with_r r' nd)) -> qwp (raft_do m) Q nd.
Proof.
  intros HR Hm HQ. apply (qwp_raft_do m (fun _ => True)); [done| |auto].
  intros nx HW. eapply vwp_mono; [by apply Hm|]. done.
Qed.

(** ** Handles *)

Lemma qwp_finish h res err (Q : unit -> node -> Prop) nd :
  RN nd -> (forall props, Q tt (with_props props nd)) -> qwp (finish h res err) Q nd.
Proof.
  intros HR HQ. unfold finish. apply qwp_bind, qwp_get. destruct (n_props nd !! h) as [p|]; [|by apply qwp_panic].
  destruct (p_done p); [by apply qwp_panic|]. by apply qwp_modify.
Qed.

Lemma RN_settle h rd err nd :
  RN nd -> n_rds nd !! h = Some rd -> (err = None -> h0 <= h -> safe ap) ->
  RN (with_rds (<[h := mkRead (h_Index rd) err true]> (n_rds nd)) nd).
Proof.
  intros [] Hrd He. constructor; simpl; rewrite ?length_insert; try done.
  - intros h' Hw. destruct (rn_waiting0 h' Hw) as (rd' & Hrd' & Hs). destruct (decide (h' = h)) as [->|Hne].
    + rewrite Hrd in Hrd'. injection Hrd' as <-. eexists. split; [apply list_lookup_insert_eq; by eapply lookup_lt_Some|done].
    + exists rd'. split; [|done]. by rewrite list_lookup_insert_ne.
  - intros h' rd' Hl Hh. destruct (decide (h' = h)) as [->|Hne].
    + rewrite list_lookup_insert_eq in Hl by (by eapply lookup_lt_Some). injection Hl as <-. simpl. intros _ Hn. by apply He.
    + rewrite list_lookup_insert_ne in Hl by done. by eapply rn_done0.
Qed.

Lemma qwp_finish_read h err (Q : unit -> node -> Prop) nd :
  RN nd -> (forall rd, n_rds nd !! h = Some rd -> err = None -> h0 <= h -> safe ap) ->
  (forall rd, n_rds nd !! h = Some rd -> RN (with_rds (<[h := mkRead (h_Index rd) err true]> (n_rds nd)) nd) ->
     Q tt (with_rds (<[h := mkRead (h_Index rd) err true]> (n_rds nd)) nd)) ->
  qwp (finish_read h err) Q nd.
Proof.
  intros HR He HQ. unfold finish_read. apply qwp_bind, qwp_get. destruct (n_rds nd !! h) as [rd|] eqn:Hrd; [|by apply qwp_panic].
  destruct (h_done rd); [by apply qwp_panic|]. apply qwp_modify, HQ; [done|]. apply RN_settle; eauto.
Qed.

Lemma fail_read h err nd : RN nd -> qwp (finish_read h (Some err)) (fun _ => RN) nd.
Proof. intros HR. apply qwp_finish_read; auto. done. Qed.

Lemma RN_drop q nd : RN nd -> (forall h, h ∈ q -> h ∈ n_readQueue nd) -> RN (with_readQueue q nd).
Proof. intros [] Hq. constructor; simpl; auto. Qed.

Lemma RN_unread id nd : RN nd -> RN (with_reads (delete id (n_reads nd)) nd).
Proof. intros []. constructor; simpl; auto. intros id' hs h [_ Hl]%lookup_delete_Some. by apply rn_reads0. Qed.

Lemma failAll_RN err nd : RN nd -> qwp (failAll err) (fun _ => RN) nd.
Proof.
  intros HR. unfold failAll. apply qwp_bind, qwp_get, qwp_bind. eapply qwp_mono; [apply (qwp_for_each _ _ RN); [done|]|].
  { intros h nd1 _ H1. apply qwp_finish; [done|]. intros props. by eapply RN_ext; [..|exact H1]. }
  intros ? nd1 H1. cbv beta. apply qwp_bind, qwp_modify. apply qwp_bind, qwp_get, qwp_bind. eapply qwp_mono; [apply (qwp_for_each _ _ RN)|].
  { by eapply RN_ext; [..|exact H1]. }
  { intros ih nd2 _ H2. apply qwp_bind, qwp_modify. apply qwp_finish; [by eapply RN_ext; [..|exact H2]|].
    intros props. by eapply RN_ext; [..|exact H2]. }
  intros ? nd2 H2. cbv beta. apply qwp_bind, qwp_get, qwp_bind.
  eapply qwp_mono; [apply (qwp_for_each _ _ RN); [done|intros; by apply fail_read]|]. intros ? nd3 H3. cbv beta.
  apply qwp_bind, qwp_modify. apply qwp_bind, qwp_get, (qwp_for_each _ _ RN); [by apply RN_drop; [|intros h ?%not_elem_of_nil]|].
  intros ih nd4 _ H4. apply qwp_bind, qwp_modify. apply (qwp_for_each _ _ RN); [by apply RN_unread|]. intros. by apply fail_read.
Qed.

(** ** First part *)

Context (Hconf : forall T id i (Q : gset NodeID), started T id i -> (forall p, p ∈ Q -> ackd T id p) ->
  length (c_Peers cfg) / 2 + 1 <= size Q -> new id -> safe i).

Lemma sure_conf nx T id i (Q : gset NodeID) :
  in_use nx T id i -> (forall p, p ∈ Q -> ackd T id p) -> length (c_Peers cfg) / 2 + 1 <= size Q -> sure nx id i.
Proof. intros [? ?] HQ Hs. split; [done|]. by eapply Hconf. Qed.

(** The first and the last part do not apply anything. *)
Definition RA nd : Prop := RN nd /\ n_applied nd = ap.

Lemma RA_ext nd nd' :
  n_r nd' = n_r nd -> n_readQueue nd' = n_readQueue nd -> n_reads nd' = n_reads nd -> n_waiting nd' = n_waiting nd ->
  n_rds nd' = n_rds nd -> n_applied nd' = n_applied nd -> RA nd -> RA nd'.
Proof. intros ? ? ? ? ? Ha [HR Hap]. split; [by eapply RN_ext|by rewrite Ha]. Qed.

Lemma finish_RA h res err nd : RA nd -> qwp (finish h res err) (fun _ => RA) nd.
Proof. intros HR. apply qwp_finish; [apply HR|]. intros props. by eapply RA_ext; [..|exact HR]. Qed.

Lemma assign_all_RA queue index nd : RA nd -> qwp (assign_all queue index) (fun _ => RA) nd.
Proof.
  revert index nd. induction queue as [|h queue IH]; intros index nd HR; simpl; [done|]. apply qwp_bind.
  unfold assign_pending. apply qwp_bind, qwp_get, qwp_bind, qwp_get. destruct (n_props nd !! h) as [p|]; [|apply qwp_panic, HR].
  apply qwp_bind, qwp_modify, qwp_modify, IH. by eapply RA_ext; [..|exact HR].
Qed.

Lemma flushBatch_RA nd : RA nd -> qwp flushBatch (fun _ => RA) nd.
Proof.
  intros HR. unfold flushBatch. apply qwp_bind, qwp_get, qwp_bind, qwp_get. cbv zeta.
  match goal with |- context [if ?b then take ?k ?l else n_queue nd] => set (queue := if b then take k l else n_queue nd) end.
  apply qwp_bind, qwp_modify, qwp_bind, qwp_get. set (nd1 := with_queue _ nd).
  assert (RA nd1) as [HR1 Ha1] by (by eapply RA_ext; [..|exact HR]).
  case_decide; [|apply qwp_for_each; [done|]; intros; by apply finish_RA].
  apply qwp_bind, qwp_get, qwp_bind. destruct (rn_raft _ HR1) as (nx & Hnx & HW).
  pose proof (Propose_V _ _ _ _ _ _ (prop_data nd1 <$> queue) _ HW) as HP. unfold qwp, raft_call, vwp in *.
  destruct (Propose (prop_data nd1 <$> queue) (n_r nd1)) as [r' [x|e|]]; simpl in *.
  - apply assign_all_RA. split; [|done]. apply RN_r; eauto.
  - apply qwp_for_each; [split; [|done]; apply RN_r; eauto|]. intros. by apply finish_RA.
  - by exists nx.
Qed.

Lemma flush_RA nd : RA nd -> qwp flushProposals (fun _ => RA) nd.
Proof.
  intros HR. unfold flushProposals. apply qwp_bind, qwp_get. generalize (length (n_queue nd)) as fuel. intros fuel.
  revert nd HR. induction fuel as [|fuel IH]; intros nd HR; simpl; apply qwp_bind, qwp_get; destruct (n_queue nd); try done.
  - apply qwp_panic, HR.
  - apply qwp_bind. eapply qwp_mono; [by apply flushBatch_RA|]. intros ? nd1 H1. by apply IH.
Qed.

(** The message of a step was sent by a node that had the number. *)
Definition heard (op : rop) : Prop :=
  match op with
  | OStep m => (m_Type m = MsgApp -> echo (m_From m) (m_ReadID m)) /\
               (m_Type m = MsgAppResp -> m_ReadID m <> 0%N -> ackd (m_Term m) (m_ReadID m) (m_From m))
  | _ => True
  end.

Lemma first_RA op nd : RA nd -> heard op -> qwp (first_part op) (fun _ => RA) nd.
Proof.
  intros [HR Ha] Hop. destruct op as [m| |]; simpl in *; [| |by apply flush_RA].
  - apply qwp_raft_keep; [done| |done]. intros nx HW. destruct Hop. apply Step_V; [apply sure_conf|done..].
  - apply qwp_raft_keep; [done| |done]. intros nx HW. by apply Tick_V.
Qed.

(** ** Middle part *)

Lemma apply_entry_RN e nd : RN nd -> qwp (apply_entry e) (fun _ => RN) nd.
Proof.
  intros HR. unfold apply_entry. apply qwp_bind. apply (qwp_mono _ (fun _ => RN)).
  { case_decide; [|done]. apply qwp_bind, qwp_get, qwp_bind, qwp_must; [done|]. intros [sm res] _.
    apply qwp_bind, qwp_modify, qwp_ret. by eapply RN_ext; [..|exact HR]. }
  intros res nd1 H1. apply qwp_bind, qwp_modify, qwp_bind, qwp_get. simpl.
  destruct (n_pending nd1 !! e_Index e) as [h|]; [|apply qwp_ret; by eapply RN_ext; [..|exact H1]].
  apply qwp_bind, qwp_modify, qwp_bind, qwp_get.
  case_match; (apply qwp_finish; [by eapply RN_ext; [..|exact H1]|]; intros props; by eapply RN_ext; [..|exact H1]).
Qed.

Lemma apply_loop_RN fuel nd : RN nd -> qwp (apply_loop fuel) (fun _ => RN) nd.
Proof.
  revert nd. induction fuel as [|fuel IH]; intros nd HR; simpl; apply qwp_bind, qwp_get; unfold id; case_match; try done.
  - by apply qwp_panic.
  - apply qwp_bind, qwp_must; [done|]. intros es _. apply qwp_bind.
    eapply qwp_mono; [apply (qwp_for_each _ _ RN); [done|intros; by apply apply_entry_RN]|]. intros ? nd1 H1. by apply IH.
Qed.

Lemma take_restored_RN nd : RN nd -> qwp take_restored (fun _ => RN) nd.
Proof.
  intros HR. unfold take_restored. apply qwp_bind, qwp_raft_keep; [done|intros nx HW; by apply TakeRestored_V|].
  intros x r' H1. apply qwp_bind, qwp_get. destruct x as [[i d]|]; [|done]. case_match; [|done].
  apply qwp_bind, qwp_get, qwp_bind, qwp_must; [done|]. intros sm _. apply qwp_bind, qwp_modify, qwp_modify. by eapply RN_ext; [..|exact H1].
Qed.

Lemma machine_RN nd : RN nd -> qwp machine_part (fun _ => RN) nd.
Proof.
  intros HR. unfold machine_part. apply qwp_bind, qwp_get, qwp_bind.
  apply (qwp_mono _ (fun _ => RN)); [case_decide; [done|by apply failAll_RN]|]. intros ? nd1 H1.
  apply qwp_bind. eapply qwp_mono; [by apply take_restored_RN|]. intros ? nd2 H2. apply qwp_bind, qwp_get. by apply apply_loop_RN.
Qed.

(** ** Last part *)

Context (Hup : forall i j, (i <= j)%N -> safe i -> safe j) (Hnew : forall nx, (lo <= nx)%N -> new (nx + 1)%N).

(** A round that a leader may start. *)
Definition may_start r : Prop :=
  forall nx, W nx r -> r_state r = Leader -> ls_Term (r_commit r) (r_store r) = Ret (r_term r) ->
    started (r_term r) (nx + 1) (r_commit r) /\ ackd (r_term r) (nx + 1) (c_ID cfg).

Lemma RN_read_round id r' nd :
  RN nd -> (exists nx, (lo <= nx)%N /\ W nx r') -> new id ->
  RN (with_reads (<[id := n_readQueue nd]> (n_reads nd)) (with_readQueue [] (with_r r' nd))).
Proof.
  intros [] HW Hid. constructor; simpl; try done; [by intros h ?%not_elem_of_nil|].
  intros id' hs h [[<- <-]|[_ Hl]]%lookup_insert_Some; [|by apply rn_reads0]. intros Hh. split; [by apply rn_queue0|done].
Qed.

Lemma startReads_RA nd : RA nd -> may_start (n_r nd) -> qwp startReads (fun _ => RA) nd.
Proof.
  intros [HR Ha] Hst. unfold startReads. apply qwp_bind, qwp_get. destruct (n_readQueue nd) as [|q qs] eqn:Eq; [done|].
  rewrite <-Eq. apply qwp_bind. destruct (rn_raft _ HR) as (nx & Hnx & HW).
  assert (V (in_use (nx + 1)) ackd (sure (nx + 1)) echo cfg nx (n_r nd)) as HW1.
  { eapply V_mono; [..|exact HW]; [|done| |done].
    - intros T id i [? ?]. split; [lia|done].
    - intros id i [? ?]. split; [lia|done]. }
  pose proof (ReadIndex_V _ _ _ _ _ _ (sure_conf (nx + 1)) _ HW1) as HRI. unfold qwp, raft_call.
  destruct (ReadIndex (n_r nd)) as [r' [id|e|]]; simpl in *.
  - destruct HRI as [-> HW']. { intros H1 H2. destruct (Hst nx HW H1 H2). split; [split; [lia|done]|done]. }
    split; [|done]. apply RN_read_round; [done|exists (nx + 1)%N; split; [lia|done]|by apply Hnew].
  - assert (RN (with_r r' nd)) as HR1.
    { apply RN_r; [done|]. destruct HRI as [-> |HW']; [|by exists nx|exists (nx + 1)%N; split; [lia|done]].
      intros H1 H2. destruct (Hst nx HW H1 H2). split; [split; [lia|done]|done]. }
    case_decide; [by split|]. apply qwp_bind, qwp_modify, (qwp_for_each _ _ RA).
    + split; [|done]. apply RN_drop; [done|]. by intros h ?%not_elem_of_nil.
    + intros h nd1 _ [H1 Ha1]. apply qwp_finish_read; [done|done|]. intros rd _ ?. by split.
  - exists (nx + 1)%N. apply HRI. intros H1 H2. destruct (Hst nx HW H1 H2). split; [split; [lia|done]|done].
Qed.

Lemma set_read_index_RA i h nd :
  RA nd -> h < length (n_rds nd) -> (h0 <= h -> safe i) ->
  qwp (set_read_index i h) (fun _ nd' => RA nd' /\ length (n_rds nd') = length (n_rds nd)) nd.
Proof.
  intros [[] Ha] Hh Hs. unfold set_read_index. apply qwp_bind, qwp_modify, qwp_modify. simpl. rewrite length_alter.
  split; [|done]. split; [|done].
  apply lookup_lt_is_Some in Hh as [rd Hrd]. constructor; simpl; rewrite ?length_alter; try done.
  - intros h' [Hw| ->%list_elem_of_singleton]%elem_of_app.
    + destruct (rn_waiting0 h' Hw) as (rd' & Hrd' & Hs'). destruct (decide (h' = h)) as [->|Hne].
      * rewrite list_lookup_alter_eq, Hrd. eexists. split; [done|]. done.
      * rewrite list_lookup_alter_ne by done. by exists rd'.
    + rewrite list_lookup_alter_eq, Hrd. eexists. split; [done|]. done.
  - intros h' rd' Hl. destruct (decide (h' = h)) as [->|Hne].
    + rewrite list_lookup_alter_eq, Hrd in Hl. injection Hl as <-. simpl. by eapply rn_done0.
    + rewrite list_lookup_alter_ne in Hl by done. by eapply rn_done0.
Qed.

Lemma take_ready_RA nd : RA nd -> qwp take_ready (fun _ => RA) nd.
Proof.
  intros [HR Ha]. unfold take_ready. apply qwp_bind.
  apply (qwp_raft_do _ (fun out => forall rr, rr ∈ out -> new (rr_ID rr) -> safe (rr_Index rr))); [done| |].
  { intros nx HW. eapply vwp_mono; [by apply TakeReady_V|]. intros out r' [? Hs]. split; [done|]. intros rr Hrr. by apply (Hs rr Hrr). }
  intros out r' Hout H1. apply (qwp_for_each _ _ RA); [by split|]. intros rr nd2 Hrr H2.
  apply qwp_bind, qwp_get, qwp_bind.
  eapply qwp_mono; [apply (qwp_for_each _ _ (fun nd' => RA nd' /\ length (n_rds nd') = length (n_rds nd2))); [done|]|].
  - intros h nd3 Hh [H3 Hlen]. destruct (n_reads nd2 !! rr_ID rr) as [hs|] eqn:Ehs; [|by apply not_elem_of_nil in Hh].
    destruct (rn_reads _ (proj1 H2) _ _ h Ehs Hh) as [Hlt Hn]. eapply qwp_mono; [apply set_read_index_RA; [done|lia|]|].
    + intros Hge. by apply Hout, Hn.
    + intros ? nd4 [? Hl4]. split; [done|lia].
  - intros ? nd3 [[H3 Ha3] _]. apply qwp_modify. split; [by apply RN_unread|done].
Qed.

Lemma settle_reads_RA l nd :
  RA nd -> (forall h, h ∈ l -> h ∈ n_waiting nd) ->
  qwp (settle_reads l) (fun kept nd' => RA nd' /\ n_waiting nd' = n_waiting nd /\ forall h, h ∈ kept -> h ∈ l) nd.
Proof.
  revert nd. induction l as [|h l IH]; intros nd [HR Ha] Hl; simpl; [by apply qwp_ret|]. apply qwp_bind, qwp_get. unfold id.
  assert (forall h', h' ∈ l -> h' ∈ n_waiting nd) as Hl' by (intros h' ?; apply Hl; by right).
  destruct (N.leb_spec (from_option h_Index 0%N (n_rds nd !! h)) (n_applied nd)) as [Hle|].
  - apply qwp_bind, qwp_finish_read; [done| |].
    + intros rd Hrd _ Hh. destruct (rn_waiting _ HR h) as (rd' & Hrd' & Hs); [apply Hl; by left|].
      rewrite Hrd' in *. simpl in Hle. eapply Hup; [|by apply Hs]. lia.
    + intros rd Hrd H1. eapply qwp_mono; [by apply IH|]. intros kept nd2 (? & Hw & Hk). split_and!; [done|done|]. intros h' ?. right. auto.
  - apply qwp_bind. eapply qwp_mono; [by apply IH|]. intros kept nd2 (? & Hw & Hk). apply qwp_ret. split_and!; [done|done|].
    intros h' [->|?]%elem_of_cons; [by left|right; auto].
Qed.

Lemma settle_waiting_RA nd : RA nd -> qwp settle_waiting (fun _ => RA) nd.
Proof.
  intros HR. unfold settle_waiting. apply qwp_bind, qwp_get, qwp_bind. eapply qwp_mono; [by apply settle_reads_RA|].
  intros kept nd1 ([[] Ha] & Hw & Hk). apply qwp_modify. split; [|done]. constructor; simpl; try done.
  intros h Hh. apply rn_waiting0. rewrite Hw. auto.
Qed.

Lemma maybeSnapshot_RA nd : RA nd -> qwp maybeSnapshot (fun _ => RA) nd.
Proof.
  intros HR. unfold maybeSnapshot. apply qwp_bind, qwp_get. case_match; [done|]. apply qwp_bind, qwp_must; [apply HR|]. intros [sm d] _.
  apply qwp_bind, qwp_modify. assert (RA (with_sm sm nd)) as [H1 Ha1] by (by eapply RA_ext; [..|exact HR]).
  apply qwp_raft_keep; [done|intros nx HW; by apply Compact_V|]. intros x r' H2. by split.
Qed.

Lemma last_RA nd : RA nd -> may_start (n_r nd) -> qwp last_part (fun _ => RA) nd.
Proof.
  intros HR Hst. unfold last_part. apply qwp_bind. eapply qwp_mono; [by apply startReads_RA|]. intros ? nd1 H1.
  apply qwp_bind. eapply qwp_mono; [by apply take_ready_RA|]. intros ? nd2 H2.
  apply qwp_bind. eapply qwp_mono; [by apply settle_waiting_RA|]. intros ? nd3 H3. by apply maybeSnapshot_RA.
Qed.
End NodeReads.

(** ** Between calls *)

Section Change.
Context {S : Type} {X : Type}.
Context (started started' : N -> N -> N -> Prop) (ackd ackd' : N -> N -> NodeID -> Prop) (echo echo' : NodeID -> N -> Prop).
Context (cfg : Config) (new safe : N -> Prop) (h0 : nat) (lo lo' ap ap' : N).
Implicit Types (nd : Node S X).

Lemma RN_mono nd :
  (forall T id i, started T id i -> started' T id i) -> (forall T id p, ackd T id p -> ackd' T id p) ->
  (forall p id, echo p id -> echo' p id) -> (lo' <= lo)%N -> (safe ap -> safe ap') ->
  RN started ackd echo cfg new safe h0 lo ap nd -> RN started' ackd' echo' cfg new safe h0 lo' ap' nd.
Proof.
  intros H1 H2 H3 H4 H5 [(nx & Hnx & HW)]. constructor; try done; [|eauto].
  exists nx. split; [lia|]. eapply V_mono; [..|exact HW]; [|done|done|done]. intros T id i [? ?]. split; auto.
Qed.

(** The trace is that of one call. *)
Lemma RN_start nd :
  RN started ackd echo cfg new safe h0 lo ap nd ->
  RN started ackd echo' cfg new safe h0 (r_nextReadID (n_r nd)) ap (with_trace [] nd).
Proof.
  intros [(nx & Hnx & HW)]. constructor; try done. exists nx. destruct HW. split; [simpl; lia|]. constructor; try done.
Qed.

Lemma RN_asked nd :
  RN started ackd echo cfg new safe h0 lo ap nd -> RN started ackd echo cfg new safe h0 lo ap (Node_ReadIndex nd).1.
Proof.
  intros []. constructor; simpl; rewrite ?length_app; simpl; try done.
  - intros h [Hh| ->%list_elem_of_singleton]%elem_of_app; [specialize (rn_queue0 h Hh)|]; lia.
  - intros id hs h Hl Hh. destruct (rn_reads0 id hs h Hl Hh). split; [lia|done].
  - intros h Hh. destruct (rn_waiting0 h Hh) as (rd & Hrd & ?). exists rd. split; [by apply lookup_app_l_Some|done].
  - intros h rd [Hl|[_ Hl]]%lookup_app_Some; [by eapply rn_done0|]. apply list_lookup_singleton_Some in Hl as [_ <-]. done.
Qed.
End Change.
