(* ===== verification/ReplicaReads.v ===== *)
(** * Reads of a cluster

    A read that a node settles without an error is current: the node has
    applied every entry that any node had committed when the read was asked.
    It holds for a node that keeps running, once no message in the network
    carries a number of one of its rounds that it has not reached. *)

From stdpp Require Import base list gmap functions relations.
From S2P Require Import Prelude LogStore Raft Protocol Safety Preserve Refine Cluster RaftCalls SnapData Node Replica ReplicaInv ReplicaOps ReplicaTheorems NodeReads.

(** * Why a confirmed read is up to date

    A commit index that a node has learned comes from the leader of its term
    or from another term.  So when a majority is still at the term of a leader
    that has committed an entry of its own, nothing is committed anywhere that
    this leader does not know of. *)

Section ReadSafety.
Context (peers : list NodeID) (Hnodup : NoDup peers) (Hzero : 0%N ∉ peers).

#[local] Abbreviation inv := (inv peers).
#[local] Abbreviation cmtd := (cmtd peers).
#[local] Abbreviation wstep := (wstep peers).
#[local] Abbreviation reachable := (reachable peers).
#[local] Abbreviation astep := (astep peers).
Implicit Types (g : ghost) (w : world).

(** Index [i] is committed. *)
Definition committed g (i : N) : Prop := i = 0%N \/ exists T, cmtd g T i.

(** Every leader knows that [i] is committed, unless another term committed it. *)
Definition known g w (i : N) : Prop :=
  forall n, a_role (w_node w n) = Leader ->
    i = 0%N \/ (i <= a_commit (w_node w n))%N \/ exists T, T <> a_term (w_node w n) /\ cmtd g T i.

Record bound_ok g w : Prop := {
  bo_node n : known g w (a_cmax (w_node w n));
  bo_app m : m ∈ w_msgs w -> m_Type m = MsgApp -> known g w (m_Commit m);
  bo_snap m : m ∈ w_msgs w -> m_Type m = MsgSnap -> known g w (m_Index m);
  bo_out n i t : a_role (w_node w n) = Leader -> (i, t) ∈ a_out (w_node w n) -> known g w i;
}.

Lemma cmtd_le g T i j : cmtd g T j -> (i <= j)%N -> cmtd g T i.
Proof. intros (ic & ? & ?) Hi. exists ic. split; [lia|done]. Qed.

Lemma known_le g w i j : known g w j -> (i <= j)%N -> known g w i.
Proof.
  intros Hk Hi n Hl. destruct (Hk n Hl) as [->|[?|(T & ? & ?)]]; [left; lia|right; left; lia|].
  right. right. exists T. split; [done|]. by eapply cmtd_le.
Qed.

Lemma cpre_committed g T i L : cpre peers g T i L -> committed g i.
Proof. intros [_ [?|(Tc & _ & ? & _)]]; [by left|right; eauto]. Qed.

Lemma ccom_committed g T i : ccom peers g T i -> committed g i.
Proof. intros [?|(Tc & _ & ?)]; [by left|right; eauto]. Qed.

(** ** Leaders *)

Lemma append_term es s s' : appendLocked es s = Ret s' -> ms_term s' = ms_term s.
Proof.
  destruct es as [|e es]; simpl; [by intros [= <-]|]. destruct (_ || _); [done|]. destruct (slice _ _ _); [|done..]. by intros [= <-].
Qed.

Lemma compact_term i t d s s' : mem_Compact i t d s = Ret s' -> ms_term s' = ms_term s.
Proof.
  unfold mem_Compact. destruct (_ <=? _)%N; [by intros [= <-]|]. destruct (if (_ <=? _)%N then _ else _); [|done..]. by intros [= <-].
Qed.

(** A leader was one before, or was elected in this step. *)
Lemma astep_leader Ms n a lab a' :
  astep Ms n a lab a' -> a_role a' = Leader ->
  (a_role a = Leader /\ a_term a' = a_term a /\ (a_commit a <= a_commit a')%N) \/ (a_role a = Candidate /\ a_mem a' = a_mem a).
Proof.
  destruct 1; simpl; intros Hl; try done; try congruence; first [by right | left; split_and!; try done; try lia].
  - by eapply append_term.
  - by eapply compact_term.
Qed.

Lemma astep_send Ms n a m a' :
  astep Ms n a (Some (ESend m)) a' -> m_From m = n /\ m_Term m = a_term a /\ can_send Ms n a m.
Proof. inversion 1; subst. done. Qed.

(** How a node learns of a commit. *)
Lemma astep_learn Ms n a lab a' :
  astep Ms n a lab a' ->
  a_cmax a' = a_cmax a \/
  (exists m c, m ∈ Ms /\ m_Type m = MsgApp /\ (c <= m_Commit m)%N /\ a_cmax a' = N.max (a_cmax a) c) \/
  (exists m, m ∈ Ms /\ m_Type m = MsgSnap /\ a_cmax a' = N.max (a_cmax a) (m_Index m)) \/
  (exists i, lab = None /\ a_role a = Leader /\ a' = with_commit i a /\ mem_Term i (a_mem a) = Ret (a_term a)).
Proof.
  destruct 1; simpl; try (by left); right.
  - left. match goal with H : accepted _ _ ?m |- _ => exists m, c; destruct H as (? & _) end. by split_and!.
  - right. right. eexists. by split_and!.
  - right. left. by exists m.
Qed.

Lemma astep_out Ms n a lab a' i t :
  astep Ms n a lab a' -> a_role a' = Leader -> (i, t) ∈ a_out a' ->
  (a_role a = Leader /\ (i, t) ∈ a_out a) \/ (i = a_snapIdx a).
Proof.
  destruct 1; simpl; intros Hl Hin; try done; try congruence; auto; try (by apply not_elem_of_nil in Hin).
  apply elem_of_cons in Hin as [[= -> ->]|]; auto.
Qed.

Lemma known_step g w g' w' i :
  inv g w -> inv g' w' -> gle g g' -> wstep w w' -> committed g i -> known g w i -> known g' w' i.
Proof.
  intros Hinv Hinv' Hle Hst Hc Hk n Hl. destruct Hst as [n0 lab a Hp Hn0 Hst].
  assert (forall T, cmtd g T i -> cmtd g' T i) as Hg by (intros T; by apply gle_cmtd).
  destruct (decide (n = n0)) as [->|Hne]; simpl in *.
  - rewrite fn_lookup_insert in *. destruct (astep_leader _ _ _ _ _ Hst Hl) as [(Hl0 & Ht & Hcm)|[Hcand Hmem]].
    + destruct (Hk n0 Hl0) as [?|[?|(T & ? & ?)]]; [by left|right; left; lia|]. right. right. exists T. rewrite Ht. auto.
    + destruct Hc as [?|[T HT]]; [by left|]. right. right. exists T. split; [|auto].
      intros ->. destruct HT as (ic & _ & Hic & Htm & _).
      assert (a_term a = a_term (w_node w n0)) as Hta by (unfold a_term; by rewrite Hmem).
      destruct (n_lead _ _ _ _ (i_node _ _ _ Hinv' n0)) as (Hled' & _); [simpl; by rewrite fn_lookup_insert|].
      simpl in Hled'. rewrite fn_lookup_insert, Hta in Hled'. rewrite Hta in *.
      destruct (n_cand _ _ _ _ (i_node _ _ _ Hinv n0) Hcand) as (_ & Hnot & _).
      destruct (g_led g (a_term (w_node w n0))) as [c|] eqn:Eled.
      * destruct (gle_led _ _ Hle _ _ Eled) as (Hc' & _). congruence.
      * rewrite (gh_none _ _ (i_ghost _ _ _ Hinv) _ Eled) in Htm. apply tm_len in Htm. unfold len in Htm. simpl in Htm. lia.
  - rewrite fn_lookup_insert_ne in * by done. destruct (Hk n Hl) as [?|[?|(T & ? & ?)]]; eauto 6.
Qed.

(** What a leader commits, it commits in its own term. *)
Lemma known_leader g w g' n0 lab a i :
  inv g w -> astep (w_msgs w) n0 (w_node w n0) lab a -> a_role (w_node w n0) = Leader -> a = with_commit i (w_node w n0) ->
  mem_Term i (a_mem (w_node w n0)) = Ret (a_term (w_node w n0)) ->
  let w' := mkWorld (<[n0 := a]> (w_node w)) (w_msgs w) in inv g' w' -> known g' w' i.
Proof.
  intros Hinv Hst Hl -> Ht w' Hinv' n Hl'. destruct (decide (n = n0)) as [->|Hne].
  { right. left. simpl. by rewrite fn_lookup_insert. }
  assert (w_node w' n0 = with_commit i (w_node w n0)) as Hw0 by (simpl; by rewrite fn_lookup_insert).
  destruct (lead_facts peers g' w' n0 Hinv') as (Hled0 & _); [by rewrite Hw0|].
  destruct (lead_facts peers g' w' n Hinv' Hl') as (Hled & _). rewrite Hw0 in Hled0.
  change (a_term (with_commit i (w_node w n0))) with (a_term (w_node w n0)) in Hled0.
  pose proof (n_base _ _ _ _ (i_node _ _ _ Hinv' n0)) as Hb. rewrite Hw0 in Hb.
  assert (i <= N.max (a_cmax (w_node w n0)) i)%N as Hi by lia.
  destruct (cpre_le peers g' _ _ _ _ (n_cpre _ _ _ _ _ _ Hb) Hi) as [Hlen [->|(Tc & Hle & Hcm & Hpre)]]; [by left|].
  right. right. exists Tc. split; [|done].
  apply (rel_Term _ _ _ _ (n_rel _ _ _ _ _ _ Hb)) in Ht as [_ Ht].
  assert (tm (g_ll g' Tc) i = Some (a_term (w_node w n0))) as Htc by (by rewrite <-(tm_pre _ i i), <-Hpre, tm_pre by lia).
  assert (Tc = a_term (w_node w n0)) as ->; [|intros E; rewrite <-E in Hled; congruence].
  destruct (lead_facts peers g w n0 Hinv Hl) as (_ & _ & _ & _ & Hone). unfold tm in Htc.
  destruct (N.eqb_spec i 0) as [->|]; [injection Htc; lia|]. apply fmap_Some in Htc as (e & He & Hte).
  pose proof (gh_terms _ _ (i_ghost _ _ _ Hinv') Tc) as Hf. rewrite Forall_lookup in Hf. specialize (Hf _ _ He).
  change (ms_term _) with (a_term (w_node w n0)) in Hle. lia.
Qed.

Lemma bound_step g w g' w' : inv g w -> inv g' w' -> gle g g' -> wstep w w' -> bound_ok g w -> bound_ok g' w'.
Proof.
  intros Hinv Hinv' Hle Hst Hb. pose proof Hst as Hst0. destruct Hst as [n0 lab a Hp Hn0 Hst].
  assert (forall i, committed g i -> known g w i -> known g' (mkWorld (<[n0 := a]> (w_node w)) (sent lab ++ w_msgs w)) i) as Hk.
  { intros i. by apply (known_step g). }
  pose proof (n_cpre _ _ _ _ _ _ (n_base _ _ _ _ (i_node _ _ _ Hinv n0))) as Hcp. pose proof (n_commit _ _ _ _ _ _ (n_base _ _ _ _ (i_node _ _ _ Hinv n0))) as Hcc.
  assert (forall i, (i <= a_cmax (w_node w n0))%N -> known g' (mkWorld (<[n0 := a]> (w_node w)) (sent lab ++ w_msgs w)) i) as Hself.
  { intros i Hi. eapply known_le; [apply Hk; [by eapply cpre_committed|apply Hb]|done]. }
  constructor; simpl.
  - intros n. destruct (decide (n = n0)) as [->|Hne]; [rewrite fn_lookup_insert|rewrite fn_lookup_insert_ne by done].
    + destruct (astep_learn _ _ _ _ _ Hst) as [-> |[(m & c & Hm & Hty & Hc & ->)|[(m & Hm & Hty & ->)|(i & -> & Hl & -> & Ht)]]]; [by apply Hself|..].
      * apply N.max_case; [by apply Hself|]. eapply known_le; [|exact Hc].
        apply Hk; [|by apply (bo_app _ _ Hb)]. pose proof (i_msgs _ _ _ Hinv m Hm) as (_ & _ & Hok). rewrite Hty in Hok.
        eapply ccom_committed, Hok.
      * apply N.max_case; [by apply Hself|]. apply Hk; [|by apply (bo_snap _ _ Hb)].
        pose proof (i_msgs _ _ _ Hinv m Hm) as (_ & _ & Hok). rewrite Hty in Hok. eapply cpre_committed, Hok.
      * simpl. apply N.max_case; [by apply Hself|]. by eapply (known_leader g w g' n0 None).
    + apply Hk; [|apply Hb]. eapply cpre_committed, (n_base _ _ _ _ (i_node _ _ _ Hinv n)).
  - intros m Hin Hty. apply elem_of_app in Hin as [Hin|Hin].
    + destruct lab as [[m0| | |]|]; simpl in Hin; try (by apply not_elem_of_nil in Hin). apply list_elem_of_singleton in Hin as ->.
      destruct (astep_send _ _ _ _ _ Hst) as (_ & _ & Hcs). unfold can_send in Hcs. rewrite Hty in Hcs. destruct Hcs as (_ & _ & _ & Hc).
      apply Hself. lia.
    + apply Hk; [|by apply Hb]. pose proof (i_msgs _ _ _ Hinv m Hin) as (_ & _ & Hm). rewrite Hty in Hm. eapply ccom_committed, Hm.
  - intros m Hin Hty. apply elem_of_app in Hin as [Hin|Hin].
    + destruct lab as [[m0| | |]|]; simpl in Hin; try (by apply not_elem_of_nil in Hin). apply list_elem_of_singleton in Hin as ->.
      destruct (astep_send _ _ _ _ _ Hst) as (_ & _ & Hcs). unfold can_send in Hcs. rewrite Hty in Hcs. destruct Hcs as (Hl & Hout).
      apply Hk; [|by eapply (bo_out _ _ Hb)].
      destruct (n_lead _ _ _ _ (i_node _ _ _ Hinv n0) Hl) as (_ & _ & _ & _ & Hso). eapply cpre_committed, (Hso _ _ Hout).
    + apply Hk; [|by apply Hb]. pose proof (i_msgs _ _ _ Hinv m Hin) as (_ & _ & Hm). rewrite Hty in Hm. eapply cpre_committed, Hm.
  - intros n i t. destruct (decide (n = n0)) as [->|Hne]; [rewrite fn_lookup_insert|rewrite fn_lookup_insert_ne by done]; intros Hl Hout.
    + destruct (astep_out _ _ _ _ _ _ _ Hst Hl Hout) as [[Hl0 Hout0]| ->]; [|apply Hself; unfold a_snapIdx; lia].
      apply Hk; [|by eapply (bo_out _ _ Hb)].
      destruct (n_lead _ _ _ _ (i_node _ _ _ Hinv n0) Hl0) as (_ & _ & _ & _ & Hso). eapply cpre_committed, (Hso _ _ Hout0).
    + apply Hk; [|by eapply (bo_out _ _ Hb)].
      destruct (n_lead _ _ _ _ (i_node _ _ _ Hinv n) Hl) as (_ & _ & _ & _ & Hso). eapply cpre_committed, (Hso _ _ Hout).
Qed.

Lemma reachable_bound w : reachable w -> exists g, inv g w /\ bound_ok g w.
Proof.
  induction 1 as [|w w' _ (g & Hinv & Hb) Hs].
  - destruct (reachable_inv peers Hnodup w_init (reach_start peers)) as [g Hinv]. exists g. split; [done|].
    constructor; simpl; try (by intros m Hm%not_elem_of_nil); intros n; by intros.
  - destruct (step_inv peers Hnodup g w w' Hinv Hs) as (g' & Hle & Hinv'). exists g'. split; [done|]. by apply (bound_step g w).
Qed.

(** ** Reads *)

(** A majority at or below the term of a leader that has committed in its
    term: nothing is committed beyond what it knows. *)
Lemma leader_knows_all w n (Q : gset NodeID) :
  reachable w -> a_role (w_node w n) = Leader ->
  mem_Term (a_commit (w_node w n)) (a_mem (w_node w n)) = Ret (a_term (w_node w n)) ->
  is_quorum peers Q -> (forall p, p ∈ Q -> (a_term (w_node w p) <= a_term (w_node w n))%N) ->
  forall p, (a_cmax (w_node w p) <= a_commit (w_node w n))%N.
Proof.
  intros Hw Hl Ht HQ Hterms p. destruct (reachable_bound w Hw) as (g & Hinv & Hb).
  destruct (bo_node _ _ Hb p n Hl) as [->|[?|(T & Hne & Hcm)]]; [lia|done|].
  destruct (lead_facts peers g w n Hinv Hl) as (Hled & Hll & _ & Hpre & _). pose proof (i_ghost _ _ _ Hinv) as Hg.
  assert (g_led g T <> None) as HledT.
  { intros En. destruct Hcm as (ic & _ & Hic & Htm & _). rewrite (gh_none _ _ Hg _ En) in Htm. apply tm_len in Htm. unfold len in Htm. simpl in Htm. lia. }
  destruct (N.lt_trichotomy T (a_term (w_node w n))) as [Hlt|[?|Hgt]]; [|done|].
  - assert (g_led g (a_term (w_node w n)) <> None) as Hls by (by rewrite Hled).
    pose proof (leader_complete peers Hnodup g w T _ _ Hinv Hcm Hlt Hls) as Hin.
    pose proof (cmtd_len peers g T _ Hcm) as Hlen. apply prefix_length in Hin. unfold pre in Hin. rewrite length_take in Hin. unfold len in Hlen.
    pose proof (n_rel _ _ _ _ _ _ (n_base _ _ _ _ (i_node _ _ _ Hinv n))) as Hrel.
    apply (rel_Term _ _ _ _ Hrel) in Ht as [_ Ht]. eapply tm_prefix in Ht; [|exact Hpre].
    destruct (gh_init _ _ Hg _ _ Hled) as ((ext & Hext & _) & Hold).
    destruct (N.le_gt_cases (a_cmax (w_node w p)) (a_commit (w_node w n))) as [|Hc]; [done|exfalso].
    unfold tm in Ht. destruct (N.eqb_spec (a_commit (w_node w n)) 0); [injection Ht; pose proof (gh_led _ _ Hg _ _ Hled); lia|].
    apply fmap_Some in Ht as (e & He & Hte). rewrite Hext, lookup_app_l in He by lia.
    rewrite Forall_lookup in Hold. specialize (Hold _ _ He). lia.
  - destruct (g_led g T) as [c|] eqn:Ec; [|done]. destruct (gh_led _ _ Hg _ _ Ec) as (_ & HQ' & Hv).
    destruct (quorum_inter peers _ _ Hnodup HQ HQ') as (v & Hv1 & Hv2). destruct (Hv v Hv2) as (Hr & Hrec & _).
    destruct (n_vrec _ _ _ _ _ _ (n_base _ _ _ _ (i_node _ _ _ Hinv v)) _ _ _ Hrec) as (Hle & _).
    specialize (Hterms v Hv1). unfold a_term in *. lia.
Qed.

(** ** Time *)

Lemma astep_term Ms n a lab a' : astep Ms n a lab a' -> (a_term a <= a_term a')%N.
Proof.
  destruct 1; unfold a_term in *; simpl; try lia;
    match goal with
    | H : appendLocked _ _ = Ret _ |- _ => rewrite (append_term _ _ _ H); lia
    | H : mem_Compact _ _ _ _ = Ret _ |- _ => rewrite (compact_term _ _ _ _ _ H); lia
    end.
Qed.

Lemma steps_later w w' : rtc wstep w w' ->
  (forall p, (a_term (w_node w p) <= a_term (w_node w' p))%N /\ (a_cmax (w_node w p) <= a_cmax (w_node w' p))%N) /\
  forall m, m ∈ w_msgs w' -> m ∈ w_msgs w \/ (a_term (w_node w (m_From m)) <= m_Term m)%N.
Proof.
  induction 1 as [w|w w1 w2 Hs _ [IH1 IH2]]; [split; [intros p; lia|by left]|].
  assert (forall p, (a_term (w_node w p) <= a_term (w_node w1 p))%N /\ (a_cmax (w_node w p) <= a_cmax (w_node w1 p))%N) as H1.
  { intros p. destruct Hs as [n lab a _ _ Hst]. simpl. destruct (decide (p = n)) as [->|Hne]; [|rewrite fn_lookup_insert_ne by done; lia].
    rewrite fn_lookup_insert. split; [by eapply astep_term|by eapply astep_cmax]. }
  split.
  - intros p. specialize (H1 p). specialize (IH1 p). lia.
  - intros m Hm. destruct (IH2 m Hm) as [Hm1|Ht]; [|right; specialize (H1 (m_From m)); lia].
    destruct Hs as [n lab a _ _ Hst]. simpl in Hm1. apply elem_of_app in Hm1 as [Hm1|]; [|by left].
    destruct lab as [[m0| | |]|]; simpl in Hm1; try (by apply not_elem_of_nil in Hm1). apply list_elem_of_singleton in Hm1 as ->.
    destruct (astep_send _ _ _ _ _ Hst) as (<- & -> & _). by right.
Qed.
End ReadSafety.

Section Reads.
Context {S : Type} `{LS : LogStore S} `{OK : !LogStoreOK S}.
Context {X A : Type} `{HM : Machine X} `{HOK : !MachineOK X A}.
Context (peers : list NodeID) (Hnodup : NoDup peers) (Hzero : 0%N ∉ peers).

#[local] Abbreviation node := (Node S X).
#[local] Abbreviation rstep := (rstep peers).
#[local] Abbreviation wstep := (wstep peers).
#[local] Abbreviation reachable := (reachable peers).
#[local] Abbreviation RI := (RI peers).
#[local] Abbreviation last_id nd := (r_nextReadID (n_r nd)).
Implicit Types (nd : node) (g : ghost) (w : world) (c : replicas (S:=S) (X:=X)).

(** ** Numbers in messages *)

(** [p] has asked for answers to its round [id]. *)
Definition asked (Ms : list Message) (p : NodeID) (id : N) : Prop :=
  exists m, m ∈ Ms /\ m_Type m = MsgApp /\ m_From m = p /\ m_ReadID m = id.

(** No message is about a round of [n] after [nx]. *)
Definition fresh (n : NodeID) (Ms : list Message) (nx : N) : Prop :=
  forall m, m ∈ Ms ->
    (m_Type m = MsgApp -> m_From m = n -> (m_ReadID m <= nx)%N) /\
    (m_Type m = MsgAppResp -> m_To m = n -> (m_ReadID m <= nx)%N).

Lemma fresh_after n Ms nx nx' cfg k tr :
  fresh n Ms nx -> Forall (rid_ok (asked Ms) cfg k) tr -> (c_ID cfg = n -> (k <= nx')%N) -> (nx <= nx')%N ->
  fresh n (after tr Ms) nx'.
Proof.
  intros Hf Ht Hk Hle m Hm. apply after_elem in Hm as [Hm|Hm].
  - destruct (Hf m Hm) as [H1 H2]. split; intros Hty Hn; [specialize (H1 Hty Hn)|specialize (H2 Hty Hn)]; lia.
  - rewrite Forall_forall in Ht. destruct (Ht _ Hm) as (Hfrom & H1 & H2). split; intros Hty Hn.
    + specialize (H1 Hty). rewrite Hfrom in Hn. specialize (Hk Hn). lia.
    + destruct (H2 Hty) as [-> |(m' & Hm' & Hty' & Hfr & <-)]; [lia|]. rewrite Hn in Hfr. apply (Hf m' Hm') in Hty' as ?; [lia|done].
Qed.

(** ** What holds of every running node *)

Definition any1 : N -> Prop := fun _ => True.
Definition any3 : N -> N -> N -> Prop := fun _ _ _ => True.

Definition tame nd : Prop := RN any3 any3 (fun _ _ => False) (r_cfg (n_r nd)) any1 any1 0 0 0 (with_trace [] nd).
Definition all_tame c : Prop := forall p nd, rc_node c p = RUp nd -> c_ID (r_cfg (n_r nd)) = p /\ tame nd.

#[local] Abbreviation calm_in Ms cfg lo ap := (RN any3 any3 (asked Ms) cfg any1 any1 0 lo ap).

Lemma calm_cfg Ms cfg lo ap nd : calm_in Ms cfg lo ap nd -> r_cfg (n_r nd) = cfg.
Proof. intros [(nx & _ & [])]. done. Qed.

Lemma calm_tame Ms cfg lo ap nd : calm_in Ms cfg lo ap nd -> tame nd.
Proof.
  intros H. unfold tame. rewrite (calm_cfg _ _ _ _ _ H). 
  eapply RN_mono; [..|exact (RN_start _ _ _ (fun _ _ => False) _ _ _ _ _ _ _ H)]; try done. apply N.le_0_l.
Qed.

Lemma calm_ap Ms cfg lo ap ap' nd : calm_in Ms cfg lo ap nd -> calm_in Ms cfg lo ap' nd.
Proof. intros H. eapply RN_mono; [..|exact H]; done. Qed.

Lemma tame_calm Ms ap nd : tame nd -> calm_in Ms (r_cfg (n_r nd)) (last_id nd) ap (with_trace [] nd).
Proof. intros H. eapply calm_ap. exact (RN_start _ _ _ (asked Ms) _ _ _ _ _ _ _ H). Qed.

Lemma any_conf cfg T id i (Q : gset NodeID) :
  any3 T id i -> (forall p, p ∈ Q -> any3 T id p) -> length (c_Peers cfg) / 2 + 1 <= size Q -> any1 id -> any1 i.
Proof. done. Qed.

Lemma heard_calm op n Ms : op_ok op n Ms -> heard any3 (asked Ms) op.
Proof. destruct op as [m| |]; simpl; [|done..]. intros [Hm _]. split; [|done]. intros Hty. by exists m. Qed.

(** The messages of a call, however it ends. *)
Lemma first_calm op n Ms nd :
  tame nd -> op_ok op n Ms ->
  qwp (asked Ms) (r_cfg (n_r nd)) (first_part op) (fun _ => calm_in Ms (r_cfg (n_r nd)) (last_id nd) (n_applied nd)) (with_trace [] nd).
Proof.
  intros Ht Hop. eapply qwp_mono; [eapply (first_RA any3 any3 _ _ any1 any1 0 (last_id nd) (n_applied nd))|].
  - apply any_conf.
  - split; [by apply tame_calm|done].
  - by eapply heard_calm.
  - by intros ? nd' [? _].
Qed.

Lemma last_calm Ms cfg lo ap nd :
  calm_in Ms cfg lo ap nd -> qwp (asked Ms) cfg last_part (fun _ => calm_in Ms cfg lo (n_applied nd)) nd.
Proof.
  intros H. eapply qwp_mono; [eapply (last_RA any3 any3 _ _ any1 any1 0 lo (n_applied nd))|].
  - apply any_conf.
  - done.
  - done.
  - split; [by eapply calm_ap|done].
  - done.
  - by intros ? nd' [? _].
Qed.

Lemma calm_sent Ms cfg lo ap nd :
  calm_in Ms cfg lo ap nd -> (lo <= last_id nd)%N /\ Forall (rid_ok (asked Ms) cfg (last_id nd)) (trace_of nd).
Proof. intros [(nx & Hnx & [])]. subst nx. done. Qed.

Lemma qwp_any {B} echo cfg (m : @NM S X B) (Q : B -> node -> Prop) nd nd' res :
  qwp echo cfg m Q nd -> (forall x, Q x nd' -> exists k, Forall (rid_ok echo cfg k) (trace_of nd')) -> m nd = (nd', res) ->
  exists k, Forall (rid_ok echo cfg k) (trace_of nd').
Proof. intros Hq HQ Hm. unfold qwp in Hq. rewrite Hm in Hq. simpl in Hq. destruct res; eauto. Qed.

Lemma first_sent op n Ms nd nd1 res :
  tame nd -> op_ok op n Ms -> first_part op (with_trace [] nd) = (nd1, res) ->
  exists k, Forall (rid_ok (asked Ms) (r_cfg (n_r nd)) k) (trace_of nd1).
Proof.
  intros Ht Hop Hf. eapply qwp_any; [by eapply first_calm| |exact Hf]. intros ? Hc. eexists. apply (calm_sent _ _ _ _ _ Hc).
Qed.

Lemma op_calm op n Ms nd nd' :
  tame nd -> op_ok op n Ms -> node_op op (with_trace [] nd) = (nd', Ret tt) ->
  exists ap, calm_in Ms (r_cfg (n_r nd)) (last_id nd) ap nd'.
Proof.
  intros Ht Hop Hrun. rewrite node_op_parts in Hrun.
  assert (qwp (asked Ms) (r_cfg (n_r nd)) (first_part op;; machine_part;; last_part)
    (fun _ nd' => exists ap, calm_in Ms (r_cfg (n_r nd)) (last_id nd) ap nd') (with_trace [] nd)) as Hq.
  { apply qwp_bind. eapply qwp_mono; [by eapply first_calm|]. intros ? nd1 H1.
    apply qwp_bind. eapply qwp_mono; [exact (machine_RN any3 any3 _ _ any1 any1 0 _ _ nd1 H1)|]. intros ? nd2 H2.
    eapply qwp_mono; [exact (last_calm _ _ _ _ _ H2)|]. intros ? nd3 H3. eexists. exact H3. }
  unfold qwp in Hq. by rewrite Hrun in Hq.
Qed.

Lemma last_sent Ms cfg lo ap nd nd3 res :
  calm_in Ms cfg lo ap nd -> last_part nd = (nd3, res) -> exists k, Forall (rid_ok (asked Ms) cfg k) (trace_of nd3).
Proof.
  intros H Hl. eapply qwp_any; [by eapply last_calm| |exact Hl]. intros ? Hc. eexists. apply (calm_sent _ _ _ _ _ Hc).
Qed.

(** A call that was cut in its last part. *)
Lemma parts_sent op n Ms Ms' nd nd1 nd2 nd3 res :
  tame nd -> op_ok op n Ms -> first_part op (with_trace [] nd) = (nd1, Ret tt) -> machine_part nd1 = (nd2, Ret tt) ->
  last_part (with_trace [] nd2) = (nd3, res) -> exists k, Forall (rid_ok (asked Ms') (r_cfg (n_r nd)) k) (trace_of nd3).
Proof.
  intros Ht Hop Hf Hm Hl. pose proof (first_calm op n Ms nd Ht Hop) as H1. unfold qwp in H1. rewrite Hf in H1. simpl in H1.
  pose proof (machine_RN any3 any3 _ _ _ _ _ _ _ nd1 H1) as H2. unfold qwp in H2. rewrite Hm in H2. simpl in H2.
  eapply (last_sent Ms'); [|exact Hl]. exact (RN_start _ _ _ (asked Ms') _ _ _ _ _ _ _ H2).
Qed.

Lemma NewNode_tame cfg s rng y gap mb nd : NewNode cfg s rng y gap mb = Ret nd -> c_ID (r_cfg (n_r nd)) = c_ID cfg /\ tame nd.
Proof.
  intros Hn. assert (exists r, n_r nd = r /\ c_ID (r_cfg r) = c_ID cfg /\ r_reads r = None /\ r_ready r = []) as (r & Hr & Hid & Hrd & Hry).
  { pose proof (NewNode_boot _ _ _ _ _ _ _ Hn) as Hb. unfold boot, New in Hb. destruct (_ =? _)%N; [done|]. destruct (_ || _ || _); [done|].
    destruct (ls_State s) as [[t v]| |]; [|done..]. cbn [mbind go_bind] in Hb.
    destruct (ls_Snapshot s) as [[[i st] d]| |]; [|done..]. cbn [mbind go_bind] in Hb. unfold resetTimeout in Hb. cbn [r_rng] in Hb.
    destruct rng; injection Hb as <-; (eexists; split; [reflexivity|]; match goal with |- context [if ?b then _ else _] => destruct b end; done). }
  split; [by rewrite Hr|].
  assert (n_readQueue nd = [] /\ n_reads nd = ∅ /\ n_waiting nd = [] /\ n_rds nd = []) as (E1 & E2 & E3 & E4).
  { unfold NewNode in Hn. destruct (New cfg s rng) as [r0| |]; [|done..]. simpl in Hn. destruct (ls_Snapshot s) as [[[i t] d]| |]; [|done..].
    simpl in Hn. destruct (mc_LastApplied y <? i)%N; simpl in Hn; [destruct (mc_Restore d y); [|done..]; simpl in Hn|]; injection Hn as <-; done. }
  constructor; simpl; rewrite ?E1, ?E2, ?E3, ?E4; try (by intros ? ?%not_elem_of_nil); [|by intros ? ? ?; rewrite lookup_empty|done].
  eexists. split; [apply N.le_0_l|]. constructor; simpl; try done; rewrite Hr.
  - rewrite Hry. by intros rr ?%not_elem_of_nil.
  - split; simpl; rewrite Hrd; done.
Qed.

Lemma tame_ext nd nd' :
  n_r nd' = n_r nd -> n_readQueue nd' = n_readQueue nd -> n_reads nd' = n_reads nd -> n_waiting nd' = n_waiting nd ->
  n_rds nd' = n_rds nd -> tame nd -> tame nd'.
Proof. intros H1 H2 H3 H4 H5 Ht. unfold tame. rewrite H1. eapply RN_ext; [..|exact Ht]; simpl; [by rewrite H1|done..]. Qed.

(** Numbers stay fresh while a node runs, and while it is down. *)
Definition keeps_fresh c c' : Prop :=
  (forall n nd1 nd2, rc_node c n = RUp nd1 -> rc_node c' n = RUp nd2 ->
     (last_id nd1 <= last_id nd2)%N /\ (fresh n (rc_msgs c) (last_id nd1) -> fresh n (rc_msgs c') (last_id nd2))) /\
  forall n nx s x, rc_node c n = RDown s x -> fresh n (rc_msgs c) nx -> fresh n (rc_msgs c') nx.

(** One node moves to [rn], and its messages are [tr]. *)
Lemma tame_move c p nd rn k tr :
  all_tame c -> rc_node c p = RUp nd -> Forall (rid_ok (asked (rc_msgs c)) (r_cfg (n_r nd)) k) tr ->
  match rn with
  | RUp nd' => r_cfg (n_r nd') = r_cfg (n_r nd) /\ tame nd' /\ (last_id nd <= last_id nd')%N /\ (k <= last_id nd')%N
  | RDown _ _ => True
  end ->
  let c' := mkReplicas (<[p := rn]> (rc_node c)) (after tr (rc_msgs c)) in
  all_tame c' /\ keeps_fresh c c'.
Proof.
  intros Ht Hp Htr Hrn c'. destruct (Ht p nd Hp) as [Hid _]. split.
  - intros q ndq. simpl. destruct (decide (q = p)) as [->|Hne]; [|rewrite fn_lookup_insert_ne by done; apply Ht].
    rewrite fn_lookup_insert. intros ->. destruct Hrn as (Hc & ? & _). by rewrite Hc.
  - split; [|intros n nx s x Hd Hf; eapply fresh_after; [exact Hf|exact Htr|intros; congruence|lia]]. intros n nd1 nd2 H1. simpl. destruct (decide (n = p)) as [->|Hne].
    + rewrite fn_lookup_insert. intros ->. destruct Hrn as (_ & _ & Hle & Hk). rewrite Hp in H1. injection H1 as <-.
      split; [done|]. intros Hf. by eapply fresh_after.
    + rewrite fn_lookup_insert_ne by done. rewrite H1. intros [= <-]. split; [lia|]. intros Hf.
      eapply fresh_after; [exact Hf|exact Htr|intros; congruence|lia].
Qed.

(** Only the round numbers matter. *)
Lemma tame_step c c' :
  all_tame c -> rstep c c' ->
  all_tame c' /\ keeps_fresh c c'.
Proof.
  intros Ht Hst. destruct Hst as [n nd op nd' Hn Hnd Hop Hrun|n nd data Hn Hnd|n nd Hn Hnd|n nd Hn Hnd
    |n nd op nd1 res k j s y Hn Hnd Hop Hf [Hlo Hlv] Hy|n nd op nd1 k nd2 res s y Hn Hnd Hop Hf Hmc Hlo Hlv Hy
    |n nd op nd1 nd2 nd3 res k j s y Hn Hnd Hop Hf Hmc Hl [Hlo Hlv] Hy|n cfg s y rng gap mb nd Hn Hnd Hid Hp Hnew].
  1-7: destruct (Ht n nd Hnd) as [Hid Htn].
  - destruct (op_calm op n _ nd nd' Htn Hop Hrun) as (ap & Hc). destruct (calm_sent _ _ _ _ _ Hc) as [Hle Hs].
    apply (tame_move c n nd (RUp nd') (last_id nd') (trace_of nd')); [done|done|done|].
    split_and!; [by eapply calm_cfg|by eapply calm_tame|done|done].
  - apply (tame_move c n nd (RUp (Node_Propose data nd).1) 0 []); [done|done|done|].
    split_and!; [done|by apply (tame_ext nd)|done|apply N.le_0_l].
  - apply (tame_move c n nd (RUp (Node_ReadIndex nd).1) 0 []); [done|done|done|].
    split_and!; [done| |done|apply N.le_0_l]. exact (RN_asked _ _ _ _ _ _ _ _ _ _ Htn).
  - apply (tame_move c n nd (RUp (with_wake false nd)) 0 []); [done|done|done|].
    split_and!; [done|by apply (tame_ext nd)|done|apply N.le_0_l].
  - destruct (first_sent op n _ nd nd1 res Htn Hop Hf) as (x & Hx).
    apply (tame_move c n nd (RDown s y) x (take k (trace_of nd1))); [done|done|by apply Forall_take|done].
  - destruct (first_sent op n _ nd nd1 _ Htn Hop Hf) as (x & Hx).
    by apply (tame_move c n nd (RDown s y) x (trace_of nd1)).
  - destruct (first_sent op n _ nd nd1 _ Htn Hop Hf) as (x & Hx).
    destruct (parts_sent op n _ (rc_msgs c) nd nd1 nd2 nd3 res Htn Hop Hf Hmc Hl) as (x' & Hx').
    rewrite <-after_app. apply (tame_move c n nd (RDown s y) (N.max x x') (trace_of nd1 ++ take k (trace_of nd3))); [done|done| |done].
    apply Forall_app.
    split; [|apply Forall_take]; (eapply Forall_impl; [eassumption|]; intros e; apply rid_ok_mono; [done|lia]).
  - destruct (NewNode_tame _ _ _ _ _ _ _ Hnew) as [Hc Htn]. split.
    + intros q ndq. simpl. destruct (decide (q = n)) as [->|Hne]; [|rewrite fn_lookup_insert_ne by done; apply Ht].
      rewrite fn_lookup_insert. intros [= <-]. by rewrite Hc.
    + split; [|done]. intros q nd1 nd2 H1. simpl. rewrite fn_lookup_insert_ne by congruence. rewrite H1. by intros [= <-].
Qed.

Lemma rreach_tame c : rreach peers c -> all_tame c.
Proof.
  induction 1 as [c [_ Hc]|c c' _ IH Hst]; [|by apply (tame_step c c')]. intros p nd Hp.
  destruct (Hc p) as (s & x & Hd & _). by rewrite Hp in Hd.
Qed.

Lemma rsteps_tame c c' : all_tame c -> rtc rstep c c' -> all_tame c'.
Proof. intros Ht Hs. induction Hs as [|c c1 c2 Hst _ IH]; [done|]. apply IH. by apply (tame_step c c1). Qed.

(** ** Reads asked since some moment *)

Section Since.
Context (n : NodeID) (Hn : n ∈ peers) (w0 : world) (id0 : N) (h0 : nat).

(** When the leader started the round, nobody had answered it. *)
Definition started_by w (T id i : N) : Prop :=
  (id0 < id)%N -> exists ws, reachable ws /\ rtc wstep w0 ws /\ rtc wstep ws w /\
    a_role (w_node ws n) = Leader /\ a_term (w_node ws n) = T /\ a_commit (w_node ws n) = i /\
    mem_Term i (a_mem (w_node ws n)) = Ret T /\
    forall m, m ∈ w_msgs ws -> m_Type m = MsgAppResp -> m_To m = n -> m_ReadID m <> id.

Definition answered_by w (T id : N) (p : NodeID) : Prop :=
  (id0 < id)%N -> p = n \/ exists m, m ∈ w_msgs w /\ m_Type m = MsgAppResp /\ m_From m = p /\ m_To m = n /\ m_Term m = T /\ m_ReadID m = id.

Definition since (id : N) : Prop := (id0 < id)%N.

(** Everything that was committed then. *)
Definition covers (i : N) : Prop := forall p, (a_cmax (w_node w0 p) <= i)%N.

Lemma covers_le i j : (i <= j)%N -> covers i -> covers j.
Proof. intros Hij Hi p. specialize (Hi p). lia. Qed.

Lemma started_later w w' T id i : rtc wstep w w' -> started_by w T id i -> started_by w' T id i.
Proof.
  intros Hs Hst Hid. destruct (Hst Hid) as (ws & ? & ? & ? & ?). exists ws.
  split; [done|]. split; [done|]. split; [by etrans|done].
Qed.

Lemma answered_later w w' T id p : (forall m, m ∈ w_msgs w -> m ∈ w_msgs w') -> answered_by w T id p -> answered_by w' T id p.
Proof. intros Hs Ha Hid. destruct (Ha Hid) as [->|(m & Hm & ?)]; [by left|right]. exists m. split; [auto|done]. Qed.

(** A majority of answers makes the index of a round current. *)
Lemma round_covers g w cfg T id i (Q : gset NodeID) :
  Safety.inv peers g w -> c_Peers cfg = peers -> started_by w T id i -> (forall p, p ∈ Q -> answered_by w T id p) ->
  length (c_Peers cfg) / 2 + 1 <= size Q -> since id -> covers i.
Proof.
  intros Hinv Hp Hst HQ Hsz Hid. destruct (Hst Hid) as (ws & Hws & H0 & Hs & Hl & Ht & Hc & Hmt & Hno).
  destruct (steps_later peers _ _ H0) as [Hmono _]. destruct (steps_later peers _ _ Hs) as [_ Hmsg].
  assert (forall p, (a_cmax (w_node ws p) <= i)%N) as Hk.
  { rewrite <-Hc. apply (leader_knows_all peers Hnodup ws n Q Hws Hl); [by rewrite Hc, Ht| |].
    - split; [|by rewrite <-Hp]. intros p Hpq. apply elem_of_list_to_set. destruct (HQ p Hpq Hid) as [->|(m & Hm & _ & <- & _)]; [done|].
      apply (i_msgs _ _ _ Hinv m Hm).
    - intros p Hpq. destruct (HQ p Hpq Hid) as [->|(m & Hm & Hty & <- & Hto & Htm & Hri)]; [done|].
      destruct (Hmsg m Hm) as [Hin|Hle]; [by destruct (Hno m Hin Hty Hto)|]. by rewrite Ht, <-Htm. }
  intros p. destruct (Hmono p) as [_ Hcm]. specialize (Hk p). lia.
Qed.

Definition read_inv w nd : Prop :=
  RN (started_by w) (answered_by w) (fun _ _ => False) (r_cfg (n_r nd)) since covers h0 id0 (n_applied nd) (with_trace [] nd).

#[local] Abbreviation reads_in w echo cfg lo ap := (RN (started_by w) (answered_by w) echo cfg since covers h0 lo ap).

Lemma reads_cfg w echo cfg lo ap nd : reads_in w echo cfg lo ap nd -> r_cfg (n_r nd) = cfg.
Proof. intros [(nx & _ & [])]. done. Qed.

Lemma reads_later w w' echo cfg lo ap nd :
  rtc wstep w w' -> (forall m, m ∈ w_msgs w -> m ∈ w_msgs w') -> reads_in w echo cfg lo ap nd -> reads_in w' echo cfg lo ap nd.
Proof.
  intros Hs Hm H. eapply RN_mono; [..|exact H]; try done.
  - intros T id i. by apply started_later.
  - intros T id p. by apply answered_later.
Qed.

Lemma read_inv_later w w' nd :
  rtc wstep w w' -> (forall m, m ∈ w_msgs w -> m ∈ w_msgs w') -> read_inv w nd -> read_inv w' nd.
Proof. apply reads_later. Qed.

Lemma read_inv_done w echo cfg lo nd :
  (id0 <= lo)%N -> reads_in w echo cfg lo (n_applied nd) nd -> read_inv w nd.
Proof.
  intros Hlo H. unfold read_inv. rewrite (reads_cfg _ _ _ _ _ _ H). destruct (rn_raft _ _ _ _ _ _ _ _ _ _ H) as (nx & Hnx & HW).
  eapply RN_mono; [..|exact (RN_start _ _ _ (fun _ _ => False) _ _ _ _ _ _ _ H)]; try done. rewrite (v_next _ _ _ _ _ _ _ HW). lia.
Qed.

(** What a leader may start in a world where its next number is fresh. *)
Lemma may_start_in w g cfg Ms lo ap nd :
  rtc wstep w0 w -> reachable w -> NI peers n w g nd -> reads_in w (asked Ms) cfg lo ap nd ->
  fresh n (w_msgs w) (last_id nd) ->
  may_start (started_by w) (answered_by w) (asked Ms) cfg since covers (n_r nd).
Proof.
  intros Hs Hw HN HR Hf nx HW Hl Ht. pose proof (v_next _ _ _ _ _ _ _ HW) as Hnx. pose proof (ni_sim _ _ _ _ _ HN) as Hsim.
  destruct (sim_store _ _ _ _ _ _ Hsim) as [Hok Hv]. rewrite ls_Term_ok, Hv in Ht by done.
  rewrite (sim_role _ _ _ _ _ _ Hsim) in Hl. rewrite (sim_term _ _ _ _ _ _ Hsim), (sim_commit _ _ _ _ _ _ Hsim) in *. split.
  - intros _. exists w. split_and!; try done. intros m Hm Hty Hto. destruct (Hf m Hm) as [_ H2]. specialize (H2 Hty Hto). lia.
  - intros _. left. rewrite <-(reads_cfg _ _ _ _ _ _ HR). exact (sim_id _ _ _ _ _ _ Hsim).
Qed.

Lemma heard_in op w Ms : w_msgs w = Ms -> op_ok op n Ms -> heard (answered_by w) (asked Ms) op.
Proof.
  intros <-. destruct op as [m| |]; simpl; [|done..]. intros [Hm Hto]. split.
  - intros Hty. by exists m.
  - intros Hty _ _. right. by exists m.
Qed.

Lemma reads_last w g cfg Ms lo nd nd' :
  rtc wstep w0 w -> reachable w -> NI peers n w g nd -> c_Peers cfg = peers -> (id0 <= lo)%N -> fresh n (w_msgs w) (last_id nd) ->
  reads_in w (asked Ms) cfg lo (n_applied nd) nd -> last_part nd = (nd', Ret tt) ->
  reads_in w (asked Ms) cfg lo (n_applied nd) nd' /\ n_applied nd' = n_applied nd.
Proof.
  intros H0 Hw HN Hps Hlo Hf HR Hl.
  pose proof (last_RA (started_by w) (answered_by w) (asked Ms) cfg since covers h0 lo (n_applied nd)
    (fun T id i Q => round_covers g w cfg T id i Q (ni_inv _ _ _ _ _ HN) Hps) covers_le) as Hq.
  unfold qwp in Hq. specialize (Hq ltac:(unfold since; lia) nd). rewrite Hl in Hq. apply Hq; [done|]. by eapply may_start_in.
Qed.

Lemma steps_incl w w' m : rtc wstep w w' -> m ∈ w_msgs w -> m ∈ w_msgs w'.
Proof. induction 1 as [|w w1 w2 [] _ IH]; [done|]. intros Hm. apply IH. simpl. apply elem_of_app. by right. Qed.

(** A call of the node itself. *)
Lemma read_inv_op c w g nd op nd' :
  RI c w g -> reachable w -> rtc wstep w0 w -> rc_node c n = RUp nd -> op_ok op n (rc_msgs c) ->
  fresh n (rc_msgs c) (last_id nd) -> c_ID (r_cfg (n_r nd)) = n -> c_Peers (r_cfg (n_r nd)) = peers -> read_inv w nd ->
  node_op op (with_trace [] nd) = (nd', Ret tt) ->
  exists w' g', RI (mkReplicas (<[n := RUp nd']> (rc_node c)) (after (trace_of nd') (rc_msgs c))) w' g' /\
    rtc wstep w w' /\ gle g g' /\ read_inv w' nd'.
Proof.
  intros HR Hw H0 Hnd Hop Hfr Hid Hps HI Hrun.
  destruct (op_parts peers Hnodup Hzero _ _ _ _ _ _ _ HR Hn Hnd Hop Hrun)
    as (nd1 & nd2 & w1 & g1 & w' & g' & (Hf & Hmc & Hl) & (HN2 & Ha2 & Hm1) & Hs1 & Hs2 & Hle & HR').
  exists w', g'. split_and!; [done|by etrans|done|]. pose proof (ri_msgs _ _ _ _ HR) as Hms.
  set (cfg := r_cfg (n_r nd)) in *. set (Ms := rc_msgs c) in *.
  assert (RA (started_by w) (answered_by w) (asked Ms) cfg since covers h0 (last_id nd) (n_applied nd) nd1) as [H1 Ha1].
  { pose proof (first_RA (started_by w) (answered_by w) (asked Ms) cfg since covers h0 (last_id nd) (n_applied nd)
      (fun T id i Q => round_covers g w cfg T id i Q (ri_inv _ _ _ _ HR) Hps) op (with_trace [] nd)) as Hq.
    unfold qwp in Hq. rewrite Hf in Hq. apply Hq; [|by apply heard_in]. split; [|done].
    exact (RN_start _ _ _ (asked Ms) _ _ _ _ _ _ _ HI). }
  pose proof (machine_RN _ _ _ _ _ _ _ _ _ nd1 H1) as H2. unfold qwp in H2. rewrite Hmc in H2. simpl in H2.
  assert (reads_in w1 (asked Ms) cfg (last_id nd) (n_applied nd2) nd2) as H3.
  { eapply reads_later; [exact Hs1| |].
    - rewrite Hm1, Hms. intros m. apply after_incl.
    - eapply RN_mono; [..|exact H2]; try done. apply covers_le. lia. }
  assert (fresh n (w_msgs w1) (last_id nd2)) as Hf2.
  { destruct (rn_raft _ _ _ _ _ _ _ _ _ _ H3) as (nx & Hnx & [? <- ? Htr ?]). rewrite Hm1. eapply fresh_after; [exact Hfr|exact Htr|done|done]. }
  assert (id0 <= last_id nd)%N as Hlo.
  { destruct (rn_raft _ _ _ _ _ _ _ _ _ _ HI) as (nx & Hnx & [? <- ? ? ?]). done. }
  destruct (reads_last w1 g1 cfg Ms (last_id nd) nd2 nd') as [H4 Ha4]; try done; [by etrans|by eapply reachable_rtc|].
  apply (read_inv_later w1); [done|intros m; by apply steps_incl|]. by eapply read_inv_done; [exact Hlo|rewrite Ha4].
Qed.

(** ** The step *)

Definition stays_up c c' : Prop := rstep c c' /\ exists nd, rc_node c' n = RUp nd.

Lemma read_inv_step c w g nd c' :
  RI c w g -> reachable w -> rtc wstep w0 w -> rc_node c n = RUp nd -> all_tame c ->
  fresh n (rc_msgs c) (last_id nd) -> read_inv w nd -> stays_up c c' ->
  exists w' g' nd', RI c' w' g' /\ rtc wstep w w' /\ gle g g' /\ rc_node c' n = RUp nd' /\ read_inv w' nd'.
Proof.
  intros HR Hw H0 Hnd Ht Hf HI [Hst [nd' Hnd']].
  assert (c_Peers (r_cfg (n_r nd)) = peers) as Hps by (apply (sim_peers _ _ _ _ _ _ (ni_sim _ _ _ _ _ (RI_up _ _ _ _ _ _ HR Hn Hnd)))).
  destruct (Ht n nd Hnd) as [Hid _].
  assert (forall nd1, rc_node c' n = RUp nd1 -> read_inv w nd1 ->
    exists w' g' nd', RI c' w' g' /\ rtc wstep w w' /\ gle g g' /\ rc_node c' n = RUp nd' /\ read_inv w' nd') as Hlocal.
  { intros nd1 Hs HI1. destruct (rsim peers Hnodup Hzero c w g c' HR Hst) as (w' & g' & ? & Hrt & ?). exists w', g', nd1. split_and!; try done.
    eapply read_inv_later; [done| |done]. intros m. by apply steps_incl. }
  destruct Hst as [q ndq op nd1 _ Hq Hop Hrun|q ndq data _ Hq|q ndq _ Hq|q ndq _ Hq
    |q ndq op nd1 res k j s y _ Hq _ _ _ _|q ndq op nd1 k nd2 res s y _ Hq _ _ _ _ _ _
    |q ndq op nd1 nd2 nd3 res k j s y _ Hq _ _ _ _ _ _|q cfg s y rng gap mb nd1 _ Hq _ _ _]; simpl in *;
    (destruct (decide (q = n)) as [->|Hne]; [rewrite fn_lookup_insert in *|rewrite fn_lookup_insert_ne in * by done; by apply (Hlocal nd)]);
    rewrite Hnd in Hq; try discriminate Hnd'; try discriminate Hq; injection Hq as <-; injection Hnd' as <-.
  - destruct (read_inv_op c w g nd op nd1 HR Hw H0 Hnd Hop Hf Hid Hps HI Hrun) as (w' & g' & ? & ? & ? & ?).
    by exists w', g', nd1.
  - apply (Hlocal _ eq_refl). by eapply RN_ext; [..|exact HI].
  - apply (Hlocal _ eq_refl). exact (RN_asked _ _ _ _ _ _ _ _ _ _ HI).
  - apply (Hlocal _ eq_refl). by eapply RN_ext; [..|exact HI].
Qed.

Lemma read_inv_steps c w g nd c' :
  RI c w g -> reachable w -> rtc wstep w0 w -> rc_node c n = RUp nd -> all_tame c ->
  fresh n (rc_msgs c) (last_id nd) -> read_inv w nd -> rtc stays_up c c' ->
  exists w' g' nd', RI c' w' g' /\ gle g g' /\ rc_node c' n = RUp nd' /\ fresh n (rc_msgs c') (last_id nd') /\ read_inv w' nd'.
Proof.
  intros HR Hw H0 Hnd Ht Hf HI Hs. revert w g nd HR Hw H0 Hnd Ht Hf HI.
  induction Hs as [c|c c1 c2 Hst _ IH]; intros w g nd HR Hw H0 Hnd Ht Hf HI; [exists w, g, nd; split_and!; try done; apply gle_refl|].
  destruct (read_inv_step c w g nd c1 HR Hw H0 Hnd Ht Hf HI Hst) as (w1 & g1 & nd1 & HR1 & Hs1 & Hle1 & Hnd1 & HI1).
  destruct (tame_step c c1 Ht (proj1 Hst)) as [Ht1 [Hf1 _]]. destruct (Hf1 n nd nd1 Hnd Hnd1) as [_ Hf2].
  destruct (IH w1 g1 nd1) as (w2 & g2 & nd2 & ? & ? & ? & ? & ?); [done|by eapply reachable_rtc|by etrans|done|done|auto|done|].
  exists w2, g2, nd2. split_and!; try done. by eapply gle_trans.
Qed.
End Since.

(** Nothing was asked yet. *)
Lemma read_inv_now n w nd : tame nd -> read_inv n w (last_id nd) (length (n_rds nd)) w nd.
Proof.
  intros [(nx & _ & HW) Hq Hr Hw _]. assert (nx = last_id nd) as -> by (by destruct HW). constructor; try done.
  - exists (last_id nd). split; [simpl; lia|]. destruct HW as [? ? Hry ? [Hnl Hrd]]. constructor; try done.
    + intros rr Hrr. destruct (Hry rr Hrr) as [? _]. split; [done|]. unfold since. lia.
    + split; [done|]. intros reads id rd E1 E2. destruct (Hrd reads id rd E1 E2) as [[? _] _].
      split; [split; [done|]; intros ?; lia|]. intros p _ ?. lia.
  - simpl in *. intros id hs h Hl Hh. destruct (Hr id hs h Hl Hh). split; [done|]. lia.
  - simpl in *. intros h Hh. destruct (Hw h Hh) as (rd & Hrd & _). exists rd. split; [done|]. apply lookup_lt_Some in Hrd. lia.
  - simpl in *. intros h rd Hl Hge. apply lookup_lt_Some in Hl. lia.
Qed.

(** A read that is asked after [c0] and settled without an error by [c1] is
    current: by then the node has applied everything that any node had
    applied in a state [ca] before [c0]. *)
Lemma reads_current ca c0 c1 n nd0 nd1 h rd :
  rreach peers ca -> rtc rstep ca c0 -> up peers c0 n nd0 -> fresh n (rc_msgs c0) (last_id nd0) ->
  rtc (stays_up n) c0 c1 -> rc_node c1 n = RUp nd1 ->
  n_rds nd1 !! h = Some rd -> length (n_rds nd0) <= h -> h_done rd = true -> h_Err rd = None ->
  forall p ndp, up peers ca p ndp -> (n_applied ndp <= n_applied nd1)%N.
Proof.
  intros Hca H0 [Hn Hnd0] Hf Hs Hnd1 Hrd Hh Hd He p ndp [Hp Hndp].
  destruct (rreach_RI peers Hnodup Hzero ca Hca) as (wa & ga & Hwa & HRa).
  destruct (rsteps_RI peers Hnodup Hzero ca c0 wa ga HRa H0) as (w0 & g0 & Hle & Hsa & HR0).
  pose proof (rsteps_tame ca c0 (rreach_tame ca Hca) H0) as Ht.
  destruct (read_inv_steps n Hn w0 (last_id nd0) (length (n_rds nd0)) c0 w0 g0 nd0 c1)
    as (w1 & g1 & nd1' & _ & _ & Hnd1' & _ & HI); try done; [by eapply reachable_rtc|by apply read_inv_now, (Ht n nd0 Hnd0)|].
  rewrite Hnd1 in Hnd1'. injection Hnd1' as <-.
  pose proof (rn_done _ _ _ _ _ _ _ _ _ _ HI h rd Hrd Hh Hd He p) as Hc.
  pose proof (applied_cmax _ _ _ _ _ (RI_up _ _ _ _ _ _ HRa Hp Hndp)) as Ha.
  destruct (steps_later peers _ _ Hsa) as [Hm _]. destruct (Hm p) as [_ Hcm]. lia.
Qed.

(** Numbers stay fresh while the node runs. *)
Lemma fresh_stays c0 c1 n nd0 nd1 :
  rreach peers c0 -> up peers c0 n nd0 -> fresh n (rc_msgs c0) (last_id nd0) -> rtc (stays_up n) c0 c1 ->
  rc_node c1 n = RUp nd1 -> fresh n (rc_msgs c1) (last_id nd1).
Proof.
  intros Hc0 [Hn Hnd0] Hf Hs. pose proof (rreach_tame c0 Hc0) as Ht. clear Hc0. revert nd0 Hnd0 Hf Ht nd1.
  induction Hs as [c|c c1 c2 [Hst [nd Hnd]] _ IH]; intros nd0 Hnd0 Hf Ht nd1 Hnd1; [rewrite Hnd0 in Hnd1; by injection Hnd1 as <-|].
  destruct (tame_step c c1 Ht Hst) as [Ht1 [Hk _]]. destruct (Hk n nd0 nd Hnd0 Hnd) as [_ Hf1]. by eapply (IH nd); auto.
Qed.

(** They are fresh when the node is opened for the first time. *)
Definition asleep (n : NodeID) c c' : Prop := rstep c c' /\ exists s x, rc_node c n = RDown s x.

Lemma fresh_first c0 c1 n nd : r_start c0 -> rtc (asleep n) c0 c1 -> rc_node c1 n = RUp nd -> fresh n (rc_msgs c1) (last_id nd).
Proof.
  intros Hc0 Hs Hnd. assert (fresh n (rc_msgs c1) 0) as Hf.
  { assert (fresh n (rc_msgs c0) 0) as Hf by (destruct Hc0 as [-> _]; by intros m ?%not_elem_of_nil).
    pose proof (rreach_tame c0 (rreach_start _ _ Hc0)) as Ht. clear Hc0 Hnd.
    induction Hs as [|c c1 c2 [Hst (s & x & Hd)] _ IH]; [done|]. destruct (tame_step c c1 Ht Hst) as [Ht1 [_ Hk]]. eauto. }
  intros m Hm. destruct (Hf m Hm) as [H1 H2]. split; intros Ha Hb; [specialize (H1 Ha Hb)|specialize (H2 Ha Hb)]; lia.
Qed.
End Reads.
