(* ===== verification/NodeHandles.v ===== *)
(** * The handles of a node (raft/node.go)

    Every proposal and read handle is settled at most once, and one that is
    not settled is held in exactly one place: nothing a caller waits on is
    forgotten or closed twice. *)

From stdpp Require Import base list gmap.
From S2P Require Import Prelude LogStore Raft RaftCalls Node.

(** ** Open handles

    [live] lists the handles of a heap that are not done, each once. *)
Definition handles_ok (done : list bool) (live : list nat) : Prop :=
  NoDup live /\ forall h, h ∈ live <-> done !! h = Some false.

#[global] Instance handles_ok_proper done : Proper ((≡ₚ) ==> iff) (handles_ok done).
Proof. intros l l' Hl. unfold handles_ok. rewrite Hl. split; (intros [? Hh]; split; [done|]; intros h; rewrite <-Hh; by rewrite Hl). Qed.

Lemma handles_close done h live :
  handles_ok done (h :: live) -> handles_ok (<[h := true]> done) live.
Proof.
  intros [Hnd Hh]. apply NoDup_cons in Hnd as [Hni Hnd]. split; [done|]. intros h'.
  assert (h' ∈ h :: live <-> done !! h' = Some false) as Hh' by apply Hh. rewrite elem_of_cons in Hh'.
  destruct (decide (h' = h)) as [-> |Hne].
  - rewrite list_lookup_insert_eq; [naive_solver|]. eapply lookup_lt_Some, Hh, list_elem_of_here.
  - rewrite list_lookup_insert_ne by done. naive_solver.
Qed.

Lemma handles_open done live :
  handles_ok done live -> handles_ok (done ++ [false]) (live ++ [length done]).
Proof.
  intros [Hnd Hh].
  assert (length done ∉ live) as Hni.
  { intros Hin. apply Hh, lookup_lt_Some in Hin. lia. }
  split.
  - apply NoDup_app. split_and!; [done| |apply NoDup_singleton]. intros h Hin. rewrite list_elem_of_singleton. by intros ->.
  - intros h. rewrite elem_of_app, list_elem_of_singleton, Hh, lookup_app. split.
    + intros [Hf| ->]; [by rewrite Hf|]. rewrite lookup_ge_None_2 by lia. by rewrite Nat.sub_diag.
    + destruct (done !! h) eqn:Hd; [naive_solver|]. intros Hs. right.
      apply lookup_ge_None in Hd. apply list_lookup_singleton_Some in Hs as [? _]. lia.
Qed.

(** The handle at hand is open. *)
Lemma handles_head done h live : handles_ok done (h :: live) -> done !! h = Some false.
Proof. intros [_ Hh]. apply Hh, list_elem_of_here. Qed.

Section Handles.
Context {S : Type} `{LS : LogStore S} `{OK : !LogStoreOK S} {X : Type} `{MC : Machine X}.

#[local] Abbreviation node := (Node S X).
Implicit Types n : node.

Definition live_props n : list nat := n_queue n ++ (map_to_list (n_pending n)).*2.
Definition live_reads n : list nat :=
  n_readQueue n ++ concat (map_to_list (n_reads n)).*2 ++ n_waiting n.

Lemma nbind_eq {A B} (m : @NM S X A) (f : A -> @NM S X B) n n1 a :
  m n = (n1, Ret a) -> (m ≫= f) n = f a n1.
Proof. unfold mbind, NM_bind. by intros ->. Qed.

(** ** Closing *)

Definition close_prop (result : bytes) (err : option error) (p : Proposal) : Proposal :=
  mkProposal (p_data p) (p_term p) (p_Index p) result err true.
Definition close_read (err : option error) (rd : Read) : Read := mkRead (h_Index rd) err true.

Definition close_props (result : bytes) (err : option error) (l : list nat) (ps : list Proposal) : list Proposal :=
  foldl (fun ps h => alter (close_prop result err) h ps) ps l.
Definition close_reads (err : option error) (l : list nat) (rs : list Read) : list Read :=
  foldl (fun rs h => alter (close_read err) h rs) rs l.

Lemma alter_insert_lookup {A} (f : A -> A) h (l : list A) x : l !! h = Some x -> <[h := f x]> l = alter f h l.
Proof.
  intros Hx. apply list_eq. intros i. destruct (decide (i = h)) as [-> |Hne].
  - rewrite list_lookup_insert_eq by (by eapply lookup_lt_Some). by rewrite list_lookup_alter_eq, Hx.
  - by rewrite list_lookup_insert_ne, list_lookup_alter_ne.
Qed.

Lemma fmap_alter_const {A B} (g : A -> B) (f : A -> A) h (l : list A) b :
  (forall x, g (f x) = b) -> g <$> alter f h l = <[h := b]> (g <$> l).
Proof.
  intros Hg. apply list_eq. intros i. rewrite list_lookup_fmap. destruct (decide (i = h)) as [-> |Hne].
  - rewrite list_lookup_alter_eq. destruct (l !! h) as [x|] eqn:Hx; simpl.
    + rewrite list_lookup_insert_eq, Hg by (rewrite length_fmap; by eapply lookup_lt_Some). done.
    + symmetry. apply lookup_ge_None. rewrite length_insert, length_fmap. by apply lookup_ge_None.
  - by rewrite list_lookup_alter_ne, list_lookup_insert_ne, list_lookup_fmap.
Qed.

Lemma finish_eq h result err live n :
  handles_ok (p_done <$> n_props n) (h :: live) ->
  finish h result err n = (with_props (alter (close_prop result err) h (n_props n)) n, Ret tt) /\
  handles_ok (p_done <$> alter (close_prop result err) h (n_props n)) live.
Proof.
  intros Hok. pose proof (handles_head _ _ _ Hok) as Hd. rewrite list_lookup_fmap in Hd.
  apply fmap_Some in Hd as (p & Hp & Hd). split.
  - unfold finish, mbind, NM_bind, nget. rewrite Hp, <-Hd. unfold nmodify. do 2 f_equal.
    by rewrite <-(alter_insert_lookup _ _ _ _ Hp).
  - rewrite (fmap_alter_const _ _ _ _ true) by done. by apply handles_close.
Qed.

Lemma finish_list l result err live n :
  handles_ok (p_done <$> n_props n) (l ++ live) ->
  nfor_each l (fun h => finish h result err) n = (with_props (close_props result err l (n_props n)) n, Ret tt) /\
  handles_ok (p_done <$> close_props result err l (n_props n)) live.
Proof.
  revert n. induction l as [|h l IH]; intros n Hok; simpl; [by destruct n|].
  destruct (finish_eq h result err (l ++ live) n Hok) as [Heq Hok'].
  erewrite nbind_eq by exact Heq. by apply (IH (with_props _ n)).
Qed.

Lemma finish_read_eq h err live n :
  handles_ok (h_done <$> n_rds n) (h :: live) ->
  finish_read h err n = (with_rds (alter (close_read err) h (n_rds n)) n, Ret tt) /\
  handles_ok (h_done <$> alter (close_read err) h (n_rds n)) live.
Proof.
  intros Hok. pose proof (handles_head _ _ _ Hok) as Hd. rewrite list_lookup_fmap in Hd.
  apply fmap_Some in Hd as (p & Hp & Hd). split.
  - unfold finish_read, mbind, NM_bind, nget. rewrite Hp, <-Hd. unfold nmodify. do 2 f_equal.
    by rewrite <-(alter_insert_lookup _ _ _ _ Hp).
  - rewrite (fmap_alter_const _ _ _ _ true) by done. by apply handles_close.
Qed.

Lemma finish_read_list l err live n :
  handles_ok (h_done <$> n_rds n) (l ++ live) ->
  nfor_each l (fun h => finish_read h err) n = (with_rds (close_reads err l (n_rds n)) n, Ret tt) /\
  handles_ok (h_done <$> close_reads err l (n_rds n)) live.
Proof.
  revert n. induction l as [|h l IH]; intros n Hok; simpl; [by destruct n|].
  destruct (finish_read_eq h err (l ++ live) n Hok) as [Heq Hok'].
  erewrite nbind_eq by exact Heq. by apply (IH (with_rds _ n)).
Qed.

(** ** Settled handles stay as they are *)

Definition settled {A} (isdone : A -> bool) (l0 l : list A) : Prop :=
  forall h x, l0 !! h = Some x -> isdone x = true -> l !! h = Some x.

Lemma settled_alter {A} (isdone : A -> bool) g h (l0 l : list A) :
  settled isdone l0 l -> (isdone <$> l) !! h = Some false -> settled isdone l0 (alter g h l).
Proof.
  intros Hs Hh h' x Hx Hd. specialize (Hs h' x Hx Hd). rewrite list_lookup_alter_ne; [done|].
  intros ->. rewrite list_lookup_fmap, Hs in Hh. simpl in Hh. congruence.
Qed.

Lemma settled_app {A} (isdone : A -> bool) (l0 l l' : list A) : settled isdone l0 l -> settled isdone l0 (l ++ l').
Proof. intros Hs h x Hx Hd. by apply lookup_app_l_Some, Hs. Qed.

Lemma settled_close_props result err l live ps0 ps :
  handles_ok (p_done <$> ps) (l ++ live) -> settled p_done ps0 ps ->
  settled p_done ps0 (close_props result err l ps).
Proof.
  revert ps. induction l as [|h l IH]; intros ps Hok Hs; [done|]. simpl.
  apply IH; [|by eapply settled_alter, handles_head].
  rewrite (fmap_alter_const _ _ _ _ true) by done. by apply handles_close.
Qed.

Lemma settled_close_reads err l live rs0 rs :
  handles_ok (h_done <$> rs) (l ++ live) -> settled h_done rs0 rs ->
  settled h_done rs0 (close_reads err l rs).
Proof.
  revert rs. induction l as [|h l IH]; intros ps Hok Hs; [done|]. simpl.
  apply IH; [|by eapply settled_alter, handles_head].
  rewrite (fmap_alter_const _ _ _ _ true) by done. by apply handles_close.
Qed.

Lemma close_prop_Index result err (h h' : nat) (ps : list Proposal) :
  p_Index <$> alter (close_prop result err) h ps !! h' = p_Index <$> ps !! h'.
Proof.
  destruct (decide (h' = h)) as [-> |Hne]; [|by rewrite list_lookup_alter_ne].
  rewrite list_lookup_alter_eq. by destruct (ps !! h).
Qed.

Lemma close_props_Index result err l (h : nat) ps :
  p_Index <$> close_props result err l ps !! h = p_Index <$> ps !! h.
Proof. revert ps. induction l as [|h' l IH]; intros ps; [done|]. simpl. by rewrite IH, close_prop_Index. Qed.

(** ** Failing everything *)

Lemma fail_pending err l n :
  map_to_list (n_pending n) ≡ₚ l -> handles_ok (p_done <$> n_props n) l.*2 ->
  nfor_each l (fun ih =>
    nmodify (fun n => with_pending (delete ih.1 (n_pending n)) n);; finish ih.2 [] (Some err)) n =
    (with_pending ∅ (with_props (close_props [] (Some err) l.*2 (n_props n)) n), Ret tt).
Proof.
  revert n. induction l as [|[i h] l IH]; intros n Hp Hok; simpl.
  - apply Permutation_nil_r, map_to_list_empty_iff in Hp. destruct n; simpl in *. by rewrite Hp.
  - assert (n_pending n !! i = Some h) as Hi.
    { apply elem_of_map_to_list. rewrite Hp. apply list_elem_of_here. }
    set (n1 := with_pending (delete i (n_pending n)) n).
    destruct (finish_eq h [] (Some err) l.*2 n1 Hok) as [Heq Hok'].
    erewrite nbind_eq by exact Heq.
    rewrite (IH (with_props _ n1)); [done| |done].
    simpl. eapply Permutation_cons_inv. by rewrite map_to_list_delete.
Qed.

Lemma close_reads_app err l1 l2 rs : close_reads err (l1 ++ l2) rs = close_reads err l2 (close_reads err l1 rs).
Proof. apply foldl_app. Qed.

Lemma fail_reads err l n live :
  map_to_list (n_reads n) ≡ₚ l -> handles_ok (h_done <$> n_rds n) (concat l.*2 ++ live) ->
  nfor_each l (fun ih =>
    nmodify (fun n => with_reads (delete ih.1 (n_reads n)) n);;
    nfor_each ih.2 (fun h => finish_read h (Some err))) n =
    (with_reads ∅ (with_rds (close_reads (Some err) (concat l.*2) (n_rds n)) n), Ret tt) /\
  handles_ok (h_done <$> close_reads (Some err) (concat l.*2) (n_rds n)) live.
Proof.
  revert n. induction l as [|[i hs] l IH]; intros n Hp Hok; simpl.
  - apply Permutation_nil_r, map_to_list_empty_iff in Hp. destruct n; simpl in *. by rewrite Hp.
  - assert (n_reads n !! i = Some hs) as Hi.
    { apply elem_of_map_to_list. rewrite Hp. apply list_elem_of_here. }
    set (n1 := with_reads (delete i (n_reads n)) n). simpl in Hok. rewrite <-app_assoc in Hok.
    destruct (finish_read_list hs (Some err) (concat l.*2 ++ live) n1 Hok) as [Heq Hok'].
    erewrite nbind_eq by exact Heq.
    unfold concat. fold (concat l.*2). rewrite !close_reads_app.
    destruct (IH (with_rds (close_reads (Some err) hs (n_rds n1)) n1)) as [IH1 IH2]; [|done|by rewrite IH1].
    simpl. eapply Permutation_cons_inv. by rewrite map_to_list_delete.
Qed.

(** ** The invariant

    [n0] is the node at the start of the call, [hp] the proposals the call
    has in hand.  [b] tells whether proposals of a lost leadership have been
    failed already. *)
#[local] Abbreviation last_of n := (lastLocked (ls_view (r_store (n_r n)))).

Record inv n0 (b : bool) (hp : list nat) n : Prop := {
  i_props : handles_ok (p_done <$> n_props n) (hp ++ live_props n);
  i_reads : handles_ok (h_done <$> n_rds n) (live_reads n);
  i_index : forall i h, n_pending n !! i = Some h -> p_Index <$> n_props n !! h = Some i;
  i_ok : ls_ok (r_store (n_r n));
  i_ids : forall id, is_Some (n_reads n !! id) -> (id <= r_nextReadID (n_r n))%N;
  i_last : r_state (n_r n) = Leader -> forall i, is_Some (n_pending n !! i) -> (i <= last_of n)%N;
  i_role : b = true -> r_state (n_r n) = Leader \/ n_pending n = ∅;
  i_setP : settled p_done (n_props n0) (n_props n);
  i_setR : settled h_done (n_rds n0) (n_rds n);
  i_wake : n_wake n = n_wake n0;
  i_queue : n_queue n `suffix_of` n_queue n0;
}.

Lemma settled_refl {A} (isdone : A -> bool) l : settled isdone l l.
Proof. by intros h x. Qed.
Lemma settled_trans {A} (isdone : A -> bool) l1 l2 l3 :
  settled isdone l1 l2 -> settled isdone l2 l3 -> settled isdone l1 l3.
Proof. intros H1 H2 h x Hx Hd. by apply H2; [apply H1|]. Qed.

Lemma inv_rebase n0 b hp n : inv n0 b hp n -> inv n b hp n.
Proof. intros []. constructor; auto using settled_refl. Qed.

Lemma inv_trans n0 n1 b b' hp hp' n : inv n0 b hp n1 -> inv n1 b' hp' n -> inv n0 b' hp' n.
Proof.
  intros [] []. constructor; auto; try by eapply settled_trans.
  - congruence.
  - by etrans.
Qed.

Lemma failAll_inv err n0 b n :
  inv n0 b [] n ->
  exists n', failAll err n = (n', Ret tt) /\ inv n0 true [] n' /\ n_r n' = n_r n /\ n_applied n' = n_applied n /\
    n_sm n' = n_sm n /\ n_queue n' = [] /\ n_pending n' = ∅.
Proof.
  intros Hi. pose proof (i_props _ _ _ _ Hi) as Hp. pose proof (i_reads _ _ _ _ Hi) as Hr. simpl in Hp.
  unfold live_props in Hp. unfold live_reads in Hr.
  unfold failAll. erewrite nbind_eq by reflexivity.
  destruct (finish_list _ [] (Some err) _ n Hp) as [Heq1 Hok1]. erewrite nbind_eq by exact Heq1.
  erewrite nbind_eq by reflexivity. erewrite nbind_eq by reflexivity.
  match goal with |- context [nfor_each (map_to_list (n_pending ?x))] => set (n1 := x) end.
  erewrite nbind_eq by (apply (fail_pending err _ n1); [done|exact Hok1]).
  erewrite nbind_eq by reflexivity.
  match goal with |- context [nfor_each (n_readQueue ?x)] => set (n2 := x) end.
  destruct (finish_read_list (n_readQueue n2) (Some err) _ n2 Hr) as [Heq2 Hok2].
  erewrite nbind_eq by exact Heq2. erewrite nbind_eq by reflexivity. erewrite nbind_eq by reflexivity.
  match goal with |- context [nfor_each (map_to_list (n_reads ?x))] => set (n3 := x) end.
  destruct (fail_reads err (map_to_list (n_reads n3)) n3 (n_waiting n)) as [Heq3 Hok3]; [done|exact Hok2|].
  rewrite Heq3. eexists. split; [done|]. split; [|done]. destruct Hi.
  constructor; simpl; try done; try by right.
  - rewrite <-(app_nil_r (map_to_list (n_pending n)).*2) in Hok1.
    by destruct (finish_list _ [] (Some err) _ n1 Hok1) as [_ ?].
  - intros ? Hs. rewrite lookup_empty in Hs. by destruct Hs.
  - intros ? ? Hs. rewrite lookup_empty in Hs. by destruct Hs.
  - rewrite <-(app_nil_r (map_to_list (n_pending n)).*2) in Hok1.
    eapply settled_close_props, settled_close_props; eauto.
  - eapply settled_close_reads, settled_close_reads; eauto.
  - apply suffix_nil.
Qed.

(** ** A logic of partial correctness *)

Definition nwp {A} (m : @NM S X A) (Q : A -> node -> Prop) n : Prop :=
  match m n with (n', Ret a) => Q a n' | _ => True end.

Lemma nwp_ret {A} (x : A) (Q : A -> node -> Prop) n : Q x n -> nwp (mret x) Q n.
Proof. done. Qed.
Lemma nwp_bind {A B} (m : @NM S X A) (f : A -> @NM S X B) Q n :
  nwp m (fun x => nwp (f x) Q) n -> nwp (m ≫= f) Q n.
Proof. unfold nwp, mbind, NM_bind. by destruct (m n) as [n1 [x|e|]]. Qed.
Lemma nwp_mono {A} (m : @NM S X A) (Q Q' : A -> node -> Prop) n :
  nwp m Q n -> (forall x n', Q x n' -> Q' x n') -> nwp m Q' n.
Proof. unfold nwp. destruct (m n) as [n1 [x|e|]]; auto. Qed.
Lemma nwp_get {A} (f : node -> A) (Q : A -> node -> Prop) n : Q (f n) n -> nwp (nget f) Q n.
Proof. done. Qed.
Lemma nwp_modify f (Q : unit -> node -> Prop) n : Q tt (f n) -> nwp (nmodify f) Q n.
Proof. done. Qed.
Lemma nwp_panic {A} Q n : nwp (@npanic S X A) Q n.
Proof. done. Qed.
Lemma nwp_must {A} (x : go A) (Q : A -> node -> Prop) n : (forall a, x = Ret a -> Q a n) -> nwp (nmust x) Q n.
Proof. unfold nwp, nmust. destruct x; auto. Qed.
Lemma nwp_eq {A} (m : @NM S X A) (Q : A -> node -> Prop) n n' a : m n = (n', Ret a) -> Q a n' -> nwp m Q n.
Proof. unfold nwp. by intros ->. Qed.
Lemma nwp_for_each {A} (l : list A) (f : A -> @NM S X unit) (I : node -> Prop) n :
  I n -> (forall x n, I n -> nwp (f x) (fun _ => I) n) -> nwp (nfor_each l f) (fun _ => I) n.
Proof.
  intros HI Hf. revert n HI. induction l as [|x l IH]; intros n HI; simpl; [done|].
  apply nwp_bind. eapply nwp_mono; [by apply Hf|]. intros ? n'. apply IH.
Qed.
Lemma nwp_raft_do {A} (m : @M S A) (Q : A -> node -> Prop) (Q' : A -> Raft S -> Prop) n :
  rwp m Q' (fun _ => True) (n_r n) -> (forall x r, Q' x r -> Q x (with_r r n)) -> nwp (raft_do m) Q n.
Proof. unfold rwp, nwp, raft_do. destruct (m (n_r n)) as [r [x|e|]]; simpl; auto. Qed.
Lemma nwp_raft_call {A} (m : @M S A) (Q : (A + error) -> node -> Prop) (Q' : A -> Raft S -> Prop) (E : Raft S -> Prop) n :
  rwp m Q' E (n_r n) -> (forall x r, Q' x r -> Q (inl x) (with_r r n)) ->
  (forall e r, E r -> Q (inr e) (with_r r n)) -> nwp (raft_call m) Q n.
Proof. unfold rwp, nwp, raft_call. destruct (m (n_r n)) as [r [x|e|]]; simpl; auto. Qed.

(** ** Moving handles *)

Lemma inv_J n0 b hp n : inv n0 b hp n ->
  J (r_nextReadID (n_r n)) (stays (r_state (n_r n)) (last_of n)) (n_r n).
Proof. intros []. split_and!; [done|lia|split; [done|lia]]. Qed.

(** A call of the [Raft] that keeps its role. *)
Lemma inv_raft n0 b hp n k r :
  inv n0 b hp n -> (r_nextReadID (n_r n) <= k)%N -> J k (stays (r_state (n_r n)) (last_of n)) r ->
  inv n0 b hp (with_r r n).
Proof.
  intros [] Hk (Hok & Hids & Hst & Hl). constructor; simpl; try done.
  - intros id Hid. specialize (i_ids0 id Hid). lia.
  - rewrite Hst. intros Hld i Hi. specialize (i_last0 Hld i Hi). lia.
  - by rewrite Hst.
Qed.

Lemma inv_sm n0 b hp n x : inv n0 b hp n -> inv n0 b hp (with_sm x n).
Proof. by intros []. Qed.
Lemma inv_applied n0 b hp n x : inv n0 b hp n -> inv n0 b hp (with_applied x n).
Proof. by intros []. Qed.

Lemma inv_take_pending n0 b hp n i h :
  inv n0 b hp n -> n_pending n !! i = Some h ->
  inv n0 b (h :: hp) (with_pending (delete i (n_pending n)) n).
Proof.
  intros [] Hi. constructor; simpl; try done.
  - unfold live_props in *. simpl. rewrite <-(map_to_list_delete _ _ _ Hi) in i_props0. simpl in i_props0.
    eapply handles_ok_proper; [|exact i_props0]. by rewrite <-!Permutation_middle.
  - intros i' h' Hi'. apply lookup_delete_Some in Hi' as [_ Hi']. eauto.
  - intros Hl i' [h' Hi']. apply lookup_delete_Some in Hi' as [_ Hi']. eauto.
  - intros Hb. destruct (i_role0 Hb) as [?|He]; [by left|]. by rewrite He, lookup_empty in Hi.
Qed.

Lemma inv_take_queue n0 b hp n q1 q2 :
  inv n0 b hp n -> n_queue n = q1 ++ q2 -> inv n0 b (q1 ++ hp) (with_queue q2 n).
Proof.
  intros [] Hq. constructor; simpl; try done.
  - unfold live_props in *. simpl. rewrite Hq in i_props0.
    eapply handles_ok_proper; [|exact i_props0]. rewrite <-!app_assoc. rewrite (Permutation_app_swap_app q1 hp). done.
  - rewrite Hq in i_queue0. eapply suffix_app_l. done.
Qed.

Lemma inv_close n0 b hp n h result err :
  inv n0 b (h :: hp) n ->
  exists n', finish h result err n = (n', Ret tt) /\ inv n0 b hp n' /\ n_sm n' = n_sm n /\
    n_applied n' = n_applied n /\ n_r n' = n_r n /\ n_pending n' = n_pending n /\ n_queue n' = n_queue n /\
    n_props n' = alter (close_prop result err) h (n_props n).
Proof.
  intros Hi. pose proof (i_props _ _ _ _ Hi) as Hp.
  destruct (finish_eq h result err (hp ++ live_props n) n Hp) as [-> Hok]. eexists. split; [done|].
  split; [|done]. destruct Hi. constructor; simpl; try done.
  - intros i h' Hh'. rewrite close_prop_Index. by apply i_index0.
  - by eapply settled_alter, handles_head.
Qed.

Lemma inv_close_list n0 b hp n l result err :
  inv n0 b (l ++ hp) n -> nwp (nfor_each l (fun h => finish h result err)) (fun _ n' => inv n0 b hp n' /\ n_queue n' = n_queue n) n.
Proof.
  revert n. induction l as [|h l IH]; intros n Hi; simpl; [done|].
  apply nwp_bind. destruct (inv_close n0 b (l ++ hp) n h result err Hi) as (n' & Heq & Hi' & _ & _ & _ & _ & Hq & _).
  eapply nwp_eq; [exact Heq|]. eapply nwp_mono; [by apply IH|]. rewrite Hq. done.
Qed.

Lemma inv_assign n0 b hp n h index :
  inv n0 b (h :: hp) n -> n_pending n !! index = None -> r_state (n_r n) = Leader -> (index <= last_of n)%N ->
  nwp (assign_pending h index)
    (fun _ n' => inv n0 b hp n' /\ n_r n' = n_r n /\ n_pending n' = <[index := h]> (n_pending n) /\ n_queue n' = n_queue n) n.
Proof.
  intros Hi Hnone Hlead Hidx. unfold assign_pending. apply nwp_bind, nwp_get, nwp_bind, nwp_get.
  destruct (n_props n !! h) as [p|] eqn:Hp; [|done]. apply nwp_bind, nwp_modify, nwp_modify. split; [|done].
  destruct Hi. pose proof (handles_head _ _ _ i_props0) as Hopen.
  assert (p_done p = false) as Hd by (rewrite list_lookup_fmap, Hp in Hopen; by injection Hopen).
  assert (h < length (n_props n)) as Hlt by (by eapply lookup_lt_Some).
  constructor; simpl; try done.
  - rewrite list_fmap_insert. simpl. rewrite list_insert_id by (by rewrite list_lookup_fmap, Hp).
    unfold live_props in *. simpl. rewrite map_to_list_insert by done. simpl.
    eapply handles_ok_proper; [|exact i_props0]. by rewrite <-!Permutation_middle.
  - intros i' h' Hi'. apply lookup_insert_Some in Hi' as [[<- <-]|[Hne Hi']].
    + by rewrite list_lookup_insert_eq.
    + rewrite list_lookup_insert_ne; [eauto|]. intros <-. destruct i_props0 as [Hnd _].
      apply NoDup_cons in Hnd as [Hni _]. apply Hni, elem_of_app. right. apply elem_of_app. right.
      apply list_elem_of_fmap. exists (i', h). split; [done|]. by apply elem_of_map_to_list.
  - intros _ i' [h' Hi']. apply lookup_insert_Some in Hi' as [[<- _]|[_ Hi']]; eauto.
  - by left.
  - rewrite (alter_insert_lookup (fun p => mkProposal (p_data p) (r_term (n_r n)) index (p_Result p) (p_Err p) (p_done p)) h _ p Hp).
    by apply settled_alter.
Qed.

Lemma inv_assign_all n0 b n l index :
  inv n0 b l n -> (forall i, is_Some (n_pending n !! i) -> i < index)%N -> r_state (n_r n) = Leader ->
  (index + N.of_nat (length l) <= last_of n + 1)%N ->
  nwp (assign_all l index) (fun _ n' => inv n0 b [] n' /\ n_queue n' = n_queue n) n.
Proof.
  revert n index. induction l as [|h l IH]; intros n index Hi Hkeys Hl Hlast; simpl; [done|].
  simpl in Hlast. apply nwp_bind. eapply nwp_mono; [apply inv_assign; [exact Hi| |done|lia]|].
  - destruct (n_pending n !! index) eqn:Hp; [|done]. specialize (Hkeys index (ltac:(eauto))). lia.
  - intros ? n' (Hi' & Hr' & Hp' & Hq'). rewrite <-Hq'. apply IH; rewrite ?Hr'; [done| |done|lia].
    intros i [h' Hi2]. rewrite Hp' in Hi2. apply lookup_insert_Some in Hi2 as [[<- _]|[_ Hi2]]; [lia|].
    specialize (Hkeys i (ltac:(eauto))). lia.
Qed.

(** ** Every operation keeps the invariant *)

Lemma apply_entry_inv e n0 b n : inv n0 b [] n -> nwp (apply_entry e) (fun _ => inv n0 b []) n.
Proof.
  intros Hi. unfold apply_entry. apply nwp_bind.
  apply (nwp_mono _ (fun _ => inv n0 b [])).
  { destruct (decide _); [|done]. apply nwp_bind, nwp_get, nwp_bind, nwp_must. intros [x res] _.
    apply nwp_bind, nwp_modify, nwp_ret. by apply inv_sm. }
  intros res n1 Hi1. apply nwp_bind, nwp_modify, nwp_bind, nwp_get.
  apply (inv_applied _ _ _ _ (e_Index e)) in Hi1. set (n2 := with_applied _ _) in *.
  destruct (n_pending n2 !! e_Index e) as [h|] eqn:Hp; [|done].
  apply nwp_bind, nwp_modify, nwp_bind, nwp_get. pose proof (inv_take_pending _ _ _ _ _ _ Hi1 Hp) as Hi2.
  destruct (_ =? _)%N;
    (match goal with |- nwp (finish ?h ?r ?e) _ _ => destruct (inv_close _ _ _ _ h r e Hi2) as (n3 & Heq & Hi3 & _) end);
    by eapply nwp_eq.
Qed.

Lemma apply_loop_inv fuel n0 b n : inv n0 b [] n -> nwp (apply_loop fuel) (fun _ => inv n0 b []) n.
Proof.
  revert n. induction fuel as [|fuel IH]; intros n Hi; cbn [apply_loop]; apply nwp_bind, nwp_get;
    (destruct (_ <=? _)%N; [done|]); [done|].
  apply nwp_bind, nwp_must. intros es _. apply nwp_bind.
  eapply nwp_mono; [apply nwp_for_each; [exact Hi|]; intros; by apply apply_entry_inv|].
  intros ? n1. apply IH.
Qed.

Lemma take_restored_inv n0 b n : inv n0 b [] n -> nwp take_restored (fun _ => inv n0 b []) n.
Proof.
  intros Hi. unfold take_restored. apply nwp_bind.
  eapply nwp_raft_do; [exact (TakeRestored_call _ _ _ _ (inv_J _ _ _ _ Hi))|]. intros x r Hr.
  assert (inv n0 b [] (with_r r n)) as Hi1 by (by eapply inv_raft).
  apply nwp_bind, nwp_get. destruct x as [[idx data]|]; [|done]. destruct (_ <? _)%N; [|done].
  apply nwp_bind, nwp_get, nwp_bind, nwp_must. intros x _. apply nwp_bind, nwp_modify, nwp_modify.
  by apply inv_applied, inv_sm.
Qed.

Lemma startReads_inv n0 b n : inv n0 b [] n -> nwp startReads (fun _ => inv n0 b []) n.
Proof.
  intros Hi. unfold startReads. apply nwp_bind, nwp_get. destruct (n_readQueue n) as [|h l] eqn:Hq; [done|].
  rewrite <-Hq. apply nwp_bind. eapply nwp_raft_call; [exact (ReadIndex_call _ _ _ (inv_J _ _ _ _ Hi))|..].
  - intros id r [Hid HJ]. apply nwp_bind, nwp_modify, nwp_modify.
    assert (n_reads n !! id = None) as Hfresh.
    { destruct (n_reads n !! id) eqn:E; [|done]. apply (mk_is_Some _ _), (i_ids _ _ _ _ Hi) in E. lia. }
    destruct (inv_raft _ _ _ _ _ r Hi (N.lt_le_incl _ _ Hid) HJ). destruct HJ as (_ & Hle & _).
    constructor; simpl; try done.
    + unfold live_reads in *. simpl in *. rewrite map_to_list_insert by done. simpl.
      by rewrite <-app_assoc.
    + intros id' [l' Hl']. apply lookup_insert_Some in Hl' as [[<- _]|[_ Hl']]; [done|eauto].
  - intros err r HJ. assert (inv n0 b [] (with_r r n)) as Hi1 by (by eapply inv_raft).
    destruct (decide _) as [_|_]; [done|]. apply nwp_bind, nwp_modify. set (n1 := with_r r n) in *.
    assert (n_readQueue n = n_readQueue n1) as -> by done.
    destruct (finish_read_list (n_readQueue n1) (Some err)
      (concat (map_to_list (n_reads n1)).*2 ++ n_waiting n1) (with_readQueue [] n1)) as [Heq Hok]; [apply Hi1|].
    eapply nwp_eq; [exact Heq|]. pose proof (i_reads _ _ _ _ Hi1) as Hr. destruct Hi1.
    constructor; simpl; try done. by eapply settled_close_reads.
Qed.

Definition index_read (i : N) (rs : list Read) (h : nat) : list Read :=
  alter (fun rd => mkRead i (h_Err rd) (h_done rd)) h rs.

Lemma set_read_index_list i l n :
  nfor_each l (set_read_index i) n =
    (with_waiting (n_waiting n ++ l)
      (with_rds (foldl (index_read i) (n_rds n) l) n), Ret tt).
Proof.
  revert n. induction l as [|h l IH]; intros n; simpl.
  - rewrite app_nil_r. by destruct n.
  - erewrite nbind_eq by reflexivity. rewrite IH. simpl. by rewrite <-app_assoc.
Qed.

Lemma index_reads_done i l (rs : list Read) :
  h_done <$> foldl (index_read i) rs l = h_done <$> rs.
Proof.
  revert rs. induction l as [|h l IH]; intros rs; simpl; [done|]. rewrite IH. unfold index_read.
  apply list_eq. intros j. rewrite !list_lookup_fmap. destruct (decide (j = h)) as [-> |Hne].
  - rewrite list_lookup_alter_eq. by destruct (rs !! h).
  - by rewrite list_lookup_alter_ne.
Qed.

Lemma index_reads_settled i l (rs0 rs : list Read) :
  settled h_done rs0 rs -> (forall h, h ∈ l -> (h_done <$> rs) !! h = Some false) ->
  settled h_done rs0 (foldl (index_read i) rs l).
Proof.
  revert rs. induction l as [|h l IH]; intros rs Hs Hl; simpl; [done|]. apply IH.
  - apply settled_alter; [done|]. apply Hl, list_elem_of_here.
  - intros h' Hh'. pose proof (index_reads_done i [h] rs) as Hd. simpl in Hd. rewrite Hd.
    apply Hl. by apply list_elem_of_further.
Qed.

Lemma take_ready_inv n0 b n : inv n0 b [] n -> nwp take_ready (fun _ => inv n0 b []) n.
Proof.
  intros Hi. unfold take_ready. apply nwp_bind.
  eapply nwp_raft_do; [exact (TakeReady_call _ _ _ _ (inv_J _ _ _ _ Hi))|]. intros ready r Hr.
  apply nwp_for_each; [by eapply inv_raft|]. clear. intros rr n Hi.
  apply nwp_bind, nwp_get, nwp_bind. eapply nwp_eq; [apply set_read_index_list|]. apply nwp_modify.
  destruct (n_reads n !! rr_ID rr) as [l|] eqn:Hl; simpl.
  - pose proof (i_reads _ _ _ _ Hi) as Hr. unfold live_reads in Hr.
    rewrite <-(map_to_list_delete _ _ _ Hl) in Hr. simpl in Hr.
    destruct Hi. constructor; simpl; try done.
    + rewrite index_reads_done. unfold live_reads. simpl. eapply handles_ok_proper; [|exact Hr].
      rewrite <-app_assoc. apply Permutation_app_head. rewrite app_assoc. apply Permutation_app_comm.
    + intros id [l' Hl']. apply lookup_delete_Some in Hl' as [_ Hl']. eauto.
    + apply index_reads_settled; [done|]. intros h Hh. destruct Hr as [_ Hr]. apply Hr.
      rewrite !elem_of_app. auto.
  - rewrite app_nil_r, delete_id by done. by destruct Hi.
Qed.

Lemma settle_reads_eq l live n :
  handles_ok (h_done <$> n_rds n) (l ++ live) ->
  exists kept rs', settle_reads l n = (with_rds rs' n, Ret kept) /\
    handles_ok (h_done <$> rs') (kept ++ live) /\
    (forall rs0, settled h_done rs0 (n_rds n) -> settled h_done rs0 rs').
Proof.
  revert live n. induction l as [|h l IH]; intros live n Hok; simpl.
  - exists [], (n_rds n). split_and!; [by destruct n|done..].
  - erewrite nbind_eq by reflexivity. simpl. destruct (_ <=? _)%N.
    + destruct (finish_read_eq h None (l ++ live) n Hok) as [Heq Hok']. erewrite nbind_eq by exact Heq.
      destruct (IH live (with_rds (alter (close_read None) h (n_rds n)) n) Hok') as (kept & rs' & Heq' & Hk & Hs). exists kept, rs'. split_and!; [done..|].
      intros rs0 Hs0. apply Hs. by eapply settled_alter, handles_head.
    + simpl in Hok. rewrite Permutation_middle in Hok. destruct (IH (h :: live) n Hok) as (kept & rs' & Heq' & Hk & Hs).
      erewrite nbind_eq by exact Heq'. exists (h :: kept), rs'. split_and!; [done| |done].
      simpl. by rewrite Permutation_middle.
Qed.

Lemma settle_waiting_inv n0 b n : inv n0 b [] n -> nwp settle_waiting (fun _ => inv n0 b []) n.
Proof.
  intros Hi. unfold settle_waiting. apply nwp_bind, nwp_get, nwp_bind.
  pose proof (i_reads _ _ _ _ Hi) as Hr. unfold live_reads in Hr. rewrite app_assoc, Permutation_app_comm in Hr.
  destruct (settle_reads_eq _ _ n Hr) as (kept & rs' & Heq & Hk & Hs). eapply nwp_eq; [exact Heq|].
  apply nwp_modify. destruct Hi. constructor; simpl; try done; [|by apply Hs].
  unfold live_reads. simpl. rewrite app_assoc, Permutation_app_comm. done.
Qed.

Lemma maybeSnapshot_inv n0 b n : inv n0 b [] n -> nwp maybeSnapshot (fun _ => inv n0 b []) n.
Proof.
  intros Hi. unfold maybeSnapshot. apply nwp_bind, nwp_get. destruct (_ || _); [done|].
  apply nwp_bind, nwp_must. intros [x d] _. apply nwp_bind, nwp_modify.
  apply (inv_sm _ _ _ _ x) in Hi. eapply nwp_raft_do; [refine (Compact_call _ _ _ _ _ _ _ (inv_J _ _ _ _ Hi)); apply stays_mono|].
  intros ? r Hr. by eapply inv_raft.
Qed.

Lemma advance_inv n0 b n : inv n0 b [] n -> nwp advance (fun _ => inv n0 true []) n.
Proof.
  intros Hi. unfold advance. apply nwp_bind, nwp_get, nwp_bind. apply (nwp_mono _ (fun _ => inv n0 true [])).
  { destruct (decide _) as [Hl|Hl].
    - apply nwp_ret. destruct Hi. constructor; auto.
    - destruct (failAll_inv ErrNotLeader n0 b n Hi) as (n' & Heq & Hi' & _). by eapply nwp_eq. }
  intros ? n1 H1. apply nwp_bind. eapply nwp_mono; [exact (take_restored_inv _ _ _ H1)|]. intros ? n2 H2.
  apply nwp_bind, nwp_get, nwp_bind. eapply nwp_mono; [exact (apply_loop_inv _ _ _ _ H2)|]. intros ? n3 H3.
  apply nwp_bind. eapply nwp_mono; [exact (startReads_inv _ _ _ H3)|]. intros ? n4 H4.
  apply nwp_bind. eapply nwp_mono; [exact (take_ready_inv _ _ _ H4)|]. intros ? n5 H5.
  apply nwp_bind. eapply nwp_mono; [exact (settle_waiting_inv _ _ _ H5)|]. intros ? n6 H6.
  exact (maybeSnapshot_inv _ _ _ H6).
Qed.

(** ** Flushing *)

Lemma flushBatch_inv n0 n : inv n0 true [] n -> nwp flushBatch (fun _ => inv n0 true []) n.
Proof.
  intros Hi. unfold flushBatch. apply nwp_bind, nwp_get, nwp_bind, nwp_get.
  match goal with |- context [if ?c then take ?x ?y else ?z] => set (queue := if c then take x y else z) end.
  assert (n_queue n = queue ++ drop (length queue) (n_queue n)) as Hq.
  { subst queue. destruct (_ && _).
    - rewrite <-(take_drop (Z.to_nat (n_maxBatch n)) (n_queue n)) at 1. f_equal.
      rewrite length_take. destruct (Nat.min_spec (Z.to_nat (n_maxBatch n)) (length (n_queue n))) as [[? ->]|[? ->]]; [done|].
      rewrite !drop_ge by lia. done.
    - by rewrite drop_all, app_nil_r. }
  apply nwp_bind, nwp_modify, nwp_bind, nwp_get.
  pose proof (inv_take_queue _ _ _ _ _ _ Hi Hq) as Hi1. set (n1 := with_queue _ n) in *.
  destruct (decide _) as [Hl|_]; [|eapply nwp_mono; [by apply inv_close_list|]; by intros ? ? []].
  apply nwp_bind, nwp_get, nwp_bind. rewrite app_nil_r in Hi1.
  eapply (nwp_raft_call _ _ _ (fun _ => False)).
  - apply (Propose_call (r_nextReadID (n_r n1)) (fun _ => False)); [|done].
    destruct (inv_J _ _ _ _ Hi1) as (?&?&_). done.
  - intros first r [-> HJ]. rewrite length_fmap in HJ. destruct HJ as (Hok & Hids & Hst & Hlast).
    eapply nwp_mono; [apply inv_assign_all|by intros ? ? []].
    + eapply inv_raft; [exact Hi1|reflexivity|]. split_and!; [done..|]. split; [by rewrite Hst|]. lia.
    + intros i Hp. pose proof (i_last _ _ _ _ Hi1 Hl i Hp). simpl in *. lia.
    + done.
    + simpl in *. lia.
  - done.
Qed.

Lemma flush_loop_inv fuel n0 n :
  inv n0 true [] n -> nwp (flush_loop fuel) (fun _ n' => inv n0 true [] n' /\ n_queue n' = []) n.
Proof.
  revert n. induction fuel as [|fuel IH]; intros n Hi; cbn [flush_loop]; apply nwp_bind, nwp_get;
    destruct (n_queue n) eqn:Hq; try done.
  apply nwp_bind. eapply nwp_mono; [exact (flushBatch_inv _ _ Hi)|]. intros ? n2. apply IH.
Qed.

(** ** The entry points *)

Definition node_ok n : Prop := inv n true [] n.

Lemma inv_call n r :
  node_ok n -> J (r_nextReadID (n_r n)) unknown r -> kept (n_r n) r -> inv n false [] (with_r r n).
Proof.
  intros Hi (Hok & Hids & _) Hkept. destruct Hi. constructor; simpl; try done.
  - intros id Hid. specialize (i_ids0 id Hid). lia.
  - intros Hl i Hp. destruct (i_role0 eq_refl) as [Hl0|He].
    + specialize (i_last0 Hl0 i Hp). specialize (Hkept Hl0 Hl). lia.
    + rewrite He, lookup_empty in Hp. by destruct Hp.
Qed.

Lemma node_J n : node_ok n -> J (r_nextReadID (n_r n)) unknown (n_r n).
Proof. intros Hi. by destruct (inv_J _ _ _ _ Hi) as (?&?&_). Qed.

Lemma Step_inv m n : node_ok n -> nwp (Node_Step m) (fun _ => inv n true []) n.
Proof.
  intros Hi. unfold Node_Step. apply nwp_bind.
  eapply nwp_raft_do; [apply Step_call, node_J, Hi|]. intros ? r [HJ Hk]. by eapply advance_inv, inv_call.
Qed.

Lemma Tick_inv n : node_ok n -> nwp Node_Tick (fun _ => inv n true []) n.
Proof.
  intros Hi. unfold Node_Tick. apply nwp_bind.
  eapply nwp_raft_do; [apply Tick_call, node_J, Hi|]. intros ? r [HJ Hk]. by eapply advance_inv, inv_call.
Qed.

Lemma Flush_inv n : node_ok n -> nwp Flush (fun _ n' => inv n true [] n' /\ n_queue n' = []) n.
Proof.
  intros Hi. unfold Flush, flushProposals. apply nwp_bind, nwp_bind, nwp_get.
  eapply nwp_mono; [exact (flush_loop_inv _ _ _ Hi)|]. intros ? n1 [H1 Hq].
  eapply nwp_mono; [exact (advance_inv _ _ _ (inv_rebase _ _ _ _ H1))|]. intros ? n2 H2.
  split; [by eapply inv_trans|]. pose proof (i_queue _ _ _ _ H2) as Hs. rewrite Hq in Hs. by apply suffix_nil_inv in Hs.
Qed.

Lemma enqueue_ok data n n' h :
  node_ok n -> enqueue data n = (n', Ret h) ->
  node_ok n' /\ settled p_done (n_props n) (n_props n') /\ n_rds n' = n_rds n.
Proof.
  intros [] [= <- <-]. split_and!; [|by apply settled_app, settled_refl|done].
  constructor; simpl; auto using settled_refl.
  - rewrite fmap_app. apply handles_open in i_props0. rewrite length_fmap in i_props0.
    eapply handles_ok_proper; [|exact i_props0]. unfold live_props. simpl.
    rewrite <-!app_assoc. apply Permutation_app_head, Permutation_app_comm.
  - intros i h Hp. specialize (i_index0 i h Hp). apply fmap_Some in i_index0 as (p & Hp' & ->).
    by rewrite (lookup_app_l_Some _ _ _ _ Hp').
Qed.

Lemma enqueue_read_ok n n' h :
  node_ok n -> enqueue_read n = (n', Ret h) ->
  node_ok n' /\ n_props n' = n_props n /\ settled h_done (n_rds n) (n_rds n').
Proof.
  intros [] [= <- <-]. split_and!; [|done|by apply settled_app, settled_refl].
  constructor; simpl; auto using settled_refl.
  rewrite fmap_app. apply handles_open in i_reads0. rewrite length_fmap in i_reads0.
  eapply handles_ok_proper; [|exact i_reads0]. unfold live_reads. simpl.
  rewrite <-!app_assoc. apply Permutation_app_head.
  rewrite (app_assoc (concat _) _ [_]). apply Permutation_app_comm.
Qed.

Lemma wake_ok w n : node_ok n -> node_ok (with_wake w n).
Proof. by intros []. Qed.

Lemma NewNode_ok cfg s rng x gap mb n :
  ls_ok s -> NewNode cfg s rng x gap mb = Ret n -> node_ok n /\ n_queue n = [].
Proof.
  intros Hs. unfold NewNode. destruct (New cfg s rng) as [r|e|] eqn:Hnew; simpl; [|done..].
  assert (r_store r = s) as Hst.
  { unfold New in Hnew. destruct (_ =? _)%N; [done|]. destruct (_ || _); [done|].
    destruct (ls_State s) as [[t v]| |]; simpl in Hnew; [|done..]. injection Hnew as <-.
    unfold resetTimeout. simpl. by destruct rng. }
  destruct (ls_Snapshot s) as [[[i t] d]|e|]; simpl; [|done..].
  destruct (if (_ <? _)%N then _ else _) as [[x' ap]| |]; simpl; [|done..]. intros [= <-].
  split; [|done]. constructor; simpl; auto using settled_refl.
  - split; [constructor|]. intros h. split; [intros Hin|done]. by apply elem_of_nil in Hin.
  - split; [constructor|]. intros h. split; [intros Hin|done]. by apply elem_of_nil in Hin.
  - intros j h Hj. by rewrite lookup_empty in Hj.
  - match goal with |- context [if ?c then _ else _] => destruct c end; simpl; by rewrite Hst.
  - intros id [? Hid]. by rewrite lookup_empty in Hid.
  - intros _ id [? Hid]. by rewrite lookup_empty in Hid.
Qed.
End Handles.
