(* ===== verification/NodeTheorems.v ===== *)
(** * What a node promises its callers (raft/node.go)

    The goroutines around a node as a step relation: callers queue handles
    and then wake the driver, [Run] takes messages, ticks and wake-ups one at
    a time.  Theorems: handles are settled exactly once and never forgotten,
    no wake-up is lost, and the apply loop runs every committed entry once,
    in order, and settles each proposal by what was applied at its index. *)

From stdpp Require Import base list gmap relations.
From S2P Require Import Prelude LogStore Raft RaftCalls Node NodeHandles.

Section Driver.
Context {S : Type} `{LS : LogStore S} `{OK : !LogStoreOK S} {X : Type} `{MC : Machine X}.

#[local] Abbreviation node := (Node S X).

(** [d_due] callers have queued a handle and not yet woken the driver;
    [d_token] tells that [Run] has taken a wake-up and is about to flush. *)
Record driver := mkDriver {
  d_node : node;
  d_due : nat;
  d_token : bool;
  d_running : bool;
}.

Inductive dstep (d : driver) : driver -> Prop :=
  | D_propose data n h :
      enqueue data (d_node d) = (n, Ret h) ->
      dstep d (mkDriver n (Datatypes.S (d_due d)) (d_token d) (d_running d))
  | D_read n h :
      enqueue_read (d_node d) = (n, Ret h) ->
      dstep d (mkDriver n (Datatypes.S (d_due d)) (d_token d) (d_running d))
  | D_signal n k :
      d_due d = Datatypes.S k -> signal (d_node d) = (n, Ret tt) ->
      dstep d (mkDriver n k (d_token d) (d_running d))
  | D_take :
      d_running d = true -> d_token d = false -> n_wake (d_node d) = true ->
      dstep d (mkDriver (with_wake false (d_node d)) (d_due d) true true)
  | D_flush n :
      d_running d = true -> d_token d = true -> Flush (d_node d) = (n, Ret tt) ->
      dstep d (mkDriver n (d_due d) false true)
  | D_recv m n :
      d_running d = true -> d_token d = false -> Node_Step m (d_node d) = (n, Ret tt) ->
      dstep d (mkDriver n (d_due d) false true)
  | D_tick n :
      d_running d = true -> d_token d = false -> Node_Tick (d_node d) = (n, Ret tt) ->
      dstep d (mkDriver n (d_due d) false true)
  | D_stop n :
      d_running d = true -> d_token d = false -> Stop (d_node d) = (n, Ret tt) ->
      dstep d (mkDriver n (d_due d) false false).

(** A driver starts with a node that [NewNode] built over a store. *)
Definition d_start (d : driver) : Prop :=
  exists cfg s rng x gap maxBatch n, ls_ok s /\ NewNode cfg s rng x gap maxBatch = Ret n /\
    d = mkDriver n 0 false true.

Definition dreach (d : driver) : Prop := exists d0, d_start d0 /\ rtc dstep d0 d.

(** ** One step *)

Definition awake (d : driver) : Prop :=
  n_queue (d_node d) <> [] -> 0 < d_due d \/ n_wake (d_node d) = true \/ d_token d = true.

Definition still_settled (n n' : node) : Prop :=
  settled p_done (n_props n) (n_props n') /\ settled h_done (n_rds n) (n_rds n').

Lemma inv_call_step n n' :
  inv n true [] n' ->
  node_ok n' /\ still_settled n n' /\ n_wake n' = n_wake n /\ n_queue n' `suffix_of` n_queue n.
Proof. intros Hi. split; [by eapply inv_rebase|]. by destruct Hi. Qed.

Lemma suffix_nonempty (l l' : list nat) : l `suffix_of` l' -> l <> [] -> l' <> [].
Proof. intros Hs Hl ->. by apply Hl, suffix_nil_inv. Qed.

Lemma dstep_ok d d' :
  dstep d d' -> node_ok (d_node d) -> awake d ->
  node_ok (d_node d') /\ awake d' /\ still_settled (d_node d) (d_node d').
Proof.
  intros Hstep Hok Ha. unfold awake, still_settled in *.
  destruct Hstep as [data n h Heq|n h Heq|n k Hk Heq|_ Ht Hw|n _ Ht Heq|m n _ Ht Heq|n _ Ht Heq|n _ Ht Heq]; simpl.
  - destruct (enqueue_ok _ _ _ _ Hok Heq) as (? & ? & Hr). rewrite Hr.
    split_and!; auto using settled_refl. intros. left. lia.
  - destruct (enqueue_read_ok _ _ _ Hok Heq) as (? & Hp & ?). rewrite Hp.
    split_and!; auto using settled_refl. intros. left. lia.
  - injection Heq as <-. split_and!; auto using settled_refl, wake_ok.
  - split_and!; auto using settled_refl, wake_ok.
  - pose proof (Flush_inv _ Hok) as Hf. unfold nwp in Hf. rewrite Heq in Hf. destruct Hf as [Hi Hq].
    apply inv_call_step in Hi as (? & [] & _). rewrite Hq. by split_and!.
  - pose proof (Step_inv m _ Hok) as Hf. unfold nwp in Hf. rewrite Heq in Hf.
    apply inv_call_step in Hf as (? & [] & Hw & Hs). split_and!; auto. rewrite Hw.
    intros Hne. destruct (Ha (suffix_nonempty _ _ Hs Hne)) as [|[|]]; auto. congruence.
  - pose proof (Tick_inv _ Hok) as Hf. unfold nwp in Hf. rewrite Heq in Hf.
    apply inv_call_step in Hf as (? & [] & Hw & Hs). split_and!; auto. rewrite Hw.
    intros Hne. destruct (Ha (suffix_nonempty _ _ Hs Hne)) as [|[|]]; auto. congruence.
  - destruct (failAll_inv ErrNotLeader _ _ _ Hok) as (n' & Heq' & Hi & _ & _ & _ & Hq & _).
    unfold Stop in Heq. rewrite Heq' in Heq. injection Heq as <-.
    apply inv_call_step in Hi as (? & [] & _). rewrite Hq. by split_and!.
Qed.

Lemma dsteps_ok d d' :
  rtc dstep d d' -> node_ok (d_node d) -> awake d ->
  node_ok (d_node d') /\ awake d' /\ still_settled (d_node d) (d_node d').
Proof.
  induction 1 as [d|d d1 d' Hs _ IH]; intros Hok Ha.
  - split_and!; [done..|split; apply settled_refl].
  - destruct (dstep_ok _ _ Hs Hok Ha) as (Hok1 & Ha1 & HP & HR).
    destruct (IH Hok1 Ha1) as (? & ? & HP' & HR'). split_and!; [done..|].
    split; by eapply settled_trans.
Qed.

Lemma d_start_ok d : d_start d -> node_ok (d_node d) /\ awake d.
Proof.
  intros (cfg & s & rng & x & gap & mb & n & Hs & Hn & ->).
  destruct (NewNode_ok _ _ _ _ _ _ _ Hs Hn) as [Hok Hq]. split; [done|]. by intros ?.
Qed.

Lemma dreach_ok d : dreach d -> node_ok (d_node d) /\ awake d.
Proof. intros (d0 & H0 & Hs). apply d_start_ok in H0 as [??]. by destruct (dsteps_ok _ _ Hs) as (?&?&_). Qed.

(** ** The claims *)

(** C22: In every state a driver reaches, the proposals that are not settled
    are exactly those in the queue or pending at an index of the log, each in
    one place only, and the same for reads; and a handle that is settled keeps
    its outcome whatever happens next.  So no caller is forgotten, and no
    handle is settled twice. *)
Theorem handles_settled_once d d' :
  dreach d -> rtc dstep d d' ->
  handles_ok (p_done <$> n_props (d_node d)) (live_props (d_node d)) /\
  handles_ok (h_done <$> n_rds (d_node d)) (live_reads (d_node d)) /\
  settled p_done (n_props (d_node d)) (n_props (d_node d')) /\
  settled h_done (n_rds (d_node d)) (n_rds (d_node d')).
Proof.
  intros Hr Hs. destruct (dreach_ok d Hr) as [Hok Ha].
  destruct (dsteps_ok _ _ Hs Hok Ha) as (_ & _ & HP & HR). by destruct Hok.
Qed.

(** C29: No wake-up is lost: while proposals are queued, a caller is about to
    signal, the wake channel holds a token, or [Run] has taken one and is about
    to flush. *)
Theorem no_lost_wakeup d :
  dreach d -> n_queue (d_node d) <> [] ->
  0 < d_due d \/ n_wake (d_node d) = true \/ d_token d = true.
Proof. intros Hr. apply (dreach_ok d Hr). Qed.
End Driver.

(** ** Applying the log *)

Section Apply.
Context {S : Type} `{LS : LogStore S} `{OK : !LogStoreOK S} {X : Type} `{MC : Machine X}.

#[local] Abbreviation node := (Node S X).

(** What the log does to a state machine, entry by entry; entries a leader
    adds for itself do nothing. *)
Definition run_entry (e : Entry) (x : X) : go (X * bytes) :=
  if decide (e_Type e = EntryNormal) then mc_Apply e x else Ret (x, []).

Fixpoint run_log (es : list Entry) (x : X) : go (X * list bytes) :=
  match es with
  | [] => Ret (x, [])
  | e :: es =>
      '(x, r) ← run_entry e x;
      '(x, rs) ← run_log es x;
      Ret (x, r :: rs)
  end.

(** How the entry at its index settles a proposal. *)
Definition settle_prop (e : Entry) (result : bytes) (p : Proposal) : Proposal :=
  if (p_term p =? e_Term e)%N then close_prop result None p
  else close_prop [] (Some ErrNotLeader) p.

(** The entries above [a] up to [c]. *)
Definition seg (a c : N) (s : MemStore) : list Entry :=
  take (N.to_nat (c - a)) (drop (N.to_nat (a - ms_snapIdx s)) (ms_entries s)).

Definition log_wf (s : MemStore) : Prop :=
  forall i e, ms_entries s !! i = Some e -> e_Index e = (ms_snapIdx s + 1 + N.of_nat i)%N.

Lemma seg_entries a c s :
  (ms_snapIdx s <= a <= c)%N -> (c <= lastLocked s)%N -> (a < c)%N ->
  mem_Entries (a + 1) (c + 1) s = Ret (seg a c s).
Proof.
  intros ???. unfold mem_Entries, seg.
  destruct (N.leb_spec (a + 1) (ms_snapIdx s)); [lia|].
  destruct (N.ltb_spec (lastLocked s + 1) (c + 1)); [lia|].
  destruct (N.ltb_spec (c + 1) (a + 1)); [lia|].
  unfold lastLocked in *. rewrite slice_ok by lia. do 2 f_equal; [lia|f_equal; lia].
Qed.

Lemma seg_app a b c s :
  (ms_snapIdx s <= a <= b)%N -> (b <= c)%N -> seg a c s = seg a b s ++ seg b c s.
Proof.
  intros ??. unfold seg.
  replace (N.to_nat (c - a)) with (N.to_nat (b - a) + N.to_nat (c - b)) by lia.
  replace (N.to_nat (b - ms_snapIdx s)) with (N.to_nat (a - ms_snapIdx s) + N.to_nat (b - a)) by lia.
  by rewrite <-drop_drop, take_take_drop.
Qed.

Lemma seg_length a c s :
  (ms_snapIdx s <= a <= c)%N -> (c <= lastLocked s)%N -> length (seg a c s) = N.to_nat (c - a).
Proof. intros. unfold seg, lastLocked in *. rewrite length_take, length_drop. lia. Qed.

Lemma seg_lookup a c s j e :
  log_wf s -> (ms_snapIdx s <= a)%N -> seg a c s !! j = Some e ->
  e_Index e = (a + 1 + N.of_nat j)%N /\ j < N.to_nat (c - a).
Proof.
  intros Hwf ? Hj. unfold seg in Hj. apply lookup_take_Some in Hj as [Hj ?].
  rewrite lookup_drop in Hj. apply Hwf in Hj. split; [lia|done].
Qed.

Lemma seg_nodup a c s : log_wf s -> (ms_snapIdx s <= a)%N -> NoDup (e_Index <$> seg a c s).
Proof.
  intros Hwf Ha. apply NoDup_alt. intros i j x Hi Hj. rewrite list_lookup_fmap in Hi, Hj.
  apply fmap_Some in Hi as (e1 & Hi & ->). apply fmap_Some in Hj as (e2 & Hj & Heq).
  apply seg_lookup in Hi as [? _]; [|done..]. apply seg_lookup in Hj as [? _]; [|done..]. lia.
Qed.

Lemma seg_index a c s i :
  log_wf s -> (ms_snapIdx s <= a <= c)%N -> (c <= lastLocked s)%N ->
  i ∈ e_Index <$> seg a c s <-> (a < i <= c)%N.
Proof.
  intros Hwf Ha Hc. rewrite list_elem_of_fmap. split.
  - intros (e & -> & He). apply list_elem_of_lookup in He as [j Hj].
    apply seg_lookup in Hj as [-> ?]; [lia|done|lia].
  - intros Hi. assert (N.to_nat (i - a - 1) < length (seg a c s)) as Hlt by (rewrite seg_length by lia; lia).
    apply lookup_lt_is_Some in Hlt as [e He]. exists e. split; [|by eapply list_elem_of_lookup_2].
    apply seg_lookup in He as [-> _]; [lia|done|lia].
Qed.

(** One entry. *)
Lemma apply_entry_eq e n0 b (n : node) x r :
  inv n0 b [] n -> run_entry e (n_sm n) = Ret (x, r) ->
  exists n', apply_entry e n = (n', Ret tt) /\ inv n0 b [] n' /\ n_sm n' = x /\ n_applied n' = e_Index e /\
    n_r n' = n_r n /\ n_pending n' = delete (e_Index e) (n_pending n) /\
    n_props n' = match n_pending n !! e_Index e with
                 | Some h => alter (settle_prop e r) h (n_props n)
                 | None => n_props n
                 end.
Proof.
  intros Hi Hrun. unfold apply_entry.
  assert (exists n1, (if decide (e_Type e = EntryNormal) then
              sm ← nget n_sm; '(sm, result) ← nmust (mc_Apply e sm); nmodify (with_sm sm);; mret result
            else mret []) n = (n1, Ret r) /\ n1 = with_sm x n) as (n1 & Heq & Hn1).
  { unfold run_entry in Hrun. destruct (decide _).
    - eexists. split; [|done]. erewrite nbind_eq by reflexivity.
      erewrite nbind_eq; [|unfold nmust; rewrite Hrun; done]. done.
    - injection Hrun as <- <-. eexists. split; [done|]. by destruct n. }
  erewrite nbind_eq by exact Heq. subst n1. erewrite nbind_eq by reflexivity. erewrite nbind_eq by reflexivity.
  set (n2 := with_applied _ _). assert (inv n0 b [] n2) as Hi2 by (by apply inv_applied, inv_sm).
  change (n_pending n2) with (n_pending n). destruct (n_pending n !! e_Index e) as [h|] eqn:Hp.
  - pose proof (inv_take_pending _ _ _ n2 _ _ Hi2 Hp) as Hi3.
    erewrite nbind_eq by reflexivity. erewrite nbind_eq by reflexivity.
    pose proof (i_index _ _ _ _ Hi _ _ Hp) as Hh. apply fmap_Some in Hh as (p & Hh & _).
    change (n_props (with_pending (delete (e_Index e) (n_pending n)) n2)) with (n_props n). rewrite Hh. simpl.
    rewrite <-(alter_insert_lookup (settle_prop e r) h _ p Hh). unfold settle_prop.
    destruct (p_term p =? e_Term e)%N;
      (match goal with |- context [finish ?h ?r ?er _] =>
         destruct (inv_close _ _ _ _ h r er Hi3) as (n3 & Heq3 & Hi4 & ? & ? & ? & ? & _ & Hps) end);
      exists n3; (split_and!; [exact Heq3|done..|]); rewrite Hps; symmetry; by apply alter_insert_lookup.
  - exists n2. split_and!; try done. simpl. by rewrite delete_id.
Qed.

(** A run of entries. *)
Lemma apply_entries_eq es n0 b (n : node) x rs :
  inv n0 b [] n -> run_log es (n_sm n) = Ret (x, rs) -> NoDup (e_Index <$> es) ->
  exists n', nfor_each es apply_entry n = (n', Ret tt) /\ inv n0 b [] n' /\ n_sm n' = x /\
    n_applied n' = default (n_applied n) (e_Index <$> last es) /\ n_r n' = n_r n /\
    (forall i, i ∈ e_Index <$> es -> n_pending n' !! i = None) /\
    (forall i, i ∉ e_Index <$> es -> n_pending n' !! i = n_pending n !! i /\
       forall h, n_pending n !! i = Some h -> n_props n' !! h = n_props n !! h) /\
    (forall j e r h p, es !! j = Some e -> rs !! j = Some r -> n_pending n !! e_Index e = Some h ->
       n_props n !! h = Some p -> n_props n' !! h = Some (settle_prop e r p)).
Proof.
  revert n0 n rs. induction es as [|e es IH]; intros n0 n rs Hi Hrun Hnd.
  { injection Hrun as <- <-. exists n. split_and!; try done. intros i Hin. by apply elem_of_nil in Hin. }
  simpl in Hrun. destruct (run_entry e (n_sm n)) as [[x1 r1]|?|] eqn:He; simpl in Hrun; [|done..].
  destruct (run_log es x1) as [[x2 rs2]|?|] eqn:Hes; simpl in Hrun; [|done..]. injection Hrun as <- <-.
  apply NoDup_cons in Hnd as [Hni Hnd].
  destruct (apply_entry_eq e n0 b n x1 r1 Hi He) as (n1 & Heq1 & Hi1 & Hx1 & Ha1 & Hr1 & Hp1 & Hps1).
  rewrite <-Hx1 in Hes. destruct (IH n1 n1 rs2 (inv_rebase _ _ _ _ Hi1) Hes Hnd) as (n2 & Heq2 & Hi2 & Hx2 & Ha2 & Hr2 & Hin2 & Hout2 & Hset2).
  assert (forall i h, n_pending n !! i = Some h -> i <> e_Index e -> n_props n1 !! h = n_props n !! h) as Hother.
  { intros i h Hih Hne. rewrite Hps1. destruct (n_pending n !! e_Index e) as [h1|] eqn:Hh1; [|done].
    apply list_lookup_alter_ne. intros ->. pose proof (i_index _ _ _ _ Hi _ _ Hih) as H1.
    pose proof (i_index _ _ _ _ Hi _ _ Hh1) as H2. congruence. }
  exists n2. split_and!; [|by eapply inv_trans|done| |congruence| | |].
  - simpl. by erewrite nbind_eq by exact Heq1.
  - rewrite Ha2, Ha1. rewrite last_cons. by destruct (last es).
  - intros i Hin. apply elem_of_cons in Hin as [-> |Hin]; [|by apply Hin2].
    destruct (Hout2 (e_Index e) Hni) as [-> _]. by rewrite Hp1, lookup_delete_eq.
  - intros i Hn. apply not_elem_of_cons in Hn as [Hne Hn]. destruct (Hout2 i Hn) as [-> Hh].
    rewrite Hp1, lookup_delete_ne in * by done. split; [done|]. intros h Hih.
    rewrite (Hh h Hih). by eapply Hother.
  - intros [|j] e' r h p Hj Hr Hpe Hp; simpl in Hj, Hr.
    + injection Hj as <-. injection Hr as <-. apply (i_setP _ _ _ _ Hi2).
      * rewrite Hps1, Hpe, list_lookup_alter_eq, Hp. done.
      * unfold settle_prop. by destruct (_ =? _)%N.
    + assert (e_Index e' <> e_Index e) as Hne.
      { intros Heq. apply Hni. rewrite <-Heq. apply list_elem_of_fmap. exists e'. split; [done|].
        by eapply list_elem_of_lookup_2. }
      eapply Hset2; [done..| |].
      * by rewrite Hp1, lookup_delete_ne.
      * rewrite (Hother _ _ Hpe Hne). done.
Qed.

Lemma run_log_app es1 es2 x x' rs :
  run_log (es1 ++ es2) x = Ret (x', rs) ->
  exists x1 rs1 rs2, run_log es1 x = Ret (x1, rs1) /\ run_log es2 x1 = Ret (x', rs2).
Proof.
  revert x rs. induction es1 as [|e es1 IH]; intros x rs Hrun; simpl in *; [eauto|].
  destruct (run_entry e x) as [[x1 r1]|?|]; simpl in *; [|done..].
  destruct (run_log (es1 ++ es2) x1) as [[x2 rs2]|?|] eqn:H2; simpl in *; [|done..]. injection Hrun as <- <-.
  destruct (IH x1 rs2 H2) as (x3 & rs3 & rs4 & -> & H4). simpl. eauto.
Qed.

Lemma nfor_each_app {A} (l1 l2 : list A) (f : A -> @NM S X unit) n :
  nfor_each (l1 ++ l2) f n = (nfor_each l1 f;; nfor_each l2 f) n.
Proof.
  revert n. induction l1 as [|y l1 IH]; intros n; simpl; [done|].
  unfold mbind, NM_bind in *. destruct (f y n) as [n1 [[]|e|]]; [|done..]. by rewrite IH.
Qed.

Lemma seg_last a c s :
  log_wf s -> (ms_snapIdx s <= a)%N -> (a < c)%N -> (c <= lastLocked s)%N ->
  e_Index <$> last (seg a c s) = Some c.
Proof.
  intros Hwf Ha Hac Hc. rewrite last_lookup. pose proof (seg_length a c s ltac:(lia) Hc) as Hlen.
  rewrite Hlen. assert (pred (N.to_nat (c - a)) < length (seg a c s)) as Hlt by lia.
  apply lookup_lt_is_Some in Hlt as [e He]. rewrite He. apply seg_lookup in He as [He _]; [|done..].
  simpl. f_equal. lia.
Qed.

(** The batches of the loop make one pass over the committed entries. *)
Lemma apply_loop_flat fuel n0 b (n : node) x rs :
  let s := ls_view (r_store (n_r n)) in
  let c := r_commit (n_r n) in
  inv n0 b [] n -> log_wf s -> (ms_snapIdx s <= n_applied n <= c)%N -> (c <= lastLocked s)%N ->
  N.to_nat (c - n_applied n) <= fuel -> run_log (seg (n_applied n) c s) (n_sm n) = Ret (x, rs) ->
  apply_loop fuel n = nfor_each (seg (n_applied n) c s) apply_entry n.
Proof.
  revert n rs. induction fuel as [|fuel IH]; intros n rs s c Hi Hwf Ha Hc Hf Hrun;
    cbn [apply_loop]; (erewrite nbind_eq by reflexivity); cbv beta zeta delta [id]; fold c;
    destruct (N.leb_spec c (n_applied n)).
  1, 3: assert (seg (n_applied n) c s = []) as -> by
      (apply length_zero_iff_nil; rewrite seg_length by lia; lia); done.
  { lia. }
  set (hi := N.min c (n_applied n + applyBatch)). assert (n_applied n < hi <= c)%N as Hhi.
  { unfold applyBatch in *. lia. }
  rewrite (seg_app _ hi _ s) in Hrun |- * by lia.
  apply run_log_app in Hrun as (x1 & rs1 & rs2 & Hr1 & Hr2).
  rewrite (ls_Entries_ok _ _ _ (i_ok _ _ _ _ Hi)). fold s. rewrite seg_entries by lia.
  erewrite nbind_eq by reflexivity. rewrite nfor_each_app.
  destruct (apply_entries_eq _ n0 b n x1 rs1 Hi Hr1) as (n1 & Heq1 & Hi1 & Hx1 & Ha1 & Hrr & _);
    [by apply seg_nodup; [|lia]|].
  rewrite seg_last in Ha1 by (done || lia). simpl in Ha1.
  erewrite (nbind_eq _ _ _ _ _ Heq1), (nbind_eq _ _ _ _ _ Heq1). subst s c. rewrite <-Hrr, <-Ha1 in *.
  clearbody hi. eapply IH; [done|done|lia|done|lia|by rewrite Hx1].
Qed.

(** C19: The apply loop runs the state machine over exactly the committed
    entries that are not applied yet, once each and in order, whatever the
    batches it reads them in; it always terminates, and leaves the applied
    index at the commit index.  A proposal pending at the index of an entry is
    settled with that entry's result if it was proposed in the entry's term,
    and with [ErrNotLeader] otherwise; the others are not touched. *)
Theorem apply_committed (n : node) x rs :
  let s := ls_view (r_store (n_r n)) in
  let c := r_commit (n_r n) in
  let es := seg (n_applied n) c s in
  node_ok n -> log_wf s -> (ms_snapIdx s <= n_applied n <= c)%N -> (c <= lastLocked s)%N ->
  run_log es (n_sm n) = Ret (x, rs) ->
  exists n', apply_loop (N.to_nat (c - n_applied n)) n = (n', Ret tt) /\
    n_sm n' = x /\ n_applied n' = c /\ n_r n' = n_r n /\
    (forall j e r h p, es !! j = Some e -> rs !! j = Some r -> n_pending n !! e_Index e = Some h ->
       n_props n !! h = Some p ->
       n_pending n' !! e_Index e = None /\ n_props n' !! h = Some (settle_prop e r p)) /\
    (forall i h, n_pending n !! i = Some h -> ~ (n_applied n < i <= c)%N ->
       n_pending n' !! i = Some h /\ n_props n' !! h = n_props n !! h).
Proof.
  intros s c es Hi Hwf Ha Hc Hrun.
  pose proof (apply_loop_flat (N.to_nat (c - n_applied n)) n true n x rs Hi Hwf Ha Hc (le_n _) Hrun) as Hflat.
  fold s c es in Hflat. rewrite Hflat. clear Hflat.
  destruct (apply_entries_eq es n true n x rs Hi Hrun) as (n' & Heq & _ & Hx & Hap & Hr & Hin & Hout & Hset);
    [by apply seg_nodup; [|lia]|].
  exists n'. split_and!; [done..| |done| |].
  - rewrite Hap. destruct (N.eq_dec (n_applied n) c) as [Heq0|Hne].
    + assert (es = []) as -> by (apply length_zero_iff_nil; unfold es; rewrite seg_length by lia; lia). done.
    + unfold es. rewrite seg_last by (done || lia). done.
  - intros j e r h p Hj Hrj Hp Hh. split; [|by eapply Hset]. apply Hin, list_elem_of_fmap.
    exists e. split; [done|]. by eapply list_elem_of_lookup_2.
  - intros i h Hp Hi'. destruct (Hout i) as [Hpe Hh].
    + unfold es. rewrite seg_index by done. done.
    + rewrite Hpe. auto.
Qed.
End Apply.

(** ** Witnesses: a group of one node over a state machine that keeps a log *)

#[local] Instance ex_machine : Machine (list bytes) := {
  mc_Apply e x := Ret (x ++ [e_Data e], e_Data e);
  mc_LastApplied _ := 0%N;
  mc_Snapshot x := Ret (x, concat x);
  mc_Restore d _ := Ret [d];
}.

Definition ex_cfg : Config := mkConfig 1 [1%N] 1 1 0 0 0.

Definition ex_new : go (Node MemStore (list bytes)) := NewNode ex_cfg NewMemStore [] [] 0 0.

#[local] Abbreviation xnode := (Node MemStore (list bytes)).

Definition ex_dummy : xnode := mkNode (mkRaft ex_cfg NewMemStore [] 0 0 Follower 0 0 None None None 0 0 None 0 [] None None None [])
  [] 0 0 0 [] ∅ [] ∅ [] false [] [].

Definition ex_n0 : xnode := match ex_new with Ret n => n | _ => ex_dummy end.

(** The node elects itself, takes a proposal, and flushes it. *)
Definition ex_n1 : xnode := (Node_Tick ex_n0).1.
Definition ex_n2 : xnode := (enqueue [x2a] ex_n1).1.
Definition ex_n3 : xnode := (signal ex_n2).1.
Definition ex_n4 : xnode := (Flush (with_wake false ex_n3)).1.

Lemma ex_reach2 : dreach (mkDriver ex_n2 1 false true).
Proof.
  exists (mkDriver ex_n0 0 false true). split.
  - exists ex_cfg, NewMemStore, [], [], 0%N, 0%Z, ex_n0. split_and!; [done|by vm_compute|done].
  - eapply rtc_l; [eapply (D_tick _ ex_n1); [done..|by vm_compute]|].
    eapply rtc_l; [eapply (D_propose _ [x2a] ex_n2 0); by vm_compute|]. done.
Qed.

Lemma ex_steps24 : rtc dstep (mkDriver ex_n2 1 false true) (mkDriver ex_n4 0 false true).
Proof.
  eapply rtc_l; [eapply (D_signal _ ex_n3 0); by vm_compute|].
  eapply rtc_l; [apply D_take; by vm_compute|].
  eapply rtc_l; [eapply (D_flush _ ex_n4); by vm_compute|]. done.
Qed.

Lemma handles_settled_once_witness :
  handles_ok (p_done <$> n_props ex_n2) (live_props ex_n2) /\
  n_props ex_n4 = [mkProposal [x2a] 1 2 [x2a] None true].
Proof.
  destruct (handles_settled_once (mkDriver ex_n2 1 false true) (mkDriver ex_n4 0 false true) ex_reach2 ex_steps24) as [H _].
  split; [exact H|by vm_compute].
Defined.

Lemma no_lost_wakeup_witness :
  n_queue ex_n2 = [0] /\ (0 < 1 \/ n_wake ex_n2 = true \/ false = true).
Proof.
  split; [by vm_compute|].
  apply (no_lost_wakeup (mkDriver ex_n2 1 false true) ex_reach2). by vm_compute.
Defined.

(** Between flushing and applying. *)
Definition ex_n5 : xnode := (flushProposals (with_wake false ex_n3)).1.

Lemma flush_loop_ok fuel (n n' : xnode) : node_ok n -> flush_loop fuel n = (n', Ret tt) -> node_ok n'.
Proof.
  intros Hok Heq. pose proof (flush_loop_inv fuel n n Hok) as Hf. unfold nwp in Hf. rewrite Heq in Hf.
  destruct Hf as [Hf _]. by eapply inv_rebase.
Qed.

Lemma ex_n5_ok : node_ok ex_n5.
Proof.
  apply (flush_loop_ok 1 (with_wake false ex_n2)); [|by vm_compute].
  apply wake_ok. exact (proj1 (dreach_ok _ ex_reach2)).
Qed.

Lemma apply_committed_witness :
  exists n', apply_loop (N.to_nat (r_commit (n_r ex_n5) - n_applied ex_n5)) ex_n5 = (n', Ret tt) /\
    n_sm n' = [[x2a]] /\ n_applied n' = r_commit (n_r ex_n5).
Proof.
  destruct (apply_committed ex_n5 [[x2a]] [[x2a]]) as (n' & Heq & Hx & Ha & _).
  - exact ex_n5_ok.
  - assert (ms_entries (ls_view (r_store (n_r ex_n5))) =
      [mkEntry 1 1 EntryNoop []; mkEntry 2 1 EntryNormal [x2a]]) as Hes by (by vm_compute).
    assert (ms_snapIdx (ls_view (r_store (n_r ex_n5))) = 0%N) as Hi by (by vm_compute).
    intros i e. rewrite Hes, Hi. destruct i as [|[|i]]; intros [= <-]; done.
  - by vm_compute.
  - by vm_compute.
  - by vm_compute.
  - exists n'. split_and!; [exact Heq|exact Hx|exact Ha].
Defined.
