(* ===== verification/Transport.v ===== *)
(** * kv/transport.go: Raft messages between nodes

    One stream per peer carries the messages of all groups.  A send never
    blocks: a message that does not fit the peer's queue is dropped.  What is
    received is handed to the group it names.  Connections are the network's:
    a stream breaks at any point, and an old one may still be read when the next
    is open. *)

From stdpp Require Import base list gmap.
From S2P Require Import Prelude LogStore.

(** ** Wire format (proto/raft.proto) *)

Record LogEntry := mkLogEntry { le_Index : N; le_Term : N; le_Type : N; le_Data : bytes }.

Record RaftMessage := mkRaftMessage {
  rm_Group : N;
  rm_Type : N;
  rm_From : N;
  rm_To : N;
  rm_Term : N;
  rm_Index : N;
  rm_LogTerm : N;
  rm_Entries : list LogEntry;
  rm_Commit : N;
  rm_Reject : bool;
  rm_ConflictTerm : N;
  rm_ConflictIndex : N;
  rm_ReadId : N;
  rm_Data : bytes;
  rm_Offset : N;
  rm_Done : bool;
}.

(** A message type is a [uint8]. *)
Definition type_code (t : MsgType) : N :=
  match t with
  | MsgVote => 1 | MsgVoteResp => 2 | MsgApp => 3 | MsgAppResp => 4 | MsgSnap => 5 | MsgSnapResp => 6
  | MsgOther c => bval c
  end.

Definition named_type (c : N) : option MsgType :=
  match c with
  | 1%N => Some MsgVote | 2%N => Some MsgVoteResp | 3%N => Some MsgApp | 4%N => Some MsgAppResp | 5%N => Some MsgSnap | 6%N => Some MsgSnapResp
  | _ => None
  end.

Definition code_type (n : N) : MsgType := default (MsgOther (bof n)) (named_type (n mod 256)).

Definition toProto_entry (e : Entry) : LogEntry := mkLogEntry (e_Index e) (e_Term e) (bval (e_Type e)) (e_Data e).
Definition fromProto_entry (e : LogEntry) : Entry := mkEntry (le_Index e) (le_Term e) (bof (le_Type e)) (le_Data e).

Definition toProto (group : N) (m : Message) : RaftMessage :=
  mkRaftMessage group (type_code (m_Type m)) (m_From m) (m_To m) (m_Term m) (m_Index m) (m_LogTerm m) (toProto_entry <$> m_Entries m) (m_Commit m) (m_Reject m)
    (m_ConflictTerm m) (m_ConflictIndex m) (m_ReadID m) (m_Data m) (m_Offset m) (m_Done m).

Definition fromProto (m : RaftMessage) : Message :=
  mkMessage (code_type (rm_Type m)) (rm_From m) (rm_To m) (rm_Term m) (rm_Index m) (rm_LogTerm m) (fromProto_entry <$> rm_Entries m) (rm_Commit m) (rm_Reject m)
    (rm_ConflictTerm m) (rm_ConflictIndex m) (rm_ReadId m) (rm_Data m) (rm_Offset m) (rm_Done m).

(** [MsgOther] stands for the codes that have no name. *)
Definition unnamed (t : MsgType) : Prop := match t with MsgOther c => (bval c = 0 \/ 6 < bval c)%N | _ => True end.

(** ** The transport of a node *)

Definition sendQueue : nat := 4096.
Definition recvQueue : nat := 1024.

Record Transport := mkTransport {
  t_self : NodeID;
  t_groups : gmap N (list Message);          (** the channels of the hosted groups *)
  t_queues : gmap NodeID (list RaftMessage); (** what waits for each peer *)
}.

Definition NewTransport (self : NodeID) (peers : list NodeID) : Transport :=
  mkTransport self ∅ (foldr (fun id q => if (id =? self)%N then q else <[id := []]> q) ∅ peers).

Definition Group (id : N) (t : Transport) : Transport :=
  match t_groups t !! id with
  | Some _ => t
  | None => mkTransport (t_self t) (<[id := []]> (t_groups t)) (t_queues t)
  end.

Definition Send (group : N) (to : NodeID) (m : Message) (t : Transport) : Transport :=
  match t_queues t !! to with
  | Some q => if length q <? sendQueue then mkTransport (t_self t) (t_groups t) (<[to := q ++ [toProto group m]]> (t_queues t)) else t
  | None => t
  end.

(** The next message for a peer, taken by its stream. *)
Definition take_message (to : NodeID) (t : Transport) : option (RaftMessage * Transport) :=
  match t_queues t !! to with
  | Some (m :: q) => Some (m, mkTransport (t_self t) (t_groups t) (<[to := q]> (t_queues t)))
  | _ => None
  end.

(** A received message; [None]: the group's channel is full, and the stream waits. *)
Definition Stream (m : RaftMessage) (t : Transport) : option Transport :=
  match t_groups t !! rm_Group m with
  | None => Some t
  | Some ch => if length ch <? recvQueue then Some (mkTransport (t_self t) (<[rm_Group m := ch ++ [fromProto m]]> (t_groups t)) (t_queues t)) else None
  end.

Definition Recv (group : N) (t : Transport) : option (Message * Transport) :=
  match t_groups t !! group with
  | Some (m :: ch) => Some (m, mkTransport (t_self t) (<[group := ch]> (t_groups t)) (t_queues t))
  | _ => None
  end.

(** Milliseconds. *)
Definition redialDelay : N := 100.
Definition maxRedialGap : N := 2000.

(** How long [deliver] waits before the next connection, and the delay it
    keeps. *)
Definition redial (connected : bool) (delay : N) : N * N :=
  let delay := if connected then redialDelay else delay in (delay, N.min (2 * delay) maxRedialGap).

Lemma redial_bounds connected delay :
  (redialDelay <= delay <= maxRedialGap)%N ->
  (redialDelay <= (redial connected delay).1 <= maxRedialGap /\ redialDelay <= (redial connected delay).2 <= maxRedialGap)%N.
Proof. unfold redial, redialDelay, maxRedialGap. destruct connected; simpl; lia. Qed.

(** ** Encoding *)

Lemma code_type_code t : unnamed t -> code_type (type_code t) = t.
Proof.
  destruct t as [| | | | | |c]; try done. intros Hu. simpl in *. pose proof (bval_bound c). unfold code_type. rewrite N.mod_small, bof_bval by done.
  assert (named_type (bval c) = None) as ->; [|done].
  destruct (bval c) as [|p]; [done|]. destruct p as [[[p|p|]|[p|p|]|]|[[p|p|]|[p|p|]|]|]; first [done|lia].
Qed.

Lemma entry_roundtrip e : fromProto_entry (toProto_entry e) = e.
Proof. destruct e as [i t ty d]. unfold fromProto_entry. simpl. by rewrite bof_bval. Qed.

Lemma message_roundtrip g m : unnamed (m_Type m) -> fromProto (toProto g m) = m.
Proof.
  intros Hu. destruct m. unfold fromProto. simpl in *. rewrite code_type_code by done. f_equal.
  rewrite <-list_fmap_compose. rewrite <-(list_fmap_id m_Entries) at 2. apply list_fmap_ext. intros i e _. apply entry_roundtrip.
Qed.

(** ** A link *)

(** A sender, a receiver, and the streams between them, the newest last;
    what was sent and what was handed to groups. *)
Record link := mkLink {
  l_from : Transport;
  l_streams : list (list RaftMessage);
  l_to : Transport;
  l_sent : list (N * Message);
  l_got : list (N * Message);
}.

Definition wire (pm : RaftMessage) : N * Message := (rm_Group pm, fromProto pm).

Inductive link_step (peer : NodeID) : link -> link -> Prop :=
  | link_send l g m : unnamed (m_Type m) ->
      link_step peer l (mkLink (Send g peer m (l_from l)) (l_streams l) (l_to l) (l_sent l ++ [(g, m)]) (l_got l))
  | link_open l : link_step peer l (mkLink (l_from l) (l_streams l ++ [[]]) (l_to l) (l_sent l) (l_got l))
  | link_transmit l ss s pm t : l_streams l = ss ++ [s] -> take_message peer (l_from l) = Some (pm, t) ->
      link_step peer l (mkLink t (ss ++ [s ++ [pm]]) (l_to l) (l_sent l) (l_got l))
  (** A stream that fails takes a message with it. *)
  | link_fail l pm t : take_message peer (l_from l) = Some (pm, t) ->
      link_step peer l (mkLink t (l_streams l) (l_to l) (l_sent l) (l_got l))
  | link_break l i s s' : l_streams l !! i = Some s -> s' `sublist_of` s ->
      link_step peer l (mkLink (l_from l) (<[i := s']> (l_streams l)) (l_to l) (l_sent l) (l_got l))
  | link_receive l i pm s t : l_streams l !! i = Some (pm :: s) -> Stream pm (l_to l) = Some t ->
      link_step peer l (mkLink (l_from l) (<[i := s]> (l_streams l)) t (l_sent l)
        (l_got l ++ (if bool_decide (is_Some (t_groups (l_to l) !! rm_Group pm)) then [wire pm] else [])))
  | link_consume l g m t : Recv g (l_to l) = Some (m, t) ->
      link_step peer l (mkLink (l_from l) (l_streams l) t (l_sent l) (l_got l))
  | link_host l g : link_step peer l (mkLink (l_from l) (l_streams l) (Group g (l_to l)) (l_sent l) (l_got l)).

(** The messages under way. *)
Definition pending (peer : NodeID) (l : link) : list (N * Message) :=
  (wire <$> concat (l_streams l)) ++ (wire <$> default [] (t_queues (l_from l) !! peer)).

Definition link_inv (peer : NodeID) (l : link) : Prop := l_got l ++ pending peer l ⊆+ l_sent l.

Lemma concat_shrink {A} (ss : list (list A)) i s s' : ss !! i = Some s -> s' ⊆+ s -> concat (<[i := s']> ss) ⊆+ concat ss.
Proof.
  revert i. induction ss as [|x ss IH]; intros [|i] Hi Hs; simplify_eq/=; [by apply submseteq_app|]. apply submseteq_app; [done|]. by apply IH.
Qed.

Lemma concat_head {A} (ss : list (list A)) i x s : ss !! i = Some (x :: s) -> x :: concat (<[i := s]> ss) ≡ₚ concat ss.
Proof.
  revert i. induction ss as [|y ss IH]; intros [|i] Hi; simplify_eq/=; [done|]. rewrite <-(IH i Hi). by rewrite Permutation_middle.
Qed.

Lemma take_queue peer t pm t' : take_message peer t = Some (pm, t') ->
  default [] (t_queues t !! peer) = pm :: default [] (t_queues t' !! peer).
Proof. unfold take_message. destruct (t_queues t !! peer) as [[|m q]|]; intros [= <- <-]. simpl. by rewrite lookup_insert_eq. Qed.

Lemma step_link_inv peer l l' : link_step peer l l' -> link_inv peer l -> link_inv peer l'.
Proof.
  unfold link_inv, pending. intros Hs Hi. destruct Hs as [l g m Hu|l|l ss s pm t Hss Ht|l pm t Ht|l i s s' Hl Hsub|l i pm s t Hl Ht|l g m t Ht|l g]; simpl.
  - unfold Send. destruct (t_queues (l_from l) !! peer) as [q|] eqn:Eq; simpl in *.
    + destruct (length q <? sendQueue); simpl; [rewrite lookup_insert_eq; simpl; rewrite fmap_app; simpl|rewrite Eq; simpl].
      * unfold wire at 3. simpl. rewrite message_roundtrip by done. rewrite !app_assoc in *. by apply submseteq_app.
      * etrans; [exact Hi|]. by apply submseteq_inserts_r.
    + rewrite Eq. simpl. etrans; [exact Hi|]. by apply submseteq_inserts_r.
  - by rewrite concat_app, app_nil_r.
  - rewrite Hss in Hi. rewrite (take_queue _ _ _ _ Ht) in Hi. rewrite !concat_app in *. simpl in *. rewrite !app_nil_r in *.
    rewrite !fmap_app in *. simpl in *. rewrite <-!app_assoc. simpl. by rewrite <-!app_assoc in Hi.
  - rewrite (take_queue _ _ _ _ Ht) in Hi. etrans; [|exact Hi]. simpl. apply submseteq_app; [done|]. apply submseteq_app; [done|]. by apply submseteq_cons.
  - etrans; [|exact Hi]. apply submseteq_app; [done|]. apply submseteq_app; [|done]. apply fmap_submseteq. eapply concat_shrink; [done|]. by apply sublist_submseteq.
  - etrans; [|exact Hi]. rewrite <-(concat_head _ _ _ _ Hl). simpl. rewrite <-!app_assoc. apply submseteq_app; [done|]. case_bool_decide; simpl; [done|]. by apply submseteq_cons.
  - done.
  - done.
Qed.

Lemma new_queue self peers peer : default [] (t_queues (NewTransport self peers) !! peer) = [].
Proof.
  unfold NewTransport. cbn [t_queues]. induction peers as [|p ps IH]; cbn [foldr]; [done|]. destruct (p =? self)%N; [done|].
  destruct (decide (p = peer)) as [->|]; [by rewrite lookup_insert_eq|by rewrite lookup_insert_ne].
Qed.


Definition ex_msg : Message := mkMessage MsgVote 1 2 1 0 0 [] 0 false 0 0 0 [] 0 false.

