(* ===== verification/KvNode.v ===== *)
(** * kv/node.go: opening and stopping a node

    A node opens an engine and a log for every group that lists it, and its
    listeners; when one of them fails, what is open is closed again.  Whether a
    call on the system succeeds is an input. *)

From stdpp Require Import base list gmap sorting.
From S2P Require Import Prelude LogStore.

(** ** Options *)

(** Durations are in milliseconds; the addresses are given if not empty. *)
Record NodeOptions := mkNodeOptions {
  o_ID : NodeID;
  o_Groups : gmap N (list NodeID);
  o_MetricsAddr : bytes;
  o_TickInterval : Z;
  o_ElectionTick : Z;
  o_HeartbeatTick : Z;
  o_SnapshotThreshold : N;
}.

Definition with_defaults (cfg : NodeOptions) : NodeOptions :=
  mkNodeOptions (o_ID cfg) (o_Groups cfg) (o_MetricsAddr cfg)
    (if (o_TickInterval cfg <=? 0)%Z then 100%Z else o_TickInterval cfg)
    (if (o_ElectionTick cfg <=? 0)%Z then 10%Z else o_ElectionTick cfg)
    (if (o_HeartbeatTick cfg <=? 0)%Z then 1%Z else o_HeartbeatTick cfg)
    (if (o_SnapshotThreshold cfg =? 0)%N then 100000%N else o_SnapshotThreshold cfg).

Definition sortedGroups {T} (m : gmap N T) : list N := merge_sort N.le (map_to_list m).*1.

Definition contains (ids : list NodeID) (id : NodeID) : bool := existsb (fun x => (x =? id)%N) ids.

(** ** What is open *)

Inductive resource := Streams | Engine (group : N) | Log (group : N) | Listener | MetricsListener.

#[global] Instance resource_eq_dec : EqDecision resource.
Proof. solve_decision. Defined.

(** Which calls succeed. *)
Record outcomes := mkOutcomes {
  ok_engine : N -> bool;
  ok_log : N -> bool;
  ok_state : N -> bool;
  ok_raft : N -> bool;
  ok_listen : bool;
  ok_metrics : bool;
}.

Inductive openError := EngineFailed (group : N) | LogFailed (group : N) | StateFailed (group : N) | RaftFailed (group : N) | NoGroup | ListenFailed.

Definition close (x : resource) (open : list resource) : list resource := list_difference open [x].

(** [openGroup]: the engine, the log, the state machine and the Raft node. *)
Definition openGroup (e : outcomes) (id : N) (open : list resource) : list resource * option openError :=
  if ok_engine e id then
    let open := Engine id :: open in
    if ok_log e id then
      let open := Log id :: open in
      if ok_state e id then
        if ok_raft e id then (open, None) else (close (Engine id) (close (Log id) open), Some (RaftFailed id))
      else (close (Engine id) (close (Log id) open), Some (StateFailed id))
    else (close (Engine id) open, Some (LogFailed id))
  else (open, Some (EngineFailed id)).

Definition closeGroups (groups : list N) (open : list resource) : list resource :=
  foldl (fun open id => close (Engine id) (close (Log id) open)) open groups.

(** The groups that list the node, in order, until one fails. *)
Fixpoint openGroups (e : outcomes) (cfg : NodeOptions) (ids groups : list N) (open : list resource) : list N * list resource * option openError :=
  match ids with
  | [] => (groups, open, None)
  | id :: ids =>
      if contains (default [] (o_Groups cfg !! id)) (o_ID cfg) then
        let '(open, err) := openGroup e id open in
        match err with
        | Some err => (groups, open, Some err)
        | None => openGroups e cfg ids (groups ++ [id]) open
        end
      else openGroups e cfg ids groups open
  end.

(** The listeners, once the groups are open. *)
Definition listen (e : outcomes) (cfg : NodeOptions) (groups : list N) (open : list resource) : list resource * (openError + list N) :=
  if ok_listen e then
    let open := Listener :: open in
    if bool_decide (o_MetricsAddr cfg = []) then (open, inr groups)
    else if ok_metrics e then (MetricsListener :: open, inr groups)
    else (close Streams (closeGroups groups (close Listener open)), inl ListenFailed)
  else (close Streams (closeGroups groups open), inl ListenFailed).

(** [Open]: the hosted groups, or an error; and what is open then. *)
Definition Open (e : outcomes) (cfg : NodeOptions) (open : list resource) : list resource * (openError + list N) :=
  let cfg := with_defaults cfg in
  let open := Streams :: open in
  let '(groups, open, err) := openGroups e cfg (sortedGroups (o_Groups cfg)) [] open in
  match err with
  | Some err => (close Streams (closeGroups groups open), inl err)
  | None =>
      match groups with
      | [] => (close Streams open, inl NoGroup)
      | _ => listen e cfg groups open
      end
  end.

Definition Stop (cfg : NodeOptions) (groups : list N) (open : list resource) : list resource :=
  let open := close Listener open in
  let open := if bool_decide (o_MetricsAddr cfg = []) then open else close MetricsListener open in
  closeGroups groups (close Streams open).

(** ** Nothing is left open *)

Definition hosts (cfg : NodeOptions) (id : N) : Prop := contains (default [] (o_Groups cfg !! id)) (o_ID cfg) = true.

#[global] Instance hosts_dec cfg id : Decision (hosts cfg id).
Proof. unfold hosts. apply _. Defined.

(** What a node with these groups has open, besides its listeners. *)
Definition of_groups (groups : list N) (x : resource) : Prop := x = Streams \/ exists g, g ∈ groups /\ (x = Engine g \/ x = Log g).

Lemma elem_close x y open : y ∈ close x open <-> y ∈ open /\ y <> x.
Proof. unfold close. rewrite list_elem_of_difference, list_elem_of_singleton. done. Qed.

Lemma elem_closeGroups groups open x : x ∈ closeGroups groups open <-> x ∈ open /\ forall g, g ∈ groups -> x <> Engine g /\ x <> Log g.
Proof.
  unfold closeGroups. revert open. induction groups as [|g groups IH]; intros open; cbn [foldl].
  - split; [intros H; split; [done|intros g Hg; by apply not_elem_of_nil in Hg]|by intros [H _]].
  - rewrite IH, !elem_close. split.
    + intros [[[H1 H2] H3] H4]. split; [done|]. intros g' [->|Hg]%elem_of_cons; auto.
    + intros [H1 H2]. split; [|intros g' Hg; apply H2; by right]. destruct (H2 g ltac:(by left)). done.
Qed.

Lemma openGroup_spec e id groups open open' err :
  (forall x, x ∈ open <-> of_groups groups x) -> id ∉ groups -> openGroup e id open = (open', err) ->
  match err with None => forall x, x ∈ open' <-> of_groups (groups ++ [id]) x | Some _ => forall x, x ∈ open' <-> of_groups groups x end.
Proof.
  intros Ho Hid. assert (forall x, x ∈ open -> x <> Engine id /\ x <> Log id) as Hnew.
  { intros x Hx. apply Ho in Hx. unfold of_groups in Hx. naive_solver. }
  assert (forall x, x ∈ close (Engine id) (close (Log id) (Log id :: Engine id :: open)) <-> of_groups groups x) as Hc2.
  { intros x. rewrite !elem_close, !elem_of_cons, <-Ho. specialize (Hnew x). naive_solver. }
  unfold openGroup. destruct (ok_engine e id); [|by intros [= <- <-]]. destruct (ok_log e id).
  - destruct (ok_state e id); [destruct (ok_raft e id)|]; intros [= <- <-]; [|exact Hc2|exact Hc2].
    intros x. rewrite !elem_of_cons, Ho. unfold of_groups. setoid_rewrite elem_of_app. setoid_rewrite list_elem_of_singleton. naive_solver.
  - intros [= <- <-] x. rewrite elem_close, elem_of_cons, <-Ho. specialize (Hnew x). naive_solver.
Qed.

Lemma openGroups_spec e cfg ids groups open gs open' err :
  openGroups e cfg ids groups open = (gs, open', err) -> NoDup ids -> (forall id, id ∈ ids -> id ∉ groups) -> (forall x, x ∈ open <-> of_groups groups x) ->
  (forall x, x ∈ open' <-> of_groups gs x) /\ (err = None -> gs = groups ++ filter (hosts cfg) ids).
Proof.
  revert groups open. induction ids as [|id ids IH]; intros groups open; cbn [openGroups].
  - intros [= <- <- <-] _ _ Ho. split; [done|]. intros _. by rewrite filter_nil, app_nil_r.
  - intros Hx [Hn Hnd]%NoDup_cons Hids Ho. destruct (contains _ _) eqn:Hc.
    + rewrite filter_cons_True by done. destruct (openGroup e id open) as [o1 [er|]] eqn:Hg; pose proof (openGroup_spec _ _ groups _ _ _ Ho (Hids id ltac:(by left)) Hg) as Hs.
      * injection Hx as <- <- <-. done.
      * destruct (IH _ _ Hx Hnd) as [H1 H2]; [|done|].
        { intros id' Hin [H| ->%list_elem_of_singleton]%elem_of_app; [|done]. by apply (Hids id'); [right|]. }
        split; [done|]. intros He. rewrite (H2 He). by rewrite <-app_assoc.
    + rewrite filter_cons_False by (unfold hosts; by rewrite Hc). apply (IH _ _ Hx Hnd); [|done]. intros id' Hin. apply Hids. by right.
Qed.

Lemma sortedGroups_NoDup {T} (m : gmap N T) : NoDup (sortedGroups m).
Proof. unfold sortedGroups. rewrite merge_sort_Permutation. apply NoDup_fst_map_to_list. Qed.

