(* ===== verification/KeyHash.v ===== *)
(** * internal/keyhash: the shard of a key

    FNV-1a over the key, an avalanche step, and the top four bits. *)

From S2P Require Import Prelude.

Definition Shards : N := 16.

(** [hash/fnv]'s 64-bit FNV-1a. *)
Definition fnv_offset : N := 14695981039346656037.
Definition fnv_prime : N := 1099511628211.
Definition fnv64a (key : bytes) : N :=
  foldl (fun h b => u64 (N.lxor h (bval b) * fnv_prime)) fnv_offset key.

Definition avalanche (h : N) : N :=
  let h := N.lxor h (N.shiftr h 33) in
  let h := u64 (h * 18397679294719823053) in  (* 0xff51afd7ed558ccd *)
  let h := N.lxor h (N.shiftr h 33) in
  let h := u64 (h * 14181476777654086739) in  (* 0xc4ceb9fe1a85ec53 *)
  N.lxor h (N.shiftr h 33).

Definition ShardOf (key : bytes) : N := (avalanche (fnv64a key) / ((w64 - 1) / Shards + 1))%N.

Lemma lxor_lt_w64 a b : (a < w64)%N -> (b < w64)%N -> (N.lxor a b < w64)%N.
Proof.
  intros Ha Hb. change w64 with (2 ^ 64)%N in *.
  destruct (N.eq_dec (N.lxor a b) 0%N) as [->|Hn]; [done|]. apply N.log2_lt_pow2; [lia|].
  eapply N.le_lt_trans; [apply N.log2_lxor|]. apply N.max_lub_lt.
  - destruct (N.eq_dec a 0%N) as [->|]; [done|]. apply N.log2_lt_pow2; lia.
  - destruct (N.eq_dec b 0%N) as [->|]; [done|]. apply N.log2_lt_pow2; lia.
Qed.

Lemma shiftr_lt_w64 a s : (a < w64)%N -> (N.shiftr a s < w64)%N.
Proof.
  intros Ha. rewrite N.shiftr_div_pow2. eapply N.le_lt_trans; [|exact Ha].
  apply N.Div0.div_le_upper_bound. rewrite <-(N.mul_1_l a) at 1. apply N.mul_le_mono_r.
  pose proof (N.pow_nonzero 2 s). lia.
Qed.

Lemma avalanche_lt h : (avalanche h < w64)%N.
Proof. unfold avalanche. apply lxor_lt_w64; [apply u64_lt|apply shiftr_lt_w64, u64_lt]. Qed.

(** Every key has one of the sixteen shards, so the table of shards is
    always indexed within its bounds. *)
Lemma ShardOf_in_range key : (ShardOf key < Shards)%N.
Proof.
  unfold ShardOf. pose proof (avalanche_lt (fnv64a key)) as H.
  change ((w64 - 1) / Shards + 1)%N with 1152921504606846976%N. unfold Shards.
  apply N.Div0.div_lt_upper_bound. unfold w64 in H. lia.
Qed.
