(* ===== verification/StateMachine.v ===== *)
(** * kv/statemachine.go: the replicated key-value store

    Commands from the log are executed against the engine.  A command's
    effects, the client session and the applied index go into one batch.
    The encoding of commands and results is protobuf's, a parameter here. *)

From Stdlib Require Import Strings.String.
From stdpp Require Import base list gmap sorting.
From S2P Require Import Prelude Codec Key Batch LogStore KeyHash Db.

Local Open Scope nat_scope.

(** ** Commands and results (proto/kv.proto) *)

Record KeyValue := mkKV { kv_Key : bytes; kv_Value : bytes }.

Inductive Op :=
  | Register
  | OpPut (key value : bytes)
  | OpDelete (key : bytes)
  | OpCas (key : bytes) (expected : option bytes) (value : bytes)
  | OpGet (key : bytes)
  | OpScan (start stop : bytes) (limit maxBytes : N)
  | Freeze (shard : N)
  | Import (shard : N) (kvs : list KeyValue) (is_last : bool)
  | Purge (shard : N).

(** A command without an operation is legal protobuf. *)
Record Command := mkCommand { cmd_ClientId : N; cmd_Seq : N; cmd_Op : option Op }.

Record Result := mkResult {
  res_Found : bool;
  res_Value : bytes;
  res_Success : bool;
  res_ClientId : N;
  res_Kvs : list KeyValue;
  res_Moving : bool;
}.

Definition noResult : Result := mkResult false [] false 0 [] false.
Definition success : Result := mkResult false [] true 0 [] false.
Definition moving : Result := mkResult false [] false 0 [] true.

(** ** Keys in the engine *)

Definition str (s : string) : bytes := list_byte_of_string s.

Definition prefixKey : byte := "k".
Definition prefixSession : byte := "s".
Definition appliedKey : bytes := str "mapplied".
Definition shardPrefix : bytes := str "mshard/".
Definition shardStop : bytes := str "mshard0".

(** [fmt.Sprintf("%d", n)]; a [uint32] has at most ten digits. *)
Fixpoint digits (fuel : nat) (n : N) : bytes :=
  match fuel with
  | O => []
  | S fuel => if (n <? 10)%N then [bof (48 + n)] else digits fuel (n / 10) ++ [bof (48 + n mod 10)]
  end.

Definition shardKey (shard : N) : bytes :=
  shardPrefix ++ (if (shard <? 10)%N then [bof 48] else []) ++ digits 10 shard.

(** [fmt.Sscanf(s, "%d", &n)]: the leading digits; none leave [n] zero. *)
Fixpoint scan_digits (s : bytes) (n : N) : N :=
  match s with
  | c :: s => if (48 <=? bval c)%N && (bval c <=? 57)%N then scan_digits s (n * 10 + (bval c - 48)) else n
  | [] => n
  end.

Definition dbKey (key : bytes) : bytes := prefixKey :: key.
Definition sessionKey (id : N) : bytes := prefixSession :: be_put 8 id.

Record session := mkSession { s_seq : N; s_result : bytes }.

Definition encodeSession (seq : N) (result : bytes) : bytes := be_put 8 seq ++ result.
Definition decodeSession (v : bytes) : go session :=
  seq ← be_uint 8 v; Ret (mkSession seq (drop 8 v)).

(** ** Shard states: a byte *)

Definition shardOpen : byte := x00.
Definition shardFrozen : byte := x01.
Definition shardGone : byte := x02.

Section StateMachine.
Context {D : Type} `{HDB : DB D}.
Context (unmarshal : bytes -> option Command) (marshal : Result -> bytes).

Record StateMachine := mkSM {
  sm_db : D;
  sm_applied : N;
  sm_sessions : gmap N session;
  sm_shards : gmap N byte;
}.

Definition shard_state (shards : gmap N byte) (shard : N) : byte := default shardOpen (shards !! shard).

Definition writable (shards : gmap N byte) (key : bytes) : bool :=
  bool_decide (shard_state shards (ShardOf key) = shardOpen).
Definition readable (shards : gmap N byte) (key : bytes) : bool :=
  negb (bool_decide (shard_state shards (ShardOf key) = shardGone)).

(** ** Loading *)

Definition load_session (kv : bytes * bytes) (m : gmap N session) : go (gmap N session) :=
  id ← be_uint 8 (drop 1 kv.1); sess ← decodeSession kv.2; Ret (<[id := sess]> m).

Definition load_shard (kv : bytes * bytes) (m : gmap N byte) : go (gmap N byte) :=
  st ← match kv.2 with b :: _ => Ret b | [] => Panic end;
  Ret (<[scan_digits (drop (length shardPrefix) kv.1) 0 := st]> m).

Definition load (db : D) : go StateMachine :=
  applied ← (match db_Get appliedKey db with
             | Ret v => be_uint 8 v
             | Fail ErrNotFound => Ret 0%N
             | Fail e => Fail e
             | Panic => Panic
             end);
  ss ← db_Scan [prefixSession] (Some [bof (bval prefixSession + 1)]) db;
  sessions ← go_foldl load_session ss ∅;
  sh ← db_Scan shardPrefix (Some shardStop) db;
  shards ← go_foldl load_shard sh ∅;
  Ret (mkSM db applied sessions shards).

Definition NewStateMachine (db : D) : go StateMachine := load db.

(** ** Reading *)

(** A read error inside [Apply] is a panic. *)
Definition or_panic {A} (r : go A) : go A := match r with Ret a => Ret a | _ => Panic end.

Definition get (key : bytes) (db : D) : go (option bytes) :=
  match db_Get (dbKey key) db with
  | Ret v => Ret (Some v)
  | Fail ErrNotFound => Ret None
  | Fail e => Fail e
  | Panic => Panic
  end.

(** The loop of [scan] over the iterator. *)
Fixpoint take_kvs (limit maxBytes : nat) (l : list (bytes * bytes)) (n size : nat) : list KeyValue :=
  match l with
  | [] => []
  | kv :: l =>
      if (0 <? limit) && (limit <=? n) then []
      else
        let size := size + (length kv.1 - 1) + length kv.2 in
        mkKV (drop 1 kv.1) kv.2 ::
          (if (0 <? maxBytes) && (maxBytes <=? size) then [] else take_kvs limit maxBytes l (n + 1) size)
  end.

Definition scan (start stop : bytes) (limit maxBytes : nat) (db : D) : go (list KeyValue) :=
  let hi := if length stop =? 0 then [bof (bval prefixKey + 1)] else dbKey stop in
  l ← db_Scan (dbKey start) (Some hi) db;
  Ret (take_kvs limit maxBytes l 0 0).

Definition Get (key : bytes) (s : StateMachine) : go (option bytes) :=
  if readable (sm_shards s) key then get key (sm_db s) else Fail ErrMoving.

Definition Scan (start stop : bytes) (limit maxBytes : nat) (s : StateMachine) : go (list KeyValue) :=
  scan start stop limit maxBytes (sm_db s).

(** ** Executing *)

(** The result, the batch and the shard states. *)
Definition setShard (shard : N) (st : byte) (batch : Batch) (shards : gmap N byte) : Batch * gmap N byte :=
  (Batch_Put batch (shardKey shard) [st], <[shard := st]> shards).

Definition execute (op : option Op) (index : N) (s : StateMachine) (batch : Batch)
  : go (Result * Batch * gmap N byte) :=
  let shards := sm_shards s in
  match op with
  | None => Ret (noResult, batch, shards)
  | Some Register => Ret (mkResult false [] false index [] false, batch, shards)
  | Some (OpPut key value) =>
      if writable shards key then Ret (success, Batch_Put batch (dbKey key) value, shards)
      else Ret (moving, batch, shards)
  | Some (OpDelete key) =>
      if writable shards key then Ret (success, Batch_Delete batch (dbKey key), shards)
      else Ret (moving, batch, shards)
  | Some (OpCas key expected value) =>
      if writable shards key then
        cur ← or_panic (get key (sm_db s));
        let ok := match expected with
                  | None => bool_decide (cur = None)
                  | Some x => bool_decide (cur = Some x)
                  end in
        Ret (mkResult (bool_decide (is_Some cur)) (default [] cur) ok 0 [] false,
             if ok then Batch_Put batch (dbKey key) value else batch, shards)
      else Ret (moving, batch, shards)
  | Some (OpGet key) =>
      if readable shards key then
        cur ← or_panic (get key (sm_db s));
        Ret (mkResult (bool_decide (is_Some cur)) (default [] cur) false 0 [] false, batch, shards)
      else Ret (moving, batch, shards)
  | Some (OpScan start stop limit maxBytes) =>
      kvs ← or_panic (scan start stop (N.to_nat limit) (N.to_nat maxBytes) (sm_db s));
      Ret (mkResult false [] false 0 kvs false, batch, shards)
  | Some (Freeze shard) =>
      if bool_decide (shard_state shards shard = shardGone) then Ret (success, batch, shards)
      else let '(batch, shards) := setShard shard shardFrozen batch shards in Ret (success, batch, shards)
  | Some (Import shard kvs is_last) =>
      if bool_decide (is_Some (shards !! shard)) && negb (bool_decide (shard_state shards shard = shardGone)) then
        Ret (noResult, batch, shards)
      else
        let batch := foldl (fun b kv => Batch_Put b (dbKey (kv_Key kv)) (kv_Value kv)) batch kvs in
        if is_last then
          let '(batch, shards) := setShard shard shardOpen batch shards in Ret (success, batch, shards)
        else Ret (success, batch, shards)
  | Some (Purge shard) =>
      l ← or_panic (db_Scan [prefixKey] (Some [bof (bval prefixKey + 1)]) (sm_db s));
      let batch := foldl (fun b kv =>
        if (ShardOf (drop 1 kv.1) =? shard)%N then Batch_Delete b kv.1 else b) batch l in
      let '(batch, shards) := setShard shard shardGone batch shards in
      Ret (success, batch, shards)
  end.

(** The applied index goes into the batch, and the batch to the engine. *)
Definition finish_apply (index : N) (batch : Batch) (sessions : gmap N session) (shards : gmap N byte)
    (s : StateMachine) : go StateMachine :=
  match db_Write (Batch_Put batch appliedKey (be_put 8 index)) (sm_db s) with
  | Ret db => Ret (mkSM db index sessions shards)
  | _ => Panic
  end.

(** A command of a session that has been executed before. *)
Definition duplicate (cmd : Command) (sessions : gmap N session) : option bytes :=
  match sessions !! cmd_ClientId cmd with
  | Some sess =>
      if negb (cmd_ClientId cmd =? 0)%N && (cmd_Seq cmd <=? s_seq sess)%N then Some (s_result sess) else None
  | None => None
  end.

Definition Apply (e : Entry) (s : StateMachine) : go (StateMachine * bytes) :=
  match unmarshal (e_Data e) with
  | None => Panic
  | Some cmd =>
      match duplicate cmd (sm_sessions s) with
      | Some result =>
          s' ← finish_apply (e_Index e) emptyBatch (sm_sessions s) (sm_shards s) s;
          Ret (s', result)
      | None =>
          '(res, batch, shards) ← execute (cmd_Op cmd) (e_Index e) s emptyBatch;
          let result := marshal res in
          let '(batch, sessions) :=
            if (cmd_ClientId cmd =? 0)%N then (batch, sm_sessions s)
            else (Batch_Put batch (sessionKey (cmd_ClientId cmd)) (encodeSession (cmd_Seq cmd) result),
                  <[cmd_ClientId cmd := mkSession (cmd_Seq cmd) result]> (sm_sessions s)) in
          let '(batch, sessions) :=
            if (res_ClientId res =? 0)%N then (batch, sessions)
            else (Batch_Put batch (sessionKey (res_ClientId res)) (encodeSession 0 []),
                  <[res_ClientId res := mkSession 0 []]> sessions) in
          s' ← finish_apply (e_Index e) batch sessions shards s;
          Ret (s', result)
      end
  end.

Definition Snapshot (s : StateMachine) : go (StateMachine * bytes) :=
  db ← db_Sync (sm_db s);
  data ← db_Export db;
  Ret (mkSM db (sm_applied s) (sm_sessions s) (sm_shards s), data).

Definition Restore (data : bytes) (s : StateMachine) : go StateMachine :=
  db ← db_Restore data (sm_db s); load db.
End StateMachine.
