(* ===== verification/KvSpec.v ===== *)
(** * What the key-value state machine promises

    The specification of the replicated store: a map of user keys, client
    sessions, shard states and the applied index, with one step per
    command; and the layout of such a state in the engine. *)

From stdpp Require Import base list gmap sorting.
From S2P Require Import Prelude Codec Key Batch LogStore KeyHash Db StateMachine.

(** ** The specification *)

Record kvs := mkKvs {
  kv_data : gmap bytes bytes;
  kv_sessions : gmap N session;
  kv_shards : gmap N byte;
  kv_applied : N;
}.

Definition kvs0 : kvs := mkKvs ∅ ∅ ∅ 0.

(** At most [limit] pairs, and none after the one with which the returned
    sizes reach [maxBytes]; zero is no bound. *)
Fixpoint bounded (limit maxBytes : nat) (l : list (bytes * bytes)) (n size : nat) : list KeyValue :=
  match l with
  | [] => []
  | (k, v) :: l =>
      if (0 <? limit) && (limit <=? n) then []
      else
        let size := size + length k + length v in
        mkKV k v :: (if (0 <? maxBytes) && (maxBytes <=? size) then [] else bounded limit maxBytes l (n + 1) size)
  end.

Definition put_kvs (l : list KeyValue) (m : gmap bytes bytes) : gmap bytes bytes :=
  foldl (fun m kv => <[kv_Key kv := kv_Value kv]> m) m l.

Definition kv_scan (start stop : bytes) (limit maxBytes : nat) (m : gmap bytes bytes) : list KeyValue :=
  bounded limit maxBytes (range start (if length stop =? 0 then None else Some stop) m) 0 0.

Definition read_result (v : option bytes) (ok : bool) : Result :=
  mkResult (bool_decide (is_Some v)) (default [] v) ok 0 [] false.

Definition cas_ok (expected cur : option bytes) : bool := bool_decide (cur = expected).

Definition kv_exec (op : option Op) (index : N) (st : kvs) : Result * gmap bytes bytes * gmap N byte :=
  let m := kv_data st in
  let sh := kv_shards st in
  match op with
  | None => (noResult, m, sh)
  | Some Register => (mkResult false [] false index [] false, m, sh)
  | Some (OpPut k v) => if writable sh k then (success, <[k := v]> m, sh) else (moving, m, sh)
  | Some (OpDelete k) => if writable sh k then (success, delete k m, sh) else (moving, m, sh)
  | Some (OpCas k x v) =>
      if writable sh k then
        (read_result (m !! k) (cas_ok x (m !! k)), if cas_ok x (m !! k) then <[k := v]> m else m, sh)
      else (moving, m, sh)
  | Some (OpGet k) => if readable sh k then (read_result (m !! k) false, m, sh) else (moving, m, sh)
  | Some (OpScan a b n x) => (mkResult false [] false 0 (kv_scan a b (N.to_nat n) (N.to_nat x) m) false, m, sh)
  | Some (Freeze s) =>
      (success, m, if bool_decide (shard_state sh s = shardGone) then sh else <[s := shardFrozen]> sh)
  | Some (Import s l last) =>
      if bool_decide (is_Some (sh !! s)) && negb (bool_decide (shard_state sh s = shardGone)) then (noResult, m, sh)
      else (success, put_kvs l m, if last then <[s := shardOpen]> sh else sh)
  | Some (Purge s) => (success, filter (fun kv => ShardOf kv.1 <> s) m, <[s := shardGone]> sh)
  end.

Definition record_session (id : N) (sess : session) (m : gmap N session) : gmap N session :=
  if (id =? 0)%N then m else <[id := sess]> m.

Section Spec.
Context (unmarshal : bytes -> option Command) (marshal : Result -> bytes).

Definition kv_step (cmd : Command) (index : N) (st : kvs) : kvs * bytes :=
  match duplicate cmd (kv_sessions st) with
  | Some result => (mkKvs (kv_data st) (kv_sessions st) (kv_shards st) index, result)
  | None =>
      let '(res, m, sh) := kv_exec (cmd_Op cmd) index st in
      let sessions := record_session (cmd_ClientId cmd) (mkSession (cmd_Seq cmd) (marshal res)) (kv_sessions st) in
      let sessions := record_session (res_ClientId res) (mkSession 0 []) sessions in
      (mkKvs m sessions sh index, marshal res)
  end.
End Spec.

(** ** The layout in the engine *)

Definition valid_session (id : N) (sess : session) : Prop := (id < w64)%N /\ (s_seq sess < w64)%N.

Record repr (m : gmap bytes bytes) (st : kvs) : Prop := {
  rp_data : forall k, m !! dbKey k = kv_data st !! k;
  rp_session : forall id sess, kv_sessions st !! id = Some sess ->
    valid_session id sess /\ m !! sessionKey id = Some (encodeSession (s_seq sess) (s_result sess));
  rp_session_inv : forall k v, m !! (prefixSession :: k) = Some v ->
    exists id sess, prefixSession :: k = sessionKey id /\ kv_sessions st !! id = Some sess;
  rp_shard : forall s b, kv_shards st !! s = Some b -> (s < w32)%N /\ m !! shardKey s = Some [b];
  rp_shard_inv : forall k v, m !! k = Some v -> in_range shardPrefix (Some shardStop) k ->
    exists s b, k = shardKey s /\ kv_shards st !! s = Some b;
  rp_applied : (kv_applied st < w64)%N /\
    match m !! appliedKey with Some v => v = be_put 8 (kv_applied st) | None => kv_applied st = 0%N end;
}.

(** ** Shard keys *)

Lemma digits_scan fuel n acc rest :
  (n < 10 ^ N.of_nat fuel)%N -> 0 < fuel ->
  exists e, (n < 10 ^ e)%N /\
  scan_digits (digits fuel n ++ rest) acc = scan_digits rest (acc * 10 ^ e + n).
Proof.
  revert n acc rest. induction fuel as [|fuel IH]; intros n acc rest Hn Hf; [lia|].
  cbn [digits]. destruct (N.ltb_spec n 10) as [Hlt|Hge].
  - exists 1%N. split; [by rewrite N.pow_1_r|]. cbn [app scan_digits]. rewrite bval_bof_small by lia.
    destruct (N.leb_spec 48 (48 + n)); [|lia]. destruct (N.leb_spec (48 + n) 57); [|lia]. simpl.
    f_equal. rewrite N.pow_1_r. lia.
  - rewrite Nat2N.inj_succ, N.pow_succ_r' in Hn.
    assert (n mod 10 < 10)%N by (apply N.mod_lt; lia).
    assert (n = 10 * (n / 10) + n mod 10)%N as Hdm by (apply N.div_mod; lia).
    destruct (IH (n / 10)%N acc ([bof (48 + n mod 10)] ++ rest)) as (e & He & Heq).
    { apply N.Div0.div_lt_upper_bound. lia. } { destruct fuel; [simpl in Hn; lia|lia]. }
    exists (N.succ e). rewrite N.pow_succ_r', <-app_assoc, Heq. clear Heq IH.
    generalize dependent (10 ^ e)%N. generalize dependent (n / 10)%N. generalize dependent (n mod 10)%N.
    intros r Hr q Hdm P He. split; [lia|]. cbn [app scan_digits]. rewrite bval_bof_small by lia.
    destruct (N.leb_spec 48 (48 + r)); [|lia]. destruct (N.leb_spec (48 + r) 57); [|lia]. cbn [andb].
    f_equal. rewrite N.mul_add_distr_r. replace (acc * (10 * P))%N with (acc * P * 10)%N by ring. lia.
Qed.

(** A shard's key names it. *)
Lemma shardKey_scan s :
  (s < w32)%N -> scan_digits (drop (length shardPrefix) (shardKey s)) 0 = s.
Proof.
  intros Hs. unfold shardKey. rewrite drop_app_length.
  assert (s < 10 ^ N.of_nat 10)%N as Hb by (change (10 ^ N.of_nat 10)%N with 10000000000%N; unfold w32 in Hs; lia).
  destruct (digits_scan 10 s 0 [] Hb ltac:(lia)) as (e & _ & He). rewrite app_nil_r in He.
  rewrite N.mul_0_l, N.add_0_l in He. by destruct (s <? 10)%N.
Qed.

Lemma shardKey_inj s s' : (s < w32)%N -> (s' < w32)%N -> shardKey s = shardKey s' -> s = s'.
Proof. intros H1 H2 E. rewrite <-(shardKey_scan s H1), <-(shardKey_scan s' H2). by rewrite E. Qed.

Lemma sessionKey_inj i j : (i < w64)%N -> (j < w64)%N -> sessionKey i = sessionKey j -> i = j.
Proof.
  intros Hi Hj E. apply (f_equal (drop 1)) in E. change (be_put 8 i = be_put 8 j) in E. apply (f_equal be_get) in E.
  rewrite !be_get_put, !N.mod_small in E by done. done.
Qed.
