(* ===== verification/KvRefine.v ===== *)
(** * The state machine implements its specification

    Over any engine that keeps its promises, [Apply] is a step of [KvSpec],
    in memory and in the engine alike, so that loading after a restart or a
    snapshot gives back the same state. *)

From stdpp Require Import base list gmap sorting.
From S2P Require Import Prelude Codec Key Batch LogStore KeyHash Db StateMachine KvSpec.

(** ** Key spaces *)

Lemma in_range_byte (c : byte) k :
  (bval c < 255)%N ->
  in_range [c] (Some [bof (bval c + 1)]) k <-> exists k', k = c :: k'.
Proof.
  intros Hc. unfold in_range. destruct k as [|b k]; simpl; [split; [by intros []|by intros [? ?]]|].
  rewrite bval_bof_small by lia. split.
  - intros [H1 H2]. exists k. f_equal. apply (inj bval).
    destruct (N.compare_spec (bval c) (bval b)), (N.compare_spec (bval b) (bval c + 1)); try done; try lia; by destruct k.
  - intros [k' [= -> ->]]. rewrite N.compare_refl.
    destruct (N.compare_spec (bval c) (bval c + 1)); try lia. split; [by destruct k'|done].
Qed.

Lemma bcmp_prefix a b : bcmp a (a ++ b) <> Gt.
Proof. induction a as [|x a IH]; simpl; [by destruct b|]. by rewrite N.compare_refl. Qed.

Lemma shardKey_in_range s : in_range shardPrefix (Some shardStop) (shardKey s).
Proof. unfold shardKey. split; [apply bcmp_prefix|]. reflexivity. Qed.

Lemma dbKey_not_shard k : ~ in_range shardPrefix (Some shardStop) (dbKey k).
Proof. intros [H _]. by apply H. Qed.

Lemma sessionKey_not_shard k : ~ in_range shardPrefix (Some shardStop) (prefixSession :: k).
Proof. by intros [_ H]. Qed.

Lemma appliedKey_not_shard : ~ in_range shardPrefix (Some shardStop) appliedKey.
Proof. intros [H _]. by apply H. Qed.

Lemma shardKey_head s : exists k, shardKey s = "m"%byte :: "s"%byte :: k.
Proof. unfold shardKey. eexists. reflexivity. Qed.

#[export] Hint Resolve dbKey_not_shard sessionKey_not_shard appliedKey_not_shard shardKey_in_range : keystone.

(** ** Writes to the layout *)

Definition with_data (f : gmap bytes bytes -> gmap bytes bytes) (st : kvs) : kvs :=
  mkKvs (f (kv_data st)) (kv_sessions st) (kv_shards st) (kv_applied st).
Definition with_sessions (f : gmap N session -> gmap N session) (st : kvs) : kvs :=
  mkKvs (kv_data st) (f (kv_sessions st)) (kv_shards st) (kv_applied st).
Definition with_shards (f : gmap N byte -> gmap N byte) (st : kvs) : kvs :=
  mkKvs (kv_data st) (kv_sessions st) (f (kv_shards st)) (kv_applied st).
Definition with_applied (i : N) (st : kvs) : kvs :=
  mkKvs (kv_data st) (kv_sessions st) (kv_shards st) i.

(** A change of user keys only. *)
Lemma repr_data m m' st d :
  repr m st -> (forall k, m' !! dbKey k = d !! k) ->
  (forall k, (forall k', k <> dbKey k') -> m' !! k = m !! k) ->
  repr m' (with_data (fun _ => d) st).
Proof.
  intros [H1 H2 H3 H4 H5 H6] Hd Ho.
  assert (forall s, m' !! shardKey s = m !! shardKey s) as Hsh.
  { intros s. apply Ho. intros k'. destruct (shardKey_head s) as [k ->]. done. }
  constructor; simpl; auto.
  - intros id sess Hs. rewrite Ho by done. by apply H2.
  - intros k v. rewrite Ho by done. apply H3.
  - intros s b Hs. rewrite Hsh. by apply H4.
  - intros k v Hk Hr. rewrite Ho in Hk; [eauto|]. intros k' ->. by apply dbKey_not_shard in Hr.
  - rewrite Ho by done. auto.
Qed.

Lemma repr_put m st k v : repr m st -> repr (<[dbKey k := v]> m) (with_data (<[k := v]>) st).
Proof.
  intros H. apply (repr_data m _ st (<[k := v]> (kv_data st)) H).
  - intros k'. destruct (decide (k' = k)) as [->|Hne]; [by rewrite !lookup_insert_eq|].
    rewrite !lookup_insert_ne by (unfold dbKey; congruence). apply H.
  - intros k' Hk. rewrite lookup_insert_ne; [done|]. intros E. by apply (Hk k).
Qed.

Lemma repr_delete m st k : repr m st -> repr (delete (dbKey k) m) (with_data (delete k) st).
Proof.
  intros H. apply (repr_data m _ st (delete k (kv_data st)) H).
  - intros k'. destruct (decide (k' = k)) as [->|Hne]; [by rewrite !lookup_delete_eq|].
    rewrite !lookup_delete_ne by (unfold dbKey; congruence). apply H.
  - intros k' Hk. rewrite lookup_delete_ne; [done|]. intros E. by apply (Hk k).
Qed.

Lemma repr_session m st id sess :
  repr m st -> valid_session id sess ->
  repr (<[sessionKey id := encodeSession (s_seq sess) (s_result sess)]> m) (with_sessions (<[id := sess]>) st).
Proof.
  intros [H1 H2 H3 H4 H5 H6] Hv. constructor; simpl.
  - intros k. by rewrite lookup_insert_ne.
  - intros id' sess' Hs. destruct (decide (id' = id)) as [->|Hne].
    + rewrite lookup_insert_eq in Hs. injection Hs as <-. by rewrite lookup_insert_eq.
    + rewrite lookup_insert_ne in Hs by done. destruct (H2 _ _ Hs) as [Hv' Hm]. split; [done|].
      rewrite lookup_insert_ne; [done|]. intros E. apply Hne. symmetry. apply sessionKey_inj; [apply Hv|apply Hv'|done].
  - intros k v Hk. destruct (decide (prefixSession :: k = sessionKey id)) as [E|Hne].
    + exists id, sess. by rewrite lookup_insert_eq.
    + rewrite lookup_insert_ne in Hk by done. destruct (H3 _ _ Hk) as (id' & sess' & E & Hs).
      exists id', sess'. split; [done|]. rewrite lookup_insert_ne; [done|]. intros <-. done.
  - intros s b Hs. rewrite lookup_insert_ne by (destruct (shardKey_head s) as [k ->]; done). by apply H4.
  - intros k v Hk Hr. rewrite lookup_insert_ne in Hk; [eauto|]. intros <-. by apply sessionKey_not_shard in Hr.
  - by rewrite lookup_insert_ne.
Qed.

Lemma repr_shard m st s b :
  repr m st -> (s < w32)%N -> repr (<[shardKey s := [b]]> m) (with_shards (<[s := b]>) st).
Proof.
  intros [H1 H2 H3 H4 H5 H6] Hs. destruct (shardKey_head s) as [kk Ekk]. constructor; simpl.
  - intros k. rewrite lookup_insert_ne by (rewrite Ekk; done). apply H1.
  - intros id sess Hx. rewrite lookup_insert_ne by (rewrite Ekk; done). by apply H2.
  - intros k v. rewrite lookup_insert_ne by (rewrite Ekk; done). apply H3.
  - intros s' b' Hx. destruct (decide (s' = s)) as [->|Hne].
    + rewrite lookup_insert_eq in Hx. injection Hx as <-. by rewrite lookup_insert_eq.
    + rewrite lookup_insert_ne in Hx by done. destruct (H4 _ _ Hx) as [Hlt Hm]. split; [done|].
      rewrite lookup_insert_ne; [done|]. intros E. apply Hne. symmetry. by apply shardKey_inj.
  - intros k v Hk Hr. destruct (decide (k = shardKey s)) as [->|Hne].
    + exists s, b. by rewrite lookup_insert_eq.
    + rewrite lookup_insert_ne in Hk by done. destruct (H5 _ _ Hk Hr) as (s' & b' & -> & Hx).
      exists s', b'. split; [done|]. rewrite lookup_insert_ne; [done|]. by intros <-.
  - rewrite lookup_insert_ne by (rewrite Ekk; done). apply H6.
Qed.

Lemma repr_applied m st i :
  repr m st -> (i < w64)%N -> repr (<[appliedKey := be_put 8 i]> m) (with_applied i st).
Proof.
  intros [H1 H2 H3 H4 H5 H6] Hi. constructor; simpl.
  - intros k. by rewrite lookup_insert_ne.
  - intros id sess Hx. rewrite lookup_insert_ne by done. by apply H2.
  - intros k v. rewrite lookup_insert_ne by done. apply H3.
  - intros s b Hx. rewrite lookup_insert_ne by (destruct (shardKey_head s) as [k ->]; done). by apply H4.
  - intros k v Hk Hr. rewrite lookup_insert_ne in Hk; [eauto|]. intros <-. by apply appliedKey_not_shard in Hr.
  - by rewrite lookup_insert_eq.
Qed.

(** ** Loading *)

(** A loop that fills a map from encoded pairs. *)
Lemma load_fold {V} (f : bytes * bytes -> gmap N V -> go (gmap N V)) (K : N -> bytes) (E : V -> bytes)
    (M : gmap N V) l acc :
  (forall id x m, M !! id = Some x -> f (K id, E x) m = Ret (<[id := x]> m)) ->
  (forall i j, is_Some (M !! i) -> is_Some (M !! j) -> K i = K j -> i = j) ->
  (forall kv, kv ∈ l -> exists id x, kv = (K id, E x) /\ M !! id = Some x) ->
  exists R, go_foldl f l acc = Ret R /\
    forall id, (is_Some (M !! id) -> K id ∈ l.*1 -> R !! id = M !! id) /\
      (~ (is_Some (M !! id) /\ K id ∈ l.*1) -> R !! id = acc !! id).
Proof.
  intros Hf Hinj. revert acc. induction l as [|kv l IH]; intros acc Hl; simpl.
  { exists acc. split; [done|]. intros id. split; [by intros _ ?%not_elem_of_nil|done]. }
  destruct (Hl kv) as (i & x & -> & Hi); [apply list_elem_of_here|]. rewrite Hf by done. cbn [mbind go_bind].
  destruct (IH (<[i := x]> acc)) as (R & HR & Hlk).
  { intros kv' Hin. apply Hl. by apply list_elem_of_further. }
  exists R. split; [done|]. intros id. destruct (Hlk id) as [H1 H2]. simpl. split.
  - intros Hs Hin. destruct (decide (K id ∈ l.*1)) as [Hin'|Hn]; [auto|].
    apply elem_of_cons in Hin as [Hin|Hin]; [|done]. assert (id = i) as -> by (apply Hinj; eauto).
    rewrite H2 by tauto. by rewrite lookup_insert_eq.
  - intros Hn. rewrite H2.
    + apply lookup_insert_ne. intros ->. apply Hn. split; [eauto|apply list_elem_of_here].
    + intros [Hs Hin]. apply Hn. split; [done|by apply list_elem_of_further].
Qed.

Lemma load_fold_all {V} (f : bytes * bytes -> gmap N V -> go (gmap N V)) (K : N -> bytes) (E : V -> bytes)
    (M : gmap N V) l :
  (forall id x m, M !! id = Some x -> f (K id, E x) m = Ret (<[id := x]> m)) ->
  (forall i j, is_Some (M !! i) -> is_Some (M !! j) -> K i = K j -> i = j) ->
  (forall kv, kv ∈ l -> exists id x, kv = (K id, E x) /\ M !! id = Some x) ->
  (forall id x, M !! id = Some x -> (K id, E x) ∈ l) ->
  go_foldl f l ∅ = Ret M.
Proof.
  intros H1 H2 H3 H4. destruct (load_fold f K E M l ∅ H1 H2 H3) as (R & -> & Hlk). f_equal.
  apply map_eq. intros id. destruct (Hlk id) as [HA HB]. destruct (M !! id) as [x|] eqn:Ex.
  - rewrite HA; [done|eauto|]. apply list_elem_of_fmap. exists (K id, E x). auto.
  - rewrite HB; [apply lookup_empty|]. intros [[? ?] _]. done.
Qed.

Lemma be_uint_put8 x rest : (x < w64)%N -> be_uint 8 (be_put 8 x ++ rest) = Ret x.
Proof. intros. by apply be_uint_put. Qed.

Lemma decodeSession_encode seq result :
  (seq < w64)%N -> decodeSession (encodeSession seq result) = Ret (mkSession seq result).
Proof.
  intros Hs. unfold decodeSession, encodeSession. rewrite be_uint_put8 by done. cbn [mbind go_bind].
  by rewrite drop_app_length' by (by rewrite length_be_put).
Qed.

(** ** Scanning user keys *)

Definition db_pair (kv : bytes * bytes) : bytes * bytes := (dbKey kv.1, kv.2).

Definition user_stop (stop : option bytes) : bytes :=
  match stop with Some e => dbKey e | None => [bof (bval prefixKey + 1)] end.

Lemma bcmp_dbKey a b : bcmp (dbKey a) (dbKey b) = bcmp a b.
Proof. done. Qed.

Lemma in_range_user start stop k :
  in_range (dbKey start) (Some (user_stop stop)) k <-> exists u, k = dbKey u /\ in_range start stop u.
Proof.
  split.
  - intros [Hlo Hhi].
    assert (exists u, k = dbKey u) as [u ->].
    { destruct k as [|c k]; [done|]. unfold user_stop, dbKey in *. cbn [bcmp] in Hlo.
      assert (bval c = bval prefixKey) as E; [|apply (inj bval) in E as ->; by exists k].
      change (bval prefixKey) with 107%N in *.
      destruct stop as [e|]; cbn [bcmp] in Hhi; [change (bval prefixKey) with 107%N in Hhi|
        change (bval (bof (107 + 1))) with 108%N in Hhi];
        destruct (N.compare_spec 107 (bval c)); try done; try lia;
        match type of Hhi with context [N.compare ?a ?b] => destruct (N.compare_spec a b) end; try done; try lia;
        by destruct k. }
    exists u. split; [done|]. split; [done|]. by destruct stop.
  - intros (u & -> & Hlo & Hhi). split; [done|]. destruct stop as [e|]; [done|]. reflexivity.
Qed.

Lemma range_user m st start stop :
  repr m st -> range (dbKey start) (Some (user_stop stop)) m = db_pair <$> range start stop (kv_data st).
Proof.
  intros H. apply kv_sorted_unique; [apply range_sorted| |].
  - pose proof (range_sorted start stop (kv_data st)) as Hs. induction Hs as [|x l _ IH Hall]; [constructor|].
    cbn [fmap list_fmap]. constructor; [done|]. rewrite Forall_forall in Hall. apply Forall_forall.
    intros y (z & -> & Hz)%list_elem_of_fmap. by apply Hall.
  - intros [k v]. rewrite elem_of_range, list_elem_of_fmap. split.
    + intros [Hk (u & -> & Hu)%in_range_user]. exists (u, v). split; [done|]. apply elem_of_range.
      by rewrite <-(rp_data _ _ H).
    + intros ([u w] & [= -> ->] & [Hu Hr]%elem_of_range). rewrite (rp_data _ _ H). split; [done|].
      apply in_range_user. eauto.
Qed.

Lemma take_kvs_bounded limit maxBytes l n size :
  take_kvs limit maxBytes (db_pair <$> l) n size = bounded limit maxBytes l n size.
Proof.
  revert n size. induction l as [|[k v] l IH]; intros n size; [done|]. cbn [fmap list_fmap take_kvs bounded].
  destruct (_ && _); [done|]. simpl. rewrite Nat.sub_0_r. f_equal. rewrite IH. done.
Qed.

(** ** Batches *)

Definition after (b : Batch) (m : gmap bytes bytes) : gmap bytes bytes := apply_ops (b_ops b) m.

Lemma after_put b k v m : after (Batch_Put b k v) m = <[k := v]> (after b m).
Proof. unfold after, apply_ops. simpl. by rewrite foldl_app. Qed.

Lemma after_delete b k m : after (Batch_Delete b k) m = delete k (after b m).
Proof. unfold after, apply_ops. simpl. by rewrite foldl_app. Qed.

Definition keys_ok (b : Batch) : Prop := Forall (fun op => op_key op <> []) (b_ops b).

Lemma keys_ok_put b k v : keys_ok b -> k <> [] -> keys_ok (Batch_Put b k v).
Proof. intros H Hk. apply Forall_app. split; [done|by constructor]. Qed.
Lemma keys_ok_delete b k : keys_ok b -> k <> [] -> keys_ok (Batch_Delete b k).
Proof. intros H Hk. apply Forall_app. split; [done|by constructor]. Qed.

Lemma import_batch kvs b m st :
  repr (after b m) st -> keys_ok b ->
  let b' := foldl (fun b kv => Batch_Put b (dbKey (kv_Key kv)) (kv_Value kv)) b kvs in
  repr (after b' m) (with_data (put_kvs kvs) st) /\ keys_ok b'.
Proof.
  revert b st. induction kvs as [|kv kvs IH]; intros b st H Hk; simpl; [by destruct st|].
  destruct (IH (Batch_Put b (dbKey (kv_Key kv)) (kv_Value kv)) (with_data (<[kv_Key kv := kv_Value kv]>) st)) as [H1 H2].
  { rewrite after_put. by apply repr_put. } { by apply keys_ok_put. }
  split; [exact H1|done].
Qed.

(** Deleting the keys of one shard. *)
Lemma purge_batch shard (l : list (bytes * bytes)) b m st :
  repr (after b m) st -> keys_ok b -> Forall (fun kv => exists u, kv.1 = dbKey u) l ->
  let b' := foldl (fun b kv => if (ShardOf (drop 1 kv.1) =? shard)%N then Batch_Delete b kv.1 else b) b l in
  repr (after b' m)
    (with_data (filter (fun kv => ~ (ShardOf kv.1 = shard /\ dbKey kv.1 ∈ l.*1))) st) /\ keys_ok b'.
Proof.
  revert b st. induction l as [|kv l IH]; intros b st H Hk Hl; cbn [foldl]; rewrite ?fmap_cons.
  { split; [|done]. destruct st as [d ss sh ap]. unfold with_data. simpl.
    rewrite map_filter_id; [done|]. by intros k v _ [_ ?%not_elem_of_nil]. }
  apply Forall_cons in Hl as [[u Hu] Hl]. rewrite Hu. change (drop 1 (dbKey u)) with u.
  destruct (N.eqb_spec (ShardOf u) shard) as [E|E].
  - destruct (IH (Batch_Delete b (dbKey u)) (with_data (delete u) st)) as [H1 H2]; [| |done|].
    { rewrite after_delete. by apply repr_delete. } { by apply keys_ok_delete. }
    split; [|done]. replace (with_data _ st) with
      (with_data (filter (fun kv => ~ (ShardOf kv.1 = shard /\ dbKey kv.1 ∈ l.*1))) (with_data (delete u) st)); [done|].
    unfold with_data. simpl. f_equal. apply map_eq. intros k. apply option_eq. intros v.
    rewrite !map_lookup_filter_Some, lookup_delete_Some. simpl. rewrite elem_of_cons. split.
    + intros [[Hne Hv] Hnot]. split; [done|]. intros [Hs [[= ->]|Hin]]; [done|]. by apply Hnot.
    + intros [Hv Hnot]. split_and!; [|done|].
      * intros <-. apply Hnot. split; [done|by left].
      * intros [Hs Hin]. apply Hnot. split; [done|by right].
  - destruct (IH b st H Hk Hl) as [H1 H2]. split; [|done].
    replace (with_data _ st) with (with_data (filter (fun kv => ~ (ShardOf kv.1 = shard /\ dbKey kv.1 ∈ l.*1))) st); [done|].
    unfold with_data. simpl. f_equal. apply map_filter_ext. intros k v _. simpl. rewrite elem_of_cons. split.
    + intros Hnot [Hs [[= ->]|Hin]]; [done|]. by apply Hnot.
    + intros Hnot [Hs Hin]. apply Hnot. split; [done|by right].
Qed.

Section Refine.
Context {D : Type} `{HDB : DB D} `{HOK : !DBOK D}.
Context (unmarshal : bytes -> option Command) (marshal : Result -> bytes).

(** Some call to the engine failed. *)
Definition db_failed (db : D) : Prop :=
  (exists k, fails (db_Get k db)) \/ (exists a b, fails (db_Scan a b db)) \/
  (exists b, fails (db_Write b db)).

(** The state machine holds [st], in memory and in the engine. *)
Definition sm_holds (s : StateMachine (D := D)) (st : kvs) : Prop :=
  db_ok (sm_db s) /\ repr (db_view (sm_db s)) st /\
  sm_applied s = kv_applied st /\ sm_sessions s = kv_sessions st /\ sm_shards s = kv_shards st.

Lemma load_cases db st :
  db_ok db -> repr (db_view db) st ->
  load db = Ret (mkSM db (kv_applied st) (kv_sessions st) (kv_shards st)) \/
  (db_failed db /\ forall s, load db <> Ret s).
Proof.
  intros Hok [H1 H2 H3 H4 H5 [H6 H7]]. unfold load.
  destruct (db_Get_ok appliedKey db Hok) as [Hg|Hg];
    [|right; split; [left; by eauto|]; intros s; destruct (db_Get appliedKey db) as [|[]|]; done].
  rewrite Hg.
  assert (match match db_view db !! appliedKey with Some v => Ret v | None => Fail ErrNotFound end with
    | Ret v => be_uint 8 v | Fail ErrNotFound => Ret 0%N | Fail e => Fail e | Panic => Panic end = Ret (kv_applied st)) as ->.
  { destruct (db_view db !! appliedKey) as [v|]; [|by rewrite H7]. subst v.
    rewrite <-(app_nil_r (be_put 8 _)). by apply be_uint_put8. }
  cbn [mbind go_bind].
  destruct (db_Scan_ok [prefixSession] (Some [bof (bval prefixSession + 1)]) db Hok) as [Hs|Hs];
    [|right; split; [right; left; by eauto|]; intros s; by destruct (db_Scan [prefixSession] _ db)].
  rewrite Hs. cbn [mbind go_bind].
  rewrite (load_fold_all load_session sessionKey (fun x => encodeSession (s_seq x) (s_result x)) (kv_sessions st)).
  - cbn [mbind go_bind]. destruct (db_Scan_ok shardPrefix (Some shardStop) db Hok) as [Hh|Hh];
      [left|right; split; [right; left; by eauto|]; intros s; by destruct (db_Scan shardPrefix _ db)].
    rewrite Hh. cbn [mbind go_bind]. rewrite (load_fold_all load_shard shardKey (fun b => [b]) (kv_shards st)).
    + done.
    + intros s b m Hs'. unfold load_shard. simpl fst. simpl snd. cbn [mbind go_bind].
      by rewrite shardKey_scan by (by apply (H4 s b)).
    + intros i j [? Hi] [? Hj]. apply shardKey_inj; [by apply (H4 _ _ Hi)|by apply (H4 _ _ Hj)].
    + intros [k v] [Hk Hr]%elem_of_range. destruct (H5 _ _ Hk Hr) as (s & b & -> & Hsb).
      exists s, b. split; [|done]. destruct (H4 _ _ Hsb) as [_ Hm]. congruence.
    + intros s b Hsb. apply elem_of_range. split; [by apply H4|apply shardKey_in_range].
  - intros id [sq rs] m Hx. unfold load_session. simpl fst. simpl snd.
    destruct (H2 _ _ Hx) as [[Hid Hsq] _]. simpl in Hsq. change (drop 1 (sessionKey id)) with (be_put 8 id).
    rewrite <-(app_nil_r (be_put 8 id)), be_uint_put8, decodeSession_encode by done. done.
  - intros i j [? Hi] [? Hj]. apply sessionKey_inj; [by apply (H2 _ _ Hi)|by apply (H2 _ _ Hj)].
  - intros [k v] [Hk Hr]%elem_of_range. apply in_range_byte in Hr as [k' ->]; [|vm_compute; reflexivity].
    destruct (H3 _ _ Hk) as (id & sess & E & Hx). exists id, sess. split; [|done].
    destruct (H2 _ _ Hx) as [_ Hm]. rewrite E in *. congruence.
  - intros id sess Hx. apply elem_of_range. split; [by apply H2|].
    apply in_range_byte; [vm_compute; reflexivity|]. by exists (be_put 8 id).
Qed.

Lemma load_ok db st :
  db_ok db -> repr (db_view db) st ->
  load db = Ret (mkSM db (kv_applied st) (kv_sessions st) (kv_shards st)) \/ db_failed db.
Proof. intros Hok Hr. destruct (load_cases db st Hok Hr) as [|[? _]]; auto. Qed.

(** What is loaded is what the engine holds. *)
Lemma load_holds db st s : db_ok db -> repr (db_view db) st -> load db = Ret s -> sm_db s = db /\ sm_holds s st.
Proof.
  intros Hok Hr Hl. destruct (load_cases db st Hok Hr) as [Hs|[_ Hn]]; [|by apply Hn in Hl].
  rewrite Hl in Hs. injection Hs as ->. done.
Qed.

Definition op_valid (op : option Op) : Prop :=
  match op with
  | Some (Freeze s) | Some (Purge s) | Some (Import s _ _) => (s < w32)%N
  | _ => True
  end.

(** Fields have the widths of the message definitions. *)
Definition cmd_valid (cmd : Command) : Prop :=
  (cmd_ClientId cmd < w64)%N /\ (cmd_Seq cmd < w64)%N /\ op_valid (cmd_Op cmd).

Definition exec_to (st : kvs) (d : gmap bytes bytes) (sh : gmap N byte) : kvs :=
  mkKvs d (kv_sessions st) sh (kv_applied st).

Lemma get_ok k s st :
  sm_holds s st ->
  get k (sm_db s) = Ret (kv_data st !! k) \/ (or_panic (get k (sm_db s)) = Panic /\ db_failed (sm_db s)).
Proof.
  intros (Hok & Hr & _). unfold get. destruct (db_Get_ok (dbKey k) _ Hok) as [-> |Hf].
  2:{ right. split; [|left; eauto]. destruct (db_Get (dbKey k) (sm_db s)) as [|[]|]; done. }
  left. rewrite (rp_data _ _ Hr). by destruct (kv_data st !! k).
Qed.

Lemma scan_ok start stop limit maxBytes s st :
  sm_holds s st ->
  scan start stop limit maxBytes (sm_db s) = Ret (kv_scan start stop limit maxBytes (kv_data st)) \/
  (or_panic (scan start stop limit maxBytes (sm_db s)) = Panic /\ db_failed (sm_db s)).
Proof.
  intros (Hok & Hr & _). unfold scan, kv_scan.
  assert ((if length stop =? 0 then [bof (bval prefixKey + 1)] else dbKey stop) =
    user_stop (if length stop =? 0 then None else Some stop)) as ->.
  { by destruct (length stop =? 0). }
  destruct (db_Scan_ok (dbKey start) (Some (user_stop (if length stop =? 0 then None else Some stop))) _ Hok)
    as [-> |Hf].
  2:{ right. split; [|right; left; eauto]. by destruct (db_Scan _ _ (sm_db s)). }
  left. cbn [mbind go_bind]. by rewrite (range_user _ _ _ _ Hr), take_kvs_bounded.
Qed.

(** Every command, on every branch. *)
Lemma execute_ok op index s st :
  sm_holds s st -> op_valid op ->
  let '(res, d, sh) := kv_exec op index st in
  (exists batch, execute op index s emptyBatch = Ret (res, batch, sh) /\
     repr (after batch (db_view (sm_db s))) (exec_to st d sh) /\ keys_ok batch) \/
  (execute op index s emptyBatch = Panic /\ db_failed (sm_db s)).
Proof.
  intros Hs Hv. pose proof Hs as (Hok & Hr & _ & _ & Hsh). set (m := db_view (sm_db s)) in *.
  assert (keys_ok emptyBatch) as Hk by constructor.
  assert (repr (after emptyBatch m) st) as Hr0 by exact Hr.
  assert (repr (after emptyBatch m) (exec_to st (kv_data st) (kv_shards st))) as Hr1 by (by destruct st).
  unfold execute, kv_exec. rewrite Hsh.
  destruct op as [[|k v|k|k x v|k|a b n mb|sd|sd l last|sd]|]; try (left; by eauto).
  - destruct (writable _ k); left; [|by eauto]. eexists. split; [done|]. split; [|by apply keys_ok_put].
    rewrite after_put. apply (repr_put _ _ k v Hr0).
  - destruct (writable _ k); left; [|by eauto]. eexists. split; [done|]. split; [|by apply keys_ok_delete].
    rewrite after_delete. apply (repr_delete _ _ k Hr0).
  - destruct (writable _ k); [|left; by eauto]. destruct (get_ok k s st Hs) as [-> |[-> Hf]]; [|by right].
    left. cbn [or_panic mbind go_bind]. unfold read_result, cas_ok.
    assert ((match x with None => bool_decide (kv_data st !! k = None) | Some y => bool_decide (kv_data st !! k = Some y) end) =
      bool_decide (kv_data st !! k = x)) as -> by (destruct x; by apply bool_decide_ext).
    destruct (bool_decide (kv_data st !! k = x)); eexists; (split; [done|]); [|done].
    split; [|by apply keys_ok_put]. rewrite after_put. apply (repr_put _ _ k v Hr0).
  - destruct (readable _ k); [|left; by eauto]. destruct (get_ok k s st Hs) as [-> |[-> Hf]]; [|by right]. left. by eauto.
  - destruct (scan_ok a b (N.to_nat n) (N.to_nat mb) s st Hs) as [-> |[-> Hf]]; [|by right]. left. by eauto.
  - cbv beta iota. left. destruct (bool_decide _); [by eauto|]. eexists. split; [done|]. split; [|by apply keys_ok_put].
    rewrite after_put. apply (repr_shard _ _ sd shardFrozen Hr0 Hv).
  - destruct (_ && _); left; [by eauto|].
    destruct (import_batch l emptyBatch m st Hr0 Hk) as [Hi Hki]. cbv zeta in Hi, Hki.
    destruct last; eexists; (split; [done|]); [|done]. split; [|by apply keys_ok_put].
    rewrite after_put. apply (repr_shard _ _ sd shardOpen Hi Hv).
  - destruct (db_Scan_ok [prefixKey] (Some [bof (bval prefixKey + 1)]) _ Hok) as [Hsc|Hf].
    2:{ cbv beta iota. right. split; [|right; left; eauto]. by destruct (db_Scan _ _ (sm_db s)). }
    cbv beta iota. left. rewrite Hsc. cbn [or_panic mbind go_bind]. fold m.
    change (range [prefixKey] (Some [bof (bval prefixKey + 1)]) m) with (range (dbKey []) (Some (user_stop None)) m).
    rewrite (range_user m st [] None Hr).
    destruct (purge_batch sd (db_pair <$> range [] None (kv_data st)) emptyBatch m st Hr0 Hk) as [Hp Hkp].
    { apply Forall_fmap, Forall_forall. intros kv _. by exists kv.1. }
    cbv zeta in Hp, Hkp. eexists. split; [done|]. split; [|by apply keys_ok_put].
    rewrite after_put.
    replace (exec_to st _ _) with (with_shards (<[sd := shardGone]>) (with_data (filter (fun kv =>
      ~ (ShardOf kv.1 = sd /\ dbKey kv.1 ∈ (db_pair <$> range [] None (kv_data st)).*1))) st));
      [by apply (repr_shard _ _ sd shardGone Hp Hv)|].
    unfold with_shards, with_data, exec_to. simpl. f_equal. apply map_filter_ext. intros k v Hkv. simpl.
    split; [|tauto]. intros Hn Hs'. apply Hn. split; [done|].
    apply list_elem_of_fmap. exists (db_pair (k, v)). split; [done|].
    apply list_elem_of_fmap. exists (k, v). split; [done|]. apply elem_of_range. split; [done|]. split; [|done]. by destruct k.
Qed.

Lemma repr_record m st b id sess :
  repr (after b m) st -> keys_ok b -> (id <> 0%N -> valid_session id sess) ->
  let b' := if (id =? 0)%N then b else Batch_Put b (sessionKey id) (encodeSession (s_seq sess) (s_result sess)) in
  repr (after b' m) (with_sessions (record_session id sess) st) /\ keys_ok b'.
Proof.
  intros Hr Hk Hv. unfold record_session. destruct (N.eqb_spec id 0) as [->|Hne]; [by destruct st|].
  split; [|by apply keys_ok_put]. rewrite after_put. by apply (repr_session _ _ _ _ Hr), Hv.
Qed.

Lemma finish_ok index batch ss sh s st :
  sm_holds s st -> (index < w64)%N -> keys_ok batch ->
  forall d, repr (after batch (db_view (sm_db s))) (mkKvs d ss sh (kv_applied st)) ->
  (exists s', finish_apply index batch ss sh s = Ret s' /\ sm_holds s' (mkKvs d ss sh index)) \/
  (finish_apply index batch ss sh s = Panic /\ db_failed (sm_db s)).
Proof.
  intros (Hok & _) Hi Hk d Hr. unfold finish_apply.
  destruct (db_Write_ok (Batch_Put batch appliedKey (be_put 8 index)) (sm_db s) Hok) as [(db' & -> & Hok' & Hview)|Hf];
    [by apply keys_ok_put|..].
  - left. eexists. split; [done|]. split; [done|]. split; [|done]. simpl. rewrite Hview.
    change (apply_ops (b_ops ?b) ?m) with (after b m). rewrite after_put. by apply (repr_applied _ _ index Hr).
  - right. split; [|right; right; eauto]. by destruct (db_Write _ _).
Qed.

Lemma exec_client op index st : (index < w64)%N -> (res_ClientId (kv_exec op index st).1.1 < w64)%N.
Proof.
  intros Hi. unfold kv_exec. destruct op as [[]|]; simpl; try done; repeat case_match; done.
Qed.

(** One entry of the log. *)
Lemma Apply_ok e cmd s st :
  unmarshal (e_Data e) = Some cmd -> cmd_valid cmd -> (e_Index e < w64)%N -> sm_holds s st ->
  (exists s', Apply unmarshal marshal e s = Ret (s', (kv_step marshal cmd (e_Index e) st).2) /\
     sm_holds s' (kv_step marshal cmd (e_Index e) st).1) \/
  (Apply unmarshal marshal e s = Panic /\ db_failed (sm_db s)).
Proof.
  intros Hu (Hc1 & Hc2 & Hc3) Hi Hs. pose proof Hs as (Hok & Hr & Ha & Hss & Hsh).
  unfold Apply, kv_step. rewrite Hu, Hss. destruct (duplicate cmd (kv_sessions st)) as [r|].
  - destruct (finish_ok (e_Index e) emptyBatch (kv_sessions st) (sm_shards s) s st Hs Hi ltac:(constructor) (kv_data st))
      as [(s' & -> & Hs')|[-> Hf]].
    + rewrite Hsh. by destruct st.
    + left. exists s'. split; [done|]. simpl. by rewrite <-Hsh.
    + by right.
  - pose proof (execute_ok (cmd_Op cmd) (e_Index e) s st Hs Hc3) as Hex.
    pose proof (exec_client (cmd_Op cmd) (e_Index e) st Hi) as Hcl.
    destruct (kv_exec (cmd_Op cmd) (e_Index e) st) as [[res d] sh]. simpl in Hcl.
    destruct Hex as [(batch & -> & Hre & Hke)|[-> Hf]]; [|by right]. cbn [mbind go_bind].
    destruct (repr_record _ _ _ (cmd_ClientId cmd) (mkSession (cmd_Seq cmd) (marshal res)) Hre Hke) as [H1 H1k]; [done|].
    cbv zeta in H1, H1k.
    destruct (repr_record _ _ _ (res_ClientId res) (mkSession 0 []) H1 H1k) as [H2 H2k]; [done|]. cbv zeta in H2, H2k.
    simpl s_seq in *. simpl s_result in *.
    set (ss1 := record_session _ _ (kv_sessions st)) in *. set (ss2 := record_session _ _ ss1).
    match type of H2k with keys_ok ?x => set (b2 := x) in * end.
    destruct (finish_ok (e_Index e) b2 ss2 sh s st Hs Hi H2k d H2) as [(s' & Hfin & Hs')|[Hfin Hf]].
    + left. exists s'. split; [|exact Hs']. unfold b2, ss2, ss1, record_session in *.
      destruct (cmd_ClientId cmd =? 0)%N, (res_ClientId res =? 0)%N; by rewrite Hfin.
    + right. split; [|done]. unfold b2, ss2, ss1, record_session in *.
      destruct (cmd_ClientId cmd =? 0)%N, (res_ClientId res =? 0)%N; by rewrite Hfin.
Qed.
End Refine.
