(* ===== verification/KvReplica.v ===== *)
(** * The key-value store as a replicated state machine

    The store of kv/statemachine.go, over any engine, keeps the contract of
    the machines that raft/node.go drives, so the replicas of a group agree on
    the specification of the store.  Engines differ in what a crash keeps and
    in how they encode a snapshot; both are described against a reference
    engine, whose contents determine the bytes of a snapshot. *)

From stdpp Require Import base list gmap functions relations.
From S2P Require Import Prelude Codec Key Batch Db LogStore Raft Protocol Safety Cluster Node Replica ReplicaTheorems ReplicaReads KeyHash StateMachine KvSpec KvRefine.

(** ** What replication needs of an engine

    [ref d r]: the engine [d] has the contents of the reference [r].  A crash
    brings back one of the contents [db_was d]. *)
Class DBRef (D R : Type) `{DBOK D} `{DBOK R} := {
  ref : D -> R -> Prop;
  ref_empty : R;
  db_was : D -> R -> Prop;
  db_survives : D -> D -> Prop;
  ref_empty_ok : db_ok ref_empty /\ db_view ref_empty = ∅;
  ref_total (r : R) : ~ db_failed r;
  ref_ok d r : ref d r -> db_ok d /\ db_ok r /\ db_view d = db_view r;
  ref_Write b d r d' r' : ref d r -> keys_ok b -> db_Write b d = Ret d' -> db_Write b r = Ret r' ->
    ref d' r' /\ forall q, db_was d' q -> db_was d q \/ q = r';
  ref_Sync d r d' : ref d r -> db_Sync d = Ret d' -> ref d' r /\ forall q, db_was d' q -> db_was d q;
  ref_Export d r x : ref d r -> db_Export d = Ret x -> db_Export r = Ret x;
  ref_Restore x d q r d' : ref d q -> db_ok r -> db_Export r = Ret x -> db_Restore x d = Ret d' ->
    ref d' r /\ forall p, db_was d' p -> db_was d p \/ p = r;
  ref_survives d r d' : ref d r -> db_survives d d' ->
    exists q, db_was d q /\ ref d' q /\ forall p, db_was d' p -> db_was d p;
}.

(** ** The specification of a log *)

Section Log.
Context (unmarshal : bytes -> option Command) (marshal : Result -> bytes).

Definition kv_entry (e : Entry) (st : kvs) : kvs * bytes :=
  match unmarshal (e_Data e) with
  | Some cmd => kv_step marshal cmd (e_Index e) st
  | None => (mkKvs (kv_data st) (kv_sessions st) (kv_shards st) (e_Index e), [])
  end.

Definition kv_play1 (st : kvs) (e : Entry) : kvs :=
  if decide (e_Type e = EntryNormal) then (kv_entry e st).1 else st.

Definition kv_play (L : list Entry) : kvs := foldl kv_play1 kvs0 L.
End Log.

Section KvMachine.
Context {D R : Type} `{HD : DB D} `{HDOK : !DBOK D} `{HR : DB R} `{HROK : !DBOK R} `{Href : !DBRef D R}.
Context (unmarshal : bytes -> option Command) (marshal : Result -> bytes).

#[local] Abbreviation sm := (StateMachine (D := D)).
#[local] Abbreviation rsm := (StateMachine (D := R)).

(** Indexes are 64 bits wide: a log does not get past them. *)
#[global] Instance kv_Machine : Machine sm := {
  mc_Apply e x := if (e_Index e <? w64)%N then Apply unmarshal marshal e x else Panic;
  mc_LastApplied := sm_applied;
  mc_Snapshot := Snapshot;
  mc_Restore := Restore;
}.

(** ** The same writes *)

Lemma get_same k (x : sm) (a : rsm) st v :
  sm_holds x st -> sm_holds a st -> or_panic (get k (sm_db x)) = Ret v -> or_panic (get k (sm_db a)) = Ret v.
Proof.
  intros Hx Ha. destruct (get_ok k x st Hx) as [-> |[-> _]]; [|done].
  destruct (get_ok k a st Ha) as [-> |[_ Hf]]; [done|]. by apply ref_total in Hf.
Qed.

Lemma db_scan_same start stop (x : sm) (a : rsm) st l :
  sm_holds x st -> sm_holds a st -> db_view (sm_db x) = db_view (sm_db a) ->
  or_panic (db_Scan start stop (sm_db x)) = Ret l -> or_panic (db_Scan start stop (sm_db a)) = Ret l.
Proof.
  intros (Hx & _) (Ha & _) Hv. destruct (db_Scan_ok start stop _ Hx) as [-> |Hf]; [|by destruct (db_Scan start stop (sm_db x))].
  destruct (db_Scan_ok start stop _ Ha) as [-> |Hf]; [by rewrite Hv|].
  destruct (ref_total (sm_db a)). right. left. by exists start, stop.
Qed.

Lemma scan_same start stop limit maxBytes (x : sm) (a : rsm) st l :
  sm_holds x st -> sm_holds a st -> db_view (sm_db x) = db_view (sm_db a) ->
  or_panic (scan start stop limit maxBytes (sm_db x)) = Ret l -> or_panic (scan start stop limit maxBytes (sm_db a)) = Ret l.
Proof.
  intros Hx Ha Hv. destruct (scan_ok start stop limit maxBytes x st Hx) as [-> |[-> _]]; [|done].
  destruct (scan_ok start stop limit maxBytes a st Ha) as [-> |[_ Hf]]; [done|]. by apply ref_total in Hf.
Qed.

Lemma execute_same op index (x : sm) (a : rsm) st out :
  sm_holds x st -> sm_holds a st -> db_view (sm_db x) = db_view (sm_db a) ->
  execute op index x emptyBatch = Ret out -> execute op index a emptyBatch = Ret out.
Proof.
  intros Hx Ha Hv. pose proof Hx as (_ & _ & _ & _ & Hsx). pose proof Ha as (_ & _ & _ & _ & Hsa).
  unfold execute. rewrite Hsx, Hsa. destruct op as [[|k v|k|k y v|k|s t n mb|sd|sd l last|sd]|]; try done.
  - destruct (writable _ k); [|done]. destruct (or_panic (get k (sm_db x))) as [cur| |] eqn:Eg; [|done..].
    by rewrite (get_same k x a st cur Hx Ha Eg).
  - destruct (readable _ k); [|done]. destruct (or_panic (get k (sm_db x))) as [cur| |] eqn:Eg; [|done..].
    by rewrite (get_same k x a st cur Hx Ha Eg).
  - destruct (or_panic (scan s t _ _ (sm_db x))) as [l| |] eqn:Es; [|done..].
    by rewrite (scan_same _ _ _ _ x a st l Hx Ha Hv Es).
  - destruct (or_panic (db_Scan _ _ (sm_db x))) as [l| |] eqn:Es; [|done..].
    by rewrite (db_scan_same _ _ x a st l Hx Ha Hv Es).
Qed.

Lemma finish_writes {E} `{DB E} index batch ss sh (s s' : StateMachine (D := E)) :
  finish_apply index batch ss sh s = Ret s' -> db_Write (Batch_Put batch appliedKey (be_put 8 index)) (sm_db s) = Ret (sm_db s').
Proof. unfold finish_apply. destruct (db_Write _ (sm_db s)) eqn:Ew; [|done..]. by intros [= <-]. Qed.

(** Applying an entry writes the same batch to the engine and its reference. *)
Lemma Apply_writes e cmd (x x' : sm) (a a' : rsm) st res res' :
  unmarshal (e_Data e) = Some cmd -> cmd_valid cmd ->
  sm_holds x st -> sm_holds a st -> db_view (sm_db x) = db_view (sm_db a) ->
  Apply unmarshal marshal e x = Ret (x', res) -> Apply unmarshal marshal e a = Ret (a', res') ->
  exists b, keys_ok b /\ db_Write b (sm_db x) = Ret (sm_db x') /\ db_Write b (sm_db a) = Ret (sm_db a').
Proof.
  intros Hu (_ & _ & Hv) Hx Ha Hview. unfold Apply. rewrite Hu.
  pose proof Hx as (_ & _ & _ & Hsx & _). pose proof Ha as (_ & _ & _ & Hsa & _). rewrite Hsx, Hsa.
  destruct (duplicate cmd (kv_sessions st)) as [r|].
  - destruct (finish_apply _ _ _ _ x) as [y| |] eqn:Ex; [|done..]. destruct (finish_apply _ _ _ _ a) as [c| |] eqn:Ec; [|done..].
    intros [= <- _] [= <- _]. apply finish_writes in Ex, Ec. eexists. split; [|done]. apply keys_ok_put; [constructor|done].
  - destruct (execute (cmd_Op cmd) (e_Index e) x emptyBatch) as [[[rs batch] sh]| |] eqn:Ee; [|done..].
    rewrite (execute_same (cmd_Op cmd) (e_Index e) x a st _ Hx Ha Hview Ee). cbn [mbind go_bind].
    assert (keys_ok batch) as Hk.
    { pose proof (execute_ok unmarshal (cmd_Op cmd) (e_Index e) x st Hx Hv) as Hok. destruct (kv_exec _ _ st) as [[rs' d'] sh'].
      rewrite Ee in Hok. destruct Hok as [(b' & [= <- <- <-] & _ & ?)|[? _]]; done. }
    destruct (if (cmd_ClientId cmd =? 0)%N then _ else _) as [b1 s1] eqn:E1.
    destruct (if (res_ClientId rs =? 0)%N then _ else _) as [b2 s2] eqn:E2.
    assert (keys_ok b2) as Hk2.
    { assert (keys_ok b1) by (destruct (cmd_ClientId cmd =? 0)%N; injection E1 as <- _; [done|by apply keys_ok_put]).
      destruct (res_ClientId rs =? 0)%N; injection E2 as <- _; [done|by apply keys_ok_put]. }
    destruct (finish_apply _ _ _ _ x) as [y| |] eqn:Ex; [|done..]. destruct (finish_apply _ _ _ _ a) as [c| |] eqn:Ec; [|done..].
    intros [= <- _] [= <- _]. apply finish_writes in Ex, Ec. eexists. split; [|done]. by apply keys_ok_put.
Qed.

(** ** The contract *)

(** Commands have the field widths of their message. *)
Context (Hvalid : forall b cmd, unmarshal b = Some cmd -> cmd_valid cmd).

(** No machine gets past an entry that is not a command; it has no effect
    but on the applied index. *)
Definition kv_mstep (e : Entry) (a : rsm) : rsm * bytes :=
  match Apply unmarshal marshal e a with
  | Ret p => p
  | _ => (match finish_apply (e_Index e) emptyBatch (sm_sessions a) (sm_shards a) a with
          | Ret a' => a'
          | _ => mkSM (sm_db a) (e_Index e) (sm_sessions a) (sm_shards a)
          end, [])
  end.

Definition kv_minit : rsm := mkSM ref_empty 0 ∅ ∅.

Definition loads (r : R) : Prop := exists st, db_ok r /\ repr (db_view r) st.

Definition kv_holds (x : sm) (a : rsm) : Prop :=
  ref (sm_db x) (sm_db a) /\ (exists st, sm_holds x st /\ sm_holds a st) /\ forall r, db_was (sm_db x) r -> loads r.

Definition kv_data_of (a : rsm) (d : bytes) : Prop := db_Export (sm_db a) = Ret d /\ exists st, sm_holds a st.
Definition kv_past (x : sm) (b : rsm) : Prop := exists r, db_was (sm_db x) r /\ load r = Ret b.
Definition kv_survives (x y : sm) : Prop := exists d, db_survives (sm_db x) d /\ NewStateMachine d = Ret y.

Lemma holds_load (a : rsm) st : sm_holds a st -> load (sm_db a) = Ret a.
Proof.
  intros (Hok & Hr & Ha & Hs & Hh). destruct (load_ok _ _ Hok Hr) as [-> |Hf]; [|by apply ref_total in Hf]. by destruct a; simpl in *; subst.
Qed.

Lemma finish_applied {E} `{DB E} i b ss sh (s s' : StateMachine (D := E)) : finish_apply i b ss sh s = Ret s' -> sm_applied s' = i.
Proof. unfold finish_apply. destruct (db_Write _ _); [|done..]. by intros [= <-]. Qed.

Lemma Apply_applied {E} `{DB E} e (s s' : StateMachine (D := E)) r : Apply unmarshal marshal e s = Ret (s', r) -> sm_applied s' = e_Index e.
Proof.
  unfold Apply. destruct (unmarshal _) as [cmd|]; [|done]. destruct (duplicate cmd _).
  - destruct (finish_apply _ _ _ _ s) eqn:Ef; [|done..]. intros [= <- _]. by eapply finish_applied.
  - destruct (execute _ _ s _) as [[[rs b] sh]| |]; [|done..]. cbn [mbind go_bind].
    destruct (if (cmd_ClientId cmd =? 0)%N then _ else _) as [b1 s1]. destruct (if (res_ClientId rs =? 0)%N then _ else _) as [b2 s2].
    destruct (finish_apply _ _ _ _ s) eqn:Ef; [|done..]. intros [= <- _]. by eapply finish_applied.
Qed.

Lemma kv_Apply_ok e x a x' res :
  kv_holds x a -> mc_Apply e x = Ret (x', res) ->
  kv_holds x' (kv_mstep e a).1 /\ res = (kv_mstep e a).2 /\ forall b, kv_past x' b -> kv_past x b \/ b = (kv_mstep e a).1.
Proof.
  intros (Hr & (st & Hx & Ha) & Hw). simpl. destruct (N.ltb_spec (e_Index e) w64) as [Hi|]; [|done]. intros Hap.
  destruct (unmarshal (e_Data e)) as [cmd|] eqn:Hu; [|unfold Apply in Hap; by rewrite Hu in Hap].
  pose proof (Hvalid _ _ Hu) as Hv. destruct (ref_ok _ _ Hr) as (_ & _ & Hview).
  destruct (Apply_ok unmarshal marshal e cmd x st Hu Hv Hi Hx) as [(y & Hy & Hsy)|[Hy _]]; rewrite Hap in Hy; [|done]. injection Hy as <- ->.
  destruct (Apply_ok unmarshal marshal e cmd a st Hu Hv Hi Ha) as [(a' & Ha' & Hsa)|[_ Hf]]; [|by apply ref_total in Hf].
  destruct (Apply_writes e cmd x x' a a' st _ _ Hu Hv Hx Ha Hview Hap Ha') as (b & Hk & Hbx & Hba).
  destruct (ref_Write b _ _ _ _ Hr Hk Hbx Hba) as [Hr' Hw']. unfold kv_mstep. rewrite Ha'. simpl.
  split_and!; [|done|].
  - split_and!; [done|by eauto|]. intros q Hq. destruct (Hw' q Hq) as [| ->]; [by apply Hw|].
    destruct Hsa as (? & ? & _). by eexists.
  - intros c (q & Hq & Hl). destruct (Hw' q Hq) as [| ->]; [left; by exists q|right].
    rewrite (holds_load a' _ Hsa) in Hl. by injection Hl.
Qed.

Lemma kv_Snapshot_ok x a x' d :
  kv_holds x a -> Snapshot x = Ret (x', d) -> kv_holds x' a /\ kv_data_of a d /\ forall b, kv_past x' b -> kv_past x b.
Proof.
  intros (Hr & (st & Hx & Ha) & Hw). unfold Snapshot. destruct (db_Sync (sm_db x)) as [db| |] eqn:Es; [|done..]. simpl.
  destruct (db_Export db) as [data| |] eqn:Ee; [|done..]. simpl. intros [= <- <-]. destruct (ref_Sync _ _ _ Hr Es) as [Hr' Hw'].
  destruct (ref_ok _ _ Hr) as (_ & _ & Hv). destruct (ref_ok _ _ Hr') as (Hok' & _ & Hv').
  destruct Hx as (_ & Hrp & Happ & Hss & Hsh). split_and!.
  - split_and!; [done| |by auto]. exists st. split; [|done]. unfold sm_holds. simpl. split_and!; try done. by rewrite Hv', <-Hv.
  - split; [by eapply ref_Export|by eauto].
  - intros b (q & Hq & Hl). exists q. by auto.
Qed.

Lemma kv_Restore_ok d x a b x' :
  kv_holds x a -> kv_data_of b d -> Restore d x = Ret x' -> kv_holds x' b /\ forall c, kv_past x' c -> kv_past x c \/ c = b.
Proof.
  intros (Hr & _ & Hw) (Hd & st & Hb). unfold Restore. destruct (db_Restore d (sm_db x)) as [db| |] eqn:Er; [|done..]. simpl. intros Hl.
  pose proof Hb as (Hok & Hrp & _). destruct (ref_Restore _ _ _ _ _ Hr Hok Hd Er) as [Hr' Hw']. destruct (ref_ok _ _ Hr') as (Hok' & _ & Hv').
  rewrite <-Hv' in Hrp. destruct (load_holds db st x' Hok' Hrp Hl) as [<- Hx']. split.
  - split_and!; [done|by eauto|]. intros q Hq. destruct (Hw' q Hq) as [| ->]; [by apply Hw|]. exists st. split; [done|]. by rewrite <-Hv'.
  - intros c (q & Hq & Hlc). destruct (Hw' q Hq) as [| ->]; [left; by exists q|right]. rewrite (holds_load b st Hb) in Hlc. by injection Hlc.
Qed.

Lemma kv_survives_ok x y a :
  kv_holds x a -> kv_survives x y -> exists b, kv_past x b /\ kv_holds y b /\ forall c, kv_past y c -> kv_past x c.
Proof.
  intros (Hr & _ & Hw) (d & Hd & Hl). destruct (ref_survives _ _ _ Hr Hd) as (q & Hq & Hr' & Hw'). destruct (Hw q Hq) as (st & Hok & Hrp).
  destruct (ref_ok _ _ Hr') as (Hok' & _ & Hv'). destruct (load_ok q st Hok Hrp) as [Hlq|Hf]; [|by apply ref_total in Hf].
  destruct (load_holds q st _ Hok Hrp Hlq) as [_ Hb]. rewrite <-Hv' in Hrp.
  destruct (load_holds d st y Hok' Hrp Hl) as [<- Hy]. eexists. split_and!; [by exists q| |].
  - split_and!; [done|by eauto|by auto].
  - intros c (p & Hp & Hlp). exists p. by auto.
Qed.

#[global] Instance kv_MachineOK : MachineOK sm rsm.
Proof.
  refine {| mo_init := kv_minit; mo_step := kv_mstep; mo_at := sm_applied; mo_data := kv_data_of;
            mo_holds := kv_holds; mo_past := kv_past; mo_survives := kv_survives |}.
  - done.
  - intros e a. unfold kv_mstep. destruct (Apply unmarshal marshal e a) as [[a' r]| |] eqn:Ea; [by eapply Apply_applied|..]; simpl.
    all: destruct (finish_apply _ _ _ _ a) eqn:Ef; [by eapply finish_applied|done..].
  - intros a d d' [H1 _] [H2 _]. congruence.
  - intros x a (_ & (st & (_ & _ & H1 & _) & (_ & _ & H2 & _)) & _). simpl. congruence.
  - apply kv_Apply_ok.
  - apply kv_Snapshot_ok.
  - apply kv_Restore_ok.
  - apply kv_survives_ok.
Defined.

(** ** The log gives what the specification gives *)

Lemma repr_empty : repr ∅ kvs0.
Proof.
  constructor; simpl; try (intros *; by rewrite !lookup_empty).
Qed.

Lemma holds_fun (a : rsm) st st' : sm_holds a st -> sm_holds a st' -> st = st'.
Proof.
  intros (_ & H1 & H2 & H3 & H4) (_ & H1' & H2' & H3' & H4'). destruct st, st'. simpl in *. f_equal; [|congruence..].
  apply map_eq. intros k. by rewrite <-(rp_data _ _ H1), (rp_data _ _ H1').
Qed.

Lemma kv_mstep_ok e a st :
  (e_Index e < w64)%N -> sm_holds a st ->
  sm_holds (kv_mstep e a).1 (kv_entry unmarshal marshal e st).1 /\ (kv_mstep e a).2 = (kv_entry unmarshal marshal e st).2.
Proof.
  intros Hi Ha. unfold kv_mstep, kv_entry. destruct (unmarshal (e_Data e)) as [cmd|] eqn:Hu.
  - destruct (Apply_ok unmarshal marshal e cmd a st Hu (Hvalid _ _ Hu) Hi Ha) as [(a' & -> & Ha')|[_ Hf]]; [done|by apply ref_total in Hf].
  - assert (Apply unmarshal marshal e a = Panic) as -> by (unfold Apply; by rewrite Hu). simpl. split; [|done].
    pose proof Ha as (_ & Hr & _ & -> & ->).
    destruct (finish_ok (e_Index e) emptyBatch (kv_sessions st) (kv_shards st) a st Ha Hi ltac:(constructor) (kv_data st))
      as [(s' & -> & Hs')|[_ Hf]]; [by destruct st|done|by apply ref_total in Hf].
Qed.

Lemma play_holds L :
  (forall e, e ∈ L -> e_Type e = EntryNormal -> (e_Index e < w64)%N) -> sm_holds (play (X := sm) L) (kv_play unmarshal marshal L).
Proof.
  induction L as [|e L IH] using rev_ind; intros Hi.
  { unfold sm_holds. simpl. destruct ref_empty_ok as [? ->]. by split_and!; try apply repr_empty. }
  rewrite play_snoc. unfold kv_play. rewrite foldl_app. simpl. unfold play1, kv_play1.
  assert (sm_holds (play (X := sm) L) (kv_play unmarshal marshal L)) as HL.
  { apply IH. intros e' He'. apply Hi, elem_of_app. by left. }
  case_decide; [|done]. apply kv_mstep_ok; [|done]. apply Hi; [|done]. apply elem_of_app. right. by left.
Qed.

(** Commands are applied in the order of their indexes. *)
Lemma play_bound L e : numbered L -> e ∈ L -> e_Type e = EntryNormal -> (e_Index e <= sm_applied (play (X := sm) L))%N.
Proof.
  revert e. induction L as [|e' L IH] using rev_ind; intros e Hn He Ht; [by apply not_elem_of_nil in He|].
  rewrite play_snoc. unfold play1. apply elem_of_app in He as [He|He%list_elem_of_singleton].
  - assert (numbered L) as HnL by (intros i x Hx; apply Hn; by apply lookup_app_l_Some).
    case_decide; [|by apply IH]. change (sm_applied ?a) with (mo_at a). rewrite mo_at_step.
    apply list_elem_of_lookup_1 in He as [i Hi]. rewrite (HnL i e Hi), (Hn (length L) e') by (by apply list_lookup_middle).
    apply lookup_lt_Some in Hi. lia.
  - subst e'. rewrite decide_True by done. change (sm_applied ?a) with (mo_at a). by rewrite mo_at_step.
Qed.

(** A machine that holds a log has its specification. *)
Lemma holds_spec (x : sm) L :
  numbered L -> mo_holds x (play L) ->
  sm_holds x (kv_play unmarshal marshal L) /\ forall e, e ∈ L -> e_Type e = EntryNormal -> (e_Index e < w64)%N.
Proof.
  intros Hn (_ & (st & Hx & Ha) & _).
  assert (forall e, e ∈ L -> e_Type e = EntryNormal -> (e_Index e < w64)%N) as Hi.
  { intros e He Ht. pose proof (play_bound L e Hn He Ht). destruct Ha as (_ & Hr & Happ & _).
    destruct (rp_applied _ _ Hr) as [? _]. rewrite Happ in *. lia. }
  split; [|done]. by rewrite (holds_fun _ _ _ (play_holds L Hi) Ha).
Qed.

(** ** Replicas of the store *)

Context {S : Type} `{LS : LogStore S} `{OK : !LogStoreOK S}.
Context (peers : list NodeID) (Hnodup : NoDup peers) (Hzero : 0%N ∉ peers).

(** What the specification, played over one log, says about a replica. *)
Definition serves (L : list Entry) (nd : Node S sm) : Prop :=
  (n_applied nd <= len L)%N /\ sm_holds (n_sm nd) (kv_play unmarshal marshal (pre (n_applied nd) L)) /\
  forall p, p ∈ n_props nd -> p_done p = true -> p_Err p = None ->
    (0 < p_Index p <= n_applied nd)%N /\ exists e, L !! N.to_nat (p_Index p - 1) = Some e /\
      e_Type e = EntryNormal /\ e_Data e = p_data p /\
      p_Result p = (kv_entry unmarshal marshal e (kv_play unmarshal marshal (pre (p_Index p - 1) L))).2.

Lemma follows_serves L nd : numbered L -> follows L nd -> serves L nd.
Proof.
  intros Hn (Hle & Hh & Hp). assert (numbered (pre (n_applied nd) L)) as Hn'.
  { intros i e He. unfold pre in He. apply lookup_take_Some in He as [He _]. by apply Hn. }
  destruct (holds_spec _ _ Hn' Hh) as [Hs Hi]. split_and!; [done|done|]. intros p Hin Hd He.
  destruct (Hp p Hin Hd He) as (Hpi & e & Hl & Ht & Hda & Hr). split; [done|]. exists e. split_and!; [done|done|done|].
  assert (forall x, x ∈ pre (p_Index p - 1) L -> x ∈ pre (n_applied nd) L) as Hsub.
  { intros x Hx. eapply elem_of_submseteq; [exact Hx|]. apply sublist_submseteq. unfold pre. replace (N.to_nat (p_Index p - 1)) with
      (N.to_nat (p_Index p - 1) `min` N.to_nat (n_applied nd)) by lia. rewrite <-take_take. apply sublist_take. }
  rewrite Hr. apply kv_mstep_ok.
  - apply Hi; [|done]. unfold pre. apply list_elem_of_lookup_2 with (N.to_nat (p_Index p - 1)). rewrite lookup_take_lt by lia. done.
  - apply play_holds. intros x Hx. apply Hi. by apply Hsub.
Qed.

End KvMachine.

(** * Reads of the store

    A read of the key-value store waits for its turn in raft/node.go and then
    reads the machine of the node it was sent to.  Here the two are put
    together: such a read is linearizable. *)

Section KvReads.
Context {D R : Type} `{HD : DB D} `{HDOK : !DBOK D} `{HR : DB R} `{HROK : !DBOK R} `{Href : !DBRef D R}.
Context (unmarshal : bytes -> option Command) (marshal : Result -> bytes).
Context (Hvalid : forall b cmd, unmarshal b = Some cmd -> cmd_valid cmd).
Context {S : Type} `{LS : LogStore S} `{OK : !LogStoreOK S}.
Context (peers : list NodeID) (Hnodup : NoDup peers) (Hzero : 0%N ∉ peers).

#[local] Abbreviation sm := (StateMachine (D := D)).
#[local] Instance sm_Machine : Machine sm := kv_Machine unmarshal marshal.
#[local] Instance sm_MachineOK : MachineOK sm (StateMachine (D := R)) := kv_MachineOK unmarshal marshal Hvalid.
#[local] Abbreviation system := (replicas (S := S) (X := sm)).
#[local] Abbreviation serves := (serves unmarshal marshal).

(** What the specification reads. *)
Definition kv_get (key : bytes) (st : kvs) : go (option bytes) :=
  if readable (kv_shards st) key then Ret (kv_data st !! key) else Fail ErrMoving.

Lemma Get_spec key (x : sm) st : sm_holds x st -> ~ db_failed (sm_db x) -> Get key x = kv_get key st.
Proof.
  intros Hx Hf. pose proof Hx as (_ & _ & _ & _ & Hsh). unfold Get, kv_get. rewrite Hsh. destruct (readable _ key); [|done].
  by destruct (get_ok key x st Hx) as [|[_ ?]].
Qed.

End KvReads.
