(* ===== verification/KvTheorems.v ===== *)
(** * Properties of the key-value state machine *)

From stdpp Require Import base list gmap.
From S2P Require Import Prelude Codec Key Batch LogStore KeyHash Db StateMachine KvSpec KvRefine.

Section Theorems.
Context {D : Type} `{HDB : DB D} `{HOK : !DBOK D}.
Context (unmarshal : bytes -> option Command) (marshal : Result -> bytes).

(** C9: Over any engine that keeps its promises, applying a log entry
    returns what the specification returns and leaves the state machine
    holding the specification's next state, in memory and in the engine;
    after a restart the state is loaded back exactly.  It panics only when
    the engine fails. *)
Theorem apply_refines e cmd (s : @StateMachine D) st :
  unmarshal (e_Data e) = Some cmd -> cmd_valid cmd -> (e_Index e < w64)%N -> sm_holds s st ->
  let '(st', result) := kv_step marshal cmd (e_Index e) st in
  (exists s', Apply unmarshal marshal e s = Ret (s', result) /\ sm_holds s' st' /\
     (NewStateMachine (sm_db s') = Ret s' \/ db_failed (sm_db s'))) \/
  (Apply unmarshal marshal e s = Panic /\ db_failed (sm_db s)).
Proof.
  intros Hu Hc Hi Hs. pose proof (Apply_ok unmarshal marshal e cmd s st Hu Hc Hi Hs) as H.
  destruct (kv_step marshal cmd (e_Index e) st) as [st' result]. destruct H as [(s' & Ha & Hs')|H]; [left|by right].
  exists s'. split_and!; [done|done|]. destruct Hs' as (Hok & Hr & Ha' & Hss & Hsh).
  destruct (load_ok (sm_db s') st' Hok Hr) as [Hl|Hf]; [left|by right].
  unfold NewStateMachine. rewrite Hl. destruct s'. simpl in *. by subst.
Qed.

(** C24: A snapshot of one replica restored on another gives it the same
    state, sessions and shards included. *)
Theorem snapshot_restores (s1 s2 : @StateMachine D) st1 st2 s1' data :
  sm_holds s1 st1 -> sm_holds s2 st2 -> Snapshot s1 = Ret (s1', data) ->
  sm_holds s1' st1 /\
  ((exists s2', Restore data s2 = Ret s2' /\ sm_holds s2' st1) \/
   fails (db_Restore data (sm_db s2)) \/ exists db, db_Restore data (sm_db s2) = Ret db /\ db_failed db).
Proof.
  intros (Hok1 & Hr1 & Ha1 & Hss1 & Hsh1) (Hok2 & _). unfold Snapshot, Restore.
  destruct (db_Sync_ok (sm_db s1) Hok1) as [(db & -> & Hok & Hv)|Hf]; [|by destruct (db_Sync _)].
  cbn [mbind go_bind]. destruct (db_Export db) as [x| |] eqn:Ex; [|done..]. cbn [mbind go_bind]. intros [= <- <-].
  split; [unfold sm_holds; simpl; by rewrite Hv|].
  destruct (db_Restore_ok db (sm_db s2) x Hok Hok2 Ex) as [(db' & -> & Hok' & Hv')|Hf]; [|by right; left].
  cbn [mbind go_bind]. destruct (load_ok db' st1 Hok') as [-> |Hf]; [by rewrite Hv', Hv| |by eauto].
  left. eexists. split; [done|]. unfold sm_holds. simpl. by rewrite Hv', Hv.
Qed.

(** ** Sequences of entries *)

Fixpoint apply_all (es : list Entry) (s : @StateMachine D) : go (@StateMachine D) :=
  match es with
  | [] => Ret s
  | e :: es => '(s, _) ← Apply unmarshal marshal e s; apply_all es s
  end.

(** Entries whose commands have valid fields. *)
Definition entry_ok (e : Entry) : Prop :=
  (e_Index e < w64)%N /\ exists cmd, unmarshal (e_Data e) = Some cmd /\ cmd_valid cmd.

(** [e] does not advance or reset the session of client [c]. *)
Definition leaves_session (c seq : N) (e : Entry) : Prop :=
  e_Index e <> c /\ forall cmd, unmarshal (e_Data e) = Some cmd -> cmd_ClientId cmd = c -> (cmd_Seq cmd <= seq)%N.

Lemma Apply_step e s st s' r :
  entry_ok e -> sm_holds s st -> Apply unmarshal marshal e s = Ret (s', r) ->
  exists cmd, unmarshal (e_Data e) = Some cmd /\
    r = (kv_step marshal cmd (e_Index e) st).2 /\ sm_holds s' (kv_step marshal cmd (e_Index e) st).1.
Proof.
  intros (Hi & cmd & Hu & Hc) Hs Ha. exists cmd.
  destruct (Apply_ok unmarshal marshal e cmd s st Hu Hc Hi Hs) as [(s'' & Ha' & Hs')|[Ha' _]];
    rewrite Ha in Ha'; [|done]. by injection Ha' as -> ->.
Qed.

Lemma kv_exec_client op index st :
  res_ClientId (kv_exec op index st).1.1 = 0%N \/ res_ClientId (kv_exec op index st).1.1 = index.
Proof. unfold kv_exec. destruct op as [[]|]; simpl; auto; repeat case_match; auto. Qed.

(** A session is only changed by later commands of its client. *)
Lemma step_session c seq x e cmd st :
  c <> 0%N -> leaves_session c seq e -> unmarshal (e_Data e) = Some cmd ->
  kv_sessions st !! c = Some (mkSession seq x) ->
  kv_sessions (kv_step marshal cmd (e_Index e) st).1 !! c = Some (mkSession seq x).
Proof.
  intros Hc [Hidx Hseq] Hu Hs. specialize (Hseq cmd Hu). unfold kv_step.
  destruct (duplicate cmd (kv_sessions st)) as [r|] eqn:Ed; [done|].
  pose proof (kv_exec_client (cmd_Op cmd) (e_Index e) st) as Hcl.
  destruct (kv_exec _ _ _) as [[res d] sh]. simpl in *. unfold record_session.
  assert (cmd_ClientId cmd <> c) as Hne.
  { intros E. unfold duplicate in Ed. rewrite E, Hs in Ed. destruct (N.eqb_spec c 0); [done|]. simpl in Ed.
    destruct (N.leb_spec (cmd_Seq cmd) seq); [done|]. specialize (Hseq E). lia. }
  assert (res_ClientId res <> c) as Hne2 by (destruct Hcl; congruence).
  destruct (res_ClientId res =? 0)%N, (cmd_ClientId cmd =? 0)%N; rewrite ?lookup_insert_ne by done; done.
Qed.

Lemma apply_all_session c seq x es s st s' :
  c <> 0%N -> Forall entry_ok es -> Forall (leaves_session c seq) es ->
  sm_holds s st -> kv_sessions st !! c = Some (mkSession seq x) -> apply_all es s = Ret s' ->
  exists st', sm_holds s' st' /\ kv_sessions st' !! c = Some (mkSession seq x).
Proof.
  intros Hc Hok Hl. revert s st. induction Hok as [|e es He _ IH]; intros s st Hs Hx; simpl.
  { intros [= <-]. eauto. }
  apply Forall_cons in Hl as [Hle Hl]. destruct (Apply unmarshal marshal e s) as [[s1 r]| |] eqn:Ea; [|done..].
  cbn [mbind go_bind]. intros Hrun. destruct (Apply_step _ _ _ _ _ He Hs Ea) as (cmd & Hu & _ & Hs1).
  eapply (IH Hl s1); [exact Hs1| |done]. by eapply step_session.
Qed.

(** What a duplicate does: nothing but advance the applied index. *)
Lemma duplicate_step cmd i st c seq x :
  c <> 0%N -> cmd_ClientId cmd = c -> (cmd_Seq cmd <= seq)%N -> kv_sessions st !! c = Some (mkSession seq x) ->
  kv_step marshal cmd i st = (mkKvs (kv_data st) (kv_sessions st) (kv_shards st) i, x).
Proof.
  intros Hc Hcl Hle Hs. unfold kv_step, duplicate. rewrite Hcl, Hs. destruct (N.eqb_spec c 0); [done|]. simpl.
  by destruct (N.leb_spec (cmd_Seq cmd) seq); [|lia].
Qed.

(** C13: A command is executed at most once however often it is in the log:
    after it has been applied, and after any further entries that neither
    advance nor reset its client's session, applying it again returns the
    first result and changes no key. *)
Theorem retry_applies_once (s s1 s2 s3 : @StateMachine D) st e e' es cmd r r' k :
  sm_holds s st -> entry_ok e -> entry_ok e' -> Forall entry_ok es ->
  unmarshal (e_Data e) = Some cmd -> unmarshal (e_Data e') = Some cmd ->
  cmd_ClientId cmd <> 0%N -> e_Index e <> cmd_ClientId cmd -> duplicate cmd (sm_sessions s) = None ->
  Forall (leaves_session (cmd_ClientId cmd) (cmd_Seq cmd)) es ->
  Apply unmarshal marshal e s = Ret (s1, r) -> apply_all es s1 = Ret s2 ->
  Apply unmarshal marshal e' s2 = Ret (s3, r') ->
  r' = r /\ (get k (sm_db s3) = get k (sm_db s2) \/ db_failed (sm_db s2) \/ db_failed (sm_db s3)).
Proof.
  intros Hs He He' Hes Hu Hu' Hc Hidx Hdup Hl Ha1 Hrun Ha2.
  destruct (Apply_step _ _ _ _ _ He Hs Ha1) as (cmd1 & Hu1 & -> & Hs1). rewrite Hu in Hu1. injection Hu1 as <-.
  assert (kv_sessions (kv_step marshal cmd (e_Index e) st).1 !! cmd_ClientId cmd =
    Some (mkSession (cmd_Seq cmd) (kv_step marshal cmd (e_Index e) st).2)) as Hsess.
  { unfold kv_step. destruct Hs as (_ & _ & _ & <- & _). rewrite Hdup.
    pose proof (kv_exec_client (cmd_Op cmd) (e_Index e) st) as Hcl.
    destruct (kv_exec _ _ _) as [[res d] sh]. simpl in *. unfold record_session.
    destruct (N.eqb_spec (cmd_ClientId cmd) 0); [done|].
    destruct (N.eqb_spec (res_ClientId res) 0); [by rewrite lookup_insert_eq|].
    rewrite lookup_insert_ne by (destruct Hcl; congruence). by rewrite lookup_insert_eq. }
  destruct (apply_all_session _ _ _ _ _ _ _ Hc Hes Hl Hs1 Hsess Hrun) as (st2 & Hs2 & Hsess2).
  destruct (Apply_step _ _ _ _ _ He' Hs2 Ha2) as (cmd2 & Hu2 & -> & Hs3). rewrite Hu' in Hu2. injection Hu2 as <-.
  rewrite (duplicate_step cmd _ _ _ _ _ Hc eq_refl (N.le_refl _) Hsess2) in *. split; [done|].
  destruct (get_ok k s2 st2 Hs2) as [-> |[_ Hf]]; [|by right; left].
  destruct (get_ok k s3 _ Hs3) as [-> |[_ Hf]]; [|by right; right]. by left.
Qed.

(** ** Shards *)

(** Commands that move shards name their keys. *)
Definition spares (sd : N) (op : option Op) : Prop :=
  match op with
  | Some (Import s kvs _) => s <> sd /\ Forall (fun kv => ShardOf (kv_Key kv) <> sd) kvs
  | Some (Purge s) => s <> sd
  | _ => True
  end.

Lemma put_kvs_other l m k : Forall (fun kv => kv_Key kv <> k) l -> put_kvs l m !! k = m !! k.
Proof.
  unfold put_kvs. revert m. induction l as [|kv l IH]; intros m H; [done|]. apply Forall_cons in H as [? ?].
  simpl. rewrite IH by done. by apply lookup_insert_ne.
Qed.

Lemma exec_closed_shard op i st sd k :
  shard_state (kv_shards st) sd <> shardOpen -> spares sd op -> ShardOf k = sd ->
  (kv_exec op i st).1.2 !! k = kv_data st !! k /\ shard_state (kv_exec op i st).2 sd <> shardOpen.
Proof.
  intros Hst Hsp Hk.
  assert (forall x, ShardOf x = sd -> writable (kv_shards st) x = false) as Hw.
  { intros x Hx. apply bool_decide_eq_false. by rewrite Hx. }
  assert (forall x, writable (kv_shards st) x = true -> x <> k) as Hne.
  { intros x Hx ->. rewrite Hw in Hx by done. done. }
  assert (forall s b, s <> sd -> shard_state (<[s := b]> (kv_shards st)) sd = shard_state (kv_shards st) sd) as Hsh.
  { intros s b Hns. unfold shard_state. by rewrite lookup_insert_ne. }
  destruct op as [[|k' v|k'|k' x v|k'|a b n mb|s|s l last|s]|]; simpl; try done.
  - destruct (writable _ k') eqn:Ew; [|done]. split; [|done]. simpl. rewrite lookup_insert_ne; [done|by apply Hne].
  - destruct (writable _ k') eqn:Ew; [|done]. split; [|done]. simpl. rewrite lookup_delete_ne; [done|by apply Hne].
  - destruct (writable _ k') eqn:Ew; [|done]. split; [|done]. simpl. destruct (cas_ok _ _); [|done].
    rewrite lookup_insert_ne; [done|by apply Hne].
  - by destruct (readable _ k').
  - split; [done|]. destruct (bool_decide (shard_state (kv_shards st) s = shardGone)); [done|].
    destruct (decide (s = sd)) as [->|Hns]; [|by rewrite Hsh]. unfold shard_state. by rewrite lookup_insert_eq.
  - destruct Hsp as [Hns Hkeys]. destruct (_ && _); [done|]. split; simpl.
    + apply put_kvs_other. eapply Forall_impl; [exact Hkeys|]. intros kv Hx Heq. apply Hx. by rewrite Heq.
    + destruct last; [by rewrite Hsh|done].
  - split; [|by rewrite Hsh]. simpl in Hsp.
    destruct (kv_data st !! k) as [v|] eqn:Ev.
    + apply map_lookup_filter_Some. split; [done|]. simpl. congruence.
    + apply map_lookup_filter_None. by left.
Qed.


(** A command that another one of the same session has overtaken is
    never executed, and is answered with the other one's result. *)
Theorem overtaken_is_lost e cmd (s : @StateMachine D) st seq x :
  sm_holds s st -> entry_ok e -> unmarshal (e_Data e) = Some cmd ->
  cmd_ClientId cmd <> 0%N -> sm_sessions s !! cmd_ClientId cmd = Some (mkSession seq x) -> (cmd_Seq cmd < seq)%N ->
  (exists s', Apply unmarshal marshal e s = Ret (s', x) /\
     sm_holds s' (mkKvs (kv_data st) (kv_sessions st) (kv_shards st) (e_Index e))) \/
  (Apply unmarshal marshal e s = Panic /\ db_failed (sm_db s)).
Proof.
  intros Hs (Hi & cmd' & Hu' & Hc) Hu Hcl Hsess Hlt. rewrite Hu in Hu'. injection Hu' as <-.
  pose proof Hs as (_ & _ & _ & Hss & _). rewrite Hss in Hsess.
  pose proof (Apply_ok unmarshal marshal e cmd s st Hu Hc Hi Hs) as H.
  rewrite (duplicate_step cmd (e_Index e) st _ seq x Hcl eq_refl (N.lt_le_incl _ _ Hlt) Hsess) in H. exact H.
Qed.
End Theorems.

(** ** Examples

    Commands of client 7: put, a second put, and an overtaken delete; and
    freezing the shard of the key. *)

Definition ex_key : bytes := [x41].
Definition ex_cmd (b : bytes) : option Command :=
  match b with
  | [x01] => Some (mkCommand 7 1 (Some (OpPut ex_key [x11])))
  | [x02] => Some (mkCommand 7 2 (Some (OpPut ex_key [x22])))
  | [x03] => Some (mkCommand 0 0 (Some (Freeze (ShardOf ex_key))))
  | [x04] => Some (mkCommand 8 1 (Some (OpDelete ex_key)))
  | _ => None
  end.
Definition ex_marshal (r : Result) : bytes := [if res_Success r then x01 else x00; if res_Moving r then x01 else x00].
Definition ex_entry (i : N) (b : byte) : Entry := mkEntry i 1 EntryNormal [b].

Definition ex_sm0 : StateMachine (D := gmap bytes bytes) := mkSM ∅ 0 ∅ ∅.

Lemma ex_fresh_holds : sm_holds ex_sm0 kvs0.
Proof.
  split; [done|]. split; [|done]. by constructor.
Qed.

Lemma ex_entry_ok i b : (i < w64)%N -> b ∈ [x01; x02; x03; x04] -> entry_ok ex_cmd (ex_entry i b).
Proof.
  intros Hi Hb. split; [done|]. rewrite !elem_of_cons, elem_of_nil in Hb.
  destruct Hb as [-> |[-> |[-> |[-> |[]]]]]; eexists; (split; [reflexivity|]); split_and!; try (vm_compute; reflexivity).
Qed.

Definition ex_step (i : N) (b : byte) (st : kvs) : kvs * bytes :=
  match ex_cmd [b] with Some c => kv_step ex_marshal c i st | None => (st, []) end.

(** A map never fails. *)
Lemma map_never_fails (m : gmap bytes bytes) : ~ db_failed m.
Proof. intros [[k Hf]|[(x & y & Hf)|[x Hf]]]; simpl in Hf; [|done|done]. by destruct (m !! k). Qed.

Lemma ex_apply i b s st :
  (i < w64)%N -> b ∈ [x01; x02; x03; x04] -> sm_holds s st ->
  exists s', Apply ex_cmd ex_marshal (ex_entry i b) s = Ret (s', (ex_step i b st).2) /\ sm_holds s' (ex_step i b st).1.
Proof.
  intros Hi Hb Hs. destruct (ex_entry_ok i b Hi Hb) as (_ & c & Hu & Hc). unfold ex_step.
  change (ex_cmd [b]) with (ex_cmd (e_Data (ex_entry i b))). rewrite Hu.
  destruct (Apply_ok ex_cmd ex_marshal (ex_entry i b) c s st Hu Hc Hi Hs) as [H|[_ Hf]]; [done|].
  by apply map_never_fails in Hf.
Qed.

Lemma apply_refines_witness :
  let '(st', result) := kv_step ex_marshal (mkCommand 7 1 (Some (OpPut ex_key [x11]))) 1 kvs0 in
  (exists s', Apply ex_cmd ex_marshal (ex_entry 1 x01) ex_sm0 = Ret (s', result) /\ sm_holds s' st' /\
     (NewStateMachine (sm_db s') = Ret s' \/ db_failed (sm_db s'))) \/
  (Apply ex_cmd ex_marshal (ex_entry 1 x01) ex_sm0 = Panic /\ db_failed (sm_db ex_sm0)).
Proof.
  apply (apply_refines ex_cmd ex_marshal (ex_entry 1 x01) (mkCommand 7 1 (Some (OpPut ex_key [x11]))) ex_sm0 kvs0).
  - reflexivity.
  - repeat split; reflexivity.
  - reflexivity.
  - apply ex_fresh_holds.
Defined.

Lemma snapshot_restores_witness :
  exists data, Snapshot ex_sm0 = Ret (ex_sm0, data) /\ sm_holds ex_sm0 kvs0 /\
  ((exists s2', Restore data ex_sm0 = Ret s2' /\ sm_holds s2' kvs0) \/
   fails (db_Restore data (sm_db ex_sm0)) \/ exists db, db_Restore data (sm_db ex_sm0) = Ret db /\ db_failed db).
Proof.
  exists (encode (mkBatch [] 0) 0). split; [reflexivity|].
  apply (snapshot_restores ex_sm0 ex_sm0 kvs0 kvs0).
  - apply ex_fresh_holds.
  - apply ex_fresh_holds.
  - reflexivity.
Defined.

Lemma retry_applies_once_witness :
  exists s1 s2 s3 r r',
    Apply ex_cmd ex_marshal (ex_entry 10 x01) ex_sm0 = Ret (s1, r) /\
    apply_all ex_cmd ex_marshal [ex_entry 11 x04] s1 = Ret s2 /\
    Apply ex_cmd ex_marshal (ex_entry 12 x01) s2 = Ret (s3, r') /\
    r' = r /\ (get ex_key (sm_db s3) = get ex_key (sm_db s2) \/ db_failed (sm_db s2) \/ db_failed (sm_db s3)).
Proof.
  destruct (ex_apply 10 x01 ex_sm0 kvs0 eq_refl ltac:(set_solver) ex_fresh_holds) as (s1 & Ha1 & Hs1).
  destruct (ex_apply 11 x04 s1 _ eq_refl ltac:(set_solver) Hs1) as (s2 & Ha2 & Hs2).
  destruct (ex_apply 12 x01 s2 _ eq_refl ltac:(set_solver) Hs2) as (s3 & Ha3 & Hs3).
  assert (apply_all ex_cmd ex_marshal [ex_entry 11 x04] s1 = Ret s2) as Hall by (simpl; by rewrite Ha2).
  exists s1, s2, s3. eexists _, _. split; [exact Ha1|]. split; [exact Hall|]. split; [exact Ha3|].
  apply (retry_applies_once ex_cmd ex_marshal ex_sm0 s1 s2 s3
    kvs0 (ex_entry 10 x01) (ex_entry 12 x01) [ex_entry 11 x04] (mkCommand 7 1 (Some (OpPut ex_key [x11])))).
  - apply ex_fresh_holds.
  - apply ex_entry_ok; [reflexivity|set_solver].
  - apply ex_entry_ok; [reflexivity|set_solver].
  - constructor; [apply ex_entry_ok; [reflexivity|set_solver]|constructor].
  - reflexivity.
  - reflexivity.
  - discriminate.
  - discriminate.
  - reflexivity.
  - constructor; [|constructor]. split; [discriminate|]. intros cmd [= <-]. discriminate.
  - exact Ha1.
  - exact Hall.
  - exact Ha3.
Defined.

(** The shard of the key, frozen. *)
Definition ex_frozen : kvs := mkKvs {[ex_key := [x11]]} ∅ {[ShardOf ex_key := shardFrozen]} 1.

Lemma ex_frozen_holds : exists s : StateMachine (D := gmap bytes bytes), sm_holds s ex_frozen.
Proof.
  exists (mkSM (<[appliedKey := be_put 8 1]> (<[shardKey (ShardOf ex_key) := [shardFrozen]]> (<[dbKey ex_key := [x11]]> ∅)))
    1 ∅ {[ShardOf ex_key := shardFrozen]}).
  split; [done|]. split; [|done]. simpl.
  assert (repr ∅ kvs0) as H0 by (by constructor).
  apply (repr_put _ _ ex_key [x11]) in H0.
  apply (repr_shard _ _ (ShardOf ex_key) shardFrozen) in H0; [|vm_compute; reflexivity].
  apply (repr_applied _ _ 1) in H0; [|vm_compute; reflexivity]. exact H0.
Qed.


Lemma overtaken_is_lost_witness :
  exists s1 r, Apply ex_cmd ex_marshal (ex_entry 10 x02) ex_sm0 = Ret (s1, r) /\
  ((exists s', Apply ex_cmd ex_marshal (ex_entry 11 x01) s1 = Ret (s', [x01; x00]) /\
     sm_holds s' (mkKvs (kv_data (ex_step 10 x02 kvs0).1) (kv_sessions (ex_step 10 x02 kvs0).1)
       (kv_shards (ex_step 10 x02 kvs0).1) 11)) \/
  (Apply ex_cmd ex_marshal (ex_entry 11 x01) s1 = Panic /\ db_failed (sm_db s1))).
Proof.
  destruct (ex_apply 10 x02 ex_sm0 kvs0 eq_refl ltac:(set_solver) ex_fresh_holds) as (s1 & Ha1 & Hs1).
  eexists s1, _. split; [exact Ha1|].
  apply (overtaken_is_lost ex_cmd ex_marshal (ex_entry 11 x01) (mkCommand 7 1 (Some (OpPut ex_key [x11]))) s1 _ 2).
  - exact Hs1.
  - apply ex_entry_ok; [reflexivity|set_solver].
  - reflexivity.
  - discriminate.
  - destruct Hs1 as (_ & _ & _ & -> & _). vm_compute. reflexivity.
  - reflexivity.
Defined.
