(* ===== verification/KvReplicaExample.v ===== *)
(** * A run of a group of three replicas

    The replicas run over an engine that may forget, in a crash, what was
    written since it was last synced.  Node 1 is elected, takes a put and
    acknowledges it, crashes with everything its engine held, and is opened
    again. *)

From stdpp Require Import base list gmap functions relations sorting.
From S2P Require Import Prelude Codec Key Batch LogStore Raft Protocol Refine Cluster Node Replica ReplicaTheorems KeyHash Db StateMachine KvSpec KvRefine KvReplica ReplicaReads KvTheorems.

(** ** An engine that forgets *)

Record vdb := mkVdb { v_now : gmap bytes bytes; v_old : list (gmap bytes bytes) }.

#[global] Instance vdb_DB : DB vdb := {
  db_Get k d := db_Get k (v_now d);
  db_Write b d := Ret (mkVdb (apply_ops (b_ops b) (v_now d)) (v_now d :: v_old d));
  db_Scan start stop d := Ret (range start stop (v_now d));
  db_Sync d := Ret (mkVdb (v_now d) []);
  db_Export d := map_Export (v_now d);
  db_Restore x d := m ← map_Restore x (v_now d); Ret (mkVdb m (v_now d :: v_old d));
}.

Lemma map_restores (m m' : gmap bytes bytes) x : map_Export m = Ret x -> map_Restore x m' = Ret m.
Proof.
  unfold map_Export. case_bool_decide as Hok; [|done]. intros [= <-]. unfold map_Restore.
  rewrite decodeBatch_encode by done. simpl. by rewrite apply_put_all.
Qed.

#[global] Instance vdb_DBOK : DBOK vdb.
Proof.
  refine {| db_ok := fun _ => True; db_view := v_now |}; simpl.
  - by left.
  - left. eauto.
  - by left.
  - left. eauto.
  - intros d d' x _ _ Hx. left. rewrite (map_restores _ (v_now d') x Hx). simpl. eauto.
Defined.

#[global] Instance vdb_DBRef : DBRef vdb (gmap bytes bytes).
Proof.
  refine {| ref := fun d r => v_now d = r; ref_empty := ∅; db_was := fun d r => r = v_now d \/ r ∈ v_old d;
            db_survives := fun d d' => (v_now d' = v_now d \/ v_now d' ∈ v_old d) /\ v_old d' = [] |}.
  - done.
  - apply map_never_fails.
  - by intros d r <-.
  - intros b d r d' r' <- _ [= <-] [= <-]. simpl. split; [done|]. intros q [-> |[-> |Hq]%elem_of_cons]; auto.
  - intros d r d' <- [= <-]. simpl. split; [done|]. intros q [-> |Hq%not_elem_of_nil]; [by left|done].
  - by intros d r x <-.
  - intros x d q r d' <- _ Hx Hr. cbn [db_Restore vdb_DB] in Hr.
    rewrite (map_restores r (v_now d) x Hx) in Hr. injection Hr as <-. simpl. split; [done|].
    intros p [-> |[-> |Hp]%elem_of_cons]; auto.
  - intros d r d' <- [Hd Ho]. exists (v_now d'). split_and!; [done|done|]. rewrite Ho. intros p [-> |Hp%not_elem_of_nil]; [done|done].
Defined.

(** ** The run *)

Inductive ract :=
  | RBoot (n : NodeID)
  | RTick (n : NodeID)
  | RDeliver (k : nat)                 (* the k-th newest message *)
  | RPut (n : NodeID) (data : bytes)
  | RFlush (n : NodeID)
  | RRead (n : NodeID)
  | RCrash (n : NodeID).               (* at the start of a tick, with an engine that forgets all it can *)

Section Example.
Let peers : list NodeID := [1; 2; 3]%N.

#[local] Abbreviation sm := (StateMachine (D := vdb)).
#[local] Abbreviation system := (replicas (S := MemStore) (X := sm)).
#[local] Instance ex_Machine : Machine sm := kv_Machine ex_cmd ex_marshal.

Lemma ex_valid b cmd : ex_cmd b = Some cmd -> cmd_valid cmd.
Proof.
  unfold ex_cmd. repeat case_match; intros [= <-]; unfold cmd_valid, op_valid; simpl; split_and!; try done; vm_compute; done.
Qed.

#[local] Instance ex_MachineOK : MachineOK sm (StateMachine (D := gmap bytes bytes)) := kv_MachineOK ex_cmd ex_marshal ex_valid.

Definition rop_run (c : system) (n : NodeID) (op : rop) : option system :=
  match rc_node c n with
  | RUp nd =>
      match node_op op (with_trace [] nd) with
      | (nd', Ret _) => Some (mkReplicas (<[n := RUp nd']> (rc_node c)) (Refine.after (trace_of nd') (rc_msgs c)))
      | _ => None
      end
  | RDown _ _ => None
  end.

Definition rexec1 (c : system) (a : ract) : option system :=
  match a with
  | RBoot n =>
      match rc_node c n with
      | RDown s x =>
          if bool_decide (n ∈ peers) then
            match NewNode (ex_cfg n) s [] x 0 0 with
            | Ret nd => Some (mkReplicas (<[n := RUp nd]> (rc_node c)) (rc_msgs c))
            | _ => None
            end
          else None
      | RUp _ => None
      end
  | RTick n => if bool_decide (n ∈ peers) then rop_run c n OTick else None
  | RDeliver k =>
      match rc_msgs c !! k with
      | Some m => if bool_decide (m_To m ∈ peers) then rop_run c (m_To m) (OStep m) else None
      | None => None
      end
  | RPut n data =>
      match rc_node c n with
      | RUp nd =>
          if bool_decide (n ∈ peers)
          then Some (mkReplicas (<[n := RUp (Node_Propose data nd).1]> (rc_node c)) (rc_msgs c)) else None
      | RDown _ _ => None
      end
  | RFlush n => if bool_decide (n ∈ peers) then rop_run c n OFlush else None
  | RRead n =>
      match rc_node c n with
      | RUp nd =>
          if bool_decide (n ∈ peers)
          then Some (mkReplicas (<[n := RUp (Node_ReadIndex nd).1]> (rc_node c)) (rc_msgs c)) else None
      | RDown _ _ => None
      end
  | RCrash n =>
      match rc_node c n with
      | RUp nd =>
          match NewStateMachine (mkVdb (default (v_now (sm_db (n_sm nd))) (last (v_old (sm_db (n_sm nd))))) []) with
          | Ret y =>
              if bool_decide (n ∈ peers)
              then Some (mkReplicas (<[n := RDown (r_store (n_r nd)) y]> (rc_node c)) (rc_msgs c)) else None
          | _ => None
          end
      | RDown _ _ => None
      end
  end.

Fixpoint rexec (c : system) (l : list ract) : option system :=
  match l with
  | [] => Some c
  | a :: l => match rexec1 c a with Some c => rexec c l | None => None end
  end.

Lemma rop_run_step c n op c' : n ∈ peers -> op_ok op n (rc_msgs c) -> rop_run c n op = Some c' -> rstep peers c c'.
Proof.
  intros Hn Hok. unfold rop_run. destruct (rc_node c n) as [nd|] eqn:En; [|done].
  destruct (node_op op (with_trace [] nd)) as [nd' [[]| |]] eqn:Er; [|done..]. intros [= <-]. by eapply R_op.
Qed.

Lemma cut_nothing (nd nd1 : Node MemStore sm) : cut_store nd nd1 0 0 (r_store (n_r nd)).
Proof. split; [done|]. unfold survives. simpl. by destruct (trace_of nd1) as [|[]]. Qed.

Lemma rexec1_step c a c' : rexec1 c a = Some c' -> rstep peers c c'.
Proof.
  destruct a as [n|n|k|n d|n|n|n]; simpl.
  - destruct (rc_node c n) as [|s x] eqn:En; [done|]. case_bool_decide; [|done].
    destruct (NewNode (ex_cfg n) s [] x 0 0) as [nd| |] eqn:Eb; [|done..]. intros [= <-]. by eapply (R_restart _ _ n (ex_cfg n)).
  - case_bool_decide; [|done]. by apply rop_run_step.
  - destruct (rc_msgs c !! k) as [m|] eqn:Em; [|done]. case_bool_decide as Hn; [|done].
    apply rop_run_step; [done|]. split; [by eapply list_elem_of_lookup_2|done].
  - destruct (rc_node c n) as [nd|] eqn:En; [|done]. case_bool_decide; [|done]. intros [= <-]. by apply R_propose.
  - case_bool_decide; [|done]. by apply rop_run_step.
  - destruct (rc_node c n) as [nd|] eqn:En; [|done]. case_bool_decide; [|done]. intros [= <-]. by apply R_read.
  - destruct (rc_node c n) as [nd|] eqn:En; [|done]. destruct (NewStateMachine _) as [y| |] eqn:Ey; [|done..].
    case_bool_decide; [|done]. intros [= <-]. destruct (first_part OTick (with_trace [] nd)) as [nd1 res] eqn:Ef.
    apply (R_crash_first _ _ n nd OTick nd1 res 0 0 (r_store (n_r nd)) y); try done; [apply cut_nothing|].
    exists (mkVdb (default (v_now (sm_db (n_sm nd))) (last (v_old (sm_db (n_sm nd))))) []). split; [|done].
    split; [|done]. simpl. destruct (last (v_old (sm_db (n_sm nd)))) as [m|] eqn:El; [right|by left].
    apply last_Some_elem_of. done.
Qed.

Lemma rexec_steps c l c' : rexec c l = Some c' -> rtc (rstep peers) c c'.
Proof.
  revert c. induction l as [|a l IH]; intros c; simpl; [intros [= ->]; constructor|].
  destruct (rexec1 c a) as [c1|] eqn:E; [|done]. intros H. eapply rtc_l; [by eapply rexec1_step|by apply IH].
Qed.

Lemma rexec_some c l : is_Some (rexec c l) -> rtc (rstep peers) c (default c (rexec c l)).
Proof. intros [c' Hc]. rewrite Hc. by apply rexec_steps in Hc. Qed.

Lemma rreach_rtc c c' : rreach peers c -> rtc (rstep peers) c c' -> rreach peers c'.
Proof. intros Hc Hs. induction Hs; [done|]. apply IHHs. by econstructor. Qed.

Definition rex_start : system := mkReplicas (fun _ => RDown NewMemStore (mkSM (mkVdb ∅ []) 0 ∅ ∅)) [].

Lemma rex_start_reach : rreach peers rex_start.
Proof.
  constructor. split; [done|]. intros n. exists NewMemStore, (mkSM (mkVdb ∅ []) 0 ∅ ∅).
  assert (repr ∅ kvs0) as Hr by apply repr_empty.
  assert (sm_holds (mkSM (D := vdb) (mkVdb ∅ []) 0 ∅ ∅) kvs0) as H1 by (by split_and!).
  assert (sm_holds (mkSM (D := gmap bytes bytes) ∅ 0 ∅ ∅) kvs0) as H2 by (by split_and!).
  split_and!; try done.
  - split_and!; [done|by exists kvs0|]. intros r [-> |Hq%not_elem_of_nil]; [by exists kvs0|done].
  - intros b (r & [-> |Hq%not_elem_of_nil] & Hl); [|done]. pose proof (holds_load _ _ H2) as He.
    simpl in He, Hl. rewrite He in Hl. injection Hl as <-. reflexivity.
Qed.

(** Up to the acknowledgement of the put, and after the crash. *)
Definition rex_put : list ract :=
  [RBoot 1; RBoot 2; RTick 1; RDeliver 1; RDeliver 0; RDeliver 1; RDeliver 0; RPut 1 [x01]; RFlush 1; RDeliver 1; RDeliver 0]%N.
Definition rex_crash : list ract := [RCrash 1; RBoot 1; RDeliver 1]%N.

Definition rex_c1 : system := default rex_start (rexec rex_start rex_put).
Definition rex_c2 : system := default rex_c1 (rexec rex_c1 rex_crash).

Lemma rex_c1_c2 : rtc (rstep peers) rex_c1 rex_c2.
Proof.
  apply rexec_some. apply (bool_decide_eq_true_1 _). vm_compute. reflexivity.
Qed.

Lemma rex_c1_reach : rreach peers rex_c1.
Proof.
  apply (rreach_rtc rex_start); [apply rex_start_reach|]. apply rexec_some. apply (bool_decide_eq_true_1 _). vm_compute. reflexivity.
Qed.

(** What a client of node [n] knows of its first proposal. *)
Definition rex_answer (c : system) (n : NodeID) : option (N * bytes) :=
  match rc_node c n with
  | RUp nd =>
      match n_props nd with
      | p :: _ => if p_done p && bool_decide (p_Err p = None) then Some (p_Index p, p_Result p) else None
      | [] => None
      end
  | RDown _ _ => None
  end.

Definition rex_applied (c : system) (n : NodeID) : option N :=
  match rc_node c n with RUp nd => Some (sm_applied (n_sm nd)) | RDown _ _ => None end.


(** ** A read that is current *)

Fixpoint rexec_up (n : NodeID) (c : system) (l : list ract) : option system :=
  match l with
  | [] => Some c
  | a :: l =>
      match rexec1 c a with
      | Some c => match rc_node c n with RUp _ => rexec_up n c l | RDown _ _ => None end
      | None => None
      end
  end.

Lemma rexec_up_steps n c l c' : rexec_up n c l = Some c' -> rtc (stays_up peers n) c c'.
Proof.
  revert c. induction l as [|a l IH]; intros c; simpl; [intros [= ->]; constructor|].
  destruct (rexec1 c a) as [c1|] eqn:E; [|done]. destruct (rc_node c1 n) as [nd|] eqn:En; [|done].
  intros H. eapply rtc_l; [|by apply IH]. split; [by eapply rexec1_step|by exists nd].
Qed.

Definition fresh_b (n : NodeID) (nx : N) (m : Message) : bool :=
  ((m_ReadID m <=? nx) || negb (bool_decide (m_Type m = MsgApp /\ m_From m = n) || bool_decide (m_Type m = MsgAppResp /\ m_To m = n)))%N.

Lemma fresh_b_ok n Ms nx : forallb (fresh_b n nx) Ms = true -> fresh n Ms nx.
Proof.
  intros H m Hm. rewrite forallb_forall in H. specialize (H m). rewrite <-list_elem_of_In in H. specialize (H Hm). unfold fresh_b in H.
  destruct (N.leb_spec (m_ReadID m) nx); [done|]. simpl in H. rewrite negb_true_iff, orb_false_iff, !bool_decide_eq_false in H. tauto.
Qed.

(** The put is acknowledged; then a read is asked, and confirmed by node 2. *)
Definition rex_read : list ract := [RRead 1; RFlush 1; RDeliver 1; RDeliver 0]%N.
Definition rex_c3 : system := default rex_c1 (rexec_up 1 rex_c1 rex_read).

Definition rex_reads (c : system) (n : NodeID) : option (list Read) :=
  match rc_node c n with RUp nd => Some (n_rds nd) | RDown _ _ => None end.

Definition rex_get (c : system) (n : NodeID) (key : bytes) : option (go (option bytes)) :=
  match rc_node c n with RUp nd => Some (Get key (n_sm nd)) | RDown _ _ => None end.

Definition rex_last_id (c : system) (n : NodeID) : option N :=
  match rc_node c n with RUp nd => Some (r_nextReadID (n_r nd)) | RDown _ _ => None end.

Lemma rex_c1_c3 : rtc (stays_up peers 1) rex_c1 rex_c3.
Proof.
  assert (is_Some (rexec_up 1 rex_c1 rex_read)) as [c Hc] by (apply (bool_decide_eq_true_1 _); vm_compute; reflexivity).
  unfold rex_c3. rewrite Hc. by apply rexec_up_steps in Hc.
Qed.

Lemma rex_reads_up c n rs : rex_reads c n = Some rs -> exists nd, rc_node c n = RUp nd /\ n_rds nd = rs.
Proof. unfold rex_reads. destruct (rc_node c n) as [nd|]; [|done]. intros [= <-]. by exists nd. Qed.

Lemma rex_last_id_up c n k nd : rex_last_id c n = Some k -> rc_node c n = RUp nd -> r_nextReadID (n_r nd) = k.
Proof. unfold rex_last_id. intros Hk Hn. rewrite Hn in Hk. by injection Hk. Qed.


(** ** A stale read

    Node 1 starts a read in term 1, crashes, and is elected again in term 2
    by node 2, whose answer to the message of term 1 comes with that term and
    the number of that read.  Node 2 then takes over in term 3 and
    acknowledges a put.  Node 1, which has not heard of it, numbers its reads
    from the start again, and takes the old answer for one to its new read. *)

Definition rex_stale_before : list ract :=
  [RBoot 1; RBoot 2; RBoot 3; RTick 1; RDeliver 1; RDeliver 0; RDeliver 1; RDeliver 0; RRead 1; RFlush 1;
   RCrash 1; RBoot 1; RTick 1; RDeliver 1; RDeliver 4; RDeliver 1; RDeliver 1; RDeliver 0;
   RTick 2; RDeliver 0; RDeliver 0; RDeliver 0; RDeliver 0; RDeliver 0; RDeliver 0;
   RPut 2 [x01]; RFlush 2; RDeliver 0; RDeliver 0]%N.
Definition rex_stale_after : list ract := [RRead 1; RFlush 1; RDeliver 22]%N.

(** C26: Reads are not linearizable across a restart.  There is a run in which
    one replica acknowledges a put, after which a read is started on another
    replica and confirmed without an error, and that replica still answers
    that the key is not there.  The replica that answers was restarted: it
    numbers its reads from the start again, and a follower's refusal of a
    message from before the restart carries the old number under the new
    term. *)
Theorem stale_read_after_restart :
  exists c0 c1 : system, rreach peers c0 /\ rtc (rstep peers) c0 c1 /\
    rex_answer c0 2 = Some (4%N, [x01; x00]) /\ ex_cmd [x01] = Some (mkCommand 7 1 (Some (OpPut ex_key [x11]))) /\
    rex_reads c0 1 = Some [] /\ rex_reads c1 1 = Some [mkRead 2 None true] /\
    rex_get c1 1 ex_key = Some (Ret None).
Proof.
  set (c0 := default rex_start (rexec rex_start rex_stale_before)). set (c1 := default c0 (rexec c0 rex_stale_after)).
  exists c0, c1. split_and!; [| |vm_compute; reflexivity..].
  - apply (rreach_rtc rex_start); [apply rex_start_reach|]. apply rexec_some. apply (bool_decide_eq_true_1 _). vm_compute. reflexivity.
  - apply rexec_some. apply (bool_decide_eq_true_1 _). vm_compute. reflexivity.
Qed.
End Example.
