(* ===== verification/Server.v ===== *)
(** * kv/server.go: the client-facing service

    Requests are checked, turned into commands for the log of a group, and
    answered from the result; reads may be served from the state machine after
    a leadership check.  The replicas of a group are one state, stepped by the
    commands of its log; how a call on the log ends is an input. *)

From stdpp Require Import base list gmap.
From S2P Require Import Prelude Codec Key Batch LogStore KeyHash Db StateMachine KvSpec.

(** ** Messages (proto/kv.proto) *)

Record Session := mkSess { ses_ClientId : N; ses_Seq : N }.

Inductive ReadMode := READ_INDEX | LOG.

Record PutRequest := mkPutRequest { put_Session : option Session; put_Key : bytes; put_Value : bytes; put_Group : N }.
Record DeleteRequest := mkDeleteRequest { del_Session : option Session; del_Key : bytes; del_Group : N }.
Record CasRequest := mkCasRequest {
  cas_Session : option Session; cas_Key : bytes; cas_Expected : option bytes; cas_Value : bytes; cas_Group : N }.
Record GetRequest := mkGetRequest { get_Key : bytes; get_Mode : ReadMode; get_Session : option Session; get_Group : N }.
Record ScanRequest := mkScanRequest {
  scan_Start : bytes; scan_End : bytes; scan_Limit : N; scan_Mode : ReadMode; scan_Session : option Session; scan_Group : N;
  scan_MaxBytes : N }.
Record AdminRequest := mkAdminRequest { adm_Group : N; adm_Command : Command }.

Record CasResponse := mkCasResponse { casr_Success : bool; casr_Found : bool; casr_Current : bytes }.
Record GetResponse := mkGetResponse { getr_Found : bool; getr_Value : bytes }.

(** Errors by what they say; [code] is the gRPC code they carry. *)
Inductive code := InvalidArgument | NotFound | FailedPrecondition | Internal | Aborted | Unavailable | DeadlineExceeded | Canceled.

Inductive status :=
  | NoGroupNamed
  | NotHosted (group : N)
  | EmptyKey
  | TooLarge (size : N)
  | NotAdmin
  | BadResult
  | EngineError (e : error)
  | MovingHere                     (** "shard is moving" *)
  | NotLeader (addr : bytes)       (** with the hint, if the leader is known *)
  | ContextEnded (deadline : bool)
  | Unreachable
  | UnknownGroup (group : N)
  | StillMoving                    (** "shard is moving", to be retried by the caller *)
  | ShardOutOfRange (shard : Z)
  | NoSuchGroup (group : N)
  | MovingElsewhere (shard group : N)
  | MapChanged
  | MapCorrupt
  | NoMetaGroup
  | NoShardGroups.

Definition status_code (s : status) : code :=
  match s with
  | NoGroupNamed | EmptyKey | TooLarge _ | NotAdmin | ShardOutOfRange _ | NoSuchGroup _ | NoMetaGroup | NoShardGroups => InvalidArgument
  | NotHosted _ => NotFound
  | NotLeader _ | MovingElsewhere _ _ => FailedPrecondition
  | BadResult | EngineError _ | UnknownGroup _ | MapCorrupt => Internal
  | MovingHere | MapChanged => Aborted
  | Unreachable | StillMoving => Unavailable
  | ContextEnded true => DeadlineExceeded
  | ContextEnded false => Canceled
  end.

(** How a call on the log of a group ends.  A proposal that is not answered may
    still have been applied. *)
Inductive raftReply :=
  | Committed (index : N)
  | Refused (leader : bytes) (applied : option N)
  | Expired (deadline : bool) (applied : option N).

Definition MaxRequestBytes : N := 1048576.

Definition checkSize (parts : list bytes) : option status :=
  let size := N.of_nat (sum_list (length <$> parts)) in
  if (MaxRequestBytes <? size)%N then Some (TooLarge size) else None.

Definition setSession (op : Op) (sess : option Session) : Command :=
  match sess with
  | Some s => mkCommand (ses_ClientId s) (ses_Seq s) (Some op)
  | None => mkCommand 0 0 (Some op)
  end.

(** The groups a node hosts. *)
Abbreviation groups := (gmap N kvs).

Section Server.
Context (marshal : Result -> bytes) (unmarshalResult : bytes -> option Result).

Definition group (id : N) (gs : groups) : status + N :=
  if (id =? 0)%N then
    match map_to_list gs with
    | [(g, _)] => inr g
    | _ => inl NoGroupNamed
    end
  else if bool_decide (is_Some (gs !! id)) then inr id else inl (NotHosted id).

Definition apply_to (g : N) (cmd : Command) (index : N) (gs : groups) : groups * bytes :=
  match gs !! g with
  | Some st => let '(st, result) := kv_step marshal cmd index st in (<[g := st]> gs, result)
  | None => (gs, [])
  end.

Definition apply_late (g : N) (cmd : Command) (applied : option N) (gs : groups) : groups :=
  match applied with Some i => (apply_to g cmd i gs).1 | None => gs end.

Definition propose (o : raftReply) (g : N) (cmd : Command) (gs : groups) : groups * (status + Result) :=
  match o with
  | Committed i =>
      let '(gs, data) := apply_to g cmd i gs in
      (gs, match unmarshalResult data with
           | None => inl BadResult
           | Some res => if res_Moving res then inl MovingHere else inr res
           end)
  | Refused leader applied => (apply_late g cmd applied gs, inl (NotLeader leader))
  | Expired dl applied => (apply_late g cmd applied gs, inl (ContextEnded dl))
  end.

Definition readIndex (o : raftReply) : option status :=
  match o with
  | Committed _ => None
  | Refused leader _ => Some (NotLeader leader)
  | Expired dl _ => Some (ContextEnded dl)
  end.

Definition srv_RegisterClient (o : raftReply) (id : N) (gs : groups) : groups * (status + N) :=
  match group id gs with
  | inl e => (gs, inl e)
  | inr g =>
      let '(gs, r) := propose o g (mkCommand 0 0 (Some Register)) gs in
      (gs, match r with inl e => inl e | inr res => inr (res_ClientId res) end)
  end.

Definition srv_Put (o : raftReply) (req : PutRequest) (gs : groups) : groups * (status + unit) :=
  match group (put_Group req) gs with
  | inl e => (gs, inl e)
  | inr g =>
      if length (put_Key req) =? 0 then (gs, inl EmptyKey)
      else
        match checkSize [put_Key req; put_Value req] with
        | Some e => (gs, inl e)
        | None =>
            let '(gs, r) := propose o g (setSession (OpPut (put_Key req) (put_Value req)) (put_Session req)) gs in
            (gs, match r with inl e => inl e | inr _ => inr tt end)
        end
  end.

Definition srv_Delete (o : raftReply) (req : DeleteRequest) (gs : groups) : groups * (status + unit) :=
  match group (del_Group req) gs with
  | inl e => (gs, inl e)
  | inr g =>
      if length (del_Key req) =? 0 then (gs, inl EmptyKey)
      else
        match checkSize [del_Key req] with
        | Some e => (gs, inl e)
        | None =>
            let '(gs, r) := propose o g (setSession (OpDelete (del_Key req)) (del_Session req)) gs in
            (gs, match r with inl e => inl e | inr _ => inr tt end)
        end
  end.

Definition srv_Cas (o : raftReply) (req : CasRequest) (gs : groups) : groups * (status + CasResponse) :=
  match group (cas_Group req) gs with
  | inl e => (gs, inl e)
  | inr g =>
      if length (cas_Key req) =? 0 then (gs, inl EmptyKey)
      else
        match checkSize [cas_Key req; default [] (cas_Expected req); cas_Value req] with
        | Some e => (gs, inl e)
        | None =>
            let '(gs, r) := propose o g (setSession (OpCas (cas_Key req) (cas_Expected req) (cas_Value req)) (cas_Session req)) gs in
            (gs, match r with inl e => inl e | inr res => inr (mkCasResponse (res_Success res) (res_Found res) (res_Value res)) end)
        end
  end.

(** The state machine's own reads ([Get] and [Scan] of kv/statemachine.go). *)
Definition local_get (key : bytes) (st : kvs) : status + option bytes :=
  if readable (kv_shards st) key then inr (kv_data st !! key) else inl MovingHere.

Definition srv_Get (o : raftReply) (req : GetRequest) (gs : groups) : groups * (status + GetResponse) :=
  match group (get_Group req) gs with
  | inl e => (gs, inl e)
  | inr g =>
      if length (get_Key req) =? 0 then (gs, inl EmptyKey)
      else
        match checkSize [get_Key req] with
        | Some e => (gs, inl e)
        | None =>
            match get_Mode req with
            | LOG =>
                let '(gs, r) := propose o g (setSession (OpGet (get_Key req)) (get_Session req)) gs in
                (gs, match r with inl e => inl e | inr res => inr (mkGetResponse (res_Found res) (res_Value res)) end)
            | READ_INDEX =>
                (gs, match readIndex o, gs !! g with
                     | Some e, _ => inl e
                     | None, Some st =>
                         match local_get (get_Key req) st with
                         | inl e => inl e
                         | inr v => inr (mkGetResponse (bool_decide (is_Some v)) (default [] v))
                         end
                     | None, None => inl (NotHosted g)
                     end)
            end
        end
  end.

Definition isAdmin (op : option Op) : bool :=
  match op with Some (Freeze _) | Some (Import _ _ _) | Some (Purge _) => true | _ => false end.

Definition srv_Admin (o : raftReply) (req : AdminRequest) (gs : groups) : groups * (status + Result) :=
  match group (adm_Group req) gs with
  | inl e => (gs, inl e)
  | inr g => if isAdmin (cmd_Op (adm_Command req)) then propose o g (adm_Command req) gs else (gs, inl NotAdmin)
  end.

Definition srv_Scan (o : raftReply) (req : ScanRequest) (gs : groups) : groups * (status + list KeyValue) :=
  match group (scan_Group req) gs with
  | inl e => (gs, inl e)
  | inr g =>
      match checkSize [scan_Start req; scan_End req] with
      | Some e => (gs, inl e)
      | None =>
          match scan_Mode req with
          | LOG =>
              let '(gs, r) :=
                propose o g (setSession (OpScan (scan_Start req) (scan_End req) (scan_Limit req) (scan_MaxBytes req)) (scan_Session req)) gs in
              (gs, match r with inl e => inl e | inr res => inr (res_Kvs res) end)
          | READ_INDEX =>
              (gs, match readIndex o, gs !! g with
                   | Some e, _ => inl e
                   | None, Some st => inr (kv_scan (scan_Start req) (scan_End req) (N.to_nat (scan_Limit req)) (N.to_nat (scan_MaxBytes req)) (kv_data st))
                   | None, None => inl (NotHosted g)
                   end)
          end
      end
  end.

(** ** The service *)

Inductive Request :=
  | RqRegister (group : N)
  | RqPut (r : PutRequest)
  | RqDelete (r : DeleteRequest)
  | RqCas (r : CasRequest)
  | RqGet (r : GetRequest)
  | RqScan (r : ScanRequest)
  | RqAdmin (r : AdminRequest).

Inductive Response :=
  | RsRegister (client : N)
  | RsPut
  | RsDelete
  | RsCas (r : CasResponse)
  | RsGet (r : GetResponse)
  | RsScan (kvs : list KeyValue)
  | RsAdmin (r : Result).

Definition answer {A} (f : A -> Response) (x : groups * (status + A)) : groups * (status + Response) :=
  (x.1, match x.2 with inl e => inl e | inr a => inr (f a) end).

Definition serve (o : raftReply) (req : Request) (gs : groups) : groups * (status + Response) :=
  match req with
  | RqRegister g => answer RsRegister (srv_RegisterClient o g gs)
  | RqPut r => answer (fun _ => RsPut) (srv_Put o r gs)
  | RqDelete r => answer (fun _ => RsDelete) (srv_Delete o r gs)
  | RqCas r => answer RsCas (srv_Cas o r gs)
  | RqGet r => answer RsGet (srv_Get o r gs)
  | RqScan r => answer RsScan (srv_Scan o r gs)
  | RqAdmin r => answer RsAdmin (srv_Admin o r gs)
  end.
End Server.
