(* ===== verification/Client.v ===== *)
(** * kv/client.go: the client library

    A client follows leader hints and retries; every call takes one sequence
    number, and all attempts of a call carry it.  The transport is a parameter:
    what an attempt does to the world and how it ends. *)

From stdpp Require Import base list gmap.
From S2P Require Import Prelude Codec Key Batch LogStore KeyHash Db StateMachine KvSpec Server.

(** An error of an attempt: a gRPC status, or something else. *)
Inductive callError := NotStatus | Status (s : status).

(** The empty address is no address. *)
Record Client := mkClient {
  c_endpoints : list bytes;
  c_group : N;
  c_leader : bytes;
  c_next : nat;
  c_clientID : N;
  c_seq : N;
}.

Definition NewClient (endpoints : list bytes) (group : N) : option Client :=
  match endpoints with
  | [] => None
  | _ => Some (mkClient endpoints group [] 0 0 0)
  end.

Definition nextSession (c : Client) : Client * Session :=
  let seq := u64 (c_seq c + 1) in
  (mkClient (c_endpoints c) (c_group c) (c_leader c) (c_next c) (c_clientID c) seq, mkSess (c_clientID c) seq).

Definition target (c : Client) : bytes :=
  match c_leader c with
  | [] => nth (c_next c mod length (c_endpoints c)) (c_endpoints c) []
  | addr => addr
  end.

Definition guess (leader : bytes) (next : nat) (c : Client) : Client :=
  mkClient (c_endpoints c) (c_group c) leader next (c_clientID c) (c_seq c).

Inductive verdict := Hinted | Fatal | Again.

Definition handleFailure (addr : bytes) (err : callError) (c : Client) : Client * verdict :=
  match err with
  | NotStatus => (guess [] (c_next c) c, Again)
  | Status st =>
      match status_code st with
      | FailedPrecondition =>
          match st with
          | NotLeader hint =>
              if bool_decide (hint <> []) && bool_decide (hint <> addr) then (guess hint (c_next c) c, Hinted)
              else (guess [] (S (c_next c)) c, Again)
          | _ => (guess [] (S (c_next c)) c, Again)
          end
      | Unavailable | DeadlineExceeded | Canceled => (guess [] (S (c_next c)) c, Again)
      | _ => (c, Fatal)
      end
  end.

Section Calls.
Context {W : Type} (rpc : bytes -> Request -> W -> W * (callError + Response)).

(** [tries] failed attempts are made before the context ends. *)
Fixpoint Do (tries : nat) (req : Request) (c : Client) (w : W) : Client * W * (callError + Response) :=
  let addr := target c in
  let '(w, r) := rpc addr req w in
  match r with
  | inr res => (c, w, inr res)
  | inl err =>
      let '(c, v) := handleFailure addr err c in
      match v, tries with
      | Fatal, _ | _, O => (c, w, inl err)
      | _, S tries => Do tries req c w
      end
  end.

Definition Dial (tries : nat) (endpoints : list bytes) (group : N) (w : W) : W * option Client :=
  match NewClient endpoints group with
  | None => (w, None)
  | Some c =>
      let '(c, w, r) := Do tries (RqRegister group) c w in
      (w, match r with
          | inr (RsRegister id) => Some (mkClient (c_endpoints c) (c_group c) (c_leader c) (c_next c) id (c_seq c))
          | _ => None
          end)
  end.

Definition cl_Put (tries : nat) (key value : bytes) (c : Client) (w : W) : Client * W * (callError + Response) :=
  let '(c, sess) := nextSession c in Do tries (RqPut (mkPutRequest (Some sess) key value (c_group c))) c w.

Definition cl_Delete (tries : nat) (key : bytes) (c : Client) (w : W) : Client * W * (callError + Response) :=
  let '(c, sess) := nextSession c in Do tries (RqDelete (mkDeleteRequest (Some sess) key (c_group c))) c w.

Definition cl_Cas (tries : nat) (key : bytes) (expected : option bytes) (value : bytes) (c : Client) (w : W) : Client * W * (callError + Response) :=
  let '(c, sess) := nextSession c in Do tries (RqCas (mkCasRequest (Some sess) key expected value (c_group c))) c w.

Definition cl_Get (tries : nat) (key : bytes) (mode : ReadMode) (c : Client) (w : W) : Client * W * (callError + Response) :=
  let '(c, sess) := nextSession c in Do tries (RqGet (mkGetRequest key mode (Some sess) (c_group c))) c w.

Definition cl_Scan (tries : nat) (start stop : bytes) (limit : N) (mode : ReadMode) (c : Client) (w : W) : Client * W * (callError + Response) :=
  let '(c, sess) := nextSession c in Do tries (RqScan (mkScanRequest start stop limit mode (Some sess) (c_group c) 0)) c w.
End Calls.
