(* ===== verification/ClientTheorems.v ===== *)
(** * A call of the client takes effect once

    The client library, the service and the state machine of a group together:
    attempts that fail, that are refused, or that are applied with the reply
    lost, and commands of other clients in between. *)

From stdpp Require Import base list gmap.
From S2P Require Import Prelude Codec Key Batch LogStore KeyHash Db StateMachine KvSpec Server Client.

Section Once.
Context (marshal : Result -> bytes) (unmarshalResult : bytes -> option Result) (g : N).

(** ** The world between attempts *)

(** What happens around one attempt: commands of others are applied first,
    then the request is lost, or reaches the group. *)
Record attempt := mkAttempt { at_others : list (Command * N); at_reply : option raftReply }.

Record world := mkWorld { w_state : kvs; w_script : list attempt }.

Definition run (l : list (Command * N)) (st : kvs) : kvs := foldl (fun st ci => (kv_step marshal ci.1 ci.2 st).1) st l.

Definition world_rpc (addr : bytes) (req : Request) (w : world) : world * (callError + Response) :=
  match w_script w with
  | [] => (w, inl (Status Unreachable))
  | a :: script =>
      let st := run (at_others a) (w_state w) in
      match at_reply a with
      | None => (mkWorld st script, inl (Status Unreachable))
      | Some o =>
          let '(gs, r) := serve marshal unmarshalResult o req {[g := st]} in
          (mkWorld (default st (gs !! g)) script, match r with inl e => inl (Status e) | inr res => inr res end)
      end
  end.

(** ** The command of a request *)

Definition req_command (req : Request) : option Command :=
  match req with
  | RqRegister _ => Some (mkCommand 0 0 (Some Register))
  | RqPut r => Some (setSession (OpPut (put_Key r) (put_Value r)) (put_Session r))
  | RqDelete r => Some (setSession (OpDelete (del_Key r)) (del_Session r))
  | RqCas r => Some (setSession (OpCas (cas_Key r) (cas_Expected r) (cas_Value r)) (cas_Session r))
  | RqGet r => match get_Mode r with LOG => Some (setSession (OpGet (get_Key r)) (get_Session r)) | READ_INDEX => None end
  | RqScan r =>
      match scan_Mode r with
      | LOG => Some (setSession (OpScan (scan_Start r) (scan_End r) (scan_Limit r) (scan_MaxBytes r)) (scan_Session r))
      | READ_INDEX => None
      end
  | RqAdmin r => Some (adm_Command r)
  end.

(** The response made from a result. *)
Definition respond (req : Request) (res : Result) : Response :=
  match req with
  | RqRegister _ => RsRegister (res_ClientId res)
  | RqPut _ => RsPut
  | RqDelete _ => RsDelete
  | RqCas _ => RsCas (mkCasResponse (res_Success res) (res_Found res) (res_Value res))
  | RqGet _ => RsGet (mkGetResponse (res_Found res) (res_Value res))
  | RqScan _ => RsScan (res_Kvs res)
  | RqAdmin _ => RsAdmin res
  end.

Lemma group_single id st x : group id {[g := st]} = inr x -> x = g.
Proof.
  unfold group. destruct (id =? 0)%N.
  - rewrite map_to_list_singleton. by intros [= ->].
  - case_bool_decide as H; [|done]. intros [= <-]. destruct H as [y [<- _]%lookup_singleton_Some]. done.
Qed.

Lemma propose_effect o cmd st gs r :
  propose marshal unmarshalResult o g cmd {[g := st]} = (gs, r) ->
  (gs = {[g := st]} /\ forall res, r <> inr res) \/
  (exists i, gs = {[g := (kv_step marshal cmd i st).1]} /\
     forall res, r = inr res -> unmarshalResult (kv_step marshal cmd i st).2 = Some res /\ res_Moving res = false).
Proof.
  assert (forall i, apply_to marshal g cmd i {[g := st]} = ({[g := (kv_step marshal cmd i st).1]}, (kv_step marshal cmd i st).2)) as Ha.
  { intros i. unfold apply_to. rewrite lookup_singleton_eq. destruct (kv_step marshal cmd i st). by rewrite insert_singleton_eq. }
  destruct o as [i|lead [i|]|dl [i|]]; cbn [propose apply_late]; rewrite ?Ha; intros [= <- <-].
  - right. exists i. split; [done|]. intros res. destruct (unmarshalResult _) as [x|]; [|done]. destruct (res_Moving x) eqn:E; [done|]. by intros [= <-].
  - right. by exists i.
  - by left.
  - right. by exists i.
  - by left.
Qed.

(** A request leaves the group as it was, or is its command's step. *)
Lemma serve_effect o req cmd st gs r :
  req_command req = Some cmd -> serve marshal unmarshalResult o req {[g := st]} = (gs, r) ->
  (gs = {[g := st]} /\ forall res, r <> inr res) \/
  (exists i, gs = {[g := (kv_step marshal cmd i st).1]} /\
     forall res, r = inr res -> exists x, unmarshalResult (kv_step marshal cmd i st).2 = Some x /\ res = respond req x).
Proof.
  assert (forall A (f : A -> Response) x gs0 r0, answer f x = (gs0, r0) -> x.1 = gs0 /\ r0 = match x.2 with inl e => inl e | inr a => inr (f a) end) as Hans.
  { by intros A f x gs0 r0 [= <- <-]. }
  intros Hc Hs. destruct req as [id|rq|rq|rq|rq|rq|rq]; cbn [serve req_command] in *; apply Hans in Hs as [<- ->];
    unfold srv_RegisterClient, srv_Put, srv_Delete, srv_Cas, srv_Get, srv_Scan, srv_Admin;
    destruct (group _ _) as [e|x] eqn:Hg; try (by left); apply group_single in Hg as ->;
    repeat match goal with |- context [if length ?k =? 0 then _ else _] => destruct (length k =? 0); [by left|] end;
    repeat match goal with |- context [match checkSize ?k with _ => _ end] => destruct (checkSize k); [by left|] end;
    try (destruct (get_Mode rq); [done|]); try (destruct (scan_Mode rq); [done|]); try (destruct (isAdmin _); [|by left]); injection Hc as <-;
    match goal with |- context [propose _ _ ?o ?g ?c ?m] => destruct (propose _ _ o g c m) as [gs1 r1] eqn:Hp end;
    (destruct (propose_effect _ _ _ _ _ Hp) as [[-> Hr]|(i & -> & Hr)]; [left|right; exists i]); (split; [done|]); intros res; simpl;
    destruct r1 as [e|y]; try done; try (by destruct (Hr y)); intros [= <-]; exists y; (split; [by apply Hr|done]).
Qed.

(** ** States that differ in the applied index only *)

Definition same (st st' : kvs) : Prop := kv_data st = kv_data st' /\ kv_sessions st = kv_sessions st' /\ kv_shards st = kv_shards st'.

#[local] Instance same_equivalence : Equivalence same.
Proof. unfold same. split; [done|intros x y (? & ? & ?); by split_and!|]. intros x y z (? & ? & ?) (? & ? & ?). split_and!; congruence. Qed.

Lemma step_same cmd i st st' : same st st' -> same (kv_step marshal cmd i st).1 (kv_step marshal cmd i st').1 /\ (kv_step marshal cmd i st).2 = (kv_step marshal cmd i st').2.
Proof.
  intros (Hd & Hs & Hh). unfold kv_step. rewrite Hs. destruct (duplicate _ _); [by split|].
  assert (kv_exec (cmd_Op cmd) i st = kv_exec (cmd_Op cmd) i st') as -> by (unfold kv_exec; by rewrite Hd, Hh).
  by destruct (kv_exec _ i st') as [[res d] sh].
Qed.

#[local] Instance run_same l : Proper (same ==> same) (run l).
Proof. induction l as [|[c i] l IH]; intros st st' Hs; [done|]. simpl. by apply IH, step_same. Qed.

Lemma run_app l1 l2 st : run (l1 ++ l2) st = run l2 (run l1 st).
Proof. apply foldl_app. Qed.

(** ** Sessions *)

Context (cmd : Command).
Local Abbreviation id := (cmd_ClientId cmd).

(** A command that is not the client's and does not register it. *)
Definition foreign (ci : Command * N) : Prop := cmd_ClientId ci.1 <> id /\ ci.2 <> id.

Lemma exec_new_id op index st : res_ClientId (kv_exec op index st).1.1 = 0%N \/ res_ClientId (kv_exec op index st).1.1 = index.
Proof. unfold kv_exec. destruct op as [[]|]; simpl; auto; repeat case_match; auto. Qed.

Lemma foreign_session l st : Forall foreign l -> kv_sessions (run l st) !! id = kv_sessions st !! id.
Proof.
  intros Hl. revert st. induction Hl as [|[c i] l [H1 H2] _ IH]; intros st; [done|].
  change (run ((c, i) :: l) st) with (run l (kv_step marshal c i st).1). rewrite IH. simpl. unfold kv_step.
  destruct (duplicate c _); [done|]. pose proof (exec_new_id (cmd_Op c) i st) as Hcl. destruct (kv_exec _ i st) as [[res d] sh]. simpl in *.
  unfold record_session. destruct (res_ClientId res =? 0)%N eqn:E1, (cmd_ClientId c =? 0)%N; rewrite ?lookup_insert_ne; try done;
    (apply N.eqb_neq in E1; destruct Hcl; congruence).
Qed.

(** The client's own command, first and again. *)
Lemma own_first i st :
  cmd_Op cmd <> Some Register -> id <> 0%N -> (forall s, kv_sessions st !! id = Some s -> (s_seq s < cmd_Seq cmd)%N) ->
  kv_sessions (kv_step marshal cmd i st).1 !! id = Some (mkSession (cmd_Seq cmd) (kv_step marshal cmd i st).2).
Proof.
  intros Hop Hid Hs. unfold kv_step.
  assert (duplicate cmd (kv_sessions st) = None) as ->.
  { unfold duplicate. destruct (kv_sessions st !! id) as [s|] eqn:E; [|done]. specialize (Hs s eq_refl). destruct (N.leb_spec (cmd_Seq cmd) (s_seq s)); [lia|]. by rewrite andb_false_r. }
  assert (res_ClientId (kv_exec (cmd_Op cmd) i st).1.1 = 0%N) as Hc by (destruct (cmd_Op cmd) as [[]|]; simpl; repeat case_match; done).
  destruct (kv_exec _ i st) as [[res d] sh]. simpl in *. rewrite Hc. simpl. unfold record_session. simpl. destruct (N.eqb_spec id 0); [done|]. by rewrite lookup_insert_eq.
Qed.

Lemma own_again i st x :
  id <> 0%N -> kv_sessions st !! id = Some (mkSession (cmd_Seq cmd) x) -> same (kv_step marshal cmd i st).1 st /\ (kv_step marshal cmd i st).2 = x.
Proof.
  intros Hid Hs. unfold kv_step, duplicate. rewrite Hs. destruct (N.eqb_spec id 0); [done|]. simpl. by rewrite N.leb_refl.
Qed.

(** ** Attempts *)

Context (req : Request) (Hreq : req_command req = Some cmd) (Hop : cmd_Op cmd <> Some Register) (Hid : id <> 0%N).

Definition quiet (script : list attempt) : Prop := Forall (fun a => Forall foreign (at_others a)) script.

Definition others (script : list attempt) : list (Command * N) := concat (at_others <$> script).

(** One attempt: nothing, or one step of the command. *)
Lemma rpc_effect addr w w' r :
  world_rpc addr req w = (w', r) ->
  exists used, w_script w = used ++ w_script w' /\ length used <= 1 /\ let st := run (others used) (w_state w) in
    (w_state w' = st /\ forall res, r <> inr res) \/
    (exists i, w_state w' = (kv_step marshal cmd i st).1 /\
      forall res, r = inr res -> exists x, unmarshalResult (kv_step marshal cmd i st).2 = Some x /\ res = respond req x).
Proof.
  unfold world_rpc. destruct w as [st0 [|a script]]; cbn [w_script w_state].
  - intros [= <- <-]. exists []. split; [done|]. split; [simpl; lia|]. left. done.
  - assert (run (others [a]) st0 = run (at_others a) st0) as Ho by (unfold others; simpl; by rewrite app_nil_r).
    destruct (at_reply a) as [o|].
    + destruct (serve _ _ _ _ _) as [gs r0] eqn:Hs. intros [= <- <-]. exists [a]. split; [done|]. split; [simpl; lia|]. cbv zeta. rewrite Ho. simpl.
      destruct (serve_effect _ _ _ _ _ _ Hreq Hs) as [[-> Hr]|(i & -> & Hr)]; rewrite lookup_singleton_eq; simpl.
      * left. split; [done|]. intros res. destruct r0; [done|]. intros [= <-]. by eapply Hr.
      * right. exists i. split; [done|]. intros res. destruct r0; [done|]. intros [= <-]. by apply Hr.
    + intros [= <- <-]. exists [a]. split; [done|]. split; [simpl; lia|]. cbv zeta. rewrite Ho. left. done.
Qed.

Lemma quiet_app s1 s2 : quiet (s1 ++ s2) <-> quiet s1 /\ quiet s2.
Proof. apply Forall_app. Qed.

Lemma others_app s1 s2 : others (s1 ++ s2) = others s1 ++ others s2.
Proof. unfold others. by rewrite fmap_app, concat_app. Qed.

Lemma quiet_foreign s : quiet s -> Forall foreign (others s).
Proof. unfold quiet, others. induction 1; [constructor|]. simpl. by apply Forall_app. Qed.

(** Once the session has the command's number, nothing more happens. *)
Lemma do_again tries c w c' w' r x :
  quiet (w_script w) -> kv_sessions (w_state w) !! id = Some (mkSession (cmd_Seq cmd) x) -> Do world_rpc tries req c w = (c', w', r) ->
  exists used, w_script w = used ++ w_script w' /\ same (w_state w') (run (others used) (w_state w)) /\
    forall res, r = inr res -> exists y, unmarshalResult x = Some y /\ res = respond req y.
Proof.
  revert c w. induction tries as [|tries IH]; intros c w Hq Hx; cbn [Do]; destruct (world_rpc _ _ w) as [w1 r1] eqn:Hr;
    destruct (rpc_effect _ _ _ _ Hr) as (used & Hu & _ & Heff); cbv zeta in Heff; rewrite Hu in Hq; apply quiet_app in Hq as [Hq1 Hq2];
    assert (kv_sessions (run (others used) (w_state w)) !! id = Some (mkSession (cmd_Seq cmd) x)) as Hx1 by (by rewrite foreign_session by (by apply quiet_foreign));
    assert (same (w_state w1) (run (others used) (w_state w)) /\ forall res, r1 = inr res -> exists y, unmarshalResult x = Some y /\ res = respond req y) as [Hs1 Hr1]
      by (destruct Heff as [[-> Hn]|(i & -> & Hn)]; [split; [done|by intros res Hres; destruct (Hn res)]|];
          destruct (own_again i _ x Hid Hx1) as [Hsame Heq]; rewrite Heq in Hn; by split);
    (destruct r1 as [err|res]; [|intros [= <- <- <-]; exists used; split_and!; naive_solver]);
    destruct (handleFailure _ _ c) as [c1 v].
  - destruct v; intros [= <- <- <-]; exists used; by split_and!.
  - assert (kv_sessions (w_state w1) !! id = Some (mkSession (cmd_Seq cmd) x)) as Hx2 by (destruct Hs1 as (_ & -> & _); done).
    destruct v; [|intros [= <- <- <-]; exists used; by split_and!|]; intros Hd; destruct (IH _ _ Hq2 Hx2 Hd) as (used2 & Hu2 & Hs2 & Hr2);
      exists (used ++ used2); rewrite <-app_assoc, <-Hu2; (split_and!; [done| |done]); rewrite others_app, run_app, Hs2; by apply run_same.
Qed.

Definition once (script : list attempt) (st st' : kvs) (r : callError + Response) : Prop :=
  (same st' (run (others script) st) /\ forall res, r <> inr res) \/
  (exists pre post i, others script = pre ++ post /\ same st' (run (pre ++ [(cmd, i)] ++ post) st) /\
    forall res, r = inr res -> exists x, unmarshalResult (kv_step marshal cmd i (run pre st)).2 = Some x /\ res = respond req x).

Lemma do_once tries c w c' w' r :
  quiet (w_script w) -> (forall s, kv_sessions (w_state w) !! id = Some s -> (s_seq s < cmd_Seq cmd)%N) -> Do world_rpc tries req c w = (c', w', r) ->
  exists used, w_script w = used ++ w_script w' /\ once used (w_state w) (w_state w') r.
Proof.
  revert c w. induction tries as [|tries IH]; intros c w Hq Hx; cbn [Do]; destruct (world_rpc _ _ w) as [w1 r1] eqn:Hr;
    destruct (rpc_effect _ _ _ _ Hr) as (used & Hu & _ & Heff); cbv zeta in Heff; rewrite Hu in Hq; apply quiet_app in Hq as [Hq1 Hq2];
    assert (forall s, kv_sessions (run (others used) (w_state w)) !! id = Some s -> (s_seq s < cmd_Seq cmd)%N) as Hx1
      by (intros s; rewrite foreign_session by (by apply quiet_foreign); apply Hx);
    assert (once used (w_state w) (w_state w1) r1) as Ho
      by (destruct Heff as [[-> Hn]|(i & -> & Hn)]; [by left|right; exists (others used), [], i; rewrite !app_nil_r, run_app; by split_and!]);
    (destruct r1 as [err|res]; [|intros [= <- <- <-]; by exists used]); destruct (handleFailure _ _ c) as [c1 v].
  - destruct v; intros [= <- <- <-]; by exists used.
  - destruct v; [|intros [= <- <- <-]; by exists used|]; intros Hd; destruct Heff as [[Hst Hn]|(i & Hst & Hn)].
    1,3: rewrite <-Hst in Hx1; destruct (IH _ _ Hq2 Hx1 Hd) as (used2 & Hu2 & Ho2); exists (used ++ used2); rewrite <-app_assoc, <-Hu2; (split; [done|]);
      unfold once in *; rewrite others_app, Hst in *; destruct Ho2 as [[Hs Hr2]|(pre & post & j & Hpp & Hs & Hr2)];
      [left; by rewrite run_app|right; exists (others used ++ pre), post, j; rewrite Hpp, <-!app_assoc, !run_app in *; by split_and!].
    all: pose proof (own_first i _ Hop Hid Hx1) as Hx2; rewrite <-Hst in Hx2; destruct (do_again _ _ _ _ _ _ _ Hq2 Hx2 Hd) as (used2 & Hu2 & Hs2 & Hr2);
      exists (used ++ used2); rewrite <-app_assoc, <-Hu2; (split; [done|]); right; exists (others used), (others used2), i;
      rewrite others_app, !run_app; (split_and!; [done| |done]); by rewrite Hs2, Hst.
Qed.
End Once.

(** ** The calls of the library *)

(** The request a call sends and the operation in its command. *)
Inductive issues (c : Client) (sess : Session) : Request -> Op -> Prop :=
  | issues_put k v : issues c sess (RqPut (mkPutRequest (Some sess) k v (c_group c))) (OpPut k v)
  | issues_delete k : issues c sess (RqDelete (mkDeleteRequest (Some sess) k (c_group c))) (OpDelete k)
  | issues_cas k x v : issues c sess (RqCas (mkCasRequest (Some sess) k x v (c_group c))) (OpCas k x v)
  | issues_get k : issues c sess (RqGet (mkGetRequest k LOG (Some sess) (c_group c))) (OpGet k)
  | issues_scan a b n : issues c sess (RqScan (mkScanRequest a b n LOG (Some sess) (c_group c) 0)) (OpScan a b n 0).

(** C23: One call of the client library, however many attempts it takes and
    whichever of them are lost, refused, or applied without an answer, and
    whatever other clients do in between, changes the group as if its command
    had been applied at most once, and exactly once if the call succeeds, with
    the response of that one execution. *)
Theorem client_call_once marshal unmarshalResult g tries req op c w c' w' r :
  let '(c1, sess) := nextSession c in
  let cmd := mkCommand (c_clientID c) (ses_Seq sess) (Some op) in
  issues c1 sess req op -> c_clientID c <> 0%N -> (c_seq c + 1 < w64)%N ->
  (forall s, kv_sessions (w_state w) !! c_clientID c = Some s -> (s_seq s <= c_seq c)%N) -> quiet cmd (w_script w) ->
  Do (world_rpc marshal unmarshalResult g) tries req c1 w = (c', w', r) ->
  exists used, w_script w = used ++ w_script w' /\ once marshal unmarshalResult cmd req used (w_state w) (w_state w') r.
Proof.
  cbn [nextSession ses_Seq]. intros Hi Hid Hseq Hs Hq Hd. eapply do_once; [| |exact Hid|exact Hq| |exact Hd].
  - by destruct Hi.
  - by destruct Hi.
  - intros s Hx. specialize (Hs s Hx). simpl. rewrite u64_small by done. lia.
Qed.

Definition ex_marshal (r : Result) : bytes := if res_Success r then [x01] else [x00].
Definition ex_unmarshal (b : bytes) : option Result := Some (if bool_decide (b = [x01]) then success else noResult).
Definition ex_client : Client := mkClient [[x61]; [x62]] 0 [] 0 7 0.
(** Applied, but the answer is lost; then another client writes; then answered. *)
Definition ex_script : list attempt :=
  [mkAttempt [] (Some (Expired true (Some 5%N))); mkAttempt [(mkCommand 8 1 (Some (OpPut [x6b] [x32])), 6%N)] (Some (Committed 7))].

Definition ex_request : Request := RqPut (mkPutRequest (Some (mkSess 7 1)) [x6b] [x31] 0).
Definition ex_done : Client * world * (callError + Response) :=
  Do (world_rpc ex_marshal ex_unmarshal 1) 3 ex_request (nextSession ex_client).1 (mkWorld kvs0 ex_script).

Lemma client_call_once_witness :
  cl_Put (world_rpc ex_marshal ex_unmarshal 1) 3 [x6b] [x31] ex_client (mkWorld kvs0 ex_script) = ex_done /\
  kv_data (w_state ex_done.1.2) !! [x6b] = Some [x32] /\
  exists used, ex_script = used ++ [] /\
    once ex_marshal ex_unmarshal (mkCommand 7 1 (Some (OpPut [x6b] [x31]))) ex_request used kvs0 (w_state ex_done.1.2) (inr RsPut).
Proof.
  split; [vm_compute; reflexivity|]. split; [vm_compute; reflexivity|].
  apply (client_call_once ex_marshal ex_unmarshal 1 3 ex_request (OpPut [x6b] [x31]) ex_client (mkWorld kvs0 ex_script) ex_done.1.1 (mkWorld (w_state ex_done.1.2) [])).
  - exact (issues_put (nextSession ex_client).1 (nextSession ex_client).2 [x6b] [x31]).
  - done.
  - done.
  - done.
  - repeat constructor; done.
  - vm_compute. reflexivity.
Defined.
