(* ===== verification/Router.v ===== *)
(** * shard/shard.go, shard/router.go: shards, routing and moving

    The operations of a router are programs: trees of the calls they make to
    groups and of their accesses to the cached shard map, which other
    operations of the same router share.  A call is one run of [Client.Do]
    against the group. *)

From Stdlib Require Import Strings.String.
From stdpp Require Import base list gmap sorting.
From S2P Require Import Prelude Codec Key Batch LogStore KeyHash Db StateMachine KvSpec Server Client.

Local Open Scope nat_scope.

(** ** The shard map *)

Record ShardMap := mkMap { sm_Groups : list N; sm_Moving : list N }.

Definition MetaGroup : N := 1.
Definition mapKey : bytes := x00 :: str "keystone/shardmap".

Definition DefaultMap (gids : list N) : ShardMap :=
  mkMap ((fun i => nth (i mod length gids) gids 0%N) <$> seq 0 (N.to_nat Shards)) (replicate (N.to_nat Shards) 0%N).

Definition movingTries : nat := 4.
Definition importChunk : N := 1000.

(** ** Programs *)

Inductive prog (A : Type) : Type :=
  | Done (a : A)
  | Crash                                                          (** a panic *)
  | Rpc (g : N) (req : Request) (k : status + Response -> prog A)
  | Load (k : option (ShardMap * bytes) -> prog A)                 (** [r.shards], [r.raw] *)
  | New (m : ShardMap) (k : nat -> prog A)                         (** a fresh map object *)
  | Assign (p : nat) (m : ShardMap) (k : prog A)                   (** writing to a map object *)
  | Publish (p : nat) (raw : bytes) (k : prog A)                   (** [r.shards, r.raw = p, raw] *)
  | Ended (k : bool -> prog A).                                    (** has the context ended? *)

Arguments Done {A}.
Arguments Crash {A}.
Arguments Rpc {A}.
Arguments Load {A}.
Arguments New {A}.
Arguments Assign {A}.
Arguments Publish {A}.
Arguments Ended {A}.

Fixpoint pbind {A B} (p : prog A) (f : A -> prog B) : prog B :=
  match p with
  | Done a => f a
  | Crash => Crash
  | Rpc g req k => Rpc g req (fun r => pbind (k r) f)
  | Load k => Load (fun x => pbind (k x) f)
  | New m k => New m (fun x => pbind (k x) f)
  | Assign p m k => Assign p m (pbind k f)
  | Publish p raw k => Publish p raw (pbind k f)
  | Ended k => Ended (fun b => pbind (k b) f)
  end.

(** Going on unless there is an error. *)
Definition ebind {A B} (p : prog (status + A)) (f : A -> prog (status + B)) : prog (status + B) :=
  pbind p (fun r => match r with inl e => Done (inl e) | inr a => f a end).

Declare Scope router_scope.
Notation "'let!' x := p 'in' q" := (ebind p (fun x => q)) (at level 100, x pattern, p at level 99, q at level 100) : router_scope.
Local Open Scope router_scope.

Definition call (g : N) (req : Request) : prog (status + Response) := Rpc g req Done.

Section Router.
Context (encode_map : ShardMap -> bytes) (decode_map : bytes -> option ShardMap) (gids : list N).

(** The groups other than the meta group, sorted.  [inl None]: a group has no
    members to connect to. *)
Definition NewRouter (configured : list (N * list bytes)) : option status + list N :=
  if forallb (fun c => bool_decide (is_Some (NewClient c.2 c.1))) configured then
    if bool_decide (MetaGroup ∈ configured.*1) then
      match merge_sort N.le (filter (fun g => g <> MetaGroup) configured.*1) with
      | [] => inl (Some NoShardGroups)
      | gs => inr gs
      end
    else inl (Some NoMetaGroup)
  else inl None.

(** ** The cached map *)

Definition fix_moving (m : ShardMap) : ShardMap :=
  if length (sm_Moving m) =? length (sm_Groups m) then m
  else mkMap (sm_Groups m) (replicate (length (sm_Groups m)) 0%N).

(** [tries] bounds the rounds before the context ends. *)
Fixpoint reload (tries : nat) : prog (status + (nat * ShardMap)) :=
  let! res := call MetaGroup (RqGet (mkGetRequest mapKey LOG None MetaGroup)) in
  match res with
  | RsGet r =>
      if getr_Found r then
        match decode_map (getr_Value r) with
        | None => Done (inl MapCorrupt)
        | Some m => New (fix_moving m) (fun p => Publish p (getr_Value r) (Done (inr (p, fix_moving m))))
        end
      else
        let! _ := call MetaGroup (RqCas (mkCasRequest None mapKey None (encode_map (DefaultMap gids)) MetaGroup)) in
        match tries with
        | O => Done (inl (ContextEnded true))
        | S tries => reload tries
        end
  | _ => Crash
  end.

Definition shardMap (tries : nat) : prog (status + ShardMap) :=
  Load (fun c => match c with
                 | Some (m, _) => Done (inr m)
                 | None => let! (_, m) := reload tries in Done (inr m)
                 end).

Definition groupFor (tries : nat) (key : bytes) : prog (status + N) :=
  if length key =? 0 then Done (inl EmptyKey)
  else
    let! m := shardMap tries in
    match sm_Groups m !! N.to_nat (ShardOf key) with
    | None => Crash
    | Some g => if bool_decide (g ∈ gids) then Done (inr g) else Done (inl (UnknownGroup g))
    end.

(** ** Forwarding *)

Definition isMoving (r : status + Response) : bool := match r with inl MovingHere => true | _ => false end.

(** [n] further attempts are left. *)
Fixpoint forward (tries n : nat) (key : bytes) (op : N -> Request) : prog (status + Response) :=
  let! g := groupFor tries key in
  Rpc g (op g) (fun r =>
    if isMoving r then
      match n with
      | O => Done (inl StillMoving)
      | S n => Ended (fun b => if (b : bool) then Done r else let! _ := reload tries in forward tries n key op)
      end
    else Done r).

Definition rt_RegisterClient (g : N) : prog (status + Response) :=
  if (g =? 0)%N then call MetaGroup (RqRegister MetaGroup) else call g (RqRegister g).

Definition rt_Put (tries : nat) (r : PutRequest) : prog (status + Response) :=
  if (put_Group r =? 0)%N then
    forward tries movingTries (put_Key r) (fun g => RqPut (mkPutRequest (put_Session r) (put_Key r) (put_Value r) g))
  else call (put_Group r) (RqPut r).

Definition rt_Delete (tries : nat) (r : DeleteRequest) : prog (status + Response) :=
  if (del_Group r =? 0)%N then
    forward tries movingTries (del_Key r) (fun g => RqDelete (mkDeleteRequest (del_Session r) (del_Key r) g))
  else call (del_Group r) (RqDelete r).

Definition rt_Cas (tries : nat) (r : CasRequest) : prog (status + Response) :=
  if (cas_Group r =? 0)%N then
    forward tries movingTries (cas_Key r) (fun g => RqCas (mkCasRequest (cas_Session r) (cas_Key r) (cas_Expected r) (cas_Value r) g))
  else call (cas_Group r) (RqCas r).

Definition rt_Get (tries : nat) (r : GetRequest) : prog (status + Response) :=
  if (get_Group r =? 0)%N then
    forward tries movingTries (get_Key r) (fun g => RqGet (mkGetRequest (get_Key r) (get_Mode r) (get_Session r) g))
  else call (get_Group r) (RqGet r).

Definition kv_le (a b : KeyValue) : Prop := bcmp (kv_Key a) (kv_Key b) <> Gt.

#[local] Instance kv_le_dec : RelDecision kv_le.
Proof. intros a b. unfold kv_le. apply _. Defined.

(** The parts of the groups, one after the other: all are asked, and the first
    error is returned. *)
Fixpoint scan_groups (r : ScanRequest) (gs : list N) : prog (list (status + list KeyValue)) :=
  match gs with
  | [] => Done []
  | g :: gs =>
      Rpc g (RqScan (mkScanRequest (scan_Start r) (scan_End r) (scan_Limit r) (scan_Mode r) (scan_Session r) g (scan_MaxBytes r))) (fun a =>
        pbind (scan_groups r gs) (fun rest =>
          Done (match a with inl e => inl e | inr (RsScan kvs) => inr kvs | inr _ => inr [] end :: rest)))
  end.

Fixpoint first_error (l : list (status + list KeyValue)) : status + list (list KeyValue) :=
  match l with
  | [] => inr []
  | inl e :: _ => inl e
  | inr kvs :: l => match first_error l with inl e => inl e | inr rest => inr (kvs :: rest) end
  end.

Definition merge_parts (limit : N) (parts : list (list KeyValue)) : list KeyValue :=
  let merged := merge_sort kv_le (concat parts) in
  if (0 <? limit)%N && (limit <? N.of_nat (length merged))%N then take (N.to_nat limit) merged else merged.

Definition rt_Scan (tries : nat) (r : ScanRequest) : prog (status + Response) :=
  if (scan_Group r =? 0)%N then
    let! _ := shardMap tries in
    pbind (scan_groups r gids) (fun l =>
      match first_error l with
      | inl e => Done (inl e)
      | inr parts => Done (inr (RsScan (merge_parts (scan_Limit r) parts)))
      end)
  else call (scan_Group r) (RqScan r).

Definition rt_Admin (r : AdminRequest) : prog (status + Response) := call (adm_Group r) (RqAdmin r).

Definition GetShardMap (tries : nat) : prog (status + ShardMap) := let! (_, m) := reload tries in Done (inr m).

(** ** Moving a shard *)

Definition admin (g : N) (op : Op) : prog (status + Result) :=
  let! res := call g (RqAdmin (mkAdminRequest g (mkCommand 0 0 (Some op)))) in
  match res with RsAdmin r => Done (inr r) | _ => Crash end.

Definition swapMap (expected : option bytes) (p : nat) (m : ShardMap) : prog (status + bytes) :=
  let! res := call MetaGroup (RqCas (mkCasRequest None mapKey expected (encode_map m) MetaGroup)) in
  match res with
  | RsCas r => if casr_Success r then Publish p (encode_map m) (Done (inr (encode_map m))) else Done (inl MapChanged)
  | _ => Crash
  end.

(** [true]: the destination holds the whole shard already. *)
Definition flush_chunk (shard dest : N) (chunk : list KeyValue) (is_last : bool) : prog (status + bool) :=
  let! res := admin dest (Import shard chunk is_last) in Done (inr (negb (res_Success res))).

(** The pairs of a page; [None]: the destination holds the shard. *)
Fixpoint copy_page (shard dest : N) (page chunk : list KeyValue) (size : N) : prog (status + option (list KeyValue * N)) :=
  match page with
  | [] => Done (inr (Some (chunk, size)))
  | kv :: page =>
      if (ShardOf (kv_Key kv) =? shard)%N then
        let n := N.of_nat (length (kv_Key kv) + length (kv_Value kv)) in
        if (importChunk <=? N.of_nat (length chunk))%N || ((0 <? N.of_nat (length chunk))%N && (MaxRequestBytes <? size + n)%N) then
          let! held := flush_chunk shard dest chunk false in
          if (held : bool) then Done (inr None) else copy_page shard dest page [kv] n
        else copy_page shard dest page (chunk ++ [kv]) (size + n)
      else copy_page shard dest page chunk size
  end.

Fixpoint copyShard (pages : nat) (shard src dest : N) (start : bytes) (chunk : list KeyValue) (size : N) : prog (status + unit) :=
  match pages with
  | O => Done (inl (ContextEnded true))
  | S pages =>
      let! res := call src (RqScan (mkScanRequest start [] importChunk LOG None src MaxRequestBytes)) in
      match res with
      | RsScan page =>
          match last page with
          | None => let! _ := flush_chunk shard dest chunk true in Done (inr tt)
          | Some kv =>
              let! x := copy_page shard dest page chunk size in
              match x with
              | None => Done (inr tt)
              | Some (chunk, size) => copyShard pages shard src dest (kv_Key kv ++ [x00]) chunk size
              end
          end
      | _ => Crash
      end
  end.

(** Marking the move in the map, unless it is marked. *)
Definition mark_move (shard dest : N) (p : nat) (m : ShardMap) (moving : N) (raw : option bytes) : prog (status + (ShardMap * option bytes)) :=
  if (moving =? 0)%N then
    let m := mkMap (sm_Groups m) (<[N.to_nat shard := dest]> (sm_Moving m)) in
    Assign p m (let! marked := swapMap raw p m in Done (inr (m, Some marked)))
  else Done (inr (m, raw)).

Definition MoveShard (tries pages : nat) (shard dest : N) : prog (status + unit) :=
  if (Shards <=? shard)%N then Done (inl (ShardOutOfRange (Z.of_N shard)))
  else if bool_decide (dest ∈ gids) then
    let! (p, m) := reload tries in
    match sm_Groups m !! N.to_nat shard, sm_Moving m !! N.to_nat shard with
    | Some src, Some moving =>
        if (src =? dest)%N then Done (inr tt)
        else if negb (moving =? 0)%N && negb (moving =? dest)%N then Done (inl (MovingElsewhere shard moving))
        else
          Load (fun c =>
            let! (m, marked) := mark_move shard dest p m moving (snd <$> c) in
            if bool_decide (src ∈ gids) then
              let! _ := admin src (Freeze shard) in
              let! _ := copyShard pages shard src dest [] [] 0 in
              let! _ := admin src (Purge shard) in
              let m := mkMap (<[N.to_nat shard := dest]> (sm_Groups m)) (<[N.to_nat shard := 0%N]> (sm_Moving m)) in
              Assign p m (let! _ := swapMap marked p m in Done (inr tt))
            else Crash)
    | _, _ => Crash
    end
  else Done (inl (NoSuchGroup dest)).
End Router.
