(* ===== verification/RouterRuns.v ===== *)
(** * Routers at work on a sharded cluster

    The groups, the routers with their cached maps, and the operations in
    progress, interleaved call by call.  The operations executed on the keys of
    one shard are recorded in the order in which they happen. *)

From stdpp Require Import base list gmap.
From S2P Require Import Prelude Codec Key Batch Db LogStore KeyHash StateMachine KvSpec Server Client ClientTheorems Router.

(** ** The state *)

(** Map objects are never freed: a pointer is an index. *)
Record router := mkRouter { r_heap : list ShardMap; r_cache : option (nat * bytes) }.

Record store := mkStore {
  st_groups : groups;
  st_routers : gmap N router;
  st_hist : list (Op * Result);
}.

Definition router_of (rid : N) (w : store) : router := default (mkRouter [] None) (st_routers w !! rid).

Definition cached (rid : N) (w : store) : option (ShardMap * bytes) :=
  match r_cache (router_of rid w) with
  | Some (p, raw) => match r_heap (router_of rid w) !! p with Some m => Some (m, raw) | None => None end
  | None => None
  end.

Definition set_router (rid : N) (r : router) (w : store) : store := mkStore (st_groups w) (<[rid := r]> (st_routers w)) (st_hist w).

Definition alloc (rid : N) (m : ShardMap) (w : store) : store :=
  let r := router_of rid w in set_router rid (mkRouter (r_heap r ++ [m]) (r_cache r)) w.

Definition assign (rid : N) (p : nat) (m : ShardMap) (w : store) : store :=
  let r := router_of rid w in set_router rid (mkRouter (<[p := m]> (r_heap r)) (r_cache r)) w.

Definition publish (rid : N) (p : nat) (raw : bytes) (w : store) : store :=
  let r := router_of rid w in set_router rid (mkRouter (r_heap r) (Some (p, raw))) w.

(** ** What is executed *)

Definition req_group (req : Request) : N :=
  match req with
  | RqRegister g => g
  | RqPut r => put_Group r
  | RqDelete r => del_Group r
  | RqCas r => cas_Group r
  | RqGet r => get_Group r
  | RqScan r => scan_Group r
  | RqAdmin r => adm_Group r
  end.

(** The checks of the handlers. *)
Definition admitted (req : Request) : bool :=
  let keyed key parts := negb (length key =? 0) && bool_decide (checkSize parts = None) in
  match req with
  | RqRegister _ => true
  | RqPut r => keyed (put_Key r) [put_Key r; put_Value r]
  | RqDelete r => keyed (del_Key r) [del_Key r]
  | RqCas r => keyed (cas_Key r) [cas_Key r; default [] (cas_Expected r); cas_Value r]
  | RqGet r => keyed (get_Key r) [get_Key r]
  | RqScan r => bool_decide (checkSize [scan_Start r; scan_End r] = None)
  | RqAdmin r => isAdmin (cmd_Op (adm_Command r))
  end.

Definition applied_index (o : raftReply) : option N :=
  match o with Committed i => Some i | Refused _ a => a | Expired _ a => a end.

Definition op_key (op : Op) : option bytes :=
  match op with OpPut k _ | OpDelete k | OpCas k _ _ | OpGet k => Some k | _ => None end.

Section Runs.
Context (marshal : Result -> bytes) (unmarshalResult : bytes -> option Result).
Context (shard : N).

Definition in_shard (op : Op) : bool := match op_key op with Some k => (ShardOf k =? shard)%N | None => false end.

(** The operation a request executes on a key of the shard: not one that is
    refused, and not a retry that is answered from the session. *)
Definition executed (o : raftReply) (req : Request) (gs : groups) : list (Op * Result) :=
  match group (req_group req) gs with
  | inl _ => []
  | inr g =>
      match gs !! g with
      | Some st =>
          if admitted req && negb (g =? MetaGroup)%N then
            match req_command req, applied_index o with
            | Some cmd, Some i =>
                match duplicate cmd (kv_sessions st), cmd_Op cmd with
                | None, Some op =>
                    let res := (kv_exec (Some op) i st).1.1 in
                    if in_shard op && negb (res_Moving res) then [(op, res)] else []
                | _, _ => []
                end
            | None, _ =>
                match req, readIndex o with
                | RqGet r, None =>
                    match local_get (get_Key r) st with
                    | inr v => if in_shard (OpGet (get_Key r)) then [(OpGet (get_Key r), read_result v false)] else []
                    | inl _ => []
                    end
                | _, _ => []
                end
            | _, _ => []
            end
          else []
      | None => []
      end
  end.

Definition served (o : raftReply) (req : Request) (w : store) : store * (status + Response) :=
  let '(gs, r) := serve marshal unmarshalResult o req (st_groups w) in
  (mkStore gs (st_routers w) (st_hist w ++ executed o req (st_groups w)), r).

(** ** Steps of an operation *)

(** A call makes any number of attempts whose answers are lost, and then
    returns an answer, or an error. *)
Inductive pstep {A} (rid : N) : prog A -> store -> prog A -> store -> Prop :=
  | step_lost g req k w o : pstep rid (Rpc g req k) w (Rpc g req k) (served o req w).1
  | step_answer g req k w o : pstep rid (Rpc g req k) w (k (served o req w).2) (served o req w).1
  | step_fail g req k w e : pstep rid (Rpc g req k) w (k (inl e)) w
  | step_load k w : pstep rid (Load k) w (k (cached rid w)) w
  | step_new m k w : pstep rid (New m k) w (k (length (r_heap (router_of rid w)))) (alloc rid m w)
  | step_assign p m k w : pstep rid (Assign p m k) w k (assign rid p m w)
  | step_publish p raw k w : pstep rid (Publish p raw k) w k (publish rid p raw w)
  | step_ended k w b : pstep rid (Ended k) w (k b) w.

(** ** An operation whose calls are answered *)

Fixpoint exec {A} (rid : N) (p : prog A) (w : store) : option A * store :=
  match p with
  | Done a => (Some a, w)
  | Crash => (None, w)
  | Rpc g req k => exec rid (k (served (Committed 1) req w).2) (served (Committed 1) req w).1
  | Load k => exec rid (k (cached rid w)) w
  | New m k => exec rid (k (length (r_heap (router_of rid w)))) (alloc rid m w)
  | Assign p m k => exec rid k (assign rid p m w)
  | Publish p raw k => exec rid k (publish rid p raw w)
  | Ended k => exec rid (k false) w
  end.

Lemma exec_psteps {A} rid (p : prog A) w a w' :
  exec rid p w = (Some a, w') -> rtc (fun x y => pstep rid x.1 x.2 y.1 y.2) (p, w) (Done a, w').
Proof.
  revert w. induction p as [b| |g req k IH|k IH|m k IH|q m k IH|q raw k IH|k IH]; intros w Hx; cbn [exec] in Hx; [by simplify_eq|done|..];
    (eapply rtc_l; [|first [by eapply IH|exact (IH _ _ Hx)]]); constructor.
Qed.

(** ** Operations in progress *)

Context (encode_map : ShardMap -> bytes) (decode_map : bytes -> option ShardMap) (gids : list N).

(** What a router does for its clients, and the refreshing of its map. *)
Inductive client_op :=
  | CPut (r : PutRequest)
  | CDelete (r : DeleteRequest)
  | CCas (r : CasRequest)
  | CGet (r : GetRequest)
  | CScan (r : ScanRequest)
  | CRegister
  | CRefresh.

(** The client names no group. *)
Definition routed (op : client_op) : Prop :=
  match op with
  | CPut r => put_Group r = 0%N
  | CDelete r => del_Group r = 0%N
  | CCas r => cas_Group r = 0%N
  | CGet r => get_Group r = 0%N
  | CScan r => scan_Group r = 0%N
  | CRegister | CRefresh => True
  end.

Definition forget {A} (p : prog A) : prog unit := pbind p (fun _ => Done tt).

Definition client_prog (tries : nat) (op : client_op) : prog unit :=
  match op with
  | CPut r => forget (rt_Put encode_map decode_map gids tries r)
  | CDelete r => forget (rt_Delete encode_map decode_map gids tries r)
  | CCas r => forget (rt_Cas encode_map decode_map gids tries r)
  | CGet r => forget (rt_Get encode_map decode_map gids tries r)
  | CScan r => forget (rt_Scan encode_map decode_map gids tries r)
  | CRegister => forget (rt_RegisterClient 0)
  | CRefresh => forget (reload encode_map decode_map gids tries)
  end.

Record cluster := mkCluster {
  y_store : store;
  y_clients : list (N * prog unit);
  y_mover : option (N * prog (status + unit));
}.

Context (dest : N).

(** Any number of clients, and one mover of the shard to [dest] at a time.  A
    mover may stop anywhere, and another be started. *)
Inductive cstep : cluster -> cluster -> Prop :=
  | step_start y rid tries op :
      routed op -> cstep y (mkCluster (y_store y) (y_clients y ++ [(rid, client_prog tries op)]) (y_mover y))
  | step_client y i rid p p' w :
      y_clients y !! i = Some (rid, p) -> pstep rid p (y_store y) p' w ->
      cstep y (mkCluster w (<[i := (rid, p')]> (y_clients y)) (y_mover y))
  | step_move y rid tries pages :
      y_mover y = None ->
      cstep y (mkCluster (y_store y) (y_clients y) (Some (rid, MoveShard encode_map decode_map gids tries pages shard dest)))
  | step_mover y rid p p' w :
      y_mover y = Some (rid, p) -> pstep rid p (y_store y) p' w -> cstep y (mkCluster w (y_clients y) (Some (rid, p')))
  | step_die y : cstep y (mkCluster (y_store y) (y_clients y) None).

(** ** Runs *)

Lemma client_run y rid tries op w :
  routed op -> exec rid (client_prog tries op) (y_store y) = (Some tt, w) -> rtc cstep y (mkCluster w (y_clients y ++ [(rid, Done tt)]) (y_mover y)).
Proof.
  intros Hr Hx%exec_psteps. eapply rtc_l; [by eapply (step_start y rid tries op)|].
  remember (client_prog tries op, y_store y) as x eqn:Ex. remember (Done tt, w) as z eqn:Ez.
  assert (mkCluster (y_store y) (y_clients y ++ [(rid, client_prog tries op)]) (y_mover y) = mkCluster x.2 (y_clients y ++ [(rid, x.1)]) (y_mover y)) as -> by (by rewrite Ex).
  assert (mkCluster w (y_clients y ++ [(rid, Done tt)]) (y_mover y) = mkCluster z.2 (y_clients y ++ [(rid, z.1)]) (y_mover y)) as -> by (by rewrite Ez).
  clear Ex Ez. induction Hx as [x|[p1 w1] [p2 w2] x Hs _ IH]; [done|]. eapply rtc_l; [|exact IH]. simpl in *.
  assert (y_clients y ++ [(rid, p2)] = <[length (y_clients y) := (rid, p2)]> (y_clients y ++ [(rid, p1)])) as ->.
  { by rewrite insert_app_r_alt, Nat.sub_diag by lia. }
  by eapply (step_client (mkCluster w1 (y_clients y ++ [(rid, p1)]) (y_mover y)) (length (y_clients y)) rid p1 p2); [simpl; rewrite list_lookup_middle|].
Qed.

Lemma mover_run y rid p w r :
  exec rid p (y_store y) = (Some r, w) -> rtc cstep (mkCluster (y_store y) (y_clients y) (Some (rid, p))) (mkCluster w (y_clients y) (Some (rid, Done r))).
Proof.
  intros Hx%exec_psteps. remember (p, y_store y) as x eqn:Ex. remember (Done r, w) as z eqn:Ez.
  assert (mkCluster (y_store y) (y_clients y) (Some (rid, p)) = mkCluster x.2 (y_clients y) (Some (rid, x.1))) as -> by (by rewrite Ex).
  assert (mkCluster w (y_clients y) (Some (rid, Done r)) = mkCluster z.2 (y_clients y) (Some (rid, z.1))) as -> by (by rewrite Ez).
  clear Ex Ez. induction Hx as [x|[p1 w1] [p2 w2] x Hs _ IH]; [done|]. eapply rtc_l; [|exact IH].
  by eapply (step_mover (mkCluster w1 (y_clients y) (Some (rid, p1))) rid p1 p2).
Qed.

Lemma mover_start y rid tries pages :
  rtc cstep y (mkCluster (y_store y) (y_clients y) (Some (rid, MoveShard encode_map decode_map gids tries pages shard dest))).
Proof. eapply rtc_l; [apply step_die|]. eapply rtc_l; [by eapply (step_move (mkCluster (y_store y) (y_clients y) None) rid tries pages)|done]. Qed.
End Runs.

(** * Reasoning about one operation among others

    Assertions about the cluster at each point of an operation, stable under
    what the other operations may do.  [Inv] holds throughout, [Rely] bounds
    the steps of the others and [Guar] those of the operation. *)

Section Logic.
Context (marshal : Result -> bytes) (unmarshalResult : bytes -> option Result) (shard : N).
Context (Inv : store -> Prop) (Rely Guar : store -> store -> Prop) (rid : N).

Local Abbreviation serves := (served marshal unmarshalResult shard).

Definition stable (P : store -> Prop) : Prop := forall w w', Inv w -> Inv w' -> Rely w w' -> P w -> P w'.

Definition entails (P P' : store -> Prop) : Prop := forall w, Inv w -> P w -> P' w.

(** A step from [w] to [w'] that establishes [Q]. *)
Definition good (w w' : store) (Q : store -> Prop) : Prop := Inv w' /\ Guar w w' /\ Q w'.

Fixpoint safe {A} (P : store -> Prop) (p : prog A) (Q : A -> store -> Prop) : Prop :=
  match p with
  | Done a => exists P0, stable P0 /\ entails P P0 /\ entails P0 (Q a)
  | Crash => entails P (fun _ => False)
  | Rpc g req k =>
      exists P0 P', stable P0 /\ entails P P0 /\
        (forall w o, Inv w -> P0 w -> good w (serves o req w).1 P0 /\ P' (serves o req w).2 (serves o req w).1) /\
        (forall e, entails P0 (P' (inl e))) /\ forall r, safe (P' r) (k r) Q
  | Load k => exists P0 P', stable P0 /\ entails P P0 /\ (forall w, Inv w -> P0 w -> P' (cached rid w) w) /\ forall c, safe (P' c) (k c) Q
  | New m k =>
      exists P0 P', stable P0 /\ entails P P0 /\
        (forall w, Inv w -> P0 w -> good w (alloc rid m w) (P' (length (r_heap (router_of rid w))))) /\ forall n, safe (P' n) (k n) Q
  | Assign p m k => exists P0 P', stable P0 /\ entails P P0 /\ (forall w, Inv w -> P0 w -> good w (assign rid p m w) P') /\ safe P' k Q
  | Publish p raw k => exists P0 P', stable P0 /\ entails P P0 /\ (forall w, Inv w -> P0 w -> good w (publish rid p raw w) P') /\ safe P' k Q
  | Ended k => exists P0, stable P0 /\ entails P P0 /\ forall b, safe P0 (k b) Q
  end.

Lemma entails_refl P : entails P P.
Proof. by intros w _ H. Qed.

Lemma entails_trans P1 P2 P3 : entails P1 P2 -> entails P2 P3 -> entails P1 P3.
Proof. intros H1 H2 w Hi H. eauto. Qed.

#[local] Hint Resolve entails_refl entails_trans : core.

Lemma safe_weaken {A} P P' (p : prog A) Q : entails P P' -> safe P' p Q -> safe P p Q.
Proof. intros H. destruct p; simpl; [| |naive_solver eauto..]; [naive_solver eauto|eauto]. Qed.

Lemma safe_stable {A} P (p : prog A) Q : p <> Crash -> safe P p Q -> exists P0, stable P0 /\ entails P P0 /\ safe P0 p Q.
Proof.
  intros Hc. destruct p; cbn [safe]; [|done|..].
  - intros (P0 & ? & ? & ?). exists P0. split_and!; eauto.
  - intros (P0 & P' & ? & ? & ?). exists P0. split_and!; [done..|]. exists P0, P'. eauto.
  - intros (P0 & P' & ? & ? & ?). exists P0. split_and!; [done..|]. exists P0, P'. eauto.
  - intros (P0 & P' & ? & ? & ?). exists P0. split_and!; [done..|]. exists P0, P'. eauto.
  - intros (P0 & P' & ? & ? & ?). exists P0. split_and!; [done..|]. exists P0, P'. eauto.
  - intros (P0 & P' & ? & ? & ?). exists P0. split_and!; [done..|]. exists P0, P'. eauto.
  - intros (P0 & ? & ? & ?). exists P0. split_and!; [done..|]. exists P0. eauto.
Qed.

Lemma safe_bind {A B} P (p : prog A) (f : A -> prog B) Q Q' :
  safe P p Q -> (forall a, safe (Q a) (f a) Q') -> safe P (pbind p f) Q'.
Proof.
  revert P. induction p as [a| |g req k IH|k IH|m k IH|q m k IH|q raw k IH|k IH]; intros P Hp Hf; cbn [pbind safe] in *.
  - destruct Hp as (P0 & _ & H1 & H2). eapply safe_weaken; [exact (entails_trans _ _ _ H1 H2)|done].
  - done.
  - destruct Hp as (P0 & P' & H1 & H2 & H3 & H4 & H5). exists P0, P'. split_and!; eauto.
  - destruct Hp as (P0 & P' & H1 & H2 & H3 & H4). exists P0, P'. split_and!; eauto.
  - destruct Hp as (P0 & P' & H1 & H2 & H3 & H4). exists P0, P'. split_and!; eauto.
  - destruct Hp as (P0 & P' & H1 & H2 & H3 & H4). exists P0, P'. split_and!; eauto.
  - destruct Hp as (P0 & P' & H1 & H2 & H3 & H4). exists P0, P'. split_and!; eauto.
  - destruct Hp as (P0 & H1 & H2 & H3). exists P0. split_and!; eauto.
Qed.

Lemma safe_post {A} P (p : prog A) (Q Q' : A -> store -> Prop) : (forall a, entails (Q a) (Q' a)) -> safe P p Q -> safe P p Q'.
Proof.
  intros HQ. revert P. induction p as [a| |g req k IH|k IH|m k IH|q m k IH|q raw k IH|k IH]; intros P Hp; cbn [safe] in *.
  - destruct Hp as (P0 & H1 & H2 & H3). exists P0. split_and!; eauto.
  - done.
  - destruct Hp as (P0 & P' & H1 & H2 & H3 & H4 & H5). exists P0, P'. split_and!; eauto.
  - destruct Hp as (P0 & P' & H1 & H2 & H3 & H4). exists P0, P'. split_and!; eauto.
  - destruct Hp as (P0 & P' & H1 & H2 & H3 & H4). exists P0, P'. split_and!; eauto.
  - destruct Hp as (P0 & P' & H1 & H2 & H3 & H4). exists P0, P'. split_and!; eauto.
  - destruct Hp as (P0 & P' & H1 & H2 & H3 & H4). exists P0, P'. split_and!; eauto.
  - destruct Hp as (P0 & H1 & H2 & H3). exists P0. split_and!; eauto.
Qed.

(** With errors passed on. *)
Lemma safe_ebind {A B} P (p : prog (status + A)) (f : A -> prog (status + B)) Q Q' :
  safe P p Q -> (forall e, safe (Q (inl e)) (Done (inl e)) Q') -> (forall a, safe (Q (inr a)) (f a) Q') -> safe P (ebind p f) Q'.
Proof. intros Hp He Hf. unfold ebind. eapply safe_bind; [exact Hp|]. intros [e|a]; auto. Qed.

Lemma safe_done {A} P (a : A) Q : stable P -> entails P (Q a) -> safe P (Done a) Q.
Proof. intros H1 H2. exists P. eauto. Qed.

Lemma safe_rpc {A} (P : store -> Prop) g req (k : status + Response -> prog A) (P' : status + Response -> store -> Prop) Q :
  stable P ->
  (forall w o, Inv w -> P w -> good w (serves o req w).1 P /\ P' (serves o req w).2 (serves o req w).1) ->
  (forall e, entails P (P' (inl e))) -> (forall r, safe (P' r) (k r) Q) -> safe P (Rpc g req k) Q.
Proof. intros. exists P, P'. eauto 10. Qed.

Lemma safe_absurd {A} P (p : prog A) Q : entails P (fun _ => False) -> safe P p Q.
Proof.
  intros H. apply safe_weaken with (fun _ => False); [done|]. clear P H.
  assert (stable (fun _ => False)) as Hst by (intros w w' _ _ _ []). assert (forall P, entails (fun _ => False) P) as Hen by (intros P w _ []).
  induction p as [a| |g req k IH|k IH|m k IH|q m k IH|q raw k IH|k IH]; cbn [safe].
  - exists (fun _ => False). by split_and!.
  - apply Hen.
  - exists (fun _ => False), (fun _ _ => False). split_and!; [done|done|intros w o _ []|done|done].
  - exists (fun _ => False), (fun _ _ => False). split_and!; [done|done|intros w _ []|done].
  - exists (fun _ => False), (fun _ _ => False). split_and!; [done|done|intros w _ []|done].
  - exists (fun _ => False), (fun _ => False). split_and!; [done|done|intros w _ []|done].
  - exists (fun _ => False), (fun _ => False). split_and!; [done|done|intros w _ []|done].
  - exists (fun _ => False). by split_and!.
Qed.

(** ** Steps *)

Definition okp {A} (p : prog A) (Q : A -> store -> Prop) (w : store) : Prop := exists P, stable P /\ P w /\ safe P p Q.

Lemma safe_okp {A} (P : store -> Prop) (p : prog A) Q w : Inv w -> P w -> safe P p Q -> okp p Q w.
Proof.
  intros Hi HP Hs. assert (p = Crash \/ p <> Crash) as [->|Hc] by (destruct p; auto).
  - by destruct (Hs w Hi HP).
  - destruct (safe_stable _ _ _ Hc Hs) as (P0 & H1 & H2 & H3). exists P0. eauto.
Qed.

Lemma okp_rely {A} (p : prog A) Q w w' : Inv w -> Inv w' -> Rely w w' -> okp p Q w -> okp p Q w'.
Proof. intros Hi Hi' HR (P & H1 & H2 & H3). exists P. eauto. Qed.

Lemma okp_done {A} (a : A) Q w : Inv w -> okp (Done a) Q w -> Q a w.
Proof. intros Hi (P & _ & HP & P0 & _ & H1 & H2). eauto. Qed.

Lemma okp_crash {A} Q w : Inv w -> ~ okp (@Crash A) Q w.
Proof. intros Hi (P & _ & HP & Hs). exact (Hs w Hi HP). Qed.

Lemma okp_step {A} (p p' : prog A) Q w w' :
  (forall w, Guar w w) -> Inv w -> okp p Q w -> pstep marshal unmarshalResult shard rid p w p' w' -> Inv w' /\ Guar w w' /\ okp p' Q w'.
Proof.
  intros Hrefl Hi (P & Hst & HP & Hs) Hstep. destruct Hstep; cbn [safe] in Hs.
  - destruct Hs as (P0 & P' & H1 & H2 & H3 & H4 & H5). destruct (H3 w o Hi (H2 _ Hi HP)) as [(Hi' & Hg & Hp) _].
    split_and!; [done..|]. exists P0. split_and!; [done..|]. exists P0, P'. eauto.
  - destruct Hs as (P0 & P' & H1 & H2 & H3 & H4 & H5). destruct (H3 w o Hi (H2 _ Hi HP)) as [(Hi' & Hg & _) Hp].
    split_and!; [done..|]. eapply safe_okp; eauto.
  - destruct Hs as (P0 & P' & H1 & H2 & H3 & H4 & H5). split_and!; [done..|]. eapply safe_okp; [done|exact (H4 e w Hi (H2 _ Hi HP))|eauto].
  - destruct Hs as (P0 & P' & H1 & H2 & H3 & H4). split_and!; [done..|]. eapply safe_okp; [done|exact (H3 w Hi (H2 _ Hi HP))|eauto].
  - destruct Hs as (P0 & P' & H1 & H2 & H3 & H4). destruct (H3 w Hi (H2 _ Hi HP)) as (Hi' & Hg & Hp). split_and!; [done..|]. eapply safe_okp; eauto.
  - destruct Hs as (P0 & P' & H1 & H2 & H3 & H4). destruct (H3 w Hi (H2 _ Hi HP)) as (Hi' & Hg & Hp). split_and!; [done..|]. eapply safe_okp; eauto.
  - destruct Hs as (P0 & P' & H1 & H2 & H3 & H4). destruct (H3 w Hi (H2 _ Hi HP)) as (Hi' & Hg & Hp). split_and!; [done..|]. eapply safe_okp; eauto.
  - destruct Hs as (P0 & H1 & H2 & H3). split_and!; [done..|]. eapply safe_okp; [done|exact (H2 _ Hi HP)|eauto].
Qed.
End Logic.
