(* ===== verification/MoveInv.v ===== *)
(** * Where a shard is while it moves

    The phases of the move of one shard between two groups, the invariant of
    the cluster, and that requests of clients keep it. *)

From stdpp Require Import base list gmap sorting.
From S2P Require Import Prelude Codec Key Batch LogStore KeyHash Db StateMachine KvSpec Server Client ClientTheorems Router RouterRuns.

(** ** One map *)

(** An operation on a map that no move disturbs. *)
Definition exec1 (op : Op) (m : gmap bytes bytes) : Result * gmap bytes bytes :=
  let '(res, m, _) := kv_exec (Some op) 0 (mkKvs m ∅ ∅ 0) in (res, m).

Definition replay (m : gmap bytes bytes) (h : list (Op * Result)) : gmap bytes bytes := foldl (fun m e => (exec1 e.1 m).2) m h.

(** Every recorded result is the one the map gives. *)
Fixpoint legal (m : gmap bytes bytes) (h : list (Op * Result)) : Prop :=
  match h with
  | [] => True
  | (op, res) :: h => res = (exec1 op m).1 /\ legal (exec1 op m).2 h
  end.

Lemma replay_app m h1 h2 : replay m (h1 ++ h2) = replay (replay m h1) h2.
Proof. apply foldl_app. Qed.

Lemma legal_app m h1 h2 : legal m (h1 ++ h2) <-> legal m h1 /\ legal (replay m h1) h2.
Proof. revert m. induction h1 as [|[op res] h1 IH]; intros m; simpl; [tauto|]. rewrite IH. tauto. Qed.

(** ** Requests and their effect *)

(** The operation of a request, through the log or not. *)
Definition req_op (req : Request) : option Op :=
  match req with
  | RqRegister _ => Some Register
  | RqPut r => Some (OpPut (put_Key r) (put_Value r))
  | RqDelete r => Some (OpDelete (del_Key r))
  | RqCas r => Some (OpCas (cas_Key r) (cas_Expected r) (cas_Value r))
  | RqGet r => Some (OpGet (get_Key r))
  | RqScan r => Some (OpScan (scan_Start r) (scan_End r) (scan_Limit r) (scan_MaxBytes r))
  | RqAdmin r => cmd_Op (adm_Command r)
  end.

Lemma req_command_op req cmd : req_command req = Some cmd -> cmd_Op cmd = req_op req.
Proof. destruct req as [?|[[]]|[[]]|[[]]|[? [] []]|[? ? ? [] []]|?]; simpl; by intros [= <-]. Qed.

Lemma group_named id gs g : id <> 0%N -> group id gs = inr g -> g = id /\ is_Some (gs !! g).
Proof. unfold group. intros Hz. destruct (N.eqb_spec id 0); [done|]. case_bool_decide; [|done]. by intros [= <-]. Qed.

Section Effect.
Context (marshal : Result -> bytes) (unmarshalResult : bytes -> option Result).
Context (Hres : forall r, unmarshalResult (marshal r) = Some r).

Lemma propose_cases o g cmd gs st gs' r :
  gs !! g = Some st -> propose marshal unmarshalResult o g cmd gs = (gs', r) ->
  (applied_index o = None /\ gs' = gs /\ exists e, r = inl e) \/
  (exists i, applied_index o = Some i /\ gs' = <[g := (kv_step marshal cmd i st).1]> gs /\
    ((exists e, r = inl e) \/
     exists x, unmarshalResult (kv_step marshal cmd i st).2 = Some x /\ res_Moving x = false /\ r = inr x)).
Proof.
  intros Hg. assert (forall i, apply_to marshal g cmd i gs = (<[g := (kv_step marshal cmd i st).1]> gs, (kv_step marshal cmd i st).2)) as Ha.
  { intros i. unfold apply_to. rewrite Hg. by destruct (kv_step marshal cmd i st). }
  destruct o as [i|lead [i|]|dl [i|]]; cbn [propose apply_late applied_index]; rewrite ?Ha; intros [= <- <-]; try (left; by eauto); right; exists i; simpl; (split_and!; [done..|]); eauto.
  destruct (unmarshalResult _) as [x|]; [|eauto]. destruct (res_Moving x) eqn:E; eauto.
Qed.

Context (shard : N).

(** What is recorded of an operation executed by a group. *)
Definition logged (g : N) (op : Op) (res : Result) : list (Op * Result) :=
  if negb (g =? MetaGroup)%N && in_shard shard op && negb (res_Moving res) then [(op, res)] else [].

(** A request is refused, is a read outside the log, or is applied. *)
Inductive effect (req : Request) (gs : groups) : groups -> list (Op * Result) -> status + Response -> Prop :=
  | eff_none e : effect req gs gs [] (inl e)
  | eff_read g st rq v :
      req = RqGet rq -> get_Mode rq = READ_INDEX -> group (req_group req) gs = inr g -> gs !! g = Some st -> local_get (get_Key rq) st = inr v ->
      effect req gs gs (logged g (OpGet (get_Key rq)) (read_result v false)) (inr (RsGet (mkGetResponse (bool_decide (is_Some v)) (default [] v))))
  | eff_scan rq l : req = RqScan rq -> scan_Mode rq = READ_INDEX -> effect req gs gs [] (inr (RsScan l))
  | eff_step g st cmd op i r :
      group (req_group req) gs = inr g -> gs !! g = Some st -> req_command req = Some cmd -> cmd_Op cmd = Some op ->
      ((exists e, r = inl e) \/
       exists x, unmarshalResult (kv_step marshal cmd i st).2 = Some x /\ res_Moving x = false /\ r = inr (respond req x)) ->
      effect req gs (<[g := (kv_step marshal cmd i st).1]> gs)
        (match duplicate cmd (kv_sessions st) with None => logged g op (kv_exec (Some op) i st).1.1 | Some _ => [] end) r.

(** The handler of a request, by whether it goes through the log. *)
Lemma serve_cases o req gs :
  (exists e, serve marshal unmarshalResult o req gs = (gs, inl e) /\ ((exists e', group (req_group req) gs = inl e') \/ admitted req = false)) \/
  (exists g, group (req_group req) gs = inr g /\ admitted req = true /\
    match req_command req with
    | Some cmd =>
        serve marshal unmarshalResult o req gs =
          ((propose marshal unmarshalResult o g cmd gs).1,
           match (propose marshal unmarshalResult o g cmd gs).2 with inl e => inl e | inr x => inr (respond req x) end)
    | None =>
        (exists rq, req = RqGet rq /\ get_Mode rq = READ_INDEX) \/ (exists rq, req = RqScan rq /\ scan_Mode rq = READ_INDEX)
    end).
Proof.
  destruct req as [id|rq|rq|rq|rq|rq|rq]; cbn [serve req_command req_group admitted respond];
    unfold srv_RegisterClient, srv_Put, srv_Delete, srv_Cas, srv_Get, srv_Scan, srv_Admin, answer;
    destruct (group _ _) as [e|g]; try (left; exists e; split; [done|left; by exists e]);
    repeat match goal with |- context [if length ?k =? 0 then _ else _] => destruct (length k =? 0); [left; eexists; split; [done|by right]|] end;
    repeat match goal with |- context [match checkSize ?k with _ => _ end] => destruct (checkSize k); [left; eexists; split; [done|by right]|] end;
    try (destruct (isAdmin _) eqn:?; [|left; eexists; split; [done|by right]]);
    right; exists g; (split_and!; [done|done|]); try (destruct (get_Mode rq) eqn:?; [by eauto|]); try (destruct (scan_Mode rq) eqn:?; [by eauto|]);
    match goal with |- context [propose ?a ?b ?o ?g ?c ?m] => by destruct (propose a b o g c m) as [gs1 [e1|x1]] end.
Qed.

Lemma admitted_op req cmd : admitted req = true -> req_command req = Some cmd -> exists op, cmd_Op cmd = Some op.
Proof.
  intros Ha Hc. rewrite (req_command_op _ _ Hc). destruct req as [?|?|?|?|?|?|rq]; simpl in *; eauto.
  destruct (cmd_Op (adm_Command rq)) eqn:E; [eauto|done].
Qed.

Lemma group_present id gs g : group id gs = inr g -> exists st, gs !! g = Some st.
Proof.
  unfold group. destruct (id =? 0)%N.
  - destruct (map_to_list gs) as [|[g0 st] [|]] eqn:E; [done| |done]. intros [= <-]. exists st.
    apply elem_of_map_to_list. rewrite E. by left.
  - case_bool_decide as H; [|done]. by intros [= <-].
Qed.

Lemma served_effect o req w :
  exists h, effect req (st_groups w) (st_groups (served marshal unmarshalResult shard o req w).1) h (served marshal unmarshalResult shard o req w).2 /\
    st_hist (served marshal unmarshalResult shard o req w).1 = st_hist w ++ h /\
    st_routers (served marshal unmarshalResult shard o req w).1 = st_routers w.
Proof.
  unfold served, executed. destruct w as [gs rts hist]; cbn [st_groups st_hist st_routers].
  destruct (serve_cases o req gs) as [(e & -> & Hn)|(g & Hg & Ha & Hs)].
  { exists []. split_and!; [simpl; apply eff_none| |done]. simpl. f_equal. destruct Hn as [[e' ->]|Hn]; [done|]. rewrite Hn. destruct (group _ _); [done|]. by destruct (gs !! _). }
  rewrite Hg, Ha. destruct (group_present _ _ _ Hg) as [st Hst]. rewrite Hst. cbn [andb].
  destruct (req_command req) as [cmd|] eqn:Hc.
  - rewrite Hs. destruct (propose _ _ _ _ _ _) as [gs' r] eqn:Hp. cbn [fst snd st_groups st_hist st_routers]. destruct (admitted_op _ _ Ha Hc) as [op Hop]. rewrite Hop.
    destruct (propose_cases _ _ _ _ _ _ _ Hst Hp) as [(-> & -> & e & ->)|(i & -> & -> & Hr)].
    + exists []. split_and!; [simpl; apply eff_none|simpl; destruct (g =? MetaGroup)%N; reflexivity|done].
    + eexists. split_and!; [eapply eff_step; [exact Hg|exact Hst|exact Hc|exact Hop|]| |done].
      * destruct Hr as [[e ->]|(x & Hx & Hm & ->)]; eauto.
      * f_equal. unfold logged. destruct (duplicate _ _), (negb (g =? _)%N); done.
  - destruct Hs as [(rq & -> & Hm)|(rq & -> & Hm)].
    + cbn [serve req_group admitted] in *. unfold srv_Get, answer. rewrite Hg, Hm. destruct (length _ =? 0); [done|]. destruct (checkSize _); [done|]. cbn [fst snd]. rewrite Hst.
      destruct (readIndex o) as [e|]; [exists []; split_and!; [simpl; apply eff_none|simpl; destruct (g =? MetaGroup)%N; reflexivity|done]|].
      destruct (local_get _ _) as [e|v] eqn:Hl; [exists []; split_and!; [simpl; apply eff_none|simpl; destruct (g =? MetaGroup)%N; reflexivity|done]|].
      eexists. split_and!; [by eapply eff_read| |done]. simpl. f_equal. unfold logged. cbn [res_Moving read_result]. destruct (g =? MetaGroup)%N; [reflexivity|]. cbn [negb andb]. by rewrite andb_true_r.
    + cbn [serve req_group admitted] in *. unfold srv_Scan, answer. rewrite Hg, Hm. destruct (checkSize _); [done|]. cbn [fst snd]. rewrite Hst. exists [].
      destruct (readIndex o); (split_and!; [|simpl; destruct (g =? MetaGroup)%N; reflexivity|done]); [simpl; apply eff_none|by eapply eff_scan].
Qed.
End Effect.

(** ** The phases of a move *)

Section Phases.
Context (shard src dest : N).

Definition sstate (st : kvs) : option byte := kv_shards st !! shard.
Definition opened (st : kvs) : Prop := sstate st = None \/ sstate st = Some shardOpen.
Definition vacant (st : kvs) : Prop := sstate st = None \/ sstate st = Some shardGone.

Definition agrees (st : kvs) (m : gmap bytes bytes) : Prop := forall k, ShardOf k = shard -> kv_data st !! k = m !! k.
Definition within (st : kvs) (m : gmap bytes bytes) : Prop := forall k v, ShardOf k = shard -> kv_data st !! k = Some v -> m !! k = Some v.
Definition lacks (st : kvs) : Prop := forall k, ShardOf k = shard -> kv_data st !! k = None.

(** [a] is the source, [b] the destination and [m] the contents of the shard. *)
Inductive phase (a b : kvs) (m : gmap bytes bytes) : Prop :=
  | ph_home : opened a -> vacant b -> agrees a m -> lacks b -> phase a b m
  | ph_copy : sstate a = Some shardFrozen -> vacant b -> agrees a m -> within b m -> phase a b m
  | ph_both : sstate a = Some shardFrozen -> sstate b = Some shardOpen -> agrees a m -> agrees b m -> phase a b m
  | ph_away : sstate a = Some shardGone -> sstate b = Some shardOpen -> agrees b m -> phase a b m.

(** ** Operations on keys *)

Lemma step_dup marshal cmd i st r : duplicate cmd (kv_sessions st) = Some r -> kv_step marshal cmd i st = (mkKvs (kv_data st) (kv_sessions st) (kv_shards st) i, r).
Proof. unfold kv_step. by intros ->. Qed.

Lemma step_new marshal cmd i st :
  duplicate cmd (kv_sessions st) = None ->
  kv_data (kv_step marshal cmd i st).1 = (kv_exec (cmd_Op cmd) i st).1.2 /\ kv_shards (kv_step marshal cmd i st).1 = (kv_exec (cmd_Op cmd) i st).2 /\
  (kv_step marshal cmd i st).2 = marshal (kv_exec (cmd_Op cmd) i st).1.1.
Proof. unfold kv_step. intros ->. by destruct (kv_exec _ i st) as [[res m] sh]. Qed.

Definition plain (op : Op) : bool := negb (isAdmin (Some op)).

Lemma plain_shards op i st : plain op = true -> (kv_exec (Some op) i st).2 = kv_shards st.
Proof. destruct op; simpl; try done; by repeat case_match. Qed.

(** Only the operation's own key changes. *)
Lemma plain_data op i st k : plain op = true -> op_key op <> Some k -> (kv_exec (Some op) i st).1.2 !! k = kv_data st !! k.
Proof.
  destruct op; simpl; try done; intros _ Hk; repeat case_match; simpl; try done; rewrite ?lookup_insert_ne, ?lookup_delete_ne by congruence; done.
Qed.

Lemma writable_opened st k : ShardOf k = shard -> writable (kv_shards st) k = true <-> opened st.
Proof.
  intros Hk. unfold writable, shard_state, opened, sstate. rewrite Hk, bool_decide_eq_true. destruct (_ !! shard); simpl; naive_solver.
Qed.

Lemma readable_kept st k : ShardOf k = shard -> readable (kv_shards st) k = true <-> sstate st <> Some shardGone.
Proof.
  intros Hk. unfold readable, shard_state, sstate. rewrite Hk, negb_true_iff, bool_decide_eq_false. destruct (_ !! shard); simpl; naive_solver.
Qed.

(** A key operation on a group that has the shard's contents: refused, or the
    operation on the contents. *)
Lemma exec_agrees op i st m :
  in_shard shard op = true -> agrees st m ->
  (res_Moving (kv_exec (Some op) i st).1.1 = true /\ (kv_exec (Some op) i st).1.2 = kv_data st) \/
  (res_Moving (kv_exec (Some op) i st).1.1 = false /\ (kv_exec (Some op) i st).1.1 = (exec1 op m).1 /\
   (forall k, ShardOf k = shard -> (kv_exec (Some op) i st).1.2 !! k = (exec1 op m).2 !! k) /\
   sstate st <> Some shardGone /\ (opened st \/ ((kv_exec (Some op) i st).1.2 = kv_data st /\ (exec1 op m).2 = m))).
Proof.
  unfold in_shard. destruct (op_key op) as [k|] eqn:Hk; [|done]. intros Hs%N.eqb_eq Ha. pose proof (Ha k Hs) as Hak.
  assert (writable ∅ k = true /\ readable ∅ k = true) as [Hw Hr] by done.
  assert (opened st -> sstate st <> Some shardGone) as Hg by (unfold opened; intros [->| ->]; done).
  pose proof (writable_opened st k Hs) as HW. pose proof (readable_kept st k Hs) as HR.
  destruct op as [|k0 v|k0|k0 x v|k0|? ? ? ?|?|? ? ?|?]; simpl in Hk; simplify_eq; unfold exec1; cbn [kv_exec kv_shards kv_data]; rewrite ?Hw, ?Hr;
    (match goal with
     | |- context [writable (kv_shards st) k] => destruct (writable (kv_shards st) k)
     | |- context [readable (kv_shards st) k] => destruct (readable (kv_shards st) k)
     end); try (by left); right; simpl.
  - split_and!; [done|done| |by apply Hg, HW|left; by apply HW]. intros k' Hk'. destruct (decide (k = k')) as [->|]; simplify_map_eq; auto.
  - split_and!; [done|done| |by apply Hg, HW|left; by apply HW]. intros k' Hk'. destruct (decide (k = k')) as [->|]; simplify_map_eq; auto.
  - rewrite Hak. split_and!; [done|done| |by apply Hg, HW|left; by apply HW]. intros k' Hk'. destruct (cas_ok _ _); [|auto].
    destruct (decide (k = k')) as [->|]; simplify_map_eq; auto.
  - rewrite Hak. split_and!; [done|done|done|by apply HR|by right].
Qed.

Lemma exec_gone op i st :
  in_shard shard op = true -> sstate st = Some shardGone ->
  res_Moving (kv_exec (Some op) i st).1.1 = true /\ (kv_exec (Some op) i st).1.2 = kv_data st.
Proof.
  unfold in_shard. destruct (op_key op) as [k|] eqn:Hk; [|done]. intros Hs%N.eqb_eq Hg.
  assert (writable (kv_shards st) k = false) as Hw by (apply not_true_iff_false; rewrite writable_opened by done; unfold opened; rewrite Hg; by intros []).
  assert (readable (kv_shards st) k = false) as Hr by (apply not_true_iff_false; rewrite readable_kept by done; naive_solver).
  destruct op; simpl in Hk; simplify_eq; cbn [kv_exec]; by rewrite ?Hw, ?Hr.
Qed.
End Phases.

(** ** Paging through a group *)

Definition kv_of (p : bytes * bytes) : KeyValue := mkKV p.1 p.2.

Lemma bounded_prefix limit maxBytes l n size : exists j, bounded limit maxBytes l n size = kv_of <$> take j l.
Proof.
  revert n size. induction l as [|[k v] l IH]; intros n size; cbn [bounded]; [by exists 0|].
  destruct (_ && _); [by exists 0|]. destruct (_ && _); [by exists 1|]. destruct (IH (n + 1) (size + length k + length v)) as [j ->]. by exists (S j).
Qed.

Lemma bounded_nonempty limit maxBytes l : l <> [] -> bounded limit maxBytes l 0 0 <> [].
Proof. destruct l as [|[k v] l]; [done|]. intros _. cbn [bounded]. by destruct limit. Qed.

(** The key after [a] in order. *)
Lemma bcmp_next k a : bcmp k (a ++ [x00]) = Lt <-> bcmp k a <> Gt.
Proof.
  revert a. induction k as [|x k IH]; intros [|y a]; simpl; [by split..| |].
  - destruct (N.compare_spec (bval x) 0) as [E|E|E]; [by destruct k; split|lia|by split].
  - destruct (N.compare_spec (bval x) (bval y)); [apply IH|by split..].
Qed.

Lemma scan_page start limit maxBytes m :
  (forall kv, kv ∈ kv_scan start [] limit maxBytes m -> m !! kv_Key kv = Some (kv_Value kv)) /\
  (kv_scan start [] limit maxBytes m = [] -> forall k v, m !! k = Some v -> bcmp k start = Lt) /\
  (forall kv k v, last (kv_scan start [] limit maxBytes m) = Some kv -> m !! k = Some v -> bcmp k (kv_Key kv ++ [x00]) = Lt ->
    bcmp k start = Lt \/ mkKV k v ∈ kv_scan start [] limit maxBytes m).
Proof.
  unfold kv_scan. cbn [length Nat.eqb]. destruct (bounded_prefix limit maxBytes (range start None m) 0 0) as [j Hj].
  assert (forall k v, m !! k = Some v -> bcmp k start = Lt \/ (k, v) ∈ range start None m) as Hin.
  { intros k v Hk. destruct (bcmp k start) eqn:E; [right|by left|right]; apply elem_of_range; (split; [done|]); split; try done; rewrite bcmp_antisym, E; done. }
  split_and!.
  - intros kv. rewrite Hj. intros ([k v] & -> & Hx%elem_of_take)%list_elem_of_fmap. destruct Hx as (i & Hi & _).
    apply list_elem_of_lookup_2, elem_of_range in Hi as [Hi _]. done.
  - intros He k v Hk. destruct (Hin k v Hk) as [|H]; [done|]. exfalso. eapply bounded_nonempty; [|exact He]. intros E. rewrite E in H. by apply not_elem_of_nil in H.
  - intros kv k v Hl Hk Hlt. destruct (Hin k v Hk) as [|H]; [by left|right]. rewrite Hj in *. apply bcmp_next in Hlt.
    pose proof (range_sorted start None m) as Hs. rewrite <-(take_drop j (range start None m)) in Hs, H. apply elem_of_app in H as [H|H].
    { apply list_elem_of_fmap. by exists (k, v). }
    exfalso. apply Hlt. rewrite fmap_last in Hl. destruct (last (take j (range start None m))) as [p|] eqn:E; [|done]. injection Hl as <-.
    apply last_Some in E as [l' E]. rewrite E in Hs.
    assert (kv_lt p (k, v)) as Hp by (eapply StronglySorted_app_1_elem_of; [exact Hs|apply elem_of_app; right; by left|done]).
    unfold kv_lt in Hp. simpl in *. by rewrite bcmp_antisym, Hp.
Qed.

Lemma scan_from start limit maxBytes m kv : kv ∈ kv_scan start [] limit maxBytes m -> bcmp (kv_Key kv) start <> Lt.
Proof.
  unfold kv_scan. cbn [length Nat.eqb]. destruct (bounded_prefix limit maxBytes (range start None m) 0 0) as [j ->].
  intros ([k v] & -> & (i & Hi & _)%elem_of_take)%list_elem_of_fmap. apply list_elem_of_lookup_2, elem_of_range in Hi as [_ [Hi _]].
  simpl. rewrite bcmp_antisym. by destruct (bcmp start k).
Qed.

Lemma put_kvs_cases l m k :
  (exists v, mkKV k v ∈ l /\ put_kvs l m !! k = Some v) \/ ((forall v, mkKV k v ∉ l) /\ put_kvs l m !! k = m !! k).
Proof.
  induction l as [|[k' v'] l IH] using rev_ind; [right; split; [intros v; apply not_elem_of_nil|done]|].
  unfold put_kvs in *. rewrite foldl_app. simpl. destruct (decide (k' = k)) as [->|Hk].
  - left. exists v'. split; [apply elem_of_app; right; by left|by rewrite lookup_insert_eq].
  - rewrite lookup_insert_ne by done. destruct IH as [(v & H1 & H2)|[H1 H2]]; [left; exists v; split; [by apply elem_of_app; left|done]|right].
    split; [|done]. intros v [H|[= -> ->]%list_elem_of_singleton]%elem_of_app; [by destruct (H1 v)|done].
Qed.
