(* ===== verification/MoveSafety.v ===== *)
(** * Clients and a mover while a shard moves

    The invariant of the cluster during the move of a shard, that what routers
    do for their clients keeps it, and that the mover does. *)

From stdpp Require Import base list gmap.
From S2P Require Import Prelude Codec Key Batch LogStore KeyHash Db StateMachine KvSpec Server Client ClientTheorems Router RouterRuns MoveInv.

Section Safety.
Context (marshal : Result -> bytes) (unmarshalResult : bytes -> option Result).
Context (Hres : forall r, unmarshalResult (marshal r) = Some r).
Context (encode_map : ShardMap -> bytes) (decode_map : bytes -> option ShardMap).
Context (Hmap : forall m, decode_map (encode_map m) = Some m).
Context (gids : list N) (Hzero : 0%N ∉ gids) (Hmeta : MetaGroup ∉ gids).
Context (shard src dest : N) (Hsrc : src ∈ gids) (Hdest : dest ∈ gids) (Hne : src <> dest).
Context (m0 : gmap bytes bytes).

Local Abbreviation serves := (served marshal unmarshalResult shard).

(** ** The invariant *)

Definition grp (w : store) (g : N) : kvs := default kvs0 (st_groups w !! g).

(** The contents of the shard, by what has been executed. *)
Definition contents (w : store) : gmap bytes bytes := replay m0 (st_hist w).

Definition away (w : store) : Prop := sstate shard (grp w src) = Some shardGone /\ sstate shard (grp w dest) = Some shardOpen.

(** A map names the source, or the destination once the source is gone, and no
    move but this one. *)
Definition placed (w : store) (m : ShardMap) : Prop :=
  length (sm_Groups m) = N.to_nat Shards /\ length (sm_Moving m) = N.to_nat Shards /\
  (sm_Moving m !! N.to_nat shard = Some 0%N \/ sm_Moving m !! N.to_nat shard = Some dest) /\
  (sm_Groups m !! N.to_nat shard = Some src \/ sm_Groups m !! N.to_nat shard = Some dest /\ away w).

Definition stored (w : store) : option bytes := kv_data (grp w MetaGroup) !! mapKey.

Record minv (w : store) : Prop := {
  mi_legal : legal m0 (st_hist w);
  mi_phase : phase shard (grp w src) (grp w dest) (contents w);
  mi_meta : kv_shards (grp w MetaGroup) = ∅;
  mi_map : exists m, stored w = Some (encode_map m) /\ placed w m;
  mi_heap : forall rid m, m ∈ r_heap (router_of rid w) -> placed w m;
}.

(** Others see the source's copy closed for good. *)
Definition forward_only (w w' : store) : Prop := away w -> away w'.

(** What clients leave alone. *)
Record gentle (w w' : store) : Prop := {
  ge_src : sstate shard (grp w' src) = sstate shard (grp w src);
  ge_dest : sstate shard (grp w' dest) = sstate shard (grp w dest);
  ge_map : stored w' = stored w;
  ge_frozen : sstate shard (grp w src) = Some shardFrozen -> forall k, ShardOf k = shard -> kv_data (grp w' src) !! k = kv_data (grp w src) !! k;
  ge_vacant : sstate shard (grp w dest) <> Some shardOpen -> forall k, ShardOf k = shard -> kv_data (grp w' dest) !! k = kv_data (grp w dest) !! k;
}.

Lemma gentle_forward w w' : gentle w w' -> forward_only w w'.
Proof. intros [H1 H2 _ _ _]. unfold forward_only, away. by rewrite H1, H2. Qed.

Lemma gentle_refl w : gentle w w.
Proof. by split. Qed.

(** A request the routers make for clients: no shard management, the keys of
    the shard go where they belong, and the map is not overwritten. *)
Record polite (w : store) (req : Request) : Prop := {
  po_group : req_group req <> 0%N;
  po_plain : forall op, req_op req = Some op -> plain op = true;
  po_shard : forall op, req_op req = Some op -> in_shard shard op = true ->
    req_group req = src \/ req_group req = dest /\ away w \/ req_group req = MetaGroup;
  po_meta : req_group req = MetaGroup -> req_op req = Some Register \/ (exists k, req_op req = Some (OpGet k)) \/ exists v, req_op req = Some (OpCas mapKey None v);
}.

Lemma grp_insert gs rts h g st g' : grp (mkStore (<[g := st]> gs) rts h) g' = if decide (g = g') then st else default kvs0 (gs !! g').
Proof. unfold grp. simpl. case_decide as E; [subst; by rewrite lookup_insert_eq|by rewrite lookup_insert_ne]. Qed.

Lemma src_meta : src <> MetaGroup /\ dest <> MetaGroup.
Proof. split; intros E; rewrite E in *; auto. Qed.

(** ** Steps of groups *)

Definition after (w : store) (g : N) (st : kvs) (h : list (Op * Result)) : store := mkStore (<[g := st]> (st_groups w)) (st_routers w) (st_hist w ++ h).

Lemma grp_after w g st h g' : grp (after w g st h) g' = if decide (g = g') then st else grp w g'.
Proof. apply grp_insert. Qed.

Lemma contents_after w g st h : contents (after w g st h) = replay (contents w) h.
Proof. apply replay_app. Qed.

(** The maps that are around stay right as long as shard states do. *)
Lemma placed_mono w w' m : forward_only w w' -> placed w m -> placed w' m.
Proof. unfold placed, forward_only. naive_solver. Qed.

Lemma maps_after w g st st' h :
  st_groups w !! g = Some st -> kv_shards st' = kv_shards st -> (g = MetaGroup -> kv_data st' !! mapKey = kv_data st !! mapKey) -> minv w ->
  sstate shard (grp (after w g st' h) src) = sstate shard (grp w src) /\ sstate shard (grp (after w g st' h) dest) = sstate shard (grp w dest) /\
  stored (after w g st' h) = stored w /\ kv_shards (grp (after w g st' h) MetaGroup) = ∅ /\
  (exists m, stored (after w g st' h) = Some (encode_map m) /\ placed (after w g st' h) m) /\
  forall rid m, m ∈ r_heap (router_of rid (after w g st' h)) -> placed (after w g st' h) m.
Proof.
  intros Hg Hs Hm Hi. assert (forall g', g = g' -> grp w g' = st) as Hgrp by (intros g' <-; unfold grp; by rewrite Hg).
  assert (forall g', sstate shard (grp (after w g st' h) g') = sstate shard (grp w g')) as Hss.
  { intros g'. rewrite grp_after. case_decide as E; [|done]. rewrite (Hgrp _ E). unfold sstate. by rewrite Hs. }
  assert (stored (after w g st' h) = stored w) as Hst.
  { unfold stored. rewrite grp_after. case_decide as E; [|done]. rewrite (Hgrp _ E). by apply Hm. }
  assert (forward_only w (after w g st' h)) as Hf by (unfold forward_only, away; by rewrite !Hss).
  split_and!; [done|done|done| | |].
  - rewrite grp_after. case_decide as E; [|apply Hi]. rewrite Hs, <-(Hgrp _ E). apply Hi.
  - destruct (mi_map _ Hi) as (m & Hm1 & Hm2). exists m. rewrite Hst. eauto using placed_mono.
  - intros rid m Hin. eapply placed_mono; [exact Hf|]. exact (mi_heap _ Hi rid m Hin).
Qed.

(** A step that leaves the keys of the shard alone. *)
Lemma frame_after w g st st' h :
  st_groups w !! g = Some st -> kv_shards st' = kv_shards st -> (g = MetaGroup -> kv_data st' !! mapKey = kv_data st !! mapKey) ->
  (g <> MetaGroup -> forall k, ShardOf k = shard -> kv_data st' !! k = kv_data st !! k) -> legal (contents w) h -> replay (contents w) h = contents w ->
  minv w -> minv (after w g st' h) /\ gentle w (after w g st' h).
Proof.
  intros Hg Hs Hm Hd Hl Hc Hi. destruct (maps_after w g st st' h Hg Hs Hm Hi) as (H1 & H2 & H3 & H4 & H5 & H6). destruct src_meta as [Hm1 Hm2].
  assert (forall g', g' <> MetaGroup -> forall k, ShardOf k = shard -> kv_data (grp (after w g st' h) g') !! k = kv_data (grp w g') !! k) as Hk.
  { intros g' Hg' k Hk. rewrite grp_after. case_decide as E; [|done]. subst g'. unfold grp. rewrite Hg. by apply Hd. }
  split; split; try done; eauto.
  - simpl. apply legal_app. split; [apply Hi|done].
  - rewrite contents_after, Hc. pose proof (Hk src Hm1) as Ka. pose proof (Hk dest Hm2) as Kb.
    destruct (mi_phase _ Hi) as [Ha Hb Ca Cb|Ha Hb Ca Cb|Ha Hb Ca Cb|Ha Hb Cb]; [apply ph_home|apply ph_copy|apply ph_both|apply ph_away];
      unfold opened, vacant, agrees, lacks, within in *; rewrite ?H1, ?H2 in *; try done; intros k; intros; rewrite ?Ka, ?Kb in * by done; auto.
Qed.

(** A step on the shard's contents where they are served. *)
Lemma serve_after w g st st' op res :
  (g = src /\ opened shard (grp w src) \/ g = dest /\ away w) -> st_groups w !! g = Some st -> kv_shards st' = kv_shards st ->
  res = (exec1 op (contents w)).1 -> (forall k, ShardOf k = shard -> kv_data st' !! k = (exec1 op (contents w)).2 !! k) ->
  minv w -> minv (after w g st' [(op, res)]) /\ gentle w (after w g st' [(op, res)]).
Proof.
  intros Hgg Hg Hs Hr Hd Hi. destruct src_meta as [Hm1 Hm2]. assert (g <> MetaGroup) as Hm by naive_solver.
  destruct (maps_after w g st st' [(op, res)] Hg Hs ltac:(done) Hi) as (H1 & H2 & H3 & H4 & H5 & H6).
  assert (legal m0 (st_hist (after w g st' [(op, res)]))) as Hl by (simpl; apply legal_app; split; [apply Hi|done]).
  assert (contents (after w g st' [(op, res)]) = (exec1 op (contents w)).2) as Hc by apply contents_after.
  destruct Hgg as [[-> Ho]|[-> Haw]].
  - assert (grp (after w src st' [(op, res)]) src = st') as Ga by (rewrite grp_after; by destruct (decide _)).
    assert (grp (after w src st' [(op, res)]) dest = grp w dest) as Gb by (rewrite grp_after; by destruct (decide _)).
    assert (sstate shard (grp w src) <> Some shardFrozen) as Hnf by (destruct Ho as [-> | ->]; done).
    split; split; try done; rewrite ?Gb; try done.
    destruct (mi_phase _ Hi) as [Ha Hb Ca Cb|Ha|Ha|Ha]; [|congruence..|].
    + apply ph_home; [unfold opened; by rewrite H1|done|rewrite Ga, Hc; exact Hd|done].
    + exfalso. destruct Ho as [Ho|Ho]; rewrite Ha in Ho; done.
  - assert (grp (after w dest st' [(op, res)]) dest = st') as Gb by (rewrite grp_after; by destruct (decide _)).
    assert (grp (after w dest st' [(op, res)]) src = grp w src) as Ga by (rewrite grp_after; by destruct (decide _)).
    destruct Haw as [A1 A2]. split; split; try done; rewrite ?Ga; try done.
    apply ph_away; [done|by rewrite H2|rewrite Gb, Hc; exact Hd].
Qed.

(** ** Requests of clients *)

Lemma away_agrees w : minv w -> away w -> agrees shard (grp w dest) (contents w).
Proof.
  intros Hi [A1 A2]. destruct (mi_phase _ Hi) as [[Ha|Ha]|Ha|Ha|]; try done; rewrite A1 in Ha; discriminate.
Qed.

(** The operation of a command, executed by a group. *)
Lemma plain_exec w g st cmd op i :
  st_groups w !! g = Some st -> cmd_Op cmd = Some op -> plain op = true ->
  (in_shard shard op = true -> g = src \/ g = dest /\ away w \/ g = MetaGroup) ->
  (g = MetaGroup -> op = Register \/ (exists k, op = OpGet k) \/ exists v, op = OpCas mapKey None v) ->
  duplicate cmd (kv_sessions st) = None -> minv w ->
  let w' := after w g (kv_step marshal cmd i st).1 (logged shard g op (kv_exec (Some op) i st).1.1) in minv w' /\ gentle w w'.
Proof.
  intros Hg Hop Hp Hin Hme Hd Hi. cbv zeta. destruct (step_new marshal cmd i st Hd) as (Hda & Hsh & _). rewrite Hop in Hda, Hsh. rewrite plain_shards in Hsh by done.
  assert (forall g', g = g' -> grp w g' = st) as Hgrp by (intros g' <-; unfold grp; by rewrite Hg).
  destruct (decide (g = MetaGroup)) as [Em|Em].
  { unfold logged. assert ((g =? MetaGroup)%N = true) as -> by (by apply N.eqb_eq). cbn [negb andb]. apply frame_after with st; try done. intros _. rewrite Hda.
    destruct (Hme Em) as [->|[[k ->]|[v ->]]]; [done| |].
    - cbn [kv_exec]. by destruct (readable (kv_shards st) k).
    - destruct (mi_map _ Hi) as (m & Hst & _). unfold stored in Hst. rewrite (Hgrp _ Em) in Hst. cbn [kv_exec]. rewrite Hst.
      destruct (writable (kv_shards st) mapKey); cbn [fst snd]; [|done]. unfold cas_ok. by rewrite bool_decide_false by done. }
  unfold logged. destruct (N.eqb_spec g MetaGroup); [done|]. cbn [negb andb]. destruct (in_shard shard op) eqn:His; cbn [andb].
  2: { apply frame_after with st; try done. intros _ k Hk. rewrite Hda. apply plain_data; [done|]. intros E. unfold in_shard in His. rewrite E in His.
       by apply N.eqb_neq in His. }
  assert (res_Moving (kv_exec (Some op) i st).1.1 = true -> (kv_exec (Some op) i st).1.2 = kv_data st ->
    let w' := after w g (kv_step marshal cmd i st).1 [] in minv w' /\ gentle w w') as Hmov.
  { intros _ E. apply frame_after with st; try done. intros _ k _. by rewrite Hda, E. }
  assert (agrees shard st (contents w) -> (g = dest -> away w) -> g = src \/ g = dest ->
    let w' := after w g (kv_step marshal cmd i st).1 (if negb (res_Moving (kv_exec (Some op) i st).1.1) then [(op, (kv_exec (Some op) i st).1.1)] else []) in
    minv w' /\ gentle w w') as Hserve.
  { intros Hag Haw Hgg. destruct (exec_agrees shard op i st (contents w) His Hag) as [[Em1 Em2]|(Em1 & Er & Ed & _ & [Ho|[Ed1 Ed2]])]; rewrite Em1; cbn [negb].
    - by apply Hmov.
    - apply serve_after with st; try done; [|intros k Hk; rewrite Hda; by apply Ed].
      destruct Hgg as [E|E]; [left; split; [done|by rewrite (Hgrp src E)]|right; auto].
    - apply frame_after with st; try done. intros _ k _. by rewrite Hda, Ed1. }
  destruct (Hin eq_refl) as [E|[[E Haw]|E]]; [|subst g|done].
  - pose proof (Hgrp src E) as Hs. destruct (mi_phase _ Hi) as [Ha Hb Ca Cb|Ha Hb Ca Cb|Ha Hb Ca Cb|Ha Hb Cb]; rewrite Hs in *;
      try (apply Hserve; [done| |by left]; intros E2; by destruct (Hne (eq_trans (eq_sym E) E2))).
    destruct (exec_gone shard op i st His Ha) as [E1 E2]. rewrite E1. by apply Hmov.
  - apply Hserve; [|done|by right]. rewrite <-(Hgrp dest eq_refl). by apply away_agrees.
Qed.

(** A read outside the log. *)
Lemma local_read w g st k v :
  st_groups w !! g = Some st -> (in_shard shard (OpGet k) = true -> g = src \/ g = dest /\ away w \/ g = MetaGroup) ->
  local_get k st = inr v -> minv w ->
  legal (contents w) (logged shard g (OpGet k) (read_result v false)) /\ replay (contents w) (logged shard g (OpGet k) (read_result v false)) = contents w.
Proof.
  intros Hg Hin Hl Hi. unfold logged. destruct (N.eqb_spec g MetaGroup) as [|Em]; [done|]. cbn [negb andb res_Moving read_result].
  destruct (in_shard shard (OpGet k)) eqn:His; [|done]. simpl. unfold local_get in Hl. destruct (readable _ k) eqn:Hr; [|done]. injection Hl as <-.
  assert (ShardOf k = shard) as Hk by (by apply N.eqb_eq). apply (readable_kept shard st k Hk) in Hr.
  assert (exec1 (OpGet k) (contents w) = (read_result (contents w !! k) false, contents w)) as -> by done. simpl.
  assert (forall g', g = g' -> grp w g' = st) as Hgrp by (intros g' <-; unfold grp; by rewrite Hg).
  enough (agrees shard st (contents w)) as Hag by (by rewrite (Hag k Hk)).
  destruct (Hin eq_refl) as [E|[[E Haw]|E]]; [| |done]; rewrite <-(Hgrp _ E) in *; [|by apply away_agrees].
  by destruct (mi_phase _ Hi).
Qed.

Lemma polite_serves w req o : minv w -> polite w req -> minv (serves o req w).1 /\ gentle w (serves o req w).1.
Proof.
  intros Hi [Hz Hpl Hsh Hme]. destruct (served_effect marshal unmarshalResult shard o req w) as (h & Heff & Hh & Hr).
  destruct (serves o req w) as [w' r]. cbn [fst snd] in *. destruct w' as [gs' rts' hist']. simpl in Hh, Hr. subst hist' rts'.
  assert (minv (mkStore (st_groups w) (st_routers w) (st_hist w)) /\ gentle w (mkStore (st_groups w) (st_routers w) (st_hist w))) as Hsame
    by (destruct w; split; [done|apply gentle_refl]).
  cbn [st_groups] in Heff. destruct Heff as [e|g st rq v -> _ Hg Hst Hl|rq l -> _|g st cmd op i r Hg Hst Hc Hop _].
  - by rewrite app_nil_r.
  - destruct (group_named _ _ _ Hz Hg) as [-> _]. rewrite <-(insert_id (st_groups w) (req_group (RqGet rq)) st Hst).
    destruct (local_read w _ st (get_Key rq) v Hst (Hsh _ eq_refl) Hl Hi) as [L1 L2]. by apply frame_after with st.
  - by rewrite app_nil_r.
  - assert (req_op req = Some op) as Ho by (by rewrite <-(req_command_op _ _ Hc)). destruct (group_named _ _ _ Hz Hg) as [-> _].
    destruct (duplicate cmd (kv_sessions st)) as [x|] eqn:Hd.
    + apply (frame_after w _ st); try done; rewrite step_dup with (r := x) by done; done.
    + apply plain_exec; try done; [by apply Hpl|by apply Hsh|]. intros E. specialize (Hme E). rewrite Ho in Hme. naive_solver.
Qed.

Lemma routers_gentle w rts : gentle w (mkStore (st_groups w) rts (st_hist w)).
Proof. by split. Qed.

(** Only the map objects of a router change. *)
Lemma heap_minv w rid r :
  minv w -> (forall m, m ∈ r_heap r -> placed w m) -> minv (set_router rid r w) /\ gentle w (set_router rid r w).
Proof.
  intros Hi Hr. split; [|apply routers_gentle]. destruct Hi as [H1 H2 H3 H4 H5]. split; try done. intros rid' m Hin.
  unfold router_of, set_router in Hin. simpl in Hin. destruct (decide (rid' = rid)) as [->|].
  - rewrite lookup_insert_eq in Hin. by apply Hr.
  - rewrite lookup_insert_ne in Hin by done. by eapply H5.
Qed.

(** ** Reading the map *)

(** A command without a session is executed. *)
Lemma anonymous cmd st : cmd_ClientId cmd = 0%N -> duplicate cmd (kv_sessions st) = None.
Proof. unfold duplicate. intros ->. by destruct (kv_sessions st !! 0%N). Qed.

Lemma anonymous_result cmd i st x :
  cmd_ClientId cmd = 0%N -> unmarshalResult (kv_step marshal cmd i st).2 = Some x -> x = (kv_exec (cmd_Op cmd) i st).1.1.
Proof. intros Hz. destruct (step_new marshal cmd i st (anonymous cmd st Hz)) as (_ & _ & ->). rewrite Hres. congruence. Qed.

Definition get_map : Request := RqGet (mkGetRequest mapKey LOG None MetaGroup).

Lemma get_map_polite w : polite w get_map.
Proof. split; [done|by intros op [= <-]|by right; right|]. intros _. right. left. by exists mapKey. Qed.

Lemma read_map w o :
  minv w ->
  (exists e, (serves o get_map w).2 = inl e) \/
  exists m, stored (serves o get_map w).1 = Some (encode_map m) /\ placed (serves o get_map w).1 m /\
    (serves o get_map w).2 = inr (RsGet (mkGetResponse true (encode_map m))).
Proof.
  intros Hi. destruct (polite_serves w get_map o Hi (get_map_polite w)) as [Hi' Hg].
  destruct (served_effect marshal unmarshalResult shard o get_map w) as (h & Heff & _ & _).
  destruct (serves o get_map w) as [w' r]. cbn [fst snd] in *. destruct (mi_map _ Hi') as (m & Hm & Hpm).
  destruct Heff as [e|g st rq v [= <-] [=] _ _ _|rq l [=] _|g st cmd op i r Hgr Hst Hc Hop [[e ->]|(x & Hx & Hmv & ->)]]; [left; by exists e|left; by exists e|].
  right. exists m. split_and!; [done..|]. destruct (group_named MetaGroup _ _ ltac:(done) Hgr) as [-> _]. injection Hc as <-.
  apply anonymous_result in Hx; [|done]. rewrite (ge_map _ _ Hg) in Hm. unfold stored, grp in Hm. rewrite Hst in Hm. cbn [default] in Hm.
  assert (kv_shards st = ∅) as Hs by (pose proof (mi_meta _ Hi) as E; unfold grp in E; by rewrite Hst in E).
  cbn [setSession cmd_Op kv_exec] in Hx. rewrite Hs in Hx. change (readable ∅ mapKey) with true in Hx. cbn [fst] in Hx. unfold id in Hm. rewrite Hm in Hx. by subst x.
Qed.

(** ** Programs *)

Section Programs.
Context (Rely Guar : store -> store -> Prop) (rid : N).
Context (Hrely : forall w w', gentle w w' -> Rely w w') (Hfwd : forall w w', Rely w w' -> forward_only w w') (Hguar : forall w w', gentle w w' -> Guar w w').

Local Abbreviation saf := (safe marshal unmarshalResult shard minv Rely Guar rid).
Local Abbreviation stab := (stable minv Rely).

Lemma stab_gentle P w w' : stab P -> minv w -> minv w' -> gentle w w' -> P w -> P w'.
Proof. intros H Hi Hi' Hg. eapply H; eauto. Qed.

Lemma stab_and P P' : stab P -> stab P' -> stab (fun w => P w /\ P' w).
Proof. intros H1 H2 w w' Hi Hi' HR [Hp Hp']. split; [by apply (H1 w)|by apply (H2 w)]. Qed.

Lemma stab_placed m : stab (fun w => placed w m).
Proof. intros w w' Hi Hi' HR. apply placed_mono. by apply Hfwd. Qed.

(** A request for clients. *)
Lemma call_polite P g req (Y : status + Response -> store -> Prop) :
  stab P -> (forall w, minv w -> P w -> polite w req) -> (forall r, stab (Y r)) ->
  (forall w o, minv w -> P w -> Y (serves o req w).2 (serves o req w).1) -> (forall e w, minv w -> P w -> Y (inl e) w) ->
  saf P (call g req) (fun r w => P w /\ Y r w).
Proof.
  intros HP Hpol HY Hs He. unfold call. apply safe_rpc with (fun r w => P w /\ Y r w).
  - done.
  - intros w o Hi Hw. destruct (polite_serves w req o Hi (Hpol w Hi Hw)) as [Hi' Hg].
    assert (P (serves o req w).1) by exact (stab_gentle P w _ HP Hi Hi' Hg Hw). split; [|by auto]. split_and!; eauto.
  - intros e w Hi Hw. auto.
  - intros r. apply safe_done; [by apply stab_and|]. by intros w _.
Qed.

Lemma fix_placed w m : placed w m -> fix_moving m = m.
Proof. intros (H1 & H2 & _). unfold fix_moving. by rewrite H1, H2, Nat.eqb_refl. Qed.

(** A new map object becomes the cached one. *)
Lemma publish_safe P m raw :
  stab P -> entails minv P (fun w => placed w m) ->
  saf P (New m (fun p => Publish p raw (Done (@inr status _ (p, m))))) (fun r w => P w /\ exists p, r = inr (p, m)).
Proof.
  intros HP Hm. exists P, (fun _ => P). split_and!; [done|by intros w ?| |].
  - intros w Hi Hw. destruct (heap_minv w rid (mkRouter (r_heap (router_of rid w) ++ [m]) (r_cache (router_of rid w))) Hi) as [Hi' Hg].
    + intros m' [Hin| ->%list_elem_of_singleton]%elem_of_app; [by eapply mi_heap|by apply Hm].
    + split_and!; [done|by apply Hguar|exact (stab_gentle P w _ HP Hi Hi' Hg Hw)].
  - intros p. exists P, P. split_and!; [done|by intros w ?| |apply safe_done; [done|intros w _ Hw; eauto]].
    intros w Hi Hw. destruct (heap_minv w rid (mkRouter (r_heap (router_of rid w)) (Some (p, raw))) Hi) as [Hi' Hg].
    + intros m' Hin. by eapply mi_heap.
    + split_and!; [done|by apply Hguar|exact (stab_gentle P w _ HP Hi Hi' Hg Hw)].
Qed.

(** Loading the map: [X] holds of a map that is stored. *)
Lemma reload_safe P (X : ShardMap -> store -> Prop) tries :
  stab P -> (forall m, stab (X m)) -> (forall w m, minv w -> P w -> stored w = Some (encode_map m) -> X m w) ->
  saf P (reload encode_map decode_map gids tries) (fun r w => P w /\ match r with inl _ => True | inr (_, m) => X m w /\ placed w m end).
Proof.
  intros HP HX HX0.
  set (Y := fun (r : status + Response) w => match r with
    | inl _ => True
    | inr (RsGet g) => exists m, g = mkGetResponse true (encode_map m) /\ X m w /\ placed w m
    | inr _ => False
    end).
  assert (saf P (call MetaGroup get_map) (fun r w => P w /\ Y r w)) as Hcall.
  { apply call_polite; [done|by intros; apply get_map_polite| | |done].
    - intros [e|[| | | |g| |]]; try (by intros w w' _ _ _ ?). intros w w' Hi Hi' HR (m & -> & Hx & Hp). exists m. split_and!; [done|by apply (HX m w)|exact (stab_placed m w w' Hi Hi' HR Hp)].
    - intros w o Hi Hw. destruct (read_map w o Hi) as [[e ->]|(m & Hst & Hpl & ->)]; [done|]. exists m.
      destruct (polite_serves w get_map o Hi (get_map_polite w)) as [Hi' Hg]. split_and!; [done| |done]. apply HX0; [done| |done]. exact (stab_gentle P w _ HP Hi Hi' Hg Hw). }
  destruct tries as [|tries]; cbn [reload]; change (RqGet _) with get_map.
  all: eapply safe_ebind; [exact Hcall|intros e; apply safe_done; [apply stab_and; [done|by intros w w' _ _ _ _]|by intros w _ [? _]]|].
  all: intros [| | | |g| |]; try (by apply safe_absurd; intros w _ [_ []]).
  all: destruct (getr_Found g) eqn:Hf; [|apply safe_absurd; intros w _ [_ (m & -> & _)]; done].
  all: destruct (decode_map (getr_Value g)) as [m|] eqn:Hd; [|apply safe_absurd; intros w _ [_ (m & -> & _)]; simpl in Hd; by rewrite Hmap in Hd].
  all: apply safe_weaken with (fun w => P w /\ X m w /\ placed w m).
  1, 3: intros w _ [Hw (m' & -> & Hx & Hp)]; simpl in Hd; rewrite Hmap in Hd; by simplify_eq.
  all: destruct (decide (length (sm_Groups m) = length (sm_Moving m))) as [E|E]; [|apply safe_absurd; intros w _ (_ & _ & H1 & H2 & _); congruence].
  all: assert (fix_moving m = m) as -> by (unfold fix_moving; by rewrite E, Nat.eqb_refl).
  all: eapply safe_post; [|apply publish_safe; [apply stab_and, stab_and, stab_placed; done|by intros w _ (_ & _ & ?)]].
  all: by intros a w _ [(? & ? & ?) [p ->]].
Qed.

(** ** Operations for clients *)

Definition any : store -> Prop := fun _ => True.

Lemma stab_any : stab any.
Proof. by intros w w' _ _ _ _. Qed.

#[local] Hint Resolve stab_any : core.

Lemma end_any {A} (P : store -> Prop) (a : A) : saf P (Done a) (fun _ => any).
Proof. exists any. split_and!; by try intros w. Qed.

Lemma shardMap_safe tries : saf any (shardMap encode_map decode_map gids tries) (fun r w => match r with inl _ => True | inr m => placed w m end).
Proof.
  exists any, (fun c w => match c with Some (m, _) => placed w m | None => True end). split_and!; [done|by intros w| |].
  - intros w Hi _. unfold cached. destruct (r_cache _) as [[p raw]|]; [|done]. destruct (_ !! p) as [m|] eqn:E; [|done].
    apply (mi_heap _ Hi rid). by eapply list_elem_of_lookup_2.
  - intros [[m raw]|]; [apply safe_done; [apply stab_placed|by intros w _ ?]|].
    eapply safe_ebind; [apply (reload_safe any (fun _ => any)); done|intros e; apply safe_done; [apply stab_and; [done|by intros w w' _ _ _ _]|by intros w]|].
    intros [p m]. apply safe_done; [apply stab_and, stab_and, stab_placed; done|by intros w _ (_ & _ & ?)].
Qed.

(** A group for a key. *)
Definition fits (key : bytes) (g : N) (w : store) : Prop := g ∈ gids /\ (ShardOf key = shard -> g = src \/ g = dest /\ away w).

Lemma stab_fits key g : stab (fits key g).
Proof. intros w w' _ _ HR [H1 H2]. split; [done|]. intros E. destruct (H2 E) as [|[? ?]]; [by left|right]. split; [done|]. by apply (Hfwd w). Qed.

Lemma groupFor_safe tries key : saf any (groupFor encode_map decode_map gids tries key) (fun r w => match r with inl _ => True | inr g => fits key g w end).
Proof.
  unfold groupFor. destruct (length key =? 0); [by apply safe_done|].
  eapply safe_ebind; [apply shardMap_safe|intros e; by apply safe_done|]. intros m.
  destruct (sm_Groups m !! N.to_nat (ShardOf key)) as [g|] eqn:E.
  - case_bool_decide as Hin; [|apply safe_done; [apply stab_placed|by intros w]].
    apply safe_weaken with (fits key g); [|apply safe_done; [apply stab_fits|by intros w _ ?]].
    intros w _ (_ & _ & _ & Hpl). split; [done|]. intros <-. rewrite E in Hpl. destruct Hpl as [[= ->]|[[= ->] ?]]; auto.
  - apply lookup_ge_None in E. intros w _ (Hl & _). rewrite Hl in E. pose proof (ShardOf_in_range key). lia.
Qed.

(** A request made of a client's, for a group. *)
Definition routes (key : bytes) (op : N -> Request) : Prop :=
  forall g, req_group (op g) = g /\ exists o, req_op (op g) = Some o /\ plain o = true /\ op_key o = Some key.

Lemma fits_polite key op g w : routes key op -> fits key g w -> polite w (op g).
Proof.
  intros Hr [Hin Hf]. destruct (Hr g) as (Hg & o & Ho & Hp & Hk). split; rewrite ?Hg, ?Ho.
  - by intros ->.
  - by intros op' [= <-].
  - intros op' [= <-] Hs. unfold in_shard in Hs. rewrite Hk in Hs. apply N.eqb_eq in Hs. destruct (Hf Hs) as [|[]]; auto.
  - intros ->. done.
Qed.

Lemma call_any P g req : stab P -> (forall w, minv w -> P w -> polite w req) -> saf P (call g req) (fun _ => P).
Proof. intros HP Hpol. eapply safe_post; [|apply (call_polite P g req (fun _ => any)); done]. by intros a w _ [? _]. Qed.

Lemma forward_safe tries n key op : routes key op -> saf any (forward encode_map decode_map gids tries n key op) (fun _ => any).
Proof.
  intros Hr. induction n as [|n IH]; cbn [forward].
  all: eapply safe_ebind; [apply groupFor_safe|intros e; apply end_any|]; intros g.
  all: match goal with |- safe _ _ _ _ _ _ _ _ (Rpc ?g ?rq ?k) _ => change (Rpc g rq k) with (pbind (call g rq) k) end.
  all: eapply safe_bind; [apply call_any; [apply stab_fits|intros w _; by apply fits_polite]|].
  all: intros r; destruct (isMoving r); [|apply end_any].
  - apply end_any.
  - exists any. split_and!; [done|by intros w|]. intros [|]; [apply end_any|].
    eapply safe_ebind; [apply (reload_safe any (fun _ => any)); done|intros e; apply end_any|]. intros a. eapply safe_weaken; [|exact IH]. by intros w.
Qed.

Lemma scan_groups_safe r gs : (forall g, g ∈ gs -> g ∈ gids) -> saf any (scan_groups r gs) (fun _ => any).
Proof.
  induction gs as [|g gs IH]; intros Hin; cbn [scan_groups]; [apply end_any|].
  match goal with |- safe _ _ _ _ _ _ _ _ (Rpc ?g ?rq ?k) _ => change (Rpc g rq k) with (pbind (call g rq) k) end.
  assert (g ∈ gids) as Hg by (apply Hin; by left).
  eapply safe_bind; [apply call_any; [done|]|].
  - intros w _ _. split; simpl; [by intros ->|by intros op [= <-]|by intros op [= <-]|by intros ->].
  - intros a. eapply safe_bind; [apply IH; intros g' ?; apply Hin; by right|]. intros rest. apply end_any.
Qed.

Lemma client_safe tries op : routed op -> saf any (client_prog encode_map decode_map gids tries op) (fun _ => any).
Proof.
  assert (forall A (p : prog A), saf any p (fun _ => any) -> saf any (forget p) (fun _ => any)) as Hforget
    by (intros A p Hp; eapply safe_bind; [exact Hp|intros a; apply end_any]).
  destruct op as [r|r|r|r|r| |]; cbn [routed client_prog]; intros Hg; apply Hforget; unfold rt_Put, rt_Delete, rt_Cas, rt_Get, rt_Scan, rt_RegisterClient; rewrite ?Hg; cbn [N.eqb];
    try (apply forward_safe; intros g; split; [done|eexists; split_and!; done]).
  - eapply safe_ebind; [apply shardMap_safe|intros e; apply end_any|]. intros m. apply safe_weaken with any; [by intros w|].
    eapply safe_bind; [apply scan_groups_safe; done|]. intros l. destruct (first_error l); apply end_any.
  - apply call_any; [done|]. intros w _ _. split; [done|by intros op [= <-]|by intros op [= <-]|by left].
  - eapply safe_post; [|apply (reload_safe any (fun _ => any)); done]. by intros a w.
Qed.
End Programs.

(** ** The mover *)

(** The shard's keys in a group. *)
Definition part (st : kvs) : gmap bytes bytes := filter (fun kv => ShardOf kv.1 = shard) (kv_data st).

Lemma part_lookup st k v : part st !! k = Some v <-> kv_data st !! k = Some v /\ ShardOf k = shard.
Proof. unfold part. apply map_lookup_filter_Some. Qed.

Lemma part_eq st st' : (forall k, ShardOf k = shard -> kv_data st' !! k = kv_data st !! k) -> part st' = part st.
Proof.
  intros H. apply map_eq. intros k. apply option_eq. intros v. rewrite !part_lookup. split; intros [H1 H2]; (split; [|done]); [by rewrite <-H|by rewrite H].
Qed.

Definition frozen (w : store) : Prop := sstate shard (grp w src) = Some shardFrozen \/ sstate shard (grp w src) = Some shardGone.

Definition arrived (w : store) : Prop := frozen w /\ sstate shard (grp w dest) = Some shardOpen.

(** While the copy is under way: a condition on the two groups' keys. *)
Definition copying (C : gmap bytes bytes -> gmap bytes bytes -> Prop) (w : store) : Prop :=
  frozen w /\ (sstate shard (grp w dest) = Some shardOpen \/ C (part (grp w src)) (part (grp w dest))).

Lemma gone_open w : minv w -> sstate shard (grp w src) = Some shardGone -> sstate shard (grp w dest) = Some shardOpen.
Proof.
  intros Hi Hg. destruct (mi_phase _ Hi) as [[H|H]|H|H|]; try done; rewrite Hg in H; discriminate.
Qed.

Lemma stable_frozen : stable minv gentle frozen.
Proof. intros w w' _ _ [H1 _ _ _ _]. unfold frozen. by rewrite H1. Qed.

Lemma stable_arrived : stable minv gentle arrived.
Proof. intros w w' _ _ [H1 H2 _ _ _]. unfold arrived, frozen. by rewrite H1, H2. Qed.

Lemma stable_away : stable minv gentle away.
Proof. intros w w' _ _ [H1 H2 _ _ _]. unfold away. by rewrite H1, H2. Qed.

Lemma stable_copying C : stable minv gentle (copying C).
Proof.
  intros w w' Hi Hi' Hg [Hf Hc]. split; [by apply (stable_frozen w)|]. destruct Hg as [H1 H2 _ H4 H5]. rewrite H2.
  destruct (decide (sstate shard (grp w dest) = Some shardOpen)) as [|Hn]; [by left|]. destruct Hc as [|Hc]; [by left|right].
  destruct Hf as [Hf|Hf]; [|by rewrite (gone_open w Hi Hf) in Hn].
  rewrite (part_eq (grp w src) (grp w' src)), (part_eq (grp w dest) (grp w' dest)); auto.
Qed.

(** A command of the mover. *)
Definition admin_req (g : N) (op : Op) : Request := RqAdmin (mkAdminRequest g (mkCommand 0 0 (Some op))).

Lemma store_same w : mkStore (st_groups w) (st_routers w) (st_hist w ++ []) = w.
Proof. destruct w. simpl. by rewrite app_nil_r. Qed.

Lemma admin_effect w g op o :
  g <> 0%N -> isAdmin (Some op) = true ->
  ((serves o (admin_req g op) w).1 = w /\ exists e, (serves o (admin_req g op) w).2 = inl e) \/
  exists st st' i, st_groups w !! g = Some st /\ kv_data st' = (kv_exec (Some op) i st).1.2 /\ kv_shards st' = (kv_exec (Some op) i st).2 /\
    (serves o (admin_req g op) w).1 = after w g st' [] /\
    ((exists e, (serves o (admin_req g op) w).2 = inl e) \/ (serves o (admin_req g op) w).2 = inr (RsAdmin (kv_exec (Some op) i st).1.1)).
Proof.
  intros Hz Ha. destruct (served_effect marshal unmarshalResult shard o (admin_req g op) w) as (h & Heff & Hh & Hr).
  destruct (serves o (admin_req g op) w) as [[gs' rts' hist'] r]. simpl in Hh, Hr, Heff. subst hist' rts'. cbn [fst snd].
  assert (forall res, logged shard g op res = []) as Hlog.
  { intros res. unfold logged, in_shard. destruct op; try done; simpl; by rewrite andb_false_r. }
  destruct Heff as [e|g' st rq v [=]|rq l [=]|g' st cmd op' i r Hg Hst [= <-] [= <-] Hx].
  - left. rewrite store_same. eauto.
  - right. destruct (group_named g _ _ Hz Hg) as [-> _]. pose proof (anonymous (mkCommand 0 0 (Some op)) st eq_refl) as Hd.
    destruct (step_new marshal _ i st Hd) as (H1 & H2 & H3). exists st, (kv_step marshal (mkCommand 0 0 (Some op)) i st).1, i.
    split_and!; [done|done|done|unfold after; by rewrite Hd, Hlog|]. destruct Hx as [|(x & Hx & _ & ->)]; [by left|right].
    by apply anonymous_result in Hx as ->.
Qed.

(** ** Moving from phase to phase *)

Lemma advance w g st' :
  g <> MetaGroup -> forward_only w (after w g st' []) -> phase shard (grp (after w g st' []) src) (grp (after w g st' []) dest) (contents w) ->
  minv w -> minv (after w g st' []).
Proof.
  intros Hg Hf Hp Hi. assert (grp (after w g st' []) MetaGroup = grp w MetaGroup) as Hm by (rewrite grp_after; by destruct (decide _)).
  assert (st_hist (after w g st' []) = st_hist w) as Hh by (simpl; by rewrite app_nil_r). split.
  - rewrite Hh. apply Hi.
  - unfold contents. by rewrite Hh.
  - rewrite Hm. apply Hi.
  - destruct (mi_map _ Hi) as (m & H1 & H2). exists m. unfold stored. rewrite Hm. eauto using placed_mono.
  - intros rid m Hin. eapply placed_mono; [exact Hf|]. exact (mi_heap _ Hi rid m Hin).
Qed.

Lemma grp_src w st' : grp (after w src st' []) src = st' /\ grp (after w src st' []) dest = grp w dest.
Proof. by rewrite !grp_after, decide_True, decide_False. Qed.

Lemma grp_dest w st' : grp (after w dest st' []) dest = st' /\ grp (after w dest st' []) src = grp w src.
Proof. by rewrite !grp_after, decide_True, decide_False. Qed.

Lemma grp_of w g st : st_groups w !! g = Some st -> grp w g = st.
Proof. unfold grp. by intros ->. Qed.

Lemma freeze_step w st st' i :
  minv w -> st_groups w !! src = Some st -> kv_data st' = (kv_exec (Some (Freeze shard)) i st).1.2 -> kv_shards st' = (kv_exec (Some (Freeze shard)) i st).2 ->
  minv (after w src st' []) /\ forward_only w (after w src st' []) /\ frozen (after w src st' []).
Proof.
  intros Hi Hg Hd Hs. simpl in Hd, Hs. destruct (grp_src w st') as [Ga Gb]. pose proof (grp_of _ _ _ Hg) as Gs.
  assert (sstate shard st' = if decide (sstate shard st = Some shardGone) then Some shardGone else Some shardFrozen) as Hst.
  { unfold sstate in *. rewrite Hs. unfold shard_state. destruct (decide (kv_shards st !! shard = Some shardGone)) as [E|E].
    - rewrite E. simpl. by rewrite E.
    - rewrite bool_decide_false; [by rewrite lookup_insert_eq|]. destruct (kv_shards st !! shard); simpl; [congruence|done]. }
  assert (forward_only w (after w src st' [])) as Hf.
  { intros [A1 A2]. unfold away. rewrite Ga, Gb, Hst. rewrite Gs in A1. by rewrite decide_True. }
  split_and!; [|done|unfold frozen; rewrite Ga, Hst; case_decide; auto].
  apply advance; [by destruct src_meta|done| |done]. rewrite Ga, Gb. pose proof (mi_phase _ Hi) as Hp. rewrite Gs in Hp.
  assert (forall m, agrees shard st m -> agrees shard st' m) as Hag by (intros m H k Hk; rewrite Hd; by apply H).
  destruct Hp as [Ha Hb Ca Cb|Ha Hb Ca Cb|Ha Hb Ca Cb|Ha Hb Cb].
  - apply ph_copy; [rewrite Hst, decide_False; [done|]; by destruct Ha as [-> | ->]|done|auto|]. intros k v Hk Hv. by rewrite Cb in Hv.
  - apply ph_copy; [by rewrite Hst, Ha|done|auto|done].
  - apply ph_both; [by rewrite Hst, Ha|done|auto|done].
  - apply ph_away; [by rewrite Hst, Ha|done|done].
Qed.

Lemma purge_step w st st' i :
  minv w -> arrived w -> st_groups w !! src = Some st -> kv_data st' = (kv_exec (Some (Purge shard)) i st).1.2 -> kv_shards st' = (kv_exec (Some (Purge shard)) i st).2 ->
  minv (after w src st' []) /\ forward_only w (after w src st' []) /\ away (after w src st' []).
Proof.
  intros Hi [Hfr Hop] Hg Hd Hs. simpl in Hd, Hs. destruct (grp_src w st') as [Ga Gb].
  assert (away (after w src st' [])) as Haw by (split; [rewrite Ga; unfold sstate; by rewrite Hs, lookup_insert_eq|by rewrite Gb]).
  assert (forward_only w (after w src st' [])) as Hf by (by intros _).
  split_and!; [|done..]. apply advance; [by destruct src_meta|done| |done]. destruct Haw as [A1 A2]. apply ph_away; [done|done|]. rewrite Gb.
  destruct (mi_phase _ Hi) as [_ [H|H]|_ [H|H]| |]; try done; rewrite Hop in H; discriminate.
Qed.

(** Pairs still to be imported, and keys that are dealt with; [E] is what is
    known of the source. *)
Definition pending (E : gmap bytes bytes -> Prop) (chunk page : list KeyValue) (K : bytes -> Prop) (S D : gmap bytes bytes) : Prop :=
  E S /\ (forall kv, kv ∈ chunk \/ kv ∈ page /\ ShardOf (kv_Key kv) = shard -> S !! kv_Key kv = Some (kv_Value kv)) /\
  (forall k v, S !! k = Some v -> K k -> mkKV k v ∈ chunk \/ D !! k = Some v).

(** An import that is accepted. *)
Lemma import_accepted w st' E chunk page K is_last :
  minv w -> frozen w -> vacant shard (grp w dest) -> pending E chunk page K (part (grp w src)) (part (grp w dest)) -> (is_last = true -> forall k, K k) ->
  kv_data st' = put_kvs chunk (kv_data (grp w dest)) -> kv_shards st' = (if is_last then <[shard := shardOpen]> (kv_shards (grp w dest)) else kv_shards (grp w dest)) ->
  phase shard (grp w src) st' (contents w) /\ pending E [] page K (part (grp w src)) (part st') /\ pending E chunk page K (part (grp w src)) (part st').
Proof.
  intros Hi Hfr Hv (HE & HS & HK) Hlast Hd Hs.
  assert (sstate shard (grp w src) = Some shardFrozen) as Hfz.
  { destruct Hfr as [|Hg]; [done|]. pose proof (gone_open w Hi Hg) as Ho. destruct Hv as [Hv|Hv]; rewrite Ho in Hv; discriminate. }
  assert (agrees shard (grp w src) (contents w) /\ within shard (grp w dest) (contents w)) as [Ca Cb].
  { destruct (mi_phase _ Hi) as [[H|H]|_ _ Ca Cb|_ H|H]; try (by rewrite Hfz in H; discriminate); [done|].
    destruct Hv as [Hv|Hv]; rewrite H in Hv; discriminate. }
  assert (forall kv, kv ∈ chunk -> kv_data (grp w src) !! kv_Key kv = Some (kv_Value kv) /\ ShardOf (kv_Key kv) = shard) as Hch by (intros kv Hin; apply part_lookup, HS; by left).
  assert (forall k v, part st' !! k = Some v -> part (grp w src) !! k = Some v) as Hin.
  { intros k v. rewrite !part_lookup, Hd. intros [H Hk]. split; [|done]. destruct (put_kvs_cases chunk (kv_data (grp w dest)) k) as [(v' & Hc & Eq)|[_ Eq]]; rewrite Eq in H.
    - simplify_eq. by apply Hch in Hc as [? _].
    - rewrite (Ca k Hk). by apply Cb. }
  assert (forall k v, part (grp w src) !! k = Some v -> mkKV k v ∈ chunk \/ part (grp w dest) !! k = Some v -> part st' !! k = Some v) as Hout.
  { intros k v Hk Hor. pose proof Hk as [Hk1 Hk2]%part_lookup. apply part_lookup. split; [|done]. rewrite Hd.
    destruct (put_kvs_cases chunk (kv_data (grp w dest)) k) as [(v' & Hc & Eq)|[Hn Eq]]; rewrite Eq.
    - apply Hch in Hc as [Hc _]. simpl in Hc. congruence.
    - destruct Hor as [Hor|Hor]; [by destruct (Hn v)|]. by apply part_lookup in Hor as [? _]. }
  split_and!; [| |split_and!; [done|done|intros k v H1 H2; right; auto]].
  - destruct is_last.
    + apply ph_both; [done|unfold sstate; by rewrite Hs, lookup_insert_eq|done|]. intros k Hk. apply option_eq. intros v. rewrite <-(Ca k Hk). split; intros H.
      * apply (part_lookup (grp w src) k v), Hin, part_lookup. done.
      * apply (part_lookup st' k v), Hout; [by apply part_lookup|]. apply HK; [by apply part_lookup|by apply Hlast].
    + apply ph_copy; [done|unfold vacant, sstate; by rewrite Hs|done|]. intros k v Hk Hx. rewrite <-(Ca k Hk). apply (part_lookup (grp w src) k v), Hin, part_lookup. done.
  - split_and!; [done|intros kv [H|H]; [by apply not_elem_of_nil in H|apply HS; by right]|]. intros k v H1 H2. right. auto.
Qed.

Lemma import_step w st st' i E chunk page K is_last :
  minv w -> copying (pending E chunk page K) w -> (is_last = true -> forall k, K k) -> st_groups w !! dest = Some st ->
  kv_data st' = (kv_exec (Some (Import shard chunk is_last)) i st).1.2 -> kv_shards st' = (kv_exec (Some (Import shard chunk is_last)) i st).2 ->
  let res := (kv_exec (Some (Import shard chunk is_last)) i st).1.1 in let w' := after w dest st' [] in
  minv w' /\ forward_only w w' /\ copying (pending E chunk page K) w' /\
  if res_Success res then (if is_last then arrived w' else copying (pending E [] page K) w') else arrived w'.
Proof.
  intros Hi [Hfr Hc] Hlast Hg Hd Hs. cbv zeta. destruct (grp_dest w st') as [Gb Ga]. pose proof (grp_of _ _ _ Hg) as Gd. cbn [kv_exec] in *.
  assert (frozen (after w dest st' [])) as Hfr' by (unfold frozen; by rewrite Ga).
  destruct (decide (sstate shard (grp w dest) = Some shardOpen)) as [Ho|Hno].
  - assert (kv_shards st !! shard = Some shardOpen) as Ho' by (by rewrite <-Gd).
    rewrite bool_decide_true in Hd, Hs |- * by (by rewrite Ho'; eauto). unfold shard_state in *. rewrite Ho' in *. simpl in *.
    assert (sstate shard (grp (after w dest st' []) dest) = Some shardOpen) as Ho2 by (rewrite Gb; unfold sstate; by rewrite Hs).
    assert (forward_only w (after w dest st' [])) as Hf by (intros [A1 _]; split; [by rewrite Ga|done]).
    split_and!; [|done|split; [done|by left]|by split]. apply advance; [by destruct src_meta|done| |done].
    rewrite Ga. assert (forall m, agrees shard (grp w dest) m -> agrees shard (grp (after w dest st' []) dest) m) as Hag by (intros m H k Hk; rewrite Gb, Hd, <-Gd; by apply H).
    destruct (mi_phase _ Hi) as [_ [H|H]|_ [H|H]| |]; try (rewrite Ho in H; discriminate); [apply ph_both|apply ph_away]; auto.
  - destruct Hc as [|Hc]; [done|].
    assert (vacant shard (grp w dest)) as Hv by (destruct (mi_phase _ Hi); done).
    assert (bool_decide (is_Some (kv_shards st !! shard)) && negb (bool_decide (shard_state (kv_shards st) shard = shardGone)) = false) as Eq.
    { unfold vacant, sstate in Hv. rewrite Gd in Hv. unfold shard_state. by destruct Hv as [-> | ->]. }
    rewrite Eq in *. simpl in *. rewrite <-Gd in Hd, Hs.
    destruct (import_accepted w st' E chunk page K is_last Hi Hfr Hv Hc Hlast Hd Hs) as (Hp & Hp1 & Hp2).
    assert (forward_only w (after w dest st' [])) as Hf by (intros [_ A2]; done).
    split_and!; [|done| |].
    + apply advance; [by destruct src_meta|done| |done]. by rewrite Ga, Gb.
    + split; [done|right]. by rewrite Ga, Gb.
    + destruct is_last; split; try done; [|right; by rewrite Ga, Gb]. rewrite Gb. unfold sstate. by rewrite Hs, lookup_insert_eq.
Qed.

Section Mover.
Context (rid : N).

Local Abbreviation saf := (safe marshal unmarshalResult shard minv gentle forward_only rid).
Local Abbreviation stab := (stable minv gentle).

Lemma admin_safe (P : store -> Prop) g op (Y : status + Result -> store -> Prop) :
  g ∈ gids -> isAdmin (Some op) = true -> stab P -> (forall r, stab (Y r)) -> (forall e, entails minv P (Y (inl e))) ->
  (forall w st st' i, minv w -> P w -> st_groups w !! g = Some st -> kv_data st' = (kv_exec (Some op) i st).1.2 -> kv_shards st' = (kv_exec (Some op) i st).2 ->
    minv (after w g st' []) /\ forward_only w (after w g st' []) /\ P (after w g st' []) /\ Y (inr (kv_exec (Some op) i st).1.1) (after w g st' [])) ->
  saf P (admin g op) Y.
Proof.
  intros Hin Ha HP HY He Hs. unfold admin. change (RqAdmin _) with (admin_req g op). assert (g <> 0%N) as Hz by (by intros ->).
  set (Z := fun (r : status + Response) => match r with inl e => Y (inl e) | inr (RsAdmin x) => Y (inr x) | inr _ => fun _ => False end).
  apply safe_ebind with Z.
  - unfold call. apply safe_rpc with Z; [done| | |].
    + intros w o Hi Hw. destruct (admin_effect w g op o Hz Ha) as [[-> [e ->]]|(st & st' & i & Hg & Hd & Hsh & -> & Hr)].
      * split; [split_and!; [done|by intros ?|done]|by apply He].
      * destruct (Hs w st st' i Hi Hw Hg Hd Hsh) as (H1 & H2 & H3 & H4). split; [done|]. destruct Hr as [[e ->]| ->]; [by apply He|done].
    + intros e. apply He.
    + intros r. apply safe_done; [|by intros w]. destruct r as [e|[]]; try apply HY; by intros w w' _ _ _ ?.
  - intros e. apply safe_done; [apply HY|by intros w].
  - intros [| | | | | |x]; try (by apply safe_absurd; intros w). apply safe_done; [apply HY|by intros w].
Qed.

Lemma freeze_safe : saf any (admin src (Freeze shard)) (fun r => match r with inl _ => any | inr _ => frozen end).
Proof.
  apply admin_safe; [done|done|by intros w|intros [e|x]; [by intros w|apply stable_frozen]|by intros w|].
  intros w st st' i Hi _ Hg Hd Hs. destruct (freeze_step w st st' i Hi Hg Hd Hs) as (H1 & H2 & H3). done.
Qed.

Lemma purge_safe : saf arrived (admin src (Purge shard)) (fun r => match r with inl _ => any | inr _ => away end).
Proof.
  apply admin_safe; [done|done|apply stable_arrived|intros [e|x]; [by intros w|apply stable_away]|by intros w|].
  intros w st st' i Hi Har Hg Hd Hs. destruct (purge_step w st st' i Hi Har Hg Hd Hs) as (H1 & H2 & [A1 A2]). split_and!; [done|done| |done]. split; [by right|done].
Qed.

Lemma flush_safe E chunk page K is_last :
  (is_last = true -> forall k, K k) ->
  saf (copying (pending E chunk page K)) (flush_chunk shard dest chunk is_last)
    (fun r => match r with inl _ => any | inr true => arrived | inr false => if is_last then arrived else copying (pending E [] page K) end).
Proof.
  intros Hlast. unfold flush_chunk.
  apply safe_ebind with (fun r : status + Result => match r with inl _ => any | inr x => if res_Success x then (if is_last then arrived else copying (pending E [] page K)) else arrived end).
  - apply admin_safe; [done|done|apply stable_copying| |by intros w|].
    + intros [e|x]; [by intros w|]. destruct (res_Success x), is_last; apply stable_arrived || apply stable_copying.
    + intros w st st' i Hi Hc Hg Hd Hs. destruct (import_step w st st' i E chunk page K is_last Hi Hc Hlast Hg Hd Hs) as (H1 & H2 & H3 & H4).
      split_and!; [done..|]. destruct (res_Success _); [by destruct is_last|done].
  - intros e. apply safe_done; [by intros w|by intros w].
  - intros x. destruct (res_Success x), is_last; apply safe_done; first [apply stable_arrived|apply stable_copying|by intros w].
Qed.

(** ** Copying *)

Lemma copying_mono (C C' : gmap bytes bytes -> gmap bytes bytes -> Prop) :
  (forall S D, (forall k v, S !! k = Some v -> ShardOf k = shard) -> C S D -> C' S D) -> entails minv (copying C) (copying C').
Proof.
  intros H w _ [Hf Hc]. split; [done|]. destruct Hc as [|Hc]; [by left|right]. apply H; [|done]. intros k v Hk. by apply part_lookup in Hk as [_ ?].
Qed.

(** One pair of a page is taken up. *)
Lemma pending_take E chunk kv page K S D :
  (forall k v, S !! k = Some v -> ShardOf k = shard) -> pending E chunk (kv :: page) K S D ->
  (ShardOf (kv_Key kv) = shard -> pending E (chunk ++ [kv]) page (fun k => K k \/ k = kv_Key kv) S D) /\
  (ShardOf (kv_Key kv) <> shard -> pending E chunk page (fun k => K k \/ k = kv_Key kv) S D).
Proof.
  intros Hsh (HE & HS & HK). split; intros Hk; split_and!; try done.
  - intros x [[H|H%list_elem_of_singleton]%elem_of_app|[H1 H2]]; apply HS; [by left|subst; right; split; [by left|done]|right; split; [by right|done]].
  - intros k v Hs [H| ->]; [destruct (HK k v Hs H); [left; by apply elem_of_app; left|by right]|]. left. apply elem_of_app. right. apply list_elem_of_singleton.
    assert (S !! kv_Key kv = Some (kv_Value kv)) as Hv by (apply HS; right; split; [by left|done]). destruct kv as [k0 v0]. simpl in *. congruence.
  - intros x [H|[H1 H2]]; apply HS; [by left|right; split; [by right|done]].
  - intros k v Hs [H| ->]; [auto|]. by apply Hsh in Hs.
Qed.

Lemma copy_page_safe E page chunk size K :
  saf (copying (pending E chunk page K)) (copy_page shard dest page chunk size)
    (fun r => match r with
              | inl _ => any
              | inr None => arrived
              | inr (Some (chunk, _)) => copying (pending E chunk [] (fun k => K k \/ k ∈ kv_Key <$> page))
              end).
Proof.
  revert chunk size K. induction page as [|kv page IH]; intros chunk size K; cbn [copy_page].
  - apply safe_done; [apply stable_copying|]. apply copying_mono. intros S D _ (HE & HS & HK). split_and!; [done|done|]. intros k v Hs [H|H]; [auto|by apply not_elem_of_nil in H].
  - assert (forall c size', saf (copying (pending E c page (fun k => K k \/ k = kv_Key kv))) (copy_page shard dest page c size')
      (fun r => match r with inl _ => any | inr None => arrived | inr (Some (chunk, _)) => copying (pending E chunk [] (fun k => K k \/ k ∈ kv_Key <$> kv :: page)) end)) as Hrec.
    { intros c size'. eapply safe_post; [|apply IH]. intros [e|[[c' n]|]]; [by intros w|apply copying_mono|by intros w].
      intros S D _ (HE & HS & HK). split_and!; [done|done|]. intros k v Hs Hk. apply HK; [done|]. rewrite fmap_cons, elem_of_cons in Hk. tauto. }
    destruct (N.eqb_spec (ShardOf (kv_Key kv)) shard) as [Hsh|Hsh].
    2: { eapply safe_weaken, Hrec. apply copying_mono. intros S D HsS Hp. by apply (pending_take _ _ _ _ _ _ _ HsS Hp). }
    destruct (_ || _).
    + eapply safe_ebind; [by apply flush_safe|intros e; apply safe_done; by intros w|]. intros [|].
      * apply safe_done; [apply stable_arrived|by intros w].
      * eapply safe_weaken, Hrec. apply copying_mono. intros S D HsS Hp. by apply (pending_take _ [] _ _ _ _ _ HsS Hp).
    + eapply safe_weaken, Hrec. apply copying_mono. intros S D HsS Hp. by apply (pending_take _ _ _ _ _ _ _ HsS Hp).
Qed.

(** Reading a page of the source. *)
Definition page_req (start : bytes) : Request := RqScan (mkScanRequest start [] importChunk LOG None src MaxRequestBytes).

Definition source_page (start : bytes) (w : store) : list KeyValue :=
  kv_scan start [] (N.to_nat importChunk) (N.to_nat MaxRequestBytes) (kv_data (grp w src)).

Lemma page_polite w start : polite w (page_req start).
Proof.
  assert (src <> 0%N) as Hz by (intros E; by rewrite E in Hsrc). destruct src_meta as [Hm _].
  split; [done|by intros op [= <-]|by intros op [= <-]|]. intros E. done.
Qed.

Lemma page_reply w o start :
  minv w -> (exists e, (serves o (page_req start) w).2 = inl e) \/
  (serves o (page_req start) w).2 = inr (RsScan (source_page start (serves o (page_req start) w).1)).
Proof.
  intros Hi. destruct (served_effect marshal unmarshalResult shard o (page_req start) w) as (h & Heff & _ & _).
  destruct (serves o (page_req start) w) as [[gs' rts' hist'] r]. cbn [fst snd st_groups] in *.
  assert (src <> 0%N) as Hz by (intros E; by rewrite E in Hsrc).
  inversion Heff as [e|g st rq v [=]|rq l [= <-] [=]|g st cmd op i r' Hg Hst Hc Hop Hr]; subst; [eauto|]. injection Hc as <-.
  destruct (group_named src _ _ Hz Hg) as [-> _]. destruct Hr as [|(x & Hx & _ & ->)]; [by left|right].
  apply anonymous_result in Hx as ->; [|done]. unfold source_page. rewrite grp_insert, decide_True by done.
  set (cmd := mkCommand 0 0 (Some (OpScan start [] importChunk MaxRequestBytes))). by destruct (step_new marshal cmd i st (anonymous cmd st eq_refl)) as (-> & _ & _).
Qed.

Definition below (start k : bytes) : Prop := bcmp k start = Lt.

Definition page_read (chunk : list KeyValue) (start : bytes) (page : list KeyValue) : store -> Prop :=
  match last page with
  | None => copying (pending (fun _ => True) chunk [] (fun _ => True))
  | Some kv =>
      copying (pending (fun S => forall k v, S !! k = Some v -> below (kv_Key kv ++ [x00]) k -> below start k \/ mkKV k v ∈ page) chunk page (below start))
  end.

Lemma page_is_read w chunk start : copying (pending (fun _ => True) chunk [] (below start)) w -> page_read chunk start (source_page start w) w.
Proof.
  intros [Hf Hc]. destruct (scan_page start (N.to_nat importChunk) (N.to_nat MaxRequestBytes) (kv_data (grp w src))) as (H1 & H2 & H3).
  unfold page_read. fold (source_page start w) in *. destruct (last (source_page start w)) as [kv|] eqn:El.
  - split; [done|]. destruct Hc as [|(_ & HS & HK)]; [by left|right]. split_and!; [| |done].
    + intros k v [Hk _]%part_lookup Hb. by apply (H3 kv).
    + intros x [H|[H Hs]]; [apply HS; by left|]. apply part_lookup. split; [by apply H1|done].
  - apply last_None in El. split; [done|]. destruct Hc as [|(_ & HS & HK)]; [by left|right]. split_and!; [done|done|].
    intros k v Hk _. apply HK; [done|]. apply part_lookup in Hk as [Hk _]. by apply (H2 El k v).
Qed.

Lemma copyShard_safe pages chunk size start :
  saf (copying (pending (fun _ => True) chunk [] (below start))) (copyShard pages shard src dest start chunk size)
    (fun r => match r with inl _ => any | inr _ => arrived end).
Proof.
  revert chunk size start. induction pages as [|pages IH]; intros chunk size start; cbn [copyShard]; [exists any; by split_and!; try intros w|].
  change (RqScan _) with (page_req start).
  eapply safe_ebind; [apply (call_polite gentle forward_only rid) with
    (Y := fun r => match r with inl _ => any | inr (RsScan page) => page_read chunk start page | inr _ => fun _ => False end)| |].
  - done.
  - apply gentle_forward.
  - apply stable_copying.
  - intros; apply page_polite.
  - intros [e|[| | | | |page|]]; try (by intros w w' _ _ _ ?). unfold page_read. destruct (last page); apply stable_copying.
  - intros w o Hi Hw. destruct (page_reply w o start Hi) as [[e ->]| ->]; [done|].
    destruct (polite_serves w (page_req start) o Hi (page_polite w start)) as [Hi' Hg]. apply page_is_read. by apply (stable_copying _ w).
  - done.
  - intros e. exists any. by split_and!; try intros w.
  - intros [| | | | |page|]; try (by apply safe_absurd; intros w _ [_ ?]). unfold page_read.
    destruct (last page) as [kv|].
    + eapply safe_ebind; [eapply safe_weaken; [|apply copy_page_safe]; by intros w _ [_ ?]|intros e; apply safe_done; by intros w|].
      intros [[chunk' size']|]; [|apply safe_done; [apply stable_arrived|by intros w]].
      eapply safe_weaken, IH. apply copying_mono. intros S D _ (HE & HS & HK). split_and!; [done|done|]. intros k v Hs Hb. apply HK; [done|].
      destruct (HE k v Hs Hb) as [|Hin]; [by left|right]. apply list_elem_of_fmap. by exists (mkKV k v).
    + eapply safe_ebind; [eapply safe_weaken; [|by apply (flush_safe (fun _ => True) chunk [] (fun _ => True) true)]; by intros w _ [_ ?]|intros e; apply safe_done; by intros w|].
      intros [|]; (apply safe_done; [apply stable_arrived|by intros w]).
Qed.

(** ** Changing the map *)

Definition swap_req (expected : option bytes) (m : ShardMap) : Request := RqCas (mkCasRequest None mapKey expected (encode_map m) MetaGroup).

Lemma swap_effect w o expected m :
  minv w -> placed w m ->
  let w' := (serves o (swap_req expected m) w).1 in
  minv w' /\ forward_only w w' /\ grp w' src = grp w src /\ grp w' dest = grp w dest /\
  ((exists e, (serves o (swap_req expected m) w).2 = inl e) \/
   exists x, (serves o (swap_req expected m) w).2 = inr (RsCas x) /\ (casr_Success x = true -> stored w' = Some (encode_map m))).
Proof.
  intros Hi Hpl. cbv zeta. destruct src_meta as [Hm1 Hm2]. destruct (served_effect marshal unmarshalResult shard o (swap_req expected m) w) as (h & Heff & Hh & Hr).
  destruct (serves o (swap_req expected m) w) as [[gs' rts' hist'] r]. cbn [fst snd st_groups st_hist st_routers] in *. subst hist' rts'.
  inversion Heff as [e|g st rq v [=]|rq l [=]|g st cmd op i r' Hg Hst Hc Hop Hx]; subst.
  { rewrite store_same. split_and!; [done|by intros ?|done|done|eauto]. }
  injection Hc as <-. injection Hop as <-. destruct (group_named MetaGroup _ _ ltac:(done) Hg) as [-> _]. set (op := OpCas mapKey expected (encode_map m)) in *.
  set (cmd := mkCommand 0 0 (Some op)) in *. pose proof (anonymous cmd st eq_refl) as Hd. rewrite Hd. change (logged _ MetaGroup _ _) with (@nil (Op * Result)).
  change (mkStore _ _ _) with (after w MetaGroup (kv_step marshal cmd i st).1 []). set (st' := (kv_step marshal cmd i st).1). pose proof (grp_of _ _ _ Hst) as Gm.
  assert (grp (after w MetaGroup st' []) src = grp w src /\ grp (after w MetaGroup st' []) dest = grp w dest) as [Ga Gb] by (by rewrite !grp_after, !decide_False).
  assert (grp (after w MetaGroup st' []) MetaGroup = st') as Gm' by (by rewrite grp_after, decide_True).
  assert (forward_only w (after w MetaGroup st' [])) as Hf by (unfold forward_only, away; by rewrite Ga, Gb).
  destruct (step_new marshal cmd i st Hd) as (H1 & H2 & _). fold st' in H1, H2. pose proof (mi_meta _ Hi) as Hsh. rewrite Gm in Hsh.
  assert (writable (kv_shards st) mapKey = true) as Hw by (by rewrite Hsh). cbn [cmd cmd_Op op kv_exec] in H1, H2. rewrite Hw in H1, H2. cbn [fst snd] in H1, H2.
  assert (stored (after w MetaGroup st' []) = if cas_ok expected (kv_data st !! mapKey) then Some (encode_map m) else stored w) as Hst'.
  { unfold stored. rewrite Gm', H1, Gm. destruct (cas_ok _ _); [by rewrite lookup_insert_eq|done]. }
  assert (st_hist (after w MetaGroup st' []) = st_hist w) as Hh' by (simpl; by rewrite app_nil_r).
  split_and!; [|done..|].
  - split.
    + rewrite Hh'. apply Hi.
    + rewrite Ga, Gb. unfold contents. rewrite Hh'. apply Hi.
    + by rewrite Gm', H2.
    + rewrite Hst'. destruct (cas_ok _ _); [eauto using placed_mono|]. destruct (mi_map _ Hi) as (m' & ? & ?). eauto using placed_mono.
    + intros rid' m' Hin. eapply placed_mono; [exact Hf|]. exact (mi_heap _ Hi rid' m' Hin).
  - destruct Hx as [|(x & Hx & _ & ->)]; [by left|right]. apply anonymous_result in Hx as ->; [|done]. eexists. split; [done|].
    cbn [respond cmd cmd_Op op kv_exec casr_Success]. rewrite Hw. cbn [fst read_result res_Success]. rewrite Hst'. by intros ->.
Qed.

(** Assertions about the two groups only. *)
Definition of_groups (P : store -> Prop) : Prop :=
  forall w w', grp w' src = grp w src -> grp w' dest = grp w dest -> P w -> P w'.

Lemma swapMap_safe P expected p m :
  stab P -> of_groups P -> entails minv P (fun w => placed w m) ->
  saf P (swapMap encode_map expected p m) (fun r w => P w /\ match r with inl _ => True | inr _ => stored w = Some (encode_map m) end).
Proof.
  intros HP HPg Hm. unfold swapMap. change (RqCas _) with (swap_req expected m).
  set (Z := fun (r : status + Response) (w : store) => P w /\ match r with inl _ => True | inr (RsCas x) => casr_Success x = true -> stored w = Some (encode_map m) | inr _ => False end).
  assert (forall x : bytes, stab (fun w => P w /\ stored w = Some x)) as Hst.
  { intros x w w' Hi Hi' Hg [H1 H2]. split; [by apply (HP w)|]. by rewrite (ge_map _ _ Hg). }
  assert (forall r, stab (Z r)) as HZ.
  { intros [e|[| | |x| | |]] w w' Hi Hi' Hg [H1 H2]; (split; [by apply (HP w)|]); try done. intros Hs. rewrite (ge_map _ _ Hg). auto. }
  apply safe_ebind with Z.
  - unfold call. apply safe_rpc with Z; [done| |by intros e w|intros r; apply safe_done; [done|by intros w]].
    intros w o Hi Hw. destruct (swap_effect w o expected m Hi (Hm w Hi Hw)) as (H1 & H2 & H3 & H4 & H5).
    assert (P (serves o (swap_req expected m) w).1) as Hw' by (by apply (HPg w)). split; [done|]. split; [done|]. by destruct H5 as [[e ->]|(x & -> & H5)].
  - intros e. apply safe_done; [done|by intros w].
  - intros [| | |x| | |]; try (by apply safe_absurd; intros w _ [_ ?]). destruct (casr_Success x) eqn:Hx.
    + apply safe_weaken with (fun w => P w /\ stored w = Some (encode_map m)); [intros w _ [? Hs]; split; [done|]; by apply Hs|].
      exists (fun w => P w /\ stored w = Some (encode_map m)), (fun w => P w /\ stored w = Some (encode_map m)). split_and!; [done|by intros w| |apply safe_done; [done|by intros w]].
      intros w Hi [Hw Hs]. destruct (heap_minv w rid (mkRouter (r_heap (router_of rid w)) (Some (p, encode_map m))) Hi) as [Hi' Hg]; [intros m' Hin; by eapply mi_heap|].
      split_and!; [done|by apply gentle_forward|by apply (HP w)|done].
    + apply safe_done; [done|]. intros w _ [? _]. done.
Qed.

Lemma assign_safe {A} P p m (k : prog A) Q : stab P -> entails minv P (fun w => placed w m) -> saf P k Q -> saf P (Assign p m k) Q.
Proof.
  intros HP Hm Hk. exists P, P. split_and!; [done|by intros w| |done]. intros w Hi Hw.
  destruct (heap_minv w rid (mkRouter (<[p := m]> (r_heap (router_of rid w))) (r_cache (router_of rid w))) Hi) as [Hi' Hg].
  - intros m' [i Hin]%list_elem_of_lookup_1. apply list_lookup_insert_Some in Hin as [(_ & <- & _)|[_ Hin]]; [by apply Hm|].
    apply (mi_heap _ Hi rid). by eapply list_elem_of_lookup_2.
  - split_and!; [done|by apply gentle_forward|by apply (HP w)].
Qed.

(** The map names the destination, which serves the shard. *)
Definition moved (w : store) : Prop := away w /\ exists m, stored w = Some (encode_map m) /\ sm_Groups m !! N.to_nat shard = Some dest.

Lemma stable_moved : stab moved.
Proof. intros w w' Hi Hi' Hg [H1 H2]. split; [by apply (stable_away w)|]. by rewrite (ge_map _ _ Hg). Qed.

(** A map of the whole key space that names the source. *)
Definition home_map (m : ShardMap) : Prop :=
  length (sm_Groups m) = N.to_nat Shards /\ length (sm_Moving m) = N.to_nat Shards /\
  (sm_Moving m !! N.to_nat shard = Some 0%N \/ sm_Moving m !! N.to_nat shard = Some dest) /\ sm_Groups m !! N.to_nat shard = Some src.

#[local] Instance home_map_dec m : Decision (home_map m).
Proof. unfold home_map. apply _. Defined.

Lemma mark_safe p m mv raw :
  home_map m -> saf any (mark_move encode_map shard dest p m mv raw) (fun r _ => match r with inl _ => True | inr (m, _) => home_map m end).
Proof.
  intros Hm. unfold mark_move. destruct (mv =? 0)%N; [|apply safe_done; by intros w].
  assert (home_map (mkMap (sm_Groups m) (<[N.to_nat shard:=dest]> (sm_Moving m)))) as Hm'.
  { destruct Hm as (H1 & H2 & H3 & H4). split_and!; simpl; rewrite ?length_insert; try done. right. apply list_lookup_insert_eq. destruct H3 as [H3|H3]; by eapply lookup_lt_Some. }
  assert (entails minv any (fun w => placed w (mkMap (sm_Groups m) (<[N.to_nat shard:=dest]> (sm_Moving m))))) as Hp by (destruct Hm' as (? & ? & ? & ?); intros w _ _; split_and!; auto).
  apply assign_safe; [by intros w|done|]. eapply safe_ebind; [apply swapMap_safe; [by intros w|by intros w|done]|intros e; exists any; split_and!; by try intros w|].
  intros marked. exists any. split_and!; by try intros w.
Qed.

Lemma transfer_safe pages p m marked :
  home_map m -> (shard < Shards)%N ->
  let m' := mkMap (<[N.to_nat shard := dest]> (sm_Groups m)) (<[N.to_nat shard := 0%N]> (sm_Moving m)) in
  saf any (ebind (admin src (Freeze shard)) (fun _ => ebind (copyShard pages shard src dest [] [] 0) (fun _ => ebind (admin src (Purge shard)) (fun _ =>
    Assign p m' (ebind (swapMap encode_map marked p m') (fun _ => Done (inr tt))))))) (fun r => match r with inl _ => any | inr _ => moved end).
Proof.
  intros (Hl1 & Hl2 & _ & _) Hsh m'. assert (sm_Groups m' !! N.to_nat shard = Some dest) as Hd by (simpl; apply list_lookup_insert_eq; lia).
  assert (forall A (P : store -> Prop) (e : status), saf P (Done (inl e)) (fun r : status + A => match r with inl _ => any | inr _ => moved end)) as Herr
    by (intros A P e; exists any; split_and!; by try intros w).
  eapply safe_ebind; [apply freeze_safe|intros e; apply Herr|]. intros ?.
  eapply safe_ebind; [eapply safe_weaken, copyShard_safe|intros e; apply Herr|].
  { intros w _ Hf. split; [done|right]. split_and!; [done| |]; [intros kv [H|[H _]]; by apply not_elem_of_nil in H|]. intros k v _ Hb. unfold below in Hb. by destruct k. }
  intros ?. eapply safe_ebind; [apply purge_safe|intros e; apply Herr|]. intros ?.
  assert (entails minv away (fun w => placed w m')) as Hp.
  { intros w _ Haw. split_and!; simpl; rewrite ?length_insert; auto. left. apply list_lookup_insert_eq. lia. }
  apply assign_safe; [apply stable_away|done|]. eapply safe_ebind; [apply swapMap_safe; [apply stable_away| |done]|intros e; apply Herr|].
  { intros w w' E1 E2. unfold away. by rewrite E1, E2. }
  intros x. apply safe_done; [|intros w _ [H1 H2]; split; eauto]. intros w w' Hi Hi' Hg [H1 H2]. split; [by apply (stable_away w)|by rewrite (ge_map _ _ Hg)].
Qed.

Lemma MoveShard_safe tries pages :
  saf any (MoveShard encode_map decode_map gids tries pages shard dest) (fun r => match r with inl _ => any | inr _ => moved end).
Proof.
  assert (forall A (P : store -> Prop) (e : status), saf P (Done (inl e)) (fun r : status + A => match r with inl _ => any | inr _ => moved end)) as Herr
    by (intros A P e; exists any; split_and!; by try intros w).
  unfold MoveShard. destruct (Shards <=? shard)%N eqn:Hsh; [apply Herr|]. rewrite bool_decide_true by done.
  eapply safe_ebind; [apply (reload_safe gentle forward_only rid) with (P := any) (X := fun m w => stored w = Some (encode_map m))|intros e; apply Herr|].
  { done. } { apply gentle_forward. } { apply gentle_forward. } { by intros w. }
  { intros m w w' _ _ Hg. by rewrite (ge_map _ _ Hg). } { done. }
  intros [p m]. apply safe_weaken with (fun w => stored w = Some (encode_map m) /\ placed w m); [by intros w _ (_ & ? & ?)|].
  assert (stab (fun w => stored w = Some (encode_map m) /\ placed w m)) as Hst0.
  { intros w w' _ _ Hg [H1 H2]. split; [by rewrite (ge_map _ _ Hg)|]. by eapply placed_mono, H2; apply gentle_forward. }
  destruct (sm_Groups m !! N.to_nat shard) as [src0|] eqn:Eg; [|apply safe_absurd; intros w _ (_ & _ & _ & _ & [H|[H _]]); congruence].
  destruct (sm_Moving m !! N.to_nat shard) as [mv|] eqn:Em.
  2: { apply safe_absurd. intros w _ (_ & _ & Hl & _). apply lookup_ge_None in Em. apply N.leb_gt in Hsh. lia. }
  destruct (N.eqb_spec src0 dest) as [->|Hsd].
  { eapply safe_weaken with moved; [|apply safe_done; [apply stable_moved|by intros w]]. intros w _ (H1 & _ & _ & _ & [H|[_ H]]); [congruence|]. split; eauto. }
  destruct (decide (src0 = src)) as [->|]; [|apply safe_absurd; intros w _ (_ & _ & _ & _ & [H|[H _]]); congruence].
  destruct (negb _ && negb _); [apply Herr|].
  destruct (decide (home_map m)) as [Hm|Hm]; [|apply safe_absurd; intros w _ (_ & H1 & H2 & H3 & [H|[H _]]); [by destruct Hm|congruence]].
  apply safe_weaken with any; [by intros w|]. exists any, (fun _ => any). split_and!; [by intros w|by intros w|by intros w|]. intros c.
  eapply safe_ebind; [by apply mark_safe|intros e; apply Herr|]. intros [m1 marked].
  destruct (decide (home_map m1)) as [Hm1|Hm1]; [|by apply safe_absurd; intros w]. rewrite bool_decide_true by done.
  eapply safe_weaken, transfer_safe; [by intros w|done|]. by apply N.leb_gt.
Qed.
End Mover.
End Safety.
