(* ===== verification/MoveTheorems.v ===== *)
(** * Moving a shard loses nothing

    A cluster of groups and routers in which one shard is moved while clients
    work, however calls fail, answers are lost and movers stop half-way. *)

From stdpp Require Import base list gmap countable.
From S2P Require Import Prelude Codec Key Batch Db LogStore KeyHash StateMachine KvSpec Server Client ClientTheorems Router RouterRuns MoveInv MoveSafety.

(** * A small sharded cluster

    Encodings of results and shard maps for which the round trips hold, and a
    cluster of three groups with one key, to run the operations on. *)

(** ** Encodings *)

(** A byte for each binary digit. *)
Fixpoint bits (p : positive) : bytes :=
  match p with
  | xH => []
  | xO p => x00 :: bits p
  | xI p => x01 :: bits p
  end.

Fixpoint unbits (b : bytes) : positive :=
  match b with
  | [] => xH
  | x00 :: b => xO (unbits b)
  | _ :: b => xI (unbits b)
  end.

Lemma unbits_bits p : unbits (bits p) = p.
Proof. induction p as [p IH|p IH|]; simpl; by rewrite ?IH. Qed.

Definition result_parts (r : Result) : bool * bytes * bool * N * list (bytes * bytes) * bool :=
  (res_Found r, res_Value r, res_Success r, res_ClientId r, (fun kv => (kv_Key kv, kv_Value kv)) <$> res_Kvs r, res_Moving r).

Definition parts_result (x : bool * bytes * bool * N * list (bytes * bytes) * bool) : Result :=
  let '(found, value, ok, id, kvs, mv) := x in mkResult found value ok id (kv_of <$> kvs) mv.

Definition enc_result (r : Result) : bytes := bits (countable.encode (result_parts r)).
Definition dec_result (b : bytes) : option Result := parts_result <$> countable.decode (unbits b).

Lemma dec_enc_result r : dec_result (enc_result r) = Some r.
Proof.
  unfold dec_result, enc_result. rewrite unbits_bits, decode_encode. simpl. f_equal. destruct r as [found value ok id kvs mv]. unfold parts_result, result_parts. simpl. f_equal.
  rewrite <-list_fmap_compose. rewrite <-(list_fmap_id kvs) at 2. apply list_fmap_ext. by intros i [k v] _.
Qed.

Definition enc_map (m : ShardMap) : bytes := bits (countable.encode (sm_Groups m, sm_Moving m)).
Definition dec_map (b : bytes) : option ShardMap := (fun x => mkMap x.1 x.2) <$> countable.decode (unbits b).

Lemma dec_enc_map m : dec_map (enc_map m) = Some m.
Proof. unfold dec_map, enc_map. rewrite unbits_bits, decode_encode. by destruct m. Qed.

(** ** The cluster *)

Definition ex_gids : list N := [2; 3]%N.
Definition ex_key : bytes := [x61].
Definition ex_shard : N := ShardOf ex_key.
Definition ex_src : N := nth (N.to_nat ex_shard) (sm_Groups (DefaultMap ex_gids)) 0%N.
Definition ex_dest : N := (5 - ex_src)%N.

Definition ex_contents : gmap bytes bytes := {[ex_key := [x31]]}.

(** The map is stored and the source has one key. *)
Definition ex_store : store :=
  mkStore (<[MetaGroup := mkKvs {[mapKey := enc_map (DefaultMap ex_gids)]} ∅ ∅ 0]> (<[ex_src := mkKvs ex_contents ∅ ∅ 0]> (<[ex_dest := kvs0]> ∅))) ∅ [].

Lemma ex_ids : 0%N ∉ ex_gids /\ MetaGroup ∉ ex_gids /\ ex_src ∈ ex_gids /\ ex_dest ∈ ex_gids /\ ex_src <> ex_dest.
Proof. vm_compute. set_solver. Qed.

Lemma fst_known {A B} (x : A * B) a : x.1 = a -> x = (a, x.2).
Proof. destruct x. by intros <-. Qed.

(** A client writes, and then the shard moves. *)
Definition ex_put : client_op := CPut (mkPutRequest None ex_key [x32] 0).
Definition ex_move (pages : nat) : prog (status + unit) := MoveShard enc_map dec_map ex_gids 2 pages ex_shard ex_dest.

Definition ex_exec {A} (p : prog A) (w : store) : option A * store := exec enc_result dec_result ex_shard 1 p w.

Definition ex_written : store := (ex_exec (client_prog enc_map dec_map ex_gids 2 ex_put) ex_store).2.
Definition ex_moved : store := (ex_exec (ex_move 5) ex_written).2.

Lemma ex_writes : ex_exec (client_prog enc_map dec_map ex_gids 2 ex_put) ex_store = (Some tt, ex_written).
Proof. unfold ex_written. apply (fst_known (ex_exec _ _) (Some tt)). vm_compute. reflexivity. Qed.

Lemma ex_moves : ex_exec (ex_move 5) ex_written = (Some (inr tt), ex_moved).
Proof. unfold ex_moved. apply (fst_known (ex_exec _ _) (Some (inr tt))). vm_compute. reflexivity. Qed.

Local Abbreviation ex_step := (cstep enc_result dec_result ex_shard enc_map dec_map ex_gids ex_dest).

Lemma ex_write_run : rtc ex_step (mkCluster ex_store [] None) (mkCluster ex_written [(1%N, Done tt)] None).
Proof. eapply (client_run _ _ _ _ _ _ _ (mkCluster ex_store [] None) 1 2 ex_put); [done|exact ex_writes]. Qed.

Lemma ex_move_run : rtc ex_step (mkCluster ex_store [] None) (mkCluster ex_moved [(1%N, Done tt)] (Some (1%N, Done (inr tt)))).
Proof.
  etrans; [exact ex_write_run|]. etrans; [apply (mover_start _ _ _ _ _ _ _ (mkCluster ex_written [(1%N, Done tt)] None) 1 2 5)|].
  apply (mover_run _ _ _ _ _ _ _ (mkCluster ex_written [(1%N, Done tt)] None) 1). exact ex_moves.
Qed.

Lemma ex_groups :
  grp ex_store MetaGroup = mkKvs {[mapKey := enc_map (DefaultMap ex_gids)]} ∅ ∅ 0 /\ grp ex_store ex_src = mkKvs ex_contents ∅ ∅ 0 /\ grp ex_store ex_dest = kvs0.
Proof. split; [|split]; vm_compute; reflexivity. Qed.

(** A mover that stops once the source is frozen. *)
Definition ex_stopped : store := (ex_exec (ex_move 0) ex_written).2.

Lemma ex_stops : ex_exec (ex_move 0) ex_written = (Some (inl (ContextEnded true)), ex_stopped).
Proof. unfold ex_stopped. apply (fst_known (ex_exec _ _) (Some (inl (ContextEnded true)))). vm_compute. reflexivity. Qed.

Lemma ex_stop_run : rtc ex_step (mkCluster ex_store [] None) (mkCluster ex_stopped [(1%N, Done tt)] (Some (1%N, Done (inl (ContextEnded true))))).
Proof.
  etrans; [exact ex_write_run|]. etrans; [apply (mover_start _ _ _ _ _ _ _ (mkCluster ex_written [(1%N, Done tt)] None) 1 2 0)|].
  apply (mover_run _ _ _ _ _ _ _ (mkCluster ex_written [(1%N, Done tt)] None) 1). exact ex_stops.
Qed.

(** The stored map has the move marked. *)
Lemma ex_stopped_map : exists m, stored ex_stopped = Some (enc_map m) /\ m = mkMap (sm_Groups (DefaultMap ex_gids)) (<[N.to_nat ex_shard := ex_dest]> (sm_Moving (DefaultMap ex_gids))).
Proof. eexists. split; [|reflexivity]. vm_compute. reflexivity. Qed.

Lemma ex_stopped_src : sstate ex_shard (grp ex_stopped ex_src) = Some shardFrozen /\ kv_data (grp ex_stopped ex_src) = {[ex_key := [x32]]}.
Proof. split; vm_compute; reflexivity. Qed.

(** ** Reachable states *)

Section System.
Context (marshal : Result -> bytes) (unmarshalResult : bytes -> option Result) (Hres : forall r, unmarshalResult (marshal r) = Some r).
Context (encode_map : ShardMap -> bytes) (decode_map : bytes -> option ShardMap) (Hmap : forall m, decode_map (encode_map m) = Some m).
Context (gids : list N) (Hzero : 0%N ∉ gids) (Hmeta : MetaGroup ∉ gids).
Context (shard src dest : N) (Hsrc : src ∈ gids) (Hdest : dest ∈ gids) (Hne : src <> dest).
Context (m0 : gmap bytes bytes).

Local Abbreviation inv := (minv encode_map shard src dest m0).
Local Abbreviation okc rid p := (okp marshal unmarshalResult shard inv (forward_only shard src dest) (gentle shard src dest) rid p (fun _ => any)).
Local Abbreviation okm rid p :=
  (okp marshal unmarshalResult shard inv (gentle shard src dest) (forward_only shard src dest) rid p
    (fun r => match r with inl _ => any | inr _ => moved encode_map shard src dest end)).

(** Before the move: the source serves the shard, the destination has nothing
    of it, and the stored map says so. *)
Record at_home (w : store) : Prop := {
  ah_hist : st_hist w = [];
  ah_routers : st_routers w = ∅;
  ah_src : opened shard (grp w src) /\ agrees shard (grp w src) m0;
  ah_dest : vacant shard (grp w dest) /\ lacks shard (grp w dest);
  ah_meta : kv_shards (grp w MetaGroup) = ∅;
  ah_map : exists m, stored w = Some (encode_map m) /\ home_map shard src dest m;
}.

Lemma at_home_inv w : at_home w -> inv w.
Proof.
  intros [H1 H2 [H3 H4] [H5 H6] H7 (m & H8 & H9 & H10 & H11 & H12)]. split.
  - by rewrite H1.
  - unfold contents. rewrite H1. by apply ph_home.
  - done.
  - exists m. split; [done|]. split_and!; auto.
  - intros rid m' Hin. unfold router_of in Hin. rewrite H2, lookup_empty in Hin. simpl in Hin. by apply not_elem_of_nil in Hin.
Qed.

Record sinv (y : cluster) : Prop := {
  si_inv : inv (y_store y);
  si_clients : forall i rid p, y_clients y !! i = Some (rid, p) -> okc rid p (y_store y);
  si_mover : forall rid p, y_mover y = Some (rid, p) -> okm rid p (y_store y);
}.

Lemma forward_refl w : forward_only shard src dest w w.
Proof. by intros ?. Qed.

Lemma step_sinv y y' : sinv y -> cstep marshal unmarshalResult shard encode_map decode_map gids dest y y' -> sinv y'.
Proof.
  intros [Hi Hc Hm] Hs. destruct Hs as [y rid tries op Hr|y i rid p p' w Hp Hs|y rid tries pages Hn|y rid p p' w Hp Hs|y].
  - split; simpl; [done| |done]. intros i rid' p [H|(_ & H)]%lookup_app_Some; [by eapply Hc|]. apply list_lookup_singleton_Some in H as [_ [= <- <-]].
    eapply (safe_okp _ _ _ _ _ _ _ any); [done|done|]. eapply client_safe; try done. intros; by apply (gentle_forward shard src dest).
  - destruct (okp_step _ _ _ _ _ _ _ _ _ _ _ _ (gentle_refl shard src dest) Hi (Hc _ _ _ Hp) Hs) as (Hi' & Hg & Hok). split; simpl; [done| |].
    + intros j rid' q [(<- & [= <- <-] & _)|[_ Hq]]%list_lookup_insert_Some; [done|].
      eapply okp_rely; [exact Hi|done| |by eapply Hc]. by apply (gentle_forward shard src dest).
    + intros rid' q Hq. eapply okp_rely; [exact Hi|done|exact Hg|by eapply Hm].
  - split; simpl; [done|done|]. intros rid' q [= <- <-]. eapply (safe_okp _ _ _ _ _ _ _ any); [done|done|]. by eapply MoveShard_safe.
  - destruct (okp_step _ _ _ _ _ _ _ _ _ _ _ _ forward_refl Hi (Hm _ _ Hp) Hs) as (Hi' & Hg & Hok). split; simpl; [done| |].
    + intros i rid' q Hq. eapply okp_rely; [exact Hi|done|exact Hg|by eapply Hc].
    + by intros rid' q [= <- <-].
  - by split.
Qed.

Lemma reachable_sinv w y :
  at_home w -> rtc (cstep marshal unmarshalResult shard encode_map decode_map gids dest) (mkCluster w [] None) y -> sinv y.
Proof.
  intros Hw Hr. assert (sinv (mkCluster w [] None)) as Hy by (split; [by apply at_home_inv|done|done]).
  induction Hr as [|y1 y2 y3 Hs _ IH]; [done|]. eauto using step_sinv.
Qed.
End System.

(** ** The claim *)

(** One of the two groups has the shard's contents; the other is empty, has a
    part of them or the same, or is closed. *)
Record shard_kept (shard src dest : N) (m : gmap bytes bytes) (w : store) : Prop := {
  sk_src : sstate shard (grp w src) <> Some shardGone -> agrees shard (grp w src) m;
  sk_dest : sstate shard (grp w src) = Some shardGone -> opened shard (grp w dest) /\ agrees shard (grp w dest) m;
  sk_map : forall x, sm_Groups x !! N.to_nat shard = Some dest -> (exists rid, x ∈ r_heap (router_of rid w)) -> sstate shard (grp w src) = Some shardGone;
}.

(** C11: While a shard moves from one group to another, with any number of
    clients reading and writing through any routers, with calls that fail and
    calls that are applied though their answer is lost, and with movers that
    stop half-way and are run again: every operation executed on a key of the
    shard, wherever it was executed, has the result that one map of the shard
    gives when the operations are taken in the order in which they happened,
    and that map is what the group that serves the shard holds.  No operation
    panics, and when a mover reports success the stored map names the
    destination, which holds and serves the shard, while the source refuses it. *)
Theorem moves_keep_the_shard marshal unmarshalResult encode_map decode_map gids shard src dest m0 w y :
  (forall r, unmarshalResult (marshal r) = Some r) -> (forall m, decode_map (encode_map m) = Some m) ->
  0%N ∉ gids -> MetaGroup ∉ gids -> src ∈ gids -> dest ∈ gids -> src <> dest ->
  at_home encode_map shard src dest m0 w ->
  rtc (cstep marshal unmarshalResult shard encode_map decode_map gids dest) (mkCluster w [] None) y ->
  legal m0 (st_hist (y_store y)) /\ shard_kept shard src dest (replay m0 (st_hist (y_store y))) (y_store y) /\
  (forall rid p, (rid, p) ∈ y_clients y -> p <> Crash) /\
  (forall rid p, y_mover y = Some (rid, p) -> p <> Crash /\
    (p = Done (inr tt) ->
      sstate shard (grp (y_store y) src) = Some shardGone /\
      exists m, stored (y_store y) = Some (encode_map m) /\ sm_Groups m !! N.to_nat shard = Some dest)).
Proof.
  intros Hres Hmap Hz Hm Hs Hd Hne Hw Hr.
  destruct (reachable_sinv marshal unmarshalResult Hres encode_map decode_map Hmap gids Hz Hm shard src dest Hs Hd Hne m0 w y Hw Hr) as [Hi Hc Hmv].
  split_and!.
  - apply Hi.
  - split.
    + intros Hg. by destruct (mi_phase _ _ _ _ _ _ Hi).
    + intros Hg. pose proof (gone_open _ _ _ _ _ _ Hi Hg) as Ho. split; [by right|]. eapply away_agrees; [exact Hi|done].
    + intros x Hx [rid Hin]. destruct (mi_heap _ _ _ _ _ _ Hi rid x Hin) as (_ & _ & _ & [H|[_ [H _]]]); [congruence|done].
  - intros rid p [i Hin]%list_elem_of_lookup_1 ->. by apply (okp_crash _ _ _ _ _ _ _ _ _ Hi (Hc _ _ _ Hin)).
  - intros rid p Hp. split; [intros ->; by apply (okp_crash _ _ _ _ _ _ _ _ _ Hi (Hmv _ _ Hp))|]. intros ->.
    destruct (okp_done _ _ _ _ _ _ _ _ _ _ Hi (Hmv _ _ Hp)) as [[H1 H2] H3]. done.
Qed.

Lemma ex_at_home : at_home enc_map ex_shard ex_src ex_dest ex_contents ex_store.
Proof.
  destruct ex_groups as (Hm & Hs & Hd). split; [done|done|rewrite Hs|rewrite Hd|by rewrite Hm|].
  - split; [by left|by intros k _].
  - split; [by left|by intros k _].
  - exists (DefaultMap ex_gids). split; [unfold stored; rewrite Hm; apply lookup_singleton_eq|]. split_and!; [done|done|by left|done].
Qed.

Lemma moves_keep_the_shard_witness :
  st_hist ex_moved = [(OpPut ex_key [x32], success)] /\ legal ex_contents (st_hist ex_moved) /\
  shard_kept ex_shard ex_src ex_dest (replay ex_contents (st_hist ex_moved)) ex_moved /\
  exists m, stored ex_moved = Some (enc_map m) /\ sm_Groups m !! N.to_nat ex_shard = Some ex_dest.
Proof.
  destruct (moves_keep_the_shard enc_result dec_result enc_map dec_map ex_gids ex_shard ex_src ex_dest ex_contents ex_store
    (mkCluster ex_moved [(1%N, Done tt)] (Some (1%N, Done (inr tt))))) as (H1 & H2 & _ & H4).
  - exact dec_enc_result.
  - exact dec_enc_map.
  - apply ex_ids.
  - apply ex_ids.
  - apply ex_ids.
  - apply ex_ids.
  - apply ex_ids.
  - exact ex_at_home.
  - exact ex_move_run.
  - split; [vm_compute; reflexivity|]. split; [exact H1|]. split; [exact H2|]. destruct (H4 1%N (Done (inr tt)) eq_refl) as [_ H5]. destruct (H5 eq_refl) as [_ H6]. exact H6.
Defined.
