(* ===== verification/MoveFinish.v ===== *)
(** * An interrupted move can be finished

    The mover alone, when its calls are answered: from every state in which the
    moves so far may have left the cluster, it runs to success. *)

From stdpp Require Import base list gmap.
From S2P Require Import Prelude Codec Key Batch LogStore KeyHash Db StateMachine KvSpec Server Client ClientTheorems Router RouterRuns MoveInv MoveSafety MoveTheorems.

Section Finish.
Context (marshal : Result -> bytes) (unmarshalResult : bytes -> option Result) (Hres : forall r, unmarshalResult (marshal r) = Some r).
Context (shard rid : N).

Local Abbreviation serves := (served marshal unmarshalResult shard (Committed 1)).
Local Abbreviation exec := (exec marshal unmarshalResult shard rid).

Lemma exec_bind {A B} (p : prog A) (f : A -> prog B) w a w' : exec p w = (Some a, w') -> exec (pbind p f) w = exec (f a) w'.
Proof.
  revert w. induction p as [b| |g req k IH|k IH|m k IH|q m k IH|q raw k IH|k IH]; intros w Hx; cbn [exec pbind] in *; [by simplify_eq|done|by eapply IH..].
Qed.

Lemma exec_ebind {A B} (p : prog (status + A)) (f : A -> prog (status + B)) w a w' :
  exec p w = (Some (inr a), w') -> exec (ebind p f) w = exec (f a) w'.
Proof. intros H. unfold ebind. by rewrite (exec_bind _ _ _ _ _ H). Qed.

(** ** Calls *)

(** A command without a session, on a group that is there. *)
Lemma served_anon w g st cmd req :
  g <> 0%N -> req_group req = g -> st_groups w !! g = Some st -> admitted req = true -> req_command req = Some cmd -> cmd_ClientId cmd = 0%N ->
  res_Moving (kv_exec (cmd_Op cmd) 1 st).1.1 = false ->
  exists h, serves req w = (after w g (kv_step marshal cmd 1 st).1 h, inr (respond req (kv_exec (cmd_Op cmd) 1 st).1.1)).
Proof.
  intros Hz Hg Hst Ha Hc Hid Hm. unfold served.
  assert (group (req_group req) (st_groups w) = inr g) as Hgr.
  { unfold group. rewrite Hg. destruct (N.eqb_spec g 0); [done|]. by rewrite bool_decide_true by (rewrite Hst; eauto). }
  destruct (serve_cases marshal unmarshalResult (Committed 1) req (st_groups w)) as [(e & _ & [[e' E]|E])|(g' & Hg' & _ & Hs)]; [congruence..|].
  rewrite Hc in Hs. rewrite Hs. assert (g' = g) as -> by congruence. cbn [propose]. unfold apply_to. rewrite Hst.
  destruct (step_new marshal cmd 1 st (anonymous cmd st Hid)) as (_ & _ & H3). destruct (kv_step marshal cmd 1 st) as [st' data]. simpl in H3. subst data.
  cbn [fst snd]. rewrite Hres, Hm. by eexists.
Qed.

(** What stays when other groups work. *)
Record keeps (g : N) (w w' : store) : Prop := {
  kp_there : forall g', is_Some (st_groups w !! g') -> is_Some (st_groups w' !! g');
  kp_data : kv_data (grp w' g) = kv_data (grp w g);
  kp_shards : kv_shards (grp w' g) = kv_shards (grp w g);
}.

Lemma keeps_trans g w1 w2 w3 : keeps g w1 w2 -> keeps g w2 w3 -> keeps g w1 w3.
Proof. intros [H1 H2 H3] [K1 K2 K3]. split; [eauto|congruence..]. Qed.

Lemma keeps_refl g w : keeps g w w.
Proof. by split. Qed.

Lemma after_keeps w g st' h g' : (g = g' -> kv_data st' = kv_data (grp w g) /\ kv_shards st' = kv_shards (grp w g)) -> keeps g' w (after w g st' h).
Proof.
  intros H. split; simpl; [|rewrite grp_after; case_decide as E; [subst; by apply H|done]..].
  intros x [st Hx]. destruct (decide (g = x)) as [->|]; [rewrite lookup_insert_eq; eauto|rewrite lookup_insert_ne by done; eauto].
Qed.

Lemma exec_admin w g op :
  g <> 0%N -> isAdmin (Some op) = true -> is_Some (st_groups w !! g) ->
  exists st st' h, st_groups w !! g = Some st /\ kv_data st' = (kv_exec (Some op) 1 st).1.2 /\ kv_shards st' = (kv_exec (Some op) 1 st).2 /\
    exec (admin g op) w = (Some (inr (kv_exec (Some op) 1 st).1.1), after w g st' h).
Proof.
  intros Hz Ha [st Hst]. set (cmd := mkCommand 0 0 (Some op)).
  destruct (served_anon w g st cmd (RqAdmin (mkAdminRequest g cmd)) Hz eq_refl Hst Ha eq_refl eq_refl) as [h Hs].
  { destruct op; try done; simpl; repeat case_match; done. }
  destruct (step_new marshal cmd 1 st (anonymous cmd st eq_refl)) as (H1 & H2 & _).
  exists st, (kv_step marshal cmd 1 st).1, h. split_and!; [done..|]. unfold admin, call. cbn [ebind pbind exec]. fold cmd. by rewrite Hs.
Qed.

(** ** Copying *)

Context (src dest : N) (Hsrc : src <> 0%N) (Hdest : dest <> 0%N) (Hne : src <> dest) (Hms : src <> MetaGroup) (Hmd : dest <> MetaGroup).

Definition both (w : store) : Prop := is_Some (st_groups w !! src) /\ is_Some (st_groups w !! dest).

Lemma keeps_both g w w' : keeps g w w' -> both w -> both w'.
Proof. intros [H _ _] [H1 H2]. split; auto. Qed.

Lemma exec_flush w chunk is_last :
  is_Some (st_groups w !! dest) ->
  exists held w', exec (flush_chunk shard dest chunk is_last) w = (Some (inr held), w') /\ keeps src w w' /\ keeps MetaGroup w w'.
Proof.
  intros Hd. destruct (exec_admin w dest (Import shard chunk is_last) Hdest eq_refl Hd) as (st & st' & h & _ & _ & _ & Hx).
  eexists _, _. split; [unfold flush_chunk; erewrite exec_ebind by exact Hx; reflexivity|]. by split; apply after_keeps.
Qed.

Lemma exec_page page w chunk size :
  is_Some (st_groups w !! dest) ->
  exists x w', exec (copy_page shard dest page chunk size) w = (Some (inr x), w') /\ keeps src w w' /\ keeps MetaGroup w w'.
Proof.
  revert w chunk size. induction page as [|kv page IH]; intros w chunk size Hd; cbn [copy_page].
  - eexists _, w. split; [reflexivity|]. split; apply keeps_refl.
  - destruct (_ =? _)%N; [|by apply IH]. destruct (_ || _); [|by apply IH].
    destruct (exec_flush w chunk false Hd) as (held & w1 & Hx & K1 & K2). erewrite exec_ebind by exact Hx. destruct held; [by eexists _, w1|].
    destruct (IH w1 [kv] (N.of_nat (length (kv_Key kv) + length (kv_Value kv))) (kp_there _ _ _ K1 _ Hd)) as (x & w2 & Hx2 & K3 & K4).
    eexists _, w2. split; [exact Hx2|]. split; eapply keeps_trans; eauto.
Qed.

(** The keys still to be read. *)
Definition remaining (start : bytes) (m : gmap bytes bytes) : nat := size (filter (fun kv => bcmp kv.1 start <> Lt) m).

Lemma remaining_next start m kv :
  m !! kv_Key kv = Some (kv_Value kv) -> bcmp (kv_Key kv) start <> Lt -> remaining (kv_Key kv ++ [x00]) m < remaining start m.
Proof.
  intros Hk Hs. unfold remaining. apply map_subset_size. split.
  - apply map_subseteq_spec. intros k v. rewrite !map_lookup_filter_Some. simpl. intros [H1 H2]. split; [done|]. intros Hlt. apply H2, bcmp_next.
    intros Hgt. assert (bcmp (kv_Key kv) k = Lt) as H by (by rewrite bcmp_antisym, Hgt). by rewrite (bcmp_lt_trans _ _ _ H Hlt) in Hs.
  - intros Hsub. assert (filter (fun kv0 => bcmp kv0.1 start <> Lt) m !! kv_Key kv = Some (kv_Value kv)) as H by (by apply map_lookup_filter_Some).
    apply (lookup_weaken _ _ _ _ H) in Hsub. apply map_lookup_filter_Some in Hsub as [_ Hsub]. apply Hsub. simpl. apply bcmp_next. by rewrite bcmp_refl.
Qed.

(** The source's keys can be asked for. *)
Definition short_keys (m : gmap bytes bytes) : Prop := forall k v, m !! k = Some v -> (N.of_nat (length k) < MaxRequestBytes)%N.

Lemma exec_scan w start :
  is_Some (st_groups w !! src) -> (N.of_nat (length start) <= MaxRequestBytes)%N ->
  exists w', exec (call src (page_req src start)) w = (Some (inr (RsScan (source_page src start w))), w') /\ keeps src w w' /\ keeps MetaGroup w w'.
Proof.
  intros [st Hst] Hlen. set (cmd := mkCommand 0 0 (Some (OpScan start [] importChunk MaxRequestBytes))).
  destruct (served_anon w src st cmd (page_req src start) Hsrc eq_refl Hst) as [h Hs]; [|done|done|done|].
  { cbn [page_req admitted scan_Start scan_End]. apply bool_decide_eq_true. unfold checkSize.
    replace (sum_list _) with (length start) by (simpl; lia). by destruct (N.ltb_spec MaxRequestBytes (N.of_nat (length start))); [lia|]. }
  destruct (step_new marshal cmd 1 st (anonymous cmd st eq_refl)) as (H1 & H2 & _). pose proof (grp_of _ _ _ Hst) as Gs.
  eexists. split; [unfold call; cbn [exec]; rewrite Hs; unfold source_page; rewrite Gs; reflexivity|].
  split; apply after_keeps; [|by intros E]. intros _. by rewrite Gs, H1, H2.
Qed.

Lemma exec_copy pages w chunk size start :
  both w -> short_keys (kv_data (grp w src)) -> (N.of_nat (length start) <= MaxRequestBytes)%N -> remaining start (kv_data (grp w src)) < pages ->
  exists w', exec (copyShard pages shard src dest start chunk size) w = (Some (inr tt), w') /\ keeps src w w' /\ keeps MetaGroup w w'.
Proof.
  revert w chunk size start. induction pages as [|pages IH]; intros w chunk size start Hb Hk Hl Hr; [lia|]. cbn [copyShard].
  destruct (exec_scan w start (proj1 Hb) Hl) as (w1 & Hx1 & K1 & M1). erewrite exec_ebind by exact Hx1. cbv beta iota. pose proof (keeps_both _ _ _ K1 Hb) as Hb1.
  destruct (last (source_page src start w)) as [kv|] eqn:El.
  - assert (kv ∈ source_page src start w) as Hin by (apply last_Some in El as [l ->]; apply elem_of_app; right; by left).
    pose proof (scan_from _ _ _ _ _ Hin) as Hge. destruct (scan_page start (N.to_nat importChunk) (N.to_nat MaxRequestBytes) (kv_data (grp w src))) as (Hp & _ & _).
    apply Hp in Hin. destruct (exec_page (source_page src start w) w1 chunk size (proj2 Hb1)) as (x & w2 & Hx2 & K2 & M2). erewrite exec_ebind by exact Hx2. cbv beta iota.
    assert (keeps src w w2) as K by (by eapply keeps_trans). assert (keeps MetaGroup w w2) as M by (by eapply keeps_trans).
    destruct x as [[chunk' size']|]; [|by exists w2].
    destruct (IH w2 chunk' size' (kv_Key kv ++ [x00])) as (w3 & Hx3 & K3 & M3).
    + by eapply keeps_both.
    + by rewrite (kp_data _ _ _ K).
    + pose proof (Hk _ _ Hin). rewrite length_app. simpl. lia.
    + rewrite (kp_data _ _ _ K). pose proof (remaining_next start _ kv Hin Hge). lia.
    + exists w3. split; [exact Hx3|]. split; eapply keeps_trans; eauto.
  - destruct (exec_flush w1 chunk true (proj2 Hb1)) as (held & w2 & Hx2 & K2 & M2). erewrite exec_ebind by exact Hx2.
    exists w2. split; [done|]. split; eapply keeps_trans; eauto.
Qed.

(** ** The map *)

Context (encode_map : ShardMap -> bytes) (decode_map : bytes -> option ShardMap) (Hmap : forall m, decode_map (encode_map m) = Some m) (gids : list N).

Lemma meta_there w x : stored w = Some x -> exists st, st_groups w !! MetaGroup = Some st /\ kv_data st !! mapKey = Some x.
Proof. unfold stored, grp. destruct (st_groups w !! MetaGroup) as [st|]; [eauto|done]. Qed.

Lemma exec_read_map w x :
  stored w = Some x -> kv_shards (grp w MetaGroup) = ∅ ->
  exists w', exec (call MetaGroup get_map) w = (Some (inr (RsGet (mkGetResponse true x))), w') /\ keeps MetaGroup w w' /\ keeps src w w'.
Proof.
  intros Hx Hsh. destruct (meta_there _ _ Hx) as (st & Hst & Hd). rewrite (grp_of _ _ _ Hst) in Hsh. set (cmd := mkCommand 0 0 (Some (OpGet mapKey))).
  assert (readable (kv_shards st) mapKey = true) as Hr by (by rewrite Hsh).
  assert ((kv_exec (cmd_Op cmd) 1 st) = (read_result (Some x) false, kv_data st, kv_shards st)) as Hex by (cbn [cmd cmd_Op kv_exec]; by rewrite Hr, Hd).
  destruct (served_anon w MetaGroup st cmd get_map ltac:(done) eq_refl Hst eq_refl eq_refl eq_refl) as [h Hs]; [by rewrite Hex|].
  destruct (step_new marshal cmd 1 st (anonymous cmd st eq_refl)) as (H1 & H2 & _). rewrite Hex in H1, H2, Hs. pose proof (grp_of _ _ _ Hst) as Gs.
  eexists. split; [unfold call; cbn [exec]; rewrite Hs; reflexivity|]. split; apply after_keeps; [|by intros E]. intros _. by rewrite Gs, H1, H2.
Qed.

Lemma exec_swap w raw p m :
  stored w = Some raw -> kv_shards (grp w MetaGroup) = ∅ -> checkSize [mapKey; raw; encode_map m] = None ->
  exists w1, exec (swapMap encode_map (Some raw) p m) w = (Some (inr (encode_map m)), publish rid p (encode_map m) w1) /\
    keeps src w w1 /\ stored w1 = Some (encode_map m) /\ kv_shards (grp w1 MetaGroup) = ∅.
Proof.
  intros Hx Hsh Hsz. destruct (meta_there _ _ Hx) as (st & Hst & Hd). rewrite (grp_of _ _ _ Hst) in Hsh. set (cmd := mkCommand 0 0 (Some (OpCas mapKey (Some raw) (encode_map m)))).
  assert (writable (kv_shards st) mapKey = true) as Hw by (by rewrite Hsh).
  assert ((kv_exec (cmd_Op cmd) 1 st) = (read_result (Some raw) true, <[mapKey := encode_map m]> (kv_data st), kv_shards st)) as Hex.
  { cbn [cmd cmd_Op kv_exec]. rewrite Hw, Hd. unfold cas_ok. by rewrite bool_decide_true. }
  destruct (served_anon w MetaGroup st cmd (swap_req encode_map (Some raw) m) ltac:(done) eq_refl Hst) as [h Hs]; [|done|done|by rewrite Hex|].
  { cbn [swap_req admitted cas_Key cas_Expected cas_Value default]. unfold id. by rewrite Hsz. }
  destruct (step_new marshal cmd 1 st (anonymous cmd st eq_refl)) as (H1 & H2 & _). rewrite Hex in H1, H2, Hs.
  exists (after w MetaGroup (kv_step marshal cmd 1 st).1 h). split_and!.
  - unfold swapMap, call. cbn [ebind pbind exec]. change (RqCas _) with (swap_req encode_map (Some raw) m). rewrite Hs. reflexivity.
  - by apply after_keeps.
  - unfold stored. rewrite grp_after, decide_True by done. rewrite H1. cbn [fst snd]. by rewrite lookup_insert_eq.
  - rewrite grp_after, decide_True by done. by rewrite H2.
Qed.

Lemma router_set r w : router_of rid (set_router rid r w) = r.
Proof. unfold router_of, set_router. simpl. by rewrite lookup_insert_eq. Qed.

Lemma cached_new m raw w : cached rid (publish rid (length (r_heap (router_of rid w))) raw (alloc rid m w)) = Some (m, raw).
Proof. unfold cached, publish, alloc. rewrite !router_set. cbn [r_cache r_heap]. by rewrite list_lookup_middle. Qed.

Lemma exec_reload tries w m :
  stored w = Some (encode_map m) -> kv_shards (grp w MetaGroup) = ∅ -> length (sm_Moving m) = length (sm_Groups m) ->
  exists p w', exec (reload encode_map decode_map gids tries) w = (Some (inr (p, m)), w') /\ keeps src w w' /\ keeps MetaGroup w w' /\
    cached rid w' = Some (m, encode_map m).
Proof.
  intros Hx Hsh Hl. destruct (exec_read_map w _ Hx Hsh) as (w1 & Hx1 & M1 & K1).
  assert (fix_moving m = m) as Hf by (unfold fix_moving; by rewrite Hl, Nat.eqb_refl).
  exists (length (r_heap (router_of rid w1))), (publish rid (length (r_heap (router_of rid w1))) (encode_map m) (alloc rid m w1)).
  split_and!; [|by destruct K1|by destruct M1|apply cached_new].
  destruct tries; cbn [reload]; erewrite exec_ebind by exact Hx1; cbv beta iota; cbn [getr_Found getr_Value]; rewrite Hmap, Hf; reflexivity.
Qed.

(** ** The whole move *)

Definition at_entry (x y : N) (m : ShardMap) : ShardMap := mkMap (<[N.to_nat shard := x]> (sm_Groups m)) (<[N.to_nat shard := y]> (sm_Moving m)).

(** The encodings of the maps of the move fit into requests. *)
Definition map_fits (m : ShardMap) : Prop :=
  forall x y, x ∈ [src; dest] -> y ∈ [0%N; dest] -> (N.of_nat (length (encode_map (at_entry x y m))) <= 500000)%N.

Lemma fits_checkSize m x y x' y' :
  map_fits m -> x ∈ [src; dest] -> y ∈ [0%N; dest] -> x' ∈ [src; dest] -> y' ∈ [0%N; dest] ->
  checkSize [mapKey; encode_map (at_entry x y m); encode_map (at_entry x' y' m)] = None.
Proof.
  intros Hf H1 H2 H3 H4. pose proof (Hf x y H1 H2) as F1. pose proof (Hf x' y' H3 H4) as F2. unfold checkSize.
  assert (length mapKey = 18) as Hm by reflexivity. generalize dependent mapKey. intros key Hm.
  replace (sum_list _) with (18 + length (encode_map (at_entry x y m)) + length (encode_map (at_entry x' y' m))) by (simpl; lia).
  unfold MaxRequestBytes. destruct (N.ltb_spec 1048576 (N.of_nat (18 + length (encode_map (at_entry x y m)) + length (encode_map (at_entry x' y' m))))); [lia|done].
Qed.

(** From the freeze on. *)
Lemma exec_transfer pages w p m raw :
  both w -> short_keys (kv_data (grp w src)) -> remaining [] (kv_data (grp w src)) < pages ->
  stored w = Some raw -> kv_shards (grp w MetaGroup) = ∅ -> checkSize [mapKey; raw; encode_map m] = None ->
  exists w', exec (ebind (admin src (Freeze shard)) (fun _ => ebind (copyShard pages shard src dest [] [] 0) (fun _ => ebind (admin src (Purge shard)) (fun _ =>
    Assign p m (ebind (swapMap encode_map (Some raw) p m) (fun _ => Done (inr tt))))))) w = (Some (@inr status unit tt), w').
Proof.
  intros Hb Hk Hr Hst Hsh Hsz.
  destruct (exec_admin w src (Freeze shard) Hsrc eq_refl (proj1 Hb)) as (st & st' & h & Hs & Hd & _ & Hx1). erewrite exec_ebind by exact Hx1. cbv beta. set (w1 := after w src st' h) in *.
  assert (kv_data (grp w1 src) = kv_data (grp w src)) as Hd1 by (unfold w1; rewrite grp_after, decide_True, (grp_of _ _ _ Hs) by done; done).
  assert (keeps MetaGroup w w1) as M1 by (by apply after_keeps).
  destruct (exec_copy pages w1 [] 0 []) as (w2 & Hx2 & K2 & M2); [by eapply keeps_both|by rewrite Hd1|done|by rewrite Hd1|]. erewrite exec_ebind by exact Hx2. cbv beta.
  assert (both w2) as Hb2 by (eapply keeps_both, keeps_both; eauto).
  destruct (exec_admin w2 src (Purge shard) Hsrc eq_refl (proj1 Hb2)) as (st2 & st2' & h2 & _ & _ & _ & Hx3). erewrite exec_ebind by exact Hx3. cbv beta. cbn [exec].
  set (w3 := assign rid p m (after w2 src st2' h2)). assert (keeps MetaGroup w w3) as M3.
  { eapply keeps_trans; [exact M1|]. eapply keeps_trans; [exact M2|]. assert (keeps MetaGroup w2 (after w2 src st2' h2)) as [Z1 Z2 Z3] by (by apply after_keeps). by split. }
  destruct (exec_swap w3 raw p m) as (w4 & Hx4 & _); [unfold stored; by rewrite (kp_data _ _ _ M3)|by rewrite (kp_shards _ _ _ M3)|done|].
  erewrite exec_ebind by exact Hx4. by eexists.
Qed.

Lemma exec_mark w p m mv :
  stored w = Some (encode_map m) -> kv_shards (grp w MetaGroup) = ∅ -> map_fits m -> sm_Groups m !! N.to_nat shard = Some src ->
  sm_Moving m !! N.to_nat shard = Some mv -> mv ∈ [0%N; dest] ->
  exists w', exec (mark_move encode_map shard dest p m mv (Some (encode_map m))) w =
      (Some (inr (at_entry src dest m, Some (encode_map (at_entry src dest m)))), w') /\
    keeps src w w' /\ stored w' = Some (encode_map (at_entry src dest m)) /\ kv_shards (grp w' MetaGroup) = ∅.
Proof.
  intros Hst Hsh Hf Hg Hmv Hin. assert (at_entry src mv m = m) as Hself by (unfold at_entry; rewrite !list_insert_id by done; by destruct m).
  assert (at_entry src dest m = mkMap (sm_Groups m) (<[N.to_nat shard := dest]> (sm_Moving m))) as Hm1 by (unfold at_entry; by rewrite (list_insert_id (sm_Groups m))).
  unfold mark_move. destruct (N.eqb_spec mv 0) as [->|Hz].
  - rewrite <-Hm1. set (m1 := at_entry src dest m). set (w2 := assign rid p m1 w).
    destruct (exec_swap w2 (encode_map m) p m1) as (w3 & Hx3 & K3 & Hst3 & Hsh3); [done|done| |].
    { rewrite <-Hself at 1. apply fits_checkSize; [done|set_solver..]. }
    exists (publish rid p (encode_map m1) w3). split_and!; [|by destruct K3|done..]. cbn [exec]. fold w2. erewrite exec_ebind by exact Hx3. reflexivity.
  - assert (mv = dest) as -> by set_solver. rewrite Hself. exists w. split_and!; [done|apply keeps_refl|done..].
Qed.

Lemma exec_move tries pages w m :
  (shard < Shards)%N -> src ∈ gids -> dest ∈ gids -> stored w = Some (encode_map m) -> placed shard src dest w m -> kv_shards (grp w MetaGroup) = ∅ ->
  map_fits m -> both w -> short_keys (kv_data (grp w src)) -> remaining [] (kv_data (grp w src)) < pages ->
  exists w', exec (MoveShard encode_map decode_map gids tries pages shard dest) w = (Some (inr tt), w').
Proof.
  intros Hlt Hs Hd Hst (Hl1 & Hl2 & Hmv & Hg) Hsh Hf Hb Hk Hr. unfold MoveShard. destruct (N.leb_spec Shards shard); [lia|]. rewrite bool_decide_true by done.
  destruct (exec_reload tries w m Hst Hsh ltac:(congruence)) as (p & w1 & Hx1 & K1 & M1 & Hc). erewrite exec_ebind by exact Hx1. cbv beta iota.
  destruct Hg as [Hg|[Hg _]]; rewrite Hg.
  2: { destruct Hmv as [-> | ->]; rewrite N.eqb_refl; by eexists. }
  destruct (N.eqb_spec src dest) as [E|_]; [done|].
  assert (exists mv, sm_Moving m !! N.to_nat shard = Some mv /\ mv ∈ [0%N; dest]) as (mv & Hm & Hin) by (destruct Hmv; eexists; split; try done; set_solver). rewrite Hm.
  assert (negb (mv =? 0)%N && negb (mv =? dest)%N = false) as ->.
  { assert (mv = 0%N \/ mv = dest) as [-> | ->] by set_solver; [done|]. rewrite N.eqb_refl. apply andb_false_r. }
  destruct (exec_mark w1 p m mv) as (w2 & Hx2 & K2 & Hst2 & Hsh2); [unfold stored; by rewrite (kp_data _ _ _ M1)|by rewrite (kp_shards _ _ _ M1)|done..|].
  cbn [exec]. rewrite Hc. cbn [fmap option_fmap option_map snd]. erewrite exec_ebind by exact Hx2. cbv beta iota. rewrite bool_decide_true by done.
  assert (keeps src w w2) as K by (by eapply keeps_trans). apply exec_transfer; [by eapply keeps_both|by rewrite (kp_data _ _ _ K)..|done|done|].
  change (mkMap _ _) with (at_entry dest 0 (at_entry src dest m)).
  assert (at_entry dest 0 (at_entry src dest m) = at_entry dest 0 m) as -> by (unfold at_entry; simpl; by rewrite !list_insert_insert_eq).
  apply fits_checkSize; [done|set_solver..].
Qed.
End Finish.

(** ** Groups do not disappear *)

Section There.
Context (marshal : Result -> bytes) (unmarshalResult : bytes -> option Result) (shard : N).

Definition there (w w' : store) : Prop := forall g, is_Some (st_groups w !! g) -> is_Some (st_groups w' !! g).

Lemma pstep_there {A} rid (p p' : prog A) w w' : pstep marshal unmarshalResult shard rid p w p' w' -> there w w'.
Proof.
  assert (forall o req w, there w (served marshal unmarshalResult shard o req w).1) as Hs.
  { intros o req w0 g Hg. destruct (served_effect marshal unmarshalResult shard o req w0) as (h & Heff & _ & _).
    destruct (served marshal unmarshalResult shard o req w0) as [w1 r]. simpl in *. destruct Heff as [| | |g0 st cmd op i r Hg0]; try done.
    destruct (decide (g0 = g)) as [->|]; [rewrite lookup_insert_eq; eauto|by rewrite lookup_insert_ne]. }
  intros H. destruct H; try apply Hs; by intros ? ?.
Qed.

Lemma cstep_there encode_map decode_map gids dest y y' : cstep marshal unmarshalResult shard encode_map decode_map gids dest y y' -> there (y_store y) (y_store y').
Proof. intros H. destruct H; simpl; try (by intros g Hg); by eapply pstep_there. Qed.
End There.

(** ** The claim *)


Lemma enc_map_inj m m' : Some (enc_map m) = Some (enc_map m') -> m = m'.
Proof. intros E%(inj Some). apply (f_equal dec_map) in E. rewrite !dec_enc_map in E. by apply (inj Some) in E. Qed.

Lemma ex_fits m : stored ex_stopped = Some (enc_map m) -> map_fits ex_shard ex_src ex_dest enc_map m.
Proof.
  destruct ex_stopped_map as (m1 & Hs & Hm1). rewrite Hs. intros <-%enc_map_inj. subst m1. intros x y Hx Hy.
  apply elem_of_cons in Hx as [-> | ->%list_elem_of_singleton]; apply elem_of_cons in Hy as [-> | ->%list_elem_of_singleton]; vm_compute; discriminate.
Qed.

