(* ===== verification/MoveFindings.v ===== *)
(** * What moving a shard does not keep

    Runs of the small cluster in which an operation loses or repeats something:
    a mover that is resumed late, two movers on one router, a retried write
    after a move, and others. *)

From stdpp Require Import base list gmap.
From S2P Require Import Prelude Codec Key Batch LogStore KeyHash Db StateMachine KvSpec Server Client ClientTheorems Router RouterRuns MoveInv MoveSafety MoveTheorems.

(** ** Running operations in part and in turn *)

Definition run_on {A} (rid : N) (p : prog A) (w : store) : option A * store := exec enc_result dec_result ex_shard rid p w.

(** The first [n] steps. *)
Fixpoint run_steps {A} (n : nat) (rid : N) (p : prog A) (w : store) : prog A * store :=
  match n, p with
  | S n, Rpc g req k => run_steps n rid (k (served enc_result dec_result ex_shard (Committed 1) req w).2) (served enc_result dec_result ex_shard (Committed 1) req w).1
  | S n, Load k => run_steps n rid (k (cached rid w)) w
  | S n, New m k => run_steps n rid (k (length (r_heap (router_of rid w)))) (alloc rid m w)
  | S n, Assign q m k => run_steps n rid k (assign rid q m w)
  | S n, Publish q raw k => run_steps n rid k (publish rid q raw w)
  | S n, Ended k => run_steps n rid (k false) w
  | _, _ => (p, w)
  end.

Definition move (shard dest : N) : prog (status + unit) := MoveShard enc_map dec_map ex_gids 2 5 shard dest.
Definition put (sess : option Session) (key value : bytes) : prog (status + Response) := rt_Put enc_map dec_map ex_gids 2 (mkPutRequest sess key value 0).
Definition get (key : bytes) : prog (status + Response) := rt_Get enc_map dec_map ex_gids 2 (mkGetRequest key LOG None 0).
Definition scan_all : prog (status + Response) := rt_Scan enc_map dec_map ex_gids 2 (mkScanRequest [] [] 0 LOG None 0 0).
Definition refresh : prog (status + (nat * ShardMap)) := reload enc_map dec_map ex_gids 2.

Definition found (v : bytes) : option (status + Response) := Some (inr (RsGet (mkGetResponse true v))).

(** ** A mover resumed late *)

(** The mover stops just before its only import.  The move is run again on
    another router, the shard is moved back, and a client overwrites the key. *)
Definition paused : prog (status + unit) * store := run_steps 10 1 (move ex_shard 3) ex_store.
Definition returned : store := (run_on 2 (move ex_shard 2) (run_on 2 (move ex_shard 3) paused.2).2).2.
Definition overwritten : store := (run_on 2 (put None ex_key [x32]) returned).2.
(** Then the first mover goes on. *)
Definition resumed : option (status + unit) * store := run_on 1 paused.1 overwritten.
Definition moved_again : store := (run_on 2 (move ex_shard 3) resumed.2).2.

(** A mover that goes on after the shard has moved there and back imports what
    it read long ago, which the former owner accepts, and then purges the
    present owner.  An acknowledged write is lost, and once the move is run
    again the old value is back. *)
Theorem resumed_mover_loses_writes :
  (run_on 2 (put None ex_key [x32]) returned).1 = Some (inr RsPut) /\ (run_on 2 (get ex_key) overwritten).1 = found [x32] /\
  resumed.1 = Some (inl MapChanged) /\ (run_on 2 (get ex_key) resumed.2).1 = Some (inl StillMoving) /\
  (run_on 2 (get ex_key) moved_again).1 = found [x31].
Proof. do 4 (split; [vm_compute; reflexivity|]). vm_compute. reflexivity. Qed.

(** ** Two movers and one router *)

Definition other_key : bytes := [x62].
Definition other_shard : N := ShardOf other_key.

(** A mover has loaded the map; another router moves another shard; the first
    router refreshes its map, and the mover goes on. *)
Definition loaded : prog (status + unit) * store := run_steps 3 1 (move ex_shard 3) ex_store.
Definition other_moved : store := (run_on 2 (move other_shard 3) loaded.2).2.
Definition refreshed : store := (run_on 1 refresh other_moved).2.
Definition swapped : option (status + unit) * store := run_on 1 loaded.1 refreshed.

Definition owner (shard : N) (w : store) : option N :=
  match stored w with Some raw => match dec_map raw with Some m => sm_Groups m !! N.to_nat shard | None => None end | None => None end.

(** The mover compares with the router's latest map but writes the one it
    loaded: the other shard's entry is reverted, to a group that refuses it. *)
Theorem refresh_defeats_the_swap :
  owner other_shard refreshed = Some 3%N /\ swapped.1 = Some (inr tt) /\ owner other_shard swapped.2 = Some 2%N /\
  (run_on 3 (put None other_key [x31]) swapped.2).1 = Some (inl StillMoving).
Proof. do 3 (split; [vm_compute; reflexivity|]). vm_compute. reflexivity. Qed.

(** ** Sessions stay behind *)

Definition first_put : prog (status + Response) := put (Some (mkSess 7 1)) ex_key [x32].
Definition applied_once : store := (run_on 1 first_put ex_store).2.
Definition after_move : store := (run_on 1 (move ex_shard 3) applied_once).2.
Definition other_put : store := (run_on 2 (put (Some (mkSess 8 1)) ex_key [x33]) after_move).2.
Definition retried : store := (run_on 1 first_put other_put).2.

(** A write that is retried after its shard has moved is applied again, over
    what another client has written since. *)
Theorem retry_after_move_applies_twice :
  (run_on 2 (get ex_key) other_put).1 = found [x33] /\ (run_on 2 (get ex_key) retried).1 = found [x32] /\
  st_hist retried = [(OpPut ex_key [x32], success); (OpPut ex_key [x33], success); (OpPut ex_key [x32], success)].
Proof. do 2 (split; [vm_compute; reflexivity|]). vm_compute. reflexivity. Qed.

(** A write that is refused because its shard is frozen is remembered as
    refused: it stays so when the shard is open here again. *)
Definition refused_put : Command := mkCommand 7 1 (Some (OpPut ex_key [x32])).
Definition commands : list Op := [Purge ex_shard; Import ex_shard [] true].
Definition reopened : kvs :=
  foldl (fun st op => (kv_step enc_result (mkCommand 0 0 (Some op)) 1 st).1)
    (kv_step enc_result refused_put 1 (kv_step enc_result (mkCommand 0 0 (Some (Freeze ex_shard))) 1 (mkKvs ex_contents ∅ ∅ 0)).1).1 commands.

Theorem refusal_is_remembered :
  writable (kv_shards reopened) ex_key = true /\ (kv_step enc_result refused_put 2 reopened).2 = enc_result moving /\
  (kv_step enc_result (mkCommand 8 1 (Some (OpPut ex_key [x32]))) 2 reopened).2 = enc_result success.
Proof. do 2 (split; [vm_compute; reflexivity|]). vm_compute. reflexivity. Qed.

(** ** Others *)

(** The destination is open and the source is not purged. *)
Definition in_both : store := (run_steps 11 1 (move ex_shard 3) ex_store).2.

(** A scan during a move returns the moving keys twice. *)
Theorem scan_returns_keys_twice :
  (run_on 2 scan_all in_both).1 = Some (inr (RsScan [mkKV ex_key [x31]; mkKV ex_key [x31]])).
Proof. vm_compute. reflexivity. Qed.

(** The mover is about to mark its move. *)
Definition marking : prog (status + unit) * store := run_steps 5 1 (move ex_shard 3) ex_store.

(** When the answer to the swap is lost, the retry compares with the map the
    mover has itself replaced: the move fails though the swap took effect. *)
Theorem lost_answer_fails_the_move :
  match marking.1 with
  | Rpc g req k =>
      let w := (served enc_result dec_result ex_shard (Expired true (Some 1%N)) req marking.2).1 in
      stored w = Some (enc_map (mkMap (sm_Groups (DefaultMap ex_gids)) (<[N.to_nat ex_shard := 3%N]> (sm_Moving (DefaultMap ex_gids))))) /\
      (run_on 1 (Rpc g req k) w).1 = Some (inl MapChanged)
  | _ => False
  end.
Proof. vm_compute. split; reflexivity. Qed.

(** A key as long as a request may be can be written, but the page after it
    cannot be asked for. *)
Theorem longest_key_blocks_the_move src k :
  N.of_nat (length k) = MaxRequestBytes ->
  admitted (RqPut (mkPutRequest None k [] src)) = true /\ admitted (page_req src (k ++ [x00])) = false.
Proof.
  intros Hk. assert (checkSize [k; []] = None) as H1.
  { unfold checkSize. replace (sum_list _) with (length k) by (simpl; lia). rewrite Hk. by rewrite N.ltb_irrefl. }
  assert (checkSize [k ++ [x00]; []] <> None) as H2.
  { unfold checkSize. replace (sum_list _) with (length k + 1) by (simpl; rewrite length_app; simpl; lia).
    destruct (N.ltb_spec MaxRequestBytes (N.of_nat (length k + 1))); [done|lia]. }
  assert (length k =? 0 = false) as H3 by (by destruct k).
  cbn [admitted put_Key put_Value page_req scan_Start scan_End]. rewrite H1, H3. split; [done|by apply bool_decide_eq_false].
Qed.
