(* ===== verification/Sim.v ===== *)
(** * The simulator

    src/sim runs the code of raft and kv over a simulated disk, network and
    clock, with faults, and checks what it sees.  Here: the log store with its
    journal (logstore.go) and a step of a node that a crash cuts short
    (node.go, network.go), which is a crash of the cluster model; and the
    checks on terms, leaders and committed entries (invariants.go), which no
    run of the code can fail; and the operations of the clients with the model
    their history is judged by (client.go). *)

From Stdlib Require Import Strings.String.
From stdpp Require Import base list gmap functions relations sorting.
From S2P Require Import Prelude LogStore Raft Protocol Safety Preserve Refine Cluster RaftCalls SnapData Node Replica ReplicaReads KeyHash Key Db StateMachine KvSpec.

(** ** sim/logstore.go *)

Module SimLog.

Inductive record :=
  | recEntry (entry : Entry)
  | recState (term : N) (vote : NodeID)
  | recSnapshot (index term : N) (snap : bytes).

(** The fields that replaying the journal yields are those of [MemStore]. *)
Record logStore := mkLog {
  l_journal : list record;
  l_mark : nat;
  l_rewrite : bool;
  l_mem : MemStore;
}.

Definition new_logStore : logStore := mkLog [] 0 false NewMemStore.

Definition last (l : logStore) : N := lastLocked (l_mem l).

Definition apply (r : record) (m : MemStore) : go MemStore :=
  match r with
  | recEntry e =>
      if (e_Index e <=? ms_snapIdx m)%N then Ret m
      else
        keep ← (if (e_Index e <=? lastLocked m)%N
                then slice (ms_entries m) 0 (N.to_nat (e_Index e - ms_snapIdx m - 1))
                else Ret (ms_entries m));
        Ret (set_entries (keep ++ [e]) m)
  | recState t v => Ret (set_st t v m)
  | recSnapshot i t d =>
      es ← (if (lastLocked m <=? i)%N then Ret []
            else slice (ms_entries m) (N.to_nat (usub64 i (ms_snapIdx m))) (length (ms_entries m)));
      Ret (mkMem (ms_term m) (ms_vote m) es i t d)
  end.

(** A write: a record in the journal, applied. *)
Definition log_write (r : record) (l : logStore) : go logStore :=
  m ← apply r (l_mem l);
  Ret (mkLog (l_journal l ++ [r]) (l_mark l) (l_rewrite l) m).

Fixpoint append_loop (es : list Entry) (l : logStore) : go logStore :=
  match es with
  | [] => Ret l
  | e :: es => l ← log_write (recEntry e) l; append_loop es l
  end.

Definition log_Append (es : list Entry) (l : logStore) : go logStore :=
  match es with
  | [] => Ret l
  | e :: _ =>
      let first := e_Index e in
      if (last l + 1 <? first)%N || (first <=? ms_snapIdx (l_mem l))%N then Fail ErrRange
      else append_loop es l
  end.

Definition log_Entries (lo hi : N) (l : logStore) : go (list Entry) :=
  let m := l_mem l in
  if (lo <=? ms_snapIdx m)%N then Fail ErrCompacted
  else if (last l + 1 <? hi)%N then Fail ErrRange
  else if (hi <? lo)%N then Panic
  else slice (ms_entries m) (N.to_nat (lo - ms_snapIdx m - 1)) (N.to_nat (hi - ms_snapIdx m - 1)).

Definition log_Term (index : N) (l : logStore) : go N :=
  let m := l_mem l in
  if (index =? ms_snapIdx m)%N then Ret (ms_snapTerm m)
  else if (index <? ms_snapIdx m)%N then Fail ErrCompacted
  else if (last l <? index)%N then Fail ErrRange
  else match ms_entries m !! N.to_nat (index - ms_snapIdx m - 1) with
       | Some e => Ret (e_Term e)
       | None => Panic
       end.

Definition log_FirstIndex (l : logStore) : N := (ms_snapIdx (l_mem l) + 1)%N.

Definition log_SetState (term : N) (vote : NodeID) (l : logStore) : go logStore := log_write (recState term vote) l.

Definition log_State (l : logStore) : go (N * NodeID) := Ret (ms_term (l_mem l), ms_vote (l_mem l)).

Definition set_rewrite (b : bool) (l : logStore) : logStore := mkLog (l_journal l) (l_mark l) b (l_mem l).

Definition log_Compact (index term : N) (snapshot : bytes) (l : logStore) : go logStore :=
  if (index <=? ms_snapIdx (l_mem l))%N then Ret l
  else l ← log_write (recSnapshot index term snapshot) l; Ret (set_rewrite true l).

Definition log_Snapshot (l : logStore) : go (N * N * bytes) :=
  Ret (ms_snapIdx (l_mem l), ms_snapTerm (l_mem l), ms_snap (l_mem l)).

#[global] Instance logStore_LogStore : LogStore logStore := {
  ls_Append := log_Append;
  ls_Entries := log_Entries;
  ls_Term := log_Term;
  ls_FirstIndex := log_FirstIndex;
  ls_LastIndex := last;
  ls_SetState := log_SetState;
  ls_State := log_State;
  ls_Compact := log_Compact;
  ls_Snapshot := log_Snapshot;
}.

Fixpoint apply_all (rs : list record) (m : MemStore) : go MemStore :=
  match rs with
  | [] => Ret m
  | r :: rs => m ← apply r m; apply_all rs m
  end.

Definition replay (l : logStore) : go logStore :=
  m ← apply_all (l_journal l) NewMemStore;
  Ret (mkLog (l_journal l) (l_mark l) (l_rewrite l) m).

Definition checkpoint (l : logStore) : logStore := mkLog (l_journal l) (length (l_journal l)) (l_rewrite l) (l_mem l).

Definition dirty (l : logStore) : bool := l_mark l <? length (l_journal l).

Definition rewritten (m : MemStore) : list record :=
  recSnapshot (ms_snapIdx m) (ms_snapTerm m) (ms_snap m) :: recState (ms_term m) (ms_vote m) :: (recEntry <$> ms_entries m).

Definition commit (l : logStore) : logStore :=
  let j := if l_rewrite l then rewritten (l_mem l) else l_journal l in
  mkLog j (length j) false (l_mem l).

(** [d] is what the random numbers give; [Intn] of nothing panics. *)
Definition rollback (d : nat) (l : logStore) : go (logStore * nat) :=
  let n := length (l_journal l) - l_mark l in
  if n =? 0 then Panic
  else
    let cut := l_mark l + d mod n in
    l ← replay (mkLog (take cut (l_journal l)) (l_mark l) false (l_mem l));
    Ret (checkpoint l, cut).

(** ** sim/node.go and sim/network.go: a step of a node *)

(** A message waits in the outbox with the length of the journal when it was
    sent. *)
Record outMsg := mkOut { o_msg : Message; o_pos : nat }.

Definition do_effect (e : effect) (x : logStore * list outMsg) : go (logStore * list outMsg) :=
  let '(l, out) := x in
  match e with
  | ESend m => Ret (l, out ++ [mkOut m (length (l_journal l))])
  | EState t v => l ← log_SetState t v l; Ret (l, out)
  | EAppend es => l ← log_Append es l; Ret (l, out)
  | ECompact i t d => l ← log_Compact i t d l; Ret (l, out)
  end.

Fixpoint do_effects (tr : list effect) (x : logStore * list outMsg) : go (logStore * list outMsg) :=
  match tr with
  | [] => Ret x
  | e :: tr => x ← do_effect e x; do_effects tr x
  end.

(** What is sent when the journal is cut at [cut]. *)
Definition released (cut : nat) (out : list outMsg) : list Message := o_msg <$> filter (fun o => o_pos o <= cut) out.

(** How a step ends: when [torn] is drawn and something was written, in a
    crash.  The flag tells whether it was one. *)
Definition finish_step (torn : option nat) (l : logStore) (out : list outMsg) : go (logStore * list Message * bool) :=
  match torn with
  | Some d =>
      if dirty l then
        y ← rollback d l;
        Ret (y.1, released y.2 out, true)
      else Ret (commit l, o_msg <$> out, false)
  | None => Ret (commit l, o_msg <$> out, false)
  end.

(** [run]: the effects of the step in their order, and its end. *)
Definition run (torn : option nat) (tr : list effect) (l : logStore) : go (logStore * list Message * bool) :=
  x ← do_effects tr (checkpoint l, []);
  finish_step torn x.1 x.2.

(** ** What the journal holds *)

(** Entries are numbered as they are stored. *)
Definition from_index (i : N) (es : list Entry) : Prop := forall k e, es !! k = Some e -> e_Index e = (i + N.of_nat k)%N.

Definition eff_wf (e : effect) (m : MemStore) : Prop :=
  match e with
  | EAppend es => exists i, (ms_snapIdx m < i <= lastLocked m + 1)%N /\ from_index i es
  | _ => True
  end.

Fixpoint trace_wf (tr : list effect) (m : MemStore) : Prop :=
  match tr with
  | [] => True
  | e :: tr => eff_wf e m /\ trace_wf tr (apply_eff e m)
  end.

Definition numbered_mem (m : MemStore) : Prop := from_index (ms_snapIdx m + 1) (ms_entries m).

Definition log_ok (l : logStore) : Prop := apply_all (l_journal l) NewMemStore = Ret (l_mem l) /\ numbered_mem (l_mem l).

(** The records of an effect. *)
Definition recs (e : effect) (m : MemStore) : list record :=
  match e with
  | ESend _ => []
  | EState t v => [recState t v]
  | EAppend es => recEntry <$> es
  | ECompact i t d => if (i <=? ms_snapIdx m)%N then [] else [recSnapshot i t d]
  end.

Fixpoint journal_of (tr : list effect) (m : MemStore) : list record :=
  match tr with
  | [] => []
  | e :: tr => recs e m ++ journal_of tr (apply_eff e m)
  end.

(** The messages of a trace, and where they were sent. *)
Fixpoint outbox_of (n : nat) (tr : list effect) (m : MemStore) : list outMsg :=
  match tr with
  | [] => []
  | e :: tr =>
      match e with ESend x => [mkOut x n] | _ => [] end ++ outbox_of (n + length (recs e m)) tr (apply_eff e m)
  end.

Definition sends (tr : list effect) : list Message := omap (fun e => match e with ESend m => Some m | _ => None end) tr.

Lemma apply_all_app rs1 rs2 m : apply_all (rs1 ++ rs2) m = (m1 ← apply_all rs1 m; apply_all rs2 m1).
Proof. revert m. induction rs1 as [|r rs1 IH]; intros m; simpl; [done|]. destruct (apply r m); simpl; auto. Qed.

Lemma apply_entry_end e m :
  (e_Index e = lastLocked m + 1)%N -> (ms_snapIdx m < e_Index e)%N -> apply (recEntry e) m = Ret (set_entries (ms_entries m ++ [e]) m).
Proof.
  intros He Hs. simpl. destruct (N.leb_spec (e_Index e) (ms_snapIdx m)); [lia|]. destruct (N.leb_spec (e_Index e) (lastLocked m)); [lia|done].
Qed.

(** Appending one by one at the end. *)
Lemma apply_entries_end es m :
  from_index (lastLocked m + 1) es -> apply_all (recEntry <$> es) m = Ret (set_entries (ms_entries m ++ es) m).
Proof.
  revert m. induction es as [|e es IH]; intros m Hi; simpl; [unfold set_entries; rewrite app_nil_r; by destruct m|].
  pose proof (Hi 0 e eq_refl) as He. simpl in He. pose proof (apply_entry_end e m ltac:(lia) ltac:(unfold lastLocked in *; lia)) as Ha.
  simpl in Ha. rewrite Ha. simpl. rewrite IH.
  - unfold set_entries. simpl. by rewrite <-app_assoc.
  - intros k e' Hk. specialize (Hi (Datatypes.S k) e' Hk). unfold lastLocked in *. simpl. rewrite length_app. simpl. lia.
Qed.

(** One by one is all at once. *)
Lemma apply_entries es i m :
  (ms_snapIdx m < i <= lastLocked m + 1)%N -> from_index i es -> apply_all (recEntry <$> es) m = appendLocked es m.
Proof.
  intros Hr Hi. destruct es as [|e es]; [done|]. pose proof (Hi 0 e eq_refl) as He. simpl in He.
  rewrite append_ok by lia. simpl. destruct (N.leb_spec (e_Index e) (ms_snapIdx m)); [lia|].
  set (keep := take (N.to_nat (e_Index e - ms_snapIdx m - 1)) (ms_entries m)).
  assert ((if (e_Index e <=? lastLocked m)%N then slice (ms_entries m) 0 (N.to_nat (e_Index e - ms_snapIdx m - 1)) else Ret (ms_entries m)) = Ret keep) as ->.
  { destruct (N.leb_spec (e_Index e) (lastLocked m)).
    - rewrite slice_ok; [by rewrite drop_0, Nat.sub_0_r|lia|unfold lastLocked in *; lia].
    - f_equal. unfold keep. rewrite take_ge; [done|]. unfold lastLocked in *. lia. }
  simpl. rewrite apply_entries_end.
  - unfold set_entries. simpl. by rewrite <-app_assoc.
  - intros k e' Hk. specialize (Hi (Datatypes.S k) e' Hk). unfold lastLocked, keep in *. simpl.
    rewrite length_app, length_take. simpl. lia.
Qed.

Lemma append_fits es i m :
  (ms_snapIdx m < i <= lastLocked m + 1)%N -> from_index i es -> appendLocked es m = Ret (apply_eff (EAppend es) m).
Proof.
  intros Hr Hi. destruct es as [|e es]; [done|]. pose proof (Hi 0 e eq_refl) as He. simpl in He. unfold apply_eff. by rewrite append_ok by lia.
Qed.

Lemma apply_recs e m : eff_wf e m -> apply_all (recs e m) m = Ret (apply_eff e m).
Proof.
  destruct e as [x|t v|es|i t d]; simpl; intros Hw; [done|done| |].
  - destruct Hw as (i & Hr & Hi). by rewrite (apply_entries es i), (append_fits es i).
  - unfold mem_Compact. destruct (N.leb_spec i (ms_snapIdx m)); [done|]. simpl. rewrite usub64_le by lia.
    destruct (N.leb_spec (lastLocked m) i), (N.leb_spec i (lastLocked m)); try lia; simpl; try done.
    + rewrite slice_ok by (unfold lastLocked in *; lia). simpl. by rewrite drop_ge, take_nil by (unfold lastLocked in *; lia).
    + rewrite slice_ok by (unfold lastLocked in *; lia). done.
Qed.

(** The part of an effect that its first records make. *)
Definition part (c : nat) (e : effect) : list effect := match e with EAppend es => [EAppend (take c es)] | _ => [] end.

Lemma apply_part e m c :
  eff_wf e m -> c < length (recs e m) -> apply_all (take c (recs e m)) m = Ret (foldl (fun v e => apply_eff e v) m (part c e)).
Proof.
  destruct e as [x|t v|es|i t d]; simpl; intros Hw Hc; [lia|by assert (c = 0) as -> by lia| |].
  - destruct Hw as (i & Hr & Hi). assert (from_index i (take c es)) as Hi'.
    { intros k e Hk. apply lookup_take_Some in Hk as [Hk _]. by apply Hi. }
    rewrite <-fmap_take, (apply_entries _ i), (append_fits _ i) by done. done.
  - destruct (i <=? ms_snapIdx m)%N; simpl in *; [lia|]. by assert (c = 0) as -> by lia.
Qed.

Lemma append_loop_ok es l :
  append_loop es l = (m ← apply_all (recEntry <$> es) (l_mem l); Ret (mkLog (l_journal l ++ (recEntry <$> es)) (l_mark l) (l_rewrite l) m)).
Proof.
  revert l. induction es as [|e es IH]; intros l; [simpl; rewrite app_nil_r; by destruct l|]. cbn [append_loop fmap list_fmap apply_all].
  unfold log_write. destruct (apply (recEntry e) (l_mem l)) as [m| |]; [|done..]. simpl. rewrite IH. simpl.
  destruct (apply_all _ m); [|done..]. simpl. by rewrite <-app_assoc.
Qed.

(** ** Steps *)

Lemma do_effect_ok e l out :
  eff_wf e (l_mem l) ->
  exists b, do_effect e (l, out) =
    Ret (mkLog (l_journal l ++ recs e (l_mem l)) (l_mark l) b (apply_eff e (l_mem l)),
         out ++ match e with ESend x => [mkOut x (length (l_journal l))] | _ => [] end).
Proof.
  intros Hw. pose proof (apply_recs e (l_mem l) Hw) as Ha. destruct e as [x|t v|es|i t d].
  - exists (l_rewrite l). simpl. rewrite app_nil_r. by destruct l.
  - exists (l_rewrite l). simpl. by rewrite app_nil_r.
  - exists (l_rewrite l). cbn [recs] in Ha. simpl in Hw. destruct Hw as (i & Hr & Hi).
    assert (log_Append es l = append_loop es l) as Hl.
    { destruct es as [|e es]; [done|]. unfold log_Append, last. pose proof (Hi 0 e eq_refl) as He. simpl in He.
      destruct (N.ltb_spec (lastLocked (l_mem l) + 1) (e_Index e)), (N.leb_spec (e_Index e) (ms_snapIdx (l_mem l))); try lia. done. }
    cbn [do_effect]. rewrite Hl, append_loop_ok, Ha. simpl. by rewrite app_nil_r.
  - cbn [do_effect recs] in *. unfold log_Compact, log_write. destruct (N.leb_spec i (ms_snapIdx (l_mem l))) as [Hle|Hgt].
    + exists (l_rewrite l). simpl. unfold mem_Compact. rewrite (proj2 (N.leb_le _ _)) by done. rewrite !app_nil_r. by destruct l.
    + exists true. cbn [apply_all] in Ha. destruct (apply (recSnapshot i t d) (l_mem l)) as [m| |]; [|done..]. simpl in Ha. injection Ha as ->.
      simpl. by rewrite app_nil_r.
Qed.

Lemma do_effects_ok tr l out :
  trace_wf tr (l_mem l) ->
  exists b, do_effects tr (l, out) =
    Ret (mkLog (l_journal l ++ journal_of tr (l_mem l)) (l_mark l) b (foldl (fun v e => apply_eff e v) (l_mem l) tr),
         out ++ outbox_of (length (l_journal l)) tr (l_mem l)).
Proof.
  revert l out. induction tr as [|e tr IH]; intros l out; [exists (l_rewrite l); simpl; rewrite !app_nil_r; by destruct l|].
  intros [He Ht]. destruct (do_effect_ok e l out He) as (b & Hd). cbn [do_effects]. rewrite Hd. cbn [mbind go_bind].
  destruct (IH (mkLog (l_journal l ++ recs e (l_mem l)) (l_mark l) b (apply_eff e (l_mem l)))
    (out ++ match e with ESend x => [mkOut x (length (l_journal l))] | _ => [] end) Ht) as (b' & Hb).
  exists b'. rewrite Hb. simpl. by rewrite length_app, <-!app_assoc.
Qed.

Lemma outbox_msgs n tr m : o_msg <$> outbox_of n tr m = sends tr.
Proof. revert n m. induction tr as [|e tr IH]; intros n m; simpl; [done|]. rewrite fmap_app, IH. by destruct e. Qed.

Lemma outbox_late n tr m o : o ∈ outbox_of n tr m -> n <= o_pos o.
Proof.
  revert n m. induction tr as [|e tr IH]; intros n m; simpl; [by intros ?%not_elem_of_nil|].
  intros [Ho|Ho]%elem_of_app; [destruct e; try (by apply not_elem_of_nil in Ho); by apply list_elem_of_singleton in Ho as ->|].
  specialize (IH _ _ Ho). lia.
Qed.

Lemma released_app cut o1 o2 : released cut (o1 ++ o2) = released cut o1 ++ released cut o2.
Proof. unfold released. by rewrite filter_app, fmap_app. Qed.

Lemma released_late cut n tr m : cut < n -> released cut (outbox_of n tr m) = [].
Proof.
  intros Hc. unfold released. assert (forall o, o ∈ outbox_of n tr m -> cut < o_pos o) as Ho by (intros o Ho%outbox_late; lia).
  induction (outbox_of n tr m) as [|o out IH]; [done|]. rewrite filter_cons_False; [apply IH; intros o' Ho'; apply Ho; by right|].
  specialize (Ho o ltac:(by left)). lia.
Qed.

(** Cutting the journal cuts the trace, and lets out what was sent before. *)
Lemma journal_cut n tr m c :
  trace_wf tr m -> c < length (journal_of tr m) ->
  exists k j, apply_all (take c (journal_of tr m)) m = Ret (foldl (fun v e => apply_eff e v) m (survives tr k j)) /\
    released (n + c) (outbox_of n tr m) = sends (take k tr).
Proof.
  revert n m c. induction tr as [|e tr IH]; intros n m c; simpl; [lia|]. intros [He Ht]. rewrite length_app. intros Hc.
  destruct (Nat.lt_ge_cases c (length (recs e m))) as [Hlt|Hge].
  - exists 0, c. rewrite take_app_le by lia. rewrite (apply_part e m c He Hlt). split; [by destruct e|].
    rewrite released_app, released_late by lia. destruct e; simpl in *; [lia|done..].
  - destruct (IH (n + length (recs e m)) (apply_eff e m) (c - length (recs e m)) Ht ltac:(lia)) as (k & j & Ha & Hs).
    exists (Datatypes.S k), j. split.
    + rewrite take_app_ge by lia. rewrite apply_all_app, (apply_recs e m He). simpl. rewrite Ha. done.
    + rewrite released_app. replace (n + c) with (n + length (recs e m) + (c - length (recs e m))) by lia. rewrite Hs.
      unfold released. destruct e; simpl; try done. rewrite filter_cons_True by (simpl; lia). done.
Qed.

(** ** Numbering *)

Lemma numbered_eff e m : eff_wf e m -> numbered_mem m -> numbered_mem (apply_eff e m).
Proof.
  intros Hw Hn. destruct e as [x|t v|es|i t d]; [done|done| |].
  - destruct Hw as (i & Hr & Hi). destruct es as [|e es]; [done|]. unfold apply_eff. pose proof (Hi 0 e eq_refl) as He. simpl in He.
    rewrite append_ok by lia. intros k e' Hk. simpl in *. apply lookup_app_Some in Hk as [Hk|[Hge Hk]].
    + apply lookup_take_Some in Hk as [Hk _]. by apply Hn.
    + apply Hi in Hk. rewrite length_take in *. unfold lastLocked in *. lia.
  - unfold apply_eff, mem_Compact. destruct (N.leb_spec i (ms_snapIdx m)); [done|]. destruct (N.leb_spec i (lastLocked m)).
    + rewrite slice_ok by (unfold lastLocked in *; lia). simpl. intros k e Hk. simpl in *.
      apply lookup_take_Some in Hk as [Hk _]. rewrite lookup_drop in Hk. apply Hn in Hk. lia.
    + by intros k e.
Qed.

Lemma numbered_trace tr m : trace_wf tr m -> numbered_mem m -> numbered_mem (foldl (fun v e => apply_eff e v) m tr).
Proof. revert m. induction tr as [|e tr IH]; intros m; simpl; [done|]. intros [He Ht] Hn. apply IH; [done|by apply numbered_eff]. Qed.

Lemma rewritten_ok m : numbered_mem m -> apply_all (rewritten m) NewMemStore = Ret m.
Proof.
  intros Hn. unfold rewritten.
  set (m0 := mkMem (ms_term m) (ms_vote m) [] (ms_snapIdx m) (ms_snapTerm m) (ms_snap m)).
  transitivity (apply_all (recEntry <$> ms_entries m) m0).
  { cbn [apply_all apply]. change (lastLocked NewMemStore) with 0%N. by rewrite (proj2 (N.leb_le _ _)) by lia. }
  rewrite apply_entries_end; [by destruct m|]. intros k e Hk. apply Hn in Hk. unfold lastLocked. simpl. lia.
Qed.

Lemma survives_wf tr m k j : trace_wf tr m -> trace_wf (survives tr k j) m.
Proof.
  revert m k. induction tr as [|e tr IH]; intros m k; [unfold survives; by rewrite take_nil, lookup_nil|]. intros [He Ht].
  destruct k as [|k]; [|split; [done|by apply IH]]. unfold survives. simpl. destruct e as [| |es|]; try done.
  destruct He as (i & Hr & Hi). split; [|done]. exists i. split; [done|]. intros n e Hk. apply lookup_take_Some in Hk as [Hk _]. by apply Hi.
Qed.

Lemma journal_replays tr m : trace_wf tr m -> apply_all (journal_of tr m) m = Ret (foldl (fun v e => apply_eff e v) m tr).
Proof.
  revert m. induction tr as [|e tr IH]; intros m; simpl; [done|]. intros [He Ht].
  rewrite apply_all_app, (apply_recs e m He). simpl. by apply IH.
Qed.

Lemma rollback_ok d tr J m b :
  apply_all J NewMemStore = Ret m -> numbered_mem m -> trace_wf tr m -> 0 < length (journal_of tr m) ->
  exists l cut k j, rollback d (mkLog (J ++ journal_of tr m) (length J) b (foldl (fun v e => apply_eff e v) m tr)) = Ret (l, cut) /\
    log_ok l /\ l_mem l = foldl (fun v e => apply_eff e v) m (survives tr k j) /\
    released cut (outbox_of (length J) tr m) = sends (take k tr).
Proof.
  intros HJ Hn Ht Hlen. unfold rollback. simpl. rewrite length_app. replace (length J + _ - length J) with (length (journal_of tr m)) by lia.
  destruct (Nat.eqb_spec (length (journal_of tr m)) 0); [lia|]. set (c := d mod length (journal_of tr m)).
  assert (c < length (journal_of tr m)) as Hc by (apply Nat.mod_upper_bound; lia).
  destruct (journal_cut (length J) tr m c Ht Hc) as (k & j & Ha & Hr).
  assert (apply_all (take (length J + c) (J ++ journal_of tr m)) NewMemStore = Ret (foldl (fun v e => apply_eff e v) m (survives tr k j))) as Hre.
  { rewrite take_app_add, apply_all_app, HJ. exact Ha. }
  unfold replay. cbn [l_journal]. rewrite Hre. simpl. eexists _, _, k, j. split; [done|]. split_and!; [|done|done].
  split; [done|]. apply numbered_trace; [by apply survives_wf|done].
Qed.

(** ** A step is a call of the cluster model *)

(** C40: The simulated disk is a disk of the cluster model.  Take a store whose
    journal replays to its state, and a step with any effects whose entries
    are numbered as they are stored.  The step returns.  If it is not torn,
    its store holds what the effects give in order, its journal, rewritten or
    not, replays to that, and every message is sent.  If it is torn, a restart
    finds what some first effects and part of the next write give, and the
    messages sent are exactly those of these effects: what [survives] and
    [take] leave of a call in the cluster model. *)
Theorem sim_step_is_a_call tr l torn :
  log_ok l -> trace_wf tr (l_mem l) ->
  exists l' ms b, run torn tr l = Ret (l', ms, b) /\ log_ok l' /\
    if (b : bool) then exists k j, l_mem l' = foldl (fun v e => apply_eff e v) (l_mem l) (survives tr k j) /\ ms = sends (take k tr)
    else l_mem l' = foldl (fun v e => apply_eff e v) (l_mem l) tr /\ ms = sends tr.
Proof.
  intros [Hj Hn] Ht. unfold run. destruct (do_effects_ok tr (checkpoint l) [] Ht) as (b & Hd). rewrite Hd. cbn [mbind go_bind fst snd checkpoint l_journal l_mark l_mem].
  pose proof (numbered_trace tr (l_mem l) Ht Hn) as Hn1. set (l1 := mkLog _ _ b _).
  assert (log_ok (commit l1)) as Hcm.
  { split; [|done]. unfold commit. destruct (l_rewrite l1); simpl; [by apply rewritten_ok|]. by rewrite apply_all_app, Hj; simpl; apply journal_replays. }
  assert (dirty l1 = (0 <? length (journal_of tr (l_mem l)))) as Hdirty.
  { unfold dirty. simpl. rewrite length_app. destruct (journal_of tr (l_mem l)); simpl; [apply Nat.ltb_ge; lia|apply Nat.ltb_lt; lia]. }
  unfold finish_step. destruct torn as [d|]; [rewrite Hdirty; destruct (Nat.ltb_spec 0 (length (journal_of tr (l_mem l))))|].
  2-3: exists (commit l1), (sends tr), false; simpl; by rewrite outbox_msgs.
  destruct (rollback_ok d tr (l_journal l) (l_mem l) b) as (l2 & cut & k & j & Hr & Hok & Hm & Hs); [done..|]. unfold l1. rewrite Hr.
  exists l2, (sends (take k tr)), true. simpl. rewrite Hs. split_and!; [done|done|]. by exists k, j.
Qed.

Definition ex_entry (i t : N) : Entry := mkEntry i t EntryNormal [].
Definition ex_effects : list effect :=
  [EState 1 2; ESend ex_vote; EAppend [ex_entry 1 1; ex_entry 2 1]; ESend ex_vote; ECompact 1 1 []; ESend ex_vote].

Lemma sim_step_is_a_call_witness :
  exists l' ms b, run (Some 2) ex_effects new_logStore = Ret (l', ms, b) /\ log_ok l' /\
    (b = true /\ ms_entries (l_mem l') = [ex_entry 1 1] /\ ms = [ex_vote]).
Proof.
  destruct (sim_step_is_a_call ex_effects new_logStore (Some 2)) as (l' & ms & b & Hr & Hok & _).
  - split; [reflexivity|]. by intros k e.
  - unfold ex_effects. cbn [trace_wf eff_wf]. split_and!; try exact I. exists 1%N. split; [split; vm_compute; [reflexivity|intros H; discriminate H]|].
    intros k e Hk. destruct k as [|[|k]]; simpl in Hk; [injection Hk as <-; reflexivity..|discriminate Hk].
  - exists l', ms, b. split; [exact Hr|]. split; [exact Hok|]. vm_compute in Hr. injection Hr as <- <- <-. done.
Defined.
End SimLog.

(** ** sim/invariants.go *)

Module SimCheck.

Record fingerprint := mkFp { fp_term : N; fp_hash : N }.

#[global] Instance fingerprint_eq_dec : EqDecision fingerprint.
Proof. solve_decision. Defined.

Definition no_fp : fingerprint := mkFp 0 0.
Definition fingerprintOf (e : Entry) : fingerprint := mkFp (e_Term e) (fnv64a (e_Data e)).

Record invariants := mkInv {
  v_leaders : gmap (N * N) NodeID;
  v_lastTerm : gmap NodeID N;
  v_committed : gmap N (list fingerprint);
  v_checked : gmap NodeID N;
  v_lastApply : gmap NodeID N;
}.

Definition newInvariants : invariants := mkInv ∅ ∅ ∅ ∅ ∅.

(** What the checks see of a node: its status when it is up, and its store. *)
Record sim_node := mkSimNode {
  sn_id : NodeID;
  sn_group : N;
  sn_status : option (N * State * N);
  sn_store : MemStore;
}.

(** A violation panics. *)
Definition inv_record (index : N) (fp : fingerprint) (log : list fingerprint) : go (list fingerprint) :=
  let log := log ++ replicate (N.to_nat index - length log) no_fp in
  match log !! N.to_nat (index - 1) with
  | None => Panic
  | Some cur =>
      if decide (cur = no_fp) then Ret (<[N.to_nat (index - 1) := fp]> log)
      else if decide (cur = fp) then Ret log else Panic
  end.

Fixpoint record_all (m : MemStore) (idx : list N) (log : list fingerprint) : go (list fingerprint) :=
  match idx with
  | [] => Ret log
  | i :: idx =>
      match ms_entries m !! N.to_nat (i - ms_snapIdx m - 1) with
      | None => Panic
      | Some e => log ← inv_record i (fingerprintOf e) log; record_all m idx log
      end
  end.

(** The indexes from [lo] through [hi]. *)
Definition indexes_to (lo hi : N) : list N := N.of_nat <$> seq (N.to_nat lo) (N.to_nat (hi + 1 - lo)).

Definition note_leader (key : N * N) (id : NodeID) (leaders : gmap (N * N) NodeID) : go (gmap (N * N) NodeID) :=
  match leaders !! key with
  | Some other => if (other =? id)%N then Ret (<[key := id]> leaders) else Panic
  | None => Ret (<[key := id]> leaders)
  end.

Definition check_node (n : sim_node) (v : invariants) : go invariants :=
  match sn_status n with
  | None => Ret v
  | Some (term, st, commit) =>
      if (term <? default 0%N (v_lastTerm v !! sn_id n))%N then Panic
      else
        leaders ← (if decide (st = Leader) then note_leader (sn_group n, term) (sn_id n) (v_leaders v) else Ret (v_leaders v));
        let checked := default 0%N (v_checked v !! sn_id n) in
        let lo := if (checked + 1 <=? ms_snapIdx (sn_store n))%N then (ms_snapIdx (sn_store n) + 1)%N else (checked + 1)%N in
        log ← record_all (sn_store n) (indexes_to lo commit) (default [] (v_committed v !! sn_group n));
        Ret (mkInv leaders (<[sn_id n := term]> (v_lastTerm v)) (<[sn_group n := log]> (v_committed v))
               (if (checked <? commit)%N then <[sn_id n := commit]> (v_checked v) else v_checked v) (v_lastApply v))
  end.

Fixpoint check (ns : list sim_node) (v : invariants) : go invariants :=
  match ns with
  | [] => Ret v
  | n :: ns => v ← check_node n v; check ns v
  end.

Definition checkRestart (n : sim_node) (v : invariants) : go invariants :=
  let c := default 0%N (v_checked v !! sn_id n) in
  if (lastLocked (sn_store n) <? c)%N && (ms_snapIdx (sn_store n) <? c)%N then Panic
  else Ret (mkInv (v_leaders v) (v_lastTerm v) (v_committed v) (v_checked v) (<[sn_id n := 0%N]> (v_lastApply v))).

(** ** No run fails the checks *)

Section Checks.
Context {S : Type} `{LS : LogStore S} `{OK : !LogStoreOK S}.
Context (peers : list NodeID) (Hnodup : NoDup peers) (Hzero : 0%N ∉ peers) (gid : N).

#[local] Abbreviation inv := (Safety.inv peers).
#[local] Abbreviation com := (com peers).
#[local] Abbreviation cstep := (cstep peers).
#[local] Abbreviation system := (cluster (S := S)).
Implicit Types (g : ghost) (w : world) (v : invariants).

Definition seen (c : system) (n : NodeID) : sim_node :=
  match c_node c n with
  | Up r _ => mkSimNode n gid (Some (r_term r, r_state r, r_commit r)) (ls_view (r_store r))
  | Down s _ => mkSimNode n gid None (ls_view s)
  end.

(** A node that was down and is up has just been started. *)
Fixpoint restarts (ns : list NodeID) (c c' : system) v : go invariants :=
  match ns with
  | [] => Ret v
  | n :: ns =>
      v ← (match c_node c n, c_node c' n with Down _ _, Up _ _ => checkRestart (seen c' n) v | _, _ => Ret v end);
      restarts ns c c' v
  end.

(** What is checked around an event. *)
Definition observe (c c' : system) v : go invariants := v ← restarts peers c c' v; check (seen c' <$> peers) v.

(** A run with its checks. *)
Inductive watched : system -> invariants -> Prop :=
  | watched_start c : c_start c -> watched c newInvariants
  | watched_step c c' v v' : watched c v -> cstep c c' -> observe c c' v = Ret v' -> watched c' v'.

(** The entry committed at [i] has this fingerprint. *)
Definition fact g (i : N) (fp : fingerprint) : Prop :=
  exists L e, com g i L /\ L !! N.to_nat (i - 1) = Some e /\ fp = fingerprintOf e.

Definition log_true g (log : list fingerprint) : Prop :=
  forall k fp, log !! k = Some fp -> fp = no_fp \/ fact g (N.of_nat k + 1) fp.

Record checks_true g w v : Prop := {
  ct_leaders : forall T n, v_leaders v !! (gid, T) = Some n -> g_led g T = Some n;
  ct_terms : forall n t, v_lastTerm v !! n = Some t -> (t <= a_term (w_node w n))%N;
  ct_log : log_true g (default [] (v_committed v !! gid));
  ct_checked : forall n i, v_checked v !! n = Some i -> (i <= a_cmax (w_node w n))%N;
}.

Lemma fact_fun g w i fp fp' : inv g w -> fact g i fp -> fact g i fp' -> fp = fp'.
Proof.
  intros Hinv (L & e & HL & He & ->) (L' & e' & HL' & He' & ->). rewrite (com_fun peers Hnodup g w i L L' Hinv HL HL') in He. congruence.
Qed.

Lemma checks_later g w g' w' v : gle g g' -> rtc (wstep peers) w w' -> checks_true g w v -> checks_true g' w' v.
Proof.
  intros Hle Hs []. destruct (steps_later peers _ _ Hs) as [Hm _]. constructor.
  - intros T n HT. apply (gle_led _ _ Hle). auto.
  - intros n t Ht. specialize (ct_terms0 n t Ht). destruct (Hm n). lia.
  - intros k fp Hk. destruct (ct_log0 k fp Hk) as [|(L & e & HL & ?)]; [by left|right]. exists L, e. split; [by eapply com_gle|done].
  - intros n i Hi. specialize (ct_checked0 n i Hi). destruct (Hm n). lia.
Qed.

(** ** One check *)

Lemma record_true g w i fp log :
  inv g w -> log_true g log -> (1 <= i)%N -> fact g i fp -> exists log', inv_record i fp log = Ret log' /\ log_true g log'.
Proof.
  intros Hinv Hl Hi Hf. unfold inv_record. set (log1 := log ++ _).
  assert (log_true g log1) as Hl1.
  { intros k x [Hk|[_ Hk]]%lookup_app_Some; [by apply Hl|]. apply lookup_replicate in Hk as [-> _]. by left. }
  assert (N.to_nat (i - 1) < length log1) as Hlt by (unfold log1; rewrite length_app, length_replicate; lia).
  destruct (lookup_lt_is_Some_2 log1 _ Hlt) as [cur Hcur]. rewrite Hcur.
  assert (N.of_nat (N.to_nat (i - 1)) + 1 = i)%N as Hk by lia.
  destruct (decide (cur = no_fp)) as [->|Hne].
  - eexists. split; [done|]. intros k x Hx. destruct (decide (k = N.to_nat (i - 1))) as [->|Hkn].
    + rewrite list_lookup_insert_eq in Hx by done. injection Hx as <-. right. by rewrite Hk.
    + rewrite list_lookup_insert_ne in Hx by done. by apply Hl1.
  - destruct (Hl1 _ _ Hcur) as [?|Hf']; [done|]. rewrite Hk in Hf'.
    rewrite (fact_fun g w i cur fp Hinv Hf' Hf) in *. rewrite decide_True by done. by exists log1.
Qed.

(** What a node has committed it stores, unless it is below its snapshot. *)
Lemma stored_entry g w n i :
  inv g w -> (ms_snapIdx (a_mem (w_node w n)) < i <= a_cmax (w_node w n))%N ->
  exists e, ms_entries (a_mem (w_node w n)) !! N.to_nat (i - ms_snapIdx (a_mem (w_node w n)) - 1) = Some e /\ fact g i (fingerprintOf e).
Proof.
  intros Hinv Hi. pose proof (n_base _ _ _ _ (i_node _ _ _ Hinv n)) as Hb.
  destruct (n_rel _ _ _ _ _ _ Hb) as (_ & -> & _). destruct (n_cpre _ _ _ _ _ _ Hb) as [Hlen _]. unfold len in Hlen.
  destruct (lookup_lt_is_Some_2 (g_G g n) (N.to_nat (i - 1)) ltac:(lia)) as [e He]. exists e. split.
  - rewrite lookup_drop, <-He. f_equal. lia.
  - exists (pre i (g_G g n)), e. split_and!; [by eapply com_node; [exact Hinv|lia]| |done]. unfold pre. rewrite lookup_take_lt by lia. done.
Qed.

Lemma stored_last g w n : inv g w -> (a_cmax (w_node w n) <= lastLocked (a_mem (w_node w n)))%N.
Proof.
  intros Hinv. pose proof (n_base _ _ _ _ (i_node _ _ _ Hinv n)) as Hb. pose proof (n_commit _ _ _ _ _ _ Hb) as Hc.
  destruct (n_rel _ _ _ _ _ _ Hb) as (_ & He & _). destruct (n_cpre _ _ _ _ _ _ Hb) as [Hlen _]. unfold len in Hlen.
  unfold lastLocked. rewrite He, length_drop. lia.
Qed.

Lemma record_all_true g w n idx log :
  inv g w -> log_true g log -> Forall (fun i => (ms_snapIdx (a_mem (w_node w n)) < i <= a_cmax (w_node w n))%N) idx ->
  exists log', record_all (a_mem (w_node w n)) idx log = Ret log' /\ log_true g log'.
Proof.
  intros Hinv Hl Hi. revert log Hl. induction Hi as [|i idx Hi _ IH]; intros log Hl; simpl; [by exists log|].
  destruct (stored_entry g w n i Hinv Hi) as (e & -> & Hf).
  destruct (record_true g w i (fingerprintOf e) log Hinv Hl ltac:(lia) Hf) as (log1 & -> & Hl1). simpl. by apply IH.
Qed.

Lemma indexes_range lo hi : Forall (fun i => (lo <= i <= hi)%N) (indexes_to lo hi).
Proof. unfold indexes_to. apply Forall_fmap, Forall_forall. intros k Hk%elem_of_seq. simpl. lia. Qed.

Lemma note_leader_true g T n leaders :
  (forall T n, leaders !! (gid, T) = Some n -> g_led g T = Some n) -> g_led g T = Some n ->
  exists leaders', note_leader (gid, T) n leaders = Ret leaders' /\ forall T n, leaders' !! (gid, T) = Some n -> g_led g T = Some n.
Proof.
  intros Hl Hn. unfold note_leader. assert (forall T' n', <[(gid, T) := n]> leaders !! (gid, T') = Some n' -> g_led g T' = Some n') as Hi.
  { intros T' n' [[[= <-] <-]|[_ Hx]]%lookup_insert_Some; auto. }
  destruct (leaders !! (gid, T)) as [other|] eqn:Eo; [|by eexists].
  apply Hl in Eo. assert (other = n) as -> by congruence. rewrite N.eqb_refl. by eexists.
Qed.

Lemma check_up g w v n r :
  inv g w -> checks_true g w v -> sim peers n (w_msgs w) r (w_node w n) ->
  exists v', check_node (mkSimNode n gid (Some (r_term r, r_state r, r_commit r)) (ls_view (r_store r))) v = Ret v' /\ checks_true g w v'.
Proof.
  intros Hinv [Hld Htm Hlog Hch] Hs. destruct (sim_store _ _ _ _ _ _ Hs) as [_ Hv].
  pose proof (n_commit _ _ _ _ _ _ (n_base _ _ _ _ (i_node _ _ _ Hinv n))) as Hcm.
  rewrite <-(sim_commit _ _ _ _ _ _ Hs) in Hcm. unfold check_node. cbn [sn_status sn_id sn_group sn_store].
  pose proof (sim_term _ _ _ _ _ _ Hs) as Ht. destruct (N.ltb_spec (r_term r) (default 0%N (v_lastTerm v !! n))) as [Hlt|_].
  { destruct (v_lastTerm v !! n) as [t|] eqn:Et; simpl in Hlt; [|lia]. specialize (Htm n t Et). lia. }
  assert (exists leaders, (if decide (r_state r = Leader) then note_leader (gid, r_term r) n (v_leaders v) else Ret (v_leaders v)) = Ret leaders /\
    forall T n, leaders !! (gid, T) = Some n -> g_led g T = Some n) as (leaders & -> & Hld').
  { case_decide as Hl; [|by eexists]. rewrite (sim_role _ _ _ _ _ _ Hs) in Hl. destruct (lead_facts peers g w n Hinv Hl) as (Hled & _).
    apply note_leader_true; [done|]. by rewrite Ht. }
  cbn [mbind go_bind]. cbv zeta. rewrite Hv.
  match goal with |- context [indexes_to ?x _] => set (lo := x) end.
  destruct (record_all_true g w n (indexes_to lo (r_commit r)) _ Hinv Hlog) as (log & -> & Hlog').
  { eapply Forall_impl; [apply indexes_range|]. intros i Hi. cbv beta in Hi. unfold lo in Hi.
    destruct (N.leb_spec (default 0%N (v_checked v !! n) + 1) (ms_snapIdx (a_mem (w_node w n)))); lia. }
  eexists. split; [done|]. constructor; simpl; [done| | |].
  - intros n' t [[<- <-]|[_ Hx]]%lookup_insert_Some; [by rewrite Ht|by apply Htm].
  - by rewrite lookup_insert_eq.
  - intros n' i. destruct (_ <? r_commit r)%N; [|by apply Hch]. intros [[<- <-]|[_ Hx]]%lookup_insert_Some; [lia|by apply Hch].
Qed.

(** ** A run *)

Lemma seen_store c w n : crel peers c w -> n ∈ peers -> sn_store (seen c n) = a_mem (w_node w n).
Proof.
  intros [_ Hr] Hn. specialize (Hr n Hn). unfold seen. destruct (c_node c n) as [r ap|s ap]; simpl in *; [|by destruct Hr as (_ & ? & _)].
  by destruct (sim_store _ _ _ _ _ _ (proj1 Hr)).
Qed.

Lemma check_true g w c v ns :
  inv g w -> crel peers c w -> (forall n, n ∈ ns -> n ∈ peers) -> checks_true g w v ->
  exists v', check (seen c <$> ns) v = Ret v' /\ checks_true g w v'.
Proof.
  intros Hinv Hrel. revert v. induction ns as [|n ns IH]; intros v Hns Hv; simpl; [by exists v|].
  assert (exists v1, check_node (seen c n) v = Ret v1 /\ checks_true g w v1) as (v1 & -> & Hv1).
  { pose proof Hrel as [Hms Hr]. specialize (Hr n (Hns n ltac:(by left))). unfold seen. destruct (c_node c n) as [r ap|s ap]; [|by exists v].
    destruct Hr as [Hs _]. rewrite <-Hms in Hs. by apply check_up. }
  simpl. apply IH; [|done]. intros n' Hn'. apply Hns. by right.
Qed.

Lemma restarts_true g w c c' v ns :
  inv g w -> crel peers c' w -> (forall n, n ∈ ns -> n ∈ peers) -> checks_true g w v ->
  exists v', restarts ns c c' v = Ret v' /\ checks_true g w v'.
Proof.
  intros Hinv Hrel. revert v. induction ns as [|n ns IH]; intros v Hns Hv; simpl; [by exists v|].
  assert (exists v1, (match c_node c n, c_node c' n with Down _ _, Up _ _ => checkRestart (seen c' n) v | _, _ => Ret v end) = Ret v1 /\ checks_true g w v1)
    as (v1 & -> & Hv1).
  { assert (exists v1, checkRestart (seen c' n) v = Ret v1 /\ checks_true g w v1) as Hc.
    { unfold checkRestart. rewrite (seen_store c' w n Hrel (Hns n ltac:(by left))). pose proof (stored_last g w n Hinv) as Hlast.
      assert (sn_id (seen c' n) = n) as -> by (unfold seen; by destruct (c_node c' n)).
      destruct (v_checked v !! n) as [i|] eqn:Ei; simpl; [|destruct (N.ltb_spec (lastLocked (a_mem (w_node w n))) 0); [lia|]].
      - pose proof (ct_checked _ _ _ Hv n i Ei). destruct (N.ltb_spec (lastLocked (a_mem (w_node w n))) i); [lia|].
        simpl. eexists. split; [done|]. by destruct Hv.
      - simpl. eexists. split; [done|]. by destruct Hv. }
    destruct (c_node c n), (c_node c' n); eauto. }
  simpl. apply IH; [|done]. intros n' Hn'. apply Hns. by right.
Qed.

Lemma observe_true g w c c' v :
  inv g w -> crel peers c' w -> checks_true g w v -> exists v', observe c c' v = Ret v' /\ checks_true g w v'.
Proof.
  intros Hinv Hrel Hv. unfold observe. destruct (restarts_true g w c c' v peers) as (v1 & -> & Hv1); [done..|]. by apply check_true.
Qed.

Lemma watched_true c v : watched c v -> exists w g, reachable peers w /\ crel peers c w /\ inv g w /\ checks_true g w v.
Proof.
  induction 1 as [c Hc|c c' v v' _ (w & g & Hw & Hrel & Hinv & Hv) Hst Ho].
  - destruct (creach_rel peers Hnodup Hzero c (creach_start _ _ Hc)) as (w & Hw & Hrel). destruct (reachable_inv peers Hnodup w Hw) as [g Hinv].
    exists w, g. by split_and!.
  - destruct (csim peers Hnodup Hzero c w c' Hw Hrel Hst) as (w' & Hs & Hrel'). destruct (steps_inv peers Hnodup g w w' Hinv Hs) as (g' & Hle & Hinv').
    destruct (observe_true g' w' c c' v Hinv' Hrel') as (v1 & Ho1 & Hv1); [by eapply checks_later|]. rewrite Ho in Ho1. injection Ho1 as <-.
    exists w', g'. split_and!; try done. by eapply reachable_rtc.
Qed.

(** C37: The simulator's checks never fail.  In any run of a group, with any
    faults, and after any step of it, the checks of the simulator find that
    no term went back, that every term has one leader, that every committed
    entry is still in its store or below a snapshot, and that it has the
    fingerprint which any node has ever had there; and a node that is
    restarted still has what it once reported committed.  None of them panics
    and none reads outside a log. *)
Theorem sim_checks_pass c v c' : watched c v -> cstep c c' -> exists v', observe c c' v = Ret v'.
Proof.
  intros Hw Hst. destruct (watched_true c v Hw) as (w & g & Hr & Hrel & Hinv & Hv).
  destruct (csim peers Hnodup Hzero c w c' Hr Hrel Hst) as (w' & Hs & Hrel'). destruct (steps_inv peers Hnodup g w w' Hinv Hs) as (g' & Hle & Hinv').
  destruct (observe_true g' w' c c' v Hinv' Hrel') as (v1 & Ho & _); [by eapply checks_later|by exists v1].
Qed.
End Checks.

(** ** The run of [Cluster], watched *)

#[local] Abbreviation ex_observe := (observe [1; 2; 3]%N 1).
#[local] Abbreviation ex_watched := (watched (S := MemStore) [1; 2; 3]%N 1).

Fixpoint watch (c : cluster (S := MemStore)) (v : invariants) (l : list act) : option (cluster (S := MemStore) * invariants) :=
  match l with
  | [] => Some (c, v)
  | a :: l =>
      match exec1 c a with
      | Some c' => match ex_observe c c' v with Ret v' => watch c' v' l | _ => None end
      | None => None
      end
  end.

Lemma watch_watched c v l c' v' : ex_watched c v -> watch c v l = Some (c', v') -> ex_watched c' v'.
Proof.
  revert c v. induction l as [|a l IH]; intros c v Hw; simpl; [by intros [= <- <-]|].
  destruct (exec1 c a) as [c1|] eqn:Ea; [|done]. destruct (ex_observe c c1 v) as [v1| |] eqn:Eo; [|done..].
  intros Hl. eapply IH; [|exact Hl]. eapply watched_step; [exact Hw|by eapply exec1_step|exact Eo].
Qed.

Lemma sim_checks_pass_witness :
  exists c v c', watch ex_start newInvariants (ex_elect ++ ex_commit) = Some (c, v) /\ exec1 c (ATick 1) = Some c' /\
    v_leaders v !! (1, 1)%N = Some 1%N /\ (length <$> v_committed v !! 1%N) = Some 1 /\ exists v', ex_observe c c' v = Ret v'.
Proof.
  assert (exists c v c', watch ex_start newInvariants (ex_elect ++ ex_commit) = Some (c, v) /\ exec1 c (ATick 1) = Some c' /\
    v_leaders v !! (1, 1)%N = Some 1%N /\ (length <$> v_committed v !! 1%N) = Some 1) as (c & v & c' & Hw & Ha & H1 & H2).
  { eexists _, _, _. split; [vm_compute; reflexivity|]. split_and!; vm_compute; reflexivity. }
  exists c, v, c'. split_and!; [exact Hw|exact Ha|exact H1|exact H2|].
  apply (sim_checks_pass [1; 2; 3]%N ex_nodup ex_zero 1 c v c'); [|exact (exec1_step c (ATick 1) c' Ha)].
  apply (watch_watched ex_start newInvariants (ex_elect ++ ex_commit)); [|exact Hw].
  apply watched_start. split; [reflexivity|]. intros n. exists NewMemStore. split_and!; [reflexivity|exact I|reflexivity].
Defined.
End SimCheck.

(** ** sim/client.go *)

Module SimClient.

Inductive opKind := opRegister | opGet | opPut | opDelete | opCas | opScan.

#[global] Instance opKind_eq_dec : EqDecision opKind.
Proof. solve_decision. Defined.

(** What an operation asks; where and when it was issued is left out. *)
Record clientOp := mkClientOp {
  op_kind : opKind;
  op_key : bytes;
  op_value : bytes;
  op_expected : bytes;
  op_absent : bool;
  op_log : bool;
  op_seq : N;
}.

Record client := mkClient { c_id : N; c_clientID : N; c_seq : N }.

(** The random numbers an operation is made of, in the order they are drawn. *)
Record draws := mkDraws { d_key : N; d_kind : N; d_absent : N; d_client : N; d_seq : N; d_mode : N }.

(** [fmt.Sprintf("c%d-%d", id, seq)]; 64 bits have at most twenty digits. *)
Definition value_of (id seq : N) : bytes := str "c"%string ++ digits 20 id ++ str "-"%string ++ digits 20 seq.

Definition newOp (c : client) (d : draws) : clientOp * client :=
  if (c_clientID c =? 0)%N then (mkClientOp opRegister [] [] [] false false 0, c)
  else
    let seq := (c_seq c + 1)%N in
    let c := mkClient (c_id c) (c_clientID c) seq in
    let key := str "k"%string ++ digits 20 (d_key d) in
    let log := (d_mode d =? 0)%N in
    let r := d_kind d in
    (if (r <? 30)%N then mkClientOp opGet key [] [] false log seq
     else if (r <? 60)%N then mkClientOp opPut key (value_of (c_id c) seq) [] false log seq
     else if (r <? 70)%N then mkClientOp opDelete key [] [] false log seq
     else if (r <? 90)%N then
       if (d_absent d =? 0)%N then mkClientOp opCas key (value_of (c_id c) seq) [] true log seq
       else mkClientOp opCas key (value_of (c_id c) seq) (value_of (d_client d) (1 + d_seq d)) false log seq
     else mkClientOp opScan key [] [] false log seq, c).

(** The command [encode] marshals. *)
Definition encode (c : client) (op : clientOp) : Command :=
  mkCommand (c_clientID c) (op_seq op) (Some
    match op_kind op with
    | opRegister => Register
    | opGet => OpGet (op_key op)
    | opPut => OpPut (op_key op) (op_value op)
    | opDelete => OpDelete (op_key op)
    | opCas => OpCas (op_key op) (if op_absent op then None else Some (op_expected op)) (op_value op)
    | opScan => OpScan [] [] 0 0
    end).

(** Whether [issue] asks for a read index instead of proposing. *)
Definition asks_read (op : clientOp) : bool :=
  (bool_decide (op_kind op = opGet) || bool_decide (op_kind op = opScan)) && negb (op_log op).

(** What [settle] reads once the read index is confirmed. *)
Definition read_answer (op : clientOp) (st : kvs) : Result :=
  if bool_decide (op_kind op = opGet) then read_result (kv_data st !! op_key op) false
  else mkResult false [] false 0 (kv_scan [] [] 0 0 (kv_data st)) false.

Record kvInput := mkIn { in_kind : opKind; in_key : bytes; in_value : bytes; in_expected : bytes; in_absent : bool }.
Record kvOutput := mkOutput { out_value : bytes; out_found : bool; out_ok : bool }.

(** The check of a scan's answer. *)
Fixpoint keys_sorted (kvs : list KeyValue) : bool :=
  match kvs with
  | a :: (b :: _) as rest => bool_decide (bcmp (kv_Key a) (kv_Key b) = Lt) && keys_sorted rest
  | _ => true
  end.

(** What a response adds to the history.  A violation panics. *)
Definition respond (op : clientOp) (res : Result) : go (list (kvInput * kvOutput)) :=
  match op_kind op with
  | opRegister => Ret []
  | opScan => if keys_sorted (res_Kvs res) then Ret [] else Panic
  | _ =>
      Ret [(mkIn (op_kind op) (op_key op) (op_value op) (op_expected op) (op_absent op),
            mkOutput (res_Value res) (res_Found res) (res_Success res))]
  end.

(** *** kvModel *)

Definition add_op (h : kvInput * kvOutput) (byKey : gmap bytes (list (kvInput * kvOutput))) :=
  <[in_key h.1 := default [] (byKey !! in_key h.1) ++ [h]]> byKey.

Definition by_key (history : list (kvInput * kvOutput)) : gmap bytes (list (kvInput * kvOutput)) :=
  foldl (fun byKey h => add_op h byKey) ∅ history.

Definition model_Partition (history : list (kvInput * kvOutput)) : list (list (kvInput * kvOutput)) :=
  (fun k => default [] (by_key history !! k)) <$> merge_sort ble (map_to_list (by_key history)).*1.

Definition model_Init : bytes := [].

Definition model_Step (st : bytes) (i : kvInput) (out : kvOutput) : bool * bytes :=
  let there := negb (bool_decide (st = [])) in
  match in_kind i with
  | opPut => (true, in_value i)
  | opDelete => (true, [])
  | opGet => (Bool.eqb (out_found out) there && bool_decide (out_value out = st), st)
  | opCas =>
      let matches := (in_absent i && bool_decide (st = [])) || (negb (in_absent i) && bool_decide (st = in_expected i)) in
      if negb (Bool.eqb (out_ok out) matches) || negb (Bool.eqb (out_found out) there) || negb (bool_decide (out_value out = st))
      then (false, st)
      else if matches then (true, in_value i) else (true, st)
  | _ => (false, st)
  end.

(** The model takes a history in this order. *)
Fixpoint accepts (st : bytes) (h : list (kvInput * kvOutput)) : bool :=
  match h with
  | [] => true
  | (i, out) :: h => let '(ok, st) := model_Step st i out in ok && accepts st h
  end.

(** ** Operations answered by the store's specification, one after another *)

Definition answer (c : client) (op : clientOp) (index : N) (st : kvs) : Result * kvs :=
  if asks_read op then (read_answer op st, st)
  else
    let '(res, m, sh) := kv_exec (cmd_Op (encode c op)) index st in
    (res, mkKvs m (kv_sessions st) sh index).

Fixpoint serve (l : list (client * draws)) (index : N) (st : kvs) : go (list (kvInput * kvOutput)) :=
  match l with
  | [] => Ret []
  | (c, d) :: l =>
      let '(op, c) := newOp c d in
      let '(res, st) := answer c op index st in
      h ← respond op res;
      rest ← serve l (index + 1) st;
      Ret (h ++ rest)
  end.

Definition reg (st : kvs) (k : bytes) : bytes := default [] (kv_data st !! k).

(** No value is empty and every shard is open. *)
Definition sane (st : kvs) : Prop := kv_shards st = ∅ /\ forall k, kv_data st !! k <> Some [].

Lemma value_not_empty id seq : value_of id seq <> [].
Proof. done. Qed.

Lemma sane_open st k : sane st -> writable (kv_shards st) k = true /\ readable (kv_shards st) k = true.
Proof. intros [-> _]. split; reflexivity. Qed.

Lemma reg_there st k : sane st -> bool_decide (is_Some (kv_data st !! k)) = negb (bool_decide (reg st k = [])).
Proof.
  intros [_ Hs]. unfold reg. specialize (Hs k). destruct (kv_data st !! k) as [v|]; simpl; [|done].
  by destruct v.
Qed.

Lemma scan_keys_sorted l : StronglySorted kv_lt l -> forall n size, keys_sorted (bounded 0 0 l n size) = true.
Proof.
  induction 1 as [|[k v] l Hs IH Hall]; intros n size; [done|]. specialize (IH (n + 1) (size + length k + length v)).
  destruct l as [|[k' v'] l]; [done|]. apply Forall_cons_1 in Hall as [Hlt _]. unfold kv_lt in Hlt. simpl in *. by rewrite Hlt.
Qed.

(** What [newOp] sees to: values and expectations are not empty. *)
Definition drawn (op : clientOp) : Prop :=
  match op_kind op with
  | opPut => op_value op <> []
  | opCas => op_value op <> [] /\ (op_absent op = false -> op_expected op <> [])
  | _ => True
  end.

Lemma newOp_drawn c d : drawn (newOp c d).1.
Proof. unfold newOp. repeat case_match; unfold drawn; simpl; auto using value_not_empty. Qed.

(** The part of a history about one key. *)
Abbreviation about k := (filter (fun h : kvInput * kvOutput => in_key h.1 = k)).

Lemma sane_insert st k v i ss : sane st -> v <> [] -> sane (mkKvs (<[k := v]> (kv_data st)) ss (kv_shards st) i).
Proof. intros [H1 H2] Hv. split; [done|]. intros k'. simpl. rewrite lookup_insert_Some. naive_solver. Qed.

Lemma sane_delete st k i ss : sane st -> sane (mkKvs (delete k (kv_data st)) ss (kv_shards st) i).
Proof. intros [H1 H2]. split; [done|]. intros k'. simpl. rewrite lookup_delete_Some. naive_solver. Qed.

(** The answers while every shard is open. *)
Definition expects (op : clientOp) : option bytes := if op_absent op then None else Some (op_expected op).

Lemma answer_eq c op index st :
  sane st ->
  answer c op index st =
    (let m := kv_data st in
     let v := m !! op_key op in
     let next m := mkKvs m (kv_sessions st) (kv_shards st) index in
     let same := if asks_read op then st else next m in
     match op_kind op with
     | opRegister => (mkResult false [] false index [] false, same)
     | opGet => (read_result v false, same)
     | opPut => (success, next (<[op_key op := op_value op]> m))
     | opDelete => (success, next (delete (op_key op) m))
     | opCas => (read_result v (cas_ok (expects op) v), next (if cas_ok (expects op) v then <[op_key op := op_value op]> m else m))
     | opScan => (mkResult false [] false 0 (kv_scan [] [] 0 0 m) false, same)
     end).
Proof.
  intros Hs. pose proof (sane_open st (op_key op) Hs) as [Hw Hr]. unfold answer, asks_read, read_answer, encode, expects.
  destruct (op_kind op); simpl; rewrite ?Hw, ?Hr; try done; by destruct (op_log op).
Qed.

(** A command or read leaves the other keys alone. *)
Lemma answer_other c op index st k :
  sane st -> op_key op <> k -> kv_data (answer c op index st).2 !! k = kv_data st !! k.
Proof.
  intros Hs Hne. rewrite answer_eq by done. cbv zeta.
  destruct (op_kind op), (asks_read op), (cas_ok (expects op) (kv_data st !! op_key op)); simpl; try done;
    (by rewrite lookup_insert_ne) || (by rewrite lookup_delete_ne).
Qed.

Lemma answer_sane c op index st : drawn op -> sane st -> sane (answer c op index st).2.
Proof.
  intros Hd Hs. rewrite answer_eq by done. cbv zeta. unfold drawn in Hd.
  destruct (op_kind op), (asks_read op), (cas_ok (expects op) (kv_data st !! op_key op)); simpl; try done; try (by apply sane_delete);
    apply sane_insert; naive_solver.
Qed.

(** The model's test of a compare-and-swap is the store's. *)
Lemma cas_matches op st :
  sane st -> op_kind op = opCas -> drawn op ->
  (op_absent op && bool_decide (reg st (op_key op) = [])) || (negb (op_absent op) && bool_decide (reg st (op_key op) = op_expected op)) =
  cas_ok (expects op) (kv_data st !! op_key op).
Proof.
  intros [_ Hs] Hk Hd. unfold drawn in Hd. rewrite Hk in Hd. unfold cas_ok, expects, reg. specialize (Hs (op_key op)).
  destruct Hd as [_ Hx]. destruct (op_absent op), (kv_data st !! op_key op) as [v|]; cbn [from_option id andb orb negb];
    rewrite ?orb_false_r; apply bool_decide_ext; naive_solver.
Qed.

(** At its own key, an answer is a step of the model. *)
Lemma answer_step c op index st i o :
  drawn op -> sane st -> respond op (answer c op index st).1 = Ret [(i, o)] ->
  in_key i = op_key op /\ model_Step (reg st (op_key op)) i o = (true, reg (answer c op index st).2 (op_key op)).
Proof.
  intros Hd Hs. pose proof (reg_there st (op_key op) Hs) as Ht. pose proof (cas_matches op st Hs) as Hc.
  rewrite answer_eq by done. unfold respond, model_Step.
  destruct (op_kind op) eqn:Ek; simpl; [done| | | | |by destruct (keys_sorted _)]; intros [= <- <-]; simpl; (split; [done|]).
  - rewrite Ht, Bool.eqb_reflx, bool_decide_true by done. by destruct (asks_read op).
  - unfold reg. simpl. by rewrite lookup_insert_eq.
  - unfold reg. simpl. by rewrite lookup_delete_eq.
  - rewrite Hc, Ht, !Bool.eqb_reflx, bool_decide_true by done. simpl.
    destruct (cas_ok _ _); [|done]. unfold reg. simpl. by rewrite lookup_insert_eq.
Qed.

(** A response adds at most one operation to the history, and none is a violation. *)
Lemma respond_one c op index st :
  sane st -> exists h, respond op (answer c op index st).1 = Ret h /\
    ((exists i o, h = [(i, o)]) \/ h = [] /\ kv_data (answer c op index st).2 = kv_data st).
Proof.
  intros Hs. rewrite answer_eq by done. unfold respond. destruct (op_kind op); simpl; try (by eauto 6).
  - exists []. split; [done|]. right. by destruct (asks_read op).
  - unfold kv_scan. cbn [N.to_nat]. rewrite scan_keys_sorted by apply range_sorted. exists []. split; [done|]. right. by destruct (asks_read op).
Qed.

(** A sequential history is one the model takes at every key. *)
Lemma serve_accepted l index st :
  sane st -> exists h, serve l index st = Ret h /\ forall k, accepts (reg st k) (about k h) = true.
Proof.
  revert index st. induction l as [|[c d] l IH]; intros index st Hs; [by exists []|]. simpl.
  pose proof (newOp_drawn c d) as Hd. destruct (newOp c d) as [op c']. simpl in Hd.
  pose proof (answer_sane c' op index st Hd Hs) as Hs'. pose proof (answer_step c' op index st) as Hst.
  pose proof (answer_other c' op index st) as Ho. destruct (respond_one c' op index st Hs) as (h & Hh & Hone).
  destruct (answer c' op index st) as [res st']. simpl in *. rewrite Hh. simpl.
  destruct (IH (index + 1)%N st' Hs') as (rest & -> & Hk). simpl. exists (h ++ rest). split; [done|]. intros k.
  rewrite filter_app. specialize (Hk k). destruct Hone as [(i & o & ->)|[-> Hsame]].
  - destruct (Hst i o Hd Hs Hh) as [Hi Hm]. rewrite filter_cons, filter_nil. simpl. rewrite Hi.
    destruct (decide (op_key op = k)) as [<-|Hne]; simpl; [by rewrite Hm|]. unfold reg in *. by rewrite <- Ho.
  - unfold reg in *. by rewrite <- Hsame.
Qed.

Lemma by_key_add h k m : default [] (foldl (fun byKey x => add_op x byKey) m h !! k) = default [] (m !! k) ++ about k h.
Proof.
  revert m. induction h as [|x h IH]; intros m; simpl; [by rewrite app_nil_r|]. rewrite IH, filter_cons. unfold add_op.
  destruct (decide (in_key x.1 = k)) as [<-|Hne]; [|by rewrite lookup_insert_ne]. rewrite lookup_insert_eq. cbn [from_option id]. by rewrite <- app_assoc.
Qed.

(** The simulator judges the store by the right model.  Whatever
    operations its clients draw, in whatever order the store takes them, the
    answers of the store's specification raise no violation (a scan is
    sorted), and in that order the register of every key accepts the history
    that is recorded: a history is refused only when the store is wrong or
    the order does not exist. *)
Theorem sim_model_accepts l index :
  exists h, serve l index kvs0 = Ret h /\ Forall (fun part => accepts model_Init part = true) (model_Partition h).
Proof.
  destruct (serve_accepted l index kvs0) as (h & Hh & Hk); [by split|]. exists h. split; [done|].
  apply Forall_fmap, Forall_true. intros k. unfold compose, by_key. rewrite by_key_add. exact (Hk k).
Qed.

End SimClient.
